(* ===== verification/_CoqProject ===== *)
-Q . S2P
Prelude.v
RustStr.v
Tonic.v
Store.v
Prog.v
Concurrency.v
Policy.v
Glob.v
Mandate.v
WorkCase.v
Protocol.v
Approval.v
Outbox.v
Submission.v
CaseStore.v
PolicyEngine.v
Trigger.v
Attention.v
Proactive.v
CaseFlow.v
Task.v
Dependency.v
NightWindow.v
Placement.v
Merge.v
Events.v
Conflict.v
Checkpoint.v
ScheduleStore.v
Scheduler.v
SchedulerProps.v
Envelope.v
Graph.v
GraphStore.v
GraphMirror.v
GraphSteps.v
GraphProps.v
GraphPlane.v
GraphRuns.v
WorkerRegistry.v
TaskBackend.v
GatewayStore.v
GatewayStoreProps.v
GatewayDurable.v
GatewayFence.v
GatewayEvents.v
GatewayService.v
GatewayRpc.v
GatewayDispatch.v
Executor.v
Dispatchers.v
Writes.v
Edge.v
TaskWire.v
ApprovalService.v
CaseService.v
AttentionService.v
TriggerService.v
ProactiveService.v
Bridge.v
GovernanceApi.v
GovernanceWrites.v
Intake.v
Ranking.v
Memory.v
MemoryProps.v
MemoryRpc.v
Sandbox.v
SandboxPool.v
SandboxPoolProps.v
FileTracker.v
Search.v
Embedding.v
RateLimiter.v
Agents.v
WindowWatcher.v
Tokenizer.v
TextIndex.v
Metadata.v
IndexPipeline.v
