(* ===== verification/Prelude.v ===== *)
(** * UltimateCoders: governance, dispatch and knowledge of the gateway

    UltimateCoders is a gateway that hands coding work to agents.  Its governance
    plane decides who may do what and keeps the durable state of that decision:
    policy and mandates (authority), cases (governed work), submissions and their
    outbox (exactly-once intake), human approvals of dangerous tools, triggers
    and subscriptions (external events), attention items (what a case waits
    for), and proactive proposals with a watchdog (bounded autonomy).  The data
    and their rules are in crates/uc-types/src/governance, the stores and
    services over them in crates/uc-engine/src/governance; everything durable is
    a JSON document in one record store (record_store.rs) with optimistic
    concurrency by version.  Work that was admitted is decomposed into subtasks,
    ordered by dependency, held back outside a night window and placed on workers
    (crates/uc-engine/src/scheduler, crates/uc-grpc/src/placement.rs).  A scheduler
    fires recurring and one-shot jobs, an execution graph in Postgres
    (graph_store.rs) is the authority on which attempt of a subtask counts, task
    histories are recorded as events with snapshots (checkpoint.rs), and edits of
    parallel workers are merged (conflict).  The task service of the gateway
    (crates/uc-grpc/src/server.rs) holds the tasks in memory, publishes their ready
    subtasks to workers over NATS, applies what workers report, carries out the
    control commands of clients and streams events to them; it persists what it
    holds through an event log and a task backend (uc-engine task_store.rs), and
    selects workers with a registry (worker_service.rs).  Clients reach the governance
    plane through gRPC services (crates/uc-grpc/src/governance) and through a bridge
    over NATS request and reply (governance/bridge.rs), which share their rules.  Beside
    them stand the memory of the agents (uc-engine memory), the index of their code and
    the searches over it (indexer, search, metadata), the sandboxes in which the agents
    run (sandbox) and the limits on their model calls (rate_limiter.rs).  This library
    models the governance plane with both of its edges, the dispatch path, the task
    service with its intake, memory, search and indexing, sandboxes and limits.

    ** How the code is modelled

    Pure methods are functions with the source's guards and early returns in
    order; a method that mutates its receiver returns the new value.  Errors are
    values of [result].  Names follow the source, with the type in front where a
    name repeats ([CaseStore_get], [MandateStore_get]).  Machine integers are
    [Z] with the saturation or wrap-around of the source written out; a
    [DateTime<Utc>] is a [Z] of nanoseconds; [f64] and [f32] values are
    [spec_float]; strings are Rocq strings.  The clock and fresh UUIDs are
    arguments.  An [async fn] is a [prog] (Prog.v): a tree whose nodes are the
    store operations it awaits, so a program can be run alone ([run]) or
    interleaved with others at every await ([step], Concurrency.v).  A
    compare-and-swap loop is [cas_loop] with the source's number of rounds.  A database
    transaction is a state monad over the tables that keeps its writes only when
    it ends well ([tx], [transaction] of GraphStore.v); the merge grants, which
    are not in one transaction, are machines with a program counter whose
    statements are interleaved with each other and with the transactions
    ([grant_step] of GraphRuns.v).  The operations and callbacks of the scheduler
    are one step each, although the code writes memory and store one after the
    other; SchedulerProps.v shows a run in which that matters.  The gateway's store is guarded by a mutex, so
    each of its operations is one step; the writes it spawns are queues of the
    state ([event_queue], [task_queue], [graph_spawned]) whose heads other steps
    perform, and awaiting a barrier empties its queue.  A dispatch takes the mutex
    once to select the ready subtasks and once per publication, so it is a sequence
    of the steps [select_ready] and [publish_one], and passes are interleaved with
    commands and reports between them ([dispatch_step] of GatewayDispatch.v); whether a publication succeeds
    is told by a [Network], an argument.  A handler of the governance edge is a
    [prog] over the same store that answers with a [Status] (Tonic.v); the outcome of
    each NATS request is an argument.  The sandbox pool has two mutexes and awaits
    while it holds them, so its operations are trees of lock, unlock and vector
    operations ([pprog] of SandboxPool.v) that are interleaved at every one of them;
    a call of the rate limiter is a machine whose steps are its atomic accesses; the
    watchers of the night window are a fleet of gateways with one flag each.  A walk
    over files reads one snapshot of a tree ([FsNode]).  The retries of an API call
    take the configured number of rounds.  Four loops take fuel, all proved sufficient:
    the glob matcher (twice the size of its visited matrix plus one, a bound on
    the pushes of its stack), the layering of subtasks (one turn per subtask, each
    of which visits a new one), the backtracking of the line diff (the sum of both
    lengths) and the downstream closure of a graph (one turn per node plus one).

    Code outside the repository is a parameter: SHA-256 ([Sha256], with
    [Sha256Ok] for its length), the JSON encoding of documents ([Serde], with
    [SerdeOk]: encoding succeeds and is read back), accessors of JSON values
    ([Json], [MetadataJson]), the time zones of chrono ([TimeZones], with
    [TimeZonesOk]), cron expressions and the job runtime ([Croner],
    [JobScheduler]), the error texts of the database driver ([PgDriver],
    [PgErrors]), the collation of its text ([Collation], a total order), the JSON text of a context block ([BlockJson]), of the subtasks of
    a row ([SubtasksJson]) and of streamed event data ([EventText]), the orders in
    which a hash map yields its entries ([values], [iter]), the renderings of
    floats and of [Debug] output, and at the governance edge the texts of case fields
    ([CaseText]), the conversion of wire times ([UnixTime]), the names of deny reasons
    and status codes ([DenyReasonDebug], [CodeDisplay]) and the decoding of bridge
    messages ([BridgeWire]); for memory and search TiKV and Qdrant ([RawKv], [VectorDb],
    with their laws), the JSON of stored entries and contents ([StoredJson],
    [ContentJson]), times as text ([Rfc3339]), BLAKE3 ([Blake3], [ChunkDigest]), the
    answers of the embedding API ([HttpReply]), tree-sitter ([AstParser]), git
    ([GitRepos], [Git]), the [regex] crate and the logarithm of a float; for the
    sandboxes the operating system's processes ([Process]), the maker of sandboxes
    ([SandboxFactory]) and serde's reading of an agent's output ([ValueParse],
    [AgentConfigJson]).  Every
    property that assumes something about them has a witness in which they are
    concrete functions.

    ** The files

    - Prelude.v: results, machine integers, list functions of Rust's iterators,
      automation.  RustStr.v: strings, digests, floats.
    - Store.v: the record store ([RecordStore]), its in-memory
      and Postgres backends, the laws clients rely on ([RecordStoreOk]) and
      the proof that both backends satisfy them; the two backends simulate each
      other but for a conditional write to an absent document, versions at the end
      of [i64] and listings, whose order in the database is its collation's.
    - Prog.v, Concurrency.v, Protocol.v: programs, interleavings with a
      rely-guarantee weakest precondition ([wp], sound by [wp_adequate]), and
      document protocols: how a component may create and replace the documents
      of its namespace, with the consequences for every interleaving (creation
      happens once, a final state is entered once, histories are linked).  The
      component files prove that their programs follow their protocol; the
      properties quantify over every pool of calls, every interleaving and both
      backends.
    - Policy.v (uc-types policy.rs), Glob.v and Mandate.v (mandate.rs),
      WorkCase.v (workcase.rs): the rules of authority and of cases.
    - Approval.v (approval.rs, approvals.rs), Outbox.v (submission.rs,
      outbox.rs), Submission.v (submission.rs of both crates), CaseStore.v
      (case_store.rs), PolicyEngine.v (uc-engine policy.rs), Trigger.v
      (trigger.rs, trigger_inbox.rs), Attention.v (attention.rs of both crates),
      Proactive.v (proactive.rs of both crates, watchdog.rs), CaseFlow.v
      (case_wake.rs, case_resume.rs): the documents and the programs over them.
    - Task.v (uc-types agent.rs), Dependency.v (scheduler/dependency.rs),
      NightWindow.v (scheduler/night_window.rs), Placement.v (uc-grpc
      placement.rs): the data and the rules of dispatch.
    - Merge.v (conflict/merger.rs), Conflict.v (conflict/mod.rs): the three-way
      merge over a longest common subsequence, and the detector of overlapping
      edits.
    - Events.v (events.rs), Checkpoint.v (checkpoint.rs): the event log as a
      class with its in-memory instance, and snapshots with the reducer that
      recovers a task from them.
    - ScheduleStore.v (uc-types scheduler.rs, scheduler/store.rs), Scheduler.v and
      SchedulerProps.v (scheduler/service.rs, lock.rs): the job records with both
      stores behind one class, the service with its registry, callbacks, retries
      and recovery, and its properties over every history of operations.
    - Envelope.v (uc-types envelope.rs): what a worker is sent, and its packing.
    - Graph.v (uc-types graph.rs, the pure half of graph_store.rs), GraphStore.v
      (the tables and the verbs), GraphMirror.v (shadow writes, backfills and
      reads), GraphSteps.v (an abstract step relation on nodes, attempts and
      completions, and the proof that every verb refines it), GraphProps.v,
      GraphPlane.v and GraphRuns.v (the properties, proved on the step relation and
      carried to the verbs, those of the import, the mirror and the merge grants, and
      runs of the verbs with mirror writes, imports and grants among them).

    - WorkerRegistry.v (uc-grpc worker_service.rs), TaskBackend.v (uc-engine
      task_store.rs, with the contract [TaskBackendOk] of a backend),
      GatewayStore.v ([TaskStore] of server.rs): what the task service keeps.
      GatewayStoreProps.v, GatewayDurable.v, GatewayFence.v: the properties of the
      store against the contracts of the log and of the backend, and concrete stores.
    - GatewayEvents.v (events on the wire, conversions.rs), GatewayService.v (the two
      dispatch mouths), GatewayRpc.v (control RPCs, timers, the subscriber, the
      watching of tasks), GatewayDispatch.v (their properties, and concrete
      gateways).
    - Executor.v (scheduler/executor.rs and its executors), Dispatchers.v (the
      dispatchers of scheduled work, and concrete ones).
    - Tonic.v (statuses of gRPC), Writes.v (which documents a program may write, a
      compositional bound with its tactic), Edge.v (governance/mod.rs and the shared
      guards of the handlers), ApprovalService.v, CaseService.v, AttentionService.v,
      TriggerService.v, ProactiveService.v (the services of the same names), Bridge.v
      (the bridge's own operations), GovernanceApi.v (every operation of the edge as
      one table, reached by either transport), GovernanceWrites.v (the table of
      documents each operation may write, and concrete runs).
    - TaskWire.v (tasks and events as messages and back, conversions.rs), Intake.v
      (SubmitTask over the submissions, the outbox and the task store, and the
      checkpoint RPCs, server.rs; the task store of the gateway as the tasks the edge
      resumes; concrete intakes).
    - Ranking.v (sorting by score and truncating), Memory.v and MemoryProps.v (memory:
      both layers, the store over them, replays), MemoryRpc.v (its RPCs and messages, and
      concrete stores).
    - Sandbox.v (sandbox/mod.rs, subprocess.rs), SandboxPool.v and SandboxPoolProps.v
      (pool.rs), FileTracker.v (file_tracker.rs), Agents.v (the adapters
      of sandbox/agents).
    - Search.v (search and the semantic half of the indexer), Embedding.v (the embedding service), Tokenizer.v and
      TextIndex.v (indexer/text.rs), Metadata.v (metadata/postgres.rs,
      indexer/ast.rs), IndexPipeline.v (indexer/mod.rs, git/repo_manager.rs, and concrete repositories and queries).
    - RateLimiter.v (rate_limiter.rs), WindowWatcher.v (scheduler/config.rs,
      window_watcher.rs).

    Each file ends with its properties, numbered C1, C2, .., and their
    witnesses.

    ** What is shown

    - Authority: the evaluation of grants is its documented decision table and
      never exceeds the structural ceiling; a mandate permits exactly what its
      scopes cover, in the glob language the matcher is proved to decide;
      delegation and intersection only narrow, under provisos that are shown to
      be needed; a tool call is allowed only with the permission, with a mandate
      of its case where the tool needs one, and for irreversible tools with a
      human consent that no other call spends; mandates are issued only by
      principals that may.
    - Exactly-once behaviour under interleavings: a submission id creates one
      task and every answer about it agrees, an outbox entry is claimed by one
      dispatcher at a time and retried a bounded number of times, an event is
      accepted once, a consent is spent once, a proposal is executed once per
      approval and only after it, a withdrawn mandate stays withdrawn, and
      updates of a case are linearized and keep its invariant.
    - Functional behaviour of the operations on every branch: runs of a case,
      submissions, routing of events, waking and resuming of cases, the
      attention board and its projections, the gate of proposals and the
      watchdog's verdicts.
    - Dispatch: subtasks are layered by dependency depth or rejected exactly for
      a cycle, without a panic; a placement is the best eligible worker in the
      documented order and does not depend on the order of the registry; the
      next opening of the night window is the first one, in zones without clock
      changes.
    - Scheduling: when operations and callbacks do not overlap, what the service shows
      is what a restart loads; an unaccepted
      one-shot is retried a bounded number of times, and a job survives its way
      through the database.
    - Execution graph: every verb refines the step relation, under which nodes
      move along the legal edges only, are dispatched after their dependencies,
      complete at most once and are attempted a bounded number of times; completions
      are final and nodes move legally whatever is mirrored or imported, and the
      tables stay consistent as long as the mirror is in step with them; a fenced
      attempt changes nothing; the recomputation of ready nodes and the closure
      are exact; imports are consistent, mirror writes move nothing, and a merge
      grant is spent once, however the statements of the calls are interleaved.
    - Recovery and merging: recovering a task from a snapshot is replaying its
      whole history; merging is total, and without conflicts it is the weave of both
      sides.
    - Task service: a report never revives a task or node that was cancelled or
      paused, a retry fences the reports stamped with an earlier attempt, a message is applied once within
      its window, the map of tasks stays bounded by dropping exactly the oldest that
      have ended; a command that is answered is in the log and in the backend, and a
      lost event is never followed by a success; a dispatch selects exactly the
      subtasks that may run, publishes each once under the key of its attempt, and
      after a pause only passes begun before it publish, what they had selected; a review goes to a worker that did
      not write what it reviews; an event read back from the stream is the event.
    - Governance edge: in every interleaving, an operation writes only documents its
      row of a table allows for its caller, where the project asked about is that of
      the case the store held under the id of the request;
      both transports give the same answer to the same call; a flow that resumes a
      case leaves each task it reports held by the task store.
    - Scheduled work: the selector runs a node locally, on a worker or nowhere exactly
      as its two executors allow; a decomposition publishes each of its subtasks once,
      in the order of their layers, up to the first publication that fails.
    - Intake: of any pool of SubmitTask calls and dispatchers, each success names the
      task derived from its submission, the task store holds it, and calls with one
      submission id agree; a task and a memory entry that a client reads are those
      the gateway holds.
    - Memory: the short-term store is a map whichever backend it has, replayed writes
      are serializable and converge to the newest version, and a search without a
      vector database is the best of all entries.
    - Sandboxes: in every interleaving no sandbox is in two hands, as long as clients
      return only what they hold, and some call can go on; a warmed pool whose callers do not overtake each other stays within its
      limit; what git prints is read back; an agent's run counts as a success exactly
      when it ended well.
    - Search and indexing: the text index is a map of documents through every history
      of indexing and removing, a keyword search answers exactly the documents with a
      token of the query and a regular expression those with a token it matches, a
      query is cut like the lines it asks for, a path pattern matches what its stars
      say, an incremental indexing ends where a full one does, an indexed symbol is
      found under its name, results of several searches are merged by place, retries
      of the embedding API end and its cache is invisible.
    - Limits and windows: the limiter exceeds its limit by no more than the callers
      that overlap, a fallback chain of different models ends, a declaration of jobs
      is resolved entry by entry, and every gateway publishes exactly the changes of
      the window that it sees.
    - Departures of the code from its documentation, each as a theorem on the
      definitions: containment of glob patterns and budgets, a conditional write
      that resurrects a deleted document, starvation of the outbox scan, a
      failed fan-out that is never repeated, refused proposals that stay
      actionable, a second live mandate, a window end that is a day late, a mirror
      write that blocks the commit it mirrors, late reports credited to a newer
      attempt, a merge that drops the neighbour of a conflict, paused jobs that
      fire, a third retry that is never dispatched, two dispatch mouths that treat a
      lost connection differently, a re-armed attempt that reuses its key, a watcher
      that drops new events, a mandate of another project that is accepted, a case
      left behind by a creation that was refused, a check that spends a permit, a
      report that closes a question, a resume that is published although it failed,
      a scheduler lock that excludes nobody, a dispatcher that panics, a repository
      whose interrupted indexing is reported healthy, references that are never stored,
      a pool that deadlocks and one that exceeds its limit, a replay that overwrites a
      newer write, memory keys that collide, and others beside them.

    ** What is not modelled

    The Python workers and their bindings (uc-python), the binary of the gateway, its
    gRPC client and the dashboard convert arguments, start processes and render what
    the modelled components hold; they have no rules of their own.  The extraction of
    symbols walks trees of tree-sitter, a type of a library that is not part of the
    repository, and is a parameter.  The handlers that hand a search or an index
    request on to the engine, the engine that hands it on to a component, migrations,
    connecting, subscribing and killing processes are input and output.  Logging has
    no model.  In the Postgres backends the SQL statements are modelled by their
    effect on the tables, each statement atomic; the connection pool is reduced
    to whether the database answers.  The listing of records is ordered by a collation;
    the text columns of other tables are ordered by their bytes.  An append to the
    in-memory event log is one step; the code draws the offset and pushes the event in
    two, so concurrent appends may be pushed in the other order.
    Strings are sequences of 8-bit characters,
    so Unicode case folding and white space outside Latin-1 are not covered. *)

From stdpp Require Export base gmap sets list strings pretty sorting.
From Stdlib Require Export ZArith Lia.

#[global] Open Scope Z_scope.

(** ** Notations *)

Declare Scope rust_scope.
Delimit Scope rust_scope with rust.
#[global] Open Scope rust_scope.

(** Rust's [==] on a type with decidable equality. *)
Notation "x ==? y" := (bool_decide (x = y)) (at level 70) : rust_scope.
Notation "x !=? y" := (negb (bool_decide (x = y))) (at level 70) : rust_scope.

(** ** Results *)

(** Rust's [Result<A, E>]. *)
Inductive result (A E : Type) : Type :=
| Ok (a : A)
| Err (e : E).
Arguments Ok {A E} a.
Arguments Err {A E} e.

Definition is_ok {A E} (r : result A E) : bool :=
  match r with Ok _ => true | Err _ => false end.

Definition map_err {A E F} (f : E → F) (r : result A E) : result A F :=
  match r with Ok a => Ok a | Err e => Err (f e) end.

Definition map_ok {A B E} (f : A → B) (r : result A E) : result B E :=
  match r with Ok a => Ok (f a) | Err e => Err e end.

Definition or_else {A} (a b : option A) : option A := match a with Some _ => a | None => b end.
Definition result_bind {A B E} (r : result A E) (f : A → result B E) : result B E :=
  match r with Ok a => f a | Err e => Err e end.

(** [let? x := r in k] is Rust's [let x = r?; k]. *)
Notation "'let?' x ':=' r 'in' k" := (result_bind r (λ x, k))
  (at level 200, x pattern, r at level 100, k at level 200) : rust_scope.

#[export] Instance result_eq_dec {A E} `{EqDecision A, EqDecision E} :
  EqDecision (result A E).
Proof. solve_decision. Defined.

(** ** Instants and machine integers *)

(** [DateTime<Utc>] and [Duration]: nanoseconds.  chrono's [timestamp_millis]
    and [timestamp_micros] round towards minus infinity. *)
Notation Instant := Z (only parsing).
Definition timestamp_millis (t : Instant) : Z := t `div` 1000000.
Definition timestamp_micros (t : Instant) : Z := t `div` 1000.
Definition minutes (n : Z) : Z := n * 60 * 1000000000.

Definition u8_max : Z := 2 ^ 8 - 1.
Definition u32_max : Z := 2 ^ 32 - 1.
Definition u64_max : Z := 2 ^ 64 - 1.
Definition i64_max : Z := 2 ^ 63 - 1.
Definition i64_min : Z := - 2 ^ 63.
Definition i32_max : Z := 2 ^ 31 - 1.

Definition u32_saturating_add (a b : Z) : Z := Z.min (a + b) u32_max.
Definition u64_saturating_add (a b : Z) : Z := Z.min (a + b) u64_max.
(** [saturating_sub] of an unsigned type stops at zero. *)
Definition saturating_sub (a b : Z) : Z := Z.max (a - b) 0.
Definition u64_saturating_mul (a b : Z) : Z := Z.min (a * b) u64_max.
Definition i64_saturating (x : Z) : Z := Z.max i64_min (Z.min x i64_max).
Definition i64_as_u64 (x : Z) : Z := if x <? 0 then x + 2 ^ 64 else x.
Definition u64_as_i64 (x : Z) : Z := if x <=? i64_max then x else x - 2 ^ 64.

(** Well-formed machine integers. *)
Definition is_u8 (x : Z) : Prop := 0 <= x <= u8_max.
Definition is_u32 (x : Z) : Prop := 0 <= x <= u32_max.
Definition is_u64 (x : Z) : Prop := 0 <= x <= u64_max.

(** ** Lists *)

(** Rust's [slice::sort_by] is a stable sort: an insertion sort that puts an
    element before the first one that is strictly greater. *)
Section SortBy.
Context {A : Type} (leb : A → A → bool).

Fixpoint insert_sorted (x : A) (l : list A) : list A :=
  match l with
  | [] => [x]
  | y :: l' => if leb x y then x :: l else y :: insert_sorted x l'
  end.

Definition sort_by (l : list A) : list A := foldr insert_sorted [] l.

Lemma insert_sorted_perm x l : insert_sorted x l ≡ₚ x :: l.
Proof.
  induction l as [|y l IH]; simpl; [done|].
  destruct (leb x y); [done|]. rewrite IH. apply Permutation_swap.
Qed.

Lemma sort_by_perm l : sort_by l ≡ₚ l.
Proof. induction l as [|x l IH]; simpl; [done|]. by rewrite insert_sorted_perm, IH. Qed.

Lemma sort_by_elem l x : x ∈ sort_by l ↔ x ∈ l.
Proof. by rewrite sort_by_perm. Qed.

Lemma sort_by_length l : length (sort_by l) = length l.
Proof. by rewrite sort_by_perm. Qed.

Lemma insert_sorted_HdRel x y l :
  leb y x = true → HdRel (λ a b, leb a b = true) y l →
  HdRel (λ a b, leb a b = true) y (insert_sorted x l).
Proof.
  intros Hyx Hl. destruct l as [|z l]; simpl; [by constructor|].
  destruct (leb x z); [by constructor|]. inversion Hl; subst. by constructor.
Qed.

Lemma insert_sorted_Sorted x l :
  (∀ a b, leb a b = true ∨ leb b a = true) →
  Sorted (λ a b, leb a b = true) l →
  Sorted (λ a b, leb a b = true) (insert_sorted x l).
Proof.
  intros Htot. induction l as [|y l IH]; simpl; intros Hs; [by repeat constructor|].
  destruct (leb x y) eqn:E; [by constructor; [|constructor]|].
  inversion Hs; subst. constructor; [by apply IH|].
  apply insert_sorted_HdRel; [|done]. destruct (Htot x y); congruence.
Qed.

Lemma sort_by_Sorted l :
  (∀ a b, leb a b = true ∨ leb b a = true) →
  Sorted (λ a b, leb a b = true) (sort_by l).
Proof.
  intros Htot. induction l as [|x l IH]; simpl; [constructor|].
  by apply insert_sorted_Sorted.
Qed.

Lemma sort_by_head x y l :
  (∀ a b, leb a b = true ∨ leb b a = true) →
  (∀ a b c, leb a b = true → leb b c = true → leb a c = true) →
  head (sort_by l) = Some x → y ∈ l → leb x y = true.
Proof.
  intros Htot Htr Hh Hy. pose proof (sort_by_Sorted l Htot) as Hs.
  apply sort_by_elem in Hy. destruct (sort_by l) as [|z s]; simplify_eq/=.
  apply elem_of_cons in Hy as [->|Hy]; [destruct (Htot x x); done|].
  eapply Sorted_StronglySorted in Hs; [|by intros a b c; apply Htr].
  inversion Hs as [|?? _ Hall]; subst.
  by eapply (proj1 (Forall_forall _ _)) in Hall.
Qed.
End SortBy.

Lemma Sorted_adjacent {A} (R : A → A → Prop) l i x y :
  Sorted R l → l !! i = Some x → l !! S i = Some y → R x y.
Proof.
  intros Hs. revert i. induction Hs as [|a l Hs IH Hhd]; intros [|i]; simpl; try done; [|apply IH].
  intros [= ->] Hy. destruct l as [|b l]; [done|]. injection Hy as ->. by inversion Hhd.
Qed.

(** [iter().max_by_key(f)]: the last of the maximal elements. *)
Fixpoint max_by_key {A} (f : A → Z) (l : list A) : option A :=
  match l with
  | [] => None
  | x :: l' => match max_by_key f l' with
               | None => Some x
               | Some y => if f x <=? f y then Some y else Some x
               end
  end.

Lemma max_by_key_elem {A} (f : A → Z) l x : max_by_key f l = Some x → x ∈ l.
Proof.
  revert x. induction l as [|y l IH]; simpl; intros x H; [done|].
  destruct (max_by_key f l) as [z|].
  - destruct (f y <=? f z); simplify_eq; [right; by apply IH|left].
  - simplify_eq. left.
Qed.

Lemma max_by_key_max {A} (f : A → Z) l x y : max_by_key f l = Some x → y ∈ l → f y <= f x.
Proof.
  revert x. induction l as [|z l IH]; simpl; intros x H Hy; [by apply elem_of_nil in Hy|].
  apply elem_of_cons in Hy. destruct (max_by_key f l) as [w|] eqn:E.
  - destruct (Z.leb_spec (f z) (f w)); simplify_eq; destruct Hy as [->|Hy]; [lia|by apply IH|lia|].
    specialize (IH w eq_refl Hy). lia.
  - simplify_eq. destruct Hy as [->|Hy]; [lia|].
    destruct l as [|w l]; [by apply elem_of_nil in Hy|]. simpl in E.
    destruct (max_by_key f l); [destruct (f w <=? f a)|]; done.
Qed.

Lemma max_by_key_None {A} (f : A → Z) l : max_by_key f l = None ↔ l = [].
Proof.
  split; [|by intros ->]. destruct l as [|x l]; [done|]. simpl.
  destruct (max_by_key f l); [destruct (f x <=? f a)|]; done.
Qed.

(** [iter().find(p)] and [iter().any(p)]. *)
Fixpoint find {A} (p : A → bool) (l : list A) : option A :=
  match l with
  | [] => None
  | x :: l' => if p x then Some x else find p l'
  end.

Lemma find_Some {A} (p : A → bool) l x : find p l = Some x → x ∈ l ∧ p x = true.
Proof.
  induction l as [|y l IH]; simpl; [done|].
  destruct (p y) eqn:E; intros H; simplify_eq; [by split; [left|]|].
  destruct (IH H). split; [by right|done].
Qed.

Lemma find_None {A} (p : A → bool) l : find p l = None ↔ ∀ x, x ∈ l → p x = false.
Proof.
  induction l as [|y l IH]; simpl; [split; [intros _ x []%elem_of_nil|done]|].
  destruct (p y) eqn:E; split.
  - done.
  - intros H. specialize (H y ltac:(left)). congruence.
  - intros H x [->|Hx]%elem_of_cons; [done|]. by apply IH.
  - intros H. apply IH. intros x Hx. apply H. by right.
Qed.

Lemma find_app {A} (p : A → bool) l l' :
  find p (l ++ l') = match find p l with Some x => Some x | None => find p l' end.
Proof. induction l as [|x l IH]; simpl; [done|]. by destruct (p x). Qed.

Lemma existsb_true {A} (p : A → bool) l : existsb p l = true ↔ ∃ x, x ∈ l ∧ p x = true.
Proof. rewrite List.existsb_exists. by setoid_rewrite list_elem_of_In. Qed.

Lemma existsb_false {A} (p : A → bool) l : existsb p l = false ↔ ∀ x, x ∈ l → p x = false.
Proof.
  rewrite <-not_true_iff_false, existsb_true. split.
  - intros H x Hx. apply not_true_iff_false. naive_solver.
  - intros H (x & Hx & Hp). specialize (H x Hx). congruence.
Qed.

(** The boolean filter of [iter().filter(p)]. *)
Definition filterb {A} (p : A → bool) (l : list A) : list A := List.filter p l.

Lemma filterb_elem {A} (p : A → bool) l x : x ∈ filterb p l ↔ x ∈ l ∧ p x = true.
Proof. unfold filterb. by rewrite !list_elem_of_In, List.filter_In. Qed.

Lemma filterb_length {A} (p : A → bool) l : (length (filterb p l) <= length l)%nat.
Proof. apply List.filter_length_le. Qed.

Lemma filterb_all {A} (p : A → bool) l : Forall (λ x, p x = true) l → filterb p l = l.
Proof. induction 1 as [|x l Hx _ IH]; [done|]. unfold filterb in *. simpl. rewrite Hx. by f_equal. Qed.

Lemma filterb_none {A} (p : A → bool) l : Forall (λ x, p x = false) l → filterb p l = [].
Proof. induction 1 as [|x l Hx _ IH]; [done|]. unfold filterb in *. simpl. by rewrite Hx. Qed.

Lemma filterb_app {A} (p : A → bool) l k : filterb p (l ++ k) = filterb p l ++ filterb p k.
Proof. apply List.filter_app. Qed.

Lemma filterb_filterb {A} (p q : A → bool) l :
  filterb p (filterb q l) = filterb (λ x, p x && q x) l.
Proof.
  induction l as [|x l IH]; [done|]. unfold filterb in *. simpl.
  destruct (q x) eqn:Q; simpl; [|by rewrite andb_false_r]. rewrite andb_true_r.
  destruct (p x); [by f_equal|done].
Qed.

Lemma filterb_ext {A} (p q : A → bool) l :
  (∀ x, x ∈ l → p x = q x) → filterb p l = filterb q l.
Proof. intros H. apply List.filter_ext_in. intros x Hx. by apply H, list_elem_of_In. Qed.

(** ** Automation *)

(** Splits the [if]s, [match]es and boolean facts of the context and the goal. *)

Ltac case_bool H :=
  lazymatch type of H with
  | andb _ _ = true => apply andb_true_iff in H as [? ?]
  | orb _ _ = true => apply orb_true_iff in H as [?|?]
  | orb _ _ = false => apply orb_false_iff in H as [? ?]
  | andb _ _ = false => apply andb_false_iff in H as [?|?]
  | negb _ = true => apply negb_true_iff in H
  | negb _ = false => apply negb_false_iff in H
  | bool_decide _ = true => apply bool_decide_eq_true_1 in H
  | bool_decide _ = false => apply bool_decide_eq_false_1 in H
  | (_ <=? _) = true => apply Z.leb_le in H
  | (_ <=? _) = false => apply Z.leb_gt in H
  | (_ <? _) = true => apply Z.ltb_lt in H
  | (_ <? _) = false => apply Z.ltb_ge in H
  | (_ =? _) = true => apply Z.eqb_eq in H
  | (_ =? _) = false => apply Z.eqb_neq in H
  end.

Ltac bool_hyps :=
  repeat match goal with
         | H : _ = true |- _ => case_bool H
         | H : _ = false |- _ => case_bool H
         end.

Ltac break_match :=
  match goal with
  | |- context [match ?x with _ => _ end] => destruct x eqn:?
  end.

Ltac break_match_in H :=
  match type of H with
  | context [match ?x with _ => _ end] => destruct x eqn:?
  end.

Create HintDb gov.
#[export] Hint Resolve sort_by_perm sort_by_elem max_by_key_elem find_Some : gov.
