(* ===== verification/RustStr.v ===== *)
(** * Strings, digests and 64-bit floats

    The parts of Rust's [str], of the [sha2] digest interface and of [f64]
    that the modelled code uses.

    A Rust [String] is a Rocq [string] with one [ascii] per [char], so the
    characters are the code points U+0000..U+00FF; the order of [string] is the
    order of the code points, which is also the byte order of UTF-8.  [f64] is
    [spec_float] with the binary64 parameters, so [<=], [+] and [min] are the
    IEEE-754 operations, NaN included. *)

From Stdlib Require Import Ascii String SpecFloat.
From S2P Require Import Prelude.

(** ** Characters *)

Definition chars (s : string) : list ascii := list_ascii_of_string s.
Definition of_chars (l : list ascii) : string := string_of_list_ascii l.

Lemma of_chars_chars s : of_chars (chars s) = s.
Proof. apply string_of_list_ascii_of_string. Qed.

Lemma chars_of_chars l : chars (of_chars l) = l.
Proof. apply list_ascii_of_string_of_list_ascii. Qed.

Lemma chars_inj s t : chars s = chars t → s = t.
Proof. intros H. by rewrite <-(of_chars_chars s), <-(of_chars_chars t), H. Qed.

Lemma chars_app s t : chars (s +:+ t) = chars s ++ chars t.
Proof. induction s as [|c s IH]; simpl; [done|]. unfold chars in *. simpl. by rewrite IH. Qed.

Lemma chars_nil s : chars s = [] ↔ s = ""%string.
Proof. split; [|by intros ->]. by destruct s. Qed.

(** [char::to_ascii_lowercase]. *)
Definition char_to_ascii_lowercase (c : ascii) : ascii :=
  let n := N_of_ascii c in
  if ((65 <=? n) && (n <=? 90))%N then ascii_of_N (n + 32) else c.

Definition to_ascii_lowercase (s : string) : string :=
  of_chars (char_to_ascii_lowercase <$> chars s).

Definition is_ascii_uppercase (c : ascii) : bool :=
  let n := N_of_ascii c in ((65 <=? n) && (n <=? 90))%N.

Definition char_to_ascii_uppercase (c : ascii) : ascii :=
  let n := N_of_ascii c in
  if ((97 <=? n) && (n <=? 122))%N then ascii_of_N (n - 32) else c.

Definition to_ascii_uppercase (s : string) : string :=
  of_chars (char_to_ascii_uppercase <$> chars s).

Definition eq_ignore_ascii_case (a b : string) : bool :=
  to_ascii_lowercase a ==? to_ascii_lowercase b.

(** [char::is_whitespace] below U+0100: tab to carriage return, space, NEL and
    the no-break space. *)
Definition is_whitespace (c : ascii) : bool :=
  let n := N_of_ascii c in
  (((9 <=? n) && (n <=? 13)) || (n =? 32) || (n =? 133) || (n =? 160))%N.

Fixpoint drop_while {A} (p : A → bool) (l : list A) : list A :=
  match l with
  | [] => []
  | x :: l' => if p x then drop_while p l' else l
  end.

Definition trim_end_by (p : ascii → bool) (l : list ascii) : list ascii :=
  rev (drop_while p (rev l)).
Definition trim_start_by (p : ascii → bool) (l : list ascii) : list ascii := drop_while p l.

Definition trim (s : string) : string :=
  of_chars (trim_end_by is_whitespace (trim_start_by is_whitespace (chars s))).

(** [str::contains(char)]. *)
Definition contains_char (s : string) (c : ascii) : bool :=
  existsb (λ d, bool_decide (d = c)) (chars s).

(** [str::strip_prefix] and [str::strip_suffix]. *)
Fixpoint strip_prefix_chars (p l : list ascii) : option (list ascii) :=
  match p, l with
  | [], _ => Some l
  | c :: p', d :: l' => if bool_decide (c = d) then strip_prefix_chars p' l' else None
  | _ :: _, [] => None
  end.

Definition strip_prefix (s prefix : string) : option string :=
  of_chars <$> strip_prefix_chars (chars prefix) (chars s).

Definition strip_suffix (s suffix : string) : option string :=
  (λ l, of_chars (rev l)) <$> strip_prefix_chars (rev (chars suffix)) (rev (chars s)).

Definition starts_with (s prefix : string) : bool :=
  match strip_prefix s prefix with Some _ => true | None => false end.

Lemma strip_prefix_chars_Some p l r : strip_prefix_chars p l = Some r ↔ l = p ++ r.
Proof.
  revert l. induction p as [|c p IH]; simpl; intros l.
  - split; [by intros [= ->]|by intros ->].
  - destruct l as [|d l]; [done|]. case_bool_decide as E.
    + subst. rewrite IH. split; [by intros ->|by intros [= ->]].
    + split; [done|]. congruence.
Qed.

Lemma strip_prefix_Some s p r : strip_prefix s p = Some r ↔ chars s = chars p ++ chars r.
Proof.
  unfold strip_prefix. rewrite fmap_Some. split.
  - intros (l & H%strip_prefix_chars_Some & ->). by rewrite chars_of_chars.
  - intros H. exists (chars r). rewrite strip_prefix_chars_Some. split; [done|].
    by rewrite of_chars_chars.
Qed.

Lemma strip_suffix_Some s x r : strip_suffix s x = Some r ↔ chars s = chars r ++ chars x.
Proof.
  unfold strip_suffix. rewrite fmap_Some. split.
  - intros (l & H%strip_prefix_chars_Some & ->). rewrite chars_of_chars.
    apply (f_equal (@rev _)) in H. by rewrite rev_app_distr, !rev_involutive in H.
  - intros H. exists (rev (chars r)). rewrite strip_prefix_chars_Some. split.
    + by rewrite H, rev_app_distr.
    + by rewrite rev_involutive, of_chars_chars.
Qed.

Lemma drop_while_head {A} (p : A → bool) l x l' : drop_while p l = x :: l' → p x = false.
Proof. induction l as [|y l IH]; simpl; [done|]. destruct (p y) eqn:E; [done|]. by intros [= <- <-]. Qed.

Lemma drop_while_idem {A} (p : A → bool) l : drop_while p (drop_while p l) = drop_while p l.
Proof.
  destruct (drop_while p l) as [|x l'] eqn:E; [done|]. simpl. by rewrite (drop_while_head _ _ _ _ E).
Qed.

Lemma drop_while_suffix {A} (p : A → bool) l : ∃ k, l = k ++ drop_while p l.
Proof.
  induction l as [|x l [k E]]; [by exists []|]. simpl. destruct (p x); [|by exists []].
  exists (x :: k). simpl. by rewrite <- E.
Qed.

Lemma trim_idem s : trim (trim s) = trim s.
Proof.
  unfold trim. rewrite chars_of_chars. f_equal. unfold trim_start_by, trim_end_by.
  set (l := drop_while is_whitespace (chars s)).
  assert (drop_while is_whitespace (rev (drop_while is_whitespace (rev l)))
          = rev (drop_while is_whitespace (rev l))) as ->.
  { destruct (drop_while_suffix is_whitespace (rev l)) as [k E].
    apply (f_equal (@rev _)) in E. rewrite rev_involutive, rev_app_distr in E.
    destruct (rev (drop_while is_whitespace (rev l))) as [|x m] eqn:Em; [done|].
    assert (drop_while is_whitespace (chars s) = x :: (m ++ rev k)) as Hx by exact E.
    simpl. by rewrite (drop_while_head _ _ _ _ Hx). }
  by rewrite rev_involutive, drop_while_idem.
Qed.

Lemma contains_char_true s c : contains_char s c = true ↔ c ∈ chars s.
Proof.
  unfold contains_char. rewrite existsb_true. split.
  - intros (x & Hx & ->%bool_decide_eq_true_1). done.
  - intros H. exists c. by rewrite bool_decide_eq_true_2.
Qed.

(** [join(sep)] on a vector of strings. *)
Fixpoint join (sep : string) (l : list string) : string :=
  match l with
  | [] => ""
  | [x] => x
  | x :: l' => x +:+ sep +:+ join sep l'
  end.

(** [split(c)] on a sequence of characters: always at least one piece. *)
Fixpoint split_char (c : ascii) (l : list ascii) : list (list ascii) :=
  match l with
  | [] => [[]]
  | d :: l' =>
      match split_char c l' with
      | [] => [[d]]
      | p :: ps => if bool_decide (d = c) then [] :: p :: ps else (d :: p) :: ps
      end
  end.

Fixpoint join_char (c : ascii) (l : list (list ascii)) : list ascii :=
  match l with
  | [] => []
  | [x] => x
  | x :: l' => x ++ c :: join_char c l'
  end.

Lemma split_no_char c l : Forall (λ p, c ∉ p) (split_char c l) ∧ split_char c l ≠ [].
Proof.
  induction l as [|d l [IH Hne]]; simpl; [split; [|done]; repeat constructor; set_solver|].
  destruct (split_char c l) as [|p ps]; [done|]. apply Forall_cons in IH as [Hp Hps].
  case_bool_decide; split; try done.
  - constructor; [set_solver|by constructor].
  - constructor; [set_solver|done].
Qed.

Lemma join_split c l : join_char c (split_char c l) = l.
Proof.
  induction l as [|d l IH]; [done|]. simpl. destruct (split_char c l) as [|p ps] eqn:E.
  { by destruct (proj2 (split_no_char c l)). }
  case_bool_decide; destruct ps; simpl in *; congruence.
Qed.

(** A printed number consists of digits, after a sign. *)
Definition is_digit_char (c : ascii) : bool := (48 <=? nat_of_ascii c)%nat && (nat_of_ascii c <=? 57)%nat.

Lemma pretty_N_go_digits x s :
  Forall (λ c, is_digit_char c = true) (chars s) →
  Forall (λ c, is_digit_char c = true) (chars (pretty.pretty_N_go x s)).
Proof.
  revert s. induction (N.lt_wf_0 x) as [x _ IH]; intros s Hs.
  destruct (decide (0 < x)%N) as [Hx|Hx].
  - rewrite pretty.pretty_N_go_step by done. apply IH; [by apply N.div_lt|].
    constructor; [|done]. unfold pretty.pretty_N_char. by repeat case_match.
  - by replace x with 0%N by lia.
Qed.

Lemma pretty_Z_digits (x : Z) c : 0 <= x → c ∈ chars (pretty x) → is_digit_char c = true.
Proof.
  intros Hx Hc. assert (pretty x = pretty (Z.to_N x)) as E by (by destruct x).
  rewrite E in Hc. unfold pretty, pretty.pretty_N in Hc. case_decide.
  - apply list_elem_of_singleton in Hc as ->. done.
  - assert (Forall (λ c, is_digit_char c = true) (chars "")) as Hd by constructor.
    apply (pretty_N_go_digits (Z.to_N x)) in Hd. rewrite Forall_forall in Hd. by apply Hd.
Qed.

(** ** The order of strings *)

Lemma string_compare_trans s t u :
  String.leb s t = true → String.leb t u = true → String.leb s u = true.
Proof.
  unfold String.leb. revert t u. induction s as [|c s IH]; intros [|d t] [|e u]; simpl; try done.
  unfold Ascii.compare.
  destruct (N.compare_spec (N_of_ascii c) (N_of_ascii d)) as [E1|E1|E1];
  destruct (N.compare_spec (N_of_ascii d) (N_of_ascii e)) as [E2|E2|E2]; try done; intros H1 H2.
  - rewrite E1, E2, N.compare_refl. by eapply IH.
  - rewrite E1. apply N.compare_lt_iff in E2. by rewrite E2.
  - rewrite <-E2. apply N.compare_lt_iff in E1. by rewrite E1.
  - assert (N_of_ascii c < N_of_ascii e)%N as H by lia.
    apply N.compare_lt_iff in H. by rewrite H.
Qed.

(** ** Digests *)

(** The SHA-256 of the [sha2] crate. *)
Class Sha256 := { sha256 : string → list Z }.

(** What the callers rely on: 32 bytes, each between 0 and 255. *)
Class Sha256Ok `{Sha256} := {
  sha256_length : ∀ s, length (sha256 s) = 32%nat;
  sha256_bytes : ∀ s, Forall is_u8 (sha256 s)
}.

Definition hex_digit (n : Z) : ascii :=
  if n <? 10 then ascii_of_N (Z.to_N (48 + n)) else ascii_of_N (Z.to_N (87 + n)).

Definition hex_byte (b : Z) : list ascii := [hex_digit (b `div` 16); hex_digit (b `mod` 16)].

Section Digest.
Context `{Sha256}.

(** [merge::sha256_hex]: the digest in lower-case hexadecimal. *)
Definition sha256_hex (data : string) : string :=
  of_chars (concat (hex_byte <$> sha256 data)).

Lemma sha256_hex_length `{!Sha256Ok} s : length (chars (sha256_hex s)) = 64%nat.
Proof.
  unfold sha256_hex. rewrite chars_of_chars.
  assert (∀ l, length (concat (hex_byte <$> l)) = (2 * length l)%nat) as ->.
  { induction l as [|b l IH]; [done|]. rewrite fmap_cons. cbn [concat].
    rewrite length_app, IH. simpl. lia. }
  by rewrite sha256_length.
Qed.
End Digest.

(** A concrete digest of the right shape. *)
Definition zero_sha : Sha256 := {| sha256 := λ _, replicate 32 0 |}.

Lemma zero_sha_ok : @Sha256Ok zero_sha.
Proof.
  split; intros s; cbn [sha256 zero_sha]; [apply length_replicate|].
  apply Forall_replicate. unfold is_u8, u8_max. lia.
Qed.

(** [&s[..n]] on a string of at least [n] characters. *)
Definition prefix_slice (n : nat) (s : string) : string := of_chars (take n (chars s)).

Lemma prefix_slice_length n s :
  (n <= length (chars s))%nat → length (chars (prefix_slice n s)) = n.
Proof. intros H. unfold prefix_slice. rewrite chars_of_chars, length_take. lia. Qed.

(** ** Binary64 floats *)

Notation f64 := spec_float (only parsing).
Definition f64_prec : Z := 53.
Definition f64_emax : Z := 1024.

Definition f64_le (a b : f64) : bool := SFleb a b.
Definition f64_add (a b : f64) : f64 := SFadd f64_prec f64_emax a b.
(** [f64::EPSILON], 2^-52. *)
Definition f64_epsilon : f64 := S754_finite false 4503599627370496 (-104).
Definition f64_is_nan (a : f64) : bool := match a with S754_nan => true | _ => false end.
(** [f64::min]: the other operand when one is NaN. *)
Definition f64_min (a b : f64) : f64 :=
  if f64_is_nan a then b else if f64_is_nan b then a else if SFltb b a then b else a.

#[export] Instance spec_float_eq_dec : EqDecision spec_float.
Proof. solve_decision. Defined.
