(* ===== verification/Tonic.v ===== *)
(** * Status codes

    The part of [tonic] the gateway uses: status codes, and a status as a code with a
    message.  The text a code is displayed with is a parameter. *)

From Stdlib Require Import String.
From S2P Require Import Prelude.

Inductive Code : Type :=
| CodeNotFound | CodeInternal | CodeUnavailable | CodeDeadlineExceeded | CodeResourceExhausted
| CodeAborted | CodeFailedPrecondition | CodePermissionDenied | CodeInvalidArgument
| CodeUnauthenticated | CodeAlreadyExists | CodeUnimplemented.
#[export] Instance Code_eq_dec : EqDecision Code.
Proof. solve_decision. Defined.

Definition Status : Type := Code * string.

(** [impl Display for Code]. *)
Class CodeDisplay := { code_display : Code → string }.
