(* ===== verification/Store.v ===== *)
(** * The record store

    [uc-engine/src/governance/record_store.rs]: the namespaced, versioned
    document store every governance component writes through.

    - [RecordStore] is the trait, as a class over the type of a backend; the
      clock reading of [Utc::now()] is an argument of [store_put].
    - [InMemoryRecordStore] and [PostgresRecordStore] are its two
      implementations.
    - [RecordStoreOk] is what the rest of the plane relies on (a refinement of
      an abstract map from (namespace, key) to (version, value) with a
      compare-and-swap write), and [StrictCas] is the contract as the module
      documents it.  Both backends are instances of the first; only the
      in-memory one is an instance of the second.
    - The order of the database's text is a parameter ([Collation]).
    The functions of the plane are programs over these operations: Prog.v. *)

From Stdlib Require Import String.
From S2P Require Import Prelude RustStr.

(** ** Records and errors *)

Record StoredRecord (Value : Type) : Type := mkRecord {
  record_namespace : string;
  record_key : string;
  record_version : Z;
  record_value : Value;
  record_updated_at : Instant
}.
Arguments mkRecord {Value} _ _ _ _ _.
Arguments record_namespace {Value} _.
Arguments record_key {Value} _.
Arguments record_version {Value} _.
Arguments record_value {Value} _.
Arguments record_updated_at {Value} _.

Inductive RecordError : Type :=
| Conflict (expected : Z) (actual : option Z)
| Backend (detail : string)
| Decode (key detail : string)
| Encode (key detail : string).

Definition RecordError_display (e : RecordError) : string :=
  match e with
  | Conflict expected (Some actual) =>
      "record version conflict: expected v" +:+ pretty expected +:+ ", found v" +:+ pretty actual
  | Conflict expected None =>
      "record version conflict: expected v" +:+ pretty expected +:+ ", found nothing"
  | Backend detail => "record store backend error: " +:+ detail
  | Decode key detail => "cannot decode record " +:+ key +:+ ": " +:+ detail
  | Encode key detail => "cannot encode record " +:+ key +:+ ": " +:+ detail
  end.

(** The [RecordStore] trait. *)
Class RecordStore (S Value : Type) : Type := {
  store_is_durable : S → bool;
  store_get : S → string → string → result (option (StoredRecord Value)) RecordError;
  store_put : Instant → S → string → string → Value → option Z →
              result (StoredRecord Value) RecordError * S;
  store_list : S → string → nat → result (list (StoredRecord Value)) RecordError;
  store_delete : S → string → string → result bool RecordError * S
}.

(** ** The abstract contents *)

Notation contents_map Value := (gmap (string * string) (Z * Value)).

(** The version a write gives: 1 for a new key, one more than the current one
    otherwise. *)
Definition next_version {Value} (old : option (Z * Value)) : Z :=
  match old with Some (v, _) => v + 1 | None => 1 end.

(** The compare-and-swap precondition of the module documentation: no
    precondition, create only, or exactly this version. *)
Definition cas_strict {Value} (expected : option Z) (old : option (Z * Value)) : Prop :=
  match expected, old with
  | None, _ => True
  | Some e, Some (v, _) => v = e
  | Some e, None => e = 0
  end.

(** What both backends guarantee of a successful write: on a key that exists,
    the version matched. *)
Definition cas_pre {Value} (expected : option Z) (old : option (Z * Value)) : Prop :=
  match expected, old with
  | Some e, Some (v, _) => v = e
  | _, _ => True
  end.

Definition entry_of {Value} (r : StoredRecord Value) : string * Z * Value :=
  (record_key r, record_version r, record_value r).

(** An order on keys: that of the bytes, or a collation of the database. *)
Record key_order (leb : string → string → bool) : Prop := {
  key_order_total : ∀ a b, leb a b = true ∨ leb b a = true;
  key_order_trans : ∀ a b c, leb a b = true → leb b c = true → leb a c = true;
  key_order_antisym : ∀ a b, leb a b = true → leb b a = true → a = b
}.

Lemma byte_order : key_order String.leb.
Proof. split; [apply String.leb_total|intros a b c; apply string_compare_trans|apply String.leb_antisym]. Qed.

Definition entry_leb {Value} (leb : string → string → bool) (a b : string * Z * Value) : Prop :=
  leb a.1.1 b.1.1 = true.

(** [l] lists namespace [ns] of [m] in key order. *)
Definition ns_listing {Value} (leb : string → string → bool) (m : contents_map Value) (ns : string)
    (l : list (string * Z * Value)) : Prop :=
  Sorted (entry_leb leb) l ∧ NoDup ((λ a, a.1.1) <$> l) ∧
  ∀ k v x, (k, v, x) ∈ l ↔ m !! (ns, k) = Some (v, x).

(** The laws the components rely on.  [store_wf] is an invariant of the backend,
    [store_up] says that it answers (no poisoned lock, no lost connection). *)
Class RecordStoreOk (S Value : Type) `{RecordStore S Value} : Type := {
  contents : S → contents_map Value;
  list_order : string → string → bool;
  list_order_ok : key_order list_order;
  store_wf : S → Prop;
  store_up : S → Prop;
  contents_version : ∀ s k v x, store_wf s → contents s !! k = Some (v, x) → 1 <= v;
  get_ok : ∀ s ns k o, store_wf s → store_get s ns k = Ok o →
    (λ r, (record_version r, record_value r)) <$> o = contents s !! (ns, k);
  get_up : ∀ s ns k, store_up s → is_ok (store_get s ns k) = true;
  put_ok : ∀ now s ns k x e r s', store_wf s → store_put now s ns k x e = (Ok r, s') →
    cas_pre e (contents s !! (ns, k)) ∧
    record_version r = next_version (contents s !! (ns, k)) ∧
    contents s' = <[(ns, k) := (next_version (contents s !! (ns, k)), x)]> (contents s) ∧
    store_wf s';
  put_err : ∀ now s ns k x e err s', store_wf s → store_put now s ns k x e = (Err err, s') →
    s' = s ∧ (∀ ex a, err = Conflict ex a → ¬ cas_strict e (contents s !! (ns, k)));
  put_up : ∀ now s ns k x e r s', store_wf s → store_up s → store_put now s ns k x e = (r, s') →
    store_up s' ∧
    (cas_strict e (contents s !! (ns, k)) → next_version (contents s !! (ns, k)) <= i64_max →
     is_ok r = true) ∧
    (¬ cas_pre e (contents s !! (ns, k)) → ∃ ex a, r = Err (Conflict ex a));
  list_ok : ∀ s ns n rs, store_wf s → store_list s ns n = Ok rs →
    ∃ l, ns_listing list_order (contents s) ns l ∧ entry_of <$> rs = take n l;
  list_up : ∀ s ns n, store_up s → Z.of_nat n <= i64_max → is_ok (store_list s ns n) = true;
  delete_contents : ∀ s ns k r s', store_wf s → store_delete s ns k = (r, s') →
    store_wf s' ∧ (∀ k', k' ≠ (ns, k) → contents s' !! k' = contents s !! k') ∧
    match r with
    | Ok b => b = bool_decide (is_Some (contents s !! (ns, k))) ∧ contents s' !! (ns, k) = None
    | Err _ => s' = s
    end
}.

(** The listing of a namespace, in the order of the store. *)
Definition store_listing {S Value} `{RecordStoreOk S Value} (s : S) (ns : string)
    (l : list (string * Z * Value)) : Prop :=
  ns_listing (list_order (S := S) (Value := Value)) (contents s) ns l.

(** The documented contract: a write succeeds only under [cas_strict]. *)
Class StrictCas (S Value : Type) `{RecordStoreOk S Value} : Prop :=
  strict_put : ∀ now s ns k x e r s', store_wf s →
    store_put now s ns k x e = (Ok r, s') → cas_strict e (contents s !! (ns, k)).

(** ** The in-memory backend *)

Definition record_key_leb {Value} (leb : string → string → bool) (a b : StoredRecord Value) : bool :=
  leb (record_key a) (record_key b).

Section InMemory.
Context {Value : Type}.
Implicit Types (r : StoredRecord Value).

(** [RwLock<HashMap<(String, String), Record>>] and whether the lock is
    poisoned. *)
Record InMemoryRecordStore : Type := mkInMemory {
  inner : gmap (string * string) (StoredRecord Value);
  poisoned : bool
}.

Definition InMemoryRecordStore_new : InMemoryRecordStore := mkInMemory ∅ false.

Definition lock_poisoned : RecordError := Backend "record store lock poisoned".

Definition in_memory_get (s : InMemoryRecordStore) (namespace key : string)
    : result (option (StoredRecord Value)) RecordError :=
  if poisoned s then Err lock_poisoned else Ok (inner s !! (namespace, key)).

Definition in_memory_put (now : Instant) (s : InMemoryRecordStore) (namespace key : string)
    (value : Value) (expected_version : option Z)
    : result (StoredRecord Value) RecordError * InMemoryRecordStore :=
  if poisoned s then (Err lock_poisoned, s) else
  let map_key := (namespace, key) in
  let existing := inner s !! map_key in
  let write :=
    let version := match existing with Some r => record_version r + 1 | None => 1 end in
    let record := mkRecord namespace key version value now in
    (Ok record, mkInMemory (<[map_key := record]> (inner s)) (poisoned s)) in
  match expected_version, existing with
  | Some expected, Some current =>
      if negb (record_version current =? expected)
      then (Err (Conflict expected (Some (record_version current))), s) else write
  | Some expected, None =>
      if negb (expected =? 0) then (Err (Conflict expected None), s) else write
  | None, _ => write
  end.

Definition in_memory_list (s : InMemoryRecordStore) (namespace : string) (limit : nat)
    : result (list (StoredRecord Value)) RecordError :=
  if poisoned s then Err lock_poisoned else
  let records := filterb (λ r, record_namespace r ==? namespace)
                         ((map_to_list (inner s)).*2) in
  Ok (take limit (sort_by (record_key_leb String.leb) records)).

Definition in_memory_delete (s : InMemoryRecordStore) (namespace key : string)
    : result bool RecordError * InMemoryRecordStore :=
  if poisoned s then (Err lock_poisoned, s) else
  (Ok (bool_decide (is_Some (inner s !! (namespace, key)))),
   mkInMemory (delete (namespace, key) (inner s)) (poisoned s)).

#[export] Instance InMemory_RecordStore : RecordStore InMemoryRecordStore Value := {
  store_is_durable := λ _, false;
  store_get := in_memory_get;
  store_put := in_memory_put;
  store_list := in_memory_list;
  store_delete := in_memory_delete
}.

Definition in_memory_contents (s : InMemoryRecordStore) : contents_map Value :=
  (λ r, (record_version r, record_value r)) <$> inner s.

Definition in_memory_wf (s : InMemoryRecordStore) : Prop :=
  map_Forall (λ k r, (record_namespace r, record_key r) = k ∧ 1 <= record_version r) (inner s).
End InMemory.
Arguments InMemoryRecordStore : clear implicits.

(** ** The PostgreSQL backend *)

(** The order of [ORDER BY key]: the collation of the database, since the column declares none.
    PostgreSQL's own collations tell different texts apart, by their bytes in the last
    resort. *)
Class Collation := { collate : string → string → bool }.
Class CollationOk `{Collation} : Prop := collate_order : key_order collate.

Section Postgres.
Context {Value : Type} {Col : Collation}.

(** The table [governance_records], with its primary key (namespace, key), and
    whether the pool reaches the server. *)
Record PostgresRecordStore : Type := mkPostgres {
  governance_records : gmap (string * string) (Z * Value * Instant);
  reachable : bool
}.

Definition pg_record (namespace key : string) (row : Z * Value * Instant) : StoredRecord Value :=
  mkRecord namespace key (i64_as_u64 row.1.1) row.1.2 row.2.

(** [SELECT version, payload, updated_at ... WHERE namespace = $1 AND key = $2]. *)
Definition pg_get (s : PostgresRecordStore) (namespace key : string)
    : result (option (StoredRecord Value)) RecordError :=
  if reachable s
  then Ok (pg_record namespace key <$> governance_records s !! (namespace, key))
  else Err (Backend "postgres get").

(** [INSERT ... VALUES ($1, $2, 1, $3, now()) ON CONFLICT (namespace, key) DO
    UPDATE SET version = version + 1, ... WHERE $4 IS NULL OR version = $4
    RETURNING ...]: a fresh key is inserted whatever [$4] is; the [WHERE] of the
    update can suppress it, and then the current row is fetched for the error.
    [$4] is bound as [version as i64]; that cast and [as u64] are inverse
    bijections, so the comparison is made on the [u64] side.
    [version + 1] is a [BIGINT], out of range at [i64::MAX]. *)
Definition pg_put (now : Instant) (s : PostgresRecordStore) (namespace key : string)
    (value : Value) (expected_version : option Z)
    : result (StoredRecord Value) RecordError * PostgresRecordStore :=
  if negb (reachable s) then (Err (Backend "postgres put"), s) else
  let write version :=
    let row := (version, value, now) in
    (Ok (pg_record namespace key row),
     mkPostgres (<[(namespace, key) := row]> (governance_records s)) (reachable s)) in
  match governance_records s !! (namespace, key) with
  | None => write 1
  | Some (version, _, _) =>
      let guard := match expected_version with
                   | None => true
                   | Some v => i64_as_u64 version =? v
                   end in
      if guard then
        if version =? i64_max then (Err (Backend "postgres put"), s) else write (version + 1)
      else (Err (Conflict (default 0 expected_version) (Some (i64_as_u64 version))), s)
  end.

(** [SELECT ... WHERE namespace = $1 ORDER BY key ASC LIMIT $2], with [limit as i64]: a limit past
    [i64::MAX] is bound as a negative one, which the server refuses. *)
Definition pg_list (s : PostgresRecordStore) (namespace : string) (limit : nat)
    : result (list (StoredRecord Value)) RecordError :=
  if reachable s && (u64_as_i64 (Z.of_nat limit) >=? 0) then
    let rows := filterb (λ kr, kr.1.1 ==? namespace) (map_to_list (governance_records s)) in
    let records := (λ kr, pg_record namespace kr.1.2 kr.2) <$> rows in
    Ok (take limit (sort_by (record_key_leb collate) records))
  else Err (Backend "postgres list").

Definition pg_delete (s : PostgresRecordStore) (namespace key : string)
    : result bool RecordError * PostgresRecordStore :=
  if reachable s then
    (Ok (bool_decide (is_Some (governance_records s !! (namespace, key)))),
     mkPostgres (delete (namespace, key) (governance_records s)) (reachable s))
  else (Err (Backend "postgres delete"), s).

#[export] Instance Postgres_RecordStore : RecordStore PostgresRecordStore Value := {
  store_is_durable := λ _, true;
  store_get := pg_get;
  store_put := pg_put;
  store_list := pg_list;
  store_delete := pg_delete
}.
End Postgres.
Arguments PostgresRecordStore : clear implicits.

(** * The backends implement the store's contract

    [InMemoryRecordStore] and [PostgresRecordStore] refine the abstract map of
    [RecordStoreOk]; the in-memory one also meets the documented
    compare-and-swap contract [StrictCas]. *)

Lemma cas_strict_pre {Value} e (old : option (Z * Value)) : cas_strict e old → cas_pre e old.
Proof. by destruct e, old as [[]|]. Qed.

(** ** Listing a namespace *)

(** Sorting the records of one namespace by key gives a listing of it, when the
    records are a permutation of the bindings. *)
Lemma ns_listing_sorted {Value} (leb : string → string → bool) (m : contents_map Value) (ns : string) (rs : list (StoredRecord Value)) :
  key_order leb → NoDup (record_key <$> rs) →
  (∀ k v x, (k, v, x) ∈ entry_of <$> rs ↔ m !! (ns, k) = Some (v, x)) →
  ns_listing leb m ns (entry_of <$> sort_by (record_key_leb leb) rs).
Proof.
  intros Hleb Hnd Hel. repeat split.
  - eapply Sorted_fmap; [|apply (sort_by_Sorted (record_key_leb leb))].
    + intros a b H. exact H.
    + intros a b. apply (key_order_total _ Hleb).
  - rewrite <-list_fmap_compose. by rewrite sort_by_perm.
  - rewrite sort_by_perm. apply Hel.
  - rewrite sort_by_perm. apply Hel.
Qed.

(** ** The in-memory backend *)

Section InMemoryLaws.
Context {Value : Type}.
Implicit Types (s : InMemoryRecordStore Value).

Lemma in_memory_contents_lookup s k :
  in_memory_contents s !! k = (λ r, (record_version r, record_value r)) <$> inner s !! k.
Proof. apply lookup_fmap. Qed.

Lemma in_memory_write now s ns k x e r s' :
  in_memory_wf s → in_memory_put now s ns k x e = (Ok r, s') →
  cas_strict e (in_memory_contents s !! (ns, k)) ∧
  record_version r = next_version (in_memory_contents s !! (ns, k)) ∧
  in_memory_contents s' =
    <[(ns, k) := (next_version (in_memory_contents s !! (ns, k)), x)]> (in_memory_contents s) ∧
  in_memory_wf s' ∧ poisoned s' = poisoned s.
Proof.
  intros Hwf. unfold in_memory_put. rewrite in_memory_contents_lookup.
  destruct (poisoned s) eqn:Hp; [done|].
  assert (∀ v, 1 <= v →
    in_memory_wf (mkInMemory (<[(ns, k) := mkRecord ns k v x now]> (inner s)) false)) as Hwf'.
  { intros v Hv. apply map_Forall_insert_2; [done|exact Hwf]. }
  assert (∀ v, in_memory_contents
      (mkInMemory (<[(ns, k) := mkRecord ns k v x now]> (inner s)) false) =
      <[(ns, k) := (v, x)]> (in_memory_contents s)) as Hc.
  { intros v. unfold in_memory_contents. simpl. by rewrite fmap_insert. }
  destruct (inner s !! (ns, k)) as [cur|] eqn:E; simpl.
  - assert (1 <= record_version cur) by (by apply (map_Forall_lookup_1 _ _ _ _ Hwf E)).
    destruct e as [e|]; simpl.
    + destruct (Z.eqb_spec (record_version cur) e); simpl; [|done].
      intros [= <- <-]. simpl. rewrite Hc. split_and!; [done|done|done|apply Hwf'; lia|done].
    + intros [= <- <-]. simpl. rewrite Hc. split_and!; [done|done|done|apply Hwf'; lia|done].
  - destruct e as [e|]; simpl.
    + destruct (Z.eqb_spec e 0); simpl; [|done].
      intros [= <- <-]. simpl. rewrite Hc. split_and!; [done|done|done|apply Hwf'; lia|done].
    + intros [= <- <-]. simpl. rewrite Hc. split_and!; [done|done|done|apply Hwf'; lia|done].
Qed.

Lemma in_memory_refused now s ns k x e err s' :
  in_memory_put now s ns k x e = (Err err, s') →
  s' = s ∧ (err = lock_poisoned ∧ poisoned s = true ∨
            ∃ ex a, err = Conflict ex a ∧ ¬ cas_strict e (in_memory_contents s !! (ns, k))).
Proof.
  unfold in_memory_put. rewrite in_memory_contents_lookup.
  destruct (poisoned s); [intros [= <- <-]; auto|].
  destruct (inner s !! (ns, k)) as [cur|]; destruct e as [e|]; simpl; try done.
  - destruct (Z.eqb_spec (record_version cur) e); simpl; [done|]. intros [= <- <-]. eauto 10.
  - destruct (Z.eqb_spec e 0); simpl; [done|]. intros [= <- <-]. eauto 10.
Qed.

Lemma in_memory_listing s ns :
  in_memory_wf s →
  ns_listing String.leb (in_memory_contents s) ns (entry_of <$>
    sort_by (record_key_leb String.leb)
      (filterb (λ r, record_namespace r ==? ns) ((map_to_list (inner s)).*2))).
Proof.
  intros Hwf.
  assert (∀ r, r ∈ filterb (λ r, record_namespace r ==? ns) ((map_to_list (inner s)).*2) ↔
               inner s !! (ns, record_key r) = Some r) as Hin.
  { intros r. rewrite filterb_elem, bool_decide_eq_true, list_elem_of_fmap. split.
    - intros [([k' r'] & -> & Hk'%elem_of_map_to_list) Hns]. simpl in *.
      destruct (map_Forall_lookup_1 _ _ _ _ Hwf Hk') as [Hk _]. by rewrite <-Hns, Hk.
    - intros H. split; [|by destruct (map_Forall_lookup_1 _ _ _ _ Hwf H); simplify_eq].
      exists ((ns, record_key r), r). by rewrite elem_of_map_to_list. }
  apply ns_listing_sorted; [apply byte_order|..].
  - apply NoDup_fmap_2_strong.
    + intros a b Ha%Hin Hb%Hin E. rewrite E in Ha. congruence.
    + unfold filterb. rewrite NoDup_ListNoDup. apply List.NoDup_filter.
      rewrite <-NoDup_ListNoDup.
      apply (NoDup_fmap_1 (λ r, (record_namespace r, record_key r))).
      rewrite <-list_fmap_compose.
      replace ((λ r, (record_namespace r, record_key r)) ∘ snd <$> map_to_list (inner s))
        with ((map_to_list (inner s)).*1); [apply NoDup_fst_map_to_list|].
      apply list_fmap_ext. intros i [k r] H. simpl.
      apply list_elem_of_lookup_2, elem_of_map_to_list in H.
      by destruct (map_Forall_lookup_1 _ _ _ _ Hwf H).
  - intros k v x. rewrite list_elem_of_fmap, in_memory_contents_lookup. split.
    + intros (r & [= -> -> ->] & Hr%Hin). by rewrite Hr.
    + intros (r & Hr & [= -> ->])%fmap_Some.
      exists r. assert (record_key r = k) as Hk
        by (by destruct (map_Forall_lookup_1 _ _ _ _ Hwf Hr); simplify_eq).
      split; [by rewrite <-Hk|]. apply Hin. by rewrite Hk.
Qed.

#[export] Instance InMemory_Ok : RecordStoreOk (InMemoryRecordStore Value) Value.
Proof.
  refine {| contents := in_memory_contents; list_order := String.leb; list_order_ok := byte_order;
            store_wf := in_memory_wf;
            store_up := λ s, poisoned s = false |}; simpl.
  - intros s k v x Hwf. rewrite in_memory_contents_lookup.
    intros (r & Hr & [= -> ->])%fmap_Some. by apply (map_Forall_lookup_1 _ _ _ _ Hwf Hr).
  - intros s ns k o Hwf. unfold in_memory_get. destruct (poisoned s); [done|].
    intros [= <-]. by rewrite in_memory_contents_lookup.
  - intros s ns k Hup. unfold in_memory_get. by rewrite Hup.
  - intros now s ns k x e r s' Hwf H. destruct (in_memory_write _ _ _ _ _ _ _ _ Hwf H)
      as (Hpre & Hv & Hc & Hwf' & _). split_and!; [|done|done|done].
    by apply cas_strict_pre.
  - intros now s ns k x e err s' Hwf H. apply in_memory_refused in H as [-> H].
    split; [done|]. intros ex a ->. destruct H as [[? _]|(? & ? & _ & ?)]; done.
  - intros now s ns k x e [r|err] s' Hwf Hup H.
    + apply in_memory_write in H as (Hs & _ & _ & _ & ->); [|done]. split_and!; [done|done|].
      intros []. by apply cas_strict_pre.
    + apply in_memory_refused in H as [-> H].
      destruct H as [[_ ?]|(ex & a & -> & ?)]; [congruence|]. split_and!; [done|done|eauto].
  - intros s ns n rs Hwf. unfold in_memory_list. destruct (poisoned s); [done|].
    intros [= <-]. eexists. split; [by apply in_memory_listing|]. by rewrite fmap_take.
  - intros s ns n Hup _. unfold in_memory_list. by rewrite Hup.
  - intros s ns k r s' Hwf. unfold in_memory_delete. destruct (poisoned s) eqn:Hp.
    + by intros [= <- <-].
    + intros [= <- <-]. split_and!.
      * by apply map_Forall_delete.
      * intros k' Hk. rewrite !in_memory_contents_lookup. simpl. by rewrite lookup_delete_ne.
      * rewrite in_memory_contents_lookup. apply bool_decide_ext. by rewrite fmap_is_Some.
      * rewrite in_memory_contents_lookup. simpl. by rewrite lookup_delete_eq.
Defined.

#[export] Instance InMemory_StrictCas : StrictCas (InMemoryRecordStore Value) Value.
Proof. intros now s ns k x e r s' Hwf H. by apply (in_memory_write now s ns k x e r s' Hwf H). Qed.
End InMemoryLaws.

(** ** The PostgreSQL backend *)

Section PostgresLaws.
Context {Value : Type} {Col : Collation} {ColOk : CollationOk}.
Implicit Types (s : PostgresRecordStore Value).

Definition pg_contents s : contents_map Value :=
  (λ row, (row.1.1, row.1.2)) <$> governance_records s.

(** Versions start at 1 and stay in the range of [BIGINT]. *)
Definition pg_wf s : Prop :=
  map_Forall (λ _ row, 1 <= row.1.1 <= i64_max) (governance_records s).

Lemma pg_contents_lookup s k :
  pg_contents s !! k = (λ row, (row.1.1, row.1.2)) <$> governance_records s !! k.
Proof. apply lookup_fmap. Qed.

Lemma i64_as_u64_id v : 1 <= v <= i64_max → i64_as_u64 v = v.
Proof. unfold i64_as_u64. destruct (Z.ltb_spec v 0); lia. Qed.

Lemma pg_wf_write s k v x now :
  pg_wf s → 1 <= v <= i64_max →
  pg_wf (mkPostgres (<[k := (v, x, now)]> (governance_records s)) true).
Proof. intros Hwf Hv. by apply map_Forall_insert_2. Qed.

Lemma pg_write now s ns k x e r s' :
  pg_wf s → pg_put now s ns k x e = (Ok r, s') →
  cas_pre e (pg_contents s !! (ns, k)) ∧
  record_version r = next_version (pg_contents s !! (ns, k)) ∧
  pg_contents s' =
    <[(ns, k) := (next_version (pg_contents s !! (ns, k)), x)]> (pg_contents s) ∧
  pg_wf s' ∧ reachable s' = reachable s.
Proof.
  intros Hwf. unfold pg_put. rewrite pg_contents_lookup.
  destruct (reachable s) eqn:Hp; [simpl|done].
  destruct (governance_records s !! (ns, k)) as [[[v x'] t]|] eqn:E; simpl.
  - assert (1 <= v <= i64_max) as Hv by apply (map_Forall_lookup_1 _ _ _ _ Hwf E).
    destruct (match e with Some _ => _ | None => _ end) eqn:Hg; [|done].
    destruct (Z.eqb_spec v i64_max); [done|]. intros [= <- <-]. simpl.
    rewrite i64_as_u64_id by lia. split_and!; [|done| |apply pg_wf_write; [done|lia]|done].
    + destruct e as [e|]; [|done]. apply Z.eqb_eq in Hg. by rewrite i64_as_u64_id in Hg.
    + unfold pg_contents. simpl. by rewrite fmap_insert.
  - intros [= <- <-]. simpl. rewrite i64_as_u64_id by (unfold i64_max; lia).
    split_and!; [by destruct e|done| |apply pg_wf_write; [done|unfold i64_max; lia]|done].
    unfold pg_contents. simpl. by rewrite fmap_insert.
Qed.

Lemma pg_refused now s ns k x e err s' :
  pg_wf s → pg_put now s ns k x e = (Err err, s') →
  s' = s ∧ ((∃ d, err = Backend d) ∧
              (reachable s = false ∨ next_version (pg_contents s !! (ns, k)) > i64_max ∧
                                     cas_pre e (pg_contents s !! (ns, k))) ∨
            ∃ ex a, err = Conflict ex a ∧ ¬ cas_strict e (pg_contents s !! (ns, k))).
Proof.
  intros Hwf. unfold pg_put. rewrite pg_contents_lookup.
  destruct (reachable s); simpl; [|intros [= <- <-]; eauto 10].
  destruct (governance_records s !! (ns, k)) as [[[v x'] t]|] eqn:E; simpl; [|done].
  assert (1 <= v <= i64_max) as Hv by apply (map_Forall_lookup_1 _ _ _ _ Hwf E).
  destruct (match e with Some _ => _ | None => _ end) eqn:Hg.
  - destruct (Z.eqb_spec v i64_max); [|done]. intros [= <- <-]. split; [done|]. left.
    split; [eauto|]. right. split; [lia|]. destruct e as [e|]; [|done].
    apply Z.eqb_eq in Hg. by rewrite i64_as_u64_id in Hg.
  - intros [= <- <-]. split; [done|]. right. do 2 eexists. split; [done|].
    destruct e as [e|]; [|done]. apply Z.eqb_neq in Hg. by rewrite i64_as_u64_id in Hg.
Qed.

Lemma pg_listing s ns :
  pg_wf s →
  ns_listing collate (pg_contents s) ns (entry_of <$> sort_by (record_key_leb collate)
    ((λ kr, pg_record ns kr.1.2 kr.2) <$>
       filterb (λ kr, kr.1.1 ==? ns) (map_to_list (governance_records s)))).
Proof.
  intros Hwf.
  assert (∀ k row, ((ns, k), row) ∈
      filterb (λ kr, kr.1.1 ==? ns) (map_to_list (governance_records s)) ↔
      governance_records s !! (ns, k) = Some row) as Hin.
  { intros k row. rewrite filterb_elem, elem_of_map_to_list, bool_decide_eq_true. naive_solver. }
  assert (∀ kr, kr ∈ filterb (λ kr, kr.1.1 ==? ns) (map_to_list (governance_records s)) →
      kr.1.1 = ns) as Hns.
  { intros kr [_ H%bool_decide_eq_true_1]%filterb_elem. done. }
  apply ns_listing_sorted; [exact collate_order|..].
  - rewrite <-list_fmap_compose. apply NoDup_fmap_2_strong.
    + intros [[n1 k1] r1] [[n2 k2] r2] H1 H2. simpl. intros ->.
      pose proof (Hns _ H1). pose proof (Hns _ H2). simpl in *. subst.
      apply Hin in H1. apply Hin in H2. congruence.
    + unfold filterb. rewrite NoDup_ListNoDup. apply List.NoDup_filter.
      rewrite <-NoDup_ListNoDup. apply NoDup_map_to_list.
  - intros k v x. rewrite pg_contents_lookup, <-list_fmap_compose, list_elem_of_fmap. split.
    + intros ([[n' k'] row] & [= -> Hv ->] & Hr).
      pose proof (Hns _ Hr). simpl in *. subst n'. apply Hin in Hr. rewrite Hr. simpl.
      rewrite Hv, i64_as_u64_id; [done|]. apply (map_Forall_lookup_1 _ _ _ _ Hwf Hr).
    + intros (row & Hr & [= -> ->])%fmap_Some. exists ((ns, k), row). rewrite Hin. split; [|done].
      unfold compose, entry_of, pg_record. simpl. rewrite i64_as_u64_id; [done|].
      apply (map_Forall_lookup_1 _ _ _ _ Hwf Hr).
Qed.

Lemma pg_list_answers s ns n :
  reachable s = true → Z.of_nat n <= i64_max →
  pg_list s ns n = Ok (take n (sort_by (record_key_leb collate)
    ((λ kr, pg_record ns kr.1.2 kr.2) <$> filterb (λ kr, kr.1.1 ==? ns) (map_to_list (governance_records s))))).
Proof.
  intros Hr Hn. unfold pg_list. rewrite Hr. unfold u64_as_i64. apply Z.leb_le in Hn as Hn'. rewrite Hn'.
  by replace (Z.of_nat n >=? 0) with true by (symmetry; apply Z.geb_le; lia).
Qed.

#[export] Instance Postgres_Ok : RecordStoreOk (PostgresRecordStore Value) Value.
Proof.
  refine {| contents := pg_contents; list_order := collate; list_order_ok := collate_order;
            store_wf := pg_wf; store_up := λ s, reachable s = true |}; simpl.
  - intros s k v x Hwf. rewrite pg_contents_lookup.
    intros (row & Hr & [= -> ->])%fmap_Some. apply (map_Forall_lookup_1 _ _ _ _ Hwf Hr).
  - intros s ns k o Hwf. unfold pg_get. destruct (reachable s); [|done].
    intros [= <-]. rewrite pg_contents_lookup.
    destruct (governance_records s !! (ns, k)) as [row|] eqn:Hr; simpl; [|done].
    rewrite i64_as_u64_id; [done|]. apply (map_Forall_lookup_1 _ _ _ _ Hwf Hr).
  - intros s ns k Hup. unfold pg_get. by rewrite Hup.
  - intros now s ns k x e r s' Hwf H. by apply pg_write in H as (? & ? & ? & ? & _).
  - intros now s ns k x e err s' Hwf H. apply pg_refused in H as [-> H]; [|done].
    split; [done|]. intros ex a ->. destruct H as [[[d ?] _]|(? & ? & _ & ?)]; done.
  - intros now s ns k x e [r|err] s' Hwf Hup H.
    + apply pg_write in H as (Hs & _ & _ & _ & ->); [|done]. by split_and!.
    + apply pg_refused in H as [-> H]; [|done].
      destruct H as [[_ [?|[??]]]|(ex & a & -> & ?)]; [congruence| |split_and!; [done|done|eauto]].
      split_and!; [done|lia|done].
  - intros s ns n rs Hwf. unfold pg_list. destruct (_ && _); [|done].
    intros [= <-]. eexists. split; [by apply pg_listing|]. by rewrite fmap_take.
  - intros s ns n Hup Hn. rewrite pg_list_answers by done. done.
  - intros s ns k r s' Hwf. unfold pg_delete. destruct (reachable s) eqn:Hp.
    + intros [= <- <-]. split_and!.
      * by apply map_Forall_delete.
      * intros k' Hk. rewrite !pg_contents_lookup. simpl. by rewrite lookup_delete_ne.
      * rewrite pg_contents_lookup. apply bool_decide_ext. by rewrite fmap_is_Some.
      * rewrite pg_contents_lookup. simpl. by rewrite lookup_delete_eq.
    + by intros [= <- <-].
Defined.
End PostgresLaws.

(** ** The two backends side by side *)

(** A call of the trait, and what the caller can observe of its result, the
    timestamps left out. *)
Inductive store_call (Value : Type) : Type :=
| StoreGet (ns key : string)
| StorePut (ns key : string) (value : Value) (expected : option Z)
| StoreList (ns : string) (limit : nat)
| StoreDelete (ns key : string).
Arguments StoreGet {Value} ns key.
Arguments StorePut {Value} ns key value expected.
Arguments StoreList {Value} ns limit.
Arguments StoreDelete {Value} ns key.

Inductive store_answer (Value : Type) : Type :=
| AnswerGet (r : result (option (string * Z * Value)) RecordError)
| AnswerPut (r : result (string * Z * Value) RecordError)
| AnswerList (r : result (list (string * Z * Value)) RecordError)
| AnswerDelete (r : result bool RecordError).
Arguments AnswerGet {Value} r.
Arguments AnswerPut {Value} r.
Arguments AnswerList {Value} r.
Arguments AnswerDelete {Value} r.

Definition do_call {S Value} `{RecordStore S Value} (now : Instant) (c : store_call Value) (s : S)
    : store_answer Value * S :=
  match c with
  | StoreGet ns key => (AnswerGet (map_ok (fmap entry_of) (store_get s ns key)), s)
  | StorePut ns key x e =>
      let '(r, s') := store_put now s ns key x e in (AnswerPut (map_ok entry_of r), s')
  | StoreList ns n => (AnswerList (map_ok (fmap entry_of) (store_list s ns n)), s)
  | StoreDelete ns key => let '(r, s') := store_delete s ns key in (AnswerDelete r, s')
  end.

(** The two backends hold the same documents and both answer. *)
Definition backends_agree {Value} (m : InMemoryRecordStore Value) (p : PostgresRecordStore Value)
    : Prop :=
  in_memory_wf m ∧ pg_wf p ∧ poisoned m = false ∧ reachable p = true ∧
  in_memory_contents m = pg_contents p.

(** A call on which they cannot differ: no write with a precondition other than
    creation on an absent key, no write beyond the last [BIGINT], and a listing whose
    limit is an [i64], of keys the collation has in the order of their bytes. *)
Definition portable_call {Value} {Col : Collation} (m : contents_map Value) (c : store_call Value) : Prop :=
  match c with
  | StorePut ns key _ e =>
      next_version (m !! (ns, key)) <= i64_max ∧
      (m !! (ns, key) = None → e = None ∨ e = Some 0)
  | StoreList ns n =>
      Z.of_nat n <= i64_max ∧
      ∀ a b, is_Some (m !! (ns, a)) → is_Some (m !! (ns, b)) → collate a b = String.leb a b
  | _ => True
  end.

Lemma ns_listing_perm {Value} (leb leb' : string → string → bool) (m : contents_map Value) ns l l' :
  ns_listing leb m ns l → ns_listing leb' m ns l' → l ≡ₚ l'.
Proof.
  intros (_ & Hn & Hl) (_ & Hn' & Hl').
  apply NoDup_Permutation; [by eapply NoDup_fmap_1|by eapply NoDup_fmap_1|].
  intros [[k v] x]. by rewrite Hl, Hl'.
Qed.

(** Only the order of the keys that are there matters. *)
Lemma ns_listing_reorder {Value} (leb leb' : string → string → bool) (m : contents_map Value) ns l :
  (∀ a b, is_Some (m !! (ns, a)) → is_Some (m !! (ns, b)) → leb a b = leb' a b) →
  ns_listing leb m ns l → ns_listing leb' m ns l.
Proof.
  intros Heq (Hs & Hn & Hl). split; [|done]. clear Hn.
  assert (∀ a, a ∈ l → is_Some (m !! (ns, a.1.1))) as Hin.
  { intros [[k v] x] Hx%Hl. by eexists. }
  clear Hl. induction Hs as [|a l Hs IH Hhd]; constructor.
  - apply IH. intros b Hb. apply Hin. by right.
  - destruct Hhd as [|b l Hab]; constructor. unfold entry_leb in *. rewrite <-Heq; [done|apply Hin; left|].
    apply Hin. right. left.
Qed.

Lemma ns_listing_unique {Value} (leb : string → string → bool) (m : contents_map Value) ns l l' :
  key_order leb → ns_listing leb m ns l → ns_listing leb m ns l' → l = l'.
Proof.
  intros Hleb Hll Hll'. pose proof (ns_listing_perm _ _ _ _ _ _ Hll Hll') as Hp.
  destruct Hll as (Hs & Hn & Hl), Hll' as (Hs' & Hn' & Hl').
  assert (∀ a b c : string * Z * Value, entry_leb leb a b → entry_leb leb b c → entry_leb leb a c) as Htr
    by (intros a b c; apply (key_order_trans _ Hleb)).
  refine (@Sorted_unique_strong _ (entry_leb leb) Htr l l' _ Hs Hs' Hp).
  intros [[k v] x] [[k' v'] x'] H1 H2 H3 H4. unfold entry_leb in *. simpl in *.
  assert (k = k') as -> by (by apply (key_order_antisym _ Hleb)).
  apply Hl in H1. apply Hl' in H2. congruence.
Qed.

Lemma put_agrees {Value} {Col : Collation} {ColOk : CollationOk} now m (p : PostgresRecordStore Value) ns k x e :
  backends_agree m p → portable_call (in_memory_contents m) (StorePut ns k x e) →
  map_ok entry_of (in_memory_put now m ns k x e).1 = map_ok entry_of (pg_put now p ns k x e).1 ∧
  backends_agree (in_memory_put now m ns k x e).2 (pg_put now p ns k x e).2.
Proof.
  intros (Hm & Hp & Hup & Hrp & Hc) [Hv Habs].
  destruct (in_memory_put now m ns k x e) as [[r|err] m'] eqn:E1;
    destruct (pg_put now p ns k x e) as [[r'|err'] p'] eqn:E2; simpl.
  - pose proof E1 as E1'. pose proof E2 as E2'.
    apply in_memory_write in E1' as (_ & Hv1 & Hc1 & Hw1 & Hu1); [|done].
    apply pg_write in E2' as (_ & Hv2 & Hc2 & Hw2 & Hu2); [|done].
    unfold entry_of. assert (record_key r = k ∧ record_value r = x) as [-> ->].
    { unfold in_memory_put in E1. repeat case_match; simplify_eq; done. }
    assert (record_key r' = k ∧ record_value r' = x) as [-> ->].
    { unfold pg_put in E2. repeat case_match; simplify_eq; done. }
    unfold backends_agree.
    rewrite Hv1, Hv2, Hc1, Hc2, Hc, Hu1, Hu2. by split_and!.
  - exfalso. apply in_memory_write in E1 as (Hs & _); [|done].
    apply pg_refused in E2 as [_ [[_ [?|[? _]]]|(? & ? & _ & Hn)]]; [congruence| | |done].
    + rewrite <-Hc in *. lia.
    + apply Hn. by rewrite <-Hc.
  - exfalso. apply in_memory_refused in E1 as [_ [[_ ?]|(? & ? & _ & Hn)]]; [congruence|].
    apply pg_write in E2 as (Hs & _); [|done]. rewrite <-Hc in Hs. apply Hn.
    destruct (in_memory_contents m !! (ns, k)) as [[]|] eqn:E; [by destruct e|].
    destruct (Habs eq_refl) as [->| ->]; done.
  - pose proof E1 as [-> _]%in_memory_refused. pose proof E2 as [-> _]%pg_refused; [|done].
    split; [|by split_and!]. do 2 f_equal.
    assert (∀ cur, inner m !! (ns, k) = Some cur → ∃ t, governance_records p !! (ns, k) =
      Some (record_version cur, record_value cur, t)) as Hsome.
    { intros cur Hcur. assert (pg_contents p !! (ns, k) = Some (record_version cur, record_value cur))
        as Hpc by (by rewrite <-Hc, in_memory_contents_lookup, Hcur).
      rewrite pg_contents_lookup in Hpc. apply fmap_Some in Hpc as ([[v y] t] & Hr & [= -> ->]).
      eauto. }
    unfold in_memory_put in E1. rewrite Hup in E1.
    destruct (inner m !! (ns, k)) as [cur|] eqn:Ecur.
    + destruct (Hsome cur eq_refl) as [t Hr]. unfold pg_put in E2. rewrite Hrp, Hr in E2.
      destruct e as [e|]; [|done]. cbn in *.
      assert (1 <= record_version cur <= i64_max) as Hb
        by apply (map_Forall_lookup_1 _ _ _ _ Hp Hr).
      rewrite i64_as_u64_id in E2 by done.
      destruct (record_version cur =? e); [done|]. cbn in *. by simplify_eq.
    + rewrite in_memory_contents_lookup, Ecur in Habs.
      destruct (Habs eq_refl) as [->| ->]; done.
Qed.

Lemma calls_agree {Value} {Col : Collation} {ColOk : CollationOk} now m (p : PostgresRecordStore Value) c :
  backends_agree m p → portable_call (in_memory_contents m) c →
  (do_call now c m).1 = (do_call now c p).1 ∧
  backends_agree (do_call now c m).2 (do_call now c p).2.
Proof.
  intros Hag Hport. pose proof Hag as (Hm & Hp & Hup & Hrp & Hc).
  destruct c as [ns k|ns k x e|ns n|ns k]; cbn.
  - split; [|done]. f_equal. unfold in_memory_get, pg_get. rewrite Hup, Hrp. cbn. f_equal.
    pose proof (f_equal (lookup (ns, k)) Hc) as Hk.
    rewrite in_memory_contents_lookup, pg_contents_lookup in Hk.
    destruct (inner m !! (ns, k)) as [r|] eqn:Er, (governance_records p !! (ns, k)) as [[[v y] t]|]
      eqn:Eg; simplify_eq/=; [|done].
    unfold entry_of. simpl. destruct (map_Forall_lookup_1 _ _ _ _ Hm Er) as [[= _ Hk'] _].
    rewrite Hk', i64_as_u64_id; [done|]. apply (map_Forall_lookup_1 _ _ _ _ Hp Eg).
  - destruct (put_agrees now m p ns k x e Hag Hport) as [H1 H2].
    destruct (in_memory_put now m ns k x e), (pg_put now p ns k x e). simpl in *. by rewrite H1.
  - split; [|done]. f_equal. destruct Hport as [Hn Hcol]. unfold in_memory_list.
    rewrite Hup, pg_list_answers by done. cbn. f_equal. rewrite !fmap_take. f_equal.
    eapply ns_listing_unique; [exact byte_order|by apply in_memory_listing|]. rewrite Hc.
    eapply ns_listing_reorder; [|by apply pg_listing]. by rewrite <-Hc.
  - unfold in_memory_delete, pg_delete. rewrite Hup, Hrp. cbn. split.
    + do 2 f_equal. apply bool_decide_ext. pose proof (f_equal (lookup (ns, k)) Hc) as Hk.
      rewrite in_memory_contents_lookup, pg_contents_lookup in Hk.
      rewrite <-(fmap_is_Some (λ r, (record_version r, record_value r))), Hk. by rewrite fmap_is_Some.
    + split_and!; [by apply map_Forall_delete|by apply map_Forall_delete|done|done|].
      unfold in_memory_contents, pg_contents in *. simpl. rewrite !fmap_delete. by rewrite Hc.
Qed.

(** ** Properties *)


(** A collation that looks at letters without their case first, as those of languages do. *)
Definition caseless_leb (a b : string) : bool :=
  if to_ascii_lowercase a ==? to_ascii_lowercase b then String.leb a b
  else String.leb (to_ascii_lowercase a) (to_ascii_lowercase b).

Lemma caseless_order : key_order caseless_leb.
Proof.
  pose proof byte_order as [Ht Htr Ha]. unfold caseless_leb. split.
  - intros a b. repeat case_bool_decide; try congruence; apply Ht.
  - intros a b c. generalize (to_ascii_lowercase a), (to_ascii_lowercase b), (to_ascii_lowercase c). intros A B C.
    repeat case_bool_decide; subst; intros Hab Hbc; try done; try (by eapply Htr).
    exfalso. assert (C = B) by by apply Ha. done.
  - intros a b. repeat case_bool_decide; intros Hab Hba; try congruence; [by apply Ha|].
    exfalso. by assert (to_ascii_lowercase a = to_ascii_lowercase b) by by apply Ha.
Qed.

#[local] Instance caseless : Collation := {| collate := caseless_leb |}.
#[local] Instance caseless_ok : CollationOk := caseless_order.


(** Under such a collation the two backends cut a listing differently: of the keys [B] and [a],
    a listing of one gives the first in memory and the second in the database. *)
Theorem collation_changes_listing :
  let two := [StorePut "ns" "B" true None; StorePut "ns" "a" false None] in
  let m := foldl (λ s c, (do_call 5 c s).2) (InMemoryRecordStore_new (Value:=bool)) two in
  let p := foldl (λ s c, (do_call 5 c s).2) (mkPostgres ∅ true) two in
  (do_call 5 (StoreList "ns" 1) m).1 = AnswerList (Ok [("B"%string, 1, true)]) ∧
  (do_call 5 (StoreList "ns" 1) p).1 = AnswerList (Ok [("a"%string, 1, false)]).
Proof. split; vm_compute; reflexivity. Qed.

(** The durable backend does not meet the documented contract: a write that
    expects a version other than 0 of a document that is gone succeeds and brings
    the document back as version 1, where the in-memory backend reports a
    conflict. *)
Theorem postgres_resurrects {Value} now ns k (x : Value) v :
  v ≠ 0 →
  let p := mkPostgres ∅ true in
  let m := InMemoryRecordStore_new in
  pg_put now p ns k x (Some v) =
    (Ok (mkRecord ns k 1 x now), mkPostgres {[(ns, k) := (1, x, now)]} true) ∧
  in_memory_put now m ns k x (Some v) = (Err (Conflict v None), m) ∧
  ¬ cas_strict (Some v) (pg_contents p !! (ns, k)).
Proof.
  intros Hv p m. split_and!.
  - unfold pg_put. simpl. by rewrite lookup_empty.
  - unfold in_memory_put. simpl. rewrite lookup_empty. by apply Z.eqb_neq in Hv as ->.
  - rewrite pg_contents_lookup. simpl. by rewrite lookup_empty.
Qed.

Lemma postgres_resurrects_witness :
  (pg_put 5 (mkPostgres ∅ true) "work_case" "c" true (Some 7)).1 =
    Ok (mkRecord "work_case" "c" 1 true 5).
Proof.
  destruct (postgres_resurrects 5 "work_case" "c" true 7) as [Hp _]; [discriminate|].
  rewrite Hp. reflexivity.
Defined.
