(* ===== verification/Prog.v ===== *)
(** * Programs over the record store

    An [async fn] of the governance plane is a [prog]: a tree whose nodes are
    the store operations it awaits.  [run] executes a program alone;
    Concurrency.v interleaves several.  [Serde] is the JSON encoding of a
    document type (serde's derived code, a parameter), [ns_get] .. [ns_delete]
    are [NamespacedStore] of record_store.rs, and [cas_loop] is the bounded
    read-modify-write loop that the stores repeat. *)

From Stdlib Require Import String.
From S2P Require Import Prelude RustStr Store.

(** ** Programs *)

Section Programs.
Context {Value : Type}.

Inductive prog (A : Type) : Type :=
| Ret (a : A)
| Get (ns key : string) (k : result (option (StoredRecord Value)) RecordError → prog A)
| Put (ns key : string) (v : Value) (expected : option Z)
      (k : result (StoredRecord Value) RecordError → prog A)
| ListNs (ns : string) (limit : nat)
      (k : result (list (StoredRecord Value)) RecordError → prog A)
| Delete (ns key : string) (k : result bool RecordError → prog A).
#[global] Arguments Ret {A} a.
#[global] Arguments Get {A} ns key k.
#[global] Arguments Put {A} ns key v expected k.
#[global] Arguments ListNs {A} ns limit k.
#[global] Arguments Delete {A} ns key k.

Fixpoint prog_bind {A B} (p : prog A) (f : A → prog B) : prog B :=
  match p with
  | Ret a => f a
  | Get ns key k => Get ns key (λ r, prog_bind (k r) f)
  | Put ns key v e k => Put ns key v e (λ r, prog_bind (k r) f)
  | ListNs ns n k => ListNs ns n (λ r, prog_bind (k r) f)
  | Delete ns key k => Delete ns key (λ r, prog_bind (k r) f)
  end.

(** Running a program with no other program in between.  [now] is the clock
    reading of [Utc::now()] during the run. *)
Fixpoint run {S} `{RecordStore S Value} {A} (now : Instant) (p : prog A) (s : S) : A * S :=
  match p with
  | Ret a => (a, s)
  | Get ns key k => run now (k (store_get s ns key)) s
  | Put ns key v e k => let '(r, s') := store_put now s ns key v e in run now (k r) s'
  | ListNs ns n k => run now (k (store_list s ns n)) s
  | Delete ns key k => let '(r, s') := store_delete s ns key in run now (k r) s'
  end.

Lemma run_bind {S} `{RecordStore S Value} {A B} now (p : prog A) (f : A → prog B) (s : S) :
  run now (prog_bind p f) s = let '(a, s') := run now p s in run now (f a) s'.
Proof.
  revert s. induction p as [a|ns key k IH|ns key v e k IH|ns n k IH|ns key k IH]; intros s; simpl;
    [done|apply IH| |apply IH|].
  - destruct (store_put now s ns key v e). apply IH.
  - destruct (store_delete s ns key). apply IH.
Qed.
End Programs.
Arguments prog : clear implicits.

(** [let! x := p in k] is Rust's [let x = p.await; k]. *)
Notation "'let!' x ':=' p 'in' k" := (prog_bind p (λ x, k))
  (at level 200, x pattern, p at level 100, k at level 200) : rust_scope.

(** ** Encoding of documents *)

(** [serde_json::to_value] and [from_value] for a document type. *)
Class Serde (Value T : Type) : Type := {
  to_value : T → result Value string;
  from_value : Value → result T string
}.

(** Serialization of the plane's documents succeeds and is read back. *)
Class SerdeOk (Value T : Type) `{Serde Value T} : Prop := {
  to_value_total : ∀ x : T, is_ok (to_value x) = true;
  from_to_value : ∀ (x : T) v, to_value x = Ok v → from_value v = Ok x
}.

(** ** The typed view of a namespace *)

Section Namespaced.
Context {Value T : Type} `{Serde Value T}.

Definition decode_record (key : string) (r : StoredRecord Value) : result (T * Z) RecordError :=
  match from_value (record_value r) with
  | Ok x => Ok (x, record_version r)
  | Err d => Err (Decode key d)
  end.

Definition ns_get (ns key : string) : prog Value (result (option (T * Z)) RecordError) :=
  Get ns key (λ r, Ret
    match r with
    | Err e => Err e
    | Ok None => Ok None
    | Ok (Some rec) => map_ok Some (decode_record key rec)
    end).

Definition ns_put (ns key : string) (value : T) (expected : option Z)
    : prog Value (result (StoredRecord Value) RecordError) :=
  match to_value value with
  | Ok encoded => Put ns key encoded expected Ret
  | Err d => Ret (Err (Encode key d))
  end.

Fixpoint decode_records (rs : list (StoredRecord Value)) : result (list (T * Z)) RecordError :=
  match rs with
  | [] => Ok []
  | r :: rs' =>
      let? x := decode_record (record_key r) r in
      let? xs := decode_records rs' in Ok (x :: xs)
  end.

Definition ns_list (ns : string) (limit : nat) : prog Value (result (list (T * Z)) RecordError) :=
  ListNs ns limit (λ r, Ret match r with Err e => Err e | Ok rs => decode_records rs end).
End Namespaced.

Definition ns_delete {Value} (ns key : string) : prog Value (result bool RecordError) :=
  Delete ns key Ret.

(** ** Bounded compare-and-swap loops *)

(** What one iteration decides after reading the document: write a new one and
    answer [a] if the write wins, or answer at once. *)
Inductive cas_action (T A : Type) : Type :=
| Write (x : T) (a : A)
| Answer (a : A).
Arguments Write {T A} x a.
Arguments Answer {T A} a.

(** [for _ in 0..n { get; mutate; put with the version read; on a conflict
    continue }], then [contended]. *)
Fixpoint cas_loop {Value T A} `{Serde Value T} (n : nat) (ns key : string)
    (absent : A) (body : T → Z → cas_action T A) (failed : RecordError → A) (contended : A)
    : prog Value A :=
  match n with
  | O => Ret contended
  | Datatypes.S n' =>
      let! r := ns_get ns key in
      match r with
      | Err e => Ret (failed e)
      | Ok None => Ret absent
      | Ok (Some (x, version)) =>
          match body x version with
          | Answer a => Ret a
          | Write x' a =>
              let! w := ns_put ns key x' (Some version) in
              match w with
              | Ok _ => Ret a
              | Err (Conflict _ _) => cas_loop n' ns key absent body failed contended
              | Err e => Ret (failed e)
              end
          end
      end
  end.

(** ** Running the typed view alone *)

Section RunLaws.
Context {S Value T : Type} {St : RecordStore S Value} {StOk : RecordStoreOk S Value}
        {Sd : Serde Value T} {SdOk : SerdeOk Value T}.
Implicit Types (s : S) (x : T).

(** A store that is well-formed and answers. *)
Definition ready s : Prop := store_wf s ∧ store_up s.

Lemma run_ns_get_some now s ns key v val x :
  ready s → contents s !! (ns, key) = Some (v, val) → from_value val = Ok x →
  run now (ns_get ns key) s = (Ok (Some (x, v)), s).
Proof.
  intros [Hwf Hup] Hl Hx. cbn. pose proof (get_up s ns key Hup) as Hok.
  destruct (store_get s ns key) as [o|] eqn:E; [|done].
  pose proof (get_ok s ns key o Hwf E) as Ho. rewrite Hl in Ho. destruct o as [r|]; [|done].
  simpl in Ho. injection Ho as <- <-. unfold decode_record. by rewrite Hx.
Qed.

Lemma run_ns_get_none now s ns key :
  ready s → contents s !! (ns, key) = None →
  run now (ns_get (T:=T) ns key) s = (Ok None, s).
Proof.
  intros [Hwf Hup] Hl. cbn. pose proof (get_up s ns key Hup) as Hok.
  destruct (store_get s ns key) as [o|] eqn:E; [|done].
  pose proof (get_ok s ns key o Hwf E) as Ho. rewrite Hl in Ho. by destruct o.
Qed.

Lemma run_ns_put_ok now s ns key x e :
  ready s → cas_strict e (contents s !! (ns, key)) →
  next_version (contents s !! (ns, key)) <= i64_max →
  ∃ r s' val, run now (ns_put ns key x e) s = (Ok r, s') ∧ ready s' ∧
    from_value val = Ok x ∧ record_version r = next_version (contents s !! (ns, key)) ∧
    contents s' = <[(ns, key) := (next_version (contents s !! (ns, key)), val)]> (contents s).
Proof.
  intros [Hwf Hup] Hc Hv. unfold ns_put. pose proof (to_value_total x) as Htot.
  destruct (to_value x) as [val|] eqn:E; [|done]. cbn.
  destruct (store_put now s ns key val e) as [r s'] eqn:Ep.
  destruct (put_up _ _ _ _ _ _ _ _ Hwf Hup Ep) as (Hup' & Hok & _). specialize (Hok Hc Hv).
  destruct r as [r|]; [|done]. apply put_ok in Ep as (_ & Hr & Hcont & Hwf'); [|done].
  exists r, s', val. split_and!; try done. by apply from_to_value.
Qed.

Lemma run_ns_put_conflict now s ns key x e :
  ready s → ¬ cas_pre e (contents s !! (ns, key)) →
  ∃ ex a, run now (ns_put ns key x e) s = (Err (Conflict ex a), s).
Proof.
  intros [Hwf Hup] Hc. unfold ns_put. pose proof (to_value_total x) as Htot.
  destruct (to_value x) as [val|] eqn:E; [|done]. cbn.
  destruct (store_put now s ns key val e) as [r s'] eqn:Ep.
  destruct (put_up _ _ _ _ _ _ _ _ Hwf Hup Ep) as (_ & _ & Hcf).
  destruct (Hcf Hc) as (ex & a & ->). apply put_err in Ep as [-> _]; [|done]. by exists ex, a.
Qed.

Lemma decode_records_elem rs xs (x : T) v :
  decode_records rs = Ok xs → (x, v) ∈ xs →
  ∃ k val, (k, v, val) ∈ entry_of <$> rs ∧ from_value val = Ok x.
Proof.
  revert xs. induction rs as [|r rs IH]; intros xs; cbn [decode_records].
  { intros [= <-] Hx. by apply elem_of_nil in Hx. }
  unfold decode_record at 1. destruct (from_value (record_value r)) as [y|] eqn:Hy; [|done].
  cbn [result_bind]. destruct (decode_records rs) as [ys|] eqn:E; [|done]. cbn. intros [= <-].
  intros [Heq|Hx]%elem_of_cons.
  - injection Heq as -> ->. exists (record_key r), (record_value r). split; [|done].
    csimpl. left.
  - destruct (IH ys eq_refl Hx) as (k & val & Hk & Hv). exists k, val. split; [|done].
    csimpl. by right.
Qed.

(** A listing is a key-ordered prefix of the namespace. *)
Lemma run_ns_list now s ns limit l xs :
  ready s → Z.of_nat limit <= i64_max → store_listing s ns l →
  Forall2 (λ a y, from_value a.2 = Ok y.1 ∧ a.1.2 = y.2) (take limit l) xs →
  run now (ns_list (T:=T) ns limit) s = (Ok xs, s).
Proof.
  intros [Hwf Hup] Hn Hl Hxs. cbn. pose proof (list_up s ns limit Hup Hn) as Hok.
  destruct (store_list s ns limit) as [rs|] eqn:E; [|done].
  apply list_ok in E as (l' & Hl' & Hrs); [|done]. f_equal.
  rewrite (ns_listing_unique _ _ _ _ _ list_order_ok Hl Hl'), <-Hrs in Hxs. clear Hrs Hok.
  revert xs Hxs. induction rs as [|r rs IH]; intros xs Hxs; csimpl in Hxs.
  { by apply Forall2_nil_inv_l in Hxs as ->. }
  apply Forall2_cons_inv_l in Hxs as ([y w] & ys & [Hy Hv] & Hys & ->). cbn in Hy, Hv.
  cbn [decode_records]. unfold decode_record. rewrite Hy. cbn [result_bind].
  rewrite (IH _ Hys). cbn. by rewrite Hv.
Qed.

(** One round of a compare-and-swap loop is enough when nothing interferes. *)
Lemma run_cas_loop {A} now s n ns key v val x (absent : A) body failed contended :
  ready s → contents s !! (ns, key) = Some (v, val) → from_value val = Ok x →
  v < i64_max →
  match body x v with
  | Answer a => run now (cas_loop (Datatypes.S n) ns key absent body failed contended) s = (a, s)
  | Write x' a =>
      ∃ s' val', run now (cas_loop (Datatypes.S n) ns key absent body failed contended) s = (a, s') ∧
        ready s' ∧ from_value val' = Ok x' ∧
        contents s' = <[(ns, key) := (v + 1, val')]> (contents s)
  end.
Proof.
  intros Hs Hl Hx Hv. cbn [cas_loop]. rewrite run_bind, (run_ns_get_some _ _ _ _ _ _ _ Hs Hl Hx).
  destruct (body x v) as [x' a|a]; [|done]. rewrite run_bind.
  destruct (run_ns_put_ok now s ns key x' (Some v) Hs) as (r & s' & val' & Hr & Hs' & Hx' & _ & Hc).
  - by rewrite Hl.
  - rewrite Hl. simpl. lia.
  - rewrite Hr. exists s', val'. rewrite Hc, Hl. done.
Qed.

Lemma run_cas_loop_absent {A} now s n ns key (absent : A) (body : T → Z → cas_action T A)
    failed contended :
  ready s → contents s !! (ns, key) = None →
  run now (cas_loop (Datatypes.S n) ns key absent body failed contended) s = (absent, s).
Proof. intros Hs Hl. cbn [cas_loop]. by rewrite run_bind, run_ns_get_none. Qed.

(** A failed write leaves the store alone. *)
Lemma run_ns_put_err now s s' ns key x e err :
  store_wf s → run now (ns_put ns key x e) s = (Err err, s') → s' = s.
Proof.
  intros Hwf. unfold ns_put. destruct (to_value x) as [val|]; cbn; [|by intros [= _ ->]].
  destruct (store_put now s ns key val e) as [[r|err'] s1] eqn:Ep; [done|].
  apply put_err in Ep as [-> _]; [|done]. by intros [= _ ->].
Qed.

Lemma run_ns_put_wrote now s s' ns key x e r :
  store_wf s → run now (ns_put ns key x e) s = (Ok r, s') →
  cas_pre e (contents s !! (ns, key)) ∧ store_wf s' ∧
  ∃ val, from_value val = Ok x ∧
    contents s' = <[(ns, key) := (next_version (contents s !! (ns, key)), val)]> (contents s).
Proof.
  intros Hwf. unfold ns_put. destruct (to_value x) as [val|] eqn:Ev; cbn; [|done].
  destruct (store_put now s ns key val e) as [[r'|err'] s1] eqn:Ep; [|done].
  apply put_ok in Ep as (Hc & _ & Hcont & Hwf'); [|done]. intros [= _ <-]. split_and!; [done|done|].
  exists val. split; [by apply from_to_value|done].
Qed.

Lemma run_ns_get_read now s s' ns key v x :
  store_wf s → run now (ns_get (T:=T) ns key) s = (Ok (Some (x, v)), s') →
  ∃ val, contents s !! (ns, key) = Some (v, val) ∧ from_value val = Ok x.
Proof.
  intros Hwf. cbn. destruct (store_get s ns key) as [[r|]|] eqn:E; [|done|done].
  pose proof (get_ok _ _ _ _ Hwf E) as Hl. unfold decode_record.
  destruct (from_value (record_value r)) as [y|] eqn:Hy; [|done]. intros [= -> <- _].
  exists (record_value r). split; [|done]. rewrite <-Hl. by destruct r.
Qed.

Lemma run_ns_get_same {A} now s ns key (f : result (option (T * Z)) RecordError → prog Value A) :
  run now (prog_bind (ns_get ns key) f) s = run now (f (run now (ns_get ns key) s).1) s.
Proof. rewrite run_bind. by destruct (run now (ns_get ns key) s) as [r s1] eqn:E; injection E as <- <-. Qed.

(** Writing keeps a store ready, whatever the answer, and touches one key. *)
Lemma run_ns_put_ready now s s' ns key x e r :
  ready s → run now (ns_put ns key x e) s = (r, s') →
  ready s' ∧ ∀ k, k ≠ (ns, key) → contents s' !! k = contents s !! k.
Proof.
  intros [Hwf Hup]. unfold ns_put. destruct (to_value x) as [val|]; cbn; [|by intros [= _ <-]].
  destruct (store_put now s ns key val e) as [r' s1] eqn:Ep. intros [= _ <-].
  pose proof (put_up _ _ _ _ _ _ _ _ Hwf Hup Ep) as (Hup' & _ & _). destruct r' as [r'|err].
  - apply put_ok in Ep as (_ & _ & Hc & Hwf'); [|done]. split; [done|]. intros k Hk.
    rewrite Hc. by apply lookup_insert_ne.
  - by apply put_err in Ep as [-> _].
Qed.

(** A bounded loop that does not answer with a write leaves the store alone. *)
Lemma run_cas_loop_quiet {A} now s s' n ns key (absent : A) body failed contended a :
  store_wf s → run now (cas_loop (T:=T) n ns key absent body failed contended) s = (a, s') →
  (∀ x v x', body x v ≠ Write x' a) → s' = s.
Proof.
  intros Hwf. revert s Hwf. induction n as [|n IH]; intros s Hwf Hrun Hb; cbn [cas_loop] in Hrun.
  { by injection Hrun as _ <-. }
  rewrite run_ns_get_same in Hrun.
  destruct (run now (ns_get ns key) s).1 as [[[x v]|]|err]; [|by injection Hrun as _ <-..].
  destruct (body x v) as [x' b|b] eqn:Eb; [|by injection Hrun as _ <-].
  rewrite run_bind in Hrun. destruct (run now (ns_put ns key x' (Some v)) s) as [w s1] eqn:Ep.
  destruct w as [r|err]; [by injection Hrun as -> <-; destruct (Hb _ _ _ Eb)|].
  apply run_ns_put_err in Ep as ->; [|done].
  destruct err; try (by injection Hrun as _ <-). by apply IH in Hrun.
Qed.

(** The documents of a listing are documents of the namespace. *)
Lemma run_ns_list_read now s s' ns limit xs :
  store_wf s → run now (ns_list (T:=T) ns limit) s = (Ok xs, s') →
  s' = s ∧ ∀ x v, (x, v) ∈ xs →
    ∃ k val, contents s !! (ns, k) = Some (v, val) ∧ from_value val = Ok x.
Proof.
  intros Hwf. cbn. destruct (store_list s ns limit) as [rs|] eqn:E; [|done].
  apply list_ok in E as (l & Hl & Hrs); [|done]. intros [= Hxs <-]. split; [done|].
  destruct Hl as (_ & _ & Hl). intros x v Hx.
  destruct (decode_records_elem _ _ _ _ Hxs Hx) as (k & val & Hk & Hv).
  exists k, val. split; [|done]. apply Hl. rewrite Hrs in Hk.
  apply elem_of_take in Hk as (j & Hj & _). by eapply list_elem_of_lookup_2.
Qed.
End RunLaws.

(** A concrete encoding: documents stored as they are. *)
Definition identity_serde (T : Type) : Serde T T := {| to_value := Ok; from_value := Ok |}.

Lemma identity_serde_ok T : @SerdeOk T T (identity_serde T).
Proof. split; [done|]. by intros x v [= ->]. Qed.

(** Two kinds of documents in one store. *)
Definition left_serde (A B : Type) : Serde (A + B) A :=
  {| to_value := λ a, Ok (inl a);
     from_value := λ v, match v with inl a => Ok a | inr _ => Err "wrong document" end |}.
Definition right_serde (A B : Type) : Serde (A + B) B :=
  {| to_value := λ b, Ok (inr b);
     from_value := λ v, match v with inr b => Ok b | inl _ => Err "wrong document" end |}.

Lemma left_serde_ok A B : @SerdeOk (A + B) A (left_serde A B).
Proof. split; [done|]. by intros x v [= <-]. Qed.
Lemma right_serde_ok A B : @SerdeOk (A + B) B (right_serde A B).
Proof. split; [done|]. by intros x v [= <-]. Qed.
