(* ===== verification/Concurrency.v ===== *)
(** * Interleavings and rely-guarantee

    A gateway runs many calls at once and every await of a store operation is a
    point where another call can run.  [step] executes one store operation of
    one of the threads, or lets the environment change namespaces the component
    does not own.  [wp] is the rely-guarantee weakest precondition of a program:
    what holds when it returns, whatever allowed writes the others make between
    its own operations.  [wp_adequate] is its soundness, and [wp_cas_loop] the
    rule of the compare-and-swap loop. *)

From Stdlib Require Import String.
From S2P Require Import Prelude RustStr Store Prog.

Section RelyGuarantee.
Context {S Value : Type} `{RecordStoreOk S Value}.

(** ** The abstract state: the contents and the log of successful writes *)

Record event : Type := mkEvent {
  ev_thread : nat;
  ev_key : string * string;
  ev_old : option (Z * Value);
  ev_new : Value
}.

Definition astate : Type := contents_map Value * list event.

(** The namespaces a component owns, and the writes it allows there: the key, the
    current binding and the value written. *)
Context (owned : string → bool)
        (allowed : string * string → option (Z * Value) → Value → Prop).

Definition write (i : nat) (k : string * string) (x : Value) (σ : astate) : astate :=
  (<[k := (next_version (σ.1 !! k), x)]> σ.1, σ.2 ++ [mkEvent i k (σ.1 !! k) x]).

(** What the other threads and the rest of the gateway may do at any time. *)
Inductive interfere : astate → astate → Prop :=
| interfere_write i k x σ : allowed k (σ.1 !! k) x → interfere σ (write i k x σ)
| interfere_foreign m h m' :
    (∀ k, owned k.1 = true → m' !! k = m !! k) → interfere (m, h) (m', h).

(** ** Configurations and interleaved execution *)

Record config (R : Type) : Type := mkConfig {
  cfg_store : S;
  cfg_threads : list (prog Value R);
  cfg_log : list event
}.
#[global] Arguments mkConfig {R} _ _ _.
#[global] Arguments cfg_store {R} _.
#[global] Arguments cfg_threads {R} _.
#[global] Arguments cfg_log {R} _.

Definition log_put {E} (i : nat) (k : string * string) (x : Value) (s : S)
    (r : result (StoredRecord Value) E) (h : list event) : list event :=
  match r with
  | Ok _ => h ++ [mkEvent i k (contents s !! k) x]
  | Err _ => h
  end.

(** One atomic operation of thread [i], or a change by code outside the pool
    (which leaves the owned namespaces alone). *)
Inductive step {R} : config R → config R → Prop :=
| step_get i ns key k s ts h :
    ts !! i = Some (Get ns key k) →
    step (mkConfig s ts h) (mkConfig s (<[i := k (store_get s ns key)]> ts) h)
| step_put i ns key x e k now r s s' ts h :
    ts !! i = Some (Put ns key x e k) →
    store_put now s ns key x e = (r, s') →
    step (mkConfig s ts h) (mkConfig s' (<[i := k r]> ts) (log_put i (ns, key) x s r h))
| step_list i ns n k s ts h :
    ts !! i = Some (ListNs ns n k) →
    step (mkConfig s ts h) (mkConfig s (<[i := k (store_list s ns n)]> ts) h)
| step_delete i ns key k r s s' ts h :
    ts !! i = Some (Delete ns key k) →
    store_delete s ns key = (r, s') →
    step (mkConfig s ts h) (mkConfig s' (<[i := k r]> ts) h)
| step_foreign s s' ts h :
    store_wf s' → (∀ k, owned k.1 = true → contents s' !! k = contents s !! k) →
    step (mkConfig s ts h) (mkConfig s' ts h).

Definition astate_of {R} (c : config R) : astate := (contents (cfg_store c), cfg_log c).

(** ** Weakest preconditions *)

Fixpoint wp {A} (i : nat) (p : prog Value A) (Q : A → astate → Prop) (σ : astate) : Prop :=
  match p with
  | Ret a => ∀ σ', rtc interfere σ σ' → Q a σ'
  | Get ns key k => ∀ σ', rtc interfere σ σ' →
      (∀ o, (λ r, (record_version r, record_value r)) <$> o = σ'.1 !! (ns, key) →
            wp i (k (Ok o)) Q σ') ∧
      (∀ e, wp i (k (Err e)) Q σ')
  | Put ns key x e k => ∀ σ', rtc interfere σ σ' →
      (cas_pre e (σ'.1 !! (ns, key)) →
         allowed (ns, key) (σ'.1 !! (ns, key)) x ∧
         ∀ r, record_version r = next_version (σ'.1 !! (ns, key)) →
              wp i (k (Ok r)) Q (write i (ns, key) x σ')) ∧
      (∀ err, wp i (k (Err err)) Q σ')
  | ListNs ns n k => ∀ σ', rtc interfere σ σ' →
      (∀ rs l leb, ns_listing leb σ'.1 ns l → entry_of <$> rs = take n l → wp i (k (Ok rs)) Q σ') ∧
      (∀ e, wp i (k (Err e)) Q σ')
  | Delete ns key k => ∀ σ', rtc interfere σ σ' →
      owned ns = false ∧ ∀ r m', (∀ k', owned k'.1 = true → m' !! k' = σ'.1 !! k') →
        wp i (k r) Q (m', σ'.2)
  end.

Lemma wp_interfere {A} i (p : prog Value A) Q σ σ' :
  wp i p Q σ → rtc interfere σ σ' → wp i p Q σ'.
Proof. destruct p; simpl; intros Hwp Hr σ'' Hr'; apply Hwp; by etrans. Qed.

Lemma wp_ret {A} i (a : A) (Q : A → astate → Prop) σ :
  (∀ σ', rtc interfere σ σ' → Q a σ') → wp i (Ret a) Q σ.
Proof. done. Qed.

Lemma wp_mono {A} i (p : prog Value A) (Q Q' : A → astate → Prop) σ :
  (∀ a σ, Q a σ → Q' a σ) → wp i p Q σ → wp i p Q' σ.
Proof.
  intros HQ. revert σ. induction p as [a|ns key k IH|ns key x e k IH|ns n k IH|ns key k IH];
    intros σ; simpl; intros Hwp σ' Hr; specialize (Hwp σ' Hr).
  - by apply HQ.
  - destruct Hwp as [H1 H2]. split; intros; apply IH; auto.
  - destruct Hwp as [H1 H2]. split; [|intros; apply IH; auto].
    intros Hc. destruct (H1 Hc) as [Ha Hk]. split; [done|]. intros. apply IH. auto.
  - destruct Hwp as [H1 H2]. split; intros; apply IH; eauto.
  - destruct Hwp as [H1 H2]. split; [done|]. intros. apply IH. auto.
Qed.

Lemma wp_bind {A B} i (p : prog Value A) (f : A → prog Value B) Q σ :
  wp i p (λ a σ', wp i (f a) Q σ') σ → wp i (prog_bind p f) Q σ.
Proof.
  revert σ. induction p as [a|ns key k IH|ns key x e k IH|ns n k IH|ns key k IH];
    intros σ; simpl.
  - intros Hwp. by apply Hwp.
  - intros Hwp σ' Hr. destruct (Hwp σ' Hr) as [H1 H2]. split; intros; apply IH; auto.
  - intros Hwp σ' Hr. destruct (Hwp σ' Hr) as [H1 H2]. split; [|intros; apply IH; auto].
    intros Hc. destruct (H1 Hc) as [Ha Hk]. split; [done|]. intros. apply IH. auto.
  - intros Hwp σ' Hr. destruct (Hwp σ' Hr) as [H1 H2]. split; intros; apply IH; eauto.
  - intros Hwp σ' Hr. destruct (Hwp σ' Hr) as [H1 H2]. split; [done|]. intros. apply IH. auto.
Qed.

(** A program's own effects are interference too: what it leaves is reachable from
    where it started. *)
Lemma wp_since {A} i (p : prog Value A) Q σ :
  wp i p Q σ → wp i p (λ a σ', rtc interfere σ σ' ∧ Q a σ') σ.
Proof.
  enough (∀ σ0, rtc interfere σ0 σ → wp i p Q σ → wp i p (λ a σ', rtc interfere σ0 σ' ∧ Q a σ') σ)
    as Hx by (by apply Hx).
  intros σ0. revert σ. induction p as [a|ns key k IH|ns key x e k IH|ns n k IH|ns key k IH];
    intros σ Hr0; simpl; intros Hwp σ' Hr;
    (assert (rtc interfere σ0 σ') as Hr1 by (by etrans)); specialize (Hwp σ' Hr).
  - done.
  - destruct Hwp as [H1 H2]. split; intros; apply IH; auto.
  - destruct Hwp as [H1 H2]. split; [|intros; apply IH; auto].
    intros Hc. destruct (H1 Hc) as [Ha Hk]. split; [done|]. intros r Hv. apply IH; [|auto].
    etrans; [exact Hr1|]. apply rtc_once. by constructor.
  - destruct Hwp as [H1 H2]. split; intros; apply IH; eauto.
  - destruct Hwp as [H1 H2]. split; [done|]. intros r m' Hm. apply IH; [|auto].
    etrans; [exact Hr1|]. destruct σ' as [m h]. apply rtc_once. by constructor.
Qed.

(** ** Soundness *)

(** Every thread of [c] satisfies its [wp] in the state of [c]. *)
Definition all_wp {R} (Q : nat → R → astate → Prop) (c : config R) : Prop :=
  store_wf (cfg_store c) ∧
  ∀ i p, cfg_threads c !! i = Some p → wp i p (Q i) (astate_of c).

(** The other threads keep their [wp] across an interference, and the stepping
    thread has a new one. *)
Lemma all_wp_update {R} (Q : nat → R → astate → Prop) i p' s s' ts h h' :
  all_wp Q (mkConfig s ts h) → store_wf s' →
  rtc interfere (contents s, h) (contents s', h') →
  wp i p' (Q i) (contents s', h') →
  all_wp Q (mkConfig s' (<[i := p']> ts) h').
Proof.
  intros [_ Hts] Hwf Hint Hp'. split; [done|]. simpl. intros j p Hj.
  destruct (decide (i = j)) as [->|Hne].
  - apply list_lookup_insert_Some in Hj as [(_ & -> & _)|[? _]]; done.
  - rewrite list_lookup_insert_ne in Hj by done.
    eapply wp_interfere; [by apply Hts|done].
Qed.

Lemma step_all_wp {R} (Q : nat → R → astate → Prop) c c' :
  step c c' → all_wp Q c → all_wp Q c'.
Proof.
  intros Hstep Hall. pose proof Hall as [Hwf Hts].
  destruct Hstep as [i ns key k s ts h Hi|i ns key x e k now r s s' ts h Hi Hput
                    |i ns n k s ts h Hi|i ns key k r s s' ts h Hi Hdel|s s' ts h Hwf' Hfor];
    simpl in *; try (specialize (Hts i _ Hi); cbn in Hts; specialize (Hts _ (rtc_refl _ _)); cbn in Hts).
  - destruct Hts as [H1 H2]. eapply all_wp_update; [done|done|reflexivity|].
    destruct (store_get s ns key) as [o|err] eqn:E; [apply H1|apply H2].
    by eapply get_ok.
  - destruct Hts as [H1 H2]. destruct r as [r|err]; simpl.
    + apply put_ok in Hput as (Hpre & Hv & Hc & Hwf'); [|done].
      destruct (H1 Hpre) as [Hal Hk]. specialize (Hk r Hv).
      unfold write in Hk. simpl in Hk. rewrite <-Hc in Hk.
      eapply all_wp_update; [done|done| |exact Hk].
      apply rtc_once. rewrite Hc. apply (interfere_write i (ns, key) x (contents s, h)). done.
    + apply put_err in Hput as [-> _]; [|done].
      eapply all_wp_update; [done|done|reflexivity|apply H2].
  - destruct Hts as [H1 H2]. eapply all_wp_update; [done|done|reflexivity|].
    destruct (store_list s ns n) as [rs|err] eqn:E; [|apply H2].
    apply list_ok in E as (l & Hl & Hrs); [|done]. by eapply H1.
  - destruct Hts as [Hns Hk]. apply delete_contents in Hdel as (Hwf' & Hother & _); [|done].
    assert (∀ k', owned k'.1 = true → contents s' !! k' = contents s !! k') as Hsame.
    { intros k' Hk'. apply Hother. intros ->. simpl in *. congruence. }
    eapply all_wp_update; [done|done| |by apply Hk].
    apply rtc_once. by constructor.
  - split; [done|]. simpl. intros i p Hi. eapply wp_interfere; [by apply Hts|].
    apply rtc_once. by constructor.
Qed.

Theorem wp_adequate {R} (Q : nat → R → astate → Prop) c c' :
  all_wp Q c → rtc step c c' →
  ∀ i a, cfg_threads c' !! i = Some (Ret a) → Q i a (astate_of c').
Proof.
  intros Hall Hsteps i a Hi.
  assert (all_wp Q c') as [_ H'].
  { induction Hsteps as [|c c1 c2 Hs _ IH]; [done|]. apply IH; [by eapply step_all_wp|done]. }
  specialize (H' i _ Hi). by apply H'.
Qed.

(** An invariant of the allowed writes and of the foreign changes holds in every
    reachable configuration, provided every thread has a [wp]. *)
Lemma step_interfere {R} (Q : nat → R → astate → Prop) c c' :
  all_wp Q c → step c c' → rtc interfere (astate_of c) (astate_of c').
Proof.
  intros [Hwf Hts] Hstep.
  destruct Hstep as [i ns key k s ts h Hi|i ns key x e k now r s s' ts h Hi Hput
                    |i ns n k s ts h Hi|i ns key k r s s' ts h Hi Hdel|s s' ts h Hwf' Hfor];
    unfold astate_of in *; simpl in *; try reflexivity;
    try (specialize (Hts i _ Hi); cbn in Hts; specialize (Hts _ (rtc_refl _ _)); cbn in Hts).
  - destruct Hts as [H1 _]. destruct r as [r|err]; simpl.
    + apply put_ok in Hput as (Hpre & Hv & Hc & Hwf'); [|done].
      destruct (H1 Hpre) as [Hal _]. apply rtc_once. rewrite Hc.
      apply (interfere_write i (ns, key) x (contents s, h)). done.
    + by apply put_err in Hput as [-> _].
  - destruct Hts as [Hns _]. apply delete_contents in Hdel as (_ & Hother & _); [|done].
    apply rtc_once. constructor. intros k' Hk'. apply Hother. intros ->. simpl in *. congruence.
  - apply rtc_once. by constructor.
Qed.

Lemma steps_interfere {R} (Q : nat → R → astate → Prop) c c' :
  all_wp Q c → rtc step c c' → rtc interfere (astate_of c) (astate_of c').
Proof.
  intros Hall Hsteps. induction Hsteps as [|c c1 c2 Hs _ IH]; [done|].
  etrans; [by eapply step_interfere|]. apply IH. by eapply step_all_wp.
Qed.

Lemma steps_all_wp {R} (Q : nat → R → astate → Prop) c c' :
  all_wp Q c → rtc step c c' → all_wp Q c'.
Proof.
  intros Hall Hsteps. induction Hsteps as [|c c1 c2 Hs _ IH]; [done|].
  apply IH. by eapply step_all_wp.
Qed.

(** ** Knowledge that survives interference *)

(** The document at [k] had version [v] and value [x]: whenever the version is
    still [v] the value is still [x], and versions only grow. *)
Definition knows (k : string * string) (v : Z) (x : Value) (σ : astate) : Prop :=
  ∃ v' x', σ.1 !! k = Some (v', x') ∧ v <= v' ∧ (v' = v → x' = x).

Lemma knows_now k v x σ : σ.1 !! k = Some (v, x) → knows k v x σ.
Proof. intros Hk. exists v, x. by split_and!. Qed.

Lemma knows_interfere k v x σ σ' :
  owned k.1 = true → knows k v x σ → interfere σ σ' → knows k v x σ'.
Proof.
  intros Hk (v' & x' & Hl & Hv & Hx) Hi. destruct Hi as [i k' y [m h] _|m h m' Hm]; simpl in *.
  - destruct (decide (k' = k)) as [->|Hne].
    + exists (v' + 1), y. simpl. rewrite lookup_insert_eq, Hl. split_and!; [done|lia|lia].
    + exists v', x'. simpl. by rewrite lookup_insert_ne.
  - exists v', x'. by rewrite Hm.
Qed.

Lemma knows_rtc k v x σ σ' :
  owned k.1 = true → knows k v x σ → rtc interfere σ σ' → knows k v x σ'.
Proof. intros Hk Hkn Hr. induction Hr; [done|]. eauto using knows_interfere. Qed.

(** A successful compare-and-swap at a known version replaces the known value. *)
Lemma knows_cas k v x σ : knows k v x σ → cas_pre (Some v) (σ.1 !! k) → σ.1 !! k = Some (v, x).
Proof. intros (v' & x' & Hl & _ & Hx). rewrite Hl. simpl. intros ->. by rewrite Hx. Qed.

(** The log only grows. *)
Lemma log_interfere σ σ' : rtc interfere σ σ' → σ.2 `prefix_of` σ'.2.
Proof.
  intros Hr. induction Hr as [σ|σ σ1 σ2 Hi _ IH]; [done|].
  etrans; [|exact IH]. destruct Hi; simpl; [by apply prefix_app_r|done].
Qed.

Lemma logged_rtc (e : event) σ σ' : e ∈ σ.2 → rtc interfere σ σ' → e ∈ σ'.2.
Proof. intros He [l ->]%log_interfere. set_solver. Qed.

Lemma logged_write i k x σ : mkEvent i k (σ.1 !! k) x ∈ (write i k x σ).2.
Proof. simpl. apply elem_of_app. right. by apply list_elem_of_singleton. Qed.

(** ** Rules for the typed view *)

Lemma wp_ns_get {T} `{Serde Value T} i ns key (Q : result (option (T * Z)) RecordError → _) σ :
  (∀ σ', rtc interfere σ σ' →
    (σ'.1 !! (ns, key) = None → ∀ σ'', rtc interfere σ' σ'' → Q (Ok None) σ'') ∧
    (∀ v val x, σ'.1 !! (ns, key) = Some (v, val) → from_value val = Ok x →
       ∀ σ'', rtc interfere σ' σ'' → Q (Ok (Some (x, v))) σ'') ∧
    (∀ e σ'', rtc interfere σ' σ'' → Q (Err e) σ'')) →
  wp i (ns_get ns key) Q σ.
Proof.
  intros Hwp σ' Hr. destruct (Hwp σ' Hr) as (Hr1 & Hr2 & Hr3). split.
  - intros [r|] Ho; symmetry in Ho; simpl in *; [|by apply Hr1].
    unfold decode_record. destruct (from_value (record_value r)) eqn:E; simpl; [|by apply Hr3].
    by eapply Hr2.
  - intros e. simpl. auto.
Qed.

Lemma wp_ns_put {T} `{Serde Value T} i ns key (x : T) e
    (Q : result (StoredRecord Value) RecordError → _) σ :
  (∀ val σ', to_value x = Ok val → rtc interfere σ σ' →
    cas_pre e (σ'.1 !! (ns, key)) →
    allowed (ns, key) (σ'.1 !! (ns, key)) val ∧
    ∀ r σ'', rtc interfere (write i (ns, key) val σ') σ'' → Q (Ok r) σ'') →
  (∀ err σ', rtc interfere σ σ' → Q (Err err) σ') →
  wp i (ns_put ns key x e) Q σ.
Proof.
  intros Hok Herr. unfold ns_put. destruct (to_value x) as [val|d] eqn:E; simpl; [|auto].
  intros σ' Hr. split.
  - intros Hc. destruct (Hok val σ' eq_refl Hr Hc) as [Ha HQ]. split; [done|]. eauto.
  - intros err σ'' Hr'. apply Herr. by etrans.
Qed.

(** The rule of the compare-and-swap loop: the writes are allowed, and the
    answer is one of the loop's exits; on the winning exit the log holds the
    write, made on exactly the document that was read. *)
Lemma wp_cas_loop {T A} `{Serde Value T} i n ns key (absent : A)
    (body : T → Z → cas_action T A) failed contended (Q : A → astate → Prop) σ :
  owned ns = true →
  (∀ σ' v val x x' a val', rtc interfere σ σ' → σ'.1 !! (ns, key) = Some (v, val) →
     from_value val = Ok x → body x v = Write x' a → to_value x' = Ok val' →
     allowed (ns, key) (Some (v, val)) val') →
  (∀ σ', rtc interfere σ σ' → Q absent σ') →
  (∀ e σ', rtc interfere σ σ' → Q (failed e) σ') →
  (∀ σ', rtc interfere σ σ' → Q contended σ') →
  (∀ v val x a σr σ', rtc interfere σ σr → σr.1 !! (ns, key) = Some (v, val) →
     rtc interfere σr σ' → from_value val = Ok x → body x v = Answer a → Q a σ') →
  (∀ v val x x' a val' σr σw σ', rtc interfere σ σr → σr.1 !! (ns, key) = Some (v, val) →
     from_value val = Ok x → body x v = Write x' a → to_value x' = Ok val' →
     rtc interfere σr σw → σw.1 !! (ns, key) = Some (v + 1, val') →
     mkEvent i (ns, key) (Some (v, val)) val' ∈ σw.2 → rtc interfere σw σ' → Q a σ') →
  wp i (cas_loop n ns key absent body failed contended) Q σ.
Proof.
  intros Hns Hal Habs Hfail Hcont Hans Hwr.
  assert (∀ σ0, rtc interfere σ σ0 →
    wp i (cas_loop n ns key absent body failed contended) Q σ0) as Hloop; [|by apply Hloop].
  induction n as [|n IH]; intros σ0 Hr0; cbn [cas_loop].
  { apply wp_ret. intros σ' Hr. apply Hcont. by etrans. }
  apply wp_bind, wp_ns_get. intros σ1 Hr1. split_and!.
  - intros _ σ2 Hr2. apply wp_ret. intros σ3 Hr3. apply Habs. by repeat (etrans; [eassumption|]).
  - intros v val x Hl Hx σ2 Hr2.
    assert (knows (ns, key) v val σ2) as Hk.
    { eapply knows_rtc; [done| |done]. by apply knows_now. }
    destruct (body x v) as [x' a|a] eqn:Hb.
    + apply wp_bind, wp_ns_put.
      * intros val' σ3 Hv' Hr3 Hc. assert (σ3.1 !! (ns, key) = Some (v, val)) as Hl3.
        { eapply knows_cas; [|done]. by eapply knows_rtc. }
        assert (rtc interfere σ σ3) as Hr03 by (by repeat (etrans; [eassumption|])).
        rewrite Hl3. assert (allowed (ns, key) (Some (v, val)) val') as Ha by (by eapply Hal).
        split; [done|]. intros r σ4 Hr4. apply wp_ret. intros σ5 Hr5.
        eapply (Hwr v val x x' a val' σ3 (write i (ns, key) val' σ3)); try done.
        -- apply rtc_once, interfere_write. by rewrite Hl3.
        -- simpl. by rewrite lookup_insert_eq, Hl3.
        -- rewrite <-Hl3. apply logged_write.
        -- by etrans.
      * intros err σ3 Hr3. assert (rtc interfere σ σ3) as Hr03 by (by repeat (etrans; [eassumption|])).
        destruct err; try (apply wp_ret; intros σ4 Hr4; apply Hfail; by etrans). by apply IH.
    + apply wp_ret. intros σ3 Hr3. eapply (Hans v val x a σ1); [|done| |done|done].
      * by etrans; [exact Hr0|].
      * by etrans; [exact Hr2|].
  - intros e σ2 Hr2. apply wp_ret. intros σ3 Hr3. apply Hfail. by repeat (etrans; [eassumption|]).
Qed.
End RelyGuarantee.
Arguments event : clear implicits.
Arguments astate : clear implicits.
#[global] Arguments wp : simpl never.

(** Chains the interferences of the context. *)
Ltac chain :=
  solve [ repeat first [ eassumption | apply rtc_refl | etransitivity; [eassumption|] ] ].

(** ** Executing an interleaving *)

Section Execute.
Context {S Value : Type} {St : RecordStore S Value} {StOk : RecordStoreOk S Value} {R : Type}.

(** The next store operation of thread [j], at clock [now]. *)
Definition exec_one (now : Instant) (j : nat) (c : config R) : config R :=
  let s := cfg_store c in
  let ts := cfg_threads c in
  let h := cfg_log c in
  match ts !! j with
  | Some (Get ns key k) => mkConfig s (<[j := k (store_get s ns key)]> ts) h
  | Some (Put ns key x e k) =>
      let rs := store_put now s ns key x e in
      mkConfig rs.2 (<[j := k rs.1]> ts) (log_put j (ns, key) x s rs.1 h)
  | Some (ListNs ns n k) => mkConfig s (<[j := k (store_list s ns n)]> ts) h
  | Some (Delete ns key k) =>
      let rs := store_delete s ns key in mkConfig rs.2 (<[j := k rs.1]> ts) h
  | Some (Ret _) | None => c
  end.

(** A schedule: which thread moves next. *)
Definition exec (now : Instant) (schedule : list nat) (c : config R) : config R :=
  foldl (λ c j, exec_one now j c) c schedule.

Lemma exec_one_rtc owned now j c : rtc (step owned) c (exec_one now j c).
Proof.
  unfold exec_one. destruct c as [s ts h]. cbn. destruct (ts !! j) as [p|] eqn:E; [|apply rtc_refl].
  destruct p as [a|ns key k|ns key x e k|ns n k|ns key k]; [apply rtc_refl|..]; apply rtc_once.
  - by eapply step_get.
  - eapply step_put; [done|]. apply surjective_pairing.
  - by eapply step_list.
  - eapply step_delete; [done|]. apply surjective_pairing.
Qed.

Lemma exec_rtc owned now schedule c : rtc (step owned) c (exec now schedule c).
Proof.
  revert c. induction schedule as [|j js IH]; intros c; [apply rtc_refl|].
  etrans; [apply exec_one_rtc|apply IH].
Qed.
End Execute.
