(* ===== verification/Policy.v ===== *)
(** * Policy: principals, permissions, grants, tools and sandbox profiles

    [uc-types/src/governance/policy.rs].  The structural ceiling
    ([may_hold]), the evaluation of a permission against a snapshot of grants
    ([evaluate]), the tool table and the sandbox baseline. *)

From Stdlib Require Import String.
From S2P Require Import Prelude RustStr.

(** ** Principals and permissions *)

Inductive PrincipalKind : Type :=
| User | Service | Agent | Worker | ExternalTrigger | Anonymous.
#[export] Instance PrincipalKind_eq_dec : EqDecision PrincipalKind.
Proof. solve_decision. Defined.

Definition PrincipalKind_as_str (k : PrincipalKind) : string :=
  match k with
  | User => "user" | Service => "service" | Agent => "agent" | Worker => "worker"
  | ExternalTrigger => "external_trigger" | Anonymous => "anonymous"
  end.

Inductive Permission : Type :=
| TaskSubmit | TaskRead | TaskControl | CaseCreate | CaseRead | CaseControl
| MandateIssue | MandateRevoke | TriggerIngest | WorkerScale | MemoryWrite
| MergeGrant | AttentionResolve | ProactivePropose | ProactiveExecute.
#[export] Instance Permission_eq_dec : EqDecision Permission.
Proof. solve_decision. Defined.

Definition Permission_as_str (p : Permission) : string :=
  match p with
  | TaskSubmit => "task_submit"
  | TaskRead => "task_read"
  | TaskControl => "task_control"
  | CaseCreate => "case_create"
  | CaseRead => "case_read"
  | CaseControl => "case_control"
  | MandateIssue => "mandate_issue"
  | MandateRevoke => "mandate_revoke"
  | TriggerIngest => "trigger_ingest"
  | WorkerScale => "worker_scale"
  | MemoryWrite => "memory_write"
  | MergeGrant => "merge_grant"
  | AttentionResolve => "attention_resolve"
  | ProactivePropose => "proactive_propose"
  | ProactiveExecute => "proactive_execute"
  end.

Definition is_authority_granting (p : Permission) : bool :=
  match p with
  | MandateIssue | MandateRevoke | WorkerScale | MergeGrant | ProactiveExecute => true
  | _ => false
  end.

Definition Permission_from_str_lossy (value : string) : option Permission :=
  let v := to_ascii_lowercase (trim value) in
  if v ==? "task_submit" then Some TaskSubmit
  else if v ==? "task_read" then Some TaskRead
  else if v ==? "task_control" then Some TaskControl
  else if v ==? "case_create" then Some CaseCreate
  else if v ==? "case_read" then Some CaseRead
  else if v ==? "case_control" then Some CaseControl
  else if v ==? "mandate_issue" then Some MandateIssue
  else if v ==? "mandate_revoke" then Some MandateRevoke
  else if v ==? "trigger_ingest" then Some TriggerIngest
  else if v ==? "worker_scale" then Some WorkerScale
  else if v ==? "memory_write" then Some MemoryWrite
  else if v ==? "merge_grant" then Some MergeGrant
  else if v ==? "attention_resolve" then Some AttentionResolve
  else if v ==? "proactive_propose" then Some ProactivePropose
  else if v ==? "proactive_execute" then Some ProactiveExecute
  else None.

(** The structural ceiling of a kind of principal. *)
Definition may_hold (k : PrincipalKind) (permission : Permission) : bool :=
  match k with
  | ExternalTrigger | Anonymous => negb (is_authority_granting permission)
  | Agent | Worker =>
      match permission with
      | MandateIssue | MandateRevoke | WorkerScale | ProactiveExecute => false
      | _ => true
      end
  | User | Service => true
  end.

Record Principal : Type := mkPrincipal {
  principal_kind : PrincipalKind;
  principal_id : string
}.
#[export] Instance Principal_eq_dec : EqDecision Principal.
Proof. solve_decision. Defined.

Definition Principal_anonymous : Principal := mkPrincipal Anonymous "anonymous".
Definition Principal_user (i : string) : Principal := mkPrincipal User i.
Definition Principal_service (i : string) : Principal := mkPrincipal Service i.
Definition Principal_agent (i : string) : Principal := mkPrincipal Agent i.
Definition Principal_worker (i : string) : Principal := mkPrincipal Worker i.
Definition Principal_external_trigger (i : string) : Principal := mkPrincipal ExternalTrigger i.

Definition is_authenticated (p : Principal) : bool := principal_kind p !=? Anonymous.

Definition Principal_display (p : Principal) : string :=
  PrincipalKind_as_str (principal_kind p) +:+ ":" +:+ principal_id p.

(** ** Action classes *)

Inductive ActionClass : Type :=
| Read | ActWrite | Execute | Dispatch | Push | Merge | ExternalNotify | Scale | Admin.
#[export] Instance ActionClass_eq_dec : EqDecision ActionClass.
Proof. solve_decision. Defined.

Definition ActionClass_as_str (a : ActionClass) : string :=
  match a with
  | Read => "read" | ActWrite => "write" | Execute => "execute" | Dispatch => "dispatch"
  | Push => "push" | Merge => "merge" | ExternalNotify => "external_notify"
  | Scale => "scale" | Admin => "admin"
  end.

Definition required_permission (a : ActionClass) : Permission :=
  match a with
  | Read => TaskRead
  | ActWrite => TaskSubmit
  | Execute => TaskSubmit
  | Dispatch => TaskControl
  | Push => MergeGrant
  | Merge => MergeGrant
  | ExternalNotify => MemoryWrite
  | Scale => WorkerScale
  | Admin => WorkerScale
  end.

(** ** Policy versions and grants *)

(** [PolicyVersion(u64)]. *)
Definition PolicyVersion_initial : Z := 1.
Definition PolicyVersion_next (v : Z) : Z := u64_saturating_add v 1.

Record Grant : Type := mkGrant {
  grant_principal : Principal;
  grant_permissions : list Permission;
  grant_project_id : option string;
  grant_expires_at : option Instant;
  grant_revoked : bool;
  grant_source : string
}.

Definition Grant_new (principal : Principal) (permissions : list Permission) : Grant :=
  mkGrant principal permissions None None false "".

Definition Grant_with_project (g : Grant) (project_id : string) : Grant :=
  mkGrant (grant_principal g) (grant_permissions g) (Some project_id) (grant_expires_at g)
          (grant_revoked g) (grant_source g).

Definition Grant_with_expiry (g : Grant) (expires_at : Instant) : Grant :=
  mkGrant (grant_principal g) (grant_permissions g) (grant_project_id g) (Some expires_at)
          (grant_revoked g) (grant_source g).

Definition contains_permission (l : list Permission) (p : Permission) : bool :=
  existsb (λ q, q ==? p) l.

Definition Grant_permits (g : Grant) (permission : Permission) (project_id : option string)
    : bool :=
  if grant_revoked g || negb (contains_permission (grant_permissions g) permission)
  then false
  else match grant_project_id g, project_id with
       | None, _ => true
       | Some scope, Some requested => scope ==? requested
       | Some _, None => false
       end.

(** ** Decisions *)

Inductive DenyReason : Type :=
| Unauthenticated
| MissingPermission (required : Permission)
| GrantRevoked (permission : Permission)
| GrantExpired (permission : Permission)
| ForbiddenPrincipalKind (k : PrincipalKind) (permission : Permission)
| StalePolicyVersion (provided minimum : Z)
| MandateMissing
| MandateRevoked (mandate_id : string)
| MandateExpired (mandate_id : string) (expired_at : Instant)
| MandateOutOfScope (scope value : string)
| MandateWideningDenied (detail : string)
| ToolNotPermitted (tool : string)
| ToolRequiresMandateScope (tool scope : string)
| ToolRequiresHumanApproval (tool : string)
| SandboxViolated (violation : string)
| BudgetExhausted (detail : string)
| ProactiveModeDisallows (mode action : string).
#[export] Instance DenyReason_eq_dec : EqDecision DenyReason.
Proof. solve_decision. Defined.

Definition DenyReason_code (r : DenyReason) : string :=
  match r with
  | Unauthenticated => "unauthenticated"
  | MissingPermission _ => "missing_permission"
  | GrantRevoked _ => "grant_revoked"
  | GrantExpired _ => "grant_expired"
  | ForbiddenPrincipalKind _ _ => "forbidden_principal_kind"
  | StalePolicyVersion _ _ => "stale_policy_version"
  | MandateMissing => "mandate_missing"
  | MandateRevoked _ => "mandate_revoked"
  | MandateExpired _ _ => "mandate_expired"
  | MandateOutOfScope _ _ => "mandate_out_of_scope"
  | MandateWideningDenied _ => "mandate_widening_denied"
  | ToolNotPermitted _ => "tool_not_permitted"
  | ToolRequiresMandateScope _ _ => "tool_requires_mandate_scope"
  | ToolRequiresHumanApproval _ => "tool_requires_human_approval"
  | SandboxViolated _ => "sandbox_violation"
  | BudgetExhausted _ => "budget_exhausted"
  | ProactiveModeDisallows _ _ => "proactive_mode_disallows"
  end.

Inductive PolicyDecision : Type :=
| Allow
| Deny (reason : DenyReason).
#[export] Instance PolicyDecision_eq_dec : EqDecision PolicyDecision.
Proof. solve_decision. Defined.

Definition is_allowed (d : PolicyDecision) : bool :=
  match d with Allow => true | Deny _ => false end.
Definition is_denied (d : PolicyDecision) : bool := negb (is_allowed d).
Definition deny_reason (d : PolicyDecision) : option DenyReason :=
  match d with Deny r => Some r | Allow => None end.
Definition deny_code (d : PolicyDecision) : option string := DenyReason_code <$> deny_reason d.

(** ** Snapshots *)

Inductive GrantError : Type :=
| GrantForbiddenPrincipalKind (k : PrincipalKind) (permission : Permission).

Record PolicySnapshot : Type := mkSnapshot {
  snapshot_version : Z;
  snapshot_grants : list Grant;
  revoked_mandates : gmap string string;
  minimum_accepted_version : option Z
}.

Definition PolicySnapshot_empty (v : Z) : PolicySnapshot := mkSnapshot v [] ∅ None.

(** The permissions of a grant are checked in order; the first one above the
    ceiling is the error. *)
Definition with_grant (s : PolicySnapshot) (g : Grant) : result PolicySnapshot GrantError :=
  match find (λ p, negb (may_hold (principal_kind (grant_principal g)) p)) (grant_permissions g) with
  | Some p => Err (GrantForbiddenPrincipalKind (principal_kind (grant_principal g)) p)
  | None => Ok (mkSnapshot (snapshot_version s) (snapshot_grants s ++ [g]) (revoked_mandates s)
                           (minimum_accepted_version s))
  end.

Definition snapshot_revoke_mandate (s : PolicySnapshot) (mandate_id reason : string)
    : PolicySnapshot :=
  mkSnapshot (snapshot_version s) (snapshot_grants s) (<[mandate_id := reason]> (revoked_mandates s))
             (minimum_accepted_version s).

Definition is_mandate_revoked (s : PolicySnapshot) (mandate_id : string) : option string :=
  revoked_mandates s !! mandate_id.

Definition grant_expired (g : Grant) (now : Instant) : bool :=
  match grant_expires_at g with Some at_ => at_ <=? now | None => false end.

(** The loop of [evaluate] over the grants, with its two flags. *)
Fixpoint evaluate_grants (gs : list Grant) (principal : Principal) (permission : Permission)
    (project_id : option string) (now : Instant) (saw_revoked saw_expired : bool)
    : PolicyDecision :=
  match gs with
  | [] =>
      if saw_revoked then Deny (GrantRevoked permission)
      else if saw_expired then Deny (GrantExpired permission)
      else Deny (MissingPermission permission)
  | g :: gs' =>
      if (grant_principal g ==? principal) &&
         contains_permission (grant_permissions g) permission then
        if grant_revoked g then
          evaluate_grants gs' principal permission project_id now true saw_expired
        else if grant_expired g now then
          evaluate_grants gs' principal permission project_id now saw_revoked true
        else if Grant_permits g permission project_id then Allow
        else evaluate_grants gs' principal permission project_id now saw_revoked saw_expired
      else evaluate_grants gs' principal permission project_id now saw_revoked saw_expired
  end.

Definition evaluate (s : PolicySnapshot) (principal : Principal) (permission : Permission)
    (project_id : option string) (now : Instant) : PolicyDecision :=
  if negb (is_authenticated principal) then Deny Unauthenticated
  else if negb (may_hold (principal_kind principal) permission) then
    Deny (ForbiddenPrincipalKind (principal_kind principal) permission)
  else evaluate_grants (snapshot_grants s) principal permission project_id now false false.

Definition check_version (s : PolicySnapshot) (provided : option Z) : PolicyDecision :=
  match provided, minimum_accepted_version s with
  | Some provided, Some minimum =>
      if provided <? minimum then Deny (StalePolicyVersion provided minimum) else Allow
  | _, _ => Allow
  end.

(** ** The tool table *)

Record ToolPolicy : Type := mkToolPolicy {
  policy_tool : string;
  policy_action : ActionClass;
  known : bool;
  requires_mandate_scope : bool;
  human_approval : bool
}.

Definition ToolPolicy_allow (t : string) (a : ActionClass) : ToolPolicy :=
  mkToolPolicy t a true true false.
Definition ToolPolicy_read_only (t : string) : ToolPolicy := mkToolPolicy t Read true false false.
Definition with_human_approval (p : ToolPolicy) : ToolPolicy :=
  mkToolPolicy (policy_tool p) (policy_action p) (known p) (requires_mandate_scope p) true.
Definition without_mandate_scope (p : ToolPolicy) : ToolPolicy :=
  mkToolPolicy (policy_tool p) (policy_action p) (known p) false (human_approval p).

Notation ToolPolicyTable := (gmap string ToolPolicy) (only parsing).

Definition table_insert (rules : gmap string ToolPolicy) (p : ToolPolicy)
    : gmap string ToolPolicy := <[policy_tool p := p]> rules.

Definition builtin_policies : list ToolPolicy :=
  (ToolPolicy_read_only <$> ["Read"; "Glob"; "Grep"; "LS"; "NotebookRead"; "TodoRead"]) ++
  ((λ t, ToolPolicy_allow t ActWrite) <$> ["Edit"; "Write"; "NotebookEdit"; "MultiEdit"]) ++
  ((λ t, ToolPolicy_allow t Execute) <$> ["Bash"; "BashOutput"; "KillBash"]) ++
  ((λ t, ToolPolicy_allow t Dispatch) <$> ["Task"; "Agent"]) ++
  [ToolPolicy_allow "git_push" Push;
   ToolPolicy_allow "merge" Merge;
   ToolPolicy_allow "github_comment" ExternalNotify;
   ToolPolicy_allow "github_issue_update" ExternalNotify;
   ToolPolicy_allow "memory_write" ActWrite;
   with_human_approval (ToolPolicy_allow "scale_workers" Scale);
   with_human_approval (ToolPolicy_allow "docker_run" Execute)].

Definition ToolPolicyTable_builtin : gmap string ToolPolicy :=
  foldl table_insert ∅ builtin_policies.

Definition requirement (rules : gmap string ToolPolicy) (t : string) : ToolPolicy :=
  default (mkToolPolicy t Admin false true true) (rules !! t).

Definition evaluate_permission (rules : gmap string ToolPolicy) (t : string)
    (principal : Principal) (snapshot : PolicySnapshot) (project_id : option string)
    (now : Instant) : PolicyDecision :=
  let req := requirement rules t in
  if negb (known req) then Deny (ToolNotPermitted t)
  else evaluate snapshot principal (required_permission (policy_action req)) project_id now.

(** ** The sandbox baseline *)

Record SandboxSecurityProfile : Type := mkProfile {
  image : string;
  privileged : bool;
  network_mode : string;
  docker_socket_mounted : bool;
  host_pid : bool;
  read_only_rootfs : bool;
  run_as_root : bool;
  seccomp_profile : string;
  writable_host_mounts : list string;
  memory_limit_bytes : Z;
  cpu_limit_millis : Z
}.

Inductive SandboxViolation : Type :=
| PrivilegedContainer | DockerSocketMounted | HostNetwork | HostPid
| WritableHostMount (path : string) | RunsAsRoot | SeccompUnconfined | NoResourceLimits.

Definition SandboxViolation_as_str (v : SandboxViolation) : string :=
  match v with
  | PrivilegedContainer => "privileged_container"
  | DockerSocketMounted => "docker_socket_mounted"
  | HostNetwork => "host_network"
  | HostPid => "host_pid"
  | WritableHostMount _ => "writable_host_mount"
  | RunsAsRoot => "runs_as_root"
  | SeccompUnconfined => "seccomp_unconfined"
  | NoResourceLimits => "no_resource_limits"
  end.

Definition SandboxViolation_display (v : SandboxViolation) : string :=
  match v with
  | WritableHostMount path => "writable_host_mount(" +:+ path +:+ ")"
  | other => SandboxViolation_as_str other
  end.

Definition when {A} (b : bool) (x : A) : list A := if b then [x] else [].

Definition sandbox_violations (p : SandboxSecurityProfile) : list SandboxViolation :=
  let seccomp := to_ascii_lowercase (seccomp_profile p) in
  when (privileged p) PrivilegedContainer ++
  when (docker_socket_mounted p) DockerSocketMounted ++
  when (eq_ignore_ascii_case (network_mode p) "host") HostNetwork ++
  when (host_pid p) HostPid ++
  (WritableHostMount <$> writable_host_mounts p) ++
  when (run_as_root p) RunsAsRoot ++
  when ((seccomp ==? "") || (seccomp ==? "unconfined")) SeccompUnconfined ++
  when ((memory_limit_bytes p =? 0) && (cpu_limit_millis p =? 0)) NoResourceLimits.

Definition sandbox_validate (p : SandboxSecurityProfile)
    : result unit (list SandboxViolation) :=
  match sandbox_violations p with [] => Ok tt | vs => Err vs end.

Definition sandbox_decision (p : SandboxSecurityProfile) : PolicyDecision :=
  match sandbox_validate p with
  | Ok _ => Allow
  | Err vs => Deny (SandboxViolated
      (join "," (sort_by String.leb (SandboxViolation_display <$> vs))))
  end.

Definition hardened_worker : SandboxSecurityProfile :=
  mkProfile "ultimatecoders-worker:local" false "bridge" false false false false
    "runtime/default" [] (2 * 1024 * 1024 * 1024) 2000.

(** ** Names *)

Lemma Permission_roundtrip p : Permission_from_str_lossy (Permission_as_str p) = Some p.
Proof. destruct p; vm_compute; reflexivity. Qed.

(** ** Evaluation *)

(** The grants that speak about a request. *)
Definition relevant (principal : Principal) (permission : Permission) (g : Grant) : bool :=
  (grant_principal g ==? principal) && contains_permission (grant_permissions g) permission.

(** A live grant that covers the request. *)
Definition covering (principal : Principal) (permission : Permission)
    (project_id : option string) (now : Instant) (g : Grant) : bool :=
  relevant principal permission g && negb (grant_expired g now) &&
  Grant_permits g permission project_id.

Definition revoked_match (principal : Principal) (permission : Permission) (g : Grant) : bool :=
  relevant principal permission g && grant_revoked g.

Definition expired_match (principal : Principal) (permission : Permission) (now : Instant)
    (g : Grant) : bool :=
  relevant principal permission g && negb (grant_revoked g) && grant_expired g now.

Lemma evaluate_grants_table gs principal permission project_id now sr se :
  evaluate_grants gs principal permission project_id now sr se =
  if existsb (covering principal permission project_id now) gs then Allow
  else if sr || existsb (revoked_match principal permission) gs then Deny (GrantRevoked permission)
  else if se || existsb (expired_match principal permission now) gs
       then Deny (GrantExpired permission)
  else Deny (MissingPermission permission).
Proof.
  revert sr se. induction gs as [|g gs IH]; intros sr se; [by destruct sr, se|]. simpl.
  unfold covering at 1, revoked_match at 1, expired_match at 1, Grant_permits at 2, relevant.
  destruct (_ && _) eqn:Hrel; simpl; [|apply IH].
  apply andb_true_iff in Hrel as [_ Hc].
  destruct (grant_revoked g) eqn:Hr; simpl.
  - rewrite IH, andb_false_r, orb_true_r. by simpl.
  - destruct (grant_expired g now) eqn:He; simpl.
    + rewrite IH. by rewrite !orb_true_r.
    + unfold Grant_permits. rewrite Hr, Hc. simpl.
      destruct (match grant_project_id g with Some _ => _ | None => _ end); [done|]. apply IH.
Qed.

Lemma evaluate_table s principal permission project_id now :
  evaluate s principal permission project_id now =
  if negb (is_authenticated principal) then Deny Unauthenticated
  else if negb (may_hold (principal_kind principal) permission)
       then Deny (ForbiddenPrincipalKind (principal_kind principal) permission)
  else if existsb (covering principal permission project_id now) (snapshot_grants s) then Allow
  else if existsb (revoked_match principal permission) (snapshot_grants s)
       then Deny (GrantRevoked permission)
  else if existsb (expired_match principal permission now) (snapshot_grants s)
       then Deny (GrantExpired permission)
  else Deny (MissingPermission permission).
Proof. unfold evaluate. by rewrite evaluate_grants_table. Qed.

Lemma evaluate_allow s principal permission project_id now :
  evaluate s principal permission project_id now = Allow ↔
  principal_kind principal ≠ Anonymous ∧
  may_hold (principal_kind principal) permission = true ∧
  ∃ g, g ∈ snapshot_grants s ∧ covering principal permission project_id now g = true.
Proof.
  rewrite evaluate_table, <-existsb_true. unfold is_authenticated. split.
  - intros Hev. repeat case_match; simplify_eq; bool_hyps; done.
  - intros (Ha & -> & ->). by rewrite bool_decide_eq_false_2.
Qed.

Lemma covering_spec principal permission project_id now g :
  covering principal permission project_id now g = true ↔
  grant_principal g = principal ∧ permission ∈ grant_permissions g ∧ grant_revoked g = false ∧
  (∀ at_, grant_expires_at g = Some at_ → now < at_) ∧
  (∀ scope, grant_project_id g = Some scope → project_id = Some scope).
Proof.
  unfold covering, relevant, Grant_permits, grant_expired, contains_permission. split.
  - intros Hc. bool_hyps. destruct (grant_revoked g || _) eqn:E; [done|]. bool_hyps.
    match goal with H : existsb _ _ = true |- _ => apply existsb_true in H as (q & Hq & Hqp) end.
    bool_hyps. subst. split_and!; [done|done|done| |].
    + intros at_ Hat. rewrite Hat in *. bool_hyps. lia.
    + intros scope Hs. rewrite Hs in *. destruct project_id; [|done]. by bool_hyps; subst.
  - intros (-> & Hp & -> & Hexp & Hproj).
    assert (existsb (λ q, q ==? permission) (grant_permissions g) = true) as ->.
    { apply existsb_true. exists permission. by rewrite bool_decide_eq_true_2. }
    rewrite bool_decide_eq_true_2 by done. simpl. apply andb_true_iff. split.
    + destruct (grant_expires_at g) as [at_|]; [|done]. specialize (Hexp at_ eq_refl).
      apply negb_true_iff, Z.leb_gt. lia.
    + destruct (grant_project_id g) as [scope|]; [|done]. rewrite (Hproj scope eq_refl).
      by rewrite bool_decide_eq_true_2.
Qed.

(** The decision does not depend on the order of the grants. *)
Lemma existsb_perm {A} (p : A → bool) l l' : l ≡ₚ l' → existsb p l = existsb p l'.
Proof.
  intros Hl. apply eq_true_iff_eq. rewrite !existsb_true. by setoid_rewrite Hl.
Qed.

(** Expiry is monotone: what is expired stays expired. *)
Lemma covering_earlier principal permission project_id t1 t2 g :
  t1 <= t2 → covering principal permission project_id t2 g = true →
  covering principal permission project_id t1 g = true.
Proof.
  rewrite !covering_spec. intros Ht (? & ? & ? & Hexp & ?). split_and!; try done.
  intros at_ Hat. specialize (Hexp at_ Hat). lia.
Qed.

(** ** Building a snapshot *)

(** Snapshots the builder can produce. *)
Inductive built : PolicySnapshot → Prop :=
| built_empty v : built (PolicySnapshot_empty v)
| built_grant s g s' : built s → with_grant s g = Ok s' → built s'
| built_revoke s m r : built s → built (snapshot_revoke_mandate s m r).

Lemma with_grant_Ok s g s' :
  with_grant s g = Ok s' →
  Forall (λ p, may_hold (principal_kind (grant_principal g)) p = true) (grant_permissions g) ∧
  snapshot_grants s' = snapshot_grants s ++ [g].
Proof.
  unfold with_grant. destruct (find _ _) eqn:Hf; [done|]. intros [= <-]. split; [|done].
  apply Forall_forall. intros p Hp. apply (proj1 (find_None _ _) Hf) in Hp.
  by apply negb_false_iff in Hp.
Qed.

Lemma built_ceiling s :
  built s → ∀ g p, g ∈ snapshot_grants s → p ∈ grant_permissions g →
  may_hold (principal_kind (grant_principal g)) p = true.
Proof.
  induction 1 as [v|s g s' _ IH Hw|s m r _ IH]; intros g' p Hg Hp.
  - by apply elem_of_nil in Hg.
  - apply with_grant_Ok in Hw as [Hall Hgs]. rewrite Hgs in Hg.
    apply elem_of_app in Hg as [Hg| ->%list_elem_of_singleton]; [by eapply IH|].
    by apply (proj1 (Forall_forall _ _) Hall).
  - by eapply IH.
Qed.

(** ** The sandbox baseline *)

Lemma when_nil {A} b (x : A) : when b x = [] ↔ b = false.
Proof. by destruct b. Qed.

Lemma mounts_nil l : WritableHostMount <$> l = [] ↔ l = [].
Proof. by destruct l. Qed.

Lemma sandbox_violations_nil p :
  sandbox_violations p = [] ↔
  privileged p = false ∧ docker_socket_mounted p = false ∧
  eq_ignore_ascii_case (network_mode p) "host" = false ∧ host_pid p = false ∧
  writable_host_mounts p = [] ∧ run_as_root p = false ∧
  to_ascii_lowercase (seccomp_profile p) ≠ "" ∧
  to_ascii_lowercase (seccomp_profile p) ≠ "unconfined" ∧
  ¬ (memory_limit_bytes p = 0 ∧ cpu_limit_millis p = 0).
Proof.
  unfold sandbox_violations. cbv zeta.
  rewrite !app_nil, !when_nil, mounts_nil, orb_false_iff, !bool_decide_eq_false,
    andb_false_iff, !Z.eqb_neq. split.
  - intros (? & ? & ? & ? & ? & ? & [? ?] & Hlim). split_and!; try done.
    intros [??]. destruct Hlim; done.
  - intros (? & ? & ? & ? & ? & ? & ? & ? & Hlim). split_and!; try done.
    destruct (decide (memory_limit_bytes p = 0)); [right|left]; naive_solver.
Qed.

(** ** Properties *)

(** The loop of [evaluate], with its early return and its two flags, computes
    the documented decision table: unauthenticated, then the structural ceiling,
    then allow when some live grant of that very principal covers the permission
    and the project, then revoked before expired before missing; and the order
    of the grants does not matter. *)
Theorem evaluate_decision_table s principal permission project_id now :
  (evaluate s principal permission project_id now = Allow ↔
     principal_kind principal ≠ Anonymous ∧
     may_hold (principal_kind principal) permission = true ∧
     ∃ g, g ∈ snapshot_grants s ∧ grant_principal g = principal ∧
          permission ∈ grant_permissions g ∧ grant_revoked g = false ∧
          (∀ at_, grant_expires_at g = Some at_ → now < at_) ∧
          (∀ scope, grant_project_id g = Some scope → project_id = Some scope)) ∧
  evaluate s principal permission project_id now =
    (if negb (is_authenticated principal) then Deny Unauthenticated
     else if negb (may_hold (principal_kind principal) permission)
          then Deny (ForbiddenPrincipalKind (principal_kind principal) permission)
     else if existsb (covering principal permission project_id now) (snapshot_grants s) then Allow
     else if existsb (revoked_match principal permission) (snapshot_grants s)
          then Deny (GrantRevoked permission)
     else if existsb (expired_match principal permission now) (snapshot_grants s)
          then Deny (GrantExpired permission)
     else Deny (MissingPermission permission)) ∧
  ∀ s', snapshot_grants s' ≡ₚ snapshot_grants s →
    evaluate s' principal permission project_id now =
    evaluate s principal permission project_id now.
Proof.
  split_and!.
  - rewrite evaluate_allow. setoid_rewrite covering_spec. done.
  - apply evaluate_table.
  - intros s' Hp. rewrite !evaluate_table. by rewrite !(existsb_perm _ _ _ Hp).
Qed.

(** No configuration can lift a principal above its structural ceiling: with
    any snapshot at all, an agent or a worker is never allowed to issue or
    revoke a mandate, to resize the cluster or to execute proactively, an
    external trigger or an anonymous caller is never allowed an
    authority-granting permission, and a snapshot made by the builder holds no
    grant above the ceiling in the first place. *)
Theorem ceiling_never_exceeded s principal permission project_id now :
  (match principal_kind principal with
   | Agent | Worker =>
       permission ∈ [MandateIssue; MandateRevoke; WorkerScale; ProactiveExecute] →
       is_denied (evaluate s principal permission project_id now) = true
   | ExternalTrigger | Anonymous =>
       is_authority_granting permission = true →
       is_denied (evaluate s principal permission project_id now) = true
   | User | Service => True
   end) ∧
  (built s → ∀ g p, g ∈ snapshot_grants s → p ∈ grant_permissions g →
     may_hold (principal_kind (grant_principal g)) p = true).
Proof.
  split; [|by apply built_ceiling].
  assert (may_hold (principal_kind principal) permission = false →
          is_denied (evaluate s principal permission project_id now) = true) as Hd.
  { intros Hm. rewrite evaluate_table, Hm. by destruct (is_authenticated principal). }
  destruct (principal_kind principal); simpl in *; try done.
  - intros Hp. apply Hd. set_unfold. naive_solver.
  - intros Hp. apply Hd. set_unfold. naive_solver.
  - intros Hp. apply Hd. by rewrite Hp.
  - intros Hp. apply Hd. by rewrite Hp.
Qed.

(** Under an unchanged snapshot authority only lapses: a request allowed at
    some instant was allowed at every earlier instant, so waiting never gains a
    permission. *)
Theorem authority_only_lapses s principal permission project_id t1 t2 :
  t1 <= t2 → evaluate s principal permission project_id t2 = Allow →
  evaluate s principal permission project_id t1 = Allow.
Proof.
  rewrite !evaluate_allow. intros Ht (Ha & Hm & g & Hg & Hc). split_and!; [done|done|].
  exists g. split; [done|]. by eapply covering_earlier.
Qed.

Lemma authority_only_lapses_witness :
  let s := mkSnapshot 1 [Grant_with_expiry (Grant_new (Principal_user "ops") [MandateIssue]) 100]
             ∅ None in
  evaluate s (Principal_user "ops") MandateIssue None 50 = Allow.
Proof.
  intros s. apply (authority_only_lapses s (Principal_user "ops") MandateIssue None 50 99).
  - lia.
  - vm_compute. reflexivity.
Defined.

(** The sandbox gate accepts exactly the hardened profiles: no privileged
    container, no docker socket, no host network (in any letter case), no host
    pid namespace, no writable host mount, not root, a seccomp profile that is
    neither empty nor unconfined, and some resource limit; every other profile
    is denied, and the shipped worker profile passes. *)
Theorem sandbox_gate_exact p :
  (sandbox_decision p = Allow ↔
     privileged p = false ∧ docker_socket_mounted p = false ∧
     eq_ignore_ascii_case (network_mode p) "host" = false ∧ host_pid p = false ∧
     writable_host_mounts p = [] ∧ run_as_root p = false ∧
     to_ascii_lowercase (seccomp_profile p) ≠ "" ∧
     to_ascii_lowercase (seccomp_profile p) ≠ "unconfined" ∧
     ¬ (memory_limit_bytes p = 0 ∧ cpu_limit_millis p = 0)) ∧
  (sandbox_decision p ≠ Allow → ∃ v, sandbox_decision p = Deny (SandboxViolated v)) ∧
  sandbox_decision hardened_worker = Allow.
Proof.
  rewrite <-sandbox_violations_nil. unfold sandbox_decision at 1 2 3, sandbox_validate.
  split_and!.
  - by destruct (sandbox_violations p).
  - destruct (sandbox_violations p); [done|]. eauto.
  - vm_compute. reflexivity.
Qed.
