(* ===== verification/Glob.v ===== *)
(** * Glob patterns

    [pattern_covers] and [pattern_subsumes] of
    [uc-types/src/governance/mandate.rs]: the matcher of mandate scopes and the
    containment test of delegation.  [pattern_covers] is the depth-first search
    of the code, with its stack and its matrix of visited positions; [matches]
    is the meaning of a pattern. *)

From Stdlib Require Import String Ascii.
From S2P Require Import Prelude RustStr.

Definition star : ascii := "*".
Definition slash : ascii := "/".

(** ** The matcher *)

(** [seen[i][j]] and [seen[i][j] = true]; [None] is an index out of bounds. *)
Definition matrix_get (m : list (list bool)) (i j : nat) : option bool :=
  row ← m !! i; row !! j.

Definition matrix_set (m : list (list bool)) (i j : nat) : option (list (list bool)) :=
  row ← m !! i;
  if decide (j < length row)%nat then Some (<[i := <[j := true]> row]> m) else None.

(** [if !seen[i][j] { stack.push((i, j)) }]. *)
Definition push_unseen (seen : list (list bool)) (i j : nat) (stack : list (nat * nat))
    : option (list (nat * nat)) :=
  b ← matrix_get seen i j;
  Some (if b : bool then stack else (i, j) :: stack).

(** The [while let Some((pi, vi)) = stack.pop()] loop.  The top of the stack is the
    head of the list; [None] is a panic or the end of the fuel. *)
Fixpoint covers_loop (fuel : nat) (pattern value : list ascii) (seen : list (list bool))
    (stack : list (nat * nat)) : option bool :=
  match fuel, stack with
  | _, [] => Some false
  | O, _ => None
  | S fuel', (pi, vi) :: stack' =>
      visited ← matrix_get seen pi vi;
      if visited : bool then covers_loop fuel' pattern value seen stack' else
      seen' ← matrix_set seen pi vi;
      if decide (pi = length pattern) then
        if decide (vi = length value) then Some true
        else covers_loop fuel' pattern value seen' stack'
      else
        c ← pattern !! pi;
        if decide (c = star) then
          if decide (pattern !! S pi = Some star) then
            stack1 ← push_unseen seen' (pi + 2) vi stack';
            stack2 ← (if decide (vi < length value)%nat
                      then push_unseen seen' pi (vi + 1) stack1 else Some stack1);
            covers_loop fuel' pattern value seen' stack2
          else
            stack1 ← push_unseen seen' (pi + 1) vi stack';
            stack2 ← (if match value !! vi with Some d => d !=? slash | None => false end
                      then push_unseen seen' pi (vi + 1) stack1 else Some stack1);
            covers_loop fuel' pattern value seen' stack2
        else
          stack1 ← (if decide (value !! vi = Some c)
                    then push_unseen seen' (pi + 1) (vi + 1) stack' else Some stack');
          covers_loop fuel' pattern value seen' stack1
  end.

Definition new_matrix (n m : nat) : list (list bool) :=
  replicate (n + 1) (replicate (m + 1) false).

(** Every position is expanded at most once and pushes at most two others. *)
Definition covers_fuel (n m : nat) : nat := 2 * ((n + 1) * (m + 1)) + 1.

Definition pattern_covers_opt (pattern value : string) : option bool :=
  let p := chars pattern in
  let v := chars value in
  covers_loop (covers_fuel (length p) (length v)) p v
    (new_matrix (length p) (length v)) [(0%nat, 0%nat)].

(** The answer of the search; [pattern_covers_total] shows that the default is
    never used. *)
Definition pattern_covers (pattern value : string) : bool :=
  default false (pattern_covers_opt pattern value).

(** ** Containment of patterns *)

Definition pattern_subsumes (parent child : string) : bool :=
  if parent ==? child then true
  else if parent ==? "**" then true
  else if parent ==? "*" then negb (contains_char child slash)
  else match strip_suffix parent "/**" with
       | Some prefix =>
           (child ==? prefix) ||
           match strip_prefix child prefix with
           | Some rest => starts_with rest "/"
           | None => false
           end
       | None =>
           match strip_suffix parent "/*" with
           | Some prefix =>
               match strip_prefix child prefix with
               | Some rest =>
                   let rest := default rest (strip_prefix rest "/") in
                   negb (rest ==? "") && negb (contains_char rest slash)
               | None => false
               end
           | None => false
           end
       end.

(** ** The meaning of a pattern *)

(** [**] matches any run of characters, [*] any run without a slash, any other
    character itself; a pair of stars is read as [**]. *)
Inductive matches : list ascii → list ascii → Prop :=
| m_end : matches [] []
| m_star2_skip p v : matches p v → matches (star :: star :: p) v
| m_star2_eat p c v : matches (star :: star :: p) v → matches (star :: star :: p) (c :: v)
| m_star_skip p v : head p ≠ Some star → matches p v → matches (star :: p) v
| m_star_eat p c v : head p ≠ Some star → c ≠ slash →
    matches (star :: p) v → matches (star :: p) (c :: v)
| m_char p c v : c ≠ star → matches p v → matches (c :: p) (c :: v).
Create HintDb glob.
#[export] Hint Constructors matches : glob.

Example covers_one_segment : pattern_covers "release/*" "release/1.2" = true.
Proof. vm_compute. reflexivity. Qed.
Example covers_not_nested : pattern_covers "release/*" "release/1/2" = false.
Proof. vm_compute. reflexivity. Qed.
Example covers_nested : pattern_covers "crates/**/mod.rs" "crates/a/b/mod.rs" = true.
Proof. vm_compute. reflexivity. Qed.

(** ** The search is correct *)

Section Search.
Context (p v : list ascii).
Notation n := (length p).
Notation m := (length v).
Implicit Types (seen : list (list bool)) (x y : nat * nat).

(** The positions the loop pushes from [(pi, vi)], last pushed last. *)
Definition succs (x : nat * nat) : list (nat * nat) :=
  let '(pi, vi) := x in
  if decide (pi = n) then [] else
  match p !! pi with
  | None => []
  | Some c =>
      if decide (c = star) then
        if decide (p !! S pi = Some star) then
          (pi + 2, vi)%nat :: (if decide (vi < m)%nat then [(pi, vi + 1)%nat] else [])
        else
          (pi + 1, vi)%nat ::
          (if match v !! vi with Some d => d !=? slash | None => false end
           then [(pi, vi + 1)%nat] else [])
      else if decide (v !! vi = Some c) then [(pi + 1, vi + 1)%nat] else []
  end.

Definition edge (x y : nat * nat) : Prop := y ∈ succs x.
Definition in_range (x : nat * nat) : Prop := (x.1 <= n)%nat ∧ (x.2 <= m)%nat.
Definition goal : nat * nat := (n, m).

Lemma succs_in_range x y : in_range x → edge x y → in_range y.
Proof.
  destruct x as [pi vi]. unfold in_range, edge, succs. simpl. intros [Hp Hv].
  destruct (decide (pi = n)) as [?|?]; [set_solver|].
  destruct (p !! pi) as [c|] eqn:Hc; [|set_solver].
  apply lookup_lt_Some in Hc.
  destruct (decide (c = star)).
  - destruct (decide (p !! S pi = Some star)) as [Hs|Hs].
    + apply lookup_lt_Some in Hs. rewrite elem_of_cons.
      intros [->|Hy]; simpl; [lia|]. destruct (decide (vi < m)%nat); [|set_solver].
      apply list_elem_of_singleton in Hy as ->. simpl. lia.
    + rewrite elem_of_cons. intros [->|Hy]; simpl; [lia|].
      destruct (v !! vi) eqn:Hd; [|set_solver]. apply lookup_lt_Some in Hd.
      destruct (a !=? slash); [|set_solver].
      apply list_elem_of_singleton in Hy as ->. simpl. lia.
  - destruct (decide (v !! vi = Some c)) as [Hd|]; [|set_solver].
    apply lookup_lt_Some in Hd. intros ->%list_elem_of_singleton. simpl. lia.
Qed.

Lemma drop_cons_iff {A} (l : list A) i c t :
  drop i l = c :: t ↔ l !! i = Some c ∧ drop (S i) l = t.
Proof.
  split.
  - intros H. assert (l !! i = Some c) as Hc.
    { rewrite <-(Nat.add_0_r i), <-lookup_drop, H. done. }
    split; [done|]. rewrite (drop_S _ _ _ Hc) in H. by injection H.
  - intros [Hc <-]. by apply drop_S.
Qed.

(** A path to the goal is a derivation that the pattern matches. *)
Lemma reach_matches x :
  in_range x → rtc edge x goal → matches (drop x.1 p) (drop x.2 v).
Proof.
  intros Hx Hr. revert Hx. pattern x. revert x Hr. apply rtc_ind_l.
  - intros _. simpl. rewrite !drop_all. constructor.
  - intros [pi vi] y Hxy _ IH Hx. specialize (IH (succs_in_range _ _ Hx Hxy)).
    unfold edge, succs in Hxy. simpl.
    destruct (decide (pi = n)) as [?|?]; [set_solver|].
    destruct (p !! pi) as [c|] eqn:Hc; [|set_solver].
    rewrite (drop_S _ _ _ Hc).
    destruct (decide (c = star)) as [->|Hcs].
    + destruct (decide (p !! S pi = Some star)) as [Hs|Hs].
      * rewrite (drop_S _ _ _ Hs).
        apply elem_of_cons in Hxy as [->|Hy].
        -- simpl in IH. replace (pi + 2)%nat with (S (S pi)) in IH by lia. by constructor.
        -- destruct (decide (vi < m)%nat) as [Hlt|]; [|set_solver].
           apply list_elem_of_singleton in Hy as ->. simpl in IH.
           destruct (lookup_lt_is_Some_2 v vi Hlt) as [d Hd]. rewrite (drop_S _ _ _ Hd).
           rewrite (drop_S _ _ _ Hc), (drop_S _ _ _ Hs), Nat.add_1_r in IH. by constructor.
      * assert (head (drop (S pi) p) ≠ Some star) as Hh.
        { rewrite head_lookup, lookup_drop, Nat.add_0_r. done. }
        apply elem_of_cons in Hxy as [->|Hy].
        -- simpl in IH. rewrite Nat.add_1_r in IH. by constructor.
        -- destruct (v !! vi) as [d|] eqn:Hd; [|set_solver].
           destruct (d !=? slash) eqn:Hds; [|set_solver]. bool_hyps.
           apply list_elem_of_singleton in Hy as ->. simpl in IH.
           rewrite (drop_S _ _ _ Hd). rewrite (drop_S _ _ _ Hc), Nat.add_1_r in IH. by constructor.
    + destruct (decide (v !! vi = Some c)) as [Hd|]; [|set_solver].
      apply list_elem_of_singleton in Hxy as ->. simpl in IH. rewrite !Nat.add_1_r in IH.
      rewrite (drop_S _ _ _ Hd). by constructor.
Qed.
Lemma matches_reach P V pi vi :
  matches P V → P = drop pi p → V = drop vi v → in_range (pi, vi) → rtc edge (pi, vi) goal.
Proof.
  intros Hm. revert pi vi. induction Hm as [|P V Hm IH|P c V Hm IH|P V Hh Hm IH|P c V Hh Hc Hm IH
    |P c V Hc Hm IH]; intros pi vi HP HV [Hp Hv]; simpl in *.
  - assert (pi = n) as -> by (apply (f_equal length) in HP; rewrite length_drop in HP; simpl in HP; lia).
    assert (vi = m) as -> by (apply (f_equal length) in HV; rewrite length_drop in HV; simpl in HV; lia).
    reflexivity.
  - symmetry in HP. apply drop_cons_iff in HP as [H1 HP]. apply drop_cons_iff in HP as [H2 HP].
    pose proof (lookup_lt_Some _ _ _ H2).
    apply rtc_l with (pi + 2, vi)%nat.
    + unfold edge, succs. rewrite decide_False by (apply lookup_lt_Some in H1; lia).
      rewrite H1, decide_True, decide_True by done. left.
    + apply IH; [|done|split; simpl; lia]. by rewrite <-HP; replace (pi + 2)%nat with (S (S pi)) by lia.
  - pose proof HP as HP'. symmetry in HP'. apply drop_cons_iff in HP' as [H1 HP'].
    apply drop_cons_iff in HP' as [H2 _]. symmetry in HV. apply drop_cons_iff in HV as [H3 HV].
    pose proof (lookup_lt_Some _ _ _ H3).
    apply rtc_l with (pi, vi + 1)%nat.
    + unfold edge, succs. rewrite decide_False by (apply lookup_lt_Some in H1; lia).
      rewrite H1, decide_True, decide_True by done. rewrite decide_True by done. right. left.
    + apply IH; [done|by rewrite Nat.add_1_r|split; simpl; lia].
  - symmetry in HP. apply drop_cons_iff in HP as [H1 HP]. pose proof (lookup_lt_Some _ _ _ H1).
    apply rtc_l with (pi + 1, vi)%nat.
    + unfold edge, succs. rewrite decide_False by lia. rewrite H1, decide_True by done.
      rewrite decide_False; [left|]. intros Hs. apply Hh.
      by rewrite <-HP, head_lookup, lookup_drop, Nat.add_0_r.
    + apply IH; [by rewrite Nat.add_1_r|done|split; simpl; lia].
  - pose proof HP as HP'. symmetry in HP'. apply drop_cons_iff in HP' as [H1 HP'].
    symmetry in HV. apply drop_cons_iff in HV as [H3 HV]. pose proof (lookup_lt_Some _ _ _ H1).
    pose proof (lookup_lt_Some _ _ _ H3).
    apply rtc_l with (pi, vi + 1)%nat.
    + unfold edge, succs. rewrite decide_False by lia. rewrite H1, decide_True by done.
      rewrite decide_False; [|].
      * rewrite H3, bool_decide_eq_false_2 by done. right. left.
      * intros Hs. apply Hh. by rewrite <-HP', head_lookup, lookup_drop, Nat.add_0_r.
    + apply IH; [done|by rewrite Nat.add_1_r|split; simpl; lia].
  - symmetry in HP. apply drop_cons_iff in HP as [H1 HP]. symmetry in HV.
    apply drop_cons_iff in HV as [H3 HV].
    pose proof (lookup_lt_Some _ _ _ H1). pose proof (lookup_lt_Some _ _ _ H3).
    apply rtc_l with (pi + 1, vi + 1)%nat.
    + unfold edge, succs. rewrite decide_False by lia. rewrite H1, decide_False by done.
      rewrite decide_True by done. left.
    + apply IH; [by rewrite Nat.add_1_r|by rewrite Nat.add_1_r|split; simpl; lia].
Qed.

(** *** The matrix of visited positions *)

Definition shape seen : Prop :=
  length seen = (n + 1)%nat ∧ Forall (λ row, length row = (m + 1)%nat) seen.

Definition visited seen x : Prop := matrix_get seen x.1 x.2 = Some true.

Lemma matrix_get_range seen x : shape seen → in_range x → is_Some (matrix_get seen x.1 x.2).
Proof.
  intros [Hl Hrows] [H1 H2]. unfold matrix_get.
  destruct (lookup_lt_is_Some_2 seen x.1) as [row Hrow]; [lia|]. rewrite Hrow. simpl.
  apply lookup_lt_is_Some_2. rewrite (proj1 (Forall_lookup _ _) Hrows _ _ Hrow). lia.
Qed.

(** The number of positions not yet visited. *)
Definition count_false (row : list bool) : nat := length (filterb negb row).
Definition unvisited seen : nat := foldr (λ row k, (count_false row + k)%nat) 0%nat seen.

Lemma count_false_set row j :
  row !! j = Some false → S (count_false (<[j := true]> row)) = count_false row.
Proof.
  revert j. induction row as [|b row IH]; intros [|j] Hj; simplify_eq/=; [done|].
  unfold count_false in *. simpl. specialize (IH j Hj). destruct b; simpl in *; lia.
Qed.

Lemma unvisited_insert seen i row row' :
  seen !! i = Some row →
  (unvisited (<[i := row']> seen) + count_false row = unvisited seen + count_false row')%nat.
Proof.
  revert i. induction seen as [|r seen IH]; intros [|i] Hi; simplify_eq/=; [lia|].
  specialize (IH i Hi). lia.
Qed.

Lemma matrix_set_spec seen x :
  shape seen → in_range x → matrix_get seen x.1 x.2 = Some false →
  ∃ seen', matrix_set seen x.1 x.2 = Some seen' ∧ shape seen' ∧
    S (unvisited seen') = unvisited seen ∧
    ∀ y, visited seen' y ↔ y = x ∨ visited seen y.
Proof.
  intros [Hl Hrows] [H1 H2] Hget. unfold matrix_get in Hget. unfold matrix_set.
  destruct (seen !! x.1) as [row|] eqn:Hrow; simpl in *; [|done].
  pose proof (proj1 (Forall_lookup _ _) Hrows _ _ Hrow) as Hlen. simpl in Hlen.
  rewrite decide_True by lia. eexists. split; [done|]. split_and!.
  - split; [by rewrite length_insert|]. apply Forall_insert; [done|]. by rewrite length_insert.
  - pose proof (unvisited_insert seen x.1 row (<[x.2 := true]> row) Hrow).
    pose proof (count_false_set row x.2 Hget). lia.
  - destruct x as [xi xj]. intros [i j]. unfold visited, matrix_get. simpl in *.
    destruct (decide (i = xi)) as [->|Hi].
    + rewrite list_lookup_insert_eq by (apply lookup_lt_Some in Hrow; lia). simpl. rewrite Hrow. simpl.
      destruct (decide (j = xj)) as [->|Hj].
      * rewrite list_lookup_insert_eq by lia. split; [auto|done].
      * rewrite list_lookup_insert_ne by done. split; [auto|]. intros [[= ->]|?]; [done|auto].
    + rewrite list_lookup_insert_ne by done. split; [auto|]. intros [[= -> ->]|?]; [done|auto].
Qed.

(** *** The loop *)

(** What one expansion pushes: the successors not yet visited. *)
Lemma push_unseen_spec seen i j st :
  shape seen → in_range (i, j) →
  ∃ st', push_unseen seen i j st = Some st' ∧ (length st' <= S (length st))%nat ∧
    ∀ y, y ∈ st' ↔ y ∈ st ∨ y = (i, j) ∧ ¬ visited seen y.
Proof.
  intros Hs Hr. destruct (matrix_get_range seen (i, j) Hs Hr) as [b Hb]. simpl in Hb.
  unfold push_unseen. rewrite Hb. simpl. eexists. split; [done|].
  assert (visited seen (i, j) ↔ b = true) as Hvis.
  { unfold visited. simpl. rewrite Hb. split; [by intros [= ->]|by intros ->]. }
  destruct b; (split; [simpl; lia|]); intros y; rewrite ?elem_of_cons.
  - split; [auto|]. intros [?|[-> Hn]]; [done|]. naive_solver.
  - split; [intros [->|?]; [right|]; naive_solver|]. naive_solver.
Qed.

Lemma expand fuel seen x st :
  shape seen → in_range x → matrix_get seen x.1 x.2 = Some false → x ≠ goal →
  ∃ seen' st',
    covers_loop (S fuel) p v seen (x :: st) = covers_loop fuel p v seen' st' ∧
    shape seen' ∧ S (unvisited seen') = unvisited seen ∧ (length st' <= 2 + length st)%nat ∧
    (∀ y, visited seen' y ↔ y = x ∨ visited seen y) ∧
    (∀ y, y ∈ st' ↔ y ∈ st ∨ edge x y ∧ ¬ visited seen' y).
Proof.
  intros Hs Hr Hget Hng. destruct (matrix_set_spec seen x Hs Hr Hget) as (seen' & Hset & Hs' & Hu & Hvis).
  pose proof (succs_in_range x) as Hsucc. exists seen'.
  destruct x as [pi vi]. simpl in *. rewrite Hget, Hset. simpl. unfold edge, succs in *.
  destruct (decide (pi = n)) as [->|Hn].
  { rewrite decide_False by (intros ->; by apply Hng). exists st.
    split_and!; try done; [lia|]. set_solver. }
  destruct (lookup_lt_is_Some_2 p pi) as [c Hc]; [destruct Hr; simpl in *; lia|].
  rewrite Hc in *. simpl. destruct (decide (c = star)) as [->|Hcs].
  - destruct (decide (p !! S pi = Some star)) as [Hd|Hd].
    + destruct (push_unseen_spec seen' (pi + 2) vi st) as (st1 & -> & Hl1 & Hel1); [done| |].
      { apply Hsucc; [done|left]. }
      simpl. destruct (decide (vi < m)%nat) as [Hlt|Hlt].
      * destruct (push_unseen_spec seen' pi (vi + 1) st1) as (st2 & -> & Hl2 & Hel2); [done| |].
        { apply Hsucc; [done|right; left]. }
        exists st2. split_and!; try done; [lia|]. intros y. rewrite Hel2, Hel1. set_solver.
      * exists st1. split_and!; try done; [lia|]. intros y. rewrite Hel1. set_solver.
    + destruct (push_unseen_spec seen' (pi + 1) vi st) as (st1 & -> & Hl1 & Hel1); [done| |].
      { apply Hsucc; [done|left]. }
      simpl. destruct (match v !! vi with Some _ => _ | None => _ end) eqn:Hm.
      * destruct (push_unseen_spec seen' pi (vi + 1) st1) as (st2 & -> & Hl2 & Hel2); [done| |].
        { apply Hsucc; [done|right; left]. }
        exists st2. split_and!; try done; [lia|]. intros y. rewrite Hel2, Hel1. set_solver.
      * exists st1. split_and!; try done; [lia|]. intros y. rewrite Hel1. set_solver.
  - destruct (decide (v !! vi = Some c)) as [Hd|Hd].
    + destruct (push_unseen_spec seen' (pi + 1) (vi + 1) st) as (st1 & -> & Hl1 & Hel1); [done| |].
      { apply Hsucc; [done|left]. }
      exists st1. split_and!; try done; [lia|]. intros y. rewrite Hel1. set_solver.
    + exists st. split_and!; try done; [lia|]. set_solver.
Qed.

(** Every visited position has its successors visited or on the stack. *)
Definition closed seen (st : list (nat * nat)) : Prop :=
  ∀ x, visited seen x → x ≠ goal ∧ ∀ y, edge x y → visited seen y ∨ y ∈ st.

Lemma closed_reach seen st x :
  closed seen st → visited seen x → rtc edge x goal → ∃ y, y ∈ st ∧ rtc edge y goal.
Proof.
  intros Hc Hv Hr. revert Hv. pattern x. revert x Hr. apply rtc_ind_l.
  - intros Hv. destruct (Hc _ Hv) as [[] _]. done.
  - intros x y Hxy Hr IH Hv. destruct (Hc x Hv) as [_ Hs].
    destruct (Hs y Hxy) as [Hy|Hy]; [by apply IH|by exists y].
Qed.

(** With enough fuel the search ends, without an out-of-bounds access, and answers
    whether the goal can be reached from the stack. *)
Lemma covers_loop_spec fuel seen st :
  shape seen → Forall in_range st → closed seen st →
  (2 * unvisited seen + length st <= fuel)%nat →
  ∃ b, covers_loop fuel p v seen st = Some b ∧ (b = true ↔ ∃ x, x ∈ st ∧ rtc edge x goal).
Proof.
  revert seen st. induction fuel as [|fuel IH]; intros seen [|x st] Hs Hst Hc Hf;
    try (exists false; split; [done|]; split; [done|]; set_solver).
  { simpl in Hf. lia. }
  apply Forall_cons in Hst as [Hx Hst]. simpl in Hf.
  destruct (matrix_get_range seen x Hs Hx) as [[] Hb].
  - (* already visited *)
    assert (closed seen st) as Hc'.
    { intros y Hy. destruct (Hc y Hy) as [? Hsu]. split; [done|]. intros z Hz.
      destruct (Hsu z Hz) as [?|[->|?]%elem_of_cons]; auto. }
    destruct (IH seen st Hs Hst Hc') as (b & Hl & Hb'); [lia|]. exists b. split.
    + destruct x as [pi vi]. cbn [covers_loop]. simpl in Hb. rewrite Hb. exact Hl.
    + rewrite Hb'. split; [set_solver|]. intros (y & [->|Hy]%elem_of_cons & Hr); [|eauto].
      by eapply closed_reach.
  - destruct (decide (x = goal)) as [->|Hng].
    + destruct (matrix_set_spec seen goal Hs Hx Hb) as (seen' & Hset & _).
      exists true. split; [|split; [|done]].
      * unfold goal in *. simpl in *. rewrite Hb, Hset. simpl. by rewrite !decide_True.
      * intros _. exists goal. split; [left|reflexivity].
    + destruct (expand fuel seen x st Hs Hx Hb Hng)
        as (seen' & st' & -> & Hs' & Hu & Hl & Hvis & Hel).
      assert (closed seen' st') as Hc'.
      { intros y Hy. apply Hvis in Hy as [->|Hy].
        - split; [done|]. intros z Hz. destruct (matrix_get_range seen' z Hs') as [[] Hzb];
            [by eapply succs_in_range|by left|].
          right. apply Hel. right. split; [done|]. unfold visited. congruence.
        - destruct (Hc y Hy) as [? Hsu]. split; [done|]. intros z Hz.
          destruct (Hsu z Hz) as [?|[->|?]%elem_of_cons]; [left|left|right];
            apply Hvis || apply Hel; auto. }
      destruct (IH seen' st' Hs') as (b & Hloop & Hb'); [|done|lia|].
      * apply Forall_forall. intros y [Hy|[Hy _]]%Hel; [by eapply (proj1 (Forall_forall _ _))|].
        by eapply succs_in_range.
      * exists b. split; [done|]. rewrite Hb'. split.
        -- intros (y & [Hy|[Hy _]]%Hel & Hr); [exists y; set_solver|].
           exists x. split; [left|]. by eapply rtc_l.
        -- intros (y & [->|Hy]%elem_of_cons & Hr); [|exists y; set_solver].
           apply rtc_inv in Hr as [->|(z & Hxz & Hr)]; [done|].
           apply (closed_reach seen' st' x); [done| |by eapply rtc_l].
           apply Hvis. by left.
Qed.
End Search.

(** ** The matcher against the meaning *)

Lemma new_matrix_shape (p v : list ascii) : shape p v (new_matrix (length p) (length v)).
Proof.
  split; [apply length_replicate|]. apply Forall_replicate. apply length_replicate.
Qed.

Lemma new_matrix_unvisited n m : unvisited (new_matrix n m) = ((n + 1) * (m + 1))%nat.
Proof.
  unfold new_matrix. assert (count_false (replicate (m + 1) false) = m + 1)%nat as Hc.
  { generalize (m + 1)%nat. intros k. unfold count_false. induction k; simpl; lia. }
  generalize (n + 1)%nat. intros k. induction k as [|k IH]; simpl; [done|]. rewrite IH, Hc. lia.
Qed.

Lemma new_matrix_fresh n m x : ¬ visited (new_matrix n m) x.
Proof.
  unfold visited, matrix_get, new_matrix. intros H.
  destruct (replicate (n + 1) _ !! x.1) as [row|] eqn:E; simpl in H; [|done].
  apply lookup_replicate in E as [-> _]. apply lookup_replicate in H as [[=] _].
Qed.

Lemma pattern_covers_opt_spec pattern value :
  ∃ b, pattern_covers_opt pattern value = Some b ∧
       (b = true ↔ matches (chars pattern) (chars value)).
Proof.
  unfold pattern_covers_opt. set (p := chars pattern). set (v := chars value).
  destruct (covers_loop_spec p v (covers_fuel (length p) (length v))
              (new_matrix (length p) (length v)) [(0%nat, 0%nat)]) as (b & Hl & Hb).
  - apply new_matrix_shape.
  - apply Forall_singleton. split; simpl; lia.
  - intros x Hx. by apply new_matrix_fresh in Hx.
  - rewrite new_matrix_unvisited. unfold covers_fuel. simpl. lia.
  - exists b. split; [done|]. rewrite Hb. split.
    + intros (x & ->%list_elem_of_singleton & Hr). apply reach_matches in Hr; [done|].
      split; simpl; lia.
    + intros Hm. exists (0%nat, 0%nat). split; [left|].
      apply (matches_reach p v p v); [done|done|done|]. split; simpl; lia.
Qed.

Lemma pattern_covers_iff pattern value :
  pattern_covers pattern value = true ↔ matches (chars pattern) (chars value).
Proof.
  unfold pattern_covers. destruct (pattern_covers_opt_spec pattern value) as (b & -> & Hb). done.
Qed.

(** ** Patterns cut at a slash *)

Lemma matches_cut P R V :
  matches (P ++ slash :: R) V →
  ∃ V1 V2, V = V1 ++ slash :: V2 ∧ matches P V1 ∧ matches R V2.
Proof.
  intros Hm. remember (P ++ slash :: R) as Q eqn:HQ. revert P HQ.
  induction Hm as [|Q V Hm IH|Q c V Hm IH|Q V Hh Hm IH|Q c V Hh Hc Hm IH|Q c V Hc Hm IH];
    intros P HQ.
  - by destruct P.
  - destruct P as [|a [|b P]]; simplify_eq/=.
    destruct (IH P eq_refl) as (V1 & V2 & -> & H1 & H2). eauto 6 with glob.
  - destruct P as [|a [|b P]]; simplify_eq/=.
    destruct (IH (star :: star :: P) eq_refl) as (V1 & V2 & -> & H1 & H2).
    exists (c :: V1), V2. eauto with glob.
  - destruct P as [|a P]; simplify_eq/=.
    destruct (IH P eq_refl) as (V1 & V2 & -> & H1 & H2). exists V1, V2.
    split_and!; [done| |done]. constructor; [|done]. by destruct P.
  - destruct P as [|a P]; simplify_eq/=.
    destruct (IH (star :: P) eq_refl) as (V1 & V2 & -> & H1 & H2).
    exists (c :: V1), V2. split_and!; [done| |done]. constructor; [|done|done]. by destruct P.
  - destruct P as [|a P]; simplify_eq/=.
    + exists [], V. eauto with glob.
    + destruct (IH P eq_refl) as (V1 & V2 & -> & H1 & H2). exists (a :: V1), V2. eauto with glob.
Qed.

Lemma matches_join P R V1 V2 :
  matches P V1 → matches R V2 → matches (P ++ slash :: R) (V1 ++ slash :: V2).
Proof.
  intros Hm HR. induction Hm as [|P V Hm IH|P c V Hm IH|P V Hh Hm IH|P c V Hh Hc Hm IH
    |P c V Hc Hm IH]; simpl in *; eauto with glob.
  - constructor; [by destruct P|done].
  - constructor; [by destruct P|done|done].
Qed.

Lemma matches_star2_any V : matches [star; star] V.
Proof. induction V; eauto with glob. Qed.

Lemma matches_star_iff V : matches [star] V ↔ slash ∉ V.
Proof.
  split.
  - intros Hm. remember [star] as P eqn:HP. induction Hm; simplify_eq/=; [|set_solver].
    match goal with H : matches [] _ |- _ => inv H end. set_solver.
  - induction V as [|c V IH]; intros Hs; [by repeat constructor|].
    constructor; [done|set_solver|]. apply IH. set_solver.
Qed.

(** Two stars in a row. *)
Fixpoint has_double_star (l : list ascii) : bool :=
  match l with
  | [] => false
  | a :: l' =>
      ((a ==? star) && match l' with b :: _ => b ==? star | [] => false end) ||
      has_double_star l'
  end.

Lemma has_double_star_cons a l :
  has_double_star (a :: l) = false →
  (a = star → head l ≠ Some star) ∧ has_double_star l = false.
Proof.
  destruct l as [|b l]; [done|]. simpl. intros H%orb_false_iff. destruct H as [H1 H2].
  split; [|done]. intros -> [= ->]. by rewrite bool_decide_eq_true_2 in H1.
Qed.

(** A pattern with no slash and no double star matches no slash. *)
Lemma matches_no_slash P V :
  matches P V → slash ∉ P → has_double_star P = false → slash ∉ V.
Proof.
  induction 1 as [|P V Hm IH|P c V Hm IH|P V Hh Hm IH|P c V Hh Hc Hm IH|P c V Hc Hm IH];
    intros Hs Hd.
  - done.
  - apply has_double_star_cons in Hd as [Hd _]. by destruct (Hd eq_refl).
  - apply has_double_star_cons in Hd as [Hd _]. by destruct (Hd eq_refl).
  - apply has_double_star_cons in Hd as [_ Hd]. apply IH; [set_solver|done].
  - specialize (IH Hs Hd). set_solver.
  - apply has_double_star_cons in Hd as [_ Hd]. specialize (IH ltac:(set_solver) Hd). set_solver.
Qed.

(** ** Containment *)

(** The shapes on which the containment test is a containment: a single-segment
    parent needs a child without [**], and a child under a directory pattern
    must continue with a slash. *)
Definition subsumes_exact (parent child : string) : bool :=
  (parent ==? child) || (parent ==? "**") ||
  ((parent ==? "*") && negb (has_double_star (chars child))) ||
  match strip_suffix parent "/**" with
  | Some prefix => child !=? prefix
  | None =>
      match strip_suffix parent "/*" with
      | Some prefix =>
          starts_with child (prefix +:+ "/") && negb (has_double_star (chars child))
      | None => false
      end
  end.

Lemma has_double_star_app P R : has_double_star (P ++ R) = false → has_double_star R = false.
Proof.
  induction P as [|a P IH]; [done|]. intros [_ H]%has_double_star_cons. by apply IH.
Qed.

Lemma pattern_subsumes_contained parent child V :
  pattern_subsumes parent child = true → subsumes_exact parent child = true →
  matches (chars child) V → matches (chars parent) V.
Proof.
  unfold pattern_subsumes, subsumes_exact. intros Hsub Hex Hm.
  case_bool_decide as Hne; [by subst|].
  case_bool_decide as H2; [subst; apply matches_star2_any|].
  case_bool_decide as H1.
  { subst. simpl in Hex. rewrite orb_false_r in Hex. bool_hyps. change (chars "*") with [star].
    apply matches_star_iff. apply (matches_no_slash (chars child)); [done| |done].
    intros Hin%contains_char_true. congruence. }
  simpl in Hex.
  destruct (strip_suffix parent "/**") as [prefix|] eqn:E2.
  { apply strip_suffix_Some in E2. change (chars "/**") with [slash; star; star] in E2.
    rewrite E2. apply orb_true_iff in Hsub as [Hc|Hs]; [bool_hyps; done|].
    destruct (strip_prefix child prefix) as [rest|] eqn:Ep; [|done].
    apply strip_prefix_Some in Ep. unfold starts_with in Hs.
    destruct (strip_prefix rest "/") as [r|] eqn:Er; [|done]. apply strip_prefix_Some in Er.
    rewrite Ep, Er in Hm. change (chars "/") with [slash] in Hm.
    apply matches_cut in Hm as (V1 & V2 & -> & Hm1 & _).
    apply (matches_join _ [star; star]); [done|apply matches_star2_any]. }
  destruct (strip_suffix parent "/*") as [prefix|] eqn:E1; [|done].
  apply strip_suffix_Some in E1. change (chars "/*") with [slash; star] in E1. rewrite E1.
  apply andb_true_iff in Hex as [Hst Hds]. bool_hyps. unfold starts_with in Hst.
  destruct (strip_prefix child (prefix +:+ "/")) as [r|] eqn:Er; [|done].
  apply strip_prefix_Some in Er. rewrite chars_app in Er. change (chars "/") with [slash] in Er.
  rewrite <-app_assoc in Er. simpl in Er.
  assert (strip_prefix child prefix = Some (of_chars (slash :: chars r))) as Ep.
  { apply strip_prefix_Some. by rewrite chars_of_chars. }
  rewrite Ep in Hsub.
  assert (strip_prefix (of_chars (slash :: chars r)) "/" = Some r) as Es.
  { apply strip_prefix_Some. by rewrite chars_of_chars. }
  rewrite Es in Hsub. simpl in Hsub. bool_hyps.
  rewrite Er in Hm, Hds. apply matches_cut in Hm as (V1 & V2 & -> & Hm1 & Hm2).
  apply (matches_join _ [star]); [done|]. apply matches_star_iff.
  apply (matches_no_slash (chars r)); [done| |].
  - intros Hin%contains_char_true. congruence.
  - apply (has_double_star_app (chars prefix ++ [slash])). by rewrite <-app_assoc.
Qed.

(** ** Properties *)

(** C26: the depth-first matcher of mandate scopes is exactly the glob language
    its documentation describes: on every pattern and value it terminates,
    never indexes out of its matrix, and answers [true] precisely when [**]
    can be replaced by any run, [*] by a run without a slash, and every other
    character by itself. *)
Theorem pattern_covers_correct pattern value :
  pattern_covers_opt pattern value = Some (pattern_covers pattern value) ∧
  (pattern_covers pattern value = true ↔ matches (chars pattern) (chars value)).
Proof.
  split; [|apply pattern_covers_iff]. unfold pattern_covers.
  by destruct (pattern_covers_opt_spec pattern value) as (b & -> & _).
Qed.

(** On the shapes of [subsumes_exact] the delegation test is a real containment:
    whatever the child pattern covers, the parent pattern covers. *)
Theorem pattern_subsumes_sound parent child value :
  pattern_subsumes parent child = true → subsumes_exact parent child = true →
  pattern_covers child value = true → pattern_covers parent value = true.
Proof. rewrite !pattern_covers_iff. apply pattern_subsumes_contained. Qed.

Lemma pattern_subsumes_sound_witness :
  pattern_covers "crates/**" "crates/uc-engine/src/lib.rs" = true.
Proof.
  apply (pattern_subsumes_sound "crates/**" "crates/uc-engine/*/lib.rs").
  - vm_compute. reflexivity.
  - vm_compute. reflexivity.
  - vm_compute. reflexivity.
Defined.

(** Outside those shapes the delegation test accepts children that cover
    strictly more than their parent, in the four ways below: [**] under [*],
    [dir/**] under [dir/*], a sibling that merely shares the directory's prefix,
    and the directory itself under [dir/**]. *)
Theorem pattern_subsumes_widens :
  (pattern_subsumes "*" "**" = true ∧
     pattern_covers "**" "a/b" = true ∧ pattern_covers "*" "a/b" = false) ∧
  (pattern_subsumes "release/*" "release/**" = true ∧
     pattern_covers "release/**" "release/a/b" = true ∧
     pattern_covers "release/*" "release/a/b" = false) ∧
  (pattern_subsumes "src/*" "src-secret" = true ∧
     pattern_covers "src-secret" "src-secret" = true ∧
     pattern_covers "src/*" "src-secret" = false) ∧
  (pattern_subsumes "src/**" "src" = true ∧
     pattern_covers "src" "src" = true ∧ pattern_covers "src/**" "src" = false).
Proof. vm_compute. repeat split. Qed.
