(* ===== verification/Mandate.v ===== *)
(** * Mandates: the authority a case runs under

    [uc-types/src/governance/mandate.rs].  Scopes, the check of a request
    against a mandate ([permits]), the delegation check ([validate_child]) and
    the combination of two mandates ([intersect]).  The glob matcher is in
    Glob.v.  Mandate ids are the fresh UUIDs of [MandateId::new], an argument
    here. *)

From Stdlib Require Import String SpecFloat.
From S2P Require Import Prelude RustStr Policy Glob.

(** ** Data *)

Inductive MandateOrigin : Type := HumanIssued | CaseDelegated | SystemDefault | TestFixture.
#[export] Instance MandateOrigin_eq_dec : EqDecision MandateOrigin.
Proof. solve_decision. Defined.

Definition MandateOrigin_as_str (o : MandateOrigin) : string :=
  match o with
  | HumanIssued => "human_issued"
  | CaseDelegated => "case_delegated"
  | SystemDefault => "system_default"
  | TestFixture => "test_fixture"
  end.

Definition is_root (o : MandateOrigin) : bool :=
  match o with HumanIssued | SystemDefault => true | _ => false end.

Inductive MandateScope : Type :=
| Repo (pattern : string)
| Branch (pattern : string)
| Path (pattern : string)
| Tool (name : string)
| Action (class : ActionClass)
| Budget (max_tokens : option Z) (max_cost_usd : option f64) (max_wall_secs : option Z)
| MaxRuns (max : Z).
#[export] Instance MandateScope_eq_dec : EqDecision MandateScope.
Proof. solve_decision. Defined.

Definition MandateScope_kind (s : MandateScope) : string :=
  match s with
  | Repo _ => "repo"
  | Branch _ => "branch"
  | Path _ => "path"
  | Tool _ => "tool"
  | Action _ => "action"
  | Budget _ _ _ => "budget"
  | MaxRuns _ => "max_runs"
  end.

Record MandateRequest : Type := mkRequest {
  req_repo : option string;
  req_branch : option string;
  req_path : option string;
  req_tool : option string;
  req_action : option ActionClass;
  req_tokens : option Z;
  req_cost_usd : option f64;
  req_wall_secs : option Z;
  req_runs : option Z
}.

Definition MandateRequest_default : MandateRequest :=
  mkRequest None None None None None None None None None.
Definition MandateRequest_tool (name : string) : MandateRequest :=
  mkRequest None None None (Some name) None None None None None.
Definition MandateRequest_action (class : ActionClass) : MandateRequest :=
  mkRequest None None None None (Some class) None None None None.
Definition MandateRequest_write_path (path : string) : MandateRequest :=
  mkRequest None None (Some path) None (Some ActWrite) None None None None.

Inductive MandateDenial : Type :=
| Revoked (mandate_id reason : string)
| Expired (mandate_id : string) (expired_at : Instant)
| OutOfScope (scope value : string)
| WideningDenied (detail : string)
| DenialStalePolicyVersion (mandate_version minimum : Z)
| OriginForbidden (origin : string).

Definition MandateDenial_code (d : MandateDenial) : string :=
  match d with
  | Revoked _ _ => "mandate_revoked"
  | Expired _ _ => "mandate_expired"
  | OutOfScope _ _ => "mandate_out_of_scope"
  | WideningDenied _ => "mandate_widening_denied"
  | DenialStalePolicyVersion _ _ => "stale_policy_version"
  | OriginForbidden _ => "mandate_origin_forbidden"
  end.

Inductive MandateDecision : Type :=
| Allowed
| Denied (denial : MandateDenial).

Definition MandateDecision_is_allowed (d : MandateDecision) : bool :=
  match d with Allowed => true | Denied _ => false end.

Definition MandateDecision_denial (d : MandateDecision) : option MandateDenial :=
  match d with Denied denial => Some denial | Allowed => None end.

Record MandateRevocation : Type := mkRevocation {
  revocation_at : Instant;
  revocation_by : Principal;
  revocation_reason : string
}.

Record Mandate : Type := mkMandate {
  mandate_id : string;
  mandate_case_id : string;
  grantor : Principal;
  mandate_policy_version : Z;
  scopes : list MandateScope;
  issued_at : Instant;
  mandate_expires_at : option Instant;
  revoked : option MandateRevocation;
  origin : MandateOrigin;
  delegated_from : option string
}.

(** ** Building and revoking *)

Definition Mandate_new (fresh_id case_id : string) (by_ : Principal) (o : MandateOrigin)
    (ss : list MandateScope) (policy_version : Z) (now : Instant) : Mandate :=
  mkMandate fresh_id case_id by_ policy_version ss now None None o None.

Definition Mandate_with_expiry (m : Mandate) (at_ : Instant) : Mandate :=
  mkMandate (mandate_id m) (mandate_case_id m) (grantor m) (mandate_policy_version m) (scopes m)
    (issued_at m) (Some at_) (revoked m) (origin m) (delegated_from m).

Definition delegate_from (m parent : Mandate) : Mandate :=
  mkMandate (mandate_id m) (mandate_case_id m) (grantor m) (mandate_policy_version m) (scopes m)
    (issued_at m) (mandate_expires_at m) (revoked m) (origin m) (Some (mandate_id parent)).

Definition is_revoked (m : Mandate) : bool := bool_decide (is_Some (revoked m)).

Definition is_expired (m : Mandate) (now : Instant) : bool :=
  match mandate_expires_at m with Some at_ => at_ <=? now | None => false end.

Definition revoke (m : Mandate) (by_ : Principal) (reason : string) (now : Instant) : Mandate :=
  match revoked m with
  | Some _ => m
  | None =>
      mkMandate (mandate_id m) (mandate_case_id m) (grantor m) (mandate_policy_version m)
        (scopes m) (issued_at m) (mandate_expires_at m) (Some (mkRevocation now by_ reason))
        (origin m) (delegated_from m)
  end.

(** ** The check of a request *)

(** [f64]'s [Display], which appears in one denial's text. *)
Class F64Display := { f64_display : f64 → string }.

Definition out_of_scope (scope value : string) : MandateDecision := Denied (OutOfScope scope value).
Definition widen (detail : string) : MandateDecision := Denied (WideningDenied detail).

Definition is_budget (s : MandateScope) : bool :=
  match s with Budget _ _ _ => true | _ => false end.

Definition budget_scope (m : Mandate) : option MandateScope := find is_budget (scopes m).

(** [if let Some(x) = asked { if !covered(x) { return denied(x) } }], then [k]. *)
Definition asks {A} (asked : option A) (covered : A → bool) (denied : A → MandateDecision)
    (k : MandateDecision) : MandateDecision :=
  match asked with
  | Some x => if negb (covered x) then denied x else k
  | None => k
  end.

Definition repo_covered (ss : list MandateScope) (repo : string) : bool :=
  existsb (λ s, match s with Repo p => pattern_covers p repo | _ => false end) ss.
Definition branch_covered (ss : list MandateScope) (branch : string) : bool :=
  existsb (λ s, match s with Branch p => pattern_covers p branch | _ => false end) ss.
Definition path_covered (ss : list MandateScope) (path : string) : bool :=
  existsb (λ s, match s with Path p => pattern_covers p path | _ => false end) ss.
Definition tool_covered (ss : list MandateScope) (tool : string) : bool :=
  existsb (λ s, match s with Tool n => (n ==? tool) || (n ==? "*") | _ => false end) ss.
Definition action_covered (ss : list MandateScope) (action : ActionClass) : bool :=
  existsb (λ s, match s with Action c => c ==? action | _ => false end) ss.
Definition tokens_covered (m : Mandate) (tokens : Z) : bool :=
  match budget_scope m with Some (Budget (Some max) _ _) => tokens <=? max | _ => false end.
Definition cost_covered (m : Mandate) (cost : f64) : bool :=
  match budget_scope m with Some (Budget _ (Some max) _) => f64_le cost max | _ => false end.
Definition wall_covered (m : Mandate) (wall : Z) : bool :=
  match budget_scope m with Some (Budget _ _ (Some max)) => wall <=? max | _ => false end.
Definition runs_covered (ss : list MandateScope) (runs : Z) : bool :=
  existsb (λ s, match s with MaxRuns max => runs <=? max | _ => false end) ss.

Section Permits.
Context `{F64Display}.

Definition permits_scopes (m : Mandate) (request : MandateRequest) : MandateDecision :=
  asks (req_repo request) (repo_covered (scopes m)) (out_of_scope "repo") $
  asks (req_branch request) (branch_covered (scopes m)) (out_of_scope "branch") $
  asks (req_path request) (path_covered (scopes m)) (out_of_scope "path") $
  asks (req_tool request) (tool_covered (scopes m)) (out_of_scope "tool") $
  asks (req_action request) (action_covered (scopes m))
    (λ a, out_of_scope "action" (ActionClass_as_str a)) $
  asks (req_tokens request) (tokens_covered m) (λ n, out_of_scope "budget.tokens" (pretty n)) $
  asks (req_cost_usd request) (cost_covered m)
    (λ c, out_of_scope "budget.cost_usd" (f64_display c)) $
  asks (req_wall_secs request) (wall_covered m) (λ n, out_of_scope "budget.wall_secs" (pretty n)) $
  asks (req_runs request) (runs_covered (scopes m)) (λ n, out_of_scope "max_runs" (pretty n)) $
  Allowed.

Definition permits (m : Mandate) (request : MandateRequest) (now : Instant) : MandateDecision :=
  match revoked m with
  | Some revocation => Denied (Revoked (mandate_id m) (revocation_reason revocation))
  | None =>
      match mandate_expires_at m with
      | Some expires_at =>
          if expires_at <=? now then Denied (Expired (mandate_id m) expires_at)
          else permits_scopes m request
      | None => permits_scopes m request
      end
  end.

(** ** Delegation *)

Definition budget_within (child parent : option Z) : bool :=
  match child, parent with
  | Some c, Some p => c <=? p
  | Some _, None => true
  | None, Some _ => false
  | None, None => true
  end.

Definition cost_within (child parent : option f64) : bool :=
  match child, parent with
  | Some c, Some p => f64_le c (f64_add p f64_epsilon)
  | Some _, None => true
  | None, Some _ => false
  | None, None => true
  end.

Definition child_scope_covered (parent : Mandate) (s : MandateScope) : bool :=
  match s with
  | Repo pattern =>
      existsb (λ q, match q with Repo p => pattern_subsumes p pattern | _ => false end)
        (scopes parent)
  | Branch pattern =>
      existsb (λ q, match q with Branch p => pattern_subsumes p pattern | _ => false end)
        (scopes parent)
  | Path pattern =>
      existsb (λ q, match q with Path p => pattern_subsumes p pattern | _ => false end)
        (scopes parent)
  | Tool name =>
      existsb (λ q, match q with Tool p => (p ==? name) || (p ==? "*") | _ => false end)
        (scopes parent)
  | Action class =>
      existsb (λ q, match q with Action c => c ==? class | _ => false end) (scopes parent)
  | Budget max_tokens max_cost_usd max_wall_secs =>
      match budget_scope parent with
      | Some (Budget parent_tokens parent_cost parent_wall) =>
          budget_within max_tokens parent_tokens && cost_within max_cost_usd parent_cost &&
          budget_within max_wall_secs parent_wall
      | _ => false
      end
  | MaxRuns max =>
      existsb (λ q, match q with MaxRuns pmax => max <=? pmax | _ => false end) (scopes parent)
  end.

(** The loop over the child's scopes: the first one not covered is the error. *)
Definition validate_scopes (parent child : Mandate) : MandateDecision :=
  match find (λ s, negb (child_scope_covered parent s)) (scopes child) with
  | Some s => widen ("delegated mandate introduces a scope the parent does not hold: " +:+
                     MandateScope_kind s)
  | None => Allowed
  end.

Definition validate_child (parent child : Mandate) (now : Instant) (minimum_policy : option Z)
    : MandateDecision :=
  if negb (MandateDecision_is_allowed (permits parent MandateRequest_default now)) then
    permits parent MandateRequest_default now
  else if origin child ==? HumanIssued then
    Denied (OriginForbidden (MandateOrigin_as_str (origin child)))
  else if mandate_policy_version child <? mandate_policy_version parent then
    Denied (DenialStalePolicyVersion (mandate_policy_version child)
                                     (mandate_policy_version parent))
  else if match minimum_policy with
          | Some minimum => mandate_policy_version child <? minimum
          | None => false
          end then
    Denied (DenialStalePolicyVersion (mandate_policy_version child) (default 0 minimum_policy))
  else if (mandate_case_id child !=? mandate_case_id parent) &&
          (delegated_from child !=? Some (mandate_id parent)) then
    widen "delegated mandate must reference its parent mandate"
  else match mandate_expires_at child, mandate_expires_at parent with
       | Some child_expiry, Some parent_expiry =>
           if parent_expiry <? child_expiry then widen "delegated mandate outlives its parent"
           else validate_scopes parent child
       | Some _, None => validate_scopes parent child
       | None, Some _ => widen "delegated mandate removed the parent's expiry"
       | None, None => validate_scopes parent child
       end.
End Permits.

(** ** Intersection *)

Definition narrowest_u64 (a b : option Z) : option Z :=
  match a, b with
  | Some a, Some b => Some (Z.min a b)
  | Some a, None => Some a
  | None, Some b => Some b
  | None, None => None
  end.

Definition narrowest_f64 (a b : option f64) : option f64 :=
  match a, b with
  | Some a, Some b => Some (f64_min a b)
  | Some a, None => Some a
  | None, Some b => Some b
  | None, None => None
  end.

(** Whether a scope of one mandate stays in the intersection with [other]. *)
Definition intersect_keeps (other : Mandate) (s : MandateScope) : bool :=
  match s with
  | Repo pattern =>
      existsb (λ o, match o with Repo p => p ==? pattern | _ => false end) (scopes other)
  | Branch pattern =>
      existsb (λ o, match o with Branch p => p ==? pattern | _ => false end) (scopes other)
  | Path pattern =>
      existsb (λ o, match o with Path p => p ==? pattern | _ => false end) (scopes other)
  | Tool name =>
      existsb (λ o, match o with Tool p => p ==? name | _ => false end) (scopes other)
  | Action class =>
      existsb (λ o, match o with Action c => c ==? class | _ => false end) (scopes other)
  | Budget _ _ _ => false
  | MaxRuns max =>
      existsb (λ o, match o with MaxRuns pmax => max <=? pmax | _ => false end) (scopes other)
  end.

Definition intersect_budget (a b : Mandate) : list MandateScope :=
  match budget_scope a, budget_scope b with
  | Some (Budget a_t a_c a_w), Some (Budget b_t b_c b_w) =>
      [Budget (narrowest_u64 a_t b_t) (narrowest_f64 a_c b_c) (narrowest_u64 a_w b_w)]
  | _, _ => []
  end.

Definition intersect (fresh_id : string) (a b : Mandate) (now : Instant) : Mandate :=
  let scopes' := filterb (intersect_keeps b) (scopes a) ++ intersect_budget a b in
  let expires_at :=
    match mandate_expires_at a, mandate_expires_at b with
    | Some x, Some y => Some (Z.min x y)
    | Some x, None => Some x
    | None, Some y => Some y
    | None, None => None
    end in
  mkMandate fresh_id (mandate_case_id a) (grantor a)
    (Z.max (mandate_policy_version a) (mandate_policy_version b)) scopes' now expires_at None
    (if origin a ==? origin b then origin a else CaseDelegated) None.

(** ** Floats *)

Lemma f64_le_trans a b c : f64_le a b = true → f64_le b c = true → f64_le a c = true.
Proof.
  unfold f64_le, SFleb, SFcompare. fold Pos.compare.
  destruct a as [[]|[]| |[] ma ea], b as [[]|[]| |[] mb eb], c as [[]|[]| |[] mc ec]; try done;
    change (Pos.compare_cont Eq) with Pos.compare;
    destruct (Z.compare_spec ea eb), (Z.compare_spec eb ec), (Z.compare_spec ea ec); subst;
    try done; try lia;
    destruct (Pos.compare_spec ma mb), (Pos.compare_spec mb mc), (Pos.compare_spec ma mc);
    subst; simpl; try done; lia.
Qed.

Lemma f64_min_le c a b :
  f64_is_nan a = false → f64_is_nan b = false → f64_le c (f64_min a b) = true →
  f64_le c a = true ∧ f64_le c b = true.
Proof.
  unfold f64_min. intros Ha Hb. rewrite Ha, Hb. destruct (SFltb b a) eqn:Hlt; intros Hc; split;
    try done; eapply f64_le_trans; try exact Hc; revert Ha Hb Hlt; unfold f64_le, SFltb, SFleb, SFcompare;
    destruct a as [[]|[]| |[] ma ea], b as [[]|[]| |[] mb eb]; try done;
    change (Pos.compare_cont Eq) with Pos.compare;
    destruct (Z.compare_spec ea eb), (Z.compare_spec eb ea); try done; try lia;
    destruct (Pos.compare_spec ma mb), (Pos.compare_spec mb ma); subst; simpl; try done; lia.
Qed.

(** ** What a mandate covers *)

(** Every dimension the request names is covered by a scope. *)
Definition request_covered (m : Mandate) (request : MandateRequest) : Prop :=
  (∀ x, req_repo request = Some x → repo_covered (scopes m) x = true) ∧
  (∀ x, req_branch request = Some x → branch_covered (scopes m) x = true) ∧
  (∀ x, req_path request = Some x → path_covered (scopes m) x = true) ∧
  (∀ x, req_tool request = Some x → tool_covered (scopes m) x = true) ∧
  (∀ x, req_action request = Some x → action_covered (scopes m) x = true) ∧
  (∀ x, req_tokens request = Some x → tokens_covered m x = true) ∧
  (∀ x, req_cost_usd request = Some x → cost_covered m x = true) ∧
  (∀ x, req_wall_secs request = Some x → wall_covered m x = true) ∧
  (∀ x, req_runs request = Some x → runs_covered (scopes m) x = true).

(** The mandate is neither withdrawn nor expired. *)
Definition in_force (m : Mandate) (now : Instant) : Prop :=
  revoked m = None ∧ ∀ at_, mandate_expires_at m = Some at_ → now < at_.

Lemma asks_allowed {A} (o : option A) c d k :
  (∀ x, d x ≠ Allowed) → asks o c d k = Allowed ↔ (∀ x, o = Some x → c x = true) ∧ k = Allowed.
Proof.
  intros Hd. destruct o as [x|]; simpl; [|naive_solver].
  destruct (c x) eqn:Hc; simpl; [naive_solver|].
  split; [by intros ?%Hd|]. intros [Hx _]. specialize (Hx x eq_refl). congruence.
Qed.

Section Facts.
Context `{F64Display}.

Lemma permits_scopes_allowed m request :
  permits_scopes m request = Allowed ↔ request_covered m request.
Proof. unfold permits_scopes, request_covered. by rewrite !asks_allowed; [naive_solver|..]. Qed.

Lemma permits_allowed m request now :
  permits m request now = Allowed ↔ in_force m now ∧ request_covered m request.
Proof.
  unfold permits, in_force. destruct (revoked m); [naive_solver|].
  destruct (mandate_expires_at m) as [at_|].
  - destruct (Z.leb_spec at_ now); rewrite ?permits_scopes_allowed; [|naive_solver].
    split; [done|]. intros [[_ Hx] _]. specialize (Hx at_ eq_refl). lia.
  - rewrite permits_scopes_allowed. naive_solver.
Qed.
End Facts.

(** Larger scopes cover more. *)
Lemma existsb_impl {A} (f g : A → bool) l l' :
  (∀ x, x ∈ l → f x = true → ∃ y, y ∈ l' ∧ g y = true) →
  existsb f l = true → existsb g l' = true.
Proof. rewrite !existsb_true. naive_solver. Qed.

(** ** Delegation *)

(** The pattern pairs and the budget on which the delegation check is exact: the
    patterns are of the shapes of [subsumes_exact], and the child names no budget
    dimension that its parent leaves out. *)
Definition exact_pair (p pattern : string) : bool :=
  implb (pattern_subsumes p pattern) (subsumes_exact p pattern).

Definition exact_scope (parent : Mandate) (s : MandateScope) : bool :=
  match s with
  | Repo pattern =>
      forallb (λ q, match q with Repo p => exact_pair p pattern | _ => true end) (scopes parent)
  | Branch pattern =>
      forallb (λ q, match q with Branch p => exact_pair p pattern | _ => true end) (scopes parent)
  | Path pattern =>
      forallb (λ q, match q with Path p => exact_pair p pattern | _ => true end) (scopes parent)
  | Budget t c w =>
      match budget_scope parent with
      | Some (Budget pt pc pw) =>
          match t, pt with Some _, None => false | _, _ => true end &&
          match c, pc with Some _, None => false | _, _ => true end &&
          match w, pw with Some _, None => false | _, _ => true end
      | _ => false
      end
  | _ => true
  end.

Definition exact_delegation (parent child : Mandate) : bool :=
  forallb (exact_scope parent) (scopes child).

Lemma exact_pair_covers p pattern value :
  exact_pair p pattern = true → pattern_subsumes p pattern = true →
  pattern_covers pattern value = true → pattern_covers p value = true.
Proof.
  unfold exact_pair. intros He Hs. rewrite Hs in He. rewrite !pattern_covers_iff.
  by apply pattern_subsumes_contained.
Qed.

Lemma forallb_elem {A} (f : A → bool) l x : forallb f l = true → x ∈ l → f x = true.
Proof. rewrite List.forallb_forall, list_elem_of_In. auto. Qed.

Section Delegation.
Context (parent child : Mandate).
Hypothesis Hcov : ∀ s, s ∈ scopes child → child_scope_covered parent s = true.
Hypothesis Hexact : exact_delegation parent child = true.

Lemma covered_scope s : s ∈ scopes child →
  child_scope_covered parent s = true ∧ exact_scope parent s = true.
Proof. intros Hs. split; [by apply Hcov|]. by eapply forallb_elem. Qed.

Ltac pattern_case :=
  apply existsb_impl; intros [] Hs Hp; try done;
  apply covered_scope in Hs as [Hc He]; simpl in Hc, He;
  apply existsb_true in Hc as ([] & Hq & Hc); try done;
  match type of Hc with pattern_subsumes ?p ?q = _ => eexists; split; [exact Hq|]; simpl;
    eapply exact_pair_covers; [|exact Hc|done]; by eapply forallb_elem in He; [|exact Hq] end.

Lemma child_repo_covered x : repo_covered (scopes child) x = true → repo_covered (scopes parent) x = true.
Proof. pattern_case. Qed.
Lemma child_branch_covered x :
  branch_covered (scopes child) x = true → branch_covered (scopes parent) x = true.
Proof. pattern_case. Qed.
Lemma child_path_covered x : path_covered (scopes child) x = true → path_covered (scopes parent) x = true.
Proof. pattern_case. Qed.

Lemma child_tool_covered x : tool_covered (scopes child) x = true → tool_covered (scopes parent) x = true.
Proof.
  apply existsb_impl. intros [] Hs Hp; try done. apply covered_scope in Hs as [Hc _].
  simpl in Hc. apply existsb_true in Hc as ([] & Hq & Hc); try done.
  eexists; split; [exact Hq|]. simpl. bool_hyps; subst; rewrite ?orb_true_iff, ?bool_decide_eq_true; auto.
Qed.

Lemma child_action_covered x :
  action_covered (scopes child) x = true → action_covered (scopes parent) x = true.
Proof.
  apply existsb_impl. intros [] Hs Hp; try done. apply covered_scope in Hs as [Hc _].
  simpl in Hc. apply existsb_true in Hc as ([] & Hq & Hc); try done.
  eexists; split; [exact Hq|]. simpl. bool_hyps; subst. by apply bool_decide_eq_true.
Qed.

Lemma child_runs_covered x : runs_covered (scopes child) x = true → runs_covered (scopes parent) x = true.
Proof.
  apply existsb_impl. intros [] Hs Hp; try done. apply covered_scope in Hs as [Hc _].
  simpl in Hc. apply existsb_true in Hc as ([] & Hq & Hc); try done.
  eexists; split; [exact Hq|]. simpl. bool_hyps. apply Z.leb_le. lia.
Qed.

Lemma child_budget t c w :
  budget_scope child = Some (Budget t c w) →
  ∃ pt pc pw, budget_scope parent = Some (Budget pt pc pw) ∧
    (∀ x, t = Some x → ∃ y, pt = Some y ∧ x <= y) ∧
    (∀ x, c = Some x → ∃ y, pc = Some y ∧ f64_le x (f64_add y f64_epsilon) = true) ∧
    (∀ x, w = Some x → ∃ y, pw = Some y ∧ x <= y).
Proof.
  intros [Hs _]%find_Some. apply covered_scope in Hs as [Hc He]. simpl in Hc, He.
  destruct (budget_scope parent) as [[| | | | |pt pc pw|]|]; try done. exists pt, pc, pw.
  split; [done|].
  apply andb_true_iff in Hc as [[Ht Hcc]%andb_true_iff Hw].
  apply andb_true_iff in He as [[Ht' Hcc']%andb_true_iff Hw'].
  split_and!; intros x ->; [destruct pt|destruct pc|destruct pw]; simpl in *; try done;
    bool_hyps; eauto.
Qed.

Lemma child_budget_None : budget_scope parent = None → budget_scope child = None.
Proof.
  intros Hp. destruct (budget_scope child) as [s|] eqn:E; [|done].
  pose proof E as [_ Hb]%find_Some. destruct s; try done.
  apply child_budget in E as (? & ? & ? & ? & _). congruence.
Qed.
End Delegation.

(** The ceiling on cost, and a request without the cost it names. *)
Definition cost_ceiling (m : Mandate) : option f64 :=
  match budget_scope m with Some (Budget _ c _) => c | _ => None end.
Definition without_cost (r : MandateRequest) : MandateRequest :=
  mkRequest (req_repo r) (req_branch r) (req_path r) (req_tool r) (req_action r) (req_tokens r) None
    (req_wall_secs r) (req_runs r).

Lemma cost_covered_ceiling m x :
  cost_covered m x = true ↔ ∃ c, cost_ceiling m = Some c ∧ f64_le x c = true.
Proof.
  unfold cost_covered, cost_ceiling. destruct (budget_scope m) as [[| | | | |? []|]|]; naive_solver.
Qed.

Lemma request_covered_cost m r :
  request_covered m r ↔
  request_covered m (without_cost r) ∧ ∀ x, req_cost_usd r = Some x → cost_covered m x = true.
Proof. unfold request_covered. simpl. naive_solver. Qed.

Lemma child_cost_covered parent child x :
  (∀ s, s ∈ scopes child → child_scope_covered parent s = true) →
  exact_delegation parent child = true → cost_covered child x = true →
  ∃ c p, cost_ceiling child = Some c ∧ cost_ceiling parent = Some p ∧
    f64_le x c = true ∧ f64_le c (f64_add p f64_epsilon) = true.
Proof.
  intros Hcov Hex (c & Hc & Hx)%cost_covered_ceiling. unfold cost_ceiling in *.
  destruct (budget_scope child) as [[| | | | |t ? w|]|] eqn:E; try done. subst.
  eapply child_budget in E as (? & ? & ? & -> & _ & Hb & _); try done.
  destruct (Hb _ eq_refl) as (p & -> & ?). by exists c, p.
Qed.

Lemma child_request_covered parent child request :
  (∀ s, s ∈ scopes child → child_scope_covered parent s = true) →
  exact_delegation parent child = true →
  request_covered child request → request_covered parent (without_cost request).
Proof.
  intros Hcov Hex (H1 & H2 & H3 & H4 & H5 & H6 & _ & H8 & H9). split_and!; simpl; intros x Hx.
  - by eapply child_repo_covered, H1.
  - by eapply child_branch_covered, H2.
  - by eapply child_path_covered, H3.
  - by eapply child_tool_covered, H4.
  - by eapply child_action_covered, H5.
  - specialize (H6 x Hx). unfold tokens_covered in *.
    destruct (budget_scope child) as [[| | | | |[]| ]|] eqn:E; try done.
    eapply child_budget in E as (? & ? & ? & -> & Hb & _); try done.
    destruct (Hb _ eq_refl) as (? & -> & ?). bool_hyps. apply Z.leb_le. lia.
  - done.
  - specialize (H8 x Hx). unfold wall_covered in *.
    destruct (budget_scope child) as [[| | | | |? ? []|]|] eqn:E; try done.
    eapply child_budget in E as (? & ? & ? & -> & _ & _ & Hb); try done.
    destruct (Hb _ eq_refl) as (? & -> & ?). bool_hyps. apply Z.leb_le. lia.
  - by eapply child_runs_covered, H9.
Qed.

Lemma validate_child_allowed `{F64Display} parent child now minimum :
  validate_child parent child now minimum = Allowed →
  in_force parent now ∧ origin child ≠ HumanIssued ∧
  mandate_policy_version parent <= mandate_policy_version child ∧
  (∀ v, minimum = Some v → v <= mandate_policy_version child) ∧
  (mandate_case_id child = mandate_case_id parent ∨
   delegated_from child = Some (mandate_id parent)) ∧
  (∀ b, mandate_expires_at parent = Some b → ∃ a, mandate_expires_at child = Some a ∧ a <= b) ∧
  ∀ s, s ∈ scopes child → child_scope_covered parent s = true.
Proof.
  unfold validate_child. intros Hv.
  destruct (permits parent MandateRequest_default now) eqn:Hp; [|done]. simpl in Hv.
  apply permits_allowed in Hp as [Hf _].
  destruct (origin child ==? HumanIssued) eqn:Ho; [done|].
  destruct (_ <? mandate_policy_version parent) eqn:Hver; [done|].
  destruct (match minimum with Some _ => _ | None => _ end) eqn:Hmin; [done|].
  destruct ((mandate_case_id child !=? _) && _) eqn:Hid; [done|].
  assert (validate_scopes parent child = Allowed ∧
          ∀ b, mandate_expires_at parent = Some b →
               ∃ a, mandate_expires_at child = Some a ∧ a <= b) as [Hs Hexp].
  { destruct (mandate_expires_at child) as [a|], (mandate_expires_at parent) as [b|]; try done.
    destruct (Z.ltb_spec b a); [done|]. naive_solver. }
  apply bool_decide_eq_false_1 in Ho. apply Z.ltb_ge in Hver. split_and!; try done.
  - intros v ->. by bool_hyps.
  - bool_hyps; auto.
  - unfold validate_scopes in Hs. destruct (find _ _) eqn:Hf'; [done|].
    intros s Hin. apply (proj1 (find_None _ _) Hf') in Hin. by bool_hyps.
Qed.

(** ** Intersection *)

Definition cost_not_nan (c : option f64) : bool :=
  match c with Some c => negb (f64_is_nan c) | None => true end.

(** Both mandates grant the same budget dimensions. *)
Definition same_dimensions (a b : Mandate) : bool :=
  match budget_scope a, budget_scope b with
  | Some (Budget a_t a_c a_w), Some (Budget b_t b_c b_w) =>
      (bool_decide (is_Some a_t) ==? bool_decide (is_Some b_t)) &&
      (bool_decide (is_Some a_c) ==? bool_decide (is_Some b_c)) &&
      (bool_decide (is_Some a_w) ==? bool_decide (is_Some b_w)) &&
      cost_not_nan a_c && cost_not_nan b_c
  | _, _ => true
  end.

Lemma intersect_budget_scope i a b now :
  budget_scope (intersect i a b now) = find is_budget (intersect_budget a b).
Proof.
  unfold budget_scope at 1, intersect. cbn [scopes]. rewrite find_app.
  destruct (find is_budget (filterb _ _)) as [s|] eqn:E; [|done].
  apply find_Some in E as [[_ Hk]%filterb_elem Hb]. by destruct s.
Qed.

Lemma intersect_elem i a b now s :
  s ∈ scopes (intersect i a b now) → is_budget s = false →
  s ∈ scopes a ∧ intersect_keeps b s = true.
Proof.
  unfold intersect. cbn [scopes]. intros [Hs|Hs]%elem_of_app Hb; [by apply filterb_elem|].
  unfold intersect_budget in Hs. repeat case_match; try by apply elem_of_nil in Hs.
  apply list_elem_of_singleton in Hs. by subst.
Qed.

Ltac intersect_case :=
  intros Hc; split; revert Hc; apply existsb_impl; intros [] Hs Hp; try done;
  apply intersect_elem in Hs as [Hs Hk]; try done; [by eauto|];
  simpl in Hk; apply existsb_true in Hk as ([] & Hq & Hk); try done;
  eexists; (split; [exact Hq|]); simpl; bool_hyps; subst; try done;
  rewrite ?orb_true_iff, ?bool_decide_eq_true, ?Z.leb_le; auto with lia.

Lemma intersect_repo i a b now x :
  repo_covered (scopes (intersect i a b now)) x = true →
  repo_covered (scopes a) x = true ∧ repo_covered (scopes b) x = true.
Proof. intersect_case. Qed.
Lemma intersect_branch i a b now x :
  branch_covered (scopes (intersect i a b now)) x = true →
  branch_covered (scopes a) x = true ∧ branch_covered (scopes b) x = true.
Proof. intersect_case. Qed.
Lemma intersect_path i a b now x :
  path_covered (scopes (intersect i a b now)) x = true →
  path_covered (scopes a) x = true ∧ path_covered (scopes b) x = true.
Proof. intersect_case. Qed.
Lemma intersect_tool i a b now x :
  tool_covered (scopes (intersect i a b now)) x = true →
  tool_covered (scopes a) x = true ∧ tool_covered (scopes b) x = true.
Proof. intersect_case. Qed.
Lemma intersect_action i a b now x :
  action_covered (scopes (intersect i a b now)) x = true →
  action_covered (scopes a) x = true ∧ action_covered (scopes b) x = true.
Proof. intersect_case. Qed.
Lemma intersect_runs i a b now x :
  runs_covered (scopes (intersect i a b now)) x = true →
  runs_covered (scopes a) x = true ∧ runs_covered (scopes b) x = true.
Proof. intersect_case. Qed.

Lemma intersect_budgets i a b now :
  same_dimensions a b = true →
  (∀ x, tokens_covered (intersect i a b now) x = true →
        tokens_covered a x = true ∧ tokens_covered b x = true) ∧
  (∀ x, cost_covered (intersect i a b now) x = true →
        cost_covered a x = true ∧ cost_covered b x = true) ∧
  (∀ x, wall_covered (intersect i a b now) x = true →
        wall_covered a x = true ∧ wall_covered b x = true).
Proof.
  unfold tokens_covered, cost_covered, wall_covered, same_dimensions, intersect_budget.
  rewrite intersect_budget_scope. unfold intersect_budget.
  destruct (budget_scope a) as [[| | | | |at_ ac aw|]|]; try done.
  destruct (budget_scope b) as [[| | | | |bt bc bw|]|]; try done. cbn. intros Hd.
  apply andb_true_iff in Hd as [[[[Ht Hc]%andb_true_iff Hw]%andb_true_iff Ha]%andb_true_iff Hb].
  split_and!; intros x Hx.
  - destruct at_, bt; try done. simpl in *. bool_hyps. rewrite !Z.leb_le. lia.
  - destruct ac, bc; try done. simpl in *. apply negb_true_iff in Ha, Hb. by apply f64_min_le.
  - destruct aw, bw; try done. simpl in *. bool_hyps. rewrite !Z.leb_le. lia.
Qed.

Lemma intersect_request_covered i a b now request :
  same_dimensions a b = true → request_covered (intersect i a b now) request →
  request_covered a request ∧ request_covered b request.
Proof.
  intros Hd (H1 & H2 & H3 & H4 & H5 & H6 & H7 & H8 & H9).
  destruct (intersect_budgets i a b now Hd) as (Bt & Bc & Bw).
  split; split_and!; intros x Hx.
  all: first [ by destruct (intersect_repo i a b now x (H1 x Hx))
             | by destruct (intersect_branch i a b now x (H2 x Hx))
             | by destruct (intersect_path i a b now x (H3 x Hx))
             | by destruct (intersect_tool i a b now x (H4 x Hx))
             | by destruct (intersect_action i a b now x (H5 x Hx))
             | by destruct (Bt x (H6 x Hx)) | by destruct (Bc x (H7 x Hx))
             | by destruct (Bw x (H8 x Hx)) | by destruct (intersect_runs i a b now x (H9 x Hx)) ].
Qed.

Ltac glob_scope :=
  rewrite existsb_true; split;
  [ intros ([] & Hs & Hp); try done; apply pattern_covers_iff in Hp; eauto
  | intros (p & Hs & Hp); eexists; (split; [exact Hs|]); by apply pattern_covers_iff ].

Lemma repo_covered_spec ss x :
  repo_covered ss x = true ↔ ∃ p, Repo p ∈ ss ∧ matches (chars p) (chars x).
Proof. unfold repo_covered. glob_scope. Qed.
Lemma branch_covered_spec ss x :
  branch_covered ss x = true ↔ ∃ p, Branch p ∈ ss ∧ matches (chars p) (chars x).
Proof. unfold branch_covered. glob_scope. Qed.
Lemma path_covered_spec ss x :
  path_covered ss x = true ↔ ∃ p, Path p ∈ ss ∧ matches (chars p) (chars x).
Proof. unfold path_covered. glob_scope. Qed.

Lemma tool_covered_spec ss x : tool_covered ss x = true ↔ Tool x ∈ ss ∨ Tool "*" ∈ ss.
Proof.
  unfold tool_covered. rewrite existsb_true. split.
  - intros ([] & Hs & Hp); try done. bool_hyps; subst; auto.
  - intros [Hs|Hs]; eexists; (split; [exact Hs|]); simpl.
    + by rewrite bool_decide_eq_true_2.
    + by rewrite orb_true_r.
Qed.

Lemma action_covered_spec ss x : action_covered ss x = true ↔ Action x ∈ ss.
Proof.
  unfold action_covered. rewrite existsb_true. split.
  - intros ([] & Hs & Hp); try done. by bool_hyps; subst.
  - intros Hs. exists (Action x). split; [done|]. by apply bool_decide_eq_true.
Qed.

Lemma runs_covered_spec ss x : runs_covered ss x = true ↔ ∃ n, MaxRuns n ∈ ss ∧ x <= n.
Proof.
  unfold runs_covered. rewrite existsb_true. split.
  - intros ([] & Hs & Hp); try done. bool_hyps. eauto.
  - intros (n & Hs & Hp). exists (MaxRuns n). split; [done|]. by apply Z.leb_le.
Qed.

(** The first budget scope of the mandate. *)
Definition granted_budget (m : Mandate) : option (option Z * option f64 * option Z) :=
  match budget_scope m with Some (Budget t c w) => Some (t, c, w) | _ => None end.

Lemma tokens_covered_spec m x : tokens_covered m x = true ↔
  ∃ t c w, granted_budget m = Some (Some t, c, w) ∧ x <= t.
Proof.
  unfold tokens_covered, granted_budget.
  destruct (budget_scope m) as [[| | | | |[]| ]|]; rewrite ?Z.leb_le; naive_solver.
Qed.
Lemma cost_covered_spec m x : cost_covered m x = true ↔
  ∃ t c w, granted_budget m = Some (t, Some c, w) ∧ f64_le x c = true.
Proof.
  unfold cost_covered, granted_budget.
  destruct (budget_scope m) as [[| | | | |? []|]|]; naive_solver.
Qed.
Lemma wall_covered_spec m x : wall_covered m x = true ↔
  ∃ t c w, granted_budget m = Some (t, c, Some w) ∧ x <= w.
Proof.
  unfold wall_covered, granted_budget.
  destruct (budget_scope m) as [[| | | | |? ? []|]|]; rewrite ?Z.leb_le; naive_solver.
Qed.

(** ** Properties *)

(** C9: a mandate authorizes a request exactly when it is neither withdrawn nor
    expired and every dimension the request names is covered by a scope of that
    kind (repositories, branches and paths by the glob language, tools by name
    or by the wildcard, actions by class, budgets by the first budget scope with
    that dimension present, runs by a ceiling); a dimension with no scope at all
    is denied, and withdrawal, then expiry, are reported before any scope. *)
Theorem permits_fail_closed `{F64Display} m request now :
  (permits m request now = Allowed ↔
    revoked m = None ∧ (∀ at_, mandate_expires_at m = Some at_ → now < at_) ∧
    (∀ x, req_repo request = Some x →
       ∃ p, Repo p ∈ scopes m ∧ matches (chars p) (chars x)) ∧
    (∀ x, req_branch request = Some x →
       ∃ p, Branch p ∈ scopes m ∧ matches (chars p) (chars x)) ∧
    (∀ x, req_path request = Some x →
       ∃ p, Path p ∈ scopes m ∧ matches (chars p) (chars x)) ∧
    (∀ x, req_tool request = Some x → Tool x ∈ scopes m ∨ Tool "*" ∈ scopes m) ∧
    (∀ x, req_action request = Some x → Action x ∈ scopes m) ∧
    (∀ x, req_tokens request = Some x →
       ∃ t c w, granted_budget m = Some (Some t, c, w) ∧ x <= t) ∧
    (∀ x, req_cost_usd request = Some x →
       ∃ t c w, granted_budget m = Some (t, Some c, w) ∧ f64_le x c = true) ∧
    (∀ x, req_wall_secs request = Some x →
       ∃ t c w, granted_budget m = Some (t, c, Some w) ∧ x <= w) ∧
    (∀ x, req_runs request = Some x → ∃ n, MaxRuns n ∈ scopes m ∧ x <= n)) ∧
  (∀ r, revoked m = Some r →
     permits m request now = Denied (Revoked (mandate_id m) (revocation_reason r))) ∧
  (∀ at_, revoked m = None → mandate_expires_at m = Some at_ → at_ <= now →
     permits m request now = Denied (Expired (mandate_id m) at_)).
Proof.
  split; [|split].
  - rewrite permits_allowed. unfold in_force, request_covered.
    setoid_rewrite repo_covered_spec. setoid_rewrite branch_covered_spec.
    setoid_rewrite path_covered_spec. setoid_rewrite tool_covered_spec.
    setoid_rewrite action_covered_spec. setoid_rewrite tokens_covered_spec.
    setoid_rewrite cost_covered_spec. setoid_rewrite wall_covered_spec.
    setoid_rewrite runs_covered_spec. tauto.
  - intros r Hr. unfold permits. by rewrite Hr.
  - intros at_ Hr Ha Hle. unfold permits. rewrite Hr, Ha. by apply Z.leb_le in Hle as ->.
Qed.

(** C10: a delegated mandate that passes the check never grants more than its
    parent, at any later time and for any request, as long as its patterns are
    of the shapes on which the containment test is exact and its budget names no
    dimension its parent leaves out: whatever the child permits, the parent
    permits, up to the cost; a cost the child permits is at most the parent's
    ceiling plus [f64::EPSILON], the tolerance of the check, and is permitted by
    the parent when the child's ceiling is not above the parent's.  The child can
    neither claim a human origin, nor an older policy generation, nor outlive its
    parent. *)
Theorem delegation_narrows `{F64Display} parent child now minimum :
  validate_child parent child now minimum = Allowed →
  exact_delegation parent child = true →
  (∀ request t, permits child request t = Allowed →
     permits parent (without_cost request) t = Allowed ∧
     (∀ cost, req_cost_usd request = Some cost →
        ∃ ceiling, cost_ceiling parent = Some ceiling ∧ f64_le cost (f64_add ceiling f64_epsilon) = true) ∧
     ((∀ c p, cost_ceiling child = Some c → cost_ceiling parent = Some p → f64_le c p = true) →
      permits parent request t = Allowed)) ∧
  origin child ≠ HumanIssued ∧
  mandate_policy_version parent <= mandate_policy_version child ∧
  (∀ b, mandate_expires_at parent = Some b → ∃ a, mandate_expires_at child = Some a ∧ a <= b).
Proof.
  intros (Hf & Ho & Hv & _ & _ & Hexp & Hcov)%validate_child_allowed Hex.
  split_and!; try done. intros request t. rewrite !permits_allowed. intros [[Hr Ha] Hc].
  assert (in_force parent t) as Hin.
  { destruct Hf as [Hr' _]. split; [done|]. intros b Hb. destruct (Hexp b Hb) as (a & Ha' & ?).
    specialize (Ha a Ha'). lia. }
  pose proof (child_request_covered _ _ _ Hcov Hex Hc) as Hp.
  apply request_covered_cost in Hc as [_ Hc].
  split_and!; try done.
  - intros x Hx. destruct (child_cost_covered _ _ _ Hcov Hex (Hc x Hx)) as (c & p & _ & ? & ? & ?).
    exists p. split; [done|]. by eapply f64_le_trans.
  - intros Hle. split; [done|]. apply request_covered_cost. split; [done|]. intros x Hx.
    destruct (child_cost_covered _ _ _ Hcov Hex (Hc x Hx)) as (c & p & Hcc & Hcp & Hxc & _).
    apply cost_covered_ceiling. exists p. split; [done|]. eapply f64_le_trans; [exact Hxc|by apply Hle].
Qed.

Definition witness_parent : Mandate :=
  Mandate_with_expiry
    (Mandate_new "m-1" "case-1" (Principal_user "ada") HumanIssued
      [Repo "acme/*"; Path "crates/**"; Tool "*"; Budget (Some 1000) None None; MaxRuns 3] 2 0) 100.
Definition witness_child : Mandate :=
  Mandate_with_expiry
    (Mandate_new "m-2" "case-1" (Principal_service "gw") CaseDelegated
      [Repo "acme/core"; Path "crates/uc-types/**"; Tool "Edit"; Budget (Some 10) None None;
       MaxRuns 1] 2 1) 50.
Definition witness_display : F64Display := {| f64_display := λ _, "0" |}.

Lemma delegation_narrows_witness :
  @permits witness_display witness_parent
    (mkRequest (Some "acme/core") None (Some "crates/uc-types/src/a.rs") (Some "Edit") None
       (Some 7) None None (Some 1)) 20 = Allowed.
Proof.
  destruct (@delegation_narrows witness_display witness_parent witness_child 5 (Some 2))
    as [Hn _]; [vm_compute; reflexivity|vm_compute; reflexivity|].
  eapply Hn; [vm_compute; reflexivity|done].
Defined.

(** The tolerance is real: under a parent whose ceiling is nothing, a child with a ceiling of
    [f64::EPSILON] is accepted and permits a cost its parent refuses. *)
Theorem delegation_rounds_cost `{F64Display} now :
  let parent := Mandate_new "p" "c" (Principal_user "ada") HumanIssued
                  [Budget None (Some (S754_zero false)) None] 1 now in
  let child := Mandate_new "k" "c" (Principal_service "gw") CaseDelegated
                 [Budget None (Some f64_epsilon) None] 1 now in
  let request := mkRequest None None None None None None (Some f64_epsilon) None None in
  validate_child parent child now None = Allowed ∧ permits child request now = Allowed ∧
  is_Some (MandateDecision_denial (permits parent request now)).
Proof. repeat split. by eexists. Qed.

(** Without the proviso on the dimensions the check does widen: a parent whose budget scope
    omits tokens denies every token request, and yet a child that asks for a
    million tokens is accepted and permits them. *)
Theorem delegation_widens_budget `{F64Display} now :
  let parent := Mandate_new "p" "c" (Principal_user "ada") HumanIssued
                  [Budget None None (Some 60)] 1 now in
  let child := Mandate_new "k" "c" (Principal_service "gw") CaseDelegated
                 [Budget (Some 1000000) None (Some 60)] 1 now in
  let request := mkRequest None None None None None (Some 1000000) None None None in
  (∀ n, is_Some (MandateDecision_denial
     (permits parent (mkRequest None None None None None (Some n) None None None) now))) ∧
  validate_child parent child now None = Allowed ∧ permits child request now = Allowed.
Proof. repeat split. by eexists. Qed.

(** The intersection of two mandates in force that grant the same budget
    dimensions authorizes nothing that either of them refuses. *)
Theorem intersect_narrows `{F64Display} i a b now request t :
  revoked a = None → revoked b = None → same_dimensions a b = true →
  permits (intersect i a b now) request t = Allowed →
  permits a request t = Allowed ∧ permits b request t = Allowed.
Proof.
  intros Ha Hb Hd. rewrite !permits_allowed. intros [[_ Hexp] Hc].
  apply intersect_request_covered in Hc as [Hca Hcb]; [|done].
  unfold intersect in Hexp. cbn in Hexp.
  split; (split; [|done]); (split; [done|]); intros at_ Hat; rewrite Hat in Hexp.
  - destruct (mandate_expires_at b); specialize (Hexp _ eq_refl); lia.
  - destruct (mandate_expires_at a); specialize (Hexp _ eq_refl); lia.
Qed.

Lemma intersect_narrows_witness :
  @permits witness_display witness_parent
    (mkRequest None None None (Some "Edit") None (Some 7) None None (Some 1)) 20 = Allowed.
Proof.
  apply (@intersect_narrows witness_display "m-3" witness_parent
    (Mandate_new "m-4" "case-1" (Principal_user "bob") HumanIssued
       [Tool "*"; Budget (Some 20) None None; MaxRuns 5] 1 0) 10); vm_compute; reflexivity.
Defined.

(** Without those provisos the intersection does grant more than its inputs:
    a withdrawn mandate intersected with itself is in force again, and a token
    budget granted by one side only survives. *)
Theorem intersect_widens `{F64Display} now :
  let m := Mandate_new "a" "c" (Principal_user "ada") HumanIssued
             [Tool "Edit"; Budget None None None] 1 now in
  let w := revoke m (Principal_user "ada") "withdrawn" now in
  let n := Mandate_new "b" "c" (Principal_user "ada") HumanIssued
             [Tool "Edit"; Budget (Some 10) None None] 1 now in
  let tokens := mkRequest None None None None None (Some 10) None None None in
  (permits w (MandateRequest_tool "Edit") now = Denied (Revoked "a" "withdrawn") ∧
   permits (intersect "i" w w now) (MandateRequest_tool "Edit") now = Allowed) ∧
  (is_Some (MandateDecision_denial (permits m tokens now)) ∧
   permits (intersect "i" m n now) tokens now = Allowed).
Proof. repeat split. by eexists. Qed.

(** Withdrawal is final and attributed to the first one who withdrew: a second
    withdrawal changes nothing, every later request is refused with the first
    reason whatever the clock says, and nothing can be delegated any more. *)
Theorem revocation_final `{F64Display} m by_ reason at_ by' reason' at' request t child minimum :
  let w := revoke m by_ reason at_ in
  revoke w by' reason' at' = w ∧
  permits w request t =
    Denied (Revoked (mandate_id m) (default reason (revocation_reason <$> revoked m))) ∧
  validate_child w child t minimum = permits w request t.
Proof.
  unfold revoke, validate_child, permits. destruct (revoked m) as [r|] eqn:E; simpl; by rewrite ?E.
Qed.
