(* ===== verification/WorkCase.v ===== *)
(** * Work cases: the long-running unit of governed work

    [uc-types/src/governance/workcase.rs].  The status machine, the run history
    and the operations on a case.  A method that takes [&mut self] returns the
    new case next to its result, on error paths too.  Run ids are the fresh
    UUIDs of [RunId::new], an argument here; [u32] sums wrap as in a release
    build. *)

From Stdlib Require Import String.
From S2P Require Import Prelude RustStr.

(** ** Status *)

Definition CASE_NAMESPACE : string := "work_case".
Definition MAX_RUN_HISTORY : nat := 64.

Inductive CaseStatus : Type :=
| Open | Active | WaitingEvent | NeedsHuman | Blocked | Verifying
| Completed | Failed | Cancelled.
#[export] Instance CaseStatus_eq_dec : EqDecision CaseStatus.
Proof. solve_decision. Defined.

Definition CaseStatus_as_str (s : CaseStatus) : string :=
  match s with
  | Open => "open"
  | Active => "active"
  | WaitingEvent => "waiting_event"
  | NeedsHuman => "needs_human"
  | Blocked => "blocked"
  | Verifying => "verifying"
  | Completed => "completed"
  | Failed => "failed"
  | Cancelled => "cancelled"
  end.

Definition CaseStatus_from_str_lossy (value : string) : option CaseStatus :=
  let v := to_ascii_lowercase (trim value) in
  if v ==? "open" then Some Open
  else if v ==? "active" then Some Active
  else if v ==? "waiting_event" then Some WaitingEvent
  else if v ==? "needs_human" then Some NeedsHuman
  else if v ==? "blocked" then Some Blocked
  else if v ==? "verifying" then Some Verifying
  else if v ==? "completed" then Some Completed
  else if v ==? "failed" then Some Failed
  else if (v ==? "cancelled") || (v ==? "canceled") then Some Cancelled
  else None.

Definition is_terminal (s : CaseStatus) : bool :=
  match s with Completed | Failed | Cancelled => true | _ => false end.

Definition is_quiescent (s : CaseStatus) : bool :=
  match s with WaitingEvent | NeedsHuman | Blocked | Verifying => true | _ => false end.

Definition can_transition_to (s next : CaseStatus) : bool :=
  if is_terminal s then false
  else if s ==? next then true
  else match s, next with
       | Open, Active => true
       | Open, Blocked => true
       | Open, NeedsHuman => true
       | Open, Cancelled => true
       | Open, Failed => true
       | Active, WaitingEvent => true
       | Active, NeedsHuman => true
       | Active, Blocked => true
       | Active, Verifying => true
       | Active, Completed => false
       | Active, Failed => true
       | Active, Cancelled => true
       | WaitingEvent, Active => true
       | WaitingEvent, NeedsHuman => true
       | WaitingEvent, Blocked => true
       | WaitingEvent, Verifying => true
       | WaitingEvent, Cancelled => true
       | WaitingEvent, Failed => true
       | NeedsHuman, Active => true
       | NeedsHuman, Blocked => true
       | NeedsHuman, Cancelled => true
       | NeedsHuman, Failed => true
       | Blocked, Active => true
       | Blocked, NeedsHuman => true
       | Blocked, WaitingEvent => true
       | Blocked, Cancelled => true
       | Blocked, Failed => true
       | Verifying, Completed => true
       | Verifying, Failed => true
       | Verifying, Active => true
       | Verifying, NeedsHuman => true
       | Verifying, Cancelled => true
       | _, _ => false
       end.

(** ** Identity and origin *)

(** [CaseId::from_parts]: the deterministic id of a thread. *)
Definition CaseId_from_parts `{Sha256} (source external_ref : string) : string :=
  "case-" +:+ prefix_slice 32 (sha256_hex ("case:" +:+ source +:+ ":" +:+ external_ref)).

Record CaseOrigin : Type := mkOrigin {
  origin_source : string;
  origin_external_ref : option string;
  origin_thread_key : option string;
  origin_trigger_id : option string
}.

Definition CaseOrigin_manual : CaseOrigin := mkOrigin "manual" None None None.

Definition CaseOrigin_from_trigger (source : string) (thread_key trigger_id : option string)
    : CaseOrigin := mkOrigin source thread_key thread_key trigger_id.

(** ** Runs *)

Inductive CaseRunOutcome : Type := RunSucceeded | RunFailed | RunCancelled | RunSuperseded.
#[export] Instance CaseRunOutcome_eq_dec : EqDecision CaseRunOutcome.
Proof. solve_decision. Defined.

Record CaseRun : Type := mkRun {
  run_id : string;
  run_task_id : string;
  attempt : Z;
  run_submission_id : option string;
  started_at : Instant;
  ended_at : option Instant;
  outcome : option CaseRunOutcome;
  run_detail : option string
}.

Definition CaseRun_open (fresh_id task_id : string) (n : Z) (now : Instant) : CaseRun :=
  mkRun fresh_id task_id n None now None None None.

Definition run_is_open (r : CaseRun) : bool :=
  match outcome r with None => true | Some _ => false end.

Definition CaseRun_finish (r : CaseRun) (o : CaseRunOutcome) (detail : option string)
    (now : Instant) : CaseRun :=
  match outcome r with
  | Some _ => r
  | None => mkRun (run_id r) (run_task_id r) (attempt r) (run_submission_id r) (started_at r)
                  (Some now) (Some o) detail
  end.

Definition run_with_submission (r : CaseRun) (s : option string) : CaseRun :=
  mkRun (run_id r) (run_task_id r) (attempt r) s (started_at r) (ended_at r) (outcome r)
        (run_detail r).

(** ** Cases *)

(** [Json] is [serde_json::Value], opaque here as in the source. *)
Record WorkCase (Json : Type) : Type := mkCase {
  case_id : string;
  title : string;
  description : string;
  project_id : string;
  status : CaseStatus;
  case_origin : CaseOrigin;
  contract_digest : option string;
  completion_conditions : option Json;
  case_mandate_id : option string;
  subscriptions : list string;
  runs : list CaseRun;
  compacted_runs : Z;
  case_priority : Z;
  labels : list string;
  created_at : Instant;
  updated_at : Instant;
  case_version : Z
}.
Arguments mkCase {Json} _ _ _ _ _ _ _ _ _ _ _ _ _ _ _ _ _.
Arguments case_id {Json} _.
Arguments title {Json} _.
Arguments description {Json} _.
Arguments project_id {Json} _.
Arguments status {Json} _.
Arguments case_origin {Json} _.
Arguments contract_digest {Json} _.
Arguments completion_conditions {Json} _.
Arguments case_mandate_id {Json} _.
Arguments subscriptions {Json} _.
Arguments runs {Json} _.
Arguments compacted_runs {Json} _.
Arguments case_priority {Json} _.
Arguments labels {Json} _.
Arguments created_at {Json} _.
Arguments updated_at {Json} _.
Arguments case_version {Json} _.

Inductive CaseTransitionError : Type :=
| Illegal (from to : CaseStatus)
| Terminal (s : CaseStatus)
| Quiescent (s : CaseStatus)
| RunAlreadyOpen
| RunAlreadyFinished
| UnknownRun
| NoMandate.
#[export] Instance CaseTransitionError_eq_dec : EqDecision CaseTransitionError.
Proof. solve_decision. Defined.

Definition CaseTransitionError_display (e : CaseTransitionError) : string :=
  match e with
  | Illegal from to =>
      "illegal case transition " +:+ CaseStatus_as_str from +:+ " -> " +:+ CaseStatus_as_str to
  | Terminal s => "case is terminal (" +:+ CaseStatus_as_str s +:+ ")"
  | Quiescent s => "case is quiescent (" +:+ CaseStatus_as_str s +:+ ") and may not start a run"
  | RunAlreadyOpen => "case already has an open run"
  | RunAlreadyFinished => "run is already finished"
  | UnknownRun => "unknown run id"
  | NoMandate => "case has no mandate and may not execute"
  end.

Definition MAX_PRIORITY : Z := 9.
Definition u32_wrapping_add (a b : Z) : Z := (a + b) `mod` 2 ^ 32.

Section Cases.
Context {Json : Type}.
Notation WorkCase := (WorkCase Json).
Implicit Types (c : WorkCase).

Definition WorkCase_new (fresh_id title' description' project_id' : string) (origin' : CaseOrigin)
    (now : Instant) : WorkCase :=
  mkCase fresh_id title' description' project_id' Open origin' None None None [] [] 0 0 [] now now 0.

(** Assignments to the fields the methods change. *)
Definition set_status c (s : CaseStatus) : WorkCase :=
  mkCase (case_id c) (title c) (description c) (project_id c) s (case_origin c)
    (contract_digest c) (completion_conditions c) (case_mandate_id c) (subscriptions c) (runs c)
    (compacted_runs c) (case_priority c) (labels c) (created_at c) (updated_at c) (case_version c).
Definition set_runs c (rs : list CaseRun) (compacted : Z) : WorkCase :=
  mkCase (case_id c) (title c) (description c) (project_id c) (status c) (case_origin c)
    (contract_digest c) (completion_conditions c) (case_mandate_id c) (subscriptions c) rs
    compacted (case_priority c) (labels c) (created_at c) (updated_at c) (case_version c).
Definition set_updated_at c (now : Instant) : WorkCase :=
  mkCase (case_id c) (title c) (description c) (project_id c) (status c) (case_origin c)
    (contract_digest c) (completion_conditions c) (case_mandate_id c) (subscriptions c) (runs c)
    (compacted_runs c) (case_priority c) (labels c) (created_at c) now (case_version c).
Definition set_subscriptions c (l : list string) : WorkCase :=
  mkCase (case_id c) (title c) (description c) (project_id c) (status c) (case_origin c)
    (contract_digest c) (completion_conditions c) (case_mandate_id c) l (runs c)
    (compacted_runs c) (case_priority c) (labels c) (created_at c) (updated_at c) (case_version c).
Definition set_mandate_id c (m : option string) : WorkCase :=
  mkCase (case_id c) (title c) (description c) (project_id c) (status c) (case_origin c)
    (contract_digest c) (completion_conditions c) m (subscriptions c) (runs c)
    (compacted_runs c) (case_priority c) (labels c) (created_at c) (updated_at c) (case_version c).
Definition set_version c (v : Z) : WorkCase :=
  mkCase (case_id c) (title c) (description c) (project_id c) (status c) (case_origin c)
    (contract_digest c) (completion_conditions c) (case_mandate_id c) (subscriptions c) (runs c)
    (compacted_runs c) (case_priority c) (labels c) (created_at c) (updated_at c) v.

Definition WorkCase_with_id c (i : string) : WorkCase :=
  mkCase i (title c) (description c) (project_id c) (status c) (case_origin c)
    (contract_digest c) (completion_conditions c) (case_mandate_id c) (subscriptions c) (runs c)
    (compacted_runs c) (case_priority c) (labels c) (created_at c) (updated_at c) (case_version c).

Definition with_contract_digest c (d : string) : WorkCase :=
  mkCase (case_id c) (title c) (description c) (project_id c) (status c) (case_origin c)
    (Some d) (completion_conditions c) (case_mandate_id c) (subscriptions c) (runs c)
    (compacted_runs c) (case_priority c) (labels c) (created_at c) (updated_at c) (case_version c).

Definition set_priority c (p : Z) : WorkCase :=
  mkCase (case_id c) (title c) (description c) (project_id c) (status c) (case_origin c)
    (contract_digest c) (completion_conditions c) (case_mandate_id c) (subscriptions c) (runs c)
    (compacted_runs c) (Z.min p MAX_PRIORITY) (labels c) (created_at c) (updated_at c)
    (case_version c).

Definition active_run c : option CaseRun := find run_is_open (runs c).

Definition next_attempt c : Z :=
  u32_wrapping_add (u32_wrapping_add (compacted_runs c) (Z.of_nat (length (runs c)) `mod` 2 ^ 32)) 1.

(** The loop of [compact_runs]: the list is shortened by one at each turn. *)
Fixpoint compact_loop (rs : list CaseRun) (compacted : Z) : list CaseRun * Z :=
  match rs with
  | [] => ([], compacted)
  | removed :: rs' =>
      if (MAX_RUN_HISTORY <? length rs)%nat then
        if run_is_open removed then (rs, compacted)
        else compact_loop rs' (u32_wrapping_add compacted 1)
      else (rs, compacted)
  end.

Definition compact_runs c : WorkCase :=
  let '(rs, n) := compact_loop (runs c) (compacted_runs c) in set_runs c rs n.

Definition open_run c (fresh_id task_id : string) (submission_id : option string) (now : Instant)
    : result string CaseTransitionError * WorkCase :=
  if is_terminal (status c) then (Err (Terminal (status c)), c)
  else if is_quiescent (status c) then (Err (Quiescent (status c)), c)
  else if bool_decide (is_Some (active_run c)) then (Err RunAlreadyOpen, c)
  else if bool_decide (case_mandate_id c = None) then (Err NoMandate, c)
  else
    let run := run_with_submission (CaseRun_open fresh_id task_id (next_attempt c) now)
                 submission_id in
    let c' := compact_runs (set_runs c (runs c ++ [run]) (compacted_runs c)) in
    (Ok (run_id run), set_updated_at c' now).

Definition transition c (next : CaseStatus) (now : Instant)
    : result unit CaseTransitionError * WorkCase :=
  if negb (can_transition_to (status c) next) then (Err (Illegal (status c) next), c)
  else (Ok tt, set_updated_at (set_status c next) now).

(** [iter_mut().find(p)] followed by an update of the element found. *)
Fixpoint update_first {A} (p : A → bool) (f : A → A) (l : list A) : list A :=
  match l with
  | [] => []
  | x :: l' => if p x then f x :: l' else x :: update_first p f l'
  end.

Definition status_after (o : CaseRunOutcome) : CaseStatus :=
  match o with
  | RunSucceeded => Verifying
  | RunFailed => Active
  | RunCancelled => Cancelled
  | RunSuperseded => Active
  end.

Definition finish_run c (rid : string) (o : CaseRunOutcome) (detail : option string)
    (now : Instant) : result unit CaseTransitionError * WorkCase :=
  match find (λ r, run_id r ==? rid) (runs c) with
  | None => (Err UnknownRun, c)
  | Some run =>
      if negb (run_is_open run) then (Err RunAlreadyFinished, c)
      else
        let c1 := set_runs c
          (update_first (λ r, run_id r ==? rid) (λ r, CaseRun_finish r o detail now) (runs c))
          (compacted_runs c) in
        match transition c1 (status_after o) now with
        | (Err e, c2) => (Err e, c2)
        | (Ok _, c2) => (Ok tt, set_updated_at c2 now)
        end
  end.

Definition attach_subscription c (i : string) : WorkCase :=
  if existsb (λ s, s ==? i) (subscriptions c) then c
  else set_subscriptions c (subscriptions c ++ [i]).
End Cases.

(** ** The invariant of a case *)

Section Invariant.
Context {Json : Type}.
Notation WorkCase := (WorkCase Json).
Implicit Types (c : WorkCase).

(** The history is bounded, numbered without gaps (modulo the width of the
    counter), its run ids are distinct, only its last run can be open, a run has
    an end exactly when it has an outcome; priority is bounded and
    subscriptions are distinct.  [case_core] leaves out the run ids, whose
    distinctness rests on the freshness of UUIDs. *)
Record case_core c : Prop := {
  wf_bounded : (length (runs c) <= MAX_RUN_HISTORY)%nat;
  wf_numbered : ∀ i r, runs c !! i = Some r →
    attempt r = (compacted_runs c + Z.of_nat i + 1) `mod` 2 ^ 32;
  wf_last_open : ∀ i r, runs c !! i = Some r → run_is_open r = true →
    Datatypes.S i = length (runs c);
  wf_ended : ∀ r, r ∈ runs c → outcome r = None ↔ ended_at r = None;
  wf_priority : 0 <= case_priority c <= MAX_PRIORITY;
  wf_subscriptions : NoDup (subscriptions c)
}.

Definition case_wf c : Prop := case_core c ∧ NoDup (run_id <$> runs c).

Lemma case_core_ext c c' :
  runs c' = runs c → compacted_runs c' = compacted_runs c → case_priority c' = case_priority c →
  subscriptions c' = subscriptions c → case_core c → case_core c'.
Proof. intros E1 E2 E3 E4 [? ? ? ? ? ?]. by split; rewrite ?E1, ?E2, ?E3, ?E4. Qed.

Lemma case_wf_ext c c' :
  runs c' = runs c → compacted_runs c' = compacted_runs c → case_priority c' = case_priority c →
  subscriptions c' = subscriptions c → case_wf c → case_wf c'.
Proof. intros E1 E2 E3 E4 [Hc Hi]. split; [by eapply case_core_ext|by rewrite E1]. Qed.

(** One turn of the compaction loop is enough when the history is at most one
    over its bound and its oldest run is finished. *)
Lemma compact_loop_spec rs n :
  (length rs <= Datatypes.S MAX_RUN_HISTORY)%nat →
  (∀ r, head rs = Some r → (1 < length rs)%nat → run_is_open r = false) →
  compact_loop rs n =
  if (MAX_RUN_HISTORY <? length rs)%nat then (tail rs, u32_wrapping_add n 1) else (rs, n).
Proof.
  intros Hlen Hhd. destruct rs as [|r rs]; [done|]. cbn [compact_loop tail].
  destruct (Nat.ltb_spec MAX_RUN_HISTORY (length (r :: rs))) as [Hlt|]; [|done].
  rewrite (Hhd r) by (done || (unfold MAX_RUN_HISTORY in *; lia)).
  destruct rs as [|r' rs]; [done|]. cbn [compact_loop].
  destruct (Nat.ltb_spec MAX_RUN_HISTORY (length (r' :: rs))); [|done].
  simpl in *. unfold MAX_RUN_HISTORY in *. lia.
Qed.

Lemma update_first_length {A} (p : A → bool) f l : length (update_first p f l) = length l.
Proof. induction l as [|x l IH]; simpl; [done|]. destruct (p x); simpl; by rewrite ?IH. Qed.

Lemma update_first_lookup {A} (p : A → bool) f l i x :
  update_first p f l !! i = Some x →
  ∃ y, l !! i = Some y ∧ (x = y ∨ (x = f y ∧ p y = true)).
Proof.
  revert i. induction l as [|z l IH]; intros i Hx; simpl in *; [done|].
  destruct (p z) eqn:E, i as [|i]; simplify_eq/=; eauto 6.
Qed.

Lemma update_first_fmap {A B} (g : A → B) (p : A → bool) f l :
  (∀ x, g (f x) = g x) → g <$> update_first p f l = g <$> l.
Proof.
  intros Hg. induction l as [|x l IH]; [done|]. simpl. destruct (p x); csimpl; by rewrite ?Hg, ?IH.
Qed.

Lemma wf_head_finished c r f :
  case_core c → active_run c = None → head (runs c ++ [r]) = Some f →
  (1 < length (runs c ++ [r]))%nat → run_is_open f = false.
Proof.
  intros Hwf Ha Hh Hl. destruct (runs c) as [|x l] eqn:E; simpl in *; [lia|]. simplify_eq.
  apply (proj1 (find_None _ _) Ha). rewrite E. left.
Qed.

Lemma mod_shift a b i :
  ((a + b) `mod` 2 ^ 32 + i) `mod` 2 ^ 32 = (a + b + i) `mod` 2 ^ 32.
Proof. apply Zplus_mod_idemp_l. Qed.

(** The result of an accepted [open_run]. *)
Lemma open_run_ok c f t s now rid c' :
  case_core c → open_run c f t s now = (Ok rid, c') →
  is_terminal (status c) = false ∧ is_quiescent (status c) = false ∧ active_run c = None ∧
  case_mandate_id c ≠ None ∧ rid = f ∧ status c' = status c ∧
  ∃ run, run_id run = f ∧ run_task_id run = t ∧ run_submission_id run = s ∧
    run_is_open run = true ∧ ended_at run = None ∧
    attempt run = (compacted_runs c + Z.of_nat (length (runs c)) + 1) `mod` 2 ^ 32 ∧
    c' = set_updated_at (set_runs c
           (if (length (runs c) =? MAX_RUN_HISTORY)%nat then tail (runs c) ++ [run]
            else runs c ++ [run])
           (if (length (runs c) =? MAX_RUN_HISTORY)%nat
            then u32_wrapping_add (compacted_runs c) 1 else compacted_runs c)) now.
Proof.
  intros Hwf. unfold open_run. destruct (is_terminal _); [done|].
  destruct (is_quiescent _); [done|]. case_bool_decide as Ha; [done|].
  case_bool_decide as Hm; [done|]. apply eq_None_not_Some in Ha. intros Heq.
  injection Heq as Hrid Hc'. unfold compact_runs in Hc'. cbn [runs set_runs compacted_runs] in Hc'.
  rewrite compact_loop_spec in Hc'.
  2: { rewrite length_app. simpl. pose proof (wf_bounded c Hwf). lia. }
  2: { intros r. by apply wf_head_finished. }
  subst rid. split_and!; try done.
  { subst c'. by destruct (_ <? _)%nat. }
  exists (run_with_submission (CaseRun_open f t (next_attempt c) now) s).
  split_and!; try done.
  - cbn. unfold next_attempt, u32_wrapping_add. pose proof (wf_bounded c Hwf) as Hb.
    unfold MAX_RUN_HISTORY in Hb. rewrite (Z.mod_small (Z.of_nat _)) by lia. apply mod_shift.
  - subst c'. rewrite length_app. cbn [length]. pose proof (wf_bounded c Hwf) as Hb.
    destruct (Nat.ltb_spec MAX_RUN_HISTORY (length (runs c) + 1)),
      (Nat.eqb_spec (length (runs c)) MAX_RUN_HISTORY); try lia; [|done].
    destruct (runs c) as [|x l]; [|done]. simpl in *. unfold MAX_RUN_HISTORY in *. lia.
Qed.

(** Appending a fresh open run to a finished history, dropping the oldest run or
    not, keeps the invariant. *)
Lemma append_core c (k : nat) run n' now :
  case_core c → active_run c = None → (k <= length (runs c))%nat →
  (length (runs c) - k < MAX_RUN_HISTORY)%nat →
  n' = (compacted_runs c + Z.of_nat k) `mod` 2 ^ 32 ∨ (k = 0%nat ∧ n' = compacted_runs c) →
  outcome run = None → ended_at run = None →
  attempt run = (compacted_runs c + Z.of_nat (length (runs c)) + 1) `mod` 2 ^ 32 →
  case_core (set_updated_at (set_runs c (drop k (runs c) ++ [run]) n') now).
Proof.
  intros Hwf Ha Hk Hlen Hn Ho He Hat. pose proof Hwf as [Hb Hnum Hlast Hend Hp Hs].
  assert (∀ i, (n' + Z.of_nat i + 1) `mod` 2 ^ 32 =
               (compacted_runs c + Z.of_nat (k + i) + 1) `mod` 2 ^ 32) as Hshift.
  { intros i. destruct Hn as [->|[-> ->]]; [|done].
    rewrite <-Z.add_assoc, mod_shift. f_equal. lia. }
  split; cbn; try done.
  - rewrite length_app, length_drop. simpl. lia.
  - intros i r [Hr|[Hi Hr]]%lookup_app_Some.
    + rewrite lookup_drop in Hr. rewrite Hshift. by apply Hnum.
    + rewrite length_drop in Hi, Hr. apply list_lookup_singleton_Some in Hr as [Hi0 <-].
      rewrite Hshift, Hat. f_equal. lia.
  - intros i r [Hr|[Hi Hr]]%lookup_app_Some Hopen.
    + rewrite lookup_drop in Hr. apply list_elem_of_lookup_2 in Hr.
      apply (proj1 (find_None _ _) Ha) in Hr. congruence.
    + apply list_lookup_singleton_Some in Hr as [Hi0 _]. rewrite length_app. simpl. lia.
  - intros r [Hr|Hr]%elem_of_app.
    + apply Hend. eapply elem_of_sublist; [done|apply sublist_drop].
    + apply list_elem_of_singleton in Hr as ->. by rewrite Ho, He.
Qed.

Lemma open_run_core c f t s now : case_core c → case_core (open_run c f t s now).2.
Proof.
  intros Hwf. destruct (open_run c f t s now) as [[rid|e] c'] eqn:E; simpl.
  - apply open_run_ok in E as (_ & _ & Ha & _ & -> & _ & run & Hid & _ & _ & Ho & He & Hat & ->);
      [|done].
    assert (outcome run = None) by (revert Ho; unfold run_is_open; by destruct (outcome run)).
    pose proof (wf_bounded c Hwf) as Hb.
    destruct (Nat.eqb_spec (length (runs c)) MAX_RUN_HISTORY) as [Hl|Hl].
    + change (tail (runs c)) with (drop 1 (runs c)).
      apply append_core; try done; unfold MAX_RUN_HISTORY in *; [lia|lia|]. by left.
    + apply (append_core c 0); try done; unfold MAX_RUN_HISTORY in *; [lia|lia|]. by right.
  - unfold open_run in E. repeat case_match; simplify_eq; done.
Qed.

Lemma open_run_ids c f t s now :
  case_core c → f ∉ (run_id <$> runs c) → NoDup (run_id <$> runs c) →
  NoDup (run_id <$> runs (open_run c f t s now).2).
Proof.
  intros Hwf Hf Hids. destruct (open_run c f t s now) as [[rid|e] c'] eqn:E; simpl.
  - apply open_run_ok in E as (_ & _ & _ & _ & _ & _ & run & Hid & _ & _ & _ & _ & _ & ->); [|done].
    assert (∀ k, NoDup (run_id <$> drop k (runs c) ++ [run])) as Hd.
    { intros k. rewrite fmap_app, fmap_drop. apply NoDup_app. split_and!.
      - eapply sublist_NoDup; [exact Hids|apply sublist_drop].
      - intros x Hx ->%list_elem_of_singleton. apply Hf. rewrite <-Hid.
        eapply elem_of_sublist; [done|apply sublist_drop].
      - apply NoDup_singleton. }
    cbn. destruct (_ =? _)%nat; [apply (Hd 1%nat)|apply (Hd 0%nat)].
  - unfold open_run in E. repeat case_match; simplify_eq; done.
Qed.

Lemma open_run_wf c f t s now :
  case_wf c → f ∉ (run_id <$> runs c) → case_wf (open_run c f t s now).2.
Proof. intros [Hc Hi] Hf. split; [by apply open_run_core|by apply open_run_ids]. Qed.

Lemma transition_core c next now : case_core c → case_core (transition c next now).2.
Proof. unfold transition. destruct (can_transition_to _ _); simpl; by apply case_core_ext. Qed.

Lemma transition_wf c next now : case_wf c → case_wf (transition c next now).2.
Proof. unfold transition. destruct (can_transition_to _ _); simpl; by apply case_wf_ext. Qed.

Lemma finish_run_core c rid o d now : case_core c → case_core (finish_run c rid o d now).2.
Proof.
  intros Hwf. unfold finish_run. destruct (find _ _) as [run|] eqn:Hf; [|done].
  destruct (run_is_open run) eqn:Hopen; [|done]. simpl.
  set (rs := update_first _ _ _).
  assert (case_core (set_runs c rs (compacted_runs c))) as Hwf1.
  { destruct Hwf as [Hb Hnum Hlast Hend Hp Hs]. subst rs. split; cbn; try done.
    - by rewrite update_first_length.
    - intros i r (y & Hy & [->|[-> _]])%update_first_lookup; [by apply Hnum|].
      unfold CaseRun_finish. destruct (outcome y); cbn; by apply Hnum.
    - intros i r (y & Hy & [->|[-> _]])%update_first_lookup; rewrite update_first_length;
        [by apply Hlast|]. unfold CaseRun_finish. destruct (outcome y) eqn:Ey; [|done].
      unfold run_is_open. by rewrite Ey.
    - intros r [i (y & Hy & [->|[-> _]])%update_first_lookup]%list_elem_of_lookup;
        apply list_elem_of_lookup_2 in Hy; [by apply Hend|].
      unfold CaseRun_finish. destruct (outcome y) eqn:Ey; [|done]. by apply Hend. }
  pose proof (transition_core _ (status_after o) now Hwf1) as Hwf2.
  destruct (transition _ _ _) as [[|] c2]; simpl in *; [|done].
  by eapply case_core_ext; [..|exact Hwf2].
Qed.

Lemma finish_run_ids c rid o d now :
  run_id <$> runs (finish_run c rid o d now).2 = run_id <$> runs c.
Proof.
  unfold finish_run, transition. destruct (find _ _); [|done]. destruct (run_is_open _); [|done].
  cbn. destruct (can_transition_to _ _); cbn; apply update_first_fmap; intros x;
    unfold CaseRun_finish; by destruct (outcome x).
Qed.

Lemma finish_run_wf c rid o d now : case_wf c → case_wf (finish_run c rid o d now).2.
Proof. intros [Hc Hi]. split; [by apply finish_run_core|by rewrite finish_run_ids]. Qed.

Lemma attach_subscription_core c i : case_core c → case_core (attach_subscription c i).
Proof.
  intros Hwf. unfold attach_subscription. destruct (existsb _ _) eqn:E; [done|].
  destruct Hwf as [? ? ? ? ? Hs]. split; try done. cbn. apply NoDup_app.
  split_and!; [done| |apply NoDup_singleton]. intros x Hx ->%list_elem_of_singleton.
  eapply existsb_false in E; [|exact Hx]. by bool_hyps.
Qed.

Lemma attach_subscription_wf c i : case_wf c → case_wf (attach_subscription c i).
Proof.
  intros [Hc Hi]. split; [by apply attach_subscription_core|].
  unfold attach_subscription. by destruct (existsb _ _).
Qed.

Lemma set_priority_core c p : 0 <= p → case_core c → case_core (set_priority c p).
Proof. intros Hp [? ? ? ? ? ?]. split; try done. cbn. unfold MAX_PRIORITY. lia. Qed.

Lemma set_priority_wf c p : 0 <= p → case_wf c → case_wf (set_priority c p).
Proof. intros Hp [Hc Hi]. split; [by apply set_priority_core|done]. Qed.

Lemma WorkCase_new_wf i t d p o now : case_wf (WorkCase_new i t d p o now).
Proof.
  split; [|apply NoDup_nil_2].
  split; cbn; unfold MAX_RUN_HISTORY, MAX_PRIORITY; try lia; try apply NoDup_nil_2; try done.
  set_solver.
Qed.

(** ** Histories of a case *)

(** [case_reach n c]: [c] results from a new case by the methods, [n] of its
    [open_run] calls having been accepted.  [reach_field] covers the stores'
    direct assignments of the mandate and the version. *)
Inductive case_reach : nat → WorkCase → Prop :=
| reach_new i t d p o now : case_reach 0 (WorkCase_new i t d p o now)
| reach_open n c f t s now :
    case_reach n c → f ∉ (run_id <$> runs c) →
    case_reach (if is_ok (open_run c f t s now).1 then Datatypes.S n else n)
               (open_run c f t s now).2
| reach_finish n c rid o d now : case_reach n c → case_reach n (finish_run c rid o d now).2
| reach_transition n c next now : case_reach n c → case_reach n (transition c next now).2
| reach_attach n c i : case_reach n c → case_reach n (attach_subscription c i)
| reach_priority n c p : 0 <= p → case_reach n c → case_reach n (set_priority c p)
| reach_field n c m v : case_reach n c → case_reach n (set_version (set_mandate_id c m) v).

Lemma case_reach_wf n c : case_reach n c → case_wf c.
Proof.
  induction 1; eauto using WorkCase_new_wf, open_run_wf, finish_run_wf, transition_wf,
    attach_subscription_wf, set_priority_wf.
  match goal with H : case_wf ?c |- _ => by apply (case_wf_ext c) end.
Qed.

Lemma finish_run_counts c rid o d now :
  length (runs (finish_run c rid o d now).2) = length (runs c) ∧
  compacted_runs (finish_run c rid o d now).2 = compacted_runs c.
Proof.
  unfold finish_run, transition. destruct (find _ _); [|done]. destruct (run_is_open _); [|done].
  simpl. destruct (can_transition_to _ _); simpl; by rewrite update_first_length.
Qed.

(** The runs kept and the runs compacted add up to the runs opened, as long as
    the counter does not wrap. *)
Lemma case_reach_count n c :
  case_reach n c → Z.of_nat n < 2 ^ 32 →
  0 <= compacted_runs c ∧ compacted_runs c + Z.of_nat (length (runs c)) = Z.of_nat n.
Proof.
  induction 1 as [| n c f t s now Hr IH Hf|n c rid o d now Hr IH|n c next now Hr IH|n c i Hr IH
    |n c p Hp Hr IH|n c m v Hr IH]; try done.
  - destruct (open_run c f t s now) as [[rid|e] c'] eqn:E; cbn [fst snd is_ok]; intros Hn.
    + apply open_run_ok in E as (_ & _ & _ & _ & _ & _ & run & _ & _ & _ & _ & _ & _ & ->);
        [|by eapply case_reach_wf].
      destruct IH as [IH1 IH2]; [lia|].
      cbn. destruct (Nat.eqb_spec (length (runs c)) MAX_RUN_HISTORY) as [Hl|Hl].
      * rewrite length_app. destruct (runs c) as [|x l]; [done|]. unfold u32_wrapping_add.
        simpl in *. rewrite Z.mod_small; lia.
      * rewrite length_app. simpl. lia.
    + unfold open_run in E. repeat case_match; simplify_eq; auto.
  - by destruct (finish_run_counts c rid o d now) as [-> ->].
  - unfold transition. by destruct (can_transition_to _ _).
  - unfold attach_subscription. by destruct (existsb _ _).
Qed.

(** ** Steps of the status machine *)

(** One call of a method. *)
Inductive case_step : WorkCase → WorkCase → Prop :=
| step_open_run c f t s now : case_step c (open_run c f t s now).2
| step_finish_run c rid o d now : case_step c (finish_run c rid o d now).2
| step_transition c next now : case_step c (transition c next now).2
| step_attach c i : case_step c (attach_subscription c i)
| step_priority c p : case_step c (set_priority c p)
| step_field c m v : case_step c (set_version (set_mandate_id c m) v).

Lemma case_step_status c c' :
  case_step c c' → status c' = status c ∨ can_transition_to (status c) (status c') = true.
Proof.
  destruct 1 as [c f t s now|c rid o d now|c next now|c i| |]; try by left.
  - unfold open_run, compact_runs. repeat case_match; by left.
  - unfold finish_run, transition. destruct (find _ _); [|by left].
    destruct (run_is_open _); [|by left]. simpl.
    destruct (can_transition_to (status c) (status_after o)) eqn:E; simpl; [by right|by left].
  - unfold transition. destruct (can_transition_to _ _) eqn:E; simpl; [by right|by left].
  - unfold attach_subscription. destruct (existsb _ _); by left.
Qed.

Lemma completed_from s : can_transition_to s Completed = true → s = Verifying.
Proof. by destruct s. Qed.

Lemma terminal_stuck s s' : is_terminal s = true → can_transition_to s s' = false.
Proof. unfold can_transition_to. by intros ->. Qed.

(** The open run is the last one, and [finish_run] finds it by its id. *)
Lemma wf_split c r :
  case_core c → active_run c = Some r →
  runs c = removelast (runs c) ++ [r] ∧ Forall (λ x, run_is_open x = false) (removelast (runs c)).
Proof.
  intros Hwf [[i Hi]%list_elem_of_lookup Ho]%find_Some.
  pose proof (wf_last_open c Hwf i r Hi Ho) as Hl.
  destruct (runs c) as [|x l _] eqn:E using rev_ind; [done|].
  rewrite removelast_last. rewrite length_app in Hl. simpl in Hl.
  assert (i = length l) as -> by lia. rewrite lookup_app_r in Hi by lia.
  rewrite Nat.sub_diag in Hi. simplify_eq/=. split; [done|]. apply Forall_forall.
  intros y [j Hj]%list_elem_of_lookup. destruct (run_is_open y) eqn:Hy; [|done].
  pose proof (lookup_lt_Some _ _ _ Hj). assert ((l ++ [r]) !! j = Some y) as Hj'.
  { by rewrite lookup_app_l. }
  rewrite <-E in Hj'. pose proof (wf_last_open c Hwf j y Hj' Hy) as Hl'.
  rewrite E, length_app in Hl'. simpl in Hl'. lia.
Qed.

Lemma update_first_last {A} (p : A → bool) f l x :
  (∀ y, y ∈ l → p y = false) → p x = true →
  update_first p f (l ++ [x]) = l ++ [f x] ∧ find p (l ++ [x]) = Some x.
Proof.
  intros Hl Hx. induction l as [|y l IH]; simpl; [by rewrite Hx|].
  rewrite Hl by left. destruct IH as [-> ->]; [|done]. intros z Hz. apply Hl. by right.
Qed.

Lemma wf_active c r :
  case_wf c → active_run c = Some r →
  find (λ x, run_id x ==? run_id r) (runs c) = Some r ∧
  ∀ o d now, update_first (λ x, run_id x ==? run_id r) (λ x, CaseRun_finish x o d now) (runs c) =
             removelast (runs c) ++ [CaseRun_finish r o d now].
Proof.
  intros [Hwf Hids] Ha. destruct (wf_split c r Hwf Ha) as [Hs _]. rewrite Hs, fmap_app in Hids.
  apply NoDup_app in Hids as (_ & Hne & _).
  assert (∀ y, y ∈ removelast (runs c) → (run_id y ==? run_id r) = false) as Hl.
  { intros y Hy. apply bool_decide_eq_false. intros Heq.
    apply (Hne (run_id r)); [|left]. rewrite <-Heq. by apply list_elem_of_fmap_2. }
  rewrite Hs at 1. split; [|intros o d now; rewrite Hs at 1].
  - apply (update_first_last (λ x, run_id x ==? run_id r) id); [done|].
    by apply bool_decide_eq_true.
  - apply (update_first_last (λ x, run_id x ==? run_id r)); [done|]. by apply bool_decide_eq_true.
Qed.

Lemma wf_none_open c r o d now :
  case_core c → active_run c = Some r →
  find run_is_open (removelast (runs c) ++ [CaseRun_finish r o d now]) = None.
Proof.
  intros Hwf Ha. destruct (wf_split c r Hwf Ha) as [_ Hf]. apply find_None.
  intros x [Hx|Hx]%elem_of_app; [by apply (proj1 (Forall_forall _ _) Hf)|].
  apply list_elem_of_singleton in Hx as ->. apply find_Some in Ha as [_ Ho].
  unfold CaseRun_finish, run_is_open in *. by destruct (outcome r).
Qed.

(** ** Properties *)

(** Every history of a case keeps its invariant: at most 64 retained runs, at
    most one open run and it is the newest, distinct run ids, an end time exactly
    on the finished runs, a bounded priority and distinct subscriptions; and
    while the 32-bit counter has not wrapped, the [i]-th retained run is the
    attempt number it should be, compacted runs included, so the newest run is
    attempt [n] after [n] accepted openings. *)
Theorem case_history_invariant n c :
  case_reach n c →
  (length (runs c) <= 64)%nat ∧
  (∀ r1 r2, r1 ∈ runs c → r2 ∈ runs c → run_is_open r1 = true → run_is_open r2 = true → r1 = r2) ∧
  (∀ r, active_run c = Some r → last (runs c) = Some r) ∧
  NoDup (run_id <$> runs c) ∧
  (∀ r, r ∈ runs c → outcome r = None ↔ ended_at r = None) ∧
  0 <= case_priority c <= 9 ∧ NoDup (subscriptions c) ∧
  (Z.of_nat n < 2 ^ 32 → ∀ i r, runs c !! i = Some r →
     attempt r = Z.of_nat n - Z.of_nat (length (runs c)) + Z.of_nat i + 1).
Proof.
  intros Hr. pose proof (case_reach_wf n c Hr) as [[Hb Hnum Hlast Hend Hp Hs] Hids].
  unfold MAX_PRIORITY in Hp. split_and!; try done; try lia.
  - intros r1 r2 [i1 H1]%list_elem_of_lookup [i2 H2]%list_elem_of_lookup Ho1 Ho2.
    pose proof (Hlast _ _ H1 Ho1). pose proof (Hlast _ _ H2 Ho2).
    assert (i1 = i2) as -> by lia. congruence.
  - intros r [[i Hi]%list_elem_of_lookup Ho]%find_Some.
    rewrite last_lookup. by rewrite <-(Hlast _ _ Hi Ho).
  - intros Hn i r Hi. destruct (case_reach_count n c Hr Hn) as [H0 Hc].
    rewrite (Hnum i r Hi). pose proof (lookup_lt_Some _ _ _ Hi). rewrite Z.mod_small; lia.
Qed.

(** A case only ever completes out of verification, and a terminal status is
    final: along any sequence of calls a case that ends up [Completed] was
    [Verifying] (or already [Completed]) at some point, and no call changes the
    status of a completed, failed or cancelled case. *)
Theorem completion_is_verified c c' :
  rtc case_step c c' →
  (status c' = Completed → status c = Completed ∨
     ∃ v, rtc case_step c v ∧ rtc case_step v c' ∧ status v = Verifying) ∧
  (is_terminal (status c) = true → status c' = status c).
Proof.
  intros Hsteps. split.
  - induction Hsteps as [c|c c1 c2 Hs Hr IH]; [by left|]. intros Hc.
    destruct (IH Hc) as [Hc1|(v & H1 & H2 & Hv)].
    + destruct (case_step_status _ _ Hs) as [He|Ht]; [left; congruence|].
      rewrite Hc1 in Ht. right. exists c. split_and!; [done|by eapply rtc_l|].
      by apply completed_from.
    + right. exists v. split_and!; [by eapply rtc_l|done|done].
  - induction Hsteps as [c|c c1 c2 Hs Hr IH]; [done|]. intros Ht.
    destruct (case_step_status _ _ Hs) as [He|Ht']; [|by rewrite terminal_stuck in Ht'].
    rewrite <-He. apply IH. by rewrite He.
Qed.

(** A run is opened exactly when the case is [Open] or [Active], has no open
    run and carries a mandate; every refusal names the first failed condition
    and leaves the case as it was. *)
Theorem open_run_exact c f t s now :
  case_core c →
  match open_run c f t s now with
  | (Ok rid, c') =>
      rid = f ∧ (status c = Open ∨ status c = Active) ∧ active_run c = None ∧
      is_Some (case_mandate_id c) ∧ status c' = status c ∧ updated_at c' = now ∧
      ∃ run, last (runs c') = Some run ∧ run_id run = f ∧ run_task_id run = t ∧
             run_submission_id run = s ∧ run_is_open run = true
  | (Err e, c') =>
      c' = c ∧
      e = (if is_terminal (status c) then Terminal (status c)
           else if is_quiescent (status c) then Quiescent (status c)
           else if bool_decide (is_Some (active_run c)) then RunAlreadyOpen else NoMandate) ∧
      (status c = Open ∨ status c = Active → active_run c = None → case_mandate_id c = None)
  end.
Proof.
  intros Hwf. destruct (open_run c f t s now) as [[rid|e] c'] eqn:E.
  - apply open_run_ok in E as (Ht & Hq & Ha & Hm & -> & Hst & run & H1 & H2 & H3 & H4 & _ & _ & ->);
      [|done].
    split_and!; try done.
    + destruct (status c); auto; done.
    + by apply not_eq_None_Some.
    + exists run. split_and!; try done. cbn. destruct (_ =? _)%nat; by rewrite last_snoc.
  - unfold open_run in E.
    destruct (is_terminal (status c)) eqn:Ht; simplify_eq.
    { split_and!; try done. intros [Hs|Hs]; by rewrite Hs in Ht. }
    destruct (is_quiescent (status c)) eqn:Hq; simplify_eq.
    { split_and!; try done. intros [Hs|Hs]; by rewrite Hs in Hq. }
    case_bool_decide as Ha; simplify_eq.
    { split_and!; try done. intros _ Hn. rewrite Hn in Ha. by destruct Ha. }
    case_bool_decide as Hm; simplify_eq. done.
Qed.

(** Finishing the open run [r] succeeds exactly when the status machine can
    take the status the outcome calls for, and then the run carries the outcome
    and the case that status.  Otherwise the call fails, but the run has been
    marked finished in the case it was called on. *)
Theorem finish_run_effect c r o d now :
  case_wf c → active_run c = Some r →
  match finish_run c (run_id r) o d now with
  | (Ok _, c') =>
      can_transition_to (status c) (status_after o) = true ∧ status c' = status_after o ∧
      runs c' = removelast (runs c) ++ [CaseRun_finish r o d now] ∧ active_run c' = None
  | (Err e, c') =>
      can_transition_to (status c) (status_after o) = false ∧
      e = Illegal (status c) (status_after o) ∧ status c' = status c ∧
      runs c' = removelast (runs c) ++ [CaseRun_finish r o d now] ∧ active_run c' = None
  end.
Proof.
  intros Hwf Ha. pose proof Ha as [[i Hi]%list_elem_of_lookup Ho]%find_Some.
  destruct (wf_active c r Hwf Ha) as [Hf Hu]. unfold finish_run. rewrite Hf, Ho. cbn [negb].
  unfold transition. cbn [status set_runs]. rewrite (Hu o d now).
  assert (find run_is_open (removelast (runs c) ++ [CaseRun_finish r o d now]) = None) as Hn
    by (apply wf_none_open; [apply Hwf|done]).
  destruct (can_transition_to (status c) (status_after o)) eqn:E; cbn; split_and!; done.
Qed.
End Invariant.

Definition witness_active : WorkCase unit :=
  (transition (set_version (set_mandate_id
     (WorkCase_new "c-1" "fix" "fix the build" "proj" CaseOrigin_manual 0) (Some "m-1")) 1)
     Active 1).2.
Definition witness_case : WorkCase unit := (open_run witness_active "r-1" "t-1" None 2).2.
Definition witness_failed : WorkCase unit := (finish_run witness_case "r-1" RunFailed None 3).2.
Definition witness_case_2 : WorkCase unit :=
  (open_run witness_failed "r-2" "t-2" (Some "s-2") 4).2.

Lemma witness_case_reach : case_reach 1 witness_case.
Proof.
  assert (case_reach 0 witness_active) as Ha by apply reach_transition, reach_field, reach_new.
  apply (reach_open 0 witness_active "r-1" "t-1" None 2 Ha). vm_compute. set_solver.
Qed.

Lemma witness_case_2_reach : case_reach 2 witness_case_2.
Proof.
  assert (case_reach 1 witness_failed) as Ha by apply reach_finish, witness_case_reach.
  apply (reach_open 1 witness_failed "r-2" "t-2" (Some "s-2") 4 Ha). vm_compute. set_solver.
Qed.

Lemma case_history_invariant_witness :
  attempt <$> runs witness_case_2 = [1; 2] ∧ NoDup (run_id <$> runs witness_case_2).
Proof.
  split; [reflexivity|]. by apply (case_history_invariant 2 witness_case_2 witness_case_2_reach).
Defined.

Lemma completion_is_verified_witness :
  ∃ v : WorkCase unit, status v = Verifying.
Proof.
  set (c' := (transition (finish_run witness_case "r-1" RunSucceeded None 3).2 Completed 4).2).
  destruct (completion_is_verified witness_case c') as [Hv _].
  - eapply rtc_l; [apply (step_finish_run _ "r-1" RunSucceeded None 3)|].
    eapply rtc_l; [apply (step_transition _ Completed 4)|]. apply rtc_refl.
  - destruct Hv as [Hv|(v & _ & _ & Hv)]; [vm_compute; reflexivity|vm_compute in Hv; discriminate|].
    by exists v.
Defined.

Lemma open_run_exact_witness : (open_run witness_case "r-9" "t-9" None 9).2 = witness_case.
Proof.
  pose proof (open_run_exact witness_case "r-9" "t-9" None 9
    (proj1 (case_reach_wf _ _ witness_case_reach))) as Hx.
  destruct (open_run witness_case "r-9" "t-9" None 9) as [[rid|e] c'] eqn:E.
  - vm_compute in E. discriminate.
  - exact (proj1 Hx).
Defined.

Lemma finish_run_effect_witness :
  ∃ r, active_run witness_case = Some r ∧
       status (finish_run witness_case (run_id r) RunSucceeded None 3).2 = Verifying.
Proof.
  eexists. split; [vm_compute; reflexivity|].
  pose proof (finish_run_effect witness_case _ RunSucceeded None 3
    (case_reach_wf _ _ witness_case_reach) eq_refl) as Hx.
  destruct (finish_run witness_case _ RunSucceeded None 3) as [[u|e] c'] eqn:E.
  - exact (proj1 (proj2 Hx)).
  - vm_compute in E. discriminate.
Defined.
