(* ===== verification/Protocol.v ===== *)
(** * Document protocols

    Every store of the governance plane keeps one kind of document in one
    namespace, under a key the document carries, and changes it only by moves:
    create it, or replace it by compare-and-swap.  A protocol is that discipline
    as a relation: [init] says which documents may be created and [move] how one
    may be replaced.  Programs that follow the protocol are proved once against
    it (rules [wp_create], [wp_replace], [wp_doc_list]) and the consequences for
    every interleaving follow from the protocol alone: an invariant of the
    documents ([docs_rtc]), creation happens once per key ([created_once]), and a
    final state is entered once per key ([final_once]). *)

From Stdlib Require Import String.
From S2P Require Import Prelude RustStr Store Prog Concurrency.

Section Protocol.
Context {S Value T : Type} {St : RecordStore S Value} {StOk : RecordStoreOk S Value}
        {Sd : Serde Value T}.
Context (ns : string) (key_of : T → string) (init : T → Prop) (move : T → T → Prop).

Definition proto_owned (n : string) : bool := n ==? ns.

(** The writes the protocol allows in its namespace; the others are free. *)
Definition proto_allowed (k : string * string) (old : option (Z * Value)) (new : Value) : Prop :=
  k.1 = ns →
  ∃ x', from_value new = Ok x' ∧ key_of x' = k.2 ∧
    match old with
    | None => init x'
    | Some (_, val) => ∃ x, from_value val = Ok x ∧ move x x'
    end.

Notation interfere := (interfere proto_owned proto_allowed).
Notation wp := (wp proto_owned proto_allowed).

Lemma proto_owned_true n : proto_owned n = true ↔ n = ns.
Proof. apply bool_decide_eq_true. Qed.

Lemma proto_owned_ns : proto_owned ns = true.
Proof. by apply proto_owned_true. Qed.

(** An invariant of the log and the contents of the namespace. *)
Lemma proto_invariant (I : astate Value → Prop) :
  (∀ i k val' x' σ, I σ → from_value val' = Ok x' → key_of x' = k →
     match σ.1 !! (ns, k) with
     | None => init x'
     | Some (_, val) => ∃ x, from_value val = Ok x ∧ move x x'
     end → I (write i (ns, k) val' σ)) →
  (∀ i k x σ, k.1 ≠ ns → I σ → I (write i k x σ)) →
  (∀ m h m', (∀ k, m' !! (ns, k) = m !! (ns, k)) → I (m, h) → I (m', h)) →
  ∀ σ σ', rtc interfere σ σ' → I σ → I σ'.
Proof.
  intros Hw Ho Hf σ σ' Hr. induction Hr as [|σ σ1 σ2 Hi _ IH]; [done|]. intros HI. apply IH.
  destruct Hi as [i [n k] x σ Ha|m h m' Hm].
  - destruct (decide (n = ns)) as [->|Hn]; [|by apply Ho].
    destruct (Ha eq_refl) as (x' & Hx' & Hk & Hold). simpl in Hk. subst k. by eapply Hw.
  - apply (Hf m); [|done]. intros k. apply Hm. apply proto_owned_ns.
Qed.

(** ** The documents *)

(** Versions start at 1, a document sits under its own key, and [P] holds. *)
Definition docs (P : T → Prop) (σ : astate Value) : Prop :=
  ∀ k v val, σ.1 !! (ns, k) = Some (v, val) →
    1 <= v ∧ ∀ x, from_value val = Ok x → key_of x = k ∧ P x.

(** [P] holds at creation and moves keep it. *)
Definition preserved (P : T → Prop) : Prop :=
  (∀ x, init x → P x) ∧ ∀ x x', move x x' → P x → P x'.

Lemma write_other {i k k' : _} (x : Value) (σ : astate Value) :
  k ≠ k' → (write i k x σ).1 !! k' = σ.1 !! k'.
Proof. intros Hk. simpl. by rewrite lookup_insert_ne. Qed.

Lemma write_same i k (x : Value) (σ : astate Value) :
  (write i k x σ).1 !! k = Some (next_version (σ.1 !! k), x).
Proof. simpl. by rewrite lookup_insert_eq. Qed.

Lemma docs_rtc P σ σ' : preserved P → rtc interfere σ σ' → docs P σ → docs P σ'.
Proof.
  intros [Hinit Hmove] Hr. revert Hr. apply proto_invariant.
  - intros i k val' x' σ1 HI Hx' Hk Hold k' v val. destruct (decide (k' = k)) as [->|Hne].
    + rewrite write_same. intros [= <- <-]. split.
      * destruct (σ1.1 !! (ns, k)) as [[w y]|] eqn:E; simpl; [|done].
        destruct (HI _ _ _ E). lia.
      * intros x Hx. assert (x = x') as -> by congruence. split; [done|].
        destruct (σ1.1 !! (ns, k)) as [[w y]|] eqn:E; [|by apply Hinit].
        destruct Hold as (x & Hy & Hm). apply (Hmove x); [done|]. by apply (HI _ _ _ E).
    + rewrite write_other by congruence. apply HI.
  - intros i k x σ1 Hk HI k' v val. rewrite write_other; [apply HI|]. by intros ->.
  - intros m h m' Hm HI k v val. simpl. rewrite Hm. apply HI.
Qed.

(** ** Events *)

Definition event_at (k : string) (e : event Value) : Prop := ev_key e = (ns, k).

(** Creation happens once: the key stays bound afterwards. *)
Lemma created_once σ σ' :
  σ.2 = [] → rtc interfere σ σ' →
  ∀ k e1 e2, e1 ∈ σ'.2 → e2 ∈ σ'.2 → event_at k e1 → event_at k e2 →
    ev_old e1 = None → ev_old e2 = None → e1 = e2.
Proof.
  intros Hnil Hr.
  set (I := λ τ : astate Value, ∀ k e1, e1 ∈ τ.2 → event_at k e1 → is_Some (τ.1 !! (ns, k)) ∧
    ∀ e2, e2 ∈ τ.2 → event_at k e2 → ev_old e1 = None → ev_old e2 = None → e1 = e2).
  enough (I σ') as HI.
  { intros k e1 e2 H1 H2 K1 K2. by apply (HI k e1 H1 K1). }
  refine (proto_invariant I _ _ _ σ σ' Hr _); subst I; cbv beta.
  - intros i k val' x' τ HI _ _ _ k' e1 H1 K1.
    assert (∀ e, e ∈ τ.2 → event_at k e → is_Some (τ.1 !! (ns, k))) as Hs
      by (intros e He Ke; by apply (HI k e)).
    simpl in H1. apply elem_of_app in H1 as [H1|H1%list_elem_of_singleton].
    + destruct (HI k' e1 H1 K1) as [Hk' He]. split.
      * destruct (decide (k = k')) as [->|]; [rewrite write_same; eauto|].
        by rewrite write_other by congruence.
      * intros e2 [H2|H2%list_elem_of_singleton]%elem_of_app K2 O1 O2; [by apply He|].
        subst e2. unfold event_at in K2. simpl in *. simplify_eq. destruct (Hs e1 H1 K1). congruence.
    + subst e1. unfold event_at in K1. simpl in K1. simplify_eq. split; [rewrite write_same; eauto|].
      intros e2 [H2|H2%list_elem_of_singleton]%elem_of_app K2 O1 O2; [|by subst e2].
      simpl in O1. destruct (Hs e2 H2 K2). congruence.
  - intros i k x τ Hk HI k' e1 H1 K1. rewrite write_other by (by intros ->).
    simpl in H1. apply elem_of_app in H1 as [H1|H1%list_elem_of_singleton].
    2: { subst. unfold event_at in K1. simpl in K1. by subst k. }
    destruct (HI k' e1 H1 K1) as [Hs He]. split; [done|].
    intros e2 [H2|H2%list_elem_of_singleton]%elem_of_app K2; [by apply He|].
    subst e2. unfold event_at in K2. simpl in K2. by subst k.
  - intros m h m' Hm HI k' e1 H1 K1. simpl in *. rewrite Hm. by apply HI.
  - intros k e1 H1. rewrite Hnil in H1. by apply elem_of_nil in H1.
Qed.

(** A state no move leaves is entered at most once per key. *)
Lemma final_once (fin : T → bool) σ σ' :
  (∀ x x', move x x' → fin x = false) → σ.2 = [] → rtc interfere σ σ' →
  ∀ k e1 e2 x1 x2, e1 ∈ σ'.2 → e2 ∈ σ'.2 → event_at k e1 → event_at k e2 →
    from_value (ev_new e1) = Ok x1 → from_value (ev_new e2) = Ok x2 →
    fin x1 = true → fin x2 = true → e1 = e2.
Proof.
  intros Hfin Hnil Hr.
  set (fe := λ e : event Value, ∃ x, from_value (ev_new e) = Ok x ∧ fin x = true).
  set (I := λ τ : astate Value, ∀ k e1, e1 ∈ τ.2 → event_at k e1 → fe e1 →
    (∃ v val x, τ.1 !! (ns, k) = Some (v, val) ∧ from_value val = Ok x ∧ fin x = true) ∧
    ∀ e2, e2 ∈ τ.2 → event_at k e2 → fe e2 → e1 = e2).
  enough (I σ') as HI.
  { intros k e1 e2 x1 x2 H1 H2 K1 K2 X1 X2 F1 F2. apply (HI k e1 H1 K1); [|done|done|]; by eexists. }
  refine (proto_invariant I _ _ _ σ σ' Hr _); subst I; cbv beta.
  - intros i k val' x' τ HI Hx' _ Hold k' e1 H1 K1 F1.
    assert (∀ e, e ∈ τ.2 → event_at k e → fe e → False) as Hno.
    { intros e He Ke Fe. destruct (HI k e He Ke Fe) as [(v & val & x & E & Hx & F) _].
      rewrite E in Hold. destruct Hold as (y & Hy & Hm). apply Hfin in Hm. congruence. }
    simpl in H1. apply elem_of_app in H1 as [H1|H1%list_elem_of_singleton].
    + destruct (decide (k = k')) as [->|Hne]; [by destruct (Hno e1)|].
      destruct (HI k' e1 H1 K1 F1) as [Hk' He].
      split; [by rewrite write_other by congruence|].
      intros e2 [H2|H2%list_elem_of_singleton]%elem_of_app K2 F2; [by apply He|].
      subst e2. unfold event_at in K2. simpl in K2. congruence.
    + subst e1. unfold event_at in K1. simpl in K1. simplify_eq. split.
      * rewrite write_same. destruct F1 as (x & Hx & F). eauto 10.
      * intros e2 [H2|H2%list_elem_of_singleton]%elem_of_app K2 F2; [|by subst e2].
        by destruct (Hno e2).
  - intros i k x τ Hk HI k' e1 H1 K1 F1. rewrite write_other by (by intros ->).
    simpl in H1. apply elem_of_app in H1 as [H1|H1%list_elem_of_singleton].
    2: { subst. unfold event_at in K1. simpl in K1. by subst k. }
    destruct (HI k' e1 H1 K1 F1) as [Hs He]. split; [done|].
    intros e2 [H2|H2%list_elem_of_singleton]%elem_of_app K2; [by apply He|].
    subst e2. unfold event_at in K2. simpl in K2. by subst k.
  - intros m h m' Hm HI k' e1 H1 K1. simpl in *. rewrite Hm. by apply HI.
  - intros k e1 H1. rewrite Hnil in H1. by apply elem_of_nil in H1.
Qed.

(** Every document ever written satisfies what creation and moves preserve. *)
Lemma events_docs P σ σ' :
  preserved P → docs P σ → σ.2 = [] → rtc interfere σ σ' →
  ∀ k e x, e ∈ σ'.2 → event_at k e → from_value (ev_new e) = Ok x → key_of x = k ∧ P x.
Proof.
  intros HP Hd Hnil Hr.
  set (I := λ τ : astate Value, docs P τ ∧ ∀ k e x, e ∈ τ.2 → event_at k e →
    from_value (ev_new e) = Ok x → key_of x = k ∧ P x).
  enough (I σ') as [_ HI]; [done|].
  refine (proto_invariant I _ _ _ σ σ' Hr _); subst I; cbv beta.
  - intros i k val' x' τ [HD HI] Hx' Hk Hold.
    assert (rtc interfere τ (write i (ns, k) val' τ)) as Hstep.
    { apply rtc_once, interfere_write. intros _. eauto. }
    split; [by eapply docs_rtc|]. intros k' e x [He|He%list_elem_of_singleton]%elem_of_app Ke Hx;
      [by eapply HI|]. subst e. unfold event_at in Ke. simpl in *. simplify_eq.
    eapply docs_rtc in Hstep; [|done|done].
    destruct (Hstep _ _ _ (write_same _ _ _ _)) as [_ Hdoc]. by apply Hdoc.
  - intros i k x τ Hk [HD HI]. split.
    + intros k' v val. rewrite write_other by (by intros ->). apply HD.
    + intros k' e y [He|He%list_elem_of_singleton]%elem_of_app Ke; [by eapply HI|].
      subst e. unfold event_at in Ke. simpl in Ke. by subst k.
  - intros m h m' Hm [HD HI]. split; [|done]. intros k v val. simpl. rewrite Hm. apply HD.
  - split; [done|]. intros k e x He. rewrite Hnil in He. by apply elem_of_nil in He.
Qed.

(** A document under [k] satisfies [P]: if moves preserve [P], it stays so. *)
Definition present (P : T → Prop) (k : string) (σ : astate Value) : Prop :=
  ∃ v val x, σ.1 !! (ns, k) = Some (v, val) ∧ from_value val = Ok x ∧ P x.

Lemma present_rtc (P : T → Prop) k σ σ' :
  (∀ x x', move x x' → P x → P x') → rtc interfere σ σ' → present P k σ → present P k σ'.
Proof.
  intros Hf Hr. revert Hr. apply proto_invariant.
  - intros i k' val' x' τ (v & val & x & Hl & Hx & Ha) Hx' _ Hold.
    destruct (decide (k' = k)) as [->|Hne].
    + rewrite Hl in Hold. destruct Hold as (y & Hy & Hm). unfold present. rewrite write_same.
      exists (next_version (τ.1 !! (ns, k))), val', x'. split_and!; [done|done|].
      apply (Hf y); [done|]. assert (y = x) as -> by congruence. done.
    + unfold present. rewrite write_other by congruence. eauto 10.
  - intros i k' x τ Hk. unfold present. by rewrite write_other by (by intros ->).
  - intros m h m' Hm. unfold present. simpl. by rewrite Hm.
Qed.

(** A field no move changes: once a document is seen under a key, every later
    document there agrees with it. *)
Definition settled {A} (f : T → A) (k : string) (a : A) (σ : astate Value) : Prop :=
  present (λ x, f x = a) k σ.

Lemma settled_rtc {A} (f : T → A) k a σ σ' :
  (∀ x x', move x x' → f x' = f x) → rtc interfere σ σ' → settled f k a σ → settled f k a σ'.
Proof. intros Hf. apply present_rtc. intros x x' Hm <-. by apply Hf. Qed.

Lemma settled_eq {A} (f : T → A) k a b σ : settled f k a σ → settled f k b σ → a = b.
Proof. intros (v & val & x & Hl & Hx & <-) (v' & val' & x' & Hl' & Hx' & <-). congruence. Qed.

(** ** The history of one document *)

(** The writes of a document, oldest first. *)
Definition history (k : string) (h : list (event Value)) : list (event Value) :=
  filterb (λ e, ev_key e ==? (ns, k)) h.

Lemma history_elem k h e : e ∈ history k h ↔ e ∈ h ∧ event_at k e.
Proof. unfold history, event_at. by rewrite filterb_elem, bool_decide_eq_true. Qed.

Lemma history_snoc k h e :
  history k (h ++ [e]) = history k h ++ (if ev_key e ==? (ns, k) then [e] else []).
Proof. unfold history, filterb. rewrite List.filter_app. simpl. by destruct (_ ==? _). Qed.

(** Each write replaced what the previous one wrote, the last one wrote what is
    there now, and each is a creation or a move. *)
Definition linked (σ : astate Value) : Prop :=
  ∀ k,
    (∀ n e1 e2, history k σ.2 !! n = Some e1 → history k σ.2 !! Datatypes.S n = Some e2 →
       ∃ v, ev_old e2 = Some (v, ev_new e1)) ∧
    (∀ e, last (history k σ.2) = Some e → ∃ v, σ.1 !! (ns, k) = Some (v, ev_new e)) ∧
    (∀ n e, history k σ.2 !! n = Some e → ∃ x', from_value (ev_new e) = Ok x' ∧ key_of x' = k ∧
       match ev_old e with
       | None => init x'
       | Some (_, val) => ∃ x, from_value val = Ok x ∧ move x x'
       end).

Lemma linked_rtc σ σ' : σ.2 = [] → rtc interfere σ σ' → linked σ'.
Proof.
  intros Hnil Hr. refine (proto_invariant linked _ _ _ σ σ' Hr _).
  - intros i k val' x' τ HI Hx' Hk Hold k'. cbn [snd fst write]. rewrite history_snoc. simpl.
    destruct (HI k') as (H1 & H2 & H3). case_bool_decide as Heq.
    2: { rewrite app_nil_r, lookup_insert_ne by congruence. done. }
    injection Heq as <-. split_and!.
    + intros n e1 e2 Hn1 Hn2. rewrite lookup_app in Hn2.
      destruct (history k τ.2 !! Datatypes.S n) as [e|] eqn:E.
      * simplify_eq. rewrite lookup_app_l in Hn1 by (apply lookup_lt_Some in E; lia). eauto.
      * apply list_lookup_singleton_Some in Hn2 as [Hz <-]. simpl.
        pose proof (lookup_ge_None_1 _ _ E). rewrite lookup_app_l in Hn1 by
          (apply lookup_lt_Some in Hn1; rewrite length_app in Hn1; simpl in Hn1; lia).
        apply H2. rewrite last_lookup. by replace (pred (length (history k τ.2))) with n by lia.
    + intros e. rewrite last_snoc. intros [= <-]. rewrite lookup_insert_eq. eauto.
    + intros n e [Hn|[_ Hn]]%lookup_app_Some; [eauto|].
      apply list_lookup_singleton_Some in Hn as [_ <-]. simpl. by exists x'.
  - intros i k x τ Hk HI k'. cbn [snd fst write]. rewrite history_snoc. simpl.
    rewrite bool_decide_eq_false_2 by (by intros ->). rewrite app_nil_r.
    rewrite lookup_insert_ne by (by intros ->). apply HI.
  - intros m h m' Hm HI k. simpl. rewrite Hm. apply HI.
  - intros k. rewrite Hnil. split_and!; done.
Qed.

(** Between two writes that leave states satisfying [p], some write entered them
    again. *)
Lemma reentered (p : T → bool) k h n1 n2 e1 e2 x1 x2 v2 val2 :
  (∀ n a b, history k h !! n = Some a → history k h !! Datatypes.S n = Some b →
     ∃ v, ev_old b = Some (v, ev_new a)) →
  (∀ n e, history k h !! n = Some e → ∃ x', from_value (ev_new e) = Ok x') →
  (n1 < n2)%nat → history k h !! n1 = Some e1 → history k h !! n2 = Some e2 →
  from_value (ev_new e1) = Ok x1 → p x1 = false →
  ev_old e2 = Some (v2, val2) → from_value val2 = Ok x2 → p x2 = true →
  ∃ n e v val x x', (n1 < n < n2)%nat ∧ history k h !! n = Some e ∧ ev_old e = Some (v, val) ∧
    from_value val = Ok x ∧ p x = false ∧ from_value (ev_new e) = Ok x' ∧ p x' = true.
Proof.
  intros Hch Hdec Hlt. remember (n2 - n1)%nat as d eqn:Hd. revert n1 e1 x1 Hlt Hd.
  induction d as [|d IH]; intros n1 e1 x1 Hlt Hd Hn1 Hn2 Hx1 Hp1 Ho2 Hx2 Hp2; [lia|].
  destruct (history k h !! Datatypes.S n1) as [e|] eqn:E.
  2: { apply lookup_ge_None_1 in E. apply lookup_lt_Some in Hn2. lia. }
  destruct (Hch _ _ _ Hn1 E) as [v Hv]. destruct (decide (Datatypes.S n1 = n2)) as [<-|Hne].
  { assert (e = e2) as -> by congruence. assert (val2 = ev_new e1) as -> by congruence.
    congruence. }
  destruct (Hdec _ _ E) as [x' Hx']. destruct (p x') eqn:Hp'.
  - exists (Datatypes.S n1), e, v, (ev_new e1), x1, x'. split_and!; try done; lia.
  - destruct (IH (Datatypes.S n1) e x') as (n & e' & w & val & y & y' & ? & ?); try done; [lia|lia|].
    exists n, e', w, val, y, y'. split; [lia|done].
Qed.

(** ** Rules for programs that follow the protocol *)

Context {SdOk : SerdeOk Value T}.

Lemma docs_true σ σ' : rtc interfere σ σ' → docs (λ _, True) σ → docs (λ _, True) σ'.
Proof. apply docs_rtc. by split. Qed.

(** Creating a document: on success this thread made the creation. *)
Lemma wp_create i key (x : T) (Q : result (StoredRecord Value) RecordError → _) σ :
  docs (λ _, True) σ → key_of x = key → init x →
  (∀ val r σw σ', to_value x = Ok val → rtc interfere σ σw →
     σw.1 !! (ns, key) = Some (1, val) → mkEvent i (ns, key) None val ∈ σw.2 →
     rtc interfere σw σ' → Q (Ok r) σ') →
  (∀ err σ', rtc interfere σ σ' → Q (Err err) σ') →
  wp i (ns_put ns key x (Some 0)) Q σ.
Proof.
  intros Hd Hk Hi Hok Herr. apply wp_ns_put; [|done]. intros val σ' Hv Hr Hc.
  assert (σ'.1 !! (ns, key) = None) as Hnone.
  { destruct (σ'.1 !! (ns, key)) as [[v y]|] eqn:E; [|done]. simpl in Hc.
    apply docs_true in Hr; [|done]. destruct (Hr _ _ _ E). lia. }
  assert (proto_allowed (ns, key) (σ'.1 !! (ns, key)) val) as Ha.
  { intros _. rewrite Hnone. exists x. split_and!; [by apply from_to_value|done|done]. }
  split; [done|]. intros r σ'' Hr'.
  apply (Hok val r (write i (ns, key) val σ')); [done| | | |exact Hr'].
  - etrans; [exact Hr|]. apply rtc_once. by apply interfere_write.
  - by rewrite write_same, Hnone.
  - rewrite <-Hnone. apply logged_write.
Qed.

(** Replacing a document that was read at version [v]: on success it was replaced
    as read. *)
Lemma wp_replace i key v val (x x' : T) (Q : result (StoredRecord Value) RecordError → _) σ :
  knows (ns, key) v val σ → from_value val = Ok x → key_of x' = key → move x x' →
  (∀ val' r σ', to_value x' = Ok val' → rtc interfere σ σ' →
     mkEvent i (ns, key) (Some (v, val)) val' ∈ σ'.2 → Q (Ok r) σ') →
  (∀ err σ', rtc interfere σ σ' → Q (Err err) σ') →
  wp i (ns_put ns key x' (Some v)) Q σ.
Proof.
  intros Hkn Hx Hk Hm Hok Herr. apply wp_ns_put; [|done]. intros val' σ' Hv Hr Hc.
  assert (σ'.1 !! (ns, key) = Some (v, val)) as Hcur.
  { eapply knows_cas; [|done]. eapply knows_rtc; [apply proto_owned_ns|done|done]. }
  assert (proto_allowed (ns, key) (σ'.1 !! (ns, key)) val') as Ha.
  { intros _. rewrite Hcur. exists x'. split_and!; [by apply from_to_value|done|eauto]. }
  split; [done|]. intros r σ'' Hr'. apply (Hok val'); [done| |].
  - etrans; [exact Hr|]. eapply rtc_l; [|exact Hr']. by apply interfere_write.
  - eapply logged_rtc; [|exact Hr']. rewrite <-Hcur. apply logged_write.
Qed.

(** Every document of the namespace decodes; the protocol keeps it so. *)
Definition decodes (σ : astate Value) : Prop :=
  ∀ k v val, σ.1 !! (ns, k) = Some (v, val) → ∃ x : T, from_value val = Ok x.

Lemma decodes_rtc σ σ' : rtc interfere σ σ' → decodes σ → decodes σ'.
Proof.
  apply proto_invariant.
  - intros i k val' x' τ HI Hx' _ _ k' v val. destruct (decide (k = k')) as [->|Hne].
    + rewrite write_same. intros [= _ <-]. by exists x'.
    + rewrite write_other by congruence. apply HI.
  - intros i k x τ Hk HI k' v val. rewrite write_other by (by intros ->). apply HI.
  - intros m h m' Hm HI k v val. simpl. rewrite Hm. apply HI.
Qed.

(** Writing without a version: creation, or a move from whatever is there. *)
Lemma wp_overwrite i key (x' : T) (Q : result (StoredRecord Value) RecordError → _) σ :
  decodes σ → key_of x' = key → init x' → (∀ x, move x x') →
  (∀ r σ', rtc interfere σ σ' → Q r σ') →
  wp i (ns_put ns key x' None) Q σ.
Proof.
  intros Hd Hk Hi Hm HQ. apply wp_ns_put; [|auto]. intros val σ' Hv Hr _.
  assert (proto_allowed (ns, key) (σ'.1 !! (ns, key)) val) as Ha.
  { intros _. exists x'. split_and!; [by apply from_to_value|done|].
    destruct (σ'.1 !! (ns, key)) as [[v old]|] eqn:E; [|done].
    apply (decodes_rtc _ _ Hr Hd) in E as [x Hx]. exists x. auto. }
  split; [done|]. intros r σ'' Hr'. apply HQ. etrans; [exact Hr|].
  eapply rtc_l; [|exact Hr']. by apply interfere_write.
Qed.

(** A write to a namespace the protocol does not own. *)
Lemma wp_put_foreign {T'} {Sd' : Serde Value T'} i n key (x : T') e
    (Q : result (StoredRecord Value) RecordError → _) σ :
  n ≠ ns → (∀ r σ', rtc interfere σ σ' → Q r σ') → wp i (ns_put n key x e) Q σ.
Proof.
  intros Hn HQ. apply wp_ns_put; [|auto]. intros val σ' Hv Hr _. split; [by intros ?|].
  intros r σ'' Hr'. apply HQ. etrans; [exact Hr|]. eapply rtc_l; [|exact Hr'].
  apply interfere_write. by intros ?.
Qed.

(** Reading: the document was there, under its key. *)
Lemma wp_doc_get i key (Q : result (option (T * Z)) RecordError → _) σ :
  docs (λ _, True) σ →
  (∀ v val x σr σ', rtc interfere σ σr → σr.1 !! (ns, key) = Some (v, val) →
     from_value val = Ok x → key_of x = key → rtc interfere σr σ' → Q (Ok (Some (x, v))) σ') →
  (∀ σ', rtc interfere σ σ' → Q (Ok None) σ') →
  (∀ e σ', rtc interfere σ σ' → Q (Err e) σ') →
  wp i (ns_get ns key) Q σ.
Proof.
  intros Hd Hsome Hnone Herr. apply wp_ns_get. intros σ1 Hr1. split_and!.
  - intros _ σ2 Hr2. apply Hnone. by etrans.
  - intros v val x Hl Hx σ2 Hr2. apply (Hsome v val x σ1); try done.
    apply docs_true in Hr1; [|done]. by apply (Hr1 _ _ _ Hl).
  - intros e σ2 Hr2. apply Herr. by etrans.
Qed.

(** Every entry of a listing was a document of the namespace, under its key. *)
Definition listed (σ : astate Value) (x : T) (v : Z) : Prop :=
  ∃ val, knows (ns, key_of x) v val σ ∧ from_value val = Ok x.

Lemma listed_rtc σ σ' x v : rtc interfere σ σ' → listed σ x v → listed σ' x v.
Proof.
  intros Hr (val & Hk & Hx). exists val. split; [|done].
  eapply knows_rtc; [apply proto_owned_ns|done|done].
Qed.

(** A listing is one moment's view: every entry was there, under its key. *)
Lemma wp_doc_list_at i limit (Q : result (list (T * Z)) RecordError → _) σ :
  docs (λ _, True) σ →
  (∀ xs σr σ', rtc interfere σ σr → rtc interfere σr σ' →
     (∀ x v, (x, v) ∈ xs →
        ∃ val, σr.1 !! (ns, key_of x) = Some (v, val) ∧ from_value val = Ok x) → Q (Ok xs) σ') →
  (∀ e σ', rtc interfere σ σ' → Q (Err e) σ') →
  wp i (ns_list ns limit) Q σ.
Proof.
  intros Hd Hok Herr σ1 Hr1. split.
  - intros rs l leb (_ & _ & Hl) Hrs σ2 Hr2. destruct (decode_records rs) as [xs|e] eqn:E.
    + apply (Hok xs σ1); [done|done|]. intros x v Hx.
      destruct (decode_records_elem _ _ _ _ E Hx) as (k & val & Hk & Hv).
      rewrite Hrs in Hk. apply elem_of_take in Hk as (j & Hj & _).
      apply list_elem_of_lookup_2 in Hj. apply Hl in Hj.
      apply docs_true in Hr1; [|done]. destruct (Hr1 _ _ _ Hj) as [_ Hkey].
      destruct (Hkey x Hv) as [<- _]. by exists val.
    + apply Herr. by etrans.
  - intros e σ2 Hr2. apply Herr. by etrans.
Qed.

Lemma wp_doc_list i limit (Q : result (list (T * Z)) RecordError → _) σ :
  docs (λ _, True) σ →
  (∀ xs σ', rtc interfere σ σ' → (∀ x v, (x, v) ∈ xs → listed σ' x v) → Q (Ok xs) σ') →
  (∀ e σ', rtc interfere σ σ' → Q (Err e) σ') →
  wp i (ns_list ns limit) Q σ.
Proof.
  intros Hd Hok Herr. apply wp_doc_list_at; [done| |done]. intros xs σr σ' Hr Hr' Hxs.
  apply Hok; [by etrans|]. intros x v Hx. apply (listed_rtc σr); [done|].
  destruct (Hxs x v Hx) as (val & Hl & Hv). exists val. split; [by apply knows_now|done].
Qed.
End Protocol.
