(* ===== verification/Approval.v ===== *)
(** * Human approvals

    [uc-types/src/governance/approval.rs] (the approval document and its moves)
    and [uc-engine/src/governance/approvals.rs] ([ApprovalStore], the programs
    that keep the documents in the record store).  The main result is about
    interleavings: whatever mix of requests, decisions, sweeps and consumptions
    runs at the same time, a consent is spent at most once and only after a
    human other than the requester gave it. *)

From Stdlib Require Import String.
From S2P Require Import Prelude RustStr Store Prog Concurrency Protocol Policy.

(** ** The document *)

Definition APPROVAL_TTL_MINUTES : Z := 15.
Definition MAX_APPROVAL_TTL_MINUTES : Z := 24 * 60.

Inductive ApprovalState : Type :=
| ApprovalPending | ApprovalApproved | ApprovalRejected | ApprovalExpired | ApprovalUsed.
#[export] Instance ApprovalState_eq_dec : EqDecision ApprovalState.
Proof. solve_decision. Defined.

Definition ApprovalState_as_str (s : ApprovalState) : string :=
  match s with
  | ApprovalPending => "pending"
  | ApprovalApproved => "approved"
  | ApprovalRejected => "rejected"
  | ApprovalExpired => "expired"
  | ApprovalUsed => "used"
  end.

Definition ApprovalState_is_terminal (s : ApprovalState) : bool :=
  match s with ApprovalRejected | ApprovalExpired | ApprovalUsed => true | _ => false end.

Record ApprovalRequest : Type := mkApprovalRequest {
  approval_tool : string;
  approval_case_id : option string;
  approval_project_id : option string;
  action_digest : option string;
  requested_by : Principal;
  approval_reason : option string
}.

Record ToolApproval : Type := mkApproval {
  approval_key : string;
  approval_request : ApprovalRequest;
  approval_state : ApprovalState;
  requested_at : Instant;
  approval_expires_at : Instant;
  decided_at : option Instant;
  decided_by : option Principal;
  approval_note : option string;
  used_at : option Instant
}.

Inductive ApprovalError : Type :=
| NotPending (s : ApprovalState)
| NotAHumanDecision (k : PrincipalKind)
| SelfDecision
| ApprovalIsExpired (at_ : Instant)
| NotUsable (s : ApprovalState).

Section Approvals.
Context `{Sha256}.

(** [approval_id]: the material is joined with bars. *)
Definition approval_id (r : ApprovalRequest) : string :=
  let material :=
    join "|" [approval_tool r; default "" (approval_case_id r);
              PrincipalKind_as_str (principal_kind (requested_by r));
              principal_id (requested_by r); default "" (action_digest r)] in
  "apr-" +:+ prefix_slice 32 (sha256_hex material).

Definition clamp (x lo hi : Z) : Z := if x <? lo then lo else if hi <? x then hi else x.

Definition ToolApproval_request (r : ApprovalRequest) (now : Instant) (ttl : option Z)
    : ToolApproval :=
  let ttl := match ttl with
             | Some d => clamp d (minutes 1) (minutes MAX_APPROVAL_TTL_MINUTES)
             | None => minutes APPROVAL_TTL_MINUTES
             end in
  mkApproval (approval_id r) r ApprovalPending now (now + ttl) None None None None.
End Approvals.

Definition is_pending (a : ToolApproval) : bool := approval_state a ==? ApprovalPending.
Definition is_decidable (a : ToolApproval) (now : Instant) : bool :=
  is_pending a && (now <? approval_expires_at a).
Definition is_usable (a : ToolApproval) (now : Instant) : bool :=
  (approval_state a ==? ApprovalApproved) && (now <? approval_expires_at a).
Definition approval_covers (a : ToolApproval) (t : string) (case : option string) : bool :=
  (approval_tool (approval_request a) ==? t) && (approval_case_id (approval_request a) ==? case).

Definition decide (a : ToolApproval) (by_ : Principal) (next : ApprovalState)
    (note : option string) (now : Instant) : result ToolApproval ApprovalError :=
  if negb (is_pending a) then Err (NotPending (approval_state a))
  else if approval_expires_at a <=? now then Err (ApprovalIsExpired (approval_expires_at a))
  else if principal_kind by_ !=? User then Err (NotAHumanDecision (principal_kind by_))
  else if by_ ==? requested_by (approval_request a) then Err SelfDecision
  else Ok (mkApproval (approval_key a) (approval_request a) next (requested_at a)
             (approval_expires_at a) (Some now) (Some by_) note (used_at a)).

(** [approve] sets [decided_at] a second time. *)
Definition approve (a : ToolApproval) (by_ : Principal) (note : option string) (now : Instant)
    : result ToolApproval ApprovalError :=
  let? d := decide a by_ ApprovalApproved note now in
  Ok (mkApproval (approval_key d) (approval_request d) (approval_state d) (requested_at d)
        (approval_expires_at d) (Some now) (decided_by d) (approval_note d) (used_at d)).

Definition reject (a : ToolApproval) (by_ : Principal) (note : option string) (now : Instant)
    : result ToolApproval ApprovalError := decide a by_ ApprovalRejected note now.

Definition consume (a : ToolApproval) (now : Instant) : result ToolApproval ApprovalError :=
  if negb (is_usable a now) then Err (NotUsable (approval_state a))
  else Ok (mkApproval (approval_key a) (approval_request a) ApprovalUsed (requested_at a)
             (approval_expires_at a) (decided_at a) (decided_by a) (approval_note a) (Some now)).

Definition expire (a : ToolApproval) (now : Instant) : result ToolApproval ApprovalError :=
  if negb (is_pending a) then Err (NotPending (approval_state a))
  else if now <? approval_expires_at a then Err (NotPending (approval_state a))
  else Ok (mkApproval (approval_key a) (approval_request a) ApprovalExpired (requested_at a)
             (approval_expires_at a) (decided_at a) (decided_by a) (approval_note a) (used_at a)).

(** ** The store *)

Definition APPROVAL_NAMESPACE : string := "approvals".
Definition APPROVAL_SCAN_LIMIT : nat := 512.

Inductive ApprovalStoreError : Type :=
| ApprovalStoreFailed (e : RecordError)
| Refused (e : ApprovalError)
| ApprovalNotFound (id : string).

(** [sort_by_key]: stable. *)
Definition decision_time (a : ToolApproval) : Instant := default (requested_at a) (decided_at a).
Definition by_decision (a b : ToolApproval) : bool := decision_time a <=? decision_time b.

(** Newest first, the id as the tiebreak. *)
Definition newest_first (a b : ToolApproval) : bool :=
  (requested_at b <? requested_at a) ||
  ((requested_at a =? requested_at b) && String.leb (approval_key a) (approval_key b)).

Section ApprovalStore.
Context {Value : Type} {Sd : Serde Value ToolApproval}.
Notation prog := (prog Value).

Definition ApprovalStore_get (id : string)
    : prog (result (option (ToolApproval * Z)) ApprovalStoreError) :=
  let! r := ns_get APPROVAL_NAMESPACE id in Ret (map_err ApprovalStoreFailed r).

Definition ApprovalStore_request (a : ToolApproval)
    : prog (result (ToolApproval * bool) ApprovalStoreError) :=
  let! w := ns_put APPROVAL_NAMESPACE (approval_key a) a (Some 0) in
  match w with
  | Ok _ => Ret (Ok (a, true))
  | Err (Conflict _ _) =>
      let! g := ApprovalStore_get (approval_key a) in
      match g with
      | Err e => Ret (Err e)
      | Ok None => Ret (Err (ApprovalNotFound (approval_key a)))
      | Ok (Some existing) => Ret (Ok (existing.1, false))
      end
  | Err e => Ret (Err (ApprovalStoreFailed e))
  end.

Definition ApprovalStore_list_page (s : option ApprovalState) (limit offset : nat)
    : prog (result (list ToolApproval) ApprovalStoreError) :=
  let! l := ns_list APPROVAL_NAMESPACE APPROVAL_SCAN_LIMIT in
  Ret match l with
      | Err e => Err (ApprovalStoreFailed e)
      | Ok l =>
          let approvals := filterb
            (λ a, match s with Some s => approval_state a ==? s | None => true end) (l.*1) in
          Ok (take limit (drop offset (sort_by newest_first approvals)))
      end.

Definition ApprovalStore_list (s : option ApprovalState) (limit : nat)
    : prog (result (list ToolApproval) ApprovalStoreError) := ApprovalStore_list_page s limit 0.

(** [decide]: three rounds of read, decide, compare-and-swap. *)
Definition ApprovalStore_decide (id : string) (by_ : Principal) (note : option string)
    (now : Instant) (allow : bool) : prog (result ToolApproval ApprovalStoreError) :=
  cas_loop 3 APPROVAL_NAMESPACE id (Err (ApprovalNotFound id))
    (λ a _, match (if allow then approve a by_ note now else reject a by_ note now) with
            | Ok next => Write next (Ok next)
            | Err e => Answer (Err (Refused e))
            end)
    (λ e, Err (ApprovalStoreFailed e))
    (Err (Refused (NotPending ApprovalPending))).

Definition ApprovalStore_approve (id : string) (by_ : Principal) (note : option string)
    (now : Instant) := ApprovalStore_decide id by_ note now true.
Definition ApprovalStore_reject (id : string) (by_ : Principal) (note : option string)
    (now : Instant) := ApprovalStore_decide id by_ note now false.

Definition find_approved (t : string) (case : option string) (now : Instant)
    : prog (result (option ToolApproval) ApprovalStoreError) :=
  let! l := ns_list APPROVAL_NAMESPACE APPROVAL_SCAN_LIMIT in
  Ret match l with
      | Err e => Err (ApprovalStoreFailed e)
      | Ok l =>
          let candidates := filterb (λ a, is_usable a now && approval_covers a t case) (l.*1) in
          Ok (head (sort_by by_decision candidates))
      end.

Definition ApprovalStore_consume (id : string) (now : Instant)
    : prog (result ToolApproval ApprovalStoreError) :=
  cas_loop 3 APPROVAL_NAMESPACE id (Err (ApprovalNotFound id))
    (λ a _, match consume a now with
            | Ok used => Write used (Ok used)
            | Err e => Answer (Err (Refused e))
            end)
    (λ e, Err (ApprovalStoreFailed e))
    (Err (Refused (NotUsable ApprovalApproved))).

(** The loop of [consume_approved] over its candidates. *)
Fixpoint consume_candidates (cs : list (ToolApproval * Z)) (now : Instant)
    : prog (result (option ToolApproval) ApprovalStoreError) :=
  match cs with
  | [] => Ret (Ok None)
  | (a, version) :: cs' =>
      match consume a now with
      | Err _ => consume_candidates cs' now
      | Ok used =>
          let! w := ns_put APPROVAL_NAMESPACE (approval_key used) used (Some version) in
          match w with
          | Ok _ => Ret (Ok (Some used))
          | Err (Conflict _ _) => consume_candidates cs' now
          | Err e => Ret (Err (ApprovalStoreFailed e))
          end
      end
  end.

Definition consume_approved (t : string) (case : option string) (now : Instant)
    : prog (result (option ToolApproval) ApprovalStoreError) :=
  let! l := ns_list APPROVAL_NAMESPACE APPROVAL_SCAN_LIMIT in
  match l with
  | Err e => Ret (Err (ApprovalStoreFailed e))
  | Ok l =>
      let candidates := filterb (λ av, is_usable av.1 now && approval_covers av.1 t case) l in
      consume_candidates (sort_by (λ a b, by_decision a.1 b.1) candidates) now
  end.

(** The loop of [expire_stale]; [expired] counts the sweeps that won. *)
Fixpoint expire_loop (pending : list (ToolApproval * Z)) (now : Instant) (expired : nat)
    : prog (result nat ApprovalStoreError) :=
  match pending with
  | [] => Ret (Ok expired)
  | (a, version) :: rest =>
      match expire a now with
      | Err _ => expire_loop rest now expired
      | Ok next =>
          let! w := ns_put APPROVAL_NAMESPACE (approval_key next) next (Some version) in
          match w with
          | Ok _ => expire_loop rest now (Datatypes.S expired)
          | Err (Conflict _ _) => expire_loop rest now expired
          | Err e => Ret (Err (ApprovalStoreFailed e))
          end
      end
  end.

Definition expire_stale (now : Instant) (limit : nat) : prog (result nat ApprovalStoreError) :=
  let! l := ns_list APPROVAL_NAMESPACE APPROVAL_SCAN_LIMIT in
  match l with
  | Err e => Ret (Err (ApprovalStoreFailed e))
  | Ok l =>
      expire_loop (take limit
        (filterb (λ av, is_pending av.1 && (approval_expires_at av.1 <=? now)) l)) now 0
  end.
End ApprovalStore.

(** ** The protocol of approvals *)

(** A human other than the requester decided in time; a spent permit was spent in
    time. *)
Definition human_consent (a : ToolApproval) : Prop :=
  ∃ by_ t, decided_by a = Some by_ ∧ principal_kind by_ = User ∧
    by_ ≠ requested_by (approval_request a) ∧ decided_at a = Some t ∧ t < approval_expires_at a.

Definition approval_ok (a : ToolApproval) : Prop :=
  (approval_state a = ApprovalApproved ∨ approval_state a = ApprovalUsed → human_consent a) ∧
  (approval_state a = ApprovalUsed → ∃ t, used_at a = Some t ∧ t < approval_expires_at a).

Definition approval_created (a : ToolApproval) : Prop := approval_state a = ApprovalPending.

Inductive approval_move : ToolApproval → ToolApproval → Prop :=
| move_approve a by_ note now a' : approve a by_ note now = Ok a' → approval_move a a'
| move_reject a by_ note now a' : reject a by_ note now = Ok a' → approval_move a a'
| move_consume a now a' : consume a now = Ok a' → approval_move a a'
| move_expire a now a' : expire a now = Ok a' → approval_move a a'.

Lemma decide_Ok a by_ next note now a' :
  decide a by_ next note now = Ok a' →
  approval_state a = ApprovalPending ∧ now < approval_expires_at a ∧
  principal_kind by_ = User ∧ by_ ≠ requested_by (approval_request a) ∧
  a' = mkApproval (approval_key a) (approval_request a) next (requested_at a)
         (approval_expires_at a) (Some now) (Some by_) note (used_at a).
Proof.
  unfold decide, is_pending. intros Hd. repeat case_match; simplify_eq. bool_hyps. by split_and!.
Qed.

Lemma approve_Ok a by_ note now a' :
  approve a by_ note now = Ok a' ↔ decide a by_ ApprovalApproved note now = Ok a'.
Proof.
  unfold approve. destruct (decide a by_ ApprovalApproved note now) as [d|e] eqn:E; simpl; [|done].
  apply decide_Ok in E as (_ & _ & _ & _ & ->). done.
Qed.

Lemma consume_Ok a now a' :
  consume a now = Ok a' →
  approval_state a = ApprovalApproved ∧ now < approval_expires_at a ∧
  a' = mkApproval (approval_key a) (approval_request a) ApprovalUsed (requested_at a)
         (approval_expires_at a) (decided_at a) (decided_by a) (approval_note a) (Some now).
Proof.
  unfold consume, is_usable. intros Hc. repeat case_match; simplify_eq. bool_hyps. by split_and!.
Qed.

Lemma expire_Ok a now a' :
  expire a now = Ok a' →
  approval_state a = ApprovalPending ∧ approval_expires_at a <= now ∧
  approval_state a' = ApprovalExpired ∧ approval_key a' = approval_key a ∧
  approval_request a' = approval_request a.
Proof.
  unfold expire, is_pending. intros Hc. repeat case_match; simplify_eq. bool_hyps. by split_and!.
Qed.

Lemma approval_move_key a a' : approval_move a a' → approval_key a' = approval_key a.
Proof.
  destruct 1 as [a by_ note now a' Ha%approve_Ok%decide_Ok|a by_ note now a' Ha%decide_Ok
    |a now a' Ha%consume_Ok|a now a' Ha%expire_Ok]; naive_solver.
Qed.

Lemma approval_move_request a a' :
  approval_move a a' → approval_request a' = approval_request a.
Proof.
  destruct 1 as [a by_ note now a' Ha%approve_Ok%decide_Ok|a by_ note now a' Ha%decide_Ok
    |a now a' Ha%consume_Ok|a now a' Ha%expire_Ok]; naive_solver.
Qed.

Lemma approval_move_live a a' :
  approval_move a a' → ApprovalState_is_terminal (approval_state a) = false.
Proof.
  destruct 1 as [a by_ note now a' Ha%approve_Ok%decide_Ok|a by_ note now a' Ha%decide_Ok
    |a now a' Ha%consume_Ok|a now a' Ha%expire_Ok]; by destruct Ha as (-> & _).
Qed.

Lemma approval_ok_preserved : preserved approval_created approval_move approval_ok.
Proof.
  split.
  - intros a Ha. split; rewrite Ha; intros Hx; [by destruct Hx|done].
  - destruct 1 as [a by_ note now a' Ha%approve_Ok%decide_Ok|a by_ note now a' Ha%decide_Ok
      |a now a' Ha%consume_Ok|a now a' Ha%expire_Ok]; intros [Hc Hu].
    + destruct Ha as (_ & Ht & Hk & Hne & ->). split; [|done]. intros _. exists by_, now. by split_and!.
    + destruct Ha as (_ & Ht & Hk & Hne & ->). split; [|done]. by intros [|].
    + destruct Ha as (Hs & Ht & ->). split; [|intros _; by exists now].
      intros _. destruct Hc as (b & t & ? & ? & ? & ? & ?); [by left|]. exists b, t. by split_and!.
    + destruct Ha as (_ & _ & Hs & _). split; rewrite Hs; [by intros [|]|done].
Qed.

(** ** Calls in flight *)

(** The calls a gateway can have in flight on the approvals. *)
Inductive approval_call : Type :=
| CallRequest (r : ApprovalRequest) (now : Instant) (ttl : option Z)
| CallDecide (id : string) (by_ : Principal) (note : option string) (now : Instant) (allow : bool)
| CallConsume (id : string) (now : Instant)
| CallConsumeApproved (t : string) (case : option string) (now : Instant)
| CallExpireStale (now : Instant) (limit : nat)
| CallFindApproved (t : string) (case : option string) (now : Instant)
| CallListPage (s : option ApprovalState) (limit offset : nat).

Section Pool.
Context {S Value : Type} {St : RecordStore S Value} {StOk : RecordStoreOk S Value}
        {Sd : Serde Value ToolApproval} `{Sha256}.

(** Each call returns the permit it spent, if it spent one. *)
Definition run_approval_call (c : approval_call) : prog Value (option ToolApproval) :=
  match c with
  | CallRequest r now ttl =>
      let! _ := ApprovalStore_request (ToolApproval_request r now ttl) in Ret None
  | CallDecide id by_ note now allow =>
      let! _ := ApprovalStore_decide id by_ note now allow in Ret None
  | CallConsume id now =>
      let! r := ApprovalStore_consume id now in
      Ret match r with Ok a => Some a | Err _ => None end
  | CallConsumeApproved t case now =>
      let! r := consume_approved t case now in
      Ret match r with Ok o => o | Err _ => None end
  | CallExpireStale now limit => let! _ := expire_stale now limit in Ret None
  | CallFindApproved t case now => let! _ := find_approved t case now in Ret None
  | CallListPage s limit offset => let! _ := ApprovalStore_list_page s limit offset in Ret None
  end.

Notation owned := (proto_owned APPROVAL_NAMESPACE).
Notation allowed :=
  (proto_allowed APPROVAL_NAMESPACE approval_key approval_created approval_move).
Notation interfere := (interfere owned allowed).
Notation wp := (wp owned allowed).
Notation adocs := (docs APPROVAL_NAMESPACE approval_key).

(** This thread wrote the spent permit. *)
Definition spent_by (i : nat) (o : option ToolApproval) (σ : astate Value) : Prop :=
  match o with
  | None => True
  | Some a => ∃ e, e ∈ σ.2 ∧ ev_thread e = i ∧ event_at APPROVAL_NAMESPACE (approval_key a) e ∧
                   from_value (ev_new e) = Ok a ∧ approval_state a = ApprovalUsed
  end.

Lemma spent_by_rtc i o σ σ' : rtc interfere σ σ' → spent_by i o σ → spent_by i o σ'.
Proof.
  intros Hr. destruct o as [a|]; [|done]. intros (e & He & ?). exists e. split; [|done].
  by eapply logged_rtc.
Qed.

Context {SdOk : SerdeOk Value ToolApproval}.

Lemma wp_approval_request i a σ :
  adocs (λ _, True) σ → approval_created a →
  wp i (ApprovalStore_request a) (λ _ _, True) σ.
Proof.
  intros Hd Ha. apply wp_bind, wp_create; [exact _|done|done|done| |].
  - intros val r σw σ' _ _ _ _ _. by apply wp_ret.
  - intros err σ' Hr. destruct err; try by apply wp_ret.
    apply wp_bind, wp_bind, wp_doc_get; [by eapply docs_true| | |].
    + intros v val x σr σ'' _ _ _ _ _. apply wp_ret. intros. by apply wp_ret.
    + intros σ'' _. apply wp_ret. intros. by apply wp_ret.
    + intros e σ'' _. apply wp_ret. intros. by apply wp_ret.
Qed.

Lemma adocs_key σ σ' k v val x :
  adocs (λ _, True) σ → rtc interfere σ σ' → σ'.1 !! (APPROVAL_NAMESPACE, k) = Some (v, val) →
  from_value val = Ok x → approval_key x = k.
Proof.
  intros Hd Hr Hl Hx. eapply docs_true in Hr; [|done]. destruct (Hr _ _ _ Hl) as [_ Hk].
  by apply Hk.
Qed.

Lemma wp_approval_decide i id by_ note now allow σ :
  adocs (λ _, True) σ → wp i (ApprovalStore_decide id by_ note now allow) (λ _ _, True) σ.
Proof.
  intros Hd. apply wp_cas_loop; try done.
  intros σ' v val x x' a val' Hr Hl Hx Hb Hv' _.
  destruct (if allow then _ else _) as [next|] eqn:E; simplify_eq.
  exists x'. split_and!; [by apply from_to_value| |].
  - transitivity (approval_key x); [|by eapply adocs_key].
    destruct allow; [apply move_approve in E|apply move_reject in E]; by apply approval_move_key.
  - exists x. split; [done|]. destruct allow; [by eapply move_approve|by eapply move_reject].
Qed.

(** Spending [id]: on success this thread wrote the spent permit, which is the
    document under [id]. *)
Lemma wp_approval_consume_at i id now σ :
  adocs (λ _, True) σ →
  wp i (ApprovalStore_consume id now)
    (λ r σ', match r with
             | Err _ => True
             | Ok a => approval_key a = id ∧ spent_by i (Some a) σ' ∧
                 settled APPROVAL_NAMESPACE approval_request id (approval_request a) σ'
             end) σ.
Proof.
  intros Hd. apply wp_cas_loop; try done.
  - intros σ' v val x x' a val' Hr Hl Hx Hb Hv' _.
    destruct (consume x now) as [used|] eqn:E; simplify_eq. apply move_consume in E.
    exists x'. split_and!; [by apply from_to_value| |by eauto].
    rewrite (approval_move_key _ _ E). by eapply adocs_key.
  - intros v val x a σr σ' _ _ _ _ Hb. by destruct (consume x now); simplify_eq.
  - intros v val x x' a val' σr σw σ' Hr Hl Hx Hb Hv' Hrw Hw He Hr'.
    destruct (consume x now) as [used|] eqn:E; simplify_eq.
    pose proof E as (_ & _ & Hu)%consume_Ok. apply move_consume in E.
    assert (approval_key x' = id) as Hid
      by (rewrite (approval_move_key _ _ E); by eapply adocs_key).
    split_and!; [done| |].
    + apply (spent_by_rtc i _ σw); [done|].
      exists (mkEvent i (APPROVAL_NAMESPACE, id) (Some (v, val)) val').
      split_and!; try done; [|by apply from_to_value|by rewrite Hu].
      unfold event_at. simpl. by rewrite Hid.
    + eapply settled_rtc; [apply approval_move_request|exact Hr'|].
      exists (v + 1), val', x'. split_and!; [done|by apply from_to_value|done].
Qed.

Lemma wp_approval_consume i id now σ :
  adocs (λ _, True) σ →
  wp i (ApprovalStore_consume id now)
    (λ r σ', spent_by i match r with Ok a => Some a | Err _ => None end σ') σ.
Proof.
  intros Hd. eapply wp_mono; [|by apply wp_approval_consume_at]. intros [a|e] σ'; [|done].
  by intros (_ & Hs & _).
Qed.

(** A permit found was usable and covers what was asked; its request is settled. *)
Lemma wp_find_approved i t case now σ :
  adocs (λ _, True) σ →
  wp i (find_approved t case now)
    (λ r σ', match r with
             | Ok (Some a) => is_usable a now = true ∧ approval_covers a t case = true ∧
                 settled APPROVAL_NAMESPACE approval_request (approval_key a)
                   (approval_request a) σ'
             | _ => True
             end) σ.
Proof.
  intros Hd. eapply wp_bind, wp_doc_list_at; [done| |].
  - intros xs σr σ' Hr Hr' Hxs. apply wp_ret. intros σ'' Hr''.
    cbv beta iota zeta. set (l := sort_by _ _). destruct (head l) as [a|] eqn:E; [|done].
    apply head_Some_elem_of in E. subst l.
    apply sort_by_elem, filterb_elem in E as [Ha [Hu Hc]%andb_true_iff].
    apply list_elem_of_fmap in Ha as ([a' v] & -> & Ha). cbn in *.
    destruct (Hxs _ _ Ha) as (val & Hl & Hv). split_and!; [done|done|].
    eapply (settled_rtc _ _ _ _ _ _ _ σr); [apply approval_move_request|chain|]. by exists v, val, a'.
  - intros e σ' Hr. by apply wp_ret.
Qed.

Notation alisted := (listed APPROVAL_NAMESPACE approval_key).

Lemma wp_consume_candidates i cs now σ :
  (∀ a v, (a, v) ∈ cs → alisted σ a v) →
  wp i (consume_candidates cs now)
    (λ r σ', spent_by i match r with Ok o => o | Err _ => None end σ') σ.
Proof.
  revert σ. induction cs as [|[a v] cs IH]; intros σ Hcs; cbn [consume_candidates].
  { by apply wp_ret. }
  assert (∀ σ', rtc interfere σ σ' → ∀ b w, (b, w) ∈ cs → alisted σ' b w) as Hcs'.
  { intros σ' Hr b w Hb. eapply listed_rtc; [done|]. apply Hcs. by right. }
  destruct (consume a now) as [used|] eqn:E; [|by apply IH, Hcs'].
  destruct (Hcs a v) as (val & Hk & Hx); [left|].
  pose proof E as (_ & _ & Hu)%consume_Ok. apply move_consume in E as Hm.
  apply wp_bind. rewrite (approval_move_key _ _ Hm).
  eapply wp_replace; [exact _|done|done|by apply approval_move_key|done| |].
  - intros val' r σ' Hv Hr He. apply wp_ret. intros σ'' Hr'.
    eexists. split_and!; [by eapply logged_rtc|done| |by apply from_to_value|by rewrite Hu].
    unfold event_at. simpl. by rewrite (approval_move_key _ _ Hm).
  - intros err σ' Hr. destruct err; try by apply wp_ret. by apply IH, Hcs'.
Qed.

Lemma wp_consume_approved i t case now σ :
  adocs (λ _, True) σ →
  wp i (consume_approved t case now)
    (λ r σ', spent_by i match r with Ok o => o | Err _ => None end σ') σ.
Proof.
  intros Hd. eapply wp_bind, wp_doc_list; [done| |].
  - intros xs σ' Hr Hxs. apply wp_consume_candidates. intros a v Hav.
    apply sort_by_elem, filterb_elem in Hav as [Hav _]. by apply Hxs.
  - intros e σ' Hr. by apply wp_ret.
Qed.

Lemma wp_expire_loop i pending now n σ :
  (∀ a v, (a, v) ∈ pending → alisted σ a v) →
  wp i (expire_loop pending now n) (λ _ _, True) σ.
Proof.
  revert n σ. induction pending as [|[a v] cs IH]; intros n σ Hcs; cbn [expire_loop].
  { by apply wp_ret. }
  assert (∀ σ', rtc interfere σ σ' → ∀ b w, (b, w) ∈ cs → alisted σ' b w) as Hcs'.
  { intros σ' Hr b w Hb. eapply listed_rtc; [done|]. apply Hcs. by right. }
  destruct (expire a now) as [next|] eqn:E; [|by apply IH, Hcs'].
  destruct (Hcs a v) as (val & Hk & Hx); [left|]. apply move_expire in E as Hm.
  apply wp_bind. rewrite (approval_move_key _ _ Hm).
  eapply wp_replace; [exact _|done|done|by apply approval_move_key|done| |].
  - intros val' r σ' Hv Hr He. by apply IH, Hcs'.
  - intros err σ' Hr. destruct err; try by apply wp_ret. by apply IH, Hcs'.
Qed.

Lemma wp_expire_stale i now limit σ :
  adocs (λ _, True) σ → wp i (expire_stale now limit) (λ _ _, True) σ.
Proof.
  intros Hd. eapply wp_bind, wp_doc_list; [done| |].
  - intros xs σ' Hr Hxs. apply wp_expire_loop. intros a v (j & Hj & _)%elem_of_take.
    apply list_elem_of_lookup_2, filterb_elem in Hj as [Hj _]. by apply Hxs.
  - intros e σ' Hr. by apply wp_ret.
Qed.

Lemma wp_approval_call i c σ :
  adocs (λ _, True) σ → wp i (run_approval_call c) (spent_by i) σ.
Proof.
  intros Hd. destruct c as [r now ttl|id by_ note now allow|id now|t case now|now limit|t case now
    |s limit offset]; cbn [run_approval_call]; apply wp_bind.
  - eapply wp_mono; [|by apply wp_approval_request]. intros _ σ' _. by apply wp_ret.
  - eapply wp_mono; [|by apply wp_approval_decide]. intros _ σ' _. by apply wp_ret.
  - eapply wp_mono; [|by apply wp_approval_consume]. intros a σ' Hs. apply wp_ret. intros σ'' Hr.
    by eapply spent_by_rtc.
  - eapply wp_mono; [|by apply wp_consume_approved]. intros a σ' Hs. apply wp_ret. intros σ'' Hr.
    by eapply spent_by_rtc.
  - eapply wp_mono; [|by apply wp_expire_stale]. intros _ σ' _. by apply wp_ret.
  - eapply wp_bind, wp_doc_list; [done| |]; intros; by apply wp_ret; intros; apply wp_ret.
  - eapply wp_bind, wp_doc_list; [done| |]; intros; by apply wp_ret; intros; apply wp_ret.
Qed.

(** The stored approvals are well-formed and under their own ids. *)
Definition approvals_ok (s : S) : Prop :=
  ∀ k v val a, contents s !! (APPROVAL_NAMESPACE, k) = Some (v, val) → from_value val = Ok a →
    approval_key a = k ∧ approval_ok a.

Lemma approvals_docs s P h :
  store_wf s → (∀ a, approval_ok a → P a) → approvals_ok s → adocs P (contents s, h).
Proof.
  intros Hwf HP Hok k v val Hl. split; [by eapply contents_version|]. intros x Hx.
  destruct (Hok k v val x Hl Hx) as [? ?]. auto.
Qed.

(** Two threads spend different permits, and what is spent carries consent. *)
Lemma spent_distinct s σ i j a b :
  rtc interfere (contents s, []) σ → spent_by i (Some a) σ → spent_by j (Some b) σ →
  i ≠ j → approval_key a ≠ approval_key b.
Proof.
  intros Hr (e1 & He1 & Hi1 & Hk1 & Hv1 & Hu1) (e2 & He2 & Hi2 & Hk2 & Hv2 & Hu2) Hij Hkey.
  rewrite <-Hkey in Hk2. apply Hij. rewrite <-Hi1, <-Hi2. f_equal.
  eapply (final_once _ _ _ _ (λ x, ApprovalState_is_terminal (approval_state x))
    (contents s, []));
    [|reflexivity|exact Hr|exact He1|exact He2|exact Hk1|exact Hk2|exact Hv1|exact Hv2| |].
  - intros x x'. apply approval_move_live.
  - by rewrite Hu1.
  - by rewrite Hu2.
Qed.

Lemma spent_consented s σ i a :
  store_wf s → approvals_ok s → rtc interfere (contents s, []) σ → spent_by i (Some a) σ →
  approval_state a = ApprovalUsed ∧ human_consent a ∧
  (∃ t, used_at a = Some t ∧ t < approval_expires_at a).
Proof.
  intros Hwf Hok Hr (e & He & _ & Hk & Hv & Hu).
  destruct (events_docs _ _ _ _ approval_ok _ _ approval_ok_preserved
    (approvals_docs s approval_ok [] Hwf (λ _ H, H) Hok) eq_refl Hr _ _ _ He Hk Hv) as [_ [Hc Hx]].
  split_and!; auto.
Qed.

(** The pool of calls starts from an empty log. *)
Notation pool s calls := (mkConfig s (run_approval_call <$> calls) []).

Lemma approval_pool_wp s calls :
  store_wf s → approvals_ok s → all_wp owned allowed spent_by (pool s calls).
Proof.
  intros Hwf Hok. split; [done|]. intros i p Hi. cbn in Hi. apply list_lookup_fmap_Some in Hi as (c & -> & _).
  apply wp_approval_call. by apply approvals_docs.
Qed.

Lemma approval_pool_spent s calls c' i a :
  store_wf s → approvals_ok s → rtc (step owned) (pool s calls) c' →
  cfg_threads c' !! i = Some (Ret (Some a)) →
  rtc interfere (contents s, []) (astate_of c') ∧ spent_by i (Some a) (astate_of c').
Proof.
  intros Hwf Hok Hsteps Hi. pose proof (approval_pool_wp s calls Hwf Hok) as Hall. split.
  - by apply (steps_interfere _ _ _ _ _ Hall).
  - by apply (wp_adequate _ _ _ _ _ Hall Hsteps i).
Qed.
End Pool.

(** ** Properties *)

(** A decision is accepted exactly when the request is pending, in time, and
    the one who decides is a human other than the requester; it then records who
    decided and when, and changes neither the request nor its deadline.  A permit
    is spendable exactly when it is approved and in time. *)
Theorem decision_exact a by_ note now :
  (∀ a', approve a by_ note now = Ok a' ↔
     approval_state a = ApprovalPending ∧ now < approval_expires_at a ∧
     principal_kind by_ = User ∧ by_ ≠ requested_by (approval_request a) ∧
     a' = mkApproval (approval_key a) (approval_request a) ApprovalApproved (requested_at a)
            (approval_expires_at a) (Some now) (Some by_) note (used_at a)) ∧
  is_ok (reject a by_ note now) = is_ok (approve a by_ note now) ∧
  (is_ok (consume a now) = true ↔
     approval_state a = ApprovalApproved ∧ now < approval_expires_at a).
Proof.
  split_and!.
  - intros a'. rewrite approve_Ok. split; [apply decide_Ok|]. intros (Hs & Ht & Hk & Hne & ->).
    unfold decide, is_pending. rewrite Hs, Hk. simpl.
    rewrite (proj2 (Z.leb_gt _ _) Ht), bool_decide_eq_false_2 by done. done.
  - unfold approve, reject, decide. by repeat case_match.
  - unfold consume, is_usable. case_bool_decide; destruct (Z.ltb_spec now (approval_expires_at a));
      simpl; naive_solver lia.
Qed.

Section PoolProperties.
Context {S Value : Type} {St : RecordStore S Value} {StOk : RecordStoreOk S Value}
        {Sd : Serde Value ToolApproval} {SdOk : SerdeOk Value ToolApproval} `{Sha256}.

(** C2: a consent is spent at most once.  However many requests, decisions,
    sweeps, look-ups and consumptions are in flight, and however their store
    operations interleave, on either backend, two calls that each spent a permit
    spent different ones. *)
Theorem consent_spent_once (s : S) calls c' i j a b :
  store_wf s → approvals_ok s →
  rtc (step (proto_owned APPROVAL_NAMESPACE)) (mkConfig s (run_approval_call <$> calls) []) c' →
  cfg_threads c' !! i = Some (Ret (Some a)) → cfg_threads c' !! j = Some (Ret (Some b)) →
  i ≠ j → approval_key a ≠ approval_key b.
Proof.
  intros Hwf Hok Hsteps Hi Hj.
  destruct (approval_pool_spent s calls c' i a Hwf Hok Hsteps Hi) as [Hr Ha].
  destruct (approval_pool_spent s calls c' j b Hwf Hok Hsteps Hj) as [_ Hb].
  by eapply spent_distinct.
Qed.

(** A spent permit carries a human's consent: in every interleaving, whatever
    a call spends was approved by a human other than its requester before its
    deadline, was spent before its deadline, and is recorded as used. *)
Theorem spent_permit_was_granted (s : S) calls c' i a :
  store_wf s → approvals_ok s →
  rtc (step (proto_owned APPROVAL_NAMESPACE)) (mkConfig s (run_approval_call <$> calls) []) c' →
  cfg_threads c' !! i = Some (Ret (Some a)) →
  approval_state a = ApprovalUsed ∧ human_consent a ∧
  (∃ t, used_at a = Some t ∧ t < approval_expires_at a).
Proof.
  intros Hwf Hok Hsteps Hi.
  destruct (approval_pool_spent s calls c' i a Hwf Hok Hsteps Hi) as [Hr Ha].
  by eapply spent_consented.
Qed.

(** A request that finds no document under its id is stored as given and
    reported as created; a request whose id is taken stores nothing and returns
    the document there, whatever its state: an action whose request was
    rejected, expired or already used cannot be asked for again. *)
Theorem request_converges now (s : S) a :
  store_wf s → store_up s →
  match contents s !! (APPROVAL_NAMESPACE, approval_key a) with
  | None => ∃ s' val, run now (ApprovalStore_request a) s = (Ok (a, true), s') ∧
      from_value val = Ok a ∧
      contents s' = <[(APPROVAL_NAMESPACE, approval_key a) := (1, val)]> (contents s)
  | Some (_, val) => ∀ b, from_value val = Ok b →
      run now (ApprovalStore_request a) s = (Ok (b, false), s)
  end.
Proof.
  intros Hwf Hup. unfold ApprovalStore_request. rewrite run_bind.
  destruct (contents s !! (APPROVAL_NAMESPACE, approval_key a)) as [[v val]|] eqn:E.
  - intros b Hb.
    destruct (run_ns_put_conflict now s APPROVAL_NAMESPACE (approval_key a) a (Some 0))
      as (ex & ac & Hp); [done| |].
    { rewrite E. simpl. apply contents_version in E; [|done]. lia. }
    rewrite Hp. unfold ApprovalStore_get. rewrite !run_bind.
    by rewrite (run_ns_get_some now s _ _ v val b).
  - destruct (run_ns_put_ok now s APPROVAL_NAMESPACE (approval_key a) a (Some 0))
      as (r & s' & val & Hp & _ & Hv & _ & Hc); [done| | |].
    + by rewrite E.
    + by rewrite E.
    + rewrite Hp. exists s', val. rewrite Hc, E. done.
Qed.
End PoolProperties.

(** The look-up of a permit does not see the action: an approval given for one
    action of one requester covers every other action of the same tool on the
    same case, by whoever asks. *)
Theorem covers_ignores_action k tool case project d d' by_ by' reason st r e da db note u :
  approval_covers
    (mkApproval k (mkApprovalRequest tool case project d by_ reason) st r e da db note u) tool case
  = true ∧
  ∀ t c, approval_covers
    (mkApproval k (mkApprovalRequest tool case project d by_ reason) st r e da db note u) t c =
  approval_covers
    (mkApproval k (mkApprovalRequest tool case project d' by' reason) st r e da db note u) t c.
Proof. split; [|done]. unfold approval_covers. simpl. by rewrite !bool_decide_eq_true_2. Qed.

(** *** Witnesses *)

Definition witness_permit (k : string) : ToolApproval :=
  mkApproval k
    (mkApprovalRequest "scale_workers" (Some "c-1") None (Some "d") (Principal_agent "bot") None)
    ApprovalApproved 0 100 (Some 1) (Some (Principal_user "ada")) None None.

Definition witness_permits : InMemoryRecordStore ToolApproval :=
  mkInMemory
    {[ ("approvals", "apr-1") := mkRecord "approvals" "apr-1" 2 (witness_permit "apr-1") 1;
       ("approvals", "apr-2") := mkRecord "approvals" "apr-2" 2 (witness_permit "apr-2") 1 ]} false.

#[local] Existing Instance identity_serde.
#[local] Existing Instance identity_serde_ok.
#[local] Existing Instance zero_sha.

Lemma witness_permits_wf : store_wf witness_permits.
Proof.
  apply map_Forall_insert_2; [split; simpl; [done|lia]|].
  apply map_Forall_singleton. split; simpl; [done|lia].
Qed.

Lemma witness_permits_ok : approvals_ok witness_permits.
Proof.
  intros k v val a Hl Hv. simpl in Hv. injection Hv as ->. revert Hl. cbn [contents InMemory_Ok].
  rewrite in_memory_contents_lookup. intros (r & Hr & [= -> ->])%fmap_Some. revert Hr.
  cbn [inner witness_permits].
  intros [[[= <-] <-]|[_ [[= <-] <-]%lookup_singleton_Some]]%lookup_insert_Some;
    (split; [done|]); (split; [|done]); intros _; exists (Principal_user "ada"), 1; simpl;
    split_and!; done || lia.
Qed.

(** Two calls spend two permits, their store operations interleaved. *)
Lemma consent_spent_once_witness : "apr-1" ≠ "apr-2".
Proof.
  apply (consent_spent_once witness_permits [CallConsume "apr-1" 5; CallConsume "apr-2" 6]
    (exec 9 [0; 1; 1; 0]%nat _) 0 1
    (mkApproval "apr-1" (approval_request (witness_permit "apr-1")) ApprovalUsed 0 100 (Some 1)
       (Some (Principal_user "ada")) None (Some 5))
    (mkApproval "apr-2" (approval_request (witness_permit "apr-2")) ApprovalUsed 0 100 (Some 1)
       (Some (Principal_user "ada")) None (Some 6)) witness_permits_wf witness_permits_ok
    (exec_rtc _ _ _ _)).
  - vm_compute. reflexivity.
  - vm_compute. reflexivity.
  - discriminate.
Defined.

Lemma spent_permit_was_granted_witness :
  human_consent (mkApproval "apr-1" (approval_request (witness_permit "apr-1")) ApprovalUsed 0 100
    (Some 1) (Some (Principal_user "ada")) None (Some 5)).
Proof.
  apply (spent_permit_was_granted witness_permits
    [CallConsumeApproved "scale_workers" (Some "c-1") 5] (exec 9 [0; 0]%nat _) 0 _
    witness_permits_wf witness_permits_ok (exec_rtc _ _ _ _)).
  vm_compute. reflexivity.
Defined.

Lemma request_converges_witness :
  run 7 (ApprovalStore_request (witness_permit "apr-1")) witness_permits =
  (Ok (witness_permit "apr-1", false), witness_permits).
Proof.
  pose proof (request_converges 7 witness_permits (witness_permit "apr-1") witness_permits_wf
    eq_refl) as Hx.
  assert (contents witness_permits !! (APPROVAL_NAMESPACE, "apr-1") =
    Some (2, witness_permit "apr-1")) as E by reflexivity.
  change (approval_key (witness_permit "apr-1")) with "apr-1" in Hx.
  rewrite E in Hx. apply Hx. reflexivity.
Defined.
