(* ===== verification/Outbox.v ===== *)
(** * The transactional outbox

    [OutboxEntry] of [uc-types/src/governance/submission.rs] and [OutboxQueue] of
    [uc-engine/src/governance/outbox.rs]: publications are written before the
    transport is touched, claimed by compare-and-swap, retried with a bounded
    backoff and parked after [OUTBOX_MAX_ATTEMPTS] failures. *)

From Stdlib Require Import String.
From S2P Require Import Prelude RustStr Store Prog Concurrency Protocol.

(** ** Entries *)

Definition OUTBOX_NAMESPACE : string := "outbox".
Definition OUTBOX_MAX_ATTEMPTS : Z := 12.

Inductive OutboxState : Type := OutboxPending | InFlight | Delivered | Dead.
#[export] Instance OutboxState_eq_dec : EqDecision OutboxState.
Proof. solve_decision. Defined.

Definition OutboxState_as_str (s : OutboxState) : string :=
  match s with
  | OutboxPending => "pending"
  | InFlight => "in_flight"
  | Delivered => "delivered"
  | Dead => "dead"
  end.

Record OutboxEntry : Type := mkEntry {
  entry_key : string;
  subject : string;
  payload : string;
  entry_state : OutboxState;
  attempts : Z;
  next_attempt_at_ms : Z;
  entry_created_at : Instant;
  entry_updated_at : Instant;
  delivered_at : option Instant;
  entry_last_error : option string
}.

Definition OutboxEntry_new (key subj pay : string) (now : Instant) : OutboxEntry :=
  mkEntry key subj pay OutboxPending 0 (timestamp_millis now) now now None None.

Definition is_due (e : OutboxEntry) (now_ms : Z) : bool :=
  (entry_state e ==? OutboxPending) && (next_attempt_at_ms e <=? now_ms).

(** [250 * (1 << attempts.min(7))], saturating, capped at 30 s. *)
Definition backoff_ms (n : Z) : Z :=
  Z.min (i64_saturating (250 * Z.shiftl 1 (Z.min n 7))) 30000.

Definition OutboxEntry_schedule_retry (e : OutboxEntry) (error : string) (now : Instant)
    : OutboxEntry :=
  let n := u32_saturating_add (attempts e) 1 in
  if OUTBOX_MAX_ATTEMPTS <=? n then
    mkEntry (entry_key e) (subject e) (payload e) Dead n (next_attempt_at_ms e)
      (entry_created_at e) now (delivered_at e) (Some error)
  else
    mkEntry (entry_key e) (subject e) (payload e) OutboxPending n
      (i64_saturating (timestamp_millis now + backoff_ms n))
      (entry_created_at e) now (delivered_at e) (Some error).

Definition OutboxEntry_mark_delivered (e : OutboxEntry) (now : Instant) : OutboxEntry :=
  mkEntry (entry_key e) (subject e) (payload e) Delivered (attempts e) (next_attempt_at_ms e)
    (entry_created_at e) now (Some now) None.

Definition recover_in_flight (e : OutboxEntry) (now : Instant) : bool * OutboxEntry :=
  if entry_state e !=? InFlight then (false, e)
  else (true, mkEntry (entry_key e) (subject e) (payload e) OutboxPending (attempts e)
                (timestamp_millis now) (entry_created_at e) now (delivered_at e)
                (entry_last_error e)).

(** [entry.state = InFlight; entry.updated_at = now], in [claim_due]. *)
Definition claim_entry (e : OutboxEntry) (now : Instant) : OutboxEntry :=
  mkEntry (entry_key e) (subject e) (payload e) InFlight (attempts e) (next_attempt_at_ms e)
    (entry_created_at e) now (delivered_at e) (entry_last_error e).

(** ** The queue *)

Inductive OutboxError : Type := OutboxStore (e : RecordError).

Definition OutboxError_display (e : OutboxError) : string :=
  match e with OutboxStore error => "outbox: " +:+ RecordError_display error end.

Definition usize_max : Z := u64_max.

Section Queue.
Context {Value : Type} {Sd : Serde Value OutboxEntry}.
Notation prog := (prog Value).

Definition OutboxQueue_get (key : string) : prog (result (option OutboxEntry) OutboxError) :=
  let! r := ns_get OUTBOX_NAMESPACE key in
  Ret match r with
      | Ok o => Ok (fst <$> o)
      | Err e => Err (OutboxStore e)
      end.

Definition enqueue (entry : OutboxEntry) : prog (result OutboxEntry OutboxError) :=
  let! w := ns_put OUTBOX_NAMESPACE (entry_key entry) entry (Some 0) in
  match w with
  | Ok _ => Ret (Ok entry)
  | Err (Conflict _ _) =>
      let! g := OutboxQueue_get (entry_key entry) in
      Ret match g with
          | Err e => Err e
          | Ok (Some existing) => Ok existing
          | Ok None => Err (OutboxStore (Conflict 0 None))
          end
  | Err other => Ret (Err (OutboxStore other))
  end.

Definition OutboxQueue_list (limit : nat) : prog (result (list (OutboxEntry * Z)) OutboxError) :=
  let! l := ns_list OUTBOX_NAMESPACE limit in Ret (map_err OutboxStore l).

Definition by_created (a b : OutboxEntry) : bool := entry_created_at a <=? entry_created_at b.

(** The loop of [claim_due]; [claimed] grows at its end. *)
Fixpoint claim_loop (candidates : list (OutboxEntry * Z)) (now : Instant) (limit : nat)
    (claimed : list OutboxEntry) : prog (result (list OutboxEntry) OutboxError) :=
  match candidates with
  | [] => Ret (Ok (sort_by by_created claimed))
  | (entry, version) :: rest =>
      if (limit <=? length claimed)%nat then Ret (Ok (sort_by by_created claimed))
      else if negb (is_due entry (timestamp_millis now)) || (entry_state entry !=? OutboxPending)
      then claim_loop rest now limit claimed
      else
        let entry' := claim_entry entry now in
        let! w := ns_put OUTBOX_NAMESPACE (entry_key entry') entry' (Some version) in
        match w with
        | Ok _ => claim_loop rest now limit (claimed ++ [entry'])
        | Err (Conflict _ _) => claim_loop rest now limit claimed
        | Err other => Ret (Err (OutboxStore other))
        end
  end.

(** [limit.saturating_mul(4).max(limit)] candidates are read. *)
Definition claim_scan (limit : nat) : nat :=
  Nat.max (Z.to_nat (Z.min (4 * Z.of_nat limit) usize_max)) limit.

Definition claim_due (now : Instant) (limit : nat) : prog (result (list OutboxEntry) OutboxError) :=
  let! l := ns_list OUTBOX_NAMESPACE (claim_scan limit) in
  match l with
  | Err e => Ret (Err (OutboxStore e))
  | Ok candidates => claim_loop candidates now limit []
  end.

(** [mutate]: eight rounds of read, change, compare-and-swap. *)
Definition OutboxQueue_mutate (key : string) (f : OutboxEntry → OutboxEntry)
    : prog (result (option OutboxEntry) OutboxError) :=
  cas_loop 8 OUTBOX_NAMESPACE key (Ok None)
    (λ entry _, Write (f entry) (Ok (Some (f entry))))
    (λ e, Err (OutboxStore e)) (Err (OutboxStore (Conflict 0 None))).

Definition OutboxQueue_mark_delivered (key : string) (now : Instant) :=
  OutboxQueue_mutate key (λ e, OutboxEntry_mark_delivered e now).
Definition OutboxQueue_schedule_retry (key error : string) (now : Instant) :=
  OutboxQueue_mutate key (λ e, OutboxEntry_schedule_retry e error now).

Fixpoint recover_loop (entries : list (OutboxEntry * Z)) (now : Instant) (recovered : nat)
    : prog (result nat OutboxError) :=
  match entries with
  | [] => Ret (Ok recovered)
  | (entry, version) :: rest =>
      if entry_state entry !=? InFlight then recover_loop rest now recovered
      else match recover_in_flight entry now with
           | (false, _) => recover_loop rest now recovered
           | (true, entry') =>
               let! w := ns_put OUTBOX_NAMESPACE (entry_key entry') entry' (Some version) in
               match w with
               | Ok _ => recover_loop rest now (Datatypes.S recovered)
               | Err (Conflict _ _) => recover_loop rest now recovered
               | Err other => Ret (Err (OutboxStore other))
               end
           end
  end.

Definition OutboxQueue_recover (now : Instant) : prog (result nat OutboxError) :=
  let! l := ns_list OUTBOX_NAMESPACE 1000 in
  match l with
  | Err e => Ret (Err (OutboxStore e))
  | Ok entries => recover_loop entries now 0
  end.

Definition dead_letters (limit : nat) : prog (result (list OutboxEntry) OutboxError) :=
  let! l := ns_list OUTBOX_NAMESPACE limit in
  Ret match l with
      | Err e => Err (OutboxStore e)
      | Ok entries => Ok (filterb (λ e, entry_state e ==? Dead) (entries.*1))
      end.

Definition pending_count : prog (result nat OutboxError) :=
  let! l := ns_list OUTBOX_NAMESPACE 1000 in
  Ret match l with
      | Err e => Err (OutboxStore e)
      | Ok entries =>
          Ok (length (filterb (λ ev, match entry_state (fst ev) with
                                     | OutboxPending | InFlight => true
                                     | _ => false
                                     end) (entries : list (OutboxEntry * Z))))
      end.

Definition max_attempts : Z := OUTBOX_MAX_ATTEMPTS.
End Queue.

(** ** The protocol of the outbox *)

Definition entry_created (e : OutboxEntry) : Prop :=
  entry_state e = OutboxPending ∧ attempts e = 0.

Inductive entry_move : OutboxEntry → OutboxEntry → Prop :=
| entry_claim e now : entry_state e = OutboxPending → entry_move e (claim_entry e now)
| entry_deliver e now : entry_move e (OutboxEntry_mark_delivered e now)
| entry_retry e error now : entry_move e (OutboxEntry_schedule_retry e error now)
| entry_recover e now : entry_state e = InFlight → entry_move e (recover_in_flight e now).2.

(** A live entry has failed fewer than twelve times, a parked one at least twelve. *)
Definition entry_ok (e : OutboxEntry) : Prop :=
  0 <= attempts e ∧
  (entry_state e = OutboxPending ∨ entry_state e = InFlight → attempts e < OUTBOX_MAX_ATTEMPTS) ∧
  (entry_state e = Dead → OUTBOX_MAX_ATTEMPTS <= attempts e).

Lemma entry_move_key e e' : entry_move e e' → entry_key e' = entry_key e.
Proof.
  destruct 1; try done.
  - unfold OutboxEntry_schedule_retry. by destruct (_ <=? _).
  - unfold recover_in_flight. by destruct (_ !=? _).
Qed.

Lemma retry_ok e error now : 0 <= attempts e → entry_ok (OutboxEntry_schedule_retry e error now).
Proof.
  intros Ha. unfold entry_ok, OutboxEntry_schedule_retry, u32_saturating_add, u32_max,
    OUTBOX_MAX_ATTEMPTS.
  destruct (Z.leb_spec 12 (Z.min (attempts e + 1) (2 ^ 32 - 1))); simpl.
  - split_and!; [lia|by intros [|]|lia].
  - split_and!; [lia|lia|done].
Qed.

Lemma entry_ok_preserved : preserved entry_created entry_move entry_ok.
Proof.
  split.
  - intros e [Hs Ha]. unfold entry_ok, OUTBOX_MAX_ATTEMPTS. rewrite Hs, Ha. split_and!; done || lia.
  - destruct 1 as [e now Hs|e now|e error now|e now Hs]; intros (Ha & Hl & Hd).
    + unfold entry_ok. cbn. split_and!; [done| |done]. intros _. auto.
    + unfold entry_ok. cbn. split_and!; [done|by intros [|]|done].
    + by apply retry_ok.
    + unfold recover_in_flight. rewrite Hs. cbn. split_and!; [done| |done]. intros _. auto.
Qed.

(** ** Calls in flight *)

Inductive outbox_call : Type :=
| CallEnqueue (key subj pay : string) (now : Instant)
| CallClaimDue (now : Instant) (limit : nat)
| CallMarkDelivered (key : string) (now : Instant)
| CallScheduleRetry (key error : string) (now : Instant)
| CallRecover (now : Instant).

Section Pool.
Context {S Value : Type} {St : RecordStore S Value} {StOk : RecordStoreOk S Value}
        {Sd : Serde Value OutboxEntry}.

(** Each call returns the entries it claimed. *)
Definition run_outbox_call (c : outbox_call) : prog Value (list OutboxEntry) :=
  match c with
  | CallEnqueue key subj pay now =>
      let! _ := enqueue (OutboxEntry_new key subj pay now) in Ret []
  | CallClaimDue now limit =>
      let! r := claim_due now limit in Ret match r with Ok l => l | Err _ => [] end
  | CallMarkDelivered key now => let! _ := OutboxQueue_mark_delivered key now in Ret []
  | CallScheduleRetry key error now => let! _ := OutboxQueue_schedule_retry key error now in Ret []
  | CallRecover now => let! _ := OutboxQueue_recover now in Ret []
  end.

Notation owned := (proto_owned OUTBOX_NAMESPACE).
Notation allowed := (proto_allowed OUTBOX_NAMESPACE entry_key entry_created entry_move).
Notation interfere := (interfere owned allowed).
Notation wp := (wp owned allowed).
Notation edocs := (docs OUTBOX_NAMESPACE entry_key).
Notation elisted := (listed OUTBOX_NAMESPACE entry_key).

(** A write that takes a pending entry in flight. *)
Definition claim_event (k : string) (e : event Value) : Prop :=
  event_at OUTBOX_NAMESPACE k e ∧
  ∃ v val x x', ev_old e = Some (v, val) ∧ from_value val = Ok x ∧
    entry_state x = OutboxPending ∧ from_value (ev_new e) = Ok x' ∧ entry_state x' = InFlight.

(** A write that makes an entry that was not pending pending again. *)
Definition requeue_event (k : string) (e : event Value) : Prop :=
  event_at OUTBOX_NAMESPACE k e ∧
  ∃ v val x x', ev_old e = Some (v, val) ∧ from_value val = Ok x ∧
    entry_state x ≠ OutboxPending ∧ from_value (ev_new e) = Ok x' ∧
    entry_state x' = OutboxPending.

Definition claimed_by (i : nat) (l : list OutboxEntry) (σ : astate Value) : Prop :=
  ∀ e, e ∈ l → ∃ ev, ev ∈ σ.2 ∧ ev_thread ev = i ∧ claim_event (entry_key e) ev.

Lemma claimed_by_rtc i l σ σ' : rtc interfere σ σ' → claimed_by i l σ → claimed_by i l σ'.
Proof.
  intros Hr Hc e He. destruct (Hc e He) as (ev & Hev & ?). exists ev. split; [|done].
  by eapply logged_rtc.
Qed.

Context {SdOk : SerdeOk Value OutboxEntry}.

Lemma wp_enqueue i e σ :
  edocs (λ _, True) σ → entry_created e → wp i (enqueue e) (λ _ _, True) σ.
Proof.
  intros Hd He. apply wp_bind, wp_create; [exact _|done|done|done| |].
  - intros val r σw σ' _ _ _ _ _. by apply wp_ret.
  - intros err σ' Hr. destruct err; try by apply wp_ret.
    apply wp_bind, wp_bind, wp_doc_get; [by eapply docs_true| | |].
    + intros v val x σr σ'' _ _ _ _ _. apply wp_ret. intros. by apply wp_ret.
    + intros σ'' _. apply wp_ret. intros. by apply wp_ret.
    + intros e' σ'' _. apply wp_ret. intros. by apply wp_ret.
Qed.

Lemma wp_mutate i key f σ :
  edocs (λ _, True) σ → (∀ e, entry_move e (f e)) →
  wp i (OutboxQueue_mutate key f) (λ _ _, True) σ.
Proof.
  intros Hd Hf. apply wp_cas_loop; try done.
  intros σ' v val x x' a val' Hr Hl Hx [= <- _] Hv' _. exists (f x).
  split_and!; [by apply from_to_value| |by eauto]. rewrite (entry_move_key _ _ (Hf x)).
  eapply docs_true in Hr; [|done]. destruct (Hr _ _ _ Hl) as [_ Hk]. by apply Hk.
Qed.

Lemma wp_claim_loop i cs now limit claimed σ :
  (∀ e v, (e, v) ∈ cs → elisted σ e v) → claimed_by i claimed σ →
  wp i (claim_loop cs now limit claimed)
    (λ r σ', claimed_by i match r with Ok l => l | Err _ => [] end σ') σ.
Proof.
  revert claimed σ. induction cs as [|[e v] cs IH]; intros claimed σ Hcs Hcl; cbn [claim_loop].
  { apply wp_ret. intros σ' Hr. apply (claimed_by_rtc i _ σ); [done|].
    intros x Hx%sort_by_elem. by apply Hcl. }
  assert (∀ σ', rtc interfere σ σ' → ∀ b w, (b, w) ∈ cs → elisted σ' b w) as Hcs'.
  { intros σ' Hr b w Hb. eapply listed_rtc; [done|]. apply Hcs. by right. }
  destruct (limit <=? length claimed)%nat.
  { apply wp_ret. intros σ' Hr. apply (claimed_by_rtc i _ σ); [done|].
    intros x Hx%sort_by_elem. by apply Hcl. }
  destruct (negb _ || _) eqn:Hdue; [by apply IH; [apply Hcs'|]|].
  apply orb_false_iff in Hdue as [_ Hp%negb_false_iff%bool_decide_eq_true_1].
  destruct (Hcs e v) as (val & Hk & Hx); [left|]. apply wp_bind.
  change (entry_key (claim_entry e now)) with (entry_key e).
  eapply wp_replace; [exact _|done|done|done|by apply entry_claim| |].
  - intros val' r σ' Hv Hr He. apply IH; [by apply Hcs'|].
    intros x [Hin|Hin]%elem_of_app; [by eapply claimed_by_rtc|].
    apply list_elem_of_singleton in Hin as ->. eexists. split_and!; [exact He|done|].
    split; [done|]. exists v, val, e, (claim_entry e now). split_and!; try done.
    by apply from_to_value.
  - intros err σ' Hr. destruct err; try by apply wp_ret; intros ??? []%elem_of_nil.
    apply IH; [by apply Hcs'|by eapply claimed_by_rtc].
Qed.

Lemma wp_recover_loop i es now n σ :
  (∀ e v, (e, v) ∈ es → elisted σ e v) → wp i (recover_loop es now n) (λ _ _, True) σ.
Proof.
  revert n σ. induction es as [|[e v] es IH]; intros n σ Hes; cbn [recover_loop].
  { by apply wp_ret. }
  assert (∀ σ', rtc interfere σ σ' → ∀ b w, (b, w) ∈ es → elisted σ' b w) as Hes'.
  { intros σ' Hr b w Hb. eapply listed_rtc; [done|]. apply Hes. by right. }
  case_bool_decide as Hs; [|by apply IH, Hes']. simpl.
  destruct (recover_in_flight e now) as [[] e'] eqn:E; [|by apply IH, Hes'].
  assert (entry_move e e') as Hm.
  { replace e' with (recover_in_flight e now).2 by (by rewrite E). by apply entry_recover. }
  destruct (Hes e v) as (val & Hk & Hx); [left|].
  apply wp_bind. rewrite (entry_move_key _ _ Hm).
  eapply wp_replace; [exact _|done|done|by apply entry_move_key|done| |].
  - intros val' r σ' Hv Hr He. by apply IH, Hes'.
  - intros err σ' Hr. destruct err; try by apply wp_ret. by apply IH, Hes'.
Qed.

Lemma wp_outbox_call i c σ :
  edocs (λ _, True) σ → wp i (run_outbox_call c) (claimed_by i) σ.
Proof.
  intros Hd. destruct c as [key subj pay now|now limit|key now|key error now|now];
    cbn [run_outbox_call]; apply wp_bind.
  - eapply wp_mono; [|by apply wp_enqueue]. intros _ σ' _. apply wp_ret. by intros ??? []%elem_of_nil.
  - apply wp_bind. apply wp_doc_list; [done| |].
    + intros xs σ' Hr Hxs. eapply wp_mono; [|apply wp_claim_loop; [done|by intros ? []%elem_of_nil]].
      intros r σ'' Hc. apply wp_ret. intros σ3 Hr3. by eapply claimed_by_rtc.
    + intros e σ' Hr. apply wp_ret. intros. apply wp_ret. by intros ??? []%elem_of_nil.
  - eapply wp_mono; [|apply wp_mutate; [done|intros e; apply entry_deliver]].
    intros _ σ' _. apply wp_ret. by intros ??? []%elem_of_nil.
  - eapply wp_mono; [|apply wp_mutate; [done|intros e; apply entry_retry]].
    intros _ σ' _. apply wp_ret. by intros ??? []%elem_of_nil.
  - apply wp_bind, wp_doc_list; [done| |].
    + intros xs σ' Hr Hxs. eapply wp_mono; [|by apply wp_recover_loop].
      intros _ σ'' _. apply wp_ret. by intros ??? []%elem_of_nil.
    + intros e σ' Hr. apply wp_ret. intros. apply wp_ret. by intros ??? []%elem_of_nil.
Qed.

(** The stored entries are well-formed and under their own keys. *)
Definition outbox_ok (s : S) : Prop :=
  ∀ k v val e, contents s !! (OUTBOX_NAMESPACE, k) = Some (v, val) → from_value val = Ok e →
    entry_key e = k ∧ entry_ok e.

Lemma outbox_docs s P h :
  store_wf s → (∀ e, entry_ok e → P e) → outbox_ok s → edocs P (contents s, h).
Proof.
  intros Hwf HP Hok k v val Hl. split; [by eapply contents_version|]. intros x Hx.
  destruct (Hok k v val x Hl Hx) as [? ?]. auto.
Qed.

Notation pool s calls := (mkConfig s (run_outbox_call <$> calls) []).

Lemma outbox_pool_wp s calls :
  store_wf s → outbox_ok s → all_wp owned allowed claimed_by (pool s calls).
Proof.
  intros Hwf Hok. split; [done|]. intros i p Hi. cbn in Hi.
  apply list_lookup_fmap_Some in Hi as (c & -> & _).
  apply wp_outbox_call. by apply outbox_docs.
Qed.

(** Two claims of one entry are separated by a write that requeued it. *)
Lemma claims_separated (h : list (event Value)) k e1 e2 :
  (∃ m : contents_map Value, linked OUTBOX_NAMESPACE entry_key entry_created entry_move (m, h)) →
  e1 ∈ h → e2 ∈ h → e1 ≠ e2 → claim_event k e1 → claim_event k e2 →
  ∃ e, e ∈ h ∧ requeue_event k e.
Proof.
  intros [m Hlink]. destruct (Hlink k) as (Hch & _ & Hdec). cbn [snd] in *.
  assert (∀ n e, history OUTBOX_NAMESPACE k h !! n = Some e →
    ∃ x', from_value (ev_new e) = Ok x') as Hdec' by (intros n e He; naive_solver).
  assert (∀ n1 n2 a b, (n1 < n2)%nat → history OUTBOX_NAMESPACE k h !! n1 = Some a →
    history OUTBOX_NAMESPACE k h !! n2 = Some b → claim_event k a → claim_event k b →
    ∃ e, e ∈ h ∧ requeue_event k e) as Hmain.
  { intros n1 n2 a b Hlt Ha Hb (_ & va & vala & xa & xa' & _ & _ & _ & Hxa & Hia)
      (_ & vb & valb & xb & xb' & Hob & Hxb & Hpb & _ & _).
    destruct (reentered OUTBOX_NAMESPACE (λ x, entry_state x ==? OutboxPending)
      k h n1 n2 a b xa' xb vb valb) as (n & e & v & val & x & x' & _ & He & Ho & Hx & Hpx & Hx' & Hpx');
      try done.
    - simpl. by rewrite Hia.
    - simpl. by apply bool_decide_eq_true.
    - exists e. apply list_elem_of_lookup_2, history_elem in He as [He Hk]. split; [done|].
      split; [done|]. exists v, val, x, x'. bool_hyps. split_and!; done. }
  intros H1 H2 Hne C1 C2.
  assert (e1 ∈ history OUTBOX_NAMESPACE k h) as [n1 Hn1]%list_elem_of_lookup
    by (apply history_elem; split; [done|apply C1]).
  assert (e2 ∈ history OUTBOX_NAMESPACE k h) as [n2 Hn2]%list_elem_of_lookup
    by (apply history_elem; split; [done|apply C2]).
  destruct (lt_eq_lt_dec n1 n2) as [[Hlt|Heq]|Hlt]; [by eapply (Hmain n1 n2)| |by eapply (Hmain n2 n1)].
  subst. congruence.
Qed.
End Pool.

(** Running an enqueue alone: afterwards the key is taken, and nothing else
    changed. *)
Lemma run_enqueue {S Value} {St : RecordStore S Value} {StOk : RecordStoreOk S Value}
    {Sd : Serde Value OutboxEntry} {SdOk : SerdeOk Value OutboxEntry} now (s : S) e :
  ready s →
  (∀ v val, contents s !! (OUTBOX_NAMESPACE, entry_key e) = Some (v, val) →
     ∃ x : OutboxEntry, from_value val = Ok x) →
  ∃ s' x, run now (enqueue e) s = (Ok x, s') ∧
    is_Some (contents s' !! (OUTBOX_NAMESPACE, entry_key e)) ∧
    ∀ k, k ≠ (OUTBOX_NAMESPACE, entry_key e) → contents s' !! k = contents s !! k.
Proof.
  intros Hs Hdec. unfold enqueue. rewrite run_bind.
  destruct (contents s !! (OUTBOX_NAMESPACE, entry_key e)) as [[v val]|] eqn:E.
  - destruct (Hdec v val eq_refl) as [x Hx].
    destruct (run_ns_put_conflict now s OUTBOX_NAMESPACE (entry_key e) e (Some 0))
      as (ex & ac & Hp); [done| |].
    { rewrite E. simpl. apply contents_version in E; [lia|apply Hs]. }
    rewrite Hp. unfold OutboxQueue_get. rewrite !run_bind.
    rewrite (run_ns_get_some now s _ _ v val x) by done.
    exists s, x. split_and!; [done|by rewrite E|done].
  - destruct (run_ns_put_ok now s OUTBOX_NAMESPACE (entry_key e) e (Some 0))
      as (r & s' & val & Hp & _ & Hv & _ & Hc); [done|by rewrite E|by rewrite E|].
    rewrite Hp. exists s', e. split_and!; [done| |].
    + rewrite Hc, lookup_insert_eq. done.
    + intros k Hk. by rewrite Hc, lookup_insert_ne.
Qed.

(** ** Properties *)

Section OutboxProperties.
Context {S Value : Type} {St : RecordStore S Value} {StOk : RecordStoreOk S Value}
        {Sd : Serde Value OutboxEntry} {SdOk : SerdeOk Value OutboxEntry}.

(** C5: a publication is claimed by one dispatcher at a time.  Whatever mix of
    enqueues, claims, deliveries, retries and recoveries is in flight, if two
    calls both came back with the entry [k], then the log holds a write that put
    [k] back in the queue (a retry or a recovery): a claim is exclusive until
    it is given up. *)
Theorem claims_exclusive (s : S) calls c' i j li lj a b :
  store_wf s → outbox_ok s →
  rtc (step (proto_owned OUTBOX_NAMESPACE)) (mkConfig s (run_outbox_call <$> calls) []) c' →
  cfg_threads c' !! i = Some (Ret li) → cfg_threads c' !! j = Some (Ret lj) → i ≠ j →
  a ∈ li → b ∈ lj → entry_key a = entry_key b →
  ∃ e, e ∈ cfg_log c' ∧ requeue_event (entry_key a) e.
Proof.
  intros Hwf Hok Hsteps Hi Hj Hij Ha Hb Hab.
  pose proof (outbox_pool_wp s calls Hwf Hok) as Hall.
  pose proof (steps_interfere _ _ _ _ _ Hall Hsteps) as Hr.
  destruct (wp_adequate _ _ _ _ _ Hall Hsteps i li Hi a Ha) as (e1 & He1 & Ht1 & Hc1).
  destruct (wp_adequate _ _ _ _ _ Hall Hsteps j lj Hj b Hb) as (e2 & He2 & Ht2 & Hc2).
  rewrite <-Hab in Hc2. eapply (claims_separated _ _ e1 e2); try done.
  - exists (contents (cfg_store c')). by apply (linked_rtc _ _ _ _ (contents s, [])).
  - intros ->. congruence.
Qed.

(** No publication is retried forever: in every state any pool of calls can
    reach, an entry that is still queued or in flight has failed fewer than
    twelve times and a parked one at least twelve. *)
Theorem outbox_attempts_bounded (s : S) calls c' k v val e :
  store_wf s → outbox_ok s →
  rtc (step (proto_owned OUTBOX_NAMESPACE)) (mkConfig s (run_outbox_call <$> calls) []) c' →
  contents (cfg_store c') !! (OUTBOX_NAMESPACE, k) = Some (v, val) → from_value val = Ok e →
  entry_key e = k ∧ 0 <= attempts e ∧
  (entry_state e = OutboxPending ∨ entry_state e = InFlight → attempts e < 12) ∧
  (entry_state e = Dead → 12 <= attempts e).
Proof.
  intros Hwf Hok Hsteps Hl He.
  pose proof (outbox_pool_wp s calls Hwf Hok) as Hall.
  pose proof (steps_interfere _ _ _ _ _ Hall Hsteps) as Hr.
  assert (docs OUTBOX_NAMESPACE entry_key entry_ok (astate_of c')) as Hd.
  { eapply docs_rtc; [apply entry_ok_preserved|exact Hr|]. by apply outbox_docs. }
  destruct (Hd k v val Hl) as [_ Hx]. by destruct (Hx e He) as [? (? & ? & ?)].
Qed.

(** Adding a publication under a new key stores it; under a key that is taken
    it changes nothing and returns the entry there, in whatever state, so a
    delivered or parked publication is not queued again. *)
Theorem enqueue_idempotent now (s : S) e :
  store_wf s → store_up s →
  match contents s !! (OUTBOX_NAMESPACE, entry_key e) with
  | None => ∃ s' val, run now (enqueue e) s = (Ok e, s') ∧ from_value val = Ok e ∧
      contents s' = <[(OUTBOX_NAMESPACE, entry_key e) := (1, val)]> (contents s)
  | Some (_, val) => ∀ x, from_value val = Ok x → run now (enqueue e) s = (Ok x, s)
  end.
Proof.
  intros Hwf Hup. unfold enqueue. rewrite run_bind.
  destruct (contents s !! (OUTBOX_NAMESPACE, entry_key e)) as [[v val]|] eqn:E.
  - intros x Hx. destruct (run_ns_put_conflict now s OUTBOX_NAMESPACE (entry_key e) e (Some 0))
      as (ex & ac & Hp); [done| |].
    { rewrite E. simpl. apply contents_version in E; [|done]. lia. }
    rewrite Hp. unfold OutboxQueue_get. rewrite !run_bind.
    by rewrite (run_ns_get_some now s _ _ v val x).
  - destruct (run_ns_put_ok now s OUTBOX_NAMESPACE (entry_key e) e (Some 0))
      as (r & s' & val & Hp & _ & Hv & _ & Hc); [done|by rewrite E|by rewrite E|].
    rewrite Hp. exists s', val. rewrite Hc, E. done.
Qed.

(** The dispatcher only looks at the first entries in key order: when none of
    the first [4 * limit] entries is due (delivered entries stay in the outbox
    and count), a claim returns nothing and changes nothing, however long other
    entries have been due. *)
Theorem claim_sees_a_prefix clock now (s : S) limit l (es : list (OutboxEntry * Z)) :
  store_wf s → store_up s → Z.of_nat (claim_scan limit) <= i64_max → store_listing s OUTBOX_NAMESPACE l →
  Forall2 (λ a x, from_value a.2 = Ok x.1 ∧ a.1.2 = x.2) (take (claim_scan limit) l) es →
  Forall (λ x, is_due x.1 (timestamp_millis now) = false) es →
  run clock (claim_due now limit) s = (Ok [], s).
Proof.
  intros Hwf Hup Hlim Hl Hes Hdue. unfold claim_due. rewrite run_bind.
  rewrite (run_ns_list clock s OUTBOX_NAMESPACE _ l es) by done. clear Hes.
  induction es as [|[e v] es IH]; [done|]. inv Hdue. cbn [claim_loop].
  destruct (limit <=? length [])%nat; [done|]. cbn in *. rewrite H1. by apply IH.
Qed.
End OutboxProperties.

(** The retry schedule: the first failure waits half a second, each further one
    twice as long up to thirty seconds, and the twelfth parks the entry; the
    payload, the subject and the key never change. *)
Theorem retry_schedule e error now :
  0 <= attempts e → i64_min <= timestamp_millis now <= i64_max - 30000 →
  let e' := OutboxEntry_schedule_retry e error now in
  (attempts e < 11 → entry_state e' = OutboxPending ∧ attempts e' = attempts e + 1 ∧
     next_attempt_at_ms e' = timestamp_millis now + backoff_ms (attempts e + 1) ∧
     500 <= backoff_ms (attempts e + 1) <= 30000) ∧
  (11 <= attempts e → entry_state e' = Dead) ∧
  (entry_key e', subject e', payload e') = (entry_key e, subject e, payload e) ∧
  backoff_ms <$> [1; 2; 3; 4; 5; 6; 7; 8; 9; 10; 11] =
    [500; 1000; 2000; 4000; 8000; 16000; 30000; 30000; 30000; 30000; 30000].
Proof.
  intros Ha Hnow e'.
  assert (∀ n, 1 <= n → 500 <= backoff_ms n <= 30000) as Hb.
  { intros n Hn. unfold backoff_ms, i64_saturating, i64_max, i64_min. rewrite Z.shiftl_1_l.
    assert (2 ^ 1 <= 2 ^ Z.min n 7 <= 2 ^ 7) by (split; apply Z.pow_le_mono_r; lia). lia. }
  subst e'. unfold OutboxEntry_schedule_retry, u32_saturating_add, u32_max, OUTBOX_MAX_ATTEMPTS.
  split_and!.
  - intros Hlt. rewrite Z.min_l by lia. destruct (Z.leb_spec 12 (attempts e + 1)); [lia|].
    split_and!; try done; try apply Hb; try lia. simpl. unfold i64_saturating.
    specialize (Hb (attempts e + 1) ltac:(lia)). unfold i64_max, i64_min in *. lia.
  - intros Hge. destruct (Z.leb_spec 12 (Z.min (attempts e + 1) (2 ^ 32 - 1))); [done|lia].
  - by destruct (12 <=? _).
  - reflexivity.
Qed.

(** *** Witnesses *)

#[local] Existing Instance identity_serde.
#[local] Existing Instance identity_serde_ok.

Definition witness_entry (k : string) : OutboxEntry := OutboxEntry_new k "uc.task.submit" "{}" 0.

Definition witness_outbox : InMemoryRecordStore OutboxEntry :=
  mkInMemory {[ ("outbox", "k") := mkRecord "outbox" "k" 1 (witness_entry "k") 0 ]} false.

Lemma witness_outbox_wf : store_wf witness_outbox.
Proof. apply map_Forall_singleton. split; simpl; [done|lia]. Qed.

Lemma witness_outbox_ok : outbox_ok witness_outbox.
Proof.
  intros k v val a Hl Hv. simpl in Hv. injection Hv as ->. revert Hl. cbn [contents InMemory_Ok].
  rewrite in_memory_contents_lookup. intros (r & Hr & [= -> ->])%fmap_Some.
  revert Hr. cbn [inner witness_outbox]. intros [[= <-] <-]%lookup_singleton_Some. split; [done|].
  unfold entry_ok, OUTBOX_MAX_ATTEMPTS. simpl. split_and!; done || lia.
Qed.

(** Claimed, recovered, claimed again. *)
Lemma claims_exclusive_witness : ∃ e : event OutboxEntry, requeue_event "k" e.
Proof.
  destruct (claims_exclusive witness_outbox
    [CallClaimDue 1000000 1; CallRecover 2000000; CallClaimDue 3000000 1]
    (exec 9 [0; 0; 1; 1; 2; 2]%nat _) 0 2
    [claim_entry (witness_entry "k") 1000000]
    [claim_entry (recover_in_flight (claim_entry (witness_entry "k") 1000000) 2000000).2 3000000]
    (claim_entry (witness_entry "k") 1000000)
    (claim_entry (recover_in_flight (claim_entry (witness_entry "k") 1000000) 2000000).2 3000000)
    witness_outbox_wf witness_outbox_ok (exec_rtc _ _ _ _)) as (e & _ & He).
  - vm_compute. reflexivity.
  - vm_compute. reflexivity.
  - discriminate.
  - apply list_elem_of_singleton. reflexivity.
  - apply list_elem_of_singleton. reflexivity.
  - reflexivity.
  - exists e. exact He.
Defined.

Lemma outbox_attempts_bounded_witness : 0 <= attempts (claim_entry (witness_entry "k") 1000000).
Proof.
  apply (outbox_attempts_bounded witness_outbox [CallClaimDue 1000000 1]
    (exec 9 [0; 0]%nat _) "k" 2 (claim_entry (witness_entry "k") 1000000) _
    witness_outbox_wf witness_outbox_ok (exec_rtc _ _ _ _)).
  - vm_compute. reflexivity.
  - reflexivity.
Defined.

Lemma enqueue_idempotent_witness :
  run 7 (enqueue (OutboxEntry_new "k" "other" "other" 5)) witness_outbox =
  (Ok (witness_entry "k"), witness_outbox).
Proof.
  pose proof (enqueue_idempotent 7 witness_outbox (OutboxEntry_new "k" "other" "other" 5)
    witness_outbox_wf eq_refl) as Hx.
  assert (contents witness_outbox !! (OUTBOX_NAMESPACE, "k") =
    Some (1, witness_entry "k")) as E by reflexivity.
  change (entry_key (OutboxEntry_new "k" "other" "other" 5)) with "k" in Hx.
  rewrite E in Hx. apply Hx. reflexivity.
Defined.

(** Four delivered publications hide a fifth that has been due for a second. *)
Definition witness_backlog : InMemoryRecordStore OutboxEntry :=
  mkInMemory
    {[ ("outbox", "a") := mkRecord "outbox" "a" 1 (OutboxEntry_mark_delivered (witness_entry "a") 0) 0;
       ("outbox", "b") := mkRecord "outbox" "b" 1 (OutboxEntry_mark_delivered (witness_entry "b") 0) 0;
       ("outbox", "c") := mkRecord "outbox" "c" 1 (OutboxEntry_mark_delivered (witness_entry "c") 0) 0;
       ("outbox", "d") := mkRecord "outbox" "d" 1 (OutboxEntry_mark_delivered (witness_entry "d") 0) 0;
       ("outbox", "e") := mkRecord "outbox" "e" 1 (witness_entry "e") 0 ]} false.

Lemma claim_sees_a_prefix_witness :
  run 9 (claim_due 1000000000 1) witness_backlog = (Ok [], witness_backlog) ∧
  is_due (witness_entry "e") (timestamp_millis 1000000000) = true.
Proof.
  split; [|reflexivity].
  assert (in_memory_wf witness_backlog) as Hwf.
  { repeat (apply map_Forall_insert_2; [split; simpl; [reflexivity|lia]|]).
    apply map_Forall_empty. }
  eapply (claim_sees_a_prefix 9 1000000000 witness_backlog 1 _
    ((λ k, (OutboxEntry_mark_delivered (witness_entry k) 0, 1)) <$> ["a"; "b"; "c"; "d"])).
  - exact Hwf.
  - reflexivity.
  - vm_compute. discriminate.
  - exact (in_memory_listing witness_backlog "outbox" Hwf).
  - vm_compute. repeat constructor.
  - vm_compute. repeat constructor.
Defined.

Lemma retry_schedule_witness :
  next_attempt_at_ms (OutboxEntry_schedule_retry (witness_entry "k") "refused" 5000000) = 505.
Proof.
  destruct (retry_schedule (witness_entry "k") "refused" 5000000) as [Hs _];
    [discriminate|split; discriminate|].
  destruct Hs as (_ & _ & Hn & _); [reflexivity|]. rewrite Hn. reflexivity.
Defined.
