(* ===== verification/Submission.v ===== *)
(** * Submissions: identity, content and the submit-once protocol

    [uc-types/src/governance/submission.rs] (identity, normalization, the
    submission record) and [uc-engine/src/governance/submission.rs]
    ([SubmissionStore]).  The JSON payload handed to the transport is the text
    serde_json renders, a parameter ([Payload]).  The main result is about
    interleavings: one submission id creates one task, whatever retries and
    state changes run at the same time. *)

From Stdlib Require Import String Ascii.
From S2P Require Import Prelude RustStr Store Prog Concurrency Protocol Policy Outbox.

(** ** Normalization *)

Definition nl : ascii := ascii_of_N 10.
Definition cr : ascii := ascii_of_N 13.

(** [replace] of CR LF by LF, then of every CR by LF. *)
Fixpoint unify_crlf (l : list ascii) : list ascii :=
  match l with
  | [] => []
  | c :: l' =>
      match l' with
      | d :: l'' => if (c ==? cr) && (d ==? nl) then nl :: unify_crlf l'' else c :: unify_crlf l'
      | [] => [c]
      end
  end.

Definition unify_cr (l : list ascii) : list ascii := (λ c, if c ==? cr then nl else c) <$> l.

Definition is_nl (c : ascii) : bool := c ==? nl.

Definition normalize_chars (l : list ascii) : list ascii :=
  let unified := unify_cr (unify_crlf l) in
  let trimmed_lines := trim_end_by is_whitespace <$> split_char nl unified in
  trim_end_by is_nl (trim_start_by is_nl (join_char nl trimmed_lines)).

Definition normalize_request (description : string) : string :=
  of_chars (normalize_chars (chars description)).

(** ** Identity *)

Definition nul : string := of_chars [ascii_of_N 0].

Section Identity.
Context `{Sha256}.

Definition request_digest (project_id description : string) : string :=
  sha256_hex (project_id +:+ nul +:+ normalize_request description).

Definition SubmissionId_caller_supplied (key : string) : string := trim key.

Definition SubmissionId_derive (principal : Principal) (project_id description : string) : string :=
  let digest := request_digest project_id description in
  "auto-" +:+ prefix_slice 32
    (sha256_hex (Principal_display principal +:+ "|" +:+ project_id +:+ "|" +:+ digest)).

Definition SubmissionId_is_empty (i : string) : bool := trim i ==? "".

Definition derive_task_id (submission_id : string) : string :=
  "sub-" +:+ prefix_slice 32 (sha256_hex ("task:" +:+ submission_id)).
End Identity.

(** ** Records *)

Definition SUBMISSION_NAMESPACE : string := "submission".

Inductive SubmissionState : Type :=
| Received | Published | Applied | SubmissionFailed | Abandoned.
#[export] Instance SubmissionState_eq_dec : EqDecision SubmissionState.
Proof. solve_decision. Defined.

Definition SubmissionState_as_str (s : SubmissionState) : string :=
  match s with
  | Received => "received"
  | Published => "published"
  | Applied => "applied"
  | SubmissionFailed => "failed"
  | Abandoned => "abandoned"
  end.

Definition SubmissionState_from_str_lossy (value : string) : option SubmissionState :=
  let v := to_ascii_lowercase (trim value) in
  if v ==? "received" then Some Received
  else if v ==? "published" then Some Published
  else if v ==? "applied" then Some Applied
  else if v ==? "failed" then Some SubmissionFailed
  else if v ==? "abandoned" then Some Abandoned
  else None.

Definition SubmissionState_is_terminal (s : SubmissionState) : bool :=
  match s with Applied | SubmissionFailed | Abandoned => true | _ => false end.

Record SubmissionRequest : Type := mkSubmission {
  submission_id : string;
  submission_principal : Principal;
  submission_project_id : string;
  submission_description : string;
  submission_case_id : option string
}.

Record SubmissionRecord : Type := mkSubmissionRecord {
  record_submission_id : string;
  record_task_id : string;
  record_state : SubmissionState;
  record_principal : Principal;
  record_project_id : string;
  record_request_digest : string;
  record_case_id : option string;
  record_outbox_key : option string;
  publish_attempts : Z;
  record_created_at : Instant;
  record_changed_at : Instant;
  published_at : option Instant;
  applied_at : option Instant;
  record_last_error : option string;
  record_cas_version : Z
}.

Inductive SubmitOnceOutcome : Type :=
| Created (record : SubmissionRecord)
| Replayed (record : SubmissionRecord)
| SubmitConflict (submission_id existing_digest requested_digest : string).

Definition outcome_record (o : SubmitOnceOutcome) : option SubmissionRecord :=
  match o with Created r | Replayed r => Some r | SubmitConflict _ _ _ => None end.

Section Records.
Context `{Sha256}.

Definition SubmissionRequest_new (principal : Principal) (project_id description : string)
    (id : option string) : SubmissionRequest :=
  mkSubmission (match id with
                | Some i => i
                | None => SubmissionId_derive principal project_id description
                end) principal project_id description None.

Definition SubmissionRequest_with_case (r : SubmissionRequest) (c : string) : SubmissionRequest :=
  mkSubmission (submission_id r) (submission_principal r) (submission_project_id r)
    (submission_description r) (Some c).

Definition SubmissionRequest_digest (r : SubmissionRequest) : string :=
  let material := submission_project_id r +:+ nul +:+ normalize_request (submission_description r) in
  sha256_hex match submission_case_id r with
             | Some c => material +:+ nul +:+ c
             | None => material
             end.

Definition SubmissionRecord_new (r : SubmissionRequest) (now : Instant) : SubmissionRecord :=
  mkSubmissionRecord (submission_id r) (derive_task_id (submission_id r)) Received
    (submission_principal r) (submission_project_id r) (SubmissionRequest_digest r)
    (submission_case_id r) None 0 now now None None None 0.

Definition task_id_matches_derivation (r : SubmissionRecord) : bool :=
  derive_task_id (record_submission_id r) ==? record_task_id r.
End Records.

(** The assignments the transitions make. *)
Definition record_set (r : SubmissionRecord) (st : SubmissionState) (n : Z) (now : Instant)
    (pub app : option Instant) (err : option string) (version : Z) : SubmissionRecord :=
  mkSubmissionRecord (record_submission_id r) (record_task_id r) st (record_principal r)
    (record_project_id r) (record_request_digest r) (record_case_id r) (record_outbox_key r) n
    (record_created_at r) now pub app err version.

(** ** The store *)

Inductive SubmissionError : Type :=
| SubmissionStoreFailed (e : RecordError)
| SubmissionOutbox (detail : string).

Record SubmissionRecovery : Type := mkRecovery {
  requeued : nat;
  confirmed : nat;
  already_applied : nat;
  already_published : nat;
  failed : nat;
  task_ids : list string
}.
Definition SubmissionRecovery_default : SubmissionRecovery := mkRecovery 0 0 0 0 0 [].

Definition submission_outbox_prefix : string := "task-submit:".
Definition outbox_key (id : string) : string := "task-submit:" +:+ id.
Definition OUTBOX_SUBJECT_TASK_SUBMIT : string := "uc.task.submit".

Definition submission_id_from_outbox_key (key : string) : option string :=
  match strip_prefix key submission_outbox_prefix with
  | Some rest => if rest ==? "" then None else Some (SubmissionId_caller_supplied rest)
  | None => None
  end.

(** The texts serde_json renders for the two payloads. *)
Class Payload := {
  payload_submit : string → string → string → string → option string → string;
  payload_recovered : string → string → string → option string → string
}.

Section SubmissionStore.
Context {Value : Type} {Sd : Serde Value SubmissionRecord} {Sde : Serde Value OutboxEntry}
        `{Sha256} `{Payload}.
Notation prog := (prog Value).

Definition queue_publication (record : SubmissionRecord) (request : SubmissionRequest)
    (now : Instant) : prog (result unit SubmissionError) :=
  let pay := payload_submit (record_task_id record) (submission_description request)
               (submission_project_id request) (record_submission_id record)
               (record_case_id record) in
  let entry := OutboxEntry_new (outbox_key (record_submission_id record))
                 OUTBOX_SUBJECT_TASK_SUBMIT pay now in
  let! e := enqueue entry in
  Ret match e with
      | Ok _ => Ok tt
      | Err error => Err (SubmissionOutbox (OutboxError_display error))
      end.

Definition submit_once (request : SubmissionRequest) (now : Instant)
    : prog (result SubmitOnceOutcome SubmissionError) :=
  let key := submission_id request in
  let record := SubmissionRecord_new request now in
  let! w := ns_put SUBMISSION_NAMESPACE key record (Some 0) in
  match w with
  | Ok _ =>
      let! q := queue_publication record request now in
      Ret match q with Err e => Err e | Ok _ => Ok (Created record) end
  | Err (Conflict _ _) =>
      let! g := ns_get SUBMISSION_NAMESPACE key in
      match g with
      | Err e => Ret (Err (SubmissionStoreFailed e))
      | Ok None => Ret (Err (SubmissionStoreFailed (Conflict 0 None)))
      | Ok (Some (existing, _)) =>
          let requested_digest := SubmissionRequest_digest request in
          if record_request_digest existing !=? requested_digest then
            Ret (Ok (SubmitConflict (record_submission_id existing)
                       (record_request_digest existing) requested_digest))
          else
            let! q := queue_publication existing request now in
            Ret match q with Err e => Err e | Ok _ => Ok (Replayed existing) end
      end
  | Err other => Ret (Err (SubmissionStoreFailed other))
  end.

Definition SubmissionStore_get (id : string)
    : prog (result (option (SubmissionRecord * Z)) SubmissionError) :=
  let! r := ns_get SUBMISSION_NAMESPACE id in Ret (map_err SubmissionStoreFailed r).

Definition SubmissionStore_list (limit : nat)
    : prog (result (list (SubmissionRecord * Z)) SubmissionError) :=
  let! l := ns_list SUBMISSION_NAMESPACE limit in Ret (map_err SubmissionStoreFailed l).

(** [transition]: eight rounds; [mutate] is given the record and the version. *)
Definition submission_transition (id : string) (now : Instant)
    (mutate : SubmissionRecord → SubmissionRecord)
    : prog (result (option SubmissionRecord) SubmissionError) :=
  cas_loop 8 SUBMISSION_NAMESPACE id (Ok None)
    (λ record version,
       let r := mutate record in
       let r' := record_set r (record_state r) (publish_attempts r) now (published_at r)
                   (applied_at r) (record_last_error r) (version + 1) in
       Write r' (Ok (Some r')))
    (λ e, Err (SubmissionStoreFailed e)) (Err (SubmissionStoreFailed (Conflict 0 None))).

Definition set_published (now : Instant) (r : SubmissionRecord) : SubmissionRecord :=
  let n := u32_saturating_add (publish_attempts r) 1 in
  if record_state r ==? Received then
    record_set r Published n (record_changed_at r) (Some now) (applied_at r)
      (record_last_error r) (record_cas_version r)
  else record_set r (record_state r) n (record_changed_at r) (published_at r) (applied_at r)
         (record_last_error r) (record_cas_version r).

Definition set_applied (now : Instant) (r : SubmissionRecord) : SubmissionRecord :=
  record_set r Applied (publish_attempts r) (record_changed_at r) (published_at r) (Some now)
    (record_last_error r) (record_cas_version r).

Definition set_failed (error : string) (r : SubmissionRecord) : SubmissionRecord :=
  record_set r SubmissionFailed (publish_attempts r) (record_changed_at r) (published_at r)
    (applied_at r) (Some error) (record_cas_version r).

Definition mark_published (id : string) (now : Instant) :=
  submission_transition id now (set_published now).
Definition mark_applied (id : string) (now : Instant) :=
  submission_transition id now (set_applied now).
Definition mark_failed (id error : string) (now : Instant) :=
  submission_transition id now (set_failed error).

(** The loop of [recover_unfinished] over the records it listed. *)
Fixpoint recover_records (records : list (SubmissionRecord * Z)) (now : Instant)
    (summary : SubmissionRecovery) : prog (result SubmissionRecovery SubmissionError) :=
  match records with
  | [] => Ret (Ok summary)
  | (record, _) :: rest =>
      match record_state record with
      | Applied | Abandoned =>
          recover_records rest now
            (mkRecovery (requeued summary) (confirmed summary)
               (Datatypes.S (already_applied summary)) (already_published summary)
               (failed summary) (task_ids summary))
      | SubmissionFailed =>
          recover_records rest now
            (mkRecovery (requeued summary) (confirmed summary) (already_applied summary)
               (already_published summary) (Datatypes.S (failed summary)) (task_ids summary))
      | Received | Published =>
          let key := outbox_key (record_submission_id record) in
          let! g := OutboxQueue_get key in
          let delivered := match g with
                           | Ok (Some entry) => entry_state entry ==? Delivered
                           | Ok None => false
                           | Err _ => false
                           end in
          let touched := task_ids summary ++ [record_task_id record] in
          if (delivered : bool) then
            if record_state record ==? Published then
              recover_records rest now
                (mkRecovery (requeued summary) (confirmed summary) (already_applied summary)
                   (Datatypes.S (already_published summary)) (failed summary) touched)
            else
              let! m := mark_published (record_submission_id record) now in
              match m with
              | Err e => Ret (Err e)
              | Ok _ =>
                  recover_records rest now
                    (mkRecovery (requeued summary) (Datatypes.S (confirmed summary))
                       (already_applied summary) (already_published summary) (failed summary)
                       touched)
              end
          else
            let pay := payload_recovered (record_task_id record) (record_project_id record)
                         (record_submission_id record) (record_case_id record) in
            let entry := OutboxEntry_new key OUTBOX_SUBJECT_TASK_SUBMIT pay now in
            let! q := enqueue entry in
            match q with
            | Ok _ =>
                recover_records rest now
                  (mkRecovery (Datatypes.S (requeued summary)) (confirmed summary)
                     (already_applied summary) (already_published summary) (failed summary) touched)
            | Err _ => recover_records rest now summary
            end
      end
  end.

Definition recover_unfinished (now : Instant) (limit : nat)
    : prog (result SubmissionRecovery SubmissionError) :=
  let! l := ns_list SUBMISSION_NAMESPACE limit in
  match l with
  | Err e => Ret (Err (SubmissionStoreFailed e))
  | Ok records => recover_records records now SubmissionRecovery_default
  end.

Definition task_id_for (id : string) : string := derive_task_id id.
End SubmissionStore.

(** ** The protocol of submissions *)

(** What never changes in a submission record. *)
Definition identity (r : SubmissionRecord) : string * string * string * Principal * string :=
  (record_submission_id r, record_task_id r, record_request_digest r, record_principal r,
   record_project_id r).

Section Pool.
Context {S Value : Type} {St : RecordStore S Value} {StOk : RecordStoreOk S Value}
        {Sd : Serde Value SubmissionRecord} {Sde : Serde Value OutboxEntry}
        `{Sha256} `{Payload}.

Definition submission_created (r : SubmissionRecord) : Prop :=
  record_task_id r = derive_task_id (record_submission_id r).

Definition submission_move (r r' : SubmissionRecord) : Prop := identity r' = identity r.

Lemma submission_ok_preserved : preserved submission_created submission_move submission_created.
Proof. split; [done|]. unfold submission_move, identity, submission_created. intros x x' [=]. congruence. Qed.

(** The calls in flight on submissions. *)
Inductive submission_call : Type :=
| CallSubmit (request : SubmissionRequest) (now : Instant)
| CallMarkPublished (id : string) (now : Instant)
| CallMarkApplied (id : string) (now : Instant)
| CallMarkFailed (id error : string) (now : Instant)
| CallRecoverUnfinished (now : Instant) (limit : nat).

(** Each call returns its submission's outcome, if it is a submission that
    answered. *)
Definition run_submission_call (c : submission_call)
    : prog Value (option SubmitOnceOutcome) :=
  match c with
  | CallSubmit request now =>
      let! r := submit_once request now in
      Ret match r with Ok o => Some o | Err _ => None end
  | CallMarkPublished id now => let! _ := mark_published id now in Ret None
  | CallMarkApplied id now => let! _ := mark_applied id now in Ret None
  | CallMarkFailed id error now => let! _ := mark_failed id error now in Ret None
  | CallRecoverUnfinished now limit => let! _ := recover_unfinished now limit in Ret None
  end.

Notation owned := (proto_owned SUBMISSION_NAMESPACE).
Notation allowed := (proto_allowed SUBMISSION_NAMESPACE record_submission_id submission_created submission_move).
Notation interfere := (interfere owned allowed).
Notation wp := (wp owned allowed).
Notation sdocs := (docs SUBMISSION_NAMESPACE record_submission_id).
Notation ssettled := (settled SUBMISSION_NAMESPACE identity).

(** What an answered submission means for the store. *)
Definition answered (i : nat) (request : SubmissionRequest) (o : SubmitOnceOutcome)
    (σ : astate Value) : Prop :=
  let id := submission_id request in
  match o with
  | Created r =>
      ssettled id (identity r) σ ∧ record_request_digest r = SubmissionRequest_digest request ∧
      (∃ e, e ∈ σ.2 ∧ ev_thread e = i ∧ event_at SUBMISSION_NAMESPACE id e ∧ ev_old e = None)
  | Replayed r =>
      ssettled id (identity r) σ ∧ record_request_digest r = SubmissionRequest_digest request
  | SubmitConflict _ existing_digest requested_digest =>
      requested_digest = SubmissionRequest_digest request ∧ existing_digest ≠ requested_digest ∧
      settled SUBMISSION_NAMESPACE record_request_digest id existing_digest σ
  end.

Lemma identity_digest r r' : identity r' = identity r → record_request_digest r' = record_request_digest r.
Proof. unfold identity. congruence. Qed.

Lemma ssettled_rtc k a σ σ' : rtc interfere σ σ' → ssettled k a σ → ssettled k a σ'.
Proof. apply settled_rtc. by intros x x' Hm. Qed.

Lemma answered_rtc i request o σ σ' :
  rtc interfere σ σ' → answered i request o σ → answered i request o σ'.
Proof.
  intros Hr. unfold answered. destruct o as [r|r|a b c].
  - intros (Hs & Hd & e & He & ?). split_and!; [by eapply ssettled_rtc|done|].
    exists e. split; [by eapply logged_rtc|done].
  - intros [Hs Hd]. split; [by eapply ssettled_rtc|done].
  - intros (? & ? & Hs). split_and!; try done.
    eapply settled_rtc; [|exact Hr|exact Hs]. intros x x'. apply identity_digest.
Qed.

Context {SdOk : SerdeOk Value SubmissionRecord}.

Lemma wp_enqueue_foreign i e σ (Q : result OutboxEntry OutboxError → astate Value → Prop) :
  (∀ r σ', rtc interfere σ σ' → Q r σ') → wp i (enqueue e) Q σ.
Proof.
  intros HQ. apply wp_bind, wp_put_foreign; [done|]. intros r σ' Hr.
  destruct r as [r|err]; [apply wp_ret; intros; apply HQ; by etrans|].
  destruct err; try (apply wp_ret; intros; apply HQ; by etrans).
  apply wp_bind, wp_bind, wp_ns_get. intros σ1 Hr1.
  split_and!; intros; repeat (apply wp_ret; intros); apply HQ;
    chain.
Qed.

Lemma wp_outbox_get_foreign i key σ
    (Q : result (option OutboxEntry) OutboxError → astate Value → Prop) :
  (∀ r σ', rtc interfere σ σ' → Q r σ') → wp i (OutboxQueue_get key) Q σ.
Proof.
  intros HQ. apply wp_bind, wp_ns_get. intros σ1 Hr1.
  split_and!; intros; repeat (apply wp_ret; intros); apply HQ; chain.
Qed.

Lemma wp_queue_publication i record request now σ
    (Q : result unit SubmissionError → astate Value → Prop) :
  (∀ r σ', rtc interfere σ σ' → Q r σ') → wp i (queue_publication record request now) Q σ.
Proof.
  intros HQ. apply wp_bind, wp_enqueue_foreign. intros r σ' Hr. apply wp_ret. intros σ'' Hr'.
  apply HQ. by etrans.
Qed.

Lemma wp_submission_transition i id now f σ
    (Q : result (option SubmissionRecord) SubmissionError → astate Value → Prop) :
  sdocs (λ _, True) σ → (∀ r, identity (f r) = identity r) →
  (∀ r σ', rtc interfere σ σ' → Q r σ') → wp i (submission_transition id now f) Q σ.
Proof.
  intros Hd Hf HQ. apply wp_cas_loop; [done| |auto|auto|auto| |].
  2: { intros v val x a σr σ' Hr _ Hr' _ [=]. }
  2: { intros v val x x' a val' σr σw σ' Hr _ _ _ _ Hrw _ _ Hr'. apply HQ. chain. }
  intros σ' v val x x' a val' Hr Hl Hx [= <- _] Hv' _. eexists.
  split_and!; [by apply from_to_value| |].
  - transitivity (record_submission_id x).
    + specialize (Hf x). unfold identity in Hf. simpl. congruence.
    + eapply docs_true in Hr; [|done]. destruct (Hr _ _ _ Hl) as [_ Hk]. by apply Hk.
  - exists x. split; [done|]. apply (Hf x).
Qed.

Lemma set_published_identity now r : identity (set_published now r) = identity r.
Proof. unfold set_published. by destruct (_ ==? _). Qed.

Lemma wp_submit_once i request now σ :
  sdocs (λ _, True) σ →
  wp i (submit_once request now)
    (λ r σ', match r with Ok o => answered i request o σ' | Err _ => True end) σ.
Proof.
  intros Hd. apply wp_bind, wp_create; [exact _|done|done|done| |].
  - intros val r σw σ' Hv Hr Hl He Hr'. apply wp_bind, wp_queue_publication. intros q σ1 Hr1.
    apply wp_ret. intros σ2 Hr2. destruct q as [[]|]; [|done].
    apply (answered_rtc i request _ σw); [chain|].
    split_and!; [|done|by eexists]. exists 1, val, (SubmissionRecord_new request now).
    split_and!; [done|by apply from_to_value|done].
  - intros err σ' Hr. destruct err; try by apply wp_ret.
    apply wp_bind, wp_doc_get; [by eapply docs_true| | |].
    + intros v val x σr σ1 Hr1 Hl Hx Hkey Hr2. cbv zeta. case_bool_decide as Hd'; cbn [negb].
      * apply wp_bind, wp_queue_publication. intros q σ2 Hr3. apply wp_ret. intros σ3 Hr4.
        destruct q as [[]|]; [|done].
        apply (answered_rtc i request _ σr); [chain|].
        split; [|done]. by exists v, val, x.
      * apply wp_ret. intros σ2 Hr3. apply (answered_rtc i request _ σr); [by etrans|].
        split_and!; [done|done|]. by exists v, val, x.
    + intros σ1 _. by apply wp_ret.
    + intros e σ1 _. by apply wp_ret.
Qed.

Lemma wp_recover_records i rs now summary σ :
  sdocs (λ _, True) σ → wp i (recover_records rs now summary) (λ _ _, True) σ.
Proof.
  revert summary σ. induction rs as [|[r v] rs IH]; intros summary σ Hd; cbn [recover_records].
  { by apply wp_ret. }
  assert (∀ σ' sm, rtc interfere σ σ' → wp i (recover_records rs now sm) (λ _ _, True) σ') as IH'.
  { intros σ' sm Hr. apply IH. by eapply docs_true. }
  destruct (record_state r); try by apply IH'.
  all: apply wp_bind, wp_outbox_get_foreign; intros g σ1 Hr1; cbv zeta.
  all: destruct (match g with Ok _ => _ | Err _ => _ end);
    [|apply wp_bind, wp_enqueue_foreign; intros [] σ2 Hr2; apply IH'; by etrans].
  - rewrite bool_decide_eq_false_2 by done. apply wp_bind.
    apply wp_submission_transition; [by eapply docs_true|apply set_published_identity|].
    intros [] σ2 Hr2; [|by apply wp_ret]. apply IH'. by etrans.
  - by apply IH'.
Qed.

(** What a call's answer means, [answered] for a submission. *)
Definition call_answered (calls : list submission_call) (i : nat) (o : option SubmitOnceOutcome)
    (σ : astate Value) : Prop :=
  match o with
  | None => True
  | Some o => ∃ request now, calls !! i = Some (CallSubmit request now) ∧ answered i request o σ
  end.

Lemma wp_submission_call calls i c σ :
  calls !! i = Some c → sdocs (λ _, True) σ →
  wp i (run_submission_call c) (call_answered calls i) σ.
Proof.
  intros Hc Hd. destruct c as [request now|id now|id now|id error now|now limit];
    cbn [run_submission_call]; apply wp_bind.
  - eapply wp_mono; [|by apply wp_submit_once]. intros r σ' Hr. apply wp_ret. intros σ'' Hr'.
    destruct r as [o|]; [|done]. exists request, now. split; [done|]. by eapply answered_rtc.
  - apply wp_submission_transition; [done|apply set_published_identity|]. intros. by apply wp_ret.
  - apply wp_submission_transition; [done|done|]. intros. by apply wp_ret.
  - apply wp_submission_transition; [done|done|]. intros. by apply wp_ret.
  - apply wp_bind, wp_doc_list; [done| |].
    + intros xs σ' Hr _. eapply wp_mono; [|apply wp_recover_records; by eapply docs_true].
      intros _ σ'' _. by apply wp_ret.
    + intros e σ' _. apply wp_ret. intros. by apply wp_ret.
Qed.

(** The stored records are under their own ids and name their derived task. *)
Definition submissions_ok (s : S) : Prop :=
  ∀ k v val r, contents s !! (SUBMISSION_NAMESPACE, k) = Some (v, val) → from_value val = Ok r →
    record_submission_id r = k ∧ record_task_id r = derive_task_id k.

Lemma submissions_docs s h :
  store_wf s → submissions_ok s → sdocs submission_created (contents s, h).
Proof.
  intros Hwf Hok k v val Hl. split; [by eapply contents_version|]. intros x Hx.
  destruct (Hok k v val x Hl Hx) as [Hk Ht]. split; [done|]. unfold submission_created.
  by rewrite Hk, Ht.
Qed.

Lemma docs_weaken P σ : sdocs P σ → sdocs (λ _, True) σ.
Proof. intros Hd k v val Hl. destruct (Hd k v val Hl) as [? Hx]. split; [done|]. naive_solver. Qed.

Lemma submission_pool s calls c' :
  store_wf s → submissions_ok s →
  rtc (step owned) (mkConfig s (run_submission_call <$> calls) []) c' →
  rtc interfere (contents s, []) (astate_of c') ∧
  sdocs submission_created (astate_of c') ∧
  ∀ i o, cfg_threads c' !! i = Some (Ret o) → call_answered calls i o (astate_of c').
Proof.
  intros Hwf Hok Hsteps. pose proof (submissions_docs s [] Hwf Hok) as Hd.
  assert (all_wp owned allowed (call_answered calls)
    (mkConfig s (run_submission_call <$> calls) [])) as Hall.
  { split; [done|]. intros i p Hi. cbn in Hi. apply list_lookup_fmap_Some in Hi as (c & -> & Hc).
    apply wp_submission_call; [done|]. by eapply docs_weaken. }
  pose proof (steps_interfere _ _ _ _ _ Hall Hsteps) as Hr. split_and!; [done| |].
  - eapply docs_rtc; [apply submission_ok_preserved|exact Hr|done].
  - intros i o Hi. by apply (wp_adequate _ _ _ _ _ Hall Hsteps i).
Qed.
End Pool.

(** ** Normalization *)

(** A text whose lines carry no trailing whitespace. *)
Fixpoint clean (l : list ascii) : Prop :=
  match l with
  | [] => True
  | c :: l' => (is_whitespace c = true → c ≠ nl → ∃ d, head l' = Some d ∧ d ≠ nl) ∧ clean l'
  end.

Lemma trim_end_cons p c l :
  trim_end_by p (c :: l) =
  match trim_end_by p l with
  | [] => if p c then [] else [c]
  | l' => c :: l'
  end.
Proof.
  unfold trim_end_by. simpl.
  assert (∀ k, drop_while p (k ++ [c]) =
    match drop_while p k with [] => if p c then [] else [c] | k' => k' ++ [c] end) as Hd.
  { induction k as [|d k IH]; [done|]. simpl. by destruct (p d). }
  rewrite Hd. destruct (drop_while p (rev l)) as [|d k] eqn:E; [simpl; by destruct (p c)|].
  rewrite rev_app_distr. simpl. destruct (rev k ++ [d]) eqn:E'; [|done].
  by destruct (app_eq_nil _ _ E') as [_ [=]].
Qed.

Lemma trim_end_sub p l x : x ∈ trim_end_by p l → x ∈ l.
Proof.
  induction l as [|c l IH]; [done|]. rewrite trim_end_cons.
  destruct (trim_end_by p l) as [|d k]; [destruct (p c); set_solver|]. set_solver.
Qed.

(** A trimmed line that holds no newline is clean, and stays so before a newline. *)
Lemma trim_end_clean l r :
  nl ∉ l → (head r = None ∨ head r = Some nl) → clean r →
  clean (trim_end_by is_whitespace l ++ r).
Proof.
  intros Hl Hr Hc. induction l as [|c l IH]; [done|]. rewrite trim_end_cons.
  apply not_elem_of_cons in Hl as [Hcn Hl]. specialize (IH Hl).
  destruct (trim_end_by is_whitespace l) as [|d k] eqn:E; simpl in *.
  - destruct (is_whitespace c) eqn:Hw; simpl; [done|]. split; [congruence|done].
  - split; [|done]. intros _ _. exists d. split; [done|]. intros ->.
    apply Hl, (trim_end_sub is_whitespace). rewrite E. left.
Qed.

Lemma join_clean ls :
  Forall (λ l, nl ∉ l) ls → clean (join_char nl (trim_end_by is_whitespace <$> ls)).
Proof.
  induction 1 as [|l ls Hl Hls IH]; [done|]. csimpl.
  destruct (trim_end_by is_whitespace <$> ls) as [|l' ls'] eqn:E.
  - cbn. rewrite <-(app_nil_r (trim_end_by _ _)). by apply trim_end_clean; auto.
  - cbn [join_char]. apply trim_end_clean; [done|by right|]. split; [by intros _ []|done].
Qed.

(** On a clean text the line-by-line trimming is the identity. *)
Lemma clean_lines l : clean l → trim_end_by is_whitespace <$> split_char nl l = split_char nl l.
Proof.
  induction l as [|c l IH]; [done|]. intros [Hc Hl]. specialize (IH Hl). simpl.
  destruct (split_char nl l) as [|p ps] eqn:E; [by destruct (proj2 (split_no_char nl l))|].
  csimpl in IH. injection IH as Hp Hps. case_bool_decide; csimpl; [by rewrite Hp, Hps|].
  f_equal; [|done]. rewrite trim_end_cons, Hp. destruct p as [|d p]; [|done].
  destruct (is_whitespace c) eqn:Hw; [|done]. destruct Hc as (d & Hd & Hne); [done|done|].
  destruct l as [|d' l]; simplify_eq/=. destruct (split_char nl l); [done|].
  by rewrite bool_decide_eq_false_2 in E.
Qed.

Lemma clean_drop_nl l : clean l → clean (drop_while is_nl l).
Proof. induction l as [|c l IH]; [done|]. simpl. intros [? ?]. destruct (is_nl c); [by apply IH|done]. Qed.

Lemma clean_trim_nl l : clean l → clean (trim_end_by is_nl l).
Proof.
  induction l as [|c l IH]; [done|]. intros [Hc Hl]. specialize (IH Hl). rewrite trim_end_cons.
  destruct (trim_end_by is_nl l) as [|d k] eqn:E.
  - destruct (is_nl c) eqn:Hn; [done|]. split; [|done]. intros Hw Hne.
    destruct (Hc Hw Hne) as (d & Hd & Hdn). destruct l as [|d' l]; simplify_eq/=.
    exfalso. revert E. rewrite trim_end_cons. destruct (trim_end_by is_nl l); [|done].
    unfold is_nl. by rewrite bool_decide_eq_false_2.
  - split; [|done]. intros Hw Hne. destruct (Hc Hw Hne) as (d' & Hd & Hdn).
    destruct l as [|d'' l]; simplify_eq/=. exists d. split; [done|].
    revert E. rewrite trim_end_cons. destruct (trim_end_by is_nl l); [destruct (is_nl d')|]; naive_solver.
Qed.

(** Trimming newlines twice is trimming them once. *)
Lemma trim_end_idem p l : trim_end_by p (trim_end_by p l) = trim_end_by p l.
Proof. unfold trim_end_by. by rewrite rev_involutive, drop_while_idem. Qed.

Lemma trim_start_end p l :
  drop_while p l = l → drop_while p (trim_end_by p l) = trim_end_by p l.
Proof.
  destruct l as [|c l]; [done|]. simpl. destruct (p c) eqn:E.
  - intros Hd. exfalso. assert (length (drop_while p l) <= length l)%nat as Hlen.
    { clear. induction l as [|d l IH]; simpl; [done|]. destruct (p d); simpl; lia. }
    rewrite Hd in Hlen. simpl in Hlen. lia.
  - intros _. rewrite trim_end_cons. destruct (trim_end_by p l); rewrite ?E; simpl; by rewrite E.
Qed.

Lemma unify_no_cr l : cr ∉ l → unify_cr (unify_crlf l) = l.
Proof.
  assert (∀ n l, (length l <= n)%nat → cr ∉ l → unify_cr (unify_crlf l) = l) as Hn; [|by eauto].
  induction n as [|n IH]; intros [|c [|d l']] Hlen Hcr; simpl in *; try done; try lia;
    apply not_elem_of_cons in Hcr as [Hc Hcr].
  - rewrite bool_decide_eq_false_2 by congruence. done.
  - rewrite bool_decide_eq_false_2 by congruence. simpl. unfold unify_cr at 1. csimpl.
    rewrite bool_decide_eq_false_2 by congruence. f_equal. apply (IH (d :: l')); [simpl; lia|done].
Qed.

Lemma unify_has_no_cr l : cr ∉ unify_cr (unify_crlf l).
Proof.
  unfold unify_cr. intros (c & Hc & _)%list_elem_of_fmap. by case_bool_decide; subst.
Qed.

Lemma normalize_no_cr l : cr ∉ normalize_chars l.
Proof.
  unfold normalize_chars. intros Hin%trim_end_sub.
  assert (∀ p k, cr ∈ drop_while p k → cr ∈ k) as Hd.
  { intros p. induction k as [|c k IH]; [done|]. simpl. destruct (p c); set_solver. }
  apply Hd in Hin. revert Hin. pose proof (unify_has_no_cr l) as Hu.
  rewrite <-(join_split nl (unify_cr (unify_crlf l))) in Hu. revert Hu.
  induction (split_char nl (unify_cr (unify_crlf l))) as [|p ps IH]; [done|]. csimpl.
  destruct ps as [|q ps]; csimpl.
  - intros Hp Hin%trim_end_sub. done.
  - intros Hp [Hin%trim_end_sub|[Hin|Hin]%elem_of_cons]%elem_of_app; [set_solver|done|].
    apply IH; [set_solver|exact Hin].
Qed.

Lemma normalize_chars_idem l : normalize_chars (normalize_chars l) = normalize_chars l.
Proof.
  set (j := join_char nl (trim_end_by is_whitespace <$> split_char nl (unify_cr (unify_crlf l)))).
  assert (normalize_chars l = trim_end_by is_nl (drop_while is_nl j)) as Hn by done.
  assert (clean (normalize_chars l)) as Hc.
  { rewrite Hn. apply clean_trim_nl, clean_drop_nl, join_clean. apply split_no_char. }
  unfold normalize_chars at 1. rewrite unify_no_cr by apply normalize_no_cr.
  rewrite clean_lines, join_split by done. unfold trim_start_by. rewrite Hn.
  rewrite trim_start_end by apply drop_while_idem. apply trim_end_idem.
Qed.

Lemma normalize_idem d : normalize_request (normalize_request d) = normalize_request d.
Proof. unfold normalize_request. by rewrite chars_of_chars, normalize_chars_idem. Qed.

(** ** Publishing keys *)

Lemma trim_fixed i : trim i = i → i ≠ "" → submission_id_from_outbox_key (outbox_key i) = Some i.
Proof.
  intros Ht Hne. unfold submission_id_from_outbox_key, outbox_key, submission_outbox_prefix.
  assert (strip_prefix ("task-submit:" +:+ i) "task-submit:" = Some i) as ->.
  { apply strip_prefix_Some. by rewrite chars_app. }
  rewrite bool_decide_eq_false_2 by done. unfold SubmissionId_caller_supplied. by rewrite Ht.
Qed.

(** ** Properties *)

Section SubmissionProperties.
Context {S Value : Type} {St : RecordStore S Value} {StOk : RecordStoreOk S Value}
        {Sd : Serde Value SubmissionRecord} {SdOk : SerdeOk Value SubmissionRecord}
        {Sde : Serde Value OutboxEntry} `{Sha256} `{Payload}.

(** C3: a submission id creates one task.  However many submissions, retries,
    transport confirmations, failures and recovery sweeps are in flight, and
    however their store operations interleave, two calls that both report having
    created a submission created different submissions. *)
Theorem submission_created_once (s : S) calls c' i j ri rj :
  store_wf s → submissions_ok s →
  rtc (step (proto_owned SUBMISSION_NAMESPACE))
    (mkConfig s (run_submission_call <$> calls) []) c' →
  cfg_threads c' !! i = Some (Ret (Some (Created ri))) →
  cfg_threads c' !! j = Some (Ret (Some (Created rj))) →
  i ≠ j → record_submission_id ri ≠ record_submission_id rj.
Proof.
  intros Hwf Hok Hsteps Hi Hj Hij Heq.
  destruct (submission_pool s calls c' Hwf Hok Hsteps) as (Hr & Hd & Hans).
  destruct (Hans i _ Hi) as (qi & ni & _ & (vi & vali & yi & Hli & Hyi & Hidi) & _ & ei & Hei & Hti & Hki & Hoi).
  destruct (Hans j _ Hj) as (qj & nj & _ & (vj & valj & yj & Hlj & Hyj & Hidj) & _ & ej & Hej & Htj & Hkj & Hoj).
  destruct (Hd _ _ _ Hli) as [_ Hdi]. destruct (Hdi yi Hyi) as [Hsi _].
  destruct (Hd _ _ _ Hlj) as [_ Hdj]. destruct (Hdj yj Hyj) as [Hsj _].
  assert (submission_id qi = submission_id qj) as Hq.
  { injection Hidi as Hidi _ _ _ _. injection Hidj as Hidj _ _ _ _. congruence. }
  rewrite <-Hq in Hkj. apply Hij. rewrite <-Hti, <-Htj. f_equal.
  exact (created_once _ _ _ _ (contents s, []) (astate_of c') eq_refl Hr _ _ _ Hei Hej Hki Hkj Hoi Hoj).
Qed.

(** Every answer about a submission id is about the same task and the same
    content: a call that is told it created or replayed a submission gets the
    task id derived from its own submission id and the digest of its own request,
    and two such calls with the same id agree on the content; a call is told
    about a conflict only if the recorded content differs from its own. *)
Theorem submissions_agree (s : S) calls c' i o :
  store_wf s → submissions_ok s →
  rtc (step (proto_owned SUBMISSION_NAMESPACE))
    (mkConfig s (run_submission_call <$> calls) []) c' →
  cfg_threads c' !! i = Some (Ret (Some o)) →
  ∃ request now, calls !! i = Some (CallSubmit request now) ∧
  match o with
  | Created r | Replayed r =>
      record_submission_id r = submission_id request ∧
      record_task_id r = derive_task_id (submission_id request) ∧
      record_request_digest r = SubmissionRequest_digest request ∧
      ∀ j o' r' request' now', cfg_threads c' !! j = Some (Ret (Some o')) →
        calls !! j = Some (CallSubmit request' now') → outcome_record o' = Some r' →
        submission_id request' = submission_id request →
        SubmissionRequest_digest request' = SubmissionRequest_digest request
  | SubmitConflict _ existing requested =>
      requested = SubmissionRequest_digest request ∧ existing ≠ requested
  end.
Proof.
  intros Hwf Hok Hsteps Hi.
  destruct (submission_pool s calls c' Hwf Hok Hsteps) as (Hr & Hd & Hans).
  destruct (Hans i _ Hi) as (request & now & Hc & Ha). exists request, now. split; [done|].
  assert (∀ r, settled SUBMISSION_NAMESPACE identity (submission_id request) (identity r) (astate_of c') →
    record_request_digest r = SubmissionRequest_digest request →
    record_submission_id r = submission_id request ∧
    record_task_id r = derive_task_id (submission_id request) ∧
    record_request_digest r = SubmissionRequest_digest request ∧
    ∀ j o' r' request' now', cfg_threads c' !! j = Some (Ret (Some o')) →
      calls !! j = Some (CallSubmit request' now') → outcome_record o' = Some r' →
      submission_id request' = submission_id request →
      SubmissionRequest_digest request' = SubmissionRequest_digest request) as Hmain.
  { intros r Hs Hdig. pose proof Hs as (v & val & y & Hl & Hy & Hid).
    destruct (Hd _ _ _ Hl) as [_ Hdy]. destruct (Hdy y Hy) as [Hk Ht].
    unfold submission_created in Ht. injection Hid as Hid1 Hid2 _ _ _.
    split_and!; [congruence|congruence|done|].
    intros j o' r' request' now' Hj Hcj Ho' Hsame.
    destruct (Hans j _ Hj) as (q & n & Hq & Haj). rewrite Hcj in Hq. simplify_eq.
    assert (settled SUBMISSION_NAMESPACE identity (submission_id q) (identity r') (astate_of c') ∧
      record_request_digest r' = SubmissionRequest_digest q) as [Hs' Hdig'].
    { destruct o'; simplify_eq/=; naive_solver. }
    rewrite Hsame in Hs'. pose proof (settled_eq _ _ _ _ _ _ Hs Hs') as [= ? ? ? ? ?]. congruence. }
  destruct o as [r|r|a b c]; simpl in Ha; naive_solver.
Qed.

(** A submission alone on the store: a new id is recorded and its publication
    queued; the same id with the same content is answered with the recorded
    submission after making sure that its publication is queued, even if a crash
    had lost it; the same id with other content changes nothing. *)
Theorem submit_once_outcomes {SdeOk : SerdeOk Value OutboxEntry} clock (s : S) request now :
  store_wf s → store_up s →
  (∀ v val, contents s !! (OUTBOX_NAMESPACE, outbox_key (submission_id request)) = Some (v, val) →
     ∃ e : OutboxEntry, from_value val = Ok e) →
  match contents s !! (SUBMISSION_NAMESPACE, submission_id request) with
  | None =>
      ∃ s' val, run clock (submit_once request now) s =
        (Ok (Created (SubmissionRecord_new request now)), s') ∧
      from_value val = Ok (SubmissionRecord_new request now) ∧
      contents s' !! (SUBMISSION_NAMESPACE, submission_id request) = Some (1, val) ∧
      is_Some (contents s' !! (OUTBOX_NAMESPACE, outbox_key (submission_id request)))
  | Some (v, val) => ∀ existing, from_value val = Ok existing →
      record_submission_id existing = submission_id request →
      if record_request_digest existing ==? SubmissionRequest_digest request then
        ∃ s', run clock (submit_once request now) s = (Ok (Replayed existing), s') ∧
        contents s' !! (SUBMISSION_NAMESPACE, submission_id request) = Some (v, val) ∧
        is_Some (contents s' !! (OUTBOX_NAMESPACE, outbox_key (submission_id request)))
      else run clock (submit_once request now) s =
           (Ok (SubmitConflict (submission_id request) (record_request_digest existing)
                  (SubmissionRequest_digest request)), s)
  end.
Proof.
  intros Hwf Hup Hdec.
  assert (∀ s0 record, ready s0 → record_submission_id record = submission_id request →
    (∀ v val, contents s0 !! (OUTBOX_NAMESPACE, outbox_key (submission_id request)) = Some (v, val) →
       ∃ e : OutboxEntry, from_value val = Ok e) →
    ∃ s', run clock (queue_publication record request now) s0 = (Ok tt, s') ∧
      is_Some (contents s' !! (OUTBOX_NAMESPACE, outbox_key (submission_id request))) ∧
      ∀ k, k.1 ≠ OUTBOX_NAMESPACE → contents s' !! k = contents s0 !! k) as Hq.
  { intros s0 record Hs0 Hrec Hd0. unfold queue_publication. rewrite run_bind, Hrec.
    set (e := OutboxEntry_new _ _ _ _).
    destruct (run_enqueue clock s0 e Hs0) as (s' & x & He & Hin & Hother).
    { intros v val. apply Hd0. }
    rewrite He. exists s'. split_and!; [done|done|]. intros k Hk. apply Hother. by intros ->. }
  unfold submit_once. rewrite run_bind.
  destruct (contents s !! (SUBMISSION_NAMESPACE, submission_id request)) as [[v val]|] eqn:E.
  - intros existing Hx Hid.
    destruct (run_ns_put_conflict clock s SUBMISSION_NAMESPACE (submission_id request)
      (SubmissionRecord_new request now) (Some 0)) as (ex & ac & Hp); [done| |].
    { rewrite E. simpl. pose proof (contents_version _ _ _ _ Hwf E). lia. }
    rewrite Hp, run_bind, (run_ns_get_some clock s _ _ v val existing) by done. cbv zeta.
    case_bool_decide as Hdig; cbn [negb]; [|by rewrite Hid].
    rewrite run_bind. destruct (Hq s existing) as (s' & Hr & Hin & Hother); [done|done|done|].
    rewrite Hr. exists s'. split_and!; [done| |done]. by rewrite Hother.
  - destruct (run_ns_put_ok clock s SUBMISSION_NAMESPACE (submission_id request)
      (SubmissionRecord_new request now) (Some 0)) as (r & s1 & val & Hp & Hs1 & Hv & _ & Hc);
      [done|by rewrite E|by rewrite E|].
    rewrite Hp, run_bind. destruct (Hq s1 (SubmissionRecord_new request now))
      as (s' & Hr & Hin & Hother); [done|done| |].
    { intros w u. rewrite Hc, lookup_insert_ne by done. apply Hdec. }
    rewrite Hr. exists s', val. split_and!; [done|done| |done].
    rewrite Hother, Hc, lookup_insert_eq by done. by rewrite E.
Qed.
End SubmissionProperties.

(** Normalization is idempotent, so a request digested again after a round of
    normalization keeps its digest. *)
Theorem normalization_stable `{Sha256} project d :
  normalize_request (normalize_request d) = normalize_request d ∧
  request_digest project (normalize_request d) = request_digest project d.
Proof. split; [apply normalize_idem|]. unfold request_digest. by rewrite normalize_idem. Qed.

(** The publication key of a submission names it back, for every id a caller
    can supply, and two submissions never share a publication key. *)
Theorem outbox_key_roundtrip key :
  SubmissionId_is_empty key = false →
  let id := SubmissionId_caller_supplied key in
  submission_id_from_outbox_key (outbox_key id) = Some id ∧
  ∀ id', outbox_key id' = outbox_key id → id' = id.
Proof.
  intros He id. split.
  - apply trim_fixed; [apply trim_idem|]. subst id. unfold SubmissionId_is_empty in He.
    by apply bool_decide_eq_false_1 in He.
  - intros id' Hk. unfold outbox_key in Hk. apply (f_equal chars) in Hk.
    rewrite !chars_app in Hk. apply app_inv_head in Hk. by apply chars_inj.
Qed.

Lemma outbox_key_roundtrip_witness :
  submission_id_from_outbox_key (outbox_key "req 7") = Some "req 7".
Proof. apply (outbox_key_roundtrip "  req 7 "). vm_compute. reflexivity. Defined.

(** *** Witnesses *)

Notation witness_value := (SubmissionRecord + OutboxEntry)%type.
#[local] Existing Instance left_serde.
#[local] Existing Instance left_serde_ok.
#[local] Existing Instance right_serde.
#[local] Existing Instance right_serde_ok.
#[local] Existing Instance zero_sha.
Definition witness_payload : Payload :=
  {| payload_submit := λ t _ _ _ _, t; payload_recovered := λ t _ _ _, t |}.
#[local] Existing Instance witness_payload.

Definition witness_submit (id : string) : SubmissionRequest :=
  SubmissionRequest_new (Principal_user "ada") "proj" "fix it" (Some id).

Definition witness_empty : InMemoryRecordStore witness_value := InMemoryRecordStore_new.

Lemma witness_empty_wf : store_wf witness_empty.
Proof. apply map_Forall_empty. Qed.

Lemma witness_empty_ok : submissions_ok witness_empty.
Proof.
  intros k v val r. cbn [contents InMemory_Ok]. rewrite in_memory_contents_lookup.
  cbn [inner witness_empty InMemoryRecordStore_new]. by rewrite lookup_empty.
Qed.

Lemma submission_created_once_witness : "a" ≠ "b".
Proof.
  apply (submission_created_once witness_empty
    [CallSubmit (witness_submit "a") 1; CallSubmit (witness_submit "b") 2]
    (exec 9 [0; 1; 1; 0]%nat _) 0 1 (SubmissionRecord_new (witness_submit "a") 1)
    (SubmissionRecord_new (witness_submit "b") 2)
    witness_empty_wf witness_empty_ok (exec_rtc _ _ _ _)).
  - vm_compute. reflexivity.
  - vm_compute. reflexivity.
  - discriminate.
Defined.

(** The second of two identical submissions is told about the first. *)
Lemma submissions_agree_witness :
  record_task_id (SubmissionRecord_new (witness_submit "a") 1) = derive_task_id "a".
Proof.
  destruct (submissions_agree witness_empty
    [CallSubmit (witness_submit "a") 1; CallSubmit (witness_submit "a") 2]
    (exec 9 [0; 1; 1; 1; 1; 0]%nat _) 1 (Replayed (SubmissionRecord_new (witness_submit "a") 1))
    witness_empty_wf witness_empty_ok (exec_rtc _ _ _ _)) as (q & n & Hq & _ & Ht & _).
  - vm_compute. reflexivity.
  - cbn in Hq. injection Hq as <- <-. exact Ht.
Defined.

Lemma submit_once_outcomes_witness :
  ∃ s', run 9 (submit_once (witness_submit "a") 1) witness_empty =
        (Ok (Created (SubmissionRecord_new (witness_submit "a") 1)), s').
Proof.
  pose proof (submit_once_outcomes 9 witness_empty (witness_submit "a") 1 witness_empty_wf eq_refl)
    as Hx.
  assert (∀ k, contents witness_empty !! k = None) as Hn.
  { intros k. cbn [contents InMemory_Ok]. rewrite in_memory_contents_lookup.
    cbn [inner witness_empty InMemoryRecordStore_new]. by rewrite lookup_empty. }
  rewrite !Hn in Hx. destruct Hx as (s' & val & Hr & _); [done|]. by exists s'.
Defined.
