(* ===== verification/CaseStore.v ===== *)
(** * The stores of cases and mandates

    [uc-engine/src/governance/case_store.rs].  Every mutation is a bounded
    compare-and-swap loop around a method of [WorkCase] or [Mandate].  A retried
    mutation draws a new UUID, so the fresh run id is a function of the version
    that was read. *)

From Stdlib Require Import String SpecFloat.
From S2P Require Import Prelude RustStr Store Prog Concurrency Protocol Policy Glob.
From S2P Require Import Mandate WorkCase.

(** ** Cases *)

Inductive CaseStoreError : Type :=
| CaseStoreFailed (e : RecordError)
| CaseNotFound (case_id : string)
| CaseTransition (e : CaseTransitionError)
| CaseContended (case_id : string).

Definition CaseStoreError_display (e : CaseStoreError) : string :=
  match e with
  | CaseStoreFailed error => "case store: " +:+ RecordError_display error
  | CaseNotFound i => "case " +:+ i +:+ " not found"
  | CaseTransition error => "case transition rejected: " +:+ CaseTransitionError_display error
  | CaseContended i => "case " +:+ i +:+ " is contended; retry later"
  end.

Section CaseStore.
Context {Value Json : Type} {Sd : Serde Value (WorkCase Json)}.
Notation prog := (prog Value).
Notation WorkCase := (WorkCase Json).

Definition CaseStore_get (i : string) : prog (result (option (WorkCase * Z)) CaseStoreError) :=
  let! r := ns_get CASE_NAMESPACE i in Ret (map_err CaseStoreFailed r).

Definition create_unique (case : WorkCase) : prog (result (WorkCase * bool) CaseStoreError) :=
  let case := set_version case 1 in
  let! w := ns_put CASE_NAMESPACE (case_id case) case (Some 0) in
  match w with
  | Ok _ => Ret (Ok (case, false))
  | Err (Conflict _ _) =>
      let! g := CaseStore_get (case_id case) in
      match g with
      | Err e => Ret (Err e)
      | Ok (Some (existing, _)) => Ret (Ok (existing, true))
      | Ok None => Ret (Err (CaseStoreFailed (Conflict 0 None)))
      end
  | Err other => Ret (Err (CaseStoreFailed other))
  end.

Definition CaseStore_list (limit : nat) : prog (result (list (WorkCase * Z)) CaseStoreError) :=
  let! l := ns_list CASE_NAMESPACE limit in Ret (map_err CaseStoreFailed l).

Definition find_by_thread (thread_key : string) (limit : nat)
    : prog (result (option WorkCase) CaseStoreError) :=
  let! l := ns_list CASE_NAMESPACE limit in
  Ret match l with
      | Err e => Err (CaseStoreFailed e)
      | Ok cases =>
          Ok (find (λ c, origin_thread_key (case_origin c) ==? Some thread_key) (cases.*1))
      end.

(** [update]: sixteen rounds; [mutate] is [F: Fn(&mut WorkCase) -> Result<T, _>]
    and also gets the version read, to draw its UUID from. *)
Definition CaseStore_update {T} (i : string)
    (mutate : Z → WorkCase → result T CaseTransitionError * WorkCase)
    : prog (result (WorkCase * T) CaseStoreError) :=
  cas_loop 16 CASE_NAMESPACE i (Err (CaseNotFound i))
    (λ case version,
       match mutate version case with
       | (Err e, _) => Answer (Err (CaseTransition e))
       | (Ok out, case') =>
           let case'' := set_version case' (version + 1) in Write case'' (Ok (case'', out))
       end)
    (λ e, Err (CaseStoreFailed e)) (Err (CaseContended i)).

Definition CaseStore_transition (i : string) (st : CaseStatus) (now : Instant)
    : prog (result WorkCase CaseStoreError) :=
  let! r := CaseStore_update i (λ _ c, transition c st now) in Ret (map_ok fst r).

(** [Open] is promoted to [Active] first. *)
Definition open_run_promoted (fresh_id task_id : string) (submission_id : option string)
    (now : Instant) (c : WorkCase) : result unit CaseTransitionError * WorkCase :=
  let open_it c :=
    match open_run c fresh_id task_id submission_id now with
    | (Ok _, c') => (Ok tt, c')
    | (Err e, c') => (Err e, c')
    end in
  if status c ==? Open then
    match transition c Active now with
    | (Err e, c') => (Err e, c')
    | (Ok _, c') => open_it c'
    end
  else open_it c.

Definition CaseStore_open_run (fresh : Z → string) (i task_id : string)
    (submission_id : option string) (now : Instant) : prog (result WorkCase CaseStoreError) :=
  let! r := CaseStore_update i (λ v c, open_run_promoted (fresh v) task_id submission_id now c) in
  Ret (map_ok fst r).

Definition finish_run_by_id (rid : string) (o : CaseRunOutcome) (detail : option string)
    (now : Instant) (c : WorkCase) : result unit CaseTransitionError * WorkCase :=
  match find (λ r, run_id r ==? rid) (runs c) with
  | None => (Err UnknownRun, c)
  | Some run => finish_run c (run_id run) o detail now
  end.

Definition CaseStore_finish_run (i rid : string) (o : CaseRunOutcome) (detail : option string)
    (now : Instant) : prog (result WorkCase CaseStoreError) :=
  let! r := CaseStore_update i (λ _ c, finish_run_by_id rid o detail now c) in Ret (map_ok fst r).

Definition CaseStore_delete (i : string) : prog (result bool CaseStoreError) :=
  let! r := ns_delete CASE_NAMESPACE i in Ret (map_err CaseStoreFailed r).

(** [iter_mut().find(..)] and increment, or push. *)
Fixpoint bump (st : CaseStatus) (counts : list (CaseStatus * nat)) : list (CaseStatus * nat) :=
  match counts with
  | [] => [(st, 1%nat)]
  | (s, n) :: rest => if s ==? st then (s, Datatypes.S n) :: rest else (s, n) :: bump st rest
  end.

Definition status_counts (limit : nat) : prog (result (list (CaseStatus * nat)) CaseStoreError) :=
  let! l := ns_list CASE_NAMESPACE limit in
  Ret match l with
      | Err e => Err (CaseStoreFailed e)
      | Ok cases => Ok (foldl (λ counts c, bump (status c) counts) [] ((cases : list (WorkCase * Z)).*1))
      end.
End CaseStore.

(** ** Mandates *)

Definition MANDATE_NAMESPACE : string := "mandate".

Inductive MandateStoreError : Type :=
| MandateStoreFailed (e : RecordError)
| MandateNotFound (mandate_id : string)
| MandateContended (mandate_id : string).

Definition MandateStoreError_display (e : MandateStoreError) : string :=
  match e with
  | MandateStoreFailed error => "mandate store: " +:+ RecordError_display error
  | MandateNotFound i => "mandate " +:+ i +:+ " not found"
  | MandateContended i => "mandate " +:+ i +:+ " is contended; retry later"
  end.

Section MandateStore.
Context {Value : Type} {Sd : Serde Value Mandate}.
Notation prog := (prog Value).

Definition put_new (m : Mandate) : prog (result unit MandateStoreError) :=
  let! w := ns_put MANDATE_NAMESPACE (mandate_id m) m (Some 0) in
  Ret match w with Ok _ => Ok tt | Err e => Err (MandateStoreFailed e) end.

Definition MandateStore_get (i : string) : prog (result (option (Mandate * Z)) MandateStoreError) :=
  let! r := ns_get MANDATE_NAMESPACE i in Ret (map_err MandateStoreFailed r).

Definition latest_for_case (case : string) (limit : nat)
    : prog (result (option Mandate) MandateStoreError) :=
  let! l := ns_list MANDATE_NAMESPACE limit in
  Ret match l with
      | Err e => Err (MandateStoreFailed e)
      | Ok ms =>
          Ok (max_by_key issued_at (filterb (λ m, mandate_case_id m ==? case) (ms.*1)))
      end.

Definition MandateStore_list (limit : nat)
    : prog (result (list (Mandate * Z)) MandateStoreError) :=
  let! l := ns_list MANDATE_NAMESPACE limit in Ret (map_err MandateStoreFailed l).

Definition MandateStore_revoke (i : string) (by_ : Principal) (reason : string) (now : Instant)
    : prog (result Mandate MandateStoreError) :=
  cas_loop 16 MANDATE_NAMESPACE i (Err (MandateNotFound i))
    (λ m _, if bool_decide (is_Some (revoked m)) then Answer (Ok m)
            else let m' := revoke m by_ reason now in Write m' (Ok m'))
    (λ e, Err (MandateStoreFailed e)) (Err (MandateContended i)).
End MandateStore.

Definition human_mandate (fresh_id case : string) (by_ : Principal) (ss : list MandateScope)
    (policy_version : Z) (now : Instant) : Mandate :=
  Mandate_new fresh_id case by_ HumanIssued ss policy_version now.

(** ** The protocol of cases *)

Section Pool.
Context {S Value Json : Type} {St : RecordStore S Value} {StOk : RecordStoreOk S Value}
        {Sd : Serde Value (WorkCase Json)}.
Notation WorkCase := (WorkCase Json).

(** A write of a case applies methods of [WorkCase] to the case it replaces. *)
Definition case_move (c c' : WorkCase) : Prop :=
  case_id c' = case_id c ∧ (case_core c → case_core c') ∧ rtc case_step c c'.

(** The calls in flight on cases.  [CaseCallUpdate] is any other use of
    [CaseStore::update]. *)
Inductive case_call : Type :=
| CaseCallCreate (c : WorkCase)
| CaseCallTransition (i : string) (st : CaseStatus) (now : Instant)
| CaseCallOpenRun (fresh : Z → string) (i task_id : string) (sub : option string) (now : Instant)
| CaseCallFinishRun (i rid : string) (o : CaseRunOutcome) (detail : option string) (now : Instant)
| CaseCallUpdate (i : string) (f : Z → WorkCase → result unit CaseTransitionError * WorkCase).

Definition case_call_legal (call : case_call) : Prop :=
  match call with
  | CaseCallCreate c => case_core c
  | CaseCallUpdate _ f => ∀ v c c', f v c = (Ok tt, c') → case_move c c'
  | _ => True
  end.

(** Each call returns the case it wrote or read. *)
Definition run_case_call (call : case_call) : prog Value (option WorkCase) :=
  match call with
  | CaseCallCreate c =>
      let! r := create_unique c in Ret match r with Ok (c', _) => Some c' | Err _ => None end
  | CaseCallTransition i st now =>
      let! r := CaseStore_transition i st now in
      Ret match r with Ok c' => Some c' | Err _ => None end
  | CaseCallOpenRun fresh i t sub now =>
      let! r := CaseStore_open_run fresh i t sub now in
      Ret match r with Ok c' => Some c' | Err _ => None end
  | CaseCallFinishRun i rid o d now =>
      let! r := CaseStore_finish_run i rid o d now in
      Ret match r with Ok c' => Some c' | Err _ => None end
  | CaseCallUpdate i f =>
      let! r := CaseStore_update i f in
      Ret match r with Ok (c', _) => Some c' | Err _ => None end
  end.

Notation owned := (proto_owned CASE_NAMESPACE).
Notation allowed := (proto_allowed CASE_NAMESPACE case_id case_core case_move).
Notation interfere := (interfere owned allowed).
Notation wp := (wp owned allowed).
Notation cdocs := (docs CASE_NAMESPACE case_id).

Lemma case_core_preserved : preserved case_core case_move case_core.
Proof. split; [done|]. intros c c' (_ & Hc & _). done. Qed.

Lemma set_version_move c c' v : case_move c c' → case_move c (set_version c' v).
Proof.
  intros (Hi & Hc & Hs). split_and!; [done| |].
  - intros Hcore. by apply (case_core_ext c'); [..|apply Hc].
  - eapply rtc_r; [exact Hs|].
    replace (set_version c' v) with (set_version (set_mandate_id c' (case_mandate_id c')) v)
      by (by destruct c'). constructor.
Qed.

Lemma transition_move c st now : case_move c (transition c st now).2.
Proof.
  split_and!; [|apply transition_core|apply rtc_once; constructor].
  unfold transition. by destruct (can_transition_to _ _).
Qed.

Lemma open_run_move c f t s now : case_move c (open_run c f t s now).2.
Proof.
  split_and!; [|apply open_run_core|apply rtc_once; constructor].
  unfold open_run, compact_runs. repeat case_match; done.
Qed.

Lemma finish_run_move c rid o d now : case_move c (finish_run c rid o d now).2.
Proof.
  split_and!; [|apply finish_run_core|apply rtc_once; constructor].
  unfold finish_run, transition. destruct (find _ _); [|done]. destruct (run_is_open _); [|done].
  simpl. by destruct (can_transition_to _ _).
Qed.

Lemma case_move_trans c1 c2 c3 : case_move c1 c2 → case_move c2 c3 → case_move c1 c3.
Proof.
  intros (Hi & Hc & Hs) (Hi' & Hc' & Hs'). split_and!; [congruence|auto|by etrans].
Qed.

Lemma open_run_promoted_move f t s now c c' :
  open_run_promoted f t s now c = (Ok tt, c') → case_move c c'.
Proof.
  unfold open_run_promoted. case_bool_decide.
  - pose proof (transition_move c Active now) as Hm.
    destruct (transition c Active now) as [[|] c1]; [|done].
    pose proof (open_run_move c1 f t s now) as Hm'.
    destruct (open_run c1 f t s now) as [[|] c2]; [|done]. intros [= <-].
    by eapply case_move_trans.
  - pose proof (open_run_move c f t s now) as Hm'.
    destruct (open_run c f t s now) as [[|] c2]; [|done]. by intros [= <-].
Qed.

Lemma finish_by_id_move rid o d now c c' :
  finish_run_by_id rid o d now c = (Ok tt, c') → case_move c c'.
Proof.
  unfold finish_run_by_id. destruct (find _ _) as [run|]; [|done].
  pose proof (finish_run_move c (run_id run) o d now) as Hm. intros Heq. by rewrite Heq in Hm.
Qed.

Context {SdOk : SerdeOk Value WorkCase}.

Lemma wp_case_update {T} i id (f : Z → WorkCase → result T CaseTransitionError * WorkCase) σ
    (Q : result (WorkCase * T) CaseStoreError → astate Value → Prop) :
  cdocs (λ _, True) σ → (∀ v c out c', f v c = (Ok out, c') → case_move c c') →
  (∀ r σ', rtc interfere σ σ' → Q r σ') → wp i (CaseStore_update id f) Q σ.
Proof.
  intros Hd Hf HQ. apply wp_cas_loop; [done| |auto|auto|auto| |].
  - intros σ' v val x x' a val' Hr Hl Hx Hb Hv' _.
    destruct (f v x) as [[out|e] c'] eqn:E; cbv zeta in Hb; [|done]. injection Hb as <- _.
    apply Hf in E. pose proof (set_version_move _ _ (v + 1) E) as Hm.
    exists (set_version c' (v + 1)).
    split_and!; [by apply from_to_value| |by exists x]. rewrite (proj1 Hm). eapply docs_true in Hr; [|done].
    destruct (Hr _ _ _ Hl) as [_ Hk]. by apply Hk.
  - intros v val x a σr σ' Hr _ Hr' _ Hb. apply HQ. by etrans.
  - intros v val x x' a val' σr σw σ' Hr _ _ _ _ Hrw _ _ Hr'. apply HQ. chain.
Qed.

Lemma wp_case_call i call σ :
  cdocs (λ _, True) σ → case_call_legal call → wp i (run_case_call call) (λ _ _, True) σ.
Proof.
  intros Hd Hl. destruct call as [c|id st now|fresh id t sub now|id rid o d now|id f];
    cbn [run_case_call]; apply wp_bind.
  - apply wp_bind, wp_create; [exact _|done|done|by eapply case_core_ext; [..|exact Hl]| |].
    + intros val r σw σ' _ _ _ _ _. apply wp_ret. intros. by apply wp_ret.
    + intros err σ' Hr. destruct err; try by apply wp_ret; intros; apply wp_ret.
      apply wp_bind, wp_bind, wp_doc_get; [by eapply docs_true| | |];
        intros; repeat (apply wp_ret; intros); done.
  - apply wp_bind, wp_case_update; [done| |].
    + intros v c out c' E. pose proof (transition_move c st now) as Hm. by rewrite E in Hm.
    + intros r σ' _. repeat (apply wp_ret; intros). done.
  - apply wp_bind, wp_case_update; [done| |].
    + intros v c [] c'. apply open_run_promoted_move.
    + intros r σ' _. repeat (apply wp_ret; intros). done.
  - apply wp_bind, wp_case_update; [done| |].
    + intros v c [] c'. apply finish_by_id_move.
    + intros r σ' _. repeat (apply wp_ret; intros). done.
  - apply wp_case_update; [done| |].
    + intros v c [] c'. apply Hl.
    + intros r σ' _. repeat (apply wp_ret; intros). done.
Qed.

(** The stored cases are under their own ids and satisfy their invariant. *)
Definition cases_ok (s : S) : Prop :=
  ∀ k v val c, contents s !! (CASE_NAMESPACE, k) = Some (v, val) → from_value val = Ok c →
    case_id c = k ∧ case_core c.

Lemma case_pool s calls c' :
  store_wf s → cases_ok s → Forall case_call_legal calls →
  rtc (step owned) (mkConfig s (run_case_call <$> calls) []) c' →
  rtc interfere (contents s, []) (astate_of c') ∧ cdocs case_core (astate_of c') ∧
  all_wp owned allowed (λ _ _ _, True) c'.
Proof.
  intros Hwf Hok Hl Hsteps.
  assert (cdocs case_core (contents s, [])) as Hd.
  { intros k v val Hk. split; [by eapply contents_version|]. intros x Hx. by eapply Hok. }
  assert (all_wp owned allowed (λ _ _ _, True) (mkConfig s (run_case_call <$> calls) [])) as Hall.
  { split; [done|]. intros i p Hi. cbn in Hi. apply list_lookup_fmap_Some in Hi as (c & -> & Hc).
    apply wp_case_call; [|by eapply Forall_lookup_1].
    intros k v val Hk. destruct (Hd k v val Hk) as [? Hx]. split; [done|]. naive_solver. }
  pose proof (steps_interfere _ _ _ _ _ Hall Hsteps) as Hr. split_and!; [done| |].
  - eapply docs_rtc; [apply case_core_preserved|exact Hr|done].
  - by eapply steps_all_wp.
Qed.
End Pool.

(** Sticky terminal statuses. *)
Lemma terminal_move {Json} (c c' : WorkCase Json) st :
  is_terminal st = true → case_move c c' → status c = st → status c' = st.
Proof.
  intros Ht (_ & _ & Hs) Hst. induction Hs as [|c c1 c2 Hstep _ IH]; [done|]. apply IH.
  destruct (case_step_status _ _ Hstep) as [He|Hc]; [congruence|].
  rewrite Hst, terminal_stuck in Hc; done.
Qed.

(** ** The protocol of mandates *)

(** A mandate only ever changes by being withdrawn. *)
Definition mandate_move (m m' : Mandate) : Prop :=
  revoked m = None ∧ ∃ by_ reason now, m' = revoke m by_ reason now.

Inductive mandate_call : Type :=
| MandateCallPutNew (m : Mandate)
| MandateCallRevoke (i : string) (by_ : Principal) (reason : string) (now : Instant)
| MandateCallLatest (case : string) (limit : nat).

Section MandatePool.
Context {S Value : Type} {St : RecordStore S Value} {StOk : RecordStoreOk S Value}
        {Sd : Serde Value Mandate}.

(** Each call returns the mandate a withdrawal answered with. *)
Definition run_mandate_call (call : mandate_call) : prog Value (option Mandate) :=
  match call with
  | MandateCallPutNew m => let! _ := put_new m in Ret None
  | MandateCallRevoke i by_ reason now =>
      let! r := MandateStore_revoke i by_ reason now in
      Ret match r with Ok m => Some m | Err _ => None end
  | MandateCallLatest case limit => let! _ := latest_for_case case limit in Ret None
  end.

Notation owned := (proto_owned MANDATE_NAMESPACE).
Notation allowed := (proto_allowed MANDATE_NAMESPACE mandate_id (λ _, True) mandate_move).
Notation interfere := (interfere owned allowed).
Notation wp := (wp owned allowed).
Notation mdocs := (docs MANDATE_NAMESPACE mandate_id).

(** The mandate in force under [i] is this withdrawn one. *)
Definition withdrawn (o : option Mandate) (σ : astate Value) : Prop :=
  match o with
  | None => True
  | Some m => is_Some (revoked m) ∧ present MANDATE_NAMESPACE (λ x, x = m) (mandate_id m) σ
  end.

Lemma withdrawn_rtc o σ σ' : rtc interfere σ σ' → withdrawn o σ → withdrawn o σ'.
Proof.
  intros Hr. destruct o as [m|]; [|done]. intros [[r Hm] Hp]. split; [by exists r|].
  eapply present_rtc; [|exact Hr|exact Hp]. intros x x' [Hx _] ->. congruence.
Qed.

Context {SdOk : SerdeOk Value Mandate}.

Lemma revoke_id m by_ reason now : mandate_id (revoke m by_ reason now) = mandate_id m.
Proof. unfold revoke. by destruct (revoked m). Qed.

Lemma wp_mandate_revoke i id by_ reason now σ :
  mdocs (λ _, True) σ →
  wp i (MandateStore_revoke id by_ reason now)
    (λ r σ', withdrawn match r with Ok m => Some m | Err _ => None end σ') σ.
Proof.
  intros Hd.
  assert (∀ σ' v val x, rtc interfere σ σ' → σ'.1 !! (MANDATE_NAMESPACE, id) = Some (v, val) →
    from_value val = Ok x → mandate_id x = id) as Hkey.
  { intros σ' v val x Hr Hl Hx. eapply docs_true in Hr; [|done].
    destruct (Hr _ _ _ Hl) as [_ Hk]. by apply Hk. }
  apply wp_cas_loop; try done.
  - intros σ' v val x x' a val' Hr Hl Hx Hb Hv' _. case_bool_decide as Hrev; [done|].
    injection Hb as <- _. eexists. split_and!; [by apply from_to_value| |].
    + rewrite revoke_id. by eapply Hkey.
    + exists x. split; [done|]. split; [by apply eq_None_not_Some|eauto].
  - intros v val x a σr σ' Hr Hl Hr' Hx Hb. case_bool_decide as Hrev; [|done].
    injection Hb as <-. apply (withdrawn_rtc _ σr); [done|]. split; [done|].
    exists v, val, x. by rewrite (Hkey σr v val x).
  - intros v val x x' a val' σr σw σ' Hr Hl Hx Hb Hv' Hrw Hlw He Hr'.
    case_bool_decide as Hrev; [done|]. injection Hb as <- <-.
    apply (withdrawn_rtc _ σw); [done|]. split.
    + unfold revoke. destruct (revoked x) eqn:E; [by rewrite E|done].
    + exists (v + 1), val', (revoke x by_ reason now). rewrite revoke_id, (Hkey σr v val x) by done.
      split_and!; [done|by apply from_to_value|done].
Qed.

Lemma wp_mandate_call i call σ :
  mdocs (λ _, True) σ → wp i (run_mandate_call call) (λ o σ', withdrawn o σ') σ.
Proof.
  intros Hd. destruct call as [m|id by_ reason now|case limit]; cbn [run_mandate_call]; apply wp_bind.
  - apply wp_bind, wp_create; [exact _|done|done|done| |]; intros; repeat (apply wp_ret; intros); done.
  - eapply wp_mono; [|by apply wp_mandate_revoke]. intros r σ' Hr. apply wp_ret. intros σ'' Hr'.
    by eapply withdrawn_rtc.
  - apply wp_bind, wp_doc_list; [done| |]; intros; repeat (apply wp_ret; intros); done.
Qed.

Definition mandates_keyed (s : S) : Prop :=
  ∀ k v val m, contents s !! (MANDATE_NAMESPACE, k) = Some (v, val) → from_value val = Ok m →
    mandate_id m = k.

Lemma mandate_pool s calls c' :
  store_wf s → mandates_keyed s →
  rtc (step owned) (mkConfig s (run_mandate_call <$> calls) []) c' →
  all_wp owned allowed (λ _ o σ, withdrawn o σ) c'.
Proof.
  intros Hwf Hok Hsteps. eapply steps_all_wp; [|exact Hsteps]. split; [done|].
  intros i p Hi. cbn in Hi. apply list_lookup_fmap_Some in Hi as (c & -> & _).
  apply wp_mandate_call. intros k v val Hk. split; [by eapply contents_version|].
  intros x Hx. split; [by eapply Hok|done].
Qed.
End MandatePool.

(** ** Properties *)

Section StoreProperties.
Context {S Value Json : Type} {St : RecordStore S Value} {StOk : RecordStoreOk S Value}
        {Sd : Serde Value (WorkCase Json)} {SdOk : SerdeOk Value (WorkCase Json)}.

(** C7: whatever creations, transitions, run openings, run completions and other
    updates are in flight on the cases, and however they interleave, every case
    in the store keeps its invariant: at most 64 retained runs, only the newest
    possibly open, gap-free attempt numbers, and ends exactly on finished runs. *)
Theorem case_updates_keep_invariant (s : S) calls c' k v val c :
  store_wf s → cases_ok s → Forall case_call_legal calls →
  rtc (step (proto_owned CASE_NAMESPACE)) (mkConfig s (run_case_call <$> calls) []) c' →
  contents (cfg_store c') !! (CASE_NAMESPACE, k) = Some (v, val) → from_value val = Ok c →
  case_id c = k ∧ case_core c.
Proof.
  intros Hwf Hok Hl Hsteps Hk Hc. destruct (case_pool s calls c' Hwf Hok Hl Hsteps) as (_ & Hd & _).
  destruct (Hd k v val Hk) as [_ Hx]. by apply Hx.
Qed.

(** C8: no update of a case is lost or overwritten: in every interleaving each
    write of a case replaces exactly the document the previous write left, by
    steps of the status machine, and a case seen completed, failed or cancelled
    has that status in every later state. *)
Theorem case_updates_serialize (s : S) calls c1 c2 k :
  store_wf s → cases_ok s → Forall case_call_legal calls →
  rtc (step (proto_owned CASE_NAMESPACE)) (mkConfig s (run_case_call <$> calls) []) c1 →
  rtc (step (proto_owned CASE_NAMESPACE)) c1 c2 →
  (∀ n e1 e2, history CASE_NAMESPACE k (cfg_log c2) !! n = Some e1 →
     history CASE_NAMESPACE k (cfg_log c2) !! Datatypes.S n = Some e2 →
     ∃ v, ev_old e2 = Some (v, ev_new e1)) ∧
  (∀ e v val, e ∈ history CASE_NAMESPACE k (cfg_log c2) → ev_old e = Some (v, val) →
     ∃ x x', from_value val = Ok x ∧ from_value (ev_new e) = Ok x' ∧ rtc case_step x x') ∧
  (∀ v val c, contents (cfg_store c1) !! (CASE_NAMESPACE, k) = Some (v, val) →
     from_value val = Ok c → is_terminal (status c) = true →
     ∃ v' val' c'', contents (cfg_store c2) !! (CASE_NAMESPACE, k) = Some (v', val') ∧
       from_value val' = Ok c'' ∧ status c'' = status c).
Proof.
  intros Hwf Hok Hl Hsteps1 Hsteps2.
  destruct (case_pool s calls c2 Hwf Hok Hl) as (Hr & _ & _); [by etrans|].
  destruct (case_pool s calls c1 Hwf Hok Hl Hsteps1) as (_ & _ & Hall).
  pose proof (linked_rtc _ _ _ _ (contents s, []) _ eq_refl Hr k) as (Hch & _ & Hmv).
  split_and!; [exact Hch| |].
  - intros e v val [n Hn]%list_elem_of_lookup Ho. destruct (Hmv n e Hn) as (x' & Hx' & _ & Hold).
    rewrite Ho in Hold. destruct Hold as (x & Hx & _ & _ & Hs). by exists x, x'.
  - intros v val c Hk Hc Ht. pose proof (steps_interfere _ _ _ _ _ Hall Hsteps2) as Hr2.
    apply (present_rtc _ _ _ _ (λ x, status x = status c) k _ _
      (λ x x' Hm Hst, terminal_move x x' (status c) Ht Hm Hst) Hr2). by exists v, val, c.
Qed.

(** An update alone on the store is all or nothing: an unknown case changes
    nothing; a mutation the state machine refuses is reported and nothing of it,
    not even a partial change, is stored; an accepted one is stored whole, at the
    next version. *)
Theorem update_all_or_nothing {T} clock (s : S) i
    (f : Z → WorkCase Json → result T CaseTransitionError * WorkCase Json) :
  store_wf s → store_up s →
  match contents s !! (CASE_NAMESPACE, i) with
  | None => run clock (CaseStore_update i f) s = (Err (CaseNotFound i), s)
  | Some (v, val) => ∀ c, from_value val = Ok c → v < i64_max →
      match f v c with
      | (Err e, _) => run clock (CaseStore_update i f) s = (Err (CaseTransition e), s)
      | (Ok out, c') => ∃ s' val',
          run clock (CaseStore_update i f) s = (Ok (set_version c' (v + 1), out), s') ∧
          from_value val' = Ok (set_version c' (v + 1)) ∧
          contents s' = <[(CASE_NAMESPACE, i) := (v + 1, val')]> (contents s)
      end
  end.
Proof.
  intros Hwf Hup. unfold CaseStore_update.
  destruct (contents s !! (CASE_NAMESPACE, i)) as [[v val]|] eqn:E.
  - intros c Hc Hv.
    match goal with |- context [cas_loop 16 _ _ ?ab ?b ?fl ?ct] =>
      pose proof (run_cas_loop clock s 15 CASE_NAMESPACE i v val c ab b fl ct
        (conj Hwf Hup) E Hc Hv) as Hrun end.
    cbv beta in Hrun. destruct (f v c) as [[out|e] c'] eqn:Ef; cbv zeta in Hrun.
    + destruct Hrun as (s' & val' & Hr & _ & Hv' & Hcont). exists s', val'. split_and!; done.
    + exact Hrun.
  - by apply run_cas_loop_absent.
Qed.
End StoreProperties.

Section MandateProperties.
Context {S Value : Type} {St : RecordStore S Value} {StOk : RecordStoreOk S Value}
        {Sd : Serde Value Mandate} {SdOk : SerdeOk Value Mandate}.

(** A withdrawn mandate is withdrawn for good: once some call saw its
    withdrawal succeed (or found it withdrawn), then in every later state of every
    interleaving with other withdrawals and issues, the mandate in the store is
    that very withdrawn one, with its original reason. *)
Theorem withdrawal_is_durable (s : S) calls c1 c2 i m :
  store_wf s → mandates_keyed s →
  rtc (step (proto_owned MANDATE_NAMESPACE)) (mkConfig s (run_mandate_call <$> calls) []) c1 →
  cfg_threads c1 !! i = Some (Ret (Some m)) →
  rtc (step (proto_owned MANDATE_NAMESPACE)) c1 c2 →
  is_Some (revoked m) ∧
  ∃ v val, contents (cfg_store c2) !! (MANDATE_NAMESPACE, mandate_id m) = Some (v, val) ∧
           from_value val = Ok m.
Proof.
  intros Hwf Hok Hsteps1 Hi Hsteps2. pose proof (mandate_pool s calls c1 Hwf Hok Hsteps1) as Hall.
  pose proof (wp_adequate _ _ _ _ _ Hall (rtc_refl _ _) i _ Hi) as Hw.
  pose proof (steps_interfere _ _ _ _ _ Hall Hsteps2) as Hr.
  apply (withdrawn_rtc _ _ _ Hr) in Hw as [Hrev (v & val & x & Hl & Hx & ->)].
  split; [done|]. by exists v, val.
Qed.
End MandateProperties.

(** *** Witnesses *)

#[local] Existing Instance identity_serde.
#[local] Existing Instance identity_serde_ok.

Definition witness_cases : InMemoryRecordStore (WorkCase unit) :=
  mkInMemory {[ ("work_case", "c-1") := mkRecord "work_case" "c-1" 1 witness_active 1 ]} false.

Lemma witness_cases_wf : store_wf witness_cases.
Proof. apply map_Forall_singleton. split; simpl; [done|lia]. Qed.

Lemma witness_cases_ok : cases_ok witness_cases.
Proof.
  intros k v val c Hl Hv. simpl in Hv. injection Hv as ->. revert Hl. cbn [contents InMemory_Ok].
  rewrite in_memory_contents_lookup. intros (r & Hr & [= -> ->])%fmap_Some. revert Hr.
  cbn [inner witness_cases]. intros [[= <-] <-]%lookup_singleton_Some. split; [done|].
  apply (transition_core (set_version (set_mandate_id
    (WorkCase_new "c-1" "fix" "fix the build" "proj" CaseOrigin_manual 0) (Some "m-1")) 1) Active 1).
  eapply case_core_ext; [..|apply (WorkCase_new_wf "c-1" "fix" "fix the build" "proj" CaseOrigin_manual 0)];
    done.
Qed.

(** A cancellation and a run opening race; the cancellation wins. *)
Definition witness_calls : list (case_call (Json:=unit)) :=
  [CaseCallTransition "c-1" Cancelled 5; CaseCallOpenRun (λ _, "r-1") "c-1" "t-1" None 6].

Definition witness_start := mkConfig witness_cases (run_case_call <$> witness_calls) [].

Lemma witness_legal : Forall case_call_legal witness_calls.
Proof. by repeat constructor. Qed.

Lemma case_updates_keep_invariant_witness :
  case_core (set_version (transition witness_active Cancelled 5).2 2).
Proof.
  apply (case_updates_keep_invariant witness_cases witness_calls
    (exec 9 [0; 1; 0; 1; 1]%nat witness_start) "c-1" 2
    (set_version (transition witness_active Cancelled 5).2 2) _
    witness_cases_wf witness_cases_ok witness_legal (exec_rtc _ _ _ _)).
  - vm_compute. reflexivity.
  - reflexivity.
Defined.

Lemma case_updates_serialize_witness :
  ∃ v val c, contents (cfg_store (exec 9 [1; 1]%nat (exec 9 [0; 1; 0]%nat witness_start))) !!
               (CASE_NAMESPACE, "c-1") = Some (v, val) ∧
             from_value val = Ok c ∧ status (c : WorkCase unit) = Cancelled.
Proof.
  destruct (case_updates_serialize witness_cases witness_calls
    (exec 9 [0; 1; 0]%nat witness_start) (exec 9 [1; 1]%nat (exec 9 [0; 1; 0]%nat witness_start))
    "c-1" witness_cases_wf witness_cases_ok witness_legal (exec_rtc _ _ _ _) (exec_rtc _ _ _ _))
    as (_ & _ & Ht).
  apply (Ht 2 (set_version (transition witness_active Cancelled 5).2 2)
              (set_version (transition witness_active Cancelled 5).2 2)).
  - vm_compute. reflexivity.
  - reflexivity.
  - reflexivity.
Defined.

Lemma update_all_or_nothing_witness :
  run 9 (CaseStore_update "c-1" (λ _ c, transition c Completed 5)) witness_cases =
  (Err (CaseTransition (Illegal Active Completed)), witness_cases).
Proof.
  pose proof (update_all_or_nothing 9 witness_cases "c-1" (λ _ c, transition c Completed 5)
    witness_cases_wf eq_refl) as Hx.
  assert (contents witness_cases !! (CASE_NAMESPACE, "c-1") = Some (1, witness_active)) as E
    by reflexivity.
  rewrite E in Hx. apply (Hx witness_active); reflexivity.
Defined.

Definition witness_mandates : InMemoryRecordStore Mandate :=
  mkInMemory {[ ("mandate", "m-1") := mkRecord "mandate" "m-1" 1 witness_parent 1 ]} false.

Lemma witness_mandates_wf : store_wf witness_mandates.
Proof. apply map_Forall_singleton. split; simpl; [done|lia]. Qed.

Lemma witness_mandates_keyed : mandates_keyed witness_mandates.
Proof.
  intros k v val c Hl Hv. simpl in Hv. injection Hv as ->. revert Hl. cbn [contents InMemory_Ok].
  rewrite in_memory_contents_lookup. intros (r & Hr & [= -> ->])%fmap_Some. revert Hr.
  cbn [inner witness_mandates]. by intros [[= <-] <-]%lookup_singleton_Some.
Qed.

(** Two withdrawals race; the first one's record stays. *)
Lemma withdrawal_is_durable_witness :
  is_Some (revoked (revoke witness_parent (Principal_user "ada") "done" 5)).
Proof.
  eapply (withdrawal_is_durable witness_mandates
    [MandateCallRevoke "m-1" (Principal_user "ada") "done" 5;
     MandateCallRevoke "m-1" (Principal_user "bob") "late" 6]
    (exec 9 [0; 1; 0]%nat _) _ 0
    (revoke witness_parent (Principal_user "ada") "done" 5)
    witness_mandates_wf witness_mandates_keyed (exec_rtc _ _ _ _)); [|apply (exec_rtc _ 9 [1; 1]%nat)].
  vm_compute. reflexivity.
Defined.
