(* ===== verification/PolicyEngine.v ===== *)
(** * The policy engine

    [uc-engine/src/governance/policy.rs]: authorization decisions over the
    installed snapshot, the tool table, mandates and human approvals, and the
    life cycle of mandates.  The engine's own state is the installed snapshot
    ([None] when its lock is poisoned); the rest is in the record store. *)

From Stdlib Require Import String SpecFloat.
From S2P Require Import Prelude RustStr Store Prog Concurrency Protocol Policy Glob.
From S2P Require Import Mandate WorkCase Approval CaseStore.

(** ** State and errors *)

Definition POLICY_NAMESPACE : string := "policy".

Inductive PolicyEngineError : Type :=
| PolicyStoreFailed (e : RecordError)
| PolicyMandate (e : MandateStoreError)
| PolicyDenied (d : PolicyDecision)
| Widening (detail : string)
| UnknownMandate (mandate_id : string)
| MandateConflict (case_id existing : string).

(** [snapshot: Arc<RwLock<PolicySnapshot>>], the tool table, and whether an
    approval store is attached. *)
Record PolicyEngine : Type := mkEngine {
  engine_lock : option PolicySnapshot;
  engine_tools : gmap string ToolPolicy;
  engine_approvals : bool
}.

Definition PolicyEngine_new : PolicyEngine :=
  mkEngine (Some (PolicySnapshot_empty PolicyVersion_initial)) ToolPolicyTable_builtin false.
Definition with_approvals (e : PolicyEngine) : PolicyEngine :=
  mkEngine (engine_lock e) (engine_tools e) true.

Definition engine_version (e : PolicyEngine) : Z :=
  match engine_lock e with Some s => snapshot_version s | None => PolicyVersion_initial end.
Definition engine_snapshot (e : PolicyEngine) : PolicySnapshot :=
  default (PolicySnapshot_empty PolicyVersion_initial) (engine_lock e).

Definition install_in_memory (e : PolicyEngine) (s : PolicySnapshot) : PolicyEngine :=
  mkEngine (match engine_lock e with Some _ => Some s | None => None end) (engine_tools e)
    (engine_approvals e).

Definition with_snapshot (s : PolicySnapshot) : PolicyEngine := install_in_memory PolicyEngine_new s.

Definition snapshot_with_version (s : PolicySnapshot) (v : Z) : PolicySnapshot :=
  mkSnapshot v (snapshot_grants s) (revoked_mandates s) (minimum_accepted_version s).

(** ** Decisions *)

Definition authorize (e : PolicyEngine) (principal : Principal) (permission : Permission)
    (project_id : option string) (now : Instant) : PolicyDecision :=
  evaluate (engine_snapshot e) principal permission project_id now.

Definition authorize_scale_workers (e : PolicyEngine) (principal : Principal) (now : Instant)
    : PolicyDecision := authorize e principal WorkerScale None now.

Definition validate_sandbox (p : SandboxSecurityProfile) : PolicyDecision := sandbox_decision p.

Definition mandate_denial (d : MandateDenial) : DenyReason :=
  match d with
  | Revoked i _ => MandateRevoked i
  | Expired i at_ => MandateExpired i at_
  | OutOfScope scope value => MandateOutOfScope scope value
  | WideningDenied detail => MandateWideningDenied detail
  | DenialStalePolicyVersion provided minimum => StalePolicyVersion provided minimum
  | OriginForbidden o => MandateWideningDenied ("forbidden mandate origin: " +:+ o)
  end.

(** The [Debug] rendering of a denial, in one error text. *)
Class DenialDebug := { denial_debug : MandateDenial → string }.

Section Engine.
Context {Value : Type} {Sdm : Serde Value Mandate} {Sda : Serde Value ToolApproval}
        {Sds : Serde Value PolicySnapshot} `{F64Display} `{DenialDebug}.
Notation prog := (prog Value).

(** [install] and [load_persisted]: the new engine next to the answer. *)
Definition install (e : PolicyEngine) (s : PolicySnapshot)
    : prog (result Z PolicyEngineError * PolicyEngine) :=
  let version := if engine_version e <? snapshot_version s then snapshot_version s
                 else PolicyVersion_next (engine_version e) in
  let s' := snapshot_with_version s version in
  let! w := ns_put POLICY_NAMESPACE "current" s' None in
  Ret match w with
      | Err error => (Err (PolicyStoreFailed error), e)
      | Ok _ => (Ok version, install_in_memory e s')
      end.

Definition load_persisted (e : PolicyEngine)
    : prog (result (option Z) PolicyEngineError * PolicyEngine) :=
  let! g := ns_get POLICY_NAMESPACE "current" in
  Ret match g with
      | Err error => (Err (PolicyStoreFailed error), e)
      | Ok None => (Ok None, e)
      | Ok (Some (s, _)) => (Ok (Some (snapshot_version s)), install_in_memory e s)
      end.

Definition authorize_mandate (m : Mandate) (request : MandateRequest) (now : Instant)
    : PolicyDecision :=
  match permits m request now with
  | Allowed => Allow
  | Denied d => Deny (mandate_denial d)
  end.

(** [Ok None]: the operator tier; [Ok (Some id)]: a permit to spend. *)
Definition peek_human_tier_permit (e : PolicyEngine) (principal : Principal)
    (project_id : option string) (tool : string) (case : option string) (now : Instant)
    : prog (result (option string) PolicyDecision) :=
  let operator := authorize e principal ProactiveExecute project_id now in
  if is_allowed operator then Ret (Ok None)
  else
    let! approved :=
      (if engine_approvals e then
         let! r := find_approved tool case now in
         Ret match r with Ok a => approval_key <$> a | Err _ => None end
       else Ret None) in
    Ret match approved with
        | Some id => Ok (Some id)
        | None => Err (Deny (ToolRequiresHumanApproval tool))
        end.

Definition settle_tool_decision (e : PolicyEngine) (permit_id : option string) (tool : string)
    (now : Instant) : prog PolicyDecision :=
  match permit_id with
  | None => Ret Allow
  | Some id =>
      if negb (engine_approvals e) then Ret (Deny (ToolRequiresHumanApproval tool))
      else
        let! r := ApprovalStore_consume id now in
        Ret match r with
            | Ok _ => Allow
            | Err _ => Deny (ToolRequiresHumanApproval tool)
            end
  end.

(** The gate both entry points share: table, permission, human tier; [k] goes on
    with the permit. *)
Definition tool_gate (e : PolicyEngine) (principal : Principal) (tool : string)
    (project_id case : option string) (now : Instant)
    (k : option string → prog PolicyDecision) : prog PolicyDecision :=
  let req := requirement (engine_tools e) tool in
  if negb (known req) then Ret (Deny (ToolNotPermitted tool))
  else
    let d := authorize e principal (required_permission (policy_action req)) project_id now in
    if is_denied d then Ret d
    else if human_approval req then
      let! p := peek_human_tier_permit e principal project_id tool case now in
      match p with
      | Ok permit_id => k permit_id
      | Err decision => Ret decision
      end
    else k None.

Definition tool_request (tool : string) (action : ActionClass) : MandateRequest :=
  mkRequest None None None (Some tool) (Some action) None None None None.

Definition authorize_tool (e : PolicyEngine) (principal : Principal) (tool : string)
    (project_id case : option string) (now : Instant) : prog PolicyDecision :=
  let req := requirement (engine_tools e) tool in
  tool_gate e principal tool project_id case now (λ permit_id,
    if negb (requires_mandate_scope req) then settle_tool_decision e permit_id tool now
    else match case with
         | None => Ret (Deny MandateMissing)
         | Some case_id =>
             let! l := latest_for_case case_id 256 in
             match l with
             | Ok (Some mandate) =>
                 let decision := authorize_mandate mandate (tool_request tool (policy_action req)) now in
                 if is_allowed decision then settle_tool_decision e permit_id tool now
                 else Ret decision
             | Ok None => Ret (Deny MandateMissing)
             | Err _ => Ret (Deny MandateMissing)
             end
         end).

Definition authorize_human_tier_tool (e : PolicyEngine) (principal : Principal) (tool : string)
    (project_id case : option string) (now : Instant) : prog PolicyDecision :=
  tool_gate e principal tool project_id case now (λ permit_id,
    settle_tool_decision e permit_id tool now).

(** ** Mandates *)

Definition with_case (m : Mandate) (case : string) : Mandate :=
  mkMandate (mandate_id m) case (grantor m) (mandate_policy_version m) (scopes m) (issued_at m)
    (mandate_expires_at m) (revoked m) (origin m) (delegated_from m).

Definition persist_mandate (m : Mandate) : prog (result Mandate PolicyEngineError) :=
  let! w := put_new m in
  Ret match w with Ok _ => Ok m | Err error => Err (PolicyMandate error) end.

Definition issue_mandate (e : PolicyEngine) (fresh_id : string) (by_ : Principal) (case : string)
    (project_id : option string) (ss : list MandateScope) (o : MandateOrigin)
    (expires_at : option Instant) (parent_id : option string) (now : Instant)
    : prog (result Mandate PolicyEngineError) :=
  let decision := authorize e by_ MandateIssue project_id now in
  if is_denied decision then Ret (Err (PolicyDenied decision))
  else if (o ==? HumanIssued) && bool_decide (is_Some parent_id) then
    Ret (Err (Widening "a delegated mandate cannot claim the human origin"))
  else
    let version := engine_version e in
    let m0 := Mandate_new fresh_id case by_ o ss version now in
    let m := match expires_at with Some at_ => Mandate_with_expiry m0 at_ | None => m0 end in
    match parent_id with
    | Some pid =>
        let! g := MandateStore_get pid in
        match g with
        | Err error => Ret (Err (PolicyMandate error))
        | Ok None => Ret (Err (UnknownMandate pid))
        | Ok (Some (parent, _)) =>
            let m' := delegate_from m parent in
            match validate_child parent m' now (Some version) with
            | Denied d => Ret (Err (Widening (denial_debug d)))
            | Allowed => persist_mandate (with_case m' (mandate_case_id parent))
            end
        end
    | None =>
        let! l := latest_for_case case 256 in
        match l with
        | Err error => Ret (Err (PolicyMandate error))
        | Ok None => persist_mandate m
        | Ok (Some existing) =>
            let live := negb (is_revoked existing) && negb (is_expired existing now) in
            if live && (mandate_id existing !=? mandate_id m) then
              Ret (Err (MandateConflict case (mandate_id existing)))
            else persist_mandate m
        end
    end.

Definition revoke_mandate (e : PolicyEngine) (i : string) (by_ : Principal) (reason : string)
    (now : Instant) : prog (result Mandate PolicyEngineError * PolicyEngine) :=
  let decision := authorize e by_ MandateRevoke None now in
  if is_denied decision then Ret (Err (PolicyDenied decision), e)
  else
    let! r := MandateStore_revoke i by_ reason now in
    Ret match r with
        | Err error => (Err (PolicyMandate error), e)
        | Ok m =>
            (Ok m, mkEngine ((λ s, snapshot_revoke_mandate s i reason) <$> engine_lock e)
                     (engine_tools e) (engine_approvals e))
        end.

Definition get_mandate (i : string) : prog (result (option Mandate) PolicyEngineError) :=
  let! g := MandateStore_get i in
  Ret match g with Ok o => Ok (fst <$> o) | Err error => Err (PolicyMandate error) end.

Definition latest_mandate_for_case (case : string)
    : prog (result (option Mandate) PolicyEngineError) :=
  let! l := latest_for_case case 256 in Ret (map_err PolicyMandate l).
End Engine.

(** ** The development snapshot *)

Definition all_permissions : list Permission :=
  [TaskSubmit; TaskRead; TaskControl; CaseCreate; CaseRead; CaseControl; MandateIssue;
   MandateRevoke; TriggerIngest; WorkerScale; MemoryWrite; MergeGrant; AttentionResolve;
   ProactivePropose; ProactiveExecute].

Definition dashboard_permissions : list Permission :=
  [TaskSubmit; TaskRead; CaseCreate; CaseRead; CaseControl; AttentionResolve; TriggerIngest;
   ProactivePropose; ProactiveExecute].

(** [if let Ok(next) = snapshot.clone().with_grant(..) { snapshot = next }]. *)
Definition grant_or_keep (s : PolicySnapshot) (g : Grant) : PolicySnapshot :=
  match with_grant s g with Ok s' => s' | Err _ => s end.

Definition development_snapshot (operator : string) : PolicySnapshot :=
  foldl grant_or_keep (PolicySnapshot_empty PolicyVersion_initial)
    [Grant_new (Principal_user operator) all_permissions;
     Grant_new (Principal_agent "uc-worker") [TaskSubmit];
     Grant_new (Principal_service "dashboard") dashboard_permissions;
     Grant_new (Principal_user "dashboard") dashboard_permissions].

(** ** Tool decisions in flight *)

(** The calls on the gate: a tool decision (with or without the mandate check),
    or any call on the approvals. *)
Inductive gate_call : Type :=
| CallTool (scoped : bool) (e : PolicyEngine) (principal : Principal) (tool : string)
    (project_id case : option string) (now : Instant)
| CallApprovals (c : approval_call).

Section GatePool.
Context {S Value : Type} {St : RecordStore S Value} {StOk : RecordStoreOk S Value}
        {Sdm : Serde Value Mandate} {Sda : Serde Value ToolApproval}
        `{F64Display} `{DenialDebug} `{Sha256}.

(** The decision of a tool call. *)
Definition run_gate_call (c : gate_call) : prog Value (option PolicyDecision) :=
  match c with
  | CallTool true e principal tool project_id case now =>
      let! d := authorize_tool e principal tool project_id case now in Ret (Some d)
  | CallTool false e principal tool project_id case now =>
      let! d := authorize_human_tier_tool e principal tool project_id case now in Ret (Some d)
  | CallApprovals c => let! _ := run_approval_call c in Ret None
  end.

Notation owned := (proto_owned APPROVAL_NAMESPACE).
Notation allowed :=
  (proto_allowed APPROVAL_NAMESPACE approval_key approval_created approval_move).
Notation interfere := (interfere owned allowed).
Notation wp := (wp owned allowed).
Notation adocs := (docs APPROVAL_NAMESPACE approval_key).

(** What an allowed tool call of thread [i] rests on. *)
Definition tool_allowed (i : nat) (e : PolicyEngine) (principal : Principal) (tool : string)
    (project_id case : option string) (now : Instant) (σ : astate Value) : Prop :=
  let req := requirement (engine_tools e) tool in
  known req = true ∧
  authorize e principal (required_permission (policy_action req)) project_id now = Allow ∧
  (human_approval req = true →
     authorize e principal ProactiveExecute project_id now = Allow ∨
     ∃ a, spent_by i (Some a) σ ∧ approval_covers a tool case = true).

(** The permit a call goes on with: nothing to spend, or a permit that covers. *)
Definition permit_covers (tool : string) (case : option string) (permit : option string)
    (σ : astate Value) : Prop :=
  match permit with
  | None => True
  | Some id => ∃ r, settled APPROVAL_NAMESPACE approval_request id r σ ∧
      approval_tool r = tool ∧ approval_case_id r = case
  end.

Lemma permit_covers_rtc tool case permit σ σ' :
  rtc interfere σ σ' → permit_covers tool case permit σ → permit_covers tool case permit σ'.
Proof.
  intros Hr. destruct permit as [id|]; [|done]. intros (r & Hs & Hc). exists r. split; [|done].
  eapply settled_rtc; [apply approval_move_request|exact Hr|done].
Qed.

Context {SdOk : SerdeOk Value ToolApproval}.

Lemma wp_peek i e principal project_id tool case now σ :
  adocs (λ _, True) σ →
  wp i (peek_human_tier_permit e principal project_id tool case now)
    (λ r σ', match r with
             | Ok permit => permit_covers tool case permit σ' ∧
                 (permit = None → authorize e principal ProactiveExecute project_id now = Allow)
             | Err d => d ≠ Allow
             end) σ.
Proof.
  intros Hd. unfold peek_human_tier_permit.
  destruct (is_allowed _) eqn:Hop.
  { apply wp_ret. intros σ' _. split; [done|]. intros _. by destruct (authorize _ _ _ _ _). }
  apply wp_bind. destruct (engine_approvals e).
  - apply wp_bind. eapply wp_mono; [|by apply wp_find_approved].
    intros [[a|]|err] σ' Hr; apply wp_ret; intros σ'' Hr''; simpl.
    + destruct Hr as (_ & Hc & Hs). apply wp_ret. intros σ3 Hr3. split; [|done].
      exists (approval_request a). split.
      * eapply (settled_rtc _ _ _ _ _ _ _ σ'); [apply approval_move_request|chain|done].
      * unfold approval_covers in Hc. bool_hyps. done.
    + by apply wp_ret.
    + by apply wp_ret.
  - apply wp_ret. intros σ' Hr. by apply wp_ret.
Qed.

Lemma wp_settle i e permit tool case now σ :
  adocs (λ _, True) σ → permit_covers tool case permit σ →
  wp i (settle_tool_decision e permit tool now)
    (λ d σ', d = Allow → permit = None ∨
       ∃ a, spent_by i (Some a) σ' ∧ approval_covers a tool case = true) σ.
Proof.
  intros Hd Hc. unfold settle_tool_decision. destruct permit as [id|].
  2: { apply wp_ret. by left. }
  destruct (negb _); [by apply wp_ret|]. apply wp_bind.
  eapply wp_mono; [|by apply wp_since, wp_approval_consume_at].
  intros [a|err] σ' [Hr Ha]; apply wp_ret; intros σ'' Hr'' Hd'; [|done].
  right. destruct Ha as (Hid & Hs & Hset). exists a. split; [by eapply spent_by_rtc|].
  eapply permit_covers_rtc in Hc as (r & Hr1 & Ht & Hcase); [|exact Hr].
  unfold approval_covers. rewrite (settled_eq _ _ _ _ _ _ Hset Hr1), Ht, Hcase.
  by rewrite !bool_decide_eq_true_2.
Qed.

Lemma wp_read_mandates {A} i limit (f : result (list (Mandate * Z)) RecordError → A) Q σ :
  (∀ r σ', rtc interfere σ σ' → Q (f r) σ') →
  wp i (let! l := ns_list MANDATE_NAMESPACE limit in Ret (f l)) Q σ.
Proof.
  intros HQ. apply wp_bind. intros σ1 Hr1. split; intros; intros σ2 Hr2; apply wp_ret;
    intros σ3 Hr3; apply HQ; chain.
Qed.

(** The continuation of the gate only has to settle the permit it is given. *)
Lemma wp_tool_gate i e principal tool project_id case now k σ :
  adocs (λ _, True) σ →
  (∀ permit σ', rtc interfere σ σ' → permit_covers tool case permit σ' →
     wp i (k permit) (λ d σ'', d = Allow → permit = None ∨
       ∃ a, spent_by i (Some a) σ'' ∧ approval_covers a tool case = true) σ') →
  wp i (tool_gate e principal tool project_id case now k)
    (λ d σ', d = Allow → tool_allowed i e principal tool project_id case now σ') σ.
Proof.
  intros Hd Hk. unfold tool_gate, tool_allowed.
  destruct (known _) eqn:Hkn; simpl; [|by apply wp_ret].
  destruct (authorize e principal (required_permission _) project_id now) as [|r] eqn:Hperm; simpl.
  2: by apply wp_ret.
  destruct (human_approval _) eqn:Hh.
  - apply wp_bind. eapply wp_mono; [|by apply wp_since, wp_peek].
    intros [permit|d] σ' [Hr Hp].
    + destruct Hp as [Hc Hop]. eapply wp_mono; [|by apply Hk].
      intros d σ'' Hs Hd'. split_and!; [done|done|]. intros _. destruct (Hs Hd') as [Hn|Ha]; auto.
    + by apply wp_ret.
  - eapply wp_mono; [|by apply Hk]. intros d σ' _ _. by split_and!.
Qed.

Lemma wp_authorize_tool i e principal tool project_id case now σ :
  adocs (λ _, True) σ →
  wp i (authorize_tool e principal tool project_id case now)
    (λ d σ', d = Allow → tool_allowed i e principal tool project_id case now σ') σ.
Proof.
  intros Hd. apply wp_tool_gate; [done|]. intros permit σ' Hr Hc.
  assert (∀ τ, rtc interfere σ' τ → wp i (settle_tool_decision e permit tool now)
    (λ d σ'', d = Allow → permit = None ∨
       ∃ a, spent_by i (Some a) σ'' ∧ approval_covers a tool case = true) τ) as Hsettle.
  { intros τ Hr'. apply wp_settle; [|by eapply permit_covers_rtc]. eapply docs_true; [|done]. chain. }
  destruct (negb _); [by apply Hsettle|]. destruct case as [case_id|]; [|by apply wp_ret].
  apply wp_bind, wp_read_mandates. intros l σ1 Hr1.
  destruct l as [ms|err]; [|by apply wp_ret].
  destruct (max_by_key _ _) as [m|]; [|by apply wp_ret].
  destruct (authorize_mandate m _ now) as [|r]; simpl; [by apply Hsettle|by apply wp_ret].
Qed.

Lemma tool_allowed_rtc i e principal tool project_id case now σ σ' :
  rtc interfere σ σ' → tool_allowed i e principal tool project_id case now σ →
  tool_allowed i e principal tool project_id case now σ'.
Proof.
  intros Hr (Hk & Hp & Hh). split_and!; [done|done|]. intros Hreq.
  destruct (Hh Hreq) as [Hop|(a & Hs & Hc)]; [by left|right]. exists a. split; [|done].
  by eapply spent_by_rtc.
Qed.

Definition gate_post (c : gate_call) (i : nat) (d : option PolicyDecision) (σ : astate Value)
    : Prop :=
  match c with
  | CallTool _ e principal tool project_id case now =>
      d = Some Allow → tool_allowed i e principal tool project_id case now σ
  | CallApprovals _ => True
  end.

Lemma wp_gate_call i c σ :
  adocs (λ _, True) σ → wp i (run_gate_call c) (gate_post c i) σ.
Proof.
  intros Hd. destruct c as [[] e principal tool project_id case now|c]; cbn [run_gate_call];
    apply wp_bind.
  - eapply wp_mono; [|by apply wp_authorize_tool]. intros d σ' Ht. apply wp_ret.
    intros σ'' Hr [= ->]. eapply tool_allowed_rtc; [done|]. by apply Ht.
  - eapply wp_mono; [|apply wp_tool_gate; [done|]].
    + intros d σ' Ht. apply wp_ret. intros σ'' Hr [= ->]. eapply tool_allowed_rtc; [done|].
      by apply Ht.
    + intros permit σ' Hr Hc. apply wp_settle; [|done]. by eapply docs_true.
  - eapply wp_mono; [|by apply wp_approval_call]. intros. by apply wp_ret.
Qed.

Notation pool s calls := (mkConfig s (run_gate_call <$> calls) []).

Lemma gate_pool_wp s calls :
  store_wf s → approvals_ok s →
  all_wp owned allowed
    (λ i d σ, match calls !! i with Some c => gate_post c i d σ | None => True end)
    (pool s calls).
Proof.
  intros Hwf Hok. split; [done|]. intros i p Hi. cbn in Hi.
  apply list_lookup_fmap_Some in Hi as (c & -> & Hc). rewrite Hc.
  apply wp_gate_call. by apply approvals_docs.
Qed.
End GatePool.

(** ** The engine alone *)

Section Alone.
Context {S Value : Type} {St : RecordStore S Value} {StOk : RecordStoreOk S Value}
        {Sdm : Serde Value Mandate} {SdmOk : SerdeOk Value Mandate}
        {Sda : Serde Value ToolApproval} {SdaOk : SerdeOk Value ToolApproval}
        `{F64Display} `{DenialDebug}.
Implicit Types (s : S).

(** Reading does not change the store. *)
Lemma run_find_approved t s tool case now :
  (run t (find_approved tool case now) s).2 = s.
Proof. unfold find_approved. by rewrite run_bind. Qed.

Lemma run_peek t s e principal project_id tool case now :
  (run t (peek_human_tier_permit e principal project_id tool case now) s).2 = s.
Proof.
  unfold peek_human_tier_permit. destruct (is_allowed _); [done|].
  rewrite run_bind. destruct (engine_approvals e); [|done]. rewrite run_bind.
  pose proof (run_find_approved t s tool case now) as Hs.
  destruct (run t (find_approved tool case now) s) as [r s1]. simpl in Hs. by subst s1.
Qed.

Lemma run_peek_denied t s e principal project_id tool case now d :
  (run t (peek_human_tier_permit e principal project_id tool case now) s).1 = Err d → d ≠ Allow.
Proof.
  unfold peek_human_tier_permit. destruct (is_allowed _); [done|].
  rewrite run_bind. destruct (run t _ s) as [[id|] s1]; cbn; [done|]. by intros [= <-].
Qed.

(** A refused spending spends nothing. *)
Lemma run_settle_denied t s s' e permit tool now d :
  store_wf s → run t (settle_tool_decision e permit tool now) s = (d, s') → d ≠ Allow → s' = s.
Proof.
  intros Hwf. unfold settle_tool_decision. destruct permit as [id|]; [|by intros [= <- _]].
  destruct (negb _); [by intros [= _ <-]|]. rewrite run_bind.
  destruct (run t (ApprovalStore_consume id now) s) as [[a|err] s1] eqn:E; intros [= <- <-] Hd;
    [done|].
  eapply run_cas_loop_quiet; [exact Hwf|exact E|]. intros x v x' Hb. cbv beta in Hb.
  destruct (consume x now); discriminate.
Qed.

Lemma run_latest t s s' case limit o :
  store_wf s → run t (latest_for_case case limit) s = (Ok o, s') →
  s' = s ∧ ∀ m, o = Some m → mandate_case_id m = case ∧
    ∃ k v val, contents s !! (MANDATE_NAMESPACE, k) = Some (v, val) ∧ from_value val = Ok m.
Proof.
  intros Hwf. unfold latest_for_case. rewrite run_bind.
  destruct (run t (ns_list MANDATE_NAMESPACE limit) s) as [[ms|] s1] eqn:E; [|done].
  apply run_ns_list_read in E as [-> Hms]; [|done]. intros [= <- <-]. split; [done|].
  intros m Hm. apply max_by_key_elem, filterb_elem in Hm as [Hm Hc]. bool_hyps. split; [done|].
  apply list_elem_of_fmap in Hm as ([m' v] & -> & Hm). destruct (Hms _ _ Hm) as (k & val & ? & ?).
  by exists k, v, val.
Qed.

Lemma run_latest_same t s case limit : (run t (latest_for_case case limit) s).2 = s.
Proof. unfold latest_for_case. by rewrite run_bind. Qed.

(** The gate refuses without a write, or goes on from the same store. *)
Lemma run_tool_gate t s s' e principal tool project_id case now k d :
  run t (tool_gate e principal tool project_id case now k) s = (d, s') →
  let req := requirement (engine_tools e) tool in
  (d ≠ Allow ∧ s' = s) ∨
  (known req = true ∧
   authorize e principal (required_permission (policy_action req)) project_id now = Allow ∧
   ∃ permit, run t (k permit) s = (d, s')).
Proof.
  unfold tool_gate. cbv zeta. destruct (known _); simpl; [|intros [= <- <-]; by left].
  destruct (authorize e principal (required_permission _) project_id now) as [|r]; simpl;
    [|intros [= <- <-]; by left].
  destruct (human_approval _); [|intros Hk; right; by eauto].
  rewrite run_bind. pose proof (run_peek t s e principal project_id tool case now) as Hs.
  pose proof (run_peek_denied t s e principal project_id tool case now) as Hd.
  destruct (run t (peek_human_tier_permit _ _ _ _ _ _) s) as [[permit|d'] s1]; simpl in *; subst s1.
  - intros Hk. right. by eauto.
  - intros [= <- <-]. left. split; [|done]. by apply Hd.
Qed.

(** The mandate check before the permit is spent. *)
Lemma run_authorize_tool t s s' e principal tool project_id case now d :
  store_wf s → run t (authorize_tool e principal tool project_id case now) s = (d, s') →
  let req := requirement (engine_tools e) tool in
  (d ≠ Allow ∧ s' = s) ∨
  (known req = true ∧
   authorize e principal (required_permission (policy_action req)) project_id now = Allow ∧
   (requires_mandate_scope req = true → ∃ case_id m k v val, case = Some case_id ∧
      contents s !! (MANDATE_NAMESPACE, k) = Some (v, val) ∧ from_value val = Ok m ∧
      mandate_case_id m = case_id ∧
      permits m (tool_request tool (policy_action req)) now = Allowed) ∧
   ∃ permit, run t (settle_tool_decision e permit tool now) s = (d, s')).
Proof.
  intros Hwf Hrun. cbv zeta. apply run_tool_gate in Hrun as [?|(Hk & Hp & permit & Hrun)]; [by left|].
  destruct (requires_mandate_scope _); cbn [negb] in Hrun;
    [|right; split_and!; [done|done|done|by exists permit]].
  destruct case as [case_id|]; [|injection Hrun as <- <-; by left].
  rewrite run_bind in Hrun.
  destruct (run t (latest_for_case case_id 256) s) as [[o|] s1] eqn:El.
  2: { pose proof (run_latest_same t s case_id 256) as Hs. rewrite El in Hs. simpl in Hs. subst s1.
       injection Hrun as <- <-. by left. }
  apply run_latest in El as [-> Hm]; [|done].
  destruct o as [m|]; [|injection Hrun as <- <-; by left].
  destruct (Hm m eq_refl) as (Hc & k & v & val & Hl & Hv). unfold authorize_mandate in Hrun.
  destruct (permits m _ now) as [|dn] eqn:Hper; cbn [is_allowed] in Hrun;
    [|injection Hrun as <- <-; by left].
  right. split_and!; [done|done| |by exists permit]. intros _. by exists case_id, m, k, v, val.
Qed.

(** Storing a new mandate. *)
Lemma run_persist t s s' m m' :
  store_wf s → run t (persist_mandate m) s = (Ok m', s') →
  m' = m ∧ contents s !! (MANDATE_NAMESPACE, mandate_id m) = None ∧
  ∃ val, from_value val = Ok m ∧
    contents s' = <[(MANDATE_NAMESPACE, mandate_id m) := (1, val)]> (contents s).
Proof.
  intros Hwf. unfold persist_mandate, put_new. rewrite !run_bind.
  destruct (run t (ns_put _ _ _ _) s) as [[r|err] s1] eqn:E; [|done].
  apply run_ns_put_wrote in E as (Hc & _ & val & Hv & Hcont); [|done]. intros [= -> <-].
  destruct (contents s !! (MANDATE_NAMESPACE, mandate_id m')) as [[v x]|] eqn:El.
  { simpl in Hc. apply contents_version in El; [lia|done]. }
  split_and!; [done|done|]. by exists val.
Qed.

Lemma validate_child_with_case parent child now minimum :
  delegated_from child = Some (mandate_id parent) →
  validate_child parent (with_case child (mandate_case_id parent)) now minimum =
  validate_child parent child now minimum.
Proof.
  intros Hd. unfold validate_child. cbn. rewrite Hd.
  rewrite (bool_decide_eq_true_2 (Some (mandate_id parent) = _)) by done. simpl.
  by rewrite !andb_false_r.
Qed.
End Alone.

(** ** Other results *)

Lemma development_grants operator g :
  g ∈ snapshot_grants (development_snapshot operator) ↔
  g = Grant_new (Principal_user operator) all_permissions ∨
  g = Grant_new (Principal_agent "uc-worker") [TaskSubmit] ∨
  g = Grant_new (Principal_service "dashboard") dashboard_permissions ∨
  g = Grant_new (Principal_user "dashboard") dashboard_permissions.
Proof.
  change (snapshot_grants (development_snapshot operator)) with
    [Grant_new (Principal_user operator) all_permissions;
     Grant_new (Principal_agent "uc-worker") [TaskSubmit];
     Grant_new (Principal_service "dashboard") dashboard_permissions;
     Grant_new (Principal_user "dashboard") dashboard_permissions].
  set_solver.
Qed.

(** Unscoped permanent grants: what the snapshot allows is what is listed. *)
Lemma development_allows operator principal permission project_id now :
  evaluate (development_snapshot operator) principal permission project_id now = Allow ↔
  (principal = Principal_user operator ∧ permission ∈ all_permissions) ∨
  (principal = Principal_agent "uc-worker" ∧ permission = TaskSubmit) ∨
  ((principal = Principal_service "dashboard" ∨ principal = Principal_user "dashboard") ∧
   permission ∈ dashboard_permissions).
Proof.
  rewrite evaluate_allow. setoid_rewrite covering_spec. setoid_rewrite development_grants. split.
  - intros (_ & _ & g & [->|[->|[->| ->]]] & <- & Hin & _); cbn in *;
      [by auto|right; left; set_solver|auto|auto].
  - intros [[-> Hp]|[[-> ->]|[[->| ->] Hp]]]; (split; [done|]); (split; [done|]).
    + exists (Grant_new (Principal_user operator) all_permissions). by split; [left|split_and!].
    + exists (Grant_new (Principal_agent "uc-worker") [TaskSubmit]).
      split; [by right; left|]. split_and!; try done. by apply list_elem_of_singleton.
    + exists (Grant_new (Principal_service "dashboard") dashboard_permissions).
      by split; [right; right; left|split_and!].
    + exists (Grant_new (Principal_user "dashboard") dashboard_permissions).
      by split; [right; right; right|split_and!].
Qed.

(** ** Properties *)

Section GateProperties.
Context {S Value : Type} {St : RecordStore S Value} {StOk : RecordStoreOk S Value}
        {Sdm : Serde Value Mandate} {Sda : Serde Value ToolApproval}
        {SdaOk : SerdeOk Value ToolApproval} `{F64Display} `{DenialDebug} `{Sha256}.

(** C1: an irreversible tool runs only on a fresh human consent.  In every
    interleaving of tool decisions with requests, decisions, sweeps and
    consumptions of approvals, a tool call that is allowed named a tool of the
    table and held its permission, and for a tool of the human tier either its
    caller is of the operator tier or this very call spent a permit for that
    tool and that case, which a human other than its requester had granted in
    time; no two calls spend the same permit. *)
Theorem human_tier_needs_consent (s : S) calls c' i scoped e principal tool project_id case now :
  store_wf s → approvals_ok s →
  rtc (step (proto_owned APPROVAL_NAMESPACE)) (mkConfig s (run_gate_call <$> calls) []) c' →
  calls !! i = Some (CallTool scoped e principal tool project_id case now) →
  cfg_threads c' !! i = Some (Ret (Some Allow)) →
  let req := requirement (engine_tools e) tool in
  known req = true ∧
  authorize e principal (required_permission (policy_action req)) project_id now = Allow ∧
  (human_approval req = true →
     authorize e principal ProactiveExecute project_id now = Allow ∨
     ∃ a, spent_by i (Some a) (astate_of c') ∧ approval_covers a tool case = true ∧
          human_consent a ∧
          ∀ j b, j ≠ i → spent_by j (Some b) (astate_of c') → approval_key b ≠ approval_key a).
Proof.
  intros Hwf Hok Hsteps Hc Hi. pose proof (gate_pool_wp s calls Hwf Hok) as Hall.
  pose proof (wp_adequate _ _ _ _ _ Hall Hsteps i _ Hi) as Hpost. cbn in Hpost. rewrite Hc in Hpost.
  pose proof (steps_interfere _ _ _ _ _ Hall Hsteps) as Hr.
  destruct (Hpost eq_refl) as (Hk & Hp & Hh). split_and!; [done|done|]. intros Hreq.
  destruct (Hh Hreq) as [Hop|(a & Hs & Hcov)]; [by left|]. right. exists a.
  destruct (spent_consented s _ i a Hwf Hok Hr Hs) as (_ & Hcons & _). split_and!; try done.
  intros j b Hj Hb. by eapply (spent_distinct s).
Qed.
End GateProperties.

Section AloneProperties.
Context {S Value : Type} {St : RecordStore S Value} {StOk : RecordStoreOk S Value}
        {Sdm : Serde Value Mandate} {SdmOk : SerdeOk Value Mandate}
        {Sda : Serde Value ToolApproval} `{F64Display} `{DenialDebug}.

(** The tool gate fails closed and wastes no consent.  A tool call that is
    allowed named a known tool, its principal held the tool's permission, and
    where the tool needs a mandate the store held a mandate of that case that
    permits the tool and its action class at that instant; a call that is
    refused leaves the store as it was, so a refusal never spends a permit. *)
Theorem authorize_tool_fail_closed t (s s' : S) e principal tool project_id case now d :
  store_wf s → run t (authorize_tool e principal tool project_id case now) s = (d, s') →
  let req := requirement (engine_tools e) tool in
  (d ≠ Allow → s' = s) ∧
  (d = Allow →
     known req = true ∧
     authorize e principal (required_permission (policy_action req)) project_id now = Allow ∧
     (requires_mandate_scope req = true → ∃ case_id m k v val, case = Some case_id ∧
        contents s !! (MANDATE_NAMESPACE, k) = Some (v, val) ∧ from_value val = Ok m ∧
        mandate_case_id m = case_id ∧
        permits m (tool_request tool (policy_action req)) now = Allowed)).
Proof.
  intros Hwf Hrun. cbv zeta.
  apply run_authorize_tool in Hrun as [[Hd ->]|(Hk & Hp & Hm & permit & Hrun)]; [done| |done].
  split; [|done]. intros Hd. by eapply run_settle_denied.
Qed.

(** A mandate comes only from a principal allowed to issue one.  If issuing
    returns a mandate then its grantor is a user or a service with a live grant
    for it, exactly one new document is stored, with the scopes asked for and
    no revocation; a delegated mandate never claims a human origin, names a
    parent in the store, passes the narrowing check against it and lives in the
    parent's case; and a root mandate is issued only when the newest mandate
    found for the case is withdrawn or expired. *)
Theorem issue_mandate_guarded t (s s' : S) e fresh by_ case project_id ss o expires parent now m :
  store_wf s →
  run t (issue_mandate e fresh by_ case project_id ss o expires parent now) s = (Ok m, s') →
  authorize e by_ MandateIssue project_id now = Allow ∧
  (principal_kind by_ = User ∨ principal_kind by_ = Service) ∧
  mandate_id m = fresh ∧ grantor m = by_ ∧ scopes m = ss ∧ revoked m = None ∧
  mandate_expires_at m = expires ∧ mandate_policy_version m = engine_version e ∧
  contents s !! (MANDATE_NAMESPACE, fresh) = None ∧
  (∃ val, from_value val = Ok m ∧
     contents s' = <[(MANDATE_NAMESPACE, fresh) := (1, val)]> (contents s)) ∧
  match parent with
  | None => mandate_case_id m = case ∧ delegated_from m = None ∧
      ∃ latest, run t (latest_for_case case 256) s = (Ok latest, s) ∧
        ∀ x, latest = Some x → is_revoked x = true ∨ is_expired x now = true ∨ mandate_id x = fresh
  | Some pid => o ≠ HumanIssued ∧
      ∃ v val p, contents s !! (MANDATE_NAMESPACE, pid) = Some (v, val) ∧ from_value val = Ok p ∧
        delegated_from m = Some (mandate_id p) ∧ mandate_case_id m = mandate_case_id p ∧
        validate_child p m now (Some (engine_version e)) = Allowed
  end.
Proof.
  intros Hwf. unfold issue_mandate.
  destruct (authorize e by_ MandateIssue project_id now) as [|r] eqn:Hauth; cbn [is_denied is_allowed negb];
    [|done].
  assert (principal_kind by_ = User ∨ principal_kind by_ = Service) as Hkind.
  { unfold authorize in Hauth. apply evaluate_allow in Hauth as (Ha & Hm & _).
    destruct (principal_kind by_); naive_solver. }
  destruct (_ && _) eqn:Hhum; [done|].
  set (m0 := match expires with Some _ => _ | None => _ end).
  assert (mandate_id m0 = fresh ∧ grantor m0 = by_ ∧ scopes m0 = ss ∧ revoked m0 = None ∧
    mandate_expires_at m0 = expires ∧ mandate_policy_version m0 = engine_version e ∧
    mandate_case_id m0 = case ∧ delegated_from m0 = None)
    as (Hid & Hg & Hss & Hrev & Hexp & Hpv & Hcase & Hdel) by (subst m0; by destruct expires).
  destruct parent as [pid|].
  - rewrite run_bind. unfold MandateStore_get. rewrite run_bind.
    destruct (run t (ns_get MANDATE_NAMESPACE pid) s) as [[[[p v]|]|] s1] eqn:Eg; cbn [map_err run];
      [|done|done].
    assert (s1 = s) as -> by (by injection Eg).
    apply run_ns_get_read in Eg as (val & Hl & Hv); [|done].
    destruct (validate_child p (delegate_from m0 p) now _) eqn:Hval; [|done].
    intros (-> & Hnone & val' & Hv' & Hs')%run_persist; [|done]. cbn in *. rewrite Hid in *.
    split_and!; try done; [by exists val'|..].
    + intros ->. by bool_hyps.
    + exists v, val, p. split_and!; try done.
      by rewrite (validate_child_with_case p (delegate_from m0 p)).
  - rewrite run_bind. pose proof (run_latest_same t s case 256) as Hsame.
    destruct (run t (latest_for_case case 256) s) as [[o'|] s1] eqn:El; [|done].
    simpl in Hsame. subst s1.
    intros Hrun.
    assert (run t (persist_mandate m0) s = (Ok m, s') ∧ ∀ x, o' = Some x →
      is_revoked x = true ∨ is_expired x now = true ∨ mandate_id x = fresh) as [Hp Hlast].
    { destruct o' as [x|]; [|done]. cbv zeta in Hrun. destruct (_ && (mandate_id x !=? _)) eqn:Eb in Hrun; [done|].
      split; [done|]. intros y [= <-]. rewrite Hid in Eb.
      destruct (is_revoked x), (is_expired x now); auto. right; right.
      by apply negb_false_iff, bool_decide_eq_true in Eb. }
    apply run_persist in Hp as (-> & Hnone & val' & Hv' & Hs'); [|done]. rewrite Hid in *.
    split_and!; try done; [by exists val'|by exists o'].
Qed.
End AloneProperties.

(** An operator issues a root mandate, delegates from it, withdraws the child and
    issues a second root mandate for the same case. *)
Section SecondMandate.
Context `{F64Display} `{DenialDebug}.
#[local] Existing Instance identity_serde.

Definition ada : Principal := Principal_user "ada".
Definition ada_engine : PolicyEngine := with_snapshot (development_snapshot "ada").

Definition after_root : InMemoryRecordStore Mandate :=
  (run 1 (issue_mandate ada_engine "m-1" ada "c-1" None [Tool "*"] HumanIssued None None 1)
     InMemoryRecordStore_new).2.
Definition after_child : InMemoryRecordStore Mandate :=
  (run 2 (issue_mandate ada_engine "m-2" ada "c-1" None [Tool "Edit"] CaseDelegated None
     (Some "m-1") 2) after_root).2.
Definition after_withdrawal : InMemoryRecordStore Mandate :=
  (run 3 (revoke_mandate ada_engine "m-2" ada "done" 3) after_child).2.

(** Issuing does not keep the mandates of a case exclusive: the check looks
    only at the newest mandate of the case, so after a delegated mandate is
    withdrawn a second root mandate is issued while the first one is still
    live. *)
Theorem second_live_mandate :
  ∃ first second s,
    run 4 (issue_mandate ada_engine "m-3" ada "c-1" None [Tool "*"] HumanIssued None None 4)
      after_withdrawal = (Ok second, s) ∧
    contents s !! (MANDATE_NAMESPACE, "m-1") = Some (1, first) ∧
    contents s !! (MANDATE_NAMESPACE, "m-3") = Some (1, second) ∧
    mandate_case_id first = "c-1" ∧ mandate_case_id second = "c-1" ∧
    delegated_from first = None ∧ delegated_from second = None ∧
    is_revoked first = false ∧ is_expired first 4 = false ∧
    is_revoked second = false ∧ is_expired second 4 = false.
Proof.
  exists (Mandate_new "m-1" "c-1" ada HumanIssued [Tool "*"] 1 1),
         (Mandate_new "m-3" "c-1" ada HumanIssued [Tool "*"] 1 4).
  eexists. split; [vm_compute; reflexivity|]. split_and!; reflexivity || vm_compute; reflexivity.
Qed.
End SecondMandate.

(** *** Witnesses *)

#[local] Instance witness_mandate_serde : Serde (Mandate + ToolApproval) Mandate :=
  left_serde Mandate ToolApproval.
#[local] Instance witness_mandate_serde_ok : SerdeOk (Mandate + ToolApproval) Mandate :=
  left_serde_ok Mandate ToolApproval.
#[local] Instance witness_approval_serde : Serde (Mandate + ToolApproval) ToolApproval :=
  right_serde Mandate ToolApproval.
#[local] Instance witness_approval_serde_ok : SerdeOk (Mandate + ToolApproval) ToolApproval :=
  right_serde_ok Mandate ToolApproval.
#[local] Existing Instance witness_display.
#[local] Instance witness_debug : DenialDebug := {| denial_debug := λ _, "denied" |}.
#[local] Existing Instance zero_sha.

(** A service with the permission but not of the operator tier. *)
Definition witness_engine : PolicyEngine :=
  with_approvals (with_snapshot
    (mkSnapshot 1 [Grant_new (Principal_service "bot") [WorkerScale];
                   Grant_new (Principal_user "ada") [MandateIssue]] ∅ None)).

Definition witness_mandate : Mandate :=
  Mandate_new "m-1" "c-1" (Principal_user "ada") HumanIssued
    [Tool "scale_workers"; Action Scale] 1 0.

Definition witness_gate : InMemoryRecordStore (Mandate + ToolApproval) :=
  mkInMemory
    {[ ("approvals", "apr-1") :=
         mkRecord "approvals" "apr-1" 2 (inr (witness_permit "apr-1")) 1;
       ("mandate", "m-1") := mkRecord "mandate" "m-1" 1 (inl witness_mandate) 1 ]} false.

Lemma witness_gate_wf : store_wf witness_gate.
Proof.
  apply map_Forall_insert_2; [split; simpl; [done|lia]|].
  apply map_Forall_singleton. split; simpl; [done|lia].
Qed.

Lemma witness_gate_ok : approvals_ok witness_gate.
Proof.
  intros k v val a Hl Hv. revert Hl. cbn [contents InMemory_Ok].
  rewrite in_memory_contents_lookup. intros (r & Hr & [= -> ->])%fmap_Some. revert Hr Hv.
  cbn [inner witness_gate].
  intros [[[= <-] <-]|[_ [[=] _]%lookup_singleton_Some]]%lookup_insert_Some.
  intros [= <-]. split; [done|]. split; [|done]. intros _. exists (Principal_user "ada"), 1. simpl.
  split_and!; done || lia.
Qed.

(** Two calls of the same service race for one permit; one is allowed. *)
Definition witness_gate_calls : list gate_call :=
  [CallTool true witness_engine (Principal_service "bot") "scale_workers" None (Some "c-1") 5;
   CallTool true witness_engine (Principal_service "bot") "scale_workers" None (Some "c-1") 6].

Definition witness_gate_end :=
  exec 9 [0; 1; 0; 1; 1; 0; 1; 0; 0]%nat
    (mkConfig witness_gate (run_gate_call <$> witness_gate_calls) []).

Lemma human_tier_needs_consent_witness :
  ∃ a, spent_by 1 (Some a) (astate_of witness_gate_end) ∧
       approval_covers a "scale_workers" (Some "c-1") = true ∧ human_consent a.
Proof.
  pose proof (human_tier_needs_consent witness_gate witness_gate_calls witness_gate_end 1 true
    witness_engine (Principal_service "bot") "scale_workers" None (Some "c-1") 6
    witness_gate_wf witness_gate_ok (exec_rtc _ _ _ _) eq_refl) as Hx.
  destruct Hx as (_ & _ & Hh); [vm_compute; reflexivity|].
  destruct Hh as [Hop|(a & ? & ? & ? & _)]; [vm_compute; reflexivity| |by exists a].
  exfalso. revert Hop. vm_compute. discriminate.
Defined.

(** The loser of the race is refused. *)
Example witness_gate_loser :
  cfg_threads witness_gate_end !! 0%nat =
  Some (Ret (Some (Deny (ToolRequiresHumanApproval "scale_workers")))).
Proof. vm_compute. reflexivity. Qed.

Definition witness_gate_run :=
  run 9 (authorize_tool witness_engine (Principal_service "bot") "scale_workers" None (Some "c-1") 5)
    witness_gate.

Lemma authorize_tool_fail_closed_witness :
  ∃ m k v val, contents witness_gate !! (MANDATE_NAMESPACE, k) = Some (v, val) ∧
    from_value val = Ok m ∧ permits m (tool_request "scale_workers" Scale) 5 = Allowed.
Proof.
  destruct (authorize_tool_fail_closed 9 witness_gate witness_gate_run.2 witness_engine
    (Principal_service "bot") "scale_workers" None (Some "c-1") 5 witness_gate_run.1
    witness_gate_wf (surjective_pairing _)) as [_ Hok].
  destruct Hok as (_ & _ & Hm); [vm_compute; reflexivity|].
  destruct Hm as (c & m & k & v & val & _ & ? & ? & _ & Hp); [vm_compute; reflexivity|].
  exists m, k, v, val. split_and!; [done|done|exact Hp].
Defined.

Definition witness_issue :=
  run 9 (issue_mandate witness_engine "m-2" (Principal_user "ada") "c-2" None [Tool "Edit"]
    HumanIssued (Some 50) None 5) witness_gate.
Definition witness_issued : Mandate :=
  Mandate_with_expiry
    (Mandate_new "m-2" "c-2" (Principal_user "ada") HumanIssued [Tool "Edit"] 1 5) 50.

Lemma issue_mandate_guarded_witness :
  contents witness_gate !! (MANDATE_NAMESPACE, "m-2") = None ∧ mandate_case_id witness_issued = "c-2".
Proof.
  destruct (issue_mandate_guarded 9 witness_gate witness_issue.2 witness_engine "m-2"
    (Principal_user "ada") "c-2" None [Tool "Edit"] HumanIssued (Some 50) None 5 witness_issued
    witness_gate_wf) as (_ & _ & _ & _ & _ & _ & _ & _ & Hn & _ & Hc & _).
  - vm_compute. reflexivity.
  - by split.
Defined.
