(* ===== verification/Trigger.v ===== *)
(** * Triggers and subscriptions

    [uc-types/src/governance/trigger.rs] (events, dedup keys, subscription
    filters) and [uc-engine/src/governance/trigger_inbox.rs] ([TriggerInbox]).
    Ingestion is idempotent by dedup key in every interleaving, and the event is
    routed to exactly the cases whose active subscriptions match it. *)

From Stdlib Require Import Ascii String.
From S2P Require Import Prelude RustStr Store Prog Concurrency Protocol.

(** ** Events *)

Definition TRIGGER_NAMESPACE : string := "trigger_event".
Definition SUBSCRIPTION_NAMESPACE : string := "subscription".

Inductive SourceKind : Type :=
| GitHub | Ci | Lark | Dashboard | Api | Cron | SourceManual.
#[export] Instance SourceKind_eq_dec : EqDecision SourceKind.
Proof. solve_decision. Defined.

Definition SourceKind_as_str (k : SourceKind) : string :=
  match k with
  | GitHub => "github" | Ci => "ci" | Lark => "lark" | Dashboard => "dashboard"
  | Api => "api" | Cron => "cron" | SourceManual => "manual"
  end.

Definition SourceKind_from_str_lossy (value : string) : option SourceKind :=
  let v := to_ascii_lowercase (trim value) in
  if v ==? "github" then Some GitHub
  else if v ==? "ci" then Some Ci
  else if (v ==? "lark") || (v ==? "feishu") then Some Lark
  else if v ==? "dashboard" then Some Dashboard
  else if v ==? "api" then Some Api
  else if v ==? "cron" then Some Cron
  else if v ==? "manual" then Some SourceManual
  else None.

Inductive TriggerKind : Type :=
| IssueOpened | IssueComment | PullRequestOpened | PullRequestSynchronize | PullRequestReview
| PullRequestComment | TriggerPush | CheckRun | WorkflowRun | Message | CronTick | ApiCall
| TriggerManual.
#[export] Instance TriggerKind_eq_dec : EqDecision TriggerKind.
Proof. solve_decision. Defined.

Definition TriggerKind_as_str (k : TriggerKind) : string :=
  match k with
  | IssueOpened => "issue_opened"
  | IssueComment => "issue_comment"
  | PullRequestOpened => "pull_request_opened"
  | PullRequestSynchronize => "pull_request_synchronize"
  | PullRequestReview => "pull_request_review"
  | PullRequestComment => "pull_request_comment"
  | TriggerPush => "push"
  | CheckRun => "check_run"
  | WorkflowRun => "workflow_run"
  | Message => "message"
  | CronTick => "cron_tick"
  | ApiCall => "api_call"
  | TriggerManual => "manual"
  end.

Definition TriggerKind_from_str_lossy (value : string) : option TriggerKind :=
  let v := to_ascii_lowercase (trim value) in
  if v ==? "issue_opened" then Some IssueOpened
  else if v ==? "issue_comment" then Some IssueComment
  else if v ==? "pull_request_opened" then Some PullRequestOpened
  else if v ==? "pull_request_synchronize" then Some PullRequestSynchronize
  else if v ==? "pull_request_review" then Some PullRequestReview
  else if v ==? "pull_request_comment" then Some PullRequestComment
  else if v ==? "push" then Some TriggerPush
  else if v ==? "check_run" then Some CheckRun
  else if v ==? "workflow_run" then Some WorkflowRun
  else if v ==? "message" then Some Message
  else if v ==? "cron_tick" then Some CronTick
  else if v ==? "api_call" then Some ApiCall
  else if v ==? "manual" then Some TriggerManual
  else None.

Definition is_thread_update (k : TriggerKind) : bool :=
  match k with
  | IssueComment | PullRequestSynchronize | PullRequestReview | PullRequestComment | CheckRun
  | WorkflowRun | TriggerPush => true
  | _ => false
  end.

(** The part of [serde_json::Value] the event code uses. *)
Class Json (J : Type) := {
  json_to_string : J → string;
  json_get : J → string → option J;
  json_as_array : J → option (list J);
  json_as_str : J → option string
}.

Record TriggerEvent (J : Type) : Type := mkTrigger {
  trigger_id : string;
  trigger_source : SourceKind;
  trigger_kind : TriggerKind;
  external_id : string;
  trigger_thread_key : option string;
  trigger_repo : option string;
  trigger_actor : option string;
  payload_digest : option string;
  payload : J;
  received_at : Instant
}.
Arguments mkTrigger {J}.
Arguments trigger_id {J} _.
Arguments trigger_source {J} _.
Arguments trigger_kind {J} _.
Arguments external_id {J} _.
Arguments trigger_thread_key {J} _.
Arguments trigger_repo {J} _.
Arguments trigger_actor {J} _.
Arguments payload_digest {J} _.
Arguments payload {J} _.
Arguments received_at {J} _.

(** ** Subscriptions *)

Record SubscriptionFilter : Type := mkFilter {
  filter_repo : option string;
  filter_kinds : list TriggerKind;
  filter_thread_key : option string;
  filter_labels : list string
}.

Definition filter_thread (thread_key : string) : SubscriptionFilter :=
  mkFilter None [] (Some thread_key) [].
Definition filter_of_repo (repo : string) : SubscriptionFilter := mkFilter (Some repo) [] None [].
Definition filter_with_kinds (f : SubscriptionFilter) (kinds : list TriggerKind)
    : SubscriptionFilter :=
  mkFilter (filter_repo f) kinds (filter_thread_key f) (filter_labels f).

Record Subscription : Type := mkSubscription {
  subscription_id : string;
  subscription_case_id : string;
  subscription_source : SourceKind;
  subscription_filter : SubscriptionFilter;
  subscription_created_at : Instant;
  subscription_active : bool;
  last_event_at : option Instant;
  event_count : Z;
  auto_resume : bool
}.

Definition Subscription_new (fresh_id case : string) (source : SourceKind)
    (f : SubscriptionFilter) (now : Instant) : Subscription :=
  mkSubscription fresh_id case source f now true None 0 false.

Definition with_auto_resume (s : Subscription) : Subscription :=
  mkSubscription (subscription_id s) (subscription_case_id s) (subscription_source s)
    (subscription_filter s) (subscription_created_at s) (subscription_active s) (last_event_at s)
    (event_count s) true.

Definition record_event (s : Subscription) (now : Instant) : Subscription :=
  mkSubscription (subscription_id s) (subscription_case_id s) (subscription_source s)
    (subscription_filter s) (subscription_created_at s) (subscription_active s) (Some now)
    (u64_saturating_add (event_count s) 1) (auto_resume s).

Record IngestOutcome : Type := mkOutcome {
  outcome_event_id : string;
  outcome_dedup_key : string;
  accepted : bool;
  duplicate : bool;
  matched_cases : list string;
  unmatched_reason : option string;
  auto_resume_cases : list string
}.

Definition IngestOutcome_duplicate (event_id dedup : string) : IngestOutcome :=
  mkOutcome event_id dedup false true [] None [].

Inductive TriggerInboxError : Type :=
| TriggerStoreFailed (e : RecordError)
| SubscriptionNotFound (subscription_id : string)
| TriggerContended.

Section Events.
Context {J : Type} `{Json J} `{Sha256}.
Notation TriggerEvent := (TriggerEvent J).

Definition TriggerEvent_new (fresh_id : string) (source : SourceKind) (kind : TriggerKind)
    (external : string) (p : J) (now : Instant) : TriggerEvent :=
  mkTrigger fresh_id source kind external None None None
    (Some (sha256_hex (json_to_string p))) p now.

Definition with_thread (e : TriggerEvent) (k : string) : TriggerEvent :=
  mkTrigger (trigger_id e) (trigger_source e) (trigger_kind e) (external_id e) (Some k)
    (trigger_repo e) (trigger_actor e) (payload_digest e) (payload e) (received_at e).
Definition with_repo (e : TriggerEvent) (r : string) : TriggerEvent :=
  mkTrigger (trigger_id e) (trigger_source e) (trigger_kind e) (external_id e)
    (trigger_thread_key e) (Some r) (trigger_actor e) (payload_digest e) (payload e)
    (received_at e).
Definition with_actor (e : TriggerEvent) (a : string) : TriggerEvent :=
  mkTrigger (trigger_id e) (trigger_source e) (trigger_kind e) (external_id e)
    (trigger_thread_key e) (trigger_repo e) (Some a) (payload_digest e) (payload e)
    (received_at e).

Definition thread_key_for (repo : string) (number : N) : string := repo +:+ "#" +:+ pretty number.

Definition dedup_material (e : TriggerEvent) : string :=
  SourceKind_as_str (trigger_source e) +:+ "|" +:+ TriggerKind_as_str (trigger_kind e) +:+ "|" +:+
  external_id e +:+ "|" +:+ default "" (payload_digest e).
Definition dedup_key (e : TriggerEvent) : string := sha256_hex (dedup_material e).

(** The labels of the payload, when it has an array of them. *)
Definition payload_labels (p : J) : list string :=
  match json_get p "labels" with
  | Some l => match json_as_array l with
              | Some vs => omap json_as_str vs
              | None => []
              end
  | None => []
  end.

Definition filter_matches (f : SubscriptionFilter) (e : TriggerEvent) : bool :=
  if match filter_repo f with Some r => trigger_repo e !=? Some r | None => false end then false
  else if (filter_kinds f !=? []) && negb (existsb (λ k, k ==? trigger_kind e) (filter_kinds f))
  then false
  else if match filter_thread_key f with
          | Some t => trigger_thread_key e !=? Some t
          | None => false
          end then false
  else if (filter_labels f !=? []) &&
          negb (existsb (λ w, existsb (λ l, l ==? w) (payload_labels (payload e))) (filter_labels f))
  then false
  else true.

(** [if !v.contains(&x) { v.push(x) }]. *)
Definition push_new (l : list string) (x : string) : list string :=
  if existsb (λ y, y ==? x) l then l else l ++ [x].

(** ** The inbox *)

Context {Value : Type} {Sde : Serde Value TriggerEvent} {Sds : Serde Value Subscription}.
Notation prog := (prog Value).

Definition subscription_hit (e : TriggerEvent) (s : Subscription) : bool :=
  subscription_active s && (subscription_source s ==? trigger_source e) &&
  filter_matches (subscription_filter s) e.

(** The loop of [ingest] over the subscriptions. *)
Fixpoint fan_out (subs : list (Subscription * Z)) (e : TriggerEvent) (now : Instant)
    (matched resume : list string) : prog (result (list string * list string) TriggerInboxError) :=
  match subs with
  | [] => Ret (Ok (matched, resume))
  | (s, version) :: rest =>
      if negb (subscription_active s) || (subscription_source s !=? trigger_source e) then
        fan_out rest e now matched resume
      else if negb (filter_matches (subscription_filter s) e) then
        fan_out rest e now matched resume
      else
        let matched := push_new matched (subscription_case_id s) in
        let resume := if auto_resume s then push_new resume (subscription_case_id s) else resume in
        let! w := ns_put SUBSCRIPTION_NAMESPACE (subscription_id s) (record_event s now)
                    (Some version) in
        match w with
        | Ok _ | Err (Conflict _ _) => fan_out rest e now matched resume
        | Err other => Ret (Err (TriggerStoreFailed other))
        end
  end.

Definition unmatched (e : TriggerEvent) (matched : list string) : option string :=
  match matched with
  | [] => Some (if bool_decide (is_Some (trigger_thread_key e)) then "thread_has_no_subscription"
                else "no_subscription")
  | _ => None
  end.

Definition ingest (e : TriggerEvent) (now : Instant)
    : prog (result IngestOutcome TriggerInboxError) :=
  let dedup := dedup_key e in
  let! w := ns_put TRIGGER_NAMESPACE dedup e (Some 0) in
  match w with
  | Err (Conflict _ _) => Ret (Ok (IngestOutcome_duplicate (trigger_id e) dedup))
  | Err other => Ret (Err (TriggerStoreFailed other))
  | Ok _ =>
      let! l := ns_list SUBSCRIPTION_NAMESPACE 1000 in
      match l with
      | Err error => Ret (Err (TriggerStoreFailed error))
      | Ok subs =>
          let! r := fan_out subs e now [] [] in
          Ret match r with
              | Err error => Err error
              | Ok (matched, resume) =>
                  Ok (mkOutcome (trigger_id e) dedup true false matched (unmatched e matched)
                        resume)
              end
      end
  end.

(** The statistics an update keeps. *)
Definition keep_statistics (s existing : Subscription) : Subscription :=
  mkSubscription (subscription_id s) (subscription_case_id s) (subscription_source s)
    (subscription_filter s) (subscription_created_at existing) (subscription_active s)
    (last_event_at existing) (event_count existing) (auto_resume s).

(** Eight rounds; what an earlier round copied into the subscription stays. *)
Fixpoint upsert_loop (n : nat) (s : Subscription) : prog (result Subscription TriggerInboxError) :=
  match n with
  | O => Ret (Err TriggerContended)
  | Datatypes.S n' =>
      let! g := ns_get SUBSCRIPTION_NAMESPACE (subscription_id s) in
      match g with
      | Err error => Ret (Err (TriggerStoreFailed error))
      | Ok None =>
          let! w := ns_put SUBSCRIPTION_NAMESPACE (subscription_id s) s (Some 0) in
          match w with
          | Ok _ => Ret (Ok s)
          | Err (Conflict _ _) => upsert_loop n' s
          | Err other => Ret (Err (TriggerStoreFailed other))
          end
      | Ok (Some (existing, version)) =>
          let s' := keep_statistics s existing in
          let! w := ns_put SUBSCRIPTION_NAMESPACE (subscription_id s') s' (Some version) in
          match w with
          | Ok _ => Ret (Ok s')
          | Err (Conflict _ _) => upsert_loop n' s'
          | Err other => Ret (Err (TriggerStoreFailed other))
          end
      end
  end.
Definition upsert_subscription (s : Subscription) : prog (result Subscription TriggerInboxError) :=
  upsert_loop 8 s.

Definition delete_subscription (i : string) : prog (result bool TriggerInboxError) :=
  let! r := ns_delete SUBSCRIPTION_NAMESPACE i in Ret (map_err TriggerStoreFailed r).

Definition list_subscriptions (case : option string) (source : option SourceKind) (limit : nat)
    : prog (result (list Subscription) TriggerInboxError) :=
  let! l := ns_list SUBSCRIPTION_NAMESPACE limit in
  Ret match l with
      | Err error => Err (TriggerStoreFailed error)
      | Ok l => Ok (filterb (λ s,
          match case with Some c => subscription_case_id s ==? c | None => true end &&
          match source with Some k => subscription_source s ==? k | None => true end) (l.*1))
      end.

Definition get_event (dedup : string) : prog (result (option TriggerEvent) TriggerInboxError) :=
  let! r := ns_get TRIGGER_NAMESPACE dedup in
  Ret match r with
      | Err error => Err (TriggerStoreFailed error)
      | Ok o => Ok (fst <$> (o : option (TriggerEvent * Z)))
      end.

Definition list_events (limit : nat) : prog (result (list TriggerEvent) TriggerInboxError) :=
  let! l := ns_list TRIGGER_NAMESPACE limit in
  Ret match l with
      | Err error => Err (TriggerStoreFailed error)
      | Ok l => Ok ((l : list (TriggerEvent * Z)).*1)
      end.
End Events.

(** ** Identity of events *)

#[export] Instance SourceKind_as_str_inj : Inj (=) (=) SourceKind_as_str.
Proof. intros [] []; done. Qed.
#[export] Instance TriggerKind_as_str_inj : Inj (=) (=) TriggerKind_as_str.
Proof. intros [] []; done. Qed.

Lemma cut_first {A} (c : A) a1 b1 a2 b2 :
  c ∉ a1 → c ∉ a2 → a1 ++ c :: b1 = a2 ++ c :: b2 → a1 = a2 ∧ b1 = b2.
Proof.
  revert a2. induction a1 as [|x a1 IH]; intros [|y a2] H1 H2 Heq; simplify_eq/=.
  - done.
  - set_solver.
  - set_solver.
  - destruct (IH a2) as [-> ->]; set_solver.
Qed.

Lemma cut_last {A} (c : A) a1 b1 a2 b2 :
  c ∉ b1 → c ∉ b2 → a1 ++ c :: b1 = a2 ++ c :: b2 → a1 = a2 ∧ b1 = b2.
Proof.
  intros H1 H2 Heq. apply (f_equal reverse) in Heq. rewrite !reverse_app, !reverse_cons in Heq.
  rewrite <-!(assoc_L (++)) in Heq. apply cut_first in Heq as [Hb Ha].
  - split; by apply (inj reverse).
  - by rewrite elem_of_reverse.
  - by rewrite elem_of_reverse.
Qed.

Definition bar : ascii := "|"%char.

Lemma no_bar s : contains_char s bar = false → bar ∉ chars s.
Proof. rewrite <-contains_char_true. by intros ->. Qed.

Lemma source_no_bar k : bar ∉ chars (SourceKind_as_str k).
Proof. apply no_bar. by destruct k. Qed.
Lemma kind_no_bar k : bar ∉ chars (TriggerKind_as_str k).
Proof. apply no_bar. by destruct k. Qed.

(** What the dedup key identifies: the bars never run into each other, because
    neither the tokens nor a digest contains one. *)
Lemma dedup_material_iff {J} (e1 e2 : TriggerEvent J) :
  bar ∉ chars (default "" (payload_digest e1)) → bar ∉ chars (default "" (payload_digest e2)) →
  dedup_material e1 = dedup_material e2 ↔
  trigger_source e1 = trigger_source e2 ∧ trigger_kind e1 = trigger_kind e2 ∧
  external_id e1 = external_id e2 ∧
  default "" (payload_digest e1) = default "" (payload_digest e2).
Proof.
  intros H1 H2. unfold dedup_material. split; [|by intros (-> & -> & -> & ->)].
  intros Heq%(f_equal chars). rewrite !chars_app in Heq. change (chars "|") with [bar] in Heq.
  apply cut_first in Heq as [Hs Heq]; [|apply source_no_bar..].
  apply cut_first in Heq as [Hk Heq]; [|apply kind_no_bar..].
  apply cut_last in Heq as [Hx Hd]; [|done..].
  split_and!; [by apply (inj SourceKind_as_str), chars_inj|by apply (inj TriggerKind_as_str), chars_inj
    |by apply chars_inj|by apply chars_inj].
Qed.

(** ** Deliveries in flight *)

Inductive trigger_call (J : Type) : Type :=
| CallIngest (e : TriggerEvent J) (now : Instant)
| CallUpsert (s : Subscription)
| CallUnsubscribe (i : string)
| CallListEvents (limit : nat).
Arguments CallIngest {J} e now.
Arguments CallUpsert {J} s.
Arguments CallUnsubscribe {J} i.
Arguments CallListEvents {J} limit.

Section Pool.
Context {S Value J : Type} {St : RecordStore S Value} {StOk : RecordStoreOk S Value} `{Json J}
        `{Sha256} {Sde : Serde Value (TriggerEvent J)} {SdeOk : SerdeOk Value (TriggerEvent J)}
        {Sds : Serde Value Subscription}.

(** Each delivery returns its outcome. *)
Definition run_trigger_call (c : trigger_call J) : prog Value (option IngestOutcome) :=
  match c with
  | CallIngest e now =>
      let! r := ingest e now in Ret match r with Ok o => Some o | Err _ => None end
  | CallUpsert s => let! _ := upsert_subscription s in Ret None
  | CallUnsubscribe i => let! _ := delete_subscription i in Ret None
  | CallListEvents limit => let! _ := list_events (J:=J) limit in Ret None
  end.

(** An event is created once and never replaced. *)
Notation owned := (proto_owned TRIGGER_NAMESPACE).
Notation allowed :=
  (proto_allowed TRIGGER_NAMESPACE (dedup_key (J:=J)) (λ _, True) (λ _ _, False)).
Notation interfere := (interfere owned allowed).
Notation wp := (wp owned allowed).
Notation edocs := (docs TRIGGER_NAMESPACE (dedup_key (J:=J))).

(** An accepted delivery recorded the event. *)
Definition recorded_by (i : nat) (o : option IngestOutcome) (σ : astate Value) : Prop :=
  match o with
  | Some o => accepted o = true →
      ∃ e, e ∈ σ.2 ∧ ev_thread e = i ∧ ev_old e = None ∧
           event_at TRIGGER_NAMESPACE (outcome_dedup_key o) e
  | None => True
  end.

Lemma recorded_by_rtc i o σ σ' : rtc interfere σ σ' → recorded_by i o σ → recorded_by i o σ'.
Proof.
  intros Hr. destruct o as [o|]; [|done]. intros Hrec Ha.
  destruct (Hrec Ha) as (e & He & ?). exists e. split; [|done]. by eapply logged_rtc.
Qed.

Lemma wp_fan_out i subs e now matched resume σ :
  wp i (fan_out subs e now matched resume) (λ _ _, True) σ.
Proof.
  revert matched resume σ. induction subs as [|[s v] subs IH]; intros matched resume σ;
    cbn [fan_out]; [by apply wp_ret|].
  destruct (_ || _); [by apply IH|]. destruct (negb _); [by apply IH|].
  eapply wp_bind, wp_put_foreign; [done|]. intros w σ' _.
  destruct w as [|[]]; try apply IH; by apply wp_ret.
Qed.

Lemma wp_ingest i e now σ :
  edocs (λ _, True) σ →
  wp i (ingest e now) (λ r σ', recorded_by i match r with Ok o => Some o | Err _ => None end σ') σ.
Proof.
  intros Hd. unfold ingest. cbv zeta. apply wp_bind, wp_create; [exact _|done|done|done| |].
  - intros val r σw σ' _ Hr1 _ He Hr2.
    assert (∀ τ, rtc interfere σ' τ → ∀ o, outcome_dedup_key o = dedup_key e →
      recorded_by i (Some o) τ) as Hrec.
    { intros τ Hr3 o Ho _. eexists. split; [eapply logged_rtc; [exact He|chain]|].
      split_and!; try done. unfold event_at. by rewrite Ho. }
    apply wp_bind. intros σ1 Hr3. split; [|by intros err; apply wp_ret].
    intros rs l leb _ _. apply wp_ret. intros σ2 Hr4. destruct (decode_records rs) as [subs|err];
      [|by apply wp_ret].
    apply wp_bind. eapply wp_mono; [|apply wp_since, wp_fan_out].
    intros [[matched resume]|err] σ3 [Hr5 _]; apply wp_ret; [|done].
    intros σ4 Hr6. apply Hrec; [chain|done].
  - intros err σ' Hr. destruct err; by apply wp_ret.
Qed.

Lemma wp_upsert i n s σ : wp i (upsert_loop (Sds:=Sds) n s) (λ _ _, True) σ.
Proof.
  revert s σ. induction n as [|n IH]; intros s σ; cbn [upsert_loop]; [by apply wp_ret|].
  apply wp_bind, wp_ns_get. intros σ1 Hr1. split_and!.
  - intros _ σ2 Hr2. eapply wp_bind, wp_put_foreign; [done|]. intros w σ3 _.
    destruct w as [|[]]; try apply IH; by apply wp_ret.
  - intros v val x _ _ σ2 Hr2. eapply wp_bind, wp_put_foreign; [done|]. intros w σ3 _.
    destruct w as [|[]]; try apply IH; by apply wp_ret.
  - intros err σ2 _. by apply wp_ret.
Qed.

Lemma wp_trigger_call i c σ :
  edocs (λ _, True) σ → wp i (run_trigger_call c) (recorded_by i) σ.
Proof.
  intros Hd. destruct c as [e now|s|k|limit]; cbn [run_trigger_call]; apply wp_bind.
  - eapply wp_mono; [|by apply wp_ingest]. intros r σ' Hrec. apply wp_ret. intros σ'' Hr.
    by eapply recorded_by_rtc.
  - eapply wp_mono; [|apply wp_upsert]. intros. by apply wp_ret.
  - intros σ1 _. split; [done|]. intros r m' _. intros σ2 _. by apply wp_ret.
  - apply wp_bind. intros σ1 _. split; intros; apply wp_ret; intros; apply wp_ret; intros;
      by apply wp_ret.
Qed.

(** The stored events are under their own dedup keys. *)
Definition events_keyed (s : S) : Prop :=
  ∀ k v val (e : TriggerEvent J), contents s !! (TRIGGER_NAMESPACE, k) = Some (v, val) →
    from_value val = Ok e → dedup_key e = k.

Lemma trigger_pool_wp s calls :
  store_wf s → events_keyed s →
  all_wp owned allowed recorded_by (mkConfig s (run_trigger_call <$> calls) []).
Proof.
  intros Hwf Hok. split; [done|]. intros i p Hi. cbn in Hi.
  apply list_lookup_fmap_Some in Hi as (c & -> & _). apply wp_trigger_call.
  intros k v val Hl. split; [by eapply contents_version|]. intros x Hx. split; [|done].
  by eapply Hok.
Qed.
End Pool.

(** ** Routing *)

Section Routing.
Context {S Value J : Type} {St : RecordStore S Value} {StOk : RecordStoreOk S Value} `{Json J}
        `{Sha256} {Sde : Serde Value (TriggerEvent J)} {SdeOk : SerdeOk Value (TriggerEvent J)}
        {Sds : Serde Value Subscription} {SdsOk : SerdeOk Value Subscription}.
Implicit Types (e : TriggerEvent J) (s : S).

(** The subscriptions that want an event, and the cases they stand for. *)
Definition hits e (subs : list Subscription) : list Subscription :=
  filterb (subscription_hit e) subs.
Definition distinct (l : list string) : list string := foldl push_new [] l.

Lemma push_new_elem l x y : y ∈ push_new l x ↔ y ∈ l ∨ y = x.
Proof.
  unfold push_new. destruct (existsb _ l) eqn:E; [|set_solver].
  apply existsb_true in E as (z & Hz & ->%bool_decide_eq_true_1). set_solver.
Qed.

Lemma push_new_NoDup l x : NoDup l → NoDup (push_new l x).
Proof.
  unfold push_new. destruct (existsb _ l) eqn:E; [done|]. intros Hl. apply NoDup_app.
  split_and!; [done| |apply NoDup_singleton]. intros y Hy ->%list_elem_of_singleton.
  apply (proj1 (existsb_false _ _) E) in Hy. by rewrite bool_decide_eq_true_2 in Hy.
Qed.

Lemma distinct_elem l y : y ∈ distinct l ↔ y ∈ l.
Proof.
  unfold distinct. enough (∀ acc, y ∈ foldl push_new acc l ↔ y ∈ acc ∨ y ∈ l) as ->; [set_solver|].
  induction l as [|x l IH]; intros acc; simpl; [set_solver|].
  rewrite IH, push_new_elem, elem_of_cons. tauto.
Qed.

Lemma distinct_NoDup l : NoDup (distinct l).
Proof.
  unfold distinct. enough (∀ acc, NoDup acc → NoDup (foldl push_new acc l)) as Hx
    by (apply Hx; constructor).
  induction l as [|x l IH]; intros acc Hacc; simpl; [done|]. by apply IH, push_new_NoDup.
Qed.

(** Every listed subscription is the document under its id, at that version. *)
Definition current s (sv : Subscription * Z) : Prop :=
  sv.2 < i64_max ∧
  ∃ val, contents s !! (SUBSCRIPTION_NAMESPACE, subscription_id sv.1) = Some (sv.2, val).

Definition counted e (now : Instant) s (sv : Subscription * Z) : Prop :=
  subscription_hit e sv.1 = true → ∃ val,
    contents s !! (SUBSCRIPTION_NAMESPACE, subscription_id sv.1) = Some (sv.2 + 1, val) ∧
    from_value val = Ok (record_event sv.1 now).

(** The loop routes to the hits, and counts the event on each. *)
Lemma run_fan_out t s subs e now matched resume :
  ready s → NoDup (subscription_id <$> subs.*1) → Forall (current s) subs →
  ∃ s', run t (fan_out subs e now matched resume) s =
          (Ok (foldl push_new matched (subscription_case_id <$> hits e subs.*1),
               foldl push_new resume
                 (subscription_case_id <$> filterb auto_resume (hits e subs.*1))), s') ∧
    ready s' ∧ Forall (counted e now s') subs ∧
    ∀ k, (∀ sv, sv ∈ subs → k ≠ (SUBSCRIPTION_NAMESPACE, subscription_id sv.1)) →
      contents s' !! k = contents s !! k.
Proof.
  revert s matched resume. induction subs as [|[u v] subs IH]; intros s matched resume Hs Hnd Hcur.
  { exists s. split_and!; done. }
  apply NoDup_cons in Hnd as [Hnew Hnd]. apply Forall_cons in Hcur as [[Hv [val Hl]] Hcur]. cbn in *.
  unfold hits, filterb. cbn [List.filter]. fold (filterb (subscription_hit e) subs.*1).
  fold (hits e subs.*1).
  assert (∀ sv, sv ∈ subs → subscription_id sv.1 ≠ subscription_id u) as Hne.
  { intros sv Hsv Heq. apply Hnew. rewrite <-Heq. apply list_elem_of_fmap_2, list_elem_of_fmap_2.
    done. }
  destruct (subscription_hit e u) eqn:Hhit; unfold subscription_hit in Hhit.
  - apply andb_true_iff in Hhit as [[Ha Hsrc]%andb_true_iff Hm]. rewrite Ha, Hsrc, Hm. simpl.
    destruct (run_ns_put_ok t s SUBSCRIPTION_NAMESPACE (subscription_id u) (record_event u now)
      (Some v) Hs) as (r & s1 & val1 & Hp & Hs1 & Hx1 & _ & Hc1).
    { by rewrite Hl. }
    { rewrite Hl. simpl. lia. }
    rewrite run_bind, Hp. rewrite Hl in Hc1. cbn in Hc1.
    destruct (IH s1 (push_new matched (subscription_case_id u))
      (if auto_resume u then push_new resume (subscription_case_id u) else resume) Hs1 Hnd)
      as (s' & Hrun & Hs' & Hcnt & Hoth).
    { apply Forall_forall. intros sv Hsv. destruct (proj1 (Forall_forall _ _) Hcur sv Hsv) as [? [w Hw]].
      split; [done|]. exists w. rewrite Hc1, lookup_insert_ne; [done|]. intros [= Heq].
      by destruct (Hne sv Hsv). }
    exists s'. rewrite Hrun. split_and!; [by destruct (auto_resume u)|done| |].
    + constructor; [|done]. intros _. exists val1. rewrite Hoth, Hc1, lookup_insert_eq; [done|].
      cbn. intros sv Hsv [= Heq]. by destruct (Hne sv Hsv).
    + intros k Hk. rewrite Hoth, Hc1, lookup_insert_ne; [done| |].
      * intros <-. by destruct (Hk (u, v)); [left|].
      * intros sv Hsv. apply Hk. by right.
  - destruct (IH s matched resume Hs Hnd Hcur) as (s' & Hrun & Hs' & Hcnt & Hoth). exists s'.
    split_and!; [|done| |].
    + destruct (subscription_active u), (bool_decide _), (filter_matches _ e); done.
    + constructor; [|done]. unfold counted, subscription_hit. cbn. by rewrite Hhit.
    + intros k Hk. apply Hoth. intros sv Hsv. apply Hk. by right.
Qed.

Lemma run_fan_out_ready t s s' subs e now matched resume r :
  ready s → run t (fan_out subs e now matched resume) s = (r, s') →
  ready s' ∧ ∀ k, contents s' !! (TRIGGER_NAMESPACE, k) = contents s !! (TRIGGER_NAMESPACE, k).
Proof.
  revert s matched resume. induction subs as [|[u v] subs IH]; intros s matched resume Hs.
  { by intros [= _ <-]. }
  cbn [fan_out]. destruct (_ || _); [by apply IH|]. destruct (negb _); [by apply IH|].
  rewrite run_bind. destruct (run t (ns_put _ _ _ _) s) as [w s1] eqn:Ep.
  destruct (run_ns_put_ready _ _ _ _ _ _ _ _ Hs Ep) as [Hs1 Hoth]. intros Hrun.
  assert (∀ k, contents s1 !! (TRIGGER_NAMESPACE, k) = contents s !! (TRIGGER_NAMESPACE, k)) as Hk
    by (intros k; by apply Hoth).
  destruct w as [r'|[]]; try (injection Hrun as _ <-; done);
    apply IH in Hrun as [Hs' Hk']; try done; (split; [done|]); intros k; by rewrite Hk'.
Qed.

(** What the inbox lists: at most a thousand subscriptions, by key. *)
Definition subscriptions_listed s (subs : list (Subscription * Z)) : Prop :=
  ∃ l, store_listing s SUBSCRIPTION_NAMESPACE l ∧
    Forall2 (λ a y, from_value a.2 = Ok y.1 ∧ a.1.2 = y.2 ∧ subscription_id y.1 = a.1.1 ∧
                    y.2 < i64_max) (take 1000 l) subs.

Lemma listed_current s s1 subs :
  subscriptions_listed s subs →
  (∀ k, contents s1 !! (SUBSCRIPTION_NAMESPACE, k) = contents s !! (SUBSCRIPTION_NAMESPACE, k)) →
  NoDup (subscription_id <$> subs.*1) ∧ Forall (current s1) subs.
Proof.
  intros (l & (_ & Hnd & Hl) & Hf) Hsame. split.
  - assert (subscription_id <$> subs.*1 = (λ a, a.1.1) <$> take 1000 l) as ->.
    { clear Hnd Hl. induction Hf as [|a y l1 l2 (_ & _ & Hid & _) _ IH]; csimpl; [done|].
      by rewrite Hid, IH. }
    rewrite fmap_take. eapply sublist_NoDup; [exact Hnd|apply sublist_take].
  - apply Forall_forall. intros sv [j Hj]%list_elem_of_lookup_1.
    destruct (Forall2_lookup_r _ _ _ _ _ Hf Hj) as ([[k v] val] & Ha & _ & Hv & Hid & Hmax).
    cbn in *. split; [done|]. exists val. rewrite Hid, Hsame, <-Hv. apply Hl.
    apply lookup_take_Some in Ha as [Ha _]. by eapply list_elem_of_lookup_2.
Qed.
End Routing.

(** ** Properties *)

Section PoolProperties.
Context {S Value J : Type} {St : RecordStore S Value} {StOk : RecordStoreOk S Value} `{Json J}
        `{Sha256} {Sde : Serde Value (TriggerEvent J)} {SdeOk : SerdeOk Value (TriggerEvent J)}
        {Sds : Serde Value Subscription}.

(** C6: an event is accepted once.  However many deliveries, polls, subscription
    updates and removals interleave, at most one delivery with a given dedup key
    is accepted, so no event is fanned out twice; and deliveries that agree on
    source, kind, external id and payload digest have the same key whatever
    their receive time, thread, repository and actor. *)
Theorem trigger_accepted_once (s : S) calls c' i j o1 o2 :
  store_wf s → events_keyed (J:=J) s →
  rtc (step (proto_owned TRIGGER_NAMESPACE)) (mkConfig s (run_trigger_call <$> calls) []) c' →
  cfg_threads c' !! i = Some (Ret (Some o1)) → cfg_threads c' !! j = Some (Ret (Some o2)) →
  i ≠ j → accepted o1 = true → accepted o2 = true →
  outcome_dedup_key o1 ≠ outcome_dedup_key o2 ∧
  ∀ a b : TriggerEvent J, trigger_source a = trigger_source b → trigger_kind a = trigger_kind b →
    external_id a = external_id b → payload_digest a = payload_digest b →
    dedup_key a = dedup_key b.
Proof.
  intros Hwf Hok Hsteps Hi Hj Hij Ha1 Ha2. split.
  2: { unfold dedup_key, dedup_material. by intros a b -> -> -> ->. }
  intros Hkey. pose proof (trigger_pool_wp s calls Hwf Hok) as Hall.
  pose proof (steps_interfere _ _ _ _ _ Hall Hsteps) as Hr.
  destruct (wp_adequate _ _ _ _ _ Hall Hsteps i _ Hi Ha1) as (e1 & He1 & Hi1 & Ho1 & Hk1).
  destruct (wp_adequate _ _ _ _ _ Hall Hsteps j _ Hj Ha2) as (e2 & He2 & Hi2 & Ho2 & Hk2).
  rewrite <-Hkey in Hk2. apply Hij. rewrite <-Hi1, <-Hi2. f_equal.
  by eapply (created_once _ _ _ _ (contents s, []) (astate_of c') eq_refl Hr).
Qed.
End PoolProperties.

Section RoutingProperties.
Context {S Value J : Type} {St : RecordStore S Value} {StOk : RecordStoreOk S Value} `{Json J}
        `{Sha256} {Sde : Serde Value (TriggerEvent J)} {SdeOk : SerdeOk Value (TriggerEvent J)}
        {Sds : Serde Value Subscription} {SdsOk : SerdeOk Value Subscription}.

(** A new event reaches exactly the cases that asked for it.  It is recorded
    under its dedup key and accepted; the matched cases are, each once and in
    the order of the listing, those with an active subscription of the event's
    source whose filter matches, the cases to resume are those among them whose
    matching subscription opted in, a reason is given exactly when nothing
    matched, each matching subscription has counted the event, and no other
    document changed. *)
Theorem ingest_routes_exactly t (s : S) (e : TriggerEvent J) now subs :
  ready s → contents s !! (TRIGGER_NAMESPACE, dedup_key e) = None → subscriptions_listed s subs →
  let hit := hits e subs.*1 in
  let matched := distinct (subscription_case_id <$> hit) in
  let resume := distinct (subscription_case_id <$> filterb auto_resume hit) in
  ∃ s' val, run t (ingest e now) s =
      (Ok (mkOutcome (trigger_id e) (dedup_key e) true false matched (unmatched e matched) resume),
       s') ∧
    contents s' !! (TRIGGER_NAMESPACE, dedup_key e) = Some (1, val) ∧ from_value val = Ok e ∧
    Forall (counted e now s') subs ∧
    (∀ k, k ≠ (TRIGGER_NAMESPACE, dedup_key e) →
       (∀ sv, sv ∈ subs → k ≠ (SUBSCRIPTION_NAMESPACE, subscription_id sv.1)) →
       contents s' !! k = contents s !! k) ∧
    NoDup matched ∧ resume ⊆ matched ∧
    (∀ c, c ∈ matched ↔ ∃ u v, (u, v) ∈ subs ∧ subscription_hit e u = true ∧
       subscription_case_id u = c) ∧
    (is_Some (unmatched e matched) ↔ matched = []).
Proof.
  intros Hs Hnone Hsubs. cbv zeta. unfold ingest. cbv zeta. rewrite run_bind.
  destruct (run_ns_put_ok t s TRIGGER_NAMESPACE (dedup_key e) e (Some 0) Hs)
    as (r & s1 & val & Hp & Hs1 & Hx & _ & Hc); [by rewrite Hnone|by rewrite Hnone|].
  rewrite Hp. rewrite Hnone in Hc. cbn in Hc.
  assert (∀ k, contents s1 !! (SUBSCRIPTION_NAMESPACE, k) =
               contents s !! (SUBSCRIPTION_NAMESPACE, k)) as Hsame
    by (intros k; rewrite Hc; by apply lookup_insert_ne).
  destruct (listed_current s s1 subs Hsubs Hsame) as [Hnd Hcur].
  destruct Hsubs as (l & Hl & Hf). rewrite run_bind, (run_ns_list t s1 _ 1000 l subs Hs1).
  - rewrite run_bind. destruct (run_fan_out t s1 subs e now [] [] Hs1 Hnd Hcur)
      as (s' & Hrun & _ & Hcnt & Hoth).
    rewrite Hrun. exists s', val. split_and!; [done| |done|done| | | | |].
    + rewrite Hoth, Hc; [by rewrite lookup_insert_eq|]. done.
    + intros k Hk Hk'. rewrite Hoth, Hc by done. by apply lookup_insert_ne.
    + apply distinct_NoDup.
    + intros c. rewrite !distinct_elem, !list_elem_of_fmap.
      intros (u & -> & [Hu _]%filterb_elem). by exists u.
    + intros c. rewrite distinct_elem, list_elem_of_fmap. unfold hits. setoid_rewrite filterb_elem.
      setoid_rewrite list_elem_of_fmap. split.
      * intros (u & -> & ([u' v] & -> & Hin) & Hh). by exists u', v.
      * intros (u & v & Hin & Hh & <-). exists u. split_and!; [done| |done]. by exists (u, v).
    + destruct (distinct _); simpl; [naive_solver|]. split; [by intros []|done].
  - done.
  - destruct Hl as (Hsort & Hkeys & Hl). split_and!; [done|done|]. intros k v x. by rewrite Hsame.
  - eapply Forall2_impl; [exact Hf|]. intros a y (? & ? & _). done.
Qed.

(** A fan-out that fails is never made up for.  If a delivery of a new event
    fails, the event is on record all the same, and every later delivery of it
    is answered as a duplicate with no matched cases and changes nothing: the
    subscriptions the first delivery did not reach never see the event. *)
Theorem failed_fanout_is_final t (s s' : S) (e : TriggerEvent J) now err t' now' :
  ready s → contents s !! (TRIGGER_NAMESPACE, dedup_key e) = None →
  run t (ingest e now) s = (Err err, s') →
  (∃ val, contents s' !! (TRIGGER_NAMESPACE, dedup_key e) = Some (1, val) ∧ from_value val = Ok e) ∧
  run t' (ingest e now') s' = (Ok (IngestOutcome_duplicate (trigger_id e) (dedup_key e)), s').
Proof.
  intros Hs Hnone Hrun. unfold ingest in *. cbv zeta in *. rewrite run_bind in Hrun |- *.
  destruct (run_ns_put_ok t s TRIGGER_NAMESPACE (dedup_key e) e (Some 0) Hs)
    as (r & s1 & val & Hp & Hs1 & Hx & _ & Hc); [by rewrite Hnone|by rewrite Hnone|].
  rewrite Hp in Hrun. rewrite Hnone in Hc. cbn in Hc.
  assert (ready s' ∧ contents s' !! (TRIGGER_NAMESPACE, dedup_key e) = Some (1, val)) as [Hs' Hl].
  { rewrite run_bind in Hrun.
    destruct (run t (ns_list SUBSCRIPTION_NAMESPACE 1000) s1) as [[subs|error] s2] eqn:El.
    - assert (s2 = s1) as -> by (by injection El). rewrite run_bind in Hrun.
      destruct (run t (fan_out subs e now [] []) s1) as [[[m q]|error] s3] eqn:Ef; [done|].
      injection Hrun as _ <-. apply run_fan_out_ready in Ef as [Hs3 Hk]; [|done].
      split; [done|]. by rewrite Hk, Hc, lookup_insert_eq.
    - assert (s2 = s1) as -> by (by injection El). injection Hrun as _ <-.
      split; [done|]. by rewrite Hc, lookup_insert_eq. }
  split; [by exists val|].
  destruct (run_ns_put_conflict t' s' TRIGGER_NAMESPACE (dedup_key e) e (Some 0))
    as (ex & a & Hp'); [done| |by rewrite Hp'].
  rewrite Hl. simpl. lia.
Qed.
End RoutingProperties.

(** *** Witnesses *)

#[local] Instance unit_json : Json unit :=
  {| json_to_string := λ _, "null"; json_get := λ _ _, None; json_as_array := λ _, None;
     json_as_str := λ _, None |}.
#[local] Instance witness_event_serde : Serde (TriggerEvent unit + Subscription) (TriggerEvent unit) :=
  left_serde (TriggerEvent unit) Subscription.
#[local] Instance witness_event_serde_ok :
    SerdeOk (TriggerEvent unit + Subscription) (TriggerEvent unit) :=
  left_serde_ok (TriggerEvent unit) Subscription.
#[local] Instance witness_subscription_serde :
    Serde (TriggerEvent unit + Subscription) Subscription :=
  right_serde (TriggerEvent unit) Subscription.
#[local] Instance witness_subscription_serde_ok :
    SerdeOk (TriggerEvent unit + Subscription) Subscription :=
  right_serde_ok (TriggerEvent unit) Subscription.
(** A digest that tells texts of different lengths apart. *)
#[local] Instance length_sha : Sha256 :=
  {| sha256 := λ s, replicate 32 (Z.of_nat (String.length s) `mod` 256) |}.

Definition witness_event (fresh_id external : string) : TriggerEvent unit :=
  with_thread (TriggerEvent_new fresh_id GitHub IssueComment external tt 5) "acme/core#7".

Definition witness_subscription : Subscription :=
  with_auto_resume (Subscription_new "s-1" "c-1" GitHub (filter_thread "acme/core#7") 1).

Definition witness_inbox : InMemoryRecordStore (TriggerEvent unit + Subscription) :=
  mkInMemory {[ ("subscription", "s-1") :=
    mkRecord "subscription" "s-1" 1 (inr witness_subscription) 1 ]} false.

Lemma witness_inbox_wf : store_wf witness_inbox.
Proof. apply map_Forall_singleton. split; simpl; [done|lia]. Qed.

Lemma witness_inbox_keyed : events_keyed (J:=unit) witness_inbox.
Proof.
  intros k v val e Hl _. revert Hl. cbn [contents InMemory_Ok]. rewrite in_memory_contents_lookup.
  intros (r & Hr & _)%fmap_Some. revert Hr. cbn [inner witness_inbox].
  by intros [[=] _]%lookup_singleton_Some.
Qed.

Lemma witness_inbox_fresh r k :
  contents (mkInMemory {[ ("subscription", "s-1") := r ]} false
    : InMemoryRecordStore (TriggerEvent unit + Subscription)) !! (TRIGGER_NAMESPACE, k) = None.
Proof.
  cbn [contents InMemory_Ok]. rewrite in_memory_contents_lookup. cbn [inner].
  by rewrite lookup_singleton_ne.
Qed.

(** Two events, and a second delivery of the first one. *)
Definition witness_deliveries : list (trigger_call unit) :=
  [CallIngest (witness_event "t-1" "delivery-1") 5; CallIngest (witness_event "t-2" "delivery-22") 6;
   CallIngest (witness_event "t-3" "delivery-1") 7].
Definition witness_delivered :=
  exec 9 [0; 2; 1; 1; 0; 0; 1]%nat
    (mkConfig witness_inbox (run_trigger_call <$> witness_deliveries) []).
Definition witness_answer (j : nat) : option IngestOutcome :=
  match cfg_threads witness_delivered !! j with Some (Ret o) => o | _ => None end.
Definition witness_outcome (j : nat) : IngestOutcome :=
  default (IngestOutcome_duplicate "" "") (witness_answer j).

Lemma trigger_accepted_once_witness :
  outcome_dedup_key (witness_outcome 0) ≠ outcome_dedup_key (witness_outcome 1).
Proof.
  apply (trigger_accepted_once witness_inbox witness_deliveries witness_delivered 0 1
    (witness_outcome 0) (witness_outcome 1)
    witness_inbox_wf witness_inbox_keyed (exec_rtc _ _ _ _)).
  - vm_compute. reflexivity.
  - vm_compute. reflexivity.
  - discriminate.
  - vm_compute. reflexivity.
  - vm_compute. reflexivity.
Defined.

Example witness_redelivery : duplicate (witness_outcome 2) = true.
Proof. vm_compute. reflexivity. Qed.

Lemma witness_inbox_listed : subscriptions_listed witness_inbox [(witness_subscription, 1)].
Proof.
  exists [("s-1", 1, inr witness_subscription)]. split.
  - split_and!; [by repeat constructor|apply NoDup_singleton|]. intros k v x.
    cbn [contents InMemory_Ok]. rewrite in_memory_contents_lookup. cbn [inner witness_inbox].
    rewrite list_elem_of_singleton, fmap_Some. split.
    + intros [= -> -> ->]. eexists. rewrite lookup_singleton_eq. done.
    + intros (r & [[= <-] <-]%lookup_singleton_Some & [= -> ->]). done.
  - by repeat constructor.
Qed.

Lemma ingest_routes_exactly_witness :
  hits (witness_event "t-1" "delivery-1") [witness_subscription] = [witness_subscription] ∧
  ∃ s', (run 9 (ingest (witness_event "t-1" "delivery-1") 5) witness_inbox).2 = s' ∧
    counted (witness_event "t-1" "delivery-1") 5 s' (witness_subscription, 1).
Proof.
  split; [vm_compute; reflexivity|].
  destruct (ingest_routes_exactly 9 witness_inbox (witness_event "t-1" "delivery-1") 5
    [(witness_subscription, 1)] (conj witness_inbox_wf eq_refl) (witness_inbox_fresh _ _)
    witness_inbox_listed)
    as (s' & val & Hrun & _ & _ & Hc & _).
  exists s'. split; [by rewrite Hrun|]. by apply Forall_cons in Hc as [Hc _].
Defined.

(** A document that does not decode makes the fan-out fail. *)
Definition witness_broken : InMemoryRecordStore (TriggerEvent unit + Subscription) :=
  mkInMemory {[ ("subscription", "s-1") :=
    mkRecord "subscription" "s-1" 1 (inl (witness_event "t-0" "x")) 1 ]} false.
Definition witness_broken_run :=
  run 9 (ingest (witness_event "t-1" "delivery-1") 5) witness_broken.

Lemma failed_fanout_is_final_witness :
  (run 11 (ingest (witness_event "t-1" "delivery-1") 8) witness_broken_run.2).1 =
  Ok (IngestOutcome_duplicate "t-1" (dedup_key (witness_event "t-1" "delivery-1"))).
Proof.
  assert (store_wf witness_broken) as Hwf
    by (apply map_Forall_singleton; split; simpl; [done|lia]).
  destruct (failed_fanout_is_final 9 witness_broken witness_broken_run.2
    (witness_event "t-1" "delivery-1") 5
    (TriggerStoreFailed (Decode "s-1" "wrong document")) 11 8 (conj Hwf eq_refl) (witness_inbox_fresh _ _))
    as [_ Hx]; [vm_compute; reflexivity|]. by rewrite Hx.
Defined.
