(* ===== verification/Attention.v ===== *)
(** * Attention

    [uc-types/src/governance/attention.rs] (attention items and capacity) and
    [uc-engine/src/governance/attention.rs] ([AttentionBoard]): the worklist that
    says why a case does not progress, and the capacity accounting made from
    it. *)

From Stdlib Require Import String.
From S2P Require Import Prelude RustStr Store Prog Concurrency Protocol.

(** ** Items *)

Definition ATTENTION_NAMESPACE : string := "attention".

Inductive AttentionKind : Type := WaitingForEvent | NeedsHumanDecision | IsBlocked | IsVerifying.
#[export] Instance AttentionKind_eq_dec : EqDecision AttentionKind.
Proof. solve_decision. Defined.

Definition AttentionKind_as_str (k : AttentionKind) : string :=
  match k with
  | WaitingForEvent => "waiting_event"
  | NeedsHumanDecision => "needs_human"
  | IsBlocked => "blocked"
  | IsVerifying => "verifying"
  end.

Definition AttentionKind_from_str_lossy (value : string) : option AttentionKind :=
  let v := to_ascii_lowercase (trim value) in
  if v ==? "waiting_event" then Some WaitingForEvent
  else if v ==? "needs_human" then Some NeedsHumanDecision
  else if v ==? "blocked" then Some IsBlocked
  else if v ==? "verifying" then Some IsVerifying
  else None.

Definition holds_worker_slot (k : AttentionKind) : bool :=
  match k with
  | WaitingForEvent | IsVerifying => false
  | NeedsHumanDecision | IsBlocked => false
  end.
Definition reserves_human_slot (k : AttentionKind) : bool := k ==? NeedsHumanDecision.
Definition requires_human_now (k : AttentionKind) : bool := k ==? NeedsHumanDecision.
Definition is_visible_in_worklist (k : AttentionKind) : bool := k !=? IsVerifying.

Inductive AttentionResolution : Type :=
| HumanDecision (by_ answer : string)
| EventReceived (trigger_id : string)
| Automatic (detail : string)
| CaseClosed (status : string).

Definition AttentionResolution_summary (r : AttentionResolution) : string :=
  match r with
  | HumanDecision by_ answer => "human:" +:+ by_ +:+ ":" +:+ answer
  | EventReceived i => "event:" +:+ i
  | Automatic d => "auto:" +:+ d
  | CaseClosed s => "closed:" +:+ s
  end.

Record AttentionItem : Type := mkItem {
  item_id : string;
  item_case_id : string;
  item_task_id : option string;
  item_kind : AttentionKind;
  item_summary : string;
  item_detail : option string;
  item_since : Instant;
  item_priority : Z;
  item_human_action : option string;
  item_resolved_at : option Instant;
  item_resolution : option AttentionResolution;
  item_version : Z
}.

Definition AttentionItem_new (i case : string) (kind : AttentionKind) (summary : string)
    (since : Instant) : AttentionItem :=
  mkItem i case None kind summary None since 0 None None None 0.

Definition item_with_detail (x : AttentionItem) (d : string) : AttentionItem :=
  mkItem (item_id x) (item_case_id x) (item_task_id x) (item_kind x) (item_summary x) (Some d)
    (item_since x) (item_priority x) (item_human_action x) (item_resolved_at x)
    (item_resolution x) (item_version x).
Definition item_with_human_action (x : AttentionItem) (a : string) : AttentionItem :=
  mkItem (item_id x) (item_case_id x) (item_task_id x) (item_kind x) (item_summary x)
    (item_detail x) (item_since x) (item_priority x) (Some a) (item_resolved_at x)
    (item_resolution x) (item_version x).
Definition item_with_task (x : AttentionItem) (t : string) : AttentionItem :=
  mkItem (item_id x) (item_case_id x) (Some t) (item_kind x) (item_summary x) (item_detail x)
    (item_since x) (item_priority x) (item_human_action x) (item_resolved_at x)
    (item_resolution x) (item_version x).
Definition item_with_priority (x : AttentionItem) (p : Z) : AttentionItem :=
  mkItem (item_id x) (item_case_id x) (item_task_id x) (item_kind x) (item_summary x)
    (item_detail x) (item_since x) p (item_human_action x) (item_resolved_at x)
    (item_resolution x) (item_version x).

Definition item_is_open (x : AttentionItem) : bool := bool_decide (item_resolved_at x = None).

Definition item_resolve (x : AttentionItem) (r : AttentionResolution) (now : Instant)
    : AttentionItem :=
  if bool_decide (is_Some (item_resolved_at x)) then x
  else mkItem (item_id x) (item_case_id x) (item_task_id x) (item_kind x) (item_summary x)
         (item_detail x) (item_since x) (item_priority x) (item_human_action x) (Some now)
         (Some r) (item_version x).

Definition set_since (x : AttentionItem) (t : Instant) : AttentionItem :=
  mkItem (item_id x) (item_case_id x) (item_task_id x) (item_kind x) (item_summary x)
    (item_detail x) t (item_priority x) (item_human_action x) (item_resolved_at x)
    (item_resolution x) (item_version x).

(** [worklist_order_key]: human decisions first, then the higher priority, then
    the older in milliseconds, then the case id. *)
Definition worklist_order_key (x : AttentionItem) : Z * Z * Z * string :=
  ((if requires_human_now (item_kind x) then 0 else 1), - item_priority x,
   timestamp_millis (item_since x), item_case_id x).

Definition key_leb (a b : Z * Z * Z * string) : bool :=
  let '(a1, a2, a3, a4) := a in
  let '(b1, b2, b3, b4) := b in
  (a1 <? b1) || (a1 =? b1) &&
  ((a2 <? b2) || (a2 =? b2) && ((a3 <? b3) || (a3 =? b3) && String.leb a4 b4)).

Definition worklist_leb (x y : AttentionItem) : bool :=
  key_leb (worklist_order_key x) (worklist_order_key y).

(** ** Capacity *)

Record CapacitySnapshot : Type := mkCapacity {
  worker_slots_total : Z;
  worker_slots_busy : Z;
  worker_slots_reserved_human : Z;
  waiting_event_cases : Z;
  verifying_cases : Z;
  needs_human_items : Z;
  blocked_cases : Z
}.

Definition worker_slots_available (c : CapacitySnapshot) : Z :=
  saturating_sub (saturating_sub (worker_slots_total c) (worker_slots_busy c))
    (worker_slots_reserved_human c).
Definition can_admit_worker (c : CapacitySnapshot) : bool := 0 <? worker_slots_available c.
Definition slots_saved_by_quiet_waiting (c : CapacitySnapshot) : Z :=
  u32_saturating_add (waiting_event_cases c) (verifying_cases c).

(** ** The board *)

Inductive AttentionBoardError : Type :=
| AttentionStoreFailed (e : RecordError)
| AttentionNotFound (attention_id : string)
| AttentionContended.

Definition AttentionBoardError_display (e : AttentionBoardError) : string :=
  match e with
  | AttentionStoreFailed error => "attention board: " +:+ RecordError_display error
  | AttentionNotFound i => "attention item " +:+ i +:+ " not found"
  | AttentionContended => "attention board contention"
  end.

(** [iter_mut().find(..)] and increment, or push. *)
Fixpoint bump_kind (k : AttentionKind) (counts : list (AttentionKind * Z))
    : list (AttentionKind * Z) :=
  match counts with
  | [] => [(k, 1)]
  | (k', n) :: rest => if k' ==? k then (k', n + 1) :: rest else (k', n) :: bump_kind k rest
  end.

Definition count_of (counts : list (AttentionKind * Z)) (k : AttentionKind) : Z :=
  match find (λ kn, kn.1 ==? k) counts with Some (_, n) => n | None => 0 end.

Section Board.
Context {Value : Type} {Sd : Serde Value AttentionItem}.
Notation prog := (prog Value).

Definition AttentionBoard_resolve (i : string) (r : AttentionResolution) (now : Instant)
    : prog (result AttentionItem AttentionBoardError) :=
  cas_loop 8 ATTENTION_NAMESPACE i (Err (AttentionNotFound i))
    (λ x _, if negb (item_is_open x) then Answer (Ok x)
            else let x' := item_resolve x r now in Write x' (Ok x'))
    (λ e, Err (AttentionStoreFailed e)) (Err AttentionContended).

Definition AttentionBoard_get (i : string)
    : prog (result (option AttentionItem) AttentionBoardError) :=
  let! r := ns_get ATTENTION_NAMESPACE i in
  Ret match r with
      | Err e => Err (AttentionStoreFailed e)
      | Ok o => Ok (fst <$> (o : option (AttentionItem * Z)))
      end.

Definition open_for_case (case : string)
    : prog (result (option AttentionItem) AttentionBoardError) :=
  let! l := ns_list ATTENTION_NAMESPACE 2000 in
  Ret match l with
      | Err e => Err (AttentionStoreFailed e)
      | Ok l => Ok (max_by_key item_since
                     (filterb (λ x, (item_case_id x ==? case) && item_is_open x) (l.*1)))
      end.

Definition superseded_by (i : string) (open : option AttentionItem) : option string :=
  match open with
  | Some x => if item_id x !=? i then Some (item_id x) else None
  | None => None
  end.

(** The step of [raise] that closes what it supersedes, its answer ignored. *)
Definition supersede (superseded : option string) (i : string) (now : Instant) : prog unit :=
  match superseded with
  | Some previous =>
      let! _ := AttentionBoard_resolve previous (Automatic ("superseded by " +:+ i)) now in Ret tt
  | None => Ret tt
  end.

(** The step of [raise] that stores the item, in place when its id is taken. *)
Definition store_item (x : AttentionItem) : prog (result AttentionItem AttentionBoardError) :=
  let! w := ns_put ATTENTION_NAMESPACE (item_id x) x (Some 0) in
  match w with
  | Ok _ => Ret (Ok x)
  | Err (Conflict _ _) =>
      let! g := ns_get ATTENTION_NAMESPACE (item_id x) in
      match g with
      | Err e => Ret (Err (AttentionStoreFailed e))
      | Ok None => Ret (Err (AttentionStoreFailed (Conflict 0 None)))
      | Ok (Some (cur, version)) =>
          let existing := set_since x (item_since cur) in
          let! w := ns_put ATTENTION_NAMESPACE (item_id existing) existing (Some version) in
          Ret match w with
              | Err e => Err (AttentionStoreFailed e)
              | Ok _ => Ok existing
              end
      end
  | Err other => Ret (Err (AttentionStoreFailed other))
  end.

Definition raise (x : AttentionItem) (now : Instant)
    : prog (result (AttentionItem * option string) AttentionBoardError) :=
  let! o := open_for_case (item_case_id x) in
  match o with
  | Err e => Ret (Err e)
  | Ok open =>
      let superseded := superseded_by (item_id x) open in
      let! _ := supersede superseded (item_id x) now in
      let! w := store_item x in
      Ret match w with
          | Err e => Err e
          | Ok stored => Ok (stored, superseded)
          end
  end.

(** [limit.saturating_mul(4).max(50)]: the saturation is above every length. *)
Definition worklist (include_resolved : bool) (limit : nat)
    : prog (result (list AttentionItem) AttentionBoardError) :=
  let! l := ns_list ATTENTION_NAMESPACE (Nat.max (limit * 4) 50) in
  Ret match l with
      | Err e => Err (AttentionStoreFailed e)
      | Ok l => Ok (take limit (sort_by worklist_leb
                     (filterb (λ x, include_resolved || item_is_open x) (l.*1))))
      end.

Definition open_counts_of (xs : list AttentionItem) : list (AttentionKind * Z) :=
  foldl (λ counts x, if negb (item_is_open x) then counts else bump_kind (item_kind x) counts) [] xs.

Definition open_counts : prog (result (list (AttentionKind * Z)) AttentionBoardError) :=
  let! l := ns_list ATTENTION_NAMESPACE 2000 in
  Ret match l with
      | Err e => Err (AttentionStoreFailed e)
      | Ok l => Ok (open_counts_of ((l : list (AttentionItem * Z)).*1))
      end.

Definition capacity (total busy reserved_human : Z)
    : prog (result CapacitySnapshot AttentionBoardError) :=
  let! c := open_counts in
  Ret match c with
      | Err e => Err e
      | Ok counts =>
          Ok (mkCapacity total busy (Z.min reserved_human total)
                (count_of counts WaitingForEvent) (count_of counts IsVerifying)
                (count_of counts NeedsHumanDecision) (count_of counts IsBlocked))
      end.
End Board.

(** ** Order and counts *)

Lemma key_leb_total a b : key_leb a b = true ∨ key_leb b a = true.
Proof.
  destruct a as [[[a1 a2] a3] a4], b as [[[b1 b2] b3] b4]. unfold key_leb.
  destruct (Z.ltb_spec a1 b1), (Z.ltb_spec b1 a1), (Z.eqb_spec a1 b1), (Z.eqb_spec b1 a1);
    try lia; simpl; auto.
  destruct (Z.ltb_spec a2 b2), (Z.ltb_spec b2 a2), (Z.eqb_spec a2 b2), (Z.eqb_spec b2 a2);
    try lia; simpl; auto.
  destruct (Z.ltb_spec a3 b3), (Z.ltb_spec b3 a3), (Z.eqb_spec a3 b3), (Z.eqb_spec b3 a3);
    try lia; simpl; auto.
  apply String.leb_total.
Qed.

Lemma worklist_leb_spec x y :
  worklist_leb x y = true →
  (requires_human_now (item_kind y) = true → requires_human_now (item_kind x) = true) ∧
  (requires_human_now (item_kind x) = requires_human_now (item_kind y) →
     item_priority y <= item_priority x).
Proof.
  unfold worklist_leb, worklist_order_key, key_leb. intros Hle.
  destruct (requires_human_now (item_kind x)), (requires_human_now (item_kind y)); simpl in Hle;
    bool_hyps; split; intros; try done; lia.
Qed.

Lemma count_of_bump k k' counts :
  count_of (bump_kind k counts) k' = count_of counts k' + (if k ==? k' then 1 else 0).
Proof.
  unfold count_of. induction counts as [|[q n] counts IH]; simpl.
  - by destruct (k ==? k').
  - destruct (decide (q = k)) as [->|Hq].
    + rewrite (bool_decide_eq_true_2 (k = k)) by done. simpl. destruct (k ==? k'); simpl; [done|lia].
    + rewrite (bool_decide_eq_false_2 (q = k)) by done. simpl.
      destruct (decide (q = k')) as [->|Hq'].
      * rewrite (bool_decide_eq_true_2 (k' = k')) by done.
        rewrite bool_decide_eq_false_2 by congruence. simpl. lia.
      * by rewrite (bool_decide_eq_false_2 (q = k')).
Qed.

Lemma open_counts_exact xs k :
  count_of (open_counts_of xs) k =
  Z.of_nat (length (filterb (λ x, item_is_open x && (item_kind x ==? k)) xs)).
Proof.
  unfold open_counts_of.
  enough (∀ acc, count_of (foldl (λ counts x, if negb (item_is_open x) then counts
      else bump_kind (item_kind x) counts) acc xs) k =
    count_of acc k + Z.of_nat (length (filterb (λ x, item_is_open x && (item_kind x ==? k)) xs)))
    as -> by done.
  induction xs as [|x xs IH]; intros acc; simpl; [lia|]. rewrite IH.
  destruct (item_is_open x); simpl; [|done]. rewrite count_of_bump.
  destruct (item_kind x ==? k); simpl length; lia.
Qed.

(** ** Raising an item *)

Section Raise.
Context {S Value : Type} {St : RecordStore S Value} {StOk : RecordStoreOk S Value}
        {Sd : Serde Value AttentionItem} {SdOk : SerdeOk Value AttentionItem}.
Implicit Types (s : S) (x y : AttentionItem).

(** The whole board: every document decodes and sits under its id, and there are
    no more of them than the board lists. *)
Definition board s (items : list (AttentionItem * Z)) : Prop :=
  ∃ l, store_listing s ATTENTION_NAMESPACE l ∧ (length l <= 2000)%nat ∧
    Forall2 (λ a b, from_value a.2 = Ok b.1 ∧ a.1.2 = b.2 ∧ item_id b.1 = a.1.1 ∧
                    b.2 < i64_max) l items.

Definition open_of (case : string) x : bool := (item_case_id x ==? case) && item_is_open x.

Definition one_open (case : string) (items : list (AttentionItem * Z)) : Prop :=
  ∀ x y v w, (x, v) ∈ items → (y, w) ∈ items → open_of case x = true → open_of case y = true →
    x = y.

Lemma board_lookup s items k v val y :
  board s items → contents s !! (ATTENTION_NAMESPACE, k) = Some (v, val) → from_value val = Ok y →
  (y, v) ∈ items ∧ item_id y = k ∧ v < i64_max.
Proof.
  intros (l & (_ & _ & Hl) & _ & Hf) Hk Hy. apply Hl in Hk as [j Hj]%list_elem_of_lookup_1.
  destruct (Forall2_lookup_l _ _ _ _ _ Hf Hj) as ([y' v'] & Hj' & Hy' & Hv & Hid & Hmax).
  cbn in *. assert (y' = y) as -> by congruence. subst v'. split_and!; try done.
  by eapply list_elem_of_lookup_2.
Qed.

Lemma board_elem s items y v :
  board s items → (y, v) ∈ items →
  v < i64_max ∧ ∃ val, contents s !! (ATTENTION_NAMESPACE, item_id y) = Some (v, val) ∧
    from_value val = Ok y.
Proof.
  intros (l & (_ & _ & Hl) & _ & Hf) [j Hj]%list_elem_of_lookup_1.
  destruct (Forall2_lookup_r _ _ _ _ _ Hf Hj) as ([[k v'] val] & Hj' & Hy & Hv & Hid & Hmax).
  cbn in *. subst. split; [done|]. exists val. split; [|done]. apply Hl.
  by eapply list_elem_of_lookup_2.
Qed.

Lemma run_open_for_case t s items case :
  ready s → board s items →
  run t (open_for_case case) s =
  (Ok (max_by_key item_since (filterb (open_of case) (items.*1))), s).
Proof.
  intros Hs (l & Hl & Hlen & Hf). unfold open_for_case. rewrite run_bind.
  rewrite (run_ns_list t s ATTENTION_NAMESPACE 2000 l items Hs ltac:(done) Hl); [done|].
  rewrite take_ge by done. eapply Forall2_impl; [exact Hf|]. by intros a y (? & ? & _).
Qed.

Lemma run_resolve_open t s i r now v val y :
  ready s → contents s !! (ATTENTION_NAMESPACE, i) = Some (v, val) → from_value val = Ok y →
  v < i64_max → item_is_open y = true →
  ∃ s' val', run t (AttentionBoard_resolve i r now) s = (Ok (item_resolve y r now), s') ∧
    ready s' ∧ from_value val' = Ok (item_resolve y r now) ∧
    contents s' = <[(ATTENTION_NAMESPACE, i) := (v + 1, val')]> (contents s).
Proof.
  intros Hs Hl Hy Hv Ho.
  pose proof (run_cas_loop t s 7 ATTENTION_NAMESPACE i v val y (Err (AttentionNotFound i))
    (λ x _, if negb (item_is_open x) then Answer (Ok x)
            else let x' := item_resolve x r now in Write x' (Ok x'))
    (λ e, Err (AttentionStoreFailed e)) (Err AttentionContended) Hs Hl Hy Hv) as Hx.
  cbv beta in Hx. rewrite Ho in Hx. exact Hx.
Qed.

Lemma item_resolve_closed y r now : item_is_open (item_resolve y r now) = false.
Proof.
  unfold item_is_open, item_resolve. apply bool_decide_eq_false_2.
  destruct (item_resolved_at y) as [t|] eqn:E; simpl; [|done]. by rewrite E.
Qed.

(** After superseding, no other open item of the case is left. *)
Lemma run_supersede t s items case i now :
  ready s → board s items → one_open case items →
  let o := max_by_key item_since (filterb (open_of case) (items.*1)) in
  ∃ s', run t (supersede (superseded_by i o) i now) s = (tt, s') ∧ ready s' ∧
    (∀ k, superseded_by i o ≠ Some k →
       contents s' !! (ATTENTION_NAMESPACE, k) = contents s !! (ATTENTION_NAMESPACE, k)) ∧
    (∀ k, k.1 ≠ ATTENTION_NAMESPACE → contents s' !! k = contents s !! k) ∧
    ∀ k v val y, k ≠ i → contents s' !! (ATTENTION_NAMESPACE, k) = Some (v, val) →
      from_value val = Ok y → open_of case y = false.
Proof.
  intros Hs Hb Hone o.
  assert (∀ k v val y, contents s !! (ATTENTION_NAMESPACE, k) = Some (v, val) →
    from_value val = Ok y → open_of case y = true → o = Some y ∧ item_id y = k) as Hopen.
  { intros k v val y Hl Hy Ho. destruct (board_lookup s items k v val y Hb Hl Hy) as (Hin & Hid & _).
    split; [|done]. destruct o as [z|] eqn:Eo; subst o.
    - f_equal. apply max_by_key_elem, filterb_elem in Eo as [Hz Hzo].
      apply list_elem_of_fmap in Hz as ([z' w] & -> & Hz). by eapply Hone.
    - apply max_by_key_None in Eo. exfalso.
      assert (y ∈ filterb (open_of case) items.*1) as Hm.
      { apply filterb_elem. split; [|done]. by apply (list_elem_of_fmap_2 fst) in Hin. }
      rewrite Eo in Hm. by apply elem_of_nil in Hm. }
  destruct o as [z|] eqn:Eo; cbn [superseded_by].
  2: { exists s. split_and!; try done. intros k v val y _ Hl Hy.
       apply not_true_iff_false. intros Hoy. by destruct (Hopen k v val y Hl Hy Hoy). }
  case_bool_decide as Hzi; cbn [negb].
  { exists s. split_and!; try done. intros k v val y Hk Hl Hy. apply not_true_iff_false.
    intros Hoy. destruct (Hopen k v val y Hl Hy Hoy) as [[= <-] <-]. done. }
  subst o. apply max_by_key_elem, filterb_elem in Eo as [Hz Hzo].
  apply list_elem_of_fmap in Hz as ([z' w] & -> & Hz). cbn [fst] in *.
  destruct (board_elem s items z' w Hb Hz) as (Hw & val & Hl & Hv).
  pose proof Hzo as [_ Hopen']%andb_true_iff.
  destruct (run_resolve_open t s (item_id z') (Automatic ("superseded by " +:+ i)) now w val z'
    Hs Hl Hv Hw Hopen') as (s' & val' & Hrun & Hs' & Hv' & Hc).
  exists s'. cbn [supersede]. rewrite run_bind, Hrun. split_and!; [done|done| | |].
  - intros k Hk. rewrite Hc. apply lookup_insert_ne. congruence.
  - intros k Hk. rewrite Hc. apply lookup_insert_ne. by intros <-.
  - intros k v val2 y Hk. rewrite Hc. destruct (decide (k = item_id z')) as [->|Hne].
    + rewrite lookup_insert_eq. intros [= <- <-] Hy. rewrite Hv' in Hy. injection Hy as <-.
      unfold open_of. by rewrite item_resolve_closed, andb_false_r.
    + rewrite lookup_insert_ne by congruence. intros Hl2 Hy. apply not_true_iff_false. intros Hoy.
      destruct (Hopen k v val2 y Hl2 Hy Hoy) as [[= <-] <-]. done.
Qed.

Lemma run_store_item t s x :
  ready s →
  (∀ v val, contents s !! (ATTENTION_NAMESPACE, item_id x) = Some (v, val) →
     v < i64_max ∧ ∃ y, from_value val = Ok y) →
  ∃ stored s' v' val', run t (store_item x) s = (Ok stored, s') ∧ item_id stored = item_id x ∧
    from_value val' = Ok stored ∧
    contents s' = <[(ATTENTION_NAMESPACE, item_id x) := (v', val')]> (contents s).
Proof.
  intros Hs Hdec. unfold store_item. rewrite run_bind.
  destruct (contents s !! (ATTENTION_NAMESPACE, item_id x)) as [[v val]|] eqn:E.
  - destruct (Hdec v val eq_refl) as (Hv & y & Hy).
    destruct (run_ns_put_conflict t s ATTENTION_NAMESPACE (item_id x) x (Some 0) Hs) as (ex & a & Hp).
    { rewrite E. simpl. destruct Hs as [Hwf _]. apply contents_version in E; [lia|done]. }
    rewrite Hp, run_bind, (run_ns_get_some t s _ _ v val y) by done. rewrite run_bind.
    destruct (run_ns_put_ok t s ATTENTION_NAMESPACE (item_id x) (set_since x (item_since y)) (Some v) Hs)
      as (r & s' & val' & Hp' & _ & Hv' & _ & Hc); [by rewrite E|rewrite E; simpl; lia|].
    change (item_id (set_since x (item_since y))) with (item_id x). rewrite Hp'.
    exists (set_since x (item_since y)), s', (v + 1), val'. rewrite Hc, E. done.
  - destruct (run_ns_put_ok t s ATTENTION_NAMESPACE (item_id x) x (Some 0) Hs)
      as (r & s' & val & Hp & _ & Hv & _ & Hc); [by rewrite E|by rewrite E|].
    rewrite Hp. exists x, s', 1, val. rewrite Hc, E. done.
Qed.

Lemma board_decodes s items k v val :
  board s items → contents s !! (ATTENTION_NAMESPACE, k) = Some (v, val) →
  v < i64_max ∧ ∃ y, from_value val = Ok y.
Proof.
  intros (l & (_ & _ & Hl) & _ & Hf) [j Hj]%Hl%list_elem_of_lookup_1.
  destruct (Forall2_lookup_l _ _ _ _ _ Hf Hj) as ([y' v'] & _ & Hy & Hv & _ & Hmax).
  cbn in *. subst. split; [done|]. by exists y'.
Qed.
End Raise.

(** ** Properties *)

Section BoardProperties.
Context {S Value : Type} {St : RecordStore S Value} {StOk : RecordStoreOk S Value}
        {Sd : Serde Value AttentionItem} {SdOk : SerdeOk Value AttentionItem}.

(** Raised with no other writer, an item takes over its case: the call
    returns the stored item under the id asked for, closes the item it replaces
    if there was another one, and afterwards no other item of that case is open;
    items under other ids, and every other namespace, are left as they were. *)
Theorem raise_keeps_one_open t (s : S) items x now :
  ready s → board s items → one_open (item_case_id x) items →
  ∃ stored superseded s', run t (raise x now) s = (Ok (stored, superseded), s') ∧
    item_id stored = item_id x ∧ superseded ≠ Some (item_id x) ∧
    (∃ v val, contents s' !! (ATTENTION_NAMESPACE, item_id x) = Some (v, val) ∧
              from_value val = Ok stored) ∧
    (∀ k v val y, contents s' !! (ATTENTION_NAMESPACE, k) = Some (v, val) → from_value val = Ok y →
       open_of (item_case_id x) y = true → k = item_id x) ∧
    (∀ k, k ≠ item_id x → superseded ≠ Some k →
       contents s' !! (ATTENTION_NAMESPACE, k) = contents s !! (ATTENTION_NAMESPACE, k)) ∧
    (∀ k, k.1 ≠ ATTENTION_NAMESPACE → contents s' !! k = contents s !! k).
Proof.
  intros Hs Hb Hone. unfold raise. rewrite run_bind, (run_open_for_case t s items) by done.
  cbv zeta. rewrite run_bind.
  destruct (run_supersede t s items (item_case_id x) (item_id x) now Hs Hb Hone)
    as (s1 & Hr1 & Hs1 & Hsame & Hns & Hclosed).
  set (sup := superseded_by _ _) in *.
  assert (sup ≠ Some (item_id x)) as Hsup.
  { subst sup. destruct (max_by_key _ _) as [z|]; simpl; [|done]. case_bool_decide; simpl; congruence. }
  rewrite Hr1, run_bind.
  destruct (run_store_item t s1 x Hs1) as (stored & s' & v' & val' & Hr2 & Hid & Hv' & Hc).
  { intros v val. rewrite Hsame by done. by eapply board_decodes. }
  rewrite Hr2. exists stored, sup, s'. split_and!; try done.
  - exists v', val'. by rewrite Hc, lookup_insert_eq.
  - intros k v val y. rewrite Hc. destruct (decide (k = item_id x)) as [->|Hne]; [done|].
    rewrite lookup_insert_ne by congruence. intros Hl Hy Ho.
    by rewrite (Hclosed k v val y Hne Hl Hy) in Ho.
  - intros k Hk Hk'. rewrite Hc, lookup_insert_ne by congruence. by apply Hsame.
  - intros k Hk. rewrite Hc, lookup_insert_ne by (by intros <-). by apply Hns.
Qed.

(** The worklist and the capacity projection report the board as it is.  The
    worklist holds at most the number asked for of open items of the board,
    human decisions before everything else and higher priority before lower
    within each group; the capacity counts are exactly the numbers of open items
    of each kind, the human reserve never exceeds the slots there are, and the
    slots offered to ordinary work never exceed what is neither busy nor
    reserved. *)
Theorem projections_exact t (s : S) items limit total busy reserved :
  ready s → board s items → Z.of_nat (Nat.max (limit * 4) 50) <= i64_max → 0 <= total → 0 <= busy → 0 <= reserved →
  (∃ c, run t (capacity total busy reserved) s = (Ok c, s) ∧
    worker_slots_reserved_human c <= total ∧
    (can_admit_worker c = true → busy + worker_slots_reserved_human c < total) ∧
    let open k := Z.of_nat (length (filterb (λ x, item_is_open x && (item_kind x ==? k)) items.*1)) in
    waiting_event_cases c = open WaitingForEvent ∧ verifying_cases c = open IsVerifying ∧
    needs_human_items c = open NeedsHumanDecision ∧ blocked_cases c = open IsBlocked) ∧
  (∃ w, run t (worklist false limit) s = (Ok w, s) ∧ (length w <= limit)%nat ∧
    (∀ x, x ∈ w → ∃ v, (x, v) ∈ items ∧ item_is_open x = true) ∧
    ∀ i x y, w !! i = Some x → w !! Datatypes.S i = Some y →
      (requires_human_now (item_kind y) = true → requires_human_now (item_kind x) = true) ∧
      (requires_human_now (item_kind x) = requires_human_now (item_kind y) →
         item_priority y <= item_priority x)).
Proof.
  intros Hs Hb Hlim Ht Hbu Hre. pose proof Hb as (l & Hl & Hlen & Hf).
  assert (Forall2 (λ a b, from_value a.2 = Ok b.1 ∧ a.1.2 = b.2) l items) as Hf'.
  { eapply Forall2_impl; [exact Hf|]. by intros a b (? & ? & _). }
  split.
  - unfold capacity, open_counts. rewrite !run_bind.
    rewrite (run_ns_list t s ATTENTION_NAMESPACE 2000 l items Hs ltac:(done) Hl) by (by rewrite take_ge).
    eexists. split; [done|]. cbn. rewrite !open_counts_exact. split_and!; try done; [lia|].
    unfold can_admit_worker, worker_slots_available, saturating_sub. cbn.
    intros Hc. apply Z.ltb_lt in Hc. lia.
  - unfold worklist. rewrite run_bind.
    rewrite (run_ns_list t s ATTENTION_NAMESPACE _ l (take (Nat.max (limit * 4) 50) items) Hs Hlim Hl)
      by (by apply Forall2_take).
    eexists. split; [done|]. set (xs := filterb _ _). split_and!.
    + rewrite length_take. lia.
    + intros x (j & Hj & _)%elem_of_take. apply list_elem_of_lookup_2, sort_by_elem in Hj.
      apply filterb_elem in Hj as [Hj Ho]. apply list_elem_of_fmap in Hj as ([y v] & -> & Hj).
      apply elem_of_take in Hj as (j' & Hj' & _). exists v. split; [|done].
      by eapply list_elem_of_lookup_2.
    + intros i x y Hx Hy. apply worklist_leb_spec.
      pose proof (sort_by_Sorted worklist_leb xs (λ a b, key_leb_total _ _)) as Hsort.
      apply lookup_take_Some in Hx as [Hx _]. apply lookup_take_Some in Hy as [Hy _].
      by eapply Sorted_adjacent in Hsort.
Qed.
End BoardProperties.

#[local] Existing Instance identity_serde.
#[local] Existing Instance identity_serde_ok.

Definition race_item (i : string) : AttentionItem :=
  AttentionItem_new i "c-1" WaitingForEvent "waiting for CI" 1.

Definition race_start :=
  mkConfig (InMemoryRecordStore_new (Value:=AttentionItem))
    [raise (race_item "a-1") 5; raise (race_item "a-2") 6] [].

(** Raised concurrently, two items of one case can both stay open: each call
    lists the board before the other one stores, so neither sees an item to
    replace, both calls succeed, and the board holds two open items of the
    case. *)
Theorem concurrent_raises_both_open :
  ∃ c', rtc (step (proto_owned ATTENTION_NAMESPACE)) race_start c' ∧
    cfg_threads c' = [Ret (Ok (race_item "a-1", None)); Ret (Ok (race_item "a-2", None))] ∧
    contents (cfg_store c') !! (ATTENTION_NAMESPACE, "a-1") = Some (1, race_item "a-1") ∧
    contents (cfg_store c') !! (ATTENTION_NAMESPACE, "a-2") = Some (1, race_item "a-2") ∧
    open_of "c-1" (race_item "a-1") = true ∧ open_of "c-1" (race_item "a-2") = true.
Proof.
  exists (exec 9 [0; 1; 0; 1]%nat race_start). split; [apply exec_rtc|].
  split_and!; vm_compute; reflexivity.
Qed.

(** *** Witnesses *)

Definition witness_board : InMemoryRecordStore AttentionItem :=
  mkInMemory {[ ("attention", "a-1") := mkRecord "attention" "a-1" 1 (race_item "a-1") 1 ]} false.

Lemma witness_board_wf : store_wf witness_board.
Proof. apply map_Forall_singleton. split; simpl; [done|lia]. Qed.

Lemma witness_board_ok : board witness_board [(race_item "a-1", 1)].
Proof.
  exists [("a-1", 1, race_item "a-1")]. split_and!.
  - split_and!; [by repeat constructor|apply NoDup_singleton|]. intros k v x.
    cbn [contents InMemory_Ok]. rewrite in_memory_contents_lookup. cbn [inner witness_board].
    rewrite list_elem_of_singleton, fmap_Some. split.
    + intros [= -> -> ->]. eexists. rewrite lookup_singleton_eq. done.
    + intros (r & [[= <-] <-]%lookup_singleton_Some & [= -> ->]). done.
  - simpl. lia.
  - by repeat constructor.
Qed.

Lemma raise_keeps_one_open_witness :
  ∃ stored superseded s', run 9 (raise (race_item "a-2") 6) witness_board =
    (Ok (stored, superseded), s') ∧ item_id stored = "a-2".
Proof.
  destruct (raise_keeps_one_open 9 witness_board [(race_item "a-1", 1)] (race_item "a-2") 6
    (conj witness_board_wf eq_refl) witness_board_ok) as (stored & sup & s' & Hrun & Hid & _).
  - intros x y v w [= -> ->]%list_elem_of_singleton [= -> ->]%list_elem_of_singleton. done.
  - exists stored, sup, s'. by split.
Defined.

Lemma projections_exact_witness :
  ∃ c, run 9 (capacity 4 1 1) witness_board = (Ok c, witness_board) ∧ waiting_event_cases c = 1.
Proof.
  destruct (projections_exact 9 witness_board [(race_item "a-1", 1)] 10 4 1 1
    (conj witness_board_wf eq_refl) witness_board_ok) as [(c & Hc & _ & _ & Hw & _) _]; [vm_compute; discriminate|lia..|].
  exists c. split; [exact Hc|]. rewrite Hw. reflexivity.
Defined.
