(* ===== verification/Proactive.v ===== *)
(** * Proactive proposals and the watchdog

    [uc-types/src/governance/proactive.rs] (proposals, the gate's rules, the
    watchdog's rules), [uc-engine/src/governance/proactive.rs] ([ProactiveGate])
    and [uc-engine/src/governance/watchdog.rs] ([Watchdog]).  Suggested work is
    executed only after a decision that approved it, and recovery from a stall
    is bounded. *)

From Stdlib Require Import String SpecFloat.
From S2P Require Import Prelude RustStr Store Prog Concurrency Protocol Policy.

(** ** Modes and proposals *)

Definition PROACTIVE_NAMESPACE : string := "proactive_proposal".
Definition PROACTIVE_AUDIT_NAMESPACE : string := "proactive_audit".
Definition GATE_STATE_NAMESPACE : string := "proactive_gate_state".

Inductive ProactiveMode : Type := ModeOff | ModeObserve | ModePropose | ModeExecute.
#[export] Instance ProactiveMode_eq_dec : EqDecision ProactiveMode.
Proof. solve_decision. Defined.

Definition ProactiveMode_as_str (m : ProactiveMode) : string :=
  match m with
  | ModeOff => "off" | ModeObserve => "observe" | ModePropose => "propose"
  | ModeExecute => "execute"
  end.

Definition ProactiveMode_from_str_lossy (value : string) : option ProactiveMode :=
  let v := to_ascii_lowercase (trim value) in
  if (v ==? "off") || (v ==? "disabled") || (v ==? "") then Some ModeOff
  else if v ==? "observe" then Some ModeObserve
  else if v ==? "propose" then Some ModePropose
  else if v ==? "execute" then Some ModeExecute
  else None.

Definition evaluates (m : ProactiveMode) : bool := m !=? ModeOff.
Definition allows_proposal (m : ProactiveMode) : bool :=
  match m with ModePropose | ModeExecute => true | _ => false end.
Definition allows_execution (m : ProactiveMode) : bool := m ==? ModeExecute.

Inductive ProposalKind : Type :=
| DiscoveredFollowup | UnblockStalled | FixFailingCi | MaintenanceDebt | InvestigateAlert
| ProposalReplan.

Definition ProposalKind_as_str (k : ProposalKind) : string :=
  match k with
  | DiscoveredFollowup => "discovered_followup"
  | UnblockStalled => "unblock_stalled"
  | FixFailingCi => "fix_failing_ci"
  | MaintenanceDebt => "maintenance_debt"
  | InvestigateAlert => "investigate_alert"
  | ProposalReplan => "replan"
  end.

Inductive ProposalStatus : Type :=
| Observed | Proposed | ProposalApproved | ProposalRejected | Executed | ProposalExpired
| ProposalFailed.
#[export] Instance ProposalStatus_eq_dec : EqDecision ProposalStatus.
Proof. solve_decision. Defined.

Definition ProposalStatus_as_str (s : ProposalStatus) : string :=
  match s with
  | Observed => "observed"
  | Proposed => "proposed"
  | ProposalApproved => "approved"
  | ProposalRejected => "rejected"
  | Executed => "executed"
  | ProposalExpired => "expired"
  | ProposalFailed => "failed"
  end.

Definition ProposalStatus_is_terminal (s : ProposalStatus) : bool :=
  match s with
  | ProposalRejected | Executed | ProposalExpired | ProposalFailed => true
  | _ => false
  end.
Definition ProposalStatus_is_open (s : ProposalStatus) : bool :=
  match s with Proposed | ProposalApproved => true | _ => false end.

Inductive ProposalDecision : Type :=
| DecisionApprove (by_ : string)
| DecisionReject (by_ reason : string).

Record ProactiveProposal : Type := mkProposal {
  proposal_id : string;
  proposal_case_id : option string;
  proposal_kind : ProposalKind;
  proposal_title : string;
  rationale : string;
  confidence : spec_float;
  evidence : list string;
  proposed_request : option string;
  proposal_project_id : option string;
  estimated_tokens : option Z;
  mode_at_creation : ProactiveMode;
  proposal_status : ProposalStatus;
  proposal_created_at : Instant;
  proposal_decided_at : option Instant;
  proposal_decided_by : option string;
  executed_case_id : option string;
  proposal_version : Z
}.

Definition ProactiveProposal_new (fresh_id : string) (kind : ProposalKind) (title why : string)
    (mode : ProactiveMode) (now : Instant) : ProactiveProposal :=
  mkProposal fresh_id None kind title why (S754_zero false) [] None None None mode
    (if allows_proposal mode then Proposed else Observed) now None None None 0.

Definition with_evidence (p : ProactiveProposal) (ev : list string) : ProactiveProposal :=
  mkProposal (proposal_id p) (proposal_case_id p) (proposal_kind p) (proposal_title p)
    (rationale p) (confidence p) ev (proposed_request p) (proposal_project_id p)
    (estimated_tokens p) (mode_at_creation p) (proposal_status p) (proposal_created_at p)
    (proposal_decided_at p) (proposal_decided_by p) (executed_case_id p) (proposal_version p).

(** [f32::clamp]: a NaN stays a NaN. *)
Definition float_clamp (x lo hi : spec_float) : spec_float :=
  if SFltb x lo then lo else if SFltb hi x then hi else x.
Definition f32_one : spec_float := S754_finite false 8388608 (-23).

Definition with_confidence (p : ProactiveProposal) (c : spec_float) : ProactiveProposal :=
  mkProposal (proposal_id p) (proposal_case_id p) (proposal_kind p) (proposal_title p)
    (rationale p) (float_clamp c (S754_zero false) f32_one) (evidence p) (proposed_request p)
    (proposal_project_id p) (estimated_tokens p) (mode_at_creation p) (proposal_status p)
    (proposal_created_at p) (proposal_decided_at p) (proposal_decided_by p) (executed_case_id p)
    (proposal_version p).

Definition with_request (p : ProactiveProposal) (project request : string) : ProactiveProposal :=
  mkProposal (proposal_id p) (proposal_case_id p) (proposal_kind p) (proposal_title p)
    (rationale p) (confidence p) (evidence p) (Some request) (Some project) (estimated_tokens p)
    (mode_at_creation p) (proposal_status p) (proposal_created_at p) (proposal_decided_at p)
    (proposal_decided_by p) (executed_case_id p) (proposal_version p).

Definition with_estimate (p : ProactiveProposal) (tokens : Z) : ProactiveProposal :=
  mkProposal (proposal_id p) (proposal_case_id p) (proposal_kind p) (proposal_title p)
    (rationale p) (confidence p) (evidence p) (proposed_request p) (proposal_project_id p)
    (Some tokens) (mode_at_creation p) (proposal_status p) (proposal_created_at p)
    (proposal_decided_at p) (proposal_decided_by p) (executed_case_id p) (proposal_version p).

(** The fields the transitions assign. *)
Definition proposal_set (p : ProactiveProposal) (st : ProposalStatus) (at_ : option Instant)
    (by_ executed : option string) : ProactiveProposal :=
  mkProposal (proposal_id p) (proposal_case_id p) (proposal_kind p) (proposal_title p)
    (rationale p) (confidence p) (evidence p) (proposed_request p) (proposal_project_id p)
    (estimated_tokens p) (mode_at_creation p) st (proposal_created_at p) at_ by_ executed
    (proposal_version p).

Inductive ProposalError : Type := NotActionable (s : ProposalStatus).

Definition apply_decision (p : ProactiveProposal) (d : ProposalDecision) (now : Instant)
    : result ProactiveProposal ProposalError :=
  if proposal_status p !=? Proposed then Err (NotActionable (proposal_status p))
  else match d with
       | DecisionApprove by_ =>
           Ok (proposal_set p ProposalApproved (Some now) (Some by_) (executed_case_id p))
       | DecisionReject by_ reason =>
           Ok (proposal_set p ProposalRejected (Some now) (Some (by_ +:+ ":" +:+ reason))
                 (executed_case_id p))
       end.

Definition mark_executed (p : ProactiveProposal) (case : string) (now : Instant)
    : result ProactiveProposal ProposalError :=
  if proposal_status p !=? ProposalApproved then Err (NotActionable (proposal_status p))
  else Ok (proposal_set p Executed (Some now) (proposal_decided_by p) (Some case)).

(** ** The gate's rules *)

Record ProactiveGateState : Type := mkGateState {
  gate_mode : ProactiveMode;
  max_open_proposals : Z;
  max_tokens_per_action : option Z;
  always_require_approval : bool
}.

Definition default_max_open : Z := 5.
Definition ProactiveGateState_default : ProactiveGateState :=
  mkGateState ModeOff default_max_open None false.

Definition disallows (s : ProactiveGateState) (action : string) : PolicyDecision :=
  Deny (ProactiveModeDisallows (ProactiveMode_as_str (gate_mode s)) action).

Definition admit_proposal (s : ProactiveGateState) (p : ProactiveProposal) (open : Z)
    : PolicyDecision :=
  if negb (evaluates (gate_mode s)) then disallows s "evaluate"
  else if evidence p ==? [] then disallows s "propose_without_evidence"
  else if max_open_proposals s <=? open then
    Deny (BudgetExhausted ("open proactive proposals at capacity (" +:+ pretty open +:+ "/" +:+
                           pretty (max_open_proposals s) +:+ ")"))
  else Allow.

Definition admit_execution (s : ProactiveGateState) (p : ProactiveProposal) : PolicyDecision :=
  if always_require_approval s && (proposal_status p !=? ProposalApproved) then
    disallows s "execution_requires_approval"
  else if negb (allows_execution (gate_mode s)) then disallows s "execute"
  else if proposal_status p !=? ProposalApproved then
    disallows s ("status_" +:+ ProposalStatus_as_str (proposal_status p))
  else match max_tokens_per_action s, estimated_tokens p with
       | Some limit, Some estimate =>
           if limit <? estimate then
             Deny (BudgetExhausted ("proposal estimates " +:+ pretty estimate +:+
                                    " tokens, limit is " +:+ pretty limit))
           else Allow
       | _, _ => Allow
       end.

(** ** The audit trail *)

Record ProactiveAuditEntry : Type := mkAudit {
  audit_at : Instant;
  audit_mode : ProactiveMode;
  audit_action : string;
  audit_proposal_id : option string;
  audit_case_id : option string;
  audit_allowed : bool;
  audit_reason : option string;
  audit_detail : option string
}.

Definition ProactiveAuditEntry_new (at_ : Instant) (mode : ProactiveMode) (action : string)
    (allowed : bool) : ProactiveAuditEntry :=
  mkAudit at_ mode action None None allowed None None.

Definition for_proposal (a : ProactiveAuditEntry) (i : string) : ProactiveAuditEntry :=
  mkAudit (audit_at a) (audit_mode a) (audit_action a) (Some i) (audit_case_id a)
    (audit_allowed a) (audit_reason a) (audit_detail a).
Definition for_case (a : ProactiveAuditEntry) (c : string) : ProactiveAuditEntry :=
  mkAudit (audit_at a) (audit_mode a) (audit_action a) (audit_proposal_id a) (Some c)
    (audit_allowed a) (audit_reason a) (audit_detail a).

(** The [Debug] rendering of a reason. *)
Class DenyReasonDebug := { deny_reason_debug : DenyReason → string }.

Definition from_decision `{DenyReasonDebug} (at_ : Instant) (mode : ProactiveMode)
    (action : string) (d : PolicyDecision) : ProactiveAuditEntry :=
  mkAudit at_ mode action None None (is_allowed d) (DenyReason_code <$> deny_reason d)
    (deny_reason_debug <$> deny_reason d).

Definition audit_key (now : Instant) (i : string) : string :=
  pretty (timestamp_micros now) +:+ ":" +:+ i.

(** ** The gate *)

Inductive ProactiveGateError : Type :=
| GateStoreFailed (e : RecordError)
| ProposalNotFound (proposal_id : string)
| ProposalNotActionable (proposal_id status : string)
| GateContended.

Record Admission : Type := mkAdmission {
  admission_allowed : bool;
  admission_code : option string;
  admission_detail : option string
}.
Definition Admission_allowed : Admission := mkAdmission true None None.
Definition Admission_denied (code detail : string) : Admission :=
  mkAdmission false (Some code) (Some detail).

(** [mode: Arc<RwLock<ProactiveGateState>>]; [None] when the lock is poisoned. *)
Definition ProactiveGate : Type := option ProactiveGateState.
Definition ProactiveGate_new : ProactiveGate := Some ProactiveGateState_default.
Definition gate_state (g : ProactiveGate) : ProactiveGateState :=
  default ProactiveGateState_default g.
Definition gate_install (g : ProactiveGate) (s : ProactiveGateState) : ProactiveGate :=
  match g with Some _ => Some s | None => None end.

(** [set_mode]'s new state. *)
Definition retuned (s : ProactiveGateState) (mode : ProactiveMode) (max_open max_tokens : option Z)
    (require : option bool) : ProactiveGateState :=
  mkGateState mode
    match max_open with Some v => Z.max v 1 | None => max_open_proposals s end
    match max_tokens with Some v => Some v | None => max_tokens_per_action s end
    match require with Some v => v | None => always_require_approval s end.

Section Gate.
Context {Value : Type} {Sdp : Serde Value ProactiveProposal} {Sda : Serde Value ProactiveAuditEntry}
        {Sdg : Serde Value ProactiveGateState} `{DenyReasonDebug}.
Notation prog := (prog Value).

Definition ProactiveGate_load_persisted (g : ProactiveGate)
    : prog (result ProactiveGateState ProactiveGateError * ProactiveGate) :=
  let! r := ns_get GATE_STATE_NAMESPACE "current" in
  Ret match r with
      | Err e => (Err (GateStoreFailed e), g)
      | Ok (Some (s, _)) => (Ok s, gate_install g s)
      | Ok None => (Ok (gate_state g), g)
      end.

Definition set_mode (g : ProactiveGate) (mode : ProactiveMode) (max_open max_tokens : option Z)
    (require : option bool)
    : prog (result ProactiveGateState ProactiveGateError * ProactiveGate) :=
  let s := retuned (gate_state g) mode max_open max_tokens require in
  let! w := ns_put GATE_STATE_NAMESPACE "current" s None in
  Ret match w with
      | Err e => (Err (GateStoreFailed e), g)
      | Ok _ => (Ok s, gate_install g s)
      end.

Definition denied_admission (d : PolicyDecision) : Admission :=
  Admission_denied (default "denied" (deny_code d))
    (default "" (deny_reason_debug <$> deny_reason d)).

(** The form a denied proposal is kept in. *)
Definition denied_form (s : ProactiveGateState) (p : ProactiveProposal) : ProactiveProposal :=
  if (proposal_status p ==? Proposed) && negb (allows_proposal (gate_mode s)) &&
     evaluates (gate_mode s)
  then proposal_set p Observed (proposal_decided_at p) (proposal_decided_by p) (executed_case_id p)
  else p.

Definition submit (g : ProactiveGate) (p : ProactiveProposal) (open : Z) (now : Instant)
    : prog (result (Admission * ProactiveProposal) ProactiveGateError) :=
  let s := gate_state g in
  let d := admit_proposal s p open in
  let audit := for_proposal (from_decision now (gate_mode s) "admit_proposal" d) (proposal_id p) in
  let audit := match proposal_case_id p with Some c => for_case audit c | None => audit end in
  let! _ := ns_put PROACTIVE_AUDIT_NAMESPACE (audit_key now (proposal_id p)) audit None in
  if is_denied d then
    let p' := denied_form s p in
    if evaluates (gate_mode s) then
      let! _ := ns_put PROACTIVE_NAMESPACE (proposal_id p') p' None in
      Ret (Ok (denied_admission d, p'))
    else Ret (Ok (denied_admission d, p'))
  else
    let! w := ns_put PROACTIVE_NAMESPACE (proposal_id p) p (Some 0) in
    Ret match w with
        | Ok _ => Ok (Admission_allowed, p)
        | Err e => Err (GateStoreFailed e)
        end.

Definition ProactiveGate_admit_execution (g : ProactiveGate) (i : string) (now : Instant)
    : prog (result (Admission * option ProactiveProposal) ProactiveGateError) :=
  let! r := ns_get PROACTIVE_NAMESPACE i in
  match r with
  | Err e => Ret (Err (GateStoreFailed e))
  | Ok None => Ret (Ok (Admission_denied "proposal_not_found" i, None))
  | Ok (Some (p, _)) =>
      let s := gate_state g in
      let d := admit_execution s p in
      let audit := for_proposal (from_decision now (gate_mode s) "admit_execution" d)
                     (proposal_id p) in
      let! _ := ns_put PROACTIVE_AUDIT_NAMESPACE (audit_key now (proposal_id p)) audit None in
      Ret (Ok (if is_denied d then denied_admission d else Admission_allowed, Some p))
  end.

Definition ProactiveGate_get (i : string)
    : prog (result (option ProactiveProposal) ProactiveGateError) :=
  let! r := ns_get PROACTIVE_NAMESPACE i in
  Ret match r with
      | Err e => Err (GateStoreFailed e)
      | Ok o => Ok (fst <$> (o : option (ProactiveProposal * Z)))
      end.

(** [sort_by_key(Reverse(created_at))]: stable, newest first. *)
Definition newest_proposal (a b : ProactiveProposal) : bool :=
  proposal_created_at b <=? proposal_created_at a.

Definition ProactiveGate_list (status : option ProposalStatus) (case : option string) (limit : nat)
    : prog (result (list ProactiveProposal) ProactiveGateError) :=
  let! l := ns_list PROACTIVE_NAMESPACE limit in
  Ret match l with
      | Err e => Err (GateStoreFailed e)
      | Ok l => Ok (sort_by newest_proposal (filterb (λ p,
          match status with Some s => proposal_status p ==? s | None => true end &&
          match case with Some c => proposal_case_id p ==? Some c | None => true end) (l.*1)))
      end.

Definition open_count : prog (result Z ProactiveGateError) :=
  let! l := ProactiveGate_list None None 1000 in
  Ret match l with
      | Err e => Err e
      | Ok l => Ok (Z.of_nat (length (filterb (λ p, ProposalStatus_is_open (proposal_status p)) l)))
      end.

(** The loops of [decide] and [mark_executed] differ in the change they make. *)
Definition change_proposal (i : string)
    (change : ProactiveProposal → result ProactiveProposal ProposalError)
    : prog (result ProactiveProposal ProactiveGateError) :=
  cas_loop 8 PROACTIVE_NAMESPACE i (Err (ProposalNotFound i))
    (λ p _, match change p with
            | Ok p' => Write p' (Ok p')
            | Err (NotActionable s) =>
                Answer (Err (ProposalNotActionable i (ProposalStatus_as_str s)))
            end)
    (λ e, Err (GateStoreFailed e)) (Err GateContended).

Definition is_approve (d : ProposalDecision) : bool :=
  match d with DecisionApprove _ => true | DecisionReject _ _ => false end.

(** The audit row is written after the round that won. *)
Definition ProactiveGate_decide (g : ProactiveGate) (i : string) (d : ProposalDecision)
    (now : Instant) : prog (result ProactiveProposal ProactiveGateError) :=
  let! r := change_proposal i (λ p, apply_decision p d now) in
  match r with
  | Err e => Ret (Err e)
  | Ok p =>
      let entry := for_proposal
        (ProactiveAuditEntry_new now (gate_mode (gate_state g)) "decision" (is_approve d)) i in
      let! _ := ns_put PROACTIVE_AUDIT_NAMESPACE (audit_key now i) entry None in
      Ret (Ok p)
  end.

Definition ProactiveGate_mark_executed (i case : string) (now : Instant)
    : prog (result ProactiveProposal ProactiveGateError) :=
  change_proposal i (λ p, mark_executed p case now).

Definition record_audit (entry : ProactiveAuditEntry) (now : Instant)
    : prog (result unit ProactiveGateError) :=
  let key := pretty (timestamp_micros now) +:+ ":" +:+
             default "none" (audit_proposal_id entry) +:+ ":" +:+ audit_action entry in
  let! w := ns_put PROACTIVE_AUDIT_NAMESPACE key entry None in
  Ret match w with Ok _ => Ok tt | Err e => Err (GateStoreFailed e) end.

Definition newest_audit (a b : ProactiveAuditEntry) : bool := audit_at b <=? audit_at a.

Definition audit (i case : option string) (limit : nat)
    : prog (result (list ProactiveAuditEntry) ProactiveGateError) :=
  let! l := ns_list PROACTIVE_AUDIT_NAMESPACE (Nat.max (limit * 4) 50) in
  Ret match l with
      | Err e => Err (GateStoreFailed e)
      | Ok l => Ok (take limit (sort_by newest_audit (filterb (λ a,
          match i with Some i => audit_proposal_id a ==? Some i | None => true end &&
          match case with Some c => audit_case_id a ==? Some c | None => true end) (l.*1))))
      end.
End Gate.

(** ** The watchdog *)

Record WatchdogSignal : Type := mkSignal {
  signal_task_id : string;
  signal_subtask_id : option string;
  no_progress_count : Z;
  evidence_signature : option string;
  last_error : option string;
  confirmed_effect_ids : list string;
  attempts_used : Z;
  replans_used : Z
}.

Definition WatchdogSignal_new (task : string) : WatchdogSignal :=
  mkSignal task None 0 None None [] 0 0.

Record WatchdogConfig : Type := mkWatchdogConfig {
  stall_limit : Z;
  max_replans : Z;
  watchdog_max_attempts : Z;
  base_backoff_ms : Z;
  max_backoff_ms : Z
}.

Definition WatchdogConfig_default : WatchdogConfig := mkWatchdogConfig 2 2 5 1000 60000.

Inductive WatchdogVerdict : Type :=
| Continue
| RetrySameContract (delay_ms : Z)
| Replan (attempt delay_ms : Z) (preserve : list string)
| EscalateNeedsHuman (reason : string)
| Stop (reason : string).

Record WatchdogDecision : Type := mkWatchdogDecision {
  verdict : WatchdogVerdict;
  replans_remaining : Z;
  attempts_remaining : Z
}.

(** [signal.replans_used + 1] on [u32] (it panics in a debug build and wraps in a
    release build when it overflows). *)
Definition next_replan (s : WatchdogSignal) : Z := (replans_used s + 1) `mod` 2 ^ 32.

Definition replan_delay (c : WatchdogConfig) (attempt : Z) : Z :=
  Z.min (u64_saturating_mul (base_backoff_ms c)
           (Z.shiftl 1 (Z.min (saturating_sub attempt 1) 16)))
        (max_backoff_ms c).

Definition WatchdogConfig_decide (c : WatchdogConfig) (s : WatchdogSignal) : WatchdogDecision :=
  let replans := saturating_sub (max_replans c) (replans_used s) in
  let attempts := saturating_sub (watchdog_max_attempts c) (attempts_used s) in
  if watchdog_max_attempts c <=? attempts_used s then
    mkWatchdogDecision
      (Stop ("attempt budget exhausted (" +:+ pretty (attempts_used s) +:+ "/" +:+
             pretty (watchdog_max_attempts c) +:+ ")")) replans 0
  else if no_progress_count s <? stall_limit c then mkWatchdogDecision Continue replans attempts
  else if replans =? 0 then
    mkWatchdogDecision
      (EscalateNeedsHuman ("stalled for " +:+ pretty (no_progress_count s) +:+
         " attempts and the replan budget is exhausted")) replans attempts
  else
    let attempt := next_replan s in
    mkWatchdogDecision (Replan attempt (replan_delay c attempt) (confirmed_effect_ids s))
      replans attempts.

Definition decide_with_retry (c : WatchdogConfig) (s : WatchdogSignal) (already_retried : bool)
    : WatchdogDecision :=
  if (stall_limit c <=? no_progress_count s) && negb already_retried &&
     (attempts_used s <? watchdog_max_attempts c) && (replans_used s <? max_replans c) then
    mkWatchdogDecision (RetrySameContract (base_backoff_ms c))
      (saturating_sub (max_replans c) (replans_used s))
      (saturating_sub (watchdog_max_attempts c) (attempts_used s))
  else WatchdogConfig_decide c s.

Definition WATCHDOG_NAMESPACE : string := "watchdog_decision".

Inductive WatchdogError : Type := WatchdogStoreFailed (e : RecordError).

Record WatchdogRecord : Type := mkWatchdogRecord {
  watchdog_task_id : string;
  watchdog_subtask_id : option string;
  watchdog_verdict : string;
  watchdog_reason : string;
  watchdog_no_progress : Z;
  watchdog_replans_used : Z;
  watchdog_attempts_used : Z;
  watchdog_preserve : list string;
  watchdog_at : Instant
}.

Definition verdict_token (v : WatchdogVerdict) : string :=
  match v with
  | Continue => "continue"
  | RetrySameContract _ => "retry_same_contract"
  | Replan _ _ _ => "replan"
  | EscalateNeedsHuman _ => "escalate_needs_human"
  | Stop _ => "stop"
  end.

Definition verdict_reason (v : WatchdogVerdict) : string :=
  match v with
  | Continue => "progress within budget"
  | RetrySameContract delay => "stalled: retry the same contract after " +:+ pretty delay +:+ "ms"
  | Replan attempt _ preserve =>
      "stalled: bounded replan attempt " +:+ pretty attempt +:+ ", preserving " +:+
      pretty (length preserve) +:+ " confirmed effect(s)"
  | EscalateNeedsHuman reason => reason
  | Stop reason => reason
  end.

Definition preserve_effects (v : WatchdogVerdict) : list string :=
  match v with Replan _ _ preserve => preserve | _ => [] end.

Definition newest_record (a b : WatchdogRecord) : bool := watchdog_at b <=? watchdog_at a.

Section Watchdog.
Context {Value : Type} {Sd : Serde Value WatchdogRecord}.
Notation prog := (prog Value).

Definition watchdog_record (s : WatchdogSignal) (d : WatchdogDecision) (now : Instant)
    : WatchdogRecord :=
  mkWatchdogRecord (signal_task_id s) (signal_subtask_id s) (verdict_token (verdict d))
    (verdict_reason (verdict d)) (no_progress_count s) (replans_used s) (attempts_used s)
    (preserve_effects (verdict d)) now.

Definition Watchdog_decide (c : WatchdogConfig) (s : WatchdogSignal) (already_retried : bool)
    (now : Instant) : prog (result WatchdogDecision WatchdogError) :=
  let d := decide_with_retry c s already_retried in
  let key := signal_task_id s +:+ ":" +:+ pretty (timestamp_millis now) in
  let! _ := ns_put WATCHDOG_NAMESPACE key (watchdog_record s d now) None in
  Ret (Ok d).

Definition Watchdog_history (task : string) (limit : nat)
    : prog (result (list WatchdogRecord) WatchdogError) :=
  let! l := ns_list WATCHDOG_NAMESPACE 1000 in
  Ret match l with
      | Err e => Err (WatchdogStoreFailed e)
      | Ok l => Ok (take limit (sort_by newest_record
                     (filterb (λ r, watchdog_task_id r ==? task) (l.*1))))
      end.

Definition Watchdog_list (limit : nat) : prog (result (list WatchdogRecord) WatchdogError) :=
  let! l := ns_list WATCHDOG_NAMESPACE limit in
  Ret match l with
      | Err e => Err (WatchdogStoreFailed e)
      | Ok l => Ok ((l : list (WatchdogRecord * Z)).*1)
      end.
End Watchdog.

(** ** The protocol of proposals *)

(** A proposal as the evaluator submits it. *)
Definition proposal_fresh (p : ProactiveProposal) : Prop :=
  proposal_status p = Proposed ∨ proposal_status p = Observed.

(** A denied submission replaces whatever is under its id. *)
Inductive proposal_move : ProactiveProposal → ProactiveProposal → Prop :=
| move_decide p d now p' : apply_decision p d now = Ok p' → proposal_move p p'
| move_execute p case now p' : mark_executed p case now = Ok p' → proposal_move p p'
| move_resubmit p p' : proposal_fresh p' → proposal_move p p'.

Lemma apply_decision_Ok p d now p' :
  apply_decision p d now = Ok p' →
  proposal_status p = Proposed ∧ proposal_id p' = proposal_id p ∧
  (proposal_status p' = ProposalApproved → ∃ by_, d = DecisionApprove by_ ∧
     proposal_decided_by p' = Some by_) ∧
  proposal_status p' ≠ Executed.
Proof.
  unfold apply_decision. case_bool_decide; simpl; [|done]. intros Hd.
  destruct d as [by_|by_ reason]; simplify_eq/=; split_and!; try done. by exists by_.
Qed.

Lemma mark_executed_Ok p case now p' :
  mark_executed p case now = Ok p' →
  proposal_status p = ProposalApproved ∧ proposal_id p' = proposal_id p ∧
  proposal_status p' = Executed ∧ proposal_decided_by p' = proposal_decided_by p ∧
  executed_case_id p' = Some case.
Proof.
  unfold mark_executed. case_bool_decide; simpl; [|done]. by intros [= <-].
Qed.

Lemma executed_from_approved p p' :
  proposal_move p p' → proposal_status p' = Executed →
  proposal_status p = ProposalApproved ∧ proposal_decided_by p' = proposal_decided_by p.
Proof.
  destruct 1 as [p d now p' Hd|p case now p' Hd|p p' Hf]; intros Hs.
  - apply apply_decision_Ok in Hd as (_ & _ & _ & Hne). done.
  - by apply mark_executed_Ok in Hd as (? & _ & _ & ? & _).
  - by destruct Hf; congruence.
Qed.

Lemma approved_from_proposed p p' :
  proposal_move p p' → proposal_status p' = ProposalApproved →
  proposal_status p = Proposed ∧ is_Some (proposal_decided_by p').
Proof.
  destruct 1 as [p d now p' Hd|p case now p' Hd|p p' Hf]; intros Hs.
  - apply apply_decision_Ok in Hd as (? & _ & Hby & _). destruct (Hby Hs) as (by_ & _ & ->). eauto.
  - apply mark_executed_Ok in Hd as (_ & _ & Hs' & _). congruence.
  - by destruct Hf; congruence.
Qed.

Lemma denied_form_fresh s p :
  proposal_fresh p → proposal_fresh (denied_form s p) ∧
  proposal_id (denied_form s p) = proposal_id p.
Proof.
  unfold denied_form. destruct (_ && _); [|done]. intros _. split; [by right|done].
Qed.

Inductive proposal_call : Type :=
| CallSubmit (g : ProactiveGate) (p : ProactiveProposal) (open : Z) (now : Instant)
| CallDecideProposal (g : ProactiveGate) (i : string) (d : ProposalDecision) (now : Instant)
| CallExecute (i case : string) (now : Instant)
| CallAdmitExecution (g : ProactiveGate) (i : string) (now : Instant).

Definition submits_fresh (c : proposal_call) : Prop :=
  match c with CallSubmit _ p _ _ => proposal_fresh p | _ => True end.

Section Pool.
Context {S Value : Type} {St : RecordStore S Value} {StOk : RecordStoreOk S Value}
        {Sdp : Serde Value ProactiveProposal} {SdpOk : SerdeOk Value ProactiveProposal}
        {Sda : Serde Value ProactiveAuditEntry} `{DenyReasonDebug}.

(** An execution returns the proposal it executed. *)
Definition run_proposal_call (c : proposal_call) : prog Value (option ProactiveProposal) :=
  match c with
  | CallSubmit g p open now => let! _ := submit g p open now in Ret None
  | CallDecideProposal g i d now => let! _ := ProactiveGate_decide g i d now in Ret None
  | CallExecute i case now =>
      let! r := ProactiveGate_mark_executed i case now in
      Ret match r with Ok p => Some p | Err _ => None end
  | CallAdmitExecution g i now => let! _ := ProactiveGate_admit_execution g i now in Ret None
  end.

Notation owned := (proto_owned PROACTIVE_NAMESPACE).
Notation allowed := (proto_allowed PROACTIVE_NAMESPACE proposal_id proposal_fresh proposal_move).
Notation interfere := (interfere owned allowed).
Notation wp := (wp owned allowed).
Notation pdocs := (docs PROACTIVE_NAMESPACE proposal_id).
Notation pdecodes := (decodes (T:=ProactiveProposal) PROACTIVE_NAMESPACE).

(** The thread wrote the executed proposal it returns. *)
Definition executed_by (i : nat) (o : option ProactiveProposal) (σ : astate Value) : Prop :=
  match o with
  | None => True
  | Some p => proposal_status p = Executed ∧
      ∃ e, e ∈ σ.2 ∧ ev_thread e = i ∧ event_at PROACTIVE_NAMESPACE (proposal_id p) e ∧
           from_value (ev_new e) = Ok p
  end.

Lemma executed_by_rtc i o σ σ' : rtc interfere σ σ' → executed_by i o σ → executed_by i o σ'.
Proof.
  intros Hr. destruct o as [p|]; [|done]. intros (Hs & e & He & ?). split; [done|].
  exists e. split; [by eapply logged_rtc|done].
Qed.

Lemma wp_audit i key (a : ProactiveAuditEntry) Q σ :
  (∀ r σ', rtc interfere σ σ' → Q r σ') →
  wp i (ns_put PROACTIVE_AUDIT_NAMESPACE key a None) Q σ.
Proof. intros HQ. by apply wp_put_foreign. Qed.

Lemma wp_submit i g p open now σ :
  pdocs (λ _, True) σ → pdecodes σ → proposal_fresh p →
  wp i (submit g p open now) (λ _ _, True) σ.
Proof.
  intros Hd Hdec Hp. unfold submit. cbv zeta. eapply wp_bind, wp_audit. intros _ σ1 Hr1.
  destruct (denied_form_fresh (gate_state g) p Hp) as [Hp' Hid].
  destruct (is_denied _).
  - destruct (evaluates _); [|by apply wp_ret].
    eapply wp_bind, wp_overwrite; [exact _| |done|done| |].
    + by eapply decodes_rtc.
    + intros x. by apply move_resubmit.
    + intros. by apply wp_ret.
  - eapply wp_bind, wp_create; [exact _|by eapply docs_true|done|done| |]; intros; by apply wp_ret.
Qed.

(** A change that is a move of the protocol follows it. *)
Lemma wp_change_proposal i k change σ :
  pdocs (λ _, True) σ →
  (∀ p p', change p = Ok p' → proposal_move p p' ∧ proposal_id p' = proposal_id p) →
  wp i (change_proposal k change)
    (λ r σ', match r with
             | Ok p' => (∃ p, change p = Ok p') ∧
                 ∃ e, e ∈ σ'.2 ∧ ev_thread e = i ∧
                      event_at PROACTIVE_NAMESPACE (proposal_id p') e ∧ from_value (ev_new e) = Ok p'
             | Err _ => True
             end) σ.
Proof.
  intros Hd Hch.
  assert (∀ σ' v val x, rtc interfere σ σ' → σ'.1 !! (PROACTIVE_NAMESPACE, k) = Some (v, val) →
    from_value val = Ok x → proposal_id x = k) as Hkey.
  { intros σ' v val x Hr Hl Hx. eapply docs_true in Hr; [|done].
    destruct (Hr _ _ _ Hl) as [_ Hk]. by apply Hk. }
  apply wp_cas_loop; try done.
  - intros σ' v val x x' a val' Hr Hl Hx Hb Hv' _.
    destruct (change x) as [p'|[st]] eqn:E; simplify_eq. apply Hch in E as [Hm Hid].
    exists x'. split_and!; [by apply from_to_value|by rewrite Hid; eapply Hkey|by exists x].
  - intros v val x a σr σ' _ _ _ _ Hb. by destruct (change x) as [|[]]; simplify_eq.
  - intros v val x x' a val' σr σw σ' Hr Hl Hx Hb Hv' Hrw Hw He Hr'.
    destruct (change x) as [p'|[st]] eqn:E; simplify_eq. split; [by exists x|].
    apply Hch in E as [Hm Hid]. eexists. split; [eapply logged_rtc; [exact He|done]|].
    split_and!; [done| |by apply from_to_value]. unfold event_at. simpl. f_equal.
    rewrite Hid. symmetry. by eapply Hkey.
Qed.

Lemma wp_proposal_call i c σ :
  pdocs (λ _, True) σ → pdecodes σ → submits_fresh c →
  wp i (run_proposal_call c) (executed_by i) σ.
Proof.
  intros Hd Hdec Hf. destruct c as [g p open now|g k d now|k case now|g k now];
    cbn [run_proposal_call]; apply wp_bind.
  - eapply wp_mono; [|by apply wp_submit]. intros. by apply wp_ret.
  - apply wp_bind. eapply wp_mono; [|apply wp_change_proposal; [done|]].
    + intros [p|err] σ' _; [|apply wp_ret; intros; by apply wp_ret].
      eapply wp_bind, wp_audit. intros. apply wp_ret. intros. by apply wp_ret.
    + intros p p' Hp. split; [by eapply move_decide|]. by apply apply_decision_Ok in Hp as (_ & ? & _).
  - eapply wp_mono; [|apply wp_change_proposal; [done|]].
    + intros [p|err] σ' Hp; apply wp_ret; intros σ'' Hr; [|done].
      apply (executed_by_rtc i (Some p) σ'); [done|]. destruct Hp as [[q Hq] He]. split; [|done].
      by apply mark_executed_Ok in Hq as (_ & _ & ? & _).
    + intros p p' Hp. split; [by eapply move_execute|]. by apply mark_executed_Ok in Hp as (_ & ? & _).
  - eapply wp_bind, wp_doc_get; [done| | |].
    + intros. eapply wp_bind, wp_audit. intros. apply wp_ret. intros. by apply wp_ret.
    + intros. apply wp_ret. intros. by apply wp_ret.
    + intros. apply wp_ret. intros. by apply wp_ret.
Qed.

Lemma run_change_proposal t s k change v val p p' :
  ready s → contents s !! (PROACTIVE_NAMESPACE, k) = Some (v, val) → from_value val = Ok p →
  v < i64_max → change p = Ok p' →
  ∃ s', run t (change_proposal k change) s = (Ok p', s').
Proof.
  intros Hs Hl Hp Hv Hch.
  pose proof (run_cas_loop t s 7 PROACTIVE_NAMESPACE k v val p (Err (ProposalNotFound k))
    (λ q _, match change q with
            | Ok p' => Write p' (Ok p')
            | Err (NotActionable st) =>
                Answer (Err (ProposalNotActionable k (ProposalStatus_as_str st)))
            end) (λ e, Err (GateStoreFailed e)) (Err GateContended) Hs Hl Hp Hv) as Hloop.
  cbv beta in Hloop. rewrite Hch in Hloop. destruct Hloop as (s' & _ & Hrun & _). by exists s'.
Qed.

(** The stored proposals decode and are under their own ids. *)
Definition proposals_ok (s : S) : Prop :=
  ∀ k v val, contents s !! (PROACTIVE_NAMESPACE, k) = Some (v, val) →
    ∃ p, from_value val = Ok p ∧ proposal_id p = k.

Lemma proposal_pool_wp s calls :
  store_wf s → proposals_ok s → Forall submits_fresh calls →
  all_wp owned allowed executed_by (mkConfig s (run_proposal_call <$> calls) []).
Proof.
  intros Hwf Hok Hf. split; [done|]. intros i p Hi. cbn in Hi.
  apply list_lookup_fmap_Some in Hi as (c & -> & Hc). apply wp_proposal_call.
  - intros k v val Hl. split; [by eapply contents_version|]. intros x Hx. split; [|done].
    destruct (Hok _ _ _ Hl) as (q & Hq & <-). congruence.
  - intros k v val Hl. destruct (Hok _ _ _ Hl) as (q & Hq & _). by exists q.
  - apply (proj1 (Forall_forall _ _) Hf). by eapply list_elem_of_lookup_2.
Qed.
End Pool.

(** ** Properties *)

(** The gate's two admissions are exactly their documented conditions.  A
    proposal is admitted exactly when the mode evaluates at all, it carries
    evidence and there is room for another open one; an execution is admitted
    exactly when the mode is execute, the proposal is approved and its estimate,
    if both sides name one, is within the ceiling; and a gate in its initial
    state, or whose lock is poisoned, admits nothing. *)
Theorem gate_admission_exact s p open :
  (admit_proposal s p open = Allow ↔
     gate_mode s ≠ ModeOff ∧ evidence p ≠ [] ∧ open < max_open_proposals s) ∧
  (admit_execution s p = Allow ↔
     gate_mode s = ModeExecute ∧ proposal_status p = ProposalApproved ∧
     ∀ limit estimate, max_tokens_per_action s = Some limit → estimated_tokens p = Some estimate →
       estimate <= limit) ∧
  (∀ g, g = ProactiveGate_new ∨ g = None →
     admit_proposal (gate_state g) p open ≠ Allow ∧ admit_execution (gate_state g) p ≠ Allow).
Proof.
  split_and!.
  - unfold admit_proposal, evaluates, disallows. repeat case_bool_decide; simpl;
      destruct (Z.leb_spec (max_open_proposals s) open); naive_solver lia.
  - unfold admit_execution, allows_execution, disallows.
    destruct (decide (proposal_status p = ProposalApproved)) as [Hs|Hs];
      [rewrite Hs, (bool_decide_eq_true_2 (ProposalApproved = _)) by done
      |rewrite (bool_decide_eq_false_2 (proposal_status p = _)) by done]; cbn [negb].
    + rewrite andb_false_r. destruct (decide (gate_mode s = ModeExecute)) as [Hm|Hm];
        [rewrite Hm, bool_decide_eq_true_2 by done|rewrite bool_decide_eq_false_2 by done]; cbn [negb].
      2: naive_solver.
      destruct (max_tokens_per_action s) as [limit|], (estimated_tokens p) as [estimate|];
        try naive_solver.
      destruct (Z.ltb_spec limit estimate) as [Hlt|Hge]; split; try done.
      * intros (_ & _ & Hle). specialize (Hle limit estimate eq_refl eq_refl). lia.
      * intros _. split_and!; try done. by intros ? ? [= <-] [= <-].
    + rewrite andb_true_r. repeat case_match; naive_solver.
  - intros g [->| ->]; (split; [done|]); by destruct p as [? ? ? ? ? ? ? ? ? ? ? []].
Qed.

Section PoolProperties.
Context {S Value : Type} {St : RecordStore S Value} {StOk : RecordStoreOk S Value}
        {Sdp : Serde Value ProactiveProposal} {SdpOk : SerdeOk Value ProactiveProposal}
        {Sda : Serde Value ProactiveAuditEntry} `{DenyReasonDebug}.

(** C4: nothing is executed that was not approved.  In every interleaving of
    submissions, decisions, execution checks and executions, each write that
    marks a proposal executed replaced an approved one and kept who approved it,
    each write that approves one replaced a proposed one and records who
    decided, and between two executions of the same proposal there is another
    approval: an approval is executed at most once. *)
Theorem executed_was_approved (s : S) calls c' k :
  store_wf s → proposals_ok s → Forall submits_fresh calls →
  rtc (step (proto_owned PROACTIVE_NAMESPACE)) (mkConfig s (run_proposal_call <$> calls) []) c' →
  let h := history PROACTIVE_NAMESPACE k (cfg_log c') in
  (∀ n e x', h !! n = Some e → from_value (ev_new e) = Ok x' →
     (proposal_status x' = Executed → ∃ v val x, ev_old e = Some (v, val) ∧ from_value val = Ok x ∧
        proposal_status x = ProposalApproved ∧ proposal_decided_by x' = proposal_decided_by x) ∧
     (proposal_status x' = ProposalApproved → ∃ v val x, ev_old e = Some (v, val) ∧
        from_value val = Ok x ∧ proposal_status x = Proposed ∧ is_Some (proposal_decided_by x'))) ∧
  (∀ n1 n2 e1 e2 x1 x2, (n1 < n2)%nat → h !! n1 = Some e1 → h !! n2 = Some e2 →
     from_value (ev_new e1) = Ok x1 → from_value (ev_new e2) = Ok x2 →
     proposal_status x1 = Executed → proposal_status x2 = Executed →
     ∃ n e x, (n1 < n < n2)%nat ∧ h !! n = Some e ∧ from_value (ev_new e) = Ok x ∧
              proposal_status x = ProposalApproved) ∧
  (∀ i p, cfg_threads c' !! i = Some (Ret (Some p)) → proposal_id p = k →
     ∃ n e, h !! n = Some e ∧ ev_thread e = i ∧ from_value (ev_new e) = Ok p ∧
            proposal_status p = Executed).
Proof.
  intros Hwf Hok Hf Hsteps h. pose proof (proposal_pool_wp s calls Hwf Hok Hf) as Hall.
  pose proof (steps_interfere _ _ _ _ _ Hall Hsteps) as Hr.
  destruct (linked_rtc PROACTIVE_NAMESPACE proposal_id proposal_fresh proposal_move
    (contents s, []) (astate_of c') eq_refl Hr k) as (Hch & _ & Hmv). cbn [snd astate_of] in Hch, Hmv. fold h in Hch, Hmv.
  assert (∀ n e x', h !! n = Some e → from_value (ev_new e) = Ok x' → proposal_fresh x' ∨
    ∃ v val x, ev_old e = Some (v, val) ∧ from_value val = Ok x ∧ proposal_move x x') as Hw.
  { intros n e x' Hn Hx'. destruct (Hmv n e Hn) as (y & Hy & _ & Hold).
    assert (y = x') as -> by congruence. destruct (ev_old e) as [[v val]|]; [|by left].
    destruct Hold as (x & Hx & Hm). right. by exists v, val, x. }
  assert (∀ n e x', h !! n = Some e → from_value (ev_new e) = Ok x' →
    proposal_status x' = Executed → ∃ v val x, ev_old e = Some (v, val) ∧ from_value val = Ok x ∧
      proposal_status x = ProposalApproved ∧ proposal_decided_by x' = proposal_decided_by x) as Hexec.
  { intros n e x' Hn Hx' Hs. destruct (Hw n e x' Hn Hx') as [[?|?]|(v & val & x & Ho & Hx & Hm)];
      [congruence..|]. exists v, val, x. destruct (executed_from_approved _ _ Hm Hs). by split_and!. }
  split_and!.
  - intros n e x' Hn Hx'. split; [by apply (Hexec n)|]. intros Hs.
    destruct (Hw n e x' Hn Hx') as [[?|?]|(v & val & x & Ho & Hx & Hm)]; [congruence..|].
    exists v, val, x. destruct (approved_from_proposed _ _ Hm Hs). by split_and!.
  - intros n1 n2 e1 e2 x1 x2 Hlt Hn1 Hn2 Hx1 Hx2 Hs1 Hs2.
    destruct (Hexec n2 e2 x2 Hn2 Hx2 Hs2) as (v & val & x & Ho & Hx & Hap & _).
    destruct (reentered PROACTIVE_NAMESPACE (λ p, bool_decide (proposal_status p = ProposalApproved))
      k (cfg_log c') n1 n2 e1 e2 x1 x v val Hch) as (n & e & _ & _ & _ & y & Hb & Hn & _ & _ & _ & Hy & Hp);
      try done.
    + intros n e Hn. destruct (Hmv n e Hn) as (y & Hy & _). by exists y.
    + by rewrite Hs1.
    + by rewrite Hap.
    + exists n, e, y. by apply bool_decide_eq_true in Hp.
  - intros i p Hi Hk. destruct (wp_adequate _ _ _ _ _ Hall Hsteps i _ Hi)
      as (Hs & e & He & Hi' & Hev & Hp). rewrite Hk in Hev.
    assert (e ∈ h) as [n Hn]%list_elem_of_lookup_1 by (by apply history_elem). by exists n, e.
Qed.

(** A refusal of the gate is not final.  In the propose and execute modes a
    proposal that is refused, for want of room or of evidence, is stored all the
    same, as proposed, in place of whatever was under its id, even of a rejected
    or executed one, and an approval of it then succeeds. *)
Theorem denied_proposal_is_actionable t (s : S) g p open now t' by_ now' :
  ready s → allows_proposal (gate_mode (gate_state g)) = true → proposal_status p = Proposed →
  admit_proposal (gate_state g) p open ≠ Allow →
  next_version (contents s !! (PROACTIVE_NAMESPACE, proposal_id p)) < i64_max →
  ∃ a s1 s2, run t (submit g p open now) s = (Ok (a, p), s1) ∧ admission_allowed a = false ∧
    run t' (ProactiveGate_decide g (proposal_id p) (DecisionApprove by_) now') s1 =
      (Ok (proposal_set p ProposalApproved (Some now') (Some by_) (executed_case_id p)), s2).
Proof.
  intros Hs Hm Hp Hd Hv. unfold submit. cbv zeta.
  assert (is_denied (admit_proposal (gate_state g) p open) = true) as Hd'
    by (by destruct (admit_proposal (gate_state g) p open)).
  assert (denied_form (gate_state g) p = p) as Hform
    by (unfold denied_form; by rewrite Hm, andb_false_r).
  assert (evaluates (gate_mode (gate_state g)) = true) as Hev by (by destruct (gate_mode _)).
  rewrite run_bind, Hd', Hform, Hev.
  destruct (run t (ns_put PROACTIVE_AUDIT_NAMESPACE _ _ None) s) as [w s0] eqn:Ea.
  apply run_ns_put_ready in Ea as [Hs0 Hoth]; [|done]. rewrite run_bind.
  rewrite <-(Hoth (PROACTIVE_NAMESPACE, proposal_id p)) in Hv by done.
  destruct (run_ns_put_ok t s0 PROACTIVE_NAMESPACE (proposal_id p) p None Hs0)
    as (r & s1 & val & Hput & Hs1 & Hval & _ & Hc); [done|lia|].
  rewrite Hput. eexists _, s1.
  unfold ProactiveGate_decide.
  destruct (run_change_proposal t' s1 (proposal_id p)
    (λ q, apply_decision q (DecisionApprove by_) now') _ val p
    (proposal_set p ProposalApproved (Some now') (Some by_) (executed_case_id p)) Hs1
    ltac:(by rewrite Hc, lookup_insert_eq) Hval Hv) as (s2 & Hrun).
  { unfold apply_decision. by rewrite Hp. }
  rewrite run_bind, Hrun, run_bind.
  destruct (run t' (ns_put PROACTIVE_AUDIT_NAMESPACE _ _ None) s2) as [w2 s3]. by exists s3.
Qed.
End PoolProperties.

(** Recovery from a stall is bounded.  A replan is ordered only while both
    budgets last and the task has stalled for the configured number of attempts;
    it is numbered within the replan budget (the counter cannot overflow), its
    delay doubles from the base and never exceeds the configured maximum, and it
    carries every effect already confirmed.  With the attempt budget spent the
    verdict is to stop, and a task that stalls with no replans left is escalated
    to a human; a retry of the same contract is offered only under the same two
    budgets and never twice in a row. *)
Theorem watchdog_bounded c s already_retried :
  is_u32 (max_replans c) → is_u32 (watchdog_max_attempts c) → 0 <= replans_used s →
  0 <= attempts_used s → 0 <= base_backoff_ms c → 0 <= max_backoff_ms c <= u64_max →
  let d := decide_with_retry c s already_retried in
  match verdict d with
  | Continue => attempts_used s < watchdog_max_attempts c ∧ no_progress_count s < stall_limit c
  | RetrySameContract delay => already_retried = false ∧ delay = base_backoff_ms c ∧
      attempts_used s < watchdog_max_attempts c ∧ replans_used s < max_replans c ∧
      stall_limit c <= no_progress_count s
  | Replan attempt delay preserve =>
      attempt = replans_used s + 1 ∧ 1 <= attempt <= max_replans c ∧
      attempts_used s < watchdog_max_attempts c ∧ stall_limit c <= no_progress_count s ∧
      delay = Z.min (base_backoff_ms c * 2 ^ Z.min (attempt - 1) 16) (max_backoff_ms c) ∧
      0 <= delay <= max_backoff_ms c ∧ preserve = confirmed_effect_ids s
  | EscalateNeedsHuman _ => max_replans c <= replans_used s ∧
      attempts_used s < watchdog_max_attempts c ∧ stall_limit c <= no_progress_count s
  | Stop _ => watchdog_max_attempts c <= attempts_used s ∧ attempts_remaining d = 0
  end.
Proof.
  intros Hmr Hma Hr Ha Hb Hmb d. unfold is_u32, u32_max, u64_max in *.
  subst d. unfold decide_with_retry. destruct (_ && _) eqn:E; cbn [verdict].
  { bool_hyps. by split_and!. }
  unfold WatchdogConfig_decide. cbv zeta.
  destruct (Z.leb_spec (watchdog_max_attempts c) (attempts_used s)); cbn [verdict]; [done|].
  destruct (Z.ltb_spec (no_progress_count s) (stall_limit c)); cbn [verdict]; [done|].
  unfold saturating_sub at 1. destruct (Z.eqb_spec (Z.max (max_replans c - replans_used s) 0) 0)
    as [Hz|Hz]; cbn [verdict]; [split_and!; lia|].
  unfold next_replan. rewrite Z.mod_small by lia. unfold replan_delay, saturating_sub, u64_saturating_mul.
  rewrite Z.shiftl_1_l. replace (Z.max (replans_used s + 1 - 1) 0) with (replans_used s) by lia.
  replace (replans_used s + 1 - 1) with (replans_used s) by lia.
  assert (0 < 2 ^ Z.min (replans_used s) 16) by (apply Z.pow_pos_nonneg; lia).
  unfold u64_max in *. split_and!; try done; try nia; lia.
Qed.

(** *** Witnesses *)

#[local] Instance witness_proposal_serde :
    Serde (ProactiveProposal + ProactiveAuditEntry) ProactiveProposal :=
  left_serde ProactiveProposal ProactiveAuditEntry.
#[local] Instance witness_proposal_serde_ok :
    SerdeOk (ProactiveProposal + ProactiveAuditEntry) ProactiveProposal :=
  left_serde_ok ProactiveProposal ProactiveAuditEntry.
#[local] Instance witness_audit_serde :
    Serde (ProactiveProposal + ProactiveAuditEntry) ProactiveAuditEntry :=
  right_serde ProactiveProposal ProactiveAuditEntry.
#[local] Instance witness_reason_debug : DenyReasonDebug := {| deny_reason_debug := DenyReason_code |}.

Definition witness_proposal : ProactiveProposal :=
  with_evidence (ProactiveProposal_new "p-1" FixFailingCi "fix CI" "red build" ModePropose 1)
    ["run-7"].

Definition witness_proposals : InMemoryRecordStore (ProactiveProposal + ProactiveAuditEntry) :=
  mkInMemory {[ ("proactive_proposal", "p-1") :=
    mkRecord "proactive_proposal" "p-1" 1 (inl witness_proposal) 1 ]} false.

Lemma witness_proposals_wf : store_wf witness_proposals.
Proof. apply map_Forall_singleton. split; simpl; [done|lia]. Qed.

Lemma witness_proposals_ok : proposals_ok witness_proposals.
Proof.
  intros k v val. cbn [contents InMemory_Ok]. rewrite in_memory_contents_lookup.
  intros (r & Hr & [= -> ->])%fmap_Some. revert Hr. cbn [inner witness_proposals].
  intros [[= <-] <-]%lookup_singleton_Some. by exists witness_proposal.
Qed.

(** Two executions race after an approval; one wins. *)
Definition witness_gate_open : ProactiveGate := Some (mkGateState ModePropose 1 None false).
Definition witness_proposal_calls : list proposal_call :=
  [CallDecideProposal witness_gate_open "p-1" (DecisionApprove "ada") 3;
   CallExecute "p-1" "c-1" 4; CallExecute "p-1" "c-2" 5].
Definition witness_executions :=
  exec 9 [0; 0; 1; 2; 1; 2; 0; 2]%nat
    (mkConfig witness_proposals (run_proposal_call <$> witness_proposal_calls) []).
Definition witness_executed : ProactiveProposal :=
  proposal_set witness_proposal Executed (Some 4) (Some "ada") (Some "c-1").

Lemma executed_was_approved_witness :
  ∃ n e, history PROACTIVE_NAMESPACE "p-1" (cfg_log witness_executions) !! n = Some e ∧
    from_value (ev_new e) = Ok witness_executed.
Proof.
  destruct (executed_was_approved witness_proposals witness_proposal_calls witness_executions "p-1"
    witness_proposals_wf witness_proposals_ok ltac:(by repeat constructor) (exec_rtc _ _ _ _))
    as (_ & _ & Hx).
  destruct (Hx 1%nat witness_executed) as (n & e & Hn & _ & He & _);
    [vm_compute; reflexivity|reflexivity|].
  exists n, e. split; [exact Hn|exact He].
Defined.

Lemma denied_proposal_is_actionable_witness :
  ∃ a s1, run 9 (submit witness_gate_open witness_proposal 1 3) witness_proposals =
            (Ok (a, witness_proposal), s1) ∧ admission_allowed a = false.
Proof.
  destruct (denied_proposal_is_actionable 9 witness_proposals witness_gate_open witness_proposal 1 3
    10 "ada" 4 (conj witness_proposals_wf eq_refl) eq_refl eq_refl) as (a & s1 & s2 & Hrun & Ha & _).
  - vm_compute. discriminate.
  - vm_compute. reflexivity.
  - by exists a, s1.
Defined.

Lemma watchdog_bounded_witness :
  verdict (decide_with_retry WatchdogConfig_default
    (mkSignal "t-1" None 3 None None ["eff-1"] 2 1) true) = Replan 2 2000 ["eff-1"] ∧
  1 <= 2 <= max_replans WatchdogConfig_default.
Proof.
  pose proof (watchdog_bounded WatchdogConfig_default
    (mkSignal "t-1" None 3 None None ["eff-1"] 2 1) true) as Hx.
  split; [vm_compute; reflexivity|].
  apply Hx; vm_compute; try (split; discriminate); discriminate.
Defined.
