(* ===== verification/CaseFlow.v ===== *)
(** * Waking and resuming cases

    [uc-engine/src/governance/case_wake.rs] and [case_resume.rs]: what an ingested
    event does to the cases it matched.  A waiting case is woken; a case whose
    subscription opted in is planned for one new run, behind four gates and with
    a submission identity made from the case and the event. *)

From Stdlib Require Import String.
From S2P Require Import Prelude RustStr Store Prog Concurrency Protocol Policy Glob.
From S2P Require Import Mandate WorkCase Outbox Submission CaseStore Trigger Attention.

Record CaseWake : Type := mkWake {
  wake_case_id : string;
  resolved_attention : option string
}.

Record ResumePlan : Type := mkPlan {
  plan_case_id : string;
  plan_submission : SubmissionRequest;
  plan_reason : string
}.

Inductive ResumeSkip : Type :=
| NotOptedIn
| UnknownCase
| Terminal (s : CaseStatus)
| NotRunnable (s : CaseStatus)
| RunAlreadyOpen (run_id : string)
| NoLiveMandate (detail : string).

Definition ResumeSkip_code (r : ResumeSkip) : string :=
  match r with
  | NotOptedIn => "not_opted_in"
  | UnknownCase => "unknown_case"
  | Terminal _ => "case_terminal"
  | NotRunnable _ => "case_not_runnable"
  | RunAlreadyOpen _ => "run_already_open"
  | NoLiveMandate _ => "no_live_mandate"
  end.

Definition ResumeSkip_detail (r : ResumeSkip) : string :=
  match r with
  | NotOptedIn => "subscription did not opt into auto_resume"
  | UnknownCase => "case does not exist"
  | Terminal s => "case is terminal (" +:+ CaseStatus_as_str s +:+ ")"
  | NotRunnable s =>
      "case is " +:+ CaseStatus_as_str s +:+ "; only an active case can start a run"
  | RunAlreadyOpen i => "case already has an open run (" +:+ i +:+ ")"
  | NoLiveMandate d => d
  end.

Section Flow.
Context {Value CJ J : Type} {Sdc : Serde Value (WorkCase CJ)} {Sda : Serde Value AttentionItem}
        {Sdm : Serde Value Mandate} `{Json J} `{Sha256} `{F64Display}.
Notation prog := (prog Value).

(** ** Waking *)

Definition open_waiting_item (i : string)
    : prog (result (option AttentionItem) AttentionBoardError) :=
  let! o := open_for_case i in
  Ret match o with
      | Err e => Err e
      | Ok (Some x) => Ok (if item_kind x ==? WaitingForEvent then Some x else None)
      | Ok None => Ok None
      end.

(** The attention item is resolved before the case moves. *)
Definition resolve_wait (i trigger : string) (now : Instant)
    : prog (result (option string) string) :=
  let! o := open_waiting_item i in
  match o with
  | Err e => Ret (Err ("attention read failed: " +:+ AttentionBoardError_display e))
  | Ok None => Ret (Ok None)
  | Ok (Some x) =>
      let! r := AttentionBoard_resolve (item_id x) (EventReceived trigger) now in
      Ret match r with
          | Ok _ => Ok (Some (item_id x))
          | Err e => Err ("attention resolve failed: " +:+ AttentionBoardError_display e)
          end
  end.

Definition wake_case (i trigger : string) (now : Instant)
    : prog (result (option CaseWake) string) :=
  let! g := CaseStore_get (Json:=CJ) i in
  match g with
  | Err e => Ret (Err ("case read failed: " +:+ CaseStoreError_display e))
  | Ok None => Ret (Ok None)
  | Ok (Some (c, _)) =>
      if is_terminal (status c) || (status c !=? WaitingEvent) then Ret (Ok None)
      else
        let! r := resolve_wait i trigger now in
        match r with
        | Err e => Ret (Err e)
        | Ok resolved =>
            let! t := CaseStore_transition (Json:=CJ) i Active now in
            Ret match t with
                | Err e => Err ("case transition failed: " +:+ CaseStoreError_display e)
                | Ok _ => Ok (Some (mkWake i resolved))
                end
        end
  end.

(** Fail-soft: a case that cannot be woken is skipped. *)
Fixpoint wake_matched_cases (matched : list string) (trigger : string) (now : Instant)
    : prog (list CaseWake) :=
  match matched with
  | [] => Ret []
  | i :: rest =>
      let! r := wake_case i trigger now in
      let! woken := wake_matched_cases rest trigger now in
      Ret match r with
          | Ok (Some w) => w :: woken
          | _ => woken
          end
  end.

(** ** Resuming *)

Definition resume_description (i : string) (e : TriggerEvent J) : string :=
  "Resume case " +:+ i +:+ " after a " +:+ SourceKind_as_str (trigger_source e) +:+ " " +:+
  TriggerKind_as_str (trigger_kind e) +:+ " event (external id " +:+ external_id e +:+
  "). Continue the outstanding work for this case.".

Definition resume_submission_id (i : string) (e : TriggerEvent J) : string :=
  SubmissionId_caller_supplied ("case-resume:" +:+ i +:+ ":" +:+ dedup_key e).

(** The part of [plan_resume] after its gates. *)
Definition resume_plan (i : string) (c : WorkCase CJ) (m : Mandate) (e : TriggerEvent J)
    : ResumePlan :=
  mkPlan i
    (SubmissionRequest_with_case
       (SubmissionRequest_new (grantor m) (project_id c) (resume_description i e)
          (Some (resume_submission_id i e))) i)
    ("subscription opted into auto_resume and " +:+ SourceKind_as_str (trigger_source e) +:+ " " +:+
     TriggerKind_as_str (trigger_kind e) +:+ " arrived").

(** The mandate gate. *)
Definition mandate_gate (mid : string) (m : Mandate) (now : Instant) : option ResumeSkip :=
  if is_revoked m then Some (NoLiveMandate ("mandate " +:+ mid +:+ " is revoked"))
  else if is_expired m now then Some (NoLiveMandate ("mandate " +:+ mid +:+ " has expired"))
  else if negb (MandateDecision_is_allowed (permits m (MandateRequest_action Dispatch) now)) then
    Some (NoLiveMandate ("mandate " +:+ mid +:+ " does not permit the dispatch action"))
  else None.

(** The case gate. *)
Definition case_gate (c : WorkCase CJ) : option ResumeSkip :=
  if is_terminal (status c) then Some (Terminal (status c))
  else if status c !=? Active then Some (NotRunnable (status c))
  else match active_run c with
       | Some r => Some (RunAlreadyOpen (run_id r))
       | None => None
       end.

Definition plan_resume (i : string) (e : TriggerEvent J) (opted_in : bool) (now : Instant)
    : prog (result ResumePlan ResumeSkip) :=
  if negb opted_in then Ret (Err NotOptedIn)
  else
    let! g := CaseStore_get (Json:=CJ) i in
    match g with
    | Err _ => Ret (Err UnknownCase)
    | Ok None => Ret (Err UnknownCase)
    | Ok (Some (c, _)) =>
        match case_gate c with
        | Some skip => Ret (Err skip)
        | None =>
            match case_mandate_id c with
            | None => Ret (Err (NoLiveMandate "case has no mandate"))
            | Some mid =>
                let! g := MandateStore_get mid in
                Ret match g with
                    | Err error => Err (NoLiveMandate
                        ("mandate " +:+ mid +:+ " could not be read: " +:+
                         MandateStoreError_display error))
                    | Ok None => Err (NoLiveMandate ("mandate " +:+ mid +:+ " no longer exists"))
                    | Ok (Some (m, _)) =>
                        match mandate_gate mid m now with
                        | Some skip => Err skip
                        | None => Ok (resume_plan i c m e)
                        end
                    end
            end
        end
    end.
End Flow.

(** ** Running them *)

Section Runs.
Context {S Value CJ J : Type} {St : RecordStore S Value} {StOk : RecordStoreOk S Value}
        {Sdc : Serde Value (WorkCase CJ)} {SdcOk : SerdeOk Value (WorkCase CJ)}
        {Sda : Serde Value AttentionItem} {SdaOk : SerdeOk Value AttentionItem}
        {Sdm : Serde Value Mandate} `{Json J} `{Sha256} `{F64Display}.
Implicit Types (s : S).

Lemma run_case_get t s i v val (c : WorkCase CJ) :
  ready s → contents s !! (CASE_NAMESPACE, i) = Some (v, val) → from_value val = Ok c →
  run t (CaseStore_get i) s = (Ok (Some (c, v)), s).
Proof.
  intros Hs Hl Hc. unfold CaseStore_get. by rewrite run_bind, (run_ns_get_some t s _ _ v val c).
Qed.

Lemma run_case_transition t s i v val (c c' : WorkCase CJ) next now :
  ready s → contents s !! (CASE_NAMESPACE, i) = Some (v, val) → from_value val = Ok c →
  v < i64_max → transition c next now = (Ok tt, c') →
  ∃ s' val', run t (CaseStore_transition (Json:=CJ) i next now) s =
      (Ok (set_version c' (v + 1)), s') ∧
    from_value val' = Ok (set_version c' (v + 1)) ∧
    contents s' = <[(CASE_NAMESPACE, i) := (v + 1, val')]> (contents s).
Proof.
  intros Hs Hl Hc Hv Htr. unfold CaseStore_transition, CaseStore_update. rewrite run_bind.
  match goal with |- context [cas_loop 16 _ _ ?ab ?b ?fl ?ct] =>
    pose proof (run_cas_loop t s 15 CASE_NAMESPACE i v val c ab b fl ct Hs Hl Hc Hv) as Hrun end.
  cbv beta in Hrun. rewrite Htr in Hrun. destruct Hrun as (s' & val' & Hr & _ & Hv' & Hcont).
  exists s', val'. by rewrite Hr.
Qed.

(** What [resolve_wait] closes: the newest open item of the case, if it waits for
    an event. *)
Definition wait_closed (items : list (AttentionItem * Z)) (i trigger : string) (now : Instant)
    (resolved : option string) s : Prop :=
  match resolved with
  | None => True
  | Some x => ∃ y w v val, (y, w) ∈ items ∧ item_id y = x ∧ item_kind y = WaitingForEvent ∧
      open_of i y = true ∧ contents s !! (ATTENTION_NAMESPACE, x) = Some (v, val) ∧
      from_value val = Ok (item_resolve y (EventReceived trigger) now)
  end.

Lemma run_resolve_wait t s items i trigger now :
  ready s → board s items →
  ∃ resolved s', run t (resolve_wait i trigger now) s = (Ok resolved, s') ∧ ready s' ∧
    wait_closed items i trigger now resolved s' ∧
    ∀ k, (∀ x, resolved = Some x → k ≠ (ATTENTION_NAMESPACE, x)) →
      contents s' !! k = contents s !! k.
Proof.
  intros Hs Hb. unfold resolve_wait, open_waiting_item. rewrite !run_bind.
  rewrite (run_open_for_case t s items i Hs Hb). cbn [run].
  destruct (max_by_key item_since (filterb (open_of i) items.*1)) as [y|] eqn:Eo.
  2: { exists None, s. by split_and!. }
  destruct (decide (item_kind y = WaitingForEvent)) as [Hk|Hk].
  2: { rewrite bool_decide_eq_false_2 by done. exists None, s. by split_and!. }
  rewrite bool_decide_eq_true_2 by done. rewrite run_bind.
  apply max_by_key_elem, filterb_elem in Eo as [Hy Ho].
  apply list_elem_of_fmap in Hy as ([y' w] & -> & Hy). cbn [fst] in *.
  destruct (board_elem s items y' w Hb Hy) as (Hw & val & Hl & Hv).
  pose proof Ho as [_ Hopen]%andb_true_iff.
  destruct (run_resolve_open t s (item_id y') (EventReceived trigger) now w val y' Hs Hl Hv Hw Hopen)
    as (s' & val' & Hrun & Hs' & Hv' & Hc).
  rewrite Hrun. exists (Some (item_id y')), s'. split_and!; [done|done| |].
  - exists y', w, (w + 1), val'. rewrite Hc, lookup_insert_eq. by split_and!.
  - intros k Hk'. rewrite Hc. apply lookup_insert_ne. intros <-. by destruct (Hk' (item_id y')).
Qed.

(** Planning is reading, and what it read is behind the plan. *)
Lemma run_plan_resume t s s' i (e : TriggerEvent J) opted_in now plan :
  run t (plan_resume (CJ:=CJ) i e opted_in now) s = (Ok plan, s') →
  s' = s ∧ opted_in = true ∧
  ∃ (c : WorkCase CJ) v mid m w, run t (ns_get CASE_NAMESPACE i) s = (Ok (Some (c, v)), s) ∧
    case_gate c = None ∧ case_mandate_id c = Some mid ∧
    run t (ns_get MANDATE_NAMESPACE mid) s = (Ok (Some (m, w)), s) ∧
    mandate_gate mid m now = None ∧ plan = resume_plan i c m e.
Proof.
  unfold plan_resume. destruct opted_in; cbn [negb]; [|done]. unfold CaseStore_get.
  rewrite !run_bind.
  destruct (run t (ns_get CASE_NAMESPACE i) s) as [g s1] eqn:Eg.
  assert (s1 = s) as -> by (by injection Eg). cbn [run map_err].
  destruct g as [[[c v]|]|err]; cbn [map_err]; [|done|done].
  destruct (case_gate c) as [skip|] eqn:Ec; [done|].
  destruct (case_mandate_id c) as [mid|] eqn:Em; [|done]. unfold MandateStore_get. rewrite !run_bind.
  destruct (run t (ns_get MANDATE_NAMESPACE mid) s) as [g s1] eqn:Eg2.
  assert (s1 = s) as -> by (by injection Eg2). cbn [run map_err].
  destruct g as [[[m w]|]|err]; cbn [map_err]; [|done|done].
  destruct (mandate_gate mid m now) as [skip|] eqn:Eg3; [done|]. intros [= <- <-].
  split_and!; [done|done|]. by exists c, v, mid, m, w.
Qed.

Lemma case_gate_None (c : WorkCase CJ) :
  case_gate c = None → status c = Active ∧ active_run c = None.
Proof.
  unfold case_gate. destruct (is_terminal _); [done|]. case_bool_decide; cbn [negb]; [|done].
  by destruct (active_run c).
Qed.

Lemma mandate_gate_None mid m now :
  mandate_gate mid m now = None →
  is_revoked m = false ∧ is_expired m now = false ∧
  permits m (MandateRequest_action Dispatch) now = Allowed.
Proof.
  unfold mandate_gate. destruct (is_revoked m); [done|]. destruct (is_expired m now); [done|].
  by destruct (permits m _ now).
Qed.
End Runs.

(** ** Properties *)

Section FlowProperties.
Context {S Value CJ J : Type} {St : RecordStore S Value} {StOk : RecordStoreOk S Value}
        {Sdc : Serde Value (WorkCase CJ)} {SdcOk : SerdeOk Value (WorkCase CJ)}
        {Sda : Serde Value AttentionItem} {SdaOk : SerdeOk Value AttentionItem}
        {Sdm : Serde Value Mandate} `{Json J} `{Sha256} `{F64Display}.

(** An event wakes exactly a waiting case.  A case in any other state, one
    that needs a human, is blocked, is being verified or is closed, is left
    untouched; a waiting case becomes active, its newest open attention item is
    closed as received when that item was waiting for an event and left alone
    otherwise, and no other document changes. *)
Theorem wake_only_waiting t (s : S) items i trigger now v val (c : WorkCase CJ) :
  ready s → board s items → contents s !! (CASE_NAMESPACE, i) = Some (v, val) →
  from_value val = Ok c → v < i64_max →
  (status c ≠ WaitingEvent → run t (wake_case (CJ:=CJ) i trigger now) s = (Ok None, s)) ∧
  (status c = WaitingEvent → ∃ resolved s' val' c',
     run t (wake_case (CJ:=CJ) i trigger now) s = (Ok (Some (mkWake i resolved)), s') ∧
     contents s' !! (CASE_NAMESPACE, i) = Some (v + 1, val') ∧ from_value val' = Ok c' ∧
     status c' = Active ∧ runs c' = runs c ∧ case_mandate_id c' = case_mandate_id c ∧
     wait_closed items i trigger now resolved s' ∧
     ∀ k, k ≠ (CASE_NAMESPACE, i) → (∀ x, resolved = Some x → k ≠ (ATTENTION_NAMESPACE, x)) →
       contents s' !! k = contents s !! k).
Proof.
  intros Hs Hb Hl Hc Hv. unfold wake_case. split; intros Hst;
    rewrite run_bind, (run_case_get t s i v val c Hs Hl Hc).
  - rewrite bool_decide_eq_false_2 by done. cbn [negb]. by rewrite orb_true_r.
  - rewrite Hst. cbn [is_terminal orb negb]. rewrite bool_decide_eq_true_2 by done. cbn [negb].
    rewrite run_bind.
    destruct (run_resolve_wait t s items i trigger now Hs Hb)
      as (resolved & s1 & Hrun & Hs1 & Hwait & Hoth).
    rewrite Hrun, run_bind.
    destruct (run_case_transition t s1 i v val c (set_updated_at (set_status c Active) now) Active now)
      as (s' & val' & Htr & Hv' & Hcont); try done.
    { by rewrite Hoth by done. }
    { unfold transition. by rewrite Hst. }
    rewrite Htr. exists resolved, s', val', (set_version (set_updated_at (set_status c Active) now) (v + 1)).
    split_and!; try done.
    + by rewrite Hcont, lookup_insert_eq.
    + destruct resolved as [x|]; [|done]. destruct Hwait as (y & w & v2 & val2 & ? & ? & ? & ? & Hx & ?).
      exists y, w, v2, val2. split_and!; try done. by rewrite Hcont, lookup_insert_ne.
    + intros k Hk Hk'. rewrite Hcont, lookup_insert_ne by done. by apply Hoth.
Qed.

(** An event starts work only through the four gates, and replays converge.
    Planning reads and never writes; it answers a plan only if the subscription
    opted in, the case is active with no open run, and the mandate of the case
    is stored, neither revoked nor expired, and permits dispatch.  The plan acts
    in the name of the mandate's grantor, for that case and project, and two
    plans for the same case and event carry the same submission id, hence the
    same task, and the same digest when the project is the same, whatever was
    planned in between. *)
Theorem resume_is_gated t (s s' : S) i (e : TriggerEvent J) opted_in now plan :
  store_wf s → run t (plan_resume (CJ:=CJ) i e opted_in now) s = (Ok plan, s') →
  s' = s ∧ opted_in = true ∧
  (∃ v val (c : WorkCase CJ) mid w mval m, contents s !! (CASE_NAMESPACE, i) = Some (v, val) ∧
     from_value val = Ok c ∧ status c = Active ∧ active_run c = None ∧
     case_mandate_id c = Some mid ∧
     contents s !! (MANDATE_NAMESPACE, mid) = Some (w, mval) ∧ from_value mval = Ok m ∧
     is_revoked m = false ∧ is_expired m now = false ∧
     permits m (MandateRequest_action Dispatch) now = Allowed ∧
     submission_principal (plan_submission plan) = grantor m ∧
     submission_project_id (plan_submission plan) = project_id c ∧
     submission_case_id (plan_submission plan) = Some i) ∧
  (∀ t2 (s2 s2' : S) (e2 : TriggerEvent J) o2 now2 plan2,
     run t2 (plan_resume (CJ:=CJ) i e2 o2 now2) s2 = (Ok plan2, s2') →
     trigger_source e2 = trigger_source e → trigger_kind e2 = trigger_kind e →
     external_id e2 = external_id e → payload_digest e2 = payload_digest e →
     submission_id (plan_submission plan2) = submission_id (plan_submission plan) ∧
     derive_task_id (submission_id (plan_submission plan2)) =
       derive_task_id (submission_id (plan_submission plan)) ∧
     (submission_project_id (plan_submission plan2) = submission_project_id (plan_submission plan) →
      SubmissionRequest_digest (plan_submission plan2) =
        SubmissionRequest_digest (plan_submission plan))).
Proof.
  intros Hwf Hrun.
  apply run_plan_resume in Hrun as (-> & -> & c & v & mid & m & w & Hgc & Hc & Hmid & Hgm & Hm & ->).
  apply run_ns_get_read in Hgc as (val & Hl & Hv); [|done].
  apply run_ns_get_read in Hgm as (mval & Hlm & Hvm); [|done].
  apply case_gate_None in Hc as [Ha Hr]. apply mandate_gate_None in Hm as (? & ? & ?).
  split_and!; [done|done| |].
  - exists v, val, c, mid, w, mval, m. by split_and!.
  - intros t2 s2 s2' e2 o2 now2 plan2 Hrun2 Hs Hk Hx Hd.
    apply run_plan_resume in Hrun2 as (_ & _ & c2 & _ & _ & m2 & _ & _ & _ & _ & _ & _ & ->).
    cbn. assert (resume_submission_id i e2 = resume_submission_id i e) as ->.
    { unfold resume_submission_id, dedup_key, dedup_material. by rewrite Hs, Hk, Hx, Hd. }
    split_and!; [done|done|]. unfold SubmissionRequest_digest. cbn. intros ->.
    unfold resume_description. by rewrite Hs, Hk, Hx.
Qed.
End FlowProperties.

(** *** Witnesses *)

(** One store with the three kinds of documents. *)
Inductive flow_doc : Type :=
| DocCase (c : WorkCase unit)
| DocItem (x : AttentionItem)
| DocMandate (m : Mandate).

#[local] Instance flow_case_serde : Serde flow_doc (WorkCase unit) :=
  {| to_value := λ c, Ok (DocCase c);
     from_value := λ v, match v with DocCase c => Ok c | _ => Err "wrong document" end |}.
#[local] Instance flow_item_serde : Serde flow_doc AttentionItem :=
  {| to_value := λ c, Ok (DocItem c);
     from_value := λ v, match v with DocItem c => Ok c | _ => Err "wrong document" end |}.
#[local] Instance flow_mandate_serde : Serde flow_doc Mandate :=
  {| to_value := λ c, Ok (DocMandate c);
     from_value := λ v, match v with DocMandate c => Ok c | _ => Err "wrong document" end |}.
#[local] Instance flow_case_serde_ok : SerdeOk flow_doc (WorkCase unit).
Proof. split; [done|]. by intros x v [= <-]. Qed.
#[local] Instance flow_item_serde_ok : SerdeOk flow_doc AttentionItem.
Proof. split; [done|]. by intros x v [= <-]. Qed.

#[local] Existing Instance zero_sha.
#[local] Existing Instance witness_display.
#[local] Existing Instance unit_json.

Definition flow_case (st : CaseStatus) : WorkCase unit :=
  set_status (set_mandate_id
    (WorkCase_new "c-1" "fix" "fix the build" "proj" CaseOrigin_manual 0) (Some "m-1")) st.

Definition flow_store (st : CaseStatus) (m : Mandate) : InMemoryRecordStore flow_doc :=
  mkInMemory
    {[ ("work_case", "c-1") :=
         mkRecord "work_case" "c-1" 1 (DocCase (flow_case st)) 1;
       ("mandate", "m-1") := mkRecord "mandate" "m-1" 1 (DocMandate m) 1 ]} false.

Definition flow_mandate : Mandate :=
  Mandate_new "m-1" "c-1" (Principal_user "ada") HumanIssued [Action Dispatch] 1 0.

Lemma flow_store_wf st m : store_wf (flow_store st m).
Proof.
  apply map_Forall_insert_2; [split; simpl; [done|lia]|].
  apply map_Forall_singleton. split; simpl; [done|lia].
Qed.

Lemma flow_board st m : board (flow_store st m) [].
Proof.
  exists []. split_and!; [|simpl; lia|constructor]. split_and!; [constructor|constructor|].
  intros k v x. split; [by intros ?%elem_of_nil|]. cbn [contents InMemory_Ok].
  rewrite in_memory_contents_lookup. intros (r & Hr & _)%fmap_Some. revert Hr.
  cbn [inner flow_store].
  by intros [[[=] _]|[_ [[=] _]%lookup_singleton_Some]]%lookup_insert_Some.
Qed.

Lemma wake_only_waiting_witness :
  ∃ s', run 9 (wake_case (CJ:=unit) "c-1" "t-1" 5) (flow_store WaitingEvent flow_mandate) =
    (Ok (Some (mkWake "c-1" None)), s').
Proof.
  destruct (wake_only_waiting 9 (flow_store WaitingEvent flow_mandate) [] "c-1" "t-1" 5 1
    (DocCase (flow_case WaitingEvent)) (flow_case WaitingEvent) (conj (flow_store_wf _ _) eq_refl) (flow_board _ _))
    as [_ Hx]; [reflexivity..|].
  destruct (Hx eq_refl) as ([x|] & s' & val' & c' & Hrun & _ & _ & _ & _ & _ & Hw & _).
  - exfalso. destruct Hw as (y & w & _ & _ & Hy & _). by apply elem_of_nil in Hy.
  - exists s'. exact Hrun.
Defined.

Definition flow_event : TriggerEvent unit := TriggerEvent_new "t-1" Ci WorkflowRun "run-7" tt 5.

Definition flow_plan : ResumePlan :=
  resume_plan "c-1" (flow_case Active) flow_mandate flow_event.

Lemma resume_is_gated_witness :
  submission_case_id (plan_submission flow_plan) = Some "c-1" ∧
  is_revoked flow_mandate = false.
Proof.
  destruct (resume_is_gated (CJ:=unit) 9 (flow_store Active flow_mandate)
    (flow_store Active flow_mandate) "c-1" flow_event true 6 flow_plan (flow_store_wf _ _))
    as (_ & _ & (v & val & c & mid & w & mval & m & _ & _ & _ & _ & _ & _ & _ & _ & _ & _ & _ & _ & Hc) & _).
  - vm_compute. reflexivity.
  - split; [exact Hc|reflexivity].
Defined.
