(* ===== verification/Task.v ===== *)
(** * Tasks and subtasks

    The data of [uc-types/src/agent.rs] that the dispatch path reads: tasks,
    their subtasks with the multi-agent steps, results with usage and review,
    and [EngineError] of [uc-types/src/error.rs]. *)

From Stdlib Require Import String SpecFloat.
From S2P Require Import Prelude RustStr.

(** [TaskId] and [WorkerId] wrap a string; both compare as the string does. *)
Notation TaskId := string (only parsing).
Notation WorkerId := string (only parsing).

Inductive EngineError : Type :=
| NotFound (what : string)
| SearchError (detail : string)
| IndexError (detail : string)
| MemoryReadError (detail : string)
| MemoryWriteError (detail : string)
| IndexingError (detail : string)
| ConnectionError (detail : string)
| TimeoutError (detail : string)
| RateLimited (retry_after_secs : Z)
| ConflictError (path details : string)
| TaskError (detail : string)
| WorkerUnavailable (detail : string)
| SandboxError (detail : string)
| ConfigError (detail : string)
| InternalError (detail : string)
| StorageError (detail : string)
| InvalidOperation (detail : string).
#[export] Instance EngineError_eq_dec : EqDecision EngineError.
Proof. solve_decision. Defined.

Inductive TaskStatus : Type :=
| TaskCreated | TaskPlanning | TaskInProgress | TaskCompleted | TaskFailed | TaskPaused.
#[export] Instance TaskStatus_eq_dec : EqDecision TaskStatus.
Proof. solve_decision. Defined.

Inductive DispatchMode : Type := Remote | PreferRemote.
#[export] Instance DispatchMode_eq_dec : EqDecision DispatchMode.
Proof. solve_decision. Defined.

Inductive EffectClass : Type := ReadOnly | LocalSafe | RequiresWorker.
#[export] Instance EffectClass_eq_dec : EqDecision EffectClass.
Proof. solve_decision. Defined.

Definition EffectClass_as_str (c : EffectClass) : string :=
  match c with
  | ReadOnly => "read_only"
  | LocalSafe => "local_safe"
  | RequiresWorker => "requires_worker"
  end.

Inductive SubtaskStatus : Type :=
| SubtaskPending | SubtaskAssigned | SubtaskInProgress | SubtaskCompleted | SubtaskFailed
| SubtaskConflicted.
#[export] Instance SubtaskStatus_eq_dec : EqDecision SubtaskStatus.
Proof. solve_decision. Defined.

Inductive ChangeType : Type := FileCreated | FileModified | FileDeleted.
#[export] Instance ChangeType_eq_dec : EqDecision ChangeType.
Proof. solve_decision. Defined.

Record FileChange : Type := mkFileChange {
  file_path : string;
  change_type : ChangeType;
  diff : string
}.

Record SubtaskUsage : Type := mkUsage {
  input_tokens : option Z;
  output_tokens : option Z;
  total_cost_usd : option f64;
  usage_source : option string
}.

Record SubtaskReview : Type := mkReview {
  review_approved : bool;
  review_issues : list string;
  review_suggestions : list string
}.

Record SubtaskResult : Type := mkSubtaskResult {
  result_subtask_id : TaskId;
  result_worker_id : WorkerId;
  modified_files : list FileChange;
  result_summary : string;
  result_success : bool;
  result_completed_at : Instant;
  result_output : option string;
  result_usage : option SubtaskUsage;
  result_review : option SubtaskReview
}.

Record WorkflowStep : Type := mkStep {
  step_agent : string;
  step_prompt : string;
  step_agent_config_json : option string;
  abort_on_failure : bool;
  step_retry_count : Z;
  retry_delay_ms : Z;
  step_condition : option string;
  parallel_group : option string
}.

Record Subtask : Type := mkSubtask {
  subtask_id : TaskId;
  parent_id : TaskId;
  subtask_description : string;
  subtask_status : SubtaskStatus;
  assigned_worker : option WorkerId;
  depends_on : list TaskId;
  file_constraints : list string;
  expected_output : string;
  subtask_result : option SubtaskResult;
  dispatch_mode : DispatchMode;
  effect_class : EffectClass;
  dispatch_retry_count : Z;
  required_capabilities : list string;
  agent_config_json : option string;
  steps : list WorkflowStep;
  retry_count : Z
}.

Record Task : Type := mkTask {
  tk_id : TaskId;
  tk_description : string;
  tk_project_id : string;
  tk_status : TaskStatus;
  tk_subtasks : list Subtask;
  tk_created_at : Instant;
  tk_updated_at : Instant
}.

Record StepUsage : Type := mkStepUsage {
  step_index : Z;
  step_parallel_group : string;
  step_usage : option SubtaskUsage;
  step_source : option string
}.

(** The names [#[derive(Debug)]] prints. *)
Definition TaskStatus_debug (s : TaskStatus) : string :=
  match s with
  | TaskCreated => "Created"
  | TaskPlanning => "Planning"
  | TaskInProgress => "InProgress"
  | TaskCompleted => "Completed"
  | TaskFailed => "Failed"
  | TaskPaused => "Paused"
  end.

Definition SubtaskStatus_debug (s : SubtaskStatus) : string :=
  match s with
  | SubtaskPending => "Pending"
  | SubtaskAssigned => "Assigned"
  | SubtaskInProgress => "InProgress"
  | SubtaskCompleted => "Completed"
  | SubtaskFailed => "Failed"
  | SubtaskConflicted => "Conflicted"
  end.

(** [SubtaskUsage::is_empty]. *)
Definition usage_is_empty (u : SubtaskUsage) : bool :=
  match input_tokens u, output_tokens u, total_cost_usd u with
  | None, None, None => true
  | _, _, _ => false
  end.

(** [SubtaskUsage::total_tokens]: the sum is a [u64] addition (it wraps in a
    release build), cast to [i64]. *)
Definition total_tokens (u : SubtaskUsage) : option Z :=
  match input_tokens u, output_tokens u with
  | None, None => None
  | i, o => Some (u64_as_i64 ((default 0 i + default 0 o) `mod` 2 ^ 64))
  end.

(** ** Errors *)

(** The [Display] text of the errors. *)
Definition EngineError_display (e : EngineError) : string :=
  match e with
  | NotFound d => "Not found: " +:+ d
  | SearchError d => "Search failed: " +:+ d
  | IndexError d => "Index not found: " +:+ d
  | MemoryReadError d => "Memory read error: " +:+ d
  | MemoryWriteError d => "Memory write error: " +:+ d
  | IndexingError d => "Indexing failed: " +:+ d
  | ConnectionError d => "Connection error: " +:+ d
  | TimeoutError d => "Timeout: " +:+ d
  | RateLimited secs => "Rate limited: retry after " +:+ pretty secs +:+ "s"
  | ConflictError path details => "Conflict detected in " +:+ path +:+ ": " +:+ details
  | TaskError d => "Task failed: " +:+ d
  | WorkerUnavailable d => "Worker unavailable: " +:+ d
  | SandboxError d => "Sandbox error: " +:+ d
  | ConfigError d => "Configuration error: " +:+ d
  | InternalError d => "Internal error: " +:+ d
  | StorageError d => "Storage error: " +:+ d
  | InvalidOperation d => "Invalid operation: " +:+ d
  end%string.

Definition is_retryable (e : EngineError) : bool :=
  match e with RateLimited _ | TimeoutError _ | ConnectionError _ => true | _ => false end.

Definition should_fallback (e : EngineError) : bool :=
  match e with RateLimited _ | TimeoutError _ => true | _ => false end.

Definition is_not_found (e : EngineError) : bool :=
  match e with NotFound _ => true | _ => false end.
