(* ===== verification/Dependency.v ===== *)
(** * Execution order of subtasks

    [resolve_execution_order] of [uc-engine/src/scheduler/dependency.rs]: Kahn's
    algorithm over the subtasks of a decomposed task, with the code's vectors of
    in-degrees and adjacency lists.  Indexing, the decrement of an unsigned
    in-degree and the loop itself are partial in the model ([None] is a panic or
    the end of the fuel), and the main theorem shows that [None] never comes
    out, that the answer is the layering by dependency depth, and that the error
    is returned exactly on a cycle. *)

From Stdlib Require Import String.
From S2P Require Import Prelude RustStr Task.

(** ** The algorithm *)

(** [id_to_idx]: collecting into a map, so the last subtask with an id wins. *)
Fixpoint index_from (i : nat) (subtasks : list Subtask) (acc : gmap string nat)
    : gmap string nat :=
  match subtasks with
  | [] => acc
  | st :: rest => index_from (S i) rest (<[subtask_id st := i]> acc)
  end.
Definition id_to_idx (subtasks : list Subtask) : gmap string nat := index_from 0 subtasks ∅.

(** [in_degree] and [adj]. *)
Definition graph : Type := list nat * list (list nat).

(** The body of the inner loop: an unknown dependency is ignored. *)
Definition add_dependency (idx : gmap string nat) (i : nat) (g : graph) (dep : string)
    : option graph :=
  match idx !! dep with
  | Some dep_idx =>
      successors ← g.2 !! dep_idx;
      degree ← g.1 !! i;
      Some (<[i := S degree]> g.1, <[dep_idx := successors ++ [i]]> g.2)
  | None => Some g
  end.

Fixpoint add_dependencies (idx : gmap string nat) (i : nat) (deps : list string) (g : graph)
    : option graph :=
  match deps with
  | [] => Some g
  | dep :: rest => g' ← add_dependency idx i g dep; add_dependencies idx i rest g'
  end.

Fixpoint add_subtasks (idx : gmap string nat) (i : nat) (subtasks : list Subtask) (g : graph)
    : option graph :=
  match subtasks with
  | [] => Some g
  | st :: rest => g' ← add_dependencies idx i (depends_on st) g; add_subtasks idx (S i) rest g'
  end.

Definition build_graph (subtasks : list Subtask) : option graph :=
  let n := length subtasks in
  add_subtasks (id_to_idx subtasks) 0 subtasks (replicate n 0%nat, replicate n []).

(** [for &dep_idx in &adj[idx]]: decrement, and queue what reaches zero. *)
Fixpoint release (targets : list nat) (in_degree next_queue : list nat)
    : option (list nat * list nat) :=
  match targets with
  | [] => Some (in_degree, next_queue)
  | dep_idx :: rest =>
      match in_degree !! dep_idx with
      | Some (S d) =>
          release rest (<[dep_idx := d]> in_degree)
            (if decide (d = 0%nat) then next_queue ++ [dep_idx] else next_queue)
      | _ => None
      end
  end.

(** [for &idx in &queue]. *)
Fixpoint release_queue (adj : list (list nat)) (queue in_degree next_queue : list nat)
    : option (list nat * list nat) :=
  match queue with
  | [] => Some (in_degree, next_queue)
  | idx :: rest =>
      targets ← adj !! idx;
      s ← release targets in_degree next_queue;
      release_queue adj rest s.1 s.2
  end.

Definition layer_ids (subtasks : list Subtask) (queue : list nat) : option (list TaskId) :=
  mapM (λ i, subtask_id <$> subtasks !! i) queue.

(** The [while] loop; it returns the layers and the number of visited subtasks. *)
Fixpoint layers_loop (fuel : nat) (subtasks : list Subtask) (adj : list (list nat))
    (in_degree queue : list nat) (visited : nat) (layers : list (list TaskId))
    : option (list (list TaskId) * nat) :=
  match queue, fuel with
  | [], _ => Some (layers, visited)
  | _, O => None
  | _, S fuel' =>
      ids ← layer_ids subtasks queue;
      s ← release_queue adj queue in_degree [];
      layers_loop fuel' subtasks adj s.1 s.2 (visited + length queue) (layers ++ [ids])
  end.

(** [(0..n).filter(|&i| in_degree[i] == 0)]. *)
Definition roots (in_degree : list nat) : list nat :=
  filterb (λ i, match in_degree !! i with Some O => true | _ => false end)
    (seq 0 (length in_degree)).

(** Every turn of the loop visits a subtask that was not visited before, so one
    turn per subtask is enough fuel. *)
Definition resolve_execution_order (subtasks : list Subtask)
    : option (result (list (list TaskId)) EngineError) :=
  match subtasks with
  | [] => Some (Ok [])
  | _ =>
      g ← build_graph subtasks;
      r ← layers_loop (length subtasks) subtasks g.2 g.1 (roots g.1) 0 [];
      Some (if decide (r.2 = length subtasks) then Ok r.1
            else Err (TaskError "circular dependency detected in subtasks"))
  end.

(** ** The specification *)

(** The positions of the known dependencies of subtask [i], with repetitions. *)
Definition resolved (idx : gmap string nat) (st : Subtask) : list nat :=
  omap (λ dep, idx !! dep) (depends_on st).

Definition known_deps (subtasks : list Subtask) (i : nat) : list nat :=
  match subtasks !! i with
  | Some st => resolved (id_to_idx subtasks) st
  | None => []
  end.

Definition depends (subtasks : list Subtask) (i j : nat) : Prop := j ∈ known_deps subtasks i.

(** Layers by depth: a subtask comes after everything it depends on, and right
    after one of its dependencies, so no layer could be merged into an earlier
    one. *)
Definition layering (deps : nat → list nat) (L : list (list nat)) : Prop :=
  ∀ k l i, L !! k = Some l → i ∈ l →
    (∀ j, j ∈ deps i → ∃ k' l', (k' < k)%nat ∧ L !! k' = Some l' ∧ j ∈ l') ∧
    (k ≠ 0%nat → ∃ j l', j ∈ deps i ∧ L !! pred k = Some l' ∧ j ∈ l').

(** ** Occurrences *)

Definition occ (x : nat) (l : list nat) : nat := count_occ Nat.eq_dec l x.
Arguments occ : simpl never.

Lemma occ_app x l k : occ x (l ++ k) = (occ x l + occ x k)%nat.
Proof. apply count_occ_app. Qed.

Lemma occ_pos x l : (0 < occ x l)%nat ↔ x ∈ l.
Proof. unfold occ. rewrite list_elem_of_In, (count_occ_In Nat.eq_dec). lia. Qed.

Lemma occ_cons x y l : occ x (y :: l) = ((if decide (x = y) then 1 else 0) + occ x l)%nat.
Proof. unfold occ. simpl. destruct (Nat.eq_dec y x), (decide (x = y)); simpl; lia. Qed.

Lemma occ_nil x : occ x [] = 0%nat.
Proof. done. Qed.

Lemma occ_singleton x y : occ x [y] = if decide (x = y) then 1%nat else 0%nat.
Proof. rewrite occ_cons. unfold occ. simpl. lia. Qed.

(** How many of [deps] are not in [done]. *)
Definition pending (done deps : list nat) : nat :=
  length (filterb (λ j, negb (bool_decide (j ∈ done))) deps).

Lemma pending_zero done deps : pending done deps = 0%nat ↔ ∀ j, j ∈ deps → j ∈ done.
Proof.
  unfold pending. rewrite length_zero_iff_nil. split.
  - intros H j Hj. destruct (decide (j ∈ done)) as [|Hn]; [done|].
    assert (j ∈ filterb (λ j, negb (bool_decide (j ∈ done))) deps) as Hin.
    { apply filterb_elem. by rewrite bool_decide_eq_false_2. }
    rewrite H in Hin. by apply elem_of_nil in Hin.
  - intros H. apply elem_of_nil_inv. intros j [Hj Hb]%filterb_elem. bool_hyps. auto.
Qed.

Lemma pending_nil deps : pending [] deps = length deps.
Proof.
  unfold pending, filterb. induction deps as [|j deps IH]; [done|]. cbn [List.filter].
  rewrite bool_decide_eq_false_2 by apply not_elem_of_nil. cbn [negb length]. by rewrite IH.
Qed.

(** Occurrences in the adjacency lists of a queue, as occurrences of the queue's
    members in the dependencies. *)
Definition targets (adj : list (list nat)) (queue : list nat) : list nat :=
  concat ((λ q, adj !!! q) <$> queue).

Lemma sum_occ deps done queue :
  NoDup queue → (∀ q, q ∈ queue → q ∉ done) →
  (pending done deps =
   pending (done ++ queue) deps + foldr (λ q s, (occ q deps + s)%nat) 0%nat queue)%nat.
Proof.
  revert done. induction queue as [|q queue IH]; intros done Hnd Hdisj; simpl.
  { rewrite app_nil_r. lia. }
  apply NoDup_cons in Hnd as [Hq Hnd].
  rewrite (cons_middle q done queue), app_assoc.
  rewrite Nat.add_shuffle3, <-(IH (done ++ [q])); [|done|].
  - assert (q ∉ done) as Hqd by (apply Hdisj; left). clear -Hqd. unfold pending.
    induction deps as [|j deps IH]; simpl; [done|]. rewrite occ_cons.
    destruct (decide (j ∈ done)) as [Hj|Hj].
    + rewrite !bool_decide_eq_true_2 by set_solver. simpl.
      rewrite decide_False by set_solver. lia.
    + rewrite (bool_decide_eq_false_2 _ Hj). simpl. destruct (decide (q = j)) as [->|Hne].
      * rewrite bool_decide_eq_true_2 by set_solver. simpl. lia.
      * rewrite bool_decide_eq_false_2 by set_solver. simpl. lia.
  - intros x Hx Hd. assert (x ∉ done) by (apply Hdisj; by right). set_solver.
Qed.

(** ** Releasing the dependents of a layer *)

Lemma release_spec ts deg next :
  (∀ i, i ∈ ts → (i < length deg)%nat) →
  (∀ i d, deg !! i = Some d → (occ i ts <= d)%nat) →
  ∃ deg' more, release ts deg next = Some (deg', next ++ more) ∧ length deg' = length deg ∧
    (∀ i d, deg !! i = Some d → deg' !! i = Some (d - occ i ts)%nat) ∧
    NoDup more ∧ (∀ i, i ∈ more ↔ i ∈ ts ∧ deg !! i = Some (occ i ts)).
Proof.
  revert deg next. induction ts as [|t ts IH]; intros deg next Hr Hle; simpl.
  { exists deg, []. split_and!; [by rewrite app_nil_r|done| |constructor|set_solver].
    intros i d ->. f_equal. unfold occ. simpl. lia. }
  assert (t < length deg)%nat as Ht by (apply Hr; left).
  destruct (lookup_lt_is_Some_2 deg t Ht) as [d Hd]. rewrite Hd.
  pose proof (Hle t d Hd) as Hd1. rewrite occ_cons, decide_True in Hd1 by done.
  destruct d as [|d]; [lia|].
  destruct (IH (<[t := d]> deg) (if decide (d = 0%nat) then next ++ [t] else next))
    as (deg' & more & -> & Hlen & Hdeg & Hnd & Hmore).
  { intros i Hi. rewrite length_insert. apply Hr. by right. }
  { intros i e He. destruct (decide (i = t)) as [->|Hi].
    - rewrite list_lookup_insert_eq in He by done. simplify_eq. lia.
    - rewrite list_lookup_insert_ne in He by done. apply Hle in He.
      rewrite occ_cons, decide_False in He by done. lia. }
  exists deg', ((if decide (d = 0%nat) then [t] else []) ++ more). split_and!.
  - destruct (decide (d = 0%nat)); [by rewrite <-app_assoc|done].
  - by rewrite Hlen, length_insert.
  - intros i e He. rewrite occ_cons. destruct (decide (i = t)) as [->|Hi].
    + simplify_eq. rewrite (Hdeg t d) by (by rewrite list_lookup_insert_eq). f_equal; lia.
    + rewrite (Hdeg i e) by (by rewrite list_lookup_insert_ne). f_equal; lia.
  - destruct (decide (d = 0%nat)) as [->|]; [|done]. apply NoDup_cons. split; [|done].
    intros [Hin _]%Hmore. apply occ_pos in Hin. lia.
  - intros i. rewrite elem_of_app, Hmore, elem_of_cons, occ_cons.
    destruct (decide (i = t)) as [->|Hi].
    + rewrite list_lookup_insert_eq by done. rewrite Hd. split.
      * intros [Hin|[Hin [= ->]]]; [|auto]. destruct (decide (d = 0%nat)) as [->|]; [|set_solver].
        split; [auto|]. f_equal. lia.
      * intros [_ [= Hocc]]. destruct (decide (d = 0%nat)) as [->|Hne]; [left; set_solver|].
        right. split; [|by rewrite Hocc]. apply occ_pos. lia.
    + rewrite list_lookup_insert_ne by done. split; [|naive_solver].
      intros [Hin|?]; [|naive_solver]. destruct (decide (d = 0%nat)); set_solver.
Qed.

Lemma release_app a b deg next :
  release (a ++ b) deg next = s ← release a deg next; release b s.1 s.2.
Proof.
  revert deg next. induction a as [|t a IH]; intros deg next; simpl; [done|].
  destruct (deg !! t) as [[|d]|]; [done|apply IH|done].
Qed.

Lemma release_queue_targets adj queue deg next :
  (∀ q, q ∈ queue → (q < length adj)%nat) →
  release_queue adj queue deg next = release (targets adj queue) deg next.
Proof.
  revert deg next. induction queue as [|q queue IH]; intros deg next Hr; simpl; [done|].
  destruct (lookup_lt_is_Some_2 adj q) as [l Hl]; [apply Hr; left|]. rewrite Hl. simpl.
  unfold targets. rewrite fmap_cons. simpl. rewrite (list_lookup_total_correct _ _ _ Hl), release_app.
  destruct (release l deg next) as [[deg1 next1]|]; simpl; [|done].
  apply IH. intros x Hx. apply Hr. by right.
Qed.

(** ** The graph *)

Lemma index_from_range i sts acc dep k :
  index_from i sts acc !! dep = Some k →
  acc !! dep = Some k ∨ (i <= k < i + length sts)%nat.
Proof.
  revert i acc. induction sts as [|st sts IH]; intros i acc; simpl; [auto|].
  intros [H|H]%IH; [|right; lia]. apply lookup_insert_Some in H as [[_ ->]|[_ H]]; [right; lia|auto].
Qed.

Lemma id_to_idx_range sts dep k : id_to_idx sts !! dep = Some k → (k < length sts)%nat.
Proof. intros [H|H]%index_from_range; [by rewrite lookup_empty in H|lia]. Qed.

Lemma known_deps_range sts i j : j ∈ known_deps sts i → (j < length sts)%nat.
Proof.
  unfold known_deps, resolved. destruct (sts !! i); [|by intros ?%elem_of_nil].
  intros (dep & _ & H)%list_elem_of_omap. by eapply id_to_idx_range.
Qed.

(** Both vectors have one entry per subtask; [degree_of] and [edges_of] read
    them. *)
Definition sized (n : nat) (g : graph) : Prop := length g.1 = n ∧ length g.2 = n.
Definition degree_of (g : graph) (k : nat) : nat := g.1 !!! k.
Definition edges_of (g : graph) (k j : nat) : nat := occ k (g.2 !!! j).

(** [g'] is [g] with the edges from [i] to each of [ds]. *)
Definition extends (g g' : graph) (i : nat) (ds : list nat) : Prop :=
  ∀ k j, degree_of g' k = (degree_of g k + if decide (k = i) then length ds else 0)%nat ∧
         edges_of g' k j = (edges_of g k j + if decide (k = i) then occ j ds else 0)%nat.

Lemma add_dependency_spec n idx i g dep :
  sized n g → (i < n)%nat → (∀ d k, idx !! d = Some k → (k < n)%nat) →
  ∃ g', add_dependency idx i g dep = Some g' ∧ sized n g' ∧
    extends g g' i (match idx !! dep with Some k => [k] | None => [] end).
Proof.
  intros [Hs1 Hs2] Hi Hidx. unfold add_dependency. destruct (idx !! dep) as [q|] eqn:Hq.
  - pose proof (Hidx _ _ Hq) as Hqn. destruct g as [deg adj]. simpl in *.
    destruct (lookup_lt_is_Some_2 adj q) as [l Hl]; [lia|].
    destruct (lookup_lt_is_Some_2 deg i) as [d Hd]; [lia|]. rewrite Hl, Hd. simpl.
    eexists. split; [done|]. split; [split; simpl; by rewrite length_insert|].
    intros k j. unfold degree_of, edges_of. simpl. split.
    + destruct (decide (k = i)) as [->|Hk].
      * rewrite list_lookup_total_insert_eq by lia. rewrite (list_lookup_total_correct _ _ _ Hd). lia.
      * rewrite list_lookup_total_insert_ne by done. lia.
    + destruct (decide (j = q)) as [->|Hj].
      * rewrite list_lookup_total_insert_eq by lia. rewrite (list_lookup_total_correct _ _ _ Hl).
        rewrite occ_app, !occ_singleton. repeat case_decide; done || lia.
      * rewrite list_lookup_total_insert_ne by done. rewrite occ_singleton.
        repeat case_decide; done || lia.
  - eexists. split; [done|]. split; [done|]. intros k j. unfold occ. simpl.
    destruct (decide (k = i)); lia.
Qed.

Lemma add_dependencies_spec n idx i deps g :
  sized n g → (i < n)%nat → (∀ d k, idx !! d = Some k → (k < n)%nat) →
  ∃ g', add_dependencies idx i deps g = Some g' ∧ sized n g' ∧
    extends g g' i (omap (λ dep, idx !! dep) deps).
Proof.
  intros Hs Hi Hidx. revert g Hs. induction deps as [|dep deps IH]; intros g Hs.
  { exists g. split; [done|]. split; [done|]. intros k j. rewrite occ_nil. simpl. case_decide; lia. }
  destruct (add_dependency_spec n idx i g dep Hs Hi Hidx) as (g1 & Hg1 & Hs1 & He1).
  destruct (IH g1 Hs1) as (g2 & Hg2 & Hs2 & He2). exists g2.
  split; [cbn [add_dependencies]; rewrite Hg1; exact Hg2|]. split; [done|].
  intros k j. destruct (He1 k j) as [Hd1 Ho1], (He2 k j) as [Hd2 Ho2].
  rewrite Hd2, Hd1, Ho2, Ho1. unfold omap. cbn [list_omap]. destruct (idx !! dep) as [q|].
  - rewrite !occ_cons, occ_nil. cbn [length]. repeat case_decide; split; lia.
  - rewrite occ_nil. cbn [length]. repeat case_decide; split; lia.
Qed.

(** The dependencies of subtask [k] when [sts] are the subtasks from [i] on. *)
Definition deps_from (idx : gmap string nat) (i : nat) (sts : list Subtask) (k : nat) : list nat :=
  if (k <? i)%nat then []
  else match sts !! (k - i)%nat with Some st => resolved idx st | None => [] end.

Lemma deps_from_cons idx i st sts k :
  deps_from idx i (st :: sts) k =
  if decide (k = i) then resolved idx st else deps_from idx (S i) sts k.
Proof.
  unfold deps_from. destruct (Nat.ltb_spec k i), (decide (k = i)) as [->|Hk]; try lia.
  - destruct (Nat.ltb_spec k (S i)); [done|lia].
  - by rewrite Nat.sub_diag.
  - destruct (Nat.ltb_spec k (S i)); [lia|]. by replace (k - i)%nat with (S (k - S i)) by lia.
Qed.

Lemma deps_from_self idx i sts : deps_from idx (S i) sts i = [].
Proof. unfold deps_from. destruct (Nat.ltb_spec i (S i)); [done|lia]. Qed.

Lemma add_subtasks_spec n idx i sts g :
  sized n g → (i + length sts <= n)%nat → (∀ d k, idx !! d = Some k → (k < n)%nat) →
  ∃ g', add_subtasks idx i sts g = Some g' ∧ sized n g' ∧
    ∀ k j, degree_of g' k = (degree_of g k + length (deps_from idx i sts k))%nat ∧
           edges_of g' k j = (edges_of g k j + occ j (deps_from idx i sts k))%nat.
Proof.
  intros Hs Hn Hidx. revert i g Hs Hn. induction sts as [|st sts IH]; intros i g Hs Hn; simpl in *.
  { exists g. split; [done|]. split; [done|]. intros k j. unfold deps_from, occ.
    destruct (k <? i)%nat; simpl; split; lia. }
  destruct (add_dependencies_spec n idx i (depends_on st) g Hs ltac:(lia) Hidx)
    as (g1 & -> & Hs1 & He1). simpl.
  destruct (IH (S i) g1 Hs1 ltac:(lia)) as (g2 & -> & Hs2 & He2).
  exists g2. split; [done|]. split; [done|]. intros k j.
  destruct (He1 k j) as [Hd1 Ho1], (He2 k j) as [Hd2 Ho2].
  rewrite Hd2, Hd1, Ho2, Ho1, deps_from_cons. fold (resolved idx st).
  case_decide as Hk; [subst k; rewrite deps_from_self, occ_nil; simpl; lia|lia].
Qed.

Lemma build_graph_spec sts :
  ∃ deg adj, build_graph sts = Some (deg, adj) ∧
    length deg = length sts ∧ length adj = length sts ∧
    (∀ i, (i < length sts)%nat → deg !! i = Some (length (known_deps sts i))) ∧
    (∀ i j, occ i (adj !!! j) = occ j (known_deps sts i)).
Proof.
  destruct (add_subtasks_spec (length sts) (id_to_idx sts) 0 sts
              (replicate (length sts) 0%nat, replicate (length sts) []))
    as ([deg adj] & Hg & [Hl1 Hl2] & H); [by split; apply length_replicate|done| |].
  { intros d k. apply id_to_idx_range. }
  exists deg, adj. split; [done|]. simpl in *. split; [done|]. split; [done|].
  assert (∀ k, deps_from (id_to_idx sts) 0 sts k = known_deps sts k) as Hdeps.
  { intros k. unfold deps_from. by rewrite Nat.sub_0_r. }
  split.
  - intros i Hi. destruct (H i i) as [Hd _]. rewrite Hdeps in Hd. unfold degree_of in Hd. simpl in Hd.
    rewrite lookup_total_replicate_2 in Hd by done. simpl in Hd. rewrite <-Hd.
    apply list_lookup_lookup_total_lt. lia.
  - intros i j. destruct (H i j) as [_ Ho]. rewrite Hdeps in Ho. unfold edges_of in Ho. simpl in Ho.
    rewrite Ho. destruct (decide (j < length sts)%nat) as [Hj|Hj].
    + by rewrite lookup_total_replicate_2.
    + rewrite list_lookup_total_alt, lookup_ge_None_2; [done|]. rewrite length_replicate. lia.
Qed.

(** ** The loop *)

Lemma mapM_snoc {A B} (f : A → option B) l x ys y :
  mapM f l = Some ys → f x = Some y → mapM f (l ++ [x]) = Some (ys ++ [y]).
Proof.
  rewrite !mapM_Some. intros Hl Hx. apply Forall2_app; [done|]. by repeat constructor.
Qed.

Section Loop.
Context (sts : list Subtask) (adj : list (list nat)).
Context (Hadj : length adj = length sts).
Context (Hedges : ∀ i j, occ i (adj !!! j) = occ j (known_deps sts i)).
Notation n := (length sts).

(** After the layers [L], with [queue] as the next one. *)
Definition loop_inv (L : list (list nat)) (queue deg : list nat) : Prop :=
  length deg = n ∧ NoDup (concat L ++ queue) ∧
  (∀ i, (i < n)%nat → deg !! i = Some (pending (concat L) (known_deps sts i))) ∧
  (∀ i, i ∈ concat L ++ queue ↔ (i < n)%nat ∧ pending (concat L) (known_deps sts i) = 0%nat) ∧
  layering (known_deps sts) (L ++ [queue]) ∧ Forall (λ l, l ≠ []) L.

Lemma occ_targets i queue :
  occ i (targets adj queue) = foldr (λ q s, (occ q (known_deps sts i) + s)%nat) 0%nat queue.
Proof.
  unfold targets. induction queue as [|q queue IH]; [done|].
  rewrite fmap_cons. simpl. by rewrite occ_app, Hedges, IH.
Qed.

Lemma targets_elem i queue :
  i ∈ targets adj queue ↔ ∃ q, q ∈ queue ∧ q ∈ known_deps sts i.
Proof.
  rewrite <-occ_pos, occ_targets. induction queue as [|q queue IH]; simpl; [split; [lia|set_solver]|].
  setoid_rewrite elem_of_cons. pose proof (occ_pos q (known_deps sts i)) as Hq. split.
  - intros H. destruct (decide (0 < occ q (known_deps sts i)))%nat as [Hp|Hp].
    + apply Hq in Hp. eauto.
    + destruct (proj1 IH) as (x & ? & ?); [lia|eauto].
  - intros (x & [->|Hx] & Hk); [apply Hq in Hk; lia|].
    assert (0 < foldr (λ q s, (occ q (known_deps sts i) + s)%nat) 0%nat queue)%nat; [|lia].
    apply IH. eauto.
Qed.

Lemma layering_snoc L queue next :
  layering (known_deps sts) (L ++ [queue]) →
  (∀ i, i ∈ next → (∀ j, j ∈ known_deps sts i → j ∈ concat L ++ queue) ∧
                   ∃ j, j ∈ queue ∧ j ∈ known_deps sts i) →
  layering (known_deps sts) ((L ++ [queue]) ++ [next]).
Proof using Type.
  clear adj Hadj Hedges.
  intros HL Hnext k l i Hk Hi. destruct (decide (k < length (L ++ [queue]))%nat) as [Hlt|Hge].
  - rewrite lookup_app_l in Hk by done. destruct (HL k l i Hk Hi) as [H1 H2]. split.
    + intros j Hj. destruct (H1 j Hj) as (k' & l' & Hk' & Hl' & Hjl). exists k', l'.
      split; [done|]. split; [|done]. by apply lookup_app_l_Some.
    + intros Hk0. destruct (H2 Hk0) as (j & l' & Hj & Hl' & Hjl). exists j, l'.
      split; [done|]. split; [|done]. by apply lookup_app_l_Some.
  - rewrite lookup_app_r in Hk by lia. apply list_lookup_singleton_Some in Hk as [Hk <-].
    destruct (Hnext i Hi) as [H1 (j & Hjq & Hj)]. rewrite length_app in Hk, Hge. simpl in Hk, Hge.
    split.
    + intros x Hx. specialize (H1 x Hx).
      replace (concat L ++ queue) with (concat (L ++ [queue])) in H1
        by (rewrite concat_app; simpl; by rewrite app_nil_r).
      apply list_elem_of_In, in_concat in H1 as (l' & Hl' & Hxl%list_elem_of_In).
      apply list_elem_of_In, list_elem_of_lookup in Hl' as [k' Hk'].
      pose proof (lookup_lt_Some _ _ _ Hk') as Hlt. rewrite length_app in Hlt. simpl in Hlt.
      exists k', l'. split; [lia|]. split; [|done]. by apply lookup_app_l_Some.
    + intros _. exists j, queue. split; [done|]. split; [|done]. apply lookup_app_l_Some.
      apply list_lookup_middle. lia.
Qed.

Lemma loop_inv_range L queue deg i : loop_inv L queue deg → i ∈ concat L ++ queue → (i < n)%nat.
Proof using Type. intros (_ & _ & _ & H & _) Hi. by apply H in Hi as [? _]. Qed.

Lemma loop_inv_length L queue deg : loop_inv L queue deg → (length (concat L ++ queue) <= n)%nat.
Proof using Type.
  clear adj Hadj Hedges.
  intros Hinv. rewrite <-(length_seq n 0). apply NoDup_incl_length.
  - destruct Hinv as (_ & Hnd & _). by apply NoDup_ListNoDup.
  - intros i Hi%list_elem_of_In. apply in_seq. pose proof (loop_inv_range _ _ _ _ Hinv Hi). lia.
Qed.

(** One turn: the dependents that become free form the next layer. *)
Lemma turn_spec L queue deg :
  loop_inv L queue deg → queue ≠ [] →
  ∃ deg' next, release_queue adj queue deg [] = Some (deg', next) ∧
    loop_inv (L ++ [queue]) next deg'.
Proof using Hadj Hedges.
  intros Hinv Hne. pose proof Hinv as (Hlen & Hnd & Hdeg & Hfree & HL & Hall).
  apply NoDup_app in Hnd as (HndL & Hdisj & Hndq).
  assert (∀ i, pending (concat L) (known_deps sts i) =
    pending (concat L ++ queue) (known_deps sts i) + occ i (targets adj queue))%nat as Hsum.
  { intros i. rewrite occ_targets. apply sum_occ; [done|]. intros q Hq HqL. by apply (Hdisj q). }
  assert (∀ q, q ∈ queue → (q < n)%nat) as Hqn.
  { intros q Hq. eapply loop_inv_range; [done|]. apply elem_of_app. by right. }
  assert (∀ i, i ∈ targets adj queue → (i < n)%nat) as Htn.
  { intros i (q & _ & Hi)%targets_elem. unfold known_deps in Hi.
    destruct (sts !! i) eqn:E; [by eapply lookup_lt_Some|by apply elem_of_nil in Hi]. }
  rewrite release_queue_targets by (intros q Hq; rewrite Hadj; auto).
  destruct (release_spec (targets adj queue) deg []) as (deg' & next & -> & Hlen' & Hdeg' & Hndn & Hn).
  { intros i Hi. rewrite Hlen. auto. }
  { intros i d Hd. pose proof (lookup_lt_Some _ _ _ Hd) as Hi. rewrite Hlen in Hi.
    rewrite Hdeg in Hd by done. simplify_eq. rewrite Hsum. lia. }
  exists deg', next. split; [done|].
  assert (concat (L ++ [queue]) = concat L ++ queue) as Hc
    by (rewrite concat_app; simpl; by rewrite app_nil_r).
  assert (∀ i, i ∈ next ↔ i ∈ targets adj queue ∧ (i < n)%nat ∧
            pending (concat L ++ queue) (known_deps sts i) = 0%nat) as Hn'.
  { intros i. rewrite Hn. split; intros [Hi H]; (split; [done|]).
    - pose proof (Htn i Hi) as Hi'. split; [done|]. rewrite Hdeg in H by done. simplify_eq.
      specialize (Hsum i). lia.
    - destruct H as [Hi' H]. rewrite Hdeg by done. f_equal. specialize (Hsum i). lia. }
  split_and!; rewrite ?Hc.
  - by rewrite Hlen'.
  - apply NoDup_app. split_and!; [by apply NoDup_app| |done].
    intros i Hi [Ht _]%Hn'. apply Hfree in Hi as [_ Hz]. apply occ_pos in Ht.
    specialize (Hsum i). lia.
  - intros i Hi. rewrite (Hdeg' i _ (Hdeg i Hi)). f_equal. specialize (Hsum i). lia.
  - intros i. rewrite elem_of_app, Hn', Hfree. specialize (Hsum i). split.
    + intros [[? ?]|(? & ? & ?)]; (split; [done|lia]).
    + intros [Hi Hz]. destruct (decide (0 < occ i (targets adj queue))%nat) as [Ht|Ht].
      * right. split; [by apply occ_pos|done].
      * left. split; [done|lia].
  - apply layering_snoc; [done|]. intros i (Ht & _ & Hz)%Hn'. split.
    + by apply pending_zero.
    + by apply targets_elem in Ht.
  - apply Forall_app. split; [done|]. by repeat constructor.
Qed.

Lemma layer_ids_Some queue : (∀ i, i ∈ queue → (i < n)%nat) → is_Some (layer_ids sts queue).
Proof using Type.
  clear adj Hadj Hedges.
  intros H. apply mapM_is_Some. apply Forall_forall. intros i Hi.
  destruct (lookup_lt_is_Some_2 sts i) as [st Hst]; [auto|]. exists (subtask_id st).
  simpl. by rewrite Hst.
Qed.

Lemma layers_loop_spec fuel L queue deg layers :
  loop_inv L queue deg → mapM (layer_ids sts) L = Some layers →
  (n <= length (concat L) + fuel)%nat →
  ∃ L' layers' deg',
    layers_loop fuel sts adj deg queue (length (concat L)) layers =
      Some (layers', length (concat L')) ∧
    mapM (layer_ids sts) L' = Some layers' ∧ loop_inv L' [] deg'.
Proof using Hadj Hedges.
  revert L queue deg layers. induction fuel as [|fuel IH]; intros L queue deg layers Hinv Hids Hf.
  - destruct queue as [|q queue]; [by exists L, layers, deg|]. exfalso.
    pose proof (loop_inv_length _ _ _ Hinv) as Hl. rewrite length_app in Hl. simpl in Hl. lia.
  - destruct queue as [|q queue]; [by exists L, layers, deg|].
    destruct (turn_spec L (q :: queue) deg Hinv) as (deg' & next & Hr & Hinv'); [done|].
    destruct (layer_ids_Some (q :: queue)) as [ids Hq].
    { intros i Hi. eapply loop_inv_range; [exact Hinv|]. apply elem_of_app. by right. }
    cbn [layers_loop]. rewrite Hq, Hr. cbn [mbind option_bind fst snd].
    replace (length (concat L) + length (q :: queue))%nat
      with (length (concat (L ++ [q :: queue])))
      by (rewrite concat_app, length_app; simpl; rewrite app_nil_r; done).
    apply IH; [done| |].
    + by apply mapM_snoc.
    + rewrite concat_app, length_app. simpl. rewrite app_nil_r. simpl. lia.
Qed.

Lemma roots_inv deg :
  length deg = n → (∀ i, (i < n)%nat → deg !! i = Some (length (known_deps sts i))) →
  loop_inv [] (roots deg) deg.
Proof using Type.
  clear adj Hadj Hedges.
  intros Hlen Hdeg.
  assert (∀ i, i ∈ roots deg ↔ (i < n)%nat ∧ known_deps sts i = []) as Hr.
  { intros i. unfold roots. rewrite filterb_elem, elem_of_seq, Hlen. split.
    - intros [Hi Hb]. rewrite Hdeg in Hb by lia. split; [lia|].
      by destruct (known_deps sts i).
    - intros [Hi Hk]. rewrite Hdeg, Hk by done. split; [lia|done]. }
  split_and!; simpl; [done| | | | |constructor].
  - apply NoDup_ListNoDup, List.NoDup_filter, seq_NoDup.
  - intros i Hi. by rewrite pending_nil, Hdeg.
  - intros i. rewrite Hr, pending_nil, length_zero_iff_nil. done.
  - intros [|k] l i Hk Hi; simplify_eq/=. apply Hr in Hi as [_ ->]. split; [|done].
    by intros j ?%elem_of_nil.
Qed.
End Loop.

(** ** Cycles *)

(** A walk that follows dependencies. *)
Inductive walk (R : nat → nat → Prop) : list nat → Prop :=
| walk_one i : walk R [i]
| walk_step i j l : R i j → walk R (j :: l) → walk R (i :: j :: l).

Lemma walk_tc R i l j : walk R (i :: l) → j ∈ l → tc R i j.
Proof.
  revert i. induction l as [|k l IH]; intros i Hw Hj; [by apply elem_of_nil in Hj|].
  inversion Hw; subst. apply elem_of_cons in Hj as [->|Hj]; [by apply tc_once|].
  eapply tc_l; [done|]. by apply IH.
Qed.

Lemma walk_cycle R l : walk R l → ¬ NoDup l → ∃ i, tc R i i.
Proof.
  intros Hw. induction Hw as [i|i j l Hij Hw IH]; intros Hnd.
  - destruct Hnd. apply NoDup_singleton.
  - destruct (decide (i ∈ j :: l)) as [Hi|Hi].
    + exists i. eapply walk_tc; [|done]. by constructor.
    + apply IH. intros Hnd'. apply Hnd. by apply NoDup_cons.
Qed.

Lemma walk_exists R (P : nat → Prop) k i :
  (∀ i, P i → ∃ j, R i j ∧ P j) → P i → ∃ l, walk R (i :: l) ∧ length l = k ∧ Forall P (i :: l).
Proof.
  intros Hstep. revert i. induction k as [|k IH]; intros i Hi.
  - exists []. split; [constructor|]. split; [done|]. by repeat constructor.
  - destruct (Hstep i Hi) as (j & Hij & Hj). destruct (IH j Hj) as (l & Hw & Hlen & Hall).
    exists (j :: l). split; [by constructor|]. split; [simpl; lia|]. by constructor.
Qed.

(** A set of positions below [n] in which everything depends on something has a
    cycle. *)
Lemma stuck_cycle R (P : nat → Prop) n i :
  (∀ i, P i → (i < n)%nat) → (∀ i, P i → ∃ j, R i j ∧ P j) → P i → ∃ i, tc R i i.
Proof.
  intros Hn Hstep Hi. destruct (walk_exists R P n i Hstep Hi) as (l & Hw & Hlen & Hall).
  eapply walk_cycle; [done|]. intros Hnd%NoDup_ListNoDup.
  assert (length (i :: l) <= length (seq 0 n))%nat as Hle.
  { apply NoDup_incl_length; [done|]. intros x Hx%list_elem_of_In. apply in_seq.
    rewrite Forall_forall in Hall. specialize (Hn x (Hall x Hx)). lia. }
  rewrite length_seq in Hle. simpl in Hle. lia.
Qed.

(** Dependencies go to earlier layers, so they do not run in circles. *)
Lemma layering_acyclic deps n L :
  concat L ≡ₚ seq 0 n → (∀ i j, j ∈ deps i → (i < n)%nat) → layering deps L →
  ∀ i, ¬ tc (λ i j, j ∈ deps i) i i.
Proof.
  intros Hperm Hdom HL i Hc.
  assert (∀ i j, tc (λ i j, j ∈ deps i) i j → ∀ k l, L !! k = Some l → i ∈ l →
            ∃ k' l', (k' < k)%nat ∧ L !! k' = Some l' ∧ j ∈ l') as Hdown.
  { clear i Hc. intros i j H. induction H as [i j Hij|i j x Hij H IH]; intros k l Hk Hi.
    - by apply (HL k l i Hk Hi).
    - destruct (proj1 (HL k l i Hk Hi) j Hij) as (k' & l' & Hlt & Hk' & Hj).
      destruct (IH k' l' Hk' Hj) as (k'' & l'' & Hlt' & Hk'' & Hx). exists k'', l''.
      split; [lia|done]. }
  assert (∀ k l, L !! k = Some l → i ∉ l) as Hnone.
  { intros k. induction (lt_wf k) as [k _ IH]. intros l Hk Hi.
    destruct (Hdown i i Hc k l Hk Hi) as (k' & l' & Hlt & Hk' & Hi'). by eapply IH. }
  assert (∃ j, j ∈ deps i) as [j Hj] by (inversion Hc; eauto). apply Hdom in Hj.
  assert (i ∈ concat L) as Hin. { rewrite Hperm. apply elem_of_seq. lia. }
  apply list_elem_of_In, in_concat in Hin as (l & Hl & Hil%list_elem_of_In).
  apply list_elem_of_In, list_elem_of_lookup in Hl as [k Hk]. by eapply Hnone.
Qed.

(** ** The answer *)

Lemma known_deps_dom sts i j : j ∈ known_deps sts i → (i < length sts)%nat.
Proof.
  unfold known_deps. destruct (sts !! i) eqn:E; [intros _; by eapply lookup_lt_Some|].
  by intros ?%elem_of_nil.
Qed.

(** The invariant at the end of the loop, when every subtask was visited. *)
Lemma loop_done sts L deg :
  loop_inv sts L [] deg → length (concat L) = length sts →
  concat L ≡ₚ seq 0 (length sts) ∧ layering (known_deps sts) L.
Proof.
  intros Hinv Hlen. pose proof Hinv as (_ & Hnd & _ & _ & HL & _). rewrite app_nil_r in Hnd. split.
  - apply NoDup_ListNoDup in Hnd. apply NoDup_Permutation_bis; [done|rewrite length_seq; lia|].
    intros i Hi%list_elem_of_In. apply in_seq.
    assert (i < length sts)%nat; [|lia]. eapply loop_inv_range; [done|]. by rewrite app_nil_r.
  - intros k l i Hk Hi. destruct (HL k l i) as [H1 H2]; [by apply lookup_app_l_Some|done|].
    apply lookup_lt_Some in Hk as Hlt. split.
    + intros j Hj. destruct (H1 j Hj) as (k' & l' & Hk' & Hl' & Hjl). exists k', l'.
      rewrite lookup_app_l in Hl' by lia. done.
    + intros Hk0. destruct (H2 Hk0) as (j & l' & Hj & Hl' & Hjl). exists j, l'.
      rewrite lookup_app_l in Hl' by lia. done.
Qed.

(** When some were not, each of those waits for another one. *)
Lemma loop_stuck sts L deg :
  loop_inv sts L [] deg → length (concat L) ≠ length sts → ∃ i, tc (depends sts) i i.
Proof.
  intros Hinv Hlen. pose proof Hinv as (_ & Hnd & _ & Hfree & _). rewrite app_nil_r in Hnd, Hfree.
  pose proof (loop_inv_length _ _ _ _ Hinv) as Hle. rewrite app_nil_r in Hle.
  assert (∃ i, (i < length sts)%nat ∧ i ∉ concat L) as (i & Hi & HiL).
  { destruct (decide (Forall (λ i, i ∈ concat L) (seq 0 (length sts)))) as [Hall|Hn].
    - exfalso. assert (length (seq 0 (length sts)) <= length (concat L))%nat as H.
      { apply NoDup_incl_length; [apply seq_NoDup|]. intros x Hx%list_elem_of_In.
        rewrite Forall_forall in Hall. by apply list_elem_of_In, Hall. }
      rewrite length_seq in H. lia.
    - apply not_Forall_Exists in Hn; [|intros x; apply _]. apply Exists_exists in Hn as (i & Hi & HiL).
      exists i. apply elem_of_seq in Hi. split; [lia|done]. }
  eapply (stuck_cycle _ (λ i, (i < length sts)%nat ∧ i ∉ concat L)); [by intros ? []| |done].
  clear i Hi HiL. intros i [Hi HiL].
  assert (¬ Forall (λ j, j ∈ concat L) (known_deps sts i)) as Hn.
  { intros Hall. apply HiL, Hfree. split; [done|]. apply pending_zero. by apply Forall_forall. }
  apply not_Forall_Exists in Hn; [|intros x; apply _]. apply Exists_exists in Hn as (j & Hj & HjL).
  exists j. split; [done|]. split; [by eapply known_deps_range|done].
Qed.

(** What the algorithm answers on every input. *)
Lemma execution_order_spec subtasks :
  match resolve_execution_order subtasks with
  | Some (Ok layers) =>
      (∃ L, mapM (layer_ids subtasks) L = Some layers ∧
        concat L ≡ₚ seq 0 (length subtasks) ∧ layering (known_deps subtasks) L ∧
        Forall (λ l, l ≠ []) L) ∧
      (∀ i, ¬ tc (depends subtasks) i i)
  | Some (Err e) =>
      e = TaskError "circular dependency detected in subtasks" ∧
      ∃ i, tc (depends subtasks) i i
  | None => False
  end.
Proof.
  destruct subtasks as [|st rest]; cbn [resolve_execution_order].
  { split; [by exists []|]. intros i Hc.
    assert (∃ j, depends [] i j) as [j Hj] by (inversion Hc; eauto).
    apply known_deps_dom in Hj. simpl in Hj. lia. }
  set (sts := st :: rest). destruct (build_graph_spec sts) as (deg & adj & -> & Hl1 & Hl2 & Hdeg & Hocc).
  cbn [mbind option_bind fst snd].
  destruct (layers_loop_spec sts adj Hl2 Hocc (length sts) [] (roots deg) deg [])
    as (L & layers & deg' & Hloop & Hids & Hinv); [by apply roots_inv|done|done|].
  cbn [concat length] in Hloop. rewrite Hloop. cbn [mbind option_bind fst snd].
  destruct (decide (length (concat L) = length sts)).
  - destruct (loop_done sts L deg') as [Hperm HL]; [done|done|]. split.
    + exists L. split_and!; try done. apply Hinv.
    + apply (layering_acyclic _ (length sts) L); [done| |done]. apply known_deps_dom.
  - split; [done|]. by eapply loop_stuck.
Qed.

(** C30: resolving the order never panics and always terminates.  Without a
    cycle the answer lists every subtask once, in layers by dependency depth: each
    known dependency is in an earlier layer and one is in the layer just before; the
    error is returned exactly when the known dependencies have a cycle. *)
Theorem resolve_execution_order_correct subtasks :
  match resolve_execution_order subtasks with
  | Some (Ok layers) =>
      (∃ L, mapM (layer_ids subtasks) L = Some layers ∧
        concat L ≡ₚ seq 0 (length subtasks) ∧ layering (known_deps subtasks) L ∧
        Forall (λ l, l ≠ []) L) ∧
      (∀ i, ¬ tc (depends subtasks) i i)
  | Some (Err e) =>
      e = TaskError "circular dependency detected in subtasks" ∧
      ∃ i, tc (depends subtasks) i i
  | None => False
  end.
Proof. exact (execution_order_spec subtasks). Qed.
