(* ===== verification/NightWindow.v ===== *)
(** * The night window

    [NightWindow] of [uc-engine/src/scheduler/night_window.rs]: whether a
    scheduled task may run now, when the window next opens and when it closes.
    Wall-clock values are nanoseconds: a [NaiveTime] counts from midnight, a
    local date and time from the local epoch.  The time zones of chrono and
    chrono-tz are a parameter ([TimeZones]) whose documented behaviour is
    [TimeZonesOk]; dates are unbounded, so the panic of chrono at the end of its
    calendar is not covered. *)

From Stdlib Require Import String.
From S2P Require Import Prelude RustStr.

Definition day : Z := 24 * 60 * 60 * 1000000000.

Notation NaiveTime := Z (only parsing).
Definition is_naive_time (t : NaiveTime) : Prop := 0 <= t < day.

(** Parsing a zone name, the wall clock of a zone, and
    [and_local_timezone(tz)] with [earliest()] and [latest()]. *)
Class TimeZones (Tz : Type) := {
  tz_parse : string → option Tz;
  wall_clock : Tz → Instant → Z;
  local_earliest : Tz → Z → option Instant;
  local_latest : Tz → Z → option Instant
}.

(** A wall-clock value maps to the instants that show it: none in the gap of a
    clock change, two where the clock goes back. *)
Class TimeZonesOk (Tz : Type) `{TimeZones Tz} : Prop := {
  earliest_Some : ∀ tz l t, local_earliest tz l = Some t →
    wall_clock tz t = l ∧ ∀ t', wall_clock tz t' = l → t <= t';
  earliest_None : ∀ tz l t, local_earliest tz l = None → wall_clock tz t ≠ l;
  latest_Some : ∀ tz l t, local_latest tz l = Some t →
    wall_clock tz t = l ∧ ∀ t', wall_clock tz t' = l → t' <= t;
  latest_None : ∀ tz l t, local_latest tz l = None → wall_clock tz t ≠ l
}.

Inductive NightWindowError : Type :=
| InvalidTimezone (name : string)
| AmbiguousTime (detail : string).

(** [NightWindowConfig] of uc-types/src/scheduler.rs. *)
Record NightWindowConfig : Type := mkWindowConfig {
  config_start : NaiveTime;
  config_end : NaiveTime;
  config_timezone : string
}.

Definition NightWindowConfig_default : NightWindowConfig :=
  mkWindowConfig (22 * 60 * 60 * 1000000000) (6 * 60 * 60 * 1000000000) "UTC".

Section NightWindow.
Context {Tz : Type} `{TimeZones Tz}.

(** [DateTime<Tz>]. *)
Record DateTime : Type := mkDateTime { instant : Instant; zone : Tz }.

(** [date_naive()] as a number of days, [time()] and [date.and_time(t)]. *)
Definition date_naive (t : DateTime) : Z := wall_clock (zone t) (instant t) `div` day.
Definition time (t : DateTime) : NaiveTime := wall_clock (zone t) (instant t) `mod` day.
Definition and_time (date : Z) (t : NaiveTime) : Z := date * day + t.

Record NightWindow : Type := mkWindow {
  window_start : NaiveTime;
  window_end : NaiveTime;
  window_tz : Tz
}.

Definition from_config (config : NightWindowConfig) : result NightWindow NightWindowError :=
  match tz_parse (config_timezone config) with
  | Some tz => Ok (mkWindow (config_start config) (config_end config) tz)
  | None => Err (InvalidTimezone (config_timezone config))
  end.

Definition crosses_midnight (w : NightWindow) : bool := window_end w <? window_start w.

Definition is_within_window (w : NightWindow) (now : DateTime) : bool :=
  if crosses_midnight w
  then (window_start w <=? time now) || (time now <? window_end w)
  else (window_start w <=? time now) && (time now <? window_end w).

(** [earliest().unwrap_or(now)]: a new [DateTime] of the window's zone, or [now]
    itself in a gap. *)
Definition unwrap_or (w : NightWindow) (t : option Instant) (now : DateTime) : DateTime :=
  match t with Some t => mkDateTime t (window_tz w) | None => now end.

Definition today_window_start (w : NightWindow) (now : DateTime) : DateTime :=
  unwrap_or w (local_earliest (window_tz w) (and_time (date_naive now) (window_start w))) now.

Definition tomorrow_window_start (w : NightWindow) (now : DateTime) : DateTime :=
  let tomorrow := date_naive now + 1 in
  unwrap_or w (local_earliest (window_tz w) (and_time tomorrow (window_start w))) now.

Definition next_window_start (w : NightWindow) (now : DateTime) : DateTime :=
  let today_start := today_window_start w now in
  if instant now <? instant today_start then today_start else tomorrow_window_start w now.

Definition current_window_end (w : NightWindow) (start : DateTime) : DateTime :=
  let end_date := if crosses_midnight w then date_naive start + 1 else date_naive start in
  unwrap_or w (local_latest (window_tz w) (and_time end_date (window_end w))) start.

Definition next_window_end (w : NightWindow) (now : DateTime) : DateTime :=
  if is_within_window w now then current_window_end w now
  else current_window_end w (next_window_start w now).
End NightWindow.
Arguments DateTime : clear implicits.
Arguments NightWindow : clear implicits.

(** ** Meaning of the window *)

(** A window is well formed when its ends are times of the day. *)
Definition window_ok {Tz} (w : NightWindow Tz) : Prop :=
  is_naive_time (window_start w) ∧ is_naive_time (window_end w).

(** [t] is the first instant after [now] at which the clock of [tz] shows the
    time of day [at_]. *)
Definition first_after {Tz} `{TimeZones Tz} (tz : Tz) (at_ : NaiveTime) (now t : Instant) : Prop :=
  now < t ∧ wall_clock tz t `mod` day = at_ ∧
  ∀ t', now < t' → wall_clock tz t' `mod` day = at_ → t <= t'.

(** A zone without clock changes. *)
Definition fixed_offset {Tz} `{TimeZones Tz} (tz : Tz) (off : Z) : Prop :=
  ∀ t, wall_clock tz t = t + off.

Lemma day_pos : 0 < day.
Proof. reflexivity. Qed.

(** The wall clock of an instant, as a day and a time of day. *)
Lemma wall_clock_split {Tz} `{TimeZones Tz} (t : DateTime Tz) :
  wall_clock (zone t) (instant t) = and_time (date_naive t) (time t) ∧ is_naive_time (time t).
Proof.
  unfold date_naive, time, and_time, is_naive_time. pose proof day_pos.
  pose proof (Z.div_mod (wall_clock (zone t) (instant t)) day).
  pose proof (Z.mod_pos_bound (wall_clock (zone t) (instant t)) day). lia.
Qed.

Lemma and_time_mod d t : is_naive_time t → and_time d t `mod` day = t.
Proof. intros Ht. unfold and_time. rewrite Z.add_comm, Z_mod_plus_full. by apply Z.mod_small. Qed.

Lemma and_time_div d t : is_naive_time t → and_time d t `div` day = d.
Proof.
  intros [? ?]. unfold and_time. pose proof day_pos. rewrite Z.div_add_l by lia.
  rewrite Z.div_small by lia. lia.
Qed.

Section Fixed.
Context {Tz : Type} `{TimeZonesOk Tz} (tz : Tz) (off : Z) (Hfix : fixed_offset tz off).

Lemma fixed_earliest l : local_earliest tz l = Some (l - off).
Proof using All.
  destruct (local_earliest tz l) as [t|] eqn:E.
  - apply earliest_Some in E as [E _]. rewrite Hfix in E. f_equal. lia.
  - apply (earliest_None _ _ (l - off)) in E. destruct E. rewrite Hfix. lia.
Qed.

Lemma fixed_latest l : local_latest tz l = Some (l - off).
Proof using All.
  destruct (local_latest tz l) as [t|] eqn:E.
  - apply latest_Some in E as [E _]. rewrite Hfix in E. f_equal. lia.
  - apply (latest_None _ _ (l - off)) in E. destruct E. rewrite Hfix. lia.
Qed.

(** The first instant after [now] is less than a day away. *)
Lemma fixed_first_after at_ now t :
  is_naive_time at_ → now < t <= now + day → (t + off) `mod` day = at_ →
  first_after tz at_ now t.
Proof using Hfix.
  intros Hat Ht Hmod. split; [lia|]. rewrite Hfix. split; [done|].
  intros t' Ht' Hmod'. rewrite Hfix in Hmod'. pose proof day_pos as Hd.
  pose proof (Z.div_mod (t + off) day) as D1. pose proof (Z.div_mod (t' + off) day) as D2.
  assert (¬ (t' + off) `div` day < (t + off) `div` day); nia.
Qed.
End Fixed.

(** ** The time zones of the witnesses *)

(** UTC, and a zone whose clock goes forward by an hour at midnight after day 1. *)
Definition clock_change : Z := 2 * day.
Definition hour : Z := 60 * 60 * 1000000000.

Inductive sample_zone : Type := Utc | Forward.

Definition sample_earliest (tz : sample_zone) (l : Z) : option Instant :=
  match tz with
  | Utc => Some l
  | Forward =>
      if l <? clock_change then Some l
      else if l <? clock_change + hour then None else Some (l - hour)
  end.

#[export] Instance sample_zones : TimeZones sample_zone := {
  tz_parse := λ s, if s ==? "UTC" then Some Utc else None;
  wall_clock := λ tz t,
    match tz with Utc => t | Forward => if t <? clock_change then t else t + hour end;
  local_earliest := sample_earliest;
  local_latest := sample_earliest
}.

#[export] Instance sample_zones_ok : TimeZonesOk sample_zone.
Proof.
  assert (0 < hour) as Hh by reflexivity.
  split; intros [] l t; cbn [local_earliest local_latest sample_zones sample_earliest wall_clock].
  all: repeat case_match; intros Hl; simplify_eq; bool_hyps.
  all: first [done | lia | split; [lia|intros t'; repeat case_match; bool_hyps; lia] ].
Qed.

(** ** Properties *)

(** Whether a moment is in the window is membership of its local time in the
    half-open arc of the clock from the start to the end, whether or not the arc
    passes midnight; equal ends are an empty window. *)
Theorem within_window_is_arc {Tz} `{TimeZones Tz} (w : NightWindow Tz) (now : DateTime Tz) :
  window_ok w →
  is_within_window w now =
    ((time now - window_start w) `mod` day <? (window_end w - window_start w) `mod` day).
Proof.
  intros [[Hs1 Hs2] [He1 He2]]. destruct (wall_clock_split now) as [_ [Ht1 Ht2]].
  assert (∀ x, - day < x < day → x `mod` day = if x <? 0 then x + day else x) as Hmod.
  { intros x Hx. destruct (Z.ltb_spec x 0).
    - rewrite <-(Z_mod_plus_full x 1 day), Z.mod_small; lia.
    - apply Z.mod_small. lia. }
  unfold is_within_window, crosses_midnight. rewrite !Hmod by lia.
  repeat match goal with |- context [if ?a <? ?b then _ else _] => destruct (Z.ltb_spec a b) end;
    repeat match goal with |- context [?a <? ?b] => destruct (Z.ltb_spec a b) end;
    repeat match goal with |- context [?a <=? ?b] => destruct (Z.leb_spec a b) end;
    simpl; done || lia.
Qed.

Lemma within_window_is_arc_witness :
  let w := mkWindow (22 * hour) (6 * hour) Utc in
  let now := mkDateTime (3 * hour) Utc in
  is_within_window w now =
    ((time now - window_start w) `mod` day <? (window_end w - window_start w) `mod` day).
Proof. apply within_window_is_arc. split; split; vm_compute; congruence. Defined.

(** In a zone without clock changes the next start is the first moment strictly
    after now at which the local clock shows the start of the window. *)
Theorem next_window_start_exact {Tz} `{TimeZonesOk Tz} (w : NightWindow Tz) (now : DateTime Tz) off :
  window_ok w → zone now = window_tz w → fixed_offset (window_tz w) off →
  let r := next_window_start w now in
  zone r = window_tz w ∧ first_after (window_tz w) (window_start w) (instant now) (instant r).
Proof.
  intros [Hs He] Hz Hfix. destruct (wall_clock_split now) as [Hw Ht]. rewrite Hz, Hfix in Hw.
  unfold next_window_start, today_window_start, tomorrow_window_start.
  rewrite !(fixed_earliest _ off Hfix). cbn [unwrap_or instant].
  destruct (Z.ltb_spec (instant now) (and_time (date_naive now) (window_start w) - off));
    cbn [instant zone]; (split; [done|]); apply (fixed_first_after _ off Hfix); try done.
  - unfold and_time, is_naive_time in *. lia.
  - rewrite Z.sub_add. by apply and_time_mod.
  - unfold and_time, is_naive_time in *. lia.
  - rewrite Z.sub_add. by apply and_time_mod.
Qed.

Lemma next_window_start_exact_witness :
  let w := mkWindow (22 * hour) (6 * hour) Utc in
  let now := mkDateTime (23 * hour) Utc in
  instant (next_window_start w now) = day + 22 * hour ∧
  first_after Utc (22 * hour) (23 * hour) (instant (next_window_start w now)).
Proof.
  split; [vm_compute; reflexivity|].
  apply (next_window_start_exact (mkWindow (22 * hour) (6 * hour) Utc) (mkDateTime (23 * hour) Utc) 0).
  - split; split; vm_compute; congruence.
  - reflexivity.
  - intros t. cbn. lia.
Defined.

(** In any zone the next start is the earliest moment at which the local clock
    shows the start of the window today, if that is still to come, or tomorrow; when
    tomorrow's start falls into the gap of a clock change the answer is now. *)
Theorem next_window_start_any_zone {Tz} `{TimeZonesOk Tz} (w : NightWindow Tz) (now : DateTime Tz) :
  window_ok w →
  let r := next_window_start w now in
  (zone r = window_tz w ∧ time r = window_start w ∧
   (date_naive r = date_naive now ∧ instant now < instant r ∨
    date_naive r = date_naive now + 1)) ∨
  (r = now ∧
   ∀ t, wall_clock (window_tz w) t ≠ and_time (date_naive now + 1) (window_start w)).
Proof.
  intros [Hs _]. unfold next_window_start.
  assert (∀ d t, local_earliest (window_tz w) (and_time d (window_start w)) = Some t →
    time (mkDateTime t (window_tz w)) = window_start w ∧
    date_naive (mkDateTime t (window_tz w)) = d) as Hat.
  { intros d t [Hw _]%earliest_Some. unfold time, date_naive. cbn [instant zone]. rewrite Hw.
    by rewrite and_time_mod, and_time_div. }
  destruct (Z.ltb_spec (instant now) (instant (today_window_start w now))) as [Hlt|_].
  - left. unfold today_window_start in *. destruct (local_earliest _ _) as [t|] eqn:E; [|simpl in *; lia].
    destruct (Hat _ _ E). cbn [unwrap_or instant zone] in *. auto.
  - unfold tomorrow_window_start. destruct (local_earliest _ _) as [t|] eqn:E.
    + left. destruct (Hat _ _ E). cbn [unwrap_or instant zone] in *. auto.
    + right. split; [done|]. intros t. by apply earliest_None.
Qed.

(** The evening before the clock change: tomorrow's start at 00:30 does not
    exist. *)
Lemma next_window_start_any_zone_witness :
  let w := mkWindow (hour / 2) (6 * hour) Forward in
  let now := mkDateTime (day + 23 * hour) Forward in
  let r := next_window_start w now in
  r = now ∧
  ((zone r = window_tz w ∧ time r = window_start w ∧
    (date_naive r = date_naive now ∧ instant now < instant r ∨
     date_naive r = date_naive now + 1)) ∨
   (r = now ∧
    ∀ t, wall_clock (window_tz w) t ≠ and_time (date_naive now + 1) (window_start w))).
Proof.
  split; [vm_compute; reflexivity|].
  apply (next_window_start_any_zone (mkWindow (hour / 2) (6 * hour) Forward)).
  split; split; vm_compute; congruence.
Defined.

(** In a zone without clock changes the reported end is the first moment after now
    at which the local clock shows the end of the window; after midnight inside a
    window that passes midnight it is a day later than that. *)
Theorem next_window_end_exact {Tz} `{TimeZonesOk Tz} (w : NightWindow Tz) (now : DateTime Tz) off :
  window_ok w → zone now = window_tz w → fixed_offset (window_tz w) off →
  let reported := instant (next_window_end w now) in
  let late := if crosses_midnight w && (time now <? window_end w) then day else 0 in
  first_after (window_tz w) (window_end w) (instant now) (reported - late).
Proof.
  intros [Hs He] Hz Hfix. destruct (wall_clock_split now) as [Hw Ht]. rewrite Hz, Hfix in Hw.
  assert (∀ d t, date_naive (mkDateTime (and_time d t - off) (window_tz w)) =
            and_time d t `div` day) as Hdate.
  { intros d t. unfold date_naive. cbn [instant zone]. rewrite Hfix. f_equal. lia. }
  unfold next_window_end, current_window_end, next_window_start, today_window_start,
    tomorrow_window_start.
  rewrite !(fixed_earliest _ off Hfix), !(fixed_latest _ off Hfix). cbn [unwrap_or instant].
  unfold is_within_window, crosses_midnight in *.
  assert (∀ d, and_time d (window_end w) - off + off = and_time d (window_end w)) by (intros; lia).
  assert (∀ d, (and_time d (window_end w) - off - day) + off = and_time (d - 1) (window_end w))
    by (intros; unfold and_time; lia).
  pose proof (and_time_mod (date_naive now) (window_end w) He) as M0.
  pose proof (and_time_mod (date_naive now + 1) (window_end w) He) as M1.
  apply (fixed_first_after _ off Hfix); [done| |].
  all: repeat match goal with |- context [if ?b then _ else _] => destruct b eqn:? end; bool_hyps;
    cbn [instant]; rewrite ?Hdate, ?and_time_div by done; rewrite ?Z.sub_0_r.
  all: first [ unfold and_time, is_naive_time in *; lia
             | match goal with
               | |- _ `mod` day = _ =>
                   unfold and_time in *; rewrite ?Z.sub_0_r;
                   first [ rewrite <-M0 at 2; f_equal; lia | rewrite <-M1 at 2; f_equal; lia ]
               end ].
Qed.

(** At 03:00 in a window from 22:00 to 06:00 the reported end is 06:00 of the
    following day. *)
Lemma next_window_end_exact_witness :
  let w := mkWindow (22 * hour) (6 * hour) Utc in
  let now := mkDateTime (3 * hour) Utc in
  is_within_window w now = true ∧
  instant (next_window_end w now) = day + 6 * hour ∧
  first_after Utc (6 * hour) (3 * hour) (instant (next_window_end w now) - day).
Proof.
  split; [vm_compute; reflexivity|]. split; [vm_compute; reflexivity|].
  assert (window_ok (mkWindow (22 * hour) (6 * hour) Utc)) as Hok
    by (split; split; vm_compute; congruence).
  assert (fixed_offset Utc 0) as Hfix by (intros t; cbn; lia).
  exact (next_window_end_exact (mkWindow (22 * hour) (6 * hour) Utc) (mkDateTime (3 * hour) Utc) 0
           Hok eq_refl Hfix).
Defined.
