(* ===== verification/Placement.v ===== *)
(** * Placement of nodes on workers

    [uc-grpc/src/placement.rs]: the score that decides where a node of a task is
    sent first.  Scoring is a soft preference over the workers that passed the
    hard gates; no eligible candidate means the shared subject.  Comparators are
    functions to [comparison], as in Rust, and [min_by] keeps the first of equal
    minima.  Parsing the registration metadata as JSON is a parameter. *)

From Stdlib Require Import String Ascii QArith_base.
From S2P Require Import Prelude RustStr Task.

Definition PER_WORKER_SUBJECT_PREFIX : string := "uc.subtask.execute.w.".
Definition MAX_RECENT_FILES : nat := 64.
Definition MIN_AFFINITY_HITS : nat := 1.

Inductive PlacementPolicy : Type := Affinity | Capacity.
#[export] Instance PlacementPolicy_eq_dec : EqDecision PlacementPolicy.
Proof. solve_decision. Defined.

Definition PlacementPolicy_from_str (value : string) : result PlacementPolicy EngineError :=
  if value ==? "affinity" then Ok Affinity
  else if value ==? "capacity" then Ok Capacity
  else Err (ConfigError "UC_PLACEMENT_POLICY must be affinity or capacity").

Definition per_worker_subject (worker_id : string) : string :=
  PER_WORKER_SUBJECT_PREFIX +:+ worker_id.

(** ** Paths *)

Definition backslash : ascii := "\".

(** [while let Some(rest) = out.strip_prefix("./")]. *)
Fixpoint strip_dot_slash (l : list ascii) : list ascii :=
  match l with
  | c :: d :: rest =>
      if bool_decide (c = "."%char ∧ d = "/"%char) then strip_dot_slash rest else l
  | _ => l
  end.

Definition normalize_path (path : string) : string :=
  let replaced := (λ c, if bool_decide (c = backslash) then "/"%char else c) <$> chars (trim path) in
  of_chars (strip_dot_slash replaced).

(** The loop of [normalize_recent_files]. *)
Fixpoint recent_files_loop (raw out : list string) : list string :=
  match raw with
  | [] => out
  | entry :: rest =>
      if (MAX_RECENT_FILES <=? length out)%nat then out
      else
        let norm := normalize_path entry in
        if (norm ==? "") || existsb (λ e, e ==? norm) out then recent_files_loop rest out
        else recent_files_loop rest (out ++ [norm])
  end.

Definition normalize_recent_files (raw : list string) : list string := recent_files_loop raw [].

(** The loop of [affinity_hits]. *)
Fixpoint affinity_loop (file_constraints recent_files matched : list string) : list string :=
  match file_constraints with
  | [] => matched
  | constraint :: rest =>
      let norm := normalize_path constraint in
      if (norm ==? "") || existsb (λ m, m ==? norm) matched
      then affinity_loop rest recent_files matched
      else if existsb (λ r, r ==? norm) recent_files
      then affinity_loop rest recent_files (matched ++ [norm])
      else affinity_loop rest recent_files matched
  end.

Definition affinity_hits (file_constraints recent_files : list string) : nat :=
  match file_constraints, recent_files with
  | [], _ | _, [] => 0
  | _, _ => length (affinity_loop file_constraints recent_files [])
  end.

(** ** Candidates *)

(** [serde_json::from_str] followed by [get("hostname")] and [as_str()]. *)
Class MetadataJson := { metadata_hostname : string → option string }.

Record PlacementCandidate : Type := mkCandidate {
  worker_id : string;
  metadata : string;
  recent_files : list string;
  current_load : Z;
  max_capacity : Z
}.

(** [u32] fields; the products below are taken in [u64]. *)
Definition candidate_ok (c : PlacementCandidate) : Prop :=
  is_u32 (current_load c) ∧ is_u32 (max_capacity c).

Definition load_percent (c : PlacementCandidate) : Z :=
  if max_capacity c =? 0 then 100
  else Z.min ((current_load c * 100) `div` max_capacity c) u32_max.

Record Placement : Type := mkPlacement {
  placement_worker : string;
  placement_subject : string;
  placement_hits : nat;
  placement_load : Z;
  same_host : bool
}.

Definition then_with (c d : comparison) : comparison := match c with Eq => d | _ => c end.

(** [false < true]. *)
Definition bool_cmp (a b : bool) : comparison :=
  match a, b with false, true => Lt | true, false => Gt | _, _ => Eq end.

(** [iter().min_by(cmp)]: the first of equal minima. *)
Definition min_by {A} (cmp : A → A → comparison) (l : list A) : option A :=
  match l with
  | [] => None
  | x :: l' => Some (foldl (λ x y, match cmp x y with Gt => y | _ => x end) x l')
  end.

Section Place.
Context `{MetadataJson}.

Definition host_from_metadata (m : string) : option string :=
  if m ==? "" then None
  else match metadata_hostname m with
       | None => None
       | Some host => let host := trim host in if host ==? "" then None else Some host
       end.

(** The body of [filter_map]. *)
Definition placement_for (fc : list string) (sibling_hosts : gset string)
    (policy : PlacementPolicy) (c : PlacementCandidate)
    : option (PlacementCandidate * Placement) :=
  let hits := affinity_hits fc (recent_files c) in
  if ((policy ==? Affinity) && (hits <? MIN_AFFINITY_HITS)%nat) ||
     ((policy ==? Capacity) &&
      ((max_capacity c =? 0) || (max_capacity c <=? current_load c)))
  then None
  else
    let host := host_from_metadata (metadata c) in
    Some (c, mkPlacement (worker_id c) (per_worker_subject (worker_id c)) hits (load_percent c)
               match host with
               | Some h => bool_decide (h ∈ sibling_hosts)
               | None => false
               end).

(** The comparator of [min_by]. *)
Definition placement_cmp (policy : PlacementPolicy)
    (x y : PlacementCandidate * Placement) : comparison :=
  let '(ca, a) := x in
  let '(cb, b) := y in
  if policy ==? Capacity then
    then_with (current_load ca * max_capacity cb ?= current_load cb * max_capacity ca)
      (then_with (placement_hits b ?= placement_hits a)%nat
        (then_with (bool_cmp (same_host b) (same_host a))
          (placement_worker a ?= placement_worker b)%string))
  else
    then_with (placement_hits b ?= placement_hits a)%nat
      (then_with (placement_load a ?= placement_load b)
        (then_with (bool_cmp (same_host b) (same_host a))
          (placement_worker a ?= placement_worker b)%string)).

Definition place_with_policy (candidates : list PlacementCandidate) (fc : list string)
    (sibling_hosts : gset string) (policy : PlacementPolicy) : option Placement :=
  snd <$> min_by (placement_cmp policy) (omap (placement_for fc sibling_hosts policy) candidates).

Definition place (candidates : list PlacementCandidate) (fc : list string)
    (sibling_hosts : gset string) : option Placement :=
  place_with_policy candidates fc sibling_hosts Affinity.
End Place.

(** ** Comparators *)

(** A comparator that orders the elements of [P] totally, up to [Eq]. *)
Record orders {A} (P : A → Prop) (cmp : A → A → comparison) : Prop := {
  cmp_opp : ∀ x y, P x → P y → cmp y x = CompOpp (cmp x y);
  cmp_eq : ∀ x y z, P x → P y → P z → cmp x y = Eq → cmp x z = cmp y z;
  cmp_lt : ∀ x y z, P x → P y → P z → cmp x y = Lt → cmp y z = Lt → cmp x z = Lt
}.

Lemma orders_then {A} (P : A → Prop) a b :
  orders P a → orders P b → orders P (λ x y, then_with (a x y) (b x y)).
Proof.
  intros [Oa Ea La] [Ob Eb Lb]. unfold then_with. split.
  - intros x y Hx Hy. rewrite (Oa x y Hx Hy), (Ob x y Hx Hy). by destruct (a x y).
  - intros x y z Hx Hy Hz Hxy. destruct (a x y) eqn:E; try done.
    by rewrite (Ea x y z Hx Hy Hz E), (Eb x y z Hx Hy Hz Hxy).
  - intros x y z Hx Hy Hz H1 H2. destruct (a x y) eqn:E1; try done.
    + rewrite (Ea x y z Hx Hy Hz E1). destruct (a y z); try done. by apply (Lb x y z).
    + destruct (a y z) eqn:E2; try done.
      * assert (a z x = Gt) as Hzx.
        { assert (a z y = Eq) as Hzy by (by rewrite (Oa y z Hy Hz), E2).
          by rewrite (Ea z y x Hz Hy Hx Hzy), (Oa x y Hx Hy), E1. }
        by rewrite (Oa z x Hz Hx), Hzx.
      * by rewrite (La x y z Hx Hy Hz E1 E2).
Qed.

Lemma orders_flip {A} (P : A → Prop) a : orders P a → orders P (λ x y, a y x).
Proof.
  intros [Oa Ea La]. split.
  - intros x y Hx Hy. by rewrite (Oa y x).
  - intros x y z Hx Hy Hz Hxy. rewrite (Oa x z), (Oa y z) by done.
    by rewrite (Ea y x z Hy Hx Hz Hxy).
  - intros x y z Hx Hy Hz H1 H2. by apply (La z y x).
Qed.

Lemma orders_key {A B} (P : A → Prop) (f : A → B) (cmp : B → B → comparison) :
  orders (λ _, True) cmp → orders P (λ x y, cmp (f x) (f y)).
Proof. intros [O E L]. split; eauto. Qed.

Lemma orders_nat : orders (λ _, True) Nat.compare.
Proof.
  split.
  - intros x y _ _. apply Nat.compare_antisym.
  - by intros x y z _ _ _ ->%Nat.compare_eq.
  - intros x y z _ _ _ ?%Nat.compare_lt_iff ?%Nat.compare_lt_iff. apply Nat.compare_lt_iff. lia.
Qed.

Lemma orders_Z : orders (λ _, True) Z.compare.
Proof.
  split.
  - intros x y _ _. apply Z.compare_antisym.
  - by intros x y z _ _ _ ->%Z.compare_eq.
  - intros x y z _ _ _ H1 H2. rewrite Z.compare_lt_iff in *. lia.
Qed.

Lemma orders_bool : orders (λ _, True) bool_cmp.
Proof. split; intros; repeat match goal with b : bool |- _ => destruct b end; done. Qed.

Lemma orders_string : orders (λ _, True) String.compare.
Proof.
  split.
  - intros x y _ _. apply String.compare_antisym.
  - by intros x y z _ _ _ ->%String.compare_eq_iff.
  - intros x y z _ _ _ H1 H2.
    assert (String.leb x z = true) as H.
    { apply (string_compare_trans x y z); unfold String.leb; [by rewrite H1|by rewrite H2]. }
    unfold String.leb in H. destruct (String.compare x z) eqn:E; [|done|done].
    apply String.compare_eq_iff in E as ->. rewrite String.compare_antisym, H2 in H1. done.
Qed.

(** Fractions with positive denominators, compared by cross multiplication. *)
Lemma orders_fraction {A} (P : A → Prop) (num den : A → Z) :
  (∀ x, P x → 0 < den x) → orders P (λ x y, num x * den y ?= num y * den x).
Proof.
  intros Hd. split.
  - intros x y _ _. apply Z.compare_antisym.
  - intros x y z Hx%Hd Hy%Hd Hz%Hd Hxy%Z.compare_eq.
    destruct (Z.compare_spec (num y * den z) (num z * den y)) as [E|E|E];
      [apply Z.compare_eq_iff|apply Z.compare_lt_iff|apply Z.compare_gt_iff]; nia.
  - intros x y z Hx%Hd Hy%Hd Hz%Hd H1 H2. rewrite Z.compare_lt_iff in *. nia.
Qed.

Lemma cmp_refl {A} (P : A → Prop) cmp x : orders P cmp → P x → cmp x x = Eq.
Proof. intros [O _ _] Hx. specialize (O x x Hx Hx). by destruct (cmp x x). Qed.

Lemma cmp_le_trans {A} (P : A → Prop) cmp x y z :
  orders P cmp → P x → P y → P z → cmp x y ≠ Gt → cmp y z ≠ Gt → cmp x z ≠ Gt.
Proof.
  intros [O E L] Hx Hy Hz H1 H2. destruct (cmp x y) eqn:E1; [by rewrite (E x y z)| |done].
  destruct (cmp y z) eqn:E2; [|by rewrite (L x y z)|done].
  assert (cmp z y = Eq) as Hzy by (by rewrite (O y z), E2).
  by rewrite (O z x), (E z y x), (O x y), E1.
Qed.

(** [min_by] finds a minimum of a non-empty list. *)
Lemma min_by_fold {A} (P : A → Prop) cmp l x :
  orders P cmp → P x → Forall P l →
  let m := foldl (λ x y, match cmp x y with Gt => y | _ => x end) x l in
  m ∈ x :: l ∧ ∀ y, y ∈ x :: l → cmp m y ≠ Gt.
Proof.
  intros Hord. revert x. induction l as [|a l IH]; intros x Hx Hall; simpl.
  - split; [left|]. intros y ->%list_elem_of_singleton. by rewrite (cmp_refl P).
  - apply Forall_cons in Hall as [Ha Hall].
    assert (cmp x a ≠ Gt ∨ cmp a x ≠ Gt) as Htot.
    { rewrite (cmp_opp _ _ Hord x a) by done. destruct (cmp x a); auto. }
    set (b := match cmp x a with Gt => a | _ => x end).
    assert (P b ∧ (b = x ∨ b = a) ∧ cmp b x ≠ Gt ∧ cmp b a ≠ Gt) as (Hb & Hor & Hbx & Hba).
    { pose proof (cmp_refl P cmp x Hord Hx) as Rx. pose proof (cmp_refl P cmp a Hord Ha) as Ra.
      unfold b. destruct (cmp x a) eqn:E; split_and!; auto; try congruence.
      destruct Htot; congruence. }
    clearbody b. destruct (IH b Hb Hall) as [Hin Hmin]. rewrite Forall_forall in Hall.
    assert (∀ y, y ∈ b :: l → P y) as HP by (intros y [->|?]%elem_of_cons; auto).
    split; [set_solver|].
    intros y [->|[->|Hy]%elem_of_cons]%elem_of_cons.
    + apply (cmp_le_trans P cmp _ b); auto. apply Hmin. left.
    + apply (cmp_le_trans P cmp _ b); auto. apply Hmin. left.
    + apply Hmin. by right.
Qed.

Lemma min_by_spec {A} (P : A → Prop) cmp l :
  orders P cmp → Forall P l →
  match min_by cmp l with
  | None => l = []
  | Some m => m ∈ l ∧ ∀ y, y ∈ l → cmp m y ≠ Gt
  end.
Proof.
  intros Hord Hall. destruct l as [|x l]; [done|]. apply Forall_cons in Hall as [Hx Hall].
  by apply (min_by_fold P).
Qed.

(** ** What scoring compares *)

Section PlaceSpec.
Context `{MetadataJson} (fc : list string) (hosts : gset string) (policy : PlacementPolicy).
Notation scored := (placement_for fc hosts policy).

(** A scored candidate, and what its placement says. *)
Definition scored_ok (x : PlacementCandidate * Placement) : Prop :=
  candidate_ok x.1 ∧ scored x.1 = Some x.

Lemma placement_for_Some c x :
  scored c = Some x →
  x.1 = c ∧ placement_worker x.2 = worker_id c ∧ placement_load x.2 = load_percent c ∧
  placement_hits x.2 = affinity_hits fc (recent_files c) ∧
  (policy = Affinity → (MIN_AFFINITY_HITS <= placement_hits x.2)%nat) ∧
  (policy = Capacity → max_capacity c ≠ 0 ∧ current_load c < max_capacity c).
Proof.
  unfold placement_for. destruct (_ || _) eqn:E; [done|]. intros [= <-]. simpl.
  apply orb_false_iff in E as [E1 E2]. split_and!; try done; intros ->; simpl in *.
  - apply Nat.ltb_ge in E1. done.
  - bool_hyps. done.
Qed.

Lemma scored_elem cands x :
  Forall candidate_ok cands →
  x ∈ omap scored cands → scored_ok x ∧ x.1 ∈ cands.
Proof.
  intros Hok (c & Hc & Hs)%list_elem_of_omap. rewrite Forall_forall in Hok.
  destruct (placement_for_Some _ _ Hs) as (Hx & _). unfold scored_ok. rewrite Hx.
  split; [split; [by apply Hok|done]|done].
Qed.

Lemma placement_cmp_orders : orders scored_ok (placement_cmp policy).
Proof.
  assert (orders scored_ok (λ x y : PlacementCandidate * Placement,
    then_with (bool_cmp (same_host y.2) (same_host x.2))
      (String.compare (placement_worker x.2) (placement_worker y.2)))) as Hrest.
  { apply orders_then.
    - apply (orders_flip _ (λ x y : _ * Placement, bool_cmp (same_host x.2) (same_host y.2))).
      apply (orders_key _ (λ x : _ * Placement, same_host x.2)), orders_bool.
    - apply (orders_key _ (λ x : _ * Placement, placement_worker x.2)), orders_string. }
  assert (orders scored_ok (λ x y : PlacementCandidate * Placement,
    Nat.compare (placement_hits y.2) (placement_hits x.2))) as Hhits.
  { apply (orders_flip _ (λ x y : _ * Placement, Nat.compare (placement_hits x.2) (placement_hits y.2))).
    apply (orders_key _ (λ x : _ * Placement, placement_hits x.2)), orders_nat. }
  assert (∀ c1 c2 : _ → _ → comparison, (∀ x y, c1 x y = c2 x y) →
    orders scored_ok c1 → orders scored_ok c2) as Hext.
  { intros c1 c2 He [O E L]. split; intros *; rewrite <-!He; eauto. }
  destruct (decide (policy = Capacity)) as [Hp|Hp].
  - assert (orders scored_ok (λ x y : PlacementCandidate * Placement,
      current_load x.1 * max_capacity y.1 ?= current_load y.1 * max_capacity x.1)) as Hfrac.
    { apply (orders_fraction _ (λ x : _ * Placement, current_load x.1) (λ x, max_capacity x.1)).
      intros x [[_ Hcap] Hs]. apply placement_for_Some in Hs as (_ & _ & _ & _ & _ & Hc).
      destruct (Hc Hp). unfold is_u32 in *. lia. }
    refine (Hext _ _ _ (orders_then _ _ _ Hfrac (orders_then _ _ _ Hhits Hrest))).
    intros [ca a] [cb b]. unfold placement_cmp. by rewrite bool_decide_eq_true_2.
  - assert (orders scored_ok (λ x y : PlacementCandidate * Placement,
      placement_load x.2 ?= placement_load y.2)) as Hload.
    { apply (orders_key _ (λ x : _ * Placement, placement_load x.2)), orders_Z. }
    refine (Hext _ _ _ (orders_then _ _ _ Hhits (orders_then _ _ _ Hload Hrest))).
    intros [ca a] [cb b]. unfold placement_cmp. by rewrite bool_decide_eq_false_2.
Qed.
End PlaceSpec.

(** ** The documented preference *)

(** Better on the first dimension, or equal there and preferred on the rest. *)
Definition lexico (better same rest : Prop) : Prop := better ∨ same ∧ rest.

Definition load_fraction (c : PlacementCandidate) : Q :=
  Qmake (current_load c) (Z.to_pos (max_capacity c)).

(** A shared host before another host, then the smaller worker id. *)
Definition preferred_tie (a b : Placement) : Prop :=
  lexico (same_host a = true ∧ same_host b = false) (same_host a = same_host b)
    (String.leb (placement_worker a) (placement_worker b) = true).

(** Affinity: more files, then less load in percent.  Capacity: less load as a
    fraction, then more files. *)
Definition preferred (policy : PlacementPolicy) (x y : PlacementCandidate * Placement) : Prop :=
  let '(ca, a) := x in
  let '(cb, b) := y in
  let more := (placement_hits b < placement_hits a)%nat in
  let equal := placement_hits a = placement_hits b in
  match policy with
  | Affinity =>
      lexico more equal
        (lexico (placement_load a < placement_load b) (placement_load a = placement_load b)
          (preferred_tie a b))
  | Capacity =>
      lexico (Qlt (load_fraction ca) (load_fraction cb)) (Qeq (load_fraction ca) (load_fraction cb))
        (lexico more equal (preferred_tie a b))
  end.

Lemma then_with_le c d (better same rest : Prop) :
  (c = Lt → better) → (c = Eq → same) → (d ≠ Gt → rest) →
  then_with c d ≠ Gt → lexico better same rest.
Proof. unfold then_with, lexico. destruct c; auto; done. Qed.

Lemma preferred_tie_of_cmp a b :
  then_with (bool_cmp (same_host b) (same_host a))
    (placement_worker a ?= placement_worker b)%string ≠ Gt → preferred_tie a b.
Proof.
  apply then_with_le.
  - destruct (same_host a), (same_host b); done.
  - by destruct (same_host a), (same_host b).
  - unfold String.leb. by destruct (_ ?= _)%string.
Qed.

Lemma preferred_of_cmp policy x y :
  (policy = Capacity → 0 < max_capacity x.1 ∧ 0 < max_capacity y.1) →
  placement_cmp policy x y ≠ Gt → preferred policy x y.
Proof.
  destruct x as [ca a], y as [cb b], policy; intros Hpos; unfold placement_cmp, preferred.
  - rewrite bool_decide_eq_false_2 by done. apply then_with_le.
    + apply Nat.compare_lt_iff.
    + intros ->%Nat.compare_eq. done.
    + apply then_with_le; [apply Z.compare_lt_iff|apply Z.compare_eq|apply preferred_tie_of_cmp].
  - rewrite bool_decide_eq_true_2 by done. destruct Hpos as [Ha Hb]; [done|]. simpl in Ha, Hb.
    apply then_with_le.
    + intros Hlt. rewrite Z.compare_lt_iff in Hlt. unfold Qlt, load_fraction. simpl. rewrite !Z2Pos.id by lia. lia.
    + intros He%Z.compare_eq. unfold Qeq, load_fraction. simpl. rewrite !Z2Pos.id by lia. lia.
    + apply then_with_le; [apply Nat.compare_lt_iff|by intros ->%Nat.compare_eq|].
      apply preferred_tie_of_cmp.
Qed.

(** The chosen placement is that of an eligible candidate that the policy
    prefers to every other eligible one, in the documented order of dimensions; the
    shared subject is used exactly when no candidate is eligible. *)
Theorem placement_is_best `{MetadataJson} candidates fc hosts policy :
  Forall candidate_ok candidates →
  match place_with_policy candidates fc hosts policy with
  | None => ∀ c, c ∈ candidates → placement_for fc hosts policy c = None
  | Some p =>
      ∃ c, c ∈ candidates ∧ placement_for fc hosts policy c = Some (c, p) ∧
        ∀ c' p', c' ∈ candidates → placement_for fc hosts policy c' = Some (c', p') →
          preferred policy (c, p) (c', p')
  end.
Proof.
  intros Hok. unfold place_with_policy.
  assert (Forall (scored_ok fc hosts policy) (omap (placement_for fc hosts policy) candidates)) as Hall.
  { apply Forall_forall. intros x Hx. by apply scored_elem in Hx as [? _]. }
  pose proof (min_by_spec _ _ _ (placement_cmp_orders fc hosts policy) Hall) as Hmin.
  destruct (min_by _ _) as [[c p]|]; simpl.
  - destruct Hmin as [Hin Hmin]. destruct (scored_elem _ _ _ _ _ Hok Hin) as [[Hc Hs] Hcin].
    exists c. split; [done|]. split; [done|]. intros c' p' Hc' Hs'.
    apply (preferred_of_cmp policy (c, p) (c', p')).
    + intros Hp. rewrite Forall_forall in Hok.
      destruct (placement_for_Some _ _ _ _ _ Hs) as (_ & _ & _ & _ & _ & H1).
      destruct (placement_for_Some _ _ _ _ _ Hs') as (_ & _ & _ & _ & _ & H2).
      destruct (H1 Hp), (H2 Hp), Hc as [_ [? ?]], (Hok c' Hc') as [_ [? ?]]. simpl in *. lia.
    + apply Hmin. apply list_elem_of_omap. eauto.
  - intros c Hc. destruct (placement_for _ _ _ c) as [x|] eqn:E; [|done].
    assert (x ∈ omap (placement_for fc hosts policy) candidates) as Hx
      by (apply list_elem_of_omap; eauto).
    rewrite Hmin in Hx. by apply elem_of_nil in Hx.
Qed.

(** The choice does not depend on the order in which the registry lists the
    candidates, as long as their ids differ. *)
Theorem placement_order_independent `{MetadataJson} candidates candidates' fc hosts policy :
  Forall candidate_ok candidates → NoDup (worker_id <$> candidates) → candidates ≡ₚ candidates' →
  place_with_policy candidates fc hosts policy = place_with_policy candidates' fc hosts policy.
Proof.
  intros Hok Hnd Hperm. unfold place_with_policy.
  assert (Forall candidate_ok candidates') as Hok' by (by rewrite <-Hperm).
  set (l := omap _ candidates). set (l' := omap _ candidates').
  assert (l ≡ₚ l') as Hl by (unfold l, l'; by rewrite Hperm).
  assert (Forall (scored_ok fc hosts policy) l) as Hall.
  { apply Forall_forall. intros x Hx. by apply scored_elem in Hx as [? _]. }
  assert (Forall (scored_ok fc hosts policy) l') as Hall' by (by rewrite <-Hl).
  pose proof (placement_cmp_orders fc hosts policy) as Hord.
  pose proof (min_by_spec _ _ _ Hord Hall) as Hm. pose proof (min_by_spec _ _ _ Hord Hall') as Hm'.
  destruct (min_by _ l) as [x|], (min_by _ l') as [y|]; simpl; f_equal.
  - destruct Hm as [Hx Hmx], Hm' as [Hy Hmy]. assert (y ∈ l) as Hy' by (by rewrite Hl).
    assert (x ∈ l') as Hx' by (by rewrite <-Hl).
    assert (placement_cmp policy x y = Eq) as Heq.
    { specialize (Hmx y Hy'). specialize (Hmy x Hx'). rewrite Forall_forall in Hall.
      rewrite (cmp_opp _ _ Hord x y) in Hmy by auto. by destruct (placement_cmp policy x y). }
    assert (placement_worker x.2 = placement_worker y.2) as Hw.
    { destruct x as [cx px], y as [cy py]. unfold placement_cmp, then_with in Heq.
      repeat case_match; try done; by apply String.compare_eq_iff. }
    destruct (scored_elem _ _ _ _ _ Hok Hx) as [[_ Hsx] Hcx].
    destruct (scored_elem _ _ _ _ _ Hok Hy') as [[_ Hsy] Hcy].
    destruct (placement_for_Some _ _ _ _ _ Hsx) as (_ & Hwx & _).
    destruct (placement_for_Some _ _ _ _ _ Hsy) as (_ & Hwy & _).
    assert (x.1 = y.1) as Hc.
    { apply list_elem_of_lookup in Hcx as [i Hi], Hcy as [j Hj].
      assert (i = j) as ->; [|congruence]. eapply (NoDup_lookup _ _ _ (worker_id x.1) Hnd).
      - by rewrite list_lookup_fmap, Hi.
      - rewrite list_lookup_fmap, Hj. simpl. congruence. }
    rewrite Hc in Hsx. congruence.
  - rewrite Hm', Permutation_nil_r in Hl. rewrite Hl in Hm. by destruct Hm as [?%elem_of_nil _].
  - rewrite Hm in Hl. symmetry in Hl. apply Permutation_nil_r in Hl. rewrite Hl in Hm'.
    by destruct Hm' as [?%elem_of_nil _].
Qed.

(** ** File overlap *)

(** The distinct non-blank normalized constraints. *)
Definition constraint_set (fc : list string) : gset string :=
  list_to_set (normalize_path <$> fc) ∖ {[ ""%string ]}.

Lemma affinity_loop_spec fc rf matched :
  NoDup matched →
  let r := affinity_loop fc rf matched in
  NoDup r ∧ ∀ p, p ∈ r ↔ p ∈ matched ∨ p ∈ constraint_set fc ∧ p ∈ rf.
Proof.
  revert matched. induction fc as [|c fc IH]; intros matched Hnd; simpl; [set_solver|].
  assert (∀ p, p ∈ constraint_set (c :: fc) ↔
    p ∈ constraint_set fc ∨ p = normalize_path c ∧ p ≠ ""%string) as Hc.
  { intros p. unfold constraint_set. rewrite fmap_cons. set_solver. }
  destruct (_ || _) eqn:E1.
  - destruct (IH matched Hnd) as [Hr Hin]. split; [done|]. intros p. rewrite Hin, Hc.
    apply orb_true_iff in E1 as [->%bool_decide_eq_true_1|(m & Hm & Hb)%existsb_true]; [naive_solver|].
    bool_hyps. subst m. naive_solver.
  - apply orb_false_iff in E1 as [Hne%bool_decide_eq_false_1 Hnot].
    rewrite existsb_false in Hnot.
    assert (normalize_path c ∉ matched) as Hfresh.
    { intros Hm%Hnot. by rewrite bool_decide_eq_true_2 in Hm. }
    destruct (existsb _ rf) eqn:E2.
    + apply existsb_true in E2 as (r & Hr & Hb). bool_hyps. subst r.
      destruct (IH (matched ++ [normalize_path c])) as [Hnd' Hin].
      { apply NoDup_app. split_and!; [done| |apply NoDup_singleton]. set_solver. }
      split; [done|]. intros p. rewrite Hin, Hc, elem_of_app, list_elem_of_singleton. naive_solver.
    + destruct (IH matched Hnd) as [Hnd' Hin]. split; [done|]. intros p. rewrite Hin, Hc.
      rewrite existsb_false in E2. split; [naive_solver|]. intros [?|[[?|[-> _]] Hp]]; [auto|auto|].
      apply E2 in Hp. by rewrite bool_decide_eq_true_2 in Hp.
Qed.

(** Affinity counts each file once: it is the number of distinct non-blank
    normalized constraints among the worker's recent files. *)
Theorem affinity_counts_distinct fc rf :
  affinity_hits fc rf = size (constraint_set fc ∩ list_to_set rf).
Proof.
  assert (affinity_hits fc rf = length (affinity_loop fc rf [])) as ->.
  { destruct fc as [|c fc]; [done|]. destruct rf as [|r rf]; [|done]. cbn [affinity_hits].
    destruct (affinity_loop_spec (c :: fc) [] []) as [_ Hin]; [constructor|].
    destruct (affinity_loop (c :: fc) [] []) as [|x l]; [done|]. specialize (Hin x). set_solver. }
  destruct (affinity_loop_spec fc rf []) as [Hnd Hin]; [constructor|].
  rewrite <-(size_list_to_set (C := gset string) (affinity_loop fc rf [])) by done.
  f_equal. apply set_eq. intros p. rewrite elem_of_list_to_set, Hin. set_solver.
Qed.

Lemma recent_files_loop_spec raw out :
  (length out <= MAX_RECENT_FILES)%nat → NoDup out → ""%string ∉ out →
  let r := recent_files_loop raw out in
  (length r <= MAX_RECENT_FILES)%nat ∧ NoDup r ∧ ""%string ∉ r ∧
  ∀ p, p ∈ r → p ∈ out ∨ p ∈ normalize_path <$> raw.
Proof.
  revert out. induction raw as [|e raw IH]; intros out Hl Hnd Hb; cbn [recent_files_loop].
  { split_and!; auto. }
  destruct (Nat.leb_spec MAX_RECENT_FILES (length out)); [split_and!; auto|].
  destruct (_ || _) eqn:E.
  - destruct (IH out Hl Hnd Hb) as (? & ? & ? & Hin). split_and!; auto.
    intros p Hp%Hin. rewrite fmap_cons. set_solver.
  - apply orb_false_iff in E as [Hne%bool_decide_eq_false_1 Hnot]. rewrite existsb_false in Hnot.
    assert (normalize_path e ∉ out) as Hfresh.
    { intros Hm%Hnot. by rewrite bool_decide_eq_true_2 in Hm. }
    destruct (IH (out ++ [normalize_path e])) as (? & ? & ? & Hin).
    { rewrite length_app. simpl. lia. }
    { apply NoDup_app. split_and!; [done| |apply NoDup_singleton]. set_solver. }
    { set_solver. }
    split_and!; auto. intros p Hp%Hin. rewrite fmap_cons. set_solver.
Qed.

(** What a worker advertises is bounded, without duplicates or blanks. *)
Lemma recent_files_bounded raw :
  let r := normalize_recent_files raw in
  (length r <= MAX_RECENT_FILES)%nat ∧ NoDup r ∧ ""%string ∉ r ∧
  ∀ p, p ∈ r → p ∈ normalize_path <$> raw.
Proof.
  destruct (recent_files_loop_spec raw []) as (? & ? & ? & Hin);
    [unfold MAX_RECENT_FILES; simpl; lia|constructor|apply not_elem_of_nil|].
  split_and!; auto. intros p [Hp|Hp]%Hin; [by apply elem_of_nil in Hp|done].
Qed.

(** The products that capacity mode compares fit in 64 bits. *)
Lemma capacity_products_fit a b :
  candidate_ok a → candidate_ok b →
  is_u64 (current_load a * max_capacity b) ∧ is_u64 (current_load a * 100).
Proof. unfold candidate_ok, is_u32, is_u64, u32_max, u64_max. nia. Qed.

(** ** Witnesses *)

(** Metadata that is the host name itself. *)
Definition plain_metadata : MetadataJson := {| metadata_hostname := Some |}.

Definition busy_worker : PlacementCandidate := mkCandidate "w2" "host-a" ["src/auth.rs"] 3 4.
Definition idle_worker : PlacementCandidate := mkCandidate "w1" "host-b" [] 0 4.
Definition full_worker : PlacementCandidate := mkCandidate "w3" "host-a" ["src/auth.rs"] 4 4.

Lemma sample_candidates_ok : Forall candidate_ok [busy_worker; idle_worker; full_worker].
Proof. repeat constructor; vm_compute; congruence. Qed.

Lemma placement_is_best_witness :
  let _ := plain_metadata in
  let cs := [busy_worker; idle_worker; full_worker] in
  let p := mkPlacement "w2" "uc.subtask.execute.w.w2" 1 75 true in
  place_with_policy cs [".\src\auth.rs"%string] {[ "host-a"%string ]} Affinity = Some p ∧
  match place_with_policy cs [".\src\auth.rs"%string] {[ "host-a"%string ]} Affinity with
  | None => ∀ c, c ∈ cs → placement_for [".\src\auth.rs"%string] {[ "host-a"%string ]} Affinity c = None
  | Some p =>
      ∃ c, c ∈ cs ∧
        placement_for [".\src\auth.rs"%string] {[ "host-a"%string ]} Affinity c = Some (c, p) ∧
        ∀ c' p', c' ∈ cs →
          placement_for [".\src\auth.rs"%string] {[ "host-a"%string ]} Affinity c' = Some (c', p') →
          preferred Affinity (c, p) (c', p')
  end.
Proof.
  split; [vm_compute; reflexivity|].
  exact (@placement_is_best plain_metadata _ [".\src\auth.rs"%string] {[ "host-a"%string ]} Affinity
           sample_candidates_ok).
Defined.

Lemma placement_order_independent_witness :
  let _ := plain_metadata in
  place_with_policy [busy_worker; idle_worker; full_worker] [] ∅ Capacity =
    Some (mkPlacement "w1" "uc.subtask.execute.w.w1" 0 0 false) ∧
  place_with_policy [busy_worker; idle_worker; full_worker] [] ∅ Capacity =
    place_with_policy [full_worker; busy_worker; idle_worker] [] ∅ Capacity.
Proof.
  split; [vm_compute; reflexivity|].
  apply (@placement_order_independent plain_metadata); [apply sample_candidates_ok| |].
  - apply (bool_decide_unpack _). vm_compute. exact I.
  - symmetry. apply (Permutation_cons_append [busy_worker; idle_worker] full_worker).
Defined.
