(* ===== verification/Merge.v ===== *)
(** * Three-way merge

    [uc-engine/src/conflict/merger.rs]: the line-based merge of two workers'
    versions of a file.  [usize] indices are [nat]; the [u32] line numbers of
    [LineChange] are [nat] with the truncating cast written out.  Slicing and
    indexing out of range panic in the code and give [None] here. *)

From Stdlib Require Import String Ascii.
From S2P Require Import Prelude RustStr.

(** ** Lines *)

Definition newline : ascii := ascii_of_nat 10.
Definition carriage_return : ascii := ascii_of_nat 13.

(** A terminated line loses one carriage return before its line feed. *)
Definition strip_cr (l : list ascii) : list ascii :=
  match rev l with
  | c :: r => if bool_decide (c = carriage_return) then rev r else l
  | [] => l
  end.

(** [str::lines]: a last piece without a line feed is kept as it is, an empty
    one is no line. *)
Fixpoint terminate (pieces : list (list ascii)) : list (list ascii) :=
  match pieces with
  | [] => []
  | [p] => match p with [] => [] | _ => [p] end
  | p :: rest => strip_cr p :: terminate rest
  end.

Definition lines (s : string) : list string :=
  of_chars <$> terminate (split_char newline (chars s)).

Definition join_lines (l : list string) : string := join (String newline EmptyString) l.

(** ** Longest common subsequence *)

Section Lcs.
Context {A : Type} `{EqDecision A}.

(** One row of the table, from the row above it: [diag], [up] and [left] are
    [dp[i-1][j-1]], [dp[i-1][j]] and [dp[i][j-1]]. *)
Fixpoint dp_cells (x : A) (ys : list A) (diag : nat) (above : list nat) (left : nat) : list nat :=
  match ys, above with
  | y :: ys', up :: above' =>
      let cell := if decide (x = y) then S diag else Nat.max up left in
      cell :: dp_cells x ys' up above' cell
  | _, _ => []
  end.

Definition dp_row (x : A) (ys : list A) (prev : list nat) : list nat :=
  match prev with
  | [] => []
  | diag :: above => 0%nat :: dp_cells x ys diag above 0
  end.

(** The rows of [dp], the first one all zero. *)
Fixpoint dp_rows (xs ys : list A) (prev : list nat) : list (list nat) :=
  match xs with
  | [] => [prev]
  | x :: xs' => prev :: dp_rows xs' ys (dp_row x ys prev)
  end.

Definition dp_table (base modified : list A) : list (list nat) :=
  dp_rows base modified (replicate (S (length modified)) 0%nat).

Definition dp_get (dp : list (list nat)) (i j : nat) : option nat := row ← dp !! i; row !! j.

(** The backtracking loop; pushing and reversing at the end is consing here. *)
Fixpoint backtrack (fuel : nat) (base modified : list A) (dp : list (list nat)) (i j : nat)
    (result : list (nat * nat)) : option (list (nat * nat)) :=
  match i, j, fuel with
  | O, _, _ | _, O, _ => Some result
  | _, _, O => None
  | S i', S j', S fuel' =>
      x ← base !! i';
      y ← modified !! j';
      if decide (x = y) then backtrack fuel' base modified dp i' j' ((i', j') :: result)
      else
        up ← dp_get dp i' j;
        left ← dp_get dp i j';
        if (left <? up)%nat then backtrack fuel' base modified dp i' j result
        else backtrack fuel' base modified dp i j' result
  end.

(** [modified.iter().enumerate().skip(mod_idx)] up to the first equal line. *)
Fixpoint position_from (x : A) (modified : list A) (j : nat) : option nat :=
  match modified with
  | [] => None
  | y :: rest => if decide (x = y) then Some j else position_from x rest (S j)
  end.

(** The loop of [simple_lcs]. *)
Fixpoint simple_lcs_loop (base modified : list A) (base_i mod_idx : nat) : list (nat * nat) :=
  match base with
  | [] => []
  | x :: rest =>
      match position_from x (drop mod_idx modified) mod_idx with
      | Some mod_j => (base_i, mod_j) :: simple_lcs_loop rest modified (S base_i) (S mod_j)
      | None => simple_lcs_loop rest modified (S base_i) mod_idx
      end
  end.

Definition simple_lcs (base modified : list A) : list (nat * nat) :=
  simple_lcs_loop base modified 0 0.

(** The table is only built for files of at most 5000 lines. *)
Definition LCS_LIMIT : N := 5000.
Definition too_large (n : nat) : bool := (LCS_LIMIT <? N.of_nat n)%N.

Definition longest_common_subsequence (base modified : list A) : option (list (nat * nat)) :=
  let m := length base in
  let n := length modified in
  if ((m =? 0) || (n =? 0))%nat then Some []
  else if too_large m || too_large n then Some (simple_lcs base modified)
  else backtrack (m + n) base modified (dp_table base modified) m n [].
End Lcs.

(** ** Changes *)

(** [n as u32]. *)
Definition as_u32 (n : nat) : nat := Z.to_nat (Z.of_nat n `mod` 2 ^ 32).

Record LineChange : Type := mkChange {
  change_start : nat;
  change_end : nat;
  new_lines : list string
}.

(** [&l[a..b]]. *)
Definition slice {A} (l : list A) (a b : nat) : option (list A) :=
  if decide (a <= b <= length l)%nat then Some (take (b - a) (drop a l)) else None.

(** The loop of [compute_line_changes]; the list is [lcs[lcs_idx..]]. *)
Fixpoint changes_loop (base_len : nat) (modified : list string) (lcs : list (nat * nat))
    (base_idx mod_idx : nat) : option (list LineChange) :=
  match lcs with
  | (match_base, match_mod) :: rest =>
      change ← (if ((base_idx <? match_base) || (mod_idx <? match_mod))%nat
                then new ← slice modified mod_idx match_mod;
                     Some [mkChange (as_u32 base_idx) (as_u32 match_base) new]
                else Some []);
      changes ← changes_loop base_len modified rest (S match_base) (S match_mod);
      Some (change ++ changes)
  | [] =>
      if ((base_idx <? base_len) || (mod_idx <? length modified))%nat
      then new ← slice modified mod_idx (length modified);
           Some [mkChange (as_u32 base_idx) (as_u32 base_len) new]
      else Some []
  end.

Definition compute_line_changes (base modified : list string) : option (list LineChange) :=
  lcs ← longest_common_subsequence base modified;
  changes_loop (length base) modified lcs 0 0.

(** ** Conflicts *)

Inductive ResolutionTier : Type := AutoMerge | LlmAssisted | Reassign | Human.
#[export] Instance ResolutionTier_eq_dec : EqDecision ResolutionTier.
Proof. solve_decision. Defined.

Definition escalate (t : ResolutionTier) : ResolutionTier :=
  match t with
  | AutoMerge => LlmAssisted
  | LlmAssisted => Reassign
  | Reassign => Human
  | Human => Human
  end.

Record ConflictMarker : Type := mkMarker {
  start_line : nat;
  end_line : nat;
  ours_text : string;
  theirs_text : string;
  base_text : string
}.

Record MergeResult : Type := mkMerge {
  merged : option string;
  merge_conflicts : list ConflictMarker;
  merge_success : bool;
  merge_tier : ResolutionTier
}.

Definition overlaps (a b : LineChange) : bool :=
  ((change_start a <? change_end b) && (change_start b <? change_end a))%nat.

(** The conflict of one pair; [start + 1] stays below 2^32 on real files. *)
Definition conflict_of (base : list string) (a b : LineChange) : option ConflictMarker :=
  let start := Nat.min (change_start a) (change_start b) in
  let stop := Nat.max (change_end a) (change_end b) in
  text ← slice base start stop;
  Some (mkMarker (start + 1) (stop + 1) (join_lines (new_lines a)) (join_lines (new_lines b))
          (join_lines text)).

Definition find_conflicts (ours theirs : list LineChange) (base : list string)
    : option (list ConflictMarker) :=
  mapM (λ ab, conflict_of base ab.1 ab.2)
    (filterb (λ ab, overlaps ab.1 ab.2) (list_prod ours theirs)).

(** ** Applying the changes *)

Definition by_start (a b : LineChange) : bool := (change_start a <=? change_start b)%nat.

(** [all_changes]: chained and stably sorted. *)
Definition all_changes (ours theirs : list LineChange) : list LineChange :=
  sort_by by_start (ours ++ theirs).

(** [while base_idx < stop && base_idx < base_lines.len()]: the lines pushed and
    the index after it. *)
Definition copied (base : list string) (idx stop : nat) : list string :=
  take (Nat.min stop (length base) - idx) (drop idx base).
Definition after_copy (base : list string) (idx stop : nat) : nat :=
  Nat.max idx (Nat.min stop (length base)).

Fixpoint merge_loop (base : list string) (changes : list LineChange) (idx : nat)
    (result : list string) : list string :=
  match changes with
  | [] => result ++ drop idx base
  | c :: rest =>
      let result := result ++ copied base idx (change_start c) in
      let idx := after_copy base idx (change_start c) in
      let idx := if (idx <? change_end c)%nat then change_end c else idx in
      merge_loop base rest idx (result ++ new_lines c)
  end.

Definition apply_merge (base : list string) (ours theirs : list LineChange) : string :=
  join_lines (merge_loop base (all_changes ours theirs) 0 []).

(** [change.start + 1 >= c.start_line && change.start < c.end_line]. *)
Definition in_region (start : nat) (c : ConflictMarker) : bool :=
  ((start_line c <=? start + 1) && (start <? end_line c))%nat.

Definition marker_lines (c : ConflictMarker) : list string :=
  ["<<<<<<< ours"; ours_text c; "======="; theirs_text c; ">>>>>>> theirs"]%string.

Fixpoint marked_loop (base : list string) (conflicts : list ConflictMarker)
    (changes : list LineChange) (idx : nat) (result : list string) : list string :=
  match changes with
  | [] => result ++ drop idx base
  | change :: rest =>
      let result := result ++ copied base idx (change_start change) in
      let idx := after_copy base idx (change_start change) in
      let next := if (idx <? change_end change)%nat then change_end change else idx in
      match find (in_region (change_start change)) conflicts with
      | Some c =>
          let result :=
            if ((change_start change + 1 =? start_line c)%nat || bool_decide (result = []))
            then result ++ marker_lines c else result in
          marked_loop base conflicts rest next result
      | None => marked_loop base conflicts rest next (result ++ new_lines change)
      end
  end.

Definition apply_merge_with_conflicts (base : list string) (ours theirs : list LineChange)
    (conflicts : list ConflictMarker) : string :=
  join_lines (marked_loop base conflicts (all_changes ours theirs) 0 []).

Definition three_way_merge (base ours theirs : string) : option MergeResult :=
  let base_lines := lines base in
  ours_changes ← compute_line_changes base_lines (lines ours);
  theirs_changes ← compute_line_changes base_lines (lines theirs);
  conflicts ← find_conflicts ours_changes theirs_changes base_lines;
  Some match conflicts with
       | [] => mkMerge (Some (apply_merge base_lines ours_changes theirs_changes)) [] true AutoMerge
       | _ => mkMerge (Some (apply_merge_with_conflicts base_lines ours_changes theirs_changes
                               conflicts)) conflicts false AutoMerge
       end.

(** ** Common subsequences *)

(** Pairs of positions that hold the same line, increasing on both sides. *)
Definition before (p q : nat * nat) : Prop := (p.1 < q.1)%nat ∧ (p.2 < q.2)%nat.

Definition same_line {A} (base modified : list A) (p : nat * nat) : Prop :=
  ∃ x, base !! p.1 = Some x ∧ modified !! p.2 = Some x.

Definition matching {A} (base modified : list A) (ps : list (nat * nat)) : Prop :=
  StronglySorted before ps ∧ Forall (same_line base modified) ps.

Section LcsProofs.
Context {A : Type} `{EqDecision A} (base modified : list A).
Notation m := (length base).
Notation n := (length modified).

(** The length of a longest common subsequence of the first [i] lines of [base]
    and the first [j] of [modified], by the textbook recursion. *)
Fixpoint lcs_len (i : nat) : nat → nat :=
  match i with
  | O => λ _, 0%nat
  | S i' =>
      fix row (j : nat) : nat :=
        match j with
        | O => 0%nat
        | S j' =>
            if decide (base !! i' = modified !! j') then S (lcs_len i' j')
            else Nat.max (lcs_len i' j) (row j')
        end
  end.

Lemma lcs_len_0_r i : lcs_len i 0 = 0%nat.
Proof. by destruct i. Qed.

Lemma lcs_len_S i j :
  lcs_len (S i) (S j) =
  if decide (base !! i = modified !! j) then S (lcs_len i j)
  else Nat.max (lcs_len i (S j)) (lcs_len (S i) j).
Proof. done. Qed.

Lemma dp_cells_spec i x k j :
  base !! i = Some x → (j + k = n)%nat →
  dp_cells x (drop j modified) (lcs_len i j) (lcs_len i <$> seq (S j) k) (lcs_len (S i) j) =
  lcs_len (S i) <$> seq (S j) k.
Proof.
  intros Hx. revert j. induction k as [|k IH]; intros j Hj.
  - rewrite drop_ge by lia. done.
  - destruct (lookup_lt_is_Some_2 modified j) as [y Hy]; [lia|].
    rewrite (drop_S _ _ _ Hy). cbn [seq fmap list_fmap dp_cells].
    assert ((if decide (x = y) then S (lcs_len i j)
             else Nat.max (lcs_len i (S j)) (lcs_len (S i) j)) = lcs_len (S i) (S j)) as ->.
    { rewrite lcs_len_S, Hx, Hy. repeat case_decide; congruence. }
    f_equal. apply IH. lia.
Qed.

Definition lcs_row (i : nat) : list nat := lcs_len i <$> seq 0 (S n).

Lemma dp_row_spec i x : base !! i = Some x → dp_row x modified (lcs_row i) = lcs_row (S i).
Proof.
  intros Hx. unfold lcs_row. cbn [seq fmap list_fmap dp_row]. f_equal.
  rewrite lcs_len_0_r. pose proof (dp_cells_spec i x n 0 Hx eq_refl) as H.
  rewrite !lcs_len_0_r, drop_0 in H. exact H.
Qed.

Lemma dp_rows_spec k i :
  (i + k = m)%nat → dp_rows (drop i base) modified (lcs_row i) = lcs_row <$> seq i (S k).
Proof.
  revert i. induction k as [|k IH]; intros i Hi.
  - rewrite drop_ge by lia. done.
  - destruct (lookup_lt_is_Some_2 base i) as [x Hx]; [lia|].
    rewrite (drop_S _ _ _ Hx). cbn [dp_rows]. rewrite (dp_row_spec i x Hx), IH by lia. done.
Qed.

Lemma dp_table_spec i j :
  (i <= m)%nat → (j <= n)%nat → dp_get (dp_table base modified) i j = Some (lcs_len i j).
Proof.
  intros Hi Hj. unfold dp_get, dp_table.
  assert (replicate (S n) 0%nat = lcs_row 0) as ->.
  { unfold lcs_row. apply list_eq. intros k. rewrite list_lookup_fmap.
    destruct (decide (k < S n)%nat) as [Hk|Hk].
    - by rewrite lookup_replicate_2, lookup_seq_lt.
    - rewrite !lookup_ge_None_2; rewrite ?length_seq, ?length_replicate; done || lia. }
  pose proof (dp_rows_spec m 0 eq_refl) as H. rewrite drop_0 in H. rewrite H.
  rewrite list_lookup_fmap, lookup_seq_lt by lia. simpl. unfold lcs_row.
  by rewrite list_lookup_fmap, lookup_seq_lt by lia.
Qed.

(** [ps] uses positions below [i] and [j] only. *)
Definition within (i j : nat) (ps : list (nat * nat)) : Prop :=
  Forall (λ p, (p.1 < i)%nat ∧ (p.2 < j)%nat) ps.

Lemma StronglySorted_snoc_inv {B} (R : B → B → Prop) l x :
  StronglySorted R (l ++ [x]) → StronglySorted R l ∧ Forall (λ y, R y x) l.
Proof.
  induction l as [|y l IH]; simpl; intros Hs; [split; constructor|].
  inversion Hs as [|?? Hs' Hall]; subst. destruct (IH Hs') as [H1 H2].
  apply Forall_app in Hall as [Hl [Hx _]%Forall_cons]. split; by constructor.
Qed.

(** No matching is longer. *)
Lemma lcs_len_bound i j ps :
  matching base modified ps → within i j ps → (length ps <= lcs_len i j)%nat.
Proof.
  remember (i + j)%nat as s eqn:Hs. revert i j ps Hs.
  induction (lt_wf s) as [s _ IH]. intros i j ps -> [Hsort Hmatch] Hw.
  destruct ps as [|p ps _] using rev_ind; [simpl; lia|].
  apply StronglySorted_snoc_inv in Hsort as [Hsort Hlast].
  apply Forall_app in Hmatch as [Hmatch [Hp _]%Forall_cons].
  apply Forall_app in Hw as [Hw [[Hi Hj] _]%Forall_cons].
  assert (∀ i' j', (p.1 < i')%nat → (p.2 < j')%nat → within i' j' ps) as Hwithin.
  { intros i' j' ??. apply (Forall_impl _ _ _ Hlast). intros q [??]. simpl in *. lia. }
  destruct i as [|i], j as [|j]; [lia..|]. rewrite lcs_len_S, length_app. cbn [length].
  destruct (decide (base !! i = modified !! j)) as [_|Hne].
  - assert (length ps <= lcs_len i j)%nat; [|lia]. apply (IH (i + j)%nat); [lia|done|by split|].
    apply (Forall_impl _ _ _ Hlast). intros q [??]. simpl in *. lia.
  - assert (matching base modified (ps ++ [p])) as Hm.
    { split; [|by apply Forall_app_2; [|apply Forall_singleton]].
      clear -Hsort Hlast. induction ps as [|q ps IHp]; simpl; [by repeat constructor|].
      inversion Hsort; subst. apply Forall_cons in Hlast as [??].
      constructor; [by apply IHp|]. apply Forall_app_2; [done|]. by apply Forall_singleton. }
    assert (p.1 ≠ i ∨ p.2 ≠ j) as Hneq.
    { destruct Hp as (x & H1 & H2). destruct (decide (p.1 = i)) as [<-|]; [|by left].
      right. intros <-. congruence. }
    assert (∀ i' j', (p.1 < i')%nat → (p.2 < j')%nat → (i' + j' < S i + S j)%nat →
              (length ps + 1 <= lcs_len i' j')%nat) as Hrec.
    { intros i' j' Hi' Hj' Hlt. change (length ps + length [p] <= lcs_len i' j')%nat. rewrite <-length_app. apply (IH (i' + j')%nat); try done.
      apply Forall_app_2; [by apply Hwithin|]. by apply Forall_singleton. }
    destruct Hneq.
    + specialize (Hrec i (S j) ltac:(lia) Hj ltac:(lia)). lia.
    + specialize (Hrec (S i) j Hi ltac:(lia) ltac:(lia)). lia.
Qed.

(** The backtracking loop reads off a matching of that length. *)
Lemma backtrack_spec fuel i j result :
  (i <= m)%nat → (j <= n)%nat → (i + j <= fuel)%nat →
  ∃ ps, backtrack fuel base modified (dp_table base modified) i j result = Some (ps ++ result) ∧
    length ps = lcs_len i j ∧ matching base modified ps ∧ within i j ps.
Proof.
  revert i j result. induction fuel as [|fuel IH]; intros i j result Hi Hj Hf.
  { assert (i = 0%nat) as -> by lia. exists []. split_and!; repeat constructor. }
  destruct i as [|i]; [exists []; split_and!; repeat constructor|].
  destruct j as [|j]; [exists []; split_and!; repeat constructor|].
  destruct (lookup_lt_is_Some_2 base i) as [x Hx]; [lia|].
  destruct (lookup_lt_is_Some_2 modified j) as [y Hy]; [lia|].
  cbn [backtrack]. rewrite Hx, Hy. cbn [mbind option_bind]. rewrite lcs_len_S, Hx, Hy.
  assert (∀ i' j' ps, (i' <= S i)%nat → (j' <= S j)%nat → within i' j' ps → within (S i) (S j) ps)
    as Hmono.
  { intros i' j' ps ?? Hw. apply (Forall_impl _ _ _ Hw). simpl. lia. }
  destruct (decide (x = y)) as [->|Hne].
  - rewrite decide_True by done. destruct (IH i j ((i, j) :: result)) as (ps & -> & Hlen & [Hs Hm] & Hw);
      [lia..|]. exists (ps ++ [(i, j)]). split_and!.
    + by rewrite <-app_assoc.
    + rewrite length_app. simpl. lia.
    + split; [|apply Forall_app_2; [done|]; apply Forall_singleton; by exists y].
      clear -Hs Hw. induction ps as [|q ps IHp]; simpl; [by repeat constructor|].
      inversion Hs; subst. apply Forall_cons in Hw as [[??]?].
      constructor; [by apply IHp|]. apply Forall_app_2; [done|]. by apply Forall_singleton.
    + apply Forall_app_2; [apply (Hmono i j); [lia|lia|done]|]. apply Forall_singleton. simpl. lia.
  - rewrite decide_False by congruence. rewrite !dp_table_spec by lia. cbn [mbind option_bind].
    destruct (Nat.ltb_spec (lcs_len (S i) j) (lcs_len i (S j))).
    + destruct (IH i (S j) result) as (ps & -> & Hlen & Hm & Hw); [lia..|].
      exists ps. split_and!; [done|lia|done|]. apply (Hmono i (S j)); [lia|lia|done].
    + destruct (IH (S i) j result) as (ps & -> & Hlen & Hm & Hw); [lia..|].
      exists ps. split_and!; [done|lia|done|]. apply (Hmono (S i) j); [lia|lia|done].
Qed.
End LcsProofs.

Section Subsequence.
Context {A : Type} `{EqDecision A}.
Implicit Types base modified : list A.

Lemma position_from_Some (x : A) (l : list A) j k :
  position_from x l j = Some k → (j <= k)%nat ∧ l !! (k - j)%nat = Some x.
Proof.
  revert j. induction l as [|y l IH]; intros j; simpl; [done|].
  destruct (decide (x = y)) as [->|_].
  - intros [= ->]. split; [lia|]. by rewrite Nat.sub_diag.
  - intros [Hk Hl]%IH. split; [lia|]. by replace (k - j)%nat with (S (k - S j)) by lia.
Qed.

Lemma simple_lcs_loop_spec base modified k i j :
  (i + k = length base)%nat →
  matching base modified (simple_lcs_loop (drop i base) modified i j) ∧
  Forall (λ p, (i <= p.1)%nat ∧ (j <= p.2)%nat) (simple_lcs_loop (drop i base) modified i j).
Proof.
  revert i j. induction k as [|k IH]; intros i j Hi.
  { rewrite drop_ge by lia. split; [split; constructor|constructor]. }
  destruct (lookup_lt_is_Some_2 base i) as [x Hx]; [lia|]. rewrite (drop_S _ _ _ Hx). simpl.
  destruct (position_from x (drop j modified) j) as [q|] eqn:E.
  - apply position_from_Some in E as [Hj Hq]. rewrite lookup_drop in Hq.
    replace (j + (q - j))%nat with q in Hq by lia.
    destruct (IH (S i) (S q)) as [[Hs Hm] Hge]; [lia|]. split; [split|].
    + constructor; [done|]. apply (Forall_impl _ _ _ Hge). intros p ?. split; simpl; lia.
    + constructor; [by exists x|done].
    + constructor; [simpl; lia|]. apply (Forall_impl _ _ _ Hge). simpl. lia.
  - destruct (IH (S i) j) as [Hm Hge]; [lia|]. split; [done|].
    apply (Forall_impl _ _ _ Hge). simpl. lia.
Qed.

(** The pairs found are a common subsequence, a longest one unless a file is
    beyond the table's limit. *)
Lemma lcs_spec base modified :
  ∃ ps, longest_common_subsequence base modified = Some ps ∧ matching base modified ps ∧
    (too_large (length base) = false → too_large (length modified) = false →
     ∀ qs, matching base modified qs → (length qs <= length ps)%nat).
Proof.
  assert (∀ qs, matching base modified qs → within (length base) (length modified) qs) as Hwithin.
  { intros qs [_ Hm]. apply (Forall_impl _ _ _ Hm).
    intros p (x & H1%lookup_lt_Some & H2%lookup_lt_Some). done. }
  unfold longest_common_subsequence. destruct (_ || _) eqn:E0; [|destruct (too_large _ || _) eqn:E1].
  - exists []. split; [done|]. split; [split; constructor|]. intros _ _ qs Hq.
    apply orb_true_iff in E0 as [E0%Nat.eqb_eq|E0%Nat.eqb_eq];
      pose proof (Hwithin qs Hq) as Hw; rewrite E0 in Hw;
      (destruct qs as [|p qs]; [done|]); apply Forall_cons in Hw as [? _]; lia.
  - eexists. split; [done|]. split; [|intros H1 H2; by rewrite H1, H2 in E1].
    destruct (simple_lcs_loop_spec base modified (length base) 0 0) as [Hm _]; [done|].
    by rewrite drop_0 in Hm.
  - destruct (backtrack_spec base modified (length base + length modified) (length base)
                (length modified) []) as (ps & -> & Hlen & Hm & Hw); [lia..|].
    rewrite app_nil_r. exists ps. split; [done|]. split; [done|]. intros _ _ qs Hq.
    rewrite Hlen. apply lcs_len_bound; [done|]. by apply Hwithin.
Qed.

(** Of a file and itself it is the diagonal. *)
Definition diagonal (n : nat) : list (nat * nat) := (λ i, (i, i)) <$> seq 0 n.

Lemma backtrack_self base dp fuel i result :
  (i <= length base)%nat → (i <= fuel)%nat →
  backtrack fuel base base dp i i result = Some (diagonal i ++ result).
Proof.
  revert i result. induction fuel as [|fuel IH]; intros i result Hi Hf.
  { assert (i = 0%nat) as -> by lia. done. }
  destruct i as [|i]; [done|]. destruct (lookup_lt_is_Some_2 base i) as [x Hx]; [lia|].
  cbn [backtrack]. rewrite Hx. cbn [mbind option_bind]. rewrite decide_True by done.
  rewrite IH by lia. f_equal. unfold diagonal. rewrite seq_S, fmap_app, <-app_assoc. done.
Qed.

Lemma simple_lcs_self base k i :
  (i + k = length base)%nat →
  simple_lcs_loop (drop i base) base i i = (λ i, (i, i)) <$> seq i k.
Proof.
  revert i. induction k as [|k IH]; intros i Hi; [by rewrite drop_ge by lia|].
  destruct (lookup_lt_is_Some_2 base i) as [x Hx]; [lia|]. rewrite (drop_S _ _ _ Hx). simpl.
  rewrite (drop_S _ _ _ Hx). simpl. rewrite decide_True by done. f_equal. apply IH. lia.
Qed.

Lemma lcs_self base : longest_common_subsequence base base = Some (diagonal (length base)).
Proof.
  unfold longest_common_subsequence. destruct (_ || _) eqn:E0; [|destruct (too_large _ || _)].
  - apply orb_true_iff in E0 as [E0%Nat.eqb_eq|E0%Nat.eqb_eq]; by rewrite E0.
  - pose proof (simple_lcs_self base (length base) 0 eq_refl) as H. rewrite drop_0 in H.
    unfold simple_lcs. by rewrite H.
  - rewrite backtrack_self by lia. by rewrite app_nil_r.
Qed.
End Subsequence.

(** ** Patches *)

(** Line numbers survive the cast. *)
Definition fits_u32 (n : nat) : Prop := Z.of_nat n < 2 ^ 32.

Lemma as_u32_id n : fits_u32 n → as_u32 n = n.
Proof. unfold fits_u32, as_u32. intros H. rewrite Z.mod_small; lia. Qed.

Lemma slice_Some {A} (l : list A) a b :
  (a <= b <= length l)%nat → slice l a b = Some (take (b - a) (drop a l)).
Proof. intros H. unfold slice. by rewrite decide_True. Qed.

Lemma slice_drop {A} (l : list A) a b :
  (a <= b)%nat → take (b - a) (drop a l) ++ drop b l = drop a l.
Proof.
  intros H. rewrite <-(take_drop (b - a) (drop a l)) at 2. f_equal. rewrite drop_drop. f_equal. lia.
Qed.

(** What every list of changes satisfies: in range, and each starts after the
    end of the one before. *)
Fixpoint changes_ok (len from : nat) (cs : list LineChange) : Prop :=
  match cs with
  | [] => True
  | c :: cs' =>
      (from <= change_start c <= change_end c)%nat ∧ (change_end c <= len)%nat ∧
      changes_ok len (S (change_end c)) cs'
  end.

Lemma changes_ok_weaken len from from' cs :
  (from' <= from)%nat → changes_ok len from cs → changes_ok len from' cs.
Proof. destruct cs as [|c cs]; simpl; [done|]. intros ? (? & ? & ?). split_and!; auto; lia. Qed.

Lemma changes_ok_elem len from cs c :
  changes_ok len from cs → c ∈ cs → (from <= change_start c <= change_end c)%nat ∧ (change_end c <= len)%nat.
Proof.
  revert from. induction cs as [|d cs IH]; intros from; simpl; [by intros _ ?%elem_of_nil|].
  intros (? & ? & Hok) [->|Hc]%elem_of_cons; [lia|]. destruct (IH _ Hok Hc). lia.
Qed.

(** An unchanged line before the first change is copied. *)
Lemma merge_loop_step base cs idx x result :
  base !! idx = Some x → Forall (λ c, (idx < change_start c)%nat) cs →
  merge_loop base cs idx result = merge_loop base cs (S idx) (result ++ [x]).
Proof.
  intros Hx Hs. pose proof (lookup_lt_Some _ _ _ Hx) as Hlt. destruct cs as [|c cs]; simpl.
  - rewrite (drop_S _ _ _ Hx), <-app_assoc. done.
  - apply Forall_cons in Hs as [Hs _]. f_equal.
    + unfold after_copy. rewrite !Nat.max_r by lia. done.
    + unfold copied. rewrite (drop_S _ _ _ Hx).
      replace (Nat.min (change_start c) (length base) - idx)%nat
        with (S (Nat.min (change_start c) (length base) - S idx)) by lia.
      cbn [take]. by rewrite <-!app_assoc.
Qed.

(** A change at the current line replaces its range. *)
Lemma merge_loop_change base s e new cs result :
  (s <= e <= length base)%nat →
  merge_loop base (mkChange s e new :: cs) s result = merge_loop base cs e (result ++ new).
Proof.
  intros H. simpl. unfold copied, after_copy.
  replace (Nat.min s (length base) - s)%nat with 0%nat by lia.
  rewrite take_0, app_nil_r. f_equal.
  destruct (Nat.ltb_spec (Nat.max s (Nat.min s (length base))) e); lia.
Qed.

Lemma changes_loop_spec base modified lcs bi mi :
  fits_u32 (length base) → matching base modified lcs →
  Forall (λ p, (bi <= p.1)%nat ∧ (mi <= p.2)%nat) lcs →
  (bi <= length base)%nat → (mi <= length modified)%nat →
  ∃ cs, changes_loop (length base) modified lcs bi mi = Some cs ∧
    changes_ok (length base) bi cs ∧
    ∀ result, merge_loop base cs bi result = result ++ drop mi modified.
Proof.
  intros Hfit. revert bi mi. induction lcs as [|[mb mm] lcs IH]; intros bi mi [Hs Hm] Hge Hbi Hmi.
  - simpl. destruct (_ || _) eqn:E.
    + rewrite slice_Some by lia. simpl. rewrite !as_u32_id by (unfold fits_u32 in *; lia).
      eexists. split; [done|]. split; [simpl; lia|]. intros result.
      rewrite merge_loop_change by lia. simpl.
      rewrite (drop_ge base) by lia. rewrite app_nil_r, take_ge; [done|]. rewrite length_drop. lia.
    + apply orb_false_iff in E as [E1%Nat.ltb_ge E2%Nat.ltb_ge]. exists [].
      split; [done|]. split; [done|]. intros result. simpl. by rewrite !drop_ge by lia.
  - apply Forall_cons in Hge as [[Hb Hmm] Hge]. simpl in Hb, Hmm.
    inversion Hs as [|?? Hs' Hall]; subst. apply Forall_cons in Hm as [(x & H1 & H2) Hm].
    simpl in H1, H2. pose proof (lookup_lt_Some _ _ _ H1). pose proof (lookup_lt_Some _ _ _ H2).
    destruct (IH (S mb) (S mm)) as (cs & Hcs & Hok & Hloop); [by split| |lia|lia|].
    { apply (Forall_impl _ _ _ Hall). intros p [??]. simpl in *. lia. }
    assert (∀ result, merge_loop base cs mb result = result ++ drop mm modified) as Hfrom.
    { intros result. rewrite (merge_loop_step base cs mb x result H1), Hloop, <-app_assoc.
      - by rewrite (drop_S _ _ _ H2).
      - apply Forall_forall. intros c Hc. destruct (changes_ok_elem _ _ _ _ Hok Hc). lia. }
    cbn [changes_loop]. destruct (_ || _) eqn:E.
    + rewrite slice_Some by lia. cbn [mbind option_bind]. rewrite Hcs. cbn [mbind option_bind].
      rewrite !as_u32_id by (unfold fits_u32 in *; lia).
      eexists. split; [done|]. cbn [app]. split.
      * split; [simpl; lia|]. split; [simpl; lia|]. by apply (changes_ok_weaken _ (S mb)).
      * intros result. rewrite merge_loop_change by lia. rewrite Hfrom, <-app_assoc. by rewrite slice_drop.
    + apply orb_false_iff in E as [E1%Nat.ltb_ge E2%Nat.ltb_ge].
      assert (bi = mb) as -> by lia. assert (mi = mm) as -> by lia.
      cbn [mbind option_bind]. rewrite Hcs. cbn [mbind option_bind]. exists cs. split; [done|].
      split; [by apply (changes_ok_weaken _ (S mb)); [lia|]|done].
Qed.

Lemma compute_line_changes_spec base modified :
  fits_u32 (length base) →
  ∃ cs, compute_line_changes base modified = Some cs ∧ changes_ok (length base) 0 cs ∧
    merge_loop base cs 0 [] = modified.
Proof.
  intros Hfit. unfold compute_line_changes. destruct (lcs_spec base modified) as (ps & -> & Hm & _).
  destruct (changes_loop_spec base modified ps 0 0) as (cs & Hcs & Hok & Hloop); try done; try lia.
  { apply Forall_true. lia. }
  exists cs. rewrite Hloop, drop_0. done.
Qed.

Lemma changes_loop_self (base : list string) k i :
  (i + k = length base)%nat →
  changes_loop (length base) base ((λ i, (i, i)) <$> seq i k) i i = Some [].
Proof.
  revert i. induction k as [|k IH]; intros i Hi; cbn [seq fmap list_fmap changes_loop];
    rewrite ?Nat.ltb_irrefl; simpl.
  - replace (i <? length base)%nat with false by (symmetry; apply Nat.ltb_ge; lia). done.
  - rewrite IH by lia. done.
Qed.

Lemma compute_line_changes_self base : compute_line_changes base base = Some [].
Proof. unfold compute_line_changes. rewrite lcs_self. by apply changes_loop_self. Qed.

Lemma changes_ok_sorted len from cs : changes_ok len from cs → sort_by by_start cs = cs.
Proof.
  revert from. induction cs as [|c cs IH]; intros from; [done|]. intros (Hr & Hl & Hok).
  simpl. rewrite (IH _ Hok). destruct cs as [|d cs]; [done|]. simpl.
  destruct Hok as (Hd & _). unfold by_start. by rewrite (proj2 (Nat.leb_le _ _)) by lia.
Qed.

(** No slice of the conflict search is out of range. *)
Lemma find_conflicts_total ours theirs base :
  changes_ok (length base) 0 ours → changes_ok (length base) 0 theirs →
  ∃ cs, find_conflicts ours theirs base = Some cs ∧
    (cs = [] ↔ ∀ a b, a ∈ ours → b ∈ theirs → overlaps a b = false).
Proof.
  intros Ho Ht. unfold find_conflicts.
  assert (∀ a b, (a, b) ∈ list_prod ours theirs ↔ a ∈ ours ∧ b ∈ theirs) as Hprod.
  { intros a b. rewrite !list_elem_of_In. apply in_prod_iff. }
  destruct (mapM_is_Some_2 (λ ab, conflict_of base ab.1 ab.2)
    (filterb (λ ab, overlaps ab.1 ab.2) (list_prod ours theirs))) as [cs Hcs].
  { apply Forall_forall. intros [a b] [[Ha Hb]%Hprod Hov]%filterb_elem. simpl in *.
    destruct (changes_ok_elem _ _ _ _ Ho Ha), (changes_ok_elem _ _ _ _ Ht Hb).
    unfold conflict_of. rewrite slice_Some by lia. by eexists. }
  exists cs. split; [done|]. apply mapM_Some_1, Forall2_length in Hcs. split.
  - intros -> a b Ha Hb. destruct (overlaps a b) eqn:E; [|done].
    assert ((a, b) ∈ filterb (λ ab, overlaps ab.1 ab.2) (list_prod ours theirs)) as Hin.
    { apply filterb_elem. split; [by apply Hprod|done]. }
    destruct (filterb _ _); [by apply elem_of_nil in Hin|done].
  - intros Hno. destruct (filterb _ _) as [|[a b] l] eqn:E; [by destruct cs|].
    assert ((a, b) ∈ filterb (λ ab, overlaps ab.1 ab.2) (list_prod ours theirs)) as Hin.
    { rewrite E. left. }
    apply filterb_elem in Hin as [[Ha Hb]%Hprod Hov]. by rewrite Hno in Hov.
Qed.

(** ** Texts and lines *)

(** A text that [str::lines] keeps whole: no carriage return, and no line feed at
    its end. *)
Definition plain_text (s : string) : Prop :=
  carriage_return ∉ chars s ∧ last (chars s) ≠ Some newline.

Lemma strip_cr_id l : carriage_return ∉ l → strip_cr l = l.
Proof.
  intros H. unfold strip_cr. destruct (rev l) as [|c r] eqn:E; [done|].
  rewrite bool_decide_eq_false_2; [done|]. intros ->. apply H.
  apply list_elem_of_In, in_rev. rewrite E. by left.
Qed.

Lemma join_terminate ps :
  Forall (λ p, carriage_return ∉ p) ps → last (join_char newline ps) ≠ Some newline →
  join_char newline (terminate ps) = join_char newline ps.
Proof.
  induction ps as [|p [|q ps] IH]; [done|by destruct p|].
  intros [Hp Hps]%Forall_cons Hlast.
  change (join_char newline (strip_cr p :: terminate (q :: ps)) =
          p ++ newline :: join_char newline (q :: ps)).
  change (last (p ++ newline :: join_char newline (q :: ps)) ≠ Some newline) in Hlast.
  rewrite (strip_cr_id p) by done.
  assert (join_char newline (q :: ps) ≠ []) as Hne.
  { intros E. rewrite E, last_snoc in Hlast. done. }
  assert (last (join_char newline (q :: ps)) ≠ Some newline) as Hlast'.
  { intros E. apply Hlast. change (p ++ newline :: join_char newline (q :: ps)) with
      (p ++ [newline] ++ join_char newline (q :: ps)). rewrite app_assoc, last_app, E. done. }
  specialize (IH Hps Hlast'). destruct (terminate (q :: ps)) as [|t ts] eqn:E.
  - by destruct Hne.
  - rewrite <-IH. done.
Qed.

Lemma join_lines_chars l : chars (join_lines (of_chars <$> l)) = join_char newline l.
Proof.
  induction l as [|x [|y l] IH]; [done|simpl; apply chars_of_chars|].
  unfold join_lines in *. csimpl. csimpl in IH. cbn [join join_char] in *.
  rewrite !chars_app, chars_of_chars, IH. done.
Qed.

Lemma join_lines_plain s : plain_text s → join_lines (lines s) = s.
Proof.
  intros [Hcr Hlast]. apply chars_inj. unfold lines. rewrite join_lines_chars.
  rewrite join_terminate; [apply join_split| |by rewrite join_split].
  apply Forall_forall. intros p Hp Hin. apply Hcr. clear Hlast.
  revert p Hp Hin. generalize (chars s). intros l. induction l as [|d l IH]; simpl.
  { intros p ->%list_elem_of_singleton. done. }
  destruct (split_char newline l) as [|q qs] eqn:E;
    [by destruct (proj2 (split_no_char newline l))|].
  case_bool_decide; intros p Hp Hin.
  - apply elem_of_cons in Hp as [->|Hp]; [by apply elem_of_nil in Hin|]. right. eauto.
  - apply elem_of_cons in Hp as [->|Hp]; [|right; apply (IH p); [by right|done]].
    apply elem_of_cons in Hin as [->|Hin]; [left|]. right. apply (IH q); [left|done].
Qed.

(** ** The merge as a weave *)

(** What a merge without conflicts should produce, position by position: the new
    lines of the changes that start at [i], in order, then base line [i] unless a
    change replaces it. *)
Definition starts_at (i : nat) (c : LineChange) : bool := (change_start c =? i)%nat.
Definition covers (i : nat) (c : LineChange) : bool :=
  ((change_start c <=? i) && (i <? change_end c))%nat.

Definition cell (base : list string) (cs : list LineChange) (i : nat) : list string :=
  (filterb (starts_at i) cs ≫= new_lines) ++
  (if existsb (covers i) cs then [] else option_list (base !! i)).

Definition weave_from (base : list string) (cs : list LineChange) (i : nat) : list string :=
  seq i (S (length base) - i) ≫= cell base cs.
Definition weave (base : list string) (cs : list LineChange) : list string := weave_from base cs 0.

Lemma weave_from_step base cs i :
  (i <= length base)%nat → weave_from base cs i = cell base cs i ++ weave_from base cs (S i).
Proof.
  intros H. unfold weave_from.
  replace (S (length base) - i)%nat with (S (S (length base) - S i)) by lia. done.
Qed.

Lemma weave_from_end base cs i : (length base < i)%nat → weave_from base cs i = [].
Proof. intros H. unfold weave_from. by replace (S (length base) - i)%nat with 0%nat by lia. Qed.

(** Positions inside a replaced range contribute nothing. *)
Lemma weave_from_skip base cs i j :
  (i <= j <= S (length base))%nat → (∀ k, (i <= k < j)%nat → cell base cs k = []) →
  weave_from base cs i = weave_from base cs j.
Proof.
  intros [Hij Hj]. remember (j - i)%nat as d eqn:Hd. revert i Hij Hd.
  induction d as [|d IH]; intros i Hij Hd Hk; [by replace j with i by lia|].
  rewrite weave_from_step by lia. rewrite Hk by lia. apply IH; [lia|lia|]. intros k ?. apply Hk. lia.
Qed.

Lemma weave_from_ext base cs cs' i :
  (∀ k, (i <= k)%nat → cell base cs k = cell base cs' k) →
  weave_from base cs i = weave_from base cs' i.
Proof.
  intros H. unfold weave_from. revert i H. generalize (S (length base)).
  intros n i H. assert (∀ k, k ∈ seq i (n - i) → cell base cs k = cell base cs' k) as Hs.
  { intros k Hk%elem_of_seq. apply H. lia. }
  revert Hs. clear H. induction (seq i (n - i)) as [|k l IH]; intros Hs; [done|]. csimpl.
  rewrite Hs by left. rewrite IH; [done|]. intros k' ?. apply Hs. by right.
Qed.

(** A change and a later one: apart, or starting together. *)
Definition apart (c d : LineChange) : Prop :=
  (change_end c <= change_start d)%nat ∨ change_start c = change_start d.

Definition change_in_range (len : nat) (c : LineChange) : Prop :=
  (change_start c <= change_end c <= len)%nat.

(** The changes that start together at [i]: their lines are emitted in order, and
    the loop ends up behind the longest of them. *)
Definition furthest (i : nat) (g : list LineChange) : nat := foldl Nat.max i (change_end <$> g).

Lemma merge_loop_group base i g rest idx result :
  (i <= idx)%nat → (i <= length base)%nat → Forall (λ c, change_start c = i) g →
  merge_loop base (g ++ rest) idx result =
  merge_loop base rest (furthest idx g) (result ++ (g ≫= new_lines)).
Proof.
  intros Hi Hl Hg. revert idx result Hi.
  induction Hg as [|c g Hc Hg IH]; intros idx result Hi; [by rewrite app_nil_r|].
  cbn [app merge_loop]. unfold copied, after_copy. rewrite Hc.
  replace (Nat.min i (length base) - idx)%nat with 0%nat by lia. rewrite take_0, app_nil_r.
  replace (Nat.max idx (Nat.min i (length base))) with idx by lia.
  assert ((if (idx <? change_end c)%nat then change_end c else idx) = Nat.max idx (change_end c)) as ->.
  { destruct (Nat.ltb_spec idx (change_end c)); lia. }
  rewrite IH by lia. csimpl. by rewrite <-app_assoc.
Qed.

Lemma furthest_le i g c : c ∈ g → (change_end c <= furthest i g)%nat.
Proof.
  unfold furthest. revert i. induction g as [|d g IH]; intros i; [by intros ?%elem_of_nil|].
  csimpl. intros [->|Hc]%elem_of_cons; [|by apply IH].
  clear. generalize (Nat.max i (change_end d)) as m, (Nat.le_max_r i (change_end d)).
  induction g as [|e g IH]; intros m Hm; csimpl; [done|]. apply IH. lia.
Qed.

Lemma furthest_cases i g :
  furthest i g = i ∨ ∃ c, c ∈ g ∧ change_end c = furthest i g.
Proof.
  unfold furthest. revert i. induction g as [|d g IH]; intros i; [by left|]. csimpl.
  destruct (IH (Nat.max i (change_end d))) as [->|(c & Hc & Ec)].
  - destruct (Nat.max_spec i (change_end d)) as [[? ->]|[? ->]]; [right; exists d; split; [left|done]|by left].
  - right. exists c. split; [by right|done].
Qed.

Lemma furthest_ge i g : (i <= furthest i g)%nat.
Proof.
  unfold furthest. revert i. induction g as [|d g IH]; intros i; csimpl; [done|].
  specialize (IH (Nat.max i (change_end d))). lia.
Qed.

Lemma StronglySorted_app_elem {B} (R : B → B → Prop) l k x y :
  StronglySorted R (l ++ k) → x ∈ l → y ∈ k → R x y.
Proof.
  induction l as [|z l IH]; simpl; intros Hs Hx Hy; [by apply elem_of_nil in Hx|].
  inversion Hs as [|?? Hs' Hall]; subst. apply elem_of_cons in Hx as [->|Hx]; [|by apply IH].
  rewrite Forall_forall in Hall. apply Hall, elem_of_app. by right.
Qed.

(** Sorted changes split into those that start at [i] and later ones. *)
Lemma split_group i cs :
  StronglySorted (λ c d, (change_start c <= change_start d)%nat) cs →
  Forall (λ c, (i <= change_start c)%nat) cs →
  ∃ g rest, cs = g ++ rest ∧ Forall (λ c, change_start c = i) g ∧
    Forall (λ c, (i < change_start c)%nat) rest.
Proof.
  induction 1 as [|c cs Hs IH Hall]; intros Hge; [by exists [], []|].
  apply Forall_cons in Hge as [Hc Hge]. destruct (decide (change_start c = i)) as [E|E].
  - destruct (IH Hge) as (g & rest & -> & Hg & Hrest).
    exists (c :: g), rest. split; [done|]. split; [by constructor|done].
  - exists [], (c :: cs). split; [done|]. split; [constructor|]. constructor; [lia|].
    apply (Forall_impl _ _ _ Hall). simpl. lia.
Qed.

(** The cells of a group followed by later changes. *)
Lemma filter_starts g rest i k :
  Forall (λ c, change_start c = i) g → Forall (λ c, (k < change_start c)%nat) rest →
  filterb (starts_at k) (g ++ rest) = if decide (k = i) then g else [].
Proof.
  intros Hg Hr. unfold filterb. rewrite List.filter_app.
  assert (List.filter (starts_at k) rest = []) as ->.
  { induction Hr as [|c l Hc _ IH]; [done|]. simpl. unfold starts_at at 1.
    by rewrite (proj2 (Nat.eqb_neq _ _)) by lia. }
  rewrite app_nil_r. induction Hg as [|c l Hc _ IH]; simpl; [by case_decide|].
  unfold starts_at at 1. rewrite Hc, IH. case_decide as E.
  - subst. by rewrite Nat.eqb_refl.
  - by rewrite (proj2 (Nat.eqb_neq i k)) by lia.
Qed.

Lemma not_covered cs k :
  Forall (λ c, (k < change_start c)%nat ∨ (change_end c <= k)%nat) cs → existsb (covers k) cs = false.
Proof.
  intros H. apply existsb_false. intros c Hc. rewrite Forall_forall in H. unfold covers.
  apply andb_false_iff. rewrite Nat.leb_gt, Nat.ltb_ge. by apply H.
Qed.

(** Behind a group its changes no longer matter. *)
Lemma cell_behind base g rest i k :
  Forall (λ c, change_start c = i) g → (i < k)%nat → (furthest i g <= k)%nat →
  cell base (g ++ rest) k = cell base rest k.
Proof.
  intros Hg Hk He. unfold cell. rewrite existsb_app. unfold filterb. rewrite List.filter_app.
  rewrite (not_covered g k).
  2: { apply Forall_forall. intros c Hc. right. pose proof (furthest_le i g c Hc). lia. }
  assert (List.filter (starts_at k) g = []) as ->; [|done].
  clear He. induction Hg as [|c l Hc _ IH]; [done|]. simpl. unfold starts_at at 1.
  by rewrite (proj2 (Nat.eqb_neq _ _)) by lia.
Qed.

Lemma merge_loop_weave base cs i result :
  StronglySorted (λ c d, (change_start c <= change_start d)%nat ∧ apart c d) cs →
  Forall (change_in_range (length base)) cs → Forall (λ c, (i <= change_start c)%nat) cs →
  (i <= length base)%nat →
  merge_loop base cs i result = result ++ weave_from base cs i.
Proof.
  remember (length base - i)%nat as d eqn:Hd. revert cs i result Hd.
  induction (lt_wf d) as [d _ IH]. intros cs i result -> Hs Hr Hge Hi.
  destruct (split_group i cs) as (g & rest & -> & Hg & Hrest); [|done|].
  { clear -Hs. induction Hs as [|c cs Hs IH Hall]; constructor; [done|].
    apply (Forall_impl _ _ _ Hall). simpl. tauto. }
  rewrite (merge_loop_group base i) by done || lia. rewrite weave_from_step by lia.
  assert (cell base (g ++ rest) i =
          (g ≫= new_lines) ++ (if existsb (covers i) g then [] else option_list (base !! i))) as ->.
  { unfold cell. rewrite (filter_starts g rest i i), decide_True by done.
    rewrite existsb_app, (not_covered rest i); [by rewrite orb_false_r|].
    apply (Forall_impl _ _ _ Hrest). auto. }
  apply Forall_app in Hr as [Hrg Hr]. pose proof (furthest_ge i g) as Hle.
  assert (StronglySorted (λ c d, (change_start c <= change_start d)%nat ∧ apart c d) rest) as Hs'.
  { clear -Hs. induction g as [|c g IH]; [done|]. inversion Hs; auto. }
  destruct (decide (furthest i g = i)) as [E|E].
  - assert (existsb (covers i) g = false) as ->.
    { apply not_covered, Forall_forall. intros c Hc. right.
      pose proof (furthest_le i g c Hc). lia. }
    rewrite E, app_assoc, (weave_from_ext _ (g ++ rest) rest);
      [|intros k ?; apply (cell_behind _ _ _ i); [done|lia|lia]].
    destruct (base !! i) as [x|] eqn:Hx.
    + pose proof (lookup_lt_Some _ _ _ Hx). rewrite (merge_loop_step base rest i x) by done.
      rewrite (IH (length base - S i)%nat) by done || lia. simpl. by rewrite <-!app_assoc.
    + apply lookup_ge_None in Hx. destruct rest as [|c rest].
      * simpl. rewrite drop_ge, weave_from_end by lia. by rewrite !app_nil_r.
      * apply Forall_cons in Hr as [Hr _], Hrest as [Hrest _]. unfold change_in_range in Hr. lia.
  - destruct (furthest_cases i g) as [|(c & Hc & Ec)]; [done|].
    rewrite Forall_forall in Hg. pose proof (Hg c Hc) as Hci.
    assert (Forall (λ d, (furthest i g <= change_start d)%nat) rest) as Hbeyond.
    { apply Forall_forall. intros d Hd. rewrite Forall_forall in Hrest. specialize (Hrest d Hd).
      destruct (StronglySorted_app_elem _ _ _ c d Hs Hc Hd) as [_ [?|?]]; simpl in *; lia. }
    assert (∀ k, (i <= k < furthest i g)%nat → existsb (covers k) g = true) as Hcov.
    { intros k Hk. apply existsb_true. exists c. split; [done|]. unfold covers.
      apply andb_true_iff. rewrite Nat.leb_le, Nat.ltb_lt. lia. }
    rewrite Hcov by lia. rewrite app_nil_r. rewrite Forall_forall in Hrg.
    pose proof (Hrg c Hc) as Hcr. unfold change_in_range in Hcr.
    rewrite (IH (length base - furthest i g)%nat) by done || lia. rewrite <-app_assoc. do 2 f_equal.
    rewrite (weave_from_skip _ (g ++ rest) (S i) (furthest i g)); [|lia|].
    + apply weave_from_ext. intros k ?. symmetry. apply (cell_behind _ _ _ i); [|lia..].
      by apply Forall_forall.
    + intros k Hk. unfold cell. rewrite existsb_app, Hcov by lia. rewrite (filter_starts g rest i k).
      * by rewrite decide_False by lia.
      * by apply Forall_forall.
      * apply (Forall_impl _ _ _ Hbeyond). simpl. lia.
Qed.

Lemma StronglySorted_perm {B} (R : B → B → Prop) l k :
  (∀ x y, R x y → R y x) → l ≡ₚ k → StronglySorted R l → StronglySorted R k.
Proof.
  intros Hsym. induction 1 as [|x l k Hp IH|x y l|l k m ? IH1 ? IH2]; intros Hs; auto.
  - inversion Hs as [|?? Hs' Hall]; subst. constructor; [by apply IH|]. by rewrite <-Hp.
  - inversion Hs as [|?? Hs' Hall]; subst. apply Forall_cons in Hall as [Hxy Hall].
    inversion Hs'; subst. constructor; [by constructor|]. constructor; auto.
Qed.

Lemma overlaps_false a b :
  overlaps a b = false ↔ (change_end b <= change_start a)%nat ∨ (change_end a <= change_start b)%nat.
Proof. unfold overlaps. rewrite andb_false_iff, !Nat.ltb_ge. done. Qed.

Lemma changes_ok_apart len from cs :
  changes_ok len from cs → StronglySorted (λ a b, overlaps a b = false) cs.
Proof.
  revert from. induction cs as [|c cs IH]; intros from; [constructor|]. intros (? & ? & Hok).
  constructor; [by eapply IH|]. apply Forall_forall. intros d Hd.
  destruct (changes_ok_elem _ _ _ _ Hok Hd). apply overlaps_false. lia.
Qed.

Section Combined.
Context (len : nat) (ours theirs : list LineChange).
Hypothesis (Ho : changes_ok len 0 ours) (Ht : changes_ok len 0 theirs).

Lemma all_changes_range : Forall (change_in_range len) (all_changes ours theirs).
Proof using Ho Ht.
  apply Forall_forall. intros c Hc. unfold all_changes in Hc.
  apply sort_by_elem, elem_of_app in Hc as [Hc|Hc];
    [destruct (changes_ok_elem _ _ _ _ Ho Hc)|destruct (changes_ok_elem _ _ _ _ Ht Hc)];
    unfold change_in_range; lia.
Qed.

Hypothesis Hno : ∀ a b, a ∈ ours → b ∈ theirs → overlaps a b = false.

Lemma all_changes_ordered :
  StronglySorted (λ c d, (change_start c <= change_start d)%nat ∧ apart c d) (all_changes ours theirs).
Proof using Ho Ht Hno.
  assert (StronglySorted (λ a b, overlaps a b = false) (all_changes ours theirs)) as Hs.
  { apply (StronglySorted_perm _ (ours ++ theirs)).
    - intros x y. rewrite !overlaps_false. tauto.
    - symmetry. apply sort_by_perm.
    - apply changes_ok_apart in Ho as Hos. apply changes_ok_apart in Ht as Hts.
      clear Ho Ht. induction Hos as [|c cs Hs IH Hall]; [done|].
      simpl. constructor; [apply IH; intros; apply Hno; [by right|done]|].
      apply Forall_app. split; [done|]. apply Forall_forall. intros d Hd. apply Hno; [left|done]. }
  assert (StronglySorted (λ a b, by_start a b = true) (all_changes ours theirs)) as Hb.
  { apply Sorted_StronglySorted.
    - intros a b c. unfold by_start. rewrite !Nat.leb_le. lia.
    - apply sort_by_Sorted. intros a b. unfold by_start. rewrite !Nat.leb_le. lia. }
  pose proof all_changes_range as Hr. clear -Hs Hb Hr.
  induction Hs as [|c l Hs IH Hall]; constructor.
  - apply IH; [by inversion Hb|by inversion Hr].
  - inversion Hb as [|?? _ Hle]; subst. apply Forall_cons in Hr as [Hc Hr].
    rewrite Forall_forall in *. intros d Hd. specialize (Hle d Hd). specialize (Hr d Hd).
    specialize (Hall d Hd). apply overlaps_false in Hall. unfold by_start in Hle.
    apply Nat.leb_le in Hle. unfold apart, change_in_range in *. lia.
Qed.

Lemma merge_loop_all base :
  length base = len → merge_loop base (all_changes ours theirs) 0 [] =
  weave base (all_changes ours theirs).
Proof using Ho Ht Hno.
  intros Hl. rewrite merge_loop_weave; [done|apply all_changes_ordered| |apply Forall_true|]; try lia.
  rewrite Hl. apply all_changes_range.
Qed.
End Combined.

(** ** Properties *)

(** C28: merging is total for a base of fewer than 2^32 lines: the differences of both
    sides from the base are found, each turns the base into its side, and there is a
    result.  It is a success exactly when no change of one side overlaps a change of the
    other, and then the text it gives is the weave of the base with both sides' changes:
    every base line neither side touches is kept, in order, and every changed range is
    replaced by its new lines. *)
Theorem merge_is_weave base ours theirs :
  fits_u32 (length (lines base)) →
  ∃ oc tc r,
    compute_line_changes (lines base) (lines ours) = Some oc ∧ merge_loop (lines base) oc 0 [] = lines ours ∧
    compute_line_changes (lines base) (lines theirs) = Some tc ∧ merge_loop (lines base) tc 0 [] = lines theirs ∧
    three_way_merge base ours theirs = Some r ∧
    (merge_success r = true ↔ ∀ a b, a ∈ oc → b ∈ tc → overlaps a b = false) ∧
    (merge_success r = true ↔ merge_conflicts r = []) ∧
    (merge_success r = true →
     merged r = Some (join_lines (weave (lines base) (all_changes oc tc)))).
Proof.
  intros Hfit. unfold three_way_merge.
  destruct (compute_line_changes_spec (lines base) (lines ours) Hfit) as (oc & -> & Hook & Ho).
  destruct (compute_line_changes_spec (lines base) (lines theirs) Hfit) as (tc & -> & Htok & Ht).
  cbn [mbind option_bind].
  destruct (find_conflicts_total _ _ _ Hook Htok) as (cs & -> & Hcs). cbn [mbind option_bind].
  exists oc, tc. eexists. do 5 (split; [done|]). destruct cs as [|c cs]; simpl.
  - split; [by rewrite <-Hcs|]. split; [done|]. intros _. unfold apply_merge.
    rewrite (merge_loop_all (length (lines base))); try done. by apply Hcs.
  - split; [rewrite <-Hcs; done|done].
Qed.

Lemma merge_is_weave_witness :
  let base := "a
b
c"%string in
  ∃ r, three_way_merge base "A
b
c"%string "a
b
c
d"%string = Some r ∧ merge_success r = true ∧ merged r = Some "A
b
c
d"%string.
Proof.
  destruct (merge_is_weave "a
b
c" "A
b
c" "a
b
c
d") as (oc & tc & r & Ho & _ & Ht & _ & H1 & H2 & _ & H3); [done|].
  vm_compute in Ho, Ht. simplify_eq.
  exists r. split; [done|]. assert (merge_success r = true) as Hs.
  { apply H2. intros a b ->%list_elem_of_singleton ->%list_elem_of_singleton. reflexivity. }
  split; [done|]. rewrite (H3 Hs). reflexivity.
Defined.

(** When only one side changed the file, the merge is that side's version: a
    line diff applied to the base gives the modified file back.  The text is the
    side's own text when that has no carriage return and no final line feed. *)
Theorem one_sided_merge base other :
  fits_u32 (length (lines base)) →
  let r := mkMerge (Some (join_lines (lines other))) [] true AutoMerge in
  three_way_merge base other base = Some r ∧ three_way_merge base base other = Some r ∧
  (plain_text other → join_lines (lines other) = other).
Proof.
  intros Hfit r.
  destruct (compute_line_changes_spec (lines base) (lines other) Hfit) as (cs & Hcs & Hok & Hmerge).
  unfold three_way_merge. rewrite Hcs, compute_line_changes_self. cbn [mbind option_bind].
  unfold apply_merge, all_changes. rewrite app_nil_r.
  assert (find_conflicts cs [] (lines base) = Some []) as ->.
  { unfold find_conflicts. assert (list_prod cs ([] : list LineChange) = []) as ->; [|done].
    clear. by induction cs. }
  cbn [mbind option_bind find_conflicts list_prod filterb List.filter mapM app].
  rewrite (changes_ok_sorted _ _ _ Hok), Hmerge. split; [done|]. split; [done|].
  apply join_lines_plain.
Qed.

Lemma one_sided_merge_witness :
  three_way_merge "a" "b
c" "a" = Some (mkMerge (Some "b
c"%string) [] true AutoMerge).
Proof. apply (one_sided_merge "a" "b
c"). done. Defined.

(** Up to 5000 lines a side, the lines the diff keeps are a longest common
    subsequence of the two versions; beyond that the greedy scan still gives a common
    subsequence.  The table and the backtracking loop never index out of range. *)
Theorem lcs_is_longest (base modified : list string) :
  ∃ ps, longest_common_subsequence base modified = Some ps ∧ matching base modified ps ∧
    (too_large (length base) = false → too_large (length modified) = false →
     ∀ qs, matching base modified qs → (length qs <= length ps)%nat).
Proof. apply lcs_spec. Qed.

(** With a conflict, the change of one side that starts on the line right after
    the conflicting region is swallowed by it: neither its new line nor the line it
    replaces is in the output, though the marker block appears twice. *)
Theorem conflict_swallows_neighbour :
  let d := join_lines in
  ∃ r out, three_way_merge (d ["a"; "b"; "c"; "d"; "e"]) (d ["a"; "B1"; "c"; "D1"; "e"])
             (d ["a"; "B2"; "C2"; "d"; "e"])%string = Some r ∧
    merge_success r = false ∧ length (merge_conflicts r) = 1%nat ∧ merged r = Some out ∧
    length (filterb (λ l, bool_decide (l = "<<<<<<< ours"%string)) (lines out)) = 2%nat ∧
    existsb (λ l, bool_decide (l = "D1"%string)) (lines out) = false ∧
    existsb (λ l, bool_decide (l = "d"%string)) (lines out) = false.
Proof. vm_compute. do 2 eexists. repeat split. Qed.
