(* ===== verification/Events.v ===== *)
(** * Agent events and the event store

    [uc-engine/src/events.rs]: the events every agent action is recorded as, the
    [EventStore] trait and its in-memory implementation.

    - [EventStore] is the trait as a class over the type of a backend; the clock
      reading of [append] is an argument.
    - [EventStoreOk] is what the checkpoints rely on.  Its [latest_ok] asks less than
      the exact last offset of the subject, because the JetStream backend answers with
      the last sequence of the whole stream.
    - [InMemoryEventStore] is an instance; [fetch_add] and the push of an [append] are
      one step. *)

From Stdlib Require Import String.
From S2P Require Import Prelude RustStr Task.

(** A range of lines, the end excluded. *)
Record LineRange : Type := mkRange { range_start : Z; range_end : Z }.
#[export] Instance LineRange_eq_dec : EqDecision LineRange.
Proof. solve_decision. Defined.

Definition range_overlaps (a b : LineRange) : bool :=
  (range_start a <? range_end b) && (range_start b <? range_end a).

Module AgentEvent.
Inductive AgentEventType : Type :=
| TaskCreated (task_id : TaskId) (description : string)
| SubtaskAssigned (task_id subtask_id : TaskId) (worker_id : WorkerId)
| SubtaskStarted (task_id subtask_id : TaskId) (worker_id : WorkerId)
| SubtaskProgress (task_id subtask_id : TaskId) (worker_id : WorkerId) (phase : string)
    (percent : Z) (step_index step_total : option Z)
    (step_agent step_status step_summary parallel_group : option string)
    (parallel_step_count : option Z)
| ToolInvoked (task_id subtask_id : TaskId) (tool_name tool_input : string)
| ToolResult (task_id subtask_id : TaskId) (tool_output : string) (success : bool)
| FileModified (task_id subtask_id : TaskId) (file_path diff : string)
| EditIntent (worker_id : WorkerId) (file_path edit_type : string) (regions : list LineRange)
| SubtaskCompleted (task_id subtask_id : TaskId) (summary : string) (success : bool)
    (modified_files : list FileChange) (output : string) (simulated : bool)
| SubtaskFailed (task_id subtask_id : TaskId) (error : string) (recoverable : bool)
    (stderr_tail recent_tools : string)
| CheckpointCreated (task_id : TaskId) (snapshot_id : string) (event_offset : Z)
| TaskCompleted (task_id : TaskId) (description result : string)
| TaskFailed (task_id : TaskId) (error : string)
| TaskPaused (task_id : TaskId)
| TaskResumed (task_id : TaskId)
| TaskCancelled (task_id : TaskId)
| TaskUpdated (task_id : TaskId) (status : string)
| SubtaskRetried (task_id subtask_id : TaskId) (attempt_id : Z).
End AgentEvent.
Notation AgentEventType := AgentEvent.AgentEventType.

Record RecordedEvent : Type := mkRecorded {
  event_offset : Z;
  event_timestamp : Z;
  event_payload : AgentEventType;
  event_subject : string
}.

(** The [EventStore] trait. *)
Class EventStore (S : Type) : Type := {
  append : Instant → S → string → AgentEventType → result Z EngineError * S;
  read_from : S → string → Z → result (list RecordedEvent) EngineError;
  latest_offset : S → string → result Z EngineError
}.

(** Offsets grow along a stream. *)
Definition increasing (l : list RecordedEvent) : Prop :=
  StronglySorted (λ a b, event_offset a < event_offset b) l.

(** [stream] is what a backend holds of a subject, [frontier] a bound below every
    offset it will still assign, and [room s n] says that the next [n] appends find an
    offset. *)
Class EventStoreOk (S : Type) `{EventStore S} : Type := {
  stream : S → string → list RecordedEvent;
  frontier : S → Z;
  events_wf : S → Prop;
  room : S → nat → Prop;
  room_less : ∀ s n, room s (Datatypes.S n) → room s n;
  stream_increasing : ∀ s subject, events_wf s → increasing (stream s subject);
  stream_range : ∀ s subject e, events_wf s → e ∈ stream s subject →
    1 <= event_offset e < frontier s;
  append_ok : ∀ now s subject event r s' n, events_wf s → room s (Datatypes.S n) →
    append now s subject event = (r, s') →
    events_wf s' ∧ room s' n ∧ frontier s <= frontier s' ∧
    (∀ subject', subject' ≠ subject → stream s' subject' = stream s subject') ∧
    (stream s' subject = stream s subject ∧ (∀ offset, r ≠ Ok offset) ∨
     ∃ offset, frontier s <= offset ∧
       stream s' subject =
         stream s subject ++ [mkRecorded offset (timestamp_millis now) event subject] ∧
       (∀ offset', r = Ok offset' → offset' = offset));
  read_ok : ∀ s subject offset l, events_wf s → read_from s subject offset = Ok l →
    l = filterb (λ e, offset <=? event_offset e) (stream s subject);
  latest_ok : ∀ s subject offset, events_wf s → latest_offset s subject = Ok offset →
    0 <= offset < frontier s ∧ Forall (λ e, event_offset e <= offset) (stream s subject)
}.

(** A store only grows, and only above its frontier. *)
Section Growth.
Context {S : Type} `{EventStoreOk S}.

Definition grows (s s' : S) : Prop :=
  frontier s <= frontier s' ∧
  ∀ subject, ∃ l, stream s' subject = stream s subject ++ l ∧
    Forall (λ e, frontier s <= event_offset e) l.

Lemma grows_refl s : grows s s.
Proof. split; [lia|]. intros subject. exists []. by rewrite app_nil_r. Qed.

Lemma grows_trans s1 s2 s3 : grows s1 s2 → grows s2 s3 → grows s1 s3.
Proof.
  intros [H12 G12] [H23 G23]. split; [lia|]. intros subject.
  destruct (G12 subject) as (l & E & Hl), (G23 subject) as (k & E' & Hk). exists (l ++ k).
  rewrite E', E, app_assoc. split; [done|]. apply Forall_app. split; [done|].
  apply (Forall_impl _ _ _ Hk). intros e ?. lia.
Qed.

Lemma append_grows now s subject event r s' n :
  events_wf s → room s (Datatypes.S n) → append now s subject event = (r, s') →
  events_wf s' ∧ room s' n ∧ grows s s'.
Proof.
  intros Hwf Hroom Ha.
  destruct (append_ok _ _ _ _ _ _ _ Hwf Hroom Ha) as (Hwf' & Hroom' & Hf & Hother & Hsame).
  split; [done|]. split; [done|]. split; [done|]. intros subject'. destruct (decide (subject' = subject)) as [->|Hne].
  - destruct Hsame as [[E _]|(o & Ho & E & _)]; [exists []; by rewrite app_nil_r|].
    eexists. split; [done|]. by apply Forall_singleton.
  - exists []. rewrite app_nil_r. split; [by apply Hother|constructor].
Qed.
End Growth.

(** ** The in-memory store *)

Record InMemoryEventStore : Type := mkEventStore {
  streams : gmap string (list RecordedEvent);
  global_offset : Z
}.

Definition InMemoryEventStore_new : InMemoryEventStore := mkEventStore ∅ 1.

(** [fetch_add] wraps around at 2^64. *)
Definition InMemory_append (now : Instant) (s : InMemoryEventStore) (subject : string)
    (event : AgentEventType) : result Z EngineError * InMemoryEventStore :=
  let offset := global_offset s in
  let recorded := mkRecorded offset (timestamp_millis now) event subject in
  (Ok offset,
   mkEventStore (<[subject := default [] (streams s !! subject) ++ [recorded]]> (streams s))
     ((offset + 1) `mod` 2 ^ 64)).

Definition InMemory_read_from (s : InMemoryEventStore) (subject : string) (offset : Z)
    : result (list RecordedEvent) EngineError :=
  match streams s !! subject with
  | Some events => Ok (filterb (λ e, offset <=? event_offset e) events)
  | None => Ok []
  end.

Definition InMemory_latest_offset (s : InMemoryEventStore) (subject : string)
    : result Z EngineError :=
  match streams s !! subject with
  | Some events => Ok (default 0 (event_offset <$> last events))
  | None => Ok 0
  end.

#[export] Instance InMemory_EventStore : EventStore InMemoryEventStore := {|
  append := InMemory_append;
  read_from := InMemory_read_from;
  latest_offset := InMemory_latest_offset
|}.

Definition InMemory_stream (s : InMemoryEventStore) (subject : string) : list RecordedEvent :=
  default [] (streams s !! subject).

(** Every stream is increasing and below the counter. *)
Definition InMemory_wf (s : InMemoryEventStore) : Prop :=
  1 <= global_offset s ∧
  ∀ subject, increasing (InMemory_stream s subject) ∧
    Forall (λ e, 1 <= event_offset e < global_offset s) (InMemory_stream s subject).

(** The counter wraps around after 2^64 - 1 appends; until then offsets are fresh. *)
Definition InMemory_room (s : InMemoryEventStore) (n : nat) : Prop :=
  global_offset s + Z.of_nat n <= 2 ^ 64 - 1.

Lemma increasing_snoc l e :
  increasing l → Forall (λ d, event_offset d < event_offset e) l → increasing (l ++ [e]).
Proof.
  intros Hl Hall. induction Hl as [|d l Hs IH Hd]; simpl; [by repeat constructor|].
  apply Forall_cons in Hall as [Hde Hall]. constructor; [by apply IH|].
  apply Forall_app. split; [done|]. by apply Forall_singleton.
Qed.

Lemma InMemory_append_stream now s subject event r s' subject' :
  InMemory_append now s subject event = (r, s') →
  InMemory_stream s' subject' =
    InMemory_stream s subject' ++
    (if decide (subject' = subject)
     then [mkRecorded (global_offset s) (timestamp_millis now) event subject] else []).
Proof.
  intros [= <- <-]. unfold InMemory_stream. simpl. case_decide as E.
  - subst. by rewrite lookup_insert_eq.
  - rewrite lookup_insert_ne by done. by rewrite app_nil_r.
Qed.

Lemma InMemory_append_wf now s subject event r s' n :
  InMemory_wf s → InMemory_room s (Datatypes.S n) → InMemory_append now s subject event = (r, s') →
  InMemory_wf s' ∧ InMemory_room s' n ∧ global_offset s' = global_offset s + 1.
Proof.
  intros [Hpos Hwf] Hroom Ha. unfold InMemory_room in *.
  assert (global_offset s' = global_offset s + 1) as Hg.
  { injection Ha as <- <-. simpl. rewrite Z.mod_small; lia. }
  split; [|split; [lia|done]]. split; [lia|]. intros subject'.
  rewrite (InMemory_append_stream _ _ _ _ _ _ subject' Ha). destruct (Hwf subject') as [Hi Hr].
  case_decide; [|rewrite app_nil_r; split; [done|]; apply (Forall_impl _ _ _ Hr); simpl; lia].
  split.
  - apply increasing_snoc; [done|]. apply (Forall_impl _ _ _ Hr). simpl. lia.
  - apply Forall_app. split; [apply (Forall_impl _ _ _ Hr); simpl; lia|].
    apply Forall_singleton. simpl. lia.
Qed.

Lemma last_bounds l e :
  increasing l → last l = Some e → Forall (λ d, event_offset d <= event_offset e) l.
Proof.
  intros Hi Hl. destruct l as [|x l _] using rev_ind; [done|].
  rewrite last_snoc in Hl. injection Hl as ->. clear -Hi.
  induction l as [|d l IH]; simpl; [constructor; [lia|constructor]|].
  inversion Hi as [|?? Hi' Hall]; subst. constructor; [|by apply IH].
  apply Forall_app in Hall as [_ [? _]%Forall_cons]. lia.
Qed.

#[export] Program Instance InMemory_EventStoreOk : EventStoreOk InMemoryEventStore := {|
  stream := InMemory_stream;
  frontier := global_offset;
  events_wf := InMemory_wf;
  room := InMemory_room
|}.
Next Obligation. unfold InMemory_room. intros s n. lia. Qed.
Next Obligation. intros s subject [_ Hwf]. by destruct (Hwf subject). Qed.
Next Obligation.
  intros s subject e [_ Hwf] He. destruct (Hwf subject) as [_ Hr]. rewrite Forall_forall in Hr.
  by apply Hr.
Qed.
Next Obligation.
  intros now s subject event r s' n Hwf Hroom Ha.
  destruct (InMemory_append_wf _ _ _ _ _ _ _ Hwf Hroom Ha) as (? & ? & ?).
  pose proof (λ subject', InMemory_append_stream _ _ _ _ _ _ subject' Ha) as Hs.
  split_and!; [done|done|lia| |].
  - intros subject' ?. by rewrite Hs, decide_False, app_nil_r.
  - right. exists (global_offset s). split; [lia|]. split; [by rewrite Hs, decide_True|].
    injection Ha as <- _. by intros offset' [= <-].
Qed.
Next Obligation.
  intros s subject offset l _. simpl. unfold InMemory_read_from, InMemory_stream.
  destruct (streams s !! subject); by intros [= <-].
Qed.
Next Obligation.
  intros s subject offset [Hpos Hwf]. simpl. destruct (Hwf subject) as [Hi Hr].
  unfold InMemory_latest_offset, InMemory_stream in *.
  destruct (streams s !! subject) as [l|]; simpl in *; intros [= <-]; [|by split; [lia|]].
  destruct (last l) as [e|] eqn:El; simpl.
  - rewrite Forall_forall in Hr. apply last_Some in El as Hin. destruct Hin as [k ->].
    specialize (Hr e ltac:(apply elem_of_app; right; left)). split; [lia|]. by apply last_bounds.
  - apply last_None in El as ->. split; [lia|constructor].
Qed.

Lemma InMemory_new_wf : InMemory_wf InMemoryEventStore_new.
Proof. split; [done|]. intros subject. unfold InMemory_stream. simpl. rewrite lookup_empty. split; constructor. Qed.
