(* ===== verification/Conflict.v ===== *)
(** * Conflict detection

    [uc-engine/src/conflict/mod.rs]: workers declare the files and line ranges they
    mean to edit; the detector says who else has declared them.  [DashMap]s are
    [gmap]s.  [declare_intent] reads the map and then writes it, with the lock released
    in between, so it is also given as its two steps ([Begin], [Finish]) for
    interleavings. *)

From Stdlib Require Import String.
From S2P Require Import Prelude RustStr Events Merge.

Inductive EditType : Type := Create | Modify | Delete.
#[export] Instance EditType_eq_dec : EqDecision EditType.
Proof. solve_decision. Defined.

Record EditIntent : Type := mkIntent {
  intent_worker : string;
  intent_file : string;
  edit_type : EditType;
  intent_regions : list LineRange;
  intent_timestamp : Z
}.
#[export] Instance EditIntent_eq_dec : EqDecision EditIntent.
Proof. solve_decision. Defined.

Definition EditIntent_new (now : Instant) (worker_id file_path : string) (t : EditType)
    (regions : list LineRange) : EditIntent :=
  mkIntent worker_id file_path t regions (timestamp_millis now).

Inductive ConflictResult : Type :=
| NoConflict
| PotentialConflict (conflicting_workers : list string)
| Conflicting (conflicting_workers : list string) (resolution_tier : ResolutionTier).
#[export] Instance ConflictResult_eq_dec : EqDecision ConflictResult.
Proof. solve_decision. Defined.

Record ConflictDetector : Type := mkDetector {
  baseline_hashes : gmap string string;
  active_intents : gmap string (list EditIntent)
}.

Definition ConflictDetector_new : ConflictDetector := mkDetector ∅ ∅.

Definition register_baseline (file_path hash : string) (d : ConflictDetector) : ConflictDetector :=
  mkDetector (<[file_path := hash]> (baseline_hashes d)) (active_intents d).

(** [has_overlap || whole_file_conflict] for one recorded intent. *)
Definition regions_clash (existing regions : list LineRange) : bool :=
  let has_overlap := existsb (λ e, existsb (range_overlaps e) regions) existing in
  let whole_file_conflict :=
    (bool_decide (existing = []) || bool_decide (regions = [])) && negb has_overlap in
  has_overlap || whole_file_conflict.

(** The loop over the recorded intents; [acc] is [conflicting_workers]. *)
Fixpoint conflicting_loop (worker_id : string) (regions : list LineRange)
    (intents : list EditIntent) (acc : list string) : list string :=
  match intents with
  | [] => acc
  | i :: rest =>
      if bool_decide (intent_worker i = worker_id) then conflicting_loop worker_id regions rest acc
      else if regions_clash (intent_regions i) regions && negb (bool_decide (intent_worker i ∈ acc))
      then conflicting_loop worker_id regions rest (acc ++ [intent_worker i])
      else conflicting_loop worker_id regions rest acc
  end.

Definition other_workers (worker_id : string) (intents : list EditIntent) : list string :=
  intent_worker <$> filterb (λ i, bool_decide (intent_worker i ≠ worker_id)) intents.

Definition check_conflict (file_path worker_id : string) (regions : list LineRange)
    (d : ConflictDetector) : ConflictResult :=
  match active_intents d !! file_path with
  | Some ((_ :: _) as existing) =>
      match conflicting_loop worker_id regions existing [] with
      | [] =>
          match other_workers worker_id existing with
          | [] => NoConflict
          | others => PotentialConflict others
          end
      | workers => Conflicting workers AutoMerge
      end
  | _ => NoConflict
  end.

(** [entry(..).or_default().push(intent)]. *)
Definition record_intent (intent : EditIntent) (d : ConflictDetector) : ConflictDetector :=
  mkDetector (baseline_hashes d)
    (<[intent_file intent := default [] (active_intents d !! intent_file intent) ++ [intent]]>
       (active_intents d)).

Definition check_intent (intent : EditIntent) (d : ConflictDetector) : ConflictResult :=
  check_conflict (intent_file intent) (intent_worker intent) (intent_regions intent) d.

Definition declare_intent (intent : EditIntent) (d : ConflictDetector)
    : ConflictResult * ConflictDetector :=
  (check_intent intent d, record_intent intent d).

Definition remove_intent (file_path worker_id : string) (d : ConflictDetector) : ConflictDetector :=
  match active_intents d !! file_path with
  | Some intents =>
      mkDetector (baseline_hashes d)
        (<[file_path := filterb (λ i, bool_decide (intent_worker i ≠ worker_id)) intents]>
           (active_intents d))
  | None => d
  end.

Definition clear_intents (d : ConflictDetector) : ConflictDetector :=
  mkDetector (baseline_hashes d) ∅.

Definition get_intents (file_path : string) (d : ConflictDetector) : list EditIntent :=
  default [] (active_intents d !! file_path).

Definition is_file_modified (file_path current_hash : string) (d : ConflictDetector) : bool :=
  match baseline_hashes d !! file_path with
  | Some baseline => bool_decide (baseline ≠ current_hash)
  | None => false
  end.

(** ** What a check answers *)

Lemma conflicting_loop_elem worker regions intents acc w :
  w ∈ conflicting_loop worker regions intents acc ↔
  w ∈ acc ∨ ∃ i, i ∈ intents ∧ intent_worker i = w ∧ w ≠ worker ∧
                 regions_clash (intent_regions i) regions = true.
Proof.
  revert acc. induction intents as [|i rest IH]; intros acc; simpl.
  { split; [by left|]. intros [H|(i & H & _)]; [done|]. by apply elem_of_nil in H. }
  case_bool_decide as Hw; [|destruct (_ && _) eqn:E].
  - rewrite IH. split; (intros [?|(j & Hj & H)]; [by left|right; exists j]).
    + split; [by right|done].
    + apply elem_of_cons in Hj as [->|Hj]; [by destruct H as (<- & ? & _)|done].
  - bool_hyps. rewrite IH, elem_of_app, list_elem_of_singleton. split.
    + intros [[?| ->]|(j & Hj & Hcl)]; [by left|right; exists i; split; [left|done]|].
      right. exists j. split; [by right|done].
    + intros [?|(j & [->|Hj]%elem_of_cons & Hcl)]; [by do 2 left| |right; by exists j].
      left. right. symmetry. by destruct Hcl.
  - rewrite IH. split; (intros [?|(j & Hj & H)]; [by left|]).
    + right. exists j. split; [by right|done].
    + apply elem_of_cons in Hj as [->|Hj]; [|right; by exists j].
      destruct H as (<- & _ & Hc). rewrite Hc in E. simpl in E. bool_hyps. by left.
Qed.

Lemma conflicting_loop_NoDup worker regions intents acc :
  NoDup acc → NoDup (conflicting_loop worker regions intents acc).
Proof.
  revert acc. induction intents as [|i rest IH]; intros acc Hn; simpl; [done|].
  case_bool_decide; [by apply IH|]. destruct (_ && _) eqn:E; [|by apply IH]. bool_hyps.
  apply IH, NoDup_app. split; [done|]. split; [|apply NoDup_singleton].
  by intros x Hx ->%list_elem_of_singleton.
Qed.

Lemma other_workers_elem worker intents w :
  w ∈ other_workers worker intents ↔ ∃ i, i ∈ intents ∧ intent_worker i = w ∧ w ≠ worker.
Proof.
  unfold other_workers. rewrite list_elem_of_fmap. setoid_rewrite filterb_elem.
  setoid_rewrite bool_decide_eq_true. naive_solver.
Qed.

(** The workers a set of regions clashes with on a file. *)
Definition clashes (d : ConflictDetector) (file worker : string) (regions : list LineRange)
    (w : string) : Prop :=
  ∃ i, i ∈ get_intents file d ∧ intent_worker i = w ∧ w ≠ worker ∧
    regions_clash (intent_regions i) regions = true.

Definition shares_file (d : ConflictDetector) (file worker w : string) : Prop :=
  ∃ i, i ∈ get_intents file d ∧ intent_worker i = w ∧ w ≠ worker.

Lemma check_conflict_spec file worker regions d :
  match check_conflict file worker regions d with
  | Conflicting ws tier =>
      tier = AutoMerge ∧ ws ≠ [] ∧ NoDup ws ∧ ∀ w, w ∈ ws ↔ clashes d file worker regions w
  | PotentialConflict ws =>
      ws ≠ [] ∧ (∀ w, ¬ clashes d file worker regions w) ∧
      ∀ w, w ∈ ws ↔ shares_file d file worker w
  | NoConflict => ∀ w, ¬ shares_file d file worker w
  end.
Proof.
  unfold check_conflict, clashes, shares_file, get_intents.
  destruct (active_intents d !! file) as [[|i0 rest]|] eqn:E; cbn [default from_option id];
    [by intros w (i & Hi%elem_of_nil & _)| |by intros w (i & Hi%elem_of_nil & _)].
  pose proof (λ w, conflicting_loop_elem worker regions (i0 :: rest) [] w) as Hc.
  pose proof (conflicting_loop_NoDup worker regions (i0 :: rest) [] (NoDup_nil_2)) as Hn.
  destruct (conflicting_loop _ _ _ _) as [|w ws].
  - assert (∀ w, ¬ ∃ i, i ∈ i0 :: rest ∧ intent_worker i = w ∧ w ≠ worker ∧
                   regions_clash (intent_regions i) regions = true) as Hno.
    { intros w Hw. apply (not_elem_of_nil w), Hc. by right. }
    pose proof (λ w, other_workers_elem worker (i0 :: rest) w) as Ho.
    destruct (other_workers worker (i0 :: rest)) as [|w ws]; [|split_and!; done].
    intros w Hw. by apply (not_elem_of_nil w), Ho.
  - split; [done|]. split; [done|]. split; [done|]. intros v. rewrite Hc. split; [|by right].
    intros [Hv|Hv]; [by apply elem_of_nil in Hv|done].
Qed.

Lemma clashes_reported d file worker regions w :
  clashes d file worker regions w →
  ∃ ws, check_conflict file worker regions d = Conflicting ws AutoMerge ∧ w ∈ ws.
Proof.
  intros Hc. pose proof (check_conflict_spec file worker regions d) as Hspec.
  destruct (check_conflict _ _ _ _) as [|ws|ws tier].
  - destruct (Hspec w). destruct Hc as (j & ? & ? & ? & _). by exists j.
  - destruct Hspec as (_ & Hno & _). by destruct (Hno w).
  - destruct Hspec as (-> & _ & _ & Hws). exists ws. split; [done|]. by apply Hws.
Qed.

(** ** Histories *)

Inductive detector_op : Type :=
| Baseline (file hash : string)
| DeclareIntent (intent : EditIntent)
| Remove (file worker : string)
| Clear.

Definition detector_step (d : ConflictDetector) (op : detector_op) : ConflictDetector :=
  match op with
  | Baseline file hash => register_baseline file hash d
  | DeclareIntent intent => (declare_intent intent d).2
  | Remove file worker => remove_intent file worker d
  | Clear => clear_intents d
  end.

Definition detector_run (d : ConflictDetector) (ops : list detector_op) : ConflictDetector :=
  foldl detector_step d ops.

(** The abstract state: the declared and not yet withdrawn intents, in order. *)
Definition intents_step (l : list EditIntent) (op : detector_op) : list EditIntent :=
  match op with
  | Baseline _ _ => l
  | DeclareIntent intent => l ++ [intent]
  | Remove file worker =>
      filterb (λ i, negb (bool_decide (intent_file i = file) && bool_decide (intent_worker i = worker))) l
  | Clear => []
  end.

Definition on_file (file : string) (l : list EditIntent) : list EditIntent :=
  filterb (λ i, bool_decide (intent_file i = file)) l.

Definition intents_agree (d : ConflictDetector) (l : list EditIntent) : Prop :=
  ∀ file, get_intents file d = on_file file l.

Lemma detector_step_agree d l op :
  intents_agree d l → intents_agree (detector_step d op) (intents_step l op).
Proof.
  intros H file. destruct op as [f h|i|f w|]; simpl; [apply H| | |done].
  - unfold get_intents, record_intent, on_file, filterb. simpl. rewrite List.filter_app. simpl.
    specialize (H file). unfold get_intents, on_file, filterb in H.
    case_bool_decide as E; simpl.
    + rewrite E, lookup_insert_eq. simpl. by rewrite H.
    + rewrite lookup_insert_ne by done. by rewrite app_nil_r, H.
  - unfold on_file. rewrite filterb_filterb. specialize (H file). unfold on_file in H.
    unfold get_intents, remove_intent in *.
    destruct (decide (file = f)) as [->|Hne].
    + rewrite (filterb_ext _ (λ i, bool_decide (intent_worker i ≠ w) && bool_decide (intent_file i = f))).
      2: { intros i _. repeat case_bool_decide; done. }
      rewrite <-filterb_filterb, <-H.
      destruct (active_intents d !! f) as [is'|] eqn:E; simpl; [by rewrite lookup_insert_eq|].
      by rewrite E.
    + rewrite (filterb_ext _ (λ i, bool_decide (intent_file i = file))).
      2: { intros i _. repeat case_bool_decide; subst; done. }
      rewrite <-H. destruct (active_intents d !! f) as [is'|]; simpl; [|done].
      by rewrite lookup_insert_ne.
Qed.

Lemma detector_run_agree d l ops :
  intents_agree d l → intents_agree (detector_run d ops) (foldl intents_step l ops).
Proof.
  revert d l. induction ops as [|op ops IH]; intros d l H; [done|]. simpl.
  apply IH. by apply detector_step_agree.
Qed.

Lemma detector_new_agree : intents_agree ConflictDetector_new [].
Proof. intros file. unfold get_intents. simpl. by rewrite lookup_empty. Qed.

(** An operation that withdraws the intents of [worker] on [file]. *)
Definition withdraws (file worker : string) (op : detector_op) : Prop :=
  op = Clear ∨ op = Remove file worker.

Lemma intents_kept i l ops :
  i ∈ l → (∀ op, op ∈ ops → ¬ withdraws (intent_file i) (intent_worker i) op) →
  i ∈ foldl intents_step l ops.
Proof.
  revert l. induction ops as [|op ops IH]; intros l Hi Hops; [done|]. simpl. apply IH.
  - assert (¬ withdraws (intent_file i) (intent_worker i) op) as Hw by (apply Hops; left).
    destruct op as [f h|j|f w|]; simpl; [done|apply elem_of_app; by left| |by destruct Hw; left].
    apply filterb_elem. split; [done|]. apply negb_true_iff, andb_false_iff.
    rewrite !bool_decide_eq_false. destruct (decide (intent_file i = f)) as [<-|]; [right|by left].
    intros <-. apply Hw. by right.
  - intros op' ?. apply Hops. by right.
Qed.

(** ** Declarations interleaved *)

(** The two steps of [declare_intent]; an answer is what [Begin] computed. *)
Inductive phase : Type := Begin (intent : EditIntent) | Finish (intent : EditIntent).

Definition phase_step (st : ConflictDetector * list ConflictResult) (p : phase)
    : ConflictDetector * list ConflictResult :=
  match p with
  | Begin i => (st.1, st.2 ++ [check_intent i st.1])
  | Finish i => (record_intent i st.1, st.2)
  end.

Definition interleave (d : ConflictDetector) (ps : list phase)
    : ConflictDetector * list ConflictResult := foldl phase_step (d, []) ps.

(** ** Properties *)

(** After any history, an intent that was declared and not withdrawn since is
    reported to every other worker that asks for overlapping lines of the file, or for
    the whole of it: the answer is [Conflicting] and names the worker. *)
Theorem declared_overlap_reported before after i regions worker :
  (∀ op, op ∈ after → ¬ withdraws (intent_file i) (intent_worker i) op) →
  worker ≠ intent_worker i →
  regions_clash (intent_regions i) regions = true →
  let d := detector_run ConflictDetector_new (before ++ DeclareIntent i :: after) in
  ∃ ws, check_conflict (intent_file i) worker regions d = Conflicting ws AutoMerge ∧
    intent_worker i ∈ ws.
Proof.
  intros Hops Hne Hclash d.
  pose proof (detector_run_agree _ _ (before ++ DeclareIntent i :: after) detector_new_agree) as Hagree.
  apply clashes_reported. exists i. split; [|done]. unfold d. rewrite Hagree. apply filterb_elem.
  rewrite bool_decide_eq_true. split; [|done]. rewrite foldl_app. simpl.
  apply intents_kept; [|done]. apply elem_of_app. right. left.
Qed.

Definition intent_a : EditIntent := mkIntent "w1" "f" Modify [mkRange 1 10] 0.
Definition intent_b : EditIntent := mkIntent "w2" "f" Modify [mkRange 5 15] 0.

Lemma declared_overlap_reported_witness :
  ∃ ws, check_conflict "f" "w2" [mkRange 5 15]
          (detector_run ConflictDetector_new [DeclareIntent intent_a; Remove "f" "w2"]) =
        Conflicting ws AutoMerge ∧ "w1"%string ∈ ws.
Proof.
  apply (declared_overlap_reported [] [Remove "f" "w2"] intent_a); [|done|reflexivity].
  intros op ->%list_elem_of_singleton [?|?]; done.
Defined.

(** What a check answers, exactly: [Conflicting] with each clashing worker once,
    [PotentialConflict] with the other workers of the file when none clashes, and
    [NoConflict] when no other worker has declared the file. *)
Theorem check_conflict_exact file worker regions d :
  match check_conflict file worker regions d with
  | Conflicting ws tier =>
      tier = AutoMerge ∧ ws ≠ [] ∧ NoDup ws ∧ ∀ w, w ∈ ws ↔ clashes d file worker regions w
  | PotentialConflict ws =>
      ws ≠ [] ∧ (∀ w, ¬ clashes d file worker regions w) ∧
      ∀ w, w ∈ ws ↔ shares_file d file worker w
  | NoConflict => ∀ w, ¬ shares_file d file worker w
  end.
Proof. apply check_conflict_spec. Qed.

(** Two workers that declare at the same time can both be told [NoConflict],
    whatever they declare on a file nobody holds: each checks before the other records.
    Declared one after the other, the second is told. *)
Theorem concurrent_declares_unnoticed d a b :
  get_intents (intent_file a) d = [] → intent_file a = intent_file b →
  (interleave d [Begin a; Begin b; Finish a; Finish b]).2 = [NoConflict; NoConflict] ∧
  (intent_worker a ≠ intent_worker b → regions_clash (intent_regions a) (intent_regions b) = true →
   ∃ ws, (declare_intent b (declare_intent a d).2).1 = Conflicting ws AutoMerge ∧
         intent_worker a ∈ ws).
Proof.
  intros Hnone Hf. split.
  - cbn. unfold check_intent, check_conflict. unfold get_intents in Hnone. rewrite <-Hf.
    destruct (active_intents d !! intent_file a) as [[|? ?]|]; done.
  - intros Hne Hclash. unfold declare_intent, check_intent. simpl.
    apply clashes_reported. exists a. split; [|done]. rewrite <-Hf. unfold get_intents, record_intent.
    simpl. rewrite lookup_insert_eq. apply elem_of_app. right. left.
Qed.

Lemma concurrent_declares_unnoticed_witness :
  (interleave ConflictDetector_new [Begin intent_a; Begin intent_b; Finish intent_a; Finish intent_b]).2
    = [NoConflict; NoConflict] ∧
  ∃ ws, (declare_intent intent_b (declare_intent intent_a ConflictDetector_new).2).1 =
        Conflicting ws AutoMerge ∧ "w1"%string ∈ ws.
Proof.
  destruct (concurrent_declares_unnoticed ConflictDetector_new intent_a intent_b) as [H1 H2];
    [reflexivity|reflexivity|].
  split; [exact H1|]. apply H2; [done|reflexivity].
Defined.
