(* ===== verification/Checkpoint.v ===== *)
(** * Checkpoints

    [uc-engine/src/checkpoint.rs]: task state as a fold over the task's events, with
    snapshots to start the fold from.  The manager is written against the [EventStore]
    class; the snapshots are a [DashMap], whose iteration order is a parameter.  Task
    and subtask states are strings in the code and stay strings here. *)

From Stdlib Require Import String Ascii.
From S2P Require Import Prelude RustStr Task Events.

(** ** The state *)

Record SubtaskSnapshot : Type := mkSubSnap {
  snap_subtask_id : string;
  snap_status : string;
  snap_worker : option string;
  snap_summary : option string
}.
#[export] Instance SubtaskSnapshot_eq_dec : EqDecision SubtaskSnapshot.
Proof. solve_decision. Defined.

Record TaskSnapshot : Type := mkSnap {
  snap_task_id : string;
  task_status : string;
  snap_subtasks : list SubtaskSnapshot;
  last_event_offset : Z;
  snap_timestamp : Z
}.

Definition with_status (s : TaskSnapshot) (status : string) : TaskSnapshot :=
  mkSnap (snap_task_id s) status (snap_subtasks s) (last_event_offset s) (snap_timestamp s).
Definition with_subtasks (s : TaskSnapshot) (l : list SubtaskSnapshot) : TaskSnapshot :=
  mkSnap (snap_task_id s) (task_status s) l (last_event_offset s) (snap_timestamp s).
Definition with_offset (s : TaskSnapshot) (o : Z) : TaskSnapshot :=
  mkSnap (snap_task_id s) (task_status s) (snap_subtasks s) o (snap_timestamp s).

Record CheckpointConfig : Type := mkCpConfig {
  snapshot_interval : Z;
  snapshot_prefix : string;
  subject_prefix : string
}.
Definition CheckpointConfig_default : CheckpointConfig := mkCpConfig 100 "snapshot" "agent.events.".

(** ** The reducer *)

Definition derive_task_status (subtasks : list SubtaskSnapshot) : string :=
  match subtasks with
  | [] => "created"
  | _ =>
      let at_ v := λ s, bool_decide (snap_status s = v) in
      let all_completed := forallb (at_ "completed") subtasks in
      let any_failed := existsb (at_ "failed") subtasks in
      let any_in_progress := existsb (λ s, at_ "in_progress" s || at_ "assigned" s) subtasks in
      if all_completed then "completed"
      else if any_failed then "failed"
      else if any_in_progress then "in_progress"
      else "pending"
  end%string.

Definition refresh_parent_status (s : TaskSnapshot) : TaskSnapshot :=
  if bool_decide (task_status s ∈ ["paused"; "completed"; "failed"]%string) then s
  else with_status s (derive_task_status (snap_subtasks s)).

Definition extract_task_id (event : AgentEventType) : option string :=
  match event with
  | AgentEvent.TaskCreated t _
  | AgentEvent.SubtaskAssigned t _ _
  | AgentEvent.SubtaskStarted t _ _
  | AgentEvent.SubtaskProgress t _ _ _ _ _ _ _ _ _ _ _
  | AgentEvent.ToolInvoked t _ _ _
  | AgentEvent.ToolResult t _ _ _
  | AgentEvent.FileModified t _ _ _
  | AgentEvent.SubtaskCompleted t _ _ _ _ _ _
  | AgentEvent.SubtaskFailed t _ _ _ _ _
  | AgentEvent.CheckpointCreated t _ _
  | AgentEvent.TaskCompleted t _ _
  | AgentEvent.TaskFailed t _
  | AgentEvent.TaskPaused t
  | AgentEvent.TaskResumed t
  | AgentEvent.TaskCancelled t
  | AgentEvent.TaskUpdated t _
  | AgentEvent.SubtaskRetried t _ _ => Some t
  | AgentEvent.EditIntent _ _ _ _ => None
  end.

(** [iter_mut().find(|s| s.subtask_id == id)] and an update of what it finds. *)
Fixpoint update_subtask (id : string) (f : SubtaskSnapshot → SubtaskSnapshot)
    (l : list SubtaskSnapshot) : option (list SubtaskSnapshot) :=
  match l with
  | [] => None
  | s :: rest =>
      if bool_decide (snap_subtask_id s = id) then Some (f s :: rest)
      else rest' ← update_subtask id f rest; Some (s :: rest')
  end.

Definition update_found (id : string) (f : SubtaskSnapshot → SubtaskSnapshot) (s : TaskSnapshot)
    : TaskSnapshot :=
  match update_subtask id f (snap_subtasks s) with
  | Some l => with_subtasks s l
  | None => s
  end.

(** [str::to_lowercase] only yields the words below from ASCII letters. *)
Definition apply_task_updated (s : TaskSnapshot) (status : string) : TaskSnapshot :=
  let lower := to_ascii_lowercase status in
  if bool_decide (lower ∈ ["inprogress"; "in_progress"]%string) then with_status s "in_progress"
  else if bool_decide (lower ∈ ["created"; "planning"; "paused"; "completed"; "failed"]%string)
  then with_status s lower
  else s.

Definition apply_event_to_snapshot (s : TaskSnapshot) (event : AgentEventType) : TaskSnapshot :=
  match event with
  | AgentEvent.SubtaskRetried _ id _ =>
      with_status (update_found id (λ n, mkSubSnap (snap_subtask_id n) "pending" None None) s)
        "in_progress"
  | AgentEvent.TaskCreated _ _ => with_status s "created"
  | AgentEvent.SubtaskAssigned _ id worker =>
      refresh_parent_status
        match update_subtask id (λ n, mkSubSnap (snap_subtask_id n) "assigned" (Some worker) None)
                (snap_subtasks s) with
        | Some l => with_subtasks s l
        | None => with_subtasks s (snap_subtasks s ++ [mkSubSnap id "assigned" (Some worker) None])
        end
  | AgentEvent.SubtaskStarted _ id _ =>
      update_found id
        (λ n, mkSubSnap (snap_subtask_id n) "in_progress" (snap_worker n) (snap_summary n)) s
  | AgentEvent.SubtaskCompleted _ id summary success _ _ _ =>
      refresh_parent_status
        (update_found id
           (λ n, mkSubSnap (snap_subtask_id n) (if success then "completed" else "failed")
                   (snap_worker n) (Some summary)) s)
  | AgentEvent.SubtaskFailed _ id error recoverable _ _ =>
      refresh_parent_status
        (update_found id
           (λ n, mkSubSnap (snap_subtask_id n) (if recoverable then "recoverable_failed" else "failed")
                   (snap_worker n) (Some error)) s)
  | AgentEvent.TaskPaused _ => with_status s "paused"
  | AgentEvent.TaskResumed _ => with_status s "in_progress"
  | AgentEvent.TaskCancelled _ => with_status s "failed"
  | AgentEvent.TaskUpdated _ status => apply_task_updated s status
  | AgentEvent.TaskCompleted _ _ _ => with_status s "completed"
  | AgentEvent.TaskFailed _ _ => with_status s "failed"
  | AgentEvent.ToolInvoked _ _ _ _
  | AgentEvent.ToolResult _ _ _ _
  | AgentEvent.FileModified _ _ _ _
  | AgentEvent.EditIntent _ _ _ _
  | AgentEvent.CheckpointCreated _ _ _
  | AgentEvent.SubtaskProgress _ _ _ _ _ _ _ _ _ _ _ _ => s
  end%string.

Definition apply_events (s : TaskSnapshot) (l : list RecordedEvent) : TaskSnapshot :=
  foldl (λ s e, apply_event_to_snapshot s (event_payload e)) s l.

(** ** The manager *)

Record CheckpointManager (S : Type) : Type := mkManager {
  event_store : S;
  snapshot_store : gmap string TaskSnapshot;
  cp_config : CheckpointConfig;
  event_count : Z
}.
Arguments mkManager {S} _ _ _ _.
Arguments event_store {S} _.
Arguments snapshot_store {S} _.
Arguments cp_config {S} _.
Arguments event_count {S} _.

Definition subject_for (c : CheckpointConfig) (task_id : string) : string :=
  subject_prefix c +:+ task_id.

Definition snapshot_key (c : CheckpointConfig) (task_id : string) (offset : Z) : string :=
  snapshot_prefix c +:+ ":" +:+ task_id +:+ ":" +:+ pretty offset.

Definition blank_snapshot (now : Instant) (task_id : string) (offset : Z) : TaskSnapshot :=
  mkSnap task_id "created" [] offset (timestamp_millis now).

(** [count.is_multiple_of(interval)]. *)
Definition is_multiple_of (count interval : Z) : bool :=
  if interval =? 0 then count =? 0 else count `mod` interval =? 0.

Section Manager.
Context {S : Type} `{EventStore S}.
(** The order in which [DashMap::iter] visits the snapshots. *)
Context (iter : gmap string TaskSnapshot → list (string * TaskSnapshot)).

Definition CheckpointManager_new (s : S) (c : CheckpointConfig) : CheckpointManager S :=
  mkManager s ∅ c 0.

Definition create_snapshot (now : Instant) (m : CheckpointManager S) (task_id : string)
    : result string EngineError * CheckpointManager S :=
  let subject := subject_for (cp_config m) task_id in
  match latest_offset (event_store m) subject with
  | Err e => (Err e, m)
  | Ok latest =>
      let snapshot_id := snapshot_key (cp_config m) task_id latest in
      match read_from (event_store m) subject 0 with
      | Err e => (Err e, m)
      | Ok events =>
          let snapshot :=
            apply_events (blank_snapshot now task_id latest)
              (filterb (λ e, event_offset e <=? latest) events) in
          let snapshots := <[snapshot_id := snapshot]> (snapshot_store m) in
          let '(r, store) :=
            append now (event_store m) subject
              (AgentEvent.CheckpointCreated task_id snapshot_id latest) in
          (map_ok (λ _, snapshot_id) r, mkManager store snapshots (cp_config m) (event_count m))
      end
  end.

Definition CheckpointManager_record_event (now : Instant) (m : CheckpointManager S) (subject : string)
    (event : AgentEventType) : result Z EngineError * CheckpointManager S :=
  let '(r, store) := append now (event_store m) subject event in
  match r with
  | Err e => (Err e, mkManager store (snapshot_store m) (cp_config m) (event_count m))
  | Ok offset =>
      let count := (event_count m + 1) `mod` 2 ^ 64 in
      let m := mkManager store (snapshot_store m) (cp_config m) count in
      let m :=
        if is_multiple_of count (snapshot_interval (cp_config m)) then
          match extract_task_id event with
          | Some task_id => (create_snapshot now m task_id).2
          | None => m
          end
        else m in
      (Ok offset, m)
  end.

(** The loop of [find_latest_snapshot]. *)
Fixpoint latest_loop (prefix : string) (entries : list (string * TaskSnapshot))
    (latest : option TaskSnapshot) (latest_offset : Z) : option TaskSnapshot :=
  match entries with
  | [] => latest
  | (key, snap) :: rest =>
      if starts_with key prefix && (latest_offset <=? last_event_offset snap)
      then latest_loop prefix rest (Some snap) (last_event_offset snap)
      else latest_loop prefix rest latest latest_offset
  end.

Definition find_latest_snapshot (m : CheckpointManager S) (task_id : string)
    : option TaskSnapshot :=
  latest_loop (snapshot_prefix (cp_config m) +:+ ":" +:+ task_id +:+ ":")
    (iter (snapshot_store m)) None 0.

Definition recover (now : Instant) (m : CheckpointManager S) (task_id : string)
    : result TaskSnapshot EngineError :=
  let subject := subject_for (cp_config m) task_id in
  match find_latest_snapshot m task_id with
  | Some snap =>
      let? events := read_from (event_store m) subject (last_event_offset snap + 1) in
      let state := apply_events snap events in
      Ok (with_offset state (default (last_event_offset state) (event_offset <$> last events)))
  | None =>
      let? events := read_from (event_store m) subject 0 in
      let state := apply_events (blank_snapshot now task_id 0) events in
      Ok (with_offset state (default 0 (event_offset <$> last events)))
  end.

Definition CheckpointManager_list_events (m : CheckpointManager S) (task_id : string) (from_offset : Z)
    : result (list RecordedEvent) EngineError :=
  read_from (event_store m) (subject_for (cp_config m) task_id) from_offset.
End Manager.

(** ** Replay *)

(** The part of a snapshot the reducer reads and writes. *)
Definition state_of (s : TaskSnapshot) : string * list SubtaskSnapshot :=
  (task_status s, snap_subtasks s).

(** The reference: the state after all of a list of events, from nothing. *)
Definition replay (l : list RecordedEvent) : string * list SubtaskSnapshot :=
  state_of (apply_events (blank_snapshot 0 "" 0) l).

Ltac unfold_reducer :=
  unfold apply_event_to_snapshot, refresh_parent_status, update_found, apply_task_updated,
    with_status, with_subtasks, with_offset in *.

Lemma apply_event_meta s e :
  snap_task_id (apply_event_to_snapshot s e) = snap_task_id s ∧
  last_event_offset (apply_event_to_snapshot s e) = last_event_offset s ∧
  snap_timestamp (apply_event_to_snapshot s e) = snap_timestamp s.
Proof. destruct e; unfold_reducer; repeat case_match; done. Qed.

Lemma apply_events_meta s l :
  snap_task_id (apply_events s l) = snap_task_id s ∧
  last_event_offset (apply_events s l) = last_event_offset s ∧
  snap_timestamp (apply_events s l) = snap_timestamp s.
Proof.
  revert s. induction l as [|e l IH]; intros s; [done|].
  change (apply_events s (e :: l)) with
    (apply_events (apply_event_to_snapshot s (event_payload e)) l).
  destruct (IH (apply_event_to_snapshot s (event_payload e))) as (-> & -> & ->).
  apply apply_event_meta.
Qed.

Lemma apply_event_state s s' e :
  state_of s = state_of s' →
  state_of (apply_event_to_snapshot s e) = state_of (apply_event_to_snapshot s' e).
Proof.
  destruct s, s'. unfold state_of. simpl. intros [= -> ->].
  destruct e; unfold_reducer; simpl; repeat (case_match; simplify_eq/=); try done.
Qed.

Lemma apply_events_state s s' l :
  state_of s = state_of s' → state_of (apply_events s l) = state_of (apply_events s' l).
Proof.
  revert s s'. induction l as [|e l IH]; intros s s' Hs; [done|]. simpl. apply IH.
  by apply apply_event_state.
Qed.

Lemma apply_events_app s l k : apply_events s (l ++ k) = apply_events (apply_events s l) k.
Proof. apply foldl_app. Qed.

(** ** The snapshots are prefixes of the replay *)

Lemma increasing_split o l :
  increasing l →
  l = filterb (λ e, event_offset e <=? o) l ++ filterb (λ e, o + 1 <=? event_offset e) l.
Proof.
  induction 1 as [|e l Hs IH Hall]; [done|]. unfold filterb in *. simpl.
  destruct (Z.leb_spec (event_offset e) o).
  - replace (o + 1 <=? event_offset e) with false by (symmetry; apply Z.leb_gt; lia).
    simpl. by f_equal.
  - replace (o + 1 <=? event_offset e) with true by (symmetry; apply Z.leb_le; lia).
    assert (List.filter (λ e, event_offset e <=? o) l = []) as E.
    { clear IH Hs. induction Hall as [|d k Hd _ IH]; [done|]. simpl.
      by replace (event_offset d <=? o) with false by (symmetry; apply Z.leb_gt; lia). }
    rewrite E in *. simpl in *. by f_equal.
Qed.

Section Recovery.
Context {S : Type} `{EventStoreOk S}.

(** A snapshot holds the replay of its task's stream up to its offset, and nothing
    below the frontier is still to come. *)
Definition snapshot_ok (c : CheckpointConfig) (s : S) (snap : TaskSnapshot) : Prop :=
  0 <= last_event_offset snap < frontier s ∧
  state_of snap =
    replay (filterb (λ e, event_offset e <=? last_event_offset snap)
              (stream s (subject_for c (snap_task_id snap)))).

Lemma snapshot_ok_grows c s s' snap : grows s s' → snapshot_ok c s snap → snapshot_ok c s' snap.
Proof.
  intros [Hf Hg] [Ho Hs]. split; [lia|]. rewrite Hs.
  destruct (Hg (subject_for c (snap_task_id snap))) as (l & -> & Hl).
  rewrite filterb_app, (filterb_none _ l), app_nil_r; [done|].
  apply (Forall_impl _ _ _ Hl). intros e ?. apply Z.leb_gt. lia.
Qed.

(** The invariant of the manager; [tasks] are the tasks it has been asked about. *)
Definition manager_ok (tasks : list string) (m : CheckpointManager S) : Prop :=
  events_wf (event_store m) ∧
  ∀ key snap, snapshot_store m !! key = Some snap →
    snap_task_id snap ∈ tasks ∧
    key = snapshot_key (cp_config m) (snap_task_id snap) (last_event_offset snap) ∧
    snapshot_ok (cp_config m) (event_store m) snap.

Lemma manager_ok_new s c : events_wf s → manager_ok [] (CheckpointManager_new s c).
Proof. intros Hwf. split; [done|]. intros key snap. simpl. by rewrite lookup_empty. Qed.

Lemma manager_ok_weaken tasks tasks' m :
  (∀ t, t ∈ tasks → t ∈ tasks') → manager_ok tasks m → manager_ok tasks' m.
Proof.
  intros Hsub [Hwf Hm]. split; [done|]. intros key snap Hk. destruct (Hm key snap Hk) as (?&?&?).
  split_and!; auto.
Qed.

Lemma manager_ok_store tasks m m' :
  manager_ok tasks m → snapshot_store m' = snapshot_store m → cp_config m' = cp_config m →
  events_wf (event_store m') → grows (event_store m) (event_store m') → manager_ok tasks m'.
Proof.
  intros [Hwf Hm] Es Ec Hwf' Hg. split; [done|]. rewrite Es, Ec. intros key snap Hk.
  destruct (Hm key snap Hk) as (? & ? & ?). split_and!; [done|done|].
  by apply (snapshot_ok_grows _ (event_store m)).
Qed.

Lemma create_snapshot_ok tasks now m t n r m' :
  manager_ok tasks m → room (event_store m) (Datatypes.S n) → create_snapshot now m t = (r, m') →
  manager_ok (t :: tasks) m' ∧ grows (event_store m) (event_store m') ∧
  cp_config m' = cp_config m ∧ room (event_store m') n.
Proof.
  intros Hok Hroom. assert (manager_ok (t :: tasks) m) as Hok'.
  { apply (manager_ok_weaken tasks); [|done]. intros. by right. }
  unfold create_snapshot. destruct (latest_offset _ _) as [o|e] eqn:El;
    [|intros [= _ <-]; split_and!; auto using grows_refl, room_less].
  destruct (read_from _ _ _) as [evs|e] eqn:Er;
    [|intros [= _ <-]; split_and!; auto using grows_refl, room_less].
  destruct (append _ _ _ _) as [ra store] eqn:Ea. intros [= _ <-]. cbn [event_store cp_config].
  destruct Hok as [Hwf _]. apply latest_ok in El as [Ho Hle]; [|done].
  apply read_ok in Er as ->; [|done].
  destruct (append_grows _ _ _ _ _ _ _ Hwf Hroom Ea) as (Hwf' & Hroom' & Hg).
  split_and!; auto.
  eapply (manager_ok_store (t :: tasks) (mkManager (event_store m) _ (cp_config m) 0));
    [|cbn; done|done|done|done].
  split; [done|]. cbn [snapshot_store cp_config event_store]. intros key snap.
  destruct Hok' as [_ Hm]. destruct (decide (key = snapshot_key (cp_config m) t o)) as [->|Hne];
    [rewrite lookup_insert_eq; intros [= <-]|rewrite lookup_insert_ne by done; apply Hm].
  destruct (apply_events_meta (blank_snapshot now t o)
    (filterb (λ e, event_offset e <=? o)
       (filterb (λ e, 0 <=? event_offset e) (stream (event_store m) (subject_for (cp_config m) t)))))
    as (E1 & E2 & _).
  unfold snapshot_ok. rewrite E1, E2. simpl. split; [left|]. split; [done|]. split; [done|].
  rewrite (filterb_all (λ e, 0 <=? event_offset e)); [by apply apply_events_state|].
  apply Forall_forall. intros e He. destruct (stream_range _ _ _ Hwf He). apply Z.leb_le. lia.
Qed.

Lemma record_event_ok tasks now m subject event n r m' :
  manager_ok tasks m → room (event_store m) (Datatypes.S (Datatypes.S n)) →
  CheckpointManager_record_event now m subject event = (r, m') →
  manager_ok (option_list (extract_task_id event) ++ tasks) m' ∧
  cp_config m' = cp_config m ∧ room (event_store m') n.
Proof.
  intros Hok Hroom. unfold CheckpointManager_record_event. destruct (append _ _ _ _) as [ra store] eqn:Ea.
  destruct (append_grows _ _ _ _ _ _ _ (proj1 Hok) Hroom Ea) as (Hwf' & Hroom' & Hg).
  assert (∀ count, manager_ok tasks (mkManager store (snapshot_store m) (cp_config m) count)) as Hok'.
  { intros count. by apply (manager_ok_store tasks m). }
  assert (∀ m, manager_ok tasks m → manager_ok (option_list (extract_task_id event) ++ tasks) m)
    as Hmore.
  { intros m0. apply manager_ok_weaken. intros t ?. apply elem_of_app. by right. }
  destruct ra as [o|e]; [|intros [= _ <-]; split_and!; auto using room_less].
  destruct (is_multiple_of _ _); [|intros [= _ <-]; split_and!; auto using room_less].
  destruct (extract_task_id event) as [t|] eqn:Et; [|intros [= _ <-]; split_and!; auto using room_less].
  intros [= _ <-]. destruct (create_snapshot _ _ _) as [rs m''] eqn:Ec.
  destruct (create_snapshot_ok tasks _ _ _ n _ _ (Hok' _) Hroom' Ec) as (? & _ & ? & ?).
  simpl. split_and!; auto.
Qed.

(** Histories: events recorded through the manager, snapshots, and events that other
    writers append to the same store. *)
Inductive cp_op : Type :=
| Record_ (now : Instant) (subject : string) (event : AgentEventType)
| Snapshot (now : Instant) (task_id : string)
| Append (now : Instant) (subject : string) (event : AgentEventType).

Definition cp_step (m : CheckpointManager S) (op : cp_op) : CheckpointManager S :=
  match op with
  | Record_ now subject event => (CheckpointManager_record_event now m subject event).2
  | Snapshot now task_id => (create_snapshot now m task_id).2
  | Append now subject event =>
      mkManager (append now (event_store m) subject event).2 (snapshot_store m) (cp_config m)
        (event_count m)
  end.

Definition cp_run (m : CheckpointManager S) (ops : list cp_op) : CheckpointManager S :=
  foldl cp_step m ops.

(** The tasks an operation may snapshot. *)
Definition op_tasks (op : cp_op) : list string :=
  match op with
  | Record_ _ _ event => option_list (extract_task_id event)
  | Snapshot _ task_id => [task_id]
  | Append _ _ _ => []
  end.

Lemma cp_step_ok tasks m op n :
  manager_ok tasks m → room (event_store m) (Datatypes.S (Datatypes.S n)) →
  manager_ok (op_tasks op ++ tasks) (cp_step m op) ∧ cp_config (cp_step m op) = cp_config m ∧
  room (event_store (cp_step m op)) n.
Proof.
  intros Hok Hroom. destruct op as [now subject event|now t|now subject event]; simpl.
  - destruct (CheckpointManager_record_event _ _ _ _) as [r m'] eqn:E. by apply (record_event_ok tasks _ _ _ _ n) in E.
  - destruct (create_snapshot _ _ _) as [r m'] eqn:E.
    apply (create_snapshot_ok tasks now m t (Datatypes.S n)) in E as (? & _ & ? & ?); auto using room_less.
  - destruct (append _ _ _ _) as [r store] eqn:E.
    destruct (append_grows _ _ _ _ _ _ _ (proj1 Hok) Hroom E) as (? & ? & ?).
    split_and!; auto using room_less. by apply (manager_ok_store tasks m).
Qed.

Lemma cp_run_ok tasks m ops :
  manager_ok tasks m → room (event_store m) (2 * length ops) →
  manager_ok (rev (ops ≫= op_tasks) ++ tasks) (cp_run m ops) ∧
  cp_config (cp_run m ops) = cp_config m.
Proof.
  revert tasks m. induction ops as [|op ops IH]; intros tasks m Hok Hroom; [done|].
  cbn [length] in Hroom. replace (2 * Datatypes.S (length ops))%nat
    with (Datatypes.S (Datatypes.S (2 * length ops))) in Hroom by lia.
  destruct (cp_step_ok tasks m op _ Hok Hroom) as (Hok' & Hc & Hroom').
  destruct (IH _ _ Hok' Hroom') as [Hrun Hc']. csimpl. split; [|by rewrite <-Hc].
  eapply manager_ok_weaken; [|exact Hrun]. intros t. rewrite rev_app_distr.
  rewrite !elem_of_app, !list_elem_of_In, <-!in_rev. tauto.
Qed.

Context (iter : gmap string TaskSnapshot → list (string * TaskSnapshot)).
Hypothesis iter_perm : ∀ m, iter m ≡ₚ map_to_list m.

Lemma latest_loop_elem prefix entries latest o snap :
  latest_loop prefix entries latest o = Some snap →
  latest = Some snap ∨ ∃ key, (key, snap) ∈ entries ∧ starts_with key prefix = true.
Proof using Type.
  revert latest o. induction entries as [|[key s] rest IH]; intros latest o; simpl; [by left|].
  destruct (_ && _) eqn:E; intros [Hl|(k & Hk & Hp)]%IH.
  - injection Hl as ->. bool_hyps. right. exists key. split; [left|done].
  - right. exists k. split; [by right|done].
  - by left.
  - right. exists k. split; [by right|done].
Qed.

(** No other task's id extends [t] past a colon. *)
Definition id_apart (t t' : string) : Prop := t' = t ∨ starts_with t' (t +:+ ":") = false.

Lemma snapshot_key_task c t t' o :
  0 <= o → id_apart t t' →
  starts_with (snapshot_key c t' o) (snapshot_prefix c +:+ ":" +:+ t +:+ ":") = true → t' = t.
Proof using Type.
  intros Ho Hapart Hs. unfold starts_with in Hs. destruct (strip_prefix _ _) as [r|] eqn:E; [|done].
  apply strip_prefix_Some in E. unfold snapshot_key in E. rewrite !chars_app, <-!app_assoc in E.
  do 2 apply app_inv_head in E. apply chars_inj. destruct Hapart as [->|Hno]; [done|].
  apply app_eq_inv in E as [(k & E1 & E2)|(k & E1 & E2)].
  - destruct k as [|c0 k]; [by rewrite E1, app_nil_r|]. exfalso. injection E2 as <- E2.
    unfold starts_with in Hno. destruct (strip_prefix t' (t +:+ ":")) eqn:E; [done|].
    assert (strip_prefix t' (t +:+ ":") = Some (of_chars k)) as Hk; [|congruence].
    apply strip_prefix_Some. by rewrite chars_app, chars_of_chars, E1, <-app_assoc.
  - destruct k as [|c0 k]; [by rewrite E1, app_nil_r|]. exfalso. injection E2 as <- E2.
    assert (is_digit_char ":" = true) as Hd; [|done]. apply (pretty_Z_digits o); [done|].
    rewrite E2. apply elem_of_app. right. left.
Qed.

Lemma replay_from_snapshot c s snap :
  events_wf s → snapshot_ok c s snap →
  let l := stream s (subject_for c (snap_task_id snap)) in
  state_of (apply_events snap (filterb (λ e, last_event_offset snap + 1 <=? event_offset e) l)) =
  replay l.
Proof using Type.
  intros Hwf [_ Hs] l. unfold replay.
  rewrite (increasing_split (last_event_offset snap) l) at 2 by (by apply stream_increasing).
  rewrite apply_events_app. by apply apply_events_state.
Qed.

(** Every event is at or below the offset a recovery reports. *)
Lemma last_offset_covers (l k : list RecordedEvent) o :
  increasing (k ++ l) → Forall (λ e, event_offset e <= o) k →
  Forall (λ e, event_offset e <= default o (event_offset <$> last l)) (k ++ l).
Proof using Type.
  intros Hi Hk. destruct (last l) as [e|] eqn:El.
  - apply last_bounds; [done|]. by rewrite last_app, El.
  - apply last_None in El as ->. by rewrite app_nil_r.
Qed.

(** Recovery against any state of the manager that a history can reach. *)
Lemma recover_spec tasks now m t st :
  manager_ok tasks m → (∀ t', t' ∈ tasks → id_apart t t') → recover iter now m t = Ok st →
  let l := stream (event_store m) (subject_for (cp_config m) t) in
  snap_task_id st = t ∧ state_of st = replay l ∧
  Forall (λ e, event_offset e <= last_event_offset st) l.
Proof using iter_perm.
  intros [Hwf Hm] Hapart. unfold recover, find_latest_snapshot.
  pose proof (stream_increasing _ (subject_for (cp_config m) t) Hwf) as Hinc.
  destruct (latest_loop _ _ _ _) as [snap|] eqn:El.
  - apply latest_loop_elem in El as [?|(key & Hin & Hpre)]; [done|].
    rewrite iter_perm in Hin. apply elem_of_map_to_list in Hin.
    destruct (Hm _ _ Hin) as (Ht & -> & Hok).
    assert (snap_task_id snap = t) as <-.
    { apply (snapshot_key_task (cp_config m) t (snap_task_id snap) (last_event_offset snap));
        [by destruct Hok as [[? _] _]|by apply Hapart|done]. }
    destruct (read_from _ _ _) as [evs|] eqn:Er; simpl; [|done]. intros [= <-]. simpl.
    apply read_ok in Er as ->; [|done].
    destruct (apply_events_meta snap (filterb (λ e, last_event_offset snap + 1 <=? event_offset e)
      (stream (event_store m) (subject_for (cp_config m) (snap_task_id snap))))) as (E1 & E2 & _).
    split; [done|]. split; [by apply replay_from_snapshot|]. rewrite E2.
    pose proof (increasing_split (last_event_offset snap) _ Hinc) as Hsplit.
    pose proof (last_offset_covers
      (filterb (λ e, last_event_offset snap + 1 <=? event_offset e)
         (stream (event_store m) (subject_for (cp_config m) (snap_task_id snap))))
      (filterb (λ e, event_offset e <=? last_event_offset snap)
         (stream (event_store m) (subject_for (cp_config m) (snap_task_id snap))))
      (last_event_offset snap)) as Hcov.
    rewrite <-Hsplit in Hcov. apply Hcov; [done|].
    apply Forall_forall. intros e [_ ?%Z.leb_le]%filterb_elem. done.
  - destruct (read_from _ _ _) as [evs|] eqn:Er; simpl; [|done]. intros [= <-]. simpl.
    apply read_ok in Er as ->; [|done]. rewrite filterb_all.
    2: { apply Forall_forall. intros e He. destruct (stream_range _ _ _ Hwf He). apply Z.leb_le. lia. }
    destruct (apply_events_meta (blank_snapshot now t 0)
                (stream (event_store m) (subject_for (cp_config m) t))) as (E1 & E2 & _).
    split; [done|]. split; [by apply apply_events_state|].
    by apply (last_offset_covers _ []).
Qed.
End Recovery.

(** ** Well-formed snapshots *)

Definition task_states : list string :=
  ["created"; "planning"; "in_progress"; "pending"; "paused"; "completed"; "failed"]%string.
Definition subtask_states : list string :=
  ["pending"; "assigned"; "in_progress"; "completed"; "failed"; "recoverable_failed"]%string.

(** Only the states the code knows, and each subtask once. *)
Definition snapshot_wf (s : TaskSnapshot) : Prop :=
  task_status s ∈ task_states ∧
  Forall (λ n, snap_status n ∈ subtask_states) (snap_subtasks s) ∧
  NoDup (snap_subtask_id <$> snap_subtasks s).

Lemma update_subtask_spec id f l :
  (∀ n, snap_subtask_id (f n) = snap_subtask_id n) →
  match update_subtask id f l with
  | Some l' =>
      snap_subtask_id <$> l' = snap_subtask_id <$> l ∧
      (∀ P : SubtaskSnapshot → Prop, Forall P l → (∀ n, P (f n)) → Forall P l')
  | None => id ∉ snap_subtask_id <$> l
  end.
Proof.
  intros Hf. induction l as [|n l IH]; simpl; [by apply not_elem_of_nil|].
  case_bool_decide as E.
  - csimpl. split; [by rewrite Hf|]. intros P [Hn Hl]%Forall_cons HP. by constructor.
  - destruct (update_subtask id f l) as [l'|]; csimpl.
    + destruct IH as [IH1 IH2]. split; [by rewrite IH1|].
      intros P [Hn Hl]%Forall_cons HP. constructor; auto.
    + apply not_elem_of_cons. split; [congruence|done].
Qed.

Lemma update_subtask_here id f n l :
  snap_subtask_id n = id → update_subtask id f (n :: l) = Some (f n :: l).
Proof. intros E. simpl. by rewrite bool_decide_eq_true_2. Qed.

Lemma update_subtask_skip id f n l :
  snap_subtask_id n ≠ id → update_subtask id f (n :: l) = (n ::.) <$> update_subtask id f l.
Proof. intros E. simpl. rewrite bool_decide_eq_false_2 by done. by destruct (update_subtask id f l). Qed.

Lemma update_found_wf id f s :
  (∀ n, snap_subtask_id (f n) = snap_subtask_id n) → (∀ n, snap_status (f n) ∈ subtask_states) →
  snapshot_wf s → snapshot_wf (update_found id f s).
Proof.
  intros Hid Hst (H1 & H2 & H3). unfold update_found.
  pose proof (update_subtask_spec id f (snap_subtasks s) Hid) as Hu.
  destruct (update_subtask _ _ _) as [l|]; [|done]. destruct Hu as [E HP].
  split; [done|]. simpl. rewrite E. split; [|done]. by apply HP.
Qed.

Lemma with_status_wf s status : status ∈ task_states → snapshot_wf s → snapshot_wf (with_status s status).
Proof. intros ? (? & ? & ?). by split_and!. Qed.

Lemma derive_task_status_known l : derive_task_status l ∈ task_states.
Proof. unfold derive_task_status, task_states. repeat case_match; set_solver. Qed.

Lemma refresh_wf s : snapshot_wf s → snapshot_wf (refresh_parent_status s).
Proof.
  intros H. unfold refresh_parent_status. case_bool_decide; [done|].
  apply with_status_wf; [apply derive_task_status_known|done].
Qed.

Lemma apply_event_wf s e : snapshot_wf s → snapshot_wf (apply_event_to_snapshot s e).
Proof.
  intros Hwf. destruct e; simpl; try done;
    try (apply with_status_wf; [unfold task_states; set_solver|]; try done);
    try (apply refresh_wf); try (apply update_found_wf; [done| |done]; intros n; simpl;
      unfold subtask_states; repeat case_match; set_solver).
  - pose proof (update_subtask_spec subtask_id
      (λ n, mkSubSnap (snap_subtask_id n) "assigned" (Some worker_id) None) (snap_subtasks s)
      (λ n, eq_refl)) as Hu.
    destruct Hwf as (H1 & H2 & H3). destruct (update_subtask _ _ _) as [l|]; split; simpl; try done.
    + destruct Hu as [E HP]. rewrite E. split; [|done]. apply HP; [done|].
      intros n. simpl. unfold subtask_states. set_solver.
    + split.
      * apply Forall_app. split; [done|]. apply Forall_singleton. simpl. unfold subtask_states. set_solver.
      * rewrite fmap_app. apply NoDup_app. split; [done|]. split; [|apply NoDup_singleton].
        intros x Hx ->%list_elem_of_singleton. done.
  - unfold apply_task_updated. case_bool_decide; [|case_bool_decide as Hl]; [| |done];
      (apply with_status_wf; [|done]); unfold task_states; set_solver.
Qed.

Lemma snapshot_wf_state s s' : state_of s = state_of s' → snapshot_wf s → snapshot_wf s'.
Proof. unfold snapshot_wf, state_of. by intros [= -> ->]. Qed.

Lemma apply_events_wf s l : snapshot_wf s → snapshot_wf (apply_events s l).
Proof.
  revert s. induction l as [|e l IH]; intros s Hwf; [done|]. by apply IH, apply_event_wf.
Qed.

Lemma blank_wf now t o : snapshot_wf (blank_snapshot now t o).
Proof. split_and!; [unfold task_states; set_solver|constructor|constructor]. Qed.

(** ** Properties *)

Section Claims.
Context {S : Type} `{EventStoreOk S}.
Context (iter : gmap string TaskSnapshot → list (string * TaskSnapshot)).

(** C29: recovering a task from its latest snapshot gives what replaying the whole
    event stream from the beginning gives, after any history of recorded events,
    snapshots and foreign appends, for every task that no other snapshotted id extends
    past a colon; a recovery fails only when the event store cannot be read. *)
Theorem recover_is_replay (s : S) c ops now t :
  (∀ m, iter m ≡ₚ map_to_list m) →
  events_wf s → room s (2 * length ops) →
  (∀ t', t' ∈ ops ≫= op_tasks → id_apart t t') →
  let m := cp_run (CheckpointManager_new s c) ops in
  let l := stream (event_store m) (subject_for c t) in
  match recover iter now m t with
  | Ok st =>
      snap_task_id st = t ∧ state_of st = replay l ∧
      Forall (λ e, event_offset e <= last_event_offset st) l
  | Err e => ∃ o, read_from (event_store m) (subject_for c t) o = Err e
  end.
Proof.
  intros Hiter Hwf Hroom Hapart m l.
  destruct (cp_run_ok [] (CheckpointManager_new s c) ops (manager_ok_new s c Hwf) Hroom) as [Hok Hc].
  fold m in Hok, Hc. simpl in Hc. destruct (recover iter now m t) as [st|e] eqn:E.
  - pose proof (recover_spec iter Hiter _ now m t st Hok) as Hr. rewrite Hc in Hr. apply Hr; [|done].
    intros t' [Ht|Ht]%elem_of_app; [|by apply elem_of_nil in Ht]. apply Hapart.
    by rewrite list_elem_of_In, in_rev, <-list_elem_of_In.
  - unfold recover in E. rewrite Hc in E. unfold result_bind in E.
    repeat case_match; simplify_eq; eauto.
Qed.

(** Whatever was recorded, a recovered snapshot uses only the task and subtask
    states the code knows and lists every subtask once. *)
Theorem recovered_snapshot_wf (s : S) c ops now t st :
  (∀ m, iter m ≡ₚ map_to_list m) →
  events_wf s → room s (2 * length ops) →
  recover iter now (cp_run (CheckpointManager_new s c) ops) t = Ok st → snapshot_wf st.
Proof.
  intros Hiter Hwf Hroom.
  destruct (cp_run_ok [] (CheckpointManager_new s c) ops (manager_ok_new s c Hwf) Hroom) as [[_ Hm] _].
  unfold recover, find_latest_snapshot. destruct (latest_loop _ _ _ _) as [snap|] eqn:El.
  - apply latest_loop_elem in El as [?|(key & Hin & _)]; [done|].
    rewrite Hiter in Hin. apply elem_of_map_to_list in Hin.
    destruct (Hm _ _ Hin) as (_ & _ & _ & Hstate).
    destruct (read_from _ _ _) as [evs|]; [|done]. intros [= <-].
    eapply snapshot_wf_state; [|apply (apply_events_wf snap evs)]; [done|].
    symmetry in Hstate. apply (snapshot_wf_state _ _ Hstate), apply_events_wf, blank_wf.
  - destruct (read_from _ _ _) as [evs|]; [|done]. intros [= <-].
    eapply snapshot_wf_state; [|apply (apply_events_wf (blank_snapshot now t 0) evs), blank_wf]. done.
Qed.
End Claims.

Definition cp_demo : list cp_op :=
  [Record_ 0 "agent.events.t" (AgentEvent.TaskCreated "t" "");
   Record_ 0 "agent.events.t" (AgentEvent.SubtaskAssigned "t" "a" "w");
   Snapshot 0 "t";
   Record_ 0 "agent.events.t" (AgentEvent.SubtaskStarted "t" "a" "w");
   Append 0 "agent.events.t" (AgentEvent.SubtaskCompleted "t" "a" "ok" true [] "" false)].

Definition demo_manager : CheckpointManager InMemoryEventStore :=
  cp_run (CheckpointManager_new InMemoryEventStore_new CheckpointConfig_default) cp_demo.

Lemma demo_room : InMemory_room InMemoryEventStore_new (2 * length cp_demo).
Proof. by vm_compute. Qed.

Lemma recover_is_replay_witness :
  match recover map_to_list 0 demo_manager "t" with
  | Ok st => state_of st = replay (stream (event_store demo_manager) "agent.events.t")
  | Err _ => False
  end.
Proof.
  pose proof (recover_is_replay map_to_list InMemoryEventStore_new CheckpointConfig_default cp_demo
    0 "t" (λ m, reflexivity _) InMemory_new_wf demo_room) as H.
  assert (∀ t', t' ∈ cp_demo ≫= op_tasks → id_apart "t" t') as Ha.
  { apply Forall_forall. repeat constructor. }
  specialize (H Ha). fold demo_manager in H. cbv zeta in H.
  destruct (recover map_to_list 0 demo_manager "t") eqn:E; [apply H|vm_compute in E; done].
Defined.

Lemma recovered_snapshot_wf_witness :
  ∃ st, recover map_to_list 0 demo_manager "t" = Ok st ∧ snapshot_wf st.
Proof.
  destruct (recover map_to_list 0 demo_manager "t") as [st|] eqn:E; [|vm_compute in E; done].
  exists st. split; [done|].
  exact (recovered_snapshot_wf map_to_list InMemoryEventStore_new CheckpointConfig_default cp_demo
           0 "t" st (λ m, reflexivity _) InMemory_new_wf demo_room E).
Defined.

(** A status derived from the subtasks seen so far sticks: once every subtask
    assigned so far has completed, the task stays "completed" while a later subtask is
    assigned and running. *)
Theorem derived_completion_sticks t a b w (f : list FileChange) now :
  a ≠ b →
  let events := [AgentEvent.TaskCreated t ""; AgentEvent.SubtaskAssigned t a w;
                 AgentEvent.SubtaskCompleted t a "" true f "" false;
                 AgentEvent.SubtaskAssigned t b w; AgentEvent.SubtaskStarted t b w]%string in
  let s := foldl apply_event_to_snapshot (blank_snapshot now t 0) events in
  task_status s = "completed"%string ∧
  snap_subtasks s = [mkSubSnap a "completed" (Some w) (Some ""%string);
                     mkSubSnap b "in_progress" (Some w) None]%string ∧
  derive_task_status (snap_subtasks s) = "in_progress"%string.
Proof.
  intros Hne events s.
  assert (s = mkSnap t "completed" [mkSubSnap a "completed" (Some w) (Some ""%string);
                     mkSubSnap b "in_progress" (Some w) None] 0 (timestamp_millis now)) as ->;
    [|by split_and!].
  set (ts := timestamp_millis now).
  assert (apply_event_to_snapshot (blank_snapshot now t 0) (AgentEvent.TaskCreated t "") =
          mkSnap t "created" [] 0 ts) as E1 by reflexivity.
  assert (apply_event_to_snapshot (mkSnap t "created" [] 0 ts) (AgentEvent.SubtaskAssigned t a w) =
          mkSnap t "in_progress" [mkSubSnap a "assigned" (Some w) None] 0 ts) as E2 by reflexivity.
  assert (∀ l, apply_event_to_snapshot (mkSnap t "in_progress" [mkSubSnap a "assigned" (Some w) None] 0 ts)
                 (AgentEvent.SubtaskCompleted t a "" true l "" false) =
          mkSnap t "completed" [mkSubSnap a "completed" (Some w) (Some ""%string)] 0 ts) as E3.
  { intros l. unfold apply_event_to_snapshot, update_found. cbn [snap_subtasks].
    by rewrite update_subtask_here. }
  unfold s, events. cbn [foldl]. rewrite E1, E2, E3. unfold apply_event_to_snapshot, update_found.
  cbn [snap_subtasks]. rewrite update_subtask_skip by done. cbn [update_subtask fmap option_fmap option_map app].
  change (refresh_parent_status (with_subtasks (mkSnap t "completed" ?k 0 ts) ?l))
    with (mkSnap t "completed" l 0 ts). cbn [snap_subtasks].
  by rewrite update_subtask_skip, update_subtask_here.
Qed.

Lemma derived_completion_sticks_witness :
  let events := [AgentEvent.TaskCreated "t" ""; AgentEvent.SubtaskAssigned "t" "a" "w";
                 AgentEvent.SubtaskCompleted "t" "a" "" true [] "" false;
                 AgentEvent.SubtaskAssigned "t" "b" "w"; AgentEvent.SubtaskStarted "t" "b" "w"]%string in
  task_status (foldl apply_event_to_snapshot (blank_snapshot 0 "t" 0) events) = "completed"%string.
Proof. apply (derived_completion_sticks "t" "a" "b" "w" [] 0). done. Defined.

(** A snapshot of the task "t:x" is found for the task "t" too, whose recovery
    then answers with the other task's id and state. *)
Theorem colon_id_recovers_other_task :
  let ops := [Record_ 0 "agent.events.t" (AgentEvent.TaskCreated "t" "");
              Record_ 0 "agent.events.t:x" (AgentEvent.TaskFailed "t:x" "");
              Snapshot 0 "t:x"]%string in
  let m := cp_run (CheckpointManager_new InMemoryEventStore_new CheckpointConfig_default) ops in
  match recover map_to_list 0 m "t" with
  | Ok st => snap_task_id st = "t:x"%string ∧ task_status st = "failed"%string
  | Err _ => False
  end.
Proof. vm_compute. by split. Qed.
