(* ===== verification/ScheduleStore.v ===== *)
(** * Scheduled tasks and their store

    [uc-types/src/scheduler.rs] and [uc-engine/src/scheduler/store.rs]: the records
    of the scheduler and the [ScheduleStore] trait with its in-memory and PostgreSQL
    implementations.

    - A [Uuid] is its hyphenated text: the order of the bytes is the order of the text.
    - The database is a pair of tables that answers or does not ([pg_up]); the text of
      a driver error is a parameter, and so is the rounding of an instant to what a
      [TIMESTAMPTZ] column keeps.
    - [ScheduleStoreOk] is what the service relies on for its task records. *)

From Stdlib Require Import String.
From S2P Require Import Prelude RustStr Task NightWindow.

Notation Uuid := string (only parsing).

(** ** Records *)

Record ScheduledTask : Type := mkScheduled {
  sched_id : Uuid;
  sched_description : string;
  sched_project : string;
  cron_expression : option string;
  execute_after : option Instant;
  night_window_start : NaiveTime;
  night_window_end : NaiveTime;
  sched_timezone : string;
  sched_enabled : bool;
  last_execution : option Instant;
  next_execution : option Instant;
  sched_created_at : Instant;
  sched_updated_at : Instant;
  verify_command : option string;
  dispatch_attempts : Z
}.
#[export] Instance ScheduledTask_eq_dec : EqDecision ScheduledTask.
Proof. solve_decision. Defined.

Definition ScheduledTask_new (id : Uuid) (now : Instant) (description project_id : string)
    (start stop : NaiveTime) (timezone : string) : ScheduledTask :=
  mkScheduled id description project_id None None start stop timezone true None None now now None 0.

Definition with_plan (t : ScheduledTask) (cron : option string) (after : option Instant)
    : ScheduledTask :=
  mkScheduled (sched_id t) (sched_description t) (sched_project t) cron after
    (night_window_start t) (night_window_end t) (sched_timezone t) (sched_enabled t)
    (last_execution t) (next_execution t) (sched_created_at t) (sched_updated_at t)
    (verify_command t) (dispatch_attempts t).

Definition ScheduledTask_cron (id : Uuid) (now : Instant) (description project_id cron : string)
    (start stop : NaiveTime) (timezone : string) : ScheduledTask :=
  with_plan (ScheduledTask_new id now description project_id start stop timezone) (Some cron) None.

Definition ScheduledTask_one_shot (id : Uuid) (now : Instant) (description project_id : string)
    (after : Instant) (start stop : NaiveTime) (timezone : string) : ScheduledTask :=
  with_plan (ScheduledTask_new id now description project_id start stop timezone) None (Some after).

Definition is_cron (t : ScheduledTask) : bool := bool_decide (is_Some (cron_expression t)).

Definition is_one_shot (t : ScheduledTask) : bool :=
  bool_decide (is_Some (execute_after t)) && bool_decide (cron_expression t = None).

Inductive ExecutionStatus : Type := ExecCompleted | ExecFailed | ExecSkipped | ExecDeferred.
#[export] Instance ExecutionStatus_eq_dec : EqDecision ExecutionStatus.
Proof. solve_decision. Defined.

Record ExecutionHistory : Type := mkExecution {
  exec_id : Uuid;
  exec_task : Uuid;
  exec_started_at : Instant;
  exec_completed_at : option Instant;
  exec_status : ExecutionStatus;
  exec_summary : option string;
  exec_deferred_reason : option string
}.

Definition ExecutionHistory_started (id : Uuid) (now : Instant) (task : Uuid) : ExecutionHistory :=
  mkExecution id task now None ExecCompleted None None.
Definition ExecutionHistory_deferred (id : Uuid) (now : Instant) (task : Uuid) (reason : string)
    : ExecutionHistory := mkExecution id task now (Some now) ExecDeferred None (Some reason).
Definition ExecutionHistory_skipped (id : Uuid) (now : Instant) (task : Uuid) (reason : string)
    : ExecutionHistory := mkExecution id task now (Some now) ExecSkipped (Some reason) None.

Definition execution_status_to_str (s : ExecutionStatus) : string :=
  match s with
  | ExecCompleted => "Completed"
  | ExecFailed => "Failed"
  | ExecSkipped => "Skipped"
  | ExecDeferred => "Deferred"
  end.

Definition parse_execution_status (s : string) : ExecutionStatus :=
  if bool_decide (s = "Completed"%string) then ExecCompleted
  else if bool_decide (s = "Failed"%string) then ExecFailed
  else if bool_decide (s = "Skipped"%string) then ExecSkipped
  else if bool_decide (s = "Deferred"%string) then ExecDeferred
  else ExecFailed.

(** ** The trait *)

Class ScheduleStore (S : Type) : Type := {
  save_task : S → ScheduledTask → result unit EngineError * S;
  load_task : S → Uuid → result (option ScheduledTask) EngineError;
  list_tasks : S → bool → result (list ScheduledTask) EngineError;
  update_task : S → ScheduledTask → result unit EngineError * S;
  delete_task : S → Uuid → result unit EngineError * S;
  save_execution : S → ExecutionHistory → result unit EngineError * S;
  list_executions : S → Uuid → Z → result (list ExecutionHistory) EngineError
}.

(** What the task records of a backend promise.  [normalise] is what storing makes of
    a record (the identity in memory, rounded instants in a table); [schedule_up] says
    that the backend answers. *)
Class ScheduleStoreOk (S : Type) `{ScheduleStore S} : Type := {
  tasks_of : S → gmap Uuid ScheduledTask;
  normalise : ScheduledTask → ScheduledTask;
  schedule_wf : S → Prop;
  schedule_up : S → Prop;
  normalise_id : ∀ t, sched_id (normalise t) = sched_id t;
  normalise_enabled : ∀ t, sched_enabled (normalise t) = sched_enabled t;
  normalise_created : ∀ t u, sched_created_at t = sched_created_at u →
    sched_created_at (normalise t) = sched_created_at (normalise u);
  normalise_idemp : ∀ t, normalise (normalise t) = normalise t;
  tasks_normal : ∀ s id t, schedule_wf s → tasks_of s !! id = Some t →
    sched_id t = id ∧ normalise t = t;
  save_task_ok : ∀ s t r s', schedule_wf s → save_task s t = (r, s') →
    schedule_wf s' ∧
    match r with
    | Ok _ => tasks_of s !! sched_id t = None ∧ tasks_of s' = <[sched_id t := normalise t]> (tasks_of s)
    | Err _ => s' = s
    end;
  update_task_ok : ∀ s t r s', schedule_wf s → update_task s t = (r, s') →
    schedule_wf s' ∧
    match r with
    | Ok _ =>
        ∃ old, tasks_of s !! sched_id t = Some old ∧
          (sched_created_at (normalise t) = sched_created_at old →
           tasks_of s' = <[sched_id t := normalise t]> (tasks_of s))
    | Err _ => s' = s
    end;
  delete_task_ok : ∀ s id r s', schedule_wf s → delete_task s id = (r, s') →
    schedule_wf s' ∧
    match r with
    | Ok _ => is_Some (tasks_of s !! id) ∧ tasks_of s' = delete id (tasks_of s)
    | Err _ => s' = s
    end;
  save_execution_ok : ∀ s h r s', schedule_wf s → save_execution s h = (r, s') →
    schedule_wf s' ∧ tasks_of s' = tasks_of s;
  load_task_ok : ∀ s id o, schedule_wf s → load_task s id = Ok o → o = tasks_of s !! id;
  list_tasks_ok : ∀ s b l, schedule_wf s → list_tasks s b = Ok l →
    NoDup (sched_id <$> l) ∧
    ∀ t, t ∈ l ↔ tasks_of s !! sched_id t = Some t ∧ (b = true → sched_enabled t = true);
  save_task_up : ∀ s t, schedule_up s → schedule_up (save_task s t).2;
  update_task_up : ∀ s t r s', schedule_wf s → schedule_up s → update_task s t = (r, s') →
    schedule_up s' ∧ (is_Some (tasks_of s !! sched_id t) → r = Ok tt);
  delete_task_up : ∀ s id, schedule_up s → schedule_up (delete_task s id).2;
  save_execution_up : ∀ s h, schedule_up s → schedule_up (save_execution s h).2
}.

(** ** The in-memory store *)

Record InMemoryScheduleStore : Type := mkMemSchedule {
  mem_tasks : list ScheduledTask;
  mem_executions : list ExecutionHistory
}.

Definition InMemoryScheduleStore_new : InMemoryScheduleStore := mkMemSchedule [] [].

Definition has_id (id : Uuid) (t : ScheduledTask) : bool := bool_decide (sched_id t = id).

(** [iter_mut().find(..)] and an overwrite of what it finds. *)
Fixpoint replace_task (t : ScheduledTask) (l : list ScheduledTask) : option (list ScheduledTask) :=
  match l with
  | [] => None
  | x :: rest =>
      if has_id (sched_id t) x then Some (t :: rest)
      else rest' ← replace_task t rest; Some (x :: rest')
  end.

Definition mem_save_task (s : InMemoryScheduleStore) (t : ScheduledTask)
    : result unit EngineError * InMemoryScheduleStore :=
  if existsb (has_id (sched_id t)) (mem_tasks s)
  then (Err (TaskError ("Scheduled task " +:+ sched_id t +:+ " already exists")), s)
  else (Ok tt, mkMemSchedule (mem_tasks s ++ [t]) (mem_executions s)).

Definition mem_load_task (s : InMemoryScheduleStore) (id : Uuid)
    : result (option ScheduledTask) EngineError := Ok (find (has_id id) (mem_tasks s)).

Definition mem_list_tasks (s : InMemoryScheduleStore) (enabled_only : bool)
    : result (list ScheduledTask) EngineError :=
  Ok (filterb (λ t, negb enabled_only || sched_enabled t) (mem_tasks s)).

Definition mem_update_task (s : InMemoryScheduleStore) (t : ScheduledTask)
    : result unit EngineError * InMemoryScheduleStore :=
  match replace_task t (mem_tasks s) with
  | Some l => (Ok tt, mkMemSchedule l (mem_executions s))
  | None => (Err (TaskError ("Scheduled task " +:+ sched_id t +:+ " not found for update")), s)
  end.

Definition mem_delete_task (s : InMemoryScheduleStore) (id : Uuid)
    : result unit EngineError * InMemoryScheduleStore :=
  let kept := filterb (λ t, negb (has_id id t)) (mem_tasks s) in
  if (length kept =? length (mem_tasks s))%nat
  then (Err (TaskError ("Scheduled task " +:+ id +:+ " not found for deletion")), s)
  else (Ok tt, mkMemSchedule kept
                 (filterb (λ e, negb (bool_decide (exec_task e = id))) (mem_executions s))).

Definition mem_save_execution (s : InMemoryScheduleStore) (h : ExecutionHistory)
    : result unit EngineError * InMemoryScheduleStore :=
  (Ok tt, mkMemSchedule (mem_tasks s) (mem_executions s ++ [h])).

Definition of_task (id : Uuid) (l : list ExecutionHistory) : list ExecutionHistory :=
  filterb (λ e, bool_decide (exec_task e = id)) l.

(** [limit as usize] wraps a negative limit around. *)
Definition mem_list_executions (s : InMemoryScheduleStore) (id : Uuid) (limit : Z)
    : result (list ExecutionHistory) EngineError :=
  Ok (take (Z.to_nat (limit `mod` 2 ^ 64)) (rev (of_task id (mem_executions s)))).

#[export] Instance InMemory_ScheduleStore : ScheduleStore InMemoryScheduleStore := {|
  save_task := mem_save_task;
  load_task := mem_load_task;
  list_tasks := mem_list_tasks;
  update_task := mem_update_task;
  delete_task := mem_delete_task;
  save_execution := mem_save_execution;
  list_executions := mem_list_executions
|}.

(** ** The PostgreSQL store *)

Record ExecutionRow : Type := mkExecutionRow {
  row_id : Uuid;
  row_task : Uuid;
  row_started_at : Instant;
  row_completed_at : option Instant;
  row_status : string;
  row_summary : option string;
  row_deferred_reason : option string
}.

(** A row of [scheduled_tasks] has the fields of the record, its [dispatch_attempts]
    being the value of an [INTEGER] column. *)
Record PostgresScheduleStore : Type := mkPgSchedule {
  pg_tasks : list ScheduledTask;
  pg_executions : list ExecutionRow;
  pg_schedule_up : bool
}.

Definition dispatch_attempts_to_column (t : ScheduledTask) : Z := Z.min (dispatch_attempts t) i32_max.
(** [u32::try_from(column).unwrap_or_default()]. *)
Definition dispatch_attempts_of_column (n : Z) : Z := if n <? 0 then 0 else n.

Class PgDriver : Type := {
  (** The instant a [TIMESTAMPTZ] column keeps, and the time a [TIME] column keeps. *)
  pg_time : Instant → Instant;
  pg_naive_time : NaiveTime → NaiveTime;
  (** The driver's text for a failed statement. *)
  pg_error : string
}.

Class PgDriverOk `{PgDriver} : Prop := {
  pg_time_idemp : ∀ t, pg_time (pg_time t) = pg_time t;
  pg_naive_time_idemp : ∀ t, pg_naive_time (pg_naive_time t) = pg_naive_time t
}.

Section Postgres.
Context `{PgDriver}.

Definition row_of_task (t : ScheduledTask) : ScheduledTask :=
  mkScheduled (sched_id t) (sched_description t) (sched_project t) (cron_expression t)
    (pg_time <$> execute_after t) (pg_naive_time (night_window_start t))
    (pg_naive_time (night_window_end t)) (sched_timezone t) (sched_enabled t)
    (pg_time <$> last_execution t) (pg_time <$> next_execution t) (pg_time (sched_created_at t))
    (pg_time (sched_updated_at t)) (verify_command t) (dispatch_attempts_to_column t).

Definition task_of_row (r : ScheduledTask) : ScheduledTask :=
  mkScheduled (sched_id r) (sched_description r) (sched_project r) (cron_expression r)
    (execute_after r) (night_window_start r) (night_window_end r) (sched_timezone r)
    (sched_enabled r) (last_execution r) (next_execution r) (sched_created_at r)
    (sched_updated_at r) (verify_command r) (dispatch_attempts_of_column (dispatch_attempts r)).

Definition row_of_execution (h : ExecutionHistory) : ExecutionRow :=
  mkExecutionRow (exec_id h) (exec_task h) (pg_time (exec_started_at h))
    (pg_time <$> exec_completed_at h) (execution_status_to_str (exec_status h)) (exec_summary h)
    (exec_deferred_reason h).

Definition execution_of_row (r : ExecutionRow) : ExecutionHistory :=
  mkExecution (row_id r) (row_task r) (row_started_at r) (row_completed_at r)
    (parse_execution_status (row_status r)) (row_summary r) (row_deferred_reason r).

Definition pg_failed (what : string) : EngineError :=
  ConnectionError ("Failed to " +:+ what +:+ ": " +:+ pg_error).

(** [INSERT]: refused when the primary key exists. *)
Definition pg_save_task (s : PostgresScheduleStore) (t : ScheduledTask)
    : result unit EngineError * PostgresScheduleStore :=
  if negb (pg_schedule_up s) || existsb (has_id (sched_id t)) (pg_tasks s)
  then (Err (pg_failed "save scheduled task"), s)
  else (Ok tt, mkPgSchedule (pg_tasks s ++ [row_of_task t]) (pg_executions s) (pg_schedule_up s)).

Definition pg_load_task (s : PostgresScheduleStore) (id : Uuid)
    : result (option ScheduledTask) EngineError :=
  if pg_schedule_up s then Ok (task_of_row <$> find (has_id id) (pg_tasks s))
  else Err (pg_failed "load scheduled task").

Definition sched_by_created (a b : ScheduledTask) : bool := sched_created_at a <=? sched_created_at b.

Definition pg_list_tasks (s : PostgresScheduleStore) (enabled_only : bool)
    : result (list ScheduledTask) EngineError :=
  if pg_schedule_up s
  then Ok (task_of_row <$> sort_by sched_by_created
             (filterb (λ t, negb enabled_only || sched_enabled t) (pg_tasks s)))
  else Err (pg_failed "list scheduled tasks").

(** [UPDATE .. WHERE id = $1]: [created_at] is not among the columns it sets. *)
Definition updated_row (old t : ScheduledTask) : ScheduledTask :=
  let r := row_of_task t in
  mkScheduled (sched_id r) (sched_description r) (sched_project r) (cron_expression r)
    (execute_after r) (night_window_start r) (night_window_end r) (sched_timezone r)
    (sched_enabled r) (last_execution r) (next_execution r) (sched_created_at old)
    (sched_updated_at r) (verify_command r) (dispatch_attempts r).

Definition pg_update_task (s : PostgresScheduleStore) (t : ScheduledTask)
    : result unit EngineError * PostgresScheduleStore :=
  if negb (pg_schedule_up s) then (Err (pg_failed "update scheduled task"), s)
  else match find (has_id (sched_id t)) (pg_tasks s) with
       | None => (Err (TaskError ("Scheduled task " +:+ sched_id t +:+ " not found for update")), s)
       | Some _ =>
           (Ok tt,
            mkPgSchedule ((λ r, if has_id (sched_id t) r then updated_row r t else r) <$> pg_tasks s)
              (pg_executions s) (pg_schedule_up s))
       end.

(** [ON DELETE CASCADE] removes the history. *)
Definition pg_delete_task (s : PostgresScheduleStore) (id : Uuid)
    : result unit EngineError * PostgresScheduleStore :=
  if negb (pg_schedule_up s) then (Err (pg_failed "delete scheduled task"), s)
  else match find (has_id id) (pg_tasks s) with
       | None => (Err (TaskError ("Scheduled task " +:+ id +:+ " not found for deletion")), s)
       | Some _ =>
           (Ok tt,
            mkPgSchedule (filterb (λ t, negb (has_id id t)) (pg_tasks s))
              (filterb (λ e, negb (bool_decide (row_task e = id))) (pg_executions s))
              (pg_schedule_up s))
       end.

(** [INSERT]: refused when the id exists or the task does not. *)
Definition pg_save_execution (s : PostgresScheduleStore) (h : ExecutionHistory)
    : result unit EngineError * PostgresScheduleStore :=
  if negb (pg_schedule_up s) || existsb (λ r, bool_decide (row_id r = exec_id h)) (pg_executions s)
     || negb (existsb (has_id (exec_task h)) (pg_tasks s))
  then (Err (pg_failed "save execution history"), s)
  else (Ok tt, mkPgSchedule (pg_tasks s) (pg_executions s ++ [row_of_execution h]) (pg_schedule_up s)).

(** [ORDER BY started_at DESC LIMIT $2]; a negative limit is an error of the statement. *)
Definition by_started_desc (a b : ExecutionRow) : bool := row_started_at b <=? row_started_at a.

Definition pg_list_executions (s : PostgresScheduleStore) (id : Uuid) (limit : Z)
    : result (list ExecutionHistory) EngineError :=
  if negb (pg_schedule_up s) || (limit <? 0) then Err (pg_failed "list execution history")
  else Ok (execution_of_row <$>
             take (Z.to_nat limit)
               (sort_by by_started_desc
                  (filterb (λ r, bool_decide (row_task r = id)) (pg_executions s)))).

#[export] Instance Postgres_ScheduleStore : ScheduleStore PostgresScheduleStore := {|
  save_task := pg_save_task;
  load_task := pg_load_task;
  list_tasks := pg_list_tasks;
  update_task := pg_update_task;
  delete_task := pg_delete_task;
  save_execution := pg_save_execution;
  list_executions := pg_list_executions
|}.
End Postgres.

(** ** Tables as maps *)

Definition by_id (l : list ScheduledTask) : gmap Uuid ScheduledTask :=
  list_to_map ((λ t, (sched_id t, t)) <$> l).
Arguments by_id : simpl never.

Lemma no_id id t : sched_id t ≠ id → has_id id t = false.
Proof. intros. unfold has_id. by rewrite bool_decide_eq_false_2. Qed.

Lemma by_id_lookup l id : by_id l !! id = find (has_id id) l.
Proof.
  unfold by_id. induction l as [|t l IH]; csimpl; [apply lookup_empty|]. unfold has_id at 1.
  case_bool_decide as E; [subst; apply lookup_insert_eq|]. by rewrite lookup_insert_ne.
Qed.

Lemma find_id l id t : find (has_id id) l = Some t → t ∈ l ∧ sched_id t = id.
Proof. intros [Hin Hid]%find_Some. split; [done|]. unfold has_id in Hid. by bool_hyps. Qed.

Lemma find_unique l t : NoDup (sched_id <$> l) → t ∈ l → find (has_id (sched_id t)) l = Some t.
Proof.
  induction l as [|u l IH]; csimpl; [by intros _ ?%elem_of_nil|].
  intros [Hu Hl]%NoDup_cons [->|Ht]%elem_of_cons; unfold has_id at 1.
  - by rewrite bool_decide_eq_true_2.
  - rewrite bool_decide_eq_false_2; [by apply IH|]. intros E. apply Hu. rewrite E.
    by apply list_elem_of_fmap_2.
Qed.

Lemma find_app_last l t id :
  find (has_id id) (l ++ [t]) =
  match find (has_id id) l with
  | Some u => Some u
  | None => if has_id id t then Some t else None
  end.
Proof. induction l as [|u l IH]; simpl; [done|]. by destruct (has_id id u). Qed.

Lemma no_id_find l id : existsb (has_id id) l = false ↔ find (has_id id) l = None.
Proof. rewrite existsb_false, find_None. done. Qed.

Lemma no_id_elem (l : list ScheduledTask) id : find (has_id id) l = None → id ∉ sched_id <$> l.
Proof.
  rewrite find_None. intros H (t & -> & Ht)%list_elem_of_fmap. specialize (H t Ht).
  unfold has_id in H. by bool_hyps.
Qed.

Lemma by_id_snoc l t :
  find (has_id (sched_id t)) l = None → by_id (l ++ [t]) = <[sched_id t := t]> (by_id l).
Proof.
  intros Hn. apply map_eq. intros id. rewrite by_id_lookup, find_app_last.
  destruct (has_id id t) eqn:E; unfold has_id in E; bool_hyps.
  - subst. by rewrite lookup_insert_eq, Hn.
  - rewrite lookup_insert_ne, by_id_lookup by done. by destruct (find (has_id id) l).
Qed.

Lemma by_id_modify l id f old :
  find (has_id id) l = Some old → (∀ u, has_id id u = true → sched_id (f u) = id) →
  by_id ((λ u, if has_id id u then f u else u) <$> l) = <[id := f old]> (by_id l).
Proof.
  intros Hf Hid. apply map_eq. intros id'. rewrite by_id_lookup.
  destruct (decide (id = id')) as [<-|Hne].
  - rewrite lookup_insert_eq. revert Hf. induction l as [|u l IH]; csimpl; [done|].
    destruct (has_id id u) eqn:E; simpl; [|rewrite E; apply IH].
    intros [= ->]. unfold has_id at 1. by rewrite bool_decide_eq_true_2 by auto.
  - rewrite lookup_insert_ne, by_id_lookup by done. clear Hf.
    induction l as [|u l IH]; csimpl; [done|]. destruct (has_id id u) eqn:E; simpl; [|by rewrite IH].
    specialize (Hid u E). unfold has_id in E. bool_hyps.
    rewrite !no_id by congruence. done.
Qed.

Lemma ids_modify (l : list ScheduledTask) id f :
  (∀ u, has_id id u = true → sched_id (f u) = id) →
  sched_id <$> ((λ u, if has_id id u then f u else u) <$> l) = sched_id <$> l.
Proof.
  intros Hid. rewrite <-list_fmap_compose. apply list_fmap_ext. intros i u _. simpl.
  destruct (has_id id u) eqn:E; [|done]. rewrite (Hid u E). unfold has_id in E. by bool_hyps.
Qed.

Lemma by_id_remove l id :
  by_id (filterb (λ t, negb (has_id id t)) l) = delete id (by_id l).
Proof.
  apply map_eq. intros id'. rewrite by_id_lookup. unfold filterb.
  destruct (decide (id = id')) as [<-|Hne].
  - rewrite lookup_delete_eq. induction l as [|u l IH]; simpl; [done|].
    destruct (has_id id u) eqn:E; simpl; [done|]. by rewrite E.
  - rewrite lookup_delete_ne, by_id_lookup by done. induction l as [|u l IH]; simpl; [done|].
    destruct (has_id id u) eqn:E; simpl; [|by rewrite IH]. rewrite IH. unfold has_id in *.
    bool_hyps. by rewrite bool_decide_eq_false_2 by congruence.
Qed.

Lemma NoDup_filter_ids p l : NoDup (sched_id <$> l) → NoDup (sched_id <$> filterb p l).
Proof.
  unfold filterb. induction l as [|u l IH]; csimpl; [done|]. intros [Hu Hl]%NoDup_cons.
  destruct (p u); csimpl; [|by apply IH]. apply NoDup_cons. split; [|by apply IH].
  intros (t & E & Ht)%list_elem_of_fmap. apply Hu. rewrite E. apply list_elem_of_fmap_2.
  by apply (filterb_elem p) in Ht as [? _].
Qed.

Lemma replace_task_modify t l :
  NoDup (sched_id <$> l) →
  replace_task t l =
  (λ _, (λ u, if has_id (sched_id t) u then t else u) <$> l) <$> find (has_id (sched_id t)) l.
Proof.
  induction l as [|u l IH]; csimpl; [done|]. intros [Hu Hl]%NoDup_cons.
  destruct (has_id (sched_id t) u) eqn:E.
  - csimpl. do 2 f_equal. symmetry. unfold has_id in E. bool_hyps.
    transitivity (id <$> l); [|by rewrite list_fmap_id]. apply list_fmap_ext. intros i v Hv.
    unfold has_id. rewrite bool_decide_eq_false_2; [done|]. intros E'. apply Hu.
    rewrite E, <-E'. apply list_elem_of_fmap_2. by eapply list_elem_of_lookup_2.
  - rewrite (IH Hl). by destruct (find _ l).
Qed.

Lemma removed_length l id :
  (length (filterb (λ t, negb (has_id id t)) l) =? length l)%nat = true ↔
  find (has_id id) l = None.
Proof.
  rewrite Nat.eqb_eq, find_None. unfold filterb. split.
  - induction l as [|u l IH]; simpl; [by intros _ ? ?%elem_of_nil|].
    destruct (has_id id u) eqn:E; simpl.
    + pose proof (List.filter_length_le (λ t, negb (has_id id t)) l). lia.
    + intros [= Hl] x [->|Hx]%elem_of_cons; [done|]. by apply IH.
  - intros Hl. change (length (filterb (λ t, negb (has_id id t)) l) = length l).
    rewrite filterb_all; [done|]. apply Forall_forall. intros t Ht. by rewrite Hl.
Qed.

(** ** Both stores keep the contract *)

#[local] Obligation Tactic := idtac.
#[export] Program Instance InMemory_ScheduleStoreOk : ScheduleStoreOk InMemoryScheduleStore := {|
  tasks_of := λ s, by_id (mem_tasks s);
  normalise := λ t, t;
  schedule_wf := λ s, NoDup (sched_id <$> mem_tasks s);
  schedule_up := λ _, True
|}.
Next Obligation. done. Qed.
Next Obligation. done. Qed.
Next Obligation. done. Qed.
Next Obligation. done. Qed.
Next Obligation. intros s id t _. simpl. rewrite by_id_lookup. by intros [_ ?]%find_id. Qed.
Next Obligation.
  intros s t r s' Hwf. simpl. unfold mem_save_task.
  destruct (existsb _ _) eqn:E; intros [= <- <-]; [done|]. apply no_id_find in E.
  simpl. rewrite by_id_lookup, by_id_snoc by done. split; [|done].
  rewrite fmap_app. apply NoDup_app. split; [done|]. split; [|apply NoDup_singleton].
  intros x Hx ->%list_elem_of_singleton. by apply no_id_elem in E.
Qed.
Next Obligation.
  intros s t r s' Hwf. simpl. unfold mem_update_task. rewrite replace_task_modify by done.
  destruct (find _ _) as [old|] eqn:E; simpl; intros [= <- <-]; [|done].
  assert (∀ u, has_id (sched_id t) u = true → sched_id t = sched_id t) as Hid by done.
  simpl. rewrite (ids_modify _ _ (λ _, t)) by done. split; [done|]. exists old.
  rewrite by_id_lookup. split; [done|]. intros _. by apply (by_id_modify _ _ (λ _, t) old).
Qed.
Next Obligation.
  intros s id r s' Hwf. simpl. unfold mem_delete_task.
  destruct (_ =? _)%nat eqn:E; intros [= <- <-]; [done|]. simpl.
  split; [by apply NoDup_filter_ids|]. rewrite by_id_remove, by_id_lookup. split; [|done].
  destruct (find _ _) as [t|] eqn:F; [by eexists|]. apply removed_length in F. congruence.
Qed.
Next Obligation. intros s h r s' Hwf [= <- <-]. done. Qed.
Next Obligation. intros s id o _ [= <-]. simpl. by rewrite by_id_lookup. Qed.
Next Obligation.
  intros s b l Hwf [= <-]. simpl. split; [by apply NoDup_filter_ids|]. intros t.
  rewrite filterb_elem, by_id_lookup. split.
  - intros [Ht Hb]. split; [by apply find_unique|]. intros ->. done.
  - intros [[Ht _]%find_id Hb]. split; [done|]. destruct b; simpl; auto.
Qed.
Next Obligation. done. Qed.
Next Obligation.
  intros s t r s' Hwf _. simpl. unfold mem_update_task. rewrite replace_task_modify, by_id_lookup by done.
  intros Hu. split; [done|]. intros [old E]. rewrite E in Hu. by injection Hu as <- _.
Qed.
Next Obligation. done. Qed.
Next Obligation. done. Qed.

Section PostgresOk.
Context `{PgDriverOk}.

Lemma option_fmap_idemp {A} (f : A → A) (o : option A) :
  (∀ x, f (f x) = f x) → f <$> (f <$> o) = f <$> o.
Proof. intros Hf. destruct o; [|done]. simpl. by rewrite Hf. Qed.

Lemma row_roundtrip t : task_of_row (row_of_task (task_of_row (row_of_task t))) = task_of_row (row_of_task t).
Proof.
  destruct t. unfold task_of_row, row_of_task, dispatch_attempts_to_column,
    dispatch_attempts_of_column, i32_max. simpl.
  rewrite !option_fmap_idemp, !pg_time_idemp, !pg_naive_time_idemp by apply pg_time_idemp.
  f_equal. repeat case_match; bool_hyps; lia.
Qed.

Definition pg_normalise (t : ScheduledTask) : ScheduledTask := task_of_row (row_of_task t).

Definition pg_sched_wf (s : PostgresScheduleStore) : Prop :=
  NoDup (sched_id <$> pg_tasks s) ∧
  Forall (λ r, pg_normalise (task_of_row r) = task_of_row r) (pg_tasks s).

Lemma updated_row_normal old t :
  sched_created_at (pg_normalise t) = sched_created_at (task_of_row old) →
  task_of_row (updated_row old t) = pg_normalise t.
Proof using Type. unfold pg_normalise, task_of_row, updated_row, row_of_task. simpl. by intros ->. Qed.

Lemma updated_row_wf old t :
  pg_normalise (task_of_row old) = task_of_row old →
  pg_normalise (task_of_row (updated_row old t)) = task_of_row (updated_row old t).
Proof.
  intros Hold. assert (pg_time (sched_created_at old) = sched_created_at old) as Hc.
  { by apply (f_equal sched_created_at) in Hold. }
  pose proof (row_roundtrip t) as Hr. unfold pg_normalise.
  unfold task_of_row, updated_row, row_of_task in *. simpl in *. injection Hr. intros.
  f_equal; done.
Qed.

#[local] Obligation Tactic := idtac.
#[export] Program Instance Postgres_ScheduleStoreOk : ScheduleStoreOk PostgresScheduleStore := {|
  tasks_of := λ s, task_of_row <$> by_id (pg_tasks s);
  normalise := pg_normalise;
  schedule_wf := pg_sched_wf;
  schedule_up := λ s, pg_schedule_up s = true
|}.
Next Obligation. done. Qed.
Next Obligation. done. Qed.
Next Obligation. intros t u. simpl. by intros ->. Qed.
Next Obligation. exact row_roundtrip. Qed.
Next Obligation.
  intros s id t [_ Hn]. simpl. rewrite lookup_fmap, by_id_lookup.
  destruct (find _ _) as [r|] eqn:E; [|done]. apply find_id in E as [Hin <-].
  intros [= <-]. split; [done|]. rewrite Forall_forall in Hn. by apply Hn.
Qed.
Next Obligation.
  intros s t r s' [Hnd Hn]. simpl. unfold pg_save_task.
  destruct (_ || _) eqn:E; intros [= <- <-]; [done|].
  apply orb_false_iff in E as [_ E%no_id_find]. simpl. rewrite lookup_fmap, by_id_lookup, E.
  rewrite (by_id_snoc _ (row_of_task t)) by done. rewrite fmap_insert. split; [|done]. split; simpl.
  - rewrite fmap_app. apply NoDup_app. split; [done|]. split; [|apply NoDup_singleton].
    intros x Hx ->%list_elem_of_singleton. by apply no_id_elem in E.
  - apply Forall_app. split; [done|]. apply Forall_singleton. apply row_roundtrip.
Qed.
Next Obligation.
  intros s t r s' [Hnd Hn]. simpl. unfold pg_update_task.
  destruct (negb _); [by intros [= <- <-]|].
  destruct (find _ _) as [old|] eqn:E; intros [= <- <-]; [|done]. simpl.
  assert (∀ u, has_id (sched_id t) u = true → sched_id (updated_row u t) = sched_id t) as Hid by done.
  split.
  - split; simpl; [by rewrite (ids_modify _ _ (λ u, updated_row u t))|].
    rewrite Forall_fmap. apply (Forall_impl _ _ _ Hn). intros u Hu. simpl.
    destruct (has_id _ u); [by apply updated_row_wf|done].
  - exists (task_of_row old). rewrite lookup_fmap, by_id_lookup, E. split; [done|]. intros Hc.
    rewrite (by_id_modify _ _ (λ u, updated_row u t) old) by done.
    by rewrite fmap_insert, updated_row_normal.
Qed.
Next Obligation.
  intros s id r s' [Hnd Hn]. simpl. unfold pg_delete_task.
  destruct (negb _); [by intros [= <- <-]|].
  destruct (find _ _) as [old|] eqn:E; intros [= <- <-]; [|done]. simpl.
  rewrite by_id_remove, fmap_delete, lookup_fmap, by_id_lookup, E. split; [|by split].
  split; simpl; [by apply NoDup_filter_ids|]. rewrite Forall_forall in *.
  intros u [Hu _]%filterb_elem. by apply Hn.
Qed.
Next Obligation.
  intros s h r s' Hwf. simpl. unfold pg_save_execution. destruct (_ || _ || _); by intros [= <- <-].
Qed.
Next Obligation.
  intros s id o _. simpl. unfold pg_load_task. destruct (pg_schedule_up s); [|done].
  intros [= <-]. by rewrite lookup_fmap, by_id_lookup.
Qed.
Next Obligation.
  intros s b l [Hnd Hn]. simpl. unfold pg_list_tasks. destruct (pg_schedule_up s); [|done].
  intros [= <-]. rewrite <-list_fmap_compose. split.
  - change (NoDup (sched_id <$> sort_by sched_by_created (filterb (λ t, negb b || sched_enabled t) (pg_tasks s)))).
    rewrite sort_by_perm. by apply NoDup_filter_ids.
  - intros t. rewrite lookup_fmap, by_id_lookup, list_elem_of_fmap.
    setoid_rewrite sort_by_elem. setoid_rewrite filterb_elem. split.
    + intros (r & -> & Hr & Hb). rewrite (find_unique _ r) by done. split; [done|]. by intros ->.
    + intros [Ht Hb]. destruct (find _ _) as [r|] eqn:E; [|done]. apply find_id in E as [Hin _].
      injection Ht as <-. exists r. split_and!; [done|done|]. destruct b; simpl; auto.
Qed.
Next Obligation. intros s t. simpl. unfold pg_save_task. by destruct (_ || _). Qed.
Next Obligation.
  intros s t r s' Hwf. simpl. intros Hup. unfold pg_update_task. rewrite Hup. simpl.
  rewrite lookup_fmap, by_id_lookup. destruct (find _ _); intros [= <- <-]; [done|].
  split; [done|]. by intros [? ?].
Qed.
Next Obligation.
  intros s id. simpl. unfold pg_delete_task. destruct (negb _); [done|]. by destruct (find _ _).
Qed.
Next Obligation. intros s h. simpl. unfold pg_save_execution. by destruct (_ || _ || _). Qed.
End PostgresOk.

(** ** Properties *)

(** A record whose instants a column keeps and whose counter fits it. *)
Definition storable `{PgDriver} (t : ScheduledTask) : Prop :=
  (∀ x, x ∈ option_list (execute_after t) ++ option_list (last_execution t) ++
            option_list (next_execution t) ++ [sched_created_at t; sched_updated_at t] →
        pg_time x = x) ∧
  pg_naive_time (night_window_start t) = night_window_start t ∧
  pg_naive_time (night_window_end t) = night_window_end t ∧
  0 <= dispatch_attempts t <= i32_max.

Lemma fmap_fixed {A} (f : A → A) (o : option A) :
  (∀ x, x ∈ option_list o → f x = x) → f <$> o = o.
Proof. intros Hf. destruct o as [x|]; [|done]. simpl. rewrite Hf; [done|]. left. Qed.

Lemma storable_normal `{PgDriver} t : storable t → pg_normalise t = t.
Proof.
  intros (Htimes & H1 & H2 & Ha). destruct t. unfold pg_normalise, task_of_row, row_of_task. simpl in *.
  unfold dispatch_attempts_to_column, dispatch_attempts_of_column. simpl.
  rewrite !fmap_fixed, H1, H2, !Htimes by set_solver. f_equal.
  destruct (Z.ltb_spec (Z.min dispatch_attempts0 i32_max) 0); lia.
Qed.

(** A task saved to the database loads back as it was, up to the precision of the
    columns: exactly itself when its instants are storable and its retry counter fits
    an [INTEGER]; and every execution record keeps its status through its text. *)
Theorem saved_task_loads `{PgDriver} s t r s' :
  pg_save_task s t = (Ok r, s') →
  pg_load_task s' (sched_id t) = Ok (Some (pg_normalise t)) ∧
  (storable t → pg_load_task s' (sched_id t) = Ok (Some t)) ∧
  ∀ h, exec_status (execution_of_row (row_of_execution h)) = exec_status h.
Proof.
  intros Hs. assert (pg_load_task s' (sched_id t) = Ok (Some (pg_normalise t))) as Hl.
  { unfold pg_save_task in Hs. destruct (_ || _) eqn:E; [done|]. injection Hs as _ <-.
    apply orb_false_iff in E as [Hup E%no_id_find]. unfold pg_load_task. simpl.
    destruct (pg_schedule_up s); [|done]. rewrite find_app_last, E. unfold has_id. simpl. by rewrite bool_decide_eq_true_2. }
  split; [done|]. split; [intros Ht; by rewrite Hl, storable_normal|]. intros h. by destruct h as [???? []].
Qed.

(** Columns that keep microseconds. *)
Definition micros_driver : PgDriver := {|
  pg_time := λ t, t `div` 1000 * 1000;
  pg_naive_time := λ t, t `div` 1000 * 1000;
  pg_error := "connection refused"
|}.

Lemma micros_driver_ok : @PgDriverOk micros_driver.
Proof. split; intros t; simpl; by rewrite Z.div_mul by done. Qed.

Definition sample_task : ScheduledTask := ScheduledTask_one_shot "id1" 0 "d" "p" 5000 0 0 "UTC".

Lemma saved_task_loads_witness :
  @pg_load_task micros_driver (@pg_save_task micros_driver (mkPgSchedule [] [] true) sample_task).2 "id1"
  = Ok (Some sample_task).
Proof.
  eapply (@saved_task_loads micros_driver (mkPgSchedule [] [] true) sample_task tt); [reflexivity|].
  split_and!; try reflexivity; try done. intros x Hx. simpl in Hx. set_solver.
Defined.
