(* ===== verification/Scheduler.v ===== *)
(** * The scheduler service

    [uc-engine/src/scheduler/service.rs] and [lock.rs]: cron and one-shot jobs, the
    night-window guard on their dispatch, retries of failed dispatches, and recovery
    after a restart.

    - [croner] and [tokio-cron-scheduler] are parameters ([Croner], [JobScheduler]).
    - The dispatcher and the lock provider are arguments of the operations that call
      them, as is the text of an instant ([show_time]).
    - [clk n] is the [n]-th reading of the clock within an operation, and a fresh UUID is
      an argument.
    - A registration that the code hands to [tokio::spawn] is queued in [spawned] and
      runs as an operation of its own, at any later time.
    - An operation or a callback is one step here.  In the code the registry's lock is
      released before the store is written, so two of them may be persisted in the other
      order ([SchedulerProps.callback_overwrites_pause]). *)

From Stdlib Require Import String Ascii.
From S2P Require Import Prelude RustStr Task NightWindow ScheduleStore.

Definition EXECUTION_HISTORY_RECOVERY_LIMIT : Z := 50.
Definition MAX_DISPATCH_RETRIES : Z := 3.
Definition DISPATCH_RETRY_BASE_SECS : Z := 60.
Definition DISPATCH_RETRY_MAX_SECS : Z := 900.
Definition seconds (n : Z) : Z := n * 1000000000.

Inductive DispatchSource : Type := Scheduled | Manual.
#[export] Instance DispatchSource_eq_dec : EqDecision DispatchSource.
Proof. solve_decision. Defined.

Inductive DispatchOutcome : Type := Succeeded | FailedRetryable | FailedObserved.

Definition ScheduleDispatcher : Type := ScheduledTask → result unit EngineError.
Definition LoggingDispatcher : ScheduleDispatcher := λ _, Ok tt.

(** [LockProvider::try_acquire], the time to live in seconds. *)
Definition LockProvider : Type := string → Z → bool.
Definition NoOpLockProvider : LockProvider := λ _ _, true.

(** ** Third-party parameters *)

(** [Cron::from_str] and [find_next_occurrence], with the debug text of their errors. *)
Class Croner : Type := {
  cron_parse : string → option string;
  cron_find_next : string → Instant → result Instant string
}.

(** A job of the runtime scheduler: what triggers it, and the task it fires. *)
Inductive runtime_job : Type :=
| CronJob (expression : string) (task : Uuid)
| OneShotJob (delay : Z) (task : Uuid).

Definition runtime_task (j : runtime_job) : Uuid :=
  match j with CronJob _ t => t | OneShotJob _ t => t end.

Class JobScheduler (J : Type) : Type := {
  js_create : runtime_job → option string;
  js_add : J → runtime_job → result Uuid string * J;
  js_remove : J → Uuid → result unit string * J;
  js_start : J → result J string;
  js_shutdown : J → result unit string
}.

(** ** State *)

Section Service.
Context {Tz : Type} `{TimeZones Tz} {S : Type} `{ScheduleStore S} {J : Type} `{JobScheduler J}
  `{Croner} (show_time : Instant → string).

Record SchedulerService : Type := mkService {
  night_window : option (NightWindow Tz);
  job_metadata : gmap Uuid ScheduledTask;
  execution_history : list ExecutionHistory;
  sched_store : S;
  started : bool;
  job_scheduler : option J;
  scheduler_job_ids : gmap Uuid Uuid;
  spawned : list ScheduledTask
}.

Definition with_store (store : S) : SchedulerService :=
  mkService None ∅ [] store false None ∅ [].

Definition set_window (w : option (NightWindow Tz)) (v : SchedulerService) : SchedulerService :=
  mkService w (job_metadata v) (execution_history v) (sched_store v) (started v) (job_scheduler v)
    (scheduler_job_ids v) (spawned v).
Definition set_metadata (m : gmap Uuid ScheduledTask) (v : SchedulerService) : SchedulerService :=
  mkService (night_window v) m (execution_history v) (sched_store v) (started v) (job_scheduler v)
    (scheduler_job_ids v) (spawned v).
Definition set_history (h : list ExecutionHistory) (v : SchedulerService) : SchedulerService :=
  mkService (night_window v) (job_metadata v) h (sched_store v) (started v) (job_scheduler v)
    (scheduler_job_ids v) (spawned v).
Definition set_store (s : S) (v : SchedulerService) : SchedulerService :=
  mkService (night_window v) (job_metadata v) (execution_history v) s (started v) (job_scheduler v)
    (scheduler_job_ids v) (spawned v).
Definition set_started (b : bool) (v : SchedulerService) : SchedulerService :=
  mkService (night_window v) (job_metadata v) (execution_history v) (sched_store v) b
    (job_scheduler v) (scheduler_job_ids v) (spawned v).
Definition set_runtime (j : option J) (ids : gmap Uuid Uuid) (v : SchedulerService)
    : SchedulerService :=
  mkService (night_window v) (job_metadata v) (execution_history v) (sched_store v) (started v)
    j ids (spawned v).
Definition set_spawned (l : list ScheduledTask) (v : SchedulerService) : SchedulerService :=
  mkService (night_window v) (job_metadata v) (execution_history v) (sched_store v) (started v)
    (job_scheduler v) (scheduler_job_ids v) l.

(** Field updates of a task. *)
Definition set_next (t : ScheduledTask) (next : option Instant) : ScheduledTask :=
  mkScheduled (sched_id t) (sched_description t) (sched_project t) (cron_expression t)
    (execute_after t) (night_window_start t) (night_window_end t) (sched_timezone t)
    (sched_enabled t) (last_execution t) next (sched_created_at t) (sched_updated_at t)
    (verify_command t) (dispatch_attempts t).
Definition set_updated (t : ScheduledTask) (now : Instant) : ScheduledTask :=
  mkScheduled (sched_id t) (sched_description t) (sched_project t) (cron_expression t)
    (execute_after t) (night_window_start t) (night_window_end t) (sched_timezone t)
    (sched_enabled t) (last_execution t) (next_execution t) (sched_created_at t) now
    (verify_command t) (dispatch_attempts t).
Definition set_enabled (t : ScheduledTask) (enabled : bool) : ScheduledTask :=
  mkScheduled (sched_id t) (sched_description t) (sched_project t) (cron_expression t)
    (execute_after t) (night_window_start t) (night_window_end t) (sched_timezone t)
    enabled (last_execution t) (next_execution t) (sched_created_at t) (sched_updated_at t)
    (verify_command t) (dispatch_attempts t).
Definition set_ran (t : ScheduledTask) (at_ : Instant) (attempts : Z) : ScheduledTask :=
  mkScheduled (sched_id t) (sched_description t) (sched_project t) (cron_expression t)
    (execute_after t) (night_window_start t) (night_window_end t) (sched_timezone t)
    (sched_enabled t) (Some at_) (next_execution t) (sched_created_at t) (sched_updated_at t)
    (verify_command t) attempts.

(** ** Night window *)

Definition set_night_window (config : NightWindowConfig) (v : SchedulerService)
    : result unit EngineError * SchedulerService :=
  match from_config config with
  | Ok w => (Ok tt, set_window (Some w) v)
  | Err (InvalidTimezone name) =>
      (Err (ConfigError ("Invalid night window config: Invalid timezone: " +:+ name)), v)
  | Err (AmbiguousTime d) =>
      (Err (ConfigError ("Invalid night window config: Ambiguous time (DST transition): " +:+ d)), v)
  end.

Definition clear_night_window (v : SchedulerService) : SchedulerService := set_window None v.

Definition next_window_opening (now : Instant) (v : SchedulerService) : option Instant :=
  w ← night_window v;
  let local := mkDateTime now (window_tz w) in
  if is_within_window w local then None else Some (instant (next_window_start w local)).

Definition outside_window_error (next_start : Instant) : EngineError :=
  TaskError ("Outside night window. Next window starts at " +:+ show_time next_start).

Definition check_night_window (now : Instant) (v : SchedulerService) : result unit EngineError :=
  match next_window_opening now v with
  | None => Ok tt
  | Some next_start => Err (outside_window_error next_start)
  end.

(** ** When a job runs next *)

(** [str::split_whitespace().collect().len()]. *)
Fixpoint count_words (l : list ascii) (inside : bool) : nat :=
  match l with
  | [] => 0
  | c :: l' =>
      if is_whitespace c then count_words l' false
      else ((if inside then 0 else 1) + count_words l' true)%nat
  end.

Definition cron_to_6field (expr : string) : string :=
  if (count_words (chars expr) false =? 5)%nat then "0 " +:+ expr else expr.

Definition next_cron_execution (expr : string) (after : Instant) : result Instant EngineError :=
  match cron_parse (cron_to_6field expr) with
  | Some e => Err (ConfigError ("Invalid cron expression '" +:+ expr +:+ "': " +:+ e))
  | None =>
      map_err (λ e, ConfigError ("Unable to calculate next execution for cron '" +:+ expr +:+ "': " +:+ e))
        (cron_find_next (cron_to_6field expr) after)
  end.

Definition later_than (after : Instant) (o : option Instant) : option Instant :=
  match o with Some t => if after <? t then Some t else None | None => None end.

Definition one_shot_attempt_at (t : ScheduledTask) (after : Instant) : option Instant :=
  match later_than after (next_execution t) with
  | Some next => Some next
  | None => later_than after (execute_after t)
  end.

Definition next_execution_for_task (t : ScheduledTask) (after : Instant)
    : result (option Instant) EngineError :=
  match cron_expression t with
  | Some expr => map_ok Some (next_cron_execution expr after)
  | None => Ok (one_shot_attempt_at t after)
  end.

(** A positive delay always converts to a [std::time::Duration]. *)
Definition one_shot_duration (at_ now : Instant) : option Z :=
  if at_ - now <=? 0 then None else Some (at_ - now).

(** [1u64.checked_shl(n).unwrap_or(u64::MAX)]: [None] from 64 on. *)
Definition retry_delay_for (attempt : Z) : Z :=
  let shift := saturating_sub attempt 1 in
  let factor := if shift <? 64 then (2 ^ shift) `mod` 2 ^ 64 else u64_max in
  seconds (Z.min (u64_saturating_mul DISPATCH_RETRY_BASE_SECS factor) DISPATCH_RETRY_MAX_SECS).

(** ** The runtime scheduler *)

Definition add_runtime (what : string) (js : J) (job : runtime_job) : result Uuid EngineError * J :=
  match js_create job with
  | Some e => (Err (InternalError ("Failed to create " +:+ what +:+ " job: " +:+ e)), js)
  | None =>
      let '(r, js) := js_add js job in
      (map_err (λ e, InternalError ("Failed to add " +:+ what +:+ " job to scheduler: " +:+ e)) r, js)
  end.

Definition register_cron_with_scheduler (js : J) (t : ScheduledTask) : result Uuid EngineError * J :=
  match cron_expression t with
  | None => (Err (ConfigError "Cron expression missing"), js)
  | Some expr => add_runtime "cron" js (CronJob (cron_to_6field expr) (sched_id t))
  end.

Definition register_one_shot_with_scheduler (now : Instant) (js : J) (t : ScheduledTask)
    : result (option Uuid) EngineError * J :=
  match execute_after t with
  | None => (Err (ConfigError "execute_after missing"), js)
  | Some _ =>
      match one_shot_attempt_at t now with
      | None => (Ok None, js)
      | Some at_ =>
          match one_shot_duration at_ now with
          | None => (Ok None, js)
          | Some delay =>
              let '(r, js) := add_runtime "one-shot" js (OneShotJob delay (sched_id t)) in
              (map_ok Some r, js)
          end
      end
  end.

Definition register_runtime_job (now : Instant) (js : J) (t : ScheduledTask)
    : result (option Uuid) EngineError * J :=
  match cron_expression t with
  | Some _ => let '(r, js) := register_cron_with_scheduler js t in (map_ok Some r, js)
  | None =>
      match execute_after t with
      | Some _ => register_one_shot_with_scheduler now js t
      | None => (Ok None, js)
      end
  end.

Definition unregister_runtime_job (id : Uuid) (v : SchedulerService) : SchedulerService :=
  let js :=
    match job_scheduler v, scheduler_job_ids v !! id with
    | Some js, Some job => Some (js_remove js job).2
    | js, _ => js
    end in
  set_runtime js (delete id (scheduler_job_ids v)) v.

Definition forget_scheduler_job_id (id : Uuid) (v : SchedulerService) : SchedulerService :=
  set_runtime (job_scheduler v) (delete id (scheduler_job_ids v)) v.

(** The outcome of a registration, entered in the table of runtime ids. *)
Definition enter_runtime (id : Uuid) (js : J) (job : option Uuid) (v : SchedulerService)
    : SchedulerService :=
  set_runtime (Some js)
    (match job with Some j => <[id := j]> (scheduler_job_ids v) | None => scheduler_job_ids v end) v.

(** ** Adding, removing, pausing *)

Definition put_metadata (t : ScheduledTask) (v : SchedulerService) : SchedulerService :=
  set_metadata (<[sched_id t := t]> (job_metadata v)) v.

(** The registration step shared by both ways of adding a job; [None] when there was
    no error. *)
Definition register_added (register : J → result (option Uuid) EngineError * J) (t : ScheduledTask)
    (v : SchedulerService) : option EngineError * SchedulerService :=
  if sched_enabled t then
    match job_scheduler v with
    | None => (None, v)
    | Some js =>
        let '(r, js) := register js in
        match r with
        | Ok job => (None, enter_runtime (sched_id t) js job v)
        | Err e => (Some e, set_runtime (Some js) (scheduler_job_ids v) v)
        end
    end
  else (None, v).

Definition add_persisted (register : J → result (option Uuid) EngineError * J) (t : ScheduledTask)
    (v : SchedulerService) : result Uuid EngineError * SchedulerService :=
  let '(saved, store) := save_task (sched_store v) t in
  let v := set_store store v in
  match saved with
  | Err e => (Err e, v)
  | Ok _ =>
      let '(failed, v) := register_added register t v in
      match failed with
      | Some e => (Err e, v)
      | None => (Ok (sched_id t), put_metadata t v)
      end
  end.

Definition add_cron_job (clk : nat → Instant) (t : ScheduledTask) (v : SchedulerService)
    : result Uuid EngineError * SchedulerService :=
  match cron_expression t with
  | None => (Err (ConfigError "Cron expression required for cron job"), v)
  | Some expr =>
      match cron_parse expr with
      | Some e => (Err (ConfigError ("Invalid cron expression '" +:+ expr +:+ "': " +:+ e)), v)
      | None =>
          match next_execution_for_task t (clk 0%nat) with
          | Err e => (Err e, v)
          | Ok next =>
              let t := set_next t next in
              add_persisted
                (λ js, let '(r, js) := register_cron_with_scheduler js t in (map_ok Some r, js)) t v
          end
      end
  end.

Definition add_one_shot_job (clk : nat → Instant) (t : ScheduledTask) (v : SchedulerService)
    : result Uuid EngineError * SchedulerService :=
  match execute_after t with
  | None => (Err (ConfigError "execute_after required for one-shot job"), v)
  | Some after =>
      let t := set_next t (if clk 0%nat <? after then Some after else None) in
      add_persisted (λ js, register_one_shot_with_scheduler (clk 1%nat) js t) t v
  end.

Definition remove_job (id : Uuid) (v : SchedulerService) : result unit EngineError * SchedulerService :=
  let '(r, store) := delete_task (sched_store v) id in
  let v := set_store store v in
  match r with
  | Err e => (Err e, v)
  | Ok _ => (Ok tt, unregister_runtime_job id (set_metadata (delete id (job_metadata v)) v))
  end.

(** A best-effort write: a failure is only logged. *)
Definition try_update (t : ScheduledTask) (v : SchedulerService) : SchedulerService :=
  set_store (update_task (sched_store v) t).2 v.

Definition set_job_enabled (clk : nat → Instant) (id : Uuid) (enabled : bool) (v : SchedulerService)
    : result ScheduledTask EngineError * SchedulerService :=
  match job_metadata v !! id with
  | None => (Err (TaskError ("Scheduled task not found: " +:+ id)), v)
  | Some current =>
      if bool_decide (sched_enabled current = enabled) then (Ok current, v)
      else
        let candidate := set_enabled current enabled in
        let next :=
          if enabled then
            match next_execution_for_task candidate (clk 0%nat) with Ok next => next | Err _ => None end
          else None in
        let candidate := set_updated (set_next candidate next) (clk 1%nat) in
        let '(failed, v) :=
          if enabled then
            match job_scheduler v with
            | None => (None, v)
            | Some js =>
                let '(r, js) := register_runtime_job (clk 2%nat) js candidate in
                match r with
                | Ok job => (None, enter_runtime id js job v)
                | Err e => (Some e, set_runtime (Some js) (scheduler_job_ids v) v)
                end
            end
          else (None, unregister_runtime_job id v) in
        match failed with
        | Some e => (Err e, v)
        | None =>
            let v :=
              match job_metadata v !! id with
              | Some _ => set_metadata (<[id := candidate]> (job_metadata v)) v
              | None => v
              end in
            (Ok candidate, try_update candidate v)
        end
  end.

Definition job_order (a b : ScheduledTask) : bool :=
  (sched_created_at a <? sched_created_at b) ||
  ((sched_created_at a =? sched_created_at b) && String.leb (sched_id a) (sched_id b)).

Definition list_jobs (v : SchedulerService) : list ScheduledTask :=
  sort_by job_order ((map_to_list (job_metadata v)).*2).

Definition get_job (id : Uuid) (v : SchedulerService) : option ScheduledTask := job_metadata v !! id.

(** ** Dispatch *)

Definition record_execution (h : ExecutionHistory) (v : SchedulerService) : SchedulerService :=
  let v := set_store (save_execution (sched_store v) h).2 v in
  set_history (execution_history v ++ [h]) v.

(** The task after a dispatch attempt at [at_]. *)
Definition marked (t : ScheduledTask) (at_ : Instant) (outcome : DispatchOutcome) : ScheduledTask :=
  let in_order := match last_execution t with Some last => last <=? at_ | None => true end in
  if in_order then
    let attempts :=
      match outcome with
      | Succeeded => 0
      | FailedRetryable => u32_saturating_add (dispatch_attempts t) 1
      | FailedObserved => dispatch_attempts t
      end in
    let t := set_ran t at_ attempts in
    let next := match next_execution_for_task t at_ with Ok next => next | Err _ => None end in
    set_next t (if sched_enabled t then next else None)
  else t.

Definition mark_execution_started (now : Instant) (id : Uuid) (at_ : Instant)
    (outcome : DispatchOutcome) (v : SchedulerService) : Z * SchedulerService :=
  match job_metadata v !! id with
  | None => (0, v)
  | Some t =>
      let t := set_updated (marked t at_ outcome) now in
      (dispatch_attempts t, try_update t (set_metadata (<[id := t]> (job_metadata v)) v))
  end.

Definition rearm_one_shot_at (clk : nat → Instant) (id : Uuid) (when : Instant) (v : SchedulerService)
    : SchedulerService :=
  match job_metadata v !! id with
  | None => v
  | Some t =>
      match cron_expression t, execute_after t with
      | None, Some _ =>
          let target :=
            match one_shot_attempt_at t (clk 0%nat) with
            | Some owed => if when <? owed then owed else when
            | None => when
            end in
          let t := set_updated (set_next t (Some target)) (clk 1%nat) in
          let v := try_update t (set_metadata (<[id := t]> (job_metadata v)) v) in
          set_spawned (spawned v ++ [t]) v
      | _, _ => v
      end
  end.

(** The text of a failed attempt's record. *)
Definition skipped_summary (e : EngineError) (attempts : Z) (retry_at : option Instant)
    (spends_budget : bool) : string :=
  match retry_at, spends_budget with
  | Some at_, true =>
      "Dispatch skipped (no worker): " +:+ EngineError_display e +:+ "; retry " +:+ pretty attempts
      +:+ " of " +:+ pretty MAX_DISPATCH_RETRIES +:+ " at " +:+ show_time at_
  | None, true =>
      "Dispatch skipped (no worker): " +:+ EngineError_display e +:+ "; retries exhausted after "
      +:+ pretty attempts +:+ " attempts"
  | _, false => "Dispatch skipped (no worker): " +:+ EngineError_display e
  end.

(** The part behind the guard: the dispatcher answers, the attempt is accounted for. *)
Definition dispatch_now (dispatch : ScheduleDispatcher) (clk : nat → Instant) (fresh : Uuid)
    (id : Uuid) (source : DispatchSource) (t : ScheduledTask) (v : SchedulerService)
    : result unit EngineError * SchedulerService :=
  let started_at := clk 1%nat in
  match dispatch t with
  | Ok _ =>
      let v := (mark_execution_started (clk 2%nat) id started_at Succeeded v).2 in
      (Ok tt,
       record_execution
         (mkExecution fresh id started_at (Some (clk 3%nat)) ExecCompleted
            (Some "Task dispatched successfully") None) v)
  | Err e =>
      let spends_budget := bool_decide (source = Scheduled) && is_one_shot t in
      let outcome := if spends_budget then FailedRetryable else FailedObserved in
      let '(attempts, v) := mark_execution_started (clk 2%nat) id started_at outcome v in
      let retry_at :=
        if spends_budget && (attempts <=? MAX_DISPATCH_RETRIES)
        then Some (started_at + retry_delay_for attempts) else None in
      let v :=
        record_execution
          (mkExecution fresh id started_at (Some (clk 3%nat)) ExecSkipped
             (Some (skipped_summary e attempts retry_at spends_budget)) None) v in
      let v :=
        match retry_at with
        | Some at_ => rearm_one_shot_at (λ n, clk (4 + n)%nat) id at_ v
        | None => v
        end in
      (Err e, v)
  end.

Definition dispatch_with_guard_from (dispatch : ScheduleDispatcher) (clk : nat → Instant)
    (fresh : Uuid) (id : Uuid) (source : DispatchSource) (v : SchedulerService)
    : result unit EngineError * SchedulerService :=
  match job_metadata v !! id with
  | None => (Err (TaskError ("Job " +:+ id +:+ " not found")), v)
  | Some t =>
      match next_window_opening (clk 0%nat) v with
      | None => dispatch_now dispatch clk fresh id source t v
      | Some next_start =>
          let reason := outside_window_error next_start in
          let v :=
            record_execution
              (ExecutionHistory_deferred fresh (clk 1%nat) id (EngineError_display reason)) v in
          let v :=
            if bool_decide (source = Scheduled)
            then rearm_one_shot_at (λ n, clk (2 + n)%nat) id next_start v else v in
          (Err reason, v)
      end
  end.

Definition dispatch_with_guard (dispatch : ScheduleDispatcher) (clk : nat → Instant) (fresh id : Uuid)
    (v : SchedulerService) : result unit EngineError * SchedulerService :=
  dispatch_with_guard_from dispatch clk fresh id Scheduled v.

(** [timestamp()] of the clock reading. *)
Definition lock_key (id : Uuid) (now : Instant) : string :=
  "scheduler:" +:+ id +:+ ":" +:+ pretty (now `div` 1000000000).

(** The callbacks of the runtime scheduler. *)
Definition cron_fired (lock : LockProvider) (dispatch : ScheduleDispatcher) (clk : nat → Instant)
    (fresh id : Uuid) (v : SchedulerService) : SchedulerService :=
  if lock (lock_key id (clk 0%nat)) 30
  then (dispatch_with_guard dispatch (λ n, clk (1 + n)%nat) fresh id v).2 else v.

Definition one_shot_fired (lock : LockProvider) (dispatch : ScheduleDispatcher)
    (clk : nat → Instant) (fresh id : Uuid) (v : SchedulerService) : SchedulerService :=
  cron_fired lock dispatch clk fresh id (forget_scheduler_job_id id v).

(** A detached registration. *)
Definition rearm_registration_task (now : Instant) (t : ScheduledTask) (v : SchedulerService)
    : SchedulerService :=
  match job_scheduler v with
  | None => v
  | Some js =>
      let '(registered, js) := register_one_shot_with_scheduler now js t in
      match registered with
      | Ok (Some job) =>
          let js :=
            match scheduler_job_ids v !! sched_id t with
            | Some previous => (js_remove js previous).2
            | None => js
            end in
          set_runtime (Some js) (<[sched_id t := job]> (scheduler_job_ids v)) v
      | _ => set_runtime (Some js) (scheduler_job_ids v) v
      end
  end.

(** One of the spawned registrations runs. *)
Definition run_spawned (now : Instant) (n : nat) (v : SchedulerService) : SchedulerService :=
  match spawned v !! n with
  | Some t => rearm_registration_task now t (set_spawned (delete n (spawned v)) v)
  | None => v
  end.

(** ** History *)

Definition get_execution_history (id : option Uuid) (v : SchedulerService) : list ExecutionHistory :=
  match id with
  | Some id => of_task id (execution_history v)
  | None => execution_history v
  end.

Definition get_execution_history_from_store (id : Uuid) (limit : Z) (v : SchedulerService)
    : result (list ExecutionHistory) EngineError := list_executions (sched_store v) id limit.

Definition history_order (a b : ExecutionHistory) : bool :=
  (exec_started_at a <? exec_started_at b) ||
  ((exec_started_at a =? exec_started_at b) && String.leb (exec_id a) (exec_id b)).

Definition recovered_of (store : S) (t : ScheduledTask) : list ExecutionHistory :=
  match list_executions store (sched_id t) EXECUTION_HISTORY_RECOVERY_LIMIT with
  | Ok l => l
  | Err _ => []
  end.

Definition recover_execution_history (tasks : list ScheduledTask) (v : SchedulerService)
    : SchedulerService :=
  let recovered := sort_by history_order (tasks ≫= recovered_of (sched_store v)) in
  let cache_limit := Z.to_nat EXECUTION_HISTORY_RECOVERY_LIMIT in
  set_history (drop (length recovered - cache_limit) recovered) v.

(** [partition_point(|entry| entry.started_at <= at)] by the standard library's binary
    search: the number of leading entries on a sorted cache. *)
Fixpoint partition_point (at_ : Instant) (cache : list ExecutionHistory) : nat :=
  match cache with
  | [] => 0
  | e :: rest => if exec_started_at e <=? at_ then Datatypes.S (partition_point at_ rest) else 0%nat
  end.

Definition insert_execution_history_ordered (h : ExecutionHistory) (v : SchedulerService)
    : SchedulerService :=
  let v := set_store (save_execution (sched_store v) h).2 v in
  let position := partition_point (exec_started_at h) (execution_history v) in
  set_history (take position (execution_history v) ++ h :: drop position (execution_history v)) v.

Definition record_missed_one_shot (now : Instant) (fresh : Uuid) (t : ScheduledTask)
    (v : SchedulerService) : SchedulerService :=
  match execute_after t, cron_expression t with
  | Some after, None =>
      match one_shot_attempt_at t now with
      | Some _ => v
      | None =>
          if match last_execution t with Some last => after <=? last | None => false end then v
          else
            match list_executions (sched_store v) (sched_id t) 1 with
            | Err _ => v
            | Ok latest =>
                if existsb (λ e, (after <=? exec_started_at e) &&
                                 bool_decide (exec_status e ≠ ExecDeferred)) latest
                then v
                else
                  insert_execution_history_ordered
                    (mkExecution fresh (sched_id t) after None ExecSkipped
                       (Some ("Missed: execute_after " +:+ show_time after +:+
                              " passed while the gateway scheduler was not running")) None) v
            end
      end
  | _, _ => v
  end.

(** ** Start and stop *)

(** One persisted task during [start]: its refreshed record, and the miss it may have
    been. *)
Definition recover_task (now now_updated now_missed : Instant) (fresh : Uuid) (t : ScheduledTask)
    (v : SchedulerService) : ScheduledTask * SchedulerService :=
  let refreshed := if sched_enabled t then next_execution_for_task t now else Ok None in
  let '(recovered, v) :=
    match refreshed with
    | Ok next =>
        if bool_decide (next = next_execution t) then (t, v)
        else
          let t := set_updated (set_next t next) now_updated in
          (t, try_update t v)
    | Err _ => (t, v)
    end in
  (recovered,
   if sched_enabled recovered then record_missed_one_shot now_missed fresh recovered v else v).

Fixpoint recover_tasks (now : Instant) (clk : nat → Instant) (fresh : nat → Uuid)
    (tasks : list ScheduledTask) (v : SchedulerService) : list ScheduledTask * SchedulerService :=
  match tasks with
  | [] => ([], v)
  | t :: rest =>
      let '(recovered, v) := recover_task now (clk 0%nat) (clk 1%nat) (fresh 0%nat) t v in
      let '(others, v) :=
        recover_tasks now (λ n, clk (2 + n)%nat) (λ n, fresh (1 + n)%nat) rest v in
      (recovered :: others, v)
  end.

(** The registrations of [start]; a failure is only logged. *)
Fixpoint register_all (clk : nat → Instant) (js : J) (ids : gmap Uuid Uuid) (tasks : list ScheduledTask)
    : J * gmap Uuid Uuid :=
  match tasks with
  | [] => (js, ids)
  | t :: rest =>
      if sched_enabled t then
        let '(r, js) := register_runtime_job (clk 0%nat) js t in
        let ids := match r with Ok (Some job) => <[sched_id t := job]> ids | _ => ids end in
        register_all (λ n, clk (1 + n)%nat) js ids rest
      else register_all clk js ids rest
  end.

Definition start (new_runtime : result J string) (now : Instant) (clk clk' : nat → Instant)
    (fresh : nat → Uuid) (v : SchedulerService) : result unit EngineError * SchedulerService :=
  if started v then (Ok tt, v)
  else
    match list_tasks (sched_store v) false with
    | Err e => (Err e, v)
    | Ok persisted =>
        let v := recover_execution_history persisted v in
        let '(recovered, v) := recover_tasks now clk fresh persisted v in
        let v := set_metadata (foldl (λ m t, <[sched_id t := t]> m) (job_metadata v) recovered) v in
        match new_runtime with
        | Err e => (Err (InternalError ("Failed to create job scheduler: " +:+ e)), v)
        | Ok js =>
            let '(js, ids) := register_all clk' js (scheduler_job_ids v) recovered in
            match js_start js with
            | Err e => (Err (InternalError ("Failed to start job scheduler: " +:+ e)),
                        set_runtime (job_scheduler v) ids v)
            | Ok js => (Ok tt, set_started true (set_runtime (Some js) ids v))
            end
        end
    end.

Definition stop (v : SchedulerService) : result unit EngineError * SchedulerService :=
  if negb (started v) then (Ok tt, v)
  else
    match job_scheduler v with
    | Some js =>
        match js_shutdown js with
        | Err e => (Err (InternalError ("Failed to stop job scheduler: " +:+ e)),
                    set_runtime None (scheduler_job_ids v) v)
        | Ok _ => (Ok tt, set_started false (set_runtime None ∅ v))
        end
    | None => (Ok tt, set_started false (set_runtime None ∅ v))
    end.

Definition is_running (v : SchedulerService) : bool := started v.
Definition job_count (v : SchedulerService) : nat := size (job_metadata v).
End Service.
Arguments SchedulerService : clear implicits.

(** ** The registry is persisted *)

Section Registry.
Context {Tz : Type} `{TimeZones Tz} {S : Type} `{ScheduleStoreOk S} {J : Type} `{JobScheduler J}
  `{Croner} (show_time : Instant → string).
Notation service := (SchedulerService Tz S J).
Implicit Types (v : service) (t : ScheduledTask) (id : Uuid).

(** Every job in memory is the job the store would load, and the store answers. *)
Definition registry_ok v : Prop :=
  schedule_wf (sched_store v) ∧ schedule_up (sched_store v) ∧
  ∀ id t, job_metadata v !! id = Some t →
    sched_id t = id ∧ tasks_of (sched_store v) !! id = Some (normalise t).

Lemma registry_same v v' :
  sched_store v' = sched_store v → job_metadata v' = job_metadata v →
  registry_ok v → registry_ok v'.
Proof. unfold registry_ok. by intros -> ->. Qed.

Lemma registry_update v id t t' :
  registry_ok v → job_metadata v !! id = Some t → sched_id t' = id →
  sched_created_at t' = sched_created_at t →
  registry_ok (try_update t' (set_metadata (<[id := t']> (job_metadata v)) v)).
Proof.
  intros (Hwf & Hup & Hm) Ht Hid Hc. destruct (Hm id t Ht) as [_ Hs].
  unfold registry_ok, try_update. simpl. destruct (update_task _ t') as [r s'] eqn:E.
  destruct (update_task_up _ _ _ _ Hwf Hup E) as [Hup' Hok]. rewrite Hid in Hok.
  rewrite Hok in E by (rewrite Hs; eauto).
  destruct (update_task_ok _ _ _ _ Hwf E) as [Hwf' (old & Hold & Hnew)].
  rewrite Hid, Hs in Hold. injection Hold as <-. specialize (Hnew (normalise_created _ _ Hc)).
  split; [done|]. split; [done|]. simpl. rewrite Hnew, Hid. intros id' u.
  destruct (decide (id' = id)) as [->|Hne].
  - rewrite !lookup_insert_eq. by intros [= <-].
  - rewrite !lookup_insert_ne by done. apply Hm.
Qed.

Lemma registry_execution v h :
  registry_ok v → registry_ok (set_store (save_execution (sched_store v) h).2 v).
Proof.
  intros (Hwf & Hup & Hm). unfold registry_ok. simpl.
  pose proof (save_execution_up (sched_store v) h Hup) as Hup'.
  destruct (save_execution _ h) as [r s'] eqn:E.
  destruct (save_execution_ok _ _ _ _ Hwf E) as [Hwf' Ht]. simpl in *. by rewrite Ht.
Qed.

Lemma registry_record v h : registry_ok v → registry_ok (record_execution h v).
Proof. intros Hv. eapply registry_same; [| |apply (registry_execution v h Hv)]; done. Qed.

Lemma registry_runtime v js ids : registry_ok v → registry_ok (set_runtime js ids v).
Proof. by apply registry_same. Qed.

Lemma registry_unregister v id : registry_ok v → registry_ok (unregister_runtime_job id v).
Proof. by apply registry_same. Qed.

Lemma registry_mark v now id at_ outcome :
  registry_ok v → registry_ok (mark_execution_started now id at_ outcome v).2.
Proof.
  intros Hv. unfold mark_execution_started. destruct (job_metadata v !! id) as [t|] eqn:E; [|done].
  apply (registry_update v id t); [done|done| |].
  - destruct Hv as (_ & _ & Hm). destruct (Hm id t E) as [<- _].
    simpl. unfold marked. by repeat case_match.
  - simpl. unfold marked. by repeat case_match.
Qed.

Lemma registry_rearm v clk id at_ :
  registry_ok v → registry_ok (rearm_one_shot_at clk id at_ v).
Proof.
  intros Hv. unfold rearm_one_shot_at. destruct (job_metadata v !! id) as [t|] eqn:E; [|done].
  destruct (cron_expression t); [done|]. destruct (execute_after t); [|done].
  eapply registry_same; [| |apply (registry_update v id t); [done|done| |]]; try done.
  destruct Hv as (_ & _ & Hm). by destruct (Hm id t E).
Qed.

Lemma registry_dispatch v dispatch clk fresh id source :
  registry_ok v → registry_ok (dispatch_with_guard_from show_time dispatch clk fresh id source v).2.
Proof.
  intros Hv. unfold dispatch_with_guard_from, dispatch_now.
  destruct (job_metadata v !! id) as [t|]; [|done].
  destruct (next_window_opening _ v) as [next|].
  - simpl. case_bool_decide; [apply registry_rearm|]; by apply registry_record.
  - destruct (dispatch t).
    + simpl. by apply registry_record, registry_mark.
    + pose proof (registry_mark v (clk 2%nat) id (clk 1%nat)
        (if bool_decide (source = Scheduled) && is_one_shot t then FailedRetryable else FailedObserved)
        Hv) as Hmark.
      destruct (mark_execution_started _ _ _ _ _) as [attempts v']. simpl in *.
      case_match; [apply registry_rearm|]; by apply registry_record.
Qed.

Lemma registry_save v t r s' :
  registry_ok v → save_task (sched_store v) t = (r, s') → registry_ok (set_store s' v).
Proof.
  intros (Hwf & Hup & Hm) E. unfold registry_ok. simpl.
  pose proof (save_task_up (sched_store v) t Hup) as Hup'. rewrite E in Hup'.
  destruct (save_task_ok _ _ _ _ Hwf E) as [Hwf' Hr]. split; [done|]. split; [done|].
  destruct r; [|by subst s']. destruct Hr as [Hnone ->]. intros id u Hu.
  destruct (Hm id u Hu) as [Hid Hs]. split; [done|].
  rewrite lookup_insert_ne; [done|]. intros E'. rewrite E', Hs in Hnone. done.
Qed.

Lemma register_added_same register t v :
  let v' := (register_added register t v).2 in
  sched_store v' = sched_store v ∧ job_metadata v' = job_metadata v.
Proof.
  unfold register_added. destruct (sched_enabled t); [|done].
  destruct (job_scheduler v) as [js|]; [|done]. destruct (register js) as [[job|e] js']; done.
Qed.

Lemma registry_add v register t :
  registry_ok v → registry_ok (add_persisted register t v).2.
Proof.
  intros Hv. unfold add_persisted. destruct (save_task _ t) as [r s'] eqn:E.
  pose proof (registry_save _ _ _ _ Hv E) as Hsave. destruct r; [|done].
  pose proof (register_added_same register t (set_store s' v)) as [Hst Hmd].
  destruct (register_added _ _ _) as [[e|] v']; simpl in *; [by apply (registry_same (set_store s' v))|].
  destruct Hsave as (Hwf & Hup & Hm). unfold registry_ok. simpl. rewrite Hst, Hmd.
  split; [done|]. split; [done|]. intros id u. simpl.
  destruct (save_task_ok _ _ _ _ (proj1 Hv) E) as [_ [_ Htasks]].
  destruct (decide (id = sched_id t)) as [->|Hne].
  - rewrite lookup_insert_eq. intros [= <-]. split; [done|]. by rewrite Htasks, lookup_insert_eq.
  - rewrite lookup_insert_ne by done. apply Hm.
Qed.

Lemma registry_remove v id : registry_ok v → registry_ok (remove_job id v).2.
Proof.
  intros Hv. destruct Hv as (Hwf & Hup & Hm). unfold remove_job.
  pose proof (delete_task_up (sched_store v) id Hup) as Hup'.
  destruct (delete_task _ id) as [r s'] eqn:E.
  destruct (delete_task_ok _ _ _ _ Hwf E) as [Hwf' Hr]. destruct r; simpl.
  - apply registry_unregister. destruct Hr as [_ Htasks]. split; [done|]. split; [done|]. simpl.
    intros id' u. rewrite Htasks. destruct (decide (id' = id)) as [->|Hne].
    + by rewrite lookup_delete_eq.
    + rewrite !lookup_delete_ne by done. apply Hm.
  - subst s'. by split_and!.
Qed.

Lemma registry_enable v clk id enabled :
  registry_ok v → registry_ok (set_job_enabled clk id enabled v).2.
Proof.
  intros Hv. unfold set_job_enabled. destruct (job_metadata v !! id) as [t|] eqn:E; [|done].
  case_bool_decide; [done|].
  assert (∀ v' t', registry_ok v' → job_metadata v' = job_metadata v → sched_id t' = id →
    sched_created_at t' = sched_created_at t →
    registry_ok (try_update t' match job_metadata v' !! id with
      | Some _ => set_metadata (<[id := t']> (job_metadata v')) v' | None => v' end)) as Hput.
  { intros v' t' Hv' Em ??. rewrite Em, E. rewrite <-Em. apply (registry_update v' id t); [done| |done|done].
    by rewrite Em. }
  assert (sched_id t = id) as Hid by (destruct Hv as (_ & _ & Hm); by destruct (Hm id t E)).
  destruct enabled.
  - destruct (job_scheduler v) as [js|]; simpl.
    + destruct (register_runtime_job _ js _) as [[job|e] js']; simpl.
      * by apply (Hput (enter_runtime id js' job v)).
      * by apply registry_runtime.
    + by apply (Hput v).
  - simpl. by apply (Hput (unregister_runtime_job id v)).
Qed.

Lemma registry_spawned v now n : registry_ok v → registry_ok (run_spawned now n v).
Proof.
  intros Hv. unfold run_spawned, rearm_registration_task. destruct (spawned v !! n) as [t|]; [|done].
  apply (registry_same v); [| |done]; simpl; repeat case_match; done.
Qed.

(** *** Start *)

(** During [start] the recovered records are in the store before they are in memory. *)
Definition recovered_ok v t : Prop :=
  tasks_of (sched_store v) !! sched_id t = Some (normalise t).

Lemma missed_tasks v now fresh t :
  schedule_wf (sched_store v) →
  let v' := record_missed_one_shot show_time now fresh t v in
  job_metadata v' = job_metadata v ∧ tasks_of (sched_store v') = tasks_of (sched_store v) ∧
  schedule_wf (sched_store v').
Proof.
  intros Hwf.
  assert (∀ h, schedule_wf (save_execution (sched_store v) h).2 ∧
               tasks_of (save_execution (sched_store v) h).2 = tasks_of (sched_store v)) as Hs.
  { intros h. destruct (save_execution _ h) as [r s'] eqn:E. by apply (save_execution_ok _ _ _ _ Hwf E). }
  unfold record_missed_one_shot. repeat case_match; simpl; split_and!; try done; apply Hs.
Qed.

(** The update of a record the store holds, while the registry still has the old one
    or none. *)
Lemma recover_task_ok v now nu nm fresh t t' v' :
  schedule_wf (sched_store v) → schedule_up (sched_store v) →
  tasks_of (sched_store v) !! sched_id t = Some t → normalise t = t →
  recover_task show_time now nu nm fresh t v = (t', v') →
  sched_id t' = sched_id t ∧ schedule_wf (sched_store v') ∧ schedule_up (sched_store v') ∧
  job_metadata v' = job_metadata v ∧
  tasks_of (sched_store v') = <[sched_id t := normalise t']> (tasks_of (sched_store v)).
Proof.
  intros Hwf Hup Ht Hn. unfold recover_task.
  assert (∀ u v1, schedule_wf (sched_store v1) → schedule_up (sched_store v1) →
    let w := if sched_enabled u then record_missed_one_shot show_time nm fresh u v1 else v1 in
    schedule_wf (sched_store w) ∧ schedule_up (sched_store w) ∧
    job_metadata w = job_metadata v1 ∧ tasks_of (sched_store w) = tasks_of (sched_store v1)) as Hmiss.
  { intros u v1 Hwf1 Hup1. destruct (sched_enabled u); [|done].
    destruct (missed_tasks v1 nm fresh u Hwf1) as (? & ? & ?). split_and!; try done.
    unfold record_missed_one_shot. repeat case_match; try done; by apply save_execution_up. }
  assert (∀ u w, (t, if sched_enabled t then record_missed_one_shot show_time nm fresh t v else v) = (u, w) →
    sched_id u = sched_id t ∧ schedule_wf (sched_store w) ∧ schedule_up (sched_store w) ∧
    job_metadata w = job_metadata v ∧
    tasks_of (sched_store w) = <[sched_id t := normalise u]> (tasks_of (sched_store v))) as Hsame.
  { intros u w [= <- <-]. destruct (Hmiss t v Hwf Hup) as (? & ? & ? & ->). split_and!; try done.
    by rewrite insert_id by (by rewrite Hn). }
  destruct (if sched_enabled t then next_execution_for_task t now else Ok None) as [next|e];
    [|by apply Hsame].
  case_bool_decide; [by apply Hsame|]. intros [= <- <-].
  set (u := set_updated (set_next t next) nu). unfold try_update.
  destruct (update_task (sched_store v) u) as [r s'] eqn:E. simpl.
  destruct (update_task_up _ _ _ _ Hwf Hup E) as [Hup' Hok].
  rewrite Hok in E by (simpl; rewrite Ht; eauto).
  destruct (update_task_ok _ _ _ _ Hwf E) as [Hwf' (old & Hold & Hnew)].
  simpl in Hold. rewrite Ht in Hold. injection Hold as <-.
  assert (sched_created_at (normalise u) = sched_created_at t) as Hc.
  { transitivity (sched_created_at (normalise t)); [by apply normalise_created|by rewrite Hn]. }
  destruct (Hmiss u (set_store s' v) Hwf' Hup') as (? & ? & ? & Htasks). simpl in *.
  split_and!; try done. rewrite Htasks. by rewrite Hnew.
Qed.

Lemma recover_tasks_ok now clk fresh tasks v ts v' :
  schedule_wf (sched_store v) → schedule_up (sched_store v) →
  NoDup (sched_id <$> tasks) →
  Forall (λ t, tasks_of (sched_store v) !! sched_id t = Some t ∧ normalise t = t) tasks →
  recover_tasks show_time now clk fresh tasks v = (ts, v') →
  schedule_wf (sched_store v') ∧ schedule_up (sched_store v') ∧
  job_metadata v' = job_metadata v ∧ Forall (recovered_ok v') ts ∧
  sched_id <$> ts = sched_id <$> tasks ∧
  (∀ id, id ∉ sched_id <$> tasks → tasks_of (sched_store v') !! id = tasks_of (sched_store v) !! id).
Proof.
  revert clk fresh v ts v'. induction tasks as [|t tasks IH]; intros clk fresh v ts v' Hwf Hup Hnd Hall;
    cbn [recover_tasks]; [intros [= <- <-]; split_and!; done || constructor|].
  apply NoDup_cons in Hnd as [Hnotin Hnd]. apply Forall_cons in Hall as [[Ht Hn] Hall].
  destruct (recover_task _ _ _ _ _ _ _) as [t' v1] eqn:E1.
  destruct (recover_task_ok _ _ _ _ _ _ _ _ Hwf Hup Ht Hn E1) as (Hid & Hwf1 & Hup1 & Hmd1 & Hts1).
  destruct (recover_tasks _ _ _ _ tasks v1) as [ts' v2] eqn:E2. intros [= <- <-].
  apply IH in E2 as (Hwf2 & Hup2 & Hmd2 & Hrec & Hids & Hkeep); [|done..|].
  - split_and!; try done; [by rewrite Hmd2| | |].
    + constructor; [|done]. unfold recovered_ok. rewrite Hid, Hkeep by done.
      by rewrite Hts1, lookup_insert_eq.
    + csimpl. by rewrite Hid, Hids.
    + csimpl. intros id [? ?]%not_elem_of_cons. rewrite Hkeep, Hts1 by done.
      by rewrite lookup_insert_ne.
  - rewrite Forall_forall in *. intros u Hu. destruct (Hall u Hu) as [Hs Hnu]. split; [|done].
    rewrite Hts1, lookup_insert_ne; [done|]. intros E. apply Hnotin. rewrite E.
    by apply list_elem_of_fmap_2.
Qed.

Lemma put_all_lookup (ts : list ScheduledTask) (m : gmap Uuid ScheduledTask) id t :
  foldl (λ m t, <[sched_id t := t]> m) m ts !! id = Some t →
  (t ∈ ts ∧ sched_id t = id) ∨ (id ∉ sched_id <$> ts ∧ m !! id = Some t).
Proof.
  revert m. induction ts as [|u ts IH]; intros m; simpl.
  { intros Hm. right. split; [apply not_elem_of_nil|done]. }
  intros [[Ht Hid]|[Hni Hm]]%IH.
  - left. split; [by right|done].
  - destruct (decide (sched_id u = id)) as [<-|Hne].
    + rewrite lookup_insert_eq in Hm. injection Hm as <-. left. split; [left|done].
    + rewrite lookup_insert_ne in Hm by done. right. split; [|done]. csimpl.
      apply not_elem_of_cons. split; [congruence|done].
Qed.

Lemma registry_start v new now clk clk' fresh :
  registry_ok v → registry_ok (start show_time new now clk clk' fresh v).2.
Proof.
  intros Hv. unfold start. destruct (started v); [done|].
  destruct (list_tasks _ _) as [ps|] eqn:El; [|done].
  destruct Hv as (Hwf & Hup & Hm). destruct (list_tasks_ok _ _ _ Hwf El) as [Hnd Hps].
  destruct (recover_tasks _ _ _ _ _ _) as [ts v1] eqn:E.
  apply recover_tasks_ok in E as (Hwf1 & Hup1 & Hmd & Hrec & Hids & Hkeep); try done.
  - assert (registry_ok (set_metadata (foldl (λ m t, <[sched_id t := t]> m) (job_metadata v1) ts) v1)) as Hok.
    { split; [done|]. split; [done|]. simpl. intros id t [[Ht <-]|[Hni Ht]]%put_all_lookup.
      - split; [done|]. rewrite Forall_forall in Hrec. by apply Hrec.
      - rewrite Hids in Hni. rewrite Hkeep by done. rewrite Hmd in Ht. by apply Hm. }
    destruct new as [js|e]; [|done]. destruct (register_all _ _ _ _) as [js' ids].
    destruct (js_start js'); eapply registry_same; done.
  - apply Forall_forall. intros t Ht. apply Hps in Ht as [Ht _]. split; [done|].
    by destruct (tasks_normal _ _ _ Hwf Ht).
Qed.
End Registry.

(** ** Failed dispatches of a one-shot *)

Section Retries.
Context {Tz : Type} `{TimeZones Tz} {S : Type} `{ScheduleStore S} {J : Type} `{JobScheduler J}
  `{Croner} (show_time : Instant → string).
Notation service := (SchedulerService Tz S J).
Implicit Types (v : service) (t : ScheduledTask) (id : Uuid).

(** The attempt at [at_] is not before anything the task records or owes. *)
Definition past (at_ : Instant) (o : option Instant) : bool :=
  match o with Some x => x <=? at_ | None => true end.
Definition due t (at_ : Instant) : bool :=
  past at_ (last_execution t) && past at_ (next_execution t) && past at_ (execute_after t).

Lemma is_one_shot_true t :
  is_one_shot t = true ↔ is_Some (execute_after t) ∧ cron_expression t = None.
Proof. unfold is_one_shot. rewrite andb_true_iff, !bool_decide_eq_true. done. Qed.

Lemma not_later (at_ : Instant) (o : option Instant) :
  past at_ o = true → later_than at_ o = None.
Proof.
  unfold past, later_than. destruct o as [x|]; [|done]. intros Hx%Z.leb_le.
  destruct (Z.ltb_spec at_ x); [lia|done].
Qed.

Lemma marked_failed t at_ :
  is_one_shot t = true → due t at_ = true →
  marked t at_ FailedRetryable =
  set_next (set_ran t at_ (u32_saturating_add (dispatch_attempts t) 1)) None.
Proof.
  intros [_ Hc]%is_one_shot_true Hdue. unfold due in Hdue.
  apply andb_true_iff in Hdue as [[Hl Hn]%andb_true_iff He]. unfold marked. unfold past in Hl.
  rewrite Hl. unfold next_execution_for_task, one_shot_attempt_at. simpl. rewrite Hc, !not_later by done.
  by destruct (sched_enabled t).
Qed.

(** One scheduled attempt that fails. *)
Lemma failed_attempt v id t dispatch e clk fresh :
  job_metadata v !! id = Some t → is_one_shot t = true → dispatch t = Err e →
  next_window_opening (clk 0%nat) v = None → due t (clk 1%nat) = true → clk 1%nat <= clk 4%nat →
  let v' := (dispatch_with_guard show_time dispatch clk fresh id v).2 in
  let attempts := u32_saturating_add (dispatch_attempts t) 1 in
  ∃ t', job_metadata v' !! id = Some t' ∧ is_one_shot t' = true ∧
    dispatch_attempts t' = attempts ∧
    if attempts <=? MAX_DISPATCH_RETRIES
    then next_execution t' = Some (clk 1%nat + retry_delay_for attempts) ∧
         spawned v' = spawned v ++ [t']
    else next_execution t' = None ∧ spawned v' = spawned v.
Proof.
  intros Ht Hone Hd Hw Hdue Hclk v' attempts. unfold v'.
  unfold dispatch_with_guard, dispatch_with_guard_from. rewrite Ht, Hw.
  unfold dispatch_now. rewrite Hd, Hone. cbn [bool_decide].
  rewrite bool_decide_eq_true_2 by done. cbn [andb].
  unfold mark_execution_started. rewrite Ht, marked_failed by done. cbn [dispatch_attempts set_updated
    set_next set_ran]. fold attempts.
  set (t1 := set_updated (set_next (set_ran t (clk 1%nat) attempts) None) (clk 2%nat)).
  apply is_one_shot_true in Hone as [[x Hx] Hc].
  destruct (attempts <=? MAX_DISPATCH_RETRIES) eqn:E; simpl.
  - unfold rearm_one_shot_at. simpl. rewrite lookup_insert_eq. simpl. rewrite Hc, Hx.
    unfold one_shot_attempt_at. simpl. rewrite Hx, not_later.
    2: { unfold due in Hdue. rewrite Hx in Hdue. unfold past in *. bool_hyps.
         apply Z.leb_le. lia. }
    simpl. eexists. rewrite lookup_insert_eq. split; [done|]. split; [|done].
    apply is_one_shot_true. simpl. by rewrite Hx.
  - exists t1. simpl. rewrite lookup_insert_eq. split; [done|]. split; [|done].
    apply is_one_shot_true. simpl. by rewrite Hx.
Qed.

(** Scheduled attempts one after the other, each at its clock, none of them accepted. *)
Fixpoint attempts_run (dispatch : ScheduleDispatcher) (id : Uuid)
    (fires : list ((nat → Instant) * Uuid)) (v : service) : service :=
  match fires with
  | [] => v
  | (clk, fresh) :: rest =>
      attempts_run dispatch id rest (dispatch_with_guard show_time dispatch clk fresh id v).2
  end.

(** Each attempt falls due, inside the window, and the clock does not run backwards. *)
Fixpoint attempts_due (dispatch : ScheduleDispatcher) (id : Uuid)
    (fires : list ((nat → Instant) * Uuid)) (v : service) : bool :=
  match fires with
  | [] => true
  | (clk, fresh) :: rest =>
      match job_metadata v !! id with Some t => due t (clk 1%nat) | None => false end &&
      bool_decide (next_window_opening (clk 0%nat) v = None) && (clk 1%nat <=? clk 4%nat) &&
      attempts_due dispatch id rest (dispatch_with_guard show_time dispatch clk fresh id v).2
  end.

Lemma attempts_run_spec dispatch id fires v t :
  (∀ t, ∃ e, dispatch t = Err e) → attempts_due dispatch id fires v = true →
  job_metadata v !! id = Some t → is_one_shot t = true → 0 <= dispatch_attempts t →
  dispatch_attempts t + Z.of_nat (length fires) <= u32_max →
  let v' := attempts_run dispatch id fires v in
  ∃ t', job_metadata v' !! id = Some t' ∧
    dispatch_attempts t' = dispatch_attempts t + Z.of_nat (length fires) ∧
    Z.of_nat (length (spawned v')) =
      Z.of_nat (length (spawned v)) +
      Z.max 0 (Z.min (dispatch_attempts t + Z.of_nat (length fires)) MAX_DISPATCH_RETRIES
               - dispatch_attempts t) ∧
    (fires ≠ [] → MAX_DISPATCH_RETRIES < dispatch_attempts t' → next_execution t' = None).
Proof.
  intros Hfail. revert v t. induction fires as [|[clk fresh] rest IH]; intros v t Hdue Ht Hone Ha Hmax.
  { exists t. simpl. split_and!; [done|lia|lia|done]. }
  cbn [attempts_due attempts_run length] in *. rewrite Ht in Hdue.
  apply andb_true_iff in Hdue as [[[Hd Hw%bool_decide_eq_true]%andb_true_iff Hclk%Z.leb_le]%andb_true_iff Hrest].
  destruct (Hfail t) as [e He].
  destruct (failed_attempt v id t dispatch e clk fresh Ht Hone He Hw Hd Hclk)
    as (t1 & Ht1 & Hone1 & Ha1 & Hsp).
  assert (u32_saturating_add (dispatch_attempts t) 1 = dispatch_attempts t + 1) as Hsat.
  { unfold u32_saturating_add. lia. }
  rewrite Hsat in *.
  destruct (IH _ t1 Hrest Ht1 Hone1) as (t' & Ht' & Ha' & Hlen & Hnext); [lia|lia|].
  exists t'. split; [done|]. split; [lia|]. split.
  - rewrite Hlen, Ha1. destruct (Z.leb_spec (dispatch_attempts t + 1) MAX_DISPATCH_RETRIES);
      destruct Hsp as [_ ->]; rewrite ?length_app; simpl; lia.
  - intros _ Hgt. destruct rest as [|f rest]; [|by apply Hnext]. cbn [attempts_run] in Ht'.
    rewrite Ht1 in Ht'. injection Ht' as <-. rewrite Ha1 in Hgt.
    destruct (Z.leb_spec (dispatch_attempts t + 1) MAX_DISPATCH_RETRIES); [lia|]. by destruct Hsp.
Qed.

Lemma retry_delay_bounds a : seconds 60 <= retry_delay_for a <= seconds 900.
Proof.
  unfold retry_delay_for, seconds, u64_saturating_mul, DISPATCH_RETRY_BASE_SECS,
    DISPATCH_RETRY_MAX_SECS, saturating_sub. cbv zeta.
  destruct (Z.ltb_spec (Z.max (a - 1) 0) 64) as [Hlt|Hge].
  - assert (1 <= 2 ^ Z.max (a - 1) 0) as Hlo by (pose proof (Z.pow_pos_nonneg 2 (Z.max (a - 1) 0)); lia).
    assert (2 ^ Z.max (a - 1) 0 < 2 ^ 64) as Hhi by (apply Z.pow_lt_mono_r; lia).
    rewrite Z.mod_small by lia. unfold u64_max. lia.
  - unfold u64_max. lia.
Qed.
End Retries.
