(* ===== verification/SchedulerProps.v ===== *)
(** * Properties of the scheduler service

    Histories of the service of Scheduler.v over any schedule store, what they keep
    true, and concrete runs over sample parameters: a runtime scheduler that keeps its
    jobs in a map, a cron that fires every minute, UTC. *)

From Stdlib Require Import String.
From S2P Require Import Prelude RustStr Task NightWindow ScheduleStore Scheduler.

(** ** Histories *)

Section Histories.
Context {Tz : Type} `{TimeZones Tz} {S : Type} `{ScheduleStore S} {J : Type} `{JobScheduler J}
  `{Croner} (show_time : Instant → string).
Notation service := (SchedulerService Tz S J).

Inductive sched_op : Type :=
| OpAddCron (clk : nat → Instant) (t : ScheduledTask)
| OpAddOneShot (clk : nat → Instant) (t : ScheduledTask)
| OpRemove (id : Uuid)
| OpEnable (clk : nat → Instant) (id : Uuid) (enabled : bool)
| OpTrigger (dispatch : ScheduleDispatcher) (clk : nat → Instant) (fresh id : Uuid)
| OpCronFired (lock : LockProvider) (dispatch : ScheduleDispatcher) (clk : nat → Instant)
    (fresh id : Uuid)
| OpOneShotFired (lock : LockProvider) (dispatch : ScheduleDispatcher) (clk : nat → Instant)
    (fresh id : Uuid)
| OpSpawned (now : Instant) (n : nat)
| OpStart (new_runtime : result J string) (now : Instant) (clk clk' : nat → Instant)
    (fresh : nat → Uuid)
| OpStop
| OpSetWindow (config : NightWindowConfig)
| OpClearWindow.

Definition sched_step (v : service) (op : sched_op) : service :=
  match op with
  | OpAddCron clk t => (add_cron_job clk t v).2
  | OpAddOneShot clk t => (add_one_shot_job clk t v).2
  | OpRemove id => (remove_job id v).2
  | OpEnable clk id enabled => (set_job_enabled clk id enabled v).2
  | OpTrigger dispatch clk fresh id =>
      (dispatch_with_guard_from show_time dispatch clk fresh id Manual v).2
  | OpCronFired lock dispatch clk fresh id => cron_fired show_time lock dispatch clk fresh id v
  | OpOneShotFired lock dispatch clk fresh id =>
      one_shot_fired show_time lock dispatch clk fresh id v
  | OpSpawned now n => run_spawned now n v
  | OpStart new_runtime now clk clk' fresh => (start show_time new_runtime now clk clk' fresh v).2
  | OpStop => (stop v).2
  | OpSetWindow config => (set_night_window config v).2
  | OpClearWindow => clear_night_window v
  end.

Definition sched_run (v : service) (ops : list sched_op) : service := foldl sched_step v ops.
End Histories.

Section Persisted.
Context {Tz : Type} `{TimeZones Tz} {S : Type} `{ScheduleStoreOk S} {J : Type} `{JobScheduler J}
  `{Croner} (show_time : Instant → string).

Lemma registry_step (v : SchedulerService Tz S J) op :
  registry_ok v → registry_ok (sched_step show_time v op).
Proof.
  intros Hv. destruct op; simpl.
  - unfold add_cron_job. repeat case_match; try done; by apply registry_add.
  - unfold add_one_shot_job. repeat case_match; try done; by apply registry_add.
  - by apply registry_remove.
  - by apply registry_enable.
  - by apply registry_dispatch.
  - unfold cron_fired. case_match; [by apply registry_dispatch|done].
  - unfold one_shot_fired, cron_fired. case_match; [apply registry_dispatch|]; by apply registry_runtime.
  - by apply registry_spawned.
  - by apply registry_start.
  - unfold stop. repeat case_match; try done; by apply (registry_same v).
  - unfold set_night_window. repeat case_match; try done; by apply (registry_same v).
  - by apply (registry_same v).
Qed.

Lemma registry_run (v : SchedulerService Tz S J) ops :
  registry_ok v → registry_ok (sched_run show_time v ops).
Proof.
  revert v. induction ops as [|op ops IH]; intros v Hv; [done|]. by apply IH, registry_step.
Qed.

(** With a store that answers, and operations, callbacks and restarts that run one after
    another, every job the service shows is the record a restart would load, as the store
    keeps it: times to the microsecond and attempts within the column ([normalise]). *)
Theorem registry_is_persisted (s : S) (ops : list (sched_op (J := J))) id t :
  schedule_wf s → schedule_up s →
  let v := sched_run (Tz := Tz) show_time (with_store s) ops in
  get_job id v = Some t →
  sched_id t = id ∧ tasks_of (sched_store v) !! id = Some (normalise t) ∧
  ∀ o, load_task (sched_store v) id = Ok o → o = Some (normalise t).
Proof.
  intros Hwf Hup v Ht. assert (registry_ok v) as (Hwf' & _ & Hm).
  { apply registry_run. split; [done|]. split; [done|]. intros id' u. simpl. by rewrite lookup_empty. }
  destruct (Hm id t Ht) as [Hid Hs]. split; [done|]. split; [done|].
  intros o Ho. by rewrite (load_task_ok _ _ _ Hwf' Ho).
Qed.
End Persisted.

(** ** Sample parameters *)

Record sample_runtime : Type := mkRuntime { rt_jobs : gmap Uuid runtime_job; rt_next : Z }.
Definition runtime_new : sample_runtime := mkRuntime ∅ 0.

#[export] Instance sample_JobScheduler : JobScheduler sample_runtime := {|
  js_create := λ _, None;
  js_add := λ js job,
    let id := ("job-" +:+ pretty (rt_next js))%string in
    (Ok id, mkRuntime (<[id := job]> (rt_jobs js)) (rt_next js + 1));
  js_remove := λ js id, (Ok tt, mkRuntime (delete id (rt_jobs js)) (rt_next js));
  js_start := λ js, Ok js;
  js_shutdown := λ _, Ok tt
|}.

#[export] Instance sample_Croner : Croner := {|
  cron_parse := λ _, None;
  cron_find_next := λ _ after, Ok ((after `div` seconds 60 + 1) * seconds 60)
|}.

Definition show (t : Instant) : string := pretty t.
Definition at_time (t : Instant) (n : nat) : Instant := t.
Definition no_worker : ScheduleDispatcher := λ _, Err (WorkerUnavailable "none").

Notation demo_service := (SchedulerService sample_zone InMemoryScheduleStore sample_runtime).
Notation demo_op := (sched_op (J := sample_runtime)).

Notation demo_run ops :=
  (sched_run (Tz := sample_zone) (J := sample_runtime) show (with_store InMemoryScheduleStore_new) ops).

(** A one-shot due at 100 s, added at time 0 to a running service. *)
Definition demo_job : ScheduledTask := ScheduledTask_one_shot "j" 0 "d" "p" (seconds 100) 0 0 "UTC".
Definition demo_setup : list demo_op :=
  [OpStart (Ok runtime_new) 0 (at_time 0) (at_time 0) (λ n, pretty n); OpAddOneShot (at_time 0) demo_job].
Definition demo_fired : list demo_op :=
  demo_setup ++ [OpOneShotFired NoOpLockProvider no_worker (at_time (seconds 100)) "x1" "j"].

Lemma registry_is_persisted_witness :
  match get_job "j" (demo_run demo_fired) with
  | Some t =>
      dispatch_attempts t = 1 ∧ next_execution t = Some (seconds 160) ∧
      tasks_of (sched_store (demo_run demo_fired)) !! "j"%string = Some t
  | None => False
  end.
Proof.
  assert (schedule_wf InMemoryScheduleStore_new) as Hwf by constructor.
  pose proof (λ t, registry_is_persisted (Tz := sample_zone) show InMemoryScheduleStore_new demo_fired
                     "j" t Hwf I) as H.
  cbv zeta in H.
  destruct (get_job "j" (demo_run demo_fired)) as [t|] eqn:E; [|vm_compute in E; done].
  destruct (H t eq_refl) as (_ & Hs & _).
  split_and!; [| |exact Hs]; vm_compute in E; injection E as <-; reflexivity.
Defined.

(** ** A callback that overtakes a pause *)

(** The part of [mark_execution_started] under the registry's lock: the record it leaves and
    will write to the store once the lock is released. *)
Definition mark_in_memory (now : Instant) (id : Uuid) (at_ : Instant) (outcome : DispatchOutcome)
    (v : demo_service) : option ScheduledTask * demo_service :=
  match job_metadata v !! id with
  | None => (None, v)
  | Some t =>
      let t := set_updated (marked t at_ outcome) now in
      (Some t, set_metadata (<[id := t]> (job_metadata v)) v)
  end.

Lemma mark_in_two_steps now id at_ outcome v :
  mark_execution_started now id at_ outcome v =
    match mark_in_memory now id at_ outcome v with
    | (Some t, v') => (dispatch_attempts t, try_update t v')
    | (None, v') => (0, v')
    end.
Proof. unfold mark_execution_started, mark_in_memory. by destruct (job_metadata v !! id). Qed.

(** A callback has left the lock and not yet written; the job is paused meanwhile. *)
Definition mark_begun := mark_in_memory (seconds 100) "j" (seconds 100) FailedRetryable (demo_run demo_setup).
Definition paused_meanwhile := set_job_enabled (at_time (seconds 101)) "j" false mark_begun.2.
Definition mark_finished : demo_service :=
  match mark_begun.1 with Some t => try_update t paused_meanwhile.2 | None => paused_meanwhile.2 end.

(** The pause is acknowledged and shown; the store has the job enabled, so a restart runs it. *)
Lemma callback_overwrites_pause :
  (∃ t, paused_meanwhile.1 = Ok t ∧ sched_enabled t = false) ∧
  sched_enabled <$> get_job "j" mark_finished = Some false ∧
  sched_enabled <$> (tasks_of (sched_store mark_finished) !! "j"%string) = Some true.
Proof. split_and!; [eexists; split; by vm_compute|by vm_compute..]. Qed.

(** ** Retries *)

(** A one-shot nobody accepts is retried a bounded number of times: after [n] due
    attempts it has been re-armed [min n 3] times, its counter is [n], and from the
    fourth failure on nothing is owed any more; each backoff is between one and fifteen
    minutes. *)
Theorem one_shot_retries_bounded {Tz S J} `{TimeZones Tz, ScheduleStore S, JobScheduler J, Croner}
    show_time dispatch id fires (v : SchedulerService Tz S J) t :
  (∀ t, ∃ e, dispatch t = Err e) → attempts_due show_time dispatch id fires v = true →
  job_metadata v !! id = Some t → is_one_shot t = true → dispatch_attempts t = 0 →
  Z.of_nat (length fires) <= u32_max →
  let v' := attempts_run show_time dispatch id fires v in
  ∃ t', job_metadata v' !! id = Some t' ∧ dispatch_attempts t' = Z.of_nat (length fires) ∧
    Z.of_nat (length (spawned v')) =
      Z.of_nat (length (spawned v)) + Z.min (Z.of_nat (length fires)) MAX_DISPATCH_RETRIES ∧
    (MAX_DISPATCH_RETRIES < Z.of_nat (length fires) → next_execution t' = None) ∧
    ∀ a, seconds 60 <= retry_delay_for a <= seconds 900.
Proof.
  intros Hfail Hdue Ht Hone Ha Hmax.
  destruct (attempts_run_spec show_time dispatch id fires v t Hfail Hdue Ht Hone)
    as (t' & Ht' & Ha' & Hlen & Hnext); [lia|lia|].
  exists t'. rewrite Ha in *. split; [done|]. split; [lia|]. split; [unfold MAX_DISPATCH_RETRIES in *; lia|].
  split; [|apply retry_delay_bounds]. intros Hgt. apply Hnext; [|lia].
  intros ->. unfold MAX_DISPATCH_RETRIES in Hgt. simpl in Hgt. lia.
Qed.

Definition retry_clocks : list ((nat → Instant) * Uuid) :=
  [(at_time (seconds 100), "a"); (at_time (seconds 160), "b"); (at_time (seconds 280), "c");
   (at_time (seconds 520), "d")]%string.

Lemma one_shot_retries_bounded_witness :
  ∃ t, job_metadata (attempts_run show no_worker "j" retry_clocks (demo_run demo_setup)) !! "j"%string
         = Some t ∧ next_execution t = None ∧ dispatch_attempts t = 4.
Proof.
  assert (attempts_due show no_worker "j" retry_clocks (demo_run demo_setup) = true) as Hdue.
  { vm_compute. reflexivity. }
  assert (∃ t0, job_metadata (demo_run demo_setup) !! "j"%string = Some t0 ∧ is_one_shot t0 = true ∧
                dispatch_attempts t0 = 0) as (t0 & Ht0 & Hone & Ha).
  { eexists. split; [vm_compute; reflexivity|]. split; reflexivity. }
  destruct (one_shot_retries_bounded show no_worker "j" retry_clocks (demo_run demo_setup) t0
              (λ _, ex_intro _ _ eq_refl) Hdue Ht0 Hone Ha) as (t' & Ht' & Hat & _ & Hnext & _); [done|].
  exists t'. split; [exact Ht'|]. split; [by apply Hnext|exact Hat].
Defined.

(** ** Restored history *)

Lemma history_order_total a b : history_order a b = true ∨ history_order b a = true.
Proof.
  unfold history_order. destruct (Z.ltb_spec (exec_started_at a) (exec_started_at b)); [by left|].
  destruct (Z.ltb_spec (exec_started_at b) (exec_started_at a)); [by right|].
  replace (exec_started_at b) with (exec_started_at a) by lia. rewrite Z.eqb_refl. simpl.
  apply String.leb_total.
Qed.

Lemma history_order_trans a b c :
  history_order a b = true → history_order b c = true → history_order a c = true.
Proof.
  unfold history_order. rewrite !orb_true_iff, !andb_true_iff, !Z.ltb_lt, !Z.eqb_eq.
  intros [?|[? Hs]] [?|[? Hs']]; try (left; lia). right. split; [lia|].
  by apply (string_compare_trans _ (exec_id b)).
Qed.

(** The history a restart restores is sorted by start time, holds at most fifty
    records, all of them from the store, and leaves a stored record of the slices it
    reads out only in favour of fifty that are not older. *)
Theorem recovered_history_bounded {Tz S J} `{TimeZones Tz, ScheduleStore S, JobScheduler J, Croner}
    (tasks : list ScheduledTask) (v : SchedulerService Tz S J) :
  let h := execution_history (recover_execution_history tasks v) in
  let stored := tasks ≫= recovered_of (sched_store v) in
  (length h <= 50)%nat ∧ StronglySorted (λ a b, history_order a b = true) h ∧
  (∀ e, e ∈ h → e ∈ stored) ∧
  (∀ e, e ∈ stored → e ∈ h ∨ length h = 50%nat ∧ ∀ k, k ∈ h → history_order e k = true).
Proof.
  intros h stored. unfold h, recover_execution_history. simpl. fold stored.
  change (Z.to_nat EXECUTION_HISTORY_RECOVERY_LIMIT) with 50%nat.
  set (l := sort_by history_order stored). set (n := (length l - 50)%nat).
  assert (StronglySorted (λ a b, history_order a b = true) l) as Hs.
  { apply Sorted_StronglySorted; [intros a b c; apply history_order_trans|].
    apply sort_by_Sorted, history_order_total. }
  split; [rewrite length_drop; lia|]. rewrite <-(take_drop n l) in Hs. split.
  { clear -Hs. induction (take n l) as [|x k IH]; [done|]. inversion Hs; auto. }
  split.
  - intros e He. apply (sort_by_elem history_order). fold l. rewrite <-(take_drop n l). apply elem_of_app. by right.
  - intros e He. apply (sort_by_elem history_order) in He. fold l in He.
    rewrite <-(take_drop n l) in He. apply elem_of_app in He as [He|He]; [|by left]. right. split.
    + rewrite length_drop. enough (n ≠ 0%nat) by lia. intros E. rewrite E, take_0 in He.
      by apply elem_of_nil in He.
    + intros k Hk. clear -Hs He Hk. induction (take n l) as [|x r IH]; [by apply elem_of_nil in He|].
      inversion Hs as [|?? Hs' Hall]; subst. apply elem_of_cons in He as [->|He]; [|by apply IH].
      rewrite Forall_forall in Hall. apply Hall, elem_of_app. by right.
Qed.

(** ** Missed one-shots *)

Lemma later_than_mono a b o : a <= b → later_than a o = None → later_than b o = None.
Proof.
  intros Hab. unfold later_than. destruct o as [x|]; [|done].
  destruct (Z.ltb_spec a x), (Z.ltb_spec b x); try done. lia.
Qed.

Lemma no_attempt_later t a b :
  a <= b → one_shot_attempt_at t a = None → one_shot_attempt_at t b = None.
Proof.
  intros Hab. unfold one_shot_attempt_at.
  destruct (later_than a (next_execution t)) eqn:E1; [done|]. intros E2.
  by rewrite (later_than_mono a b _ Hab E1), (later_than_mono a b _ Hab E2).
Qed.

(** Over the in-memory store a missed one-shot is recorded at most once: a later
    restart finds the record and adds nothing. *)
Theorem missed_recorded_once {Tz J} `{TimeZones Tz, JobScheduler J, Croner} show_time
    (v : SchedulerService Tz InMemoryScheduleStore J) t after now now' fresh fresh' :
  execute_after t = Some after → cron_expression t = None →
  one_shot_attempt_at t now = None → now <= now' →
  let v' := record_missed_one_shot show_time now fresh t v in
  record_missed_one_shot show_time now' fresh' t v' = v'.
Proof.
  intros He Hc Hno Hle. pose proof (no_attempt_later t now now' Hle Hno) as Hno'.
  unfold record_missed_one_shot. rewrite He, Hc, Hno, Hno'. cbv zeta.
  destruct (match last_execution t with Some _ => _ | None => _ end) eqn:El; [done|].
  cbn [list_executions InMemory_ScheduleStore]. unfold mem_list_executions at 2.
  set (latest := take _ (rev (of_task (sched_id t) (mem_executions (sched_store v))))).
  destruct (existsb _ latest) eqn:Ex.
  - unfold mem_list_executions. fold latest. by rewrite Ex.
  - unfold mem_list_executions. simpl. unfold of_task. rewrite filterb_app, rev_app_distr.
    unfold filterb at 1. simpl. rewrite bool_decide_eq_true_2 by done. simpl.
    by rewrite Z.leb_refl.
Qed.

Lemma missed_recorded_once_witness :
  let v := with_store (Tz := sample_zone) (J := sample_runtime) InMemoryScheduleStore_new in
  let v' := record_missed_one_shot show (seconds 200) "a" demo_job v in
  length (mem_executions (sched_store v')) = 1%nat ∧
  record_missed_one_shot show (seconds 300) "b" demo_job v' = v'.
Proof.
  split; [reflexivity|].
  apply (missed_recorded_once show _ demo_job (seconds 100)); reflexivity || (vm_compute; congruence).
Defined.

(** A database that holds a one-shot due at 100 s and deferred at 150 s to 200 s, and
    the service restarted on it. *)
Definition deferred_job : ScheduledTask := set_next demo_job (Some (seconds 200)).
Definition deferred_row : ExecutionHistory :=
  ExecutionHistory_deferred "d1" (seconds 150) "j" "outside the window".

Definition deferred_db : PostgresScheduleStore :=
  mkPgSchedule [@row_of_task micros_driver deferred_job] [@row_of_execution micros_driver deferred_row]
    true.

#[local] Existing Instance micros_driver.

Definition restart (now : Instant) (fresh : Uuid) (db : PostgresScheduleStore) : PostgresScheduleStore :=
  sched_store (start (Tz := sample_zone) (J := sample_runtime) show (Ok runtime_new) now (at_time now)
                 (at_time now) (λ _, fresh) (with_store db)).2.

(** Over the database the record of a miss does not stop the next restart from
    writing another one when the run had been deferred before: the newest row by start
    time is still the deferral. *)
Theorem missed_recorded_again :
  let skipped db := filterb (λ r, bool_decide (row_status r = "Skipped"%string)) (pg_executions db) in
  let once := restart (seconds 300) "m1" deferred_db in
  let twice := restart (seconds 400) "m2" once in
  let thrice := restart (seconds 500) "m3" twice in
  length (skipped once) = 1%nat ∧ length (skipped twice) = 2%nat ∧ length (skipped thrice) = 3%nat ∧
  row_started_at <$> skipped thrice = [seconds 100; seconds 100; seconds 100].
Proof. vm_compute. repeat split. Qed.

(** ** Pausing *)

(** The job fires, no worker takes it, the retry's registration is spawned; the
    operator pauses the job; then the registration runs. *)
Definition paused_history : list demo_op :=
  demo_fired ++ [OpEnable (at_time (seconds 110)) "j" false; OpSpawned (seconds 120) 0].

(** A paused one-shot can still fire: the registration of a retry that was spawned
    before the pause runs after it without looking at the job again, and the callback
    dispatches a paused job. *)
Theorem paused_job_fires :
  let v := demo_run paused_history in
  let v' := one_shot_fired show NoOpLockProvider LoggingDispatcher (at_time (seconds 160)) "x2" "j" v in
  (∃ t, get_job "j" v = Some t ∧ sched_enabled t = false ∧ next_execution t = None) ∧
  scheduler_job_ids v !! "j"%string = Some "job-1"%string ∧
  (exec_status <$> last (execution_history v')) = Some ExecCompleted.
Proof. vm_compute. split; [eexists; repeat split|]. repeat split. Qed.

(** ** Manual triggers *)

(** A manual trigger that fails, or that the window refuses, leaves the plan alone:
    the owed run, the retry budget and the queue of registrations are as before. *)
Theorem manual_trigger_keeps_plan {Tz S J} `{TimeZones Tz, ScheduleStore S, JobScheduler J, Croner}
    show_time dispatch clk fresh id (v : SchedulerService Tz S J) t next e :
  get_job id v = Some t → is_one_shot t = true → sched_enabled t = true →
  next_execution t = Some next → clk 1%nat < next → dispatch t = Err e →
  let '(r, v') := dispatch_with_guard_from show_time dispatch clk fresh id Manual v in
  (∃ e', r = Err e') ∧ spawned v' = spawned v ∧
  ∃ t', get_job id v' = Some t' ∧ next_execution t' = Some next ∧
    dispatch_attempts t' = dispatch_attempts t ∧ sched_enabled t' = true.
Proof.
  intros Ht Hone Hen Hnext Hlt Hd. unfold dispatch_with_guard_from, get_job in *. rewrite Ht.
  destruct (next_window_opening _ v); simpl.
  - split; [by eexists|]. split; [done|]. by exists t.
  - unfold dispatch_now. rewrite Hd, Hone. rewrite bool_decide_eq_false_2 by done. simpl.
    unfold mark_execution_started. rewrite Ht. simpl. split; [by eexists|]. split; [done|].
    eexists. rewrite lookup_insert_eq. split; [done|].
    apply is_one_shot_true in Hone as [_ Hc]. unfold marked.
    destruct (match last_execution t with Some _ => _ | None => _ end); [|done].
    unfold next_execution_for_task. simpl. rewrite Hc, Hen. unfold one_shot_attempt_at. simpl.
    unfold later_than. rewrite Hnext. by destruct (Z.ltb_spec (clk 1%nat) next); [|lia].
Qed.

Lemma manual_trigger_keeps_plan_witness :
  let '(r, v') := dispatch_with_guard_from show no_worker (at_time (seconds 10)) "x" "j" Manual
                    (demo_run demo_setup) in
  ∃ t', get_job "j" v' = Some t' ∧ next_execution t' = Some (seconds 100).
Proof.
  assert (∃ t, get_job "j" (demo_run demo_setup) = Some t ∧ is_one_shot t = true ∧
               sched_enabled t = true ∧ next_execution t = Some (seconds 100)) as (t & Ht & H1 & H2 & H3).
  { eexists. split; [vm_compute; reflexivity|]. repeat split. }
  pose proof (manual_trigger_keeps_plan show no_worker (at_time (seconds 10)) "x" "j"
    (demo_run demo_setup) t (seconds 100) (WorkerUnavailable "none") Ht H1 H2 H3 eq_refl eq_refl) as H.
  destruct (dispatch_with_guard_from _ _ _ _ _ _ _) as [r v'].
  destruct H as (_ & _ & t' & Ht' & Hn & _). by exists t'.
Defined.
