(* ===== verification/Envelope.v ===== *)
(** * Execution envelopes

    [uc-types/src/envelope.rs]: the identity that rides on every dispatch, its
    idempotency key, and the dependency context packed under a byte budget.  The length
    of a block's JSON encoding is serde's, a parameter. *)

From Stdlib Require Import String Ascii.
From S2P Require Import Prelude RustStr.

Definition CONTRACT_VERSION : string := "v1".
Definition IDEMPOTENCY_KEY_LEN : nat := 32.
Definition CONTEXT_BLOCK_MAX_BYTES : Z := 8 * 1024.

Record ContextEntry : Type := mkEntry {
  entry_node_id : string;
  entry_success : bool;
  entry_summary : string
}.

Record ContextBlock : Type := mkBlock {
  block_entries : list ContextEntry;
  block_truncated : bool
}.

Record ExecutionEnvelope : Type := mkEnvelope {
  env_graph_id : string;
  env_node_id : string;
  env_attempt_id : string;
  env_idempotency_key : string;
  env_worker_epoch : string;
  env_contract_version : string;
  env_context_block : option ContextBlock
}.

(** [serde_json::to_vec(&block)] and its length; [None] is an encoding error. *)
Class BlockJson := { encoded_len : ContextBlock → option Z }.

(** What the packing relies on: [true] is not longer than [false] in JSON, and the empty
    block is small. *)
Class BlockJsonOk `{BlockJson} : Prop := {
  encoded_len_truncated : ∀ es n, encoded_len (mkBlock es false) = Some n →
    ∃ m, encoded_len (mkBlock es true) = Some m ∧ m <= n;
  encoded_len_nil : ∃ m, encoded_len (mkBlock [] false) = Some m ∧ m <= CONTEXT_BLOCK_MAX_BYTES
}.

Section Compose.
Context `{BlockJson}.

Definition context_leb (a b : ContextEntry) : bool := String.leb (entry_node_id a) (entry_node_id b).

(** [unwrap_or(usize::MAX)]. *)
Definition probe_size (entries : list ContextEntry) : Z :=
  default u64_max (encoded_len (mkBlock entries false)).

(** The packing loop: the first entry that overflows ends it. *)
Fixpoint pack_entries (packed entries : list ContextEntry) : ContextBlock :=
  match entries with
  | [] => mkBlock packed false
  | entry :: rest =>
      let candidate := packed ++ [entry] in
      if CONTEXT_BLOCK_MAX_BYTES <? probe_size candidate then mkBlock packed true
      else pack_entries candidate rest
  end.

Definition compose (entries : list ContextEntry) : option ContextBlock :=
  match entries with
  | [] => None
  | _ => Some (pack_entries [] (sort_by context_leb entries))
  end.
End Compose.

Section Keys.
Context `{Sha256}.

Definition derive_idempotency_key (graph_id node_id attempt_id : string) : string :=
  prefix_slice IDEMPOTENCY_KEY_LEN (sha256_hex (graph_id +:+ ":" +:+ node_id +:+ ":" +:+ attempt_id)).

Definition ExecutionEnvelope_new (graph_id node_id attempt_id : string) : ExecutionEnvelope :=
  mkEnvelope graph_id node_id attempt_id (derive_idempotency_key graph_id node_id attempt_id) ""
    CONTRACT_VERSION None.

Definition for_dispatch (graph_id node_id : string) (attempt : Z) : ExecutionEnvelope :=
  ExecutionEnvelope_new graph_id node_id (pretty attempt).
End Keys.

(** ** The packed context *)

(** Sorting by a string key with distinct keys does not depend on the order. *)
Lemma sort_by_order_independent {A} (key : A → string) (l l' : list A) :
  NoDup (key <$> l) → l ≡ₚ l' →
  sort_by (λ a b, String.leb (key a) (key b)) l = sort_by (λ a b, String.leb (key a) (key b)) l'.
Proof.
  intros Hnd Hp. set (leb := λ a b : A, String.leb (key a) (key b)).
  assert (∀ a b, leb a b = true ∨ leb b a = true) as Htot by (intros a b; apply String.leb_total).
  assert (∀ k, StronglySorted (λ a b, leb a b = true) (sort_by leb k)) as Hs.
  { intros k. apply Sorted_StronglySorted; [|by apply sort_by_Sorted].
    intros a b c. apply string_compare_trans. }
  apply (StronglySorted_unique_strong (λ a b, leb a b = true)); [|apply Hs|apply Hs|].
  - intros a b Ha Hb Hab Hba. apply sort_by_elem in Ha. apply sort_by_elem in Hb. rewrite <-Hp in Hb.
    assert (key a = key b) as Hk by by apply String.leb_antisym.
    clear -Hnd Ha Hb Hk. apply list_elem_of_lookup in Ha as [i Hi], Hb as [j Hj].
    assert (i = j) as ->; [|congruence].
    eapply NoDup_lookup; [exact Hnd|..]; rewrite list_lookup_fmap; [by rewrite Hi|by rewrite Hj, Hk].
  - by rewrite !sort_by_perm.
Qed.

Section Packed.
Context `{BlockJsonOk}.

Lemma pack_entries_spec packed entries n :
  encoded_len (mkBlock packed false) = Some n → n <= CONTEXT_BLOCK_MAX_BYTES →
  ∃ rest, packed ++ entries = block_entries (pack_entries packed entries) ++ rest ∧
    (block_truncated (pack_entries packed entries) = true ↔ rest ≠ []) ∧
    (∃ m, encoded_len (pack_entries packed entries) = Some m ∧ m <= CONTEXT_BLOCK_MAX_BYTES) ∧
    (∀ e rest', rest = e :: rest' →
       CONTEXT_BLOCK_MAX_BYTES < probe_size (block_entries (pack_entries packed entries) ++ [e])).
Proof.
  revert packed n. induction entries as [|e rest IH]; intros packed n Hn Hle; simpl.
  { exists []. rewrite app_nil_r. split_and!; [done|by split|by eauto|done]. }
  destruct (Z.ltb_spec CONTEXT_BLOCK_MAX_BYTES (probe_size (packed ++ [e]))) as [Hlt|Hge].
  - exists (e :: rest). simpl. split_and!; [done|by split| |].
    + destruct (encoded_len_truncated _ _ Hn) as (m & Hm & Hmn). exists m. split; [done|lia].
    + by intros ? ? [= <- _].
  - unfold probe_size in Hge. destruct (encoded_len (mkBlock (packed ++ [e]) false)) as [m|] eqn:Em.
    + destruct (IH (packed ++ [e]) m Em Hge) as (rest' & Hr & H'). exists rest'.
      split; [by rewrite <-Hr, <-app_assoc|done].
    + exfalso. simpl in Hge. by vm_compute in Hge.
Qed.

(** The composed context.  Only an empty input gives no block; the block holds the
    entries in the order of their node ids from the first on, stops at the first one
    that would exceed the byte budget, says so in [truncated], encodes within the budget,
    and does not depend on the order the outputs were read in. *)
Theorem context_block_packed entries :
  (compose entries = None ↔ entries = []) ∧
  (∀ b, compose entries = Some b →
     ∃ rest, sort_by context_leb entries = block_entries b ++ rest ∧
       (block_truncated b = true ↔ rest ≠ []) ∧
       (∃ m, encoded_len b = Some m ∧ m <= CONTEXT_BLOCK_MAX_BYTES) ∧
       ∀ e rest', rest = e :: rest' → CONTEXT_BLOCK_MAX_BYTES < probe_size (block_entries b ++ [e])) ∧
  (∀ entries', NoDup (entry_node_id <$> entries) → entries ≡ₚ entries' → compose entries' = compose entries).
Proof.
  destruct encoded_len_nil as (n & Hn & Hle). split_and!.
  - by destruct entries.
  - intros b Hb. assert (b = pack_entries [] (sort_by context_leb entries)) as -> by (destruct entries; simplify_eq/=; done).
    by destruct (pack_entries_spec [] (sort_by context_leb entries) n Hn Hle) as (rest & Hr & Hrest); exists rest.
  - intros entries' Hnd Hp. unfold compose.
    pose proof (sort_by_order_independent entry_node_id entries entries' Hnd Hp) as Hsort.
    fold context_leb in Hsort. change (λ a b, String.leb (entry_node_id a) (entry_node_id b)) with context_leb in Hsort.
    rewrite Hsort. destruct entries, entries'; try done; by apply Permutation_length in Hp.
Qed.
End Packed.

(** An encoding of five thousand bytes per entry: the second entry does not fit. *)
Definition sized_json : BlockJson := {|
  encoded_len := λ b, Some (31 + 5000 * Z.of_nat (length (block_entries b)) + if block_truncated b then 0 else 1) |}.

Lemma sized_json_ok : @BlockJsonOk sized_json.
Proof.
  split.
  - intros es n [= <-]. eexists. split; [reflexivity|]. simpl. lia.
  - eexists. split; [reflexivity|]. simpl. unfold CONTEXT_BLOCK_MAX_BYTES. lia.
Qed.

Lemma context_block_packed_witness :
  let entries := [mkEntry "n2" true "late"; mkEntry "n1" true "early"] in
  ∃ b m, @compose sized_json entries = Some b ∧ entry_node_id <$> block_entries b = ["n1"] ∧ block_truncated b = true ∧
    @encoded_len sized_json b = Some m ∧ m <= CONTEXT_BLOCK_MAX_BYTES.
Proof.
  intros entries. destruct (@context_block_packed sized_json sized_json_ok entries) as (_ & Hb & _).
  destruct (Hb _ eq_refl) as (rest & _ & _ & (m & Hm & Hle) & _). eexists _, m. split; [reflexivity|].
  split; [reflexivity|]. split; [reflexivity|]. split; [exact Hm|exact Hle].
Defined.
