(* ===== verification/Graph.v ===== *)
(** * Graph nodes and projections

    The node state machine of [uc-types/src/graph.rs] and the pure half of
    [uc-engine/src/graph_store.rs]: the status vocabulary, the projection of a task
    (Rust or TypeScript shape) into the rows of the graph tables, and the guards on
    node moves.  GraphStore.v holds the tables and the transactions over them. *)

From Stdlib Require Import String Ascii SpecFloat.
From S2P Require Import Prelude RustStr Task.

(** ** JSON values *)

(** [serde_json::Value], for the JSONB columns. *)
Inductive JsonValue : Type :=
| JNull
| JBool (b : bool)
| JInt (z : Z)
| JFloat (f : f64)
| JString (s : string)
| JArray (l : list JsonValue)
| JObject (fields : list (string * JsonValue)).

Definition as_array (v : JsonValue) : option (list JsonValue) :=
  match v with JArray l => Some l | _ => None end.
Definition as_str (v : JsonValue) : option string :=
  match v with JString s => Some s | _ => None end.

(** [v.as_array().map(|a| a.iter().filter_map(as_str)..).unwrap_or_default()]: how the
    [dependencies] column is read. *)
Definition json_strings (v : JsonValue) : list string :=
  match as_array v with Some a => omap as_str a | None => [] end.

Definition json_of_strings (l : list string) : JsonValue := JArray (JString <$> l).
Definition json_opt_str (o : option string) : JsonValue := from_option JString JNull o.

Lemma json_strings_of_strings l : json_strings (json_of_strings l) = l.
Proof.
  unfold json_strings, json_of_strings. simpl. induction l as [|x l IH]; [done|].
  simpl. by f_equal.
Qed.

(** ** The node state machine *)

Inductive NodeStatus : Type :=
| NodeCreated | NodeReady | NodeScheduled | NodeRunning | NodeWaiting | NodeSucceeded
| NodeFailed | NodeCancelled | NodeSkipped.
#[export] Instance NodeStatus_eq_dec : EqDecision NodeStatus.
Proof. solve_decision. Defined.

Definition NodeStatus_as_str (s : NodeStatus) : string :=
  match s with
  | NodeCreated => "CREATED"
  | NodeReady => "READY"
  | NodeScheduled => "SCHEDULED"
  | NodeRunning => "RUNNING"
  | NodeWaiting => "WAITING"
  | NodeSucceeded => "SUCCEEDED"
  | NodeFailed => "FAILED"
  | NodeCancelled => "CANCELLED"
  | NodeSkipped => "SKIPPED"
  end.

Definition NodeStatus_from_token (token : string) : option NodeStatus :=
  if token ==? "CREATED" then Some NodeCreated
  else if token ==? "READY" then Some NodeReady
  else if token ==? "SCHEDULED" then Some NodeScheduled
  else if token ==? "RUNNING" then Some NodeRunning
  else if token ==? "WAITING" then Some NodeWaiting
  else if token ==? "SUCCEEDED" then Some NodeSucceeded
  else if token ==? "FAILED" then Some NodeFailed
  else if token ==? "CANCELLED" then Some NodeCancelled
  else if token ==? "SKIPPED" then Some NodeSkipped
  else None.

Definition NodeStatus_is_terminal (s : NodeStatus) : bool :=
  match s with NodeSucceeded | NodeCancelled | NodeSkipped => true | _ => false end.

Definition NodeStatus_from_str (s : string) : result NodeStatus string :=
  match NodeStatus_from_token s with
  | Some x => Ok x
  | None => Err ("unknown node state token: " +:+ s)
  end.

Definition legal_edges : list (NodeStatus * NodeStatus) :=
  [ (NodeCreated, NodeReady);
    (NodeCreated, NodeCancelled);
    (NodeCreated, NodeSkipped);
    (NodeReady, NodeScheduled);
    (NodeReady, NodeCancelled);
    (NodeReady, NodeSkipped);
    (NodeScheduled, NodeRunning);
    (NodeScheduled, NodeReady);
    (NodeScheduled, NodeCancelled);
    (NodeRunning, NodeWaiting);
    (NodeRunning, NodeSucceeded);
    (NodeRunning, NodeFailed);
    (NodeRunning, NodeReady);
    (NodeRunning, NodeCancelled);
    (NodeWaiting, NodeRunning);
    (NodeWaiting, NodeFailed);
    (NodeFailed, NodeReady) ].

Definition can_transition (from to : NodeStatus) : bool := bool_decide ((from, to) ∈ legal_edges).

(** [transition_ok]: on raw tokens; an unknown token never moves. *)
Definition transition_ok (from to : string) : bool :=
  match NodeStatus_from_token from, NodeStatus_from_token to with
  | Some f, Some t => can_transition f t
  | _, _ => false
  end.

Definition mirror_write_allowed (prev_state mirror_state : string) : bool :=
  (prev_state ==? mirror_state) || transition_ok prev_state mirror_state.

(** ** Status vocabularies *)

(** The loop of [normalize_status_token]; [out] is the text so far, reversed. *)
Fixpoint normalize_loop (raw out : list ascii) : list ascii :=
  match raw with
  | [] => rev out
  | ch :: rest =>
      if is_ascii_uppercase ch then
        let out := match out with [] => [] | _ => "_"%char :: out end in
        normalize_loop rest (char_to_ascii_lowercase ch :: out)
      else if (ch ==? "-"%char) || (ch ==? " "%char) then normalize_loop rest ("_"%char :: out)
      else normalize_loop rest (char_to_ascii_lowercase ch :: out)
  end.
Definition normalize_status_token (raw : string) : string := of_chars (normalize_loop (chars raw) []).

Definition node_state_token (raw : string) : string :=
  let token := normalize_status_token raw in
  if (token ==? "pending") || (token ==? "ready") then "READY"
  else if (token ==? "assigned") || (token ==? "in_progress") || (token ==? "running")
          || (token ==? "reviewing") then "RUNNING"
  else if (token ==? "completed") || (token ==? "succeeded") then "SUCCEEDED"
  else if token ==? "failed" then "FAILED"
  else if token ==? "conflicted" then "FAILED"
  else if (token ==? "cancelled") || (token ==? "canceled") then "CANCELLED"
  else if token ==? "paused" then "PAUSED"
  else to_ascii_uppercase token.

Definition graph_status_token (raw : string) : string :=
  let token := normalize_status_token raw in
  if token ==? "created" then "CREATED"
  else if token ==? "planning" then "PLANNING"
  else node_state_token token.

Definition graph_status_of_task_status (s : TaskStatus) : string :=
  graph_status_token (TaskStatus_debug s).

Definition dependency_aware_state (raw_status : string) (deps : list string)
    (is_satisfied : string → bool) : string :=
  let state := node_state_token raw_status in
  if state !=? "READY" then state
  else if forallb is_satisfied deps then "READY" else "CREATED".

(** Collecting into a [HashMap]: the last subtask with an id wins. *)
Definition subtask_status_index (task : Task) : gmap string SubtaskStatus :=
  foldl (λ m st, <[subtask_id st := subtask_status st]> m) ∅ (tk_subtasks task).

Definition node_status_of_subtask (subtask : Subtask) (statuses : gmap string SubtaskStatus)
    : string :=
  dependency_aware_state (SubtaskStatus_debug (subtask_status subtask)) (depends_on subtask)
    (λ dep, match statuses !! dep with Some s => s ==? SubtaskCompleted | None => false end).

(** ** Rows *)

Definition graph_attempt_id (graph_id node_id : string) (retry_no : Z) : string :=
  graph_id +:+ ":" +:+ node_id +:+ ":" +:+ pretty retry_no.

Record NodeRow : Type := mkNodeRow {
  row_node_id : string;
  row_state : string;
  row_dependencies : JsonValue;
  row_capabilities : JsonValue;
  row_effect_class : string;
  row_node_type : string
}.

Record AttemptRow : Type := mkAttemptRow {
  row_attempt_id : string;
  row_attempt_node : string;
  row_worker_id : option string;
  row_status : string;
  row_retry_no : Z;
  row_started_at : option Instant;
  row_finished_at : option Instant;
  row_result_ref : option string
}.

Record CompletionRow : Type := mkCompletionRow {
  row_completed_node : string;
  row_winning_attempt : string;
  row_completion_ref : option string;
  row_committed_at : option Instant
}.

Record GraphProjection : Type := mkProjection {
  proj_graph_id : string;
  proj_project_id : string;
  proj_status : string;
  proj_created_at : Instant;
  proj_updated_at : Instant;
  proj_nodes : list NodeRow;
  proj_attempts : list AttemptRow;
  proj_completions : list CompletionRow
}.

Definition graph_scope_is_valid (project_id : string) : bool := trim project_id !=? "".

Definition NODE_TYPE_SUBTASK : string := "subtask".
Definition NODE_TYPE_REVIEW : string := "review".
Definition REVIEW_CAPABILITY : string := "review".

Definition requires_independence (required_capabilities : list string) : bool :=
  existsb (λ c, c ==? REVIEW_CAPABILITY) required_capabilities.

Definition node_type_for (required_capabilities : list string) : string :=
  if requires_independence required_capabilities then NODE_TYPE_REVIEW else NODE_TYPE_SUBTASK.

Definition attempt_and_completion (graph_id node_id state : string) (retry_count : Z)
    (worker_id : option string) (started_at finished_at : option Instant)
    : option AttemptRow * option CompletionRow :=
  if (state ==? NodeStatus_as_str NodeReady) || (state ==? NodeStatus_as_str NodeCreated)
  then (None, None)
  else
    let retry_no := Z.min retry_count i32_max in
    let id := graph_attempt_id graph_id node_id retry_no in
    let result_ref := graph_id +:+ "/" +:+ node_id in
    (Some (mkAttemptRow id node_id worker_id state retry_no started_at finished_at
             (Some result_ref)),
     if state ==? "SUCCEEDED" then Some (mkCompletionRow node_id id (Some result_ref) finished_at)
     else None).

(** [attempts.extend(option)] over the subtasks, in order. *)
Definition extend {A} (o : option A) : list A := from_option (λ x, [x]) [] o.

Definition project_node (statuses : gmap string SubtaskStatus) (st : Subtask) : NodeRow :=
  mkNodeRow (subtask_id st) (node_status_of_subtask st statuses) (json_of_strings (depends_on st))
    (json_of_strings (required_capabilities st)) (EffectClass_as_str (effect_class st))
    (node_type_for (required_capabilities st)).

Definition project_attempt (task : Task) (statuses : gmap string SubtaskStatus) (st : Subtask)
    : option AttemptRow * option CompletionRow :=
  let state := node_status_of_subtask st statuses in
  let worker_id :=
    match subtask_result st with
    | Some r => Some (result_worker_id r)
    | None => assigned_worker st
    end in
  let '(started, finished) :=
    match subtask_result st with
    | Some r => (Some (result_completed_at r), Some (result_completed_at r))
    | None => if state ==? "RUNNING" then (Some (tk_updated_at task), None) else (None, None)
    end in
  attempt_and_completion (tk_id task) (subtask_id st) state (retry_count st) worker_id started
    finished.

Definition project_task (task : Task) : GraphProjection :=
  let statuses := subtask_status_index task in
  mkProjection (tk_id task) (tk_project_id task) (graph_status_of_task_status (tk_status task))
    (tk_created_at task) (tk_updated_at task)
    (project_node statuses <$> tk_subtasks task)
    (concat ((λ st, extend (project_attempt task statuses st).1) <$> tk_subtasks task))
    (concat ((λ st, extend (project_attempt task statuses st).2) <$> tk_subtasks task)).

(** ** The TypeScript shape *)

Record TsSubtask : Type := mkTsSubtask {
  ts_id : string;
  ts_status : string;
  ts_depends_on : list string;
  ts_started_at : option Z;
  ts_completed_at : option Z;
  ts_retry_count : option Z;
  ts_required_capabilities : option (list string);
  ts_effect_class : option string
}.

Record TsPersistedTask : Type := mkTsTask {
  tst_id : string;
  tst_status : string;
  tst_project_id : option string;
  tst_saved_at : option Z;
  tst_created_at : option Z;
  tst_subtasks : list TsSubtask
}.

Section TypeScript.
(** [chrono::DateTime::from_timestamp_millis]: [None] outside chrono's calendar. *)
Context (from_timestamp_millis : Z → option Instant).

Definition ms_to_ts (ms : option Z) : option Instant := ms ≫= from_timestamp_millis.

Definition ts_status_index (task : TsPersistedTask) : gmap string string :=
  foldl (λ m st, <[ts_id st := ts_status st]> m) ∅ (tst_subtasks task).

Definition ts_node_state (statuses : gmap string string) (st : TsSubtask) : string :=
  dependency_aware_state (ts_status st) (ts_depends_on st)
    (λ dep, match statuses !! dep with
            | Some raw => node_state_token raw ==? "SUCCEEDED"
            | None => false
            end).

Definition project_ts_node (statuses : gmap string string) (st : TsSubtask) : NodeRow :=
  let capabilities := default [] (ts_required_capabilities st) in
  mkNodeRow (ts_id st) (ts_node_state statuses st) (json_of_strings (ts_depends_on st))
    (json_of_strings capabilities) (default "requires_worker"%string (ts_effect_class st))
    (node_type_for capabilities).

Definition project_ts_attempt (task : TsPersistedTask) (statuses : gmap string string)
    (st : TsSubtask) : option AttemptRow * option CompletionRow :=
  attempt_and_completion (tst_id task) (ts_id st) (ts_node_state statuses st)
    (default 0 (ts_retry_count st)) None (ms_to_ts (ts_started_at st))
    (ms_to_ts (ts_completed_at st)).

Definition project_ts_task (task : TsPersistedTask) : GraphProjection :=
  let created :=
    match ms_to_ts (tst_created_at task) with
    | Some t => t
    | None => default 0 (ms_to_ts (tst_saved_at task))
    end in
  let updated := default created (ms_to_ts (tst_saved_at task)) in
  let statuses := ts_status_index task in
  mkProjection (tst_id task) (default ""%string (tst_project_id task))
    (graph_status_token (tst_status task)) created updated
    (project_ts_node statuses <$> tst_subtasks task)
    (concat ((λ st, extend (project_ts_attempt task statuses st).1) <$> tst_subtasks task))
    (concat ((λ st, extend (project_ts_attempt task statuses st).2) <$> tst_subtasks task)).
End TypeScript.

Definition pick_newer_saved (task_file : TsPersistedTask) (checkpoint : option TsPersistedTask)
    : TsPersistedTask :=
  match checkpoint with
  | Some cp => if default 0 (tst_saved_at task_file) <? default 0 (tst_saved_at cp)
               then cp else task_file
  | None => task_file
  end.

(** ** The state machine and its tokens *)

Lemma from_token_as_str s : NodeStatus_from_token (NodeStatus_as_str s) = Some s.
Proof. by destruct s. Qed.

Lemma from_token_Some t s : NodeStatus_from_token t = Some s ↔ t = NodeStatus_as_str s.
Proof.
  split; [|intros ->; apply from_token_as_str]. unfold NodeStatus_from_token.
  repeat case_bool_decide; intros [= <-]; done.
Qed.

#[export] Instance NodeStatus_as_str_inj : Inj (=) (=) NodeStatus_as_str.
Proof. intros a b H. apply (inj Some). by rewrite <-!from_token_as_str, H. Qed.

Lemma transition_ok_as_str a b :
  transition_ok (NodeStatus_as_str a) (NodeStatus_as_str b) = can_transition a b.
Proof. unfold transition_ok. by rewrite !from_token_as_str. Qed.

Lemma transition_ok_edge from to :
  transition_ok from to = true ↔
  ∃ a b, from = NodeStatus_as_str a ∧ to = NodeStatus_as_str b ∧ can_transition a b = true.
Proof.
  split; [|by intros (a & b & -> & -> & H); rewrite transition_ok_as_str].
  unfold transition_ok. destruct (NodeStatus_from_token from) as [a|] eqn:Ea; [|done].
  destruct (NodeStatus_from_token to) as [b|] eqn:Eb; [|done]. intros H.
  apply from_token_Some in Ea as ->, Eb as ->. by exists a, b.
Qed.

Lemma terminal_has_no_edge s to : NodeStatus_is_terminal s = true → transition_ok (NodeStatus_as_str s) to = false.
Proof.
  intros Hs. destruct (transition_ok _ to) eqn:E; [|done]. exfalso.
  apply transition_ok_edge in E as (a & b & <-%(inj _) & _ & E). by destruct s, b.
Qed.

Lemma transition_into_succeeded from :
  transition_ok from "SUCCEEDED" = true → from = "RUNNING"%string.
Proof.
  intros (a & b & -> & Hb & E)%transition_ok_edge.
  apply (inj NodeStatus_as_str NodeSucceeded) in Hb as <-. by destruct a.
Qed.

(** ** Attempt ids *)

Lemma last_char_split (c : ascii) (a a' b b' : list ascii) :
  c ∉ b → c ∉ b' → a ++ c :: b = a' ++ c :: b' → a = a' ∧ b = b'.
Proof.
  intros Hb Hb' H. apply app_eq_app in H as [l [[-> H]|[-> H]]];
    (destruct l as [|x l]; simplify_eq/=; [by rewrite app_nil_r|]; exfalso); set_solver.
Qed.

Lemma graph_attempt_id_chars g n r :
  chars (graph_attempt_id g n r) = (chars g ++ ":"%char :: chars n) ++ ":"%char :: chars (pretty r).
Proof.
  unfold graph_attempt_id. rewrite !chars_app. change (chars ":") with [":"%char].
  by rewrite <-app_assoc.
Qed.

Lemma pretty_no_colon r : 0 <= r → ":"%char ∉ chars (pretty r).
Proof. intros Hr Hin. by apply pretty_Z_digits in Hin. Qed.

(** [-1] names no attempt. *)
Lemma graph_attempt_id_unknown g n g' n' r :
  0 <= r → graph_attempt_id g n (-1) ≠ graph_attempt_id g' n' r.
Proof.
  intros Hr H. apply (f_equal chars) in H. rewrite !graph_attempt_id_chars in H.
  apply last_char_split in H as [_ H]; [|by vm_compute; set_solver|by apply pretty_no_colon].
  assert ("-"%char ∈ chars (pretty r)) as Hin by (rewrite <-H; left). by apply pretty_Z_digits in Hin.
Qed.

(** Within a graph, attempt ids tell nodes apart. *)
Lemma graph_attempt_id_node g n n' r r' :
  0 <= r → 0 <= r' → graph_attempt_id g n r = graph_attempt_id g n' r' → n = n' ∧ r = r'.
Proof.
  intros Hr Hr' H. apply (f_equal chars) in H. rewrite !graph_attempt_id_chars in H.
  apply last_char_split in H as [H Hp]; [|by apply pretty_no_colon..].
  apply (inj (app (chars g))) in H. injection H as H. apply chars_inj in H, Hp.
  split; [done|by apply (inj pretty)].
Qed.

(** An attempt id names its graph, node and retry when node ids hold no colon. *)
Lemma graph_attempt_id_inj g1 n1 r1 g2 n2 r2 :
  ":"%char ∉ chars n1 → ":"%char ∉ chars n2 → 0 <= r1 → 0 <= r2 →
  graph_attempt_id g1 n1 r1 = graph_attempt_id g2 n2 r2 → g1 = g2 ∧ n1 = n2 ∧ r1 = r2.
Proof.
  intros Hn1 Hn2 Hr1 Hr2 H. apply (f_equal chars) in H. rewrite !graph_attempt_id_chars in H.
  apply last_char_split in H as [H Hr]; [|by apply pretty_no_colon..].
  apply last_char_split in H as [Hg Hn]; [|done..].
  apply chars_inj in Hg, Hn, Hr. split_and!; [done..|]. by apply (inj pretty).
Qed.

(** ** The two projections agree *)

Lemma completed_token s : node_state_token (SubtaskStatus_debug s) = "SUCCEEDED"%string ↔ s = SubtaskCompleted.
Proof. by destruct s; vm_compute. Qed.

Lemma node_status_of_subtask_cases st statuses :
  node_status_of_subtask st statuses =
  match subtask_status st with
  | SubtaskPending =>
      if forallb (λ dep, match statuses !! dep with Some s => s ==? SubtaskCompleted | None => false end)
           (depends_on st) then "READY" else "CREATED"
  | SubtaskAssigned | SubtaskInProgress => "RUNNING"
  | SubtaskCompleted => "SUCCEEDED"
  | SubtaskFailed | SubtaskConflicted => "FAILED"
  end%string.
Proof. unfold node_status_of_subtask. by destruct (subtask_status st). Qed.

(** The TypeScript record of a subtask: any spelling of its status with the same token. *)
Definition same_subtask (st : Subtask) (ts : TsSubtask) : Prop :=
  ts_id ts = subtask_id st ∧
  node_state_token (ts_status ts) = node_state_token (SubtaskStatus_debug (subtask_status st)) ∧
  ts_depends_on ts = depends_on st ∧
  default [] (ts_required_capabilities ts) = required_capabilities st ∧
  default "requires_worker"%string (ts_effect_class ts) = EffectClass_as_str (effect_class st) ∧
  default 0 (ts_retry_count ts) = retry_count st.

Definition same_task (task : Task) (ts : TsPersistedTask) : Prop :=
  tst_id ts = tk_id task ∧ Forall2 same_subtask (tk_subtasks task) (tst_subtasks ts).

Lemma indexes_agree l l' (m : gmap string SubtaskStatus) (m' : gmap string string) dep :
  Forall2 same_subtask l l' →
  option_Forall2 (λ s raw, node_state_token raw = node_state_token (SubtaskStatus_debug s))
    (m !! dep) (m' !! dep) →
  option_Forall2 (λ s raw, node_state_token raw = node_state_token (SubtaskStatus_debug s))
    (foldl (λ m st, <[subtask_id st := subtask_status st]> m) m l !! dep)
    (foldl (λ m st, <[ts_id st := ts_status st]> m) m' l' !! dep).
Proof.
  intros Hl. revert m m'. induction Hl as [|st ts l l' (Hid & Hst & _) _ IH]; intros m m' Hm; [done|].
  simpl. apply IH. rewrite Hid. destruct (decide (subtask_id st = dep)) as [->|Hne].
  - rewrite !lookup_insert_eq. by constructor.
  - by rewrite !lookup_insert_ne.
Qed.

Lemma forallb_pointwise {A} (f g : A → bool) l : (∀ x, f x = g x) → forallb f l = forallb g l.
Proof. intros H. induction l as [|x l IH]; simpl; [done|]. by rewrite H, IH. Qed.

Lemma states_agree task ts st tst :
  same_task task ts → same_subtask st tst →
  ts_node_state (ts_status_index ts) tst = node_status_of_subtask st (subtask_status_index task).
Proof.
  intros [_ Hl] (_ & Hst & Hdeps & _). unfold ts_node_state, node_status_of_subtask, dependency_aware_state.
  rewrite Hst, Hdeps. destruct (_ !=? _); [done|].
  erewrite forallb_pointwise; [done|]. intros dep. simpl.
  pose proof (indexes_agree _ _ ∅ ∅ dep Hl) as H. rewrite !lookup_empty in H.
  specialize (H (None_Forall2 _)). unfold ts_status_index, subtask_status_index.
  destruct H as [s raw H|]; [|done]. rewrite H. apply bool_decide_ext. apply completed_token.
Qed.

(** The identity of an attempt row, without the times and the worker. *)
Definition attempt_identity (a : AttemptRow) : string * string * string * Z :=
  (row_attempt_id a, row_attempt_node a, row_status a, row_retry_no a).
Definition completion_identity (c : CompletionRow) : string * string :=
  (row_completed_node c, row_winning_attempt c).

Lemma attempts_agree task ts st tst ms :
  same_task task ts → same_subtask st tst →
  let r := project_attempt task (subtask_status_index task) st in
  let r' := project_ts_attempt ms ts (ts_status_index ts) tst in
  attempt_identity <$> r'.1 = attempt_identity <$> r.1 ∧
  completion_identity <$> r'.2 = completion_identity <$> r.2.
Proof.
  intros Ht Hs. simpl. unfold project_attempt, project_ts_attempt, attempt_and_completion.
  rewrite (states_agree task ts st tst Ht Hs). destruct Ht as [Hid _].
  destruct Hs as (Hsid & _ & _ & _ & _ & Hretry). rewrite Hid, Hsid, Hretry.
  destruct (subtask_result st); [|destruct (_ ==? "RUNNING"%string)];
    (destruct (_ || _); [done|]; simpl; by destruct (_ ==? "SUCCEEDED"%string)).
Qed.

(** The TypeScript record of a task and the Rust one project to the same graph:
    equal node rows, and attempts and completions with the same ids, states and
    retry numbers. *)
Theorem projections_agree task ts ms :
  same_task task ts →
  let p := project_task task in
  let p' := project_ts_task ms ts in
  proj_graph_id p' = proj_graph_id p ∧ proj_nodes p' = proj_nodes p ∧
  attempt_identity <$> proj_attempts p' = attempt_identity <$> proj_attempts p ∧
  completion_identity <$> proj_completions p' = completion_identity <$> proj_completions p.
Proof.
  intros Ht p p'. assert (Hl := proj2 Ht). subst p p'. simpl. split; [apply Ht|].
  assert (∀ l l', Forall2 same_subtask l l' →
    project_ts_node (ts_status_index ts) <$> l' = project_node (subtask_status_index task) <$> l ∧
    attempt_identity <$> concat ((λ st, extend (project_ts_attempt ms ts (ts_status_index ts) st).1) <$> l')
    = attempt_identity <$> concat ((λ st, extend (project_attempt task (subtask_status_index task) st).1) <$> l) ∧
    completion_identity <$> concat ((λ st, extend (project_ts_attempt ms ts (ts_status_index ts) st).2) <$> l')
    = completion_identity <$> concat ((λ st, extend (project_attempt task (subtask_status_index task) st).2) <$> l))
    as H; [|by apply H].
  intros l l'. induction 1 as [|st tst l l' Hs _ (IH1 & IH2 & IH3)]; [done|].
  destruct (attempts_agree task ts st tst ms Ht Hs) as [Ha Hc].
  assert (∀ {A B} (f : A → B) (o o' : option A), f <$> o' = f <$> o → f <$> extend o' = f <$> extend o)
    as Hext by (intros A B f [?|] [?|]; simpl; congruence).
  rewrite !fmap_cons. cbn [concat]. rewrite !fmap_app, IH2, IH3. split_and!; [|by rewrite (Hext _ _ _ _ _ Ha)|by rewrite (Hext _ _ _ _ _ Hc)].
  f_equal; [|done]. unfold project_ts_node, project_node.
  rewrite (states_agree task ts st tst Ht Hs). destruct Hs as (-> & _ & -> & -> & -> & _). done.
Qed.

(** The hypothesis on a task whose record spells its states the TypeScript way. *)
Lemma projections_agree_witness :
  let st i s deps := mkSubtask i "t" "" s None deps [] "" None Remote RequiresWorker 0 ["review"] None [] 0 in
  let ts i s deps := mkTsSubtask i s deps None None None (Some ["review"]) None in
  let task := mkTask "t" "" "p" TaskInProgress
                [st "a" SubtaskCompleted []; st "b" SubtaskInProgress ["a"]; st "c" SubtaskPending ["b"]] 0 0 in
  let record := mkTsTask "t" "inProgress" (Some "p") None None
                [ts "a" "completed" []; ts "b" "in_progress" ["a"]; ts "c" "pending" ["b"]] in
  same_task task record ∧
  proj_nodes (project_ts_task (λ _, None) record) = proj_nodes (project_task task) ∧
  row_state <$> proj_nodes (project_task task) = ["SUCCEEDED"; "RUNNING"; "CREATED"].
Proof.
  simpl. match goal with |- same_task ?t ?r ∧ _ => assert (same_task t r) as H end.
  { split; [done|]. repeat apply Forall2_cons_2; [..|apply Forall2_nil_2]; by split_and!. }
  split; [done|]. split; [exact (proj1 (proj2 (projections_agree _ _ (λ _, None) H)))|].
  by vm_compute.
Defined.
