(* ===== verification/GraphStore.v ===== *)
(** * The graph store

    [GraphStore] of [uc-engine/src/graph_store.rs]: the six tables of the migration
    with their keys and constraints, and the transactions over them.  A statement is a
    [tx] (it reads and writes the tables, or fails); a verb runs its statements in one
    transaction: an error or a return without [commit] leaves the tables as they were.
    [now] is the [NOW()] of the transaction.  Text is ordered by bytes.  GraphProps.v
    has the theorems. *)

From Stdlib Require Import String Ascii SpecFloat.
From S2P Require Import Prelude RustStr Task Envelope Graph.

(** ** Tables *)

(** [execution_graphs] (its [root_scope] is never written). *)
Record GraphCols : Type := mkGraphCols {
  gr_project_id : string;
  gr_status : string;
  gr_version : Z;
  gr_imported : bool;
  gr_created_at : Instant;
  gr_updated_at : Instant
}.

(** [graph_nodes], keyed by graph and node; the columns no statement writes or reads
    are left out, [optional] is read and keeps its default. *)
Record NodeCols : Type := mkNodeCols {
  nd_type : string;
  nd_state : string;
  nd_dependencies : JsonValue;
  nd_optional : bool;
  nd_effect_class : string;
  nd_capabilities : JsonValue;
  nd_version : Z
}.

(** [task_attempts], keyed by [attempt_id]. *)
Record AttemptCols : Type := mkAttemptCols {
  at_graph_id : string;
  at_node_id : string;
  at_worker_id : option string;
  at_worker_epoch : option Z;
  at_status : string;
  at_retry_no : Z;
  at_started_at : option Instant;
  at_heartbeat_at : option Instant;
  at_finished_at : option Instant;
  at_result_ref : option string
}.

(** [node_completions], keyed by [node_id] alone. *)
Record CompletionCols : Type := mkCompletionCols {
  co_graph_id : string;
  co_winning_attempt_id : string;
  co_result_ref : option string;
  co_committed_at : Instant
}.

Record EventUsage : Type := mkEventUsage {
  ev_cost : option f64;
  ev_tokens : option Z;
  ev_duration_ms : option Z
}.
Definition EventUsage_default : EventUsage := mkEventUsage None None None.

(** [execution_events], in the order of [seq]. *)
Record EventCols : Type := mkEventCols {
  ev_graph_id : string;
  ev_node_id : option string;
  ev_attempt_id : option string;
  ev_graph_version : option Z;
  ev_type : string;
  ev_payload : JsonValue;
  ev_usage : EventUsage;
  ev_created_at : Instant
}.

(** [merge_grants], keyed by [graph_id]. *)
Record GrantCols : Type := mkGrantCols {
  mg_key : string;
  mg_issued_at : Instant;
  mg_consumed_at : option Instant;
  mg_outcome : option JsonValue
}.

Record GraphDb : Type := mkDb {
  db_graphs : gmap string GraphCols;
  db_nodes : gmap (string * string) NodeCols;
  db_attempts : gmap string AttemptCols;
  db_completions : gmap string CompletionCols;
  db_events : list EventCols;
  db_grants : gmap string GrantCols
}.
Definition empty_db : GraphDb := mkDb ∅ ∅ ∅ ∅ [] ∅.

Definition set_graphs (m : gmap string GraphCols) (d : GraphDb) : GraphDb :=
  mkDb m (db_nodes d) (db_attempts d) (db_completions d) (db_events d) (db_grants d).
Definition set_nodes (m : gmap (string * string) NodeCols) (d : GraphDb) : GraphDb :=
  mkDb (db_graphs d) m (db_attempts d) (db_completions d) (db_events d) (db_grants d).
Definition set_attempts (m : gmap string AttemptCols) (d : GraphDb) : GraphDb :=
  mkDb (db_graphs d) (db_nodes d) m (db_completions d) (db_events d) (db_grants d).
Definition set_completions (m : gmap string CompletionCols) (d : GraphDb) : GraphDb :=
  mkDb (db_graphs d) (db_nodes d) (db_attempts d) m (db_events d) (db_grants d).
Definition set_events (l : list EventCols) (d : GraphDb) : GraphDb :=
  mkDb (db_graphs d) (db_nodes d) (db_attempts d) (db_completions d) l (db_grants d).
Definition set_grants (m : gmap string GrantCols) (d : GraphDb) : GraphDb :=
  mkDb (db_graphs d) (db_nodes d) (db_attempts d) (db_completions d) (db_events d) m.

(** ** Transactions *)

Definition tx (A : Type) : Type := GraphDb → result (A * GraphDb) EngineError.

Definition tx_ret {A} (a : A) : tx A := λ d, Ok (a, d).
Definition tx_err {A} (e : EngineError) : tx A := λ _, Err e.
Definition tx_bind {A B} (m : tx A) (k : A → tx B) : tx B :=
  λ d, match m d with Ok (a, d') => k a d' | Err e => Err e end.
Definition tx_read {A} (f : GraphDb → A) : tx A := λ d, Ok (f d, d).
Definition tx_write (f : GraphDb → GraphDb) : tx () := λ d, Ok ((), f d).

(** [let^ x := m in k] is [let x = m.await?; k] inside a transaction. *)
Notation "'let^' x ':=' m 'in' k" := (tx_bind m (λ x, k))
  (at level 200, x pattern, m at level 100, k at level 200) : rust_scope.

(** How a verb leaves its transaction: [tx.commit()], or dropping it. *)
Inductive ending (A : Type) : Type :=
| Commit (a : A)
| Rollback (a : A).
Arguments Commit {A} a.
Arguments Rollback {A} a.

Definition transaction {A} (body : tx (ending A)) (d : GraphDb) : result A EngineError * GraphDb :=
  match body d with
  | Ok (Commit a, d') => (Ok a, d')
  | Ok (Rollback a, _) => (Ok a, d)
  | Err e => (Err e, d)
  end.

(** What PostgreSQL reports when a constraint or an integer range refuses a row. *)
Class PgErrors := {
  unique_violation : string;
  foreign_key_violation : string;
  integer_out_of_range : string
}.

(** Rows of a table in the order of [ORDER BY], [None]s left to the callers. *)
Definition by_key {A} (r s : string * A) : bool := String.leb r.1 s.1.

Section Statements.
Context `{PgErrors}.

(** [x + 1] in SQL, at the width of the column. *)
Definition pg_succ (what : string) (max x : Z) : tx Z :=
  if x <? max then tx_ret (x + 1) else tx_err (StorageError (what +:+ integer_out_of_range)).

Definition node_row (graph_id node_id : string) (d : GraphDb) : option NodeCols :=
  db_nodes d !! (graph_id, node_id).

(** [SELECT state, version FROM graph_nodes .. FOR UPDATE]. *)
Definition select_node (graph_id node_id : string) : tx (option (string * Z)) :=
  tx_read (λ d, (λ n, (nd_state n, nd_version n)) <$> node_row graph_id node_id d).

(** [lock_graph_tx] only takes the row's lock. *)
Definition lock_graph_tx (graph_id : string) : tx () :=
  tx_read (λ d, const () (db_graphs d !! graph_id)).

Definition bump_graph_version_tx (now : Instant) (graph_id : string) : tx Z :=
  let^ row := tx_read (λ d, db_graphs d !! graph_id) in
  match row with
  | None =>
      let^ _ := tx_write (λ d, set_graphs
        (<[graph_id := mkGraphCols "" "RUNNING" 1 false now now]> (db_graphs d)) d) in
      tx_ret 1
  | Some g =>
      let^ version := pg_succ "graph version bump: " i64_max (gr_version g) in
      let^ _ := tx_write (λ d, set_graphs
        (<[graph_id := mkGraphCols (gr_project_id g) (gr_status g) version (gr_imported g)
                         (gr_created_at g) now]> (db_graphs d)) d) in
      tx_ret version
  end.

Definition append_event_with_usage_tx (now : Instant) (graph_id : string) (node_id attempt_id : option string)
    (graph_version : option Z) (event_type : string) (payload : JsonValue)
    (usage : option EventUsage) : tx () :=
  tx_write (λ d, set_events (db_events d ++
    [mkEventCols graph_id node_id attempt_id graph_version event_type payload
       (default EventUsage_default usage) now]) d).

Definition append_event_tx (now : Instant) (graph_id : string) (node_id attempt_id : option string)
    (graph_version : option Z) (event_type : string) (payload : JsonValue) : tx () :=
  append_event_with_usage_tx now graph_id node_id attempt_id graph_version event_type payload None.

Definition set_node_state (state : string) (version : Z) (n : NodeCols) : NodeCols :=
  mkNodeCols (nd_type n) state (nd_dependencies n) (nd_optional n) (nd_effect_class n)
    (nd_capabilities n) version.

(** [UPDATE graph_nodes SET state, version + 1 WHERE .. AND state = $4 AND version = $5]. *)
Definition cas_node_state_tx (graph_id node_id expect_state : string) (expect_version : Z)
    (new_state : string) : tx bool :=
  if negb (transition_ok expect_state new_state) then
    tx_err (InvalidOperation ("illegal node transition " +:+ expect_state +:+ " -> " +:+ new_state))
  else
    let^ row := tx_read (node_row graph_id node_id) in
    match row with
    | Some n =>
        if (nd_state n ==? expect_state) && (nd_version n =? expect_version) then
          let^ version := pg_succ "node CAS update: " i64_max (nd_version n) in
          let^ _ := tx_write (λ d, set_nodes
            (<[(graph_id, node_id) := set_node_state new_state version n]> (db_nodes d)) d) in
          tx_ret true
        else tx_ret false
    | None => tx_ret false
    end.

(** The two unique constraints of [task_attempts]: the id, and [(node_id, retry_no)]. *)
Definition attempt_conflicts (id : string) (a : AttemptCols) (d : GraphDb) : bool :=
  bool_decide (is_Some (db_attempts d !! id)) ||
  existsb (λ '(_, b), (at_node_id b ==? at_node_id a) && (at_retry_no b =? at_retry_no a))
    (map_to_list (db_attempts d)).

Definition has_node (graph_id node_id : string) (d : GraphDb) : bool :=
  bool_decide (is_Some (node_row graph_id node_id d)).

(** [INSERT INTO task_attempts], without and with [ON CONFLICT DO NOTHING]; the latter
    answers the rows affected. *)
Definition insert_attempt (what id : string) (a : AttemptCols) : tx () :=
  λ d, if attempt_conflicts id a d then Err (StorageError (what +:+ unique_violation))
       else if has_node (at_graph_id a) (at_node_id a) d
       then Ok ((), set_attempts (<[id := a]> (db_attempts d)) d)
       else Err (StorageError (what +:+ foreign_key_violation)).

Definition insert_attempt_or_nothing (what id : string) (a : AttemptCols) : tx Z :=
  λ d, if attempt_conflicts id a d then Ok (0, d)
       else match insert_attempt what id a d with
            | Ok (_, d') => Ok (1, d')
            | Err e => Err e
            end.

(** [INSERT INTO node_completions .. ON CONFLICT (node_id) DO NOTHING]. *)
Definition insert_completion_or_nothing (what node_id : string) (c : CompletionCols) : tx Z :=
  λ d, if bool_decide (is_Some (db_completions d !! node_id)) then Ok (0, d)
       else if has_node (co_graph_id c) node_id d
       then Ok (1, set_completions (<[node_id := c]> (db_completions d)) d)
       else Err (StorageError (what +:+ foreign_key_violation)).

(** The attempts of a node, and those still running. *)
Definition node_attempts (graph_id node_id : string) (d : GraphDb) : list (string * AttemptCols) :=
  filterb (λ '(_, a), (at_graph_id a ==? graph_id) && (at_node_id a ==? node_id))
    (map_to_list (db_attempts d)).
Definition running_attempts (graph_id node_id : string) (d : GraphDb)
    : list (string * AttemptCols) :=
  filterb (λ '(_, a), at_status a ==? "RUNNING"%string) (node_attempts graph_id node_id d).

(** [COALESCE(MAX(f), start)]. *)
Definition max_or (start : Z) (l : list Z) : Z :=
  match l with [] => start | x :: l' => foldr Z.max x l' end.

Definition update_attempt (id : string) (f : AttemptCols → AttemptCols) (d : GraphDb) : GraphDb :=
  match db_attempts d !! id with
  | Some a => set_attempts (<[id := f a]> (db_attempts d)) d
  | None => d
  end.

Definition finish_attempt_row (status : string) (now : Instant) (result_ref : option string)
    (a : AttemptCols) : AttemptCols :=
  mkAttemptCols (at_graph_id a) (at_node_id a) (at_worker_id a) (at_worker_epoch a) status
    (at_retry_no a) (at_started_at a) (at_heartbeat_at a) (Some now)
    (match result_ref with Some r => Some r | None => at_result_ref a end).

Definition beat_attempt_row (now : Instant) (a : AttemptCols) : AttemptCols :=
  mkAttemptCols (at_graph_id a) (at_node_id a) (at_worker_id a) (at_worker_epoch a) (at_status a)
    (at_retry_no a) (at_started_at a) (Some now) (at_finished_at a) (at_result_ref a).
End Statements.

(** ** Usage of a run *)

Definition json_of_f64 (x : f64) : JsonValue :=
  match x with S754_nan | S754_infinity _ => JNull | _ => JFloat x end.

(** serde's object for [SubtaskUsage]: an absent field is skipped. *)
Definition json_of_usage (u : SubtaskUsage) : JsonValue :=
  let field {A} (name : string) (f : A → JsonValue) (o : option A) :=
    from_option (λ x, [(name, f x)]) [] o in
  JObject (field "input_tokens"%string JInt (input_tokens u)
           ++ field "output_tokens"%string JInt (output_tokens u)
           ++ field "total_cost_usd"%string json_of_f64 (total_cost_usd u)
           ++ field "source"%string JString (usage_source u)).

Definition json_of_step (s : StepUsage) : JsonValue :=
  JObject [ ("step_index"%string, JInt (step_index s));
            ("parallel_group"%string, JString (step_parallel_group s));
            ("usage"%string, from_option json_of_usage JNull (step_usage s));
            ("source"%string, json_opt_str (step_source s)) ].

Definition steps_payload (steps : option (list StepUsage)) : option JsonValue :=
  match steps with
  | None | Some [] => None
  | Some l => Some (JArray (json_of_step <$> l))
  end.

(** chrono's [num_milliseconds] rounds towards zero. *)
Definition attempt_duration_ms (started_at : option Instant) (db_now : Instant) : option Z :=
  started ← started_at;
  let elapsed := (db_now - started) `quot` 1000000 in
  if 0 <=? elapsed then Some elapsed else None.

(** ** Verbs *)

Inductive FailOutcome : Type := Fenced | RearmedToReady | NodeFailedOutcome.
#[export] Instance FailOutcome_eq_dec : EqDecision FailOutcome.
Proof. solve_decision. Defined.

Record SweptAttempt : Type := mkSwept {
  swept_graph_id : string;
  swept_node_id : string;
  swept_attempt_id : string;
  swept_rearmed : bool
}.

Definition DEFAULT_MAX_ATTEMPTS : Z := 3.
(** [i32::saturating_sub(1)]. *)
Definition i32_pred (x : Z) : Z := Z.max (- 2 ^ 31) (x - 1).

Section Verbs.
Context `{PgErrors}.

Definition schedule_attempt (now : Instant) (graph_id node_id : string) (worker_id : option string)
    : GraphDb → result (option string) EngineError * GraphDb :=
  transaction (
    let^ _ := lock_graph_tx graph_id in
    let^ node := select_node graph_id node_id in
    match node with
    | None => tx_ret (Rollback None)
    | Some (state, version) =>
        if (state !=? NodeStatus_as_str NodeReady)
           || negb (transition_ok state (NodeStatus_as_str NodeScheduled))
           || negb (transition_ok (NodeStatus_as_str NodeScheduled) (NodeStatus_as_str NodeRunning))
        then tx_ret (Rollback None)
        else
          let^ attempts := tx_read (node_attempts graph_id node_id) in
          let^ retry_no := pg_succ "schedule: retry probe: " i32_max
                             (max_or (-1) ((λ r, at_retry_no r.2) <$> attempts)) in
          let^ worker_epoch := pg_succ "schedule: retry probe: " i64_max
                                 (max_or 0 (omap (λ r, at_worker_epoch r.2) attempts)) in
          let^ gv := bump_graph_version_tx now graph_id in
          let^ scheduled := cas_node_state_tx graph_id node_id (NodeStatus_as_str NodeReady) version
                              (NodeStatus_as_str NodeScheduled) in
          if negb scheduled then tx_ret (Rollback None)
          else
            let payload := JObject [("worker_id"%string, json_opt_str worker_id);
                                    ("retry_no"%string, JInt retry_no)] in
            let^ _ := append_event_tx now graph_id (Some node_id) None (Some gv) "node_scheduled" payload in
            let^ running := cas_node_state_tx graph_id node_id (NodeStatus_as_str NodeScheduled)
                              (version + 1) (NodeStatus_as_str NodeRunning) in
            if negb running then tx_ret (Rollback None)
            else
              let^ _ := append_event_tx now graph_id (Some node_id) None (Some gv) "node_running" payload in
              let attempt := graph_attempt_id graph_id node_id retry_no in
              let^ _ := insert_attempt "schedule: attempt insert: " attempt
                (mkAttemptCols graph_id node_id worker_id (Some worker_epoch) "RUNNING" retry_no
                   (Some now) (Some now) None
                   (Some (graph_id +:+ "/" +:+ node_id +:+ "/" +:+ pretty retry_no))) in
              let^ _ := append_event_tx now graph_id (Some node_id) (Some attempt) (Some gv)
                          "attempt_started"
                          (JObject [("worker_id"%string, json_opt_str worker_id);
                                    ("worker_epoch"%string, JInt worker_epoch)]) in
              tx_ret (Commit (Some attempt))
    end).

Definition retry_failed_node (now : Instant) (graph_id node_id : string) (dispatch_attempt : Z)
    : GraphDb → result bool EngineError * GraphDb :=
  transaction (
    let^ _ := lock_graph_tx graph_id in
    let^ node := select_node graph_id node_id in
    match node with
    | None => tx_ret (Rollback false)
    | Some (state, version) =>
        if (state !=? NodeStatus_as_str NodeFailed)
           || negb (transition_ok state (NodeStatus_as_str NodeReady))
        then tx_ret (Rollback false)
        else
          let^ gv := bump_graph_version_tx now graph_id in
          let^ moved := cas_node_state_tx graph_id node_id state version (NodeStatus_as_str NodeReady) in
          if negb moved then tx_ret (Rollback false)
          else
            let^ _ := append_event_tx now graph_id (Some node_id) None (Some gv) "node_retried"
                        (JObject [("dispatch_attempt"%string, JInt dispatch_attempt)]) in
            tx_ret (Commit true)
    end).

Definition heartbeat_attempt (now : Instant) (attempt_id : string)
    : GraphDb → result bool EngineError * GraphDb :=
  transaction (
    let^ row := tx_read (λ d, db_attempts d !! attempt_id) in
    match row with
    | None => tx_ret (Rollback false)
    | Some a =>
        if at_status a ==? "RUNNING"%string then
          let^ _ := tx_write (update_attempt attempt_id (beat_attempt_row now)) in
          let^ graph_version := tx_read (λ d,
            from_option gr_version 0 (db_graphs d !! at_graph_id a)) in
          let^ _ := append_event_tx now (at_graph_id a) (Some (at_node_id a)) (Some attempt_id)
                      (Some graph_version) "attempt_heartbeat" (JObject []) in
          tx_ret (Commit true)
        else tx_ret (Commit false)
    end).

(** [ORDER BY retry_no DESC LIMIT 1]. *)
Definition running_attempt_id (graph_id node_id : string) (d : GraphDb) : option string :=
  fst <$> max_by_key (λ r, at_retry_no r.2) (running_attempts graph_id node_id d).

(** [ORDER BY attempt_id LIMIT 1]. *)
Definition running_attempt (graph_id node_id : string) (d : GraphDb) : option string :=
  fst <$> head (sort_by by_key (running_attempts graph_id node_id d)).

(** The [CREATED] rows of a graph by node id, and the rows that satisfy a dependency. *)
Definition created_rows (graph_id : string) (d : GraphDb) : list (string * NodeCols) :=
  sort_by by_key (omap (λ '((g, n), row), if (g ==? graph_id) && (nd_state row ==? "CREATED"%string)
                                          then Some (n, row) else None) (map_to_list (db_nodes d))).
Definition satisfied_rows (graph_id : string) (d : GraphDb) : list (string * (string * bool)) :=
  omap (λ '((g, n), row),
          if (g ==? graph_id) && ((nd_state row ==? "SUCCEEDED"%string) || (nd_state row ==? "SKIPPED"%string))
          then Some (n, (nd_state row, nd_optional row)) else None) (map_to_list (db_nodes d)).

Definition dep_satisfied (satisfied : list (string * (string * bool))) (dep : string) : bool :=
  existsb (λ '(id, (state, optional)), (id ==? dep) && ((state ==? "SUCCEEDED"%string) || optional))
    satisfied.

(** The loop over the candidates: [gv] is bumped at the first flip. *)
Fixpoint recompute_loop (now : Instant) (graph_id : string)
    (satisfied : list (string * (string * bool))) (candidates : list (string * NodeCols))
    (gv : option Z) (flipped : list string) : tx (list string) :=
  match candidates with
  | [] => tx_ret flipped
  | (node_id, row) :: rest =>
      let dep_ids := json_strings (nd_dependencies row) in
      if negb (forallb (dep_satisfied satisfied) dep_ids)
      then recompute_loop now graph_id satisfied rest gv flipped
      else
        let^ moved := cas_node_state_tx graph_id node_id (NodeStatus_as_str NodeCreated)
                        (nd_version row) (NodeStatus_as_str NodeReady) in
        if negb moved then recompute_loop now graph_id satisfied rest gv flipped
        else
          let^ version_for_event :=
            match gv with
            | Some v => tx_ret v
            | None => bump_graph_version_tx now graph_id
            end in
          let^ _ := append_event_tx now graph_id (Some node_id) None (Some version_for_event) "node_ready"
                      (JObject [("dependencies_satisfied"%string, json_of_strings dep_ids)]) in
          recompute_loop now graph_id satisfied rest (Some version_for_event) (flipped ++ [node_id])
  end.

Definition recompute_ready_tx (now : Instant) (graph_id : string) (graph_version : option Z)
    : tx (list string) :=
  let^ candidates := tx_read (created_rows graph_id) in
  match candidates with
  | [] => tx_ret []
  | _ =>
      let^ satisfied := tx_read (satisfied_rows graph_id) in
      recompute_loop now graph_id satisfied candidates graph_version []
  end.

Definition recompute_ready (now : Instant) (graph_id : string)
    : GraphDb → result (list string) EngineError * GraphDb :=
  transaction (
    let^ _ := lock_graph_tx graph_id in
    let^ flipped := recompute_ready_tx now graph_id None in
    tx_ret (Commit flipped)).

(** The late path of [commit_once]: the event is the only trace. *)
Definition late_commit (now : Instant) (graph_id node_id attempt_id reason : string)
    : tx (ending bool) :=
  let^ _ := append_event_tx now graph_id (Some node_id) (Some attempt_id) None "late_result"
              (JObject [("reason"%string, JString reason)]) in
  tx_ret (Commit false).

(** The payload of [node_succeeded]. *)
Definition success_payload (result_ref : option string) (reported : option SubtaskUsage)
    (steps : option (list StepUsage)) : JsonValue :=
  JObject ([ ("result_ref"%string, json_opt_str result_ref);
             ("usage_reported"%string, JBool (bool_decide (is_Some reported)));
             ("usage_source"%string, json_opt_str (reported ≫= usage_source)) ]
           ++ from_option (λ s, [("steps"%string, s)]) [] (steps_payload steps)).

(** The winner's half of [commit_once]: the attempt, the node, the event, the dependants. *)
Definition settle_commit (now : Instant) (graph_id node_id attempt_id : string)
    (result_ref : option string) (reported : option SubtaskUsage) (steps : option (list StepUsage))
    (usage : EventUsage) (node_state : string) (node_version : Z) : tx () :=
  let^ gv := bump_graph_version_tx now graph_id in
  let^ row := tx_read (λ d, db_attempts d !! attempt_id) in
  let^ _ := match row with
            | Some a => if at_status a ==? "RUNNING"%string
                        then tx_write (update_attempt attempt_id (finish_attempt_row "SUCCEEDED" now result_ref))
                        else tx_ret ()
            | None => tx_ret ()
            end in
  let^ _ := if transition_ok node_state (NodeStatus_as_str NodeSucceeded)
            then cas_node_state_tx graph_id node_id node_state node_version (NodeStatus_as_str NodeSucceeded)
            else tx_ret false in
  let^ _ := append_event_with_usage_tx now graph_id (Some node_id) (Some attempt_id) (Some gv)
              "node_succeeded" (success_payload result_ref reported steps) (Some usage) in
  let^ _ := recompute_ready_tx now graph_id (Some gv) in
  tx_ret ().

Definition commit_once (now : Instant) (graph_id node_id winning_attempt_id : string)
    (result_ref : option string) (usage : option SubtaskUsage) (steps : option (list StepUsage))
    : GraphDb → result bool EngineError * GraphDb :=
  transaction (
    let^ _ := lock_graph_tx graph_id in
    let^ node := select_node graph_id node_id in
    let^ attempt_row := tx_read (λ d, db_attempts d !! winning_attempt_id) in
    match node, attempt_row with
    | Some (node_state, node_version), Some a =>
        if (node_state ==? NodeStatus_as_str NodeSucceeded) || (at_status a !=? "RUNNING"%string)
        then late_commit now graph_id node_id winning_attempt_id "fenced_or_unknown_attempt"
        else
          let reported := match usage with
                          | Some u => if usage_is_empty u then None else Some u
                          | None => None
                          end in
          let attempt_usage := mkEventUsage (reported ≫= total_cost_usd) (reported ≫= total_tokens)
                                 (attempt_duration_ms (at_started_at a) now) in
          let^ rows := insert_completion_or_nothing "commit: completion insert: " node_id
                         (mkCompletionCols graph_id winning_attempt_id result_ref now) in
          if rows =? 0 then late_commit now graph_id node_id winning_attempt_id "lost_commit_once"
          else
            let^ _ := settle_commit now graph_id node_id winning_attempt_id result_ref reported steps
                        attempt_usage node_state node_version in
            tx_ret (Commit true)
    | _, _ => late_commit now graph_id node_id winning_attempt_id "fenced_or_unknown_attempt"
    end).

Definition fail_target (retry_no max_attempts : Z) : NodeStatus :=
  if retry_no <? i32_pred max_attempts then NodeReady else NodeFailed.

(** The live half of [fail_attempt_tx]. *)
Definition fail_live_attempt (now : Instant) (graph_id node_id attempt_id : string)
    (max_attempts : Z) (reason : string) (node_state : string) (node_version retry_no : Z)
    : tx FailOutcome :=
  let^ _ := tx_write (update_attempt attempt_id (finish_attempt_row "FAILED" now None)) in
  let^ gv := bump_graph_version_tx now graph_id in
  let^ _ := append_event_tx now graph_id (Some node_id) (Some attempt_id) (Some gv) "attempt_failed"
              (JObject [("reason"%string, JString reason); ("retry_no"%string, JInt retry_no)]) in
  let target := NodeStatus_as_str (fail_target retry_no max_attempts) in
  let outcome := if target ==? NodeStatus_as_str NodeReady then RearmedToReady else NodeFailedOutcome in
  let^ _ :=
    if transition_ok node_state target then
      let^ _ := cas_node_state_tx graph_id node_id node_state node_version target in
      append_event_tx now graph_id (Some node_id) (Some attempt_id) (Some gv)
        (if outcome ==? RearmedToReady then "node_ready" else "node_failed")
        (JObject [("reason"%string, JString reason)])
    else tx_ret () in
  tx_ret outcome.

Definition fail_attempt_tx (now : Instant) (graph_id node_id attempt_id : string)
    (max_attempts : Z) (reason : string) : tx FailOutcome :=
  let^ node := select_node graph_id node_id in
  let^ attempt := tx_read (λ d, db_attempts d !! attempt_id) in
  let late :=
    let^ _ := append_event_tx now graph_id (Some node_id) (Some attempt_id) None "late_result"
                (JObject [("reason"%string, JString ("late_fail: " +:+ reason))]) in
    tx_ret Fenced in
  match node, attempt with
  | Some (node_state, node_version), Some a =>
      if (at_status a ==? "RUNNING"%string) && (node_state !=? NodeStatus_as_str NodeSucceeded)
      then fail_live_attempt now graph_id node_id attempt_id max_attempts reason node_state
             node_version (at_retry_no a)
      else late
  | _, _ => late
  end.

Definition fail_attempt (now : Instant) (graph_id node_id attempt_id : string) (max_attempts : Z)
    (reason : string) : GraphDb → result FailOutcome EngineError * GraphDb :=
  transaction (
    let^ _ := lock_graph_tx graph_id in
    let^ outcome := fail_attempt_tx now graph_id node_id attempt_id max_attempts reason in
    tx_ret (Commit outcome)).

Fixpoint cancel_nodes_tx (now : Instant) (graph_id : string) (node_ids : list string)
    (cancelled : list string) : tx (list string) :=
  match node_ids with
  | [] => tx_ret cancelled
  | node_id :: rest =>
      let^ node := select_node graph_id node_id in
      match node with
      | None => cancel_nodes_tx now graph_id rest cancelled
      | Some (node_state, node_version) =>
          if negb (transition_ok node_state (NodeStatus_as_str NodeCancelled))
          then cancel_nodes_tx now graph_id rest cancelled
          else
            let^ attempt_id := tx_read (running_attempt graph_id node_id) in
            let^ _ := match attempt_id with
                      | Some attempt => tx_write (update_attempt attempt (finish_attempt_row "FAILED" now None))
                      | None => tx_ret ()
                      end in
            let^ gv := bump_graph_version_tx now graph_id in
            let^ _ := cas_node_state_tx graph_id node_id node_state node_version
                        (NodeStatus_as_str NodeCancelled) in
            let^ _ := append_event_tx now graph_id (Some node_id) attempt_id (Some gv) "node_cancelled"
                        (JObject [("reason"%string, JString "cancelled")]) in
            cancel_nodes_tx now graph_id rest (cancelled ++ [node_id])
      end
  end.

Definition cancel_nodes (now : Instant) (graph_id : string) (node_ids : list string)
    : GraphDb → result (list string) EngineError * GraphDb :=
  transaction (
    let^ _ := lock_graph_tx graph_id in
    let^ cancelled := cancel_nodes_tx now graph_id node_ids [] in
    tx_ret (Commit cancelled)).
End Verbs.

(** ** Sweeps *)

Section Sweeps.
Context `{PgErrors}.

(** The shared loop of [timeout_sweep] and [fail_running_attempts]: each attempt in a
    transaction of its own, the first error ends the sweep. *)
Fixpoint sweep_loop (now : Instant) (max_attempts : Z) (reason : string)
    (stale : list (string * (string * string))) (swept : list SweptAttempt) (d : GraphDb)
    : result (list SweptAttempt) EngineError * GraphDb :=
  match stale with
  | [] => (Ok swept, d)
  | (attempt, (graph_id, node_id)) :: rest =>
      match fail_attempt now graph_id node_id attempt max_attempts reason d with
      | (Ok outcome, d') =>
          sweep_loop now max_attempts reason rest
            (if outcome ==? Fenced then swept
             else swept ++ [mkSwept graph_id node_id attempt (outcome ==? RearmedToReady)]) d'
      | (Err e, d') => (Err e, d')
      end
  end.

Definition attempt_is_stale (now heartbeat_timeout : Z) (a : AttemptCols) : bool :=
  (at_status a ==? "RUNNING"%string) &&
  match at_heartbeat_at a, at_started_at a with
  | Some t, _ | None, Some t => t <? now - heartbeat_timeout
  | None, None => false
  end.

Definition select_attempts (p : AttemptCols → bool) (d : GraphDb) : list (string * (string * string)) :=
  (λ r, (r.1, (at_graph_id r.2, at_node_id r.2))) <$>
    sort_by by_key (filterb (λ r, p r.2) (map_to_list (db_attempts d))).

Definition timeout_sweep (now heartbeat_timeout max_attempts : Z) (d : GraphDb)
    : result (list SweptAttempt) EngineError * GraphDb :=
  sweep_loop now max_attempts "heartbeat_timeout"
    (select_attempts (attempt_is_stale now heartbeat_timeout) d) [] d.

Definition fail_running_attempts (now : Instant) (graph_id : string) (max_attempts : Z)
    (reason : string) (d : GraphDb) : result (list SweptAttempt) EngineError * GraphDb :=
  sweep_loop now max_attempts reason
    (select_attempts (λ a, (at_graph_id a ==? graph_id) && (at_status a ==? "RUNNING"%string)) d)
    [] d.

Definition cancel_running_attempt (now : Instant) (graph_id node_id : string) (max_attempts : Z)
    (d : GraphDb) : result (option SweptAttempt) EngineError * GraphDb :=
  match running_attempt graph_id node_id d with
  | None => (Ok None, d)
  | Some attempt_id =>
      match fail_attempt now graph_id node_id attempt_id max_attempts "cancelled" d with
      | (Ok outcome, d') =>
          (Ok (if outcome ==? Fenced then None
               else Some (mkSwept graph_id node_id attempt_id (outcome ==? RearmedToReady))), d')
      | (Err e, d') => (Err e, d')
      end
  end.

(** [str::parse::<u32>]: an optional plus sign, digits, within range. *)
Definition parse_u32 (s : string) : option Z :=
  let digits := match chars s with "+"%char :: rest => rest | l => l end in
  if bool_decide (digits = []) || negb (forallb is_digit_char digits) then None
  else
    let n := foldl (λ acc c, acc * 10 + (Z.of_nat (nat_of_ascii c) - 48)) 0 digits in
    if n <=? u32_max then Some n else None.

(** The sink's [on_commit] and [on_fail] act on the node's running attempt: the envelope's
    own attempt is not consulted, and [-1] names none. *)
Definition resolve_attempt (env : ExecutionEnvelope) (d : GraphDb) : string :=
  default (graph_attempt_id (env_graph_id env) (env_node_id env) (-1))
    (running_attempt_id (env_graph_id env) (env_node_id env) d).

Definition on_schedule (now : Instant) (env : ExecutionEnvelope) (worker_id : option string)
    (d : GraphDb) : GraphDb :=
  (schedule_attempt now (env_graph_id env) (env_node_id env) worker_id d).2.

Definition on_heartbeat (now : Instant) (env : ExecutionEnvelope) (d : GraphDb) : GraphDb :=
  match running_attempt_id (env_graph_id env) (env_node_id env) d with
  | Some attempt => (heartbeat_attempt now attempt d).2
  | None => d
  end.

Definition on_commit (now : Instant) (env : ExecutionEnvelope) (result_ref : option string)
    (usage : option SubtaskUsage) (steps : option (list StepUsage)) (d : GraphDb) : GraphDb :=
  (commit_once now (env_graph_id env) (env_node_id env) (resolve_attempt env d) result_ref usage
     steps d).2.

Definition on_fail (now : Instant) (env : ExecutionEnvelope) (reason : string) (d : GraphDb)
    : GraphDb :=
  (fail_attempt now (env_graph_id env) (env_node_id env) (resolve_attempt env d)
     DEFAULT_MAX_ATTEMPTS reason d).2.

Definition on_retry (now : Instant) (env : ExecutionEnvelope) (d : GraphDb) : GraphDb :=
  (retry_failed_node now (env_graph_id env) (env_node_id env)
     (default 0 (parse_u32 (env_attempt_id env))) d).2.

(** The sink's sweeps: an error is logged and answers nothing. *)
Definition sink_sweep_timeouts (now heartbeat_timeout : Z) (d : GraphDb) : list SweptAttempt * GraphDb :=
  match timeout_sweep now heartbeat_timeout DEFAULT_MAX_ATTEMPTS d with
  | (Ok swept, d') => (swept, d')
  | (Err _, d') => ([], d')
  end.

Definition sink_fail_running_attempts (now : Instant) (graph_id reason : string) (d : GraphDb)
    : list SweptAttempt * GraphDb :=
  match fail_running_attempts now graph_id DEFAULT_MAX_ATTEMPTS reason d with
  | (Ok swept, d') => (swept, d')
  | (Err _, d') => ([], d')
  end.

Definition sink_cancel_running_attempt (now : Instant) (graph_id node_id : string) (d : GraphDb)
    : option SweptAttempt * GraphDb :=
  match cancel_running_attempt now graph_id node_id DEFAULT_MAX_ATTEMPTS d with
  | (Ok swept, d') => (swept, d')
  | (Err _, d') => (None, d')
  end.

Definition sink_cancel_nodes (now : Instant) (graph_id : string) (node_ids : list string) (d : GraphDb)
    : list string * GraphDb :=
  match cancel_nodes now graph_id node_ids d with
  | (Ok cancelled, d') => (cancelled, d')
  | (Err _, d') => ([], d')
  end.
End Sweeps.

(** ** The downstream closure *)

(** [deps] lists the [HashMap] of the graph's nodes in its iteration order. *)
Section Closure.
Context (deps : list (string * list string)).

(** [for (node_id, node_deps) in &deps]: queue the unseen dependants of [id]. *)
Definition closure_visit (id : string) (s : gset string * list string) : gset string * list string :=
  foldl (λ '(seen, queue) '(node_id, node_deps),
           if negb (bool_decide (node_id ∈ seen)) && bool_decide (id ∈ node_deps)
           then ({[node_id]} ∪ seen, queue ++ [node_id]) else (seen, queue)) s deps.

Definition closure_roots (roots : list string) : gset string * list string :=
  foldl (λ '(seen, queue) root,
           if bool_decide (root ∈ deps.*1) && negb (bool_decide (root ∈ seen))
           then ({[root]} ∪ seen, queue ++ [root]) else (seen, queue)) (∅, []) roots.

(** [while let Some(id) = queue.pop_front()]; [None] is the end of the fuel. *)
Fixpoint closure_loop (fuel : nat) (seen : gset string) (queue closure : list string)
    : option (list string) :=
  match fuel with
  | O => None
  | S fuel =>
      match queue with
      | [] => Some closure
      | id :: rest =>
          let '(seen, queue) := closure_visit id (seen, rest) in
          closure_loop fuel seen queue (closure ++ [id])
      end
  end.

(** One turn per node, and one for the empty queue. *)
Definition closure_of (roots : list string) : option (list string) :=
  let '(seen, queue) := closure_roots roots in
  closure_loop (S (length deps)) seen queue [].
End Closure.

Definition graph_deps (graph_id : string) (d : GraphDb) : list (string * list string) :=
  omap (λ '((g, n), row), if g ==? graph_id then Some (n, json_strings (nd_dependencies row)) else None)
    (map_to_list (db_nodes d)).

Definition downstream_closure (graph_id : string) (roots : list string) (d : GraphDb)
    : option (list string) := closure_of (graph_deps graph_id d) roots.

(** ** Merge grants *)

Record MergeGrantDecision : Type := mkGrantDecision {
  granted : bool;
  merge_idempotency_key : string;
  grant_replay : bool;
  grant_error : string
}.

Record MergeOutcomeReport : Type := mkOutcome {
  outcome_status : string;
  merged_branches : list string;
  conflict_branches : list string;
  push_status : string
}.

Record MergeReportDecision : Type := mkReportDecision {
  report_accepted : bool;
  report_replay : bool
}.

Definition MERGE_KEY_LEN : nat := 32.

Section Grants.
Context `{Sha256}.

Definition pair_leb (a b : string * string) : bool := String.leb a.1 b.1.

Definition merge_preimage (graph_id : string) (succeeded : list (string * string)) : string :=
  let ordered := sort_by pair_leb succeeded in
  "merge:" +:+ graph_id +:+ ":" +:+ join "," (fst <$> ordered) +:+ ":" +:+
  join ";" ((λ p, p.1 +:+ "=" +:+ p.2) <$> ordered).

Definition derive_merge_idempotency_key (graph_id : string) (succeeded : list (string * string))
    : string := prefix_slice MERGE_KEY_LEN (sha256_hex (merge_preimage graph_id succeeded)).

Definition graph_states (graph_id : string) (d : GraphDb) : list string :=
  omap (λ '((g, _), row), if g ==? graph_id then Some (nd_state row) else None)
    (map_to_list (db_nodes d)).

(** [node_completions] joined on node and graph. *)
Definition completion_of (graph_id node_id : string) (d : GraphDb) : option CompletionCols :=
  match db_completions d !! node_id with
  | Some c => if co_graph_id c ==? graph_id then Some c else None
  | None => None
  end.

Definition succeeded_outputs (graph_id : string) (d : GraphDb) : list (string * string) :=
  omap (λ '((g, n), row),
          if (g ==? graph_id) && (nd_state row ==? "SUCCEEDED"%string)
          then Some (n, sha256_hex (default ""%string (completion_of graph_id n d ≫= co_result_ref)))
          else None) (map_to_list (db_nodes d)).

Definition refuse (error : string) : MergeGrantDecision := mkGrantDecision false "" false error.

(** [issue_merge_grant] is four statements on the pool, with no transaction: the program
    counter says which one comes next. *)
Inductive issue_pc : Type :=
| IssueStart
| IssueQuiescent
| IssueKeyed (key : string)
| IssueFresh (key : string)
| Issued (decision : MergeGrantDecision).

Definition issue_step (now : Instant) (graph_id : string) (pc : issue_pc) (d : GraphDb)
    : issue_pc * GraphDb :=
  match pc with
  | IssueStart =>
      let states := graph_states graph_id d in
      let terminal := ["SUCCEEDED"; "FAILED"; "CANCELLED"]%string in
      if existsb (λ s, negb (bool_decide (s ∈ terminal))) states then
        (Issued (refuse ("graph " +:+ graph_id +:+ " is not quiescent (non-terminal nodes present)")), d)
      else match states with
           | [] => (Issued (refuse ("graph " +:+ graph_id +:+ " not found")), d)
           | _ => (IssueQuiescent, d)
           end
  | IssueQuiescent => (IssueKeyed (derive_merge_idempotency_key graph_id (succeeded_outputs graph_id d)), d)
  | IssueKeyed key =>
      match db_grants d !! graph_id with
      | Some g => if mg_key g ==? key
                  then (Issued (mkGrantDecision true key (bool_decide (is_Some (mg_consumed_at g))) ""), d)
                  else (IssueFresh key, d)
      | None => (IssueFresh key, d)
      end
  | IssueFresh key =>
      (Issued (mkGrantDecision true key false ""),
       set_grants (<[graph_id := mkGrantCols key now None None]> (db_grants d)) d)
  | Issued _ => (pc, d)
  end.

(** Run without interruption. *)
Definition issue_merge_grant (now : Instant) (graph_id : string) (d : GraphDb)
    : MergeGrantDecision * GraphDb :=
  match Nat.iter 4 (λ '(pc, d), issue_step now graph_id pc d) (IssueStart, d) with
  | (Issued decision, d') => (decision, d')
  | (_, d') => (refuse "", d')
  end.

Definition outcome_json (o : MergeOutcomeReport) : JsonValue :=
  JObject [ ("status"%string, JString (outcome_status o));
            ("merged_branches"%string, json_of_strings (merged_branches o));
            ("conflict_branches"%string, json_of_strings (conflict_branches o));
            ("push_status"%string, JString (push_status o)) ].

(** [report_merge_outcome]: a read and a conditional update. *)
Inductive report_pc : Type :=
| ReportStart
| ReportUnconsumed
| Reported (decision : MergeReportDecision).

Definition report_step (now : Instant) (graph_id key : string) (outcome : MergeOutcomeReport)
    (pc : report_pc) (d : GraphDb) : report_pc * GraphDb :=
  match pc with
  | ReportStart =>
      match db_grants d !! graph_id with
      | None => (Reported (mkReportDecision false false), d)
      | Some g =>
          if mg_key g !=? key then (Reported (mkReportDecision false false), d)
          else match mg_consumed_at g with
               | Some _ => (Reported (mkReportDecision true true), d)
               | None => (ReportUnconsumed, d)
               end
      end
  | ReportUnconsumed =>
      (Reported (mkReportDecision true false),
       match db_grants d !! graph_id with
       | Some g =>
           if (mg_key g ==? key) && bool_decide (mg_consumed_at g = None)
           then set_grants (<[graph_id := mkGrantCols key (mg_issued_at g) (Some now)
                                            (Some (outcome_json outcome))]> (db_grants d)) d
           else d
       | None => d
       end)
  | Reported _ => (pc, d)
  end.

Definition report_merge_outcome (now : Instant) (graph_id key : string) (outcome : MergeOutcomeReport)
    (d : GraphDb) : MergeReportDecision * GraphDb :=
  match Nat.iter 2 (λ '(pc, d), report_step now graph_id key outcome pc d) (ReportStart, d) with
  | (Reported decision, d') => (decision, d')
  | (_, d') => (mkReportDecision false false, d')
  end.
End Grants.
