(* ===== verification/GraphMirror.v ===== *)
(** * Mirroring tasks into the graph tables

    The writers of [uc-engine/src/graph_store.rs] that copy a task's projection into the
    tables: [write_projection] (import and shadow), the two backfills, the live shadow
    write, the diff, and the reads on the tables.  Parsing the legacy rows and files is
    the caller's: a row that does not parse is [None]. *)

From Stdlib Require Import String Ascii.
From S2P Require Import Prelude RustStr Task Envelope Graph GraphStore.

Record BackfillStats : Type := mkStats {
  st_graphs : Z;
  st_nodes : Z;
  st_attempts : Z;
  st_completions : Z;
  st_skipped_existing : Z;
  st_mirror_state_dropped : Z;
  st_mirror_rejected : Z
}.
Definition BackfillStats_default : BackfillStats := mkStats 0 0 0 0 0 0 0.

Section Writers.
Context `{PgErrors}.

Definition graph_exists (graph_id : string) (d : GraphDb) : bool :=
  bool_decide (is_Some (db_graphs d !! graph_id)).

(** The graph row: [DO UPDATE] in shadow mode keeps version, provenance and creation. *)
Definition write_graph (p : GraphProjection) (shadow imported : bool) : tx Z :=
  λ d, match db_graphs d !! proj_graph_id p with
       | None =>
           Ok (1, set_graphs (<[proj_graph_id p := mkGraphCols (proj_project_id p) (proj_status p) 1
                                  imported (proj_created_at p) (proj_updated_at p)]> (db_graphs d)) d)
       | Some g =>
           if shadow then
             Ok (1, set_graphs (<[proj_graph_id p := mkGraphCols (proj_project_id p) (proj_status p)
                                    (gr_version g) (gr_imported g) (gr_created_at g)
                                    (proj_updated_at p)]> (db_graphs d)) d)
           else Ok (0, d)
       end.

(** The node row: the state of an existing node is not among the updated columns. *)
Definition write_node (graph_id : string) (shadow : bool) (n : NodeRow) : tx Z :=
  λ d, match node_row graph_id (row_node_id n) d with
       | None =>
           if graph_exists graph_id d then
             Ok (1, set_nodes (<[(graph_id, row_node_id n) :=
                                   mkNodeCols (row_node_type n) (row_state n) (row_dependencies n) false
                                     (row_effect_class n) (row_capabilities n) 1]> (db_nodes d)) d)
           else Err (StorageError ("node insert: " +:+ foreign_key_violation))
       | Some old =>
           if shadow then
             Ok (1, set_nodes (<[(graph_id, row_node_id n) :=
                                   mkNodeCols (row_node_type n) (nd_state old) (row_dependencies n)
                                     (nd_optional old) (row_effect_class n) (row_capabilities n)
                                     (nd_version old)]> (db_nodes d)) d)
           else Ok (0, d)
       end.

(** [existing_states]: read once, before any insert. *)
Definition existing_states (graph_id : string) (shadow : bool) (d : GraphDb) : gmap string string :=
  if shadow then
    list_to_map (omap (λ '((g, n), row), if g ==? graph_id then Some (n, nd_state row) else None)
                   (map_to_list (db_nodes d)))
  else ∅.

Definition add_nodes (n dropped rejected : Z) (s : BackfillStats) : BackfillStats :=
  mkStats (st_graphs s) (st_nodes s + n) (st_attempts s) (st_completions s) (st_skipped_existing s)
    (st_mirror_state_dropped s + dropped) (st_mirror_rejected s + rejected).

Fixpoint write_nodes (graph_id : string) (shadow : bool) (existing : gmap string string)
    (nodes : list NodeRow) (stats : BackfillStats) : tx BackfillStats :=
  match nodes with
  | [] => tx_ret stats
  | n :: rest =>
      match existing !! row_node_id n with
      | Some prev_state =>
          if negb (mirror_write_allowed prev_state (row_state n))
          then write_nodes graph_id shadow existing rest (add_nodes 0 0 1 stats)
          else
            let^ rows := write_node graph_id shadow n in
            write_nodes graph_id shadow existing rest
              (add_nodes rows (if prev_state !=? row_state n then 1 else 0) 0 stats)
      | None =>
          let^ rows := write_node graph_id shadow n in
          write_nodes graph_id shadow existing rest (add_nodes rows 0 0 stats)
      end
  end.

Fixpoint write_attempts (graph_id : string) (attempts : list AttemptRow) (stats : BackfillStats)
    : tx BackfillStats :=
  match attempts with
  | [] => tx_ret stats
  | a :: rest =>
      let^ rows := insert_attempt_or_nothing "attempt insert: " (row_attempt_id a)
        (mkAttemptCols graph_id (row_attempt_node a) (row_worker_id a) None (row_status a)
           (row_retry_no a) (row_started_at a) None (row_finished_at a) (row_result_ref a)) in
      write_attempts graph_id rest
        (mkStats (st_graphs stats) (st_nodes stats) (st_attempts stats + rows) (st_completions stats)
           (st_skipped_existing stats) (st_mirror_state_dropped stats) (st_mirror_rejected stats))
  end.

Fixpoint write_completions (graph_id : string) (updated_at : Instant) (completions : list CompletionRow)
    (stats : BackfillStats) : tx BackfillStats :=
  match completions with
  | [] => tx_ret stats
  | c :: rest =>
      let^ rows := insert_completion_or_nothing "completion insert: " (row_completed_node c)
        (mkCompletionCols graph_id (row_winning_attempt c) (row_completion_ref c)
           (default updated_at (row_committed_at c))) in
      write_completions graph_id updated_at rest
        (mkStats (st_graphs stats) (st_nodes stats) (st_attempts stats) (st_completions stats + rows)
           (st_skipped_existing stats) (st_mirror_state_dropped stats) (st_mirror_rejected stats))
  end.

Definition write_projection (p : GraphProjection) (shadow imported : bool)
    : GraphDb → result BackfillStats EngineError * GraphDb :=
  transaction (
    let^ graphs := write_graph p shadow imported in
    let^ existing := tx_read (existing_states (proj_graph_id p) shadow) in
    let^ stats := write_nodes (proj_graph_id p) shadow existing (proj_nodes p)
                    (mkStats graphs 0 0 0 0 0 0) in
    let^ stats := write_attempts (proj_graph_id p) (proj_attempts p) stats in
    let^ stats := write_completions (proj_graph_id p) (proj_updated_at p) (proj_completions p) stats in
    tx_ret (Commit stats)).

Definition upsert_task_shadow (task : Task) (d : GraphDb)
    : result BackfillStats EngineError * GraphDb :=
  if negb (graph_scope_is_valid (tk_project_id task)) then
    (Err (StorageError ("graph project_id cannot be empty — every execution graph must declare a "
                        +:+ "project scope (D8 #645)")), d)
  else write_projection (project_task task) true false d.

(** The sink is warn-only. *)
Definition shadow_persist (task : Task) (d : GraphDb) : GraphDb := (upsert_task_shadow task d).2.

(** ** Backfills *)

Definition parse_task_status (status : string) : TaskStatus :=
  if status ==? "Created"%string then TaskCreated
  else if status ==? "Planning"%string then TaskPlanning
  else if status ==? "InProgress"%string then TaskInProgress
  else if status ==? "Paused"%string then TaskPaused
  else if status ==? "Completed"%string then TaskCompleted
  else if status ==? "Failed"%string then TaskFailed
  else TaskCreated.

(** A row of [tasks], its subtasks decoded or not. *)
Record LegacyRow : Type := mkLegacyRow {
  lr_id : string;
  lr_project_id : string;
  lr_status : string;
  lr_subtasks : option (list Subtask);
  lr_created_at : Instant;
  lr_updated_at : Instant
}.

Definition skip_existing (s : BackfillStats) : BackfillStats :=
  mkStats (st_graphs s) (st_nodes s) (st_attempts s) (st_completions s) (st_skipped_existing s + 1)
    (st_mirror_state_dropped s) (st_mirror_rejected s).

(** [total.graphs += stats.graphs; ..]; [skipped_existing] counts in the loop alone. *)
Definition add_stats (total s : BackfillStats) : BackfillStats :=
  mkStats (st_graphs total + st_graphs s) (st_nodes total + st_nodes s)
    (st_attempts total + st_attempts s) (st_completions total + st_completions s)
    (st_skipped_existing total) (st_mirror_state_dropped total + st_mirror_state_dropped s)
    (st_mirror_rejected total + st_mirror_rejected s).

Fixpoint backfill_rows (rows : list LegacyRow) (total : BackfillStats) (d : GraphDb)
    : result BackfillStats EngineError * GraphDb :=
  match rows with
  | [] => (Ok total, d)
  | r :: rest =>
      if graph_exists (lr_id r) d then backfill_rows rest (skip_existing total) d
      else match lr_subtasks r with
           | None => backfill_rows rest total d
           | Some subtasks =>
               let task := mkTask (lr_id r) "" (lr_project_id r) (parse_task_status (lr_status r))
                             subtasks (lr_created_at r) (lr_updated_at r) in
               match write_projection (project_task task) false true d with
               | (Ok stats, d') => backfill_rows rest (add_stats total stats) d'
               | (Err e, d') => (Err e, d')
               end
           end
  end.

(** [None]: there is no [tasks] table. *)
Definition backfill_from_tasks_table (rows : option (list LegacyRow)) (d : GraphDb)
    : result BackfillStats EngineError * GraphDb :=
  match rows with
  | None => (Ok BackfillStats_default, d)
  | Some rows => backfill_rows rows BackfillStats_default d
  end.

(** The task files in path order, each parsed or not; [checkpoints] is the directory
    beside them, by task id. *)
Fixpoint import_files (from_millis : Z → option Instant) (files : list (option TsPersistedTask))
    (checkpoints : string → option TsPersistedTask) (total : BackfillStats) (d : GraphDb)
    : result BackfillStats EngineError * GraphDb :=
  match files with
  | [] => (Ok total, d)
  | None :: rest => import_files from_millis rest checkpoints total d
  | Some task :: rest =>
      if tst_id task ==? ""%string then import_files from_millis rest checkpoints total d
      else if graph_exists (tst_id task) d
      then import_files from_millis rest checkpoints (skip_existing total) d
      else
        let winner := pick_newer_saved task (checkpoints (tst_id task)) in
        match write_projection (project_ts_task from_millis winner) false true d with
        | (Ok stats, d') => import_files from_millis rest checkpoints (add_stats total stats) d'
        | (Err e, d') => (Err e, d')
        end
  end.

(** [None]: the directory cannot be read. *)
Definition import_tasks_dir (from_millis : Z → option Instant)
    (files : option (list (option TsPersistedTask))) (checkpoints : string → option TsPersistedTask)
    (d : GraphDb) : result BackfillStats EngineError * GraphDb :=
  match files with
  | None => (Ok BackfillStats_default, d)
  | Some files => import_files from_millis files checkpoints BackfillStats_default d
  end.
End Writers.

(** ** Reads *)

Definition pair_le (a b : string * string) : bool :=
  match String.compare a.1 b.1 with Lt => true | Gt => false | Eq => String.leb a.2 b.2 end.

Definition graph_node_states (graph_id : string) (d : GraphDb) : list (string * string) :=
  omap (λ '((g, n), row), if g ==? graph_id then Some (n, nd_state row) else None)
    (map_to_list (db_nodes d)).

Definition node_diff (db_states : list (string * string)) (m : string * string) : list string :=
  match find (λ r, r.1 ==? m.1) db_states with
  | Some r => if r.2 ==? m.2 then []
              else ["node " +:+ m.1 +:+ " state: rows=" +:+ r.2 +:+ " memory=" +:+ m.2]
  | None => ["node " +:+ m.1 +:+ " missing from row tables"]
  end.

Definition shadow_diff (task : Task) (d : GraphDb) : list string :=
  match db_graphs d !! tk_id task with
  | None => ["graph " +:+ tk_id task +:+ " missing from row tables"]
  | Some g =>
      let want_status := graph_status_of_task_status (tk_status task) in
      let db_states := sort_by pair_le (graph_node_states (tk_id task) d) in
      let mem := sort_by pair_le
        ((λ st, (subtask_id st, node_status_of_subtask st (subtask_status_index task)))
           <$> tk_subtasks task) in
      (if gr_status g !=? want_status
       then ["graph " +:+ tk_id task +:+ " status: rows=" +:+ gr_status g +:+ " memory=" +:+ want_status]
       else [])
      ++ (if gr_project_id g !=? tk_project_id task
          then ["graph " +:+ tk_id task +:+ " project_id: rows=" +:+ gr_project_id g
                +:+ " memory=" +:+ tk_project_id task]
          else [])
      ++ concat (node_diff db_states <$> mem)
      ++ concat ((λ r, if existsb (λ m, m.1 ==? r.1) mem then []
                       else ["node " +:+ r.1 +:+ " in row tables but not in memory"]) <$> db_states)
  end.

Definition list_graph_ids_newest_first (d : GraphDb) : list string :=
  fst <$> sort_by (λ a b, (gr_created_at b.2 <? gr_created_at a.2)
                          || ((gr_created_at b.2 =? gr_created_at a.2) && String.leb a.1 b.1))
            (map_to_list (db_graphs d)).

Definition node_state (graph_id node_id : string) (d : GraphDb) : option string :=
  nd_state <$> node_row graph_id node_id d.

Definition attempt_states (graph_id node_id : string) (d : GraphDb) : list string :=
  (λ r, at_status r.2) <$> sort_by by_key (node_attempts graph_id node_id d).

(** The rows of [node_ids] that exist, with the result of their completion. *)
Definition committed_dep_outputs (graph_id : string) (node_ids : list string) (d : GraphDb)
    : list ContextEntry :=
  omap (λ '((g, n), row),
          if (g ==? graph_id) && bool_decide (n ∈ node_ids)
          then Some (mkEntry n (nd_state row ==? NodeStatus_as_str NodeSucceeded)
                       (default ""%string (completion_of graph_id n d ≫= co_result_ref)))
          else None) (map_to_list (db_nodes d)).
