(* ===== verification/GraphSteps.v ===== *)
(** * The graph store's step relation

    The transactions of GraphStore.v refine a relation on the three tables that carry
    the execution state (nodes, attempts, completions): every verb is a finite sequence
    of [gstep]s, one per move the state machine allows.  GraphProps.v proves the
    invariants of the steps, by cases; they hold of the verbs by the refinement. *)

From Stdlib Require Import String Ascii.
From S2P Require Import Prelude RustStr Task Graph GraphStore.

(** ** The step relation *)

Record core : Type := mkCore {
  c_nodes : gmap (string * string) NodeCols;
  c_attempts : gmap string AttemptCols;
  c_completions : gmap string CompletionCols
}.
Definition core_of (d : GraphDb) : core := mkCore (db_nodes d) (db_attempts d) (db_completions d).

Notation RUNNING := "RUNNING"%string (only parsing).
Notation SUCCEEDED := "SUCCEEDED"%string (only parsing).

Definition move (g n state : string) (row : NodeCols) (m : gmap (string * string) NodeCols)
    : gmap (string * string) NodeCols :=
  <[(g, n) := set_node_state state (nd_version row + 1) row]> m.

(** [move] when the state machine has the edge. *)
Definition move_if_legal (g n state : string) (row : NodeCols)
    (m : gmap (string * string) NodeCols) : gmap (string * string) NodeCols :=
  if transition_ok (nd_state row) state then move g n state row m else m.

(** A dependency is satisfied: succeeded, or skipped and optional. *)
Definition satisfied_dep (nodes : gmap (string * string) NodeCols) (g dep : string) : Prop :=
  ∃ row, nodes !! (g, dep) = Some row ∧
         (nd_state row = SUCCEEDED ∨ (nd_state row = "SKIPPED"%string ∧ nd_optional row = true)).

(** The attempt a schedule adds: newest of its node, and no clash in the table. *)
Definition fresh_attempt (g n id : string) (a : AttemptCols) (attempts : gmap string AttemptCols)
    : Prop :=
  id = graph_attempt_id g n (at_retry_no a) ∧
  at_graph_id a = g ∧ at_node_id a = n ∧ at_status a = RUNNING ∧ at_retry_no a <= i32_max ∧
  attempts !! id = None ∧
  (∀ id' b, attempts !! id' = Some b → at_node_id b = n → at_retry_no b ≠ at_retry_no a) ∧
  (∀ id' b, attempts !! id' = Some b → at_graph_id b = g → at_node_id b = n →
     at_retry_no b < at_retry_no a ∧
     ∀ e e', at_worker_epoch b = Some e → at_worker_epoch a = Some e' → e < e') ∧
  (at_retry_no a = 0 ∨ ∃ id' b, attempts !! id' = Some b ∧ at_graph_id b = g ∧ at_node_id b = n ∧
                                at_retry_no b = at_retry_no a - 1).

(** A live attempt of a node. *)
Definition live_attempt (c : core) (g n id : string) (row : NodeCols) (a : AttemptCols) : Prop :=
  c_nodes c !! (g, n) = Some row ∧ nd_state row ≠ SUCCEEDED ∧
  c_attempts c !! id = Some a ∧ at_status a = RUNNING ∧ at_graph_id a = g ∧ at_node_id a = n.

(** [budget] is the [max_attempts] of the fail verbs; [rt] allows explicit retries. *)
Inductive gstep (rt : bool) (budget : Z) (c : core) : core → Prop :=
| step_schedule g n row id a :
    c_nodes c !! (g, n) = Some row → nd_state row = "READY"%string →
    fresh_attempt g n id a (c_attempts c) →
    gstep rt budget c (mkCore (<[(g, n) := set_node_state RUNNING (nd_version row + 2) row]> (c_nodes c))
                      (<[id := a]> (c_attempts c)) (c_completions c))
| step_retry g n row :
    rt = true → c_nodes c !! (g, n) = Some row → nd_state row = "FAILED"%string →
    gstep rt budget c (mkCore (move g n "READY" row (c_nodes c)) (c_attempts c) (c_completions c))
| step_beat id a now :
    c_attempts c !! id = Some a → at_status a = RUNNING →
    gstep rt budget c (mkCore (c_nodes c) (<[id := beat_attempt_row now a]> (c_attempts c)) (c_completions c))
| step_commit g n row id a now r :
    live_attempt c g n id row a → c_completions c !! n = None →
    gstep rt budget c (mkCore (move_if_legal g n SUCCEEDED row (c_nodes c))
                      (<[id := finish_attempt_row SUCCEEDED now r a]> (c_attempts c))
                      (<[n := mkCompletionCols g id r now]> (c_completions c)))
| step_fail g n row id a now :
    live_attempt c g n id row a →
    gstep rt budget c (mkCore
      (move_if_legal g n (NodeStatus_as_str (fail_target (at_retry_no a) budget)) row (c_nodes c))
      (<[id := finish_attempt_row "FAILED" now None a]> (c_attempts c)) (c_completions c))
| step_flip g n row :
    c_nodes c !! (g, n) = Some row → nd_state row = "CREATED"%string →
    Forall (satisfied_dep (c_nodes c) g) (json_strings (nd_dependencies row)) →
    gstep rt budget c (mkCore (move g n "READY" row (c_nodes c)) (c_attempts c) (c_completions c))
| step_cancel g n row :
    c_nodes c !! (g, n) = Some row → transition_ok (nd_state row) "CANCELLED" = true →
    (∀ id a, c_attempts c !! id = Some a → at_graph_id a = g → at_node_id a = n → at_status a ≠ RUNNING) →
    gstep rt budget c (mkCore (move g n "CANCELLED" row (c_nodes c)) (c_attempts c) (c_completions c))
| step_cancel_running g n row id a now :
    live_attempt c g n id row a → transition_ok (nd_state row) "CANCELLED" = true →
    gstep rt budget c (mkCore (move g n "CANCELLED" row (c_nodes c))
                      (<[id := finish_attempt_row "FAILED" now None a]> (c_attempts c))
                      (c_completions c)).

(** ** Inversion of transactions *)

Lemma tx_bind_Ok {A B} (m : tx A) (k : A → tx B) d b d'' :
  tx_bind m k d = Ok (b, d'') ↔ ∃ a d', m d = Ok (a, d') ∧ k a d' = Ok (b, d'').
Proof.
  unfold tx_bind. destruct (m d) as [[a d']|e]; split; naive_solver.
Qed.

Lemma transaction_cases {A} (body : tx (ending A)) d r d' :
  transaction body d = (r, d') →
  (∃ a, body d = Ok (Commit a, d') ∧ r = Ok a) ∨ (d' = d ∧ ∀ a d1, body d ≠ Ok (Commit a, d1)).
Proof.
  unfold transaction. destruct (body d) as [[[a|a] d1]|e]; intros [= <- <-]; [|by right..].
  left. by exists a.
Qed.

Lemma transaction_Ok {A} (body : tx (ending A)) d a d' :
  transaction body d = (Ok a, d') →
  body d = Ok (Commit a, d') ∨ (d' = d ∧ ∃ d1, body d = Ok (Rollback a, d1)).
Proof.
  unfold transaction. destruct (body d) as [[[x|x] d1]|e]; intros [= <- <-]; [by left|by right; eauto].
Qed.

Section Inversion.
Context `{PgErrors}.

Lemma pg_succ_Ok what max x d v d' : pg_succ what max x d = Ok (v, d') → v = x + 1 ∧ d' = d ∧ x < max.
Proof. unfold pg_succ. destruct (Z.ltb_spec x max); intros [=]; subst; split_and!; done. Qed.

Lemma bump_Ok now g d v d' : bump_graph_version_tx now g d = Ok (v, d') → ∃ m, d' = set_graphs m d.
Proof.
  unfold bump_graph_version_tx. intros (row & d1 & [= <- <-] & H1)%tx_bind_Ok.
  destruct (db_graphs d !! g).
  - apply tx_bind_Ok in H1 as (? & ? & (-> & -> & _)%pg_succ_Ok & H1).
    apply tx_bind_Ok in H1 as (? & ? & [= <- <-] & [= <- <-]). by eexists.
  - apply tx_bind_Ok in H1 as (? & ? & [= <- <-] & [= <- <-]). by eexists.
Qed.

Lemma append_Ok now g n a v t p d x d' :
  append_event_tx now g n a v t p d = Ok (x, d') → ∃ l, d' = set_events l d.
Proof. intros [= <- <-]. by eexists. Qed.

Lemma append_usage_Ok now g n a v t p u d x d' :
  append_event_with_usage_tx now g n a v t p u d = Ok (x, d') → ∃ l, d' = set_events l d.
Proof. intros [= <- <-]. by eexists. Qed.

Lemma cas_Ok g n e v s d b d' :
  cas_node_state_tx g n e v s d = Ok (b, d') →
  transition_ok e s = true ∧
  ((b = false ∧ d' = d ∧ ∀ row, db_nodes d !! (g, n) = Some row → ¬ (nd_state row = e ∧ nd_version row = v))
   ∨ ∃ row, b = true ∧ db_nodes d !! (g, n) = Some row ∧ nd_state row = e ∧ nd_version row = v ∧
            d' = set_nodes (move g n s row (db_nodes d)) d).
Proof.
  unfold cas_node_state_tx. destruct (transition_ok e s); [|done]. simpl.
  intros (row & d1 & [= <- <-] & H1)%tx_bind_Ok. split; [done|]. unfold node_row in H1.
  destruct (db_nodes d !! (g, n)) as [row|]; [|injection H1 as <- <-; left; naive_solver].
  destruct (_ && _) eqn:E; bool_hyps.
  - apply tx_bind_Ok in H1 as (? & ? & (-> & -> & _)%pg_succ_Ok & H1).
    apply tx_bind_Ok in H1 as (? & ? & [= <- <-] & [= <- <-]). right. exists row. done.
  - injection H1 as <- <-. left. naive_solver.
  - injection H1 as <- <-. left. naive_solver.
Qed.
End Inversion.

(** Takes an equation on a transaction apart, statement by statement. *)
Ltac tx_step :=
  match goal with
  | H : tx_bind _ _ _ = Ok _ |- _ => apply tx_bind_Ok in H as (? & ? & ? & H); cbn beta in H
  | H : tx_ret _ _ = Ok _ |- _ =>
      injection H as H <-; try discriminate H; try (injection H as H);
      try match type of H with _ = ?y => subst y end
  | H : tx_read _ _ = Ok _ |- _ => injection H as <- <-
  | H : tx_write _ _ = Ok _ |- _ => injection H as <- <-
  | H : lock_graph_tx _ _ = Ok _ |- _ => injection H as <- <-
  | H : select_node _ _ _ = Ok _ |- _ => injection H as <- <-
  | H : pg_succ _ _ _ _ = Ok _ |- _ => apply pg_succ_Ok in H as (-> & -> & ?)
  | H : bump_graph_version_tx _ _ _ = Ok _ |- _ => apply bump_Ok in H as [? ->]
  | H : append_event_tx _ _ _ _ _ _ _ _ = Ok _ |- _ => apply append_Ok in H as [? ->]
  | H : append_event_with_usage_tx _ _ _ _ _ _ _ _ _ = Ok _ |- _ => apply append_usage_Ok in H as [? ->]
  end.
Ltac tx_inv := repeat tx_step.

(** A compare-and-swap missed, or moved its row. *)
Ltac cas_inv row :=
  match goal with
  | H : cas_node_state_tx _ _ _ _ _ _ = Ok _ |- _ =>
      apply cas_Ok in H as [? [(-> & -> & ?)|(row & -> & ? & ? & ? & ->)]]; simpl in *
  end.

(** ** The verbs refine the steps *)

Section Refinement.
Context `{PgErrors} (rt : bool) (budget : Z).

Lemma select_Some d g n s v :
  (λ r, (nd_state r, nd_version r)) <$> node_row g n d = Some (s, v) →
  ∃ row, db_nodes d !! (g, n) = Some row ∧ nd_state row = s ∧ nd_version row = v.
Proof. unfold node_row. destruct (db_nodes d !! (g, n)) as [row|]; [|done]. intros [= <- <-]. eauto. Qed.

Lemma max_or_spec start l : (l = [] ∧ max_or start l = start) ∨ (max_or start l ∈ l ∧ ∀ x, x ∈ l → x <= max_or start l).
Proof.
  destruct l as [|x l]; [by left|right]. simpl. induction l as [|y l [IH1 IH2]]; simpl.
  - split; [left|]. intros z ->%list_elem_of_singleton. lia.
  - split.
    + destruct (Z.max_spec y (foldr Z.max x l)) as [[_ ->]|[_ ->]]; set_solver.
    + intros z Hz. destruct (decide (z = y)) as [->|]; [lia|].
      specialize (IH2 z ltac:(set_solver)). lia.
Qed.

Lemma node_attempts_elem g n d id a :
  (id, a) ∈ node_attempts g n d ↔ db_attempts d !! id = Some a ∧ at_graph_id a = g ∧ at_node_id a = n.
Proof.
  unfold node_attempts. rewrite filterb_elem, elem_of_map_to_list, andb_true_iff.
  by rewrite !bool_decide_eq_true.
Qed.

Lemma running_attempts_elem g n d id a :
  (id, a) ∈ running_attempts g n d ↔
  db_attempts d !! id = Some a ∧ at_graph_id a = g ∧ at_node_id a = n ∧ at_status a = RUNNING.
Proof.
  unfold running_attempts. rewrite filterb_elem, node_attempts_elem, bool_decide_eq_true. naive_solver.
Qed.

Lemma attempt_conflicts_false id a d :
  attempt_conflicts id a d = false →
  db_attempts d !! id = None ∧
  ∀ id' b, db_attempts d !! id' = Some b → at_node_id b = at_node_id a → at_retry_no b ≠ at_retry_no a.
Proof.
  unfold attempt_conflicts. intros [Hid Hex]%orb_false_iff. apply bool_decide_eq_false_1 in Hid.
  split; [by apply eq_None_not_Some|]. intros id' b Hb Hn Hr.
  apply (proj1 (existsb_false _ _)) with (x := (id', b)) in Hex; [|by apply elem_of_map_to_list].
  simpl in Hex. rewrite bool_decide_true, Hr, Z.eqb_refl in Hex by done. done.
Qed.

(** The numbers a schedule gives to the new attempt. *)
Lemma next_attempt_fresh g n d a id :
  at_graph_id a = g → at_node_id a = n → at_status a = RUNNING →
  at_retry_no a = max_or (-1) ((λ r, at_retry_no r.2) <$> node_attempts g n d) + 1 →
  at_retry_no a <= i32_max →
  at_worker_epoch a = Some (max_or 0 (omap (λ r, at_worker_epoch r.2) (node_attempts g n d)) + 1) →
  id = graph_attempt_id g n (at_retry_no a) → attempt_conflicts id a d = false →
  fresh_attempt g n id a (db_attempts d).
Proof.
  intros Hg Hn Hs Hr Hmax He Hid [Hfree Huniq]%attempt_conflicts_false.
  split_and!; try done.
  - intros id' b Hb Hbn. apply (Huniq id' b Hb). congruence.
  - intros id' b Hb Hbg Hbn. assert ((id', b) ∈ node_attempts g n d) as Hin by by apply node_attempts_elem.
    split.
    + destruct (max_or_spec (-1) ((λ r, at_retry_no r.2) <$> node_attempts g n d)) as [[Hnil _]|[_ Hle]].
      { apply fmap_nil_inv in Hnil. rewrite Hnil in Hin. by apply elem_of_nil in Hin. }
      specialize (Hle (at_retry_no b) ltac:(apply list_elem_of_fmap; by exists (id', b))). lia.
    + intros e e' Hbe Hae. rewrite He in Hae. injection Hae as <-.
      destruct (max_or_spec 0 (omap (λ r, at_worker_epoch r.2) (node_attempts g n d))) as [[Hnil _]|[_ Hle]].
      { exfalso. assert (e ∈ omap (λ r, at_worker_epoch r.2) (node_attempts g n d)) as Hx.
        { apply list_elem_of_omap. by exists (id', b). }
        rewrite Hnil in Hx. by apply elem_of_nil in Hx. }
      specialize (Hle e ltac:(apply list_elem_of_omap; by exists (id', b))). lia.
  - destruct (max_or_spec (-1) ((λ r, at_retry_no r.2) <$> node_attempts g n d)) as [[_ Hnil]|[Hin _]];
      [left; lia|right].
    apply list_elem_of_fmap in Hin as ([id' b] & Hm & Hin). apply node_attempts_elem in Hin as (Hb & Hbg & Hbn).
    exists id', b. simpl in Hm. split_and!; [done..|]. lia.
Qed.

Lemma move_twice g n s1 s2 row m :
  move g n s2 (set_node_state s1 (nd_version row + 1) row) (move g n s1 row m) =
  <[(g, n) := set_node_state s2 (nd_version row + 2) row]> m.
Proof.
  unfold move. rewrite insert_insert_eq. unfold set_node_state. simpl.
  by replace (nd_version row + 1 + 1) with (nd_version row + 2) by lia.
Qed.

Lemma insert_attempt_Ok what id a d x d' :
  insert_attempt what id a d = Ok (x, d') →
  attempt_conflicts id a d = false ∧ d' = set_attempts (<[id := a]> (db_attempts d)) d.
Proof.
  unfold insert_attempt. destruct (attempt_conflicts id a d); [done|].
  destruct (has_node _ _ d); [|done]. by intros [= _ <-].
Qed.

Lemma schedule_refines now g n w d r d' :
  schedule_attempt now g n w d = (r, d') →
  d' = d ∨ ∃ id, r = Ok (Some id) ∧ gstep rt budget (core_of d) (core_of d').
Proof.
  intros [(a & Hb & ->)|[-> Hno]]%transaction_cases; [right|by left].
  tx_inv. destruct (_ <$> node_row g n d) as [[s v]|] eqn:E; [|by tx_inv].
  apply select_Some in E as (row & Hrow & <- & <-).
  destruct (_ || _) eqn:Hg; [by tx_inv|]. bool_hyps. tx_inv.
  cas_inv row1; [by tx_inv|]. simplify_eq. tx_inv. cas_inv row2; [by tx_inv|]. tx_inv.
  match goal with H : insert_attempt _ _ _ _ = Ok _ |- _ => apply insert_attempt_Ok in H as [Hc ->] end.
  eexists. split; [done|].
  assert (row2 = set_node_state "SCHEDULED" (nd_version row + 1) row) as ->.
  { unfold move in *. by simplify_map_eq. }
  unfold core_of. cbn [db_nodes db_attempts db_completions set_events set_attempts set_nodes set_graphs].
  rewrite move_twice. eapply step_schedule; [done..|].
  eapply next_attempt_fresh; try done. cbn [at_retry_no]. lia.
Qed.

Lemma schedule_Some now g n w d id d' :
  schedule_attempt now g n w d = (Ok (Some id), d') →
  ∃ row, node_row g n d = Some row ∧ nd_state row = "READY"%string.
Proof.
  intros Hs. unfold schedule_attempt in Hs.
  apply transaction_Ok in Hs as [Hb|[_ [d1 Hb]]]; tx_inv;
    (destruct (node_row g n d) as [row|]; simpl in Hb; [|by tx_inv]; exists row; split; [done|];
     destruct (bool_decide (nd_state row = _)) eqn:E;
       [by apply bool_decide_eq_true_1 in E|simpl in Hb; by tx_inv]).
Qed.

Lemma retry_refines now g n k d r d' :
  rt = true → retry_failed_node now g n k d = (r, d') →
  d' = d ∨ (r = Ok true ∧ gstep rt budget (core_of d) (core_of d')).
Proof.
  intros Hrt [(a & Hb & ->)|[-> Hno]]%transaction_cases; [right|by left].
  tx_inv. destruct (_ <$> node_row g n d) as [[s v]|] eqn:E; [|by tx_inv].
  apply select_Some in E as (row & Hrow & <- & <-).
  destruct (_ || _) eqn:Hg; [by tx_inv|]. bool_hyps. tx_inv.
  cas_inv row1; [by tx_inv|]. tx_inv. simplify_eq. split; [done|]. by eapply step_retry.
Qed.

Lemma update_attempt_Some id f d a :
  db_attempts d !! id = Some a → update_attempt id f d = set_attempts (<[id := f a]> (db_attempts d)) d.
Proof. intros Ha. unfold update_attempt. by rewrite Ha. Qed.

Lemma heartbeat_refines now id d r d' :
  heartbeat_attempt now id d = (r, d') →
  core_of d' = core_of d ∨ (r = Ok true ∧ gstep rt budget (core_of d) (core_of d')).
Proof.
  intros [(a & Hb & ->)|[-> Hno]]%transaction_cases; [|by left].
  tx_inv. destruct (db_attempts d !! id) as [row|] eqn:E; [|by tx_inv].
  destruct (_ ==? _) eqn:Hs; bool_hyps; tx_inv; [right|by left].
  erewrite update_attempt_Some by done. split; [done|]. by eapply step_beat.
Qed.

(** *** Recomputing the ready nodes *)

Lemma by_key_sort {A} (l : list (string * A)) : sort_by by_key l ≡ₚ l.
Proof. apply sort_by_perm. Qed.

Lemma created_rows_elem g d n row :
  (n, row) ∈ created_rows g d ↔ db_nodes d !! (g, n) = Some row ∧ nd_state row = "CREATED"%string.
Proof.
  unfold created_rows. rewrite by_key_sort, list_elem_of_omap. split.
  - intros ([[g' n'] row'] & Hin & Hif). destruct (_ && _) eqn:E; bool_hyps; simplify_eq.
    by apply elem_of_map_to_list in Hin.
  - intros [Hrow Hs]. exists ((g, n), row). split; [by apply elem_of_map_to_list|].
    by rewrite Hs, !bool_decide_true by done.
Qed.

Lemma omap_fst_NoDup {B C} (g : string) (p : B → bool) (f : B → C) (l : list ((string * string) * B)) :
  NoDup l.*1 →
  NoDup (omap (λ '((g', n), row), if (g' ==? g) && p row then Some (n, f row) else None) l).*1.
Proof.
  induction l as [|[[g' n] row] l IH]; simpl; intros Hl; [constructor|].
  apply NoDup_cons in Hl as [Hnin Hl]. specialize (IH Hl).
  destruct (_ && _) eqn:E; [|done]. simpl. apply NoDup_cons. split; [|done].
  bool_hyps. subst. intros ([n2 c] & -> & Hin)%list_elem_of_fmap. simpl in *.
  apply list_elem_of_omap in Hin as ([[g2 n2'] row2] & Hin & Hif).
  destruct (_ && _) eqn:E2; bool_hyps; simplify_eq.
  apply Hnin, list_elem_of_fmap. by exists ((g, n2), row2).
Qed.

Lemma created_rows_NoDup g d : NoDup (created_rows g d).*1.
Proof.
  unfold created_rows. rewrite by_key_sort.
  apply (omap_fst_NoDup g (λ row, nd_state row ==? "CREATED"%string) id).
  apply NoDup_fst_map_to_list.
Qed.

Lemma dep_satisfied_iff g d dep :
  dep_satisfied (satisfied_rows g d) dep = true ↔ satisfied_dep (db_nodes d) g dep.
Proof.
  unfold dep_satisfied, satisfied_rows, satisfied_dep. rewrite existsb_true. split.
  - intros ([id [state opt]] & Hin & Hif). apply list_elem_of_omap in Hin as ([[g' n] row] & Hin & Hi).
    destruct (_ && (_ || _)) eqn:E; [|done]. apply elem_of_map_to_list in Hin. simplify_eq.
    apply andb_true_iff in E as [->%bool_decide_eq_true_1 E]. apply andb_true_iff in Hif as [->%bool_decide_eq_true_1 Hif].
    exists row. split; [done|]. apply orb_true_iff in Hif as [Hif|Hif].
    + left. by apply bool_decide_eq_true_1 in Hif.
    + apply orb_true_iff in E as [E|E]; apply bool_decide_eq_true_1 in E; [by left|by right].
  - intros (row & Hrow & Hs). exists (dep, (nd_state row, nd_optional row)). split.
    + apply list_elem_of_omap. exists ((g, dep), row). split; [by apply elem_of_map_to_list|].
      rewrite (bool_decide_true (g = g)) by done. by destruct Hs as [->|[-> _]].
    + rewrite (bool_decide_true (dep = dep)) by done. simpl. apply orb_true_iff.
      destruct Hs as [Hs|[_ ->]]; [left; by rewrite Hs|by right].
Qed.

Definition all_satisfied (nodes : gmap (string * string) NodeCols) (g : string) (row : NodeCols) : Prop :=
  Forall (satisfied_dep nodes g) (json_strings (nd_dependencies row)).

Definition flips (g : string) (l : list (string * NodeCols)) (m : gmap (string * string) NodeCols) :=
  foldl (λ m '(n, row), move g n "READY" row m) m l.

(** What a statement leaves alone when it moves nodes only. *)
Definition only_nodes (d d' : GraphDb) : Prop :=
  db_attempts d' = db_attempts d ∧ db_completions d' = db_completions d.

Lemma satisfied_dep_move g n s row m g' dep :
  m !! (g, n) = Some row → nd_state row ≠ SUCCEEDED → nd_state row ≠ "SKIPPED"%string →
  satisfied_dep m g' dep → satisfied_dep (move g n s row m) g' dep.
Proof.
  intros Hrow H1 H2 (r & Hr & Hs). exists r. split; [|done]. unfold move.
  rewrite lookup_insert_ne; [done|]. intros [= <- <-]. rewrite Hrow in Hr. simplify_eq.
  destruct Hs as [|[]]; done.
Qed.

Lemma bump_unless_Ok (gv : option Z) now g d v d' :
  match gv with Some v => tx_ret v | None => bump_graph_version_tx now g end d = Ok (v, d') →
  ∃ m, d' = set_graphs m d.
Proof. destruct gv; [|apply bump_Ok]. intros [= <- <-]. exists (db_graphs d). by destruct d. Qed.

Lemma recompute_loop_Ok now g satisfied cands gv flipped d fl d' :
  recompute_loop now g satisfied cands gv flipped d = Ok (fl, d') →
  NoDup cands.*1 →
  (∀ n row, (n, row) ∈ cands → db_nodes d !! (g, n) = Some row ∧ nd_state row = "CREATED"%string) →
  (∀ dep, dep_satisfied satisfied dep = true → satisfied_dep (db_nodes d) g dep) →
  let ready := filterb (λ r, forallb (dep_satisfied satisfied) (json_strings (nd_dependencies r.2))) cands in
  fl = flipped ++ ready.*1 ∧ db_nodes d' = flips g ready (db_nodes d) ∧ only_nodes d d' ∧
  rtc (gstep rt budget) (core_of d) (core_of d').
Proof.
  revert gv flipped d. induction cands as [|[n row] cands IH]; intros gv flipped d Hrun Hnd Hc Hs; simpl in *.
  { tx_inv. by rewrite app_nil_r. }
  apply NoDup_cons in Hnd as [Hn Hnd].
  destruct (forallb _ _) eqn:Hall; simpl in Hrun.
  2:{ apply (IH _ _ _ Hrun); [done| |done]. intros n' row' Hin. apply Hc. by right. }
  destruct (Hc n row ltac:(left)) as [Hrow Hst].
  apply tx_bind_Ok in Hrun as (moved & d1 & Hcas & Hrun). cas_inv row'; [naive_solver|].
  assert (row' = row) as -> by congruence. tx_inv.
  match goal with H : _ = Ok (_, x0) |- _ => apply bump_unless_Ok in H as [m ->] end.
  eapply IH in Hrun as (-> & Hnodes & [Ha Hco] & Hsteps); [|done|..]; simpl in *.
  - split_and!; [by rewrite <-app_assoc|by rewrite Hnodes|by split|].
    eapply rtc_l; [|exact Hsteps]. eapply step_flip; [done..|].
    apply Forall_forall. intros dep Hdep. apply Hs.
    rewrite forallb_forall in Hall. by apply Hall, list_elem_of_In.
  - intros n' row' Hin. destruct (Hc n' row' ltac:(by right)) as [? ?]. split; [|done].
    unfold move. rewrite lookup_insert_ne; [done|]. intros [= ->]. apply Hn, list_elem_of_fmap. by exists (n', row').
  - intros dep Hdep. apply satisfied_dep_move; [done|by rewrite Hst..|by apply Hs].
Qed.

Lemma recompute_ready_tx_Ok now g gv d fl d' :
  recompute_ready_tx now g gv d = Ok (fl, d') →
  let ready := filterb (λ r, forallb (dep_satisfied (satisfied_rows g d)) (json_strings (nd_dependencies r.2)))
                 (created_rows g d) in
  fl = ready.*1 ∧ db_nodes d' = flips g ready (db_nodes d) ∧ only_nodes d d' ∧
  rtc (gstep rt budget) (core_of d) (core_of d').
Proof.
  unfold recompute_ready_tx. intros Hrun. tx_inv. simpl.
  assert (∀ n row, (n, row) ∈ created_rows g d → db_nodes d !! (g, n) = Some row ∧ nd_state row = "CREATED"%string)
    as Hc by (intros n row; apply created_rows_elem).
  pose proof (created_rows_NoDup g d) as Hnd. revert Hrun Hc Hnd.
  destruct (created_rows g d) as [|c cs]; intros Hrun Hc Hnd; [by tx_inv|]. tx_inv.
  eapply recompute_loop_Ok in Hrun; [exact Hrun|done..|]; intros dep. apply dep_satisfied_iff.
Qed.

(** *** Commit, fail, cancel *)

Definition committed (g n id : string) (now : Instant) (r : option string) (row : NodeCols)
    (a : AttemptCols) (c : core) : core :=
  mkCore (move_if_legal g n SUCCEEDED row (c_nodes c))
    (<[id := finish_attempt_row SUCCEEDED now r a]> (c_attempts c))
    (<[n := mkCompletionCols g id r now]> (c_completions c)).

(** A compare-and-swap of the row just read, guarded by the state machine. *)
Lemma guarded_cas_Ok g n s row d b d' :
  db_nodes d !! (g, n) = Some row →
  (if transition_ok (nd_state row) s then cas_node_state_tx g n (nd_state row) (nd_version row) s
   else tx_ret false) d = Ok (b, d') →
  d' = set_nodes (move_if_legal g n s row (db_nodes d)) d.
Proof.
  intros Hrow. unfold move_if_legal. destruct (transition_ok _ s).
  - intros Hc. cas_inv row'; [naive_solver|]. by simplify_eq.
  - intros [= _ <-]. by destruct d.
Qed.

Lemma settle_commit_Ok now g n id r rep steps u row a d x d' :
  settle_commit now g n id r rep steps u (nd_state row) (nd_version row) d = Ok (x, d') →
  db_nodes d !! (g, n) = Some row → db_attempts d !! id = Some a → at_status a = RUNNING →
  let c := mkCore (move_if_legal g n SUCCEEDED row (db_nodes d))
             (<[id := finish_attempt_row SUCCEEDED now r a]> (db_attempts d)) (db_completions d) in
  rtc (gstep rt budget) c (core_of d') ∧ c_attempts (core_of d') = c_attempts c ∧
  c_completions (core_of d') = c_completions c.
Proof.
  intros Hrun Hrow Ha Hst. unfold settle_commit in Hrun. tx_inv. simpl in *.
  rewrite Ha, Hst in *. rewrite bool_decide_true in * by done. tx_inv.
  erewrite update_attempt_Some in * by done. simpl in *.
  match goal with H : (if transition_ok _ _ then _ else _) _ = Ok _ |- _ =>
    eapply guarded_cas_Ok in H as ->; [|done] end.
  simpl in *.
  match goal with H : recompute_ready_tx _ _ _ _ = Ok _ |- _ =>
    apply recompute_ready_tx_Ok in H as (_ & _ & [H1 H2] & H3) end.
  simpl in *. done.
Qed.

Lemma commit_refines now g n id r u steps d res d' :
  (∀ a, db_attempts d !! id = Some a → at_graph_id a = g ∧ at_node_id a = n) →
  commit_once now g n id r u steps d = (res, d') →
  (res ≠ Ok true ∧ core_of d' = core_of d) ∨
  (res = Ok true ∧ ∃ row a, live_attempt (core_of d) g n id row a ∧ db_completions d !! n = None ∧
     let c := committed g n id now r row a (core_of d) in
     gstep rt budget (core_of d) c ∧ rtc (gstep rt budget) c (core_of d') ∧
     c_attempts (core_of d') = c_attempts c ∧ c_completions (core_of d') = c_completions c).
Proof.
  intros Hown Hrun. unfold commit_once in Hrun.
  assert (∀ reason d1 d2 x, core_of d1 = core_of d → late_commit now g n id reason d1 = Ok (x, d2) →
            x = Commit false ∧ core_of d2 = core_of d) as Hlate.
  { intros reason d1 d2 x Hd1 Hl. unfold late_commit in Hl. tx_inv. done. }
  unfold transaction in Hrun. destruct (tx_bind _ _ d) as [[e d1]|e] eqn:Hb; [|by simplify_eq; left].
  tx_inv. destruct (_ <$> node_row g n d) as [[s v]|] eqn:E;
    [|eapply Hlate in Hb as [-> Hd]; [|done]; injection Hrun as <- <-; by left].
  apply select_Some in E as (row & Hrow & <- & <-).
  destruct (db_attempts d !! id) as [a|] eqn:Ha;
    [|eapply Hlate in Hb as [-> Hd]; [|done]; injection Hrun as <- <-; by left].
  destruct (_ || _) eqn:Hf; [eapply Hlate in Hb as [-> Hd]; [|done]; injection Hrun as <- <-; by left|].
  apply orb_false_iff in Hf as [Hf1%bool_decide_eq_false_1 Hf2%negb_false_iff%bool_decide_eq_true_1].
  tx_inv. unfold insert_completion_or_nothing in *.
  destruct (bool_decide _) eqn:Hc in H0.
  { simplify_eq. simpl in Hb. eapply Hlate in Hb as [-> Hd]; [|done]. injection Hrun as <- <-. by left. }
  destruct (has_node _ _ d); [|done]. simplify_eq. simpl in Hb. tx_inv. simplify_eq. right.
  apply bool_decide_eq_false_1, eq_None_not_Some in Hc.
  destruct (Hown a eq_refl) as [Hg Hn].
  match goal with H : settle_commit _ _ _ _ _ _ _ _ _ _ _ = Ok _ |- _ =>
    eapply settle_commit_Ok in H as (Hr & Hr1 & Hr2); [|done..] end.
  assert (live_attempt (core_of d) g n id row a) as Hlive by done.
  split; [done|]. exists row, a. split; [done|]. split; [done|]. split; [by eapply step_commit|]. done.
Qed.

Lemma fail_tx_refines now g n id reason d o d' :
  (∀ a, db_attempts d !! id = Some a → at_graph_id a = g ∧ at_node_id a = n) →
  fail_attempt_tx now g n id budget reason d = Ok (o, d') →
  (o = Fenced ∧ core_of d' = core_of d) ∨
  (∃ row a, live_attempt (core_of d) g n id row a ∧
     o = (if decide (fail_target (at_retry_no a) budget = NodeReady) then RearmedToReady else NodeFailedOutcome) ∧
     gstep rt budget (core_of d) (core_of d')).
Proof.
  intros Hown Hrun. unfold fail_attempt_tx in Hrun. tx_inv.
  destruct (_ <$> node_row g n d) as [[s v]|] eqn:E; [|left; by tx_inv].
  apply select_Some in E as (row & Hrow & <- & <-).
  destruct (db_attempts d !! id) as [a|] eqn:Ha; [|left; by tx_inv].
  destruct (_ && _) eqn:Hf; [|left; by tx_inv]. right.
  apply andb_true_iff in Hf as [Hf1%bool_decide_eq_true_1 Hf2%negb_true_iff%bool_decide_eq_false_1].
  destruct (Hown a eq_refl) as [Hg Hn].
  assert (live_attempt (core_of d) g n id row a) as Hlive by done.
  exists row, a. split; [done|].
  unfold fail_live_attempt in Hrun. tx_inv. simpl in *. erewrite update_attempt_Some in * by done. simpl in *.
  split. { destruct (fail_target _ _); by vm_compute. }
  match goal with |- gstep _ _ _ (core_of ?dd) => rename dd into d' end.
  assert (core_of d' = mkCore (move_if_legal g n (NodeStatus_as_str (fail_target (at_retry_no a) budget)) row (db_nodes d))
      (<[id := finish_attempt_row "FAILED" now None a]> (db_attempts d)) (db_completions d)) as ->;
    [|by eapply (step_fail rt budget (core_of d))].
  unfold move_if_legal. destruct (transition_ok _ _); tx_inv; [|done].
  cas_inv row'; [naive_solver|]. by simplify_eq.
Qed.

Lemma fail_refines now g n id reason d r d' :
  (∀ a, db_attempts d !! id = Some a → at_graph_id a = g ∧ at_node_id a = n) →
  fail_attempt now g n id budget reason d = (r, d') →
  core_of d' = core_of d ∨ gstep rt budget (core_of d) (core_of d').
Proof.
  intros Hown [(a & Hb & ->)|[-> Hno]]%transaction_cases; [|by left]. tx_inv. simplify_eq.
  match goal with H : fail_attempt_tx _ _ _ _ _ _ _ = Ok _ |- _ =>
    apply fail_tx_refines in H as [[_ ?]|(? & ? & _ & _ & ?)]; [by left|by right|done] end.
Qed.

Lemma running_attempt_spec g n d :
  match running_attempt g n d with
  | Some id => ∃ a, (id, a) ∈ running_attempts g n d
  | None => running_attempts g n d = []
  end.
Proof.
  unfold running_attempt. pose proof (by_key_sort (running_attempts g n d)) as Hp.
  destruct (sort_by by_key _) as [|[id a] l]; simpl.
  - symmetry. by apply Permutation_nil_l.
  - exists a. rewrite <-Hp. left.
Qed.

Lemma cancel_tx_refines now g ns acc d r d' :
  cancel_nodes_tx now g ns acc d = Ok (r, d') → rtc (gstep rt budget) (core_of d) (core_of d').
Proof.
  revert acc d. induction ns as [|n ns IH]; intros acc d Hrun; simpl in Hrun; [by tx_inv|]. tx_inv.
  destruct (_ <$> node_row g n d) as [[s v]|] eqn:E; [|by eapply IH].
  apply select_Some in E as (row & Hrow & <- & <-).
  destruct (transition_ok _ _) eqn:Ht; simpl in Hrun; [|by eapply IH]. tx_inv.
  pose proof (running_attempt_spec g n d) as Hr.
  assert (nd_state row ≠ SUCCEEDED) as Hns.
  { intros Hs. rewrite Hs in Ht. by rewrite (terminal_has_no_edge NodeSucceeded) in Ht. }
  destruct (running_attempt g n d) as [id|]; tx_inv; simpl in *.
  - destruct Hr as [a (Ha & Hg & Hn & Hst)%running_attempts_elem].
    erewrite update_attempt_Some in * by done. simpl in *. cas_inv row'; [naive_solver|]. simplify_eq.
    eapply rtc_l; [|by eapply IH]. eapply (step_cancel_running rt budget (core_of d)); done.
  - cas_inv row'; [naive_solver|]. simplify_eq. eapply rtc_l; [|by eapply IH].
    eapply (step_cancel rt budget (core_of d)); [done..|]. intros id a Ha Hg Hn Hst.
    assert ((id, a) ∈ running_attempts g n d) as Hin by by apply running_attempts_elem.
    rewrite Hr in Hin. by apply elem_of_nil in Hin.
Qed.
End Refinement.

(** ** Runs *)

(** The transactions of the store, as the gateway issues them. *)
Inductive verb : Type :=
| VSchedule (g n : string) (worker_id : option string)
| VRetry (g n : string) (dispatch_attempt : Z)
| VHeartbeat (id : string)
| VCommit (g n id : string) (r : option string) (u : option SubtaskUsage)
    (steps : option (list StepUsage))
| VFail (g n id reason : string)
| VRecompute (g : string)
| VCancel (g : string) (ns : list string).

Section Runs.
Context `{PgErrors} (rt : bool) (budget : Z).

Definition perform (now : Instant) (v : verb) (d : GraphDb) : GraphDb :=
  match v with
  | VSchedule g n w => (schedule_attempt now g n w d).2
  | VRetry g n k => (retry_failed_node now g n k d).2
  | VHeartbeat id => (heartbeat_attempt now id d).2
  | VCommit g n id r u steps => (commit_once now g n id r u steps d).2
  | VFail g n id reason => (fail_attempt now g n id budget reason d).2
  | VRecompute g => (recompute_ready now g d).2
  | VCancel g ns => (cancel_nodes now g ns d).2
  end.

(** The attempt a commit or a fail names is one of the node's (or unknown). *)
Definition owns (g n id : string) (d : GraphDb) : Prop :=
  ∀ a, db_attempts d !! id = Some a → at_graph_id a = g ∧ at_node_id a = n.

Definition allowed (v : verb) (d : GraphDb) : Prop :=
  match v with
  | VCommit g n id _ _ _ | VFail g n id _ => owns g n id d
  | VRetry _ _ _ => rt = true
  | _ => True
  end.

Definition vstep (d d' : GraphDb) : Prop := ∃ now v, allowed v d ∧ d' = perform now v d.

Lemma core_step_rtc c c' : c' = c ∨ gstep rt budget c c' → rtc (gstep rt budget) c c'.
Proof. intros [->|Hs]; [done|by apply rtc_once]. Qed.

Lemma vstep_refines d d' : vstep d d' → rtc (gstep rt budget) (core_of d) (core_of d').
Proof.
  intros (now & v & Hal & ->). destruct v as [g n w|g n k|id|g n id r u steps|g n id reason|g|g ns]; simpl in *.
  - destruct (schedule_attempt now g n w d) as [r d'] eqn:E. cbn [snd]. apply core_step_rtc.
    eapply (schedule_refines rt budget) in E as [->|(? & _ & ?)]; [by left|by right].
  - destruct (retry_failed_node now g n k d) as [r d'] eqn:E. cbn [snd]. apply core_step_rtc.
    eapply (retry_refines rt budget) in E as [->|(_ & ?)]; [by left|by right|done].
  - destruct (heartbeat_attempt now id d) as [r d'] eqn:E. cbn [snd]. apply core_step_rtc.
    eapply (heartbeat_refines rt budget) in E as [->|(_ & ?)]; [by left|by right].
  - destruct (commit_once now g n id r u steps d) as [res d'] eqn:E. cbn [snd].
    eapply (commit_refines rt budget) in E as [[_ ->]|(_ & row & a & _ & _ & Hs & Hr & _)]; [done| |done].
    by eapply rtc_l.
  - destruct (fail_attempt now g n id budget reason d) as [r d'] eqn:E. cbn [snd]. apply core_step_rtc.
    eapply (fail_refines rt budget) in E; [|done]. destruct E as [->|?]; [by left|by right].
  - destruct (recompute_ready now g d) as [r d'] eqn:E. cbn [snd]. unfold recompute_ready in E.
    apply transaction_cases in E as [(a & Hb & _)|[-> _]]; [|done]. tx_inv.
    match goal with H : recompute_ready_tx _ _ _ _ = Ok _ |- _ =>
      by apply (recompute_ready_tx_Ok rt budget) in H as (_ & _ & _ & ?) end.
  - destruct (cancel_nodes now g ns d) as [r d'] eqn:E. cbn [snd]. unfold cancel_nodes in E.
    apply transaction_cases in E as [(a & Hb & _)|[-> _]]; [|done]. tx_inv.
    match goal with H : cancel_nodes_tx _ _ _ _ _ = Ok _ |- _ =>
      by apply (cancel_tx_refines rt budget) in H end.
Qed.

Lemma run_refines d d' : rtc vstep d d' → rtc (gstep rt budget) (core_of d) (core_of d').
Proof.
  induction 1 as [|d1 d2 d3 Hs _ IH]; [done|]. etrans; [by apply vstep_refines|done].
Qed.

(** An invariant of the steps is an invariant of the runs. *)
Lemma run_keeps (P : core → Prop) d d' :
  (∀ c c', gstep rt budget c c' → P c → P c') → rtc vstep d d' → P (core_of d) → P (core_of d').
Proof.
  intros HP Hrun%run_refines. revert Hrun. generalize (core_of d), (core_of d').
  induction 1 as [|c1 c2 c3 Hs _ IH]; [done|]. intros Hc. by apply IH, (HP c1).
Qed.
End Runs.
