(* ===== verification/GraphProps.v ===== *)
(** * Theorems about the graph store

    Invariants of the runs of GraphSteps.v: fencing, legal moves, dependencies first, a
    bounded number of attempts; then what [recompute_ready] and the closure do.  Runs in which
    the mirror takes part are in GraphRuns.v. *)

From Stdlib Require Import String Ascii.
From S2P Require Import Prelude RustStr Task Envelope Graph GraphStore GraphMirror GraphSteps.

(** ** What a step does to a row *)

Definition edge (a b : string) : Prop := transition_ok a b = true.

(** The row moved along edges of the state machine; its version counts them, and no other
    column changed. *)
Definition moved (row row' : NodeCols) : Prop :=
  ∃ k, nsteps edge k (nd_state row) (nd_state row') ∧
       row' = set_node_state (nd_state row') (nd_version row + Z.of_nat k) row.

Lemma moved_refl row : moved row row.
Proof. exists 0%nat. split; [constructor|]. destruct row. unfold set_node_state. simpl. f_equal. lia. Qed.

Lemma moved_trans r1 r2 r3 : moved r1 r2 → moved r2 r3 → moved r1 r3.
Proof.
  intros (k & H1 & E1) (j & H2 & E2). exists (k + j)%nat. split; [by eapply nsteps_trans|].
  rewrite E2, E1. unfold set_node_state. simpl. f_equal. lia.
Qed.

Lemma moved_once row s : edge (nd_state row) s → moved row (set_node_state s (nd_version row + 1) row).
Proof. intros He. exists 1%nat. split; [by apply nsteps_once|done]. Qed.

Lemma moved_from_terminal s row row' :
  NodeStatus_is_terminal s = true → nd_state row = NodeStatus_as_str s → moved row row' → row' = row.
Proof.
  intros Hs Hrow (k & Hk & E). inversion Hk as [x E0 E1 E2|k' x y z Hy Hrest]; subst.
  - rewrite E, <-E2. destruct row. unfold set_node_state. simpl. f_equal. lia.
  - exfalso. unfold edge in Hy. rewrite Hrow in Hy. by rewrite (terminal_has_no_edge s y Hs) in Hy.
Qed.

Section Steps.
Context {rt : bool} {budget : Z}.
#[local] Notation gstep := (gstep rt budget).

Lemma move_lookup g n s row m key r :
  m !! (g, n) = Some row → edge (nd_state row) s → m !! key = Some r →
  ∃ r', move g n s row m !! key = Some r' ∧ moved r r'.
Proof.
  intros Hrow He Hr. unfold move. destruct (decide (key = (g, n))) as [->|Hne].
  - simplify_eq. eexists. split; [apply lookup_insert_eq|]. by apply moved_once.
  - rewrite lookup_insert_ne by done. exists r. split; [done|apply moved_refl].
Qed.

Lemma step_moves c c' key row :
  gstep c c' → c_nodes c !! key = Some row → ∃ row', c_nodes c' !! key = Some row' ∧ moved row row'.
Proof.
  intros Hs Hrow.
  assert (c_nodes c !! key = Some row → ∃ row', c_nodes c !! key = Some row' ∧ moved row row') as Hsame
    by (intros; exists row; split; [done|apply moved_refl]).
  destruct Hs as [g n r id a Hr Hst _|g n r _ Hr Hst|id a now Ha _|g n r id a now o (Hr & _) _
                 |g n r id a now (Hr & _)|g n r Hr Hst _|g n r Hr Ht _|g n r id a now (Hr & _) Ht]; simpl.
  - destruct (decide (key = (g, n))) as [->|Hne]; [|rewrite lookup_insert_ne by done; auto].
    simplify_eq. eexists. split; [apply lookup_insert_eq|].
    exists 2%nat. simpl. rewrite Hst. split; [|done]. by apply (nsteps_l _ _ _ "SCHEDULED"%string), nsteps_once.
  - apply move_lookup; [done| |done]. by rewrite Hst.
  - auto.
  - unfold move_if_legal. destruct (transition_ok _ _) eqn:E; [by apply move_lookup|auto].
  - unfold move_if_legal. destruct (transition_ok _ _) eqn:E; [by apply move_lookup|auto].
  - apply move_lookup; [done| |done]. by rewrite Hst.
  - by apply move_lookup.
  - by apply move_lookup.
Qed.

(** An attempt row keeps its identity, and does not change once it has stopped running. *)
Definition same_attempt (a a' : AttemptCols) : Prop :=
  at_graph_id a' = at_graph_id a ∧ at_node_id a' = at_node_id a ∧ at_retry_no a' = at_retry_no a ∧
  at_worker_epoch a' = at_worker_epoch a ∧ (at_status a ≠ RUNNING → a' = a).

Lemma step_attempt c c' id a :
  gstep c c' → c_attempts c !! id = Some a → ∃ a', c_attempts c' !! id = Some a' ∧ same_attempt a a'.
Proof.
  intros Hs Ha.
  assert (∀ id' b b', c_attempts c !! id' = Some b → same_attempt b b' →
            ∃ a', <[id' := b']> (c_attempts c) !! id = Some a' ∧ same_attempt a a') as Hins.
  { intros id' b b' Hb Hsame. destruct (decide (id = id')) as [->|Hne].
    - rewrite lookup_insert_eq. simplify_eq. eauto.
    - rewrite lookup_insert_ne by done. exists a. by split. }
  assert (∃ a', c_attempts c !! id = Some a' ∧ same_attempt a a') as Hsame by (exists a; by split).
  destruct Hs as [g n r id' a' Hr Hst (_ & _ & _ & _ & _ & Hnone & _)|g n r _ Hr Hst|id' b now Hb Hrun
                 |g n r id' b now o (_ & _ & Hb & Hrun & _) _|g n r id' b now (_ & _ & Hb & Hrun & _)
                 |g n r Hr Hst _|g n r Hr Ht _|g n r id' b now (_ & _ & Hb & Hrun & _) Ht]; simpl; try done.
  - rewrite lookup_insert_ne by congruence. done.
  - apply (Hins id' b); [done|]. by split_and!.
  - apply (Hins id' b); [done|]. by split_and!.
  - apply (Hins id' b); [done|]. by split_and!.
  - apply (Hins id' b); [done|]. by split_and!.
Qed.

Lemma step_completion c c' n co :
  gstep c c' → c_completions c !! n = Some co → c_completions c' !! n = Some co.
Proof.
  intros Hs Hco. destruct Hs as [| | |g n' r id' b now o _ Hnone| | | |]; simpl; try done.
  rewrite lookup_insert_ne; [done|]. congruence.
Qed.

(** The same for any number of steps. *)
Lemma steps_moves c c' key row :
  rtc gstep c c' → c_nodes c !! key = Some row → ∃ row', c_nodes c' !! key = Some row' ∧ moved row row'.
Proof.
  intros Hs. revert row. induction Hs as [|c1 c2 c3 H1 _ IH]; intros row Hrow; [eauto using moved_refl|].
  destruct (step_moves _ _ _ _ H1 Hrow) as (r2 & H2 & M2). destruct (IH r2 H2) as (r3 & H3 & M3).
  eauto using moved_trans.
Qed.

Lemma steps_attempt c c' id a :
  rtc gstep c c' → c_attempts c !! id = Some a → ∃ a', c_attempts c' !! id = Some a' ∧ same_attempt a a'.
Proof.
  intros Hs. revert a. induction Hs as [|c1 c2 c3 H1 _ IH]; intros a Ha; [exists a; by split|].
  destruct (step_attempt _ _ _ _ H1 Ha) as (a2 & H2 & (E1 & E2 & E3 & E4 & E5)).
  destruct (IH a2 H2) as (a3 & H3 & (F1 & F2 & F3 & F4 & F5)).
  exists a3. split; [done|]. split_and!; try congruence.
  intros Hn. rewrite (F5 ltac:(by rewrite (E5 Hn))). by apply E5.
Qed.

Lemma steps_completion c c' n co :
  rtc gstep c c' → c_completions c !! n = Some co → c_completions c' !! n = Some co.
Proof. induction 1 as [|c1 c2 c3 H1 _ IH]; [done|]. intros Hco. by apply IH, (step_completion c1). Qed.
End Steps.

(** ** The invariant *)

(** Attempts belong to nodes and are numbered apart; a running attempt is the newest of a
    running node; the succeeded nodes are the ones with a completion, whose winner is a
    succeeded attempt of the node. *)
Record ginv (c : core) : Prop := {
  gi_node : ∀ id a, c_attempts c !! id = Some a → is_Some (c_nodes c !! (at_graph_id a, at_node_id a));
  gi_key : ∀ id a, c_attempts c !! id = Some a →
    id = graph_attempt_id (at_graph_id a) (at_node_id a) (at_retry_no a) ∧ 0 <= at_retry_no a;
  gi_unique : ∀ id a id' b, c_attempts c !! id = Some a → c_attempts c !! id' = Some b →
    at_node_id a = at_node_id b → at_retry_no a = at_retry_no b → id = id';
  gi_running : ∀ id a, c_attempts c !! id = Some a → at_status a = RUNNING →
    ∃ row, c_nodes c !! (at_graph_id a, at_node_id a) = Some row ∧ nd_state row = RUNNING;
  gi_newest : ∀ id a id' b, c_attempts c !! id = Some a → c_attempts c !! id' = Some b →
    at_status a = RUNNING → at_graph_id a = at_graph_id b → at_node_id a = at_node_id b →
    at_retry_no b <= at_retry_no a;
  gi_succeeded : ∀ g n row, c_nodes c !! (g, n) = Some row → nd_state row = SUCCEEDED →
    ∃ co, c_completions c !! n = Some co ∧ co_graph_id co = g;
  gi_completion : ∀ n co, c_completions c !! n = Some co →
    ∃ row a, c_nodes c !! (co_graph_id co, n) = Some row ∧ nd_state row = SUCCEEDED ∧
      c_attempts c !! co_winning_attempt_id co = Some a ∧ at_status a = SUCCEEDED ∧
      at_graph_id a = co_graph_id co ∧ at_node_id a = n
}.

Lemma one_running c id a id' b :
  ginv c → c_attempts c !! id = Some a → c_attempts c !! id' = Some b →
  at_status a = RUNNING → at_status b = RUNNING →
  at_graph_id a = at_graph_id b → at_node_id a = at_node_id b → id = id'.
Proof.
  intros Hi Ha Hb Sa Sb Hg Hn. pose proof (gi_newest c Hi _ _ _ _ Ha Hb Sa Hg Hn).
  pose proof (gi_newest c Hi _ _ _ _ Hb Ha Sb (eq_sym Hg) (eq_sym Hn)).
  eapply (gi_unique c Hi); [done..|]. lia.
Qed.

Ltac insert_cases :=
  repeat match goal with
  | H : <[_ := _]> _ !! _ = Some _ |- _ => apply lookup_insert_Some in H as [[? ?]|[? ?]]
  end; simplify_eq/=.

Lemma ginv_move c g n s row :
  ginv c → c_nodes c !! (g, n) = Some row → nd_state row ≠ SUCCEEDED → s ≠ SUCCEEDED →
  (∀ id a, c_attempts c !! id = Some a → at_graph_id a = g → at_node_id a = n → at_status a ≠ RUNNING) →
  ginv (mkCore (move g n s row (c_nodes c)) (c_attempts c) (c_completions c)).
Proof.
  intros Hi Hrow Hs Hs' Hnone. unfold move. constructor; simpl.
  - intros id a Ha. destruct (gi_node c Hi id a Ha) as [r Hr]. apply lookup_insert_is_Some'. by right.
  - apply (gi_key c Hi).
  - apply (gi_unique c Hi).
  - intros id a Ha Hst. destruct (gi_running c Hi id a Ha Hst) as (r & Hr & Hrs).
    exists r. rewrite lookup_insert_ne; [done|]. intros [= Hg Hn]. by eapply Hnone.
  - apply (gi_newest c Hi).
  - intros g' n' r Hr Hst. insert_cases. by eapply (gi_succeeded c Hi).
  - intros n' co Hco. destruct (gi_completion c Hi n' co Hco) as (r & a & Hr & Hrs & H).
    exists r, a. rewrite lookup_insert_ne; [done|]. intros [= ? ?]. congruence.
Qed.

Lemma ginv_beat c id a now :
  ginv c → c_attempts c !! id = Some a → at_status a = RUNNING →
  ginv (mkCore (c_nodes c) (<[id := beat_attempt_row now a]> (c_attempts c)) (c_completions c)).
Proof.
  intros Hi Ha Hst. constructor; simpl.
  - intros id' b Hb. insert_cases; by eapply (gi_node c Hi).
  - intros id' b Hb. insert_cases; by eapply (gi_key c Hi).
  - intros id1 b1 id2 b2 H1 H2 Hn Hr. insert_cases; [done| | |]; by eapply (gi_unique c Hi).
  - intros id' b Hb Hs. insert_cases; by eapply (gi_running c Hi).
  - intros id1 b1 id2 b2 H1 H2 Hs Hg Hn. insert_cases; [done| | |]; by eapply (gi_newest c Hi).
  - apply (gi_succeeded c Hi).
  - intros n co Hco. destruct (gi_completion c Hi n co Hco) as (r & b & Hr & Hrs & Hb & Hbs & H).
    exists r, b. rewrite lookup_insert_ne; [done|]. intros ->. congruence.
Qed.

(** The node of a live attempt is running, so every outcome of it is a legal move. *)
Lemma live_is_running c g n id row a :
  ginv c → live_attempt c g n id row a → nd_state row = RUNNING.
Proof.
  intros Hi (Hr & _ & Ha & Hst & Hg & Hn). destruct (gi_running c Hi id a Ha Hst) as (r & Hr' & Hs).
  rewrite Hg, Hn in Hr'. congruence.
Qed.

Lemma live_unique c g n id row a id' b :
  ginv c → live_attempt c g n id row a → c_attempts c !! id' = Some b → at_status b = RUNNING →
  at_graph_id b = g → at_node_id b = n → id' = id.
Proof.
  intros Hi (Hr & _ & Ha & Hst & Hg & Hn) Hb Hbs Hbg Hbn.
  eapply (one_running c id' b id a); try done; congruence.
Qed.

(** A live attempt ends: as a failure, its node anywhere but succeeded. *)
Lemma ginv_finish c g n id row a s now :
  ginv c → live_attempt c g n id row a → s ≠ SUCCEEDED →
  ginv (mkCore (move g n s row (c_nodes c)) (<[id := finish_attempt_row "FAILED" now None a]> (c_attempts c))
          (c_completions c)).
Proof.
  intros Hi Hl Hs. pose proof (live_is_running _ _ _ _ _ _ Hi Hl) as Hrun.
  pose proof Hl as (Hrow & _ & Ha & Hst & Hg & Hn). unfold move. constructor; simpl.
  - intros id' b Hb. apply lookup_insert_is_Some'. right. insert_cases; by eapply (gi_node c Hi).
  - intros id' b Hb. insert_cases; by eapply (gi_key c Hi).
  - intros id1 b1 id2 b2 H1 H2 Hn' Hr. insert_cases; [done| | |]; by eapply (gi_unique c Hi).
  - intros id' b Hb Hs'. insert_cases. destruct (gi_running c Hi id' b) as (r & Hr & Hrs); [done..|].
    exists r. rewrite lookup_insert_ne; [done|]. intros [= Hg' Hn'].
    assert (id' = id) by (eapply (live_unique c); eauto). congruence.
  - intros id1 b1 id2 b2 H1 H2 Hs' Hg' Hn'. insert_cases; by eapply (gi_newest c Hi).
  - intros g' n' r Hr Hs'. insert_cases. by eapply (gi_succeeded c Hi).
  - intros n' co Hco. destruct (gi_completion c Hi n' co Hco) as (r & b & Hr & Hrs & Hb & Hbs & H).
    exists r, b. rewrite !lookup_insert_ne; [done| |]; [intros ->; congruence|]. intros [= ? ?]. congruence.
Qed.

Lemma ginv_commit c g n id row a now r :
  ginv c → live_attempt c g n id row a → c_completions c !! n = None →
  ginv (committed g n id now r row a c).
Proof.
  intros Hi Hl Hfree. pose proof (live_is_running _ _ _ _ _ _ Hi Hl) as Hrun.
  pose proof Hl as (Hrow & _ & Ha & Hst & Hg & Hn).
  unfold committed, move_if_legal. rewrite Hrun. change (transition_ok RUNNING SUCCEEDED) with true.
  cbn match. unfold move. constructor; simpl.
  - intros id' b Hb. apply lookup_insert_is_Some'. right. insert_cases; by eapply (gi_node c Hi).
  - intros id' b Hb. insert_cases; by eapply (gi_key c Hi).
  - intros id1 b1 id2 b2 H1 H2 Hn' Hr. insert_cases; [done| | |]; by eapply (gi_unique c Hi).
  - intros id' b Hb Hs'. insert_cases. destruct (gi_running c Hi id' b) as (r' & Hr & Hrs); [done..|].
    exists r'. rewrite lookup_insert_ne; [done|]. intros [= Hg' Hn'].
    assert (id' = id) by (eapply (live_unique c); eauto). congruence.
  - intros id1 b1 id2 b2 H1 H2 Hs' Hg' Hn'. insert_cases; by eapply (gi_newest c Hi).
  - intros g' n' r' Hr Hs'. insert_cases; [eexists; split; [apply lookup_insert_eq|done]|].
    destruct (gi_succeeded c Hi g' n' r' ltac:(done) Hs') as (co & Hco & Hcg).
    exists co. rewrite lookup_insert_ne; [done|]. congruence.
  - intros n' co Hco. insert_cases.
    + eexists _, _. rewrite !lookup_insert_eq. by split_and!.
    + destruct (gi_completion c Hi n' co ltac:(done)) as (r' & b & Hr & Hrs & Hb & Hbs & H').
      exists r', b. rewrite !lookup_insert_ne; [done| |]; [intros ->; congruence|]. intros [= ? ?]. congruence.
Qed.

Lemma ginv_schedule c g n id row a v :
  ginv c → c_nodes c !! (g, n) = Some row → nd_state row = "READY"%string →
  fresh_attempt g n id a (c_attempts c) →
  ginv (mkCore (<[(g, n) := set_node_state RUNNING v row]> (c_nodes c)) (<[id := a]> (c_attempts c))
          (c_completions c)).
Proof.
  intros Hi Hrow Hst (Hid & Hg & Hn & Hrun & _ & Hnone & Huniq & Hnew & Hretry).
  assert (∀ id' b, c_attempts c !! id' = Some b → at_graph_id b = g → at_node_id b = n → at_status b ≠ RUNNING)
    as Hidle.
  { intros id' b Hb Hbg Hbn Hbs. destruct (gi_running c Hi id' b Hb Hbs) as (r & Hr & Hrs).
    rewrite Hbg, Hbn in Hr. simplify_eq. congruence. }
  constructor; simpl.
  - intros id' b Hb. apply lookup_insert_is_Some'. insert_cases; [by left|right]. by eapply (gi_node c Hi).
  - intros id' b Hb. insert_cases; [|by eapply (gi_key c Hi)]. split; [done|].
    destruct Hretry as [->|(id' & b' & Hb' & _ & _ & Hr)]; [done|]. destruct (gi_key c Hi id' b' Hb'). lia.
  - intros id1 b1 id2 b2 H1 H2 Hn' Hr. insert_cases; [done| | |by eapply (gi_unique c Hi)].
    + exfalso. by eapply Huniq.
    + exfalso. by eapply Huniq.
  - intros id' b Hb Hs'. insert_cases; [eexists; rewrite lookup_insert_eq; by split|].
    destruct (gi_running c Hi id' b) as (r & Hr & Hrs); [done..|].
    exists r. rewrite lookup_insert_ne; [done|]. intros [= Hg' Hn']. by eapply Hidle.
  - intros id1 b1 id2 b2 H1 H2 Hs' Hg' Hn'. insert_cases; [lia| | |by eapply (gi_newest c Hi)].
    + exfalso. by eapply Hidle.
    + match goal with H : c_attempts c !! _ = Some _ |- _ => apply Hnew in H as [Hlt _]; [lia|done..] end.
  - intros g' n' r Hr Hs'. insert_cases. by eapply (gi_succeeded c Hi).
  - intros n' co Hco. destruct (gi_completion c Hi n' co Hco) as (r & b & Hr & Hrs & Hb & Hbs & H).
    exists r, b. rewrite !lookup_insert_ne; [done| |]; [intros ->; congruence|]. intros [= ? ?]. congruence.
Qed.

Lemma ginv_step rt budget c c' : gstep rt budget c c' → ginv c → ginv c'.
Proof.
  intros Hs Hi.
  destruct Hs as [g n r id a Hr Hst Hf|g n r _ Hr Hst|id a now Ha Hrun|g n r id a now o Hl Hfree
                 |g n r id a now Hl|g n r Hr Hst _|g n r Hr Ht Hnone|g n r id a now Hl Ht].
  - by apply ginv_schedule.
  - apply ginv_move; [done..|by rewrite Hst|done|]. intros id a Ha Hg Hn Hrun.
    destruct (gi_running c Hi id a Ha Hrun) as (r' & Hr' & Hs'). rewrite Hg, Hn in Hr'. congruence.
  - by apply ginv_beat.
  - by apply (ginv_commit c g n id r a now o).
  - pose proof (live_is_running _ _ _ _ _ _ Hi Hl) as Hrun. unfold move_if_legal.
    destruct (transition_ok (nd_state r) _) eqn:E.
    + eapply ginv_finish; [done..|]. by destruct (fail_target _ _) eqn:Hf; unfold fail_target in Hf; destruct (_ <? _).
    + exfalso. rewrite Hrun in E. unfold fail_target in E. by destruct (_ <? _).
  - apply ginv_move; [done..|by rewrite Hst|done|]. intros id a Ha Hg Hn Hrun.
    destruct (gi_running c Hi id a Ha Hrun) as (r' & Hr' & Hs'). rewrite Hg, Hn in Hr'. congruence.
  - apply ginv_move; [done..| |done|done]. intros Hs. rewrite Hs in Ht.
    by rewrite (terminal_has_no_edge NodeSucceeded) in Ht.
  - by eapply ginv_finish.
Qed.

(** ** Runs of the store *)

Section RunProps.
Context `{PgErrors} {rt : bool} {budget : Z}.
#[local] Notation run := (rtc (vstep rt budget)).

(** What a winning commit saw. *)
Lemma commit_true_inv now g n id r u steps d :
  (commit_once now g n id r u steps d).1 = Ok true →
  ∃ row a, db_nodes d !! (g, n) = Some row ∧ nd_state row ≠ SUCCEEDED ∧
    db_attempts d !! id = Some a ∧ at_status a = RUNNING ∧ db_completions d !! n = None.
Proof.
  unfold commit_once, transaction. destruct (tx_bind _ _ d) as [[e d1]|e] eqn:Hb; [|done].
  assert (∀ reason d2 d3 x, late_commit now g n id reason d2 = Ok (x, d3) → x = Commit false) as Hlate.
  { intros reason d2 d3 x Hl. unfold late_commit in Hl. by tx_inv. }
  intros He. tx_inv. destruct (_ <$> node_row g n d) as [[s v]|] eqn:E; [|apply Hlate in Hb as ->; done].
  apply select_Some in E as (row & Hrow & <- & <-).
  destruct (db_attempts d !! id) as [a|] eqn:Ha; [|apply Hlate in Hb as ->; done].
  destruct (_ || _) eqn:Hf; [apply Hlate in Hb as ->; done|].
  apply orb_false_iff in Hf as [Hf1%bool_decide_eq_false_1 Hf2%negb_false_iff%bool_decide_eq_true_1].
  tx_inv. unfold insert_completion_or_nothing in *. destruct (bool_decide _) eqn:Hc in H0.
  { simplify_eq. simpl in Hb. apply Hlate in Hb as ->. done. }
  exists row, a. split_and!; [done..|]. by apply bool_decide_eq_false_1, eq_None_not_Some in Hc.
Qed.

Lemma run_ginv d d' : run d d' → ginv (core_of d) → ginv (core_of d').
Proof. intros Hrun. by apply (run_keeps rt budget); [apply ginv_step|]. Qed.

Lemma late_commit_event now g n id r u steps d a :
  db_attempts d !! id = Some a → at_status a ≠ RUNNING →
  ∃ e, commit_once now g n id r u steps d = (Ok false, set_events (db_events d ++ [e]) d) ∧
       ev_type e = "late_result"%string.
Proof.
  intros Ha Hst. unfold commit_once, transaction, tx_bind, lock_graph_tx, select_node, tx_read. rewrite Ha.
  destruct (_ <$> node_row g n d) as [[s v]|]; [|by eexists].
  rewrite (bool_decide_false (at_status a = RUNNING)), orb_true_r by done. by eexists.
Qed.

Lemma late_fail_event now g n id b reason d a :
  db_attempts d !! id = Some a → at_status a ≠ RUNNING →
  ∃ e, fail_attempt now g n id b reason d = (Ok Fenced, set_events (db_events d ++ [e]) d) ∧
       ev_type e = "late_result"%string.
Proof.
  intros Ha Hst. unfold fail_attempt, fail_attempt_tx, transaction, tx_bind, lock_graph_tx, select_node, tx_read.
  rewrite Ha. destruct (_ <$> node_row g n d) as [[s v]|]; [|by eexists].
  rewrite (bool_decide_false (at_status a = RUNNING)) by done. by eexists.
Qed.

(** Fencing.  An attempt that has stopped running never changes again, and whatever a
    worker still reports under its id leaves the tables alone: a commit answers false and
    a fail [Fenced], each with one [late_result] event, and a heartbeat answers false. *)
Theorem fenced_attempt_is_inert d d' id a :
  db_attempts d !! id = Some a → at_status a ≠ RUNNING → run d d' →
  db_attempts d' !! id = Some a ∧
  ∀ now g n,
    (∀ r u steps, ∃ e, ev_type e = "late_result"%string ∧
       commit_once now g n id r u steps d' = (Ok false, set_events (db_events d' ++ [e]) d')) ∧
    (∀ max reason, ∃ e, ev_type e = "late_result"%string ∧
       fail_attempt now g n id max reason d' = (Ok Fenced, set_events (db_events d' ++ [e]) d')) ∧
    heartbeat_attempt now id d' = (Ok false, d').
Proof.
  intros Ha Hst Hrun%run_refines.
  destruct (steps_attempt _ _ _ _ Hrun Ha) as (a' & Ha' & (_ & _ & _ & _ & E)). rewrite (E Hst) in Ha'.
  simpl in Ha'. split; [done|]. intros now g n. split_and!.
  - intros r u steps. edestruct late_commit_event as (e & He & Ht); [done..|]. eauto.
  - intros max reason. edestruct late_fail_event as (e & He & Ht); [done..|]. eauto.
  - unfold heartbeat_attempt, transaction, tx_bind, tx_read. rewrite Ha', bool_decide_false by done. done.
Qed.

(** Legal moves only.  However transactions interleave, a node row stays, its state
    goes along edges of the nine-state machine, its version counts the edges taken, and
    no other column of it changes. *)
Theorem nodes_move_legally d d' g n row :
  run d d' → node_row g n d = Some row → ∃ row', node_row g n d' = Some row' ∧ moved row row'.
Proof. intros Hrun%run_refines Hrow. by apply (steps_moves _ _ (g, n) row Hrun). Qed.
End RunProps.

(** ** Dependencies come first *)

(** Every node past [CREATED], cancelled and skipped ones apart, has its dependencies. *)
Definition deps_first (c : core) : Prop :=
  ∀ g n row, c_nodes c !! (g, n) = Some row →
    nd_state row ∉ ["CREATED"; "CANCELLED"; "SKIPPED"]%string →
    Forall (satisfied_dep (c_nodes c) g) (json_strings (nd_dependencies row)).

Lemma satisfied_dep_step rt budget c c' g dep :
  gstep rt budget c c' → satisfied_dep (c_nodes c) g dep → satisfied_dep (c_nodes c') g dep.
Proof.
  intros Hs (row & Hrow & Hst). destruct (step_moves _ _ _ _ Hs Hrow) as (row' & Hrow' & Hm).
  exists row'. split; [done|]. destruct Hst as [Hst|[Hst Hopt]].
  - rewrite (moved_from_terminal NodeSucceeded row row' eq_refl Hst Hm). by left.
  - rewrite (moved_from_terminal NodeSkipped row row' eq_refl Hst Hm). by right.
Qed.

(** A row of the next state is an old row, cancelled, moved from a state past [CREATED], or
    flipped because its dependencies are there. *)
Definition row_origin (c : core) (g n : string) (row' : NodeCols) : Prop :=
  ∃ row, c_nodes c !! (g, n) = Some row ∧ nd_dependencies row' = nd_dependencies row ∧
    (row' = row ∨ nd_state row' = "CANCELLED"%string ∨
     nd_state row ∉ ["CREATED"; "CANCELLED"; "SKIPPED"]%string ∨
     Forall (satisfied_dep (c_nodes c) g) (json_strings (nd_dependencies row))).

Lemma origin_insert c g1 n1 r v s g n row' :
  c_nodes c !! (g1, n1) = Some r →
  s = "CANCELLED"%string ∨ nd_state r ∉ ["CREATED"; "CANCELLED"; "SKIPPED"]%string ∨
    Forall (satisfied_dep (c_nodes c) g1) (json_strings (nd_dependencies r)) →
  <[(g1, n1) := set_node_state s v r]> (c_nodes c) !! (g, n) = Some row' → row_origin c g n row'.
Proof.
  intros Hr Hwhy [[[= <- <-] <-]|[_ H]]%lookup_insert_Some; [|exists row'; by auto].
  exists r. split; [done|]. split; [done|]. right. by destruct Hwhy as [->|[?|?]]; [left|right; left|right; right].
Qed.

Lemma step_row_origin rt budget c c' g n row' :
  ginv c → gstep rt budget c c' → c_nodes c' !! (g, n) = Some row' → row_origin c g n row'.
Proof.
  intros Hi Hs Hrow'.
  assert (∀ g1 n1 r id a s, live_attempt c g1 n1 id r a →
    move_if_legal g1 n1 s r (c_nodes c) !! (g, n) = Some row' → row_origin c g n row') as Hlive.
  { intros g1 n1 r id a s Hl. unfold move_if_legal. destruct (transition_ok _ _); [|exists row'; by auto].
    apply origin_insert; [apply Hl|]. right; left. rewrite (live_is_running _ _ _ _ _ _ Hi Hl). set_solver. }
  destruct Hs as [g1 n1 r id a Hr Hst _|g1 n1 r _ Hr Hst|id a now Ha _|g1 n1 r id a now o Hl _
                 |g1 n1 r id a now Hl|g1 n1 r Hr Hst Hall|g1 n1 r Hr Ht _|g1 n1 r id a now Hl Ht]; simpl in Hrow'.
  - eapply origin_insert; [done| |done]. right; left. rewrite Hst. set_solver.
  - eapply origin_insert; [done| |done]. right; left. rewrite Hst. set_solver.
  - exists row'. by auto.
  - by eapply Hlive.
  - by eapply Hlive.
  - eapply origin_insert; [done| |done]. by right; right.
  - eapply origin_insert; [done| |done]. by left.
  - eapply origin_insert; [apply Hl| |done]. by left.
Qed.

Lemma deps_first_step rt budget c c' :
  gstep rt budget c c' → ginv c ∧ deps_first c → ginv c' ∧ deps_first c'.
Proof.
  intros Hs [Hi Hd]. split; [by eapply ginv_step|]. intros g n row' Hrow' Hst.
  destruct (step_row_origin _ _ _ _ _ _ _ Hi Hs Hrow') as (row & Hrow & -> & Hwhy).
  assert (Forall (satisfied_dep (c_nodes c) g) (json_strings (nd_dependencies row))) as Hall.
  { destruct Hwhy as [->|[Hc|[Hs'|Hall]]]; [by eapply Hd| |by eapply Hd|done]. exfalso. rewrite Hc in Hst. set_solver. }
  eapply Forall_impl; [exact Hall|]. intros dep. by eapply satisfied_dep_step.
Qed.

(** ** Attempts are bounded *)

(** Retry numbers below the budget, and below the last one while the node may still be
    dispatched. *)
Definition within (budget : Z) (c : core) : Prop :=
  (∀ id a, c_attempts c !! id = Some a → 0 <= at_retry_no a < budget) ∧
  (∀ g n row id a, c_nodes c !! (g, n) = Some row → nd_state row ∈ ["CREATED"; "READY"]%string →
     c_attempts c !! id = Some a → at_graph_id a = g → at_node_id a = n → at_retry_no a < budget - 1).

Lemma within_move budget c g n s row v :
  within budget c → s ∉ ["CREATED"; "READY"]%string ∨ nd_state row ∈ ["CREATED"; "READY"]%string →
  c_nodes c !! (g, n) = Some row →
  within budget (mkCore (<[(g, n) := set_node_state s v row]> (c_nodes c)) (c_attempts c) (c_completions c)).
Proof.
  intros [H1 H2] Hs Hrow. split; [done|]. simpl. intros g' n' row' id a Hr Hst Ha Hg Hn. insert_cases.
  - destruct Hs as [Hs|Hs]; [done|]. by eapply H2.
  - by eapply H2.
Qed.

Lemma within_attempts budget nodes attempts co co' id a a' :
  within budget (mkCore nodes attempts co) → attempts !! id = Some a → same_attempt a a' →
  within budget (mkCore nodes (<[id := a']> attempts) co').
Proof.
  intros [H1 H2] Ha (E1 & E2 & E3 & _ & _). split; simpl in *.
  - intros id' b Hb. insert_cases; [rewrite E3|]; by eapply H1.
  - intros g n row id' b Hr Hs Hb Hg Hn. insert_cases; [rewrite E3|]; by eapply H2.
Qed.

Lemma finish_same_attempt s now r a : at_status a = RUNNING → same_attempt a (finish_attempt_row s now r a).
Proof. intros H. by split_and!. Qed.

Lemma within_step budget c c' :
  1 <= budget <= i32_max → gstep false budget c c' → ginv c ∧ within budget c → ginv c' ∧ within budget c'.
Proof.
  intros Hb Hs [Hi Hw]. split; [by eapply ginv_step|].
  destruct Hs as [g n r id a Hr Hst Hf|g n r [=] Hr Hst|id a now Ha Hrun|g n r id a now o Hl Hfree
                 |g n r id a now Hl|g n r Hr Hst _|g n r Hr Ht Hnone|g n r id a now Hl Ht].
  - destruct Hf as (Hid & Hg & Hn & Hrun & _ & Hnone & _ & _ & Hretry).
    destruct Hw as [H1 H2]. split; simpl.
    + intros id' b Hb'. insert_cases; [|by eapply H1].
      destruct Hretry as [->|(id' & b' & Hb' & Hbg & Hbn & Hbr)]; [lia|].
      assert (at_retry_no b' < budget - 1) by (eapply H2; try done; rewrite Hst; set_solver).
      specialize (H1 id' b' Hb'). lia.
    + intros g' n' row' id' b Hr' Hs' Hb' Hg' Hn'.
      apply lookup_insert_Some in Hr' as [[[= <- <-] <-]|[Hne Hr']]; [simpl in Hs'; set_solver|].
      apply lookup_insert_Some in Hb' as [[<- <-]|[_ Hb']]; [congruence|by eapply H2].
  - eapply (within_attempts budget _ _ (c_completions c)); [by destruct c|done|by split_and!].
  - pose proof Hl as (Hr & _ & Ha & Hrun & _). eapply within_attempts; [|done|by apply finish_same_attempt].
    unfold move_if_legal. rewrite (live_is_running _ _ _ _ _ _ Hi Hl). cbn match.
    apply (within_move budget c); [done| |done]. left. set_solver.
  - pose proof Hl as (Hr & _ & Ha & Hrun & Hg & Hn).
    eapply within_attempts; [|done|by apply finish_same_attempt].
    unfold move_if_legal, fail_target. rewrite (live_is_running _ _ _ _ _ _ Hi Hl).
    destruct (Z.ltb_spec (at_retry_no a) (i32_pred budget)) as [Hlt|]; cbn match.
    2:{ apply (within_move budget c); [done| |done]. left. set_solver. }
    destruct Hw as [H1 H2]. split; [done|]. simpl. unfold move.
    intros g' n' row' id' b Hr' Hs' Hb' Hg' Hn'.
    apply lookup_insert_Some in Hr' as [[[= <- <-] <-]|[Hne Hr']]; [|by eapply H2].
    assert (at_retry_no b <= at_retry_no a) by (eapply (gi_newest c Hi); eauto; congruence).
    unfold i32_pred, i32_max in *. lia.
  - apply within_move; [done| |done]. right. rewrite Hst. set_solver.
  - apply within_move; [done| |done]. left. set_solver.
  - pose proof Hl as (Hr & _ & Ha & Hrun & _). eapply within_attempts; [|done|by apply finish_same_attempt].
    apply (within_move budget c); [done| |done]. left. set_solver.
Qed.

Section Bounds.
Context `{PgErrors} {budget : Z}.

Lemma node_attempts_bounded d g n :
  ginv (core_of d) → within budget (core_of d) →
  Z.of_nat (length (node_attempts g n d)) <= Z.max 0 budget.
Proof.
  intros Hi [Hw _].
  rewrite <-(length_fmap (λ r, at_retry_no r.2)), <-(Z2Nat.id (Z.max 0 budget)) by lia.
  apply inj_le. rewrite <-(length_seqZ 0 (Z.max 0 budget)).
  apply submseteq_length, NoDup_submseteq.
  - apply NoDup_fmap_2_strong.
    + intros [id a] [id' b] Ha%node_attempts_elem Hb%node_attempts_elem Hr. simpl in Hr.
      destruct Ha as (Ha & _ & Hn), Hb as (Hb & _ & Hn').
      assert (id = id') as -> by (eapply (gi_unique _ Hi); eauto; congruence). congruence.
    + apply NoDup_ListNoDup, List.NoDup_filter, NoDup_ListNoDup, NoDup_map_to_list.
  - intros r ([id a] & -> & (Ha & _)%node_attempts_elem)%list_elem_of_fmap.
    apply elem_of_seqZ. specialize (Hw id a Ha). simpl. lia.
Qed.

(** Dispatches are bounded.  Without explicit retries, a node of a graph that starts
    within its budget is attempted at most [budget] times, however often its attempts
    fail, time out or are cancelled, and every retry number stays below the budget. *)
Theorem attempts_bounded d d' g n :
  1 <= budget <= i32_max → ginv (core_of d) → within budget (core_of d) →
  rtc (vstep false budget) d d' →
  Z.of_nat (length (node_attempts g n d')) <= budget ∧
  ∀ id a, db_attempts d' !! id = Some a → 0 <= at_retry_no a < budget.
Proof.
  intros Hb Hi Hw Hrun.
  destruct (run_keeps false budget (λ c, ginv c ∧ within budget c) d d') as [Hi' Hw']; [|done|done|].
  { intros c c'. by apply within_step. }
  pose proof (node_attempts_bounded d' g n Hi' Hw'). split; [lia|apply Hw'].
Qed.
End Bounds.

(** ** Recomputing the ready nodes *)

Section Recompute.
Context `{PgErrors}.

(** No version is about to leave its column. *)
Definition versions_fit (d : GraphDb) : Prop :=
  (∀ g row, db_graphs d !! g = Some row → gr_version row < i64_max) ∧
  (∀ key row, db_nodes d !! key = Some row → nd_version row < i64_max).

Lemma flips_lookup g l m g' n' :
  NoDup l.*1 → (∀ n row, (n, row) ∈ l → m !! (g, n) = Some row) →
  flips g l m !! (g', n') =
  if decide (g' = g ∧ n' ∈ l.*1)
  then (λ row, set_node_state "READY" (nd_version row + 1) row) <$> m !! (g, n') else m !! (g', n').
Proof.
  revert m. induction l as [|[n row] l IH]; intros m Hnd Hl; simpl.
  { rewrite decide_False; [done|]. intros [_ Hin]. by apply elem_of_nil in Hin. }
  apply NoDup_cons in Hnd as [Hn Hnd]. rewrite IH; [|done|].
  2:{ intros n2 row2 Hin. unfold move. rewrite lookup_insert_ne; [apply Hl; by right|].
      intros [= ->]. apply Hn, list_elem_of_fmap. by exists (n2, row2). }
  unfold move. pose proof (Hl n row ltac:(left)) as Hrow.
  destruct (decide (g' = g ∧ n' ∈ l.*1)) as [[-> Hin]|Hnot].
  - rewrite decide_True by (split; [done|by right]). rewrite lookup_insert_ne; [done|].
    intros [= ->]. done.
  - destruct (decide _) as [[-> Hin]|Hnot'].
    + apply elem_of_cons in Hin as [->|Hin]; [|naive_solver]. by rewrite lookup_insert_eq, Hrow.
    + rewrite lookup_insert_ne; [done|]. intros [= <- <-]. apply Hnot'. split; [done|by left].
Qed.

Lemma recompute_loop_total now g satisfied cands gv flipped d :
  NoDup cands.*1 →
  (∀ n row, (n, row) ∈ cands → db_nodes d !! (g, n) = Some row ∧ nd_state row = "CREATED"%string ∧
                               nd_version row < i64_max) →
  (gv = None → ∀ row, db_graphs d !! g = Some row → gr_version row < i64_max) →
  ∃ fl d', recompute_loop now g satisfied cands gv flipped d = Ok (fl, d').
Proof.
  revert gv flipped d. induction cands as [|[n row] cands IH]; intros gv flipped d Hnd Hc Hg; simpl; [eauto|].
  apply NoDup_cons in Hnd as [Hn Hnd].
  destruct (forallb _ _); simpl; [|apply IH; [done|intros; apply Hc; by right|done]].
  destruct (Hc n row ltac:(left)) as (Hrow & Hst & Hv).
  assert (cas_node_state_tx g n "CREATED" (nd_version row) "READY" d
          = Ok (true, set_nodes (move g n "READY" row (db_nodes d)) d)) as Hcas.
  { unfold cas_node_state_tx, tx_bind, tx_read, node_row, pg_succ. simpl. rewrite Hrow, Hst, Z.eqb_refl. simpl.
    by rewrite (proj2 (Z.ltb_lt _ _) Hv). }
  assert (∃ v m, match gv with Some v => tx_ret v | None => bump_graph_version_tx now g end
            (set_nodes (move g n "READY" row (db_nodes d)) d)
          = Ok (v, set_graphs m (set_nodes (move g n "READY" row (db_nodes d)) d))) as (v & m & Hbump).
  { destruct gv as [v|]; [exists v, (db_graphs d); done|].
    unfold bump_graph_version_tx, tx_bind, tx_read, tx_write, pg_succ. simpl.
    destruct (db_graphs d !! g) as [gr|]; [|by eauto].
    rewrite (proj2 (Z.ltb_lt _ _) (Hg eq_refl gr eq_refl)). simpl. eauto. }
  unfold tx_bind at 1. rewrite Hcas. cbn [negb]. unfold tx_bind at 1. rewrite Hbump.
  unfold tx_bind at 1. simpl. apply IH; [done| |done].
  intros n' row' Hin. destruct (Hc n' row' ltac:(by right)) as (? & ? & ?). split_and!; [|done..]. simpl.
  unfold move. rewrite lookup_insert_ne; [done|]. intros [= ->]. apply Hn, list_elem_of_fmap. by exists (n', row').
Qed.

Lemma recompute_tx_total now g gv d : versions_fit d → ∃ fl d', recompute_ready_tx now g gv d = Ok (fl, d').
Proof.
  intros [Hg Hn]. unfold recompute_ready_tx, tx_bind, tx_read.
  destruct (created_rows g d) as [|c cs] eqn:E; [eexists _, _; done|]. rewrite <-E.
  apply recompute_loop_total; [apply created_rows_NoDup| |by intros _ row; apply Hg].
  intros n row [Hrow Hst]%created_rows_elem. split_and!; [done..|by eapply Hn].
Qed.

Lemma recompute_loop_idle now g satisfied cands gv flipped d :
  (∀ n row, (n, row) ∈ cands → forallb (dep_satisfied satisfied) (json_strings (nd_dependencies row)) = false) →
  recompute_loop now g satisfied cands gv flipped d = Ok (flipped, d).
Proof.
  intros Hc. induction cands as [|[n row] cands IH]; simpl; [done|].
  rewrite (Hc n row) by left. simpl. apply IH. intros n' row' Hin. apply (Hc n'). by right.
Qed.

Lemma forallb_satisfied g d l :
  forallb (dep_satisfied (satisfied_rows g d)) l = true ↔ Forall (satisfied_dep (db_nodes d) g) l.
Proof.
  rewrite forallb_forall, Forall_forall. setoid_rewrite dep_satisfied_iff. by setoid_rewrite list_elem_of_In.
Qed.

(** A node that a recompute must make ready. *)
Definition unblocked (d : GraphDb) (g : string) (row : NodeCols) : Prop :=
  nd_state row = "CREATED"%string ∧ Forall (satisfied_dep (db_nodes d) g) (json_strings (nd_dependencies row)).

(** C16: a recompute flips exactly the unblocked nodes.  It answers (no version overflows)
    with the created nodes of the graph whose dependencies are all satisfied, each once;
    those become ready, every other node, attempt and completion stays, and a second
    recompute finds nothing and writes nothing. *)
Theorem recompute_ready_exact now g d :
  versions_fit d →
  ∃ fl d', recompute_ready now g d = (Ok fl, d') ∧ NoDup fl ∧
    (∀ n, n ∈ fl ↔ ∃ row, node_row g n d = Some row ∧ unblocked d g row) ∧
    (∀ g' n row, node_row g' n d = Some row →
       node_row g' n d' = Some (if decide (g' = g ∧ n ∈ fl)
                                then set_node_state "READY" (nd_version row + 1) row else row)) ∧
    db_attempts d' = db_attempts d ∧ db_completions d' = db_completions d ∧
    ∀ now', recompute_ready now' g d' = (Ok [], d').
Proof.
  intros Hfit. destruct (recompute_tx_total now g None d Hfit) as (fl & d' & Hrun).
  pose proof (recompute_ready_tx_Ok true 0 _ _ _ _ _ _ Hrun) as (Hfl & Hnodes & [Ha Hco] & _).
  set (ready := filterb _ (created_rows g d)) in *.
  assert (∀ n row, (n, row) ∈ ready ↔ node_row g n d = Some row ∧ unblocked d g row) as Hready.
  { intros n row. unfold ready, unblocked. rewrite filterb_elem, created_rows_elem, forallb_satisfied. naive_solver. }
  assert (NoDup ready.*1) as Hnd.
  { eapply sublist_NoDup; [apply (created_rows_NoDup g d)|]. unfold ready, filterb. clear. apply fmap_sublist.
    induction (created_rows g d) as [|x l IH]; simpl; [constructor|]. destruct (forallb _ _); by constructor. }
  assert (∀ n, n ∈ fl ↔ ∃ row, node_row g n d = Some row ∧ unblocked d g row) as Hin.
  { intros n. rewrite Hfl, list_elem_of_fmap. setoid_rewrite <-Hready. split.
    - intros ([n' row] & -> & H'). by exists row.
    - intros [row H']. by exists (n, row). }
  assert (∀ g' n, db_nodes d' !! (g', n) =
    if decide (g' = g ∧ n ∈ fl)
    then (λ row, set_node_state "READY" (nd_version row + 1) row) <$> db_nodes d !! (g, n)
    else db_nodes d !! (g', n)) as Hlook.
  { intros g' n. rewrite Hfl, Hnodes. apply flips_lookup; [done|]. by intros n2 row2 [H2 _]%Hready. }
  exists fl, d'. split_and!; [|by rewrite Hfl|done| |done..|].
  { unfold recompute_ready, transaction, tx_bind, lock_graph_tx, tx_read. by rewrite Hrun. }
  { intros g' n row Hrow. unfold node_row in *. rewrite Hlook. destruct (decide _) as [[-> _]|_]; by rewrite Hrow. }
  intros now'. unfold recompute_ready, transaction, recompute_ready_tx, tx_bind, lock_graph_tx, tx_read.
  assert (∀ dep, satisfied_dep (db_nodes d') g dep → satisfied_dep (db_nodes d) g dep) as Hback.
  { intros dep (row & Hrow & Hs). rewrite Hlook in Hrow. destruct (decide _); [|by exists row].
    destruct (db_nodes d !! (g, dep)) as [r0|]; [|done]. simpl in Hrow. simplify_eq/=. by destruct Hs as [|[]]. }
  pose proof (recompute_loop_idle now' g (satisfied_rows g d') (created_rows g d') None [] d') as Hidle.
  destruct (created_rows g d') as [|c cs] eqn:E; [done|]. rewrite Hidle; [done|].
  intros n row Hin'. rewrite <-E in Hin'. apply created_rows_elem in Hin' as [Hrow Hst].
  apply not_true_is_false. rewrite forallb_satisfied. intros Hall.
  rewrite Hlook in Hrow. destruct (decide _) as [_|Hnot].
  - destruct (db_nodes d !! (g, n)); simplify_eq/=.
  - apply Hnot. split; [done|]. apply Hin. exists row. split; [done|]. split; [done|].
    eapply Forall_impl; [exact Hall|]. apply Hback.
Qed.
End Recompute.

(** ** The downstream closure *)

Section ClosureProps.
Context (deps : list (string * list string)).

(** [n] depends on [m]. *)
Definition downstream (m n : string) : Prop := ∃ ds, (n, ds) ∈ deps ∧ m ∈ ds.

(** Both loops queue the unseen names that pass a test, once each. *)
Lemma add_unseen_spec {A} (f : A → string) (p : A → bool) (l : list A) (seen : gset string) queue :
  ∃ new, foldl (λ s x, if p x && negb (bool_decide (f x ∈ s.1)) then ({[f x]} ∪ s.1, s.2 ++ [f x]) else s)
           (seen, queue) l = (list_to_set new ∪ seen, queue ++ new) ∧
    NoDup new ∧ ∀ n, n ∈ new ↔ n ∉ seen ∧ ∃ x, x ∈ l ∧ f x = n ∧ p x = true.
Proof.
  revert seen queue. induction l as [|x l IH]; intros seen queue; simpl.
  { exists []. rewrite app_nil_r. split; [f_equal; set_solver|]. split; [constructor|]. set_solver. }
  destruct (p x) eqn:Hp; simpl; [destruct (bool_decide (f x ∈ seen)) eqn:Hx; simpl|].
  - apply bool_decide_eq_true_1 in Hx. destruct (IH seen queue) as (new & -> & Hnd & Hin).
    exists new. split_and!; [done..|]. intros n. rewrite Hin. split; [set_solver|].
    intros [Hn (y & [->|Hy]%elem_of_cons & Hfy & Hpy)]; set_solver.
  - apply bool_decide_eq_false_1 in Hx. destruct (IH ({[f x]} ∪ seen) (queue ++ [f x])) as (new & -> & Hnd & Hin).
    exists (f x :: new). split; [|split].
    + f_equal; [set_solver|by rewrite <-app_assoc].
    + apply NoDup_cons. split; [|done]. rewrite Hin. set_solver.
    + intros n. rewrite elem_of_cons, Hin. split.
      * intros [->|[Hn (y & Hy & H)]]; [split; [done|]; exists x; set_solver|set_solver].
      * intros [Hn (y & [->|Hy]%elem_of_cons & Hfy & Hpy)]; [by left|].
        destruct (decide (n = f x)) as [->|]; [by left|right]. split; [set_solver|by eauto].
  - destruct (IH seen queue) as (new & -> & Hnd & Hin). exists new. split_and!; [done..|].
    intros n. rewrite Hin. split; [set_solver|].
    intros [Hn (y & [->|Hy]%elem_of_cons & Hfy & Hpy)]; [congruence|by eauto].
Qed.

Lemma foldl_pointwise {A B} (f g : A → B → A) l a : (∀ a x, f a x = g a x) → foldl f a l = foldl g a l.
Proof. intros H. revert a. induction l as [|x l IH]; intros a; simpl; [done|]. by rewrite H. Qed.

Lemma closure_visit_spec id (seen : gset string) queue :
  ∃ new, closure_visit deps id (seen, queue) = (list_to_set new ∪ seen, queue ++ new) ∧
    NoDup new ∧ ∀ n, n ∈ new ↔ n ∉ seen ∧ downstream id n.
Proof.
  destruct (add_unseen_spec fst (λ x : string * list string, bool_decide (id ∈ x.2)) deps seen queue)
    as (new & Hfold & Hnd & Hin).
  exists new. split; [|split; [done|]].
  - rewrite <-Hfold. apply foldl_pointwise. intros [s q] [n ds]. simpl. by rewrite andb_comm.
  - intros n. rewrite Hin. unfold downstream. split; (intros [Hn Hx]; split; [done|]).
    + destruct Hx as ([n' ds] & Hy & <- & Hp%bool_decide_eq_true_1). eauto.
    + destruct Hx as (ds & Hy & Hd). exists (n, ds). split_and!; [done..|]. by apply bool_decide_eq_true.
Qed.

Lemma closure_roots_spec roots :
  ∃ queue, closure_roots deps roots = (list_to_set queue, queue) ∧ NoDup queue ∧
    ∀ n, n ∈ queue ↔ n ∈ roots ∧ n ∈ deps.*1.
Proof.
  destruct (add_unseen_spec id (λ x, bool_decide (x ∈ deps.*1)) roots ∅ []) as (new & Hfold & Hnd & Hin).
  exists new. split; [|split; [done|]].
  - rewrite (right_id_L ∅ (∪)) in Hfold. simpl in Hfold. rewrite <-Hfold. apply foldl_pointwise. by intros [s q] x.
  - intros n. rewrite Hin. setoid_rewrite bool_decide_eq_true. split; [|set_solver].
    intros [_ (x & Hx & <- & Hd)]. done.
Qed.

(** Reachable from a root that is a node. *)
Definition reached (roots : list string) (n : string) : Prop :=
  ∃ r, r ∈ roots ∧ r ∈ deps.*1 ∧ rtc downstream r n.

Lemma closure_loop_spec roots fuel (seen : gset string) queue closure :
  NoDup (closure ++ queue) → seen = list_to_set (closure ++ queue) →
  (∀ n, n ∈ closure ++ queue → n ∈ deps.*1 ∧ reached roots n) →
  (∀ n, n ∈ roots → n ∈ deps.*1 → n ∈ seen) →
  (∀ m n, m ∈ closure → downstream m n → n ∈ seen) →
  (length deps < fuel + length closure)%nat →
  ∃ l, closure_loop deps fuel seen queue closure = Some l ∧ NoDup l ∧ ∀ n, n ∈ l ↔ reached roots n.
Proof.
  revert seen queue closure. induction fuel as [|fuel IH]; intros seen queue closure Hnd -> Hin Hroots Hcl Hfuel.
  { exfalso. assert (length closure <= length deps)%nat; [|lia].
    rewrite <-(length_fmap fst deps). apply submseteq_length, NoDup_submseteq; [by apply NoDup_app in Hnd as [? _]|].
    intros n Hn. apply Hin, elem_of_app. by left. }
  destruct queue as [|id rest]; simpl.
  - rewrite app_nil_r in *. exists closure. split_and!; [done..|]. intros n. split; [intros Hn; by apply Hin|].
    intros (r & Hr & Hrd & Hpath). specialize (Hroots r Hr Hrd). apply elem_of_list_to_set in Hroots.
    clear Hr Hrd. induction Hpath as [|a b c Hab _ IHp]; [done|]. apply IHp.
    pose proof (Hcl a b Hroots Hab) as Hb. by apply elem_of_list_to_set in Hb.
  - destruct (closure_visit_spec id (list_to_set (closure ++ id :: rest)) rest) as (new & Hv & Hndn & Hnew).
    rewrite Hv.
    assert ((closure ++ [id]) ++ rest ++ new = (closure ++ id :: rest) ++ new) as Hassoc by by rewrite <-!app_assoc.
    apply IH; rewrite ?Hassoc.
    + apply NoDup_app. split_and!; [done| |done].
      intros x Hx Hxn. apply Hnew in Hxn as [Hxn _]. by apply Hxn, elem_of_list_to_set.
    + by rewrite (list_to_set_app_L _ new), (comm_L (∪)).
    + intros n [Hn|Hn]%elem_of_app; [by apply Hin|].
      apply Hnew in Hn as [_ Hd]. destruct (Hin id) as [_ (r & Hr & Hrd & Hp)]; [apply elem_of_app; right; left|]. split.
      * destruct Hd as (ds & Hd & _). apply list_elem_of_fmap. by exists (n, ds).
      * exists r. split_and!; [done..|]. by eapply rtc_r.
    + intros n Hn Hnd'. apply elem_of_union_r. by apply Hroots.
    + intros m n [Hm|Hm]%elem_of_app Hd; [apply elem_of_union_r; by eapply Hcl|].
      apply list_elem_of_singleton in Hm as ->.
      destruct (decide (n ∈ (list_to_set (closure ++ id :: rest) : gset string))) as [|Hns]; [by apply elem_of_union_r|].
      apply elem_of_union_l, elem_of_list_to_set, Hnew. by split.
    + rewrite length_app. simpl. lia.
Qed.

Lemma closure_of_spec roots :
  ∃ l, closure_of deps roots = Some l ∧ NoDup l ∧ ∀ n, n ∈ l ↔ reached roots n.
Proof.
  unfold closure_of. destruct (closure_roots_spec roots) as (queue & -> & Hnd & Hq).
  apply closure_loop_spec; simpl; [done..| | |by intros m n ?%elem_of_nil|lia].
  - intros n [Hr Hd]%Hq. split; [done|]. exists n. by split_and!.
  - intros n Hr Hd. apply elem_of_list_to_set, Hq. done.
Qed.
End ClosureProps.

(** C17: the closure is reachability.  The search always ends, within one turn per node,
    and answers, without repetition, the roots that are nodes of the graph and every
    node that transitively depends on one of them, cycles included. *)
Theorem downstream_closure_correct g roots d :
  ∃ l, downstream_closure g roots d = Some l ∧ NoDup l ∧
    ∀ n, n ∈ l ↔ ∃ r, r ∈ roots ∧ is_Some (node_row g r d) ∧
      rtc (λ m k, ∃ row, node_row g k d = Some row ∧ m ∈ json_strings (nd_dependencies row)) r n.
Proof.
  destruct (closure_of_spec (graph_deps g d) roots) as (l & Hl & Hnd & Hin). exists l. split_and!; [done..|].
  assert (∀ n ds, (n, ds) ∈ graph_deps g d ↔ ∃ row, node_row g n d = Some row ∧ ds = json_strings (nd_dependencies row)) as Hd.
  { intros n ds. unfold graph_deps, node_row. rewrite list_elem_of_omap. split.
    - intros ([[g' n'] row] & H1%elem_of_map_to_list & H2). case_bool_decide; simplify_eq. eauto.
    - intros (row & Hrow & ->). exists ((g, n), row). split; [by apply elem_of_map_to_list|].
      by rewrite bool_decide_true. }
  intros n. rewrite Hin. unfold reached.
  assert (∀ m k, downstream (graph_deps g d) m k ↔ ∃ row, node_row g k d = Some row ∧ m ∈ json_strings (nd_dependencies row)) as Hdown.
  { intros m k. unfold downstream. setoid_rewrite Hd. naive_solver. }
  assert (∀ r, r ∈ (graph_deps g d).*1 ↔ is_Some (node_row g r d)) as Hid.
  { intros r. rewrite list_elem_of_fmap. split.
    - intros ([n' ds] & -> & (row & Hrow & _)%Hd). by eexists.
    - intros [row Hrow]. exists (r, json_strings (nd_dependencies row)). split; [done|]. apply Hd. eauto. }
  split; intros (r & Hr & Hrd & Hp); exists r; (split; [done|]); (split; [by apply Hid|]);
    (eapply rtc_subrel; [|exact Hp]; intros m k; by apply Hdown).
Qed.

(** ** The gateway's verbs are runs *)

Section Sinks.
Context `{PgErrors} {rt : bool}.
#[local] Notation run := (rtc (vstep rt DEFAULT_MAX_ATTEMPTS)).

Lemma running_attempt_id_elem g n d id :
  running_attempt_id g n d = Some id → ∃ a, (id, a) ∈ running_attempts g n d.
Proof.
  unfold running_attempt_id. destruct (max_by_key _ _) as [[id' a]|] eqn:E; [|done]. intros [= ->].
  apply max_by_key_elem in E. eauto.
Qed.

(** The attempt the sink resolves is the node's own, or unknown. *)
Lemma resolve_owns env d :
  ginv (core_of d) → owns (env_graph_id env) (env_node_id env) (resolve_attempt env d) d.
Proof.
  intros Hi a Ha. unfold resolve_attempt in Ha.
  destruct (running_attempt_id _ _ d) as [id|] eqn:E; simpl in Ha.
  - apply running_attempt_id_elem in E as [b (Hb & Hg & Hn & _)%running_attempts_elem]. split; congruence.
  - exfalso. destruct (gi_key _ Hi _ _ Ha) as [Hk Hr]. by eapply graph_attempt_id_unknown.
Qed.

Lemma perform_run now v d : allowed rt v d → run d (perform DEFAULT_MAX_ATTEMPTS now v d).
Proof. intros Hal. apply rtc_once. by exists now, v. Qed.

Lemma sweep_loop_run now reason stale swept d :
  (∀ id g n, (id, (g, n)) ∈ stale → ∃ a, db_attempts d !! id = Some a ∧ at_graph_id a = g ∧ at_node_id a = n) →
  run d (sweep_loop now DEFAULT_MAX_ATTEMPTS reason stale swept d).2.
Proof.
  revert swept d. induction stale as [|[id [g n]] stale IH]; intros swept d Hown; simpl; [done|].
  assert (run d (fail_attempt now g n id DEFAULT_MAX_ATTEMPTS reason d).2) as Hstep.
  { apply (perform_run now (VFail g n id reason)). intros a Ha.
    destruct (Hown id g n ltac:(left)) as (b & Hb & Hg & Hn). split; congruence. }
  destruct (fail_attempt _ _ _ _ _ _ d) as [[o|e] d1]; simpl in *; [|done].
  etrans; [exact Hstep|]. apply IH. intros id' g' n' Hin.
  destruct (Hown id' g' n' ltac:(by right)) as (a & Ha & Hg & Hn).
  apply run_refines in Hstep. destruct (steps_attempt _ _ _ _ Hstep Ha) as (a' & Ha' & (E1 & E2 & _)).
  exists a'. split; [done|]. split; congruence.
Qed.

Lemma select_attempts_own p d id g n :
  (id, (g, n)) ∈ select_attempts p d → ∃ a, db_attempts d !! id = Some a ∧ at_graph_id a = g ∧ at_node_id a = n.
Proof.
  unfold select_attempts. intros ([id' a] & Heq & Hin)%list_elem_of_fmap. simplify_eq/=.
  apply sort_by_elem, filterb_elem in Hin as [Hin%elem_of_map_to_list _]. eauto.
Qed.

(** C13: the sink verbs refine the step relation.  On consistent tables, each verb of the
    gateway's sink (dispatch, heartbeat, commit and fail of the running attempt, explicit
    retry, the timeout sweep, the pause sweep, cancelling an attempt or nodes) amounts to
    a sequence of moves of the abstract graph: scheduling a ready node with a fresh
    attempt, failing or committing a live one, readying an unblocked node, cancelling. *)
Theorem sink_verbs_refine d d' :
  ginv (core_of d) →
  (∃ now env w, d' = on_schedule now env w d) ∨ (∃ now env, d' = on_heartbeat now env d) ∨
  (∃ now env r u steps, d' = on_commit now env r u steps d) ∨
  (∃ now env reason, d' = on_fail now env reason d) ∨
  (rt = true ∧ ∃ now env, d' = on_retry now env d) ∨
  (∃ now timeout, d' = (sink_sweep_timeouts now timeout d).2) ∨
  (∃ now g reason, d' = (sink_fail_running_attempts now g reason d).2) ∨
  (∃ now g n, d' = (sink_cancel_running_attempt now g n d).2) ∨
  (∃ now g ns, d' = (sink_cancel_nodes now g ns d).2) →
  rtc (gstep rt DEFAULT_MAX_ATTEMPTS) (core_of d) (core_of d').
Proof.
  intros Hi Hcases. apply run_refines.
  destruct Hcases as [(now & env & w & ->)|[(now & env & ->)|[(now & env & r & u & steps & ->)
    |[(now & env & reason & ->)|[[Hrt (now & env & ->)]|[(now & timeout & ->)|[(now & g & reason & ->)
    |[(now & g & n & ->)|(now & g & ns & ->)]]]]]]]].
  - by apply (perform_run now (VSchedule _ _ w)).
  - unfold on_heartbeat. destruct (running_attempt_id _ _ d) as [id|]; [|done]. by apply (perform_run now (VHeartbeat id)).
  - apply (perform_run now (VCommit _ _ _ r u steps)). by apply resolve_owns.
  - apply (perform_run now (VFail _ _ _ reason)). by apply resolve_owns.
  - by apply (perform_run now (VRetry _ _ _)).
  - unfold sink_sweep_timeouts. pose proof (sweep_loop_run now "heartbeat_timeout"
      (select_attempts (attempt_is_stale now timeout) d) [] d (select_attempts_own _ d)) as Hs.
    unfold timeout_sweep. by destruct (sweep_loop _ _ _ _ _ d) as [[?|?] ?].
  - unfold sink_fail_running_attempts. pose proof (sweep_loop_run now reason
      (select_attempts (λ a, (at_graph_id a ==? g) && (at_status a ==? RUNNING)) d) [] d (select_attempts_own _ d)) as Hs.
    unfold fail_running_attempts. by destruct (sweep_loop _ _ _ _ _ d) as [[?|?] ?].
  - unfold sink_cancel_running_attempt, cancel_running_attempt. pose proof (running_attempt_spec g n d) as Hr.
    destruct (running_attempt g n d) as [id|]; [|done]. destruct Hr as [a (Ha & Hg & Hn & _)%running_attempts_elem].
    assert (run d (fail_attempt now g n id DEFAULT_MAX_ATTEMPTS "cancelled" d).2) as Hs.
    { apply (perform_run now (VFail g n id "cancelled")). intros b Hb. split; congruence. }
    by destruct (fail_attempt _ _ _ _ _ _ d) as [[?|?] ?].
  - unfold sink_cancel_nodes. pose proof (perform_run now (VCancel g ns) d I) as Hs. simpl in Hs.
    by destruct (cancel_nodes now g ns d) as [[?|?] ?].
Qed.
End Sinks.
