(* ===== verification/GraphPlane.v ===== *)
(** * Imports, mirrors and merge grants of the graph store

    What [write_projection] does to the tables: an import of a new graph establishes the
    invariant of GraphProps.v, a mirror write never moves a node.  Then the protocol of
    the merge grants for a call that runs alone (interleaved ones are in GraphRuns.v), and the
    executions in which the graph plane and its mirror, its
    late reports, its shared keys or its unguarded reads go wrong. *)

From Stdlib Require Import String Ascii.
From S2P Require Import Prelude RustStr Task Envelope Graph GraphStore GraphMirror GraphSteps GraphProps.

(** ** Importing a new graph *)

Lemma foldl_insert_lookup `{Countable K} {A B} (key : B → K) (val : B → A) (l : list B) (m : gmap K A) k v :
  NoDup (key <$> l) →
  foldl (λ m x, <[key x := val x]> m) m l !! k = Some v ↔
  (∃ x, x ∈ l ∧ key x = k ∧ val x = v) ∨ (k ∉ key <$> l ∧ m !! k = Some v).
Proof.
  revert m. induction l as [|x l IH]; intros m Hnd.
  { simpl. split; [intros Hm; right; split; [apply not_elem_of_nil|done]|]. intros [(? & []%elem_of_nil & _)|[_ ?]]; done. }
  rewrite fmap_cons in *. apply NoDup_cons in Hnd as [Hx Hnd]. cbn [foldl]. rewrite IH by done. split.
  - intros [(y & Hy & Hky & Hvy)|[Hk [[<- <-]|[Hne Hm]]%lookup_insert_Some]].
    + left. exists y. split; [by right|done].
    + left. exists x. split; [by left|done].
    + right. split; [|done]. rewrite not_elem_of_cons. done.
  - intros [(y & [->|Hy]%elem_of_cons & Hky & Hvy)|[[Hk1 Hk2]%not_elem_of_cons Hm]].
    + right. subst. split; [done|apply lookup_insert_eq].
    + left. by exists y.
    + right. split; [done|]. by rewrite lookup_insert_ne.
Qed.

Section ImportTask.
Context `{PgErrors}.

Definition node_cols (n : NodeRow) : NodeCols :=
  mkNodeCols (row_node_type n) (row_state n) (row_dependencies n) false (row_effect_class n)
    (row_capabilities n) 1.

Definition attempt_cols (g : string) (a : AttemptRow) : AttemptCols :=
  mkAttemptCols g (row_attempt_node a) (row_worker_id a) None (row_status a) (row_retry_no a)
    (row_started_at a) None (row_finished_at a) (row_result_ref a).

Definition completion_cols (g : string) (updated : Instant) (c : CompletionRow) : CompletionCols :=
  mkCompletionCols g (row_winning_attempt c) (row_completion_ref c) (default updated (row_committed_at c)).

Lemma write_nodes_fresh g nodes stats d :
  NoDup (row_node_id <$> nodes) → (∀ n, n ∈ nodes → node_row g (row_node_id n) d = None) →
  graph_exists g d = true →
  ∃ stats', write_nodes g false ∅ nodes stats d
    = Ok (stats', set_nodes (foldl (λ m n, <[(g, row_node_id n) := node_cols n]> m) (db_nodes d) nodes) d).
Proof.
  revert stats d. induction nodes as [|n nodes IH]; intros stats d Hnd Hfree Hg; simpl.
  { exists stats. by destruct d. }
  apply NoDup_cons in Hnd as [Hn Hnd]. rewrite lookup_empty. unfold tx_bind, write_node.
  rewrite (Hfree n) by left. rewrite Hg. edestruct IH as [stats' ->]; [done| |done|].
  - intros n' Hn'. unfold node_row. simpl. rewrite lookup_insert_ne; [apply Hfree; by right|].
    intros [= E]. apply Hn, list_elem_of_fmap. eauto.
  - by exists stats'.
Qed.

Lemma write_attempts_fresh g attempts stats d :
  NoDup (row_attempt_id <$> attempts) → NoDup (row_attempt_node <$> attempts) →
  (∀ a, a ∈ attempts → db_attempts d !! row_attempt_id a = None ∧ has_node g (row_attempt_node a) d = true ∧
     ∀ id b, db_attempts d !! id = Some b → at_node_id b ≠ row_attempt_node a) →
  ∃ stats', write_attempts g attempts stats d
    = Ok (stats', set_attempts (foldl (λ m a, <[row_attempt_id a := attempt_cols g a]> m) (db_attempts d) attempts) d).
Proof.
  revert stats d. induction attempts as [|a attempts IH]; intros stats d Hid Hnode Hfree; simpl.
  { exists stats. by destruct d. }
  apply NoDup_cons in Hid as [Hi Hid]. apply NoDup_cons in Hnode as [Hn Hnode].
  destruct (Hfree a ltac:(left)) as (Hnone & Hhas & Hother).
  assert (attempt_conflicts (row_attempt_id a) (attempt_cols g a) d = false) as Hc.
  { unfold attempt_conflicts. rewrite Hnone. apply orb_false_iff. split; [by apply bool_decide_eq_false, eq_None_not_Some|].
    apply existsb_false. intros [id b] Hb%elem_of_map_to_list. rewrite bool_decide_false; [done|]. by eapply Hother. }
  unfold tx_bind, insert_attempt_or_nothing, insert_attempt. fold (attempt_cols g a). rewrite Hc. simpl. rewrite Hhas.
  edestruct IH as [stats' ->]; [done..| |by exists stats'].
  intros a' Ha'. destruct (Hfree a' ltac:(by right)) as (Hnone' & Hhas' & Hother'). simpl. split_and!; [|done|].
  - rewrite lookup_insert_ne; [done|]. intros E. apply Hi, list_elem_of_fmap. eauto.
  - intros id b [[<- <-]|[_ Hb]]%lookup_insert_Some; [|by eapply Hother'].
    simpl. intros E. apply Hn, list_elem_of_fmap. eauto.
Qed.

Lemma write_completions_fresh g updated completions stats d :
  NoDup (row_completed_node <$> completions) →
  (∀ c, c ∈ completions → db_completions d !! row_completed_node c = None ∧ has_node g (row_completed_node c) d = true) →
  ∃ stats', write_completions g updated completions stats d
    = Ok (stats', set_completions (foldl (λ m c, <[row_completed_node c := completion_cols g updated c]> m)
                                     (db_completions d) completions) d).
Proof.
  revert stats d. induction completions as [|c completions IH]; intros stats d Hnd Hfree; simpl.
  { exists stats. by destruct d. }
  apply NoDup_cons in Hnd as [Hn Hnd]. destruct (Hfree c ltac:(left)) as [Hnone Hhas].
  unfold tx_bind, insert_completion_or_nothing. rewrite Hnone. simpl. rewrite Hhas.
  edestruct IH as [stats' ->]; [done| |by exists stats'].
  intros c' Hc'. destruct (Hfree c' ltac:(by right)) as [Hnone' Hhas']. simpl. split; [|done].
  rewrite lookup_insert_ne; [done|]. intros E. apply Hn, list_elem_of_fmap. eauto.
Qed.

(** The attempt and completion rows of a projected subtask. *)
Lemma project_attempt_eq task idx st :
  ∃ w started finished, project_attempt task idx st =
    attempt_and_completion (tk_id task) (subtask_id st) (node_status_of_subtask st idx) (retry_count st)
      w started finished.
Proof.
  unfold project_attempt. destruct (subtask_result st); [by eauto|]. destruct (_ ==? _); by eauto.
Qed.

Lemma project_attempt_Some task idx st a :
  (project_attempt task idx st).1 = Some a →
  node_status_of_subtask st idx ≠ "READY"%string ∧ node_status_of_subtask st idx ≠ "CREATED"%string ∧
  row_attempt_node a = subtask_id st ∧ row_status a = node_status_of_subtask st idx ∧
  row_retry_no a = Z.min (retry_count st) i32_max ∧
  row_attempt_id a = graph_attempt_id (tk_id task) (subtask_id st) (row_retry_no a).
Proof.
  destruct (project_attempt_eq task idx st) as (w & started & finished & ->). unfold attempt_and_completion.
  destruct (_ || _) eqn:E; [done|]. apply orb_false_iff in E as [E1%bool_decide_eq_false_1 E2%bool_decide_eq_false_1].
  by intros [= <-].
Qed.

Lemma project_completion_Some task idx st c :
  (project_attempt task idx st).2 = Some c →
  ∃ a, (project_attempt task idx st).1 = Some a ∧ row_status a = SUCCEEDED ∧
    row_completed_node c = subtask_id st ∧ row_winning_attempt c = row_attempt_id a.
Proof.
  destruct (project_attempt_eq task idx st) as (w & started & finished & ->). unfold attempt_and_completion.
  destruct (_ || _) eqn:E; [done|]. simpl.
  destruct (bool_decide (node_status_of_subtask st idx = SUCCEEDED)) eqn:Hs; [|by intros].
  apply bool_decide_eq_true_1 in Hs. intros [= <-]. eexists. split; [done|]. done.
Qed.

Lemma project_attempt_has task idx st :
  node_status_of_subtask st idx ≠ "READY"%string → node_status_of_subtask st idx ≠ "CREATED"%string →
  is_Some (project_attempt task idx st).1.
Proof.
  intros H1 H2. destruct (project_attempt_eq task idx st) as (w & started & finished & ->). unfold attempt_and_completion.
  rewrite !bool_decide_false by done. by eexists.
Qed.

Lemma project_completion_has task idx st :
  node_status_of_subtask st idx = SUCCEEDED → is_Some (project_attempt task idx st).2.
Proof.
  intros Hs. destruct (project_attempt_eq task idx st) as (w & started & finished & ->). unfold attempt_and_completion.
  rewrite Hs. by eexists.
Qed.

Lemma concat_extend {A B} (f : A → option B) l : concat ((λ x, extend (f x)) <$> l) = omap f l.
Proof.
  induction l as [|x l IH]; [done|]. rewrite fmap_cons. cbn [concat]. rewrite IH. simpl. by destruct (f x).
Qed.

Lemma NoDup_omap_key {A B} (key : A → string) (key' : B → string) (f : A → option B) l :
  NoDup (key <$> l) → (∀ x y, f x = Some y → key' y = key x) → NoDup (key' <$> omap f l).
Proof.
  intros Hnd Hf. induction l as [|x l IH]; [constructor|]. rewrite fmap_cons in Hnd.
  apply NoDup_cons in Hnd as [Hx Hnd]. simpl. destruct (f x) as [y|] eqn:E; [|by apply IH].
  simpl. apply NoDup_cons. split; [|by apply IH].
  intros (y' & Hy & (x' & Hx' & Hfx')%list_elem_of_omap)%list_elem_of_fmap.
  apply Hx, list_elem_of_fmap. exists x'. split; [|done]. rewrite <-(Hf _ _ E), <-(Hf _ _ Hfx'). done.
Qed.

Lemma NoDup_fmap_finer {A} (f g : A → string) l :
  NoDup (f <$> l) → (∀ x y, x ∈ l → y ∈ l → g x = g y → f x = f y) → NoDup (g <$> l).
Proof.
  induction l as [|x l IH]; [constructor|]. rewrite !fmap_cons. intros [Hx Hnd]%NoDup_cons Hfg.
  apply NoDup_cons. split; [|apply IH; [done|]; intros y z Hy Hz; apply Hfg; by right].
  intros (y & Hy & Hin)%list_elem_of_fmap. apply Hx, list_elem_of_fmap. exists y. split; [|done].
  apply Hfg; [by left|by right|done].
Qed.

(** A task none of whose ids is in the tables. *)
Record new_graph (task : Task) (d : GraphDb) : Prop := {
  ng_distinct : NoDup (subtask_id <$> tk_subtasks task);
  ng_retry : ∀ st, st ∈ tk_subtasks task → 0 <= retry_count st;
  ng_graph : db_graphs d !! tk_id task = None;
  ng_nodes : ∀ n, db_nodes d !! (tk_id task, n) = None;
  ng_attempts : ∀ st, st ∈ tk_subtasks task →
    (∀ id b, db_attempts d !! id = Some b → at_node_id b ≠ subtask_id st) ∧
    (∀ r, db_attempts d !! graph_attempt_id (tk_id task) (subtask_id st) r = None);
  ng_completions : ∀ st, st ∈ tk_subtasks task → db_completions d !! subtask_id st = None
}.

(** The three tables after the import. *)
Definition imported (task : Task) (c : core) : core :=
  let idx := subtask_status_index task in
  mkCore
    (foldl (λ m n, <[(tk_id task, row_node_id n) := node_cols n]> m) (c_nodes c)
       (project_node idx <$> tk_subtasks task))
    (foldl (λ m a, <[row_attempt_id a := attempt_cols (tk_id task) a]> m) (c_attempts c)
       (omap (λ st, (project_attempt task idx st).1) (tk_subtasks task)))
    (foldl (λ m c, <[row_completed_node c := completion_cols (tk_id task) (tk_updated_at task) c]> m)
       (c_completions c) (omap (λ st, (project_attempt task idx st).2) (tk_subtasks task))).

Section NewGraph.
Context (task : Task) (d : GraphDb) (Hnew : new_graph task d).
#[local] Notation idx := (subtask_status_index task).
#[local] Notation g := (tk_id task).

Lemma new_nodes_NoDup : NoDup (row_node_id <$> (project_node idx <$> tk_subtasks task)).
Proof using Hnew. rewrite <-list_fmap_compose. apply (ng_distinct _ _ Hnew). Qed.

Lemma new_attempt_nodes_NoDup :
  NoDup (row_attempt_node <$> omap (λ st, (project_attempt task idx st).1) (tk_subtasks task)).
Proof using Hnew.
  apply (NoDup_omap_key subtask_id); [apply (ng_distinct _ _ Hnew)|].
  intros st a (_ & _ & ? & _)%project_attempt_Some. done.
Qed.

Lemma new_attempt_retry st a :
  st ∈ tk_subtasks task → (project_attempt task idx st).1 = Some a → 0 <= row_retry_no a.
Proof using Hnew.
  intros Hst (_ & _ & _ & _ & -> & _)%project_attempt_Some. pose proof (ng_retry _ _ Hnew st Hst).
  unfold i32_max. lia.
Qed.

Lemma new_attempt_ids_NoDup :
  NoDup (row_attempt_id <$> omap (λ st, (project_attempt task idx st).1) (tk_subtasks task)).
Proof using Hnew.
  eapply NoDup_fmap_finer; [apply new_attempt_nodes_NoDup|].
  intros a b (sa & Hsa & Ha)%list_elem_of_omap (sb & Hsb & Hb)%list_elem_of_omap E.
  pose proof (new_attempt_retry sa a Hsa Ha). pose proof (new_attempt_retry sb b Hsb Hb).
  apply project_attempt_Some in Ha as (_ & _ & Hna & _ & _ & Hia), Hb as (_ & _ & Hnb & _ & _ & Hib).
  rewrite Hia, Hib in E. apply graph_attempt_id_node in E as [E _]; [|done..]. congruence.
Qed.

Lemma new_completions_NoDup :
  NoDup (row_completed_node <$> omap (λ st, (project_attempt task idx st).2) (tk_subtasks task)).
Proof using Hnew.
  apply (NoDup_omap_key subtask_id); [apply (ng_distinct _ _ Hnew)|].
  intros st c (a & _ & _ & ? & _)%project_completion_Some. done.
Qed.

Lemma import_writes :
  ∃ stats d', write_projection (project_task task) false true d = (Ok stats, d') ∧
    core_of d' = imported task (core_of d).
Proof using Hnew.
  unfold write_projection, transaction, tx_bind at 1, write_graph. simpl. rewrite (ng_graph _ _ Hnew).
  unfold tx_bind at 1, tx_read, existing_states. unfold tx_bind at 1.
  edestruct write_nodes_fresh as [s1 ->]; [apply new_nodes_NoDup| | |].
  { intros n _. unfold node_row. simpl. apply (ng_nodes _ _ Hnew). }
  { unfold graph_exists. simpl. rewrite lookup_insert_eq. by apply bool_decide_eq_true. }
  unfold tx_bind at 1. rewrite !concat_extend.
  assert (∀ st (m : gmap (string * string) NodeCols), st ∈ tk_subtasks task → is_Some
    (foldl (λ m n, <[(g, row_node_id n) := node_cols n]> m) m (project_node idx <$> tk_subtasks task) !! (g, subtask_id st)))
    as Hhas.
  { intros st m Hst. exists (node_cols (project_node idx st)).
    apply (foldl_insert_lookup (λ n, (g, row_node_id n)) node_cols).
    - rewrite (list_fmap_compose row_node_id (pair g)). apply (NoDup_fmap_2 (pair g)), new_nodes_NoDup.
    - left. exists (project_node idx st). split_and!; [|done..]. by apply list_elem_of_fmap_2. }
  edestruct write_attempts_fresh as [s2 ->]; [apply new_attempt_ids_NoDup|apply new_attempt_nodes_NoDup| |].
  { intros a (st & Hst & Ha)%list_elem_of_omap. apply project_attempt_Some in Ha as (_ & _ & Hn & _ & _ & Hid).
    simpl. rewrite Hid, Hn. destruct (ng_attempts _ _ Hnew st Hst) as [H1 H2]. split_and!; [apply H2| |done].
    unfold has_node, node_row. apply bool_decide_eq_true. by apply Hhas. }
  unfold tx_bind at 1.
  edestruct write_completions_fresh as [s3 ->]; [apply new_completions_NoDup| |].
  { intros c (st & Hst & Hc)%list_elem_of_omap. apply project_completion_Some in Hc as (a & _ & _ & Hn & _).
    simpl. rewrite Hn. split; [by apply (ng_completions _ _ Hnew)|].
    unfold has_node, node_row. apply bool_decide_eq_true. by apply Hhas. }
  eexists _, _. split; [done|]. done.
Qed.

Lemma imported_node g' n row :
  c_nodes (imported task (core_of d)) !! (g', n) = Some row ↔
  (∃ st, st ∈ tk_subtasks task ∧ g' = g ∧ n = subtask_id st ∧ row = node_cols (project_node idx st)) ∨
  db_nodes d !! (g', n) = Some row.
Proof using Hnew.
  simpl. rewrite (foldl_insert_lookup (λ n, (g, row_node_id n)) node_cols).
  2:{ rewrite (list_fmap_compose row_node_id (pair g)). apply (NoDup_fmap_2 (pair g)), new_nodes_NoDup. }
  split.
  - intros [(x & (st & -> & Hst)%list_elem_of_fmap & [= <- <-] & <-)|[_ H']]; [left; by exists st|by right].
  - intros [(st & Hst & -> & -> & ->)|H'].
    + left. exists (project_node idx st). split_and!; [by apply list_elem_of_fmap_2|done..].
    + right. split; [|done]. intros (x & [= -> _] & _)%list_elem_of_fmap. by rewrite (ng_nodes _ _ Hnew) in H'.
Qed.

Lemma imported_attempt id a :
  c_attempts (imported task (core_of d)) !! id = Some a ↔
  (∃ st r, st ∈ tk_subtasks task ∧ (project_attempt task idx st).1 = Some r ∧ id = row_attempt_id r ∧
           a = attempt_cols g r) ∨
  db_attempts d !! id = Some a.
Proof using Hnew.
  simpl. rewrite (foldl_insert_lookup row_attempt_id (attempt_cols g)) by apply new_attempt_ids_NoDup.
  split.
  - intros [(r & (st & Hst & Hr)%list_elem_of_omap & <- & <-)|[_ H']]; [left; by exists st, r|by right].
  - intros [(st & r & Hst & Hr & -> & ->)|H'].
    + left. exists r. split_and!; [|done..]. apply list_elem_of_omap. eauto.
    + right. split; [|done]. intros (r & -> & (st & Hst & Hr)%list_elem_of_omap)%list_elem_of_fmap.
      apply project_attempt_Some in Hr as (_ & _ & _ & _ & _ & Hid). rewrite Hid in H'.
      by rewrite (proj2 (ng_attempts _ _ Hnew st Hst)) in H'.
Qed.

Lemma imported_completion n co :
  c_completions (imported task (core_of d)) !! n = Some co ↔
  (∃ st r, st ∈ tk_subtasks task ∧ (project_attempt task idx st).2 = Some r ∧ n = subtask_id st ∧
           co = completion_cols g (tk_updated_at task) r) ∨
  db_completions d !! n = Some co.
Proof using Hnew.
  simpl. rewrite (foldl_insert_lookup row_completed_node (completion_cols g (tk_updated_at task)))
    by apply new_completions_NoDup.
  split.
  - intros [(r & (st & Hst & Hr)%list_elem_of_omap & <- & <-)|[_ H']]; [left|by right]. exists st, r.
    pose proof Hr as (? & _ & _ & Hn & _)%project_completion_Some. done.
  - intros [(st & r & Hst & Hr & -> & ->)|H'].
    + left. exists r. pose proof Hr as (? & _ & _ & Hn & _)%project_completion_Some.
      split_and!; [|done..]. apply list_elem_of_omap. eauto.
    + right. split; [|done]. intros (r & -> & (st & Hst & Hr)%list_elem_of_omap)%list_elem_of_fmap.
      apply project_completion_Some in Hr as (_ & _ & _ & Hn & _). rewrite Hn in H'.
      by rewrite (ng_completions _ _ Hnew st Hst) in H'.
Qed.

Lemma same_subtask_id st st' :
  st ∈ tk_subtasks task → st' ∈ tk_subtasks task → subtask_id st = subtask_id st' → st = st'.
Proof using Hnew.
  intros [i Hi]%list_elem_of_lookup [j Hj]%list_elem_of_lookup E.
  assert (i = j) as ->; [|congruence].
  eapply NoDup_lookup; [apply (ng_distinct _ _ Hnew)|..]; rewrite list_lookup_fmap; [by rewrite Hi|by rewrite Hj, E].
Qed.

Lemma imported_ginv : ginv (core_of d) → ginv (imported task (core_of d)).
Proof using Hnew.
  intros Hi. constructor.
  - intros id a [(st & r & Hst & Hr & -> & ->)|Ha]%imported_attempt.
    + apply project_attempt_Some in Hr as (_ & _ & Hn & _). eexists. apply imported_node. left.
      exists st. simpl. rewrite Hn. done.
    + destruct (gi_node _ Hi id a Ha) as [row Hrow]. exists row. apply imported_node. by right.
  - intros id a [(st & r & Hst & Hr & -> & ->)|Ha]%imported_attempt; [|by apply (gi_key _ Hi)].
    pose proof (new_attempt_retry st r Hst Hr). apply project_attempt_Some in Hr as (_ & _ & Hn & _ & _ & Hid).
    simpl. by rewrite Hid, Hn.
  - intros id a id' b [(st & r & Hst & Hr & -> & ->)|Ha]%imported_attempt
      [(st' & r' & Hst' & Hr' & -> & ->)|Hb]%imported_attempt Hn Hre; [| | |by eapply (gi_unique _ Hi)].
    + pose proof Hr as (_ & _ & En & _)%project_attempt_Some. pose proof Hr' as (_ & _ & En' & _)%project_attempt_Some.
      simpl in Hn. assert (st = st') as <- by (apply same_subtask_id; congruence). congruence.
    + apply project_attempt_Some in Hr as (_ & _ & En & _). simpl in Hn. exfalso.
      eapply (proj1 (ng_attempts _ _ Hnew st Hst)); [exact Hb|congruence].
    + apply project_attempt_Some in Hr' as (_ & _ & En & _). simpl in Hn. exfalso.
      eapply (proj1 (ng_attempts _ _ Hnew st' Hst')); [exact Ha|congruence].
  - intros id a [(st & r & Hst & Hr & -> & ->)|Ha]%imported_attempt Hrun.
    + apply project_attempt_Some in Hr as (_ & _ & Hn & Hs & _). simpl in *. eexists. split.
      * apply imported_node. left. exists st. rewrite Hn. done.
      * simpl. congruence.
    + destruct (gi_running _ Hi id a Ha Hrun) as (row & Hrow & Hs). exists row. split; [|done].
      apply imported_node. by right.
  - intros id a id' b [(st & r & Hst & Hr & -> & ->)|Ha]%imported_attempt
      [(st' & r' & Hst' & Hr' & -> & ->)|Hb]%imported_attempt Hs Hg Hn; [| | |by eapply (gi_newest _ Hi)].
    + pose proof Hr as (_ & _ & En & _)%project_attempt_Some. pose proof Hr' as (_ & _ & En' & _)%project_attempt_Some.
      simpl in Hn. assert (st = st') as <- by (apply same_subtask_id; congruence). by simplify_eq.
    + apply project_attempt_Some in Hr as (_ & _ & En & _). simpl in Hn. exfalso.
      eapply (proj1 (ng_attempts _ _ Hnew st Hst)); [exact Hb|congruence].
    + apply project_attempt_Some in Hr' as (_ & _ & En & _). simpl in Hn. exfalso.
      eapply (proj1 (ng_attempts _ _ Hnew st' Hst')); [exact Ha|congruence].
  - intros g' n row [(st & Hst & -> & -> & ->)|Hrow]%imported_node Hs.
    + destruct (project_completion_has task idx st Hs) as [r Hr]. exists (completion_cols g (tk_updated_at task) r). split; [|done].
      apply imported_completion. left. by exists st, r.
    + destruct (gi_succeeded _ Hi g' n row Hrow Hs) as (co & Hco & Hg). exists co. split; [|done].
      apply imported_completion. by right.
  - intros n co [(st & r & Hst & Hr & -> & ->)|Hco]%imported_completion.
    + apply project_completion_Some in Hr as (a & Ha & Hsa & Hn & Hw).
      pose proof Ha as (_ & _ & Hna & Hst' & _ & _)%project_attempt_Some.
      exists (node_cols (project_node idx st)), (attempt_cols g a). simpl. split_and!; try done.
      * apply imported_node. left. by exists st.
      * congruence.
      * apply imported_attempt. left. by exists st, a.
    + destruct (gi_completion _ Hi n co Hco) as (row & a & Hrow & Hs & Ha & Hrest). exists row, a.
      split_and!; [apply imported_node; by right|done|apply imported_attempt; by right|apply Hrest..].
Qed.
End NewGraph.

End ImportTask.

(** ** Mirror writes *)

(** Nothing that records execution changed: states and versions of nodes, attempts,
    completions. *)
Definition records_kept (d d' : GraphDb) : Prop :=
  (∀ key row, db_nodes d !! key = Some row → ∃ row', db_nodes d' !! key = Some row' ∧
     nd_state row' = nd_state row ∧ nd_version row' = nd_version row ∧ nd_optional row' = nd_optional row) ∧
  (∀ id a, db_attempts d !! id = Some a → db_attempts d' !! id = Some a) ∧
  (∀ n co, db_completions d !! n = Some co → db_completions d' !! n = Some co).

#[export] Instance records_kept_preorder : PreOrder records_kept.
Proof.
  split.
  - intros d. split_and!; [|done..]. eauto.
  - intros d1 d2 d3 (N1 & A1 & C1) (N2 & A2 & C2). split_and!; [|by auto..].
    intros key row Hrow. destruct (N1 key row Hrow) as (r2 & H2 & E2). destruct (N2 key r2 H2) as (r3 & H3 & E3).
    exists r3. split; [done|]. naive_solver congruence.
Qed.

Section Mirror.
Context `{PgErrors}.

Lemma write_node_keeps g shadow n d x d' : write_node g shadow n d = Ok (x, d') → records_kept d d'.
Proof.
  unfold write_node, node_row. destruct (db_nodes d !! (g, row_node_id n)) as [old|] eqn:E.
  - destruct shadow; [|by intros [= _ <-]]. intros [= _ <-]. split_and!; [|done..]. simpl. intros key row Hrow.
    destruct (decide (key = (g, row_node_id n))) as [->|Hne].
    + rewrite lookup_insert_eq. eexists. split; [done|]. by simplify_eq.
    + rewrite lookup_insert_ne by done. eauto.
  - destruct (graph_exists g d); [|done]. intros [= _ <-]. split_and!; [|done..]. simpl. intros key row Hrow.
    rewrite lookup_insert_ne by congruence. eauto.
Qed.

Lemma write_nodes_keep g shadow ex nodes stats d x d' :
  write_nodes g shadow ex nodes stats d = Ok (x, d') → records_kept d d'.
Proof.
  revert stats d. induction nodes as [|n nodes IH]; intros stats d Hw; simpl in Hw; [by tx_inv|].
  destruct (ex !! row_node_id n); [destruct (mirror_write_allowed _ _)|]; simpl in Hw; [|by eapply IH|];
    (apply tx_bind_Ok in Hw as (r & d1 & H1 & Hw); etrans; [by eapply write_node_keeps|by eapply IH]).
Qed.

Lemma write_attempts_keep g attempts stats d x d' :
  write_attempts g attempts stats d = Ok (x, d') → records_kept d d'.
Proof.
  revert stats d. induction attempts as [|a attempts IH]; intros stats d Hw; simpl in Hw; [by tx_inv|].
  apply tx_bind_Ok in Hw as (r & d1 & H1 & Hw). etrans; [|by eapply IH].
  unfold insert_attempt_or_nothing, insert_attempt in H1.
  destruct (attempt_conflicts _ _ d) eqn:Hc; [by simplify_eq|]. destruct (has_node _ _ d); [|done]. simplify_eq.
  apply attempt_conflicts_false in Hc as [Hnone _]. split_and!; [by eauto| |done]. simpl.
  intros id b Hb. rewrite lookup_insert_ne by congruence. done.
Qed.

Lemma write_completions_keep g u completions stats d x d' :
  write_completions g u completions stats d = Ok (x, d') → records_kept d d'.
Proof.
  revert stats d. induction completions as [|c completions IH]; intros stats d Hw; simpl in Hw; [by tx_inv|].
  apply tx_bind_Ok in Hw as (r & d1 & H1 & Hw). etrans; [|by eapply IH].
  unfold insert_completion_or_nothing in H1. case_bool_decide as Hc; [by simplify_eq|].
  destruct (has_node _ _ d); [|done]. simplify_eq. split_and!; [by eauto|done|]. simpl.
  intros n co Hco. rewrite lookup_insert_ne; [done|]. intros <-. by apply Hc.
Qed.

(** The mirror never moves a node.  Whatever projection is written, as an import or as
    a shadow of the live task and however stale, every existing node keeps its state and
    version, and every existing attempt and completion row stays as it is. *)
Theorem mirror_keeps_state p shadow imp d :
  records_kept d (write_projection p shadow imp d).2.
Proof.
  destruct (write_projection p shadow imp d) as [r d'] eqn:E. cbn [snd]. unfold write_projection in E.
  apply transaction_cases in E as [(a & Hb & _)|[-> _]]; [|done].
  apply tx_bind_Ok in Hb as (rows & d1 & H1 & Hb).
  assert (records_kept d d1) as Hk1.
  { unfold write_graph in H1. destruct (db_graphs d !! proj_graph_id p); [destruct shadow|]; simplify_eq;
      (split_and!; [by eauto|done..]). }
  apply tx_bind_Ok in Hb as (ex & d2 & [= <- <-] & Hb).
  apply tx_bind_Ok in Hb as (s1 & d3 & H3 & Hb). apply write_nodes_keep in H3.
  apply tx_bind_Ok in Hb as (s2 & d4 & H4 & Hb). apply write_attempts_keep in H4.
  apply tx_bind_Ok in Hb as (s3 & d5 & H5 & Hb). apply write_completions_keep in H5. tx_inv.
  by repeat (etrans; [eassumption|]).
Qed.
End Mirror.

(** ** Merge grants *)

Section GrantProps.
Context `{Sha256}.

(** Every node of the graph is in a state the barrier takes for final. *)
Definition quiescent (g : string) (d : GraphDb) : Prop :=
  (∃ n row, node_row g n d = Some row) ∧
  ∀ n row, node_row g n d = Some row → nd_state row ∈ ["SUCCEEDED"; "FAILED"; "CANCELLED"]%string.

Definition current_key (g : string) (d : GraphDb) : string :=
  derive_merge_idempotency_key g (succeeded_outputs g d).

Lemma graph_states_elem g d s : s ∈ graph_states g d ↔ ∃ n row, node_row g n d = Some row ∧ nd_state row = s.
Proof.
  unfold graph_states, node_row. rewrite list_elem_of_omap. split.
  - intros ([[g' n] row] & Hin%elem_of_map_to_list & Hs). case_bool_decide; simplify_eq. eauto.
  - intros (n & row & Hrow & <-). exists ((g, n), row). split; [by apply elem_of_map_to_list|].
    by rewrite bool_decide_true.
Qed.

(** The decision when no other statement comes in between. *)
Lemma issue_alone now g d :
  (quiescent g d ∧ issue_merge_grant now g d =
     match db_grants d !! g with
     | Some m => if mg_key m ==? current_key g d
                 then (mkGrantDecision true (current_key g d) (bool_decide (is_Some (mg_consumed_at m))) "", d)
                 else (mkGrantDecision true (current_key g d) false "",
                       set_grants (<[g := mkGrantCols (current_key g d) now None None]> (db_grants d)) d)
     | None => (mkGrantDecision true (current_key g d) false "",
                set_grants (<[g := mkGrantCols (current_key g d) now None None]> (db_grants d)) d)
     end) ∨
  (¬ quiescent g d ∧ ∃ e, issue_merge_grant now g d = (refuse e, d)).
Proof.
  unfold issue_merge_grant. cbv beta iota zeta delta [Nat.iter nat_rect issue_step].
  destruct (existsb _ (graph_states g d)) eqn:Ex.
  { right. split; [|by eexists]. intros [_ Hq]. apply existsb_true in Ex as (s & Hs & Hn).
    apply negb_true_iff, bool_decide_eq_false_1 in Hn. apply graph_states_elem in Hs as (n & row & Hrow & <-).
    by eapply Hn, Hq. }
  destruct (graph_states g d) as [|s0 states] eqn:Es.
  { right. split; [|by eexists]. intros [(n & row & Hrow) _].
    assert (nd_state row ∈ graph_states g d) as Hin by (apply graph_states_elem; eauto).
    rewrite Es in Hin. by apply elem_of_nil in Hin. }
  left. split.
  - split.
    + assert (s0 ∈ graph_states g d) as (n & row & Hrow & _)%graph_states_elem by (rewrite Es; left). eauto.
    + intros n row Hrow. rewrite existsb_false in Ex. specialize (Ex (nd_state row)).
      rewrite <-Es in Ex. rewrite graph_states_elem in Ex.
      apply negb_false_iff, bool_decide_eq_true_1 in Ex; [done|eauto].
  - fold (current_key g d). destruct (db_grants d !! g) as [m|]; [|done].
    by destruct (mg_key m ==? current_key g d).
Qed.

Lemma report_alone now g key o d :
  report_merge_outcome now g key o d =
  match db_grants d !! g with
  | Some m =>
      if mg_key m ==? key then
        match mg_consumed_at m with
        | Some _ => (mkReportDecision true true, d)
        | None => (mkReportDecision true false,
                   set_grants (<[g := mkGrantCols key (mg_issued_at m) (Some now) (Some (outcome_json o))]> (db_grants d)) d)
        end
      else (mkReportDecision false false, d)
  | None => (mkReportDecision false false, d)
  end.
Proof.
  unfold report_merge_outcome. cbv beta iota zeta delta [Nat.iter nat_rect report_step]. destruct (db_grants d !! g) as [m|] eqn:E; [|done].
  destruct (mg_key m ==? key) eqn:Ek; simpl; [|done]. destruct (mg_consumed_at m) eqn:Ec; [done|].
  by rewrite E, Ek, Ec.
Qed.

(** The merge barrier, with no other statement between those of a call.  A grant is given only for a graph whose nodes are all final,
    under the key of its succeeded nodes and their outputs; it is spent by the first
    report of that key, reports of another key are refused and write nothing, and while
    the nodes, completions and grants stay, asking again answers the same key as a
    replay and reporting again is a no-op. *)
Theorem merge_grant_alone now now' g o d dec d1 :
  issue_merge_grant now g d = (dec, d1) → granted dec = true → grant_replay dec = false →
  quiescent g d ∧ merge_idempotency_key dec = current_key g d ∧
  (∀ key, key ≠ merge_idempotency_key dec → report_merge_outcome now' g key o d1 = (mkReportDecision false false, d1)) ∧
  ∃ d2, report_merge_outcome now' g (merge_idempotency_key dec) o d1 = (mkReportDecision true false, d2) ∧
    core_of d2 = core_of d ∧
    ∀ d3 now'' o', core_of d3 = core_of d2 → db_grants d3 = db_grants d2 →
      issue_merge_grant now'' g d3 = (mkGrantDecision true (merge_idempotency_key dec) true "", d3) ∧
      report_merge_outcome now'' g (merge_idempotency_key dec) o' d3 = (mkReportDecision true true, d3).
Proof.
  intros Hissue Hg Hr. destruct (issue_alone now g d) as [[Hq Heq]|[_ [e Heq]]];
    rewrite Heq in Hissue; clear Heq; [|by simplify_eq].
  assert (merge_idempotency_key dec = current_key g d ∧ core_of d1 = core_of d ∧
    ∃ m, db_grants d1 !! g = Some m ∧ mg_key m = current_key g d ∧ mg_consumed_at m = None) as (Hk & Hc & m & Hm & Hmk & Hmc).
  { destruct (db_grants d !! g) as [m|] eqn:Em.
    - case_bool_decide as Ek; simplify_eq/=.
      + split_and!; [done..|]. exists m. split_and!; [done..|]. apply bool_decide_eq_false_1 in Hr.
        by apply eq_None_not_Some.
      + split_and!; [done..|]. eexists. rewrite lookup_insert_eq. by split_and!.
    - simplify_eq/=. split_and!; [done..|]. eexists. rewrite lookup_insert_eq. by split_and!. }
  rewrite Hk. split_and!; [done..| |].
  { intros key Hne. rewrite report_alone, Hm, Hmk, bool_decide_false by congruence. done. }
  eexists. rewrite report_alone, Hm, Hmk, bool_decide_true, Hmc by done. split; [done|]. split; [done|].
  intros d3 now'' o' Hc3 Hg3.
  assert (db_nodes d3 = db_nodes d ∧ db_completions d3 = db_completions d) as [Hn3 Hco3].
  { change (db_nodes d3) with (c_nodes (core_of d3)). change (db_completions d3) with (c_completions (core_of d3)).
    rewrite Hc3. injection Hc as E1 _ E2. simpl. by rewrite E1, E2. }
  assert (current_key g d3 = current_key g d) as Hkey.
  { unfold current_key, succeeded_outputs, completion_of. by rewrite Hn3, Hco3. }
  assert (db_grants d3 !! g = Some (mkGrantCols (current_key g d) (mg_issued_at m) (Some now') (Some (outcome_json o)))) as Hm3.
  { rewrite Hg3. simpl. apply lookup_insert_eq. }
  assert (quiescent g d3) as Hq3 by (unfold quiescent, node_row in *; by rewrite Hn3).
  split.
  - destruct (issue_alone now'' g d3) as [[_ ->]|[Hnq _]]; [|done]. rewrite Hm3, Hkey. simpl.
    by rewrite (bool_decide_true (current_key g d = current_key g d)).
  - rewrite report_alone, Hm3. simpl. by rewrite bool_decide_true.
Qed.

(** The key is a function of the set of succeeded nodes. *)
Lemma merge_key_order g l l' :
  NoDup l.*1 → l ≡ₚ l' → derive_merge_idempotency_key g l = derive_merge_idempotency_key g l'.
Proof.
  intros Hnd Hp. unfold derive_merge_idempotency_key, merge_preimage.
  pose proof (sort_by_order_independent fst l l' Hnd Hp) as Hs.
  change (λ a b : string * string, String.leb a.1 b.1) with pair_leb in Hs. by rewrite Hs.
Qed.
End GrantProps.

(** ** Executions *)

#[local] Instance pg_text : PgErrors := {|
  unique_violation := "duplicate key value violates unique constraint";
  foreign_key_violation := "insert violates foreign key constraint";
  integer_out_of_range := "integer out of range" |}.
#[local] Existing Instance zero_sha.

Definition demo_subtask (id : string) (s : SubtaskStatus) (deps : list string) : Subtask :=
  mkSubtask id "t" "" s None deps [] "" None Remote RequiresWorker 0 [] None [] 0.
Definition demo_task (t : string) (a b : SubtaskStatus) : Task :=
  mkTask t "" "p" TaskInProgress [demo_subtask "a" a []; demo_subtask "b" b ["a"]] 0 0.
Definition demo_db : GraphDb :=
  (write_projection (project_task (demo_task "t" SubtaskPending SubtaskPending)) false true empty_db).2.
Notation demo_env n := (ExecutionEnvelope_new "t" n "0").

Lemma ginv_empty : ginv (core_of empty_db).
Proof. constructor; simpl; intros; rewrite lookup_empty in *; done. Qed.

Lemma demo_new t a b : new_graph (demo_task t a b) empty_db.
Proof.
  constructor; simpl; try done.
  - by apply (bool_decide_eq_true_1 (NoDup ["a"; "b"]%string)).
  - intros st [->|[->|[]%elem_of_nil]%elem_of_cons]%elem_of_cons; done.
Qed.

Lemma demo_core : core_of demo_db = imported (demo_task "t" SubtaskPending SubtaskPending) (core_of empty_db).
Proof.
  destruct (import_writes _ _ (demo_new "t" SubtaskPending SubtaskPending)) as (stats & d' & Hw & <-).
  unfold demo_db. by rewrite Hw.
Qed.

Lemma demo_ginv : ginv (core_of demo_db).
Proof. rewrite demo_core. apply imported_ginv; [apply demo_new|apply ginv_empty]. Qed.

Lemma demo_nodes g n row :
  db_nodes demo_db !! (g, n) = Some row →
  g = "t"%string ∧ nd_version row = 1 ∧
  (n = "a"%string ∧ nd_state row = "READY"%string ∧ json_strings (nd_dependencies row) = [] ∨
   n = "b"%string ∧ nd_state row = "CREATED"%string).
Proof.
  change (db_nodes demo_db) with (c_nodes (core_of demo_db)). rewrite demo_core.
  intros [(st & Hst & -> & -> & ->)|Hno]%imported_node; [|by cbn [empty_db db_nodes db_attempts] in Hno; rewrite lookup_empty in Hno|apply demo_new].
  apply elem_of_cons in Hst as [->|[->|[]%elem_of_nil]%elem_of_cons]; (split; [done|split; [done|]]);
    [left|right]; by vm_compute.
Qed.

Lemma demo_attempts id a : db_attempts demo_db !! id ≠ Some a.
Proof.
  change (db_attempts demo_db) with (c_attempts (core_of demo_db)). rewrite demo_core.
  intros [(st & r & Hst & Hr & _)|Hno]%imported_attempt; [|by cbn [empty_db db_nodes db_attempts] in Hno; rewrite lookup_empty in Hno|apply demo_new].
  apply elem_of_cons in Hst as [->|[->|[]%elem_of_nil]%elem_of_cons]; by vm_compute in Hr.
Qed.

Lemma demo_deps_first : deps_first (core_of demo_db).
Proof.
  intros g n row Hrow Hst. apply demo_nodes in Hrow as (-> & _ & [(-> & _ & ->)|(-> & Hs)]); [constructor|].
  exfalso. rewrite Hs in Hst. set_solver.
Qed.

Lemma demo_within : within DEFAULT_MAX_ATTEMPTS (core_of demo_db).
Proof. split; [intros id a Ha|intros g n row id a _ _ Ha]; exfalso; by eapply demo_attempts. Qed.

Lemma demo_fits : versions_fit demo_db.
Proof.
  split.
  - intros g row Hg. assert (map_Forall (λ _ r, gr_version r < i64_max) (db_graphs demo_db)) as Hall.
    { apply (bool_decide_unpack _). by vm_compute. }
    exact (Hall g row Hg).
  - intros [g n] row Hrow. apply demo_nodes in Hrow as (_ & -> & _). done.
Qed.

(** The demo graph with its first node dispatched. *)
Notation demo_running := (on_schedule 5 (demo_env "a") (Some "w"%string) demo_db).

Lemma demo_running_run rt : rtc (vstep rt DEFAULT_MAX_ATTEMPTS) demo_db demo_running.
Proof. apply rtc_once. by exists 5, (VSchedule "t" "a" (Some "w"%string)). Qed.

Notation demo_committed := (commit_once 6 "t" "a" "t:a:0" (Some "done"%string) None None demo_running).

Lemma demo_running_ginv : ginv (core_of demo_running).
Proof. exact (run_ginv (rt := true) _ _ (demo_running_run true) demo_ginv). Qed.

Lemma demo_owns : owns "t" "a" "t:a:0" demo_running.
Proof.
  intros a Ha. assert (option_map (λ r, (at_graph_id r, at_node_id r)) (db_attempts demo_running !! "t:a:0"%string)
                       = Some ("t"%string, "a"%string)) as H by by vm_compute.
  rewrite Ha in H. by injection H as -> ->.
Qed.

(** The demo attempt failed by the timeout sweep. *)
Notation demo_swept := (sink_sweep_timeouts 100 10 demo_running).2.

Lemma fenced_attempt_is_inert_witness :
  ∃ a, db_attempts demo_swept !! "t:a:0"%string = Some a ∧ at_status a = "FAILED"%string ∧
    node_state "t" "a" demo_swept = Some "READY"%string ∧
    (heartbeat_attempt 101 "t:a:0" demo_swept).1 = Ok false.
Proof.
  assert (∃ a, db_attempts demo_swept !! "t:a:0"%string = Some a ∧ at_status a = "FAILED"%string) as (a & Ha & Hs)
    by (eexists; by vm_compute).
  exists a. split; [done|]. split; [done|]. split; [by vm_compute|].
  destruct (fenced_attempt_is_inert (rt := true) (budget := 3) demo_swept demo_swept "t:a:0" a Ha) as [_ Hf];
    [by rewrite Hs|done|]. destruct (Hf 101 "t"%string "a"%string) as (_ & _ & ->). done.
Defined.

Lemma nodes_move_legally_witness :
  ∃ row row', node_row "t" "a" demo_db = Some row ∧ node_row "t" "a" demo_running = Some row' ∧ moved row row' ∧
    nd_state row = "READY"%string ∧ nd_state row' = RUNNING ∧ nd_version row' = nd_version row + 2.
Proof.
  assert (∃ row, node_row "t" "a" demo_db = Some row ∧ nd_state row = "READY"%string ∧ nd_version row = 1)
    as (row & Hrow & Hs & Hv) by (eexists; by vm_compute).
  assert (∃ row, node_row "t" "a" demo_running = Some row ∧ nd_state row = RUNNING ∧ nd_version row = 3)
    as (row' & Hrow' & Hs' & Hv') by (eexists; by vm_compute).
  destruct (nodes_move_legally (rt := true) (budget := 3) demo_db demo_running "t" "a" row (demo_running_run true) Hrow)
    as (row2 & Hrow2 & Hm).
  exists row, row'. split_and!; [done..| |done|done|by rewrite Hv, Hv']. congruence.
Defined.

Lemma default_budget_fits : 1 <= DEFAULT_MAX_ATTEMPTS <= i32_max.
Proof. unfold DEFAULT_MAX_ATTEMPTS, i32_max. lia. Qed.

Lemma attempts_bounded_witness :
  Z.of_nat (length (node_attempts "t" "a" demo_running)) <= DEFAULT_MAX_ATTEMPTS ∧
  length (node_attempts "t" "a" demo_running) = 1%nat.
Proof.
  split; [|by vm_compute].
  exact (proj1 (attempts_bounded demo_db demo_running "t" "a" default_budget_fits demo_ginv demo_within
                  (demo_running_run false))).
Defined.

Lemma recompute_ready_exact_witness : versions_fit demo_db ∧ ∃ fl d', recompute_ready 9 "t" demo_db = (Ok fl, d').
Proof.
  split; [apply demo_fits|]. destruct (recompute_ready_exact 9 "t" demo_db demo_fits) as (fl & d' & Hr & _).
  exists fl, d'. exact Hr.
Defined.

Lemma sink_verbs_refine_witness :
  rtc (gstep false DEFAULT_MAX_ATTEMPTS) (core_of demo_db) (core_of demo_running) ∧
  rtc (gstep false DEFAULT_MAX_ATTEMPTS) (core_of demo_running) (core_of demo_swept).
Proof.
  split.
  - apply (sink_verbs_refine (rt := false) demo_db); [apply demo_ginv|]. left. by exists 5, (demo_env "a"), (Some "w"%string).
  - apply (sink_verbs_refine (rt := false) demo_running); [apply demo_running_ginv|].
    right; right; right; right; right; left. by exists 100, 10.
Defined.


(** The demo graph with both nodes succeeded. *)
Notation demo_done :=
  (write_projection (project_task (demo_task "t" SubtaskCompleted SubtaskCompleted)) false true empty_db).2.

Lemma demo_grant : ∃ dec d1, issue_merge_grant 1 "t" demo_done = (dec, d1) ∧ granted dec = true ∧ grant_replay dec = false.
Proof. eexists _, _. split; [vm_compute; reflexivity|]. split; reflexivity. Qed.

Lemma merge_grant_alone_witness :
  ∃ dec d1, issue_merge_grant 1 "t" demo_done = (dec, d1) ∧ granted dec = true ∧ quiescent "t" demo_done ∧
    (report_merge_outcome 2 "t" (merge_idempotency_key dec) (mkOutcome "merged" [] [] "pushed") d1).1
    = mkReportDecision true false.
Proof.
  destruct demo_grant as (dec & d1 & E & Hg & Hr). exists dec, d1.
  destruct (merge_grant_alone 1 2 "t" (mkOutcome "merged" [] [] "pushed") demo_done dec d1 E Hg Hr)
    as (Hq & _ & _ & d2 & Hrep & _).
  split; [exact E|]. split; [exact Hg|]. split; [exact Hq|]. rewrite Hrep. reflexivity.
Defined.

(** ** Where the plane and its callers part *)

(** A mirror write that lands before the commit it mirrors blocks it.  The gateway
    spawns the two independently.  With the snapshot of the completed subtask written
    first, its completion row makes the node's own [commit_once] lose: the node stays
    running and its dependant never becomes ready; written second, both succeed. *)
Theorem mirror_blocks_commit :
  let snapshot := demo_task "t" SubtaskCompleted SubtaskPending in
  let commit := on_commit 6 (demo_env "a") (Some "done"%string) None None in
  let first := commit (shadow_persist snapshot demo_running) in
  let second := shadow_persist snapshot (commit demo_running) in
  (node_state "t" "a" first = Some RUNNING ∧ node_state "t" "b" first = Some "CREATED"%string ∧
   is_Some (db_completions first !! "a"%string) ∧ attempt_states "t" "a" first = [RUNNING]) ∧
  (node_state "t" "a" second = Some SUCCEEDED ∧ node_state "t" "b" second = Some "READY"%string).
Proof.
  cbv zeta. split; [split; [by vm_compute|]; split; [by vm_compute|]; split; [|by vm_compute]|split; by vm_compute].
  eexists. vm_compute. reflexivity.
Qed.

(** A late report is credited to the attempt that replaced its own.  After a timeout
    and a new dispatch, the report of the first worker, whose envelope names the first
    dispatch, commits the second attempt, with the first worker's result. *)
Theorem late_report_credited_to_new_attempt :
  let redispatched := on_schedule 101 (ExecutionEnvelope_new "t" "a" "1") (Some "w2"%string) demo_swept in
  let reported := on_commit 102 (demo_env "a") (Some "from w"%string) None None redispatched in
  attempt_states "t" "a" demo_swept = ["FAILED"%string] ∧
  attempt_states "t" "a" reported = ["FAILED"; "SUCCEEDED"]%string ∧
  db_completions reported !! "a"%string
  = Some (mkCompletionCols "t" "t:a:1" (Some "from w"%string) 102).
Proof. cbv zeta. split; [by vm_compute|]. split; vm_compute; reflexivity. Qed.

(** Node ids are shared between graphs.  [UNIQUE (node_id, retry_no)] and the key of
    [node_completions] do not name the graph: once one graph has dispatched its node, a
    ready node of the same id in another graph cannot be dispatched, each try ending in
    an error that leaves it ready. *)
Theorem shared_node_id_cannot_start :
  let two := (write_projection (project_task (demo_task "u" SubtaskPending SubtaskPending)) false true demo_running).2 in
  let try := schedule_attempt 7 "u" "a" None two in
  node_state "u" "a" two = Some "READY"%string ∧ is_ok try.1 = false ∧
  node_state "u" "a" try.2 = Some "READY"%string ∧ attempt_states "u" "a" try.2 = [].
Proof. cbv zeta. split_and!; vm_compute; reflexivity. Qed.

(** Two concurrent reports of one grant are both told they were the first.  The
    decision is taken on the read, and the rows affected by the conditional update are
    not looked at; one after the other, the second is a replay. *)
Theorem concurrent_reports_both_first key m o1 o2 now1 now2 g d :
  db_grants d !! g = Some m → mg_key m = key → mg_consumed_at m = None →
  let r1 := report_step now1 g key o1 ReportStart d in
  let r2 := report_step now2 g key o2 ReportStart r1.2 in
  let w1 := report_step now1 g key o1 r1.1 r2.2 in
  let w2 := report_step now2 g key o2 r2.1 w1.2 in
  w1.1 = Reported (mkReportDecision true false) ∧ w2.1 = Reported (mkReportDecision true false) ∧
  w2.2 = w1.2 ∧
  (report_merge_outcome now2 g key o2 (report_merge_outcome now1 g key o1 d).2).1 = mkReportDecision true true.
Proof.
  intros Hm Hk Hc. set (spent := set_grants (<[g := mkGrantCols key (mg_issued_at m) (Some now1) (Some (outcome_json o1))]>
                                           (db_grants d)) d).
  assert (report_merge_outcome now1 g key o1 d = (mkReportDecision true false, spent)) as Hseq
    by by rewrite report_alone, Hm, Hk, bool_decide_true, Hc by done.
  assert (db_grants spent !! g = Some (mkGrantCols key (mg_issued_at m) (Some now1) (Some (outcome_json o1)))) as Hspent
    by apply lookup_insert_eq.
  assert (∀ now o, report_step now g key o ReportStart d = (ReportUnconsumed, d)) as Hread.
  { intros now o. cbn [report_step]. by rewrite Hm, Hk, bool_decide_true, Hc by done. }
  assert (report_step now1 g key o1 ReportUnconsumed d = (Reported (mkReportDecision true false), spent)) as Hwrite.
  { cbn [report_step]. by rewrite Hm, Hk, Hc, !bool_decide_true by done. }
  cbv zeta. rewrite !Hread. cbn [fst snd]. rewrite ?Hread. cbn [fst snd]. rewrite Hwrite. cbn [fst snd].
  split; [done|]. split; [done|]. split.
  - cbn [report_step snd]. rewrite Hspent. cbn [mg_key mg_consumed_at]. by rewrite andb_false_r.
  - rewrite Hseq. cbn [snd]. rewrite report_alone, Hspent. cbn [mg_key mg_consumed_at]. by rewrite bool_decide_true.
Qed.

Lemma concurrent_reports_both_first_witness :
  ∃ d m, db_grants d !! "t"%string = Some m ∧ mg_consumed_at m = None ∧
    (let o := mkOutcome "merged" [] [] "pushed" in
     let r1 := report_step 2 "t" (mg_key m) o ReportStart d in
     let r2 := report_step 3 "t" (mg_key m) o ReportStart r1.2 in
     (report_step 3 "t" (mg_key m) o r2.1 (report_step 2 "t" (mg_key m) o r1.1 r2.2).2).1
     = Reported (mkReportDecision true false)).
Proof.
  set (m := mkGrantCols "k" 1 None None). exists (set_grants {["t"%string := m]} empty_db), m.
  assert (db_grants (set_grants {["t"%string := m]} empty_db) !! "t"%string = Some m) as Hm by apply lookup_singleton_eq.
  split; [done|]. split; [done|]. cbv zeta.
  apply (concurrent_reports_both_first (mg_key m) m (mkOutcome "merged" [] [] "pushed") (mkOutcome "merged" [] [] "pushed")
           2 3 "t" _ Hm eq_refl eq_refl).
Defined.

(** A skipped node keeps the merge barrier closed for good.  The state machine counts
    [SKIPPED] as terminal, the barrier's list does not: every grant for such a graph is
    refused, and no run of the store changes that. *)
Theorem skipped_node_blocks_merge rt budget d d' g n row now :
  node_row g n d = Some row → nd_state row = "SKIPPED"%string → rtc (vstep rt budget) d d' →
  granted (issue_merge_grant now g d').1 = false ∧ NodeStatus_is_terminal NodeSkipped = true.
Proof.
  intros Hrow Hs Hrun%run_refines. split; [|done].
  destruct (steps_moves _ _ (g, n) row Hrun Hrow) as (row' & Hrow' & Hm).
  apply (moved_from_terminal NodeSkipped) in Hm as ->; [|done..].
  destruct (issue_alone now g d') as [[[_ Hq] _]|[_ [e ->]]]; [|done].
  specialize (Hq n row Hrow'). rewrite Hs in Hq. exfalso. set_solver.
Qed.

Lemma skipped_node_blocks_merge_witness :
  let row := mkNodeCols "subtask" "SKIPPED" (JArray []) true "requires_worker" (JArray []) 2 in
  let d := set_nodes {[("t", "a")%string := row]} empty_db in
  granted (issue_merge_grant 1 "t" d).1 = false.
Proof.
  intros row d. assert (node_row "t" "a" d = Some row) as Hrow by apply (lookup_singleton_eq ("t", "a")%string row).
  exact (proj1 (skipped_node_blocks_merge true 3 d d "t" "a" row 1 Hrow eq_refl (rtc_refl _ d))).
Defined.
