(* ===== verification/GraphRuns.v ===== *)
(** * Runs of the graph store with its mirror

    The runs of GraphSteps.v are those of the scheduling verbs.  Here the transactions that
    copy a task into the tables ([write_projection]: shadow writes on every persist, and
    imports) run among them, and the statements of the merge grants, which are not in a
    transaction, are interleaved with everything else.

    - [tstep] is any transaction: what was recorded stays recorded, whatever is mirrored.
    - [istep] has the verbs and the mirror writes that are in step with the tables
      ([in_step]), [cstep] also the imports of new graphs: the tables stay consistent.
    - [grant_step] is one statement of a call on the merge grants. *)

From Stdlib Require Import String Ascii.
From S2P Require Import Prelude RustStr Task Envelope Graph GraphStore GraphMirror GraphSteps GraphProps GraphPlane.

(** ** What no transaction takes back *)

(** Node rows stay and move along edges of the state machine; attempts keep their identity,
    and are final once they have stopped; completions are final. *)
Definition history_kept (c c' : core) : Prop :=
  (∀ key row, c_nodes c !! key = Some row →
     ∃ row', c_nodes c' !! key = Some row' ∧ rtc edge (nd_state row) (nd_state row')) ∧
  (∀ id a, c_attempts c !! id = Some a → ∃ a', c_attempts c' !! id = Some a' ∧ same_attempt a a') ∧
  (∀ n co, c_completions c !! n = Some co → c_completions c' !! n = Some co).

#[export] Instance same_attempt_preorder : PreOrder same_attempt.
Proof.
  split; [by intros a|]. intros a b c (E1 & E2 & E3 & E4 & E5) (F1 & F2 & F3 & F4 & F5). split_and!; try congruence.
  intros Hn. rewrite (F5 ltac:(by rewrite (E5 Hn))). by apply E5.
Qed.

#[export] Instance history_kept_preorder : PreOrder history_kept.
Proof.
  split.
  - intros c. split_and!; [|intros id a Ha; by exists a|done]. intros key row Hrow. by exists row.
  - intros c1 c2 c3 (N1 & A1 & C1) (N2 & A2 & C2). split_and!; [| |by auto].
    + intros key row Hrow. destruct (N1 key row Hrow) as (r2 & H2 & E2). destruct (N2 key r2 H2) as (r3 & H3 & E3).
      exists r3. split; [done|]. by etrans.
    + intros id a Ha. destruct (A1 id a Ha) as (a2 & H2 & E2). destruct (A2 id a2 H2) as (a3 & H3 & E3).
      exists a3. split; [done|]. by etrans.
Qed.

Lemma moved_edges row row' : moved row row' → rtc edge (nd_state row) (nd_state row').
Proof. intros (k & Hk & _). eapply rtc_nsteps_2, Hk. Qed.

Lemma step_history rt budget c c' : gstep rt budget c c' → history_kept c c'.
Proof.
  intros Hs. split_and!.
  - intros key row Hrow. destruct (step_moves _ _ _ _ Hs Hrow) as (row' & Hrow' & Hm). eauto using moved_edges.
  - intros id a. by eapply step_attempt.
  - intros n co. by eapply step_completion.
Qed.

Lemma records_history d d' : records_kept d d' → history_kept (core_of d) (core_of d').
Proof.
  intros (N & A & C). split_and!; [| |done].
  - intros key row Hrow. destruct (N key row Hrow) as (row' & Hrow' & Hst & _). exists row'.
    split; [done|]. by rewrite Hst.
  - intros id a Ha. exists a. split; [by apply A|done].
Qed.

(** A state without a way out is kept. *)
Lemma terminal_stays s b :
  NodeStatus_is_terminal s = true → rtc edge (NodeStatus_as_str s) b → b = NodeStatus_as_str s.
Proof.
  intros Hs Hr. inversion Hr as [|x y z Hy]; subst; [done|]. exfalso. unfold edge in Hy.
  by rewrite (terminal_has_no_edge s y Hs) in Hy.
Qed.

(** ** Keys *)

(** What the constraints of the tables keep: attempts and completions are of nodes, and the
    attempts of a node id are numbered apart. *)
Record keys_ok (c : core) : Prop := {
  ko_node : ∀ id a, c_attempts c !! id = Some a → is_Some (c_nodes c !! (at_graph_id a, at_node_id a));
  ko_unique : ∀ id a id' b, c_attempts c !! id = Some a → c_attempts c !! id' = Some b →
    at_node_id a = at_node_id b → at_retry_no a = at_retry_no b → id = id';
  ko_completion : ∀ n co, c_completions c !! n = Some co → is_Some (c_nodes c !! (co_graph_id co, n))
}.

Section Keys.
Context (N N' : gmap (string * string) NodeCols) (A : gmap string AttemptCols) (C : gmap string CompletionCols).

Lemma keys_nodes :
  (∀ key, is_Some (N !! key) → is_Some (N' !! key)) → keys_ok (mkCore N A C) → keys_ok (mkCore N' A C).
Proof.
  intros Hn [H1 H2 H3]. constructor; simpl in *; [|done|].
  - intros id a Ha. by eapply Hn, H1.
  - intros n co Hco. by eapply Hn, H3.
Qed.

Lemma keys_update id a a' :
  A !! id = Some a → at_graph_id a' = at_graph_id a → at_node_id a' = at_node_id a →
  at_retry_no a' = at_retry_no a → keys_ok (mkCore N A C) → keys_ok (mkCore N (<[id := a']> A) C).
Proof.
  intros Ha Hg Hn Hr [H1 H2 H3]. constructor; simpl in *; [| |done].
  - intros id' b Hb. insert_cases; [rewrite Hg, Hn|]; by eapply H1.
  - intros i x j y Hx Hy. insert_cases; [done|rewrite Hn, Hr|rewrite Hn, Hr|]; by eapply H2.
Qed.

Lemma keys_attempt id a :
  A !! id = None → is_Some (N !! (at_graph_id a, at_node_id a)) →
  (∀ id' b, A !! id' = Some b → at_node_id b = at_node_id a → at_retry_no b ≠ at_retry_no a) →
  keys_ok (mkCore N A C) → keys_ok (mkCore N (<[id := a]> A) C).
Proof.
  intros Hid Hnode Hapart [H1 H2 H3]. constructor; simpl in *; [| |done].
  - intros id' b Hb. insert_cases; [done|]. by eapply H1.
  - intros i x j y Hx Hy Hn Hr. insert_cases; [done| | |by eapply H2]; exfalso; by eapply Hapart.
Qed.

Lemma keys_completion n co :
  is_Some (N !! (co_graph_id co, n)) → keys_ok (mkCore N A C) → keys_ok (mkCore N A (<[n := co]> C)).
Proof.
  intros Hn [H1 H2 H3]. constructor; simpl in *; [done..|]. intros n' co' Hco. insert_cases; [done|]. by apply H3.
Qed.

Lemma insert_domain {K V} `{Countable K} (m : gmap K V) k v key : is_Some (m !! key) → is_Some (<[k := v]> m !! key).
Proof. intros Hk. apply lookup_insert_is_Some'. by right. Qed.

Lemma move_if_legal_domain g n s row key : is_Some (N !! key) → is_Some (move_if_legal g n s row N !! key).
Proof. intros Hk. unfold move_if_legal. destruct (transition_ok _ _); [by apply insert_domain|done]. Qed.
End Keys.

#[local] Hint Resolve insert_domain move_if_legal_domain : core.

Lemma keys_step rt budget c c' : gstep rt budget c c' → keys_ok c → keys_ok c'.
Proof.
  intros Hs Hk. destruct c as [N A C].
  destruct Hs as [g n r id a Hr Hst Hf|g n r _ Hr Hst|id a now Ha Hrun|g n r id a now o (Hr & _ & Ha & _) Hfree
                 |g n r id a now (Hr & _ & Ha & _)|g n r Hr Hst _|g n r Hr Ht Hnone
                 |g n r id a now (Hr & _ & Ha & _) Ht]; simpl in *; unfold move.
  - destruct Hf as (_ & Hg & Hn & _ & _ & Hid & Huniq & _). apply (keys_nodes N); [eauto|].
    apply keys_attempt; [done|by rewrite Hg, Hn, Hr|by rewrite Hn|done].
  - apply (keys_nodes N); eauto.
  - by eapply keys_update.
  - apply (keys_nodes N); [eauto|]. apply keys_completion; [by simpl; rewrite Hr|]. by eapply keys_update.
  - apply (keys_nodes N); [eauto|]. by eapply keys_update.
  - apply (keys_nodes N); eauto.
  - apply (keys_nodes N); eauto.
  - apply (keys_nodes N); [eauto|]. by eapply keys_update.
Qed.

Section MirrorKeys.
Context `{PgErrors}.
#[local] Notation keeps d d' := (keys_ok (core_of d) → keys_ok (core_of d')).

Lemma write_node_keys g shadow n d x d' : write_node g shadow n d = Ok (x, d') → keeps d d'.
Proof.
  unfold write_node. destruct (node_row _ _ d); [destruct shadow|destruct (graph_exists g d)];
    intros [= _ <-]; try done; unfold core_of; simpl; apply keys_nodes; eauto.
Qed.

Lemma write_nodes_keys g shadow ex nodes stats d x d' :
  write_nodes g shadow ex nodes stats d = Ok (x, d') → keeps d d'.
Proof.
  revert stats d. induction nodes as [|n nodes IH]; intros stats d Hw Hk; simpl in Hw; [by tx_inv|].
  destruct (ex !! row_node_id n); [destruct (mirror_write_allowed _ _)|]; simpl in Hw; [|by eapply IH|];
    (apply tx_bind_Ok in Hw as (r & d1 & H1 & Hw); eapply IH; [done|]; by eapply write_node_keys).
Qed.

Lemma write_attempts_keys g attempts stats d x d' :
  write_attempts g attempts stats d = Ok (x, d') → keeps d d'.
Proof.
  revert stats d. induction attempts as [|a attempts IH]; intros stats d Hw Hk; simpl in Hw; [by tx_inv|].
  apply tx_bind_Ok in Hw as (r & d1 & H1 & Hw). eapply IH; [done|].
  unfold insert_attempt_or_nothing, insert_attempt in H1.
  destruct (attempt_conflicts _ _ d) eqn:Hc; [by simplify_eq|].
  destruct (has_node _ _ d) eqn:Hn; [|done]. simplify_eq. apply bool_decide_eq_true_1 in Hn.
  apply attempt_conflicts_false in Hc as [Hid Hapart]. by apply keys_attempt.
Qed.

Lemma write_completions_keys g u completions stats d x d' :
  write_completions g u completions stats d = Ok (x, d') → keeps d d'.
Proof.
  revert stats d. induction completions as [|c completions IH]; intros stats d Hw Hk; simpl in Hw; [by tx_inv|].
  apply tx_bind_Ok in Hw as (r & d1 & H1 & Hw). eapply IH; [done|].
  unfold insert_completion_or_nothing in H1. case_bool_decide; [by simplify_eq|].
  destruct (has_node _ _ d) eqn:Hn; [|done]. simplify_eq. apply bool_decide_eq_true_1 in Hn.
  by apply keys_completion.
Qed.

(** The statements of [write_projection], when it commits. *)
Lemma write_projection_Ok p shadow imp d :
  (write_projection p shadow imp d).2 = d ∨
  ∃ d1 stats d2 s2 d3 s3, core_of d1 = core_of d ∧ db_nodes d1 = db_nodes d ∧
    write_nodes (proj_graph_id p) shadow (existing_states (proj_graph_id p) shadow d1) (proj_nodes p) stats d1 = Ok (s2, d2) ∧
    write_attempts (proj_graph_id p) (proj_attempts p) s2 d2 = Ok (s3, d3) ∧
    ∃ s4, write_completions (proj_graph_id p) (proj_updated_at p) (proj_completions p) s3 d3
          = Ok (s4, (write_projection p shadow imp d).2).
Proof.
  destruct (write_projection p shadow imp d) as [r d'] eqn:E. cbn [snd]. unfold write_projection in E.
  apply transaction_cases in E as [(a & Hb & _)|[-> _]]; [right|by left].
  apply tx_bind_Ok in Hb as (rows & d1 & H1 & Hb).
  apply tx_bind_Ok in Hb as (ex & d1' & [= <- <-] & Hb).
  apply tx_bind_Ok in Hb as (s1 & d3 & H3 & Hb). apply tx_bind_Ok in Hb as (s2 & d4 & H4 & Hb).
  apply tx_bind_Ok in Hb as (s3 & d5 & H5 & Hb). tx_inv.
  assert (core_of d1 = core_of d ∧ db_nodes d1 = db_nodes d) as [Hc Hn].
  { unfold write_graph in H1. destruct (db_graphs d !! proj_graph_id p); [destruct shadow|]; by simplify_eq. }
  eexists d1, _, d3, s1, d4, s2. split_and!; [done..|]. by exists s3.
Qed.

Lemma mirror_keys p shadow imp d : keeps d (write_projection p shadow imp d).2.
Proof.
  destruct (write_projection_Ok p shadow imp d)
    as [->|(d1 & st & d2 & s2 & d3 & s3 & Hc & _ & H2 & H3 & s4 & H4)]; [done|]. intros Hk.
  eapply write_completions_keys, write_attempts_keys, write_nodes_keys; [done..|]. by rewrite Hc.
Qed.
End MirrorKeys.

(** ** Mirror writes in step with the tables *)

(** The states in which the dependencies of a node do not matter any more, or not yet. *)
Notation idle_states := ["CREATED"; "CANCELLED"; "SKIPPED"]%string.

(** A node row that is new to the tables is created, or ready with its dependencies satisfied in
    the tables; the dependencies of a node under way are the recorded ones. *)
Definition node_in_step (g : string) (n : NodeRow) (d : GraphDb) : Prop :=
  match node_row g (row_node_id n) d with
  | Some row => nd_state row ∈ idle_states ∨ row_dependencies n = nd_dependencies row
  | None => row_state n = "CREATED"%string ∨
            (row_state n = "READY"%string ∧ Forall (satisfied_dep (db_nodes d) g) (json_strings (row_dependencies n)))
  end.

(** The projection tells of no execution the tables do not hold: its nodes are in step, and its
    attempts and completions have their rows. *)
Record in_step (p : GraphProjection) (d : GraphDb) : Prop := {
  is_ids : NoDup (row_node_id <$> proj_nodes p);
  is_nodes : ∀ n, n ∈ proj_nodes p → node_in_step (proj_graph_id p) n d;
  is_attempts : ∀ a, a ∈ proj_attempts p →
    is_Some (db_attempts d !! row_attempt_id a) ∨
    ∃ id b, db_attempts d !! id = Some b ∧ at_node_id b = row_attempt_node a ∧ at_retry_no b = row_retry_no a;
  is_completions : ∀ c, c ∈ proj_completions p → is_Some (db_completions d !! row_completed_node c)
}.

(** What such a write does. *)
Definition mirrored (c c' : core) : Prop :=
  c_attempts c' = c_attempts c ∧ c_completions c' = c_completions c ∧
  (∀ key row, c_nodes c !! key = Some row → ∃ row', c_nodes c' !! key = Some row' ∧
     nd_state row' = nd_state row ∧ nd_optional row' = nd_optional row ∧
     (nd_state row ∈ idle_states ∨ nd_dependencies row' = nd_dependencies row)) ∧
  (∀ g n row', c_nodes c' !! (g, n) = Some row' → c_nodes c !! (g, n) = None →
     nd_state row' = "CREATED"%string ∨
     (nd_state row' = "READY"%string ∧ Forall (satisfied_dep (c_nodes c) g) (json_strings (nd_dependencies row')))).

Lemma mirrored_refl c : mirrored c c.
Proof. split_and!; [done..| |intros; congruence]. intros key row Hrow. exists row. auto. Qed.

Lemma mirrored_row c c' g n row' :
  mirrored c c' → c_nodes c' !! (g, n) = Some row' →
  (∃ row, c_nodes c !! (g, n) = Some row ∧ nd_state row' = nd_state row ∧
     (nd_state row ∈ idle_states ∨ nd_dependencies row' = nd_dependencies row)) ∨
  nd_state row' = "CREATED"%string ∨
  (nd_state row' = "READY"%string ∧ Forall (satisfied_dep (c_nodes c) g) (json_strings (nd_dependencies row'))).
Proof.
  intros (_ & _ & Hold & Hnew) Hrow'. destruct (c_nodes c !! (g, n)) as [row|] eqn:E; [left|by right; eapply Hnew].
  destruct (Hold _ _ E) as (r & Hr & Hs & _ & Hd). simplify_eq. eauto.
Qed.

Lemma mirrored_ginv c c' : mirrored c c' → ginv c → ginv c'.
Proof.
  intros Hm Hi. pose proof Hm as (HA & HC & Hold & _). constructor; rewrite ?HA, ?HC.
  - intros id a Ha. destruct (gi_node c Hi id a Ha) as [row Hrow]. destruct (Hold _ _ Hrow) as (row' & Hrow' & _).
    by exists row'.
  - apply (gi_key c Hi).
  - apply (gi_unique c Hi).
  - intros id a Ha Hst. destruct (gi_running c Hi id a Ha Hst) as (row & Hrow & Hs).
    destruct (Hold _ _ Hrow) as (row' & Hrow' & Hs' & _). exists row'. by rewrite Hs'.
  - apply (gi_newest c Hi).
  - intros g n row' Hrow' Hs. destruct (mirrored_row _ _ _ _ _ Hm Hrow') as [(row & Hrow & Hs' & _)|[Hs'|[Hs' _]]];
      [eapply (gi_succeeded c Hi); [done|congruence]|congruence..].
  - intros n co Hco. destruct (gi_completion c Hi n co Hco) as (row & a & Hrow & Hs & H).
    destruct (Hold _ _ Hrow) as (row' & Hrow' & Hs' & _). exists row', a. by rewrite Hs'.
Qed.

Lemma mirrored_satisfied c c' g dep : mirrored c c' → satisfied_dep (c_nodes c) g dep → satisfied_dep (c_nodes c') g dep.
Proof.
  intros (_ & _ & Hold & _) (row & Hrow & Hst). destruct (Hold _ _ Hrow) as (row' & Hrow' & Hs & Ho & _).
  exists row'. by rewrite Hs, Ho.
Qed.

Lemma mirrored_deps_first c c' : mirrored c c' → deps_first c → deps_first c'.
Proof.
  intros Hm Hd g n row' Hrow' Hst.
  assert (Forall (satisfied_dep (c_nodes c) g) (json_strings (nd_dependencies row'))) as Hall.
  { destruct (mirrored_row _ _ _ _ _ Hm Hrow') as [(row & Hrow & Hs & Hdeps)|[Hs|[_ Hall]]]; [| |done].
    - rewrite Hs in Hst. destruct Hdeps as [?| ->]; [done|]. by apply (Hd g n row).
    - rewrite Hs in Hst. set_solver. }
  eapply Forall_impl; [exact Hall|]. intros dep. by apply mirrored_satisfied.
Qed.

Section InStep.
Context `{PgErrors}.

Lemma write_node_in_step g shadow n d0 d x d' :
  node_in_step g n d0 →
  mirrored (core_of d0) (core_of d) → node_row g (row_node_id n) d = node_row g (row_node_id n) d0 →
  write_node g shadow n d = Ok (x, d') →
  mirrored (core_of d0) (core_of d') ∧
  ∀ m, m ≠ row_node_id n → node_row g m d' = node_row g m d.
Proof.
  intros Hn (HA & HC & Hold & Hnew) Hsame. unfold node_in_step, write_node, node_row in *. rewrite Hsame.
  destruct (db_nodes d0 !! (g, row_node_id n)) as [old|] eqn:E0.
  - destruct shadow; intros [= _ <-]; [|done]. split; [|intros m Hm; simpl; rewrite lookup_insert_ne by congruence; done].
    split_and!; [done..| |]; simpl.
    + intros key row Hrow. destruct (decide (key = (g, row_node_id n))) as [->|Hne].
      * rewrite lookup_insert_eq. simpl in Hrow. simplify_eq. eexists. split; [done|]. simpl. naive_solver.
      * rewrite lookup_insert_ne by done. by apply Hold.
    + intros g' m row' [[[= <- <-] <-]|[_ Hrow']]%lookup_insert_Some; [simpl; congruence|by apply Hnew].
  - destruct (graph_exists g d); intros [= _ <-]. split; [|intros m Hm; simpl; rewrite lookup_insert_ne by congruence; done].
    split_and!; [done..| |]; simpl.
    + intros key row Hrow. destruct (Hold key row Hrow) as (row' & Hrow' & H'). exists row'.
      rewrite lookup_insert_ne; [done|]. intros <-. simpl in *. congruence.
    + intros g' m row' [[[= <- <-] <-]|[_ Hrow']]%lookup_insert_Some; [by intros _|by apply Hnew].
Qed.

Lemma write_nodes_in_step g shadow ex nodes stats d0 d x d' :
  NoDup (row_node_id <$> nodes) →
  (∀ n, n ∈ nodes → node_in_step g n d0) →
  mirrored (core_of d0) (core_of d) →
  (∀ n, n ∈ nodes → node_row g (row_node_id n) d = node_row g (row_node_id n) d0) →
  write_nodes g shadow ex nodes stats d = Ok (x, d') → mirrored (core_of d0) (core_of d').
Proof.
  revert stats d. induction nodes as [|n nodes IH]; intros stats d Hnd Hok Hm Hsame Hw; simpl in Hw; [by tx_inv|].
  rewrite fmap_cons in Hnd. apply NoDup_cons in Hnd as [Hn Hnd].
  assert (∀ stats r d1, write_node g shadow n d = Ok (r, d1) →
    write_nodes g shadow ex nodes stats d1 = Ok (x, d') → mirrored (core_of d0) (core_of d')) as Hgo.
  { intros st r d1 H1 H2.
    destruct (write_node_in_step g shadow n d0 d r d1 (Hok n ltac:(left)) Hm (Hsame n ltac:(left)) H1) as [Hm1 Hfr].
    eapply IH; [done| |done| |done]; [intros m Hin; apply Hok; by right|].
    intros m Hin. rewrite Hfr; [apply Hsame; by right|]. intros Heq. apply Hn. rewrite <-Heq. by apply list_elem_of_fmap_2. }
  destruct (ex !! row_node_id n); [destruct (mirror_write_allowed _ _)|]; simpl in Hw.
  - apply tx_bind_Ok in Hw as (r & d1 & H1 & Hw). by eapply Hgo.
  - eapply IH; [done| |done| |done]; intros m Hin; [apply Hok|apply Hsame]; by right.
  - apply tx_bind_Ok in Hw as (r & d1 & H1 & Hw). by eapply Hgo.
Qed.

Lemma write_attempts_in_step g attempts stats d x d' :
  (∀ a, a ∈ attempts → is_Some (db_attempts d !! row_attempt_id a) ∨
     ∃ id b, db_attempts d !! id = Some b ∧ at_node_id b = row_attempt_node a ∧ at_retry_no b = row_retry_no a) →
  write_attempts g attempts stats d = Ok (x, d') → d' = d.
Proof.
  intros Hin. revert stats. induction attempts as [|a attempts IH]; intros stats Hw; simpl in Hw; [by tx_inv|].
  apply tx_bind_Ok in Hw as (r & d1 & H1 & Hw).
  assert (d1 = d) as ->; [|eapply IH; [|exact Hw]; intros b Hb; apply Hin; by right].
  unfold insert_attempt_or_nothing in H1. destruct (attempt_conflicts _ _ d) eqn:Hc; [by simplify_eq|exfalso].
  apply attempt_conflicts_false in Hc as [Hnone Hapart].
  destruct (Hin a ltac:(left)) as [[b Hb]|(id & b & Hb & Hn & Hr)]; [congruence|]. by eapply Hapart.
Qed.

Lemma write_completions_in_step g u completions stats d x d' :
  (∀ c, c ∈ completions → is_Some (db_completions d !! row_completed_node c)) →
  write_completions g u completions stats d = Ok (x, d') → d' = d.
Proof.
  intros Hin. revert stats. induction completions as [|c completions IH]; intros stats Hw; simpl in Hw; [by tx_inv|].
  apply tx_bind_Ok in Hw as (r & d1 & H1 & Hw).
  assert (d1 = d) as ->; [|eapply IH; [|exact Hw]; intros b Hb; apply Hin; by right].
  unfold insert_completion_or_nothing in H1. rewrite bool_decide_true in H1 by (apply Hin; left). by simplify_eq.
Qed.

Lemma in_step_mirrored p shadow imp d : in_step p d → mirrored (core_of d) (core_of (write_projection p shadow imp d).2).
Proof.
  intros [Hids Hnodes Hatt Hcomp].
  destruct (write_projection_Ok p shadow imp d)
    as [->|(d1 & st & d2 & s2 & d3 & s3 & Hc & Hn1 & H2 & H3 & s4 & H4)]; [apply mirrored_refl|].
  apply (write_nodes_in_step _ _ _ _ _ d) in H2; [|done|done|rewrite Hc; apply mirrored_refl|].
  2: { intros n _. unfold node_row. by rewrite Hn1. }
  pose proof H2 as (HA & HC & _). simpl in HA, HC.
  apply write_attempts_in_step in H3 as ->; [|by rewrite HA].
  apply write_completions_in_step in H4; [|by rewrite HC]. by rewrite H4.
Qed.
End InStep.

(** ** Runs *)

Section AllRuns.
Context `{PgErrors} (rt : bool) (budget : Z).

(** Any transaction: a verb, or a projection written as a shadow or as an import. *)
Inductive tstep (d : GraphDb) : GraphDb → Prop :=
| tstep_verb d' : vstep rt budget d d' → tstep d d'
| tstep_mirror p shadow imp : tstep d (write_projection p shadow imp d).2.

(** A verb, or a projection in step with the tables. *)
Inductive istep (d : GraphDb) : GraphDb → Prop :=
| istep_verb d' : vstep rt budget d d' → istep d d'
| istep_mirror p shadow imp : in_step p d → istep d (write_projection p shadow imp d).2.

(** The same, and imports of new graphs. *)
Inductive cstep (d : GraphDb) : GraphDb → Prop :=
| cstep_istep d' : istep d d' → cstep d d'
| cstep_import task : new_graph task d → cstep d (write_projection (project_task task) false true d).2.

Lemma tstep_history d d' : tstep d d' → history_kept (core_of d) (core_of d').
Proof.
  intros [d'' Hv|p shadow imp]; [|apply records_history, mirror_keeps_state].
  apply vstep_refines in Hv. induction Hv as [|c1 c2 c3 H1 _ IH]; [done|]. etrans; [by eapply step_history|done].
Qed.

Lemma tsteps_history d d' : rtc tstep d d' → history_kept (core_of d) (core_of d').
Proof. induction 1 as [|d1 d2 d3 H1 _ IH]; [done|]. etrans; [by apply tstep_history|done]. Qed.

Lemma tstep_keys d d' : tstep d d' → keys_ok (core_of d) → keys_ok (core_of d').
Proof.
  intros [d'' Hv|p shadow imp]; [|apply mirror_keys].
  eapply (run_keeps rt budget); [apply keys_step|by apply rtc_once].
Qed.

Lemma istep_keeps d d' :
  istep d d' → ginv (core_of d) → ginv (core_of d') ∧ (deps_first (core_of d) → deps_first (core_of d')).
Proof.
  intros Hs Hi. destruct Hs as [d' Hv|p shadow imp Hp].
  - split; [by eapply run_ginv; [apply rtc_once|]|]. intros Hd.
    by apply (run_keeps rt budget (λ c, ginv c ∧ deps_first c) d d');
      [intros c c'; apply deps_first_step|apply rtc_once|].
  - pose proof (in_step_mirrored p shadow imp d Hp) as Hm. split; [by eapply mirrored_ginv|by apply mirrored_deps_first].
Qed.

Lemma cstep_ginv d d' : cstep d d' → ginv (core_of d) → ginv (core_of d').
Proof.
  intros [d'' Hs|task Hnew] Hi; [by apply istep_keeps in Hs as [? _]|].
  destruct (import_writes task d Hnew) as (stats & d2 & Hw & Hc). rewrite Hw. simpl. rewrite Hc. by apply imported_ginv.
Qed.

(** The completion row of a winning commit, whatever attempt was named. *)
Lemma settle_keeps_completions now g n id r u steps us st v d x d' :
  settle_commit now g n id r u steps us st v d = Ok (x, d') → db_completions d' = db_completions d.
Proof.
  unfold settle_commit. intros Hb. tx_inv.
  match goal with Hr : recompute_ready_tx _ _ _ _ = Ok _ |- _ =>
    apply (recompute_ready_tx_Ok rt budget) in Hr as (_ & _ & [_ Hr] & _); rewrite Hr; clear Hr end. simpl.
  match goal with Hs : (if transition_ok _ _ then _ else _) ?d2 = Ok (_, ?d3) |- _ =>
    assert (db_completions d3 = db_completions d2) as -> end.
  { destruct (transition_ok _ _); [cas_inv row; done|by tx_inv]. }
  destruct (db_attempts (set_graphs _ d) !! id) as [a|]; [destruct (_ ==? _)|]; tx_inv; try done.
  unfold update_attempt. by destruct (_ !! id).
Qed.

Lemma commit_inserts now g n id r u steps d d' :
  commit_once now g n id r u steps d = (Ok true, d') → db_completions d' !! n = Some (mkCompletionCols g id r now).
Proof.
  unfold commit_once. intros Hc. apply transaction_Ok in Hc.
  assert (∀ reason d2 d3 x, late_commit now g n id reason d2 = Ok (x, d3) → x = Commit false) as Hlate.
  { intros reason d2 d3 x Hl. unfold late_commit in Hl. by tx_inv. }
  assert (∃ x d1, tx_bind (lock_graph_tx g) _ d = Ok (x, d1) ∧ (x = Commit true ∧ d1 = d' ∨ x = Rollback true))
    as (x & d1 & Hb & Hx) by (destruct Hc as [Hb|[_ [d1 Hb]]]; eauto 10). clear Hc. tx_inv.
  destruct (_ <$> node_row g n d) as [[s v]|]; [|apply Hlate in Hb; naive_solver].
  destruct (db_attempts d !! id) as [a|]; [|apply Hlate in Hb; naive_solver].
  destruct (_ || _); [apply Hlate in Hb; naive_solver|]. tx_inv.
  match goal with Hi : insert_completion_or_nothing _ _ _ _ = Ok _ |- _ =>
    unfold insert_completion_or_nothing in Hi; case_bool_decide; [simplify_eq; apply Hlate in Hb; naive_solver|];
    destruct (has_node _ _ d); [|done]; simplify_eq end.
  simpl in Hb. tx_inv. destruct Hx as [[_ ->]|Hx]; [|done].
  match goal with Hs : settle_commit _ _ _ _ _ _ _ _ _ _ _ = Ok _ |- _ =>
    apply settle_keeps_completions in Hs; rewrite Hs end. apply lookup_insert_eq.
Qed.

(** C12: one commit per node.  Once [commit_once] has answered true for a node, then after
    any further transactions, mirror writes and imports of any kind among them (and reports
    that name attempts of their own node), the completion row names that attempt and its
    result, and no later [commit_once] for the node, from any graph and attempt, answers
    true.  When the tables were consistent and the attempt was one of the node's, the node
    is succeeded from then on. *)
Theorem commit_wins_once d now g n id r u steps d1 d2 :
  commit_once now g n id r u steps d = (Ok true, d1) → rtc tstep d1 d2 →
  db_completions d2 !! n = Some (mkCompletionCols g id r now) ∧
  (∀ now' g' id' r' u' steps', (commit_once now' g' n id' r' u' steps' d2).1 ≠ Ok true) ∧
  (ginv (core_of d) → owns g n id d → node_state g n d2 = Some SUCCEEDED).
Proof.
  intros Hc Hrun. destruct (tsteps_history _ _ Hrun) as (Hn & _ & Hco).
  pose proof (Hco _ _ (commit_inserts _ _ _ _ _ _ _ _ _ Hc)) as H2. simpl in H2. split_and!; [done| |].
  - intros now' g' id' r' u' steps' Hwin. apply commit_true_inv in Hwin as (? & ? & _ & _ & _ & _ & Hnone). congruence.
  - intros Hi Hown. apply (commit_refines rt budget) in Hc as [[? _]|(_ & row & a & Hl & Hfree & Hs & Hr & _ & HC)];
      [done| |done].
    assert (ginv (core_of d1)) as Hi1.
    { eapply ginv_step in Hs; [|done]. clear -Hr Hs. induction Hr as [|c1 c2 c3 H1 _ IH]; [done|]. by eapply IH, ginv_step. }
    destruct (gi_completion _ Hi1 n (mkCompletionCols g id r now)) as (row1 & a1 & Hrow1 & Hst & _).
    { rewrite HC. simpl. apply lookup_insert_eq. }
    destruct (Hn _ _ Hrow1) as (row2 & Hrow2 & He). rewrite Hst in He.
    apply (terminal_stays NodeSucceeded) in He; [|done]. unfold node_state, node_row. simpl in Hrow2.
    rewrite Hrow2. simpl. by rewrite He.
Qed.

(** C14: what the tables keep.  Under any transactions in any order (the scheduling verbs,
    whose reports name attempts of their own node, mirror writes and imports of any
    projection) node rows stay and their states move along edges of the state machine,
    attempts keep their identity and are final once they have stopped, completions are
    final, attempts and completions are of nodes, and attempts of a node id are numbered
    apart.  When moreover the mirror writes are in step with the tables (they tell of no
    execution the tables do not hold) and the imports are of new graphs, consistency is
    kept: a running attempt is the newest attempt of a running node (so a node has at most
    one), and the succeeded nodes are exactly the ones with a completion row, whose winner
    is a succeeded attempt of that node. *)
Theorem graph_consistent d d' :
  (rtc tstep d d' →
   history_kept (core_of d) (core_of d') ∧ (keys_ok (core_of d) → keys_ok (core_of d'))) ∧
  (rtc cstep d d' → ginv (core_of d) → ginv (core_of d')).
Proof.
  split.
  - intros Hrun. split; [by apply tsteps_history|].
    induction Hrun as [|d1 d2 d3 H1 _ IH]; [done|]. intros Hk. by eapply IH, tstep_keys.
  - induction 1 as [|d1 d2 d3 H1 _ IH]; [done|]. intros Hi. by eapply IH, cstep_ginv.
Qed.

(** C15: dependencies first.  In every run of the scheduling verbs and of mirror writes in
    step with the tables (a mirrored node that is new is created, or ready with its
    dependencies satisfied in the tables, and the dependencies of a node under way are not
    rewritten), from consistent tables where the nodes already under way had their
    dependencies, a node is dispatched only when each of its dependencies has succeeded, or
    was skipped and is optional. *)
Theorem dispatched_after_dependencies d d1 now g n w id d2 row :
  ginv (core_of d) → deps_first (core_of d) → rtc istep d d1 →
  schedule_attempt now g n w d1 = (Ok (Some id), d2) → node_row g n d1 = Some row →
  Forall (satisfied_dep (db_nodes d1) g) (json_strings (nd_dependencies row)).
Proof.
  intros Hi Hd Hrun Hsch Hrow.
  assert (deps_first (core_of d1)) as Hd1.
  { clear -Hrun Hi Hd. induction Hrun as [|d1 d2 d3 H1 _ IH]; [done|].
    destruct (istep_keeps _ _ H1 Hi) as [Hi2 Hd2]. auto. }
  apply schedule_Some in Hsch as (row' & Hrow' & Hst). assert (row' = row) as -> by congruence.
  eapply (Hd1 g n row Hrow). rewrite Hst. set_solver.
Qed.
End AllRuns.

Lemma shadow_persist_projects `{PgErrors} task d :
  graph_scope_is_valid (tk_project_id task) = true →
  shadow_persist task d = (write_projection (project_task task) true false d).2.
Proof. intros Hs. unfold shadow_persist, upsert_task_shadow. by rewrite Hs. Qed.

Lemma owns_lookup g n id d :
  (λ r, (at_graph_id r, at_node_id r)) <$> db_attempts d !! id = Some (g, n) → owns g n id d.
Proof. intros Hl a Ha. rewrite Ha in Hl. simpl in Hl. by simplify_eq. Qed.

(** ** A graph of two nodes *)

#[local] Existing Instance pg_text.
#[local] Existing Instance zero_sha.

Notation demo_started := (demo_task "t" SubtaskInProgress SubtaskPending).

Lemma demo_in_step : in_step (project_task demo_started) demo_running.
Proof.
  constructor.
  - by apply (bool_decide_eq_true_1 (NoDup ["a"; "b"]%string)).
  - intros n Hn. simpl in Hn. apply elem_of_cons in Hn as [->|[->|[]%elem_of_nil]%elem_of_cons]; vm_compute; right; reflexivity.
  - intros a Ha. left. assert (row_attempt_id a = "t:a:0"%string) as ->.
    { vm_compute in Ha. by apply list_elem_of_singleton in Ha as ->. }
    vm_compute. by eexists.
  - intros c Hc. vm_compute in Hc. by apply elem_of_nil in Hc.
Qed.

(** The first node dispatched, and mirrored while it runs. *)
Notation demo_mirrored := (shadow_persist demo_started demo_running).

Lemma demo_mirrored_istep : istep true DEFAULT_MAX_ATTEMPTS demo_running demo_mirrored.
Proof. rewrite shadow_persist_projects by done. apply istep_mirror, demo_in_step. Qed.

Lemma demo_verb_istep d d' : vstep true DEFAULT_MAX_ATTEMPTS d d' → istep true DEFAULT_MAX_ATTEMPTS d d'.
Proof. apply istep_verb. Qed.

Lemma demo_schedule : vstep true DEFAULT_MAX_ATTEMPTS demo_db demo_running.
Proof. by exists 5, (VSchedule "t" "a" (Some "w"%string)). Qed.

Lemma graph_consistent_witness :
  ginv (core_of demo_mirrored) ∧ node_state "t" "a" demo_mirrored = Some RUNNING ∧
  history_kept (core_of demo_running) (core_of (shadow_persist (demo_task "t" SubtaskCompleted SubtaskPending) demo_running)).
Proof.
  split; [|split; [by vm_compute|]].
  - apply (proj2 (graph_consistent true DEFAULT_MAX_ATTEMPTS demo_db demo_mirrored)); [|apply demo_ginv].
    apply (rtc_l _ _ demo_running); [apply cstep_istep, demo_verb_istep, demo_schedule|].
    apply rtc_once, cstep_istep, demo_mirrored_istep.
  - apply (proj1 (graph_consistent true DEFAULT_MAX_ATTEMPTS demo_running _)). apply rtc_once.
    rewrite shadow_persist_projects by done. apply tstep_mirror.
Defined.

(** A commit, then a stale mirror write: the commit stands. *)
Notation demo_committed := (commit_once 6 "t" "a" "t:a:0" (Some "done"%string) None None demo_running).
Notation demo_stale := (shadow_persist demo_started demo_committed.2).

Lemma commit_wins_once_witness :
  demo_committed.1 = Ok true ∧
  (db_completions demo_stale !! "a"%string = Some (mkCompletionCols "t" "t:a:0" (Some "done"%string) 6) ∧
   (∀ now g id r u steps, (commit_once now g "a" id r u steps demo_stale).1 ≠ Ok true) ∧
   node_state "t" "a" demo_stale = Some SUCCEEDED) ∧
  node_state "t" "b" demo_committed.2 = Some "READY"%string.
Proof.
  split; [by vm_compute|]. split; [|by vm_compute].
  destruct (commit_wins_once true 3 demo_running 6 "t" "a" "t:a:0" (Some "done"%string) None None
           demo_committed.2 demo_stale) as (H1 & H2 & H3).
  - assert (demo_committed.1 = Ok true) as <- by by vm_compute. by destruct demo_committed.
  - apply rtc_once. rewrite shadow_persist_projects by done. apply tstep_mirror.
  - split_and!; [exact H1|exact H2|]. exact (H3 demo_running_ginv demo_owns).
Defined.

Lemma dispatched_after_dependencies_witness :
  let d := (commit_once 6 "t" "a" "t:a:0" (Some "done"%string) None None demo_mirrored).2 in
  ∃ row, node_row "t" "b" d = Some row ∧ json_strings (nd_dependencies row) = ["a"%string] ∧
    (schedule_attempt 7 "t" "b" None d).1 = Ok (Some "t:b:0"%string) ∧
    Forall (satisfied_dep (db_nodes d) "t") (json_strings (nd_dependencies row)).
Proof.
  intros d.
  assert (∃ row, node_row "t" "b" d = Some row ∧ json_strings (nd_dependencies row) = ["a"%string])
    as (row & Hrow & Hd) by (eexists; by vm_compute).
  assert ((schedule_attempt 7 "t" "b" None d).1 = Ok (Some "t:b:0"%string)) as Hsch by by vm_compute.
  exists row. split_and!; [done..|].
  apply (dispatched_after_dependencies true DEFAULT_MAX_ATTEMPTS demo_db d 7 "t" "b" None "t:b:0"
           (schedule_attempt 7 "t" "b" None d).2 row demo_ginv demo_deps_first); [| |done].
  - apply (rtc_l _ _ demo_running); [apply demo_verb_istep, demo_schedule|].
    apply (rtc_l _ _ demo_mirrored); [apply demo_mirrored_istep|]. apply rtc_once, demo_verb_istep.
    exists 6, (VCommit "t" "a" "t:a:0" (Some "done"%string) None None). split; [|done].
    apply owns_lookup. vm_compute. reflexivity.
  - rewrite <-Hsch. by destruct (schedule_attempt _ _ _ _ _).
Defined.

(** ** Merge grants, statement by statement *)

(** The calls on the grants are not in a transaction: each takes its statements one by one. *)
Inductive grant_call : Type :=
| CallIssue (now : Instant) (g : string) (pc : issue_pc)
| CallReport (now : Instant) (g key : string) (o : MergeOutcomeReport) (pc : report_pc).

Definition call_fresh (c : grant_call) : Prop :=
  match c with CallIssue _ _ IssueStart | CallReport _ _ _ _ ReportStart => True | _ => False end.

Inductive grant_write : Type :=
| WGranted (g key : string) (now : Instant)
| WSpent (g key : string) (o : MergeOutcomeReport) (now : Instant).

(** The grant of a graph after the logged writes. *)
Definition after_write (g : string) (m : option GrantCols) (w : nat * grant_write) : option GrantCols :=
  match w.2 with
  | WGranted g' key now => if g' ==? g then Some (mkGrantCols key now None None) else m
  | WSpent g' key o now =>
      if g' ==? g then (λ m, mkGrantCols key (mg_issued_at m) (Some now) (Some (outcome_json o))) <$> m else m
  end.
Definition after_writes (g : string) (m : option GrantCols) (log : list (nat * grant_write)) : option GrantCols :=
  foldl (after_write g) m log.

Definition unspent_under (g key : string) (d : GraphDb) : Prop :=
  ∃ m, db_grants d !! g = Some m ∧ mg_key m = key ∧ mg_consumed_at m = None.
Definition spent_under (g key : string) (d : GraphDb) : Prop :=
  ∃ m, db_grants d !! g = Some m ∧ mg_key m = key ∧ is_Some (mg_consumed_at m).
Definition no_grant_under (g key : string) (d : GraphDb) : Prop :=
  ∀ m, db_grants d !! g = Some m → mg_key m ≠ key.

Section Grants.
Context `{Sha256}.

Definition call_step (c : grant_call) (d : GraphDb) : grant_call * GraphDb :=
  match c with
  | CallIssue now g pc => let '(pc, d) := issue_step now g pc d in (CallIssue now g pc, d)
  | CallReport now g key o pc => let '(pc, d) := report_step now g key o pc d in (CallReport now g key o pc, d)
  end.

(** What the next statement of a call writes. *)
Definition call_write (c : grant_call) (d : GraphDb) : option grant_write :=
  match c with
  | CallIssue now g (IssueFresh key) => Some (WGranted g key now)
  | CallReport now g key o ReportUnconsumed =>
      match db_grants d !! g with
      | Some m => if (mg_key m ==? key) && bool_decide (mg_consumed_at m = None)
                  then Some (WSpent g key o now) else None
      | None => None
      end
  | _ => None
  end.

Record grant_run : Type := mkGrantRun {
  run_db : GraphDb;
  run_calls : list grant_call;
  run_log : list (nat * grant_write)
}.

(** One statement of a call, or anything that leaves the grants alone: any transaction on the
    other tables, the mirror included. *)
Inductive grant_step : grant_run → grant_run → Prop :=
| step_other d d' calls log :
    db_grants d' = db_grants d → grant_step (mkGrantRun d calls log) (mkGrantRun d' calls log)
| step_call i c d calls log :
    calls !! i = Some c →
    grant_step (mkGrantRun d calls log)
      (mkGrantRun (call_step c d).2 (<[i := (call_step c d).1]> calls)
         (log ++ option_list ((i,.) <$> call_write c d))).

(** The writes of a call are those of the log. *)
Lemma call_writes c d g i :
  db_grants (call_step c d).2 !! g
  = after_writes g (db_grants d !! g) (option_list ((i,.) <$> call_write c d)).
Proof.
  destruct c as [now g' [| | | |]|now g' key o [| |]]; simpl; repeat case_match; simplify_eq/=; try done.
  - unfold after_write. simpl. destruct (decide (g' = g)) as [->|Hne].
    + by rewrite bool_decide_true, lookup_insert_eq by done.
    + by rewrite bool_decide_false, lookup_insert_ne by done.
  - unfold after_write. simpl. destruct (decide (g' = g)) as [->|Hne].
    + rewrite bool_decide_true, lookup_insert_eq by done.
      match goal with E : db_grants d !! g = Some _ |- _ => by rewrite E end.
    + by rewrite bool_decide_false, lookup_insert_ne by done.
Qed.

(** A write that spends found the grant unspent. *)
Lemma call_spends c d g key o now :
  call_write c d = Some (WSpent g key o now) → unspent_under g key d.
Proof.
  destruct c as [now' g' [| | | |]|now' g' key' o' [| |]]; simpl; repeat case_match; try done. intros [= -> -> -> ->].
  match goal with E : _ && _ = true |- _ => apply andb_true_iff in E as [Ek Ec] end.
  eexists. split; [done|]. by rewrite !bool_decide_eq_true in *.
Qed.

(** ** Answers *)

Section Answers.
Context (r0 : grant_run).

Definition moment (r : grant_run) (P : GraphDb → Prop) : Prop :=
  ∃ r1, rtc grant_step r0 r1 ∧ rtc grant_step r1 r ∧ P (run_db r1).

(** The graph was quiescent, and later its key was this one. *)
Definition key_after_quiescence (r : grant_run) (g key : string) : Prop :=
  ∃ r1 r2, rtc grant_step r0 r1 ∧ rtc grant_step r1 r2 ∧ rtc grant_step r2 r ∧
    quiescent g (run_db r1) ∧ key = current_key g (run_db r2).

Definition silent (i : nat) (r : grant_run) : Prop := ∀ w, (i, w) ∉ run_log r.

Definition call_inv (r : grant_run) (i : nat) (c : grant_call) : Prop :=
  match c with
  | CallIssue _ g IssueStart => True
  | CallIssue _ g IssueQuiescent => moment r (quiescent g)
  | CallIssue _ g (IssueKeyed key) | CallIssue _ g (IssueFresh key) => key_after_quiescence r g key
  | CallIssue _ g (Issued dec) => granted dec = true → key_after_quiescence r g (merge_idempotency_key dec)
  | CallReport _ g key _ ReportStart => silent i r
  | CallReport _ g key _ ReportUnconsumed => silent i r ∧ moment r (unspent_under g key)
  | CallReport _ g key _ (Reported dec) =>
      (report_accepted dec = false ∧ silent i r ∧ moment r (no_grant_under g key)) ∨
      (report_accepted dec = true ∧ report_replay dec = true ∧ silent i r ∧ moment r (spent_under g key)) ∨
      (report_accepted dec = true ∧ report_replay dec = false ∧ moment r (unspent_under g key))
  end.

Lemma moment_step r r' P : grant_step r r' → moment r P → moment r' P.
Proof. intros Hs (r1 & H0 & H1 & HP). exists r1. split_and!; [done| |done]. by eapply rtc_r. Qed.

Lemma key_step r r' g key : grant_step r r' → key_after_quiescence r g key → key_after_quiescence r' g key.
Proof. intros Hs (r1 & r2 & H0 & H1 & H2 & H3). exists r1, r2. split_and!; try apply H3; [done..|]. by eapply rtc_r. Qed.

Lemma call_inv_step r r' i c :
  grant_step r r' → (silent i r → silent i r') → call_inv r i c → call_inv r' i c.
Proof.
  intros Hs Hsil. pose proof (moment_step r r') as Hm. pose proof (key_step r r') as Hk.
  destruct c as [now g []|now g key o []]; simpl; naive_solver.
Qed.

Lemma silent_other i j r d calls c :
  i ≠ j → silent i r → silent i (mkGrantRun d calls (run_log r ++ option_list ((j,.) <$> c))).
Proof.
  intros Hne Hs w. simpl. rewrite elem_of_app. intros [Hin|Hin]; [by eapply Hs|].
  destruct c; simpl in Hin; [apply list_elem_of_singleton in Hin; naive_solver|by apply elem_of_nil in Hin].
Qed.

Lemma issue_start_quiescent now g d d' : issue_step now g IssueStart d = (IssueQuiescent, d') → quiescent g d.
Proof.
  simpl. destruct (existsb _ (graph_states g d)) eqn:Ex; [done|].
  destruct (graph_states g d) as [|s0 states] eqn:Es; [done|]. intros _. split.
  - assert (s0 ∈ graph_states g d) as (n & row & Hrow & _)%graph_states_elem by (rewrite Es; left). eauto.
  - intros n row Hrow. rewrite existsb_false in Ex. specialize (Ex (nd_state row)).
    rewrite <-Es in Ex. rewrite graph_states_elem in Ex.
    apply negb_false_iff, bool_decide_eq_true_1 in Ex; [done|eauto].
Qed.

Lemma call_inv_next i c d calls log :
  rtc grant_step r0 (mkGrantRun d calls log) → calls !! i = Some c → call_inv (mkGrantRun d calls log) i c →
  call_inv (mkGrantRun (call_step c d).2 (<[i := (call_step c d).1]> calls)
              (log ++ option_list ((i,.) <$> call_write c d))) i (call_step c d).1.
Proof.
  set (r := mkGrantRun d calls log). set (r' := mkGrantRun (call_step c d).2 _ _). intros Hr Hc Hinv.
  assert (grant_step r r') as Hs by by apply step_call.
  assert (∀ P : GraphDb → Prop, P d → moment r' P) as Hnow.
  { intros P HP. exists r. split_and!; [done|by apply rtc_once|done]. }
  assert (call_write c d = None → silent i r → silent i r') as Hsil.
  { intros Hw Hq w. unfold r'. rewrite Hw. simpl. rewrite app_nil_r. apply Hq. }
  clearbody r'. destruct c as [now g pc|now g key o pc].
  - destruct pc; cbn [call_step].
    + destruct (issue_step now g IssueStart d) as [pc' d'] eqn:E. pose proof (issue_start_quiescent now g d d') as Hq.
      rewrite E in Hq. simpl in E. repeat case_match; simplify_eq/=; try done. by apply Hnow, Hq.
    + destruct Hinv as (r1 & H0 & H1 & Hq). exists r1, r. split_and!; [done..|by apply rtc_once|done|done].
    + simpl in *. repeat case_match; simplify_eq/=; try (intros _); by eapply key_step.
    + simpl in *. intros _. by eapply key_step.
    + simpl in *. intros Hg. by eapply key_step, Hinv.
  - destruct pc; cbn [call_step].
    + destruct (report_step now g key o ReportStart d) as [pc' d'] eqn:E. simpl in E, Hinv, Hsil.
      repeat case_match; simplify_eq/=.
      * left. split_and!; [done|by apply Hsil|]. apply Hnow. intros m Hm. bool_hyps. congruence.
      * right; left. split_and!; [done..|by apply Hsil|]. apply Hnow. eexists. split_and!; [done|by bool_hyps|by eexists].
      * split; [by apply Hsil|]. apply Hnow. eexists. split_and!; [done|by bool_hyps|done].
      * left. split_and!; [done|by apply Hsil|]. apply Hnow. intros m Hm. congruence.
    + destruct Hinv as [_ Hm]. right; right. split_and!; [done..|]. by eapply moment_step.
    + eapply call_inv_step; [done| |exact Hinv]. by apply Hsil.
Qed.

(** What holds throughout a run. *)
Record grant_inv (r : grant_run) : Prop := {
  inv_calls : ∀ i c, run_calls r !! i = Some c → call_inv r i c;
  inv_table : ∀ g, db_grants (run_db r) !! g = after_writes g (db_grants (run_db r0) !! g) (run_log r);
  inv_spends : ∀ l1 i g key o now l2, run_log r = l1 ++ (i, WSpent g key o now) :: l2 →
    ∃ m, after_writes g (db_grants (run_db r0) !! g) l1 = Some m ∧ mg_key m = key ∧ mg_consumed_at m = None
}.

Lemma grant_inv_step r r' : rtc grant_step r0 r → grant_step r r' → grant_inv r → grant_inv r'.
Proof.
  intros Hr Hs [HC HT HS]. pose proof Hs as Hs'. destruct Hs as [d d' calls log Hg|i c d calls log Hi].
  - constructor; simpl in *; [|by rewrite Hg|done]. intros i c Hi. eapply call_inv_step; [exact Hs'|by intros ?|by apply HC].
  - constructor; simpl in *.
    + intros j c' Hj. destruct (decide (j = i)) as [->|Hne].
      * rewrite list_lookup_insert_eq in Hj by (by eapply lookup_lt_Some). injection Hj as <-.
        apply call_inv_next; [done..|by apply HC].
      * rewrite list_lookup_insert_ne in Hj by done. eapply call_inv_step; [exact Hs'| |by apply HC].
        by apply (silent_other j i (mkGrantRun d calls log)).
    + intros g. rewrite (call_writes c d g i), HT. unfold after_writes. by rewrite foldl_app.
    + intros l1 j g key o now l2 Hl. destruct (call_write c d) as [w|] eqn:Ew; simpl in Hl; [|rewrite app_nil_r in Hl; by eapply HS].
      destruct l2 as [|z l2 _] using rev_ind.
      * apply app_inj_tail in Hl as [<- [= -> ->]]. apply call_spends in Ew as (m & Hm & Hk & Hu). exists m.
        by rewrite <-HT.
      * rewrite app_comm_cons, app_assoc in Hl. apply app_inj_tail in Hl as [Hl _]. by eapply HS.
Qed.

Lemma grant_inv_run r :
  run_log r0 = [] → Forall call_fresh (run_calls r0) → rtc grant_step r0 r → grant_inv r.
Proof.
  intros Hlog Hfresh. revert r. apply (rtc_ind_r grant_inv r0); [|intros r r' Hr Hs IH; by eapply grant_inv_step].
  constructor; rewrite ?Hlog.
  - intros i c Hc. pose proof (Forall_lookup_1 _ _ _ _ Hfresh Hc) as Hf.
    destruct c as [now g []|now g key o []]; try done. intros w. rewrite Hlog. apply not_elem_of_nil.
  - done.
  - intros [|? ?]; done.
Qed.
End Answers.

(** A spent grant stays spent until another is written. *)
Lemma unspent_was_granted g m m' log :
  is_Some (mg_consumed_at m) → after_writes g (Some m) log = Some m' → mg_consumed_at m' = None →
  ∃ i now, (i, WGranted g (mg_key m') now) ∈ log.
Proof.
  intros Hm. revert m'. induction log as [|[i w] log IH] using rev_ind; intros m' Hl Hu.
  - injection Hl as <-. rewrite Hu in Hm. by destruct Hm.
  - unfold after_writes in Hl. rewrite foldl_app in Hl. fold (after_writes g (Some m) log) in Hl.
    assert (after_writes g (Some m) log = Some m' → ∃ i' now, (i', WGranted g (mg_key m') now) ∈ log ++ [(i, w)]) as Hold.
    { intros Hl'. destruct (IH m' Hl' Hu) as (j & now & Hin). exists j, now. apply elem_of_app. by left. }
    cbn [foldl] in Hl. unfold after_write in Hl. simpl in Hl.
    destruct w as [g' key now|g' key o now]; case_bool_decide; subst; try by auto.
    + injection Hl as <-. exists i, now. apply elem_of_app. right. by left.
    + destruct (after_writes g (Some m) log); simpl in Hl; [|done]. by injection Hl as <-.
Qed.

(** C19: the merge barrier, with the statements of the calls interleaved with each other and
    with any transactions on the other tables.  A call is answered with a grant only when
    the graph was seen with all its nodes final, under the key its succeeded nodes and their
    outputs had at a later moment of the call.  The grants are those the calls wrote, and a
    grant is spent once: after an outcome is recorded, another one is recorded for the graph
    only when a grant was written in between.  A report of a key that is not the key of the
    grant it finds is refused and writes nothing, one that finds the grant spent is a replay
    and writes nothing, and one that is told it was accepted as the first found it unspent. *)
Theorem merge_grant_single_use r0 r :
  run_log r0 = [] → Forall call_fresh (run_calls r0) → rtc grant_step r0 r →
  (∀ i now g dec, run_calls r !! i = Some (CallIssue now g (Issued dec)) → granted dec = true →
     key_after_quiescence r0 r g (merge_idempotency_key dec)) ∧
  (∀ g, db_grants (run_db r) !! g = after_writes g (db_grants (run_db r0) !! g) (run_log r)) ∧
  (∀ g l1 l2 l3 i key o now j key' o' now',
     run_log r = l1 ++ (i, WSpent g key o now) :: l2 ++ (j, WSpent g key' o' now') :: l3 →
     ∃ k now'', (k, WGranted g key' now'') ∈ l2) ∧
  (∀ i now g key o dec, run_calls r !! i = Some (CallReport now g key o (Reported dec)) →
     (report_accepted dec = false ∧ silent i r ∧ moment r0 r (no_grant_under g key)) ∨
     (report_accepted dec = true ∧ report_replay dec = true ∧ silent i r ∧ moment r0 r (spent_under g key)) ∨
     (report_accepted dec = true ∧ report_replay dec = false ∧ moment r0 r (unspent_under g key))).
Proof.
  intros Hlog Hfresh Hr. destruct (grant_inv_run r0 r Hlog Hfresh Hr) as [HC HT HS]. split_and!; [| done| |].
  - intros i now g dec Hi. exact (HC _ _ Hi).
  - intros g l1 l2 l3 i key o now j key' o' now' Hl.
    destruct (HS l1 i g key o now (l2 ++ (j, WSpent g key' o' now') :: l3) Hl) as (m & Hm & _).
    destruct (HS (l1 ++ (i, WSpent g key o now) :: l2) j g key' o' now' l3) as (m' & Hm' & <- & Hu).
    { by rewrite Hl, <-app_assoc. }
    unfold after_writes in Hm'. rewrite foldl_app in Hm'. fold (after_writes g (db_grants (run_db r0) !! g) l1) in Hm'.
    rewrite Hm in Hm'. cbn [foldl] in Hm'. unfold after_write at 2 in Hm'. simpl in Hm'.
    rewrite bool_decide_true in Hm' by done. by eapply (unspent_was_granted g _ m' l2); [|exact Hm'|].
  - intros i now g key o dec Hi. exact (HC _ _ Hi).
Qed.
End Grants.

(** A schedule of calls, by their positions. *)
Definition grant_turn `{Sha256} (r : grant_run) (i : nat) : grant_run :=
  match run_calls r !! i with
  | Some c => mkGrantRun (call_step c (run_db r)).2 (<[i := (call_step c (run_db r)).1]> (run_calls r))
                (run_log r ++ option_list ((i,.) <$> call_write c (run_db r)))
  | None => r
  end.

Lemma grant_turns `{Sha256} turns r : rtc grant_step r (foldl grant_turn r turns).
Proof.
  revert r. induction turns as [|i turns IH]; intros r; [done|]. simpl. etrans; [|apply IH]. unfold grant_turn.
  destruct r as [d calls log]. simpl. destruct (calls !! i) as [c|] eqn:E; [|done]. by apply rtc_once, step_call.
Qed.

Notation demo_outcome := (mkOutcome "merged" [] [] "pushed").
Notation demo_key := (current_key "t" demo_done).

Lemma merge_grant_single_use_witness :
  let r0 := mkGrantRun demo_done [CallIssue 1 "t" IssueStart; CallReport 2 "t" demo_key demo_outcome ReportStart] [] in
  let r := foldl grant_turn r0 [0; 0; 0; 0; 1; 1]%nat in
  run_calls r = [CallIssue 1 "t" (Issued (mkGrantDecision true demo_key false ""));
                 CallReport 2 "t" demo_key demo_outcome (Reported (mkReportDecision true false))] ∧
  key_after_quiescence r0 r "t" demo_key ∧ moment r0 r (unspent_under "t" demo_key).
Proof.
  intros r0 r.
  assert (run_calls r = [CallIssue 1 "t" (Issued (mkGrantDecision true demo_key false ""));
            CallReport 2 "t" demo_key demo_outcome (Reported (mkReportDecision true false))]) as Hc by (vm_compute; reflexivity).
  destruct (merge_grant_single_use r0 r) as (Hi & _ & _ & Hrep); [reflexivity|by repeat constructor|apply grant_turns|].
  split; [exact Hc|]. split.
  - apply (Hi 0%nat 1 "t"%string (mkGrantDecision true demo_key false "")); [by rewrite Hc|reflexivity].
  - destruct (Hrep 1%nat 2 "t"%string demo_key demo_outcome (mkReportDecision true false)) as [(? & _)|[(_ & ? & _)|(_ & _ & Hm)]];
      [by rewrite Hc|discriminate|discriminate|exact Hm].
Defined.

(** Two issuers that both find no grant both write one: the second write makes the grant that
    was spent in between unspent again, and the same key is merged twice, both reports told
    they were the first. *)
Theorem concurrent_issue_respends :
  let issue := CallIssue 1 "t" IssueStart in
  let report := CallReport 2 "t" demo_key demo_outcome ReportStart in
  let r := foldl grant_turn (mkGrantRun demo_done [issue; issue; report; report] []) [0; 0; 0; 1; 1; 1; 0; 2; 2; 1; 3; 3]%nat in
  run_log r = [(0%nat, WGranted "t" demo_key 1); (2%nat, WSpent "t" demo_key demo_outcome 2);
               (1%nat, WGranted "t" demo_key 1); (3%nat, WSpent "t" demo_key demo_outcome 2)] ∧
  drop 2 (run_calls r) = [CallReport 2 "t" demo_key demo_outcome (Reported (mkReportDecision true false));
                          CallReport 2 "t" demo_key demo_outcome (Reported (mkReportDecision true false))].
Proof. split; vm_compute; reflexivity. Qed.
