(* ===== verification/WorkerRegistry.v ===== *)
(** * Worker registry

    The registry of [uc-grpc/src/worker_service.rs]: registration, heartbeats,
    the dispatch gate with the independence of reviews, the placement target,
    and the scaling helpers.

    - [WorkerRegistry] keeps the map of workers and both refusal counters; an
      operation returns the new registry.
    - The order in which the map yields its workers is the parameter [values],
      of which only [values_ok] is assumed.
    - One clock reading serves one operation. *)

From Stdlib Require Import String Ascii.
From stdpp Require Import gmap strings.
From S2P Require Import Prelude RustStr Task Placement Envelope Graph.

Record RegisteredWorker : Type := mkWorker {
  rw_id : string;
  rw_capabilities : list string;
  rw_max_capacity : Z;
  rw_current_load : Z;
  rw_metadata : string;
  rw_contract_version : string;
  rw_projects : list string;
  rw_recent_files : list string;
  rw_per_worker_topic : bool;
  rw_registered_at : Instant;
  rw_last_heartbeat : Instant
}.

(** [Duration::num_seconds] truncates towards zero. *)
Definition num_seconds (d : Z) : Z := Z.quot d 1000000000.

Definition STALE_TIMEOUT_SECS : Z := 60.

Definition is_fresh (now : Instant) (w : RegisteredWorker) : bool :=
  num_seconds (now - rw_last_heartbeat w) <=? STALE_TIMEOUT_SECS.

Definition is_available (now : Instant) (w : RegisteredWorker) : bool :=
  is_fresh now w && (rw_current_load w <? rw_max_capacity w).

(** The product is a [u32], which wraps in a release build. *)
Definition worker_load_percent (w : RegisteredWorker) : Z :=
  if rw_max_capacity w =? 0 then 100
  else ((rw_current_load w * 100) `mod` 2 ^ 32) `div` rw_max_capacity w.

Definition serves_scope (project_id : string) (w : RegisteredWorker) : bool :=
  match rw_projects w with
  | [] => true
  | projects => existsb (λ p, p ==? project_id) projects
  end.

Record WorkerRegistry : Type := mkRegistry {
  workers : gmap string RegisteredWorker;
  placement_policy : PlacementPolicy;
  no_independent_reviewer : Z;
  producer_identity_unknown : Z
}.

Definition WorkerRegistry_new : WorkerRegistry := mkRegistry ∅ Affinity 0 0.

Definition set_workers (ws : gmap string RegisteredWorker) (r : WorkerRegistry) : WorkerRegistry :=
  mkRegistry ws (placement_policy r) (no_independent_reviewer r) (producer_identity_unknown r).

Definition set_placement_policy (policy : PlacementPolicy) (r : WorkerRegistry) : WorkerRegistry :=
  mkRegistry (workers r) policy (no_independent_reviewer r) (producer_identity_unknown r).

(** [AtomicU64::fetch_add(1)]. *)
Definition u64_succ (n : Z) : Z := (n + 1) `mod` 2 ^ 64.

Definition count_no_reviewer (r : WorkerRegistry) : WorkerRegistry :=
  mkRegistry (workers r) (placement_policy r) (u64_succ (no_independent_reviewer r))
    (producer_identity_unknown r).

Definition count_unknown_producer (r : WorkerRegistry) : WorkerRegistry :=
  mkRegistry (workers r) (placement_policy r) (no_independent_reviewer r)
    (u64_succ (producer_identity_unknown r)).

(** ** Registration *)

Fixpoint projects_loop (raw out : list string) : list string :=
  match raw with
  | [] => out
  | p :: rest =>
      let t := trim p in
      if negb (t ==? "") && negb (existsb (λ e, e ==? t) out)
      then projects_loop rest (out ++ [t]) else projects_loop rest out
  end.

Definition normalize_projects (raw : list string) : list string := projects_loop raw [].

Definition version_mismatch (worker_id contract_version : string) : string :=
  "contract_version mismatch: worker '" +:+ worker_id +:+ "' declares '" +:+ contract_version +:+
  "', gateway speaks '" +:+ CONTRACT_VERSION +:+
  "' — gateway and workers must be upgraded in lockstep".

Definition version_refused (contract_version : string) : bool :=
  negb (contract_version ==? "") && negb (contract_version ==? CONTRACT_VERSION).

Definition register_with_projects (now : Instant) (worker_id : string) (capabilities : list string)
    (max_capacity : Z) (metadata contract_version : string) (projects : list string)
    (r : WorkerRegistry) : result () string * WorkerRegistry :=
  if worker_id ==? "" then (Err "worker_id cannot be empty", r)
  else if version_refused contract_version then (Err (version_mismatch worker_id contract_version), r)
  else
    let worker := mkWorker worker_id capabilities max_capacity 0 metadata contract_version
                    (normalize_projects projects) [] false now now in
    (Ok (), set_workers (<[worker_id := worker]> (workers r)) r).

Definition register (now : Instant) (worker_id : string) (capabilities : list string)
    (max_capacity : Z) (metadata contract_version : string) (r : WorkerRegistry)
    : result () string * WorkerRegistry :=
  register_with_projects now worker_id capabilities max_capacity metadata contract_version [] r.

Definition beaten (now : Instant) (load : Z) (files : list string) (topic : bool)
    (w : RegisteredWorker) : RegisteredWorker :=
  mkWorker (rw_id w) (rw_capabilities w) (rw_max_capacity w) load (rw_metadata w)
    (rw_contract_version w) (rw_projects w) (normalize_recent_files files) topic
    (rw_registered_at w) now.

Definition heartbeat_with_signals (now : Instant) (worker_id : string) (current_load : Z)
    (recent_files : list string) (per_worker_topic : bool) (r : WorkerRegistry)
    : result () string * WorkerRegistry :=
  match workers r !! worker_id with
  | None => (Err ("Worker '" +:+ worker_id +:+ "' not registered — call RegisterWorker first"), r)
  | Some w =>
      (Ok (), set_workers
        (<[worker_id := beaten now current_load recent_files per_worker_topic w]> (workers r)) r)
  end.

Definition heartbeat (now : Instant) (worker_id : string) (current_load : Z) (r : WorkerRegistry)
    : result () string * WorkerRegistry :=
  heartbeat_with_signals now worker_id current_load [] false r.

Definition deregister (worker_id : string) (r : WorkerRegistry) : result () string * WorkerRegistry :=
  match workers r !! worker_id with
  | Some _ => (Ok (), set_workers (delete worker_id (workers r)) r)
  | None => (Err ("Worker '" +:+ worker_id +:+ "' not found"), r)
  end.

(** ** Review independence *)

Record ReviewIndependence : Type := mkIndependence {
  excluded_producers : gset string;
  unknown_producers : list string
}.

Definition ReviewIndependence_default : ReviewIndependence := mkIndependence ∅ [].

Definition is_unconstrained (i : ReviewIndependence) : bool :=
  bool_decide (excluded_producers i = ∅) && match unknown_producers i with [] => true | _ => false end.

(** Who is recorded as having worked on [dep]. *)
Definition producer_of (task : option Task) (dep : TaskId) : option string :=
  task ← task; st ← find (λ s, subtask_id s ==? dep) (tk_subtasks task); assigned_worker st.

Definition note_producer (task : option Task) (out : ReviewIndependence) (dep : TaskId)
    : ReviewIndependence :=
  match producer_of task dep with
  | Some id => mkIndependence ({[id]} ∪ excluded_producers out) (unknown_producers out)
  | None => mkIndependence (excluded_producers out) (unknown_producers out ++ [dep])
  end.

Definition review_independence (st : Subtask) (task : option Task) : ReviewIndependence :=
  if requires_independence (required_capabilities st)
  then foldl (note_producer task) ReviewIndependence_default (depends_on st)
  else ReviewIndependence_default.

(** ** The gate *)

Inductive WorkerDispatchGate : Type :=
| Dispatch
| NoCapableWorker
| NoScopeMatchedWorker (ids : list string)
| NoVersionMatchedWorker (declared : list (string * string))
| ProducerIdentityUnknown (dependencies : list string)
| NoIndependentReviewer (producers : list string).
#[export] Instance WorkerDispatchGate_eq_dec : EqDecision WorkerDispatchGate.
Proof. solve_decision. Defined.

Definition has_capabilities (required : list string) (w : RegisteredWorker) : bool :=
  forallb (λ c, existsb (λ d, d ==? c) (rw_capabilities w)) required.

Definition speaks_contract (w : RegisteredWorker) : bool := rw_contract_version w ==? CONTRACT_VERSION.

Section Registry.
Context `{MetadataJson}.
(** [HashMap::values]. *)
Context (values : gmap string RegisteredWorker → list RegisteredWorker).

Definition available_workers (now : Instant) (r : WorkerRegistry) : list RegisteredWorker :=
  filterb (is_available now) (values (workers r)).

Definition workers_with_capabilities_excluding (now : Instant) (required : list string)
    (exclude : gset string) (r : WorkerRegistry) : list RegisteredWorker :=
  filterb (has_capabilities required)
    (filterb (λ w, negb (bool_decide (rw_id w ∈ exclude))) (available_workers now r)).

Definition workers_with_capabilities (now : Instant) (required : list string) (r : WorkerRegistry)
    : list RegisteredWorker := workers_with_capabilities_excluding now required ∅ r.

Definition dispatchable_workers_with_capabilities (now : Instant) (required : list string)
    (r : WorkerRegistry) : list RegisteredWorker :=
  filterb speaks_contract (workers_with_capabilities now required r).

(** The part of the gate after the independence checks. *)
Definition gate_candidates (project_id : string) (candidates : list RegisteredWorker)
    : WorkerDispatchGate :=
  match filterb (serves_scope project_id) candidates with
  | [] => NoScopeMatchedWorker (rw_id <$> candidates)
  | scope_matched =>
      if forallb (λ w, negb (speaks_contract w)) scope_matched
      then NoVersionMatchedWorker ((λ w, (rw_id w, rw_contract_version w)) <$> scope_matched)
      else Dispatch
  end.

Definition dispatch_gate (now : Instant) (required : list string) (project_id : string)
    (independence : ReviewIndependence) (r : WorkerRegistry) : WorkerDispatchGate * WorkerRegistry :=
  match workers_with_capabilities now required r with
  | [] => (match required with [] => Dispatch | _ => NoCapableWorker end, r)
  | _ =>
      match unknown_producers independence with
      | _ :: _ =>
          (ProducerIdentityUnknown (unknown_producers independence), count_unknown_producer r)
      | [] =>
          match workers_with_capabilities_excluding now required
                  (excluded_producers independence) r with
          | [] => (NoIndependentReviewer
                     (sort_by String.leb (elements (excluded_producers independence))),
                   count_no_reviewer r)
          | candidates => (gate_candidates project_id candidates, r)
          end
      end
  end.

Definition dispatch_candidates (now : Instant) (required : list string) (project_id : string)
    (exclude : gset string) (r : WorkerRegistry) : list RegisteredWorker :=
  filterb speaks_contract
    (filterb (serves_scope project_id)
       (workers_with_capabilities_excluding now required exclude r)).

Definition worker_host (worker_id : string) (r : WorkerRegistry) : option string :=
  w ← workers r !! worker_id; host_from_metadata (rw_metadata w).

Definition candidate_of (w : RegisteredWorker) : PlacementCandidate :=
  mkCandidate (rw_id w) (rw_metadata w) (rw_recent_files w) (rw_current_load w) (rw_max_capacity w).

Definition placement_target (now : Instant) (required : list string) (project_id : string)
    (file_constraints : list string) (sibling_hosts exclude : gset string) (r : WorkerRegistry)
    : option Placement :=
  place_with_policy
    (candidate_of <$> filterb rw_per_worker_topic (dispatch_candidates now required project_id exclude r))
    file_constraints sibling_hosts (placement_policy r).

Definition stale_worker_ids (now : Instant) (r : WorkerRegistry) : list string :=
  rw_id <$> filterb (λ w, negb (is_available now w)) (values (workers r)).

(** The loop of [capacity_totals]. *)
Definition add_capacity (now : Instant) (totals : Z * Z) (w : RegisteredWorker) : Z * Z :=
  if (trim (rw_contract_version w) ==? "") || negb (is_fresh now w) then totals
  else (u32_saturating_add totals.1 (rw_max_capacity w),
        u32_saturating_add totals.2 (Z.min (rw_current_load w) (rw_max_capacity w))).

Definition capacity_totals (now : Instant) (r : WorkerRegistry) : Z * Z :=
  foldl (add_capacity now) (0, 0) (values (workers r)).
End Registry.

(** ** The service *)

Record RegisterWorkerResponse : Type := mkRegisterResponse {
  register_success : bool;
  register_worker_id : string;
  register_error : option string
}.

Definition register_worker (now : Instant) (worker_id : string) (capabilities : list string)
    (max_capacity : Z) (metadata contract_version : string) (projects : list string)
    (r : WorkerRegistry) : RegisterWorkerResponse * WorkerRegistry :=
  if worker_id ==? "" then (mkRegisterResponse false "" (Some "worker_id cannot be empty"%string), r)
  else
    match register_with_projects now worker_id capabilities max_capacity metadata contract_version
            projects r with
    | (Ok _, r') => (mkRegisterResponse true worker_id None, r')
    | (Err e, r') => (mkRegisterResponse false worker_id (Some e), r')
    end.

Definition worker_heartbeat (now : Instant) (worker_id : string) (current_load : Z)
    (contract_version : string) (recent_files : list string) (per_worker_topic : bool)
    (r : WorkerRegistry) : option string * WorkerRegistry :=
  if version_refused contract_version then (Some (version_mismatch worker_id contract_version), r)
  else
    match heartbeat_with_signals now worker_id current_load recent_files per_worker_topic r with
    | (Ok _, r') => (None, r')
    | (Err e, r') => (Some e, r')
    end.

Definition deregister_worker (worker_id : string) (r : WorkerRegistry)
    : option string * WorkerRegistry :=
  match deregister worker_id r with
  | (Ok _, r') => (None, r')
  | (Err e, r') => (Some e, r')
  end.

(** ** Scaling across hosts *)

(** [split] on either separator. *)
Fixpoint split_any (seps : list ascii) (l : list ascii) : list (list ascii) :=
  match l with
  | [] => [[]]
  | c :: rest =>
      if bool_decide (c ∈ seps) then [] :: split_any seps rest
      else match split_any seps rest with
           | [] => [[c]]
           | word :: words => (c :: word) :: words
           end
  end.

Definition parse_scale_hosts (raw : option string) : list string :=
  match filterb (λ s, negb (s ==? ""))
          ((λ w, trim (of_chars w)) <$> split_any [","%char; ";"%char] (chars (default ""%string raw))) with
  | [] => ["local"%string]
  | hosts => hosts
  end.

Definition split_target_across_hosts (target : Z) (hosts : list string) : list (string * Z) :=
  let n := Z.max (Z.of_nat (length hosts)) 1 in
  let base := target `div` n in
  let rem := target `mod` n in
  imap (λ i h, (h, base + if Z.of_nat i <? rem then 1 else 0)) hosts.

Definition scale_dry_run_enabled (raw : option string) : bool :=
  match to_ascii_lowercase ∘ trim <$> raw with
  | Some v => existsb (λ t, v ==? t) ["1"; "true"; "yes"; "on"]%string
  | None => false
  end.

(** ** Rosters *)

(** The workers a node may be given: fresh and not full, with every capability, not
    excluded, in scope, and speaking the gateway's contract. *)
Definition capable (now : Instant) (required : list string) (exclude : gset string)
    (w : RegisteredWorker) : Prop :=
  is_available now w = true ∧ has_capabilities required w = true ∧ rw_id w ∉ exclude.

Definition eligible (now : Instant) (required : list string) (project_id : string)
    (exclude : gset string) (w : RegisteredWorker) : Prop :=
  capable now required exclude w ∧ serves_scope project_id w = true ∧ speaks_contract w = true.

Lemma has_capabilities_spec required w :
  has_capabilities required w = true ↔ ∀ c, c ∈ required → c ∈ rw_capabilities w.
Proof.
  unfold has_capabilities. rewrite forallb_forall. setoid_rewrite existsb_true.
  setoid_rewrite bool_decide_eq_true. setoid_rewrite <- list_elem_of_In.
  split; [intros H c Hc; by destruct (H c Hc) as (? & ? & ->)|intros H c Hc; eauto].
Qed.

Lemma serves_scope_spec project_id w :
  serves_scope project_id w = true ↔ rw_projects w = [] ∨ project_id ∈ rw_projects w.
Proof.
  unfold serves_scope. destruct (rw_projects w) as [|p ps]; [naive_solver|].
  rewrite existsb_true. setoid_rewrite bool_decide_eq_true. naive_solver.
Qed.

Lemma elem_nil {A} (x : A) : x ∈ [] → False.
Proof. inversion 1. Qed.

Section Rosters.
Context `{MetadataJson} (values : gmap string RegisteredWorker → list RegisteredWorker).
Hypothesis values_ok : ∀ m, values m ≡ₚ (map_to_list m).*2.
Implicit Types (r : WorkerRegistry) (now : Instant) (required : list string).

Lemma elem_of_values m w : w ∈ values m ↔ ∃ id, m !! id = Some w.
Proof.
  rewrite values_ok, list_elem_of_fmap. split.
  - intros ([id w'] & -> & ?%elem_of_map_to_list). eauto.
  - intros (id & ?). exists (id, w). split; [done|]. by apply elem_of_map_to_list.
Qed.

Lemma elem_of_capable now required exclude r w :
  w ∈ workers_with_capabilities_excluding values now required exclude r ↔
  (∃ id, workers r !! id = Some w) ∧ capable now required exclude w.
Proof.
  unfold workers_with_capabilities_excluding, available_workers, capable.
  rewrite !filterb_elem, elem_of_values, negb_true_iff, bool_decide_eq_false. naive_solver.
Qed.

Lemma elem_of_candidates now required project_id exclude r w :
  w ∈ dispatch_candidates values now required project_id exclude r ↔
  (∃ id, workers r !! id = Some w) ∧ eligible now required project_id exclude w.
Proof.
  unfold dispatch_candidates, eligible.
  rewrite !filterb_elem, elem_of_capable. naive_solver.
Qed.

Lemma gate_candidates_dispatch project_id candidates :
  gate_candidates project_id candidates = Dispatch ↔
  ∃ w, w ∈ candidates ∧ serves_scope project_id w = true ∧ speaks_contract w = true.
Proof.
  unfold gate_candidates.
  assert (∀ w, w ∈ filterb (serves_scope project_id) candidates ↔
            w ∈ candidates ∧ serves_scope project_id w = true) as Hel
    by (intros w; rewrite filterb_elem; naive_solver).
  destruct (filterb _ _) as [|x l].
  - split; [done|]. intros (w & Hin & Hs & _). exfalso. by apply (elem_nil w), Hel.
  - destruct (forallb _ _) eqn:E.
    + split; [done|]. intros (w & Hin & Hs & Hc). rewrite forallb_forall in E.
      specialize (E w). rewrite <- list_elem_of_In, Hel, Hc in E. naive_solver.
    + split; [intros _|done]. apply not_true_iff_false in E.
      destruct (existsb speaks_contract (x :: l)) eqn:X.
      * apply existsb_true in X as (w & Hw & ?). apply Hel in Hw. naive_solver.
      * destruct E. apply forallb_forall. intros w Hw%list_elem_of_In.
        by rewrite (proj1 (existsb_false _ _) X w Hw).
Qed.

Lemma roster_nil (l : list RegisteredWorker) (P : RegisteredWorker → Prop) :
  (∀ w, w ∈ l ↔ P w) → l = [] ↔ ∀ w, ¬ P w.
Proof.
  intros Hl. split; [intros ->; intros w ?%Hl; set_solver|].
  destruct l as [|w l]; [done|]. intros Hn. destruct (Hn w). apply Hl. set_solver.
Qed.

Lemma not_nil_ex {A} (l : list A) : l ≠ [] ↔ ∃ x, x ∈ l.
Proof.
  split; [destruct l as [|x l]; [done|]; exists x; set_solver|].
  intros (x & Hx) ->. set_solver.
Qed.

(** The verdict, case by case: the part of the gate that reads the rosters. *)
Lemma dispatch_gate_cases now required project_id ind r :
  let known := λ w, ∃ id, workers r !! id = Some w in
  let '(v, r') := dispatch_gate values now required project_id ind r in
  workers r' = workers r ∧ placement_policy r' = placement_policy r ∧
  match v with
  | Dispatch =>
      r' = r ∧
      (required = [] ∧ (∀ w, known w → ¬ capable now required ∅ w) ∨
       unknown_producers ind = [] ∧
       ∃ w, known w ∧ eligible now required project_id (excluded_producers ind) w)
  | NoCapableWorker => r' = r ∧ required ≠ [] ∧ ∀ w, known w → ¬ capable now required ∅ w
  | ProducerIdentityUnknown deps =>
      r' = count_unknown_producer r ∧ deps = unknown_producers ind ∧ deps ≠ [] ∧
      ∃ w, known w ∧ capable now required ∅ w
  | NoIndependentReviewer producers =>
      r' = count_no_reviewer r ∧ unknown_producers ind = [] ∧
      (∀ p, p ∈ producers ↔ p ∈ excluded_producers ind) ∧
      (∃ w, known w ∧ capable now required ∅ w) ∧
      ∀ w, known w → ¬ capable now required (excluded_producers ind) w
  | NoScopeMatchedWorker ids =>
      r' = r ∧ unknown_producers ind = [] ∧
      (∃ w, known w ∧ capable now required (excluded_producers ind) w ∧ rw_id w ∈ ids) ∧
      ∀ w, known w → capable now required (excluded_producers ind) w →
        serves_scope project_id w = false
  | NoVersionMatchedWorker declared =>
      r' = r ∧ unknown_producers ind = [] ∧
      (∃ w, known w ∧ capable now required (excluded_producers ind) w ∧
         serves_scope project_id w = true ∧ (rw_id w, rw_contract_version w) ∈ declared) ∧
      ∀ w, known w → capable now required (excluded_producers ind) w →
        serves_scope project_id w = true → speaks_contract w = false
  end.
Proof.
  cbv zeta. unfold dispatch_gate, workers_with_capabilities.
  assert (∀ x, _ ↔ _) as H0 by (intros x; apply (elem_of_capable now required ∅ r x)).
  destruct (workers_with_capabilities_excluding values now required ∅ r) as [|w0 l0].
  { assert (∀ w, (∃ id, workers r !! id = Some w) → ¬ capable now required ∅ w) as Hn
      by (intros w Hk Hc; by apply (elem_nil w), H0).
    destruct required; naive_solver. }
  assert (∃ w, (∃ id, workers r !! id = Some w) ∧ capable now required ∅ w) as Hcap
    by (exists w0; apply H0; set_solver).
  destruct (unknown_producers ind) as [|u us] eqn:Eu; [|cbv beta iota; by repeat split].
  assert (∀ x, _ ↔ _) as H1 by (intros x; apply (elem_of_capable now required (excluded_producers ind) r x)).
  destruct (workers_with_capabilities_excluding values now required _ r) as [|w1 l1].
  { cbv beta iota; split_and!; try done.
    - intros p. rewrite sort_by_elem. apply elem_of_elements.
    - intros w Hk Hc. by apply (elem_nil w), H1. }
  pose proof (gate_candidates_dispatch project_id (w1 :: l1)) as Hd.
  unfold gate_candidates in *.
  assert (∀ w, w ∈ filterb (serves_scope project_id) (w1 :: l1) ↔
            (∃ id, workers r !! id = Some w) ∧ capable now required (excluded_producers ind) w ∧
            serves_scope project_id w = true) as Hel
    by (intros w; rewrite filterb_elem, H1; naive_solver).
  destruct (filterb _ _) as [|x l].
  - cbv beta iota; split_and!; try done.
    + exists w1. split_and!; [apply H1; set_solver..|]. simpl. set_solver.
    + intros w Hk Hc. destruct (serves_scope project_id w) eqn:Es; [|done].
      by destruct (elem_nil w); apply Hel.
  - destruct (forallb _ _) eqn:E.
    + rewrite forallb_forall in E. setoid_rewrite <- list_elem_of_In in E. cbv beta iota; split_and!; try done.
      * destruct (proj1 (Hel x)) as (Hk & Hc & Hs); [set_solver|]. exists x. cbv beta iota; split_and!; try done.
        simpl. set_solver.
      * intros w Hk Hc Hs. apply negb_true_iff, E, Hel. done.
    + cbv beta iota; split_and!; try done. right. split; [done|].
      destruct (proj1 Hd eq_refl) as (w & Hw & Hs & Hc). apply H1 in Hw as [Hk Hcw].
      exists w. by split_and!.
Qed.
End Rosters.

(** ** Independence *)

Lemma note_producers_spec task deps out :
  let i := foldl (note_producer task) out deps in
  (∀ p, p ∈ excluded_producers i ↔
     p ∈ excluded_producers out ∨ ∃ d, d ∈ deps ∧ producer_of task d = Some p) ∧
  (∀ d, d ∈ unknown_producers i ↔
     d ∈ unknown_producers out ∨ d ∈ deps ∧ producer_of task d = None).
Proof.
  revert out. induction deps as [|d deps IH]; intros out; simpl; [set_solver|].
  destruct (IH (note_producer task out d)) as [Hx Hu]. split.
  - intros p. rewrite Hx. unfold note_producer. destruct (producer_of task d) eqn:E; set_solver.
  - intros d'. rewrite Hu. unfold note_producer. destruct (producer_of task d) eqn:E; set_solver.
Qed.

(** For a review node: the excluded workers are exactly the producers of its
    dependencies, and the unknown ones are the dependencies without a producer. *)
Lemma review_independence_spec st task :
  requires_independence (required_capabilities st) = true →
  (∀ p, p ∈ excluded_producers (review_independence st task) ↔
     ∃ d, d ∈ depends_on st ∧ producer_of task d = Some p) ∧
  (∀ d, d ∈ unknown_producers (review_independence st task) ↔
     d ∈ depends_on st ∧ producer_of task d = None).
Proof.
  intros Hr. unfold review_independence. rewrite Hr.
  destruct (note_producers_spec task (depends_on st) ReviewIndependence_default) as [Hx Hu].
  split; [intros p; rewrite Hx|intros d; rewrite Hu]; set_solver.
Qed.

Lemma requires_independence_not_nil l : requires_independence l = true → l ≠ [].
Proof. by destruct l. Qed.

(** ** Well-formed registries *)

Definition projects_ok (l : list string) : Prop := NoDup l ∧ Forall (λ p, trim p = p ∧ p ≠ ""%string) l.

Definition worker_ok (id : string) (w : RegisteredWorker) : Prop :=
  rw_id w = id ∧ id ≠ ""%string ∧
  (rw_contract_version w = ""%string ∨ rw_contract_version w = CONTRACT_VERSION) ∧
  projects_ok (rw_projects w) ∧
  (length (rw_recent_files w) <= MAX_RECENT_FILES)%nat.

Definition registry_wf (r : WorkerRegistry) : Prop := map_Forall worker_ok (workers r).

Lemma projects_loop_ok raw out : projects_ok out → projects_ok (projects_loop raw out).
Proof.
  revert out. induction raw as [|p raw IH]; intros out Hout; simpl; [done|].
  destruct (_ && _) eqn:E; [|by apply IH]. bool_hyps.
  apply IH. destruct Hout as [Hnd Hall]. rewrite existsb_false in *. split.
  - apply NoDup_app. split_and!; [done| |apply NoDup_singleton].
    intros x Hx ->%list_elem_of_singleton.
    match goal with H : ∀ y, y ∈ out → _ |- _ => specialize (H _ Hx) end. bool_hyps. done.
  - apply Forall_app. split; [done|]. apply Forall_singleton. split; [apply trim_idem|done].
Qed.

(** A call of the service. *)
Inductive registry_op : Type :=
| OpRegister (now : Instant) (worker_id : string) (capabilities : list string) (max_capacity : Z)
    (metadata contract_version : string) (projects : list string)
| OpHeartbeat (now : Instant) (worker_id : string) (current_load : Z) (contract_version : string)
    (recent_files : list string) (per_worker_topic : bool)
| OpDeregister (worker_id : string)
| OpPolicy (policy : PlacementPolicy).

Definition registry_call (r : WorkerRegistry) (op : registry_op) : WorkerRegistry :=
  match op with
  | OpRegister now id caps cap md v ps => (register_worker now id caps cap md v ps r).2
  | OpHeartbeat now id load v files topic => (worker_heartbeat now id load v files topic r).2
  | OpDeregister id => (deregister_worker id r).2
  | OpPolicy policy => set_placement_policy policy r
  end.

Lemma register_wf now id caps cap md v ps r :
  registry_wf r → registry_wf (register_with_projects now id caps cap md v ps r).2.
Proof.
  intros Hwf. unfold register_with_projects. destruct (id ==? _) eqn:Eid; [done|].
  destruct (version_refused v) eqn:Ev; [done|]. bool_hyps.
  apply map_Forall_insert_2; [|done]. unfold worker_ok. simpl. split_and!; try done.
  - unfold version_refused in Ev. apply andb_false_iff in Ev as [Ev|Ev]; bool_hyps; auto.
  - by apply projects_loop_ok; split; constructor.
  - unfold MAX_RECENT_FILES. lia.
Qed.

Lemma heartbeat_wf now id load files topic r :
  registry_wf r → registry_wf (heartbeat_with_signals now id load files topic r).2.
Proof.
  intros Hwf. unfold heartbeat_with_signals. destruct (workers r !! id) as [w|] eqn:E; [|done].
  apply map_Forall_insert_2; [|done].
  destruct (Hwf id w E) as (? & ? & ? & ? & _). unfold worker_ok. simpl. split_and!; try done.
  by destruct (recent_files_bounded files).
Qed.

Lemma deregister_wf id r : registry_wf r → registry_wf (deregister id r).2.
Proof.
  intros Hwf. unfold deregister. destruct (workers r !! id); [|done]. by apply map_Forall_delete.
Qed.

(** Whatever the workers send, every entry of the registry is under its own non-empty
    id, declares no contract or the gateway's, and carries a trimmed duplicate-free
    scope and a bounded list of files. *)
Theorem registry_well_formed ops : registry_wf (foldl registry_call WorkerRegistry_new ops).
Proof.
  assert (∀ r, registry_wf r → registry_wf (foldl registry_call r ops)) as Hgen;
    [|apply Hgen, map_Forall_empty].
  induction ops as [|op ops IH]; intros r Hr; [done|]. simpl. apply IH.
  destruct op; simpl; unfold register_worker, worker_heartbeat, deregister_worker.
  - destruct (_ ==? _); [done|]. pose proof (register_wf now worker_id capabilities max_capacity
      metadata contract_version projects r Hr). by destruct (register_with_projects _ _ _ _ _ _ _ _) as [[]].
  - destruct (version_refused _); [done|].
    pose proof (heartbeat_wf now worker_id current_load recent_files per_worker_topic r Hr).
    by destruct (heartbeat_with_signals _ _ _ _ _ _) as [[]].
  - pose proof (deregister_wf worker_id r Hr). by destruct (deregister _ _) as [[]].
  - done.
Qed.

(** ** What the gate decides *)

Lemma min_by_elem {A} (cmp : A → A → comparison) l x : min_by cmp l = Some x → x ∈ l.
Proof.
  destruct l as [|y l]; [done|]. simpl. intros [= <-]. revert y.
  induction l as [|z l IH]; intros y; simpl; [left|].
  specialize (IH (match cmp y z with Gt => z | _ => y end)). destruct (cmp y z); set_solver.
Qed.

Lemma place_elem `{MetadataJson} cands fc hosts policy p :
  place_with_policy cands fc hosts policy = Some p →
  ∃ c, c ∈ cands ∧ placement_worker p = worker_id c ∧
    placement_subject p = per_worker_subject (worker_id c).
Proof.
  unfold place_with_policy. rewrite fmap_Some. intros ([c p'] & Hm%min_by_elem & ->).
  apply list_elem_of_omap in Hm as (c' & Hc & Hs). unfold placement_for in Hs.
  destruct (_ || _); [done|]. injection Hs as <- <-. eauto.
Qed.

(** The first half of the verdict, for the proofs below. *)
Lemma gate_dispatch_iff values now required project_id ind r :
  (∀ m, values m ≡ₚ (map_to_list m).*2) →
  let fits := λ w, eligible now required project_id (excluded_producers ind) w in
  (dispatch_gate values now required project_id ind r).1 = Dispatch ↔
    (required = [] ∧ map_Forall (λ _ w, is_available now w = false) (workers r)) ∨
    (unknown_producers ind = [] ∧ ∃ id w, workers r !! id = Some w ∧ fits w).
Proof.
  intros Hv fits.
  pose proof (dispatch_gate_cases values Hv now required project_id ind r) as Hc.
  destruct (dispatch_gate _ _ _ _ _ _) as [v r']. destruct Hc as (_ & _ & Hc). simpl.
  assert (∀ w, required = [] → is_available now w = true → capable now required ∅ w) as Hcap
    by (intros w -> ?; split_and!; [done|done|set_solver]).
  assert (∀ w, fits w → capable now required ∅ w ∧ capable now required (excluded_producers ind) w ∧
            serves_scope project_id w = true ∧ speaks_contract w = true) as Hfit
    by (intros w ((? & ? & ?) & ? & ?); unfold capable; split_and!; try done; set_solver).
  assert (∀ w, map_Forall (λ _ w, is_available now w = false) (workers r) →
            (∃ id, workers r !! id = Some w) → is_available now w = true → False) as Hav
    by (intros w Hf (id & Hw) Ha; specialize (Hf id w Hw); simpl in Hf; congruence).
  split.
  - intros ->. destruct Hc as (_ & [[-> Hn]|[Hu (w & [id Hk] & He)]]).
    + left. split; [done|]. intros id w Hw. destruct (is_available now w) eqn:Ea; [|done].
      destruct (Hn w); eauto.
    + right. eauto.
  - intros [[Hq Hf]|(Hu & id & w & Hk & Hw)].
    + assert (∀ w e, (∃ id, workers r !! id = Some w) → ¬ capable now required e w) as Hn
        by (intros w e Hk (Ha & _); by apply (Hav w)).
      destruct v; [done|by destruct Hc as (_ & ? & _)|..];
        [destruct Hc as (_ & _ & (w & Hk & Hc & _) & _)|destruct Hc as (_ & _ & (w & Hk & Hc & _) & _)
        |destruct Hc as (_ & _ & _ & w & Hk & Hc)|destruct Hc as (_ & _ & _ & (w & Hk & Hc) & _)];
        by destruct (Hn _ _ Hk Hc).
    + destruct (Hfit w Hw) as (Hc0 & Hc1 & Hs & Hv').
      destruct v; [done|destruct Hc as (_ & _ & Hn)|destruct Hc as (_ & _ & _ & Hn)
        |destruct Hc as (_ & _ & _ & Hn)|destruct Hc as (_ & -> & Hn & _)|destruct Hc as (_ & _ & _ & _ & Hn)].
      * by destruct (Hn w); eauto.
      * specialize (Hn w (ex_intro _ id Hk) Hc1). congruence.
      * specialize (Hn w (ex_intro _ id Hk) Hc1 Hs). congruence.
      * done.
      * by destruct (Hn w); eauto.
Qed.

(** The gate lets a node through exactly when some registered worker is fresh and not
    full, has every required capability, did not produce a dependency, serves the
    project and speaks the gateway's contract, and nothing is unknown about the
    producers; or when the node asks for nothing and no worker is available at all,
    the documented best effort.  A placement always targets such a worker, on its own
    subject, and so never contradicts the gate. *)
Theorem dispatch_gate_exact `{MetadataJson} values now required project_id fc hosts ind r :
  (∀ m, values m ≡ₚ (map_to_list m).*2) → registry_wf r →
  let fits := λ w, eligible now required project_id (excluded_producers ind) w in
  ((dispatch_gate values now required project_id ind r).1 = Dispatch ↔
     (required = [] ∧ map_Forall (λ _ w, is_available now w = false) (workers r)) ∨
     (unknown_producers ind = [] ∧ ∃ id w, workers r !! id = Some w ∧ fits w)) ∧
  (∀ p, placement_target values now required project_id fc hosts (excluded_producers ind) r = Some p →
     ∃ w, workers r !! placement_worker p = Some w ∧ fits w ∧ rw_per_worker_topic w = true ∧
       placement_subject p = per_worker_subject (placement_worker p) ∧
       (unknown_producers ind = [] →
        (dispatch_gate values now required project_id ind r).1 = Dispatch)).
Proof.
  intros Hv Hwf fits.
  pose proof (gate_dispatch_iff values now required project_id ind r Hv) as Hgate.
  split; [done|].
  intros p Hp. apply place_elem in Hp as (c & Hc & Hw & Hs).
  apply list_elem_of_fmap in Hc as (w & -> & Hin). apply filterb_elem in Hin as [Hin Ht].
  apply (elem_of_candidates values Hv) in Hin as [(id & Hid) He]. simpl in *.
  destruct (Hwf id w Hid) as (Ei & _). rewrite Hw, Ei. exists w. split_and!; try done.
  - by rewrite Hs, Ei.
  - intros Hu. apply Hgate. right. eauto.
Qed.

(** No self-review.  A review node is let through only when the producer of every
    dependency is known and an eligible worker exists that produced none of them, and
    it is never placed on a producer. *)
Theorem review_is_independent `{MetadataJson} values now project_id fc hosts st task r :
  (∀ m, values m ≡ₚ (map_to_list m).*2) → registry_wf r →
  requires_independence (required_capabilities st) = true →
  let ind := review_independence st task in
  let independent := λ id, ∀ d, d ∈ depends_on st → ∃ p, producer_of task d = Some p ∧ p ≠ id in
  ((dispatch_gate values now (required_capabilities st) project_id ind r).1 = Dispatch →
   ∃ id w, workers r !! id = Some w ∧ independent id ∧
     eligible now (required_capabilities st) project_id ∅ w) ∧
  (∀ p, placement_target values now (required_capabilities st) project_id fc hosts
          (excluded_producers ind) r = Some p →
   ∀ d, d ∈ depends_on st → producer_of task d ≠ Some (placement_worker p)).
Proof.
  intros Hv Hwf Hr ind independent. destruct (review_independence_spec st task Hr) as [Hx Hu].
  split.
  - intros Hg. pose proof (dispatch_gate_cases values Hv now (required_capabilities st) project_id ind r) as Hc.
    destruct (dispatch_gate _ _ _ _ _ _) as [v r']. simpl in Hg. subst v.
    destruct Hc as (_ & _ & _ & [[Hn _]|[Hun (w & [id Hk] & (Ha & Hcap & Hne) & Hs & Hcv)]]).
    { by apply requires_independence_not_nil in Hr. }
    destruct (Hwf id w Hk) as (Ei & _). rewrite Ei in Hne. exists id, w. split; [done|]. split.
    + intros d Hd. destruct (producer_of task d) as [p|] eqn:Ep.
      * exists p. split; [done|]. intros ->. apply Hne, Hx. eauto.
      * exfalso. apply (elem_nil d). rewrite <- Hun. apply Hu. auto.
    + split; [|done]. split_and!; [done|done|set_solver].
  - intros p (c & Hc & Hw & _)%place_elem d Hd Hp.
    apply list_elem_of_fmap in Hc as (w & -> & Hin). apply filterb_elem in Hin as [Hin _].
    apply (elem_of_candidates values Hv) in Hin as (_ & (_ & _ & Hne) & _). simpl in Hw.
    rewrite Hw in Hp. apply Hne, Hx. eauto.
Qed.

(** ** Shares *)

Definition total_share (l : list (string * Z)) : Z := foldr (λ x acc, x.2 + acc) 0 l.

Lemma sum_shares base rem hosts k :
  total_share (imap (λ i h, (h, base + if Z.of_nat (k + i) <? rem then 1 else 0)) hosts)
  = base * Z.of_nat (length hosts) + Z.max 0 (Z.min (Z.of_nat (length hosts)) (rem - Z.of_nat k)).
Proof.
  revert k. induction hosts as [|h hosts IH]; intros k; [simpl; lia|].
  rewrite imap_cons. simpl length. cbn [total_share foldr]. fold total_share.
  rewrite (imap_ext _ (λ i h0, (h0, base + (if Z.of_nat (S k + i) <? rem then 1 else 0)))).
  - change (foldr _ 0 ?l) with (total_share l). rewrite IH. simpl snd.
    destruct (Z.ltb_spec (Z.of_nat (k + 0)) rem); lia.
  - intros i x _. simpl. by replace (k + S i)%nat with (S (k + i)) by lia.
Qed.

(** The shares name the hosts in order, add up to the target and differ by at most
    one; and there is always a host to scale on. *)
Theorem scale_shares_exact target raw :
  0 <= target →
  let hosts := parse_scale_hosts raw in
  let shares := split_target_across_hosts target hosts in
  hosts ≠ [] ∧ shares.*1 = hosts ∧ total_share shares = target ∧
  ∀ x, x ∈ shares → target `div` Z.of_nat (length hosts) <= x.2 <= target `div` Z.of_nat (length hosts) + 1.
Proof.
  intros Ht hosts shares.
  assert (hosts ≠ []) as Hne by (unfold hosts, parse_scale_hosts; by destruct (filterb _ _)).
  assert (0 < Z.of_nat (length hosts)) as Hl by (destruct hosts; simpl in *; [done|lia]).
  unfold shares, split_target_across_hosts. rewrite Z.max_l by lia. split_and!; [done| | |].
  - rewrite fmap_imap. apply (list_eq_same_length _ _ (length hosts)); [done|by rewrite length_imap|].
    intros i x y _ Hx Hy. rewrite list_lookup_imap in Hx. rewrite Hy in Hx. by injection Hx.
  - rewrite (sum_shares _ _ hosts 0).
    pose proof (Z.div_mod target (Z.of_nat (length hosts)) ltac:(lia)).
    pose proof (Z.mod_pos_bound target (Z.of_nat (length hosts)) Hl). lia.
  - intros x (i & y & -> & _)%elem_of_lookup_imap. simpl. destruct (_ <? _); lia.
Qed.

(** ** A pool of two workers *)

Definition map_values (m : gmap string RegisteredWorker) : list RegisteredWorker := (map_to_list m).*2.

Definition worker_pool_ops : list registry_op :=
  [OpRegister 0 "w1" ["rust"; "review"]%string 4 "host-a" "v1" [];
   OpRegister 0 "w2" ["rust"; "review"]%string 4 "host-b" "v1" ["alpha"]%string;
   OpHeartbeat 5 "w2" 1 "v1" ["src/auth.rs"]%string true].

Definition worker_pool : WorkerRegistry := foldl registry_call WorkerRegistry_new worker_pool_ops.

Definition review_subtask : Subtask :=
  mkSubtask "b" "t" "review it" SubtaskPending None ["a"]%string [] "" None Remote RequiresWorker 0
    ["review"]%string None [] 0.
Definition produced_subtask : Subtask :=
  mkSubtask "a" "t" "write it" SubtaskCompleted (Some "w1"%string) [] [] "" None Remote RequiresWorker 0
    [] None [] 0.
Definition review_task : Task :=
  mkTask "t" "work" "alpha" TaskInProgress [produced_subtask; review_subtask] 0 0.

Lemma map_values_ok m : map_values m ≡ₚ (map_to_list m).*2.
Proof. done. Qed.

Lemma worker_pool_wf : registry_wf worker_pool.
Proof. apply (bool_decide_unpack _). by vm_compute. Qed.

Lemma dispatch_gate_exact_witness :
  registry_wf worker_pool ∧
  ((dispatch_gate map_values 10 ["review"]%string "alpha"
      (review_independence review_subtask (Some review_task)) worker_pool).1 = Dispatch).
Proof.
  split; [apply worker_pool_wf|].
  apply (dispatch_gate_exact (H := plain_metadata) map_values 10 ["review"]%string "alpha" [] ∅ _ worker_pool
           map_values_ok worker_pool_wf).
  right. split; [by vm_compute|].
  exists "w2"%string, (mkWorker "w2" ["rust"; "review"] 4 1 "host-b" "v1" ["alpha"] ["src/auth.rs"] true 0 5).
  split; [by vm_compute|]. by apply (bool_decide_unpack _); vm_compute.
Defined.

Lemma review_is_independent_witness :
  requires_independence (required_capabilities review_subtask) = true ∧
  ∃ id w, workers worker_pool !! id = Some w ∧
    eligible 10 (required_capabilities review_subtask) "alpha" ∅ w.
Proof.
  split; [done|].
  destruct (proj1 (review_is_independent (H := plain_metadata) map_values 10 "alpha" [] ∅ review_subtask
              (Some review_task) worker_pool map_values_ok worker_pool_wf eq_refl)) as (id & w & Hw & _ & He).
  - by vm_compute.
  - by exists id, w.
Defined.
