(* ===== verification/TaskBackend.v ===== *)
(** * Persistent tasks

    [uc-engine/src/task_store.rs]: the [TaskStoreBackend] trait, its in-memory and
    PostgreSQL implementations and the synchronous store of the local engine.

    - [TaskStoreBackend] is the trait as a class over the type of a backend; clock
      readings are arguments, and a panic of [unwrap] is [None].
    - The table [tasks] is a map of rows that answers or does not; the JSON of its
      [subtasks] column is a parameter, the text of a driver error another.
    - [TaskBackendOk] is what the gateway relies on: an accepted update is what a
      reload gives, a refused one changes nothing. *)

From Stdlib Require Import String SpecFloat.
From stdpp Require Import gmap strings.
From S2P Require Import Prelude RustStr Task ScheduleStore.

Definition set_task_state (status : TaskStatus) (now : Instant) (t : Task) : Task :=
  mkTask (tk_id t) (tk_description t) (tk_project_id t) status (tk_subtasks t) (tk_created_at t) now.

(** The trait. *)
Class TaskStoreBackend (B : Type) : Type := {
  is_durable : B → bool;
  backend_submit : B → Task → result Task EngineError * B;
  backend_get : B → string → result (option Task) EngineError;
  backend_list : B → result (list Task) EngineError;
  backend_update : B → Task → result Task EngineError * B;
  backend_pause : Instant → B → string → option (result Task EngineError) * B;
  backend_resume : Instant → B → string → option (result Task EngineError) * B;
  backend_delete : B → string → result unit EngineError * B
}.

(** What a backend keeps of a task: everything but the precision of its instants. *)
Definition same_record (a b : Task) : Prop :=
  tk_id a = tk_id b ∧ tk_description a = tk_description b ∧ tk_project_id a = tk_project_id b ∧
  tk_status a = tk_status b ∧ tk_subtasks a = tk_subtasks b.

Class TaskBackendOk (B : Type) `{TaskStoreBackend B} : Type := {
  backend_wf : B → Prop;
  stored : B → gmap string Task;
  storable_task : Task → Prop;
  update_accepted : ∀ b t r b', backend_wf b → storable_task t → backend_update b t = (Ok r, b') →
    backend_wf b' ∧ ∃ t', stored b' = <[tk_id t := t']> (stored b) ∧ same_record t' t;
  update_refused : ∀ b t e b', backend_update b t = (Err e, b') → b' = b;
  list_answers : ∀ b l, backend_wf b → backend_list b = Ok l → l ≡ₚ (map_to_list (stored b)).*2
}.

(** ** In memory *)

Record InMemoryTaskBackend : Type := mkMemTasks { mem_tasks : gmap string Task }.

Definition InMemoryTaskBackend_new : InMemoryTaskBackend := mkMemTasks ∅.

Definition mem_submit (b : InMemoryTaskBackend) (t : Task)
    : result Task EngineError * InMemoryTaskBackend :=
  (Ok t, mkMemTasks (<[tk_id t := t]> (mem_tasks b))).

Definition mem_get (b : InMemoryTaskBackend) (id : string) : result (option Task) EngineError :=
  Ok (mem_tasks b !! id).

Definition mem_list (b : InMemoryTaskBackend) : result (list Task) EngineError :=
  Ok (map_to_list (mem_tasks b)).*2.

Definition mem_update (b : InMemoryTaskBackend) (t : Task)
    : result Task EngineError * InMemoryTaskBackend :=
  (Ok t, mkMemTasks (<[tk_id t := t]> (mem_tasks b))).

Definition task_not_found (id : string) : EngineError := NotFound ("Task not found: " +:+ id).

(** [pause_task] and [resume_task], which differ in the states they accept. *)
Definition mem_move (allowed : TaskStatus → bool) (verb : string) (target : TaskStatus)
    (now : Instant) (b : InMemoryTaskBackend) (id : string)
    : result Task EngineError * InMemoryTaskBackend :=
  match mem_tasks b !! id with
  | None => (Err (task_not_found id), b)
  | Some t =>
      if allowed (tk_status t)
      then let t' := set_task_state target now t in (Ok t', mkMemTasks (<[id := t']> (mem_tasks b)))
      else (Err (InvalidOperation ("Cannot " +:+ verb +:+ " task in "
                  +:+ TaskStatus_debug (tk_status t) +:+ " status")), b)
  end.

Definition can_pause (s : TaskStatus) : bool :=
  match s with TaskInProgress | TaskPlanning => true | _ => false end.
Definition can_resume (s : TaskStatus) : bool := match s with TaskPaused => true | _ => false end.

Definition mem_pause (now : Instant) (b : InMemoryTaskBackend) (id : string)
    : option (result Task EngineError) * InMemoryTaskBackend :=
  let '(r, b') := mem_move can_pause "pause" TaskPaused now b id in (Some r, b').

Definition mem_resume (now : Instant) (b : InMemoryTaskBackend) (id : string)
    : option (result Task EngineError) * InMemoryTaskBackend :=
  let '(r, b') := mem_move can_resume "resume" TaskInProgress now b id in (Some r, b').

Definition mem_delete (b : InMemoryTaskBackend) (id : string)
    : result unit EngineError * InMemoryTaskBackend :=
  match mem_tasks b !! id with
  | Some _ => (Ok tt, mkMemTasks (delete id (mem_tasks b)))
  | None => (Err (task_not_found id), b)
  end.

#[export] Instance InMemory_TaskStoreBackend : TaskStoreBackend InMemoryTaskBackend := {|
  is_durable := λ _, false;
  backend_submit := mem_submit;
  backend_get := mem_get;
  backend_list := mem_list;
  backend_update := mem_update;
  backend_pause := mem_pause;
  backend_resume := mem_resume;
  backend_delete := mem_delete
|}.

(** ** PostgreSQL *)

(** [serde_json::to_value] and [from_value] of a list of subtasks; an error is its
    text. *)
Class SubtasksJson : Type := {
  json_column : Type;
  encode_subtasks : list Subtask → result json_column string;
  decode_subtasks : json_column → result (list Subtask) string
}.

Definition f64_is_finite (x : f64) : bool :=
  match x with S754_zero _ | S754_finite _ _ _ => true | _ => false end.

(** A cost that is not finite becomes [null]; every other value is read back. *)
Definition finite_cost (st : Subtask) : bool :=
  match r ← subtask_result st; u ← result_usage r; total_cost_usd u with
  | Some cost => f64_is_finite cost
  | None => true
  end.

Class SubtasksJsonOk `{SubtasksJson} : Prop := {
  decode_encode : ∀ l j, forallb finite_cost l = true → encode_subtasks l = Ok j →
    decode_subtasks j = Ok l
}.

Section Postgres.
Context `{PgDriver, SubtasksJson}.

Record TaskRow : Type := mkTaskRow {
  tr_id : string;
  tr_description : string;
  tr_project_id : string;
  tr_status : string;
  tr_subtasks : json_column;
  tr_created_at : Instant;
  tr_updated_at : Instant
}.

Record PgTasks : Type := mkPgTasks { task_rows : gmap string TaskRow; task_db_up : bool }.

Record PostgresTaskBackend : Type := mkPgBackend {
  task_pool : option PgTasks;
  task_fallback : InMemoryTaskBackend
}.

Definition new_fallback : PostgresTaskBackend := mkPgBackend None InMemoryTaskBackend_new.
Definition with_pool (db : PgTasks) : PostgresTaskBackend := mkPgBackend (Some db) InMemoryTaskBackend_new.

Definition task_status_str (s : TaskStatus) : string :=
  match s with
  | TaskCreated => "Created"
  | TaskPlanning => "Planning"
  | TaskInProgress => "InProgress"
  | TaskPaused => "Paused"
  | TaskCompleted => "Completed"
  | TaskFailed => "Failed"
  end.

Definition row_status_of (s : string) : result TaskStatus EngineError :=
  if s ==? "Created" then Ok TaskCreated
  else if s ==? "Planning" then Ok TaskPlanning
  else if s ==? "InProgress" then Ok TaskInProgress
  else if s ==? "Paused" then Ok TaskPaused
  else if s ==? "Completed" then Ok TaskCompleted
  else if s ==? "Failed" then Ok TaskFailed
  else Err (StorageError ("Unknown task status: " +:+ s)).

Definition row_to_task (r : TaskRow) : result Task EngineError :=
  let? status := row_status_of (tr_status r) in
  let? subtasks := map_err (λ e, StorageError ("Subtask deserialization: " +:+ e))
                     (decode_subtasks (tr_subtasks r)) in
  Ok (mkTask (tr_id r) (tr_description r) (tr_project_id r) status subtasks (tr_created_at r)
        (tr_updated_at r)).

Definition task_row (t : Task) (j : json_column) : TaskRow :=
  mkTaskRow (tk_id t) (tk_description t) (tk_project_id t) (task_status_str (tk_status t)) j
    (pg_time (tk_created_at t)) (pg_time (tk_updated_at t)).

Definition task_statement_failed (what : string) : EngineError :=
  StorageError ("Task " +:+ what +:+ " failed: " +:+ pg_error).

Definition set_rows (b : PostgresTaskBackend) (db : PgTasks) (rows : gmap string TaskRow)
    : PostgresTaskBackend := mkPgBackend (Some (mkPgTasks rows (task_db_up db))) (task_fallback b).

Definition to_fallback {A} (b : PostgresTaskBackend) (r : A * InMemoryTaskBackend)
    : A * PostgresTaskBackend := (r.1, mkPgBackend (task_pool b) r.2).

(** [INSERT]: refused when the primary key exists. *)
Definition pgt_submit (b : PostgresTaskBackend) (t : Task)
    : result Task EngineError * PostgresTaskBackend :=
  match task_pool b with
  | None => to_fallback b (mem_submit (task_fallback b) t)
  | Some db =>
      match encode_subtasks (tk_subtasks t) with
      | Err e => (Err (StorageError ("Subtask serialization: " +:+ e)), b)
      | Ok j =>
          if negb (task_db_up db) || bool_decide (is_Some (task_rows db !! tk_id t))
          then (Err (task_statement_failed "insert"), b)
          else (Ok t, set_rows b db (<[tk_id t := task_row t j]> (task_rows db)))
      end
  end.

Definition pgt_get (b : PostgresTaskBackend) (id : string) : result (option Task) EngineError :=
  match task_pool b with
  | None => mem_get (task_fallback b) id
  | Some db =>
      if negb (task_db_up db) then Err (task_statement_failed "select")
      else match task_rows db !! id with
           | Some row => map_ok Some (row_to_task row)
           | None => Ok None
           end
  end.

(** [ORDER BY created_at DESC]; rows of one instant are in the order of their ids. *)
Definition by_created_desc (a b : TaskRow) : bool := tr_created_at b <=? tr_created_at a.

(** [collect] of results: the first error wins. *)
Fixpoint collect_results {A E} (l : list (result A E)) : result (list A) E :=
  match l with
  | [] => Ok []
  | r :: rest => let? x := r in let? xs := collect_results rest in Ok (x :: xs)
  end.

Definition pgt_list (b : PostgresTaskBackend) : result (list Task) EngineError :=
  match task_pool b with
  | None => mem_list (task_fallback b)
  | Some db =>
      if negb (task_db_up db) then Err (task_statement_failed "list")
      else collect_results (row_to_task <$> sort_by by_created_desc (map_to_list (task_rows db)).*2)
  end.

(** [ON CONFLICT (id) DO UPDATE]: [created_at] is not among the columns it sets. *)
Definition upserted_row (old : option TaskRow) (row : TaskRow) : TaskRow :=
  match old with
  | None => row
  | Some o => mkTaskRow (tr_id row) (tr_description row) (tr_project_id row) (tr_status row)
                (tr_subtasks row) (tr_created_at o) (tr_updated_at row)
  end.

Definition pgt_update (b : PostgresTaskBackend) (t : Task)
    : result Task EngineError * PostgresTaskBackend :=
  match task_pool b with
  | None => to_fallback b (mem_update (task_fallback b) t)
  | Some db =>
      match encode_subtasks (tk_subtasks t) with
      | Err e => (Err (StorageError ("Subtask serialization: " +:+ e)), b)
      | Ok j =>
          if negb (task_db_up db) then (Err (task_statement_failed "upsert"), b)
          else (Ok t, set_rows b db
                        (<[tk_id t := upserted_row (task_rows db !! tk_id t) (task_row t j)]>
                           (task_rows db)))
      end
  end.

(** The conditional [UPDATE] of [pause_task] and [resume_task]; the row is read back
    with [get_task] and unwrapped. *)
Definition pgt_move (from : list string) (target verb refusal : string) (now : Instant)
    (b : PostgresTaskBackend) (db : PgTasks) (id : string)
    : option (result Task EngineError) * PostgresTaskBackend :=
  if negb (task_db_up db) then (Some (Err (task_statement_failed verb)), b)
  else
    match task_rows db !! id with
    | Some row =>
        if existsb (λ s, s ==? tr_status row) from
        then
          let row' := mkTaskRow (tr_id row) (tr_description row) (tr_project_id row) target
                        (tr_subtasks row) (tr_created_at row) now in
          let b' := set_rows b db (<[id := row']> (task_rows db)) in
          match pgt_get b' id with
          | Ok (Some t) => (Some (Ok t), b')
          | Ok None => (None, b')
          | Err e => (Some (Err e), b')
          end
        else (Some (Err (InvalidOperation ("Cannot " +:+ verb +:+ " task " +:+ id +:+ refusal))), b)
    | None => (Some (Err (InvalidOperation ("Cannot " +:+ verb +:+ " task " +:+ id +:+ refusal))), b)
    end.

Definition pgt_pause (now : Instant) (b : PostgresTaskBackend) (id : string)
    : option (result Task EngineError) * PostgresTaskBackend :=
  match task_pool b with
  | None => to_fallback b (mem_pause now (task_fallback b) id)
  | Some db => pgt_move ["InProgress"; "Planning"]%string "Paused" "pause"
                 " (not found or wrong status)" now b db id
  end.

Definition pgt_resume (now : Instant) (b : PostgresTaskBackend) (id : string)
    : option (result Task EngineError) * PostgresTaskBackend :=
  match task_pool b with
  | None => to_fallback b (mem_resume now (task_fallback b) id)
  | Some db => pgt_move ["Paused"]%string "InProgress" "resume" " (not found or not paused)" now b db id
  end.

Definition pgt_delete (b : PostgresTaskBackend) (id : string)
    : result unit EngineError * PostgresTaskBackend :=
  match task_pool b with
  | None => to_fallback b (mem_delete (task_fallback b) id)
  | Some db =>
      if negb (task_db_up db) then (Err (task_statement_failed "delete"), b)
      else (Ok tt, set_rows b db (delete id (task_rows db)))
  end.

#[export] Instance Postgres_TaskStoreBackend : TaskStoreBackend PostgresTaskBackend := {|
  is_durable := λ b, bool_decide (is_Some (task_pool b));
  backend_submit := pgt_submit;
  backend_get := pgt_get;
  backend_list := pgt_list;
  backend_update := pgt_update;
  backend_pause := pgt_pause;
  backend_resume := pgt_resume;
  backend_delete := pgt_delete
|}.
End Postgres.

(** ** The local engine's store *)

Record LocalTaskStore : Type := mkLocalTasks { local_tasks : gmap string Task }.

Definition local_submit_task (id : string) (now : Instant) (description project_id : string)
    (s : LocalTaskStore) : Task * LocalTaskStore :=
  let t := mkTask id description project_id TaskInProgress [] now now in
  (t, mkLocalTasks (<[id := t]> (local_tasks s))).

Definition local_move (allowed : TaskStatus → bool) (verb expected : string) (target : TaskStatus)
    (now : Instant) (id : string) (s : LocalTaskStore) : result Task string * LocalTaskStore :=
  match local_tasks s !! id with
  | None => (Err ("Task not found: " +:+ id), s)
  | Some t =>
      if allowed (tk_status t)
      then let t' := set_task_state target now t in (Ok t', mkLocalTasks (<[id := t']> (local_tasks s)))
      else (Err ("Cannot " +:+ verb +:+ " task in " +:+ TaskStatus_debug (tk_status t)
                 +:+ " status (expected " +:+ expected +:+ ")"), s)
  end%string.

Definition local_pause_task := local_move can_pause "pause" "InProgress or Planning" TaskPaused.
Definition local_resume_task := local_move can_resume "resume" "Paused" TaskInProgress.

(** Every task is submitted to a new backend. *)
Definition into_backend (s : LocalTaskStore) : InMemoryTaskBackend :=
  foldl (λ b t, (mem_submit b t).2) InMemoryTaskBackend_new (map_to_list (local_tasks s)).*2.

(** ** The laws *)

#[export] Instance InMemory_TaskBackendOk : TaskBackendOk InMemoryTaskBackend.
Proof.
  refine {| backend_wf := λ b, True; stored := mem_tasks; storable_task := λ t, True |}.
  - intros b t r b' _ _ [= <- <-]. split; [done|]. by exists t.
  - by intros b t e b' [=].
  - by intros b l _ [= <-].
Defined.

Lemma row_status_of_str s : row_status_of (task_status_str s) = Ok s.
Proof. by destruct s. Qed.

Lemma collect_results_Ok {A X} (l : list (result A X)) xs :
  collect_results l = Ok xs ↔ l = Ok <$> xs.
Proof.
  revert xs. induction l as [|r l IH]; intros xs; simpl.
  - split; [by intros [= <-]|by destruct xs].
  - destruct r as [x|e]; simpl; [|destruct xs; naive_solver].
    destruct (collect_results l) as [ys|e]; simpl.
    + rewrite (proj1 (IH ys) eq_refl). split; [by intros [= <-]|].
      destruct xs as [|x' xs]; [done|]. simpl. intros [= <- Hl].
      assert (Ok (E := X) ys = Ok xs) as [= ->]; [|done]. apply IH. by rewrite (proj1 (IH ys) eq_refl).
    + split; [done|]. destruct xs as [|x' xs]; [done|]. simpl. intros [= <- Hl]. by apply IH in Hl.
Qed.

Lemma values_omap {A B} (f : A → option B) (m : gmap string A) :
  (map_to_list (omap f m)).*2 ≡ₚ omap f (map_to_list m).*2.
Proof.
  induction m as [|i x m Hi IH] using map_ind; [by rewrite omap_empty, !map_to_list_empty|].
  rewrite (map_to_list_insert m) by done. simpl. destruct (f x) as [y|] eqn:Ef.
  - rewrite (omap_insert_Some f m i x y), map_to_list_insert by (done || by rewrite lookup_omap, Hi).
    simpl. by rewrite IH.
  - rewrite omap_insert_None by done. rewrite delete_id by (by rewrite lookup_omap, Hi). apply IH.
Qed.

Section PostgresLaws.
Context `{PgDriver, SubtasksJsonOk}.

(** Every row is under its id and can be read. *)
Definition row_ok (id : string) (row : TaskRow) : Prop := tr_id row = id ∧ ∃ t, row_to_task row = Ok t.

Definition pg_backend_wf (b : PostgresTaskBackend) : Prop :=
  match task_pool b with Some db => map_Forall row_ok (task_rows db) | None => True end.

Definition read_row (row : TaskRow) : option Task :=
  match row_to_task row with Ok t => Some t | Err _ => None end.

Definition pg_stored (b : PostgresTaskBackend) : gmap string Task :=
  match task_pool b with
  | Some db => omap read_row (task_rows db)
  | None => mem_tasks (task_fallback b)
  end.

Lemma task_row_read t j old :
  forallb finite_cost (tk_subtasks t) = true → encode_subtasks (tk_subtasks t) = Ok j →
  ∃ t', row_to_task (upserted_row old (task_row t j)) = Ok t' ∧ same_record t' t.
Proof.
  intros Hf Hj. unfold row_to_task.
  assert (tr_status (upserted_row old (task_row t j)) = task_status_str (tk_status t)) as -> by (by destruct old).
  assert (tr_subtasks (upserted_row old (task_row t j)) = j) as -> by (by destruct old).
  rewrite row_status_of_str. simpl. rewrite (decode_encode _ _ Hf Hj). simpl.
  eexists. split; [done|]. by destruct old.
Qed.

Lemma pgt_update_accepted b t r b' :
  pg_backend_wf b → forallb finite_cost (tk_subtasks t) = true → pgt_update b t = (Ok r, b') →
  pg_backend_wf b' ∧ ∃ t', pg_stored b' = <[tk_id t := t']> (pg_stored b) ∧ same_record t' t.
Proof.
  intros Hwf Hf. unfold pgt_update, pg_backend_wf, pg_stored in *.
  unfold to_fallback. destruct (task_pool b) as [db|]; [|intros [= <- <-]; split; [done|]; by exists t].
  destruct (encode_subtasks (tk_subtasks t)) as [j|e] eqn:Ej; [|done].
  destruct (negb (task_db_up db)); [done|]. intros [= <- <-]. simpl.
  destruct (task_row_read t j (task_rows db !! tk_id t) Hf Ej) as (t' & Hr & Hs). split.
  - apply map_Forall_insert_2; [|done]. split; [by destruct (task_rows db !! tk_id t)|eauto].
  - exists t'. split; [|done]. apply omap_insert_Some. unfold read_row. by rewrite Hr.
Qed.

Lemma pgt_list_answers b l : pgt_list b = Ok l → l ≡ₚ (map_to_list (pg_stored b)).*2.
Proof.
  unfold pgt_list, pg_stored. destruct (task_pool b) as [db|]; [|by intros [= <-]].
  destruct (negb (task_db_up db)); [done|]. intros Hl%collect_results_Ok.
  rewrite values_omap, <- (sort_by_perm by_created_desc). apply reflexive_eq. revert l Hl.
  induction (sort_by _ _) as [|x xs IH]; intros [|y ys] Hl; simpl in *; [done..|].
  injection Hl as Hx Hl. unfold read_row at 1. rewrite Hx. f_equal. by apply IH.
Qed.

#[export] Instance Postgres_TaskBackendOk : TaskBackendOk PostgresTaskBackend.
Proof.
  refine {| backend_wf := pg_backend_wf; stored := pg_stored;
            storable_task := λ t, forallb finite_cost (tk_subtasks t) = true |}.
  - intros b t r b' Hwf Hf Hu. by apply (pgt_update_accepted b t r).
  - intros b t e b'. simpl. unfold pgt_update. destruct (task_pool b); [|done].
    destruct (encode_subtasks _); [|by intros [= _ <-]]. by destruct (negb _); intros [=].
  - intros b l _ Hl. by apply pgt_list_answers.
Defined.
End PostgresLaws.
