(* ===== verification/GatewayStore.v ===== *)
(** * The gateway's task store

    [TaskStore] of [uc-grpc/src/server.rs]: the tasks a gateway holds in memory, the
    messages that change them, and the writes it spawns.

    - Every operation is a function on [TaskStore]; the clock and fresh UUIDs are
      arguments, and the operation runs under the store's mutex, so it is one step.
    - Writes are spawned and happen later.  Events and task snapshots go through one
      queue each, in order, because each write awaits the one before it; [event_error]
      is what awaiting the event barrier answers once the queue is empty (the first
      error, kept for good), [task_error] what awaiting the task barrier answers (the
      outcome of the last write).  [run_event_write] and [run_task_write] perform the
      write at the head.  Calls of the graph sink are independent tasks, collected in
      [graph_spawned].
    - The store runs inside a tokio runtime, so [Handle::try_current] succeeds.
    - [iter] is the order in which the map of tasks is traversed. *)

From Stdlib Require Import String.
From stdpp Require Import gmap strings.
From S2P Require Import Prelude RustStr Task Events TaskBackend Envelope WorkerRegistry.

(** ** Messages *)

Record NatsSubtaskExecution : Type := mkExecutionConfig {
  ex_agent_config_json : option string;
  ex_required_capabilities : option (list string);
  ex_file_constraints : option (list string);
  ex_expected_output : option string;
  ex_workflow_steps : option (list WorkflowStep)
}.

Record NatsSubtaskUpdate : Type := mkSubUpdate {
  su_execution : NatsSubtaskExecution;
  su_subtask_id : string;
  su_status : string;
  su_assigned_worker : option string;
  su_description : option string;
  su_depends_on : option (list string);
  su_result : option string;
  su_usage : option SubtaskUsage;
  su_steps : option (list StepUsage);
  su_review : option SubtaskReview;
  su_attempt_id : option Z
}.

Record NatsTaskUpdate : Type := mkTaskUpdate {
  tu_message_id : option string;
  tu_task_id : string;
  tu_status : string;
  tu_partial : bool;
  tu_subtasks : list NatsSubtaskUpdate;
  tu_result : option string
}.

Record NatsTaskUpdateEnvelope : Type := mkUpdateEnvelope {
  env_update : NatsTaskUpdate;
  env_description : option string;
  env_project_id : option string
}.

(** A spawned call of the graph sink. *)
Inductive GraphCall : Type :=
| CallShadow (task : Task)
| CallSchedule (graph_id node_id : string) (attempt : Z) (worker : option string)
| CallHeartbeat (graph_id node_id : string) (attempt : Z)
| CallCommit (graph_id node_id : string) (attempt : Z) (result_ref : option string)
    (usage : option SubtaskUsage) (steps : option (list StepUsage))
| CallFail (graph_id node_id : string) (attempt : Z) (reason : string).

(** ** Subtasks and tasks by field *)

Definition with_description (x : string) (st : Subtask) : Subtask :=
  mkSubtask (subtask_id st) (parent_id st) x (subtask_status st) (assigned_worker st)
    (depends_on st) (file_constraints st) (expected_output st) (subtask_result st)
    (dispatch_mode st) (effect_class st) (dispatch_retry_count st) (required_capabilities st)
    (agent_config_json st) (steps st) (retry_count st).

Definition with_subtask_status (x : SubtaskStatus) (st : Subtask) : Subtask :=
  mkSubtask (subtask_id st) (parent_id st) (subtask_description st) x (assigned_worker st)
    (depends_on st) (file_constraints st) (expected_output st) (subtask_result st)
    (dispatch_mode st) (effect_class st) (dispatch_retry_count st) (required_capabilities st)
    (agent_config_json st) (steps st) (retry_count st).

Definition with_worker (x : option WorkerId) (st : Subtask) : Subtask :=
  mkSubtask (subtask_id st) (parent_id st) (subtask_description st) (subtask_status st) x
    (depends_on st) (file_constraints st) (expected_output st) (subtask_result st)
    (dispatch_mode st) (effect_class st) (dispatch_retry_count st) (required_capabilities st)
    (agent_config_json st) (steps st) (retry_count st).

Definition with_depends_on (x : list TaskId) (st : Subtask) : Subtask :=
  mkSubtask (subtask_id st) (parent_id st) (subtask_description st) (subtask_status st)
    (assigned_worker st) x (file_constraints st) (expected_output st) (subtask_result st)
    (dispatch_mode st) (effect_class st) (dispatch_retry_count st) (required_capabilities st)
    (agent_config_json st) (steps st) (retry_count st).

Definition with_file_constraints (x : list string) (st : Subtask) : Subtask :=
  mkSubtask (subtask_id st) (parent_id st) (subtask_description st) (subtask_status st)
    (assigned_worker st) (depends_on st) x (expected_output st) (subtask_result st)
    (dispatch_mode st) (effect_class st) (dispatch_retry_count st) (required_capabilities st)
    (agent_config_json st) (steps st) (retry_count st).

Definition with_expected_output (x : string) (st : Subtask) : Subtask :=
  mkSubtask (subtask_id st) (parent_id st) (subtask_description st) (subtask_status st)
    (assigned_worker st) (depends_on st) (file_constraints st) x (subtask_result st)
    (dispatch_mode st) (effect_class st) (dispatch_retry_count st) (required_capabilities st)
    (agent_config_json st) (steps st) (retry_count st).

Definition with_result (x : option SubtaskResult) (st : Subtask) : Subtask :=
  mkSubtask (subtask_id st) (parent_id st) (subtask_description st) (subtask_status st)
    (assigned_worker st) (depends_on st) (file_constraints st) (expected_output st) x
    (dispatch_mode st) (effect_class st) (dispatch_retry_count st) (required_capabilities st)
    (agent_config_json st) (steps st) (retry_count st).

Definition with_attempt (x : Z) (st : Subtask) : Subtask :=
  mkSubtask (subtask_id st) (parent_id st) (subtask_description st) (subtask_status st)
    (assigned_worker st) (depends_on st) (file_constraints st) (expected_output st)
    (subtask_result st) (dispatch_mode st) (effect_class st) x (required_capabilities st)
    (agent_config_json st) (steps st) (retry_count st).

Definition with_capabilities (x : list string) (st : Subtask) : Subtask :=
  mkSubtask (subtask_id st) (parent_id st) (subtask_description st) (subtask_status st)
    (assigned_worker st) (depends_on st) (file_constraints st) (expected_output st)
    (subtask_result st) (dispatch_mode st) (effect_class st) (dispatch_retry_count st) x
    (agent_config_json st) (steps st) (retry_count st).

Definition with_agent_config (x : option string) (st : Subtask) : Subtask :=
  mkSubtask (subtask_id st) (parent_id st) (subtask_description st) (subtask_status st)
    (assigned_worker st) (depends_on st) (file_constraints st) (expected_output st)
    (subtask_result st) (dispatch_mode st) (effect_class st) (dispatch_retry_count st)
    (required_capabilities st) x (steps st) (retry_count st).

Definition with_steps (x : list WorkflowStep) (st : Subtask) : Subtask :=
  mkSubtask (subtask_id st) (parent_id st) (subtask_description st) (subtask_status st)
    (assigned_worker st) (depends_on st) (file_constraints st) (expected_output st)
    (subtask_result st) (dispatch_mode st) (effect_class st) (dispatch_retry_count st)
    (required_capabilities st) (agent_config_json st) x (retry_count st).

Definition with_task_subtasks (l : list Subtask) (t : Task) : Task :=
  mkTask (tk_id t) (tk_description t) (tk_project_id t) (tk_status t) l (tk_created_at t) (tk_updated_at t).

(** [iter_mut().find(p)] followed by a change of what it finds. *)
Fixpoint alter_first {A} (p : A → bool) (f : A → A) (l : list A) : list A :=
  match l with
  | [] => []
  | x :: rest => if p x then f x :: rest else x :: alter_first p f rest
  end.

Definition has_subtask_id (id : string) (st : Subtask) : bool := subtask_id st ==? id.

(** ** Statuses *)

Definition task_status_from_str (s : string) : option TaskStatus :=
  let s := to_ascii_lowercase s in
  if s ==? "created" then Some TaskCreated
  else if s ==? "planning" then Some TaskPlanning
  else if (s ==? "in_progress") || (s ==? "inprogress") then Some TaskInProgress
  else if s ==? "completed" then Some TaskCompleted
  else if s ==? "failed" then Some TaskFailed
  else if s ==? "paused" then Some TaskPaused
  else None.

Definition subtask_status_from_str (s : string) : option SubtaskStatus :=
  let s := to_ascii_lowercase s in
  if s ==? "pending" then Some SubtaskPending
  else if s ==? "assigned" then Some SubtaskAssigned
  else if (s ==? "in_progress") || (s ==? "inprogress") then Some SubtaskInProgress
  else if s ==? "completed" then Some SubtaskCompleted
  else if s ==? "failed" then Some SubtaskFailed
  else if s ==? "conflicted" then Some SubtaskConflicted
  else None.

(** [conversions.rs]. *)
Definition task_status_to_proto (s : TaskStatus) : string :=
  match s with
  | TaskCreated => "Created"
  | TaskPlanning => "Planning"
  | TaskInProgress => "InProgress"
  | TaskCompleted => "Completed"
  | TaskFailed => "Failed"
  | TaskPaused => "Paused"
  end.

Definition proto_status_to_task_status (s : string) : result TaskStatus string :=
  if s ==? "Created" then Ok TaskCreated
  else if s ==? "Planning" then Ok TaskPlanning
  else if s ==? "InProgress" then Ok TaskInProgress
  else if s ==? "Completed" then Ok TaskCompleted
  else if s ==? "Failed" then Ok TaskFailed
  else if s ==? "Paused" then Ok TaskPaused
  else Err ("Unknown TaskStatus: " +:+ s).

(** The states a task leaves only by a command. *)
Definition task_controlled (s : TaskStatus) : bool :=
  match s with TaskPaused | TaskFailed | TaskCompleted => true | _ => false end.
Definition subtask_final (s : SubtaskStatus) : bool :=
  match s with SubtaskFailed | SubtaskCompleted => true | _ => false end.
Definition subtask_open (s : SubtaskStatus) : bool :=
  match s with SubtaskInProgress | SubtaskPending | SubtaskAssigned => true | _ => false end.
Definition subtask_claimed (s : SubtaskStatus) : bool :=
  match s with SubtaskInProgress | SubtaskAssigned => true | _ => false end.

(** ** From the wire *)

Definition execution_apply_to (ex : NatsSubtaskExecution) (st : Subtask) : Subtask :=
  let st := match ex_agent_config_json ex with Some c => with_agent_config (Some c) st | None => st end in
  let st := match ex_required_capabilities ex with Some c => with_capabilities c st | None => st end in
  let st := match ex_file_constraints ex with Some c => with_file_constraints c st | None => st end in
  let st := match ex_expected_output ex with Some o => with_expected_output o st | None => st end in
  match ex_workflow_steps ex with Some l => with_steps l st | None => st end.

(** The result a report carries; [fresh] is the UUID of [WorkerId::default]. *)
Definition reported_result (fresh : string) (now : Instant) (id : string) (worker : option WorkerId)
    (status : option SubtaskStatus) (summary : string) (usage : option SubtaskUsage)
    (review : option SubtaskReview) : SubtaskResult :=
  mkSubtaskResult id (default fresh worker) [] summary
    (negb (bool_decide (status = Some SubtaskFailed))) now (Some summary) usage review.

Definition nats_subtask_to_domain (fresh : string) (now : Instant) (task_id : string)
    (u : NatsSubtaskUpdate) : Subtask :=
  let status := default SubtaskPending (subtask_status_from_str (su_status u)) in
  let result :=
    (λ summary, reported_result fresh now (su_subtask_id u) (su_assigned_worker u) (Some status)
                  summary (su_usage u) (su_review u)) <$> su_result u in
  execution_apply_to (su_execution u)
    (mkSubtask (su_subtask_id u) task_id (default ""%string (su_description u)) status
       (su_assigned_worker u) (default [] (su_depends_on u)) [] "" result PreferRemote RequiresWorker
       0 [] None [] 0).

(** ** Verbs of the graph plane *)

Inductive PendingGraphVerb : Type :=
| PendingHeartbeat
| PendingCommit (result_ref : option string) (usage : option SubtaskUsage)
    (steps : option (list StepUsage))
| PendingFail (reason : string).

Definition graph_verb_for (status prev : SubtaskStatus) : option PendingGraphVerb :=
  if status ==? prev then None
  else match status with
       | SubtaskInProgress => Some PendingHeartbeat
       | SubtaskCompleted => Some (PendingCommit None None None)
       | SubtaskFailed => Some (PendingFail "worker_failed")
       | SubtaskConflicted => Some (PendingFail "conflicted")
       | _ => None
       end.

(** The commit of a known subtask carries what the report says, or what is held. *)
Definition fill_commit (st : Subtask) (u : NatsSubtaskUpdate) (verb : PendingGraphVerb)
    : PendingGraphVerb :=
  match verb with
  | PendingCommit _ _ _ =>
      PendingCommit
        (match su_result u with Some r => Some r | None => result_summary <$> subtask_result st end)
        (match su_usage u with Some x => Some x | None => r ← subtask_result st; result_usage r end)
        (su_steps u)
  | other => other
  end.

Definition call_of (graph_id : string) (v : string * Z * PendingGraphVerb) : GraphCall :=
  let '(node_id, attempt, verb) := v in
  match verb with
  | PendingHeartbeat => CallHeartbeat graph_id node_id attempt
  | PendingCommit r u steps => CallCommit graph_id node_id attempt r u steps
  | PendingFail reason => CallFail graph_id node_id attempt reason
  end.

(** ** The store *)

Record TaskStore (S B : Type) : Type := mkTaskStore {
  tasks : gmap string Task;
  durability_faults : gset string;
  inline_events : list AgentEventType;
  event_log : S;
  event_queue : list (string * AgentEventType);
  event_error : option string;
  task_backend : option B;
  task_queue : list Task;
  task_error : option string;
  graph_wired : bool;
  graph_spawned : list GraphCall;
  last_heartbeat : option Instant;
  worker_heartbeats : gmap string Instant;
  assigned_subtask_times : gmap string Instant;
  seen_messages : gmap string Instant;
  stale_dispatch_dropped : Z;
  worker_stale_dropped : gmap string Z
}.
Arguments mkTaskStore {S B} _ _ _ _ _ _ _ _ _ _ _ _ _ _ _ _ _.
Arguments tasks {S B} t.
Arguments durability_faults {S B} t.
Arguments inline_events {S B} t.
Arguments event_log {S B} t.
Arguments event_queue {S B} t.
Arguments event_error {S B} t.
Arguments task_backend {S B} t.
Arguments task_queue {S B} t.
Arguments task_error {S B} t.
Arguments graph_wired {S B} t.
Arguments graph_spawned {S B} t.
Arguments last_heartbeat {S B} t.
Arguments worker_heartbeats {S B} t.
Arguments assigned_subtask_times {S B} t.
Arguments seen_messages {S B} t.
Arguments stale_dispatch_dropped {S B} t.
Arguments worker_stale_dropped {S B} t.

Definition DEDUP_TTL : Z := 300 * 1000000000.
Definition DEDUP_MAX_ENTRIES : Z := 10000.
Definition INLINE_EVENTS_MAX : Z := 5000.
Definition MAX_RETAINED_TASKS : Z := 1000.

Section Store.
Context {S B : Type} `{EventStore S} `{TaskStoreBackend B}.
(** [HashMap::iter]. *)
Context (iter : gmap string Task → list (string * Task)).

Definition TaskStore_with (log : S) (backend : option B) (wired : bool) : TaskStore S B :=
  mkTaskStore ∅ ∅ [] log [] None backend [] None wired [] None ∅ ∅ ∅ 0 ∅.

Definition set_tasks (x : gmap string Task) (s : TaskStore S B) : TaskStore S B :=
    mkTaskStore x (durability_faults s) (inline_events s) (event_log s) (event_queue s)
    (event_error s) (task_backend s) (task_queue s) (task_error s) (graph_wired s)
    (graph_spawned s) (last_heartbeat s) (worker_heartbeats s) (assigned_subtask_times s)
    (seen_messages s) (stale_dispatch_dropped s) (worker_stale_dropped s).

Definition set_faults (x : gset string) (s : TaskStore S B) : TaskStore S B :=
    mkTaskStore (tasks s) x (inline_events s) (event_log s) (event_queue s) (event_error s)
    (task_backend s) (task_queue s) (task_error s) (graph_wired s) (graph_spawned s)
    (last_heartbeat s) (worker_heartbeats s) (assigned_subtask_times s) (seen_messages s)
    (stale_dispatch_dropped s) (worker_stale_dropped s).

Definition set_inline (x : list AgentEventType) (s : TaskStore S B) : TaskStore S B :=
    mkTaskStore (tasks s) (durability_faults s) x (event_log s) (event_queue s) (event_error
    s) (task_backend s) (task_queue s) (task_error s) (graph_wired s) (graph_spawned s)
    (last_heartbeat s) (worker_heartbeats s) (assigned_subtask_times s) (seen_messages s)
    (stale_dispatch_dropped s) (worker_stale_dropped s).

Definition set_events_out (log : S) (queue : list (string * AgentEventType)) (err : option string) (s : TaskStore S B) : TaskStore S B :=
    mkTaskStore (tasks s) (durability_faults s) (inline_events s) log queue err (task_backend
    s) (task_queue s) (task_error s) (graph_wired s) (graph_spawned s) (last_heartbeat s)
    (worker_heartbeats s) (assigned_subtask_times s) (seen_messages s) (stale_dispatch_dropped
    s) (worker_stale_dropped s).

Definition set_tasks_out (b : option B) (queue : list Task) (err : option string) (s : TaskStore S B) : TaskStore S B :=
    mkTaskStore (tasks s) (durability_faults s) (inline_events s) (event_log s) (event_queue
    s) (event_error s) b queue err (graph_wired s) (graph_spawned s) (last_heartbeat s)
    (worker_heartbeats s) (assigned_subtask_times s) (seen_messages s) (stale_dispatch_dropped
    s) (worker_stale_dropped s).

Definition set_spawned (x : list GraphCall) (s : TaskStore S B) : TaskStore S B :=
    mkTaskStore (tasks s) (durability_faults s) (inline_events s) (event_log s) (event_queue
    s) (event_error s) (task_backend s) (task_queue s) (task_error s) (graph_wired s) x
    (last_heartbeat s) (worker_heartbeats s) (assigned_subtask_times s) (seen_messages s)
    (stale_dispatch_dropped s) (worker_stale_dropped s).

Definition set_heartbeat (x : option Instant) (s : TaskStore S B) : TaskStore S B :=
    mkTaskStore (tasks s) (durability_faults s) (inline_events s) (event_log s) (event_queue
    s) (event_error s) (task_backend s) (task_queue s) (task_error s) (graph_wired s)
    (graph_spawned s) x (worker_heartbeats s) (assigned_subtask_times s) (seen_messages s)
    (stale_dispatch_dropped s) (worker_stale_dropped s).

Definition set_worker_heartbeats (x : gmap string Instant) (s : TaskStore S B) : TaskStore S B :=
    mkTaskStore (tasks s) (durability_faults s) (inline_events s) (event_log s) (event_queue
    s) (event_error s) (task_backend s) (task_queue s) (task_error s) (graph_wired s)
    (graph_spawned s) (last_heartbeat s) x (assigned_subtask_times s) (seen_messages s)
    (stale_dispatch_dropped s) (worker_stale_dropped s).

Definition set_assigned (x : gmap string Instant) (s : TaskStore S B) : TaskStore S B :=
    mkTaskStore (tasks s) (durability_faults s) (inline_events s) (event_log s) (event_queue
    s) (event_error s) (task_backend s) (task_queue s) (task_error s) (graph_wired s)
    (graph_spawned s) (last_heartbeat s) (worker_heartbeats s) x (seen_messages s)
    (stale_dispatch_dropped s) (worker_stale_dropped s).

Definition set_seen (x : gmap string Instant) (s : TaskStore S B) : TaskStore S B :=
    mkTaskStore (tasks s) (durability_faults s) (inline_events s) (event_log s) (event_queue
    s) (event_error s) (task_backend s) (task_queue s) (task_error s) (graph_wired s)
    (graph_spawned s) (last_heartbeat s) (worker_heartbeats s) (assigned_subtask_times s) x
    (stale_dispatch_dropped s) (worker_stale_dropped s).

Definition set_stale (x : Z) (s : TaskStore S B) : TaskStore S B :=
    mkTaskStore (tasks s) (durability_faults s) (inline_events s) (event_log s) (event_queue
    s) (event_error s) (task_backend s) (task_queue s) (task_error s) (graph_wired s)
    (graph_spawned s) (last_heartbeat s) (worker_heartbeats s) (assigned_subtask_times s)
    (seen_messages s) x (worker_stale_dropped s).

Definition set_worker_stale (x : gmap string Z) (s : TaskStore S B) : TaskStore S B :=
    mkTaskStore (tasks s) (durability_faults s) (inline_events s) (event_log s) (event_queue
    s) (event_error s) (task_backend s) (task_queue s) (task_error s) (graph_wired s)
    (graph_spawned s) (last_heartbeat s) (worker_heartbeats s) (assigned_subtask_times s)
    (seen_messages s) (stale_dispatch_dropped s) x.

(** *** Spawned writes *)

Definition spawn_call (c : GraphCall) (s : TaskStore S B) : TaskStore S B :=
  if graph_wired s then set_spawned (graph_spawned s ++ [c]) s else s.

Definition record_event_with_subject (event : AgentEventType) (subject : string) (s : TaskStore S B)
    : TaskStore S B :=
  let log := inline_events s ++ [event] in
  let s := set_inline (drop (length log - Z.to_nat INLINE_EVENTS_MAX) log) s in
  set_events_out (event_log s) (event_queue s ++ [(subject, event)]) (event_error s) s.

Definition task_subject (task_id : string) : string := "task." +:+ task_id.

Definition event_subject_of (event : AgentEventType) : string :=
  match event with
  | AgentEvent.TaskCreated t _ | AgentEvent.TaskCompleted t _ _ | AgentEvent.TaskFailed t _ => task_subject t
  | AgentEvent.SubtaskAssigned t _ _ => task_subject t
  | AgentEvent.SubtaskStarted t _ _ => task_subject t
  | AgentEvent.SubtaskProgress t _ _ _ _ _ _ _ _ _ _ _ => task_subject t
  | AgentEvent.SubtaskCompleted t _ _ _ _ _ _ => task_subject t
  | AgentEvent.SubtaskFailed t _ _ _ _ _ => task_subject t
  | AgentEvent.TaskPaused t => task_subject t
  | AgentEvent.TaskResumed t => task_subject t
  | AgentEvent.TaskCancelled t => task_subject t
  | AgentEvent.TaskUpdated t _ => task_subject t
  | _ => "events"
  end.

Definition TaskStore_record_event (event : AgentEventType) (s : TaskStore S B) : TaskStore S B :=
  record_event_with_subject event (event_subject_of event) s.

Definition persist_task (task : Task) (s : TaskStore S B) : TaskStore S B :=
  let s := match task_backend s with
           | Some b => set_tasks_out (Some b) (task_queue s ++ [task]) (task_error s) s
           | None => s
           end in
  spawn_call (CallShadow task) s.

Definition persist_new_task (task : Task) (s : TaskStore S B) : TaskStore S B := persist_task task s.

(** The write at the head of a queue.  An earlier error stays in the event barrier; the
    task barrier answers for the last write only. *)
Definition run_event_write (now : Instant) (s : TaskStore S B) : TaskStore S B :=
  match event_queue s with
  | [] => s
  | (subject, event) :: rest =>
      let '(r, log) := append now (event_log s) subject event in
      set_events_out log rest
        (match event_error s, r with
         | Some e, _ => Some e
         | None, Err e => Some (EngineError_display e)
         | None, Ok _ => None
         end) s
  end.

Definition run_task_write (s : TaskStore S B) : TaskStore S B :=
  match task_queue s, task_backend s with
  | task :: rest, Some b =>
      let '(r, b') := backend_update b task in
      set_tasks_out (Some b') rest
        (match r with Err e => Some (EngineError_display e) | Ok _ => None end) s
  | _, _ => s
  end.

(** Awaiting a barrier: the writes queued so far have happened. *)
Definition await_events (now : Instant) (s : TaskStore S B) : option string * TaskStore S B :=
  let s := Nat.iter (length (event_queue s)) (run_event_write now) s in (event_error s, s).

Definition await_tasks (s : TaskStore S B) : option string * TaskStore S B :=
  let s := Nat.iter (length (task_queue s)) run_task_write s in (task_error s, s).

Definition flush_task_events (now : Instant) (s : TaskStore S B)
    : result unit EngineError * TaskStore S B :=
  match await_events now s with
  | (Some e, s) => (Err (ConnectionError e), s)
  | (None, s) => (Ok tt, s)
  end.

(** An error is the text of [Status::unavailable]. *)
Definition flush_task_state (now : Instant) (task_id : string) (s : TaskStore S B)
    : result unit string * TaskStore S B :=
  let s := set_faults ({[task_id]} ∪ durability_faults s) s in
  match await_tasks s with
  | (Some e, s) => (Err e, s)
  | (None, s) =>
      match await_events now s with
      | (Some e, s) => (Err e, s)
      | (None, s) => (Ok tt, set_faults (durability_faults s ∖ {[task_id]}) s)
      end
  end.

(** *** Retention *)

Definition task_final (t : Task) : bool :=
  match tk_status t with TaskCompleted | TaskFailed => true | _ => false end.

Definition by_updated (a b : string * Z) : bool := a.2 <=? b.2.

Definition forget_assigned (l : list Subtask) (times : gmap string Instant) : gmap string Instant :=
  foldl (λ m st, delete (subtask_id st) m) times l.

Definition evict_one (s : TaskStore S B) (id : string) : TaskStore S B :=
  let s := match tasks s !! id with
           | Some t => set_assigned (forget_assigned (tk_subtasks t) (assigned_subtask_times s)) s
           | None => s
           end in
  set_tasks (delete id (tasks s)) s.

Definition evict_completed_tasks (s : TaskStore S B) : nat * TaskStore S B :=
  if Z.of_nat (size (tasks s)) <=? MAX_RETAINED_TASKS then (0%nat, s)
  else
    match sort_by by_updated
            ((λ x, (x.1, tk_updated_at x.2)) <$> filterb (λ x, task_final x.2) (iter (tasks s))) with
    | [] => (0%nat, s)
    | terminal =>
        let to_evict := Nat.min (size (tasks s) - Z.to_nat MAX_RETAINED_TASKS) (length terminal) in
        (to_evict, foldl evict_one s (take to_evict terminal).*1)
    end.

(** *** Message identity *)

Definition purge_expired_dedup_entries (now : Instant) (s : TaskStore S B) : TaskStore S B :=
  set_seen (filter (λ x, Z.max 0 (now - x.2) < DEDUP_TTL) (seen_messages s)) s.

(** [true] when the message was seen before. *)
Definition check_and_record_message_id (now : Instant) (message_id : option string)
    (s : TaskStore S B) : bool * TaskStore S B :=
  match message_id with
  | None => (false, s)
  | Some mid =>
      if mid ==? "" then (false, s)
      else
        match seen_messages s !! mid with
        | Some _ => (true, s)
        | None =>
            let s := set_seen (<[mid := now]> (seen_messages s)) s in
            (false, if DEDUP_MAX_ENTRIES <? Z.of_nat (size (seen_messages s))
                    then purge_expired_dedup_entries now s else s)
        end
  end.

(** *** Staleness of complete snapshots *)

Definition node_snapshot_stale (node : Subtask) (incoming : NatsSubtaskUpdate) : bool :=
  (subtask_final (subtask_status node)
   && negb (bool_decide (subtask_status_from_str (su_status incoming) = Some (subtask_status node))))
  || match su_attempt_id incoming with
     | Some attempt => negb (attempt =? dispatch_retry_count node)
     | None => 0 <? dispatch_retry_count node
     end.

Definition task_snapshot_stale (t : Task) (u : NatsTaskUpdate) : bool :=
  (task_controlled (tk_status t)
   && negb (bool_decide (task_status_from_str (tu_status u) = Some (tk_status t))))
  || existsb (λ incoming,
       match find (has_subtask_id (su_subtask_id incoming)) (tk_subtasks t) with
       | Some node => node_snapshot_stale node incoming
       | None => false
       end) (tu_subtasks u).

Definition full_snapshot_is_stale (u : NatsTaskUpdate) (s : TaskStore S B) : bool :=
  negb (tu_partial u) &&
  match tasks s !! tu_task_id u with
  | Some t => task_snapshot_stale t u
  | None => false
  end.

(** *** Creation and control *)

Definition submit_task (task_id subtask_id fresh_worker : string) (now : Instant)
    (description project_id : string) (s : TaskStore S B) : Task * TaskStore S B :=
  let subtask := mkSubtask subtask_id task_id description SubtaskPending None [] [] "" None
                   PreferRemote RequiresWorker 0 [] None [] 0 in
  let task := mkTask task_id description project_id TaskInProgress [subtask] now now in
  let s := record_event_with_subject (AgentEvent.TaskCreated task_id description)
             (task_subject task_id) s in
  let s := record_event_with_subject (AgentEvent.SubtaskAssigned task_id subtask_id fresh_worker)
             (task_subject task_id) s in
  (task, persist_new_task task (set_tasks (<[task_id := task]> (tasks s)) s)).

Definition submit_task_pending_with_id (now : Instant) (task_id description project_id : string)
    (s : TaskStore S B) : Task * TaskStore S B :=
  let task := mkTask task_id description project_id TaskPlanning [] now now in
  let s := record_event_with_subject (AgentEvent.TaskCreated task_id description)
             (task_subject task_id) s in
  (task, persist_new_task task (set_tasks (<[task_id := task]> (tasks s)) s)).

Definition get_task (task_id : string) (s : TaskStore S B) : option Task := tasks s !! task_id.

Definition list_all_tasks (s : TaskStore S B) : list Task := (iter (tasks s)).*2.

(** A changed task: stored and persisted. *)
Definition save (id : string) (task : Task) (s : TaskStore S B) : TaskStore S B :=
  persist_task task (set_tasks (<[id := task]> (tasks s)) s).

Definition no_such_task (task_id : string) : string := "Task not found: " +:+ task_id.

Definition pause_task (now : Instant) (task_id : string) (s : TaskStore S B)
    : result Task string * TaskStore S B :=
  match tasks s !! task_id with
  | None => (Err (no_such_task task_id), s)
  | Some t =>
      match tk_status t with
      | TaskInProgress | TaskPlanning =>
          let t' := set_task_state TaskPaused now t in (Ok t', save task_id t' s)
      | other => (Err ("Cannot pause task in " +:+ task_status_to_proto other
                       +:+ " status (expected InProgress or Planning)"), s)
      end
  end.

Definition resume_task (now : Instant) (task_id : string) (s : TaskStore S B)
    : result Task string * TaskStore S B :=
  match tasks s !! task_id with
  | None => (Err (no_such_task task_id), s)
  | Some t =>
      match tk_status t with
      | TaskPaused => let t' := set_task_state TaskInProgress now t in (Ok t', save task_id t' s)
      | other => (Err ("Cannot resume task in " +:+ task_status_to_proto other
                       +:+ " status (expected Paused)"), s)
      end
  end.

(** The loop of [cancel_task] over the subtasks. *)
Definition cancel_subtask (st : Subtask) : Subtask :=
  if subtask_open (subtask_status st) then with_subtask_status SubtaskFailed st else st.

Definition assigned_ids (l : list Subtask) : list Subtask :=
  filterb (λ st, subtask_status st ==? SubtaskAssigned) l.

Definition cancel_task (now : Instant) (task_id : string) (s : TaskStore S B)
    : result Task string * TaskStore S B :=
  match tasks s !! task_id with
  | None => (Err (no_such_task task_id), s)
  | Some t =>
      match tk_status t with
      | TaskInProgress | TaskPlanning | TaskPaused =>
          let t' := with_task_subtasks (cancel_subtask <$> tk_subtasks t)
                      (set_task_state TaskFailed now t) in
          let s := set_assigned (forget_assigned (assigned_ids (tk_subtasks t))
                                   (assigned_subtask_times s)) s in
          (Ok t', save task_id t' s)
      | TaskFailed => (Err "Task is already failed", s)
      | TaskCompleted => (Err "Cannot cancel task in Completed state", s)
      | TaskCreated => (Err "Cannot cancel task in Created state", s)
      end
  end.

(** *** Projections *)

(** The checks of [update_task] on the task it finds; an error is its text. *)
Definition check_incoming (current : Task) (incoming : Subtask) : result unit string :=
  match find (has_subtask_id (subtask_id incoming)) (tk_subtasks current) with
  | Some node =>
      if negb (dispatch_retry_count node =? dispatch_retry_count incoming)
      then Err "Projection attempt differs from Gateway attempt"
      else if subtask_final (subtask_status node) && negb (subtask_status node ==? subtask_status incoming)
      then Err "Projection cannot reopen terminal node; use RetrySubtask"
      else Ok tt
  | None =>
      if task_controlled (tk_status current)
      then Err "Projection cannot extend a controlled or terminal task" else Ok tt
  end.

Fixpoint check_all (current : Task) (l : list Subtask) : result unit string :=
  match l with
  | [] => Ok tt
  | incoming :: rest => let? _ := check_incoming current incoming in check_all current rest
  end.

Definition check_projection (current : option Task) (parsed : TaskStatus) (subtasks : list Subtask)
    : result unit string :=
  match current with
  | None => Ok tt
  | Some current =>
      if task_controlled (tk_status current) && negb (tk_status current ==? parsed)
      then Err "Projection cannot reverse task control state; use a control command"%string
      else check_all current subtasks
  end.

(** What an upsert changes of a known subtask. *)
Definition project_onto (st existing : Subtask) : Subtask :=
  let e := with_result (subtask_result st) (with_subtask_status (subtask_status st) existing) in
  let e := if subtask_description st ==? "" then e else with_description (subtask_description st) e in
  let e := match depends_on st with [] => e | deps => with_depends_on deps e end in
  match assigned_worker st with Some w => with_worker (Some w) e | None => e end.

(** The upsert loop: the subtasks, the transitions and the new ids so far. *)
Definition upsert_one (acc : list Subtask * list (string * SubtaskStatus) * list string) (st : Subtask)
    : list Subtask * list (string * SubtaskStatus) * list string :=
  let '(l, moved, added) := acc in
  match find (has_subtask_id (subtask_id st)) l with
  | Some existing =>
      (alter_first (has_subtask_id (subtask_id st)) (project_onto st) l,
       if subtask_status existing ==? subtask_status st then moved
       else moved ++ [(subtask_id st, subtask_status st)],
       added)
  | None => (l ++ [st], moved, added ++ [subtask_id st])
  end.

Definition transition_event (task_id fresh_worker : string) (m : string * SubtaskStatus)
    : option AgentEventType :=
  match m.2 with
  | SubtaskInProgress => Some (AgentEvent.SubtaskStarted task_id m.1 fresh_worker)
  | SubtaskCompleted => Some (AgentEvent.SubtaskCompleted task_id m.1 "" true [] "" false)
  | SubtaskFailed => Some (AgentEvent.SubtaskFailed task_id m.1 "" false "" "")
  | _ => None
  end.

Definition record_all (events : list AgentEventType) (s : TaskStore S B) : TaskStore S B :=
  foldl (λ s e, TaskStore_record_event e s) s events.

(** [fresh] gives the UUIDs of the worker ids in the events. *)
Definition update_task (fresh : string → string) (now : Instant) (task_id status : string)
    (subtasks : list Subtask) (description project_id : string) (s : TaskStore S B)
    : result (Task * list AgentEventType) string * TaskStore S B :=
  match proto_status_to_task_status status with
  | Err e => (Err e, s)
  | Ok parsed =>
      match check_projection (tasks s !! task_id) parsed subtasks with
      | Err e => (Err e, s)
      | Ok _ =>
          let s := match tasks s !! task_id with
                   | None =>
                       if description ==? "" then s
                       else
                         let s := record_event_with_subject
                                    (AgentEvent.TaskCreated task_id description) (task_subject task_id) s in
                         set_tasks (<[task_id := mkTask task_id description project_id parsed subtasks
                                                   now now]> (tasks s)) s
                   | Some _ => s
                   end in
          match tasks s !! task_id with
          | None => (Err (no_such_task task_id), s)
          | Some t =>
              let '(l, moved, added) := foldl upsert_one (tk_subtasks t, [], []) subtasks in
              let t' := with_task_subtasks l (set_task_state parsed now t) in
              let events := [AgentEvent.TaskUpdated task_id status]
                ++ omap (λ m, transition_event task_id (fresh m.1) m) moved
                ++ ((λ id, AgentEvent.SubtaskAssigned task_id id (fresh id)) <$> added) in
              (Ok (t', events),
               persist_task t' (record_all events (set_tasks (<[task_id := t']> (tasks s)) s)))
          end
      end
  end.

(** *** Retry *)

Definition completed_dep (t : Task) (dep : TaskId) : bool :=
  existsb (λ node, (subtask_id node ==? dep) && (subtask_status node ==? SubtaskCompleted)) (tk_subtasks t).

Definition rearmed (next : Z) (st : Subtask) : Subtask :=
  with_worker None (with_result None (with_subtask_status SubtaskPending (with_attempt next st))).

Definition retry_subtask (now : Instant) (task_id node_id : string) (expected_attempt : Z)
    (s : TaskStore S B) : result Task string * TaskStore S B :=
  match tasks s !! task_id with
  | None => (Err "Task not found", s)
  | Some t =>
      if match tk_status t with TaskPaused | TaskCompleted => true | _ => false end
      then (Err "Cannot retry a paused or completed task", s)
      else
        match find (has_subtask_id node_id) (tk_subtasks t) with
        | None => (Err "Subtask not found", s)
        | Some node =>
            if negb (dispatch_retry_count node =? expected_attempt)
               || negb (subtask_status node ==? SubtaskFailed)
            then (Err "Retry requires the current failed attempt", s)
            else if negb (forallb (completed_dep t) (depends_on node))
            then (Err "Retry dependencies are not completed", s)
            else if expected_attempt =? u32_max then (Err "Attempt overflow", s)
            else
              let next := expected_attempt + 1 in
              let t' := with_task_subtasks (alter_first (has_subtask_id node_id) (rearmed next) (tk_subtasks t))
                          (set_task_state TaskInProgress now t) in
              let s := set_assigned (delete node_id (assigned_subtask_times s)) s in
              let s := set_tasks (<[task_id := t']> (tasks s)) s in
              let s := TaskStore_record_event (AgentEvent.TaskUpdated (tk_id t') "InProgress") s in
              let s := TaskStore_record_event (AgentEvent.SubtaskRetried (tk_id t') node_id next) s in
              (Ok t', persist_task t' s)
        end
  end.

(** *** Updates from the wire *)

(** What happens to an entry for a known subtask. *)
Inductive EntryFate : Type :=
| EntryApplies
| EntryIgnored
| EntryRejected (received current : Z).

Definition entry_fate (partial : bool) (st : Subtask) (u : NatsSubtaskUpdate) : EntryFate :=
  if negb partial then EntryApplies
  else
    let current := dispatch_retry_count st in
    let same_or_old := match su_attempt_id u with Some a => a <=? current | None => true end in
    if subtask_final (subtask_status st) && same_or_old
       && negb (bool_decide (subtask_status_from_str (su_status u) = Some (subtask_status st)))
    then EntryIgnored
    else
      match su_attempt_id u with
      | None => if 0 <? current then EntryIgnored else EntryApplies
      | Some received =>
          if negb (received =? current) then EntryRejected received current else EntryApplies
      end.

(** The tracker of [Assigned] subtasks along a change of status. *)
Definition track_assigned (now : Instant) (id : string) (old new : SubtaskStatus)
    (times : gmap string Instant) : gmap string Instant :=
  if (old ==? SubtaskAssigned) && negb (new ==? SubtaskAssigned) then delete id times
  else if (new ==? SubtaskAssigned) && negb (old ==? SubtaskAssigned) then <[id := now]> times
  else times.

(** The fields an entry changes after the status. *)
Definition apply_fields (fresh : string) (now : Instant) (partial : bool) (u : NatsSubtaskUpdate)
    (st : Subtask) : Subtask :=
  let st := match su_assigned_worker u with Some w => with_worker (Some w) st | None => st end in
  let st := match su_description u with Some d => with_description d st | None => st end in
  let st := match su_depends_on u with Some l => with_depends_on l st | None => st end in
  let st := if partial then st else execution_apply_to (su_execution u) st in
  match su_result u with
  | Some summary =>
      with_result (Some (reported_result fresh now (subtask_id st) (assigned_worker st)
                           (subtask_status_from_str (su_status u)) summary (su_usage u) None)) st
  | None => st
  end.

Definition apply_status (u : NatsSubtaskUpdate) (st : Subtask) : Subtask :=
  match subtask_status_from_str (su_status u) with
  | Some status => with_subtask_status status st
  | None => st
  end.

(** The verb an entry of a known subtask raises. *)
Definition entry_verb (u : NatsSubtaskUpdate) (st : Subtask) : option (string * Z * PendingGraphVerb) :=
  status ← subtask_status_from_str (su_status u);
  verb ← graph_verb_for status (subtask_status st);
  Some (subtask_id st, dispatch_retry_count st, fill_commit (apply_status u st) u verb).

(** A subtask nobody announced; a worker's report does not configure it. *)
Definition new_subtask (fresh : string) (now : Instant) (partial : bool) (task_id : string)
    (u : NatsSubtaskUpdate) : Subtask :=
  let st := nats_subtask_to_domain fresh now task_id u in
  if partial
  then with_steps [] (with_expected_output "" (with_file_constraints []
         (with_capabilities [] (with_agent_config None st))))
  else st.

(** The state of the loop over the entries. *)
Record UpdateLoop : Type := mkLoop {
  loop_subtasks : list Subtask;
  loop_assigned : gmap string Instant;
  loop_verbs : list (string * Z * PendingGraphVerb);
  loop_rejects : list (string * Z * Z)
}.

Definition opt_list {A} (o : option A) : list A := match o with Some x => [x] | None => [] end.

Definition update_entry (now : Instant) (partial : bool) (task_id : string) (x : UpdateLoop)
    (entry : string * NatsSubtaskUpdate) : UpdateLoop :=
  let '(fresh, u) := entry in
  match find (has_subtask_id (su_subtask_id u)) (loop_subtasks x) with
  | Some st =>
      match entry_fate partial st u with
      | EntryIgnored => x
      | EntryRejected received current =>
          mkLoop (loop_subtasks x) (loop_assigned x) (loop_verbs x)
            (loop_rejects x ++ [(subtask_id st, received, current)])
      | EntryApplies =>
          mkLoop
            (alter_first (has_subtask_id (su_subtask_id u))
               (λ st, apply_fields fresh now partial u (apply_status u st)) (loop_subtasks x))
            (match subtask_status_from_str (su_status u) with
             | Some status => track_assigned now (subtask_id st) (subtask_status st) status (loop_assigned x)
             | None => loop_assigned x
             end)
            (loop_verbs x ++ opt_list (entry_verb u st))
            (loop_rejects x)
      end
  | None =>
      let st := new_subtask fresh now partial task_id u in
      mkLoop (loop_subtasks x ++ [st])
        (if subtask_status st ==? SubtaskAssigned
         then <[su_subtask_id u := now]> (loop_assigned x) else loop_assigned x)
        (loop_verbs x ++ opt_list ((λ verb, (subtask_id st, dispatch_retry_count st, verb))
                                     <$> graph_verb_for (subtask_status st) SubtaskPending))
        (loop_rejects x)
  end.

Definition subtask_terminal (st : Subtask) : bool :=
  match subtask_status st with
  | SubtaskCompleted | SubtaskFailed | SubtaskConflicted => true
  | _ => false
  end.

(** The status of the parent once every subtask has ended. *)
Definition derived_status (l : list Subtask) : option TaskStatus :=
  match l with
  | [] => None
  | _ =>
      if forallb subtask_terminal l
      then Some (if forallb (λ st, subtask_status st ==? SubtaskCompleted) l
                 then TaskCompleted else TaskFailed)
      else None
  end.

Definition settle_status (status_valid : bool) (status : TaskStatus) (l : list Subtask) : TaskStatus :=
  if status_valid && match status with TaskInProgress | TaskPlanning => true | _ => false end
  then default status (derived_status l) else status.

(** The task of a complete snapshot nobody knew. *)
Definition rehydrated_task (fresh : nat → string) (now : Instant) (u : NatsTaskUpdate)
    (description project_id : string) : Task :=
  mkTask (tu_task_id u) description project_id
    (default TaskCreated (task_status_from_str (tu_status u)))
    (imap (λ i, nats_subtask_to_domain (fresh i) now (tu_task_id u)) (tu_subtasks u)) now now.

Definition rehydrate (fresh : nat → string) (now : Instant) (u : NatsTaskUpdate)
    (description project_id : option string) (s : TaskStore S B) : option (TaskStore S B) :=
  if tu_partial u then None
  else
    match description, project_id with
    | Some d, Some p =>
        if d ==? "" then None
        else
          let t := rehydrated_task fresh now u d p in
          let s := record_event_with_subject (AgentEvent.TaskCreated (tk_id t) d)
                     (task_subject (tu_task_id u)) s in
          let s := set_assigned
                     (foldl (λ m st, if subtask_status st ==? SubtaskAssigned
                                     then <[subtask_id st := now]> m else m)
                        (assigned_subtask_times s) (tk_subtasks t)) s in
          Some (set_tasks (<[tu_task_id u := t]> (tasks s)) s)
    | _, _ => None
    end.

(** The counter is a [u64]. *)
Definition u64_add (a b : Z) : Z := (a + b) `mod` 2 ^ 64.

Definition stale_event (task_id : string) : AgentEventType :=
  AgentEvent.TaskUpdated task_id "stale_result_rejected".

(** The loop over the entries, and the task it leaves. *)
Definition update_loop (fresh : nat → string) (now : Instant) (u : NatsTaskUpdate) (t : Task)
    (times : gmap string Instant) : UpdateLoop :=
  foldl (update_entry now (tu_partial u) (tk_id t)) (mkLoop (tk_subtasks t) times [] [])
    (imap (λ i e, (fresh i, e)) (tu_subtasks u)).

Definition updated_task (now : Instant) (u : NatsTaskUpdate) (t : Task) (l : list Subtask) : Task :=
  let parsed := if tu_partial u then None else task_status_from_str (tu_status u) in
  with_task_subtasks l
    (set_task_state
       (settle_status (bool_decide (is_Some parsed)) (default (tk_status t) parsed) l) now t).

(** The update of a task the store knows. *)
Definition apply_to_task (fresh : nat → string) (now : Instant) (u : NatsTaskUpdate) (t : Task)
    (s : TaskStore S B) : TaskStore S B :=
  let x := update_loop fresh now u t (assigned_subtask_times s) in
  let t' := updated_task now u t (loop_subtasks x) in
  let s := set_tasks (<[tu_task_id u := t']> (tasks s)) (set_assigned (loop_assigned x) s) in
  let s := (evict_completed_tasks s).2 in
  let s := persist_task t' s in
  let s := set_stale (u64_add (stale_dispatch_dropped s) (Z.of_nat (length (loop_rejects x)))) s in
  let s := record_all ((λ _, stale_event (tk_id t')) <$> loop_rejects x) s in
  foldl (λ s v, spawn_call (call_of (tk_id t') v) s) s (loop_verbs x).

Definition apply_update_with_metadata (fresh fresh' : nat → string) (now : Instant)
    (u : NatsTaskUpdate) (description project_id : option string) (s : TaskStore S B)
    : TaskStore S B :=
  if full_snapshot_is_stale u s then s
  else
    match tasks s !! tu_task_id u with
    | Some t => apply_to_task fresh now u t s
    | None =>
        match rehydrate fresh' now u description project_id s with
        | None => s
        | Some s =>
            match tasks s !! tu_task_id u with
            | Some t => apply_to_task fresh now u t s
            | None => s
            end
        end
    end.

Definition apply_update (fresh fresh' : nat → string) (now : Instant) (u : NatsTaskUpdate)
    (s : TaskStore S B) : TaskStore S B :=
  apply_update_with_metadata fresh fresh' now u None None s.

(** [apply_task_snapshot_response]. *)
Definition apply_snapshot (fresh fresh' : nat → string) (now : Instant)
    (acc : nat * TaskStore S B) (e : NatsTaskUpdateEnvelope) : nat * TaskStore S B :=
  let '(rehydrated, s) := acc in
  let u := env_update e in
  if tu_partial u then (rehydrated, s)
  else
    match check_and_record_message_id now (tu_message_id u) s with
    | (true, s) => (rehydrated, s)
    | (false, s) =>
        let known := bool_decide (is_Some (tasks s !! tu_task_id u)) in
        let s := apply_update_with_metadata fresh fresh' now u (env_description e)
                   (env_project_id e) s in
        (if negb known && bool_decide (is_Some (tasks s !! tu_task_id u))
         then Datatypes.S rehydrated else rehydrated, s)
    end.

Definition apply_task_snapshot_response (fresh fresh' : nat → string) (now : Instant)
    (response : list NatsTaskUpdateEnvelope) (s : TaskStore S B) : nat * TaskStore S B :=
  foldl (apply_snapshot fresh fresh' now) (0%nat, s) response.

(** *** Heartbeats *)

Definition update_last_heartbeat (now : Instant) (s : TaskStore S B) : TaskStore S B :=
  set_heartbeat (Some now) s.

Definition update_worker_heartbeat (now : Instant) (worker_id : string) (dropped : option Z)
    (s : TaskStore S B) : TaskStore S B :=
  let s := set_worker_heartbeats (<[worker_id := now]> (worker_heartbeats s)) s in
  match dropped with
  | Some n =>
      let slot := default 0 (worker_stale_dropped s !! worker_id) in
      set_worker_stale (<[worker_id := Z.max n slot]> (worker_stale_dropped s)) s
  | None => s
  end.

(** A negative age counts as none.  The ids come in the map's order. *)
Definition mark_stale_workers (now timeout : Z) (s : TaskStore S B) : list string * TaskStore S B :=
  let stale := (map_to_list (filter (λ x, timeout < Z.max 0 (now - x.2)) (worker_heartbeats s))).*1 in
  (stale, set_worker_heartbeats (foldl (λ m id, delete id m) (worker_heartbeats s) stale) s).

Definition revert_swept_subtask (now : Instant) (task_id subtask_id : string) (rearmed : bool)
    (s : TaskStore S B) : bool * TaskStore S B :=
  match tasks s !! task_id with
  | None => (false, s)
  | Some t =>
      match find (has_subtask_id subtask_id) (tk_subtasks t) with
      | None => (false, s)
      | Some st =>
          if negb (subtask_claimed (subtask_status st)) then (false, s)
          else
            let st_to := λ st, with_worker None
                                 (with_subtask_status (if rearmed then SubtaskPending else SubtaskFailed) st) in
            let t' := with_task_subtasks (alter_first (has_subtask_id subtask_id) st_to (tk_subtasks t))
                        (set_task_state (tk_status t) now t) in
            (true, save task_id t' (set_assigned (delete subtask_id (assigned_subtask_times s)) s))
      end
  end.

Definition fail_listed (ids : list string) (st : Subtask) : Subtask :=
  if existsb (λ id, id ==? subtask_id st) ids && subtask_open (subtask_status st)
  then with_worker None (with_subtask_status SubtaskFailed st) else st.

Definition fail_subtasks (now : Instant) (task_id : string) (ids : list string) (s : TaskStore S B)
    : nat * TaskStore S B :=
  match tasks s !! task_id with
  | None => (0%nat, s)
  | Some t =>
      let hit := filterb (λ st, existsb (λ id, id ==? subtask_id st) ids
                                && subtask_open (subtask_status st)) (tk_subtasks t) in
      let s := set_assigned (forget_assigned (assigned_ids hit) (assigned_subtask_times s)) s in
      let l := fail_listed ids <$> tk_subtasks t in
      match hit with
      | [] => (0%nat, s)
      | _ => (length hit, save task_id (with_task_subtasks l (set_task_state (tk_status t) now t)) s)
      end
  end.

(** *** Dispatch *)

Definition is_ready (t : Task) (st : Subtask) : bool :=
  (subtask_status st ==? SubtaskPending) && forallb (completed_dep t) (depends_on st).

Definition get_ready_subtasks (task_id : string) (s : TaskStore S B) : list Subtask :=
  match tasks s !! task_id with
  | None => []
  | Some t =>
      if negb (tk_status t ==? TaskInProgress) || bool_decide (task_id ∈ durability_faults s) then []
      else filterb (is_ready t) (tk_subtasks t)
  end.

Definition update_subtask_status (now : Instant) (task_id subtask_id : string) (new : SubtaskStatus)
    (s : TaskStore S B) : TaskStore S B :=
  match tasks s !! task_id with
  | None => s
  | Some t =>
      match find (has_subtask_id subtask_id) (tk_subtasks t) with
      | None => s
      | Some st =>
          let times := if new ==? SubtaskAssigned then <[subtask_id := now]> (assigned_subtask_times s)
                       else if subtask_status st ==? SubtaskAssigned
                       then delete subtask_id (assigned_subtask_times s) else assigned_subtask_times s in
          let t' := with_task_subtasks
                      (alter_first (has_subtask_id subtask_id) (with_subtask_status new) (tk_subtasks t))
                      (set_task_state (tk_status t) now t) in
          let s := set_tasks (<[task_id := t']> (tasks s)) (set_assigned times s) in
          let s := if (new ==? SubtaskAssigned) && negb (subtask_status st ==? SubtaskAssigned)
                   then spawn_call (CallSchedule task_id subtask_id (dispatch_retry_count st) None) s
                   else s in
          persist_task t' s
      end
  end.

(** The increment is a [u32], which wraps in a release build. *)
Definition increment_dispatch_retry (now : Instant) (task_id subtask_id : string) (s : TaskStore S B)
    : option Z * TaskStore S B :=
  match tasks s !! task_id with
  | None => (None, s)
  | Some t =>
      match find (has_subtask_id subtask_id) (tk_subtasks t) with
      | None => (None, s)
      | Some st =>
          let next := (dispatch_retry_count st + 1) `mod` 2 ^ 32 in
          let t' := with_task_subtasks
                      (alter_first (has_subtask_id subtask_id) (with_attempt next) (tk_subtasks t))
                      (set_task_state (tk_status t) now t) in
          (Some next, save task_id t' s)
      end
  end.

Definition set_task_status (now : Instant) (task_id : string) (new : TaskStatus) (s : TaskStore S B)
    : option TaskStatus * TaskStore S B :=
  match tasks s !! task_id with
  | None => (None, s)
  | Some t => (Some (tk_status t), save task_id (set_task_state new now t) s)
  end.

(** [Duration::num_milliseconds] truncates, [as_millis() as i64] wraps. *)
Definition num_milliseconds (d : Z) : Z := Z.quot d 1000000.
Definition millis_as_i64 (d : Z) : Z := u64_as_i64 ((d `div` 1000000) `mod` 2 ^ 64).

Definition task_active (t : Task) : bool :=
  match tk_status t with TaskInProgress | TaskPlanning => true | _ => false end.

Definition mark_stale_tasks_failed (now timeout : Z) (s : TaskStore S B) : list string * TaskStore S B :=
  match last_heartbeat s with
  | None => ([], s)
  | Some hb =>
      if num_milliseconds (now - hb) <? millis_as_i64 timeout then ([], s)
      else
        let failed := (λ x, (x.1, set_task_state TaskFailed now x.2))
                        <$> filterb (λ x, task_active x.2) (iter (tasks s)) in
        let s := set_tasks (foldl (λ m x, <[x.1 := x.2]> m) (tasks s) failed) s in
        (failed.*1, foldl (λ s t, persist_task t s) s failed.*2)
  end.

(** *** Recovery *)

Definition load_from_backend (s : TaskStore S B) : result nat EngineError * TaskStore S B :=
  match task_backend s with
  | None => (Ok 0%nat, s)
  | Some b =>
      match backend_list b with
      | Err e => (Err e, s)
      | Ok l => (Ok (length l), set_tasks (foldl (λ m t, <[tk_id t := t]> m) (tasks s) l) s)
      end
  end.

(** [persist_task] and the barrier of [confirm_terminal_update], up to the reply: whether
    the update is confirmed to its sender. *)
Definition confirm_terminal_update (now : Instant) (to_gateway : bool) (task_id : string)
    (s : TaskStore S B) : bool * TaskStore S B :=
  if negb to_gateway then (false, s)
  else
    match task_backend s with
    | Some b =>
        if negb (is_durable b) then (false, s)
        else
          match tasks s !! task_id with
          | None => (false, s)
          | Some t =>
              match await_tasks (persist_task t s) with
              | (Some _, s) => (false, s)
              | (None, s) =>
                  match flush_task_events now s with
                  | (Err _, s) => (false, s)
                  | (Ok _, s) => (true, s)
                  end
              end
          end
    | None => (false, s)
    end.
End Store.
