(* ===== verification/GatewayStoreProps.v ===== *)
(** * Properties of the gateway's task store

    What reports can and cannot change, fencing, retries, identity of messages,
    durability of control commands, retention; and the departures from the
    documentation that the model shows. *)

From Stdlib Require Import String.
From stdpp Require Import gmap strings.
From S2P Require Import Prelude RustStr Task Events TaskBackend GatewayStore.

Create HintDb gateway.

(** ** Lists with a first match *)

Lemma find_alter_first_ne {A} (p q : A → bool) (f : A → A) l :
  (∀ x, q (f x) = q x) → (∀ x, p x = true → q x = false) →
  find q (alter_first p f l) = find q l.
Proof.
  intros Hf Hpq. induction l as [|x l IH]; [done|]. simpl.
  destruct (p x) eqn:Ep; simpl; [by rewrite Hf, (Hpq x Ep)|]. by rewrite IH.
Qed.

Lemma find_alter_first_eq {A} (p : A → bool) (f : A → A) l :
  (∀ x, p (f x) = p x) → find p (alter_first p f l) = f <$> find p l.
Proof.
  intros Hf. induction l as [|x l IH]; [done|]. simpl.
  destruct (p x) eqn:Ep; simpl; [by rewrite Hf, Ep|]. by rewrite Ep.
Qed.

Lemma find_fmap {A} (p : A → bool) (f : A → A) l :
  (∀ x, p (f x) = p x) → find p (f <$> l) = f <$> find p l.
Proof.
  intros Hf. induction l as [|x l IH]; [done|]. csimpl. rewrite Hf. by destruct (p x).
Qed.

Definition keeps_id (f : Subtask → Subtask) : Prop := ∀ st, subtask_id (f st) = subtask_id st.

Definition node (id : string) (l : list Subtask) : option Subtask := find (has_subtask_id id) l.

Lemma has_subtask_id_keep f id st : keeps_id f → has_subtask_id id (f st) = has_subtask_id id st.
Proof. intros Hf. unfold has_subtask_id. by rewrite Hf. Qed.

Lemma node_id id l st : node id l = Some st → subtask_id st = id.
Proof. intros [_ H]%find_Some. by apply bool_decide_eq_true in H. Qed.

(** A first match that is altered, seen by id. *)
Lemma node_alter f id id' l :
  keeps_id f →
  node id' (alter_first (has_subtask_id id) f l)
  = if decide (id' = id) then f <$> node id' l else node id' l.
Proof.
  intros Hf. unfold node. destruct (decide (id' = id)) as [->|Hne].
  - apply find_alter_first_eq. intros st. by apply has_subtask_id_keep.
  - apply find_alter_first_ne; intros st; [by apply has_subtask_id_keep|].
    unfold has_subtask_id. rewrite bool_decide_eq_true, bool_decide_eq_false. congruence.
Qed.

Lemma node_fmap f id l : keeps_id f → node id (f <$> l) = f <$> node id l.
Proof. intros Hf. apply find_fmap. intros st. by apply has_subtask_id_keep. Qed.

Lemma node_app id l k :
  node id (l ++ k) = match node id l with Some st => Some st | None => node id k end.
Proof. apply find_app. Qed.

(** ** Fields that survive *)

(** What a report may change of a subtask beside its status: not its identity and not
    its attempt. *)
Definition same_attempt (f : Subtask → Subtask) : Prop :=
  ∀ st, subtask_id (f st) = subtask_id st ∧ dispatch_retry_count (f st) = dispatch_retry_count st.

Definition same_status (f : Subtask → Subtask) : Prop :=
  same_attempt f ∧ ∀ st, subtask_status (f st) = subtask_status st.

Lemma execution_same ex : same_status (execution_apply_to ex).
Proof. unfold same_status, same_attempt. by destruct ex as [[] [] [] [] []]. Qed.

Lemma apply_fields_same fresh now partial u : same_status (apply_fields fresh now partial u).
Proof.
  unfold same_status, same_attempt, apply_fields.
  destruct (execution_same (su_execution u)) as [He Hs]. unfold same_attempt in He.
  destruct (su_assigned_worker u), (su_description u), (su_depends_on u), partial, (su_result u); simpl;
    repeat split; intros; simpl; try done;
    try (first [apply He|apply Hs]); try (etrans; [first [apply He|apply Hs]|done]).
Qed.

Lemma apply_status_same u : same_attempt (apply_status u).
Proof. intros st. unfold apply_status. by destruct (subtask_status_from_str _). Qed.

(** ** What a report leaves alone *)

(** A node that has ended keeps its status and its attempt. *)
Definition nodes_kept (l l' : list Subtask) : Prop :=
  ∀ id st, node id l = Some st → subtask_final (subtask_status st) = true →
  ∃ st', node id l' = Some st' ∧ subtask_status st' = subtask_status st ∧
    dispatch_retry_count st' = dispatch_retry_count st.

(** And a task that was paused or has ended keeps its status. *)
Definition control_kept (t t' : Task) : Prop :=
  (task_controlled (tk_status t) = true → tk_status t' = tk_status t) ∧
  nodes_kept (tk_subtasks t) (tk_subtasks t').

Lemma nodes_kept_refl l : nodes_kept l l.
Proof. intros id st Hn _. eauto. Qed.

Lemma nodes_kept_trans l1 l2 l3 : nodes_kept l1 l2 → nodes_kept l2 l3 → nodes_kept l1 l3.
Proof.
  intros H12 H23 id st Hn Hf. destruct (H12 id st Hn Hf) as (st2 & Hn2 & Hs2 & Ha2).
  destruct (H23 id st2 Hn2) as (st3 & Hn3 & Hs3 & Ha3); [by rewrite Hs2|]. exists st3.
  split_and!; congruence.
Qed.

Lemma control_kept_refl t : control_kept t t.
Proof. split; [done|apply nodes_kept_refl]. Qed.

Lemma control_kept_trans t1 t2 t3 : control_kept t1 t2 → control_kept t2 t3 → control_kept t1 t3.
Proof.
  intros [S12 N12] [S23 N23]. split; [|by eapply nodes_kept_trans].
  intros Hc. rewrite S23; [auto|]. by rewrite S12.
Qed.

Lemma nodes_kept_app l k : nodes_kept l (l ++ k).
Proof. intros id st Hn _. exists st. rewrite node_app, Hn. done. Qed.

Lemma nodes_kept_alter f id l :
  same_attempt f →
  (∀ st, node id l = Some st → subtask_final (subtask_status st) = true →
     subtask_status (f st) = subtask_status st) →
  nodes_kept l (alter_first (has_subtask_id id) f l).
Proof.
  intros Ha Hs id' st Hn Hf. rewrite node_alter by (intros ?; apply Ha).
  destruct (decide (id' = id)) as [->|]; [|by eauto]. rewrite Hn. simpl.
  exists (f st). split_and!; [done|by apply Hs|apply Ha].
Qed.

Lemma nodes_kept_fmap f l :
  same_attempt f →
  (∀ st, subtask_final (subtask_status st) = true → subtask_status (f st) = subtask_status st) →
  nodes_kept l (f <$> l).
Proof.
  intros Ha Hs id st Hn Hf. rewrite node_fmap by (intros ?; apply Ha). rewrite Hn. simpl.
  exists (f st). split_and!; [done|by apply Hs|apply Ha].
Qed.

(** An entry agrees with a node when it cannot change what a report must leave alone. *)
Definition entry_agrees (partial : bool) (l : list Subtask) (u : NatsSubtaskUpdate) : Prop :=
  partial = true ∨
  ∀ st, node (su_subtask_id u) l = Some st → subtask_final (subtask_status st) = true →
    subtask_status_from_str (su_status u) = Some (subtask_status st).

Lemma entry_fate_final st u :
  subtask_final (subtask_status st) = true → entry_fate true st u = EntryApplies →
  subtask_status_from_str (su_status u) = Some (subtask_status st) ∧
  (∀ a, su_attempt_id u = Some a → a = dispatch_retry_count st).
Proof.
  intros Hf. unfold entry_fate. rewrite Hf. simpl.
  destruct (bool_decide_reflect (subtask_status_from_str (su_status u) = Some (subtask_status st))) as [E|E].
  - rewrite andb_false_r. destruct (su_attempt_id u) as [a|]; [|by split].
    destruct (Z.eqb_spec a (dispatch_retry_count st)); [|done]. intros _. split; [done|]. by intros ? [= <-].
  - rewrite andb_true_r. destruct (su_attempt_id u) as [a|]; [|done].
    destruct (Z.leb_spec a (dispatch_retry_count st)); [done|].
    destruct (Z.eqb_spec a (dispatch_retry_count st)); [lia|done].
Qed.

Lemma update_entry_kept now partial task_id l x e :
  entry_agrees partial l e.2 → nodes_kept l (loop_subtasks x) →
  nodes_kept l (loop_subtasks (update_entry now partial task_id x e)).
Proof.
  destruct e as [fresh u]. intros Hag Hk. simpl in *.
  fold (node (su_subtask_id u) (loop_subtasks x)).
  destruct (node (su_subtask_id u) (loop_subtasks x)) as [st|] eqn:En;
    [|eapply nodes_kept_trans; [done|apply nodes_kept_app]].
  destruct (entry_fate partial st u) eqn:Ef; [|done..]. simpl.
  intros id st0 Hn Hf. destruct (Hk id st0 Hn Hf) as (st1 & Hn1 & Hs1 & Ha1).
  destruct (apply_fields_same fresh now partial u) as [Ha Hs].
  assert (same_attempt (λ st, apply_fields fresh now partial u (apply_status u st))) as Hboth.
  { intros st'. destruct (Ha (apply_status u st')) as [-> ->]. apply apply_status_same. }
  rewrite node_alter by (intros ?; apply Hboth).
  destruct (decide (id = su_subtask_id u)) as [->|]; [|by eauto].
  rewrite En in Hn1. injection Hn1 as ->. rewrite En. simpl. eexists. split; [done|].
  destruct (Hboth st1) as [_ ->]. split; [|done]. rewrite Hs.
  assert (subtask_status_from_str (su_status u) = Some (subtask_status st1)) as E.
  { destruct Hag as [->|Hag]; [apply entry_fate_final; [by rewrite Hs1|done]|].
    rewrite Hs1. by apply Hag. }
  unfold apply_status. rewrite E. by rewrite <- Hs1.
Qed.

Lemma update_entries_kept now partial task_id l es x :
  (∀ e, e ∈ es → entry_agrees partial l e.2) → nodes_kept l (loop_subtasks x) →
  nodes_kept l (loop_subtasks (foldl (update_entry now partial task_id) x es)).
Proof.
  revert x. induction es as [|e es IH]; intros x Hag Hk; [done|]. simpl.
  apply IH; [set_solver|]. apply update_entry_kept; [set_solver|done].
Qed.

(** A complete snapshot that is not stale agrees with everything that has ended. *)
Lemma fresh_snapshot_agrees t u :
  task_snapshot_stale t u = false →
  (task_controlled (tk_status t) = true → task_status_from_str (tu_status u) = Some (tk_status t)) ∧
  ∀ e, e ∈ tu_subtasks u → entry_agrees false (tk_subtasks t) e.
Proof.
  unfold task_snapshot_stale. intros [Ht Hn]%orb_false_iff. split.
  - intros Hc. rewrite Hc in Ht. simpl in Ht. by apply negb_false_iff, bool_decide_eq_true in Ht.
  - intros e He. right. intros st Hst Hf. rewrite existsb_false in Hn. specialize (Hn e He).
    simpl in Hn. fold (node (su_subtask_id e) (tk_subtasks t)) in Hn. rewrite Hst in Hn.
    unfold node_snapshot_stale in Hn. apply orb_false_iff in Hn as [Hn _]. rewrite Hf in Hn.
    by apply negb_false_iff, bool_decide_eq_true in Hn.
Qed.

Lemma elem_of_imap_pair {A} (fresh : nat → string) (l : list A) e :
  e ∈ imap (λ i x, (fresh i, x)) l → e.2 ∈ l.
Proof. intros (i & x & -> & Hx)%elem_of_lookup_imap. by eapply list_elem_of_lookup_2. Qed.

(** ** The map of tasks through the operations *)

Section Tasks.
Context {S B : Type} `{EventStore S} `{TaskStoreBackend B}.
Implicit Types (s : TaskStore S B).

Lemma tasks_spawn c s : tasks (spawn_call c s) = tasks s.
Proof. unfold spawn_call. by destruct (graph_wired s). Qed.

Lemma tasks_persist t s : tasks (persist_task t s) = tasks s.
Proof. unfold persist_task. rewrite tasks_spawn. by destruct (task_backend s). Qed.

Lemma tasks_record e s : tasks (TaskStore_record_event e s) = tasks s.
Proof. done. Qed.

Lemma tasks_record_all es s : tasks (record_all es s) = tasks s.
Proof. revert s. induction es as [|e es IH]; intros s; [done|]. exact (IH (TaskStore_record_event e s)). Qed.

Lemma tasks_spawn_all f (vs : list (string * Z * PendingGraphVerb)) s :
  tasks (foldl (λ s v, spawn_call (f v) s) s vs) = tasks s.
Proof. revert s. induction vs as [|v vs IH]; intros s; [done|]. simpl. rewrite IH. apply tasks_spawn. Qed.

Lemma tasks_persist_all (l : list Task) s : tasks (foldl (λ s t, persist_task t s) s l) = tasks s.
Proof. revert s. induction l as [|t l IH]; intros s; [done|]. simpl. rewrite IH. apply tasks_persist. Qed.

Lemma tasks_save id t s : tasks (save id t s) = <[id := t]> (tasks s).
Proof. unfold save. by rewrite tasks_persist. Qed.

Lemma tasks_evict_one s id : tasks (evict_one s id) = delete id (tasks s).
Proof. unfold evict_one. by destruct (tasks s !! id). Qed.

Lemma tasks_evict_all (ids : list string) s : tasks (foldl evict_one s ids) ⊆ tasks s.
Proof.
  revert s. induction ids as [|id ids IH]; intros s; [done|]. simpl.
  etrans; [apply IH|]. rewrite tasks_evict_one. apply delete_subseteq.
Qed.

Lemma tasks_run_event_write now s : tasks (run_event_write now s) = tasks s.
Proof. unfold run_event_write. destruct (event_queue s) as [|[]]; [done|]. by destruct (append _ _ _ _). Qed.

Lemma tasks_run_task_write s : tasks (run_task_write s) = tasks s.
Proof.
  unfold run_task_write. destruct (task_queue s), (task_backend s) as [b|]; try done.
  by destruct (backend_update b t).
Qed.
End Tasks.

#[export] Hint Rewrite @tasks_spawn @tasks_persist @tasks_record @tasks_record_all @tasks_spawn_all
  @tasks_persist_all @tasks_save @tasks_evict_one @tasks_run_event_write @tasks_run_task_write : gateway.

(** ** Reports *)

Section Reports.
Context {S B : Type} `{EventStore S} `{TaskStoreBackend B}.
Context (iter : gmap string Task → list (string * Task)).
Implicit Types (s : TaskStore S B).

(** [kept id s s']: the task under [id], where it is still held, is as it must be. *)
Definition kept (id : string) (s s' : TaskStore S B) : Prop :=
  ∀ t t', tasks s !! id = Some t → tasks s' !! id = Some t' → control_kept t t'.

Lemma kept_same id s s' : tasks s' = tasks s → kept id s s'.
Proof. intros E t t' Ht Ht'. rewrite E, Ht in Ht'. injection Ht' as <-. apply control_kept_refl. Qed.

Lemma kept_sub id s s' : tasks s' ⊆ tasks s → kept id s s'.
Proof.
  intros E t t' Ht Ht'. apply (lookup_weaken _ _ _ _ Ht') in E. rewrite Ht in E.
  injection E as <-. apply control_kept_refl.
Qed.

Lemma kept_insert id id' s s' t t1 :
  tasks s !! id' = Some t → tasks s' ⊆ <[id' := t1]> (tasks s) → control_kept t t1 → kept id s s'.
Proof.
  intros Hs Hsub Hk a a' Ha Ha'. apply (lookup_weaken _ _ _ _ Ha') in Hsub.
  destruct (decide (id' = id)) as [->|Hne].
  - rewrite lookup_insert_eq in Hsub. congruence.
  - rewrite lookup_insert_ne in Hsub by done. rewrite Ha in Hsub. injection Hsub as <-.
    apply control_kept_refl.
Qed.

Lemma tasks_evict s : tasks (evict_completed_tasks iter s).2 ⊆ tasks s.
Proof.
  unfold evict_completed_tasks. destruct (_ <=? _); [done|].
  destruct (sort_by _ _); [done|]. apply tasks_evict_all.
Qed.

Lemma settle_controlled v status l : task_controlled status = true → settle_status v status l = status.
Proof. unfold settle_status. by destruct v, status. Qed.

Lemma updated_task_kept fresh now u t times :
  tu_partial u = true ∨ task_snapshot_stale t u = false →
  control_kept t (updated_task now u t (loop_subtasks (update_loop fresh now u t times))).
Proof.
  intros Hok. split.
  - intros Hc. unfold updated_task. simpl.
    assert (default (tk_status t) (if tu_partial u then None else task_status_from_str (tu_status u))
            = tk_status t) as ->; [|by apply settle_controlled].
    destruct (tu_partial u); [done|]. destruct Hok as [?|Hst]; [done|].
    by rewrite (proj1 (fresh_snapshot_agrees t u Hst) Hc).
  - apply update_entries_kept; [|apply nodes_kept_refl].
    intros e He%elem_of_imap_pair. destruct (tu_partial u); [by left|].
    destruct Hok as [?|Hst]; [done|]. by apply (fresh_snapshot_agrees t u Hst).
Qed.

Lemma apply_to_task_tasks fresh now u t s :
  tasks (apply_to_task iter fresh now u t s) ⊆
  <[tu_task_id u := updated_task now u t
      (loop_subtasks (update_loop fresh now u t (assigned_subtask_times s)))]> (tasks s).
Proof.
  unfold apply_to_task. cbv zeta. rewrite tasks_spawn_all, tasks_record_all. cbn [tasks set_stale].
  rewrite tasks_persist. etrans; [apply tasks_evict|done].
Qed.

Lemma apply_update_kept fresh fresh' now u d p id s :
  kept id s (apply_update_with_metadata iter fresh fresh' now u d p s).
Proof.
  unfold apply_update_with_metadata, full_snapshot_is_stale.
  destruct (tasks s !! tu_task_id u) as [t|] eqn:Et.
  - destruct (negb (tu_partial u) && task_snapshot_stale t u) eqn:Est; [by apply kept_same|].
    eapply kept_insert; [done|apply apply_to_task_tasks|]. apply updated_task_kept. apply andb_false_iff in Est as [E|E]; [|by right].
    left. by apply negb_false_iff in E.
  - rewrite andb_false_r. unfold rehydrate.
    destruct (tu_partial u); [by apply kept_same|]. destruct d as [d|]; [|by apply kept_same].
    destruct p as [p|]; [|by apply kept_same]. destruct (d ==? ""); [by apply kept_same|].
    cbn [tasks set_tasks]. rewrite lookup_insert_eq.
    match goal with |- kept _ _ (apply_to_task _ _ _ _ ?t ?s') => pose proof (apply_to_task_tasks fresh now u t s') as Hsub end.
    cbn [tasks set_tasks] in Hsub. rewrite insert_insert_eq in Hsub.
    intros a a' Ha Ha'. apply (lookup_weaken _ _ _ _ Ha') in Hsub.
    destruct (decide (tu_task_id u = id)) as [<-|Hne]; [congruence|].
    rewrite lookup_insert_ne in Hsub by done. cbn in Hsub. rewrite Ha in Hsub. injection Hsub as <-.
    apply control_kept_refl.
Qed.

Lemma check_all_Ok current l incoming :
  check_all current l = Ok tt → incoming ∈ l → check_incoming current incoming = Ok tt.
Proof.
  induction l as [|x l IH]; [by intros _ ?%elem_of_nil|]. simpl.
  destruct (check_incoming current x) as [[]|] eqn:E; [|done]. simpl.
  intros Hr [->|Hin]%elem_of_cons; [done|auto].
Qed.

Lemma project_onto_attempt st : same_attempt (project_onto st).
Proof.
  intros e. unfold project_onto. by destruct (_ ==? _), (depends_on st), (assigned_worker st).
Qed.

Lemma project_onto_status st e : subtask_status (project_onto st e) = subtask_status st.
Proof. unfold project_onto. by destruct (_ ==? _), (depends_on st), (assigned_worker st). Qed.

Lemma upsert_kept current l acc :
  (∀ st, st ∈ l → check_incoming current st = Ok tt) → nodes_kept (tk_subtasks current) acc.1.1 →
  nodes_kept (tk_subtasks current) (foldl upsert_one acc l).1.1.
Proof.
  revert acc. induction l as [|st l IH]; intros [[k moved] added] Hok Hk; [done|]. simpl foldl.
  apply IH; [set_solver|]. simpl in *. fold (node (subtask_id st) k).
  destruct (node (subtask_id st) k) as [e|] eqn:En; simpl;
    [|eapply nodes_kept_trans; [done|apply nodes_kept_app]].
  intros id st0 Hn Hf. destruct (Hk id st0 Hn Hf) as (st1 & Hn1 & Hs1 & Ha1).
  rewrite node_alter by (intros ?; apply project_onto_attempt).
  destruct (decide (id = subtask_id st)) as [->|]; [|by eauto].
  rewrite Hn1. simpl. eexists. split; [done|]. destruct (project_onto_attempt st st1) as [_ ->].
  rewrite project_onto_status. split; [|done].
  specialize (Hok st ltac:(left)). unfold check_incoming in Hok.
  fold (node (subtask_id st) (tk_subtasks current)) in Hok. rewrite Hn in Hok.
  destruct (negb (_ =? _)); [done|]. rewrite Hf in Hok. simpl in Hok.
  destruct (negb (subtask_status st0 ==? subtask_status st)) eqn:E; [done|].
  by apply negb_false_iff, bool_decide_eq_true in E.
Qed.

Lemma update_task_kept fresh now task_id status l d p id s :
  kept id s (update_task fresh now task_id status l d p s).2.
Proof.
  unfold update_task. destruct (proto_status_to_task_status status) as [parsed|]; [|by apply kept_same].
  destruct (tasks s !! task_id) as [t|] eqn:Et.
  - destruct (check_projection (Some t) parsed l) as [[]|] eqn:Ec; [|by apply kept_same].
    rewrite Et. destruct (foldl upsert_one (tk_subtasks t, [], []) l) as [[k moved] added] eqn:Eu.
    simpl in Ec.
    destruct (task_controlled (tk_status t) && negb (tk_status t ==? parsed)) eqn:Ep; [done|].
    cbv beta iota zeta. cbn [snd].
    eapply kept_insert; [done|rewrite tasks_persist, tasks_record_all; simpl; reflexivity|]. split.
    + intros Hc. rewrite Hc in Ep. simpl in Ep. apply negb_false_iff, bool_decide_eq_true in Ep. done.
    + pose proof (upsert_kept t l (tk_subtasks t, [], [])) as Hk. rewrite Eu in Hk. apply Hk.
      * intros st Hst. by apply (check_all_Ok t l).
      * apply nodes_kept_refl.
  - simpl. destruct (d ==? ""); simpl; [rewrite Et; by apply kept_same|].
    rewrite lookup_insert_eq. destruct (foldl upsert_one _ l) as [[k moved] added].
    intros a a' Ha. simpl. rewrite tasks_persist, tasks_record_all. simpl.
    destruct (decide (task_id = id)) as [<-|Hne]; [congruence|].
    rewrite !lookup_insert_ne, Ha by done. intros [= <-]. apply control_kept_refl.
Qed.

Lemma revert_kept now task_id sid r id s : kept id s (revert_swept_subtask now task_id sid r s).2.
Proof.
  unfold revert_swept_subtask. destruct (tasks s !! task_id) as [t|] eqn:Et; [|by apply kept_same].
  fold (node sid (tk_subtasks t)).
  destruct (node sid (tk_subtasks t)) as [st|] eqn:En; [|by apply kept_same].
  destruct (negb (subtask_claimed (subtask_status st))) eqn:Ec; [by apply kept_same|].
  eapply kept_insert; [done|simpl; rewrite tasks_save; simpl; reflexivity|]. split; [done|]. simpl.
  apply nodes_kept_alter; [done|]. intros st' Hn Hf. rewrite En in Hn. injection Hn as <-.
  by destruct (subtask_status st).
Qed.

(** The map after the tasks of [l] were written into it. *)
Lemma insert_all_lookup (l : list (string * Task)) (m : gmap string Task) id t' :
  foldl (λ m x, <[x.1 := x.2]> m) m l !! id = Some t' → m !! id = Some t' ∨ (id, t') ∈ l.
Proof.
  revert m. induction l as [|[i t] l IH]; intros m Hl; [by left|]. simpl in Hl.
  apply IH in Hl as [Hl|Hl]; [|right; set_solver].
  destruct (decide (i = id)) as [->|]; [rewrite lookup_insert_eq in Hl; simplify_eq; right; left|].
  rewrite lookup_insert_ne in Hl by done. by left.
Qed.

Lemma mark_stale_kept now timeout id s :
  (∀ m, iter m ≡ₚ map_to_list m) → kept id s (mark_stale_tasks_failed iter now timeout s).2.
Proof.
  intros Hit. unfold mark_stale_tasks_failed. destruct (last_heartbeat s); [|by apply kept_same].
  destruct (_ <? _); [by apply kept_same|]. cbn [snd].
  intros t t' Ht. rewrite tasks_persist_all. simpl.
  intros [Ht'|Hin]%insert_all_lookup; [rewrite Ht in Ht'; simplify_eq; apply control_kept_refl|].
  apply list_elem_of_fmap in Hin as ([i t0] & [= -> ->] & Hin). apply filterb_elem in Hin as [Hin Ha].
  rewrite Hit, elem_of_map_to_list, Ht in Hin. injection Hin as <-. simpl in *.
  split; [|apply nodes_kept_refl]. unfold task_active in Ha. by destruct (tk_status t).
Qed.

Lemma check_message_tasks now m s : tasks (check_and_record_message_id now m s).2 = tasks s.
Proof.
  unfold check_and_record_message_id. destruct m as [m|]; [|done]. destruct (m ==? ""); [done|].
  destruct (seen_messages s !! m); [done|]. simpl. by destruct (_ <? _).
Qed.

(** What reaches the store without a command: updates and snapshots from the wire,
    projections over gRPC, heartbeats and their monitor, swept attempts, events, and the
    spawned writes. *)
Inductive report : TaskStore S B → TaskStore S B → Prop :=
| RepUpdate fresh fresh' now u d p s : report s (apply_update_with_metadata iter fresh fresh' now u d p s)
| RepMessage now m s : report s (check_and_record_message_id now m s).2
| RepProjection fresh now id status l d p s : report s (update_task fresh now id status l d p s).2
| RepHeartbeat now s : report s (update_last_heartbeat now s)
| RepWorkerHeartbeat now w n s : report s (update_worker_heartbeat now w n s)
| RepStaleTasks now timeout s : report s (mark_stale_tasks_failed iter now timeout s).2
| RepStaleWorkers now timeout s : report s (mark_stale_workers now timeout s).2
| RepSwept now id sid r s : report s (revert_swept_subtask now id sid r s).2
| RepEvent e s : report s (TaskStore_record_event e s)
| RepEventWrite now s : report s (run_event_write now s)
| RepTaskWrite s : report s (run_task_write s).

Lemma report_kept id s s' : (∀ m, iter m ≡ₚ map_to_list m) → report s s' → kept id s s'.
Proof.
  intros Hit [].
  - apply apply_update_kept.
  - apply kept_same, check_message_tasks.
  - apply update_task_kept.
  - by apply kept_same.
  - apply kept_same. unfold update_worker_heartbeat. by destruct n.
  - by apply mark_stale_kept.
  - by apply kept_same.
  - apply revert_kept.
  - by apply kept_same.
  - apply kept_same, tasks_run_event_write.
  - apply kept_same, tasks_run_task_write.
Qed.

Lemma reports_kept id s s' t t' :
  (∀ m, iter m ≡ₚ map_to_list m) →
  rtc (λ a b, report a b ∧ is_Some (tasks b !! id)) s s' →
  tasks s !! id = Some t → tasks s' !! id = Some t' → control_kept t t'.
Proof.
  intros Hit Hrun. revert t. induction Hrun as [s|s1 s2 s3 [Hr [t2 Ht2]] _ IH]; intros t Ht Ht'.
  - rewrite Ht in Ht'. injection Ht' as <-. apply control_kept_refl.
  - eapply control_kept_trans; [by eapply report_kept|]. by apply IH.
Qed.

(** C20: reports cannot undo control.  Along any sequence of reports, late, duplicated or
    reordered, through which the gateway still holds the task, a task that was paused,
    failed or completed keeps that status, and a subtask that failed or completed keeps
    its status and its attempt number. *)
Theorem reports_respect_control id s s' t t' :
  (∀ m, iter m ≡ₚ map_to_list m) →
  rtc (λ a b, report a b ∧ is_Some (tasks b !! id)) s s' →
  tasks s !! id = Some t → tasks s' !! id = Some t' → control_kept t t'.
Proof. apply reports_kept. Qed.
End Reports.
