(* ===== verification/GatewayDurable.v ===== *)
(** * Durability of the gateway's commands

    The write queues of the task store against the contracts of the event log
    ([EventStoreOk]) and of the task backend ([TaskBackendOk]): what a flush that
    succeeds has written, what one that fails leaves behind, and that a lost event is
    never forgotten. *)

From Stdlib Require Import String.
From stdpp Require Import gmap strings.
From S2P Require Import Prelude RustStr Task Events TaskBackend GatewayStore GatewayStoreProps.

Section Durable.
Context {S B : Type} `{HS : EventStoreOk S} `{HB : TaskBackendOk B}.
Implicit Types (s : TaskStore S B) (b : B).

(** *** The task queue *)

(** The writes of a queue, one after the other, and the answer of the last. *)
Fixpoint write_tasks (q : list Task) (err : option string) b : option string * B :=
  match q with
  | [] => (err, b)
  | t :: q =>
      let '(r, b') := backend_update b t in
      write_tasks q (match r with Err e => Some (EngineError_display e) | Ok _ => None end) b'
  end.

Lemma run_tasks_spec q s b :
  task_queue s = q → task_backend s = Some b →
  Nat.iter (length q) run_task_write s
  = set_tasks_out (Some (write_tasks q (task_error s) b).2) []
      (write_tasks q (task_error s) b).1 s.
Proof.
  revert s b. induction q as [|t q IH]; intros s b Hq Hb; simpl length.
  { destruct s; simpl in *; by subst. }
  rewrite Nat.iter_succ_r. unfold run_task_write at 2. rewrite Hq, Hb. simpl.
  destruct (backend_update b t) as [r b'] eqn:Hu. by rewrite (IH _ b').
Qed.

(** A write keeps the backend well formed, and the record it writes when it is accepted. *)
Lemma write_one b t r b' :
  backend_wf b → storable_task t → backend_update b t = (r, b') →
  backend_wf b' ∧ (∀ x, r = Ok x → ∃ t', stored b' !! tk_id t = Some t' ∧ same_record t' t).
Proof.
  intros Hwf Ht Hu. destruct r as [x|e].
  - destruct (update_accepted _ _ _ _ Hwf Ht Hu) as (Hwf' & t' & Hst & Hsame).
    split; [done|]. intros ? _. exists t'. by rewrite Hst, lookup_insert_eq.
  - apply update_refused in Hu as ->. by split.
Qed.

Lemma write_tasks_app q t err b :
  write_tasks (q ++ [t]) err b
  = let '(r, b') := backend_update (write_tasks q err b).2 t in
    (match r with Err e => Some (EngineError_display e) | Ok _ => None end, b').
Proof.
  revert err b. induction q as [|t0 q IH]; intros err b; simpl.
  - by destruct (backend_update b t).
  - destruct (backend_update b t0) as [r b']. by rewrite IH.
Qed.

Lemma write_tasks_wf q err b :
  Forall storable_task q → backend_wf b → backend_wf (write_tasks q err b).2.
Proof.
  intros Hq. revert err b. induction Hq as [|t q Ht _ IH]; intros err b Hwf; [done|]. simpl.
  destruct (backend_update b t) as [r b'] eqn:Hu. by apply IH, (write_one _ _ _ _ Hwf Ht Hu).
Qed.

Lemma write_tasks_last q t err b b' :
  Forall storable_task (q ++ [t]) → backend_wf b → write_tasks (q ++ [t]) err b = (None, b') →
  ∃ t', stored b' !! tk_id t = Some t' ∧ same_record t' t.
Proof.
  rewrite Forall_app, Forall_singleton. intros [Hq Ht] Hwf. rewrite write_tasks_app.
  destruct (backend_update _ t) as [r b0] eqn:Hu. destruct r as [x|e]; [|done]. intros [= <-].
  by apply (write_one _ _ _ _ (write_tasks_wf q err b Hq Hwf) Ht Hu) with (x := x).
Qed.

(** *** The event queue *)

Fixpoint write_events (now : Instant) (q : list (string * AgentEventType)) (err : option string)
    (log : S) : option string * S :=
  match q with
  | [] => (err, log)
  | (subject, event) :: q =>
      let '(r, log') := append now log subject event in
      write_events now q
        (match err, r with
         | Some e, _ => Some e
         | None, Err e => Some (EngineError_display e)
         | None, Ok _ => None
         end) log'
  end.

Lemma run_events_spec now q s :
  event_queue s = q →
  Nat.iter (length q) (run_event_write now) s
  = set_events_out (write_events now q (event_error s) (event_log s)).2 []
      (write_events now q (event_error s) (event_log s)).1 s.
Proof.
  revert s. induction q as [|[subject event] q IH]; intros s Hq; simpl length.
  { destruct s; simpl in *; by subst. }
  rewrite Nat.iter_succ_r. unfold run_event_write at 2. rewrite Hq. simpl.
  destruct (append now (event_log s) subject event) as [r log'] eqn:Ha. by rewrite IH.
Qed.

(** An error of the event log stays. *)
Lemma write_events_sticky now q e log : (write_events now q (Some e) log).1 = Some e.
Proof.
  revert log. induction q as [|[subject event] q IH]; intros log; [done|]. simpl.
  destruct (append now log subject event). apply IH.
Qed.

(** The queued events of a subject, in order. *)
Definition queued (subject : string) (q : list (string * AgentEventType)) : list AgentEventType :=
  (filterb (λ x, x.1 ==? subject) q).*2.

Definition payloads (log : S) (subject : string) : list AgentEventType :=
  event_payload <$> stream log subject.

Lemma write_events_all now q log log' :
  events_wf log → room log (length q) → write_events now q None log = (None, log') →
  ∀ subject, payloads log' subject = payloads log subject ++ queued subject q.
Proof.
  revert log. induction q as [|[subject event] q IH]; intros log Hwf Hroom; simpl.
  { intros [= <-] subject. by rewrite app_nil_r. }
  destruct (append now log subject event) as [[o|e] log1] eqn:Ha; [|by rewrite (surjective_pairing (write_events _ _ _ _)), write_events_sticky].
  intros Hw subject'. destruct (append_ok _ _ _ _ _ _ _ Hwf Hroom Ha) as (Hwf1 & Hroom1 & _ & Hne & Heq).
  rewrite (IH _ Hwf1 Hroom1 Hw). unfold queued, filterb. simpl.
  destruct (subject ==? subject') eqn:E; simpl.
  - apply bool_decide_eq_true in E as <-. destruct Heq as [[_ Hno]|(o' & _ & Hst & _)]; [by destruct (Hno o)|].
    unfold payloads. by rewrite Hst, fmap_app, <- app_assoc.
  - apply bool_decide_eq_false in E. unfold payloads. by rewrite Hne.
Qed.

(** *** Flushing *)

(** A command that leaves its task in the queue, after writes that are still pending. *)
Lemma flush_spec now id s b :
  task_backend s = Some b →
  let w := write_tasks (task_queue s) (task_error s) b in
  let e := write_events now (event_queue s) (event_error s) (event_log s) in
  let s1 := set_tasks_out (Some w.2) [] w.1 (set_faults ({[id]} ∪ durability_faults s) s) in
  flush_task_state now id s
  = match w.1 with
    | Some err => (Err err, s1)
    | None =>
        let s2 := set_events_out e.2 [] e.1 s1 in
        match e.1 with
        | Some err => (Err err, s2)
        | None => (Ok tt, set_faults (durability_faults s2 ∖ {[id]}) s2)
        end
    end.
Proof.
  intros Hb w e s1. unfold flush_task_state, await_tasks.
  rewrite (run_tasks_spec (task_queue s) _ b) by done. cbn [task_error set_tasks_out set_faults].
  fold w s1. destruct w.1; [done|].
  unfold await_events. rewrite (run_events_spec now (event_queue s)) by done.
  cbn [event_error event_log set_events_out]. subst s1 e. simpl.
  by destruct (write_events _ _ _ _).1.
Qed.

(** The task is only written to the queue of a store that has a backend. *)
Lemma queue_persist t s b :
  task_backend s = Some b → task_queue (persist_task t s) = task_queue s ++ [t].
Proof. intros Hb. unfold persist_task. rewrite Hb. unfold spawn_call. by destruct (graph_wired _). Qed.

Lemma backend_persist t s : task_backend (persist_task t s) = task_backend s.
Proof. unfold persist_task, spawn_call. destruct (task_backend s) eqn:E; by destruct (graph_wired _). Qed.

Lemma events_persist t s :
  event_queue (persist_task t s) = event_queue s ∧ event_error (persist_task t s) = event_error s ∧
  event_log (persist_task t s) = event_log s.
Proof. unfold persist_task, spawn_call. destruct (task_backend s) eqn:E; by destruct (graph_wired _). Qed.

(** C22: a flush answers for what it flushed.  When it accepts a command that persisted a
    task, the backend holds the task as the command left it, no write is left in a
    queue, every queued event is in the log under its subject, in order, and the task is
    dispatched again. *)
Theorem flush_is_durable now t s b s' :
  task_backend s = Some b → backend_wf b → Forall storable_task (task_queue s ++ [t]) →
  events_wf (event_log s) → room (event_log s) (length (event_queue s)) →
  flush_task_state now (tk_id t) (persist_task t s) = (Ok tt, s') →
  (∃ b' t', task_backend s' = Some b' ∧ stored b' !! tk_id t = Some t' ∧ same_record t' t) ∧
  task_queue s' = [] ∧ event_queue s' = [] ∧ tk_id t ∉ durability_faults s' ∧
  ∀ subject, payloads (event_log s') subject
             = payloads (event_log s) subject ++ queued subject (event_queue s).
Proof.
  intros Hb Hwf Hq Hlog Hroom. rewrite (flush_spec _ _ _ b) by (by rewrite backend_persist).
  destruct (events_persist t s) as (-> & -> & ->). rewrite (queue_persist _ _ b) by done.
  destruct (write_tasks _ _ b) as [[e|] b'] eqn:Hw; [done|]. simpl.
  destruct (write_events _ _ _ _) as [[e|] log'] eqn:He; [done|]. simpl. intros [= <-]. simpl.
  split_and!; try done; [|set_solver|].
  - destruct (write_tasks_last _ _ _ _ _ Hq Hwf Hw) as (t' & ? & ?). by exists b', t'.
  - destruct (event_error s) as [e|]; [|by apply write_events_all with (now := now)].
    by rewrite (surjective_pairing (write_events _ _ _ _)), write_events_sticky in He.
Qed.

(** A flush that fails keeps the task from being dispatched. *)
Lemma failed_flush now id s e s' :
  flush_task_state now id s = (Err e, s') → id ∈ durability_faults s'.
Proof.
  assert (Hf : ∀ n f (s : TaskStore S B), (∀ s, durability_faults (f s) = durability_faults s) →
    durability_faults (Nat.iter n f s) = durability_faults s).
  { intros n f s1 Hf. induction n as [|n IH]; [done|]. simpl. by rewrite Hf. }
  unfold flush_task_state, await_tasks, await_events.
  destruct (task_error _); [|destruct (event_error _); [|done]];
    intros [= _ <-]; rewrite ?Hf; simpl; try set_solver;
    intros s2; unfold run_task_write, run_event_write; repeat case_match; by simplify_eq.
Qed.

Lemma no_dispatch id s : id ∈ durability_faults s → get_ready_subtasks id s = [].
Proof.
  intros Hid. unfold get_ready_subtasks. destruct (tasks s !! id); [|done].
  rewrite (bool_decide_eq_true_2 _ Hid). by rewrite orb_true_r.
Qed.
End Durable.

(** ** Steps of the store *)

Section Steps.
Context {S B : Type} `{EventStore S} `{TaskStoreBackend B}.
Context (iter : gmap string Task → list (string * Task)).
Implicit Types (s : TaskStore S B) (P : TaskStore S B → Prop).

(** Every operation: the reports, the commands, dispatch and recovery. *)
Inductive store_step : TaskStore S B → TaskStore S B → Prop :=
| StepReport s s' : report iter s s' → store_step s s'
| StepSubmit id sid w now d p s : store_step s (submit_task id sid w now d p s).2
| StepSubmitPending now id d p s : store_step s (submit_task_pending_with_id now id d p s).2
| StepPause now id s : store_step s (pause_task now id s).2
| StepResume now id s : store_step s (resume_task now id s).2
| StepCancel now id s : store_step s (cancel_task now id s).2
| StepRetry now id sid n s : store_step s (retry_subtask now id sid n s).2
| StepFail now id ids s : store_step s (fail_subtasks now id ids s).2
| StepSubtask now id sid st s : store_step s (update_subtask_status now id sid st s)
| StepAttempt now id sid s : store_step s (increment_dispatch_retry now id sid s).2
| StepStatus now id st s : store_step s (set_task_status now id st s).2
| StepEvict s : store_step s (evict_completed_tasks iter s).2
| StepLoad s : store_step s (load_from_backend s).2
| StepFlush now id s : store_step s (flush_task_state now id s).2
| StepFlushEvents now s : store_step s (flush_task_events now s).2
| StepConfirm now g id s : store_step s (confirm_terminal_update now g id s).2.

(** The map's keys are the tasks' ids. *)
Definition keys_match s : Prop := ∀ id t, tasks s !! id = Some t → tk_id t = id.

(** What the operations are made of. *)
Record closed P : Prop := mkClosed {
  closed_keys : ∀ s, P s → keys_match s;
  closed_insert : ∀ id t s, P s → tk_id t = id → P (set_tasks (<[id := t]> (tasks s)) s);
  closed_delete : ∀ id s, P s → P (set_tasks (delete id (tasks s)) s);
  closed_record : ∀ e subject s, P s → P (record_event_with_subject e subject s);
  closed_persist : ∀ t s, P s → P (persist_task t s);
  closed_spawn : ∀ c s, P s → P (spawn_call c s);
  closed_assigned : ∀ m s, P s → P (set_assigned m s);
  closed_seen : ∀ m s, P s → P (set_seen m s);
  closed_stale : ∀ a b s, P s → P (set_stale (u64_add a b) s);
  closed_heartbeat : ∀ h s, P s → P (set_heartbeat h s);
  closed_worker_heartbeats : ∀ m s, P s → P (set_worker_heartbeats m s);
  closed_worker_stale : ∀ m s, P s → P (set_worker_stale m s);
  closed_faults : ∀ m s, P s → P (set_faults m s);
  closed_event_write : ∀ now s, P s → P (run_event_write now s);
  closed_task_write : ∀ s, P s → P (run_task_write s)
}.

Section Closed.
Context (P : TaskStore S B → Prop) (HP : closed P).

Lemma closed_set m id t s :
  m = tasks s → P s → tk_id t = id → P (set_tasks (<[id := t]> m) s).
Proof. intros ->. apply (closed_insert _ HP). Qed.

Lemma closed_id id t s : P s → tasks s !! id = Some t → tk_id t = id.
Proof. intros Hs. apply (closed_keys _ HP s Hs). Qed.

Ltac same_id :=
  match goal with
  | Hs : P ?s, Ht : tasks ?s !! _ = Some ?t |- _ => exact (closed_id _ t s Hs Ht)
  end.

(** Takes a state apart into the steps it is made of. *)
Ltac close :=
  repeat match goal with
    | |- P (spawn_call _ _) => apply (closed_spawn _ HP)
    | |- P (persist_task _ _) => apply (closed_persist _ HP)
    | |- P (TaskStore_record_event _ _) => apply (closed_record _ HP)
    | |- P (record_event_with_subject _ _ _) => apply (closed_record _ HP)
    | |- P (set_assigned _ _) => apply (closed_assigned _ HP)
    | |- P (set_seen _ _) => apply (closed_seen _ HP)
    | |- P (set_stale _ _) => apply (closed_stale _ HP)
    | |- P (set_heartbeat _ _) => apply (closed_heartbeat _ HP)
    | |- P (set_worker_heartbeats _ _) => apply (closed_worker_heartbeats _ HP)
    | |- P (set_worker_stale _ _) => apply (closed_worker_stale _ HP)
    | |- P (set_faults _ _) => apply (closed_faults _ HP)
    | |- P (run_event_write _ _) => apply (closed_event_write _ HP)
    | |- P (run_task_write _) => apply (closed_task_write _ HP)
    | |- P (set_tasks (<[_ := _]> _) _) => apply closed_set; [done| |]
    | |- P (set_tasks (delete _ _) _) => apply (closed_delete _ HP)
    | |- P _ => assumption
    end.

Lemma closed_fold {A} (f : TaskStore S B → A → TaskStore S B) l s :
  (∀ s x, x ∈ l → P s → P (f s x)) → P s → P (foldl f s l).
Proof.
  revert s. induction l as [|x l IH]; intros s Hf Hs; [done|]. simpl.
  apply IH; [intros; apply Hf; [by right|done]|]. apply Hf; [by left|done].
Qed.

Lemma closed_iter n f s : (∀ s, P s → P (f s)) → P s → P (Nat.iter n f s).
Proof. intros Hf Hs. induction n as [|n IH]; [done|]. by apply Hf. Qed.

Lemma closed_save id t s : P s → tk_id t = id → P (save id t s).
Proof. intros Hs Ht. unfold save. by close. Qed.

Lemma closed_record_all es s : P s → P (record_all es s).
Proof. apply closed_fold. intros. by close. Qed.

Lemma closed_again id t m s : P (set_tasks m s) → tk_id t = id → P (set_tasks (<[id := t]> m) s).
Proof. intros Hs Ht. exact (closed_insert _ HP id t (set_tasks m s) Hs Ht). Qed.

Lemma closed_inserts (l : list (string * Task)) s :
  (∀ id t, (id, t) ∈ l → tk_id t = id) →
  P s → P (set_tasks (foldl (λ m x, <[x.1 := x.2]> m) (tasks s) l) s).
Proof.
  intros Hl Hs. assert (Hm : P (set_tasks (tasks s) s)) by (by destruct s).
  revert Hm. generalize (tasks s) as m.
  induction l as [|[id t] l IH]; intros m Hm; simpl; [done|].
  apply IH; [intros id' t' Hin; apply Hl; by right|].
  apply closed_again; [done|]. apply Hl. by left.
Qed.

Lemma closed_evict s : P s → P (evict_completed_tasks iter s).2.
Proof.
  intros Hs. unfold evict_completed_tasks. destruct (_ <=? _); [done|].
  destruct (sort_by _ _) as [|x l]; [done|]. simpl. apply closed_fold; [|done].
  intros s1 id _ Hs1. unfold evict_one. destruct (tasks s1 !! id); close.
Qed.

Lemma closed_apply_to fresh now u t s :
  P s → tk_id t = tu_task_id u → P (apply_to_task iter fresh now u t s).
Proof.
  intros Hs Ht. unfold apply_to_task.
  apply closed_fold; [intros; close|]. apply closed_record_all.
  apply (closed_stale _ HP), (closed_persist _ HP), closed_evict. by close.
Qed.

Lemma closed_update fresh fresh' now u d p s :
  P s → P (apply_update_with_metadata iter fresh fresh' now u d p s).
Proof.
  intros Hs. unfold apply_update_with_metadata. destruct (full_snapshot_is_stale u s); [done|].
  destruct (tasks s !! tu_task_id u) as [t|] eqn:Ht.
  { apply closed_apply_to; [done|]. by apply (closed_id _ _ s). }
  unfold rehydrate. destruct (tu_partial u); [done|]. destruct d as [d|], p as [p|]; try done.
  destruct (d ==? ""); [done|]. cbn [tasks set_tasks]. rewrite lookup_insert_eq.
  apply closed_apply_to; [|done]. by close.
Qed.

Lemma closed_projection fresh now id status l d p s :
  P s → P (update_task fresh now id status l d p s).2.
Proof.
  intros Hs. unfold update_task. destruct (proto_status_to_task_status status) as [parsed|]; [|done].
  destruct (check_projection _ _ _); [|done].
  destruct (tasks s !! id) as [t|] eqn:Ht.
  - rewrite Ht. destruct (foldl upsert_one _ l) as [[l' moved] added]. simpl. close.
    apply closed_record_all. close. by apply (closed_id id t s).
  - destruct (d ==? ""); [by rewrite Ht|]. cbn [tasks set_tasks]. rewrite lookup_insert_eq.
    destruct (foldl upsert_one _ l) as [[l' moved] added]. cbn [snd]. close.
    apply closed_record_all.
    by close.
Qed.

Lemma closed_report s s' : (∀ m, iter m ≡ₚ map_to_list m) → P s → report iter s s' → P s'.
Proof.
  intros Hit Hs Hr. destruct Hr.
  - by apply closed_update.
  - unfold check_and_record_message_id. repeat case_match; simpl; try done; unfold purge_expired_dedup_entries; by close.
  - by apply closed_projection.
  - unfold update_last_heartbeat. by close.
  - unfold update_worker_heartbeat. destruct n; by close.
  - unfold mark_stale_tasks_failed. destruct (last_heartbeat s); [|done]. destruct (_ <? _); [done|].
    cbn [snd]. apply closed_fold; [intros; by close|]. apply closed_inserts; [|done].
    intros id t (x & [= -> ->] & [Hin _]%filterb_elem)%list_elem_of_fmap.
    rewrite Hit in Hin. destruct x as [i t0]. apply elem_of_map_to_list in Hin. simpl.
    by eapply (closed_id _ _ s).
  - by apply (closed_worker_heartbeats _ HP).
  - unfold revert_swept_subtask. repeat case_match; simpl; try done;
      (apply closed_save; [by close|same_id]).
  - by close.
  - by close.
  - by close.
Qed.

Lemma closed_await_tasks s : P s → P (await_tasks s).2.
Proof. apply closed_iter. intros; by close. Qed.

Lemma closed_await_events now s : P s → P (await_events now s).2.
Proof. apply closed_iter. intros; by close. Qed.

Lemma closed_flush now id s : P s → P (flush_task_state now id s).2.
Proof.
  intros Hs. unfold flush_task_state.
  pose proof (closed_await_tasks (set_faults ({[id]} ∪ durability_faults s) s)
                (closed_faults _ HP _ _ Hs)) as H1.
  destruct (await_tasks _) as [[e|] s1]; [done|].
  pose proof (closed_await_events now s1 H1) as H2.
  destruct (await_events now s1) as [[e|] s2]; [done|]. simpl in *. by close.
Qed.

Lemma closed_flush_events now s : P s → P (flush_task_events now s).2.
Proof.
  intros Hs%(closed_await_events now). unfold flush_task_events.
  by destruct (await_events now s) as [[e|] s1].
Qed.

Lemma closed_confirm now g id s : P s → P (confirm_terminal_update now g id s).2.
Proof.
  intros Hs. unfold confirm_terminal_update. destruct (negb g); [done|].
  destruct (task_backend s) as [b|]; [|done]. destruct (negb _); [done|].
  destruct (tasks s !! id) as [t|]; [|done].
  pose proof (closed_await_tasks (persist_task t s) (closed_persist _ HP _ _ Hs)) as H1.
  destruct (await_tasks _) as [[e|] s1]; [done|].
  pose proof (closed_flush_events now s1 H1) as H2. by destruct (flush_task_events now s1) as [[]].
Qed.

Lemma closed_step s s' : (∀ m, iter m ≡ₚ map_to_list m) → P s → store_step s s' → P s'.
Proof.
  intros Hit Hs Hstep. destruct Hstep.
  - by eapply closed_report.
  - unfold submit_task, persist_new_task. simpl. by close.
  - unfold submit_task_pending_with_id, persist_new_task. simpl. by close.
  - unfold pause_task. repeat case_match; simpl; try done; (apply closed_save; [done|same_id]).
  - unfold resume_task. repeat case_match; simpl; try done; (apply closed_save; [done|same_id]).
  - unfold cancel_task. repeat case_match; simpl; try done; (apply closed_save; [by close|same_id]).
  - unfold retry_subtask. repeat case_match; simpl; try done; (close; same_id).
  - unfold fail_subtasks. repeat case_match; simpl; try done; try (by close);
      (apply closed_save; [by close|same_id]).
  - unfold update_subtask_status. repeat case_match; simpl; try done; close; same_id.
  - unfold increment_dispatch_retry. repeat case_match; simpl; try done; (apply closed_save; [done|same_id]).
  - unfold set_task_status. repeat case_match; simpl; try done; (apply closed_save; [done|same_id]).
  - by apply closed_evict.
  - unfold load_from_backend. repeat case_match; simpl; try done.
    rewrite <- (foldl_fmap (λ m (x : string * Task), <[x.1 := x.2]> m) (tasks s) _ (λ t, (tk_id t, t))).
    apply closed_inserts; [|done]. by intros id t (x & [= -> ->] & _)%list_elem_of_fmap.
  - by apply closed_flush.
  - by apply closed_flush_events.
  - by apply closed_confirm.
Qed.
End Closed.

(** *** Invariants of every run *)

(** What a write or a spawn leaves alone. *)
Lemma persist_frame t s :
  tasks (persist_task t s) = tasks s ∧ inline_events (persist_task t s) = inline_events s ∧
  event_error (persist_task t s) = event_error s ∧
  stale_dispatch_dropped (persist_task t s) = stale_dispatch_dropped s.
Proof. unfold persist_task, spawn_call. repeat case_match; by simplify_eq. Qed.

Lemma spawn_frame c s :
  tasks (spawn_call c s) = tasks s ∧ inline_events (spawn_call c s) = inline_events s ∧
  event_error (spawn_call c s) = event_error s ∧
  stale_dispatch_dropped (spawn_call c s) = stale_dispatch_dropped s.
Proof. unfold spawn_call. by case_match. Qed.

Lemma task_write_frame s :
  tasks (run_task_write s) = tasks s ∧ inline_events (run_task_write s) = inline_events s ∧
  event_error (run_task_write s) = event_error s ∧
  stale_dispatch_dropped (run_task_write s) = stale_dispatch_dropped s.
Proof. unfold run_task_write. repeat case_match; by simplify_eq. Qed.

Lemma event_write_frame now s :
  tasks (run_event_write now s) = tasks s ∧ inline_events (run_event_write now s) = inline_events s ∧
  stale_dispatch_dropped (run_event_write now s) = stale_dispatch_dropped s ∧
  (∀ e, event_error s = Some e → event_error (run_event_write now s) = Some e).
Proof.
  unfold run_event_write. destruct (event_queue s) as [|[subject event] q]; [done|].
  destruct (append _ _ _ _) as [r log]. simpl. split_and!; try done. by intros e ->.
Qed.

Lemma keys_insert id t s :
  keys_match s → tk_id t = id → keys_match (set_tasks (<[id := t]> (tasks s)) s).
Proof. intros Hk Ht id' t'. simpl. intros [[<- <-]|[_ ?]]%lookup_insert_Some; auto. Qed.

Lemma keys_delete id s : keys_match s → keys_match (set_tasks (delete id (tasks s)) s).
Proof. intros Hk id' t'. simpl. intros [_ ?]%lookup_delete_Some; auto. Qed.

Definition store_bounds s : Prop :=
  keys_match s ∧ Z.of_nat (length (inline_events s)) <= INLINE_EVENTS_MAX ∧
  0 <= stale_dispatch_dropped s < 2 ^ 64.

Lemma store_bounds_closed : closed store_bounds.
Proof.
  constructor; unfold store_bounds; try done.
  - tauto.
  - intros id t s (Hk & Hl & Hd) ?. refine (conj _ (conj Hl Hd)). by apply keys_insert.
  - intros id s (Hk & Hl & Hd). refine (conj _ (conj Hl Hd)). by apply keys_delete.
  - intros e subject s (Hk & Hl & Hd). refine (conj Hk (conj _ Hd)). simpl.
    rewrite length_drop, length_app. simpl. unfold INLINE_EVENTS_MAX in *. lia.
  - intros t s. unfold keys_match. by destruct (persist_frame t s) as (-> & -> & _ & ->).
  - intros c s. unfold keys_match. by destruct (spawn_frame c s) as (-> & -> & _ & ->).
  - intros a b s (Hk & Hl & _). refine (conj Hk (conj Hl _)). by apply Z.mod_pos_bound.
  - intros now s. unfold keys_match. by destruct (event_write_frame now s) as (-> & -> & -> & _).
  - intros s. unfold keys_match. by destruct (task_write_frame s) as (-> & -> & _ & ->).
Qed.

Definition lost_event (e : string) s : Prop := keys_match s ∧ event_error s = Some e.

Lemma lost_event_closed e : closed (lost_event e).
Proof.
  constructor; unfold lost_event; try done.
  - tauto.
  - intros id t s (?&?) ?. split; [|done]. by apply keys_insert.
  - intros id s (?&?). split; [|done]. by apply keys_delete.
  - intros t s. unfold keys_match. by destruct (persist_frame t s) as (-> & _ & -> & _).
  - intros c s. unfold keys_match. by destruct (spawn_frame c s) as (-> & _ & -> & _).
  - intros now s [? He]. unfold keys_match. destruct (event_write_frame now s) as (-> & _ & _ & Hw).
    auto.
  - intros s. unfold keys_match. by destruct (task_write_frame s) as (-> & _ & -> & _).
Qed.

Lemma closed_run P s s' :
  closed P → (∀ m, iter m ≡ₚ map_to_list m) → rtc store_step s s' → P s → P s'.
Proof. intros HP Hit. induction 1 as [|s1 s2 s3 Hs _ IH]; [done|]. intros. by eapply IH, closed_step. Qed.

Lemma new_store_bounds log backend wired : store_bounds (TaskStore_with log backend wired).
Proof. refine (conj _ (conj _ _)); [by intros id t; simpl; rewrite lookup_empty|done..]. Qed.

(** Whatever the operations and their order, from a new store every task is kept
    under its own id, the log in memory never exceeds its cap, and the counter of
    rejected reports stays a [u64]. *)
Theorem store_stays_bounded log backend wired s :
  (∀ m, iter m ≡ₚ map_to_list m) →
  rtc store_step (TaskStore_with log backend wired) s → store_bounds s.
Proof.
  intros Hit Hrun. eapply closed_run; [apply store_bounds_closed|done..|apply new_store_bounds].
Qed.

Lemma await_events_lost now e s : event_error s = Some e → (await_events now s).1 = Some e.
Proof.
  intros He. unfold await_events. simpl. generalize (length (event_queue s)) as n.
  intros n. induction n as [|n IH]; [done|]. simpl.
  by destruct (event_write_frame now (Nat.iter n (run_event_write now) s)) as (_ & _ & _ & Hw); auto.
Qed.

Lemma await_tasks_error s : event_error (await_tasks s).2 = event_error s.
Proof.
  unfold await_tasks. simpl. generalize (length (task_queue s)) as n. intros n.
  induction n as [|n IH]; [done|]. simpl.
  by destruct (task_write_frame (Nat.iter n run_task_write s)) as (_ & _ & -> & _).
Qed.

(** C23: once the log has lost an event, history is never certified again.  After any
    sequence of operations every flush fails and leaves its task out of dispatch, and no
    terminal update is confirmed to its sender. *)
Theorem lost_event_never_certified e s s' now id :
  (∀ m, iter m ≡ₚ map_to_list m) → keys_match s → event_error s = Some e → rtc store_step s s' →
  (∃ err s1, flush_task_state now id s' = (Err err, s1) ∧ get_ready_subtasks id s1 = []) ∧
  (flush_task_events now s').1 = Err (ConnectionError e) ∧
  (∀ g, (confirm_terminal_update now g id s').1 = false).
Proof.
  intros Hit Hk He Hrun.
  destruct (closed_run (lost_event e) s s' (lost_event_closed e) Hit Hrun (conj Hk He)) as [_ He'].
  split_and!.
  - destruct (flush_task_state now id s') as [[[]|err] s1] eqn:Hf.
    + exfalso. unfold flush_task_state in Hf.
      destruct (await_tasks _) as [[x|] s2] eqn:Ha; [done|].
      pose proof (await_tasks_error (set_faults ({[id]} ∪ durability_faults s') s')) as E.
      rewrite Ha in E. simpl in E. rewrite He' in E. apply (await_events_lost now) in E.
      destruct (await_events now s2) as [[x|] s3]; [done|]. by simpl in E.
    + exists err, s1. split; [done|]. eapply no_dispatch, failed_flush, Hf.
  - unfold flush_task_events. apply (await_events_lost now) in He'.
    destruct (await_events now s') as [[x|] s1]; simpl in *; congruence.
  - intros g. unfold confirm_terminal_update. destruct (negb g); [done|].
    destruct (task_backend s') as [b|]; [|done]. destruct (negb _); [done|].
    destruct (tasks s' !! id) as [t|]; [|done].
    destruct (await_tasks _) as [[x|] s1] eqn:Ha; [done|].
    pose proof (await_tasks_error (persist_task t s')) as E. rewrite Ha in E. simpl in E.
    destruct (persist_frame t s') as (_ & _ & Hp & _). rewrite Hp, He' in E.
    unfold flush_task_events. apply (await_events_lost now) in E.
    destruct (await_events now s1) as [[x|] s2]; simpl in *; congruence.
Qed.
End Steps.
