(* ===== verification/GatewayFence.v ===== *)
(** * Attempts, messages and retention in the gateway's task store

    A retry is a compare-and-set on the attempt number, after which nothing that names
    an older attempt reaches the node; a message is applied once within its window; the
    map of tasks is bounded by dropping the oldest tasks that have ended. *)

From Stdlib Require Import String Sorted.
From stdpp Require Import gmap strings.
From S2P Require Import Prelude RustStr Task Events TaskBackend GatewayStore GatewayStoreProps GatewayDurable.

(** ** Fencing *)

(** The node a spawned call of an update is about. *)
Definition call_node (c : GraphCall) : option string :=
  match c with
  | CallShadow _ => None
  | CallSchedule _ n _ _ | CallHeartbeat _ n _ | CallCommit _ n _ _ _ _ | CallFail _ n _ _ => Some n
  end.

(** No entry of the report speaks for the attempt [a] of the node. *)
Definition not_for (nid : string) (a : Z) (es : list NatsSubtaskUpdate) : Prop :=
  ∀ e, e ∈ es → su_subtask_id e = nid → su_attempt_id e ≠ Some a.

(** Every entry of the report on the node is stamped with an attempt before [a]. *)
Definition only_older (nid : string) (a : Z) (es : list NatsSubtaskUpdate) : Prop :=
  ∀ e, e ∈ es → su_subtask_id e = nid → ∃ b, su_attempt_id e = Some b ∧ b < a.

Lemma only_older_not_for nid a es : only_older nid a es → not_for nid a es.
Proof. intros Ho e He Hid. destruct (Ho e He Hid) as (b & -> & ?). intros [= ->]. lia. Qed.

Lemma entry_fate_fenced st e :
  0 < dispatch_retry_count st → su_attempt_id e ≠ Some (dispatch_retry_count st) →
  entry_fate true st e ≠ EntryApplies.
Proof.
  intros Hpos Hne. unfold entry_fate. simpl. destruct (_ && _ && _); [done|].
  destruct (su_attempt_id e) as [a|].
  - destruct (Z.eqb_spec a (dispatch_retry_count st)) as [->|]; [done|discriminate].
  - by destruct (Z.ltb_spec 0 (dispatch_retry_count st)); [discriminate|lia].
Qed.

(** What the loop has left of a fenced node. *)
Definition fenced (nid : string) (st : Subtask) (times : gmap string Instant) (x : UpdateLoop) : Prop :=
  node nid (loop_subtasks x) = Some st ∧ loop_assigned x !! nid = times !! nid ∧
  Forall (λ v, v.1.1 ≠ nid) (loop_verbs x).

Lemma track_assigned_ne now id id' old new times :
  id ≠ id' → track_assigned now id old new times !! id' = times !! id'.
Proof.
  intros Hne. unfold track_assigned.
  repeat case_match; by rewrite ?lookup_delete_ne, ?lookup_insert_ne.
Qed.

Lemma nats_subtask_id fresh now task_id u :
  subtask_id (nats_subtask_to_domain fresh now task_id u) = su_subtask_id u.
Proof. unfold nats_subtask_to_domain. by etrans; [apply execution_same|]. Qed.

Lemma update_entry_fenced now task_id nid st times x e :
  0 < dispatch_retry_count st →
  (su_subtask_id e.2 = nid → su_attempt_id e.2 ≠ Some (dispatch_retry_count st)) →
  fenced nid st times x → fenced nid st times (update_entry now true task_id x e).
Proof.
  destruct e as [fresh u]. intros Hpos Hnot (Hn & Ht & Hv). unfold update_entry. cbn [snd] in Hnot.
  fold (node (su_subtask_id u) (loop_subtasks x)).
  destruct (node (su_subtask_id u) (loop_subtasks x)) as [st'|] eqn:En.
  - destruct (entry_fate true st' u) eqn:Ef; [|done..].
    assert (su_subtask_id u ≠ nid) as Hne.
    { intros E. rewrite E, Hn in En. injection En as <-.
      by apply (entry_fate_fenced st u Hpos (Hnot E)). }
    pose proof (node_id _ _ _ En) as Hid.
    split_and!; simpl.
    + rewrite node_alter; [by rewrite decide_False by done|]. intros st0.
      destruct (apply_fields_same fresh now true u) as [Ha _].
      destruct (Ha (apply_status u st0)) as [-> _]. apply apply_status_same.
    + destruct (subtask_status_from_str _); [|done]. rewrite track_assigned_ne; [done|congruence].
    + apply Forall_app. split; [done|]. unfold entry_verb. simpl.
      destruct (subtask_status_from_str _); simpl; [|done]. destruct (graph_verb_for _ _); simpl; [|done].
      apply Forall_singleton. simpl. congruence.
  - assert (su_subtask_id u ≠ nid) as Hne by (intros E; by rewrite E, Hn in En).
    assert (Hid : subtask_id (new_subtask fresh now true task_id u) = su_subtask_id u)
      by apply nats_subtask_id.
    revert Hid. generalize (new_subtask fresh now true task_id u) as st'. intros st' Hid.
    split_and!; cbn [loop_subtasks loop_assigned loop_verbs].
    + by rewrite node_app, Hn.
    + case_match; [by rewrite lookup_insert_ne|done].
    + apply Forall_app. split; [done|]. destruct (graph_verb_for _ _); simpl; [|done].
      apply Forall_singleton. simpl. congruence.
Qed.

Lemma update_loop_fenced fresh now u t nid st times :
  tu_partial u = true → node nid (tk_subtasks t) = Some st → 0 < dispatch_retry_count st →
  not_for nid (dispatch_retry_count st) (tu_subtasks u) →
  fenced nid st times (update_loop fresh now u t times).
Proof.
  intros Hp Hn Hpos Hnot. unfold update_loop. rewrite Hp.
  assert (Hx : fenced nid st times (mkLoop (tk_subtasks t) times [] [])) by done.
  revert Hx. generalize (mkLoop (tk_subtasks t) times [] []) as x.
  assert (Hes : ∀ e, e ∈ imap (λ i e, (fresh i, e)) (tu_subtasks u) →
    su_subtask_id e.2 = nid → su_attempt_id e.2 ≠ Some (dispatch_retry_count st)).
  { intros e He%elem_of_imap_pair. by apply Hnot. }
  revert Hes. generalize (imap (λ i e, (fresh i, e)) (tu_subtasks u)) as es.
  induction es as [|e es IH]; intros Hes x Hx; [done|]. simpl. apply IH; [set_solver|].
  apply update_entry_fenced; [done| |done]. apply Hes. by left.
Qed.

Section Fence.
Context {S B : Type} `{EventStore S} `{TaskStoreBackend B}.
Context (iter : gmap string Task → list (string * Task)).
Implicit Types (s : TaskStore S B).

(** *** The calls an update spawns *)

Definition spawned (c : list GraphCall) s : list GraphCall := if graph_wired s then c else [].

Lemma spawn_all_calls f (vs : list (string * Z * PendingGraphVerb)) s :
  graph_spawned (foldl (λ s v, spawn_call (f v) s) s vs) = graph_spawned s ++ spawned (f <$> vs) s ∧
  graph_wired (foldl (λ s v, spawn_call (f v) s) s vs) = graph_wired s.
Proof.
  unfold spawned. revert s. induction vs as [|v vs IH]; intros s; simpl.
  { destruct (graph_wired s); by rewrite app_nil_r. }
  destruct (IH (spawn_call (f v) s)) as [-> ->]. unfold spawn_call.
  destruct (graph_wired s) eqn:E; simpl; rewrite ?E, <- ?app_assoc; done.
Qed.

Lemma record_all_calls es s :
  graph_spawned (record_all es s) = graph_spawned s ∧ graph_wired (record_all es s) = graph_wired s.
Proof. revert s. induction es as [|e es IH]; intros s; [done|]. simpl. by destruct (IH (TaskStore_record_event e s)). Qed.

Lemma evict_calls s :
  graph_spawned (evict_completed_tasks iter s).2 = graph_spawned s ∧
  graph_wired (evict_completed_tasks iter s).2 = graph_wired s.
Proof.
  unfold evict_completed_tasks. destruct (_ <=? _); [done|]. destruct (sort_by _ _); [done|].
  cbn [snd]. generalize (take (Nat.min (size (tasks s) - Z.to_nat MAX_RETAINED_TASKS)
    (length (p :: l))) (p :: l)).*1 as ids. intros ids. revert s. induction ids as [|id ids IH]; intros s; [done|].
  simpl. destruct (IH (evict_one s id)) as [-> ->]. unfold evict_one. by destruct (tasks s !! id).
Qed.

Lemma persist_calls t s :
  graph_spawned (persist_task t s) = graph_spawned s ++ spawned [CallShadow t] s ∧
  graph_wired (persist_task t s) = graph_wired s.
Proof.
  unfold persist_task, spawn_call, spawned.
  destruct (task_backend s); simpl; destruct (graph_wired s) eqn:E; simpl; rewrite ?app_nil_r, ?E; done.
Qed.

Lemma apply_to_task_calls fresh now u t s :
  let x := update_loop fresh now u t (assigned_subtask_times s) in
  let t' := updated_task now u t (loop_subtasks x) in
  graph_spawned (apply_to_task iter fresh now u t s)
  = graph_spawned s ++ spawned (CallShadow t' :: (call_of (tk_id t') <$> loop_verbs x)) s.
Proof.
  intros x t'. unfold apply_to_task. fold x. fold t'. cbv zeta.
  rewrite (proj1 (spawn_all_calls _ _ _)). unfold spawned at 1.
  rewrite (proj1 (record_all_calls _ _)), (proj2 (record_all_calls _ _)).
  cbn [graph_spawned graph_wired set_stale].
  rewrite (proj1 (persist_calls _ _)), (proj2 (persist_calls _ _)). unfold spawned.
  rewrite (proj1 (evict_calls _)), (proj2 (evict_calls _)).
  cbn [graph_spawned graph_wired set_tasks set_assigned].
  destruct (graph_wired s); by rewrite <- ?app_assoc.
Qed.

Lemma call_of_node g v : call_node (call_of g v) = Some v.1.1.
Proof. by destruct v as [[n a] []]. Qed.

(** A report for other attempts of a node reaches neither the node nor the graph. *)
Lemma report_fenced fresh fresh' now u d p s t nid st :
  tu_partial u = true → tasks s !! tu_task_id u = Some t → node nid (tk_subtasks t) = Some st →
  0 < dispatch_retry_count st → not_for nid (dispatch_retry_count st) (tu_subtasks u) →
  let s' := apply_update_with_metadata iter fresh fresh' now u d p s in
  (∀ t', tasks s' !! tu_task_id u = Some t' → node nid (tk_subtasks t') = Some st) ∧
  (∃ calls, graph_spawned s' = graph_spawned s ++ calls ∧
     Forall (λ c, call_node c ≠ Some nid) calls).
Proof.
  intros Hp Ht Hn Hpos Hnot s'.
  assert (Hs' : s' = apply_to_task iter fresh now u t s).
  { unfold s', apply_update_with_metadata, full_snapshot_is_stale. by rewrite Hp, Ht. }
  destruct (update_loop_fenced fresh now u t nid st (assigned_subtask_times s) Hp Hn Hpos Hnot)
    as (Hnode & _ & Hverbs).
  rewrite Hs'. split.
  - intros t' Ht'.
    pose proof (lookup_weaken _ _ _ _ Ht' (apply_to_task_tasks iter fresh now u t s)) as Hsub.
    rewrite lookup_insert_eq in Hsub. injection Hsub as <-. done.
  - rewrite apply_to_task_calls. eexists. split; [done|]. unfold spawned.
    destruct (graph_wired s); [|done]. constructor; [done|]. apply Forall_fmap.
    apply (Forall_impl _ _ _ Hverbs). intros v Hv. simpl. rewrite call_of_node. congruence.
Qed.

Lemma keeps_id_rearmed n : keeps_id (rearmed n).
Proof. by intros st. Qed.

Definition retryable (t : Task) (nid : string) (n : Z) (st : Subtask) : Prop :=
  tk_status t ≠ TaskPaused ∧ tk_status t ≠ TaskCompleted ∧
  node nid (tk_subtasks t) = Some st ∧ dispatch_retry_count st = n ∧
  subtask_status st = SubtaskFailed ∧
  (∀ dep, dep ∈ depends_on st → ∃ d, d ∈ tk_subtasks t ∧ subtask_id d = dep ∧
     subtask_status d = SubtaskCompleted) ∧
  n < u32_max.

Lemma completed_dep_spec t dep :
  completed_dep t dep = true ↔
  ∃ d, d ∈ tk_subtasks t ∧ subtask_id d = dep ∧ subtask_status d = SubtaskCompleted.
Proof.
  unfold completed_dep. rewrite existsb_true. setoid_rewrite andb_true_iff.
  setoid_rewrite bool_decide_eq_true. naive_solver.
Qed.

Lemma all_completed t l :
  forallb (completed_dep t) l = true ↔
  ∀ dep, dep ∈ l → ∃ d, d ∈ tk_subtasks t ∧ subtask_id d = dep ∧ subtask_status d = SubtaskCompleted.
Proof.
  rewrite forallb_forall. setoid_rewrite completed_dep_spec. by setoid_rewrite list_elem_of_In.
Qed.

(** The guards of a retry are exactly these. *)
Lemma retry_guards now id nid n s :
  n <= u32_max →
  (∃ t', (retry_subtask now id nid n s).1 = Ok t') ↔
  ∃ t st, tasks s !! id = Some t ∧ retryable t nid n st.
Proof.
  intros Hn. unfold retry_subtask, retryable, node.
  destruct (tasks s !! id) as [t|]; [|split; [by intros [? ?]|by intros (?&?&?&?)]].
  destruct (find (has_subtask_id nid) (tk_subtasks t)) as [st|] eqn:Ef.
  2: { destruct (tk_status t); split; try (by intros [? ?]); naive_solver. }
  destruct (Z.eqb_spec (dispatch_retry_count st) n) as [Ha|Ha];
    destruct (bool_decide_reflect (subtask_status st = SubtaskFailed)) as [Hs|Hs]; simpl.
  2-4: destruct (tk_status t); split; try (by intros [? ?]); naive_solver.
  pose proof (all_completed t (depends_on st)) as Hd.
  destruct (forallb (completed_dep t) (depends_on st)); simpl.
  2: { split; [by destruct (tk_status t); intros [? ?]|].
       intros (t0 & st0 & [= <-] & _ & _ & Hst & _ & _ & Hall & _). simplify_eq. by apply Hd in Hall. }
  destruct (Z.eqb_spec n u32_max) as [->|Hne].
  { split; [by destruct (tk_status t); intros [? ?]|].
    intros (t0 & st0 & [= <-] & _ & _ & Hst & _ & _ & _ & Hlt). lia. }
  split.
  - intros Hok. exists t, st. destruct (tk_status t) eqn:Et; split_and!; try done; try lia;
      try (by apply Hd); destruct Hok; done.
  - intros (t0 & st0 & [= <-] & Hp & Hc & _). destruct (tk_status t); try done; eexists; done.
Qed.

(** What a retry that succeeds leaves. *)
Lemma retry_done now id nid n s t' s' :
  retry_subtask now id nid n s = (Ok t', s') →
  tasks s' !! id = Some t' ∧ tk_status t' = TaskInProgress ∧
  ∃ st, node nid (tk_subtasks t') = Some st ∧ dispatch_retry_count st = n + 1 ∧
    subtask_status st = SubtaskPending ∧ subtask_result st = None ∧ assigned_worker st = None.
Proof.
  unfold retry_subtask. destruct (tasks s !! id) as [t|]; [|done].
  destruct (match tk_status t with TaskPaused | TaskCompleted => true | _ => false end); [done|].
  destruct (find _ _) as [st|] eqn:Ef; [|done]. destruct (_ || _); [done|]. destruct (negb _); [done|].
  destruct (_ =? u32_max); [done|]. intros [= <- <-].
  split_and!; [by rewrite tasks_persist; simpl; rewrite lookup_insert_eq|done|].
  exists (rearmed (n + 1) st). split_and!; try done. cbn [tk_subtasks with_task_subtasks].
  rewrite node_alter by apply keeps_id_rearmed. rewrite decide_True by done. unfold node. by rewrite Ef.
Qed.

(** C21: a retry is a compare-and-set on the attempt.  It succeeds exactly for the current
    failed attempt of a task that is neither paused nor completed and whose
    dependencies are complete; the node is then pending under the next attempt with no
    result and no worker, the same retry cannot be made twice, and a worker's report
    stamped with an older attempt changes neither the node nor, through a call about it,
    the graph. *)
Theorem retry_fences_attempts now id nid n s :
  0 <= n <= u32_max →
  ((∃ t', (retry_subtask now id nid n s).1 = Ok t') ↔
     ∃ t st, tasks s !! id = Some t ∧ retryable t nid n st) ∧
  ∀ t' s', retry_subtask now id nid n s = (Ok t', s') →
    tasks s' !! id = Some t' ∧ tk_status t' = TaskInProgress ∧
    ∃ st, node nid (tk_subtasks t') = Some st ∧ dispatch_retry_count st = n + 1 ∧
      subtask_status st = SubtaskPending ∧ subtask_result st = None ∧ assigned_worker st = None ∧
      (∀ now', (retry_subtask now' id nid n s').1 = Err "Retry requires the current failed attempt"%string) ∧
      (∀ fresh fresh' now' u d p, tu_partial u = true → tu_task_id u = id →
         only_older nid (n + 1) (tu_subtasks u) →
         let s2 := apply_update_with_metadata iter fresh fresh' now' u d p s' in
         (∀ t2, tasks s2 !! id = Some t2 → node nid (tk_subtasks t2) = Some st) ∧
         ∃ calls, graph_spawned s2 = graph_spawned s' ++ calls ∧
           Forall (λ c, call_node c ≠ Some nid) calls).
Proof.
  intros Hn. split; [apply retry_guards; lia|]. intros t' s' Hr.
  destruct (retry_done _ _ _ _ _ _ _ Hr) as (Ht' & Hs' & st & Hst & Ha & Hp & Hres & Hw).
  split_and!; [done..|]. exists st. split_and!; try done.
  - intros now'. unfold retry_subtask. rewrite Ht', Hs'. fold (node nid (tk_subtasks t')). rewrite Hst, Ha.
    by replace (n + 1 =? n) with false by lia.
  - intros fresh fresh' now' u d p Hpart <- Hnot%only_older_not_for.
    apply report_fenced with (t := t'); rewrite ?Ha; try done. lia.
Qed.

(** ** Identity of messages *)

Definition seen_at (m : string) (now : Instant) s : Prop := seen_messages s !! m = Some now.

Lemma check_keeps m t0 now mid s :
  now - t0 < DEDUP_TTL → seen_at m t0 s → seen_at m t0 (check_and_record_message_id now mid s).2.
Proof.
  unfold seen_at, check_and_record_message_id. intros Hnow Hm. destruct mid as [mid|]; [|done].
  destruct (mid ==? ""); [done|]. destruct (seen_messages s !! mid) eqn:E; [done|].
  assert (mid ≠ m) by congruence. cbn [snd].
  destruct (_ <? _); simpl; [|by rewrite lookup_insert_ne].
  apply map_lookup_filter_Some_2; [by rewrite lookup_insert_ne|]. unfold DEDUP_TTL in *. simpl. lia.
Qed.

Definition check_all_messages s (l : list (Instant * option string)) : TaskStore S B :=
  foldl (λ s x, (check_and_record_message_id x.1 x.2 s).2) s l.

(** A message is accepted once.  An id that was accepted at [now] is answered as a
    duplicate at every later check that is made within the window, whatever other
    messages were checked in between and however many. *)
Theorem message_accepted_once now m s s' l now' :
  m ≠ ""%string → check_and_record_message_id now (Some m) s = (false, s') →
  Forall (λ x, x.1 - now < DEDUP_TTL) l →
  (check_and_record_message_id now' (Some m) (check_all_messages s' l)).1 = true.
Proof.
  intros Hm Hc Hl. assert (Hs : seen_at m now s').
  { unfold seen_at. revert Hc. unfold check_and_record_message_id. rewrite bool_decide_eq_false_2 by done.
    destruct (seen_messages s !! m); [done|]. intros [= <-].
    destruct (_ <? _); simpl; [|by rewrite lookup_insert_eq].
    apply map_lookup_filter_Some_2; [by rewrite lookup_insert_eq|]. unfold DEDUP_TTL. simpl. lia. }
  clear Hc. revert s' Hs. induction Hl as [|x l Hx _ IH]; intros s' Hs; simpl.
  - unfold check_and_record_message_id. rewrite bool_decide_eq_false_2 by done. unfold seen_at in Hs.
    by rewrite Hs.
  - by apply IH, check_keeps.
Qed.

(** ** Retention *)

(** The candidates: tasks that have ended, by their last change. *)
Definition ended (s : TaskStore S B) : list (string * Z) :=
  sort_by by_updated ((λ x, (x.1, tk_updated_at x.2)) <$> filterb (λ x, task_final x.2) (iter (tasks s))).

Lemma ended_elem s id x :
  (∀ m, iter m ≡ₚ map_to_list m) →
  (id, x) ∈ ended s ↔ ∃ t, tasks s !! id = Some t ∧ task_final t = true ∧ tk_updated_at t = x.
Proof.
  intros Hit. unfold ended. rewrite sort_by_elem, list_elem_of_fmap. split.
  - intros ([i t] & [= -> ->] & [Hin Hf]%filterb_elem). rewrite Hit, elem_of_map_to_list in Hin. eauto.
  - intros (t & Ht & Hf & <-). exists (id, t). split; [done|]. apply filterb_elem. split; [|done].
    by rewrite Hit, elem_of_map_to_list.
Qed.

Lemma NoDup_fst_filterb {A} (p : string * A → bool) (l : list (string * A)) :
  NoDup l.*1 → NoDup (filterb p l).*1.
Proof.
  intros Hl. unfold filterb. induction l as [|x l IH]; [constructor|]. simpl in *.
  apply NoDup_cons in Hl as [Hx Hl]. destruct (p x); [|auto]. simpl. apply NoDup_cons. split; [|auto].
  intros (y & Hy & Hin)%list_elem_of_fmap. apply Hx. apply list_elem_of_fmap. exists y. split; [done|].
  apply list_elem_of_In, List.filter_In, proj1, list_elem_of_In in Hin. done.
Qed.

Lemma ended_NoDup s : (∀ m, iter m ≡ₚ map_to_list m) → NoDup (ended s).*1.
Proof.
  intros Hit. unfold ended. rewrite sort_by_perm, <- list_fmap_compose.
  change (NoDup ((filterb (λ x, task_final x.2) (iter (tasks s))).*1)). apply NoDup_fst_filterb.
  rewrite Hit. apply NoDup_fst_map_to_list.
Qed.

Lemma ended_sorted s : StronglySorted (λ a b : string * Z, a.2 <= b.2) (ended s).
Proof.
  unfold ended. set (l := _ <$> _).
  assert (Sorted (λ a b, by_updated a b = true) (sort_by by_updated l)) as Hs.
  { apply sort_by_Sorted. intros a b. unfold by_updated. rewrite !Z.leb_le. lia. }
  apply Sorted_StronglySorted; [intros a b c; lia|].
  induction Hs as [|x k _ IH Hx]; constructor; [done|]. destruct Hx; constructor.
  by apply Z.leb_le.
Qed.

Lemma evict_size ids s :
  NoDup ids → Forall (λ id, is_Some (tasks s !! id)) ids →
  size (tasks (foldl evict_one s ids)) = (size (tasks s) - length ids)%nat.
Proof.
  intros Hnd. revert s. induction Hnd as [|id ids Hid _ IH]; intros s Hall; simpl; [lia|].
  apply Forall_cons in Hall as [[t Ht] Hall]. rewrite IH.
  - rewrite tasks_evict_one, map_size_delete, Ht. lia.
  - rewrite Forall_forall in *. intros id' Hin. rewrite tasks_evict_one, lookup_delete_ne; [auto|].
    by intros ->.
Qed.

Lemma evict_all_tasks ids s :
  tasks (foldl evict_one s ids) = filter (λ x, x.1 ∉ ids) (tasks s).
Proof.
  revert s. induction ids as [|id ids IH]; intros s; simpl.
  - symmetry. apply map_filter_id. set_solver.
  - rewrite IH, tasks_evict_one. apply map_eq. intros i. apply option_eq. intros t.
    rewrite !map_lookup_filter_Some, lookup_delete_Some. set_solver.
Qed.

Lemma elem_take {A} n (l : list A) x : x ∈ take n l → x ∈ l.
Proof. intros Hx. rewrite <- (take_drop n l). set_solver. Qed.

Lemma evict_spec s n s' :
  evict_completed_tasks iter s = (n, s') →
  s' = foldl evict_one s (take n (ended s)).*1 ∧ (n <= length (ended s))%nat ∧
  (Z.of_nat n <= Z.of_nat (size (tasks s)) - MAX_RETAINED_TASKS ∨ n = 0%nat) ∧
  (Z.of_nat (size (tasks s)) - MAX_RETAINED_TASKS <= Z.of_nat n ∨ n = length (ended s)).
Proof.
  unfold evict_completed_tasks. fold (ended s). destruct (Z.leb_spec (Z.of_nat (size (tasks s))) MAX_RETAINED_TASKS).
  { intros [= <- <-]. simpl. split_and!; [done|lia|by right|left; lia]. }
  destruct (ended s) as [|x l] eqn:E; intros [= <- <-]; [by split_and!; auto|].
  unfold MAX_RETAINED_TASKS in *. simpl length in *. split_and!; [done|lia..].
Qed.

(** The map of tasks is bounded by retiring history.  An eviction removes only tasks
    that have ended, each no younger than any ended task that stays, and as many as it
    counts; afterwards the map is within its cap or holds no ended task at all. *)
Theorem eviction_is_exact s n s' :
  (∀ m, iter m ≡ₚ map_to_list m) → evict_completed_tasks iter s = (n, s') →
  tasks s' ⊆ tasks s ∧ (size (tasks s') + n = size (tasks s))%nat ∧
  (∀ id t, tasks s !! id = Some t → tasks s' !! id = None →
     task_final t = true ∧
     ∀ id' t', tasks s' !! id' = Some t' → task_final t' = true → tk_updated_at t <= tk_updated_at t') ∧
  (Z.of_nat (size (tasks s')) <= MAX_RETAINED_TASKS ∨
   ∀ id t, tasks s' !! id = Some t → task_final t = false).
Proof.
  intros Hit Hev. destruct (evict_spec s n s' Hev) as (-> & Hlen & _ & Hfull).
  pose proof (ended_NoDup s Hit) as Hnd. pose proof (ended_sorted s) as Hsort.
  rewrite <- (take_drop n (ended s)) in Hnd, Hsort. rewrite fmap_app in Hnd.
  apply NoDup_app in Hnd as (Hnd & Hdisj & _).
  assert (Hdom : Forall (λ id, is_Some (tasks s !! id)) (take n (ended s)).*1).
  { apply Forall_forall. intros id ([i x] & -> & Hin%elem_take)%list_elem_of_fmap.
    apply ended_elem in Hin as (t & ? & _); [|done]. eauto. }
  assert (Hsize := evict_size _ s Hnd Hdom).
  rewrite length_fmap, length_take, Nat.min_l in Hsize by done.
  assert (n <= size (tasks s))%nat as Hn.
  { rewrite <- (length_take_le (ended s) n), <- (length_fmap fst (take n (ended s))) by done.
    rewrite <- size_dom, <- (size_list_to_set (C := gset string)) by done.
    apply subseteq_size. intros id Hid%elem_of_list_to_set. apply elem_of_dom.
    by rewrite Forall_forall in Hdom; apply Hdom. }
  rewrite evict_all_tasks in *. split_and!.
  - apply map_filter_subseteq.
  - rewrite Hsize. lia.
  - intros id t Ht Hgone. assert (Hid : id ∈ (take n (ended s)).*1).
    { destruct (decide (id ∈ (take n (ended s)).*1)); [done|].
      assert (filter (λ x, x.1 ∉ (take n (ended s)).*1) (tasks s) !! id = Some t) as E
        by (by apply map_lookup_filter_Some_2). congruence. }
    apply list_elem_of_fmap in Hid as ([i x] & -> & Hin). simpl in *.
    pose proof Hin as (t0 & Ht0 & Hf & Hx)%elem_take%ended_elem; [|done].
    simplify_eq. split; [done|]. intros id' t' [Ht' Hnot]%map_lookup_filter_Some Hf'.
    assert ((id', tk_updated_at t') ∈ drop n (ended s)) as Hin'.
    { assert ((id', tk_updated_at t') ∈ ended s) as Hin' by (apply ended_elem; eauto).
      rewrite <- (take_drop n (ended s)), elem_of_app in Hin'. destruct Hin' as [Hin'|]; [|done].
      exfalso. apply Hnot, list_elem_of_fmap. by exists (id', tk_updated_at t'). }
    exact (StronglySorted_app_1_elem_of _ _ _ _ _ Hsort Hin Hin').
  - destruct Hfull as [Hle|Hall]; [left; rewrite Hsize; lia|]. right.
    intros id t [Ht Hnot]%map_lookup_filter_Some. apply not_true_iff_false. intros Hf.
    apply Hnot. rewrite take_ge by lia. apply list_elem_of_fmap. exists (id, tk_updated_at t).
    split; [done|]. apply ended_elem; eauto.
Qed.
End Fence.

(** * Runs of the gateway's task store

    Concrete stores on the in-memory event log and backend: instances of the theorems,
    and runs that show where the code departs from what its comments say. *)

Notation store := (TaskStore InMemoryEventStore InMemoryTaskBackend).

Definition in_key_order (m : gmap string Task) : list (string * Task) := map_to_list m.

Lemma in_key_order_ok m : in_key_order m ≡ₚ map_to_list m.
Proof. done. Qed.

Definition new_store : store :=
  TaskStore_with InMemoryEventStore_new (Some InMemoryTaskBackend_new) true.

Definition no_execution : NatsSubtaskExecution := mkExecutionConfig None None None None None.
Definition entry_for (id status : string) (result : option string) (attempt : option Z) : NatsSubtaskUpdate :=
  mkSubUpdate no_execution id status (Some "w1"%string) None None result None None None attempt.
Definition update_of (partial : bool) (status : string) (l : list NatsSubtaskUpdate) : NatsTaskUpdate :=
  mkTaskUpdate None "t" status partial l None.
Definition uuid (n : nat) : string := "fresh".

Definition apply_it (now : Z) (u : NatsTaskUpdate) (s : store) : store :=
  apply_update_with_metadata in_key_order uuid uuid now u (Some "work"%string) (Some "p"%string) s.

(** A task with one node that has run and failed. *)
Definition failed_run : store :=
  apply_it 20 (update_of true "InProgress" [entry_for "a" "Failed" (Some "boom"%string) (Some 0)])
    (apply_it 10 (update_of false "InProgress" [entry_for "a" "InProgress" None (Some 0)]) new_store).

Definition task_of (s : store) : Task := default (mkTask "" "" "" TaskCreated [] 0 0) (tasks s !! "t").
Definition node_of (s : store) (id : string) : option (SubtaskStatus * Z) :=
  (λ st, (subtask_status st, dispatch_retry_count st)) <$> node id (tk_subtasks (task_of s)).

Lemma task_of_lookup (s : store) : is_Some (tasks s !! "t") → tasks s !! "t" = Some (task_of s).
Proof. intros [t Ht]. unfold task_of. by rewrite Ht. Qed.

Definition late_success : NatsTaskUpdate :=
  update_of true "InProgress" [entry_for "a" "Completed" None (Some 0)].

Lemma held (s : store) : bool_decide (is_Some (tasks s !! "t")) = true → is_Some (tasks s !! "t").
Proof. apply bool_decide_eq_true_1. Qed.

Lemma reports_respect_control_witness :
  node_of failed_run "a" = Some (SubtaskFailed, 0) ∧
  control_kept (task_of failed_run) (task_of (apply_it 30 late_success failed_run)).
Proof.
  split; [by vm_compute|].
  apply (reports_respect_control in_key_order "t" failed_run (apply_it 30 late_success failed_run)
           _ _ in_key_order_ok).
  - apply rtc_once. split; [apply RepUpdate|apply held; by vm_compute].
  - apply task_of_lookup, held. by vm_compute.
  - apply task_of_lookup, held. by vm_compute.
Defined.

Definition retried_run : store := (retry_subtask 40 "t" "a" 0 failed_run).2.

Lemma retry_fences_attempts_witness :
  (∃ t st, tasks failed_run !! "t" = Some t ∧ retryable t "a" 0 st) ∧
  ∃ st, dispatch_retry_count st = 1 ∧ subtask_status st = SubtaskPending ∧
    ∀ t2, tasks (apply_it 50 (update_of true "InProgress" [entry_for "a" "Completed" None (Some 0)]) retried_run) !! "t"
          = Some t2 → node "a" (tk_subtasks t2) = Some st.
Proof.
  assert (Hn : 0 <= 0 <= u32_max) by (by vm_compute).
  destruct (retry_fences_attempts in_key_order 40 "t" "a" 0 failed_run Hn) as [Hiff Hok]. split.
  - apply Hiff. eexists. by vm_compute.
  - destruct (retry_subtask 40 "t" "a" 0 failed_run) as [[t'|e] s'] eqn:E; [|by vm_compute in E].
    assert (retried_run = s') as -> by (unfold retried_run; by rewrite E).
    destruct (Hok t' s' eq_refl) as (_ & _ & st & _ & Ha & Hp & _ & _ & _ & Hf). exists st. split; [done|]. split; [done|].
    apply Hf; [done|done|]. intros x ->%list_elem_of_singleton _. by exists 0.
Defined.

Lemma new_log_wf : events_wf InMemoryEventStore_new.
Proof.
  split; [done|]. intros subject. unfold InMemory_stream. simpl. rewrite lookup_empty.
  split; constructor.
Qed.

Lemma flush_is_durable_witness :
  ∃ b' t', task_backend (flush_task_state 50 "t" (persist_task (task_of failed_run) failed_run)).2 = Some b' ∧
    stored b' !! "t" = Some t' ∧ same_record t' (task_of failed_run).
Proof.
  apply (flush_is_durable (HB := InMemory_TaskBackendOk) 50 (task_of failed_run) failed_run
           InMemoryTaskBackend_new
           (flush_task_state 50 "t" (persist_task (task_of failed_run) failed_run)).2).
  - by vm_compute.
  - done.
  - by apply Forall_forall.
  - assert (event_log failed_run = InMemoryEventStore_new) as -> by (by vm_compute). apply new_log_wf.
  - by vm_compute.
  - by vm_compute.
Defined.

Lemma store_stays_bounded_witness : store_bounds new_store.
Proof.
  apply (store_stays_bounded in_key_order InMemoryEventStore_new (Some InMemoryTaskBackend_new) true new_store
           in_key_order_ok). apply rtc_refl.
Defined.

(** A store whose event log has refused a write. *)
Definition lossy_store : store :=
  set_events_out (event_log failed_run) (event_queue failed_run) (Some "disk full"%string) failed_run.

Lemma lossy_keys : keys_match lossy_store.
Proof.
  apply (store_bounds_closed (S := InMemoryEventStore) (B := InMemoryTaskBackend)).
  change (store_bounds failed_run).
  eapply (closed_run in_key_order store_bounds new_store failed_run); [apply store_bounds_closed|apply in_key_order_ok| |].
  - eapply rtc_l; [apply StepReport, RepUpdate|]. eapply rtc_l; [apply StepReport, RepUpdate|].
    apply rtc_refl.
  - apply new_store_bounds.
Qed.

Lemma lost_event_never_certified_witness :
  event_error lossy_store = Some "disk full"%string ∧
  (flush_task_events 60 (retry_subtask 40 "t" "a" 0 lossy_store).2).1
  = Err (ConnectionError "disk full").
Proof.
  split; [done|].
  apply (lost_event_never_certified in_key_order "disk full" lossy_store
           (retry_subtask 40 "t" "a" 0 lossy_store).2 60 "t" in_key_order_ok lossy_keys eq_refl).
  apply rtc_once, StepRetry.
Defined.

Lemma message_accepted_once_witness :
  (check_and_record_message_id 9 (Some "m"%string)
     (check_all_messages (check_and_record_message_id 5 (Some "m"%string) new_store).2
        [(6, Some "n"%string); (7, None)])).1 = true.
Proof.
  apply (message_accepted_once 5 "m" new_store (check_and_record_message_id 5 (Some "m"%string) new_store).2
           [(6, Some "n"%string); (7, None)] 9); [done|by vm_compute|]. by repeat constructor.
Defined.

Lemma eviction_is_exact_witness :
  (evict_completed_tasks in_key_order failed_run).1 = 0%nat ∧
  tasks (evict_completed_tasks in_key_order failed_run).2 ⊆ tasks failed_run.
Proof.
  split; [by vm_compute|].
  apply (eviction_is_exact in_key_order failed_run (evict_completed_tasks in_key_order failed_run).1
           (evict_completed_tasks in_key_order failed_run).2 in_key_order_ok (surjective_pairing _)).
Defined.

(** ** Where the code departs from its comments *)

(** A complete snapshot stamps the attempt of every node, but a gateway that restores the
    task from it starts the node at attempt 0: it then refuses every report of the
    attempt that is running, and every later snapshot. *)
Definition restored_run : store :=
  apply_it 10 (update_of false "InProgress" [entry_for "a" "InProgress" None (Some 2)]) new_store.

Lemma restored_attempt_refused :
  node_of restored_run "a" = Some (SubtaskInProgress, 0) ∧
  (let s := apply_it 20 (update_of true "InProgress" [entry_for "a" "Completed" (Some "ok"%string) (Some 2)])
              restored_run in
   node_of s "a" = Some (SubtaskInProgress, 0) ∧ stale_dispatch_dropped s = 1) ∧
  full_snapshot_is_stale (update_of false "Completed" [entry_for "a" "Completed" (Some "ok"%string) (Some 2)])
    restored_run = true.
Proof. by vm_compute. Qed.

(** The event of a retry is not recorded under its task, where recovery looks for it. *)
Definition is_retried (e : AgentEventType) : bool :=
  match e with AgentEvent.SubtaskRetried _ _ _ => true | _ => false end.

Lemma retry_event_off_subject :
  existsb is_retried (queued "events" (event_queue retried_run)) = true ∧
  existsb is_retried (queued (task_subject "t") (event_queue retried_run)) = false.
Proof. by vm_compute. Qed.

(** A report of a greater attempt is refused, though the comment says it passes. *)
Lemma greater_attempt_refused :
  entry_fate true (mkSubtask "a" "t" "" SubtaskInProgress None [] [] "" None Remote RequiresWorker 1 [] None [] 0)
    (entry_for "a" "Completed" None (Some 2)) = EntryRejected 2 1.
Proof. by vm_compute. Qed.

(** And so is a report without a stamp once the node was retried, though the comment says that
    unstamped reports are never fenced. *)
Lemma unstamped_report_refused :
  entry_fate true (mkSubtask "a" "t" "" SubtaskInProgress None [] [] "" None Remote RequiresWorker 1 [] None [] 0)
    (entry_for "a" "Completed" None None) = EntryIgnored.
Proof. by vm_compute. Qed.

(** The verdict of a review reaches a node only when the report creates the node. *)
Definition reviewed (id : string) : NatsSubtaskUpdate :=
  mkSubUpdate no_execution id "Completed" (Some "w2"%string) None None (Some "fine"%string) None None
    (Some (mkReview true [] [])) (Some 0).
Definition verdict_of (s : store) (id : string) : option (option SubtaskReview) :=
  st ← node id (tk_subtasks (task_of s)); r ← subtask_result st; Some (result_review r).

Lemma verdict_dropped_on_update :
  let s := apply_it 10 (update_of false "InProgress" [entry_for "a" "InProgress" None (Some 0)]) new_store in
  verdict_of (apply_it 20 (update_of true "InProgress" [reviewed "a"]) s) "a" = Some None ∧
  verdict_of (apply_it 20 (update_of true "InProgress" [reviewed "b"]) s) "b" = Some (Some (mkReview true [] [])).
Proof. by vm_compute. Qed.

(** A node that a report creates as completed is committed without its result. *)
Lemma created_completed_commits_nothing :
  let s := apply_it 10 (update_of false "InProgress" [entry_for "a" "InProgress" None (Some 0)]) new_store in
  last (graph_spawned (apply_it 20 (update_of true "InProgress" [reviewed "b"]) s))
  = Some (CallCommit "t" "b" 0 None None None).
Proof. by vm_compute. Qed.

(** An entry older than the window is still answered as a duplicate while the map is small. *)
Lemma expired_message_still_duplicate :
  let s := (check_and_record_message_id 0 (Some "m"%string) new_store).2 in
  (check_and_record_message_id (2 * DEDUP_TTL) (Some "m"%string) s).1 = true.
Proof. by vm_compute. Qed.
