(* ===== verification/GatewayEvents.v ===== *)
(** * Events on the wire

    [NatsTaskEvent] and its reading ([nats_event_to_agent_event] of
    crates/uc-grpc/src/server.rs), and the form in which events are streamed to clients
    ([impl From<AgentEventType> for TaskEventProto] of crates/uc-grpc/src/conversions.rs).
    The text of a JSON value, of a list of file changes and of line ranges are
    parameters. *)

From Stdlib Require Import String Ascii.
From stdpp Require Import gmap strings pretty.
From S2P Require Import Prelude RustStr Task Events Graph GraphStore GatewayStore.

(** [serde_json::to_string] and the [Debug] text of the regions. *)
Class EventText := {
  json_text : JsonValue → string;
  changes_text : list FileChange → string;
  regions_text : list LineRange → string
}.

Record NatsTaskEvent : Type := mkNatsEvent {
  ne_version : Z;
  ne_message_id : option string;
  ne_type : string;
  ne_task_id : string;
  ne_subtask_id : option string;
  ne_data : gmap string JsonValue
}.

Definition default_event_version : Z := 1.

Definition json_bool_or_default (data : gmap string JsonValue) (key : string) (d : bool) : bool :=
  match data !! key with
  | Some (JBool b) => b
  | Some (JString s) => s ==? "true"
  | _ => d
  end.

(** [data.get(key).and_then(as_str)] and its defaults. *)
Definition opt_str (data : gmap string JsonValue) (key : string) : option string :=
  v ← data !! key; as_str v.
Definition str_or (data : gmap string JsonValue) (key d : string) : string := default d (opt_str data key).
(** [get(key).or_else(get(key'))]: the second key only when the first is absent. *)
Definition str_either (data : gmap string JsonValue) (key key' : string) : string :=
  default ""%string (v ← match data !! key with Some v => Some v | None => data !! key' end; as_str v).

Definition as_u64 (v : JsonValue) : option Z :=
  match v with JInt z => if (0 <=? z) && (z <=? u64_max) then Some z else None | _ => None end.
Definition as_i64 (v : JsonValue) : option Z :=
  match v with JInt z => if (- 2 ^ 63 <=? z) && (z <? 2 ^ 63) then Some z else None | _ => None end.

(** [str::parse::<u64>]. *)
Definition parse_u64 (s : string) : option Z :=
  let digits := match chars s with "+"%char :: rest => rest | l => l end in
  if bool_decide (digits = []) || negb (forallb is_digit_char digits) then None
  else
    let n := foldl (λ acc c, acc * 10 + (Z.of_nat (nat_of_ascii c) - 48)) 0 digits in
    if n <=? u64_max then Some n else None.

Definition wrap_u32 (n : Z) : Z := n `mod` 2 ^ 32.

Definition percent_of (data : gmap string JsonValue) : Z :=
  wrap_u32 (default 0
    (v ← data !! "percent"%string;
     or_else (as_u64 v) (or_else ((λ i, i `mod` 2 ^ 64) <$> as_i64 v) (as_str v ≫= parse_u64)))).

Definition step_count_of (data : gmap string JsonValue) (key : string) : option Z :=
  wrap_u32 <$> (v ← data !! key; or_else (as_u64 v) (as_str v ≫= parse_u64)).

Section Reading.
Context `{EventText}.

Definition recent_tools_of (data : gmap string JsonValue) : string :=
  default ""%string ((λ v, match v with JString s => s | v => json_text v end) <$> data !! "recent_tools"%string).

(** [fresh] is the UUID of [WorkerId::default]. *)
Definition nats_event_to_agent_event (fresh : string) (e : NatsTaskEvent) : option AgentEventType :=
  let t := ne_task_id e in
  let st := default ""%string (ne_subtask_id e) in
  let d := ne_data e in
  let worker := default fresh (opt_str d "worker_id") in
  if ne_type e ==? "subtask_assigned" then Some (AgentEvent.SubtaskAssigned t st worker)
  else if ne_type e ==? "subtask_started" then Some (AgentEvent.SubtaskStarted t st worker)
  else if ne_type e ==? "tool_call" then
    Some (AgentEvent.ToolInvoked t st (str_either d "tool_name" "tool")
            (str_either d "tool_input" "input_summary"))
  else if ne_type e ==? "tool_result" then
    Some (AgentEvent.ToolResult t st (str_either d "tool_output" "result_summary")
            (json_bool_or_default d "success" true))
  else if ne_type e ==? "file_modified" then
    Some (AgentEvent.FileModified t st (str_or d "file_path" "") (str_or d "diff" ""))
  else if ne_type e ==? "subtask_completed" then
    Some (AgentEvent.SubtaskCompleted t st (str_or d "summary" "")
            (json_bool_or_default d "success" true) [] (str_either d "output" "result") false)
  else if ne_type e ==? "subtask_failed" then
    Some (AgentEvent.SubtaskFailed t st (str_or d "error" "Unknown error")
            (json_bool_or_default d "recoverable" false) (str_or d "stderr_tail" "")
            (recent_tools_of d))
  else if ne_type e ==? "subtask_progress" then
    Some (AgentEvent.SubtaskProgress t st worker (str_or d "phase" "") (percent_of d)
            (step_count_of d "step_index") (step_count_of d "step_total") (opt_str d "step_agent")
            (opt_str d "step_status") (opt_str d "step_summary") (opt_str d "parallel_group")
            (step_count_of d "parallel_step_count"))
  else if ne_type e ==? "task_paused" then Some (AgentEvent.TaskPaused t)
  else if ne_type e ==? "task_resumed" then Some (AgentEvent.TaskResumed t)
  else if ne_type e ==? "task_cancelled" then Some (AgentEvent.TaskCancelled t)
  else if ne_type e ==? "stale_dispatch_dropped" then
    Some (AgentEvent.TaskUpdated t "stale_dispatch_dropped")
  else None.
End Reading.

(** ** Events as clients see them *)

Record TaskEventProto : Type := mkTaskEvent {
  te_timestamp : Instant;
  te_type : string;
  te_task_id : string;
  te_subtask_id : option string;
  te_data : gmap string string
}.

Definition bool_str (b : bool) : string := if b then "true" else "false".

(** [if let Some(x) = o { data_map.insert(key, x) }]. *)
Definition put (key : string) (o : option string) (m : gmap string string) : gmap string string :=
  match o with Some x => <[key := x]> m | None => m end.

Definition data_of (l : list (string * string)) : gmap string string := list_to_map l.

Section Streaming.
Context `{EventText}.

Definition stored_tools (recent_tools : string) : string :=
  if starts_with recent_tools "[" then recent_tools else json_text (JArray [JString recent_tools]).

(** The type, the task, the subtask and the data of an event. *)
Definition event_fields (e : AgentEventType) : string * string * string * gmap string string :=
  match e with
  | AgentEvent.SubtaskRetried t st attempt =>
      ("subtask_retried"%string, t, st, data_of [("attempt_id"%string, pretty attempt)])
  | AgentEvent.TaskCreated t d => ("task_submitted"%string, t, ""%string, data_of [("description"%string, d)])
  | AgentEvent.SubtaskAssigned t st w =>
      ("subtask_assigned"%string, t, st, data_of [("worker_id"%string, w)])
  | AgentEvent.SubtaskStarted t st w =>
      ("subtask_started"%string, t, st, data_of [("worker_id"%string, w)])
  | AgentEvent.SubtaskProgress t st w phase percent index total agent status summary group count =>
      ("subtask_progress"%string, t, st,
       put "parallel_step_count" (pretty <$> count) (put "parallel_group" group
         (put "step_summary" summary (put "step_status" status (put "step_agent" agent
           (put "step_total" (pretty <$> total) (put "step_index" (pretty <$> index)
             (data_of [("worker_id"%string, w); ("phase"%string, phase);
                       ("percent"%string, pretty percent)]))))))))
  | AgentEvent.ToolInvoked t st name input =>
      ("tool_call"%string, t, st, data_of [("tool_name"%string, name); ("tool_input"%string, input)])
  | AgentEvent.ToolResult t st output success =>
      ("tool_result"%string, t, st,
       data_of [("tool_output"%string, output); ("success"%string, bool_str success)])
  | AgentEvent.FileModified t st path diff =>
      ("file_modified"%string, t, st, data_of [("file_path"%string, path); ("diff"%string, diff)])
  | AgentEvent.SubtaskCompleted t st summary success files output simulated =>
      ("subtask_completed"%string, t, st,
       data_of [("summary"%string, summary); ("success"%string, bool_str success);
                ("modified_files"%string, changes_text files); ("output"%string, output);
                ("simulated"%string, bool_str simulated)])
  | AgentEvent.SubtaskFailed t st error recoverable tail tools =>
      ("subtask_failed"%string, t, st,
       put "recent_tools" (if tools ==? "" then None else Some (stored_tools tools))
         (put "stderr_tail" (if tail ==? "" then None else Some tail)
            (data_of [("error"%string, error); ("recoverable"%string, bool_str recoverable)])))
  | AgentEvent.CheckpointCreated t snapshot _ =>
      ("checkpoint_created"%string, t, ""%string, data_of [("snapshot_id"%string, snapshot)])
  | AgentEvent.EditIntent w path edit regions =>
      ("edit_intent"%string, ""%string, ""%string,
       data_of [("worker_id"%string, w); ("file_path"%string, path); ("edit_type"%string, edit);
                ("regions"%string, regions_text regions)])
  | AgentEvent.TaskCompleted t d r =>
      ("task_completed"%string, t, ""%string, data_of [("description"%string, d); ("result"%string, r)])
  | AgentEvent.TaskFailed t err => ("task_failed"%string, t, ""%string, data_of [("error"%string, err)])
  | AgentEvent.TaskPaused t => ("task_paused"%string, t, ""%string, ∅)
  | AgentEvent.TaskResumed t => ("task_resumed"%string, t, ""%string, ∅)
  | AgentEvent.TaskCancelled t => ("task_cancelled"%string, t, ""%string, ∅)
  | AgentEvent.TaskUpdated t status =>
      ("task_updated"%string, t, ""%string, data_of [("status"%string, status)])
  end.

Definition task_event_of (now : Instant) (e : AgentEventType) : TaskEventProto :=
  let '(kind, t, st, data) := event_fields e in
  mkTaskEvent now kind t (if st ==? "" then None else Some st) data.
End Streaming.

(** ** What survives the way back *)

(** A streamed event sent again as a wire event: its data are strings. *)
Definition wire_of (p : TaskEventProto) : NatsTaskEvent :=
  mkNatsEvent default_event_version None (te_type p) (te_task_id p) (te_subtask_id p)
    (JString <$> te_data p).

(** *** Decimal text *)

Definition digits_value (acc : Z) (l : list ascii) : Z :=
  foldl (λ acc c, acc * 10 + (Z.of_nat (nat_of_ascii c) - 48)) acc l.

Lemma digits_value_app acc l k : digits_value acc (l ++ k) = digits_value (digits_value acc l) k.
Proof. apply foldl_app. Qed.

Lemma pretty_N_char_value d : (d < 10)%N → Z.of_nat (nat_of_ascii (pretty_N_char d)) - 48 = Z.of_N d.
Proof.
  intros Hd.
  assert (d = 0 ∨ d = 1 ∨ d = 2 ∨ d = 3 ∨ d = 4 ∨ d = 5 ∨ d = 6 ∨ d = 7 ∨ d = 8 ∨ d = 9)%N as Hc by lia.
  by repeat destruct Hc as [->|Hc]; subst.
Qed.

Lemma pretty_N_go_value x s :
  digits_value 0 (chars (pretty.pretty_N_go x s)) = digits_value (Z.of_N x) (chars s).
Proof.
  revert s. induction (N.lt_wf_0 x) as [x _ IH]; intros s.
  destruct (decide (0 < x)%N) as [Hx|Hx]; [|by replace x with 0%N by lia].
  rewrite pretty.pretty_N_go_step by done. rewrite IH by (by apply N.div_lt).
  unfold digits_value. simpl. rewrite pretty_N_char_value by (by apply N.mod_lt). f_equal.
  rewrite N2Z.inj_div, N2Z.inj_mod. pose proof (Z.div_mod (Z.of_N x) 10 ltac:(done)). simpl. lia.
Qed.

Lemma pretty_value n : 0 <= n → digits_value 0 (chars (pretty n)) = n.
Proof.
  intros Hn. assert (pretty n = pretty (Z.to_N n)) as -> by (by destruct n).
  unfold pretty, pretty.pretty_N. case_decide as E.
  - by assert (n = 0) as -> by lia.
  - rewrite pretty_N_go_value. change (Z.of_N (Z.to_N n) = n). lia.
Qed.

Lemma pretty_chars_nonempty n : 0 <= n → chars (pretty n) ≠ [].
Proof.
  intros Hn E. pose proof (pretty_value n Hn) as V. rewrite E in V. unfold digits_value in V. simpl in V.
  by subst.
Qed.

Lemma parse_pretty n : 0 <= n <= u64_max → parse_u64 (pretty n) = Some n.
Proof.
  intros Hn. unfold parse_u64.
  assert (Hd : Forall (λ c, is_digit_char c = true) (chars (pretty n))).
  { apply Forall_forall. intros c. apply pretty_Z_digits. lia. }
  pose proof (pretty_chars_nonempty n ltac:(lia)) as Hne.
  pose proof (pretty_value n ltac:(lia)) as Hv. unfold digits_value in Hv.
  destruct (chars (pretty n)) as [|c l] eqn:E; [done|].
  assert (c ≠ "+"%char) as Hc by (intros ->; by apply Forall_cons in Hd as [? _]).
  replace (match c :: l with "+"%char :: rest => rest | l => l end) with (c :: l);
    [|by destruct c as [[] [] [] [] [] [] [] []]].
  rewrite bool_decide_eq_false_2 by done. cbn [orb].
  assert (forallb is_digit_char (c :: l) = true) as ->.
  { apply forallb_forall. intros x Hx%list_elem_of_In. rewrite Forall_forall in Hd. by apply Hd. }
  cbn [negb]. rewrite Hv. by destruct (Z.leb_spec n u64_max); [|lia].
Qed.

(** *** The way back *)

Section RoundTrip.
Context `{EventText}.

Definition count_ok (o : option Z) : Prop := ∀ n, o = Some n → is_u32 n.

(** The kinds a gateway reads, with the fields its reading keeps. *)
Definition survives (e : AgentEventType) : Prop :=
  match e with
  | AgentEvent.SubtaskProgress _ _ _ _ percent index total _ _ _ _ count =>
      is_u32 percent ∧ count_ok index ∧ count_ok total ∧ count_ok count
  | AgentEvent.SubtaskCompleted _ _ _ _ files _ simulated => files = [] ∧ simulated = false
  | AgentEvent.SubtaskFailed _ _ _ _ _ tools => tools = ""%string ∨ starts_with tools "[" = true
  | AgentEvent.SubtaskAssigned _ _ _ | AgentEvent.SubtaskStarted _ _ _
  | AgentEvent.ToolInvoked _ _ _ _ | AgentEvent.ToolResult _ _ _ _ | AgentEvent.FileModified _ _ _ _
  | AgentEvent.TaskPaused _ | AgentEvent.TaskResumed _ | AgentEvent.TaskCancelled _ => True
  | _ => False
  end.

Lemma subtask_back (st : string) : default ""%string (if st ==? "" then None else Some st) = st.
Proof. by destruct (bool_decide_reflect (st = ""%string)) as [->|]. Qed.

Lemma count_back key n m :
  is_u32 n → m !! key = Some (pretty n) → step_count_of (JString <$> m) key = Some n.
Proof.
  intros Hn Hm. unfold step_count_of. rewrite lookup_fmap, Hm. simpl.
  unfold is_u32 in Hn. rewrite parse_pretty by (unfold u32_max, u64_max in *; lia). simpl. f_equal.
  apply Z.mod_small. unfold u32_max in Hn. lia.
Qed.

Lemma percent_back n m :
  is_u32 n → m !! "percent"%string = Some (pretty n) → percent_of (JString <$> m) = n.
Proof.
  intros Hn Hm. unfold percent_of. rewrite lookup_fmap, Hm. simpl.
  unfold is_u32 in Hn. rewrite parse_pretty by (unfold u32_max, u64_max in *; lia). simpl.
  apply Z.mod_small. unfold u32_max in Hn. lia.
Qed.

Lemma bool_back b key d m : m !! key = Some (bool_str b) → json_bool_or_default (JString <$> m) key d = b.
Proof. intros Hm. unfold json_bool_or_default. rewrite lookup_fmap, Hm. by destruct b. Qed.

Lemma str_back key d s m : m !! key = Some s → str_or (JString <$> m) key d = s.
Proof. intros Hm. unfold str_or, opt_str. by rewrite lookup_fmap, Hm. Qed.

Lemma opt_back key m : opt_str (JString <$> m) key = m !! key.
Proof. unfold opt_str. rewrite lookup_fmap. by destruct (m !! key). Qed.

(** A field that is written when it is there. *)
Lemma put_eq key o m : m !! key = None → put key o m !! key = o.
Proof. intros Hm. destruct o; simpl; [by rewrite lookup_insert_eq|done]. Qed.

Lemma put_ne key key' o m : key ≠ key' → put key o m !! key' = m !! key'.
Proof. intros Hne. destruct o; simpl; [by rewrite lookup_insert_ne|done]. Qed.

Lemma progress_back fresh now t st w phase percent index total agent status summary group count :
  survives (AgentEvent.SubtaskProgress t st w phase percent index total agent status summary group count) →
  nats_event_to_agent_event fresh (wire_of (task_event_of now
    (AgentEvent.SubtaskProgress t st w phase percent index total agent status summary group count)))
  = Some (AgentEvent.SubtaskProgress t st w phase percent index total agent status summary group count).
Proof.
  intros (Hp & Hi & Ht & Hc). unfold task_event_of. cbn [event_fields].
  set (m := put _ _ _).
  assert (Hm : m !! "worker_id"%string = Some w ∧ m !! "phase"%string = Some phase ∧
    m !! "percent"%string = Some (pretty percent) ∧ m !! "step_index"%string = pretty <$> index ∧
    m !! "step_total"%string = pretty <$> total ∧ m !! "step_agent"%string = agent ∧
    m !! "step_status"%string = status ∧ m !! "step_summary"%string = summary ∧
    m !! "parallel_group"%string = group ∧ m !! "parallel_step_count"%string = pretty <$> count).
  { unfold m. split_and!; repeat rewrite put_ne by done; try (rewrite put_eq; [done|]);
      repeat rewrite put_ne by done; done. }
  destruct Hm as (Mw & Mph & Mp & Mi & Mt & Ma & Ms & Msum & Mg & Mc). clearbody m.
  assert (Hcount : ∀ key o, count_ok o → m !! key = pretty <$> o → step_count_of (JString <$> m) key = o).
  { intros key [n|] Ho Hk; [by apply count_back; [apply Ho|]|].
    unfold step_count_of. by rewrite lookup_fmap, Hk. }
  unfold nats_event_to_agent_event, wire_of. cbn [ne_type ne_data ne_task_id ne_subtask_id te_type te_data te_task_id te_subtask_id].
  repeat (rewrite bool_decide_eq_false_2 by done). rewrite bool_decide_eq_true_2 by done.
  rewrite subtask_back, !opt_back, Mw, Ma, Ms, Msum, Mg. cbn [default].
  rewrite (str_back _ _ phase), (percent_back percent) by done.
  by rewrite (Hcount _ index), (Hcount _ total), (Hcount _ count).
Qed.

Lemma failed_back fresh now t st err rec tail tools :
  survives (AgentEvent.SubtaskFailed t st err rec tail tools) →
  nats_event_to_agent_event fresh (wire_of (task_event_of now
    (AgentEvent.SubtaskFailed t st err rec tail tools)))
  = Some (AgentEvent.SubtaskFailed t st err rec tail tools).
Proof.
  intros Hs. unfold task_event_of. cbn [event_fields]. set (m := put _ _ _).
  assert (Hm : m !! "error"%string = Some err ∧ m !! "recoverable"%string = Some (bool_str rec) ∧
    m !! "stderr_tail"%string = (if tail ==? "" then None else Some tail) ∧
    m !! "recent_tools"%string = (if tools ==? "" then None else Some tools)).
  { unfold m. split_and!; repeat rewrite put_ne by done; try (rewrite put_eq; [|]); try done.
    - destruct (bool_decide_reflect (tools = ""%string)) as [|Hne]; [done|].
      unfold stored_tools. destruct Hs as [?|Hb]; [done|by rewrite Hb].
    - by rewrite put_ne. }
  destruct Hm as (Me & Mr & Mt & Mtools). clearbody m.
  unfold nats_event_to_agent_event, wire_of. cbn [ne_type ne_data ne_task_id ne_subtask_id te_type te_data te_task_id te_subtask_id].
  repeat (rewrite bool_decide_eq_false_2 by done). rewrite bool_decide_eq_true_2 by done.
  rewrite subtask_back, (str_back _ _ err), (bool_back rec) by done.
  unfold str_or, recent_tools_of. rewrite opt_back, Mt, lookup_fmap, Mtools.
  destruct (bool_decide_reflect (tail = ""%string)) as [->|];
    destruct (bool_decide_reflect (tools = ""%string)) as [->|]; done.
Qed.

(** A streamed event can be read back.  For every kind of event the gateway reads
    from the wire, the event in the form in which clients see it, numbers and flags as
    text included, reads as the same event; a completion keeps all but its files and its
    simulation flag, a failure its list of tools when it is a JSON array. *)
Theorem streamed_event_reads_back fresh now e :
  survives e → nats_event_to_agent_event fresh (wire_of (task_event_of now e)) = Some e.
Proof.
  intros Hs. destruct e; try done; try (by apply progress_back); try (by apply failed_back);
    cbn -[nats_event_to_agent_event]; unfold nats_event_to_agent_event, wire_of, task_event_of;
    cbn [event_fields ne_type ne_data ne_task_id ne_subtask_id te_type te_data te_task_id te_subtask_id];
    repeat (rewrite bool_decide_eq_false_2 by done); rewrite ?bool_decide_eq_true_2 by done;
    rewrite ?subtask_back; try done.
  - by rewrite (bool_back success).
  - destruct Hs as [-> ->]. by rewrite (bool_back success).
Qed.
End RoundTrip.

#[local] Instance bracket_text : EventText := {|
  json_text := λ _, "[]"%string; changes_text := λ _, "[]"%string; regions_text := λ _, "[]"%string
|}.

Lemma streamed_event_reads_back_witness :
  survives (AgentEvent.SubtaskProgress "t" "a" "w" "run" 40 (Some 2) None None None None None (Some 3)) ∧
  nats_event_to_agent_event "fresh" (wire_of (task_event_of 0
    (AgentEvent.SubtaskProgress "t" "a" "w" "run" 40 (Some 2) None None None None None (Some 3))))
  = Some (AgentEvent.SubtaskProgress "t" "a" "w" "run" 40 (Some 2) None None None None None (Some 3)).
Proof.
  assert (Hs : survives (AgentEvent.SubtaskProgress "t" "a" "w" "run" 40 (Some 2) None None None None None (Some 3))).
  { unfold survives, count_ok, is_u32, u32_max. split_and!; try lia; intros n [= <-]; lia. }
  split; [done|]. exact (streamed_event_reads_back "fresh" 0 _ Hs).
Defined.
