(* ===== verification/GatewayService.v ===== *)
(** * The task service of the gateway (crates/uc-grpc/src/server.rs)

    The two dispatch mouths ([publish_ready_subtasks] and [dispatch_ready_subtasks]), the
    control RPCs, the subscriber's handling of messages, the pause-grace timer and the
    tick of the heartbeat monitor, over the task store, the worker registry and the
    graph plane.

    A [Gateway] holds the three, whether a NATS client is connected, the armed timers,
    what was sent and what was broadcast.  The mutex of the store is held for one
    critical section at a time: [select_ready] and [publish_one] are the sections of a
    dispatch, so that a dispatch is a sequence of steps between which others run.  The
    outcome of a publication is decided by a [Network], an argument of each operation. *)

From Stdlib Require Import String.
From stdpp Require Import gmap strings pretty.
From S2P Require Import Prelude RustStr Tonic Task Events TaskBackend Envelope Placement Graph GraphStore GraphMirror WorkerRegistry GatewayStore GatewayEvents.

(** ** Messages *)

Record NatsSubtaskExecute : Type := mkExecute {
  x_message_id : option string;
  x_description : string;
  x_expected_output : string;
  x_file_constraints : list string;
  x_timeout_seconds : Z;
  x_retry_count : Z;
  x_dispatch_mode : DispatchMode;
  x_effect_class : EffectClass;
  x_required_capabilities : list string;
  x_agent_config_json : option string;
  x_steps : list WorkflowStep;
  x_project_id : string;
  x_graph_id : string;
  x_node_id : string;
  x_attempt_id : string;
  x_idempotency_key : string;
  x_worker_epoch : string;
  x_contract_version : string;
  x_context_block : option ContextBlock
}.

Definition NATS_SUBJECT_SUBTASK_EXECUTE : string := "uc.subtask.execute".

(** What went out: a dispatch with its [Nats-Msg-Id], a control event, a confirmation. *)
Inductive Wire : Type :=
| WireExecute (subject msg_id : string) (payload : NatsSubtaskExecute)
| WireControl (event : NatsTaskEvent)
| WireConfirm (message_id : option string).

Inductive PublishOutcome : Type := Sent | SendFailed | Unserializable.

(** What the client answers to a publication. *)
Record Network : Type := mkNetwork {
  publish_execute : string → NatsSubtaskExecute → PublishOutcome;
  publish_control : NatsTaskEvent → PublishOutcome
}.

Inductive Broadcast : Type :=
| BroadcastEvent (e : AgentEventType)
| BroadcastControl (kind task_id : string) (subtask_id : option string) (data : gmap string JsonValue).

Record Gateway (S B : Type) : Type := mkGateway {
  gw_store : TaskStore S B;
  gw_registry : WorkerRegistry;
  gw_graph : GraphDb;
  gw_connected : bool;
  gw_timers : gset string;
  gw_sent : list Wire;
  gw_broadcast : list Broadcast
}.
Arguments mkGateway {S B} _ _ _ _ _ _ _.
Arguments gw_store {S B} g.
Arguments gw_registry {S B} g.
Arguments gw_graph {S B} g.
Arguments gw_connected {S B} g.
Arguments gw_timers {S B} g.
Arguments gw_sent {S B} g.
Arguments gw_broadcast {S B} g.

Definition to_status (err : EngineError) : Status :=
  match err with
  | NotFound m => (CodeNotFound, m)
  | SearchError m => (CodeInternal, m)
  | IndexError m => (CodeNotFound, m)
  | MemoryReadError m | MemoryWriteError m => (CodeInternal, m)
  | IndexingError m => (CodeInternal, m)
  | ConnectionError m => (CodeUnavailable, m)
  | TimeoutError m => (CodeDeadlineExceeded, m)
  | RateLimited secs => (CodeResourceExhausted, "retry after " +:+ pretty secs +:+ "s")
  | ConflictError path details => (CodeAborted, path +:+ ": " +:+ details)
  | TaskError m => (CodeFailedPrecondition, m)
  | WorkerUnavailable m => (CodeUnavailable, m)
  | SandboxError m => (CodePermissionDenied, m)
  | ConfigError m => (CodeInvalidArgument, m)
  | InternalError m => (CodeInternal, m)
  | StorageError m => (CodeUnavailable, m)
  | InvalidOperation m => (CodeFailedPrecondition, m)
  end.

(** The responses of the control RPCs have the same four fields. *)
Record ControlResponse : Type := mkControl {
  cr_success : bool;
  cr_task_id : string;
  cr_status : string;
  cr_error : option string
}.
Definition refused (task_id error : string) : ControlResponse := mkControl false task_id "" (Some error).
Definition done_response (t : Task) : ControlResponse :=
  mkControl true (tk_id t) (task_status_to_proto (tk_status t)) None.

Section Service.
Context {S B : Type} `{EventStore S} `{TaskStoreBackend B}.
Context `{Sha256, BlockJson, MetadataJson, PgErrors}.
Context (iter : gmap string Task → list (string * Task)).
Context (values : gmap string RegisteredWorker → list RegisteredWorker).
Notation gateway := (Gateway S B).

Definition set_store (s : TaskStore S B) (g : gateway) : gateway :=
  mkGateway s (gw_registry g) (gw_graph g) (gw_connected g) (gw_timers g) (gw_sent g) (gw_broadcast g).
Definition set_registry (r : WorkerRegistry) (g : gateway) : gateway :=
  mkGateway (gw_store g) r (gw_graph g) (gw_connected g) (gw_timers g) (gw_sent g) (gw_broadcast g).
Definition set_graph (d : GraphDb) (g : gateway) : gateway :=
  mkGateway (gw_store g) (gw_registry g) d (gw_connected g) (gw_timers g) (gw_sent g) (gw_broadcast g).
Definition set_timers (x : gset string) (g : gateway) : gateway :=
  mkGateway (gw_store g) (gw_registry g) (gw_graph g) (gw_connected g) x (gw_sent g) (gw_broadcast g).
Definition send (w : Wire) (g : gateway) : gateway :=
  mkGateway (gw_store g) (gw_registry g) (gw_graph g) (gw_connected g) (gw_timers g) (gw_sent g ++ [w])
    (gw_broadcast g).
Definition broadcast (b : Broadcast) (g : gateway) : gateway :=
  mkGateway (gw_store g) (gw_registry g) (gw_graph g) (gw_connected g) (gw_timers g) (gw_sent g)
    (gw_broadcast g ++ [b]).

(** ** Dispatch *)

Definition subtask_execute_payload (now : Instant) (task_id : string) (st : Subtask)
    (project_id expected_output : string) (file_constraints : list string)
    (context_block : option ContextBlock) : NatsSubtaskExecute :=
  let env := for_dispatch task_id (subtask_id st) (dispatch_retry_count st) in
  mkExecute
    (Some (task_id +:+ ":execute:" +:+ subtask_id st +:+ ":" +:+ pretty (timestamp_millis now)))
    (subtask_description st) expected_output file_constraints 600 (dispatch_retry_count st)
    (dispatch_mode st) (effect_class st) (required_capabilities st) (agent_config_json st) (steps st)
    project_id (env_graph_id env) (env_node_id env) (env_attempt_id env) (env_idempotency_key env)
    (env_worker_epoch env) (env_contract_version env) context_block.

Definition compose_context_block (graph_id : string) (dep_ids : list string) (g : gateway)
    : option ContextBlock :=
  match dep_ids with
  | [] => None
  | _ =>
      if graph_wired (gw_store g) then compose (committed_dep_outputs graph_id dep_ids (gw_graph g))
      else None
  end.

Definition sibling_worker_hosts (task_id : string) (s : TaskStore S B) (r : WorkerRegistry)
    : gset string :=
  match get_task task_id s with
  | Some t => list_to_set (omap (λ st, w ← assigned_worker st; worker_host w r) (tk_subtasks t))
  | None => ∅
  end.

Definition resolve_dispatch_subject (now : Instant) (r : WorkerRegistry) (st : Subtask)
    (project_id : string) (sibling_hosts : gset string) (independence : ReviewIndependence) : string :=
  match placement_target values now (required_capabilities st) project_id (file_constraints st)
          sibling_hosts (excluded_producers independence) r with
  | Some p => placement_subject p
  | None => NATS_SUBJECT_SUBTASK_EXECUTE
  end.

Definition DISPATCH_CAP : Z := 3.

(** The body of the selection loop: the nodes to publish, the store and the registry. *)
Definition select_one (now : Instant) (task_id project_id : string) (task : option Task)
    (hosts : gset string) (acc : list (Subtask * string) * TaskStore S B * WorkerRegistry)
    (st : Subtask) : list (Subtask * string) * TaskStore S B * WorkerRegistry :=
  let '(out, s, r) := acc in
  if DISPATCH_CAP <=? dispatch_retry_count st
  then (out, update_subtask_status now task_id (subtask_id st) SubtaskFailed s, r)
  else
    let independence := review_independence st task in
    match dispatch_gate values now (required_capabilities st) project_id independence r with
    | (Dispatch, r) =>
        (out ++ [(st, resolve_dispatch_subject now r st project_id hosts independence)],
         update_subtask_status now task_id (subtask_id st) SubtaskAssigned s, r)
    | (_, r) => (out, s, r)
    end.

(** The critical section: what is ready is marked before anything is published. *)
Definition select_ready (now : Instant) (task_id : string) (g : gateway)
    : list (Subtask * string) * string * gateway :=
  let s := gw_store g in
  let task := get_task task_id s in
  let project_id := default ""%string (tk_project_id <$> task) in
  let hosts := sibling_worker_hosts task_id s (gw_registry g) in
  let '(out, s, r) := foldl (select_one now task_id project_id task hosts)
                        ([], s, gw_registry g) (get_ready_subtasks task_id s) in
  (out, project_id, set_registry r (set_store s g)).

Definition publish_failed (now : Instant) (task_id : string) (st : Subtask) (s : TaskStore S B)
    : TaskStore S B :=
  if dispatch_mode st ==? Remote then
    let '(n, s) := increment_dispatch_retry now task_id (subtask_id st) s in
    let new_retry := default ((dispatch_retry_count st + 1) `mod` 2 ^ 32) n in
    update_subtask_status now task_id (subtask_id st)
      (if DISPATCH_CAP <=? new_retry then SubtaskFailed else SubtaskPending) s
  else update_subtask_status now task_id (subtask_id st) SubtaskPending s.

(** The two mouths differ in what they put into the payload. *)
Inductive Mouth : Type := PublishMouth | DispatchMouth.

Definition publish_one (mouth : Mouth) (net : Network) (now : Instant) (task_id project_id : string)
    (g : gateway) (x : Subtask * string) : gateway :=
  let '(st, subject) := x in
  let ctx := compose_context_block task_id (depends_on st) g in
  let execute :=
    match mouth with
    | PublishMouth => subtask_execute_payload now task_id st project_id "" [] ctx
    | DispatchMouth =>
        subtask_execute_payload now task_id st project_id (expected_output st) (file_constraints st) ctx
    end in
  match publish_execute net subject execute with
  | Sent => send (WireExecute subject (x_idempotency_key execute) execute) g
  | SendFailed => set_store (publish_failed now task_id st (gw_store g)) g
  | Unserializable => g
  end.

Definition dispatch_ready_subtasks (net : Network) (now : Instant) (task_id : string) (g : gateway)
    : gateway :=
  let '(ready, project_id, g) := select_ready now task_id g in
  foldl (publish_one DispatchMouth net now task_id project_id) g ready.

Definition publish_ready_subtasks (net : Network) (now : Instant) (task_id : string) (g : gateway)
    : gateway :=
  let '(ready, project_id, g) := select_ready now task_id g in
  if gw_connected g then foldl (publish_one PublishMouth net now task_id project_id) g ready else g.

(** [if let Some(client) = nats_client]. *)
Definition dispatch_if_connected (net : Network) (now : Instant) (task_id : string) (g : gateway)
    : gateway := if gw_connected g then dispatch_ready_subtasks net now task_id g else g.
End Service.
