(* ===== verification/GatewayRpc.v ===== *)
(** * The handlers of the task service (crates/uc-grpc/src/server.rs)

    The control RPCs (pause, resume, cancel of a task, of a node and of an attempt,
    update, retry, the merge grants), the pause-grace timer, the tick of the heartbeat
    monitor and the subscriber's handling of updates, events, heartbeats and snapshots.
    A handler answers [Err] when the durability flush of its command fails. *)

From Stdlib Require Import String.
From stdpp Require Import gmap strings pretty.
From S2P Require Import Prelude RustStr Tonic Task Events TaskBackend Envelope Placement Merge Graph GraphStore GraphMirror WorkerRegistry GatewayStore GatewayEvents GatewayService.

(** A subtask as [UpdateTaskRequest] carries it. *)
Record ProtoStep : Type := mkProtoStep {
  ps_agent : string;
  ps_prompt : string;
  ps_agent_config_json : option string;
  ps_abort_on_failure : option bool;
  ps_retry_count : option Z;
  ps_retry_delay_ms : option Z;
  ps_condition : option string;
  ps_parallel_group : option string
}.

Record ProtoSubtask : Type := mkProtoSubtask {
  pst_id : string;
  pst_status : string;
  pst_description : string;
  pst_assigned_worker : option string;
  pst_depends_on : list string;
  pst_file_constraints : list string;
  pst_expected_output : string;
  pst_dispatch_mode : option string;
  pst_dispatch_retry_count : option Z;
  pst_retry_count : option Z;
  pst_required_capabilities : list string;
  pst_steps : list ProtoStep;
  pst_parent_id : string;
  pst_result : option string;
  pst_agent_config_json : option string;
  pst_review_json : option string
}.

Definition proto_subtask_status_from_str (s : string) : result SubtaskStatus string :=
  match subtask_status_from_str s with
  | Some status => Ok status
  | None => Err ("Unknown SubtaskStatus: " +:+ s)
  end.

Definition step_of_proto (s : ProtoStep) : WorkflowStep :=
  mkStep (ps_agent s) (ps_prompt s) (ps_agent_config_json s) (default true (ps_abort_on_failure s))
    (default 0 (ps_retry_count s)) (default 0 (ps_retry_delay_ms s)) (ps_condition s)
    (ps_parallel_group s).

Definition subtask_of_proto (task_id : string) (p : ProtoSubtask) : Subtask :=
  mkSubtask (pst_id p) task_id (pst_description p)
    (match proto_subtask_status_from_str (pst_status p) with Ok x => x | Err _ => SubtaskPending end)
    (pst_assigned_worker p) (pst_depends_on p) (pst_file_constraints p) (pst_expected_output p) None
    (match pst_dispatch_mode p with
     | Some m => if m ==? "Remote" then Remote else PreferRemote
     | None => PreferRemote
     end)
    RequiresWorker (default 0 (pst_dispatch_retry_count p)) (pst_required_capabilities p) None
    (step_of_proto <$> pst_steps p) (default 0 (pst_retry_count p)).

Record CancelTaskRequest : Type := mkCancel {
  cancel_task_id : string;
  cancel_subtask_id : option string;
  cancel_attempt_no : option Z
}.

Record RetryResponse : Type := mkRetryResponse {
  rr_success : bool;
  rr_task : option Task;
  rr_error : option string
}.

Section Rpc.
Context {S B : Type} `{EventStore S} `{TaskStoreBackend B}.
Context `{Sha256, BlockJson, MetadataJson, PgErrors}.
Context (iter : gmap string Task → list (string * Task)).
Context (values : gmap string RegisteredWorker → list RegisteredWorker).
Notation gateway := (Gateway S B).

(** ** Control events *)

Definition publish_task_control_event (net : Network) (now : Instant) (task_id event_type : string)
    (subtask_id : option string) (data : gmap string JsonValue) (g : gateway) : gateway :=
  if negb (gw_connected g) then g
  else
    let message_id := task_id +:+ ":" +:+ event_type +:+ ":" +:+ default "-"%string subtask_id +:+ "::"
                      +:+ pretty (timestamp_millis now) in
    let event := mkNatsEvent default_event_version (Some message_id) event_type task_id subtask_id data in
    match publish_control net event with
    | Sent =>
        let g := send (WireControl event) g in
        set_store (check_and_record_message_id now (Some message_id) (gw_store g)).2 g
    | SendFailed | Unserializable => g
    end.

Definition publish_task_status_event (net : Network) (now : Instant) (task_id event_type : string)
    (g : gateway) : gateway := publish_task_control_event net now task_id event_type None ∅ g.

Definition swept_data (s : SweptAttempt) (reason : string) : gmap string JsonValue :=
  <["attempt_id"%string := JString (swept_attempt_id s)]>
    (<["rearmed"%string := JBool (swept_rearmed s)]> {["reason"%string := JString reason]}).

Definition announce_swept (net : Network) (now : Instant) (task_id reason : string) (g : gateway)
    (s : SweptAttempt) : gateway :=
  publish_task_control_event net now task_id "attempt_cancelled" (Some (swept_node_id s))
    (swept_data s reason) g.

(** ** Pause, resume *)

(** A control command of the store, its event and the flush: one critical section. *)
Definition command (now : Instant) (task_id : string)
    (cmd : TaskStore S B → result Task string * TaskStore S B) (event : TaskId → AgentEventType)
    (g : gateway) : result (result Task string) Status * gateway :=
  match cmd (gw_store g) with
  | (Err e, s) => (Ok (Err e), set_store s g)
  | (Ok t, s) =>
      match flush_task_state now task_id (TaskStore_record_event (event (tk_id t)) s) with
      | (Err e, s) => (Err (CodeUnavailable, e), set_store s g)
      | (Ok _, s) => (Ok (Ok t), broadcast (BroadcastEvent (event (tk_id t))) (set_store s g))
      end
  end.

Definition pause_task_rpc (net : Network) (now : Instant) (task_id : string) (g : gateway)
    : result ControlResponse Status * gateway :=
  match command now task_id (pause_task now task_id) AgentEvent.TaskPaused g with
  | (Err e, g) => (Err e, g)
  | (Ok (Err e), g) => (Ok (refused task_id e), g)
  | (Ok (Ok t), g) =>
      let g := set_timers ({[task_id]} ∪ gw_timers g) g in
      (Ok (done_response t), publish_task_status_event net now task_id "task_paused" g)
  end.

Definition resume_task_rpc (net : Network) (now : Instant) (task_id : string) (g : gateway)
    : result ControlResponse Status * gateway :=
  match command now task_id (resume_task now task_id) AgentEvent.TaskResumed g with
  | (Err e, g) => (Err e, g)
  | (Ok (Err e), g) => (Ok (refused task_id e), g)
  | (Ok (Ok t), g) =>
      let g := set_timers (gw_timers g ∖ {[task_id]}) g in
      let g := dispatch_if_connected values net now task_id g in
      (Ok (done_response t), publish_task_status_event net now task_id "task_resumed" g)
  end.

(** The bridge from swept attempts to the rows of the store; the tasks it touched. *)
Definition bridge_one (now : Instant) (acc : list string * TaskStore S B) (s : SweptAttempt)
    : list string * TaskStore S B :=
  let '(affected, store) := acc in
  match revert_swept_subtask now (swept_graph_id s) (swept_node_id s) (swept_rearmed s) store with
  | (true, store) =>
      (if existsb (λ id, id ==? swept_graph_id s) affected then affected
       else affected ++ [swept_graph_id s], store)
  | (false, store) => (affected, store)
  end.

(** The timer of a task that fires. *)
Definition pause_grace_expired (net : Network) (now : Instant) (task_id : string) (g : gateway)
    : gateway :=
  if negb (bool_decide (task_id ∈ gw_timers g)) then g
  else
    let g := set_timers (gw_timers g ∖ {[task_id]}) g in
    if negb (from_option (λ t, tk_status t ==? TaskPaused) false (get_task task_id (gw_store g))) then g
    else if negb (graph_wired (gw_store g)) then g
    else
      let '(swept, d) := sink_fail_running_attempts now task_id "pause_grace_expired" (gw_graph g) in
      let g := set_graph d g in
      match swept with
      | [] => g
      | _ =>
          let s := foldl (λ s x, (revert_swept_subtask now task_id (swept_node_id x) (swept_rearmed x) s).2)
                     (gw_store g) swept in
          foldl (announce_swept net now task_id "pause_grace_expired") (set_store s g) swept
      end.

(** ** Cancel *)

Definition no_running_attempt (node_id : string) : string :=
  "no running attempt to cancel for node " +:+ node_id
  +:+ " (shadow off, terminal already, or the cancel lost a race with a commit)".

Definition cancel_task_attempt_granular (net : Network) (now : Instant) (task_id node_id : string)
    (g : gateway) : ControlResponse * gateway :=
  let '(swept, d) :=
    if graph_wired (gw_store g) then sink_cancel_running_attempt now task_id node_id (gw_graph g)
    else (None, gw_graph g) in
  let g := set_graph d g in
  match swept with
  | None => (refused task_id (no_running_attempt node_id), g)
  | Some x =>
      let '(bridged, s) := revert_swept_subtask now task_id node_id (swept_rearmed x) (gw_store g) in
      let g := set_store s g in
      let data := <["bridged"%string := JBool bridged]> (swept_data x "cancelled") in
      let g := publish_task_control_event net now task_id "attempt_cancelled" (Some node_id) data g in
      let g := broadcast (BroadcastControl "attempt_cancelled" task_id (Some node_id) data) g in
      let g := if swept_rearmed x then dispatch_if_connected values net now task_id g else g in
      (mkControl true task_id (if swept_rearmed x then "rearmed" else "failed") None, g)
  end.

Definition nothing_cancelled : string :=
  "nothing cancelled (no graph shadow, or every node in the closure is already terminal)".

Definition announce_cancelled (net : Network) (now : Instant) (task_id : string)
    (cancelled : list string) (g : gateway) (root : string) : gateway :=
  let data := <["cancelled_nodes"%string := JString (join "," cancelled)]>
                {["reason"%string := JString "cancelled"]} in
  let g := publish_task_control_event net now task_id "subtask_cancelled" (Some root) data g in
  broadcast (BroadcastControl "subtask_cancelled" task_id (Some root) data) g.

Definition cancel_task_nodes_granular (net : Network) (now : Instant) (task_id : string)
    (roots : list string) (g : gateway) : ControlResponse * gateway :=
  let '(cancelled, d) :=
    if graph_wired (gw_store g)
    then sink_cancel_nodes now task_id (default [] (downstream_closure task_id roots (gw_graph g)))
           (gw_graph g)
    else ([], gw_graph g) in
  let g := set_graph d g in
  match cancelled with
  | [] => (refused task_id nothing_cancelled, g)
  | _ =>
      let g := set_store (fail_subtasks now task_id cancelled (gw_store g)).2 g in
      let g := foldl (announce_cancelled net now task_id cancelled) g roots in
      (mkControl true task_id "cancelled" None, g)
  end.

Definition cancel_task_rpc (net : Network) (now : Instant) (req : CancelTaskRequest) (g : gateway)
    : result ControlResponse Status * gateway :=
  let task_id := cancel_task_id req in
  match cancel_subtask_id req, cancel_attempt_no req with
  | Some node_id, Some _ =>
      let '(r, g) := cancel_task_attempt_granular net now task_id node_id g in (Ok r, g)
  | Some node_id, None =>
      let '(r, g) := cancel_task_nodes_granular net now task_id [node_id] g in (Ok r, g)
  | None, _ =>
      match command now task_id (cancel_task now task_id) AgentEvent.TaskCancelled g with
      | (Err e, g) => (Err e, g)
      | (Ok (Err e), g) => (Ok (refused task_id e), g)
      | (Ok (Ok t), g) =>
          let g := publish_task_status_event net now task_id "task_cancelled" g in
          let '(swept, d) :=
            if graph_wired (gw_store g)
            then sink_fail_running_attempts now task_id "task_cancelled" (gw_graph g)
            else ([], gw_graph g) in
          let g := foldl (announce_swept net now task_id "task_cancelled") (set_graph d g) swept in
          (Ok (done_response t), g)
      end
  end.

(** ** Update and retry *)

Definition update_task_rpc (net : Network) (fresh : string → string) (now : Instant)
    (task_id status description project_id : string) (l : list ProtoSubtask) (g : gateway)
    : ControlResponse * gateway :=
  match update_task fresh now task_id status (subtask_of_proto task_id <$> l) description project_id
          (gw_store g) with
  | (Err e, s) => (refused task_id e, set_store s g)
  | (Ok (t, events), s) =>
      let g := foldl (λ g e, broadcast (BroadcastEvent e) g) (set_store s g) events in
      (done_response t, publish_ready_subtasks values net now (tk_id t) g)
  end.

Definition retry_subtask_rpc (net : Network) (now : Instant) (task_id node_id : string)
    (expected_attempt : Z) (g : gateway) : result RetryResponse Status * gateway :=
  match retry_subtask now task_id node_id expected_attempt (gw_store g) with
  | (Err e, s) => (Ok (mkRetryResponse false None (Some e)), set_store s g)
  | (Ok t, s) =>
      match flush_task_state now task_id s with
      | (Err e, s) => (Err (CodeUnavailable, e), set_store s g)
      | (Ok _, s) =>
          let g := set_store s g in
          let g :=
            if graph_wired (gw_store g) then
              let attempt :=
                default ((expected_attempt + 1) `mod` 2 ^ 32)
                  (dispatch_retry_count <$> find (has_subtask_id node_id) (tk_subtasks t)) in
              set_graph (on_retry now (ExecutionEnvelope_new task_id node_id (pretty attempt)) (gw_graph g)) g
            else g in
          let g := publish_task_status_event net now task_id "task_resumed" g in
          (Ok (mkRetryResponse true (Some t) None), publish_ready_subtasks values net now task_id g)
      end
  end.

(** ** The merge barrier *)

Definition issue_merge_grant_rpc (now : Instant) (graph_id : string) (g : gateway)
    : MergeGrantDecision * gateway :=
  if trim graph_id ==? "" then (refuse "graph_id cannot be empty", g)
  else if graph_wired (gw_store g) then
    let '(decision, d) := issue_merge_grant now graph_id (gw_graph g) in (decision, set_graph d g)
  else (refuse "graph plane not configured", g).

Definition report_merge_outcome_rpc (now : Instant) (graph_id key : string) (outcome : MergeOutcomeReport)
    (g : gateway) : MergeReportDecision * gateway :=
  if trim graph_id ==? "" then (mkReportDecision false false, g)
  else if graph_wired (gw_store g) then
    let '(decision, d) := report_merge_outcome now graph_id key outcome (gw_graph g) in
    (decision, set_graph d g)
  else (mkReportDecision false false, g).

(** ** The heartbeat monitor *)

Definition heartbeat_tick (net : Network) (now heartbeat_timeout : Z) (g : gateway) : gateway :=
  let '(_, s) := mark_stale_tasks_failed iter now heartbeat_timeout (gw_store g) in
  let '(stale_workers, s) := mark_stale_workers now heartbeat_timeout s in
  let g := set_registry (foldl (λ r id, (deregister id r).2) (gw_registry g) stale_workers)
             (set_store s g) in
  if negb (graph_wired (gw_store g)) then g
  else
    let '(swept, d) := sink_sweep_timeouts now heartbeat_timeout (gw_graph g) in
    let '(affected, s) := foldl (bridge_one now) ([], gw_store g) swept in
    foldl (λ g id, dispatch_ready_subtasks values net now id g) (set_store s (set_graph d g)) affected.

(** ** The subscriber *)

(** The event of a node whose status an update changed. *)
Definition change_event (task_id fresh : string) (previous : gmap string SubtaskStatus) (st : Subtask)
    : option AgentEventType :=
  if bool_decide (previous !! subtask_id st = Some (subtask_status st)) then None
  else
    let worker := default fresh (assigned_worker st) in
    match subtask_status st with
    | SubtaskAssigned => Some (AgentEvent.SubtaskAssigned task_id (subtask_id st) worker)
    | SubtaskInProgress => Some (AgentEvent.SubtaskStarted task_id (subtask_id st) worker)
    | SubtaskCompleted => Some (AgentEvent.SubtaskCompleted task_id (subtask_id st) "" true [] "" false)
    | SubtaskFailed => Some (AgentEvent.SubtaskFailed task_id (subtask_id st) "" false "" "")
    | _ => None
    end.

(** The event of a task whose status changed. *)
Definition status_event (previous : option TaskStatus) (result : option string) (t : Task)
    : option AgentEventType :=
  if bool_decide (previous = Some (tk_status t)) then None
  else Some match tk_status t with
            | TaskCompleted => AgentEvent.TaskCompleted (tk_id t) (tk_description t) (default ""%string result)
            | TaskFailed => AgentEvent.TaskFailed (tk_id t) (default ""%string result)
            | other => AgentEvent.TaskUpdated (tk_id t) (task_status_to_proto other)
            end.

(** The last entry of an id wins, as in [collect] into a [HashMap]. *)
Definition statuses_of (t : option Task) : gmap string SubtaskStatus :=
  foldl (λ m st, <[subtask_id st := subtask_status st]> m) ∅ (from_option tk_subtasks [] t).

Definition update_events (fresh : nat → string) (before after : option Task) (u : NatsTaskUpdate)
    : list AgentEventType :=
  match after with
  | None => []
  | Some t =>
      concat (imap (λ i e, opt_list
        (st ← find (has_subtask_id (su_subtask_id e)) (tk_subtasks t);
         change_event (tk_id t) (fresh i) (statuses_of before) st)) (tu_subtasks u))
      ++ opt_list (status_event (tk_status <$> before) (tu_result u) t)
  end.

(** The reply to the sender of an update addressed to the gateway. *)
Definition confirm (now : Instant) (to_gateway has_reply : bool) (u : NatsTaskUpdate) (g : gateway)
    : gateway :=
  let '(ok, s) := confirm_terminal_update now to_gateway (tu_task_id u) (gw_store g) in
  let g := set_store s g in
  if ok && has_reply then send (WireConfirm (tu_message_id u)) g else g.

(** The section that applies an update and records what it changed; [false] when the
    update has become stale since it was checked. *)
Definition apply_section (fresh fresh' fresh'' : nat → string) (now : Instant)
    (e : NatsTaskUpdateEnvelope) (g : gateway) : bool * gateway :=
  let u := env_update e in
  let s := gw_store g in
  if full_snapshot_is_stale u s
  then (false, set_store (match tu_message_id u with
                          | Some id => set_seen (delete id (seen_messages s)) s
                          | None => s
                          end) g)
  else
    let before := tasks s !! tu_task_id u in
    let s := apply_update_with_metadata iter fresh fresh' now u (env_description e) (env_project_id e) s in
    let events := update_events fresh'' before (tasks s !! tu_task_id u) u in
    (true, foldl (λ g ev, broadcast (BroadcastEvent ev) g) (set_store (record_all events s) g) events).

Definition on_task_update (net : Network) (fresh fresh' fresh'' : nat → string) (now : Instant)
    (to_gateway has_reply : bool) (e : NatsTaskUpdateEnvelope) (g : gateway) : gateway :=
  let u := env_update e in
  let s := gw_store g in
  if tu_partial u && negb (bool_decide (is_Some (tasks s !! tu_task_id u))) then g
  else if full_snapshot_is_stale u s then g
  else
    match check_and_record_message_id now (tu_message_id u) s with
    | (true, s) => confirm now to_gateway has_reply u (set_store s g)
    | (false, s) =>
        match apply_section fresh fresh' fresh'' now e (set_store s g) with
        | (false, g) => g
        | (true, g) =>
            let g := dispatch_ready_subtasks values net now (tu_task_id u) g in
            confirm now to_gateway has_reply u g
        end
    end.

Definition on_task_event `{EventText} (fresh : string) (now : Instant) (e : NatsTaskEvent) (g : gateway)
    : gateway :=
  match check_and_record_message_id now (ne_message_id e) (gw_store g) with
  | (true, s) => set_store s g
  | (false, s) =>
      let g := set_store s g in
      match nats_event_to_agent_event fresh e with
      | Some ev => broadcast (BroadcastEvent ev) (set_store (TaskStore_record_event ev (gw_store g)) g)
      | None => g
      end
  end.

(** [hb] is the parsed heartbeat: the consumer and its counter. *)
Definition on_worker_heartbeat (now : Instant) (hb : option (string * option Z)) (g : gateway) : gateway :=
  let s := update_last_heartbeat now (gw_store g) in
  set_store (match hb with
             | Some (consumer, dropped) => update_worker_heartbeat now consumer dropped s
             | None => s
             end) g.

Definition on_snapshots (fresh fresh' : nat → string) (now : Instant)
    (response : list NatsTaskUpdateEnvelope) (g : gateway) : gateway :=
  set_store (apply_task_snapshot_response iter fresh fresh' now response (gw_store g)).2 g.

(** ** Spawned graph calls *)

Definition run_call (now : Instant) (c : GraphCall) (d : GraphDb) : GraphDb :=
  match c with
  | CallShadow t => shadow_persist t d
  | CallSchedule gr n a w => on_schedule now (ExecutionEnvelope_new gr n (pretty a)) w d
  | CallHeartbeat gr n a => on_heartbeat now (ExecutionEnvelope_new gr n (pretty a)) d
  | CallCommit gr n a r u st => on_commit now (ExecutionEnvelope_new gr n (pretty a)) r u st d
  | CallFail gr n a reason => on_fail now (ExecutionEnvelope_new gr n (pretty a)) reason d
  end.

(** Any of the spawned calls may be the next to run. *)
Definition run_spawned_call (now : Instant) (i : nat) (g : gateway) : gateway :=
  match graph_spawned (gw_store g) !! i with
  | Some c =>
      let s := gw_store g in
      set_graph (run_call now c (gw_graph g))
        (set_store (set_spawned (take i (graph_spawned s) ++ drop (Datatypes.S i) (graph_spawned s)) s) g)
  | None => g
  end.
End Rpc.

(** ** Watching *)

(** [list_tasks]: how many tasks there are of each status. *)
Definition task_status_counts (l : list Task) : gmap string Z :=
  foldl (λ m t, let k := task_status_to_proto (tk_status t) in <[k := default 0 (m !! k) + 1]> m) ∅ l.

(** What a receiver of the broadcast channel yields. *)
Inductive Received : Type :=
| Live (e : TaskEventProto)
| Lagged (n : Z).

(** What a watcher sees: an event, or a request to synchronize again. *)
Inductive Watched : Type :=
| WatchedEvent (e : TaskEventProto)
| SyncRequired (skipped : Z).

(** The live phase of [watch_task], with the counter of events still to skip. *)
Fixpoint watch_live (task_id : string) (skip : nat) (l : list Received) : list Watched :=
  match l with
  | [] => []
  | Live e :: l =>
      if negb (task_id ==? "") && negb (te_task_id e ==? task_id) then watch_live task_id skip l
      else match skip with
           | Datatypes.S k => watch_live task_id k l
           | O => WatchedEvent e :: watch_live task_id 0 l
           end
  | Lagged n :: l => SyncRequired n :: watch_live task_id 0 l
  end.

(** [replayed] is the log in memory when the stream starts, [live] what the receiver, which
    subscribed before, gets. *)
Definition watch_task (task_id : string) (replayed : list TaskEventProto) (live : list Received)
    : list Watched :=
  let history := if task_id ==? "" then []
                 else filterb (λ e, te_task_id e ==? task_id) replayed in
  (WatchedEvent <$> history) ++ watch_live task_id (length history) live.
