(* ===== verification/GatewayDispatch.v ===== *)
(** * Properties of the dispatch

    What one pass of a dispatch mouth selects, marks and publishes; passes as machines that
    take the store's mutex once to select and once per message, interleaved with commands and
    reports ([dispatch_step]), and what a pause holds back of them; and runs that show where
    dispatch, cancellation and retries do not fit together. *)

From Stdlib Require Import String.
From stdpp Require Import gmap strings pretty.
From S2P Require Import Prelude RustStr Tonic Task Events TaskBackend Envelope Placement Graph GraphStore GraphMirror WorkerRegistry GatewayStore GatewayStoreProps GatewayFence GatewayEvents GatewayService GatewayRpc.

(** ** Lists of nodes by id *)

Lemma alter_first_ids f p l :
  keeps_id f → subtask_id <$> alter_first p f l = subtask_id <$> l.
Proof.
  intros Hf. induction l as [|x l IH]; [done|]. simpl. destruct (p x); csimpl; [by rewrite Hf|by rewrite IH].
Qed.

Lemma node_of_elem l st : NoDup (subtask_id <$> l) → st ∈ l → node (subtask_id st) l = Some st.
Proof.
  intros Hnd Hst. unfold node, has_subtask_id. induction l as [|x l IH]; [by apply elem_nil in Hst|]. csimpl.
  rewrite fmap_cons, NoDup_cons in Hnd. destruct Hnd as [Hx Hnd].
  apply elem_of_cons in Hst as [->|Hst]; [by rewrite bool_decide_eq_true_2|].
  rewrite bool_decide_eq_false_2; [by apply IH|]. intros E. apply Hx. rewrite E. by apply list_elem_of_fmap_2.
Qed.

Lemma NoDup_fmap_filterb {A B} (f : A → B) (p : A → bool) l : NoDup (f <$> l) → NoDup (f <$> filterb p l).
Proof.
  unfold filterb. induction l as [|x l IH]; [done|]. rewrite fmap_cons, NoDup_cons. intros [Hx Hnd].
  simpl. destruct (p x); [|by apply IH]. rewrite fmap_cons. apply NoDup_cons. split; [|by apply IH].
  intros (y & E & Hy)%list_elem_of_fmap. apply Hx. rewrite E. apply list_elem_of_fmap_2.
  by apply (filterb_elem p l y) in Hy as [? _].
Qed.

Section Select.
Context {S B : Type} `{EventStore S} `{TaskStoreBackend B}.
Context `{Sha256, BlockJson, MetadataJson, PgErrors}.
Context (iter : gmap string Task → list (string * Task)).
Context (values : gmap string RegisteredWorker → list RegisteredWorker).
Notation gateway := (Gateway S B).
Implicit Types (s : TaskStore S B) (g : gateway).

(** *** Statuses *)

Definition mark_task (now : Instant) (nid : string) (new : SubtaskStatus) (t : Task) : Task :=
  with_task_subtasks (alter_first (has_subtask_id nid) (with_subtask_status new) (tk_subtasks t))
    (set_task_state (tk_status t) now t).

Lemma keeps_id_status new : keeps_id (with_subtask_status new).
Proof. by intros st. Qed.

Lemma node_mark now nid new t id :
  node id (tk_subtasks (mark_task now nid new t))
  = if decide (id = nid) then with_subtask_status new <$> node id (tk_subtasks t)
    else node id (tk_subtasks t).
Proof. apply node_alter, keeps_id_status. Qed.

Lemma update_status_tasks now id nid new s t st :
  tasks s !! id = Some t → node nid (tk_subtasks t) = Some st →
  tasks (update_subtask_status now id nid new s) = <[id := mark_task now nid new t]> (tasks s).
Proof.
  intros Ht Hn. unfold update_subtask_status. unfold node in Hn. rewrite Ht, Hn.
  rewrite tasks_persist. destruct (_ && _); [by rewrite tasks_spawn|done].
Qed.

(** *** The selection loop *)

(** The verdict and the subject depend on the workers and the policy only. *)
Lemma gate_same now required project ind r r' :
  workers r = workers r' → 
  (dispatch_gate values now required project ind r).1 = (dispatch_gate values now required project ind r').1.
Proof.
  intros E. unfold dispatch_gate, workers_with_capabilities, workers_with_capabilities_excluding, available_workers.
  rewrite E. repeat case_match; done.
Qed.

Lemma gate_keeps now required project ind r :
  workers (dispatch_gate values now required project ind r).2 = workers r ∧
  placement_policy (dispatch_gate values now required project ind r).2 = placement_policy r.
Proof. unfold dispatch_gate. repeat case_match; done. Qed.

Lemma subject_same now r r' st project hosts ind :
  workers r = workers r' → placement_policy r = placement_policy r' →
  resolve_dispatch_subject values now r st project hosts ind
  = resolve_dispatch_subject values now r' st project hosts ind.
Proof.
  intros E P. unfold resolve_dispatch_subject, placement_target, dispatch_candidates,
    workers_with_capabilities_excluding, available_workers. by rewrite E, P.
Qed.

Section Loop.
Context (now : Instant) (id project : string) (task : option Task) (hosts : gset string)
  (r0 : WorkerRegistry).

(** What a ready node becomes. *)
Definition verdict (st : Subtask) : option SubtaskStatus :=
  if DISPATCH_CAP <=? dispatch_retry_count st then Some SubtaskFailed
  else match (dispatch_gate values now (required_capabilities st) project
                (review_independence st task) r0).1 with
       | Dispatch => Some SubtaskAssigned
       | _ => None
       end.

Definition chosen (st : Subtask) : bool := bool_decide (verdict st = Some SubtaskAssigned).

Definition subject_for_node (st : Subtask) : string :=
  resolve_dispatch_subject values now r0 st project hosts (review_independence st task).

Definition mark_all (l : list Subtask) (t : Task) : Task :=
  foldl (λ t st, match verdict st with
                 | Some new => mark_task now (subtask_id st) new t
                 | None => t
                 end) t l.

Lemma select_one_spec out s r t st st' :
  tasks s !! id = Some t → node (subtask_id st) (tk_subtasks t) = Some st' →
  workers r = workers r0 → placement_policy r = placement_policy r0 →
  let '(out', s', r') := select_one values now id project task hosts (out, s, r) st in
  out' = out ++ (if chosen st then [(st, subject_for_node st)] else []) ∧
  tasks s' = <[id := mark_all [st] t]> (tasks s) ∧
  workers r' = workers r0 ∧ placement_policy r' = placement_policy r0.
Proof.
  intros Ht Hn Hw Hp. unfold select_one, chosen, mark_all, verdict. cbn [foldl].
  destruct (DISPATCH_CAP <=? dispatch_retry_count st).
  { rewrite app_nil_r. split_and!; try done. by erewrite update_status_tasks. }
  pose proof (gate_same now (required_capabilities st) project (review_independence st task) r r0 Hw) as Hs.
  pose proof (gate_keeps now (required_capabilities st) project (review_independence st task) r) as [Kw Kp].
  destruct (dispatch_gate values now (required_capabilities st) project (review_independence st task) r)
    as [v r'] eqn:Ev. simpl in Hs, Kw, Kp. rewrite <- Hs.
  rewrite Hw in Kw. rewrite Hp in Kp.
  destruct v; try (rewrite app_nil_r; split_and!; try done; by rewrite insert_id).
  cbn [chosen]. split_and!; try done.
  - unfold subject_for_node. by rewrite (subject_same now r' r0).
  - by erewrite update_status_tasks.
Qed.

Lemma select_fold l out s r t :
  tasks s !! id = Some t → (∀ st, st ∈ l → is_Some (node (subtask_id st) (tk_subtasks t))) →
  workers r = workers r0 → placement_policy r = placement_policy r0 →
  let '(out', s', r') := foldl (select_one values now id project task hosts) (out, s, r) l in
  out' = out ++ ((λ st, (st, subject_for_node st)) <$> filterb chosen l) ∧
  tasks s' = <[id := mark_all l t]> (tasks s) ∧
  workers r' = workers r0 ∧ placement_policy r' = placement_policy r0.
Proof.
  revert out s r t. induction l as [|st l IH]; intros out s r t Ht Hl Hw Hp.
  { simpl. rewrite app_nil_r. split_and!; try done. by rewrite insert_id. }
  cbn [foldl]. destruct (Hl st) as [st' Hst']; [by left|].
  pose proof (select_one_spec out s r t st st' Ht Hst' Hw Hp) as Hone.
  destruct (select_one values now id project task hosts (out, s, r) st) as [[out1 s1] r1].
  destruct Hone as (-> & Hs1 & Hw1 & Hp1).
  specialize (IH (out ++ (if chosen st then [(st, subject_for_node st)] else [])) s1 r1 (mark_all [st] t)).
  destruct (foldl _ _ l) as [[out2 s2] r2]. destruct IH as (-> & Hs2 & Hw2 & Hp2); try done.
  - by rewrite Hs1, lookup_insert_eq.
  - intros st2 Hin. unfold mark_all. simpl. destruct (verdict st); [|by apply Hl; right].
    rewrite node_mark. destruct (Hl st2) as [x Hx]; [by right|]. case_decide; rewrite Hx; eauto.
  - split_and!; try done.
    + unfold filterb. cbn [List.filter]. destruct (chosen st); cbn [fmap list_fmap]; by rewrite <- app_assoc.
    + by rewrite Hs2, Hs1, insert_insert_eq.
Qed.

(** A node after the loop: the verdict on the ready node of its id. *)
Lemma node_mark_all l t nid st :
  NoDup (subtask_id <$> l) → node nid (tk_subtasks t) = Some st →
  (∀ x, x ∈ l → subtask_id x = nid → x = st) →
  node nid (tk_subtasks (mark_all l t))
  = Some (if bool_decide (nid ∈ (subtask_id <$> l))
          then from_option (λ new, with_subtask_status new st) st (verdict st) else st).
Proof.
  revert t st. induction l as [|x l IH]; intros t st Hnd Hn Hsame.
  { by rewrite bool_decide_eq_false_2 by set_solver. }
  rewrite fmap_cons in *. apply NoDup_cons in Hnd as [Hx Hnd].
  set (t1 := match verdict x with Some new => mark_task now (subtask_id x) new t | None => t end).
  assert (mark_all (x :: l) t = mark_all l t1) as -> by done.
  destruct (decide (subtask_id x = nid)) as [E|Hne].
  - assert (x = st) as -> by (apply Hsame; [by left|done]).
    rewrite (bool_decide_eq_true_2 (nid ∈ _)) by (rewrite <- E; by left).
    assert (Hn1 : node nid (tk_subtasks t1) = Some (from_option (λ new, with_subtask_status new st) st (verdict st))).
    { unfold t1. destruct (verdict st); [|done]. rewrite node_mark, decide_True by done. by rewrite Hn. }
    rewrite (IH t1 _ Hnd Hn1); [by rewrite bool_decide_eq_false_2 by (by rewrite <- E)|].
    intros y Hy Ey. exfalso. apply Hx. rewrite E, <- Ey. by apply list_elem_of_fmap_2.
  - rewrite (IH t1 st); [|done| |intros y Hy; apply Hsame; by right].
    + f_equal. erewrite bool_decide_ext; [done|]. rewrite elem_of_cons. naive_solver.
    + unfold t1. destruct (verdict x); [|done]. by rewrite node_mark, decide_False.
Qed.

Lemma mark_all_ids l t : subtask_id <$> tk_subtasks (mark_all l t) = subtask_id <$> tk_subtasks t.
Proof.
  revert t. induction l as [|x l IH]; intros t; [done|]. unfold mark_all. cbn [foldl].
  fold (mark_all l (match verdict x with Some new => mark_task now (subtask_id x) new t | None => t end)).
  rewrite IH. destruct (verdict x); [|done]. apply alter_first_ids, keeps_id_status.
Qed.

Lemma mark_all_status l t : tk_status (mark_all l t) = tk_status t.
Proof.
  revert t. induction l as [|x l IH]; intros t; [done|]. unfold mark_all. cbn [foldl].
  fold (mark_all l (match verdict x with Some new => mark_task now (subtask_id x) new t | None => t end)).
  rewrite IH. by destruct (verdict x).
Qed.
End Loop.

(** *** One pass *)

Lemma ready_spec id s t st :
  tasks s !! id = Some t →
  st ∈ get_ready_subtasks id s ↔
  tk_status t = TaskInProgress ∧ id ∉ durability_faults s ∧ st ∈ tk_subtasks t ∧ is_ready t st = true.
Proof.
  intros Ht. unfold get_ready_subtasks. rewrite Ht.
  destruct (bool_decide_reflect (tk_status t = TaskInProgress)) as [E|E];
    destruct (bool_decide_reflect (id ∈ durability_faults s)) as [F|F]; simpl;
    rewrite ?filterb_elem; set_solver.
Qed.

Lemma ready_ids id s t :
  tasks s !! id = Some t → NoDup (subtask_id <$> tk_subtasks t) →
  NoDup (subtask_id <$> get_ready_subtasks id s).
Proof.
  intros Ht Hnd. unfold get_ready_subtasks. rewrite Ht. destruct (_ || _); [constructor|].
  by apply NoDup_fmap_filterb.
Qed.

Lemma select_pass now id g t :
  tasks (gw_store g) !! id = Some t → NoDup (subtask_id <$> tk_subtasks t) →
  let '(out, project, g') := select_ready values now id g in
  let ready := get_ready_subtasks id (gw_store g) in
  let v := verdict now (tk_project_id t) (Some t) (gw_registry g) in
  project = tk_project_id t ∧
  out.*1 = filterb (λ st, bool_decide (v st = Some SubtaskAssigned)) ready ∧
  (∃ t', tasks (gw_store g') = <[id := t']> (tasks (gw_store g)) ∧ tk_status t' = tk_status t ∧
     ∀ nid st, node nid (tk_subtasks t) = Some st →
       node nid (tk_subtasks t') =
         Some (if bool_decide (nid ∈ (subtask_id <$> ready))
               then from_option (λ new, with_subtask_status new st) st (v st) else st)) ∧
  (∀ x st, x ∈ out → st ∈ get_ready_subtasks id (gw_store g') → subtask_id st ≠ subtask_id x.1) ∧
  gw_sent g' = gw_sent g.
Proof.
  intros Ht Hnd. unfold select_ready, get_task. rewrite Ht. cbn [default fmap option_fmap option_map].
  set (ready := get_ready_subtasks id (gw_store g)).
  set (hosts := sibling_worker_hosts id (gw_store g) (gw_registry g)).
  assert (Hready : ∀ st, st ∈ ready → node (subtask_id st) (tk_subtasks t) = Some st).
  { intros st Hst. apply node_of_elem; [done|]. apply (ready_spec _ _ t) in Hst; [tauto|done]. }
  pose proof (select_fold now id (tk_project_id t) (Some t) hosts (gw_registry g) ready []
                (gw_store g) (gw_registry g) t Ht) as Hsel.
  destruct (foldl _ _ ready) as [[out s'] r'].
  destruct Hsel as (-> & Hs' & _); [by intros st ->%Hready|done..|].
  assert (Hnode : ∀ nid st, node nid (tk_subtasks t) = Some st →
    node nid (tk_subtasks (mark_all now (tk_project_id t) (Some t) (gw_registry g) ready t)) =
      Some (if bool_decide (nid ∈ (subtask_id <$> ready))
            then from_option (λ new, with_subtask_status new st) st
                   (verdict now (tk_project_id t) (Some t) (gw_registry g) st) else st)).
  { intros nid st Hn. apply node_mark_all; [by apply (ready_ids _ _ t)|done|].
    intros x Hx <-. rewrite (Hready x Hx) in Hn. by simplify_eq. }
  split_and!; [done| | | |done].
  - cbn [app]. rewrite <- list_fmap_compose. by rewrite list_fmap_id.
  - eexists. split_and!; [done| |done]. apply mark_all_status.
  - intros x st Hx Hst E. cbn [app gw_store set_registry set_store] in *.
    apply (ready_spec _ _ (mark_all now (tk_project_id t) (Some t) (gw_registry g) ready t)) in Hst
      as (_ & _ & Hin & Hr); [|by rewrite Hs', lookup_insert_eq].
    apply list_elem_of_fmap in Hx as (st0 & -> & [Hin0 Hch]%filterb_elem). simpl in E.
    apply node_of_elem in Hin; [|by rewrite mark_all_ids].
    rewrite E, (Hnode _ st0 (Hready _ Hin0)), bool_decide_eq_true_2 in Hin by (by apply list_elem_of_fmap_2).
    apply bool_decide_eq_true in Hch. rewrite Hch in Hin. simpl in Hin. injection Hin as <-.
    unfold is_ready in Hr. by apply andb_true_iff in Hr as [Hr%bool_decide_eq_true _].
Qed.

(** What a pass of the dispatch selects.  Of the ready nodes, those that have used up
    their attempts fail, those the gate lets through are assigned and are exactly what
    is to be published, in order, and the others stay as they were; no other task is
    touched, and no node that was selected is ready again. *)
Theorem dispatch_selects_exactly now id g t :
  tasks (gw_store g) !! id = Some t → NoDup (subtask_id <$> tk_subtasks t) →
  let '(out, project, g') := select_ready values now id g in
  let ready := get_ready_subtasks id (gw_store g) in
  let v := verdict now (tk_project_id t) (Some t) (gw_registry g) in
  project = tk_project_id t ∧
  out.*1 = filterb (λ st, bool_decide (v st = Some SubtaskAssigned)) ready ∧
  (∃ t', tasks (gw_store g') = <[id := t']> (tasks (gw_store g)) ∧ tk_status t' = tk_status t ∧
     ∀ nid st, node nid (tk_subtasks t) = Some st →
       node nid (tk_subtasks t') =
         Some (if bool_decide (nid ∈ (subtask_id <$> ready))
               then from_option (λ new, with_subtask_status new st) st (v st) else st)) ∧
  (∀ x st, x ∈ out → st ∈ get_ready_subtasks id (gw_store g') → subtask_id st ≠ subtask_id x.1).
Proof.
  intros Ht Hnd. pose proof (select_pass now id g t Ht Hnd) as Hpass.
  destruct (select_ready values now id g) as [[out project] g'].
  destruct Hpass as (Hp & Ho & Hn & Hr & _). exact (conj Hp (conj Ho (conj Hn Hr))).
Qed.

(** *** Publication *)

Lemma wired_status now id nid new s : graph_wired (update_subtask_status now id nid new s) = graph_wired s.
Proof.
  unfold update_subtask_status, persist_task, spawn_call. repeat case_match; simplify_eq/=; done.
Qed.

Lemma wired_attempt now id nid s : graph_wired (increment_dispatch_retry now id nid s).2 = graph_wired s.
Proof.
  unfold increment_dispatch_retry, save, persist_task, spawn_call. repeat case_match; simplify_eq/=; done.
Qed.

Lemma wired_failed now id st s : graph_wired (publish_failed now id st s) = graph_wired s.
Proof.
  unfold publish_failed. destruct (_ ==? _); [|apply wired_status].
  pose proof (wired_attempt now id (subtask_id st) s) as E.
  destruct (increment_dispatch_retry _ _ _ _) as [n s1]. by rewrite wired_status.
Qed.

(** The message of a selected node. *)
Definition message_for (mouth : Mouth) (now : Instant) (id project : string) (g : gateway)
    (st : Subtask) : NatsSubtaskExecute :=
  let ctx := compose_context_block id (depends_on st) g in
  match mouth with
  | PublishMouth => subtask_execute_payload now id st project "" [] ctx
  | DispatchMouth => subtask_execute_payload now id st project (expected_output st) (file_constraints st) ctx
  end.

Definition wire_for (mouth : Mouth) (net : Network) (now : Instant) (id project : string) (g : gateway)
    (x : Subtask * string) : option Wire :=
  let m := message_for mouth now id project g x.1 in
  match publish_execute net x.2 m with
  | Sent => Some (WireExecute x.2 (x_idempotency_key m) m)
  | _ => None
  end.

Lemma publish_fold mouth net now id project l g :
  gw_sent (foldl (publish_one mouth net now id project) g l)
  = gw_sent g ++ omap (wire_for mouth net now id project g) l.
Proof.
  assert (Hctx : ∀ g g' st, graph_wired (gw_store g) = graph_wired (gw_store g') → gw_graph g = gw_graph g' →
    message_for mouth now id project g st = message_for mouth now id project g' st).
  { intros g1 g2 st E1 E2. unfold message_for, compose_context_block. by rewrite E1, E2. }
  revert g. induction l as [|[st subject] l IH]; intros g; [by rewrite app_nil_r|]. cbn [foldl]. rewrite IH.
  set (g1 := publish_one mouth net now id project g (st, subject)).
  assert (Hg1 : graph_wired (gw_store g1) = graph_wired (gw_store g) ∧ gw_graph g1 = gw_graph g ∧
    gw_sent g1 = gw_sent g ++ opt_list (wire_for mouth net now id project g (st, subject))).
  { unfold g1, publish_one, wire_for. cbn [fst snd]. fold (message_for mouth now id project g st).
    destruct (publish_execute net subject _); simpl; rewrite ?app_nil_r, ?wired_failed; done. }
  destruct Hg1 as (Ew & Eg & ->). rewrite <- app_assoc. f_equal.
  assert (omap (wire_for mouth net now id project g1) l = omap (wire_for mouth net now id project g) l) as ->.
  { apply list_omap_ext. clear -Hctx Ew Eg. induction l as [|x l IH]; constructor; [|done].
    unfold wire_for. by rewrite (Hctx g1 g). }
  csimpl. by destruct (wire_for mouth net now id project g (st, subject)).
Qed.

(** What the message says about the node. *)
Definition speaks_for (id : string) (t : Task) (st : Subtask) (w : Wire) : Prop :=
  match w with
  | WireExecute _ key m =>
      key = x_idempotency_key m ∧
      x_idempotency_key m = derive_idempotency_key id (subtask_id st) (pretty (dispatch_retry_count st)) ∧
      x_graph_id m = id ∧ x_node_id m = subtask_id st ∧
      x_attempt_id m = pretty (dispatch_retry_count st) ∧ x_contract_version m = CONTRACT_VERSION ∧
      x_project_id m = tk_project_id t ∧ x_description m = subtask_description st ∧
      x_expected_output m = expected_output st ∧ x_file_constraints m = file_constraints st ∧
      x_required_capabilities m = required_capabilities st ∧ x_steps m = steps st
  | _ => False
  end.

End Select.

(** ** The gate of a task *)

Section Gate.
Context {S B : Type} `{EventStore S} `{TaskStoreBackend B}.
Context `{Sha256, BlockJson, MetadataJson, PgErrors}.
Context (iter : gmap string Task → list (string * Task)).
Context (values : gmap string RegisteredWorker → list RegisteredWorker).
Notation gateway := (Gateway S B).
Implicit Types (s : TaskStore S B) (g : gateway).

Lemma nothing_ready net now id g :
  get_ready_subtasks id (gw_store g) = [] →
  dispatch_ready_subtasks values net now id g = g ∧ publish_ready_subtasks values net now id g = g.
Proof.
  intros Hr. unfold dispatch_ready_subtasks, publish_ready_subtasks, select_ready. rewrite Hr. simpl.
  destruct g. by destruct gw_connected.
Qed.

Lemma controlled_not_ready id s t :
  tasks s !! id = Some t → task_controlled (tk_status t) = true → get_ready_subtasks id s = [].
Proof.
  intros Ht Hc. unfold get_ready_subtasks. rewrite Ht. by destruct (tk_status t).
Qed.

Lemma tasks_flush now id s : tasks (flush_task_state now id s).2 = tasks s.
Proof.
  assert (He : ∀ n s, tasks (Nat.iter n (run_event_write now) s) = tasks s).
  { intros n s0. induction n as [|n IH]; [done|]. simpl. by rewrite tasks_run_event_write. }
  assert (Hw : ∀ n s, tasks (Nat.iter n run_task_write s) = tasks s).
  { intros n s0. induction n as [|n IH]; [done|]. simpl. by rewrite tasks_run_task_write. }
  unfold flush_task_state, await_tasks, await_events.
  destruct (task_error _); simpl; [by rewrite Hw|]. destruct (event_error _); simpl; by rewrite He, Hw.
Qed.

Lemma tasks_command now id cmd event g r g' :
  command now id cmd event g = (r, g') → tasks (gw_store g') = tasks (cmd (gw_store g)).2.
Proof.
  unfold command. destruct (cmd (gw_store g)) as [[t|e] s]; [|by intros [= <- <-]].
  pose proof (tasks_flush now id (TaskStore_record_event (event (tk_id t)) s)) as Hf.
  destruct (flush_task_state _ _ _) as [[[]|e] s1]; intros [= <- <-]; exact Hf.
Qed.

Lemma tasks_control net now id kind sid data g :
  tasks (gw_store (publish_task_control_event net now id kind sid data g)) = tasks (gw_store g).
Proof.
  unfold publish_task_control_event. destruct (negb _); [done|]. destruct (publish_control _ _); try done.
  apply check_message_tasks.
Qed.

(** The pause took effect in memory, whether or not it could be made durable. *)
Definition took_effect (r : result ControlResponse Status) : Prop :=
  match r with Ok resp => cr_success resp = true | Err _ => True end.

Lemma pause_leaves_paused net now id g r g' :
  pause_task_rpc net now id g = (r, g') → took_effect r →
  ∃ t, tasks (gw_store g') !! id = Some t ∧ tk_status t = TaskPaused.
Proof.
  unfold pause_task_rpc. destruct (command _ _ _ _ _) as [c g1] eqn:Hc.
  pose proof (tasks_command _ _ _ _ _ _ _ Hc) as Ht. unfold command in Hc.
  destruct (pause_task now id (gw_store g)) as [p s1] eqn:Hp. simpl in Ht.
  assert (Hpaused : ∀ t, p = Ok t → ∃ t, tasks s1 !! id = Some t ∧ tk_status t = TaskPaused).
  { intros t ->. unfold pause_task in Hp. destruct (tasks (gw_store g) !! id) as [t0|]; [|done].
    destruct (tk_status t0); simplify_eq; rewrite tasks_save, lookup_insert_eq; eauto. }
  destruct p as [t|e].
  - destruct (Hpaused t eq_refl) as (t1 & Ht1 & Hst).
    destruct (flush_task_state _ _ _) as [[[]|e] s2]; simplify_eq; intros [= <- <-] _;
      exists t1; split; try done; unfold publish_task_status_event; rewrite ?tasks_control; by rewrite <- Ht in Ht1.
  - simplify_eq. by intros [= <- <-] ?.
Qed.

(** ** Passes under way *)

(** A dispatch selects under the lock of the store and publishes after its release: a pass is
    what is left to publish.  For each node it composes the context, publishes, and takes the
    lock again when the publication failed. *)
Inductive pass_pc : Type := PassCompose | PassPublish (ctx : option ContextBlock) | PassReset.

Record Pass : Type := mkPass {
  pass_mouth : Mouth;
  pass_task : string;
  pass_project : string;
  pass_at : pass_pc;
  pass_left : list (Subtask * string)
}.

Definition pass_payload (p : Pass) (now : Instant) (st : Subtask) (ctx : option ContextBlock) : NatsSubtaskExecute :=
  match pass_mouth p with
  | PublishMouth => subtask_execute_payload now (pass_task p) st (pass_project p) "" [] ctx
  | DispatchMouth =>
      subtask_execute_payload now (pass_task p) st (pass_project p) (expected_output st) (file_constraints st) ctx
  end.

Definition pass_to (pc : pass_pc) (left : list (Subtask * string)) (p : Pass) : Pass :=
  mkPass (pass_mouth p) (pass_task p) (pass_project p) pc left.

Definition pass_step (net : Network) (now : Instant) (p : Pass) (g : gateway) : Pass * gateway :=
  match pass_left p with
  | [] => (p, g)
  | (st, subject) :: rest =>
      match pass_at p with
      | PassCompose => (pass_to (PassPublish (compose_context_block (pass_task p) (depends_on st) g)) (pass_left p) p, g)
      | PassPublish ctx =>
          let execute := pass_payload p now st ctx in
          match publish_execute net subject execute with
          | Sent => (pass_to PassCompose rest p, send (WireExecute subject (x_idempotency_key execute) execute) g)
          | SendFailed => (pass_to PassReset (pass_left p) p, g)
          | Unserializable => (pass_to PassCompose rest p, g)
          end
      | PassReset =>
          (pass_to PassCompose rest p, set_store (publish_failed now (pass_task p) st (gw_store g)) g)
      end
  end.

(** The critical section of a mouth, and the pass it begins. *)
Definition begin_pass (mouth : Mouth) (now : Instant) (id : string) (g : gateway) : list Pass * gateway :=
  let '(ready, project_id, g) := select_ready values now id g in
  let pass := mkPass mouth id project_id PassCompose ready in
  (match mouth with
   | DispatchMouth => [pass]
   | PublishMouth => if gw_connected g then [pass] else []
   end, g).

(** Without anything in between, a pass is the loop of the dispatch. *)
Lemma pass_alone net now p g :
  pass_at p = PassCompose →
  rtc (λ a b, b = pass_step net now a.1 a.2) (p, g)
    (pass_to PassCompose [] p,
     foldl (publish_one (pass_mouth p) net now (pass_task p) (pass_project p)) g (pass_left p)).
Proof.
  destruct p as [mouth id project pc left]. simpl. intros ->. revert g.
  induction left as [|[st subject] left IH]; intros g; [done|]. cbn [foldl].
  eapply rtc_l; [reflexivity|]. eapply rtc_l; [reflexivity|]. unfold pass_step, pass_to, pass_payload. simpl.
  specialize (IH (publish_one mouth net now id project g (st, subject))). unfold pass_to in IH. simpl in IH.
  revert IH. generalize (foldl (publish_one mouth net now id project)
    (publish_one mouth net now id project g (st, subject)) left). intros gf. unfold publish_one.
  destruct mouth; (destruct (publish_execute _ _ _); intros IH; [exact IH| |exact IH];
    eapply rtc_l; [reflexivity|]; exact IH).
Qed.

Record DispatchRun : Type := mkDispatchRun { dr_gateway : gateway; dr_passes : list Pass }.

(** Reports through which the gateway holds the task, changes of the registry and of the
    graph, new passes on any task, and the steps of the passes under way. *)
Inductive dispatch_step (id : string) : DispatchRun → DispatchRun → Prop :=
| DReport s' g ps :
    report iter (gw_store g) s' → is_Some (tasks s' !! id) →
    dispatch_step id (mkDispatchRun g ps) (mkDispatchRun (set_store s' g) ps)
| DOther g g' ps :
    gw_store g' = gw_store g → gw_sent g' = gw_sent g →
    dispatch_step id (mkDispatchRun g ps) (mkDispatchRun g' ps)
| DSelect mouth now id' g ps :
    dispatch_step id (mkDispatchRun g ps)
      (mkDispatchRun (begin_pass mouth now id' g).2 (ps ++ (begin_pass mouth now id' g).1))
| DPass net now i p g ps :
    ps !! i = Some p →
    dispatch_step id (mkDispatchRun g ps)
      (mkDispatchRun (pass_step net now p g).2 (<[i := (pass_step net now p g).1]> ps)).

(** The nodes of the task that are still to be published, and those that were. *)
Definition left_of (id : string) (p : Pass) : list string :=
  if pass_task p ==? id then subtask_id ∘ fst <$> pass_left p else [].
Definition left_nodes (id : string) (ps : list Pass) : list string := concat (left_of id <$> ps).
Definition sent_nodes (id : string) (ws : list Wire) : list string :=
  omap (λ w, match w with
             | WireExecute _ _ x => if x_graph_id x ==? id then Some (x_node_id x) else None
             | _ => None
             end) ws.

Definition task_status (id : string) s : option TaskStatus := tk_status <$> tasks s !! id.

Lemma inserted_status id id' t t' (m : gmap string Task) :
  m !! id' = Some t → tk_status t' = tk_status t → tk_status <$> <[id' := t']> m !! id = tk_status <$> m !! id.
Proof.
  intros Ht Hs. destruct (String.eq_dec id id') as [->|Hne].
  - rewrite lookup_insert_eq, Ht. simpl. by rewrite Hs.
  - by rewrite lookup_insert_ne by done.
Qed.

Lemma update_subtask_keeps_status now id' sid new id s :
  task_status id (update_subtask_status now id' sid new s) = task_status id s.
Proof.
  unfold task_status, update_subtask_status. destruct (tasks s !! id') as [t|] eqn:E; [|done].
  destruct (find _ _); [|done]. rewrite tasks_persist. destruct (_ && _); rewrite ?tasks_spawn; simpl;
    by eapply inserted_status.
Qed.

Lemma increment_keeps_status now id' sid id s :
  task_status id (increment_dispatch_retry now id' sid s).2 = task_status id s.
Proof.
  unfold task_status, increment_dispatch_retry. destruct (tasks s !! id') as [t|] eqn:E; [|done].
  destruct (find _ _); [|done]. cbn [snd]. rewrite tasks_save. by eapply inserted_status.
Qed.

Lemma publish_failed_keeps_status now id' st id s :
  task_status id (publish_failed now id' st s) = task_status id s.
Proof.
  unfold publish_failed. destruct (dispatch_mode st ==? Remote); [|apply update_subtask_keeps_status].
  pose proof (increment_keeps_status now id' (subtask_id st) id s) as Hi.
  destruct (increment_dispatch_retry _ _ _ _) as [n s1]. simpl in Hi. by rewrite update_subtask_keeps_status.
Qed.

Lemma select_one_keeps_status now id' project task hosts acc st id :
  task_status id (select_one values now id' project task hosts acc st).1.2 = task_status id acc.1.2.
Proof.
  destruct acc as [[out s] r]. unfold select_one. destruct (_ <=? _); [apply update_subtask_keeps_status|].
  destruct (dispatch_gate _ _ _ _ _ _) as [[] ?]; try done. apply update_subtask_keeps_status.
Qed.

Lemma select_all_keeps_status now id' project task hosts l acc id :
  task_status id (foldl (select_one values now id' project task hosts) acc l).1.2 = task_status id acc.1.2.
Proof.
  revert acc. induction l as [|st l IH]; intros acc; [done|]. simpl. rewrite IH. apply select_one_keeps_status.
Qed.

Lemma begin_pass_keeps mouth now id' g id :
  task_status id (gw_store (begin_pass mouth now id' g).2) = task_status id (gw_store g) ∧
  gw_sent (begin_pass mouth now id' g).2 = gw_sent g.
Proof.
  unfold begin_pass, select_ready.
  pose proof (select_all_keeps_status now id' (default ""%string (tk_project_id <$> get_task id' (gw_store g)))
    (get_task id' (gw_store g)) (sibling_worker_hosts id' (gw_store g) (gw_registry g))
    (get_ready_subtasks id' (gw_store g)) ([], gw_store g, gw_registry g) id) as Hf.
  destruct (foldl _ _ _) as [[out s] r]. by split.
Qed.

Lemma paused_not_ready id s : task_status id s = Some TaskPaused → get_ready_subtasks id s = [].
Proof.
  unfold task_status. destruct (tasks s !! id) as [t|] eqn:E; [|done]. simpl. intros [= Hs].
  apply (controlled_not_ready _ _ t E). by rewrite Hs.
Qed.

(** A pass begun on a paused task has nothing to publish. *)
Lemma begin_pass_left mouth now id' g id :
  task_status id (gw_store g) = Some TaskPaused → left_nodes id (begin_pass mouth now id' g).1 = [].
Proof.
  intros Hp. apply paused_not_ready in Hp. unfold begin_pass, select_ready.
  destruct (String.eq_dec id' id) as [->|Hne].
  - rewrite Hp. simpl. destruct mouth; [destruct (gw_connected g)|]; try done;
      unfold left_nodes, left_of; simpl; by rewrite bool_decide_true.
  - destruct (foldl _ _ _) as [[out s] r]. simpl. destruct mouth; [destruct (gw_connected g)|]; try done;
      unfold left_nodes, left_of; simpl; by rewrite bool_decide_false.
Qed.

Lemma pass_step_keeps net now p g id :
  let '(p', g') := pass_step net now p g in
  task_status id (gw_store g') = task_status id (gw_store g) ∧
  ∃ ws, gw_sent g' = gw_sent g ++ ws ∧ sent_nodes id ws ++ left_of id p' ⊆+ left_of id p.
Proof.
  assert (∀ p', left_of id p' ⊆+ left_of id p → task_status id (gw_store g) = task_status id (gw_store g) ∧
    ∃ ws, gw_sent g = gw_sent g ++ ws ∧ sent_nodes id ws ++ left_of id p' ⊆+ left_of id p) as Hquiet.
  { intros p' Hp'. split; [done|]. exists []. by rewrite app_nil_r. }
  destruct p as [mouth id' project pc left]. unfold pass_step. simpl.
  destruct left as [|[st subject] rest]; [by apply Hquiet|].
  assert (left_of id (mkPass mouth id' project PassCompose rest)
          ⊆+ left_of id (mkPass mouth id' project pc ((st, subject) :: rest))) as Hrest.
  { unfold left_of. simpl. case_bool_decide; [|done]. by apply submseteq_cons. }
  destruct pc as [|ctx|]; simpl.
  - by apply Hquiet.
  - destruct (publish_execute _ _ _); [|by apply Hquiet|by apply Hquiet].
    split; [done|]. eexists. split; [done|]. unfold left_of, pass_payload. simpl.
    destruct mouth; simpl; case_bool_decide; done.
  - split; [apply publish_failed_keeps_status|]. exists []. by rewrite app_nil_r.
Qed.

Lemma left_nodes_insert id ps i p p' :
  ps !! i = Some p →
  ∃ others, left_nodes id ps ≡ₚ left_of id p ++ others ∧ left_nodes id (<[i := p']> ps) ≡ₚ left_of id p' ++ others.
Proof.
  intros Hp. exists (left_nodes id (take i ps) ++ left_nodes id (drop (Datatypes.S i) ps)). split.
  - rewrite <-(take_drop_middle ps i p Hp) at 1. unfold left_nodes. rewrite fmap_app, concat_app. simpl. solve_Permutation.
  - rewrite insert_take_drop by (by eapply lookup_lt_Some). unfold left_nodes. rewrite fmap_app, concat_app. simpl.
    solve_Permutation.
Qed.

(** What holds of a paused task while the passes begun before go on. *)
Definition pause_inv (id : string) (g0 : gateway) (ps0 : list Pass) (r : DispatchRun) : Prop :=
  task_status id (gw_store (dr_gateway r)) = Some TaskPaused ∧
  ∃ ws, gw_sent (dr_gateway r) = gw_sent g0 ++ ws ∧
    sent_nodes id ws ++ left_nodes id (dr_passes r) ⊆+ left_nodes id ps0.

Lemma pause_inv_step id g0 ps0 r r' :
  (∀ m, iter m ≡ₚ map_to_list m) → dispatch_step id r r' → pause_inv id g0 ps0 r → pause_inv id g0 ps0 r'.
Proof.
  intros Hit Hs (Hp & ws & Hsent & Hsub). destruct Hs as [s' g ps Hrep [t' Ht']|g g' ps Hst Hse|mouth now id' g ps|net now i p g ps Hi];
    unfold pause_inv; simpl in *.
  - split; [|by exists ws]. unfold task_status in *. simpl. rewrite Ht'. destruct (tasks (gw_store g) !! id) as [t|] eqn:Ht; [|done].
    injection Hp as Hp. destruct (report_kept iter id _ _ Hit Hrep t t' Ht Ht') as [Hk _]. simpl. rewrite Hk; by rewrite Hp.
  - split; [by rewrite Hst|]. exists ws. by rewrite Hse.
  - destruct (begin_pass_keeps mouth now id' g id) as [Hk Hks]. split; [by rewrite Hk|]. exists ws. split; [by rewrite Hks|].
    unfold left_nodes. rewrite fmap_app, concat_app. fold (left_nodes id ps) (left_nodes id (begin_pass mouth now id' g).1).
    by rewrite begin_pass_left, app_nil_r.
  - pose proof (pass_step_keeps net now p g id) as Hstep. destruct (pass_step net now p g) as [p' g']. simpl.
    destruct Hstep as (Hk & ws' & Hw & Hl). split; [by rewrite Hk|]. exists (ws ++ ws').
    split; [by rewrite Hw, Hsent, app_assoc|].
    destruct (left_nodes_insert id ps i p p' Hi) as (others & E1 & E2). rewrite E2. rewrite E1 in Hsub.
    etrans; [|exact Hsub]. unfold sent_nodes. rewrite omap_app, <-app_assoc.
    apply submseteq_skips_l. rewrite app_assoc. by apply submseteq_skips_r.
Qed.

(** C25: a pause holds.  Once a pause has taken effect, even if it could not be made
    durable, then through any reports through which the gateway holds the task and any steps
    of dispatches, those begun before the pause among them, the task stays paused; what is
    published for it are nodes that a dispatch begun before the pause had selected and not
    yet published, each at most once for a selection; and a dispatch of either mouth that
    begins then publishes nothing for it and changes nothing. *)
Theorem pause_holds_dispatch net now id g r g' ps r2 :
  (∀ m, iter m ≡ₚ map_to_list m) →
  pause_task_rpc net now id g = (r, g') → took_effect r →
  rtc (dispatch_step id) (mkDispatchRun g' ps) r2 →
  task_status id (gw_store (dr_gateway r2)) = Some TaskPaused ∧
  (∃ ws, gw_sent (dr_gateway r2) = gw_sent g' ++ ws ∧ sent_nodes id ws ⊆+ left_nodes id ps) ∧
  ∀ net' now', dispatch_ready_subtasks values net' now' id (dr_gateway r2) = dr_gateway r2 ∧
    publish_ready_subtasks values net' now' id (dr_gateway r2) = dr_gateway r2.
Proof.
  intros Hit Hp Hr Hrun. destruct (pause_leaves_paused _ _ _ _ _ _ Hp Hr) as (t & Ht & Hst).
  assert (pause_inv id g' ps r2) as (Hp2 & ws & Hws & Hsub).
  { assert (pause_inv id g' ps (mkDispatchRun g' ps)) as Hinit.
    { split; [unfold task_status; simpl; by rewrite Ht; simpl; rewrite Hst|]. exists []. by rewrite app_nil_r. }
    revert Hinit. induction Hrun as [|r1 r2 r3 Hs _ IH]; [done|]. intros Hinit. by eapply IH, pause_inv_step. }
  split; [done|]. split.
  - exists ws. split; [done|]. etrans; [|exact Hsub]. by apply submseteq_inserts_r.
  - intros net' now'. by apply nothing_ready, paused_not_ready.
Qed.
End Gate.

(** ** Watching *)

Definition about_task (task_id : string) (e : TaskEventProto) : bool :=
  (task_id ==? "") || (te_task_id e ==? task_id).

Lemma watch_live_skips task_id k l :
  watch_live task_id k (Live <$> l) = WatchedEvent <$> drop k (filterb (about_task task_id) l).
Proof.
  revert k. induction l as [|e l IH]; intros k; [by destruct k|]. csimpl.
  unfold filterb, about_task in *. csimpl.
  destruct (task_id ==? ""), (te_task_id e ==? task_id); simpl; destruct k; csimpl; by rewrite IH.
Qed.

(** What a watcher of a task sees while its receiver does not lag: the history, then the
    live events of the task without as many as the history has. *)
Lemma watch_task_spec task_id replayed l :
  task_id ≠ ""%string →
  let history := filterb (about_task task_id) replayed in
  watch_task task_id replayed (Live <$> l)
  = WatchedEvent <$> (history ++ drop (length history) (filterb (about_task task_id) l)).
Proof.
  intros Hne history. unfold watch_task. rewrite bool_decide_eq_false_2 by done.
  assert (filterb (λ e, te_task_id e ==? task_id) replayed = history) as ->.
  { unfold history, filterb, about_task. apply List.filter_ext. intros e.
    by rewrite (bool_decide_eq_false_2 (task_id = _)). }
  by rewrite watch_live_skips, fmap_app.
Qed.

(** * Scenes of the gateway

    Concrete gateways with one worker: instances of the theorems on dispatch, and runs
    in which dispatch, retries, cancellation and watching do not fit together. *)

#[local] Instance scene_sha : Sha256 :=
  {| sha256 := λ s, replicate 32 (Z.of_nat (String.length s) `mod` 256) |}.
#[local] Instance scene_block : BlockJson := {| encoded_len := λ _, Some 0 |}.
#[local] Instance scene_metadata : MetadataJson := plain_metadata.
#[local] Instance scene_pg : PgErrors := {|
  unique_violation := "duplicate key"; foreign_key_violation := "foreign key"; integer_out_of_range := "range" |}.

Notation scene := (Gateway InMemoryEventStore InMemoryTaskBackend).

Definition open_net : Network := mkNetwork (λ _ _, Sent) (λ _, Sent).
Definition broken_net : Network := mkNetwork (λ _ _, SendFailed) (λ _, Sent).

Definition one_worker : WorkerRegistry :=
  (register 0 "w1" ["rust"%string] 4 "host-a" "v1" WorkerRegistry_new).2.

Definition node_with (attempt : Z) : ProtoSubtask :=
  mkProtoSubtask "a" "Pending" "write it" None [] ["src/a.rs"%string] "tests pass" None (Some attempt) None
    ["rust"%string] [] "t" None None None.

(** A task in progress with one pending node on the given attempt. *)
Definition store_with (attempt : Z) : store :=
  (update_task (λ _, "fresh"%string) 5 "t" "InProgress" [subtask_of_proto "t" (node_with attempt)] "work" "p"
     new_store).2.

Definition scene_with (attempt : Z) (connected : bool) : scene :=
  mkGateway (store_with attempt) one_worker empty_db connected ∅ [] [].

Definition status_at (g : scene) (id : string) : option (SubtaskStatus * Z) := node_of (gw_store g) id.

Definition executes (g : scene) : list (string * string * string * list string) :=
  omap (λ w, match w with
             | WireExecute subject key m => Some (subject, key, x_expected_output m, x_file_constraints m)
             | _ => None
             end) (gw_sent g).

Lemma scene_task attempt c : is_Some (tasks (gw_store (scene_with attempt c)) !! "t"%string).
Proof. unfold scene_with. simpl. vm_compute. by eexists. Qed.

Definition task_in (g : scene) : Task := task_of (gw_store g).

Lemma dispatch_selects_exactly_witness :
  (select_ready map_values 10 "t" (scene_with 0 true)).1.1.*1
  = filterb (λ st, bool_decide (verdict map_values 10 "p" (Some (task_in (scene_with 0 true))) one_worker st
                                = Some SubtaskAssigned))
      (get_ready_subtasks "t" (store_with 0)).
Proof.
  pose proof (dispatch_selects_exactly map_values 10 "t" (scene_with 0 true) (task_in (scene_with 0 true))) as Hsel.
  destruct (select_ready map_values 10 "t" (scene_with 0 true)) as [[out project] g'].
  apply Hsel.
  - apply task_of_lookup, scene_task.
  - apply (bool_decide_unpack _). by vm_compute.
Defined.


(** A dispatch that selected before the pause publishes after it. *)
Lemma pause_holds_dispatch_witness :
  let begun := begin_pass map_values DispatchMouth 5 "t" (scene_with 0 true) in
  let g' := (pause_task_rpc open_net 10 "t" begun.2).2 in
  ∃ r2, rtc (dispatch_step in_key_order map_values "t") (mkDispatchRun g' begun.1) r2 ∧
    left_nodes "t" begun.1 = ["a"%string] ∧ left_nodes "t" (dr_passes r2) = [] ∧
    task_status "t" (gw_store (dr_gateway r2)) = Some TaskPaused ∧
    dispatch_ready_subtasks map_values open_net 20 "t" (dr_gateway r2) = dr_gateway r2.
Proof.
  intros begun g'.
  assert (∃ p, begun.1 = [p]) as [p Hp] by (eexists; vm_compute; reflexivity).
  set (one := pass_step open_net 11 p g'). set (two := pass_step open_net 12 one.1 one.2).
  assert (rtc (dispatch_step in_key_order map_values "t") (mkDispatchRun g' begun.1) (mkDispatchRun two.2 [two.1])) as Hrun.
  { rewrite Hp. eapply rtc_l; [apply (DPass in_key_order map_values "t" open_net 11 0 p); reflexivity|].
    apply rtc_once. apply (DPass in_key_order map_values "t" open_net 12 0 one.1 one.2 [one.1]). reflexivity. }
  exists (mkDispatchRun two.2 [two.1]). split; [exact Hrun|]. split; [vm_compute; reflexivity|].
  assert (left_nodes "t" [two.1] = []) as Hleft.
  { unfold two, one. assert (p = default p (begun.1 !! 0%nat)) as -> by (by rewrite Hp). vm_compute. reflexivity. }
  split; [exact Hleft|].
  destruct (pause_holds_dispatch in_key_order map_values open_net 10 "t" begun.2
              (pause_task_rpc open_net 10 "t" begun.2).1 g' begun.1 (mkDispatchRun two.2 [two.1])
              in_key_order_ok (surjective_pairing _)) as (Hs & _ & Hd); [by vm_compute|exact Hrun|].
  split; [exact Hs|]. apply Hd.
Defined.

(** ** Where the parts do not fit *)

Definition failed_scene (attempt : Z) : scene :=
  set_store (fail_subtasks 10 "t" ["a"%string] (store_with attempt)).2 (scene_with attempt true).

(** A third retry is acknowledged, but the node is over the limit of the dispatch: it fails
    again without having been sent. *)
Lemma third_retry_never_runs :
  let '(r, g) := retry_subtask_rpc map_values open_net 20 "t" "a" 2 (failed_scene 2) in
  match r with Ok resp => rr_success resp | Err _ => false end = true ∧
  status_at g "a" = Some (SubtaskFailed, 3) ∧ executes g = [].
Proof. by vm_compute. Qed.

(** While a first retry runs the node. *)
Lemma first_retry_runs :
  let '(r, g) := retry_subtask_rpc map_values open_net 20 "t" "a" 0 (failed_scene 0) in
  status_at g "a" = Some (SubtaskAssigned, 1) ∧ length (executes g) = 1%nat.
Proof. by vm_compute. Qed.

(** Without a client the node is assigned though nothing can be sent. *)
Lemma no_client_strands_node :
  let g := publish_ready_subtasks map_values open_net 10 "t" (scene_with 0 false) in
  status_at g "a" = Some (SubtaskAssigned, 0) ∧ gw_sent g = [].
Proof. by vm_compute. Qed.

(** The two mouths send different constraints for the same node. *)
Lemma mouths_differ :
  executes (dispatch_ready_subtasks map_values open_net 10 "t" (scene_with 0 true))
  = (λ x, (x.1.1.1, x.1.1.2, "tests pass"%string, ["src/a.rs"%string]))
      <$> executes (publish_ready_subtasks map_values open_net 10 "t" (scene_with 0 true)) ∧
  (λ x, (x.1.2, x.2)) <$> executes (publish_ready_subtasks map_values open_net 10 "t" (scene_with 0 true))
  = [(""%string, [])].
Proof. by vm_compute. Qed.

(** A node that is cancelled while its message is being sent becomes pending again when
    the sending fails, and is sent by the next pass. *)
Lemma cancelled_node_is_sent :
  let '(ready, project, g) := select_ready map_values 10 "t" (scene_with 0 true) in
  let g := set_store (fail_subtasks 11 "t" ["a"%string] (gw_store g)).2 g in
  status_at g "a" = Some (SubtaskFailed, 0) ∧
  (let g := foldl (publish_one DispatchMouth broken_net 12 "t" project) g ready in
   status_at g "a" = Some (SubtaskPending, 0) ∧
   length (executes (dispatch_ready_subtasks map_values open_net 20 "t" g)) = 1%nat).
Proof. by vm_compute. Qed.

(** An attempt that is cancelled and sent again carries the key of the cancelled one, which
    the stream collapses within its window. *)
Definition dispatched_scene : scene :=
  Nat.iter 3 (run_spawned_call 11 0) (dispatch_ready_subtasks map_values open_net 10 "t" (scene_with 0 true)).

Lemma rearmed_attempt_reuses_key :
  let '(r, g) := cancel_task_attempt_granular map_values open_net 20 "t" "a" dispatched_scene in
  cr_status r = "rearmed"%string ∧ status_at g "a" = Some (SubtaskAssigned, 0) ∧
  omap (λ w, match w with WireExecute _ k m => Some (x_attempt_id m, k ==? x_idempotency_key m) | _ => None end)
    (gw_sent g)
  = [("0"%string, true); ("0"%string, true)].
Proof. by vm_compute. Qed.

(** A watcher that connects after the first event of a task never sees the next one. *)
Definition seen_event (kind : string) : TaskEventProto := mkTaskEvent 0 kind "t" None ∅.

Lemma watch_drops_new_event :
  watch_task "t" [seen_event "task_submitted"] [Live (seen_event "task_paused")]
  = [WatchedEvent (seen_event "task_submitted")].
Proof. by vm_compute. Qed.
