(* ===== verification/Executor.v ===== *)
(** * Executors of ready nodes

    [uc-engine/src/scheduler/executor.rs]: the [Executor] trait with its four
    implementations and the selector that routes a ready node.

    - [Executor] is the trait as a class over the type of an executor's state; a call of
      [execute] answers [None] when it panics, otherwise the result and the new state.
    - The NATS client is a parameter ([NatsClient]), as is serde's encoding of a payload
      ([PayloadJson]).
    - [Handle::block_on] panics on a thread that drives async tasks, and is allowed inside
      [block_in_place]: [Thread] says which of the two a call runs on. *)

From Stdlib Require Import String.
From stdpp Require Import strings pretty.
From S2P Require Import Prelude RustStr Task Envelope.

(** ** The runtime and the client *)

Inductive Thread : Type := AsyncThread | BlockingThread.

Definition block_on {A} (th : Thread) (a : A) : option A :=
  match th with AsyncThread => None | BlockingThread => Some a end.
Definition block_in_place {A} (f : Thread → A) : A := f BlockingThread.

(** [publish_with_headers] and [request] under a timeout. *)
Inductive RequestOutcome : Type :=
| Replied (payload : string) | RequestFailed (e : string) | RequestTimedOut.

Class NatsClient (C : Type) : Type := {
  connected : C → bool;
  publish_with_headers : C → string → list (string * string) → string → result unit string * C;
  request : C → string → string → RequestOutcome * C
}.

Class PayloadJson (P : Type) : Type := { to_vec : P → result string string }.

(** ** Outcomes *)

Inductive AttemptStatus : Type := Dispatched | CompletedLocal | AttemptFailed | Unavailable.
#[export] Instance AttemptStatus_eq_dec : EqDecision AttemptStatus.
Proof. solve_decision. Defined.

Record AttemptOutcome : Type := mkOutcome {
  out_status : AttemptStatus;
  out_detail : string;
  out_alert : option string
}.

Inductive ExecutorError : Type :=
| TransportUnavailable (m : string) | Unsupported (m : string) | ExecutionFailed (m : string).

Definition ExecutorError_display (e : ExecutorError) : string :=
  match e with
  | TransportUnavailable m => "transport unavailable: " +:+ m
  | Unsupported m => "unsupported: " +:+ m
  | ExecutionFailed m => "execution failed: " +:+ m
  end.

Class Executor (X : Type) : Type := {
  executor_name : string;
  executor_available : X → bool;
  executor_execute : Thread → X → ExecutionEnvelope → Subtask →
    option (result AttemptOutcome ExecutorError * X)
}.
Arguments executor_name X {_}.

(** ** NatsExecutor *)

Record NodePayload : Type := mkNodePayload {
  np_description : string;
  np_expected_output : string;
  np_file_constraints : list string;
  np_steps : list WorkflowStep;
  np_required_capabilities : list string;
  np_dispatch_mode : DispatchMode;
  np_effect_class : EffectClass;
  np_graph_id : string;
  np_node_id : string;
  np_attempt_id : string;
  np_idempotency_key : string;
  np_worker_epoch : string;
  np_contract_version : string
}.

Definition node_payload (envelope : ExecutionEnvelope) (st : Subtask) : NodePayload :=
  mkNodePayload (subtask_description st) (expected_output st) (file_constraints st) (steps st)
    (required_capabilities st) (dispatch_mode st) (effect_class st) (env_graph_id envelope)
    (env_node_id envelope) (env_attempt_id envelope) (env_idempotency_key envelope)
    (env_worker_epoch envelope) (env_contract_version envelope).

Record NatsExecutor (C : Type) : Type := mkNats { nats_client : C; nats_subject : string }.
Arguments mkNats {C} _ _.
Arguments nats_client {C} n.
Arguments nats_subject {C} n.

Definition NatsExecutor_new {C} (client : C) : NatsExecutor C := mkNats client "uc.subtask.execute".
Definition with_subject {C} (subject : string) (x : NatsExecutor C) : NatsExecutor C :=
  mkNats (nats_client x) subject.

Section Nats.
Context {C : Type} `{NatsClient C, PayloadJson NodePayload}.

Definition NatsExecutor_execute (th : Thread) (x : NatsExecutor C) (envelope : ExecutionEnvelope)
    (st : Subtask) : option (result AttemptOutcome ExecutorError * NatsExecutor C) :=
  match to_vec (node_payload envelope st) with
  | Err e => Some (Err (ExecutionFailed ("envelope serialization failed: " +:+ e)), x)
  | Ok bytes =>
      '(published, client) ← block_on th
        (publish_with_headers (nats_client x) (nats_subject x)
           [("Nats-Msg-Id", env_idempotency_key envelope)] bytes);
      Some (match published with
            | Ok _ =>
                Ok (mkOutcome Dispatched
                      ("dispatched via JetStream (" +:+ env_idempotency_key envelope +:+ ")") None)
            | Err e => Err (TransportUnavailable ("JetStream publish failed: " +:+ e))
            end, mkNats client (nats_subject x))
  end.

#[export] Instance NatsExecutor_Executor : Executor (NatsExecutor C) := {
  executor_name := "nats";
  executor_available x := connected (nats_client x);
  executor_execute := NatsExecutor_execute
}.
End Nats.

(** ** LocalExecutor *)

(** The injected body of the work, with whatever it works on. *)
Class LocalNodeHandler (L : Type) : Type := {
  execute_local : L → ExecutionEnvelope → Subtask → result AttemptOutcome ExecutorError * L
}.

Record LocalExecutor (L : Type) : Type := mkLocal { handler : option L }.
Arguments mkLocal {L} _.
Arguments handler {L} l.

Definition unwired {L} : LocalExecutor L := mkLocal None.
Definition LocalExecutor_new {L} (h : L) : LocalExecutor L := mkLocal (Some h).
Definition has_handler {L} (x : LocalExecutor L) : bool :=
  match handler x with Some _ => true | None => false end.

Section Local.
Context {L : Type} `{LocalNodeHandler L}.

Definition LocalExecutor_execute (_ : Thread) (x : LocalExecutor L) (envelope : ExecutionEnvelope)
    (st : Subtask) : option (result AttemptOutcome ExecutorError * LocalExecutor L) :=
  match handler x with
  | Some h => let '(r, h) := execute_local h envelope st in Some (r, mkLocal (Some h))
  | None => Some (Err (Unsupported "no local node handler wired on the gateway"), x)
  end.

#[export] Instance LocalExecutor_Executor : Executor (LocalExecutor L) := {
  executor_name := "local";
  executor_available := has_handler;
  executor_execute := LocalExecutor_execute
}.
End Local.

(** ** The placeholders *)

Inductive SandboxExecutor : Type := SandboxPlaceholder.
Definition SandboxExecutor_execute (_ : Thread) (x : SandboxExecutor) (_ : ExecutionEnvelope) (_ : Subtask)
    : option (result AttemptOutcome ExecutorError * SandboxExecutor) :=
  Some (Err (Unsupported "SandboxExecutor lands with the sandbox runtime (post-T7)"), x).
#[export] Instance SandboxExecutor_Executor : Executor SandboxExecutor := {
  executor_name := "sandbox";
  executor_available _ := false;
  executor_execute := SandboxExecutor_execute
}.

Inductive RemoteExecutor : Type := RemotePlaceholder.
Definition RemoteExecutor_execute (_ : Thread) (x : RemoteExecutor) (_ : ExecutionEnvelope) (_ : Subtask)
    : option (result AttemptOutcome ExecutorError * RemoteExecutor) :=
  Some (Err (Unsupported "RemoteExecutor lands with the dedicated remote runtime (post-T7)"), x).
#[export] Instance RemoteExecutor_Executor : Executor RemoteExecutor := {
  executor_name := "remote";
  executor_available _ := false;
  executor_execute := RemoteExecutor_execute
}.

(** ** The selector *)

Inductive RouteDecision : Type := RouteNats | RouteLocal | StayReady.
#[export] Instance RouteDecision_eq_dec : EqDecision RouteDecision.
Proof. solve_decision. Defined.

Definition DispatchMode_debug (m : DispatchMode) : string :=
  match m with Remote => "Remote" | PreferRemote => "PreferRemote" end.

(** [matches!(effect_class, ReadOnly | LocalSafe)]. *)
Definition whitelisted (c : EffectClass) : bool :=
  match c with ReadOnly | LocalSafe => true | RequiresWorker => false end.

Record ExecutorSelector (X L : Type) : Type := mkSelector {
  sel_nats : X;
  sel_local : LocalExecutor L
}.
Arguments mkSelector {X L} _ _.
Arguments sel_nats {X L} _.
Arguments sel_local {X L} _.

Section Selector.
Context {X L : Type} `{Executor X, LocalNodeHandler L}.

Definition route (s : ExecutorSelector X L) (st : Subtask) : RouteDecision :=
  if executor_available (sel_nats s) then RouteNats
  else if dispatch_mode st ==? Remote then StayReady
  else if negb (whitelisted (effect_class st)) then StayReady
  else if negb (has_handler (sel_local s)) then StayReady
  else RouteLocal.

Definition held_reason (st : Subtask) : string :=
  if dispatch_mode st ==? Remote then
    "dispatch_mode=remote requires the remote transport (effect_class="
      +:+ EffectClass_as_str (effect_class st) +:+ ")"
  else if negb (whitelisted (effect_class st)) then "effect_class=requires_worker cannot run locally"
  else "no local handler wired".

Definition held_outcome (envelope : ExecutionEnvelope) (st : Subtask) : AttemptOutcome :=
  let why := held_reason st in
  mkOutcome Unavailable ("node " +:+ env_node_id envelope +:+ " held in READY: " +:+ why)
    (Some ("node " +:+ env_node_id envelope +:+ " (effect_class="
           +:+ EffectClass_as_str (effect_class st) +:+ ", dispatch_mode="
           +:+ DispatchMode_debug (dispatch_mode st)
           +:+ ") cannot progress while the JetStream transport is down: " +:+ why
           +:+ "; it stays READY and resumes via at-least-once redelivery when the transport recovers")).

Definition selector_execute (th : Thread) (s : ExecutorSelector X L) (envelope : ExecutionEnvelope)
    (st : Subtask) : option (result AttemptOutcome ExecutorError * ExecutorSelector X L) :=
  match route s st with
  | RouteNats =>
      '(r, x) ← executor_execute th (sel_nats s) envelope st; Some (r, mkSelector x (sel_local s))
  | RouteLocal =>
      '(r, l) ← executor_execute th (sel_local s) envelope st; Some (r, mkSelector (sel_nats s) l)
  | StayReady => Some (Ok (held_outcome envelope st), s)
  end.

(** ** Properties *)

(** What may run inside the gateway. *)
Definition may_run_locally (s : ExecutorSelector X L) (st : Subtask) : Prop :=
  executor_available (sel_nats s) = false ∧ dispatch_mode st = PreferRemote ∧
  effect_class st ≠ RequiresWorker ∧ is_Some (handler (sel_local s)).

Lemma route_local s st : route s st = RouteLocal ↔ may_run_locally s st.
Proof.
  unfold route, may_run_locally, has_handler.
  destruct (executor_available _), (dispatch_mode st), (effect_class st), (handler _); simpl;
    split; try done; intros (?&?&?&[? ?]); done.
Qed.

Lemma route_nats s st : route s st = RouteNats ↔ executor_available (sel_nats s) = true.
Proof.
  unfold route. destruct (executor_available _); [done|]. split; [|done]. repeat case_match; done.
Qed.

(** Routing is exact.  The local handler is called exactly when the transport is
    down, the node does not insist on a remote worker, its effect class is whitelisted and
    a handler is wired, and then decides the answer; with the transport up the node goes to
    it and nothing runs locally; in every other case neither executor is touched, the answer
    is [Unavailable] and carries an alert. *)
Theorem selector_routes_exactly th s envelope st :
  (may_run_locally s st ↔ route s st = RouteLocal) ∧
  (may_run_locally s st → ∃ h, handler (sel_local s) = Some h ∧
     let '(r, h') := execute_local h envelope st in
     selector_execute th s envelope st = Some (r, mkSelector (sel_nats s) (mkLocal (Some h')))) ∧
  (executor_available (sel_nats s) = true →
     selector_execute th s envelope st =
       ('(r, x) ← executor_execute th (sel_nats s) envelope st; Some (r, mkSelector x (sel_local s)))) ∧
  (executor_available (sel_nats s) = false → ¬ may_run_locally s st →
     ∃ o alert, selector_execute th s envelope st = Some (Ok o, s) ∧
       out_status o = Unavailable ∧ out_alert o = Some alert).
Proof.
  split_and!; [by rewrite route_local|..]; unfold selector_execute.
  - intros Hm. pose proof Hm as (_ & _ & _ & [h Hh]). exists h. split; [done|].
    apply route_local in Hm as ->. simpl. unfold LocalExecutor_execute. rewrite Hh.
    by destruct (execute_local h envelope st).
  - intros Hu. by rewrite (proj2 (route_nats s st) Hu).
  - intros Hd Hm. destruct (route s st) eqn:Hr.
    + apply route_nats in Hr. congruence.
    + by apply route_local in Hr.
    + by eexists _, _.
Qed.
End Selector.

(** A client that keeps what it was given, and a handler that counts its calls. *)
Record BufferClient : Type := mkBuffer { buf_up : bool; buf_sent : list (string * list (string * string) * string) }.
#[export] Instance BufferClient_NatsClient : NatsClient BufferClient := {
  connected := buf_up;
  publish_with_headers c subject headers bytes :=
    if buf_up c then (Ok tt, mkBuffer true (buf_sent c ++ [(subject, headers, bytes)]))
    else (Err "connection closed", c);
  request c _ _ := (RequestFailed "no responders", c)
}.
Definition plain_payload : PayloadJson NodePayload :=
  {| to_vec p := Ok (np_graph_id p +:+ "/" +:+ np_node_id p +:+ "/" +:+ np_attempt_id p) |}.
Definition counting_handler : LocalNodeHandler nat :=
  {| execute_local n _ _ := (Ok (mkOutcome CompletedLocal "ran in process" None), S n) |}.

Definition sample_node (c : EffectClass) (m : DispatchMode) : Subtask :=
  mkSubtask "st-1" "t-1" "do the thing" SubtaskPending None [] [] "done" None m c 0 [] None [] 0.
Definition sample_envelope : ExecutionEnvelope := mkEnvelope "t-1" "st-1" "0" "key" "" CONTRACT_VERSION None.

Section Witness.
Local Existing Instance plain_payload.
Local Existing Instance counting_handler.
Definition down_selector : ExecutorSelector (NatsExecutor BufferClient) nat :=
  mkSelector (NatsExecutor_new (mkBuffer false [])) (LocalExecutor_new 0%nat).
Definition up_selector : ExecutorSelector (NatsExecutor BufferClient) nat :=
  mkSelector (NatsExecutor_new (mkBuffer true [])) (LocalExecutor_new 0%nat).

(** Transport down: a read-only node runs in the process, one that needs a worker waits;
    transport up: the node is sent under its idempotency key. *)
Lemma selector_routes_exactly_witness :
  selector_execute BlockingThread down_selector sample_envelope (sample_node ReadOnly PreferRemote) =
    Some (Ok (mkOutcome CompletedLocal "ran in process" None),
          mkSelector (sel_nats down_selector) (LocalExecutor_new 1%nat)) ∧
  (∃ o alert, selector_execute BlockingThread down_selector sample_envelope
      (sample_node RequiresWorker PreferRemote) = Some (Ok o, down_selector) ∧
    out_status o = Unavailable ∧ out_alert o = Some alert) ∧
  (∃ r s, selector_execute BlockingThread up_selector sample_envelope (sample_node ReadOnly Remote) =
     Some (Ok r, s) ∧ out_status r = Dispatched ∧
     buf_sent (nats_client (sel_nats s)) =
       [("uc.subtask.execute", [("Nats-Msg-Id", "key")], "t-1/st-1/0")]).
Proof.
  split_and!.
  - destruct (selector_routes_exactly BlockingThread down_selector sample_envelope
                (sample_node ReadOnly PreferRemote)) as (_ & Hl & _).
    destruct Hl as (h & [= <-] & Hx); [by split_and!; try eexists|]. exact Hx.
  - apply (selector_routes_exactly BlockingThread down_selector sample_envelope
             (sample_node RequiresWorker PreferRemote)); [done|]. by intros (_ & _ & ? & _).
  - destruct (selector_routes_exactly BlockingThread up_selector sample_envelope
                (sample_node ReadOnly Remote)) as (_ & _ & Hn & _).
    eexists _, _. split; [exact (Hn eq_refl)|]. by split.
Defined.
End Witness.
