(* ===== verification/Dispatchers.v ===== *)
(** * Dispatchers of scheduled work

    [uc-engine/src/scheduler/dispatcher.rs] and [uc-grpc/src/scheduler_dispatch.rs]: the
    dispatcher that asks a worker for a decomposition and publishes its subtasks, the two
    that hand a scheduled task on and report later, and the lock of the scheduler over a
    NATS key-value bucket.

    - The client, serde and the runtime threads are those of Executor.v; reading a
      subtask out of JSON is the parameter [ReplyJson], the bucket is [KeyValue].
    - A spawned task is a value ([EngineSubmitJob], [NatsSubmitJob]) that a later step
      runs. *)

From Stdlib Require Import String Ascii.
From stdpp Require Import strings pretty gmap.
From S2P Require Import Prelude RustStr Task Envelope Dependency NightWindow Trigger ScheduleStore Scheduler SchedulerProps Executor.

(** ** OrchestratorDispatcher *)

Record LegacyExecute : Type := mkLegacy {
  le_description : string;
  le_layer : nat;
  le_graph_id : string;
  le_node_id : string;
  le_attempt_id : string;
  le_idempotency_key : string;
  le_worker_epoch : string;
  le_contract_version : string
}.

Definition legacy_subtask_execute_message `{Sha256} (task_id subtask_id description : string)
    (layer : nat) (retry_no : Z) : LegacyExecute :=
  let envelope := for_dispatch task_id subtask_id retry_no in
  mkLegacy description layer (env_graph_id envelope) (env_node_id envelope) (env_attempt_id envelope)
    (env_idempotency_key envelope) (env_worker_epoch envelope) (env_contract_version envelope).

(** [serde_json::from_slice] of a reply and [from_value] of a subtask. *)
Class ReplyJson (J : Type) : Type := {
  from_slice : string → result J string;
  subtask_from_value : J → result Subtask string
}.

Section Parse.
Context {J : Type} `{ReplyJson J}.

Fixpoint parse_subtasks_from (i : nat) (l : list J) : result (list Subtask) EngineError :=
  match l with
  | [] => Ok []
  | v :: rest =>
      match subtask_from_value v with
      | Ok st =>
          match parse_subtasks_from (S i) rest with Ok parsed => Ok (st :: parsed) | Err e => Err e end
      | Err e =>
          Err (TaskError ("Failed to parse subtask at index " +:+ pretty i
                          +:+ " from decomposition reply: " +:+ e))
      end
  end.
Definition parse_subtasks (l : list J) : result (list Subtask) EngineError := parse_subtasks_from 0 l.
End Parse.

Record OrchestratorDispatcher (C : Type) : Type := mkOrchestrator {
  orch_client : C;
  subject_prefix : string
}.
Arguments mkOrchestrator {C} _ _.
Arguments orch_client {C} _.
Arguments subject_prefix {C} _.

Definition OrchestratorDispatcher_new {C} (client : C) (prefix : option string) : OrchestratorDispatcher C :=
  mkOrchestrator client (default "schedule.trigger" prefix).

Section Orchestrator.
Context `{Sha256} {C : Type} `{NatsClient C} {J : Type} `{Json J, ReplyJson J}.
Context `{PayloadJson LegacyExecute, PayloadJson ScheduledTask}.
(** The [Debug] text of an id. *)
Context (debug_id : TaskId → string).

Definition legacy_message_for (task_id : string) (parsed : list Subtask) (layer : nat) (id : TaskId)
    : LegacyExecute :=
  let st := List.find (λ s, subtask_id s ==? id) parsed in
  legacy_subtask_execute_message task_id id (default "" (subtask_description <$> st)) layer
    (default 0 (dispatch_retry_count <$> st)).

Definition publish_subtask (th : Thread) (msg : LegacyExecute) (c : C)
    : option (result unit EngineError * C) :=
  match to_vec msg with
  | Err e => Some (Err (InternalError ("Failed to serialize subtask: " +:+ e)), c)
  | Ok payload =>
      '(published, c) ← block_on th
        (publish_with_headers c "uc.subtask.execute" [("Nats-Msg-Id", le_idempotency_key msg)] payload);
      Some (match published with
            | Ok _ => Ok tt
            | Err e =>
                Err (ConnectionError
                       ("NATS publish failed for subtask " +:+ debug_id (le_node_id msg) +:+ ": " +:+ e))
            end, c)
  end.

Fixpoint publish_layer (th : Thread) (task_id : string) (parsed : list Subtask) (layer : nat)
    (ids : list TaskId) (c : C) : option (result unit EngineError * C) :=
  match ids with
  | [] => Some (Ok tt, c)
  | id :: rest =>
      '(r, c) ← publish_subtask th (legacy_message_for task_id parsed layer id) c;
      match r with
      | Ok _ => publish_layer th task_id parsed layer rest c
      | Err e => Some (Err e, c)
      end
  end.

Fixpoint publish_layers (th : Thread) (task_id : string) (parsed : list Subtask) (layer : nat)
    (layers : list (list TaskId)) (c : C) : option (result unit EngineError * C) :=
  match layers with
  | [] => Some (Ok tt, c)
  | ids :: rest =>
      '(r, c) ← publish_layer th task_id parsed layer ids c;
      match r with
      | Ok _ => publish_layers th task_id parsed (S layer) rest c
      | Err e => Some (Err e, c)
      end
  end.

Definition process_decomposition_reply (th : Thread) (payload : string) (c : C)
    : option (result unit EngineError * C) :=
  match from_slice payload with
  | Err e => Some (Err (InternalError ("Invalid reply JSON: " +:+ e)), c)
  | Ok reply_data =>
      match v ← json_get reply_data "subtasks"; json_as_array v with
      | None => Some (Err (TaskError "Reply missing subtasks array"), c)
      | Some [] => Some (Ok tt, c)
      | Some subtasks =>
          match parse_subtasks subtasks with
          | Err e => Some (Err e, c)
          | Ok parsed =>
              order ← resolve_execution_order parsed;
              match order with
              | Err e => Some (Err e, c)
              | Ok layers =>
                  let task_id := default "" (v ← json_get reply_data "task_id"; json_as_str v) in
                  publish_layers th task_id parsed 0 layers c
              end
          end
      end
  end.

Definition DISPATCH_TIMEOUT_SECS : Z := 120.

Definition OrchestratorDispatcher_dispatch (th : Thread) (d : OrchestratorDispatcher C)
    (task : ScheduledTask) : option (result unit EngineError * OrchestratorDispatcher C) :=
  let subject := subject_prefix d +:+ "." +:+ sched_id task in
  match to_vec task with
  | Err e =>
      Some (Err (InternalError ("Failed to serialize scheduled task " +:+ sched_id task +:+ ": " +:+ e)), d)
  | Ok payload =>
      '(result, c) ← block_in_place (λ th', block_on th' (request (orch_client d) subject payload));
      match result with
      | Replied reply =>
          '(r, c) ← process_decomposition_reply th reply c; Some (r, mkOrchestrator c (subject_prefix d))
      | RequestFailed e =>
          Some (Err (TaskError ("NATS dispatch failed: " +:+ e)), mkOrchestrator c (subject_prefix d))
      | RequestTimedOut =>
          Some (Err (TaskError ("NATS dispatch timed out after " +:+ pretty DISPATCH_TIMEOUT_SECS +:+ "s")),
                mkOrchestrator c (subject_prefix d))
      end
  end.
End Orchestrator.

(** ** Window events *)

Inductive WindowEventType : Type := Opened | Closed.
#[export] Instance WindowEventType_eq_dec : EqDecision WindowEventType.
Proof. solve_decision. Defined.

Record WindowEvent : Type := mkWindowEvent {
  we_event : string;
  we_window_info : string;
  we_timestamp : string
}.

Definition publish_window_event {C} `{NatsClient C, PayloadJson WindowEvent}
    (rfc3339 : Instant → string) (now : Instant) (kind : WindowEventType) (window_info : string) (c : C)
    : result unit EngineError * C :=
  let subject := match kind with Opened => "schedule.window.opened" | Closed => "schedule.window.closed" end in
  let event := match kind with Opened => "opened" | Closed => "closed" end in
  match to_vec (mkWindowEvent event window_info (rfc3339 now)) with
  | Err e => (Err (InternalError ("Failed to serialize window event: " +:+ e)), c)
  | Ok bytes =>
      let '(published, c) := publish_with_headers c subject [] bytes in
      (match published with
       | Ok _ => Ok tt
       | Err e => Err (ConnectionError ("NATS publish failed: " +:+ e))
       end, c)
  end.

(** ** EngineSubmitDispatcher *)

(** [EngineApi::submit_task]: the id of the submitted task. *)
Class SubmitEngine (E : Type) : Type := {
  engine_submit_task : E → string → string → result string EngineError * E
}.

Record EngineSubmitJob : Type := mkEngineJob {
  ej_task_id : Uuid;
  ej_description : string;
  ej_project_id : string
}.

(** The dispatch answers at once; what it spawns runs later. *)
Definition EngineSubmitDispatcher_dispatch (task : ScheduledTask)
    : result unit EngineError * list EngineSubmitJob :=
  (Ok tt, [mkEngineJob (sched_id task) (sched_description task) (sched_project task)]).

Section Submit.
Context {Tz : Type} `{TimeZones Tz} {S : Type} `{ScheduleStore S} {JS : Type} `{JobScheduler JS}.
Notation service := (SchedulerService Tz S JS).

Definition run_engine_submit {E} `{SubmitEngine E} (started_at completed_at : Instant) (fresh : Uuid)
    (j : EngineSubmitJob) (e : E) (v : service) : E * service :=
  match engine_submit_task e (ej_description j) (ej_project_id j) with
  | (Ok _, e) => (e, v)
  | (Err err, e) =>
      (e, record_execution
            (mkExecution fresh (ej_task_id j) started_at (Some completed_at) ExecFailed
               (Some ("submit_task failed: " +:+ EngineError_display err)) None) v)
  end.

(** ** NatsSubmitDispatcher *)

Record NatsTaskSubmit : Type := mkSubmit {
  ns_task_id : string;
  ns_description : string;
  ns_project_id : string;
  ns_scheduled : option bool;
  ns_verify_command : option string
}.

Definition NATS_SUBJECT_TASK_SUBMIT : string := "uc.task.submit".

Definition build_payload (fresh : Uuid) (task : ScheduledTask) : NatsTaskSubmit :=
  mkSubmit fresh (sched_description task) (sched_project task) (Some true) (verify_command task).

Definition build_failed_history (fresh : Uuid) (now : Instant) (id : Uuid) (started_at : Instant)
    (error : string) : ExecutionHistory :=
  mkExecution fresh id started_at (Some now) ExecFailed
    (Some ("NatsSubmitDispatcher: NATS publish failed: " +:+ error)) None.

Definition validate_scheduled_task_scope (task : ScheduledTask) : result unit EngineError :=
  if trim (sched_project task) ==? "" then
    Err (InternalError ("NatsSubmitDispatcher: scheduled task '" +:+ sched_id task
      +:+ "' has empty project_id — every task must declare a project scope (D8 #645)"))
  else Ok tt.

Record NatsSubmitJob : Type := mkNatsJob {
  nj_scheduled_task_id : Uuid;
  nj_payload : string;
  nj_started_at : Instant
}.

(** A fresh UUID always parses as one, so [Uuid::parse_str] succeeds. *)
Definition NatsSubmitDispatcher_dispatch `{PayloadJson NatsTaskSubmit} (fresh : Uuid) (now : Instant)
    (task : ScheduledTask) : result unit EngineError * list NatsSubmitJob :=
  match validate_scheduled_task_scope task with
  | Err e => (Err e, [])
  | Ok _ =>
      match to_vec (build_payload fresh task) with
      | Err e =>
          (Err (InternalError ("NatsSubmitDispatcher: failed to serialize payload for scheduled task "
                               +:+ sched_id task +:+ ": " +:+ e)), [])
      | Ok bytes => (Ok tt, [mkNatsJob (sched_id task) bytes now])
      end
  end.

Definition run_nats_submit {C} `{NatsClient C} (now : Instant) (fresh : Uuid) (j : NatsSubmitJob)
    (c : C) (v : service) : C * service :=
  match publish_with_headers c NATS_SUBJECT_TASK_SUBMIT [] (nj_payload j) with
  | (Ok _, c) => (c, v)
  | (Err e, c) =>
      (c, record_execution
            (build_failed_history fresh now (nj_scheduled_task_id j) (nj_started_at j) e) v)
  end.
End Submit.

(** ** NatsKvLockProvider *)

(** [create_key_value] and [create] of a bucket, and the kinds of error of [create]. *)
Inductive CreateErrorKind : Type :=
| AlreadyExists | InvalidKey | CreatePublish | CreateAck | CreateOther.

Class KeyValue (K : Type) : Type := {
  kv_bucket : K → string → Z → result unit string * K;
  kv_create : K → string → string → result Z CreateErrorKind * K
}.

Definition SCHEDULER_LOCKS_BUCKET : string := "scheduler-locks".

Definition kv_try_acquire {K} `{KeyValue K} (instance_id : string) (key : string) (kv : K) : bool * K :=
  match kv_bucket kv SCHEDULER_LOCKS_BUCKET 300 with
  | (Err _, kv) => (true, kv)
  | (Ok _, kv) =>
      match kv_create kv key instance_id with
      | (Ok _, kv) => (true, kv)
      | (Err AlreadyExists, kv) => (false, kv)
      | (Err _, kv) => (true, kv)
      end
  end.

(** The provider the scheduler asks, on the bucket as it stands. *)
Definition NatsKvLockProvider {K} `{KeyValue K} (instance_id : string) (kv : K) : LockProvider :=
  λ key _, (kv_try_acquire instance_id key kv).1.

(** The documented form of a key: letters, digits, and [- / _ = .]. *)
Definition kv_key_char (c : ascii) : bool :=
  let between lo hi := Ascii.leb lo c && Ascii.leb c hi in
  between "a"%char "z"%char || between "A"%char "Z"%char || between "0"%char "9"%char || existsb (Ascii.eqb c) ["-"; "/"; "_"; "="; "."]%char.
Definition valid_kv_key (k : string) : bool :=
  negb (k ==? "") && forallb kv_key_char (list_ascii_of_string k).

(** What the client promises: an ill-formed key is refused as such before anything is
    stored; a well-formed key is created once while the entry lives. *)
Class KeyValueOk (K : Type) `{KeyValue K} : Type := {
  kv_holder : K → string → option string;
  kv_create_invalid : ∀ kv k v, valid_kv_key k = false → kv_create kv k v = (Err InvalidKey, kv);
  kv_create_held : ∀ kv k v w, valid_kv_key k = true → kv_holder kv k = Some w →
    (kv_create kv k v).1 = Err AlreadyExists;
  kv_create_free : ∀ kv k v kv' n, kv_create kv k v = (Ok n, kv') → kv_holder kv' k = Some v;
  kv_bucket_keeps : ∀ kv b age r kv', kv_bucket kv b age = (r, kv') → ∀ k, kv_holder kv' k = kv_holder kv k
}.

(** ** Publishing a decomposition *)

(** A client with a log of what it accepted. *)
Class NatsClientOk (C : Type) `{NatsClient C} : Type := {
  accepted : C → list (string * list (string * string) * string);
  publish_accepted : ∀ c subject headers bytes c',
    publish_with_headers c subject headers bytes = (Ok tt, c') →
    accepted c' = accepted c ++ [(subject, headers, bytes)];
  publish_refused : ∀ c subject headers bytes e c',
    publish_with_headers c subject headers bytes = (Err e, c') → accepted c' = accepted c
}.

Section Published.
Context `{Sha256} {C : Type} `{NatsClientOk C} {J : Type} `{Json J, ReplyJson J}.
Context `{PayloadJson LegacyExecute, PayloadJson ScheduledTask} (debug_id : TaskId → string).

(** The messages of a layered decomposition, in the order they are sent. *)
Fixpoint layer_messages (task_id : string) (parsed : list Subtask) (layer : nat)
    (layers : list (list TaskId)) : list LegacyExecute :=
  match layers with
  | [] => []
  | ids :: rest => (legacy_message_for task_id parsed layer <$> ids) ++ layer_messages task_id parsed (S layer) rest
  end.

(** [w] is what the client is given for [m]. *)
Definition legacy_wire_of (m : LegacyExecute) (w : string * list (string * string) * string) : Prop :=
  ∃ bytes, to_vec m = Ok bytes ∧ w = ("uc.subtask.execute", [("Nats-Msg-Id", le_idempotency_key m)], bytes).

(** The messages are sent in order up to the first that fails; success means all were. *)
Definition sent_up_to (msgs : list LegacyExecute) (c : C) (r : result unit EngineError) (c' : C) : Prop :=
  ∃ pre post wires, msgs = pre ++ post ∧ Forall2 legacy_wire_of pre wires ∧ accepted c' = accepted c ++ wires ∧
    (r = Ok tt ↔ post = []).

Lemma publish_subtask_spec m c :
  ∃ r c', publish_subtask debug_id BlockingThread m c = Some (r, c') ∧ sent_up_to [m] c r c'.
Proof.
  unfold publish_subtask. destruct (to_vec m) as [bytes|e] eqn:Hv.
  - simpl. destruct (publish_with_headers _ _ _ _) as [[[]|e] c'] eqn:Hp; simpl; eexists _, _; (split; [done|]).
    + exists [m], [], [("uc.subtask.execute", [("Nats-Msg-Id", le_idempotency_key m)], bytes)].
      split_and!; [done| |by apply publish_accepted|done]. apply Forall2_cons. split; [by exists bytes|by apply Forall2_nil].
    + exists [], [m], []. rewrite ?app_nil_r. split_and!; [done|by apply Forall2_nil|by eapply publish_refused|done].
  - eexists _, _. split; [done|]. exists [], [m], []. rewrite ?app_nil_r. split_and!; [done|by apply Forall2_nil|done|done].
Qed.

Lemma sent_up_to_nil c : sent_up_to [] c (Ok tt) c.
Proof. exists [], [], []. rewrite ?app_nil_r. split_and!; [done|by apply Forall2_nil|done|done]. Qed.

Lemma sent_up_to_app a b c c1 r c2 :
  sent_up_to a c (Ok tt) c1 → sent_up_to b c1 r c2 → sent_up_to (a ++ b) c r c2.
Proof.
  intros (pre & post & w & -> & Hw & Hs & Hr) (pre' & post' & w' & -> & Hw' & Hs' & Hr').
  rewrite (proj1 Hr eq_refl), app_nil_r in *. exists (pre ++ pre'), post', (w ++ w').
  split_and!; [by rewrite app_assoc|by apply Forall2_app|by rewrite Hs', Hs, app_assoc|done].
Qed.

Lemma sent_up_to_stop a b c e c1 : sent_up_to a c (Err e) c1 → sent_up_to (a ++ b) c (Err e) c1.
Proof.
  intros (pre & post & w & -> & Hw & Hs & Hr). exists pre, (post ++ b), w.
  split_and!; [by rewrite app_assoc|done|done|]. split; [done|]. intros [-> _]%app_eq_nil. by apply Hr.
Qed.

Lemma publish_layer_spec task_id parsed layer ids c :
  ∃ r c', publish_layer debug_id BlockingThread task_id parsed layer ids c = Some (r, c') ∧
    sent_up_to (legacy_message_for task_id parsed layer <$> ids) c r c'.
Proof.
  revert c. induction ids as [|id ids IH]; intros c; cbn [publish_layer].
  { eexists _, _. split; [done|]. apply sent_up_to_nil. }
  destruct (publish_subtask_spec (legacy_message_for task_id parsed layer id) c) as (r & c1 & -> & Hs).
  cbn [mbind option_bind]. rewrite fmap_cons. destruct r as [[]|e].
  - destruct (IH c1) as (r & c2 & -> & Hs'). eexists _, _. split; [done|]. by eapply (sent_up_to_app [_]).
  - eexists _, _. split; [done|]. by apply (sent_up_to_stop [_]).
Qed.

Lemma publish_layers_spec task_id parsed layer layers c :
  ∃ r c', publish_layers debug_id BlockingThread task_id parsed layer layers c = Some (r, c') ∧
    sent_up_to (layer_messages task_id parsed layer layers) c r c'.
Proof.
  revert layer c. induction layers as [|ids layers IH]; intros layer c; cbn [publish_layers layer_messages].
  { eexists _, _. split; [done|]. apply sent_up_to_nil. }
  destruct (publish_layer_spec task_id parsed layer ids c) as (r & c1 & -> & Hs).
  cbn [mbind option_bind]. destruct r as [[]|e].
  - destruct (IH (S layer) c1) as (r & c2 & -> & Hs'). eexists _, _. split; [done|]. by eapply sent_up_to_app.
  - eexists _, _. split; [done|]. by apply sent_up_to_stop.
Qed.

(** ** What the messages are *)

Lemma layer_messages_ids task_id parsed k layers :
  le_node_id <$> layer_messages task_id parsed k layers = concat layers.
Proof.
  revert k. induction layers as [|ids layers IH]; intros k; [done|]. cbn [layer_messages concat].
  rewrite fmap_app, IH, <-list_fmap_compose. f_equal. apply list_fmap_id.
Qed.

Lemma layer_messages_lookup task_id parsed k layers n ids id :
  layers !! n = Some ids → id ∈ ids →
  ∃ a b, layer_messages task_id parsed k layers = a ++ legacy_message_for task_id parsed (k + n) id :: b ∧
    (length (concat (take n layers)) <= length a < length (concat (take (S n) layers)))%nat.
Proof.
  revert k n. induction layers as [|l layers IH]; intros k n Hn Hin; [done|].
  cbn [layer_messages]. destruct n as [|n]; simpl in Hn.
  - injection Hn as ->. apply list_elem_of_split in Hin as (x & y & ->).
    exists (legacy_message_for task_id parsed k <$> x), ((legacy_message_for task_id parsed k <$> y) ++ layer_messages task_id parsed (S k) layers).
    rewrite Nat.add_0_r, fmap_app, fmap_cons, <-app_assoc. split; [done|].
    rewrite length_fmap. cbn [take concat length]. rewrite app_nil_r, length_app. simpl. lia.
  - destruct (IH (S k) n Hn Hin) as (a & b & -> & Hl & Hu).
    exists ((legacy_message_for task_id parsed k <$> l) ++ a), b.
    rewrite Nat.add_succ_r, <-app_assoc. split; [done|]. rewrite firstn_cons, (firstn_cons (S n)). cbn [concat].
    rewrite !length_app, length_fmap. lia.
Qed.

Lemma layer_messages_elem task_id parsed k layers m :
  m ∈ layer_messages task_id parsed k layers →
  ∃ n id, id ∈ concat layers ∧ m = legacy_message_for task_id parsed n id.
Proof.
  revert k. induction layers as [|ids layers IH]; intros k; cbn [layer_messages concat].
  { by intros ?%elem_of_nil. }
  rewrite elem_of_app, list_elem_of_fmap. intros [(id & -> & Hid)|Hm].
  - exists k, id. rewrite elem_of_app. auto.
  - destruct (IH _ Hm) as (n & id & Hid & ->). exists n, id. rewrite elem_of_app. auto.
Qed.

(** The message of a subtask in layer [layer]. *)
Definition subtask_message (task_id : string) (layer : nat) (st : Subtask) : LegacyExecute :=
  legacy_subtask_execute_message task_id (subtask_id st) (subtask_description st) layer
    (dispatch_retry_count st).

Lemma legacy_message_for_known task_id parsed layer id :
  id ∈ subtask_id <$> parsed →
  ∃ st, st ∈ parsed ∧ subtask_id st = id ∧ legacy_message_for task_id parsed layer id = subtask_message task_id layer st.
Proof.
  intros (st0 & -> & Hin)%list_elem_of_fmap. unfold legacy_message_for.
  destruct (List.find _ parsed) as [st|] eqn:Hf.
  - apply find_some in Hf as [Hst Hid]. apply list_elem_of_In in Hst.
    apply bool_decide_eq_true in Hid. exists st. by rewrite <-Hid.
  - apply list_elem_of_In, (find_none _ _ Hf), bool_decide_eq_false in Hin. done.
Qed.

(** Every subtask has its message, and a dependency is sent in an earlier layer. *)
Definition decomposition (task_id : string) (parsed : list Subtask) (msgs : list LegacyExecute) : Prop :=
  (le_node_id <$> msgs ≡ₚ subtask_id <$> parsed) ∧
  (∀ m, m ∈ msgs → ∃ st, st ∈ parsed ∧ m = subtask_message task_id (le_layer m) st) ∧
  (∀ st d, st ∈ parsed → d ∈ depends_on st → d ∈ subtask_id <$> parsed →
     ∃ p q m m', (p < q)%nat ∧ msgs !! p = Some m ∧ msgs !! q = Some m' ∧ le_node_id m = d ∧
       le_node_id m' = subtask_id st ∧ (le_layer m < le_layer m')%nat).

(** The order of the dependency resolution, read by ids. *)
Lemma index_from_id i sts acc d k :
  index_from i sts acc !! d = Some k →
  acc !! d = Some k ∨ ∃ n st, k = (i + n)%nat ∧ sts !! n = Some st ∧ subtask_id st = d.
Proof.
  revert i acc. induction sts as [|st sts IH]; intros i acc; simpl; [auto|].
  intros [Hk|(n & st' & -> & Hn & Hd)]%IH.
  - apply lookup_insert_Some in Hk as [[<- <-]|[_ Hk]]; [|auto]. right. exists 0%nat, st. split_and!; [lia|done..].
  - right. exists (S n), st'. split_and!; [lia|done..].
Qed.

Lemma index_from_known i sts acc d :
  is_Some (acc !! d) ∨ d ∈ subtask_id <$> sts → is_Some (index_from i sts acc !! d).
Proof.
  revert i acc. induction sts as [|st sts IH]; intros i acc; simpl.
  { intros [?|?%elem_of_nil]; done. }
  intros Hd. apply IH. destruct (decide (subtask_id st = d)) as [<-|Hne].
  - left. rewrite lookup_insert_eq. eauto.
  - rewrite lookup_insert_ne by done. destruct Hd as [?|[->|?]%elem_of_cons]; [auto|done|auto].
Qed.

Lemma known_dep_index parsed i st d :
  parsed !! i = Some st → d ∈ depends_on st → d ∈ subtask_id <$> parsed →
  ∃ j st', j ∈ known_deps parsed i ∧ parsed !! j = Some st' ∧ subtask_id st' = d.
Proof.
  intros Hi Hd Hin. destruct (index_from_known 0 parsed ∅ d) as [j Hj]; [by right|].
  pose proof Hj as [Hf|(n & st' & -> & Hn & Hid)]%index_from_id; [by rewrite lookup_empty in Hf|].
  exists n, st'. split; [|done]. unfold known_deps, resolved. rewrite Hi.
  apply list_elem_of_omap. by exists d.
Qed.

Lemma layer_of_ids parsed L layers k q i st :
  mapM (layer_ids parsed) L = Some layers → L !! k = Some q → i ∈ q → parsed !! i = Some st →
  ∃ ids, layers !! k = Some ids ∧ subtask_id st ∈ ids.
Proof.
  intros HL%mapM_Some Hk Hi Hst. destruct (Forall2_lookup_l _ _ _ _ _ HL Hk) as (ids & Hids & Hq).
  exists ids. split; [done|]. apply mapM_Some in Hq. apply list_elem_of_lookup in Hi as [n Hn].
  destruct (Forall2_lookup_l _ _ _ _ _ Hq Hn) as (id & Hid & Hst'). rewrite Hst in Hst'. simpl in Hst'.
  injection Hst' as ->. by eapply list_elem_of_lookup_2.
Qed.

Lemma layers_list_ids parsed L layers :
  mapM (layer_ids parsed) L = Some layers → concat L ≡ₚ seq 0 (length parsed) →
  concat layers ≡ₚ subtask_id <$> parsed.
Proof.
  intros HL%mapM_Some Hp. set (f := λ i, default ""%string (subtask_id <$> parsed !! i)).
  assert (concat layers = f <$> concat L) as ->.
  { clear Hp. induction HL as [|q ids L layers Hq HL IH]; [done|]. cbn [concat]. rewrite fmap_app, IH.
    f_equal. apply mapM_Some in Hq. clear -Hq.
    induction Hq as [|i id q ids Hi Hq IHq]; [done|]. rewrite fmap_cons, <-IHq. f_equal.
    unfold f. by rewrite Hi. }
  rewrite Hp. apply reflexive_eq, list_eq. intros i. rewrite !list_lookup_fmap.
  destruct (decide (i < length parsed)%nat) as [Hi|Hi].
  - rewrite lookup_seq_lt by done. unfold f. simpl. by destruct (lookup_lt_is_Some_2 parsed i Hi) as [st ->].
  - rewrite lookup_seq_ge, (lookup_ge_None_2 parsed) by lia. done.
Qed.

Lemma decomposition_of_layers task_id parsed L layers :
  mapM (layer_ids parsed) L = Some layers → concat L ≡ₚ seq 0 (length parsed) →
  layering (known_deps parsed) L → decomposition task_id parsed (layer_messages task_id parsed 0 layers).
Proof.
  intros HL Hp Hlay. pose proof (layers_list_ids _ _ _ HL Hp) as Hids. split_and!.
  - by rewrite layer_messages_ids.
  - intros m (n & id & Hid & ->)%layer_messages_elem. rewrite Hids in Hid.
    destruct (legacy_message_for_known task_id parsed n id Hid) as (st & Hst & _ & Hm). exists st.
    split; [done|]. by rewrite Hm.
  - intros st d Hst Hd Hin. apply list_elem_of_lookup in Hst as [i Hi].
    destruct (known_dep_index _ _ _ _ Hi Hd Hin) as (j & st' & Hj & Hst' & <-).
    assert (i ∈ concat L) as (q & Hq%list_elem_of_In & Hiq%list_elem_of_In)%list_elem_of_In%in_concat.
    { rewrite Hp. apply elem_of_seq. apply lookup_lt_Some in Hi. lia. }
    apply list_elem_of_lookup in Hq as [k Hk].
    destruct (proj1 (Hlay k q i Hk Hiq) j Hj) as (k' & q' & Hlt & Hk' & Hjq).
    destruct (layer_of_ids _ _ _ _ _ _ _ HL Hk Hiq Hi) as (ids & Hl & Hs).
    destruct (layer_of_ids _ _ _ _ _ _ _ HL Hk' Hjq Hst') as (ids' & Hl' & Hs').
    destruct (layer_messages_lookup task_id parsed 0 layers k ids _ Hl Hs) as (a & b & Hab & Ha).
    destruct (layer_messages_lookup task_id parsed 0 layers k' ids' _ Hl' Hs') as (a' & b' & Hab' & Ha').
    eexists (length a'), (length a), _, _. split_and!.
    + assert (length (concat (take (S k') layers)) <= length (concat (take k layers)))%nat; [|lia].
      rewrite <-(firstn_skipn (S k') (take k layers)), firstn_firstn, Nat.min_l, concat_app, length_app; lia.
    + rewrite Hab'. by apply list_lookup_middle.
    + rewrite Hab. by apply list_lookup_middle.
    + done.
    + done.
    + simpl. lia.
Qed.

(** ** Properties *)

(** What a reply says: the id of the task and its subtasks. *)
Definition reply_contents (payload : string) : option (string * list Subtask) :=
  match from_slice payload with
  | Err _ => None
  | Ok reply =>
      l ← (v ← json_get reply "subtasks"; json_as_array v);
      match parse_subtasks l with
      | Ok parsed => Some (default "" (v ← json_get reply "task_id"; json_as_str v), parsed)
      | Err _ => None
      end
  end.

(** A decomposition reply is published as a whole or refused as a whole.  On a
    thread that may block, processing a reply never panics.  A reply that cannot be read,
    or one of whose subtasks cannot, is refused and nothing is sent; so is one whose
    dependencies have a cycle.  Otherwise every subtask is sent once, under the key of its
    attempt and with its dependencies in earlier layers, up to the first message the client
    refuses, and the answer is [Ok] exactly when all were sent. *)
Theorem decomposition_published payload c :
  ∃ r c', process_decomposition_reply debug_id BlockingThread payload c = Some (r, c') ∧
    match reply_contents payload with
    | None => r ≠ Ok tt ∧ c' = c
    | Some (task_id, parsed) =>
        ((∃ i, tc (depends parsed) i i) ∧
           r = Err (TaskError "circular dependency detected in subtasks") ∧ c' = c) ∨
        ((∀ i, ¬ tc (depends parsed) i i) ∧
           ∃ msgs, decomposition task_id parsed msgs ∧ sent_up_to msgs c r c')
    end.
Proof.
  unfold process_decomposition_reply, reply_contents.
  destruct (from_slice payload) as [v|e]; [|eexists _, _; split; [reflexivity|by split]].
  destruct (json_get v "subtasks" ≫= λ v, json_as_array v) as [l|]; [|eexists _, _; split; [reflexivity|by split]]. cbn [mbind option_bind].
  set (tid := default _ _). destruct (decide (l = [])) as [->|Hl].
  { eexists _, _. split; [done|]. cbn. right. split.
    - intros i Hc. assert (∃ j, depends [] i j) as [j Hj] by (inversion Hc; eauto).
      apply known_deps_dom in Hj. simpl in Hj. lia.
    - exists []. split; [|apply sent_up_to_nil]. split_and!; [done|by intros ? ?%elem_of_nil|by intros ?? ?%elem_of_nil]. }
  destruct l as [|x l]; [done|]. destruct (parse_subtasks (x :: l)) as [parsed|e]; [|eexists _, _; split; [reflexivity|by split]].
  pose proof (execution_order_spec parsed) as Ho.
  destruct (resolve_execution_order parsed) as [[layers|e]|]; [| |done]; cbn [mbind option_bind].
  - destruct Ho as [(L & HL & Hp & Hlay & _) Hac].
    destruct (publish_layers_spec tid parsed 0 layers c) as (r & c' & Heq & Hs). exists r, c'. split; [exact Heq|].
    right. split; [done|]. eexists. split; [by eapply decomposition_of_layers|done].
  - destruct Ho as [-> Hc]. eexists _, _. split; [done|]. by left.
Qed.

(** The dispatch is called by an async task of the scheduler, and only the request runs
    inside [block_in_place]: the first publication panics, so nothing of a decomposition
    with a subtask is ever sent. *)
Theorem orchestrator_panics_at_publish d task payload c' reply tid parsed :
  to_vec task = Ok payload →
  request (orch_client d) (subject_prefix d +:+ "." +:+ sched_id task) payload = (Replied reply, c') →
  reply_contents reply = Some (tid, parsed) → parsed ≠ [] → (∀ i, ¬ tc (depends parsed) i i) →
  (∀ m : LegacyExecute, ∃ bytes, to_vec m = Ok bytes) →
  OrchestratorDispatcher_dispatch debug_id AsyncThread d task = None.
Proof.
  intros Hv Hr Hc Hne Hac Hm. unfold OrchestratorDispatcher_dispatch. rewrite Hv. unfold block_in_place, block_on.
  rewrite Hr. cbn [mbind option_bind]. unfold process_decomposition_reply.
  unfold reply_contents in Hc. destruct (from_slice reply) as [v|]; [|done]. revert Hc.
  destruct (json_get v "subtasks" ≫= λ v, json_as_array v) as [l|]; [|done]. cbn [mbind option_bind].
  destruct (parse_subtasks l) as [p|] eqn:Hp; [|done]. intros [= _ ->].
  destruct l as [|x l]; [injection Hp as <-; done|]. cbv beta iota.
  pose proof (execution_order_spec parsed) as Ho.
  destruct (resolve_execution_order parsed) as [[layers|e]|]; cbn [mbind option_bind]; [|by destruct Ho as [_ [i []%Hac]]|done].
  destruct Ho as [(L & HL%mapM_Some & Hperm & _ & HLne) _].
  destruct HL as [|q ids L layers Hq HL].
  { apply Permutation_nil_l in Hperm. by destruct parsed. }
  apply mapM_Some in Hq. apply Forall_cons in HLne as [Hqne _].
  destruct Hq as [|i id q ids Hi Hq]; [done|]. cbn [publish_layers publish_layer].
  unfold publish_subtask. by destruct (Hm (legacy_message_for (default "" (json_get v "task_id" ≫= λ v, json_as_str v)) parsed 0 id)) as [? ->].
Qed.
End Published.

(** ** Handing on *)

Section HandedOn.
Context {Tz : Type} `{TimeZones Tz} {S : Type} `{ScheduleStore S} {JS : Type} `{JobScheduler JS}
  `{Croner} (show_time : Instant → string).
Context {C : Type} `{NatsClient C, PayloadJson NatsTaskSubmit}.
Notation service := (SchedulerService Tz S JS).

(** The wired dispatcher as the scheduler sees it. *)
Definition nats_dispatcher (fresh : Uuid) (now : Instant) : ScheduleDispatcher :=
  λ t, (NatsSubmitDispatcher_dispatch fresh now t).1.

Lemma history_try_update t (v : service) : execution_history (try_update t v) = execution_history v.
Proof. unfold try_update. by repeat case_match. Qed.

Lemma history_mark now id at_ outcome (v : service) :
  execution_history (mark_execution_started now id at_ outcome v).2 = execution_history v.
Proof.
  unfold mark_execution_started. destruct (job_metadata v !! id); [|done]. cbn [snd].
  by rewrite history_try_update.
Qed.

(** A task the scheduler handed to the wired dispatcher inside the window: without a
    project scope it is recorded as skipped and nothing is spawned; with one it is recorded
    as completed and one publication is spawned.  When that publication is refused, a
    failure is appended to the history, and the registered job, the runtime and what is owed
    stay as the completion left them. *)
Lemma handed_on clk fresh fresh' fresh'' now id t (v : service) c bytes :
  job_metadata v !! id = Some t → next_window_opening (clk 0%nat) v = None →
  to_vec (build_payload fresh' t) = Ok bytes → trim (sched_project t) ≠ "" →
  let '(r, v1) := dispatch_with_guard show_time (nats_dispatcher fresh' (clk 1%nat)) clk fresh id v in
  r = Ok tt ∧
  (NatsSubmitDispatcher_dispatch fresh' (clk 1%nat) t).2 = [mkNatsJob (sched_id t) bytes (clk 1%nat)] ∧
  execution_history v1 = execution_history v ++
    [mkExecution fresh id (clk 1%nat) (Some (clk 3%nat)) ExecCompleted (Some "Task dispatched successfully") None] ∧
  ∀ e c', publish_with_headers c NATS_SUBJECT_TASK_SUBMIT [] bytes = (Err e, c') →
    let v2 := (run_nats_submit now fresh'' (mkNatsJob (sched_id t) bytes (clk 1%nat)) c v1).2 in
    execution_history v2 = execution_history v1 ++
      [build_failed_history fresh'' now (sched_id t) (clk 1%nat) e] ∧
    job_metadata v2 = job_metadata v1 ∧ spawned v2 = spawned v1 ∧ job_scheduler v2 = job_scheduler v1.
Proof.
  intros Hj Hw Hb Hs. unfold dispatch_with_guard, dispatch_with_guard_from. rewrite Hj, Hw.
  unfold dispatch_now, nats_dispatcher, NatsSubmitDispatcher_dispatch, validate_scheduled_task_scope.
  rewrite bool_decide_eq_false_2 by done. rewrite Hb. cbn [fst snd].
  split_and!; [done|done| |].
  - unfold record_execution. cbn. f_equal. apply history_mark.
  - intros e c' He. unfold run_nats_submit. cbn [nj_payload nj_scheduled_task_id nj_started_at]. by rewrite He.
Qed.

Lemma unscoped_is_skipped fresh now t :
  trim (sched_project t) = "" →
  ∃ e, NatsSubmitDispatcher_dispatch fresh now t = (Err e, []).
Proof.
  intros Hs. unfold NatsSubmitDispatcher_dispatch, validate_scheduled_task_scope.
  rewrite bool_decide_eq_true_2 by done. eauto.
Qed.
End HandedOn.

(** ** The lock *)

Section Lock.
Context {Tz : Type} `{TimeZones Tz} {S : Type} `{ScheduleStore S} {JS : Type} `{JobScheduler JS}
  `{Croner} (show_time : Instant → string).
Context {K : Type} `{KeyValueOk K}.

Lemma kv_invalid_acquires instance_id key kv :
  valid_kv_key key = false → (kv_try_acquire instance_id key kv).1 = true.
Proof.
  intros Hk. unfold kv_try_acquire. destruct (kv_bucket _ _ _) as [[|] kv']; [|done].
  by rewrite kv_create_invalid.
Qed.

Lemma lock_key_invalid id now : valid_kv_key (lock_key id now) = false.
Proof. done. Qed.

(** A well-formed key is acquired by one instance while its entry lives. *)
Lemma kv_excludes instance_id instance_id' key kv kv' n :
  valid_kv_key key = true → kv_create kv key instance_id = (Ok n, kv') →
  (∀ k, kv_bucket kv' SCHEDULER_LOCKS_BUCKET 300 = (Ok tt, k) →
     (kv_try_acquire instance_id' key kv').1 = false).
Proof.
  intros Hk Hc k Hb. unfold kv_try_acquire. rewrite Hb.
  assert (kv_holder k key = Some instance_id) as Hh.
  { rewrite (kv_bucket_keeps _ _ _ _ _ Hb). by eapply kv_create_free. }
  pose proof (kv_create_held k key instance_id' _ Hk Hh) as He.
  destruct (kv_create k key instance_id') as [r k']. simpl in He. by subst.
Qed.

(** The distributed lock of the scheduler excludes nobody.  The key of a tick
    contains colons, which a key of the bucket may not, so every instance is refused with
    an error the provider treats as an acquisition: whatever the bucket holds, a fire under
    the NATS lock is a fire without a lock. *)
Theorem kv_lock_excludes_nobody instance_id (kv : K) dispatch clk fresh id (v : SchedulerService Tz S JS) :
  cron_fired show_time (NatsKvLockProvider instance_id kv) dispatch clk fresh id v =
    cron_fired show_time NoOpLockProvider dispatch clk fresh id v ∧
  one_shot_fired show_time (NatsKvLockProvider instance_id kv) dispatch clk fresh id v =
    one_shot_fired show_time NoOpLockProvider dispatch clk fresh id v.
Proof.
  assert (∀ v : SchedulerService Tz S JS,
    cron_fired show_time (NatsKvLockProvider instance_id kv) dispatch clk fresh id v =
    cron_fired show_time NoOpLockProvider dispatch clk fresh id v) as Hf; [|by split; [|apply Hf]].
  intros v'. unfold cron_fired, NatsKvLockProvider. by rewrite (kv_invalid_acquires _ _ _ (lock_key_invalid _ _)).
Qed.
End Lock.

(** * Runs of the dispatchers

    Concrete clients, buckets and replies: instances of the theorems on the dispatchers of
    scheduled work, and runs in which the code departs from its comments. *)

(** ** Sample parameters *)

#[export] Program Instance BufferClient_ok : NatsClientOk BufferClient := { accepted := buf_sent }.
Next Obligation. intros [[] sent] subject headers bytes c'; simpl; [|done]. by intros [= <-]. Qed.
Next Obligation. intros [[] sent] subject headers bytes e c'; simpl; [done|]. by intros [= _ <-]. Qed.

(** A client whose worker answers every request with [reply]. *)
Record ReplyingClient : Type := mkReplying { rc_reply : string; rc_sent : list (string * list (string * string) * string) }.
#[export] Instance ReplyingClient_NatsClient : NatsClient ReplyingClient := {
  connected _ := true;
  publish_with_headers c subject headers bytes :=
    (Ok tt, mkReplying (rc_reply c) (rc_sent c ++ [(subject, headers, bytes)]));
  request c _ _ := (Replied (rc_reply c), c)
}.
#[export] Program Instance ReplyingClient_ok : NatsClientOk ReplyingClient := { accepted := rc_sent }.
Next Obligation. intros c subject headers bytes c'. simpl. by intros [= <-]. Qed.
Next Obligation. done. Qed.

(** JSON values whose leaves may be a subtask. *)
Inductive SampleJson : Type :=
| SText (s : string) | SNode (st : Subtask) | SArray (l : list SampleJson) | SObject (l : list (string * SampleJson)).

Fixpoint field (k : string) (l : list (string * SampleJson)) : option SampleJson :=
  match l with
  | [] => None
  | (k', v) :: rest => if k' ==? k then Some v else field k rest
  end.

#[export] Instance SampleJson_Json : Json SampleJson := {
  json_to_string _ := "";
  json_get v k := match v with SObject l => field k l | _ => None end;
  json_as_array v := match v with SArray l => Some l | _ => None end;
  json_as_str v := match v with SText s => Some s | _ => None end
}.

Definition node (id description : string) (deps : list string) (attempt : Z) : Subtask :=
  mkSubtask id "t-1" description SubtaskPending None deps [] "" None PreferRemote RequiresWorker attempt [] None [] 0.

Definition reply_of (l : list Subtask) : SampleJson :=
  SObject [("task_id", SText "t-1"); ("subtasks", SArray (SNode <$> l))].

#[export] Instance SampleJson_Reply : ReplyJson SampleJson := {
  from_slice s :=
    if s ==? "chain" then Ok (reply_of [node "b" "second" ["a"] 1; node "a" "first" [] 0])
    else if s ==? "twins" then Ok (reply_of [node "a" "one" [] 0; node "a" "other" [] 0])
    else if s ==? "cycle" then Ok (reply_of [node "a" "" ["b"] 0; node "b" "" ["a"] 0])
    else Err "expected value";
  subtask_from_value v := match v with SNode st => Ok st | _ => Err "invalid type" end
}.

#[export] Instance prefix_sha : Sha256 :=
  {| sha256 := λ s, take 32 ((λ c, Z.of_nat (nat_of_ascii c)) <$> list_ascii_of_string s ++ replicate 32 zero) |}.
#[export] Instance legacy_json : PayloadJson LegacyExecute :=
  {| to_vec m := Ok (le_description m +:+ "@" +:+ pretty (le_layer m)) |}.
#[export] Instance scheduled_json : PayloadJson ScheduledTask := {| to_vec t := Ok (sched_id t) |}.
#[export] Instance submit_json : PayloadJson NatsTaskSubmit := {| to_vec p := Ok (ns_task_id p) |}.

(** A bucket in memory. *)
#[export] Instance mem_kv : KeyValue (gmap string string) := {
  kv_bucket kv _ _ := (Ok tt, kv);
  kv_create kv k v :=
    if negb (valid_kv_key k) then (Err InvalidKey, kv)
    else match kv !! k with
         | Some _ => (Err AlreadyExists, kv)
         | None => (Ok 1, <[k := v]> kv)
         end
}.
#[export] Program Instance mem_kv_ok : KeyValueOk (gmap string string) := { kv_holder kv k := kv !! k }.
Next Obligation. intros kv k v Hk. simpl. by rewrite Hk. Qed.
Next Obligation. intros kv k v w Hk Hw. simpl. rewrite Hk. simpl. by rewrite Hw. Qed.
Next Obligation.
  intros kv k v kv' n. simpl. destruct (valid_kv_key k); simpl; [|done].
  destruct (kv !! k); [done|]. intros [= <- <-]. by rewrite lookup_insert_eq.
Qed.
Next Obligation. intros kv b age r kv'. simpl. by intros [= _ <-]. Qed.

(** ** Instances *)

Definition debug (id : TaskId) : string := "TaskId(" +:+ id +:+ ")".
Notation process := (process_decomposition_reply (J := SampleJson) debug).

(** Two subtasks listed in the wrong order are sent in the right one. *)
Lemma decomposition_published_witness :
  ∃ c', process BlockingThread "chain" (mkBuffer true []) = Some (Ok tt, c') ∧
    (accepted c').*2 = ["first@0"; "second@1"] ∧
    ∃ msgs, decomposition "t-1" [node "b" "second" ["a"] 1; node "a" "first" [] 0] msgs ∧
      sent_up_to msgs (mkBuffer true []) (Ok tt) c'.
Proof.
  destruct (decomposition_published (J := SampleJson) debug "chain" (mkBuffer true [])) as (r & c' & Hp & Hs).
  revert Hs. change (reply_contents "chain")
    with (Some ("t-1", [node "b" "second" ["a"] 1; node "a" "first" [] 0])). intros Hs.
  destruct r as [[]|e]; [|vm_compute in Hp; discriminate Hp]. exists c'. split; [exact Hp|]. split.
  - vm_compute in Hp. injection Hp as <-. reflexivity.
  - destruct Hs as [(_ & [=] & _)|(_ & Hm)]. exact Hm.
Defined.

(** On the thread the scheduler calls it on, the same reply panics the dispatcher. *)
Lemma orchestrator_panics_run :
  OrchestratorDispatcher_dispatch (J := SampleJson) debug AsyncThread
    (OrchestratorDispatcher_new (mkReplying "chain" []) None) demo_job = None ∧
  ∃ d, OrchestratorDispatcher_dispatch (J := SampleJson) debug BlockingThread
    (OrchestratorDispatcher_new (mkReplying "chain" []) None) demo_job = Some (Ok tt, d) ∧
    (rc_sent (orch_client d)).*2 = ["first@0"; "second@1"].
Proof. split; [vm_compute; reflexivity|]. eexists. split; vm_compute; reflexivity. Qed.

(** Two subtasks with one id: both messages carry the text and the key of the first. *)
Lemma twin_subtask_is_lost :
  ∃ c', process BlockingThread "twins" (mkBuffer true []) = Some (Ok tt, c') ∧
    (accepted c').*2 = ["one@0"; "one@0"] ∧
    ∃ h, (accepted c').*1.*2 = [h; h].
Proof. eexists. split; [vm_compute; reflexivity|]. split; [|eexists]; vm_compute; reflexivity. Qed.

(** A tick that another instance has locked fires nevertheless. *)
Lemma kv_lock_excludes_nobody_witness :
  let v := demo_run demo_setup in
  let locked : gmap string string := {[ lock_key "j" (seconds 100) := "other" ]} in
  execution_history (cron_fired show (NatsKvLockProvider "me" locked) LoggingDispatcher
    (at_time (seconds 100)) "x" "j" v) ≠ [].
Proof.
  cbv zeta. rewrite (proj1 (kv_lock_excludes_nobody show "me" ({[ lock_key "j" (seconds 100) := "other" ]} : gmap string string)
    LoggingDispatcher (at_time (seconds 100)) "x" "j" (demo_run demo_setup))).
  vm_compute. discriminate.
Defined.

(** A one-shot whose publication is refused is recorded as completed, then as failed, and
    is owed nothing, where a dispatcher that reports the failure gets its retry. *)
Lemma lost_one_shot_not_retried :
  let due := at_time (seconds 100) in
  let v := demo_run (demo_setup ++ [OpOneShotFired NoOpLockProvider (nats_dispatcher "task" (seconds 100)) due "x1" "j"]) in
  let jobs := (NatsSubmitDispatcher_dispatch "task" (seconds 100) demo_job).2 in
  let v' := foldl (λ v j, (run_nats_submit (seconds 101) "x2" j (mkBuffer false []) v).2) v jobs in
  exec_status <$> execution_history v' = [ExecCompleted; ExecFailed] ∧
  (next_execution <$> get_job "j" v') = Some None ∧ spawned v' = [] ∧
  (next_execution <$> get_job "j" (demo_run demo_fired)) = Some (Some (seconds 160)).
Proof. vm_compute. done. Qed.
