(* ===== verification/Writes.v ===== *)
(** * What a program may write

    [touches seen n key p]: on some answers of the store, the program [p] reaches a write or
    a delete of the document [key] of the namespace [n]; every document a read answered on
    the way is one [seen] admits.  [covered seen Q p]: every document [p] so touches
    satisfies [Q]; the rules of [covered] follow the code of the program, so the guards on
    the way to a write, and the documents read before it, are hypotheses of the goal that is
    left for it.  In an interleaving [seen] is what the store held at a moment of the run
    before the write ([logged_touches]). *)

From Stdlib Require Import String.
From S2P Require Import Prelude RustStr Store Prog Concurrency.

Section Writes.
Context {Value : Type}.

(** What reads may answer: a document, or that there is none. *)
Notation reads := (string → string → option Value → Prop).
Implicit Types seen : reads.

Definition answers seen (n key : string) (r : result (option (StoredRecord Value)) RecordError) : Prop :=
  ∀ o, r = Ok o → seen n key (record_value <$> o).

Inductive touches {A} seen (n key : string) : prog Value A → Prop :=
| touches_put v e k : touches seen n key (Put n key v e k)
| touches_delete k : touches seen n key (Delete n key k)
| touches_after_get n' key' k r : answers seen n' key' r → touches seen n key (k r) → touches seen n key (Get n' key' k)
| touches_after_put n' key' v e k r : touches seen n key (k r) → touches seen n key (Put n' key' v e k)
| touches_after_list n' limit k r : touches seen n key (k r) → touches seen n key (ListNs n' limit k)
| touches_after_delete n' key' k r : touches seen n key (k r) → touches seen n key (Delete n' key' k).

Lemma touches_mono {A} seen (seen' : reads) n key (p : prog Value A) :
  (∀ m i o, seen m i o → seen' m i o) → touches seen n key p → touches seen' n key p.
Proof. intros Hs. induction 1; econstructor; try done. intros o Ho. by apply Hs, H. Qed.

(** ** Rules *)

Section Rules.
Context (seen : reads) (Q : string → string → Prop).

Definition covered {A} (p : prog Value A) : Prop := ∀ n key, touches seen n key p → Q n key.

Lemma covered_ret {A} (a : A) : covered (Ret a).
Proof. intros n key Ht. inversion Ht. Qed.

Lemma covered_get {A} n key (k : _ → prog Value A) :
  (∀ r, answers seen n key r → covered (k r)) → covered (Get n key k).
Proof. intros Hk m i Ht. inversion Ht; subst. by eapply Hk. Qed.

Lemma covered_list {A} n limit (k : _ → prog Value A) : (∀ r, covered (k r)) → covered (ListNs n limit k).
Proof. intros Hk m i Ht. inversion Ht; subst. by eapply Hk. Qed.

Lemma covered_put {A} n key v e (k : _ → prog Value A) :
  Q n key → (∀ r, covered (k r)) → covered (Put n key v e k).
Proof. intros Hn Hk m i Ht. inversion Ht; subst; [done|]. by eapply Hk. Qed.

Lemma covered_delete {A} n key (k : _ → prog Value A) :
  Q n key → (∀ r, covered (k r)) → covered (Delete n key k).
Proof. intros Hn Hk m i Ht. inversion Ht; subst; [done|]. by eapply Hk. Qed.

Lemma covered_bind {A B} (p : prog Value A) (f : A → prog Value B) :
  covered p → (∀ a, covered (f a)) → covered (prog_bind p f).
Proof.
  intros Hp Hf. induction p as [a|n key k IH|n key v e k IH|n lim k IH|n key k IH]; cbn [prog_bind]; [apply Hf|..].
  - apply covered_get. intros r Hr. apply IH. intros m i Hm. apply Hp. by econstructor.
  - apply covered_put; [apply Hp; constructor|]. intros r. apply IH. intros m i Hm. apply Hp. by econstructor.
  - apply covered_list. intros r. apply IH. intros m i Hm. apply Hp. by econstructor.
  - apply covered_delete; [apply Hp; constructor|]. intros r. apply IH. intros m i Hm. apply Hp. by econstructor.
Qed.

(** ** The typed view *)

(** What a typed read may answer. *)
Definition held {T} `{Serde Value T} (ns key : string) (o : option T) : Prop :=
  match o with
  | Some x => ∃ raw, seen ns key (Some raw) ∧ from_value raw = Ok x
  | None => seen ns key None
  end.

Lemma covered_ns_get {T} `{Serde Value T} ns key : covered (ns_get (T:=T) ns key).
Proof. apply covered_get. intros r _. apply covered_ret. Qed.

(** A read whose answer decides what follows. *)
Lemma covered_read {T A} `{Serde Value T} ns key (f : result (option (T * Z)) RecordError → prog Value A) :
  (∀ r, (∀ o, r = Ok o → held ns key (fst <$> o)) → covered (f r)) → covered (prog_bind (ns_get ns key) f).
Proof.
  intros Hf. unfold ns_get. cbn [prog_bind]. apply covered_get. intros r Hr. apply Hf.
  intros o Ho. destruct r as [[rec|]|]; [|injection Ho as <-; apply (Hr None eq_refl)|done].
  unfold decode_record in Ho. destruct (from_value _) as [x|] eqn:Hx; [|done]. injection Ho as <-.
  exists (record_value rec). split; [apply (Hr (Some rec) eq_refl)|done].
Qed.

Lemma covered_ns_list {T} `{Serde Value T} ns limit : covered (ns_list (T:=T) ns limit).
Proof. apply covered_list. intros r. apply covered_ret. Qed.

Lemma covered_ns_put {T} `{Serde Value T} ns key (x : T) e : Q ns key → covered (ns_put ns key x e).
Proof.
  intros Hn. unfold ns_put. destruct (to_value x); [|apply covered_ret].
  apply covered_put; [done|]. intros r. apply covered_ret.
Qed.

Lemma covered_ns_delete ns key : Q ns key → covered (ns_delete ns key).
Proof. intros Hn. apply covered_delete; [done|]. intros r. apply covered_ret. Qed.

Lemma covered_cas_loop {T A} `{Serde Value T} rounds ns key absent
    (body : T → Z → cas_action T A) failed contended :
  Q ns key → covered (cas_loop rounds ns key absent body failed contended).
Proof.
  intros Hn. induction rounds as [|rounds IH]; cbn [cas_loop]; [apply covered_ret|].
  apply covered_bind; [apply covered_ns_get|]. intros [[[x v]|]|e]; [|apply covered_ret..].
  destruct (body x v) as [x' a|a]; [|apply covered_ret].
  apply covered_bind; [by apply covered_ns_put|]. intros [w|[]]; try apply covered_ret. apply IH.
Qed.
End Rules.
End Writes.

(** Follows a program through its binds and branches; [call] applies a rule for what it calls. *)
Ltac cover_step call :=
  match goal with
  | |- covered _ _ (Ret _) => apply covered_ret
  | |- covered _ _ (prog_bind _ _) => apply covered_bind; [|intros ?]
  | |- covered _ _ (ns_get _ _) => apply covered_ns_get
  | |- covered _ _ (ns_list _ _) => apply covered_ns_list
  | |- covered _ _ (ns_put _ _ _ _) => apply covered_ns_put
  | |- covered _ _ (ns_delete _ _) => apply covered_ns_delete
  | |- covered _ _ (cas_loop _ _ _ _ _ _ _) => apply covered_cas_loop
  | |- covered _ _ (match ?x with _ => _ end) => destruct x eqn:?
  | |- covered _ _ _ => progress cbv beta zeta
  | |- covered _ _ _ => call
  end.
Ltac cover call := repeat cover_step call.

(** ** In every interleaving *)

Section Logged.
Context {S Value : Type} {St : RecordStore S Value} {StOk : RecordStoreOk S Value} {R : Type}.
Notation reads := (string → string → option Value → Prop).

(** [p'] is what is left of [p]. *)
Inductive leads (seen : reads) : prog Value R → prog Value R → Prop :=
| leads_refl p : leads seen p p
| leads_get p n key k r : leads seen p (Get n key k) → answers seen n key r → leads seen p (k r)
| leads_put p n key v e k r : leads seen p (Put n key v e k) → leads seen p (k r)
| leads_list p n limit k r : leads seen p (ListNs n limit k) → leads seen p (k r)
| leads_delete p n key k r : leads seen p (Delete n key k) → leads seen p (k r).

Lemma leads_mono (seen seen' : reads) p p' :
  (∀ m i o, seen m i o → seen' m i o) → leads seen p p' → leads seen' p p'.
Proof. intros Hs. induction 1; econstructor; try done. intros o Ho. by apply Hs, H0. Qed.

Lemma leads_touches seen p p' n key : leads seen p p' → touches seen n key p' → touches seen n key p.
Proof. induction 1 as [| | | |]; intros Ht; [done|..]; apply IHleads; by econstructor. Qed.

(** What the store answered at a moment between [c0] and [c] with at most [j] writes logged. *)
Definition before owned (c0 c : config (S:=S) R) (j : nat) : reads := λ ns key o,
  ∃ c1, rtc (step owned) c0 c1 ∧ rtc (step owned) c1 c ∧ (length (cfg_log c1) ≤ j)%nat ∧
    ∃ r, store_get (cfg_store c1) ns key = Ok r ∧ o = record_value <$> r.

Definition pool_ok owned (c0 c : config (S:=S) R) : Prop :=
  rtc (step owned) c0 c ∧
  (∀ i p', cfg_threads c !! i = Some p' →
     ∃ p, cfg_threads c0 !! i = Some p ∧ leads (before owned c0 c (length (cfg_log c))) p p') ∧
  (∀ j ev, cfg_log c !! j = Some ev →
     ∃ p, cfg_threads c0 !! ev_thread ev = Some p ∧
       touches (before owned c0 c j) (ev_key ev).1 (ev_key ev).2 p).

Lemma before_mono owned (c0 c c' : config R) j j' ns key o :
  rtc (step owned) c c' → (j ≤ j')%nat → before owned c0 c j ns key o → before owned c0 c' j' ns key o.
Proof. intros Hr Hj (c1 & H1 & H2 & Hl & Ha). exists c1. split_and!; [done|by etrans|lia|done]. Qed.

Lemma threads_insert (P P' : prog Value R → prog Value R → Prop) (ps ts : list (prog Value R)) i q q' :
  (∀ j p', ts !! j = Some p' → ∃ p, ps !! j = Some p ∧ P p p') →
  ts !! i = Some q → (∀ p p', P p p' → P' p p') → (∀ p, P' p q → P' p q') →
  ∀ j p', <[i := q']> ts !! j = Some p' → ∃ p, ps !! j = Some p ∧ P' p p'.
Proof.
  intros Hts Hi HP Hq j p'. destruct (Nat.eq_dec i j) as [<-|Hne].
  - rewrite list_lookup_insert_eq by (by eapply lookup_lt_Some). intros [= <-].
    destruct (Hts i q Hi) as (p & Hp & Hl). eauto.
  - rewrite list_lookup_insert_ne by done. intros Hj. destruct (Hts j p' Hj) as (p & Hp & Hl). eauto.
Qed.

Lemma step_log_grows owned (c c' : config R) : step owned c c' → (length (cfg_log c) ≤ length (cfg_log c'))%nat.
Proof.
  destruct 1 as [|i ns key x e k now [r|err]| | |]; cbn [cfg_log log_put]; try lia. rewrite length_app. lia.
Qed.

Lemma step_pool_ok owned (c0 c c' : config R) : step owned c c' → pool_ok owned c0 c → pool_ok owned c0 c'.
Proof.
  intros Hs (Hr & Ht & Hl). pose proof (step_log_grows owned c c' Hs) as Hlen.
  assert (∀ p p', leads (before owned c0 c (length (cfg_log c))) p p' →
    leads (before owned c0 c' (length (cfg_log c'))) p p') as Hm.
  { intros p p'. apply leads_mono. intros m i o. apply before_mono; [by apply rtc_once|done]. }
  assert (∀ j ev, cfg_log c !! j = Some ev → ∃ p, cfg_threads c0 !! ev_thread ev = Some p ∧
    touches (before owned c0 c' j) (ev_key ev).1 (ev_key ev).2 p) as Hl'.
  { intros j ev Hj. destruct (Hl j ev Hj) as (p & Hp & Hto). exists p. split; [done|]. revert Hto.
    apply touches_mono. intros m i o. apply before_mono; [by apply rtc_once|done]. }
  split; [by eapply rtc_r|]. pose proof Hs as Hs'.
  destruct Hs as [i ns key k s ts h Hi|i ns key x e k now r s s' ts h Hi Hp
    |i ns n k s ts h Hi|i ns key k r s s' ts h Hi Hd|s s' ts h _ _]; cbn [cfg_threads cfg_log] in *; split; try done;
    try (eapply threads_insert; [exact Ht|exact Hi|exact Hm|]; intros p Hp'; by econstructor).
  - eapply threads_insert; [exact Ht|exact Hi|exact Hm|]. intros p Hp'. eapply leads_get; [exact Hp'|].
    intros o Ho. exists (mkConfig s ts h). split_and!; [done|by apply rtc_once|done|]. by exists o.
  - intros j ev Hev. destruct r as [r|err]; cbn [log_put] in Hev; [|by apply Hl'].
    apply lookup_app_Some in Hev as [Hev|[Hj Hev]]; [by apply Hl'|].
    apply list_lookup_singleton_Some in Hev as [Hj' <-]. cbn [ev_thread ev_key fst snd].
    destruct (Ht i _ Hi) as (p & Hp' & Hle). exists p. split; [done|].
    eapply touches_mono; [|eapply leads_touches; [exact Hle|constructor]].
    intros m key' o. apply before_mono; [by apply rtc_once|lia].
  - intros i p' Hi. destruct (Ht i p' Hi) as (p & Hp & Hle). eauto.
Qed.

(** Every write of an interleaving is one its program may make on what the store held before. *)
Lemma logged_touches owned (s : S) (ps : list (prog Value R)) c' j ev :
  rtc (step owned) (mkConfig s ps []) c' → cfg_log c' !! j = Some ev →
  ∃ p, ps !! ev_thread ev = Some p ∧
    touches (before owned (mkConfig s ps []) c' j) (ev_key ev).1 (ev_key ev).2 p.
Proof.
  intros Hr Hev. assert (pool_ok owned (mkConfig s ps []) c') as (_ & _ & Hl); [|by apply Hl].
  apply (rtc_ind_r (pool_ok owned (mkConfig s ps [])) (mkConfig s ps [])) with (z := c') in Hr; [done|..].
  - split_and!; cbn; [done| |by intros ? ?]. intros i p' Hp. exists p'. split; [done|constructor].
  - intros c c1 _ Hs Hc. by eapply step_pool_ok.
Qed.
End Logged.
