(* ===== verification/Edge.v ===== *)
(** * The edge of the governance plane

    [uc-grpc/src/governance/mod.rs], [policy_interceptor.rs] and [uc-grpc/src/auth.rs]: the
    error vocabulary both transports share, the reading of request fields, the bearer token,
    the resolution of the caller and the authorization gate.

    - [from_timestamp] is chrono's, a parameter; instants are nanoseconds.
    - The [Debug] text of a deny reason and the [Display] text of a status code are
      parameters.
    - Logging has no model, so [require_decision] is its answer. *)

From Stdlib Require Import String Ascii.
From stdpp Require Import strings pretty.
From S2P Require Import Prelude RustStr Tonic Policy Store Prog Mandate CaseStore Approval PolicyEngine Proactive.

(** ** Parameters *)

(** [DateTime::from_timestamp(seconds, 0)]. *)
Class UnixTime := { from_timestamp : Z → option Instant }.
Class UnixTimeOk `{UnixTime} : Prop :=
  { from_timestamp_seconds : ∀ s t, from_timestamp s = Some t → t = s * 1000000000 }.

(** ** The bearer token (auth.rs) *)

Definition BEARER_PREFIX : string := "Bearer ".

Fixpoint byte_diff (diff : Z) (p e : list ascii) : Z :=
  match p, e with
  | pb :: p', eb :: e' =>
      byte_diff (Z.lor diff (Z.lxor (Z.of_N (N_of_ascii pb)) (Z.of_N (N_of_ascii eb)))) p' e'
  | _, _ => diff
  end.

Definition constant_time_eq_bearer (provided_header expected_token : string) : bool :=
  let p := chars provided_header in
  let e := chars (BEARER_PREFIX +:+ expected_token) in
  if negb (length p =? length e)%nat then false else byte_diff 0 p e =? 0.

(** The answer to a request with the given [authorization] header. *)
Definition auth_call (expected : string) (header : option string) : result unit Status :=
  if expected ==? "" then Ok tt
  else match header with
       | None => Err (CodeUnauthenticated, "missing Authorization header (expected Bearer token)")
       | Some provided =>
           if constant_time_eq_bearer provided expected then Ok tt
           else Err (CodeUnauthenticated, "invalid bearer token")
       end.

(** ** Operation errors (mod.rs) *)

Record OpError : Type := mkOpError {
  op_code : string;
  op_message : string;
  op_status : Code
}.
#[export] Instance OpError_eq_dec : EqDecision OpError.
Proof. solve_decision. Defined.

Definition OpResult (T : Type) : Type := result T OpError.

Definition op_invalid (code message : string) : OpError := mkOpError code message CodeInvalidArgument.
Definition op_denied `{DenyReasonDebug} (d : PolicyDecision) : OpError :=
  match deny_reason d with
  | Some reason => mkOpError (DenyReason_code reason) (deny_reason_debug reason) CodePermissionDenied
  | None => mkOpError "policy_denied" "the policy engine refused the request" CodePermissionDenied
  end.
Definition op_denied_with (code message : string) : OpError := mkOpError code message CodePermissionDenied.
Definition op_not_found (code message : string) : OpError := mkOpError code message CodeNotFound.
Definition op_conflict (code message : string) : OpError := mkOpError code message CodeFailedPrecondition.
Definition op_internal (code message : string) : OpError := mkOpError code message CodeInternal.

Definition OpError_display (e : OpError) : string := op_code e +:+ ": " +:+ op_message e.
Definition op_to_status (e : OpError) : Status := (op_status e, OpError_display e).

(** [str::split_once(": ")]. *)
Fixpoint split_colon (l : list ascii) : option (list ascii * list ascii) :=
  match l with
  | [] => None
  | c :: rest =>
      match strip_prefix_chars [":"; " "]%char l with
      | Some tail => Some ([], tail)
      | None => '(a, b) ← split_colon rest; Some (c :: a, b)
      end
  end.
Definition split_once (s : string) : option (string * string) :=
  '(a, b) ← split_colon (chars s); Some (of_chars a, of_chars b).

Definition op_of_status `{CodeDisplay} (s : Status) : OpError :=
  match split_once s.2 with
  | Some (code, detail) => mkOpError code detail s.1
  | None => mkOpError (code_display s.1) s.2 s.1
  end.

(** [?] on a [Result<_, Status>] inside an operation. *)
Definition lift_status {T} `{CodeDisplay} (r : result T Status) : OpResult T := map_err op_of_status r.

(** [let x = r?; k] and [let x = p.await?; k] in an operation. *)
Notation "'try!' x ':=' r 'in' k" := (match r with Ok x => k | Err error => Ret (Err error) end)
  (at level 200, x pattern, r at level 100, k at level 200) : rust_scope.
Notation "'await!' x ':=' p 'in' k" :=
  (prog_bind p (λ r, match r with Ok x => k | Err error => Ret (Err error) end))
  (at level 200, x pattern, p at level 100, k at level 200) : rust_scope.

(** ** Request fields *)

Definition DEFAULT_LIST_LIMIT : Z := 50.
Definition MAX_LIST_LIMIT : Z := 500.

Definition clamp_limit (limit : Z) : nat :=
  Z.to_nat (Z.min (if limit =? 0 then DEFAULT_LIST_LIMIT else limit) MAX_LIST_LIMIT).

Definition decode_timestamp `{UnixTime} (seconds : Z) : OpResult Instant :=
  match from_timestamp seconds with
  | Some t => Ok t
  | None => Err (op_invalid "invalid_timestamp" (pretty seconds +:+ " is not a representable Unix timestamp"))
  end.
Definition decode_optional_timestamp `{UnixTime} (seconds : option Z) : OpResult (option Instant) :=
  match seconds with Some s => map_ok Some (decode_timestamp s) | None => Ok None end.
Definition encode_timestamp (t : Instant) : Z := t `div` 1000000000.
Definition encode_optional_timestamp (t : option Instant) : option Z := encode_timestamp <$> t.

Definition optional_text (value : option string) : option string :=
  v ← value; let t := trim v in if t ==? "" then None else Some t.
Definition required_text (value field : string) : OpResult string :=
  let trimmed := trim value in
  if trimmed ==? "" then Err (op_invalid "invalid_argument" (field +:+ " must not be empty")) else Ok trimmed.

(** ** Principals (policy_interceptor.rs) *)

Definition DEFAULT_PRINCIPAL_KIND : PrincipalKind := Service.
Definition DEFAULT_PRINCIPAL_ID : string := "dashboard".
Definition DECLARATION_REFUSED : string := "principal_kind_not_declarable".
Definition INVALID_PRINCIPAL : string := "invalid_principal".

Definition parse_kind (token : string) : option PrincipalKind :=
  let t := to_ascii_lowercase (trim token) in
  if t ==? "user" then Some User
  else if t ==? "service" then Some Service
  else if t ==? "agent" then Some Agent
  else if t ==? "worker" then Some Worker
  else if (t ==? "external_trigger") || (t ==? "externaltrigger") then Some ExternalTrigger
  else if t ==? "anonymous" then Some Anonymous
  else None.

Definition resolve_principal (kind id : string) : result Principal Status :=
  match parse_kind kind with
  | None =>
      Err (CodeInvalidArgument, "unknown principal_kind '" +:+ kind
             +:+ "' (expected user | service | agent | worker)")
  | Some k =>
      let id := trim id in
      if id ==? "" then Err (CodeInvalidArgument, "principal_id must not be empty")
      else if negb (may_hold k TaskSubmit) && (k !=? Anonymous) then
        Err (CodePermissionDenied, DECLARATION_REFUSED +:+ ": principal kind "
               +:+ PrincipalKind_as_str k +:+ " may not act over gRPC")
      else match k with
           | ExternalTrigger | Anonymous =>
               Err (CodePermissionDenied, DECLARATION_REFUSED +:+ ": principal kind "
                      +:+ PrincipalKind_as_str k +:+ " cannot be declared at this boundary (a webhook acts as the service that verified it)")
           | _ => Ok (mkPrincipal k id)
           end
  end.

(** [map(str::trim).filter(|value| !value.is_empty())] is [optional_text]. *)
Definition resolve_declared_principal (kind id : option string) : result Principal Status :=
  match optional_text kind, optional_text id with
  | None, None => Ok (mkPrincipal DEFAULT_PRINCIPAL_KIND DEFAULT_PRINCIPAL_ID)
  | Some _, None =>
      Err (CodeInvalidArgument, INVALID_PRINCIPAL +:+ ": principal_kind was set without principal_id")
  | None, Some _ =>
      Err (CodeInvalidArgument, INVALID_PRINCIPAL +:+ ": principal_id was set without principal_kind")
  | Some kind, Some id => resolve_principal kind id
  end.

(** The caller of a request; most operations read the two fields with [optional_text] first. *)
Definition declared `{CodeDisplay} (kind id : string) : OpResult Principal :=
  lift_status (resolve_declared_principal (Some kind) (Some id)).
Definition caller `{CodeDisplay} (kind id : string) : OpResult Principal :=
  lift_status (resolve_declared_principal (optional_text (Some kind)) (optional_text (Some id))).

Definition denial_code (d : PolicyDecision) : string := default "policy_denied" (deny_code d).

Definition deny_status `{DenyReasonDebug} (d : PolicyDecision) : Status :=
  match deny_reason d with
  | Some reason => (CodePermissionDenied, DenyReason_code reason +:+ ": " +:+ deny_reason_debug reason)
  | None => (CodePermissionDenied, "policy_denied: the policy engine refused the request")
  end.

Definition require_decision `{DenyReasonDebug} (d : PolicyDecision) : result unit Status :=
  if is_allowed d then Ok tt else Err (deny_status d).

Definition require `{DenyReasonDebug} (e : PolicyEngine) (principal : Principal) (permission : Permission)
    (project : option string) (now : Instant) : result unit Status :=
  require_decision (authorize e principal permission project now).

Definition require_scale_workers {Value} {Sda : Serde Value ToolApproval} `{DenyReasonDebug}
    (e : PolicyEngine) (principal : Principal) (case_id : option string) (now : Instant)
    : prog Value (result unit Status) :=
  let! d := authorize_human_tier_tool e principal "scale_workers" None case_id now in
  Ret (require_decision d).

(** ** Properties *)

Lemma byte_diff_mono d p e : 0 <= d → byte_diff d p e = 0 → d = 0.
Proof.
  revert d e. induction p as [|x p IH]; intros d e Hd; [done|]. destruct e as [|y e]; [done|].
  cbn [byte_diff]. intros H.
  assert (Z.lor d (Z.lxor (Z.of_N (N_of_ascii x)) (Z.of_N (N_of_ascii y))) = 0) as H0.
  { eapply IH; [|exact H]. apply Z.lor_nonneg. split; [done|]. rewrite Z.lxor_nonneg. lia. }
  by apply Z.lor_eq_0_iff in H0 as [-> _].
Qed.

Lemma byte_diff_zero p e : length p = length e → byte_diff 0 p e = 0 ↔ p = e.
Proof.
  revert e. induction p as [|x p IH]; intros [|y e] Hl; try done. cbn [byte_diff]. rewrite Z.lor_0_l.
  destruct (ascii_dec x y) as [->|Hne].
  - rewrite Z.lxor_nilpotent. rewrite IH by (simpl in Hl; lia). naive_solver.
  - split; [|naive_solver]. intros H. exfalso. apply Hne.
    apply byte_diff_mono in H; [|rewrite Z.lxor_nonneg; lia].
    apply Z.lxor_eq in H. apply N2Z.inj in H.
    by rewrite <-(ascii_N_embedding x), H, ascii_N_embedding.
Qed.

(** The comparison without early exit is equality with the full header. *)
Lemma bearer_exact provided expected :
  constant_time_eq_bearer provided expected = true ↔ provided = BEARER_PREFIX +:+ expected.
Proof.
  unfold constant_time_eq_bearer. destruct (Nat.eqb_spec (length (chars provided)) (length (chars (BEARER_PREFIX +:+ expected)))) as [Hl|Hl]; cbn [negb].
  - rewrite Z.eqb_eq, byte_diff_zero by done. split; [apply chars_inj|by intros ->].
  - split; [done|]. by intros ->.
Qed.

(** The caller a pair of fields resolves to. *)
Definition declared_as (kind id : option string) (p : Principal) : Prop :=
  (optional_text kind = None ∧ optional_text id = None ∧ p = Principal_service "dashboard") ∨
  ∃ k i, optional_text kind = Some k ∧ optional_text id = Some i ∧ parse_kind k = Some (principal_kind p) ∧
    principal_kind p ≠ ExternalTrigger ∧ principal_kind p ≠ Anonymous ∧ principal_id p = i.

Lemma optional_text_trim v t : optional_text v = Some t → trim t = t ∧ t ≠ "".
Proof.
  unfold optional_text. destruct v as [v|]; [|done]. simpl. case_bool_decide; [done|].
  intros [= <-]. split; [apply trim_idem|done].
Qed.

Lemma resolve_declared_exact kind id p :
  resolve_declared_principal kind id = Ok p ↔ declared_as kind id p.
Proof.
  unfold resolve_declared_principal, declared_as.
  destruct (optional_text kind) as [k|] eqn:Hk, (optional_text id) as [i|] eqn:Hi.
  - apply optional_text_trim in Hi as [Hti Hne]. unfold resolve_principal. rewrite Hti.
    destruct (parse_kind k) as [[]|] eqn:Hp; try (case_bool_decide; [done|]); cbn;
      (split; [try done; intros [= <-]; right; exists k, i; by split_and!|]);
      intros [(? & _)|(k' & i' & [= <-] & [= <-] & Hp' & H1 & H2 & H3)]; try done;
      rewrite Hp in Hp'; try done; destruct p; simpl in *; congruence.
  - split; [done|]. intros [(? & _)|(? & ? & ? & ? & _)]; done.
  - split; [done|]. intros [(_ & ? & _)|(? & ? & ? & _)]; done.
  - split; [intros [= <-]; by left|]. intros [(_ & _ & ->)|(? & ? & ? & _)]; done.
Qed.

Lemma optional_text_idem v : optional_text (optional_text v) = optional_text v.
Proof.
  destruct (optional_text v) as [t|] eqn:E; [|done]. apply optional_text_trim in E as [Ht Hne].
  unfold optional_text. cbn. rewrite Ht. by rewrite bool_decide_eq_false_2.
Qed.

(** Reading the fields with [optional_text] first changes nothing. *)
Lemma caller_declared `{CodeDisplay} kind id : caller kind id = declared kind id.
Proof. unfold caller, declared, resolve_declared_principal. by rewrite !optional_text_idem. Qed.

Lemma lift_status_Ok {T} `{CodeDisplay} (r : result T Status) x : lift_status r = Ok x ↔ r = Ok x.
Proof. destruct r; unfold lift_status; cbn; naive_solver. Qed.

Lemma declared_Ok `{CodeDisplay} kind id p : declared kind id = Ok p ↔ declared_as (Some kind) (Some id) p.
Proof. unfold declared. by rewrite lift_status_Ok, resolve_declared_exact. Qed.

Lemma require_Ok `{DenyReasonDebug} e p permission project now u :
  require e p permission project now = Ok u → authorize e p permission project now = Allow.
Proof. unfold require, require_decision. by destruct (authorize _ _ _ _ _). Qed.

Lemma required_text_Ok v field t : required_text v field = Ok t ↔ t = trim v ∧ trim v ≠ "".
Proof. unfold required_text. case_bool_decide; naive_solver. Qed.

(** ** Errors over the wire *)

Lemma split_colon_app a b :
  (∀ x y, a ≠ x ++ ":"%char :: " "%char :: y) → last a ≠ Some ":"%char →
  split_colon (a ++ ":"%char :: " "%char :: b) = Some (a, b).
Proof.
  induction a as [|c a IH]; intros Hno Hlast; [done|]. cbn [split_colon app].
  assert (strip_prefix_chars [":"; " "]%char (c :: a ++ ":"%char :: " "%char :: b) = None) as ->.
  { destruct (strip_prefix_chars _ _) as [r|] eqn:E; [|done]. apply strip_prefix_chars_Some in E.
    injection E as -> E. destruct a as [|d a]; simpl in E.
    - by simpl in Hlast.
    - injection E as -> _. by destruct (Hno [] a). }
  rewrite IH; [done| |].
  - intros x y Heq. by apply (Hno (c :: x) y); rewrite Heq.
  - by destruct a.
Qed.

(** A code can be told from the message that follows it. *)
Definition plain_code (code : string) : Prop :=
  (∀ x y, chars code ≠ x ++ ":"%char :: " "%char :: y) ∧ last (chars code) ≠ Some ":"%char.

(** An error that crosses the wire as a status is the same error on the other side. *)
Lemma op_status_roundtrip `{CodeDisplay} e : plain_code (op_code e) → op_of_status (op_to_status e) = e.
Proof.
  intros [Hno Hlast]. unfold op_of_status, op_to_status, OpError_display, split_once. cbn [fst snd].
  rewrite !chars_app. change (chars ": ") with [":"; " "]%char. cbn [app].
  rewrite split_colon_app by done. cbn [mbind option_bind]. rewrite !of_chars_chars. by destruct e.
Qed.

Lemma deny_code_plain reason : plain_code (DenyReason_code reason).
Proof.
  split.
  - intros x y Hx. assert (":"%char ∈ chars (DenyReason_code reason)) as Hin.
    { rewrite Hx. set_solver. }
    apply contains_char_true in Hin. by destruct reason.
  - by destruct reason.
Qed.

(** The gate and the operation error agree on a denial. *)
Lemma require_denied `{DenyReasonDebug, CodeDisplay} e principal permission project now :
  lift_status (require e principal permission project now) =
    if is_allowed (authorize e principal permission project now) then Ok tt
    else Err (op_denied (authorize e principal permission project now)).
Proof.
  unfold lift_status, require, require_decision. destruct (authorize e principal permission project now) as [|reason]; [done|].
  cbn. f_equal. exact (op_status_roundtrip (mkOpError _ _ _) (deny_code_plain reason)).
Qed.
