(* ===== verification/TaskWire.v ===== *)
(** * Tasks and events as clients see them

    [crates/uc-grpc/src/conversions.rs], the part on tasks: the messages in which the
    gateway answers about tasks, what a client reads out of them, and what it reads out of
    the streamed events.

    - The JSON of a verdict and of file changes is a parameter ([ResultJson], with
      [ResultJsonOk]: it is read back).
    - The clock and the fresh ids a reader fills in are arguments. *)

From Stdlib Require Import String Ascii.
From stdpp Require Import gmap strings pretty.
From S2P Require Import Prelude RustStr Task Events Graph GraphStore GatewayStore GatewayEvents GatewayRpc Edge.

(** ** Messages *)

Record TaskProto : Type := mkTaskProto {
  tp_id : string;
  tp_description : string;
  tp_status : string;
  tp_project_id : string;
  tp_subtask_count : Z;
  tp_created_at : Z;
  tp_updated_at : Z;
  tp_subtasks : list ProtoSubtask
}.

Class ResultJson := {
  review_text : SubtaskReview → option string;
  review_of_text : string → option SubtaskReview;
  changes_of_text : string → option (list FileChange)
}.
Class ResultJsonOk `{ResultJson} : Prop := {
  review_back : ∀ r, ∃ s, review_text r = Some s ∧ review_of_text s = Some r
}.

Definition subtask_status_to_proto (s : SubtaskStatus) : string :=
  match s with
  | SubtaskPending => "Pending"
  | SubtaskAssigned => "Assigned"
  | SubtaskInProgress => "InProgress"
  | SubtaskCompleted => "Completed"
  | SubtaskFailed => "Failed"
  | SubtaskConflicted => "Conflicted"
  end.

Definition task_status_from_proto (s : string) : TaskStatus := default TaskPlanning (task_status_from_str s).
Definition subtask_status_from_proto (s : string) : SubtaskStatus :=
  default SubtaskPending (subtask_status_from_str s).

(** ** Writing *)

Definition step_to_proto (s : WorkflowStep) : ProtoStep :=
  mkProtoStep (step_agent s) (step_prompt s) (step_agent_config_json s) (Some (abort_on_failure s))
    (Some (step_retry_count s)) (Some (retry_delay_ms s)) (step_condition s) (parallel_group s).

(** The text of a result: its output, or else its summary. *)
Definition result_text (r : SubtaskResult) : option string :=
  or_else (result_output r) (if result_summary r ==? "" then None else Some (result_summary r)).

Definition dispatch_mode_text (m : DispatchMode) : string :=
  match m with Remote => "Remote" | PreferRemote => "PreferRemote" end.

Section Wire.
Context `{ResultJson}.

Definition SubtaskProto_from (st : Subtask) : ProtoSubtask :=
  mkProtoSubtask (subtask_id st) (subtask_status_to_proto (subtask_status st)) (subtask_description st)
    (assigned_worker st) (depends_on st) (file_constraints st) (expected_output st)
    (Some (dispatch_mode_text (dispatch_mode st))) (Some (dispatch_retry_count st)) (Some (retry_count st))
    (required_capabilities st) (step_to_proto <$> steps st) (parent_id st)
    (subtask_result st ≫= result_text) (agent_config_json st)
    (r ← subtask_result st; v ← result_review r; review_text v).

Definition TaskProto_from (t : Task) : TaskProto :=
  mkTaskProto (tk_id t) (tk_description t) (task_status_to_proto (tk_status t)) (tk_project_id t)
    (wrap_u32 (Z.of_nat (length (tk_subtasks t)))) (encode_timestamp (tk_created_at t))
    (encode_timestamp (tk_updated_at t)) (SubtaskProto_from <$> tk_subtasks t).

(** ** Reading *)

(** [fresh] and [fresh'] are the ids the reader makes up for a result. *)
Definition Subtask_from_proto (fresh fresh' : string) (now : Instant) (p : ProtoSubtask) : Subtask :=
  mkSubtask (pst_id p) (pst_parent_id p) (pst_description p) (subtask_status_from_proto (pst_status p))
    (pst_assigned_worker p) (pst_depends_on p) (pst_file_constraints p) (pst_expected_output p)
    ((λ text, mkSubtaskResult fresh fresh' [] "" true now (Some text) None
                (pst_review_json p ≫= review_of_text)) <$> pst_result p)
    (match pst_dispatch_mode p with
     | Some m => if m ==? "Remote" then Remote else PreferRemote
     | None => PreferRemote
     end)
    RequiresWorker (default 0 (pst_dispatch_retry_count p)) (pst_required_capabilities p)
    (pst_agent_config_json p) (step_of_proto <$> pst_steps p) (default 0 (pst_retry_count p)).

Definition Task_from_proto `{UnixTime} (fresh fresh' : string) (now : Instant) (p : TaskProto) : Task :=
  mkTask (tp_id p) (tp_description p) (tp_project_id p) (task_status_from_proto (tp_status p))
    (Subtask_from_proto fresh fresh' now <$> tp_subtasks p)
    (default now (from_timestamp (tp_created_at p))) (default now (from_timestamp (tp_updated_at p))).

(** ** Responses *)

Record SubmitTaskResponse : Type := mkSubmitResponse {
  sr_success : bool;
  sr_task_id : string;
  sr_status : string;
  sr_subtask_count : Z;
  sr_subtasks : list ProtoSubtask;
  sr_error : option string;
  sr_dedup_replayed : bool;
  sr_submission_id : option string
}.

Definition SubmitTaskResponse_into_task (fresh fresh' : string) (now : Instant) (r : SubmitTaskResponse) : Task :=
  mkTask (sr_task_id r) "" "" (task_status_from_proto (sr_status r))
    (Subtask_from_proto fresh fresh' now <$> sr_subtasks r) now now.

Record GetTaskResponse : Type := mkGetTaskResponse { gt_available : bool; gt_task : option TaskProto }.

Definition GetTaskResponse_into_task `{UnixTime} (fresh fresh' : string) (now : Instant) (r : GetTaskResponse)
    : Task :=
  match gt_task r with
  | Some p => Task_from_proto fresh fresh' now p
  | None => mkTask fresh "" "" TaskCreated [] now now
  end.

(** [PauseTaskResponse] and [ResumeTaskResponse] carry an id and a status. *)
Definition control_into_task (success : bool) (task_id status : string) (now : Instant) : Task :=
  mkTask task_id "" "" (if success then task_status_from_proto status else TaskFailed) [] now now.
End Wire.

(** ** Streamed events *)

Inductive AgentEventPayload : Type :=
| PayloadTaskCreated (task : Task)
| PayloadSubtaskAssigned (task_id subtask_id worker_id : string)
| PayloadWorkerStarted (task_id subtask_id worker_id : string)
| PayloadToolInvoked (task_id subtask_id tool_name tool_input : string)
| PayloadToolResult (task_id subtask_id tool_output : string) (exit_code : Z)
| PayloadFileModified (task_id subtask_id file_path diff : string)
| PayloadSubtaskCompleted (task_id : string) (result : SubtaskResult)
| PayloadSubtaskFailed (task_id subtask_id error : string) (recoverable : bool) (stderr_tail recent_tools : string)
| PayloadCheckpointCreated (task_id snapshot_id : string)
| PayloadEditIntent (worker_id file_path : string) (regions : list (Z * Z))
| PayloadConflictDetected (file_path : string) (workers : list string).

Record ClientEvent : Type := mkClientEvent {
  ce_event_id : Z;
  ce_timestamp : Instant;
  ce_payload : AgentEventPayload
}.

(** [str::parse::<i32>]. *)
Definition parse_i32 (s : string) : option Z :=
  let '(sign, digits) := match chars s with
                         | "+"%char :: rest => (1, rest)
                         | "-"%char :: rest => (-1, rest)
                         | l => (1, l)
                         end in
  if bool_decide (digits = []) || negb (forallb is_digit_char digits) then None
  else
    let n := sign * digits_value 0 digits in
    if (- 2 ^ 31 <=? n) && (n <? 2 ^ 31) then Some n else None.

Section Reader.
Context `{ResultJson, EventText}.

(** [proto.data.get(key).cloned().unwrap_or_default()]. *)
Definition data_str (d : gmap string string) (key : string) : string := default ""%string (d !! key).

Definition read_tools (s : string) : string :=
  if starts_with s "[" then s
  else json_text (JArray (JString <$> filterb (λ v, v !=? "") (trim ∘ of_chars <$> split_char ","%char (chars s)))).

Definition completed_result (fresh st : string) (at_ : Instant) (d : gmap string string) : SubtaskResult :=
  mkSubtaskResult st fresh (default [] (d !! "modified_files"%string ≫= changes_of_text)) (data_str d "summary")
    (default false ((λ s, to_ascii_lowercase s ==? "true") <$> d !! "success"%string)) at_
    (let output := data_str d "output" in if output ==? "" then None else Some output) None None.

Definition client_payload (fresh : string) (p : TaskEventProto) : AgentEventPayload :=
  let t := te_task_id p in
  let st := default ""%string (te_subtask_id p) in
  let d := te_data p in
  let kind := te_type p in
  if kind ==? "task_submitted" then
    PayloadTaskCreated (mkTask t (data_str d "description") (data_str d "project_id") TaskCreated []
                          (te_timestamp p) (te_timestamp p))
  else if kind ==? "subtask_assigned" then PayloadSubtaskAssigned t st (data_str d "worker_id")
  else if kind ==? "subtask_started" then PayloadWorkerStarted t st (data_str d "worker_id")
  else if kind ==? "tool_call" then PayloadToolInvoked t st (data_str d "tool_name") (data_str d "tool_input")
  else if kind ==? "tool_result" then
    PayloadToolResult t st (data_str d "tool_output") (default 0 (d !! "exit_code"%string ≫= parse_i32))
  else if kind ==? "file_modified" then PayloadFileModified t st (data_str d "file_path") (data_str d "diff")
  else if kind ==? "subtask_completed" then PayloadSubtaskCompleted t (completed_result fresh st (te_timestamp p) d)
  else if kind ==? "subtask_failed" then
    PayloadSubtaskFailed t st (data_str d "error")
      (default false ((λ s, s ==? "true") <$> d !! "recoverable"%string)) (data_str d "stderr_tail")
      (default ""%string (read_tools <$> d !! "recent_tools"%string))
  else if kind ==? "checkpoint_created" then PayloadCheckpointCreated t (data_str d "snapshot_id")
  else if kind ==? "edit_intent" then PayloadEditIntent (data_str d "worker_id") (data_str d "file_path") []
  else PayloadCheckpointCreated t kind.

(** The id of an event is its time in milliseconds, taken as [u64]. *)
Definition ClientEvent_from (fresh : string) (p : TaskEventProto) : ClientEvent :=
  mkClientEvent ((te_timestamp p `div` 1000000) `mod` 2 ^ 64) (te_timestamp p) (client_payload fresh p).
End Reader.

(** ** What a client learns *)

(** A subtask but for its result and its effect class. *)
Definition sent_part (st : Subtask) : Subtask :=
  mkSubtask (subtask_id st) (parent_id st) (subtask_description st) (subtask_status st) (assigned_worker st)
    (depends_on st) (file_constraints st) (expected_output st) None (dispatch_mode st) RequiresWorker
    (dispatch_retry_count st) (required_capabilities st) (agent_config_json st) (steps st) (retry_count st).

Lemma task_status_back s : task_status_from_proto (task_status_to_proto s) = s.
Proof. by destruct s. Qed.

Lemma subtask_status_back s : subtask_status_from_proto (subtask_status_to_proto s) = s.
Proof. by destruct s. Qed.

Lemma step_back s : step_of_proto (step_to_proto s) = s.
Proof. by destruct s. Qed.

Lemma steps_back (l : list WorkflowStep) : step_of_proto <$> (step_to_proto <$> l) = l.
Proof. rewrite <-list_fmap_compose. rewrite <-(list_fmap_id l) at 2. apply list_fmap_ext. intros; apply step_back. Qed.

Section Client.
Context `{ResultJsonOk, EventText, UnixTime}.

Lemma subtask_sent fresh fresh' now st : sent_part (Subtask_from_proto fresh fresh' now (SubtaskProto_from st)) = sent_part st.
Proof.
  destruct st as [i p d s w deps fs out r m ec n caps cfg stps k]. unfold sent_part, SubtaskProto_from. cbn.
  rewrite subtask_status_back, steps_back. by destruct m.
Qed.

Lemma result_sent fresh fresh' now st :
  let st' := Subtask_from_proto fresh fresh' now (SubtaskProto_from st) in
  (subtask_result st' ≫= result_output) = (subtask_result st ≫= result_text) ∧
  (is_Some (subtask_result st ≫= result_text) →
   (subtask_result st' ≫= result_review) = (subtask_result st ≫= result_review)).
Proof.
  cbn. destruct (subtask_result st) as [r|]; cbn; [|by split; [|intros [? ?]]].
  destruct (result_text r) as [text|]; cbn; [|by split; [|intros [? ?]]]. split; [done|]. intros _.
  destruct (result_review r) as [v|]; cbn; [|done]. destruct (review_back v) as (s & -> & Hs). by cbn; rewrite Hs.
Qed.

(** A time the client can read is the sent one without its fraction of a second. *)
Definition to_the_second (read sent : Instant) : Prop := read <= sent < read + 1000000000.

Lemma time_sent now x :
  UnixTimeOk → is_Some (from_timestamp (encode_timestamp x)) →
  to_the_second (default now (from_timestamp (encode_timestamp x))) x.
Proof.
  intros Hu [y Hy]. rewrite Hy. cbn. apply from_timestamp_seconds in Hy as ->.
  unfold to_the_second, encode_timestamp.
  pose proof (Z.div_mod x 1000000000 ltac:(lia)). pose proof (Z.mod_pos_bound x 1000000000 ltac:(lia)). lia.
Qed.


(** A result a client reads has succeeded, whatever the result of the subtask. *)
Lemma read_results_succeed fresh fresh' now p r :
  subtask_result (Subtask_from_proto fresh fresh' now p) = Some r → result_success r = true.
Proof. cbn. destruct (pst_result p); [|done]. by intros [= <-]. Qed.

(** A verdict without a text does not reach the client. *)
Lemma silent_verdict_is_lost fresh fresh' now st :
  (subtask_result st ≫= result_text) = None →
  subtask_result (Subtask_from_proto fresh fresh' now (SubtaskProto_from st)) = None.
Proof. cbn. by intros ->. Qed.

(** A streamed tool result says [success], and the client reads [exit_code]: a tool that
    failed has exited with zero. *)
Theorem failed_tool_reads_zero fresh now t st output success :
  st ≠ ""%string →
  ce_payload (ClientEvent_from fresh (task_event_of now (AgentEvent.ToolResult t st output success)))
  = PayloadToolResult t st output 0.
Proof.
  intros Hst. unfold ClientEvent_from, task_event_of. cbn [event_fields ce_payload].
  rewrite bool_decide_eq_false_2 by done. done.
Qed.

(** Progress, pauses and ends of tasks reach the client as checkpoints named after them. *)
Theorem control_events_read_as_checkpoints fresh now t :
  ce_payload (ClientEvent_from fresh (task_event_of now (AgentEvent.TaskCancelled t)))
  = PayloadCheckpointCreated t "task_cancelled" ∧
  ce_payload (ClientEvent_from fresh (task_event_of now (AgentEvent.TaskPaused t)))
  = PayloadCheckpointCreated t "task_paused" ∧
  ∀ err, ce_payload (ClientEvent_from fresh (task_event_of now (AgentEvent.TaskFailed t err)))
  = PayloadCheckpointCreated t "task_failed".
Proof. split_and!; intros; vm_compute; reflexivity. Qed.
End Client.

(** *** A task on the wire *)

(** A verdict as the bits of its code. *)
Fixpoint bits_text (p : positive) : string :=
  match p with
  | xI p => String "1" (bits_text p)
  | xO p => String "0" (bits_text p)
  | xH => ""
  end.
Fixpoint bits_of_text (s : string) : positive :=
  match s with
  | "" => xH
  | String c s => if c ==? "1"%char then xI (bits_of_text s) else xO (bits_of_text s)
  end%string.

Lemma bits_back p : bits_of_text (bits_text p) = p.
Proof. induction p as [p IH|p IH|]; cbn; by rewrite ?IH. Qed.

Definition review_tuple (r : SubtaskReview) : bool * list string * list string :=
  (review_approved r, review_issues r, review_suggestions r).
Definition review_of_tuple (t : bool * list string * list string) : SubtaskReview := mkReview t.1.1 t.1.2 t.2.

#[local] Instance bits_json : ResultJson :=
  {| review_text := λ r, Some (bits_text (encode (review_tuple r)));
     review_of_text := λ s, review_of_tuple <$> decode (bits_of_text s);
     changes_of_text := λ _, None |}.
#[local] Instance bits_json_ok : ResultJsonOk.
Proof.
  split. intros [ok issues suggestions]. eexists. split; [done|]. cbn. rewrite bits_back, decode_encode. done.
Qed.
#[local] Instance second_time : UnixTime := {| from_timestamp := λ s, Some (s * 1000000000) |}.

Definition sample_node : Subtask :=
  mkSubtask "a" "t" "check it" SubtaskFailed (Some "w1"%string) [] [] ""
    (Some (mkSubtaskResult "a" "w1" [] "two tests fail" false 7000000000 None None
             (Some (mkReview false ["flaky"%string] []))))
    Remote ReadOnly 0 [] None [mkStep "claude" "check" None true 1 0 None None] 0.
Definition sample_task : Task := mkTask "t" "fix it" "p" TaskInProgress [sample_node] 5500000000 7000000000.


(** The failed result of the sample is read as a success. *)
Lemma failed_result_reads_success :
  result_success <$> subtask_result sample_node = Some false ∧
  result_success <$> subtask_result (Subtask_from_proto "x" "y" 9 (SubtaskProto_from sample_node)) = Some true.
Proof. split; by vm_compute. Qed.
