(* ===== verification/ApprovalService.v ===== *)
(** * The approval service

    [uc-grpc/src/governance/approval_service.rs]: asking for a human decision, listing what
    waits, deciding.  An operation is a program over the record store; the policy engine it
    reads is an argument, as are the clock and the [Display] text of an instant. *)

From Stdlib Require Import String Ascii.
From stdpp Require Import strings pretty.
From S2P Require Import Prelude RustStr Tonic Policy Store Prog Concurrency Writes Mandate CaseStore Approval PolicyEngine Attention Proactive Edge.

(** ** Views *)

Record ApprovalView : Type := mkApprovalView {
  apv_id : string;
  apv_tool : string;
  apv_case_id : option string;
  apv_project_id : option string;
  apv_action_digest : option string;
  apv_requested_by_kind : string;
  apv_requested_by_id : string;
  apv_reason : option string;
  apv_state : string;
  apv_requested_at : Instant;
  apv_expires_at : Instant;
  apv_decided_at : option Instant;
  apv_decided_by_id : option string;
  apv_note : option string;
  apv_used_at : option Instant
}.

Definition ApprovalView_from_approval (a : ToolApproval) : ApprovalView :=
  let r := approval_request a in
  mkApprovalView (approval_key a) (approval_tool r) (approval_case_id r) (approval_project_id r)
    (action_digest r) (PrincipalKind_as_str (principal_kind (requested_by r)))
    (principal_id (requested_by r)) (approval_reason r) (ApprovalState_as_str (approval_state a))
    (requested_at a) (approval_expires_at a) (decided_at a) (principal_id <$> decided_by a)
    (approval_note a) (used_at a).

(** The proto message has the same fields with Unix seconds for the instants. *)
Definition ApprovalView_to_proto (v : ApprovalView) : ApprovalView :=
  mkApprovalView (apv_id v) (apv_tool v) (apv_case_id v) (apv_project_id v) (apv_action_digest v)
    (apv_requested_by_kind v) (apv_requested_by_id v) (apv_reason v) (apv_state v)
    (encode_timestamp (apv_requested_at v)) (encode_timestamp (apv_expires_at v))
    (encode_optional_timestamp (apv_decided_at v)) (apv_decided_by_id v) (apv_note v)
    (encode_optional_timestamp (apv_used_at v)).

(** ** Requests *)

Record RequestApprovalRequest : Type := mkRequestApproval {
  ra_principal_kind : string;
  ra_principal_id : string;
  ra_tool : string;
  ra_case_id : option string;
  ra_project_id : option string;
  ra_action_digest : option string;
  ra_reason : option string;
  ra_ttl_minutes : option Z
}.
Record ListApprovalsRequest : Type := mkListApprovals {
  la_state : option string;
  la_limit : Z;
  la_offset : Z
}.
Record DecideApprovalRequest : Type := mkDecideApproval {
  da_principal_kind : string;
  da_principal_id : string;
  da_approval_id : string;
  da_approve : bool;
  da_note : option string
}.

(** [str::contains(&str)]. *)
Fixpoint contains_chars (l needle : list ascii) : bool :=
  match strip_prefix_chars needle l with
  | Some _ => true
  | None => match l with [] => false | _ :: rest => contains_chars rest needle end
  end.
Definition contains_str (s needle : string) : bool := contains_chars (chars s) (chars needle).

Section Service.
Context {Value : Type} {Sda : Serde Value ToolApproval} {Sdi : Serde Value AttentionItem}.
Context `{Sha256, DenyReasonDebug, CodeDisplay} (show_time : Instant → string) (kind_debug : PrincipalKind → string).
Notation prog := (prog Value).

(** ** Errors *)

Definition ApprovalError_display (e : ApprovalError) : string :=
  match e with
  | NotPending s => "approval is " +:+ ApprovalState_as_str s +:+ " — only a pending request can be decided"
  | NotAHumanDecision k => "a " +:+ kind_debug k +:+ " principal cannot decide an approval"
  | SelfDecision => "the requester cannot decide their own approval request"
  | ApprovalIsExpired at_ => "approval expired at " +:+ show_time at_
  | NotUsable s => "approval is " +:+ ApprovalState_as_str s +:+ " — not usable"
  end.

Definition approval_error (e : ApprovalStoreError) : OpError :=
  match e with
  | Refused refusal => op_denied_with "approval_refused" (ApprovalError_display refusal)
  | ApprovalNotFound i => op_not_found "approval_not_found" ("approval '" +:+ i +:+ "' does not exist")
  | ApprovalStoreFailed error => op_internal "approval_store_failed" (RecordError_display error)
  end.

Definition parse_approval_state (token : string) : OpResult ApprovalState :=
  let t := to_ascii_lowercase (trim token) in
  if t ==? "pending" then Ok ApprovalPending
  else if t ==? "approved" then Ok ApprovalApproved
  else if t ==? "rejected" then Ok ApprovalRejected
  else if t ==? "expired" then Ok ApprovalExpired
  else if t ==? "used" then Ok ApprovalUsed
  else Err (op_invalid "unknown_approval_state" ("unknown approval state '" +:+ t +:+ "'")).

(** ** Asking *)

Definition approval_item (a : ToolApproval) (case_id : string) (now : Instant) : AttentionItem :=
  let r := approval_request a in
  let tail := of_chars (drop (length (chars (approval_key a)) - 12) (chars (approval_key a))) in
  item_with_priority
    (item_with_human_action
       (item_with_detail
          (AttentionItem_new ("att-approval-" +:+ tail) case_id NeedsHumanDecision
             ("approve " +:+ approval_tool r +:+ "?") now)
          ("approval " +:+ approval_key a +:+ " · requested by "
             +:+ PrincipalKind_as_str (principal_kind (requested_by r)) +:+ ":"
             +:+ principal_id (requested_by r) +:+ " · "
             +:+ default "no reason given" (approval_reason r)))
       ("POST /api/approvals/" +:+ approval_key a +:+ "/decide"))
    8.

(** The worklist item is raised on a best-effort basis. *)
Definition raise_approval_item (a : ToolApproval) (created : bool) (case_id : option string)
    (now : Instant) : prog unit :=
  match created, case_id with
  | true, Some case_id => let! _ := raise (approval_item a case_id now) now in Ret tt
  | _, _ => Ret tt
  end.

Definition request_approval (e : PolicyEngine) (now : Instant) (r : RequestApprovalRequest)
    : prog (OpResult (ApprovalView * bool)) :=
  try! principal := caller (ra_principal_kind r) (ra_principal_id r) in
  try! tool := required_text (ra_tool r) "tool" in
  let req := requirement (engine_tools e) tool in
  if negb (known req) then
    Ret (Err (op_invalid "unknown_tool" ("tool '" +:+ tool +:+ "' is not in the policy table")))
  else
    let case_id := optional_text (ra_case_id r) in
    let project_id := optional_text (ra_project_id r) in
    if negb (human_approval req) then
      Ret (Err (op_invalid "tool_does_not_require_approval"
                  ("tool '" +:+ tool +:+ "' does not require human approval")))
    else
      let ttl := (λ m, minutes (Z.max m 1)) <$> ra_ttl_minutes r in
      let approval :=
        ToolApproval_request
          (mkApprovalRequest tool case_id project_id (optional_text (ra_action_digest r)) principal
             (optional_text (ra_reason r))) now ttl in
      let! stored := ApprovalStore_request approval in
      try! (approval, created) := map_err approval_error stored in
      let! _ := raise_approval_item approval created case_id now in
      Ret (Ok (ApprovalView_from_approval approval, created)).

(** ** Listing *)

Definition list_approvals (r : ListApprovalsRequest) : prog (OpResult (list ApprovalView)) :=
  try! state := match optional_text (la_state r) with
                | Some token => map_ok Some (parse_approval_state token)
                | None => Ok None
                end in
  let! page := ApprovalStore_list_page state (clamp_limit (la_limit r)) (Z.to_nat (la_offset r)) in
  Ret (map_ok (fmap ApprovalView_from_approval) (map_err approval_error page)).

(** ** Deciding *)

(** The item a request raised is closed on a best-effort basis. *)
Definition close_approval_item (a : ToolApproval) (principal : Principal) (now : Instant) : prog unit :=
  match approval_case_id (approval_request a) with
  | None => Ret tt
  | Some case_id =>
      let! o := open_for_case case_id in
      match o with
      | Ok (Some item) =>
          if (item_kind item ==? NeedsHumanDecision)
             && match item_detail item with Some d => contains_str d (approval_key a) | None => false end
          then
            let! _ := AttentionBoard_resolve (item_id item)
                        (HumanDecision (principal_id principal) (ApprovalState_as_str (approval_state a))) now in
            Ret tt
          else Ret tt
      | _ => Ret tt
      end
  end.

Definition decide_approval (e : PolicyEngine) (now : Instant) (r : DecideApprovalRequest)
    : prog (OpResult ApprovalView) :=
  try! principal := caller (da_principal_kind r) (da_principal_id r) in
  let decision := authorize e principal ProactiveExecute None now in
  if is_denied decision then Ret (Err (op_denied decision))
  else if principal_kind principal !=? User then
    Ret (Err (op_denied_with "approval_requires_human"
                ("a " +:+ PrincipalKind_as_str (principal_kind principal)
                   +:+ " principal cannot decide an approval; only a user can")))
  else
    try! id := required_text (da_approval_id r) "approval_id" in
    let note := optional_text (da_note r) in
    let! decided :=
      (if da_approve r then ApprovalStore_approve id principal note now
       else ApprovalStore_reject id principal note now) in
    try! approval := map_err approval_error decided in
    let! _ := close_approval_item approval principal now in
    Ret (Ok (ApprovalView_from_approval approval)).
End Service.
