(* ===== verification/CaseService.v ===== *)
(** * The case service

    [uc-grpc/src/governance/case_service.rs]: work cases, mandates and the authorization
    check, as programs over the record store.

    - The policy engine an operation reads is an argument; [revoke_mandate] also returns the
      engine it leaves behind.  The clock and fresh ids are arguments.
    - The JSON texts of conditions, scopes and sandbox profiles are serde's ([CaseText]).
    - A view and its proto message have the same fields; [to_proto] changes the instants to
      Unix seconds. *)

From Stdlib Require Import String Ascii.
From stdpp Require Import strings pretty.
From S2P Require Import Prelude RustStr Tonic Policy Store Prog Concurrency Writes Mandate WorkCase CaseStore Approval PolicyEngine Trigger Attention Proactive Edge.

(** ** Parameters and errors *)

Class CaseText (J : Type) := {
  json_from_str : string → result J string;
  json_text : J → string;
  scopes_from_str : string → result (list MandateScope) string;
  scopes_to_string : list MandateScope → result string string;
  profile_from_str : string → result SandboxSecurityProfile string
}.

Definition PolicyEngineError_display (e : PolicyEngineError) : string :=
  match e with
  | PolicyStoreFailed error => "policy store: " +:+ RecordError_display error
  | PolicyMandate error => "policy mandate: " +:+ MandateStoreError_display error
  | PolicyDenied d => "denied: " +:+ default "unknown" (deny_code d)
  | Widening detail => "mandate widening refused: " +:+ detail
  | UnknownMandate i => "unknown mandate " +:+ i
  | MandateConflict case existing =>
      "case " +:+ case +:+ " already has a live mandate (" +:+ existing +:+ "); revoke it first"
  end.

Definition case_store_error (e : CaseStoreError) : OpError :=
  match e with
  | CaseNotFound i => op_not_found "case_not_found" ("case '" +:+ i +:+ "' does not exist")
  | CaseTransition error => op_conflict "illegal_case_transition" (CaseTransitionError_display error)
  | CaseContended i => op_conflict "case_contended" ("case '" +:+ i +:+ "' is contended; retry the operation")
  | CaseStoreFailed error => op_internal "case_store_failed" (RecordError_display error)
  end.

Definition policy_store_error (e : PolicyEngineError) : OpError :=
  match e with
  | PolicyDenied _ => op_internal "policy_store_failed" ("policy lookup failed: " +:+ PolicyEngineError_display e)
  | PolicyStoreFailed _ => op_internal "policy_store_failed" (PolicyEngineError_display e)
  | PolicyMandate (MandateNotFound i) => op_not_found "mandate_not_found" ("mandate '" +:+ i +:+ "' does not exist")
  | PolicyMandate other => op_internal "mandate_store_failed" (MandateStoreError_display other)
  | UnknownMandate i => op_not_found "mandate_not_found" ("mandate '" +:+ i +:+ "' does not exist")
  | Widening detail => op_denied_with "mandate_widening_denied" detail
  | MandateConflict case existing =>
      op_conflict "mandate_conflict"
        ("case '" +:+ case +:+ "' already holds the live mandate '" +:+ existing +:+ "'; revoke it first")
  end.

Definition policy_issue_error `{DenyReasonDebug} (e : PolicyEngineError) : OpError :=
  match e with
  | PolicyDenied d => op_denied d
  | Widening detail => op_denied_with "mandate_widening_denied" detail
  | UnknownMandate i => op_not_found "mandate_not_found" ("parent mandate '" +:+ i +:+ "' does not exist")
  | MandateConflict case existing =>
      op_conflict "mandate_conflict"
        ("case '" +:+ case +:+ "' already holds the live mandate '" +:+ existing +:+ "'")
  | other => op_internal "policy_failed" (PolicyEngineError_display other)
  end.

Definition policy_revoke_error `{DenyReasonDebug} (e : PolicyEngineError) : OpError :=
  match e with
  | PolicyDenied d => op_denied d
  | PolicyMandate (MandateNotFound i) => op_not_found "mandate_not_found" ("mandate '" +:+ i +:+ "' does not exist")
  | other => op_internal "policy_failed" (PolicyEngineError_display other)
  end.

(** ** Tokens *)

Definition case_run_outcome_token (o : CaseRunOutcome) : string :=
  match o with
  | RunSucceeded => "succeeded" | RunFailed => "failed"
  | RunCancelled => "cancelled" | RunSuperseded => "superseded"
  end.

Definition parse_case_run_outcome (token : string) : OpResult CaseRunOutcome :=
  let t := to_ascii_lowercase (trim token) in
  if (t ==? "succeeded") || (t ==? "success") then Ok RunSucceeded
  else if (t ==? "failed") || (t ==? "failure") then Ok RunFailed
  else if (t ==? "cancelled") || (t ==? "canceled") then Ok RunCancelled
  else if t ==? "superseded" then Ok RunSuperseded
  else Err (op_invalid "unknown_outcome" ("unknown run outcome '" +:+ t +:+ "'")).

Definition parse_action_class (token : string) : option ActionClass :=
  let t := to_ascii_lowercase (trim token) in
  if t ==? "read" then Some Read
  else if t ==? "write" then Some ActWrite
  else if t ==? "execute" then Some Execute
  else if t ==? "dispatch" then Some Dispatch
  else if t ==? "push" then Some Push
  else if t ==? "merge" then Some Merge
  else if t ==? "external_notify" then Some ExternalNotify
  else if t ==? "scale" then Some Scale
  else if t ==? "admin" then Some Admin
  else None.

(** ** Views *)

Record CaseRunView : Type := mkRunView {
  rv_run_id : string;
  rv_task_id : string;
  rv_attempt : Z;
  rv_submission_id : option string;
  rv_started_at : Instant;
  rv_ended_at : option Instant;
  rv_outcome : option string;
  rv_detail : option string
}.

Definition CaseRunView_from_run (r : CaseRun) : CaseRunView :=
  mkRunView (run_id r) (run_task_id r) (attempt r) (run_submission_id r) (started_at r) (ended_at r)
    (case_run_outcome_token <$> outcome r) (run_detail r).
Definition CaseRunView_to_proto (v : CaseRunView) : CaseRunView :=
  mkRunView (rv_run_id v) (rv_task_id v) (rv_attempt v) (rv_submission_id v)
    (encode_timestamp (rv_started_at v)) (encode_optional_timestamp (rv_ended_at v)) (rv_outcome v)
    (rv_detail v).

Record CaseView : Type := mkCaseView {
  cv_id : string;
  cv_title : string;
  cv_description : string;
  cv_project_id : string;
  cv_status : string;
  cv_origin : CaseOrigin;
  cv_contract_digest : option string;
  cv_completion_conditions_json : option string;
  cv_mandate_id : option string;
  cv_subscriptions : list string;
  cv_runs : list CaseRunView;
  cv_compacted_runs : Z;
  cv_priority : Z;
  cv_labels : list string;
  cv_created_at : Instant;
  cv_updated_at : Instant;
  cv_version : Z
}.

Definition CaseView_from_case {J} `{CaseText J} (c : WorkCase J) : CaseView :=
  mkCaseView (case_id c) (title c) (description c) (project_id c) (CaseStatus_as_str (status c))
    (case_origin c) (contract_digest c) (json_text <$> completion_conditions c) (case_mandate_id c)
    (subscriptions c) (CaseRunView_from_run <$> runs c) (compacted_runs c) (case_priority c) (labels c)
    (created_at c) (updated_at c) (case_version c).
Definition CaseView_to_proto (v : CaseView) : CaseView :=
  mkCaseView (cv_id v) (cv_title v) (cv_description v) (cv_project_id v) (cv_status v) (cv_origin v)
    (cv_contract_digest v) (cv_completion_conditions_json v) (cv_mandate_id v) (cv_subscriptions v)
    (CaseRunView_to_proto <$> cv_runs v) (cv_compacted_runs v) (cv_priority v) (cv_labels v)
    (encode_timestamp (cv_created_at v)) (encode_timestamp (cv_updated_at v)) (cv_version v).

Record MandateView : Type := mkMandateView {
  mv_id : string;
  mv_case_id : string;
  mv_grantor_kind : string;
  mv_grantor_id : string;
  mv_policy_version : Z;
  mv_scopes_json : string;
  mv_issued_at : Instant;
  mv_expires_at : option Instant;
  mv_revoked_at : option Instant;
  mv_revoke_reason : option string;
  mv_revoked_by : option string;
  mv_origin : string;
  mv_delegated_from : option string
}.

Definition MandateView_from_mandate {J} `{CaseText J} (m : Mandate) : MandateView :=
  mkMandateView (mandate_id m) (mandate_case_id m) (PrincipalKind_as_str (principal_kind (grantor m)))
    (principal_id (grantor m)) (mandate_policy_version m)
    (match scopes_to_string (scopes m) with Ok s => s | Err _ => "[]" end) (issued_at m)
    (mandate_expires_at m) (revocation_at <$> revoked m) (revocation_reason <$> revoked m)
    ((Principal_display ∘ revocation_by) <$> revoked m) (MandateOrigin_as_str (origin m))
    (delegated_from m).
Definition MandateView_to_proto (v : MandateView) : MandateView :=
  mkMandateView (mv_id v) (mv_case_id v) (mv_grantor_kind v) (mv_grantor_id v) (mv_policy_version v)
    (mv_scopes_json v) (encode_timestamp (mv_issued_at v)) (encode_optional_timestamp (mv_expires_at v))
    (encode_optional_timestamp (mv_revoked_at v)) (mv_revoke_reason v) (mv_revoked_by v) (mv_origin v)
    (mv_delegated_from v).

Record CreateCaseOutcome : Type := mkCreateOutcome {
  cco_case : CaseView;
  cco_mandate : option MandateView;
  cco_dedup_replayed : bool
}.
Record ListCasesOutcome : Type := mkListOutcome { lco_cases : list CaseView; lco_total : Z }.
Record AuthorizeOutcome : Type := mkAuthorizeOutcome {
  ao_allowed : bool;
  ao_deny_code : option string;
  ao_deny_detail : option string;
  ao_permission_allowed : bool;
  ao_mandate_allowed : bool;
  ao_sandbox_allowed : bool
}.

Definition decision_ok (d : option PolicyDecision) : bool :=
  match d with Some d => is_allowed d | None => true end.
Definition denied_one (d : option PolicyDecision) : option PolicyDecision :=
  d ← d; if is_denied d then Some d else None.

Definition from_dimensions `{DenyReasonDebug} (permission_allowed : bool)
    (mandate sandbox : option PolicyDecision) : AuthorizeOutcome :=
  let reason := d ← or_else (denied_one mandate) (denied_one sandbox); deny_reason d in
  mkAuthorizeOutcome (permission_allowed && decision_ok mandate && decision_ok sandbox)
    (DenyReason_code <$> reason) (deny_reason_debug <$> reason) permission_allowed (decision_ok mandate)
    (decision_ok sandbox).
Definition outcome_refused (code detail : string) : AuthorizeOutcome :=
  mkAuthorizeOutcome false (Some code) (Some detail) false false false.

(** ** Requests *)

Record CreateCaseRequest : Type := mkCreateCase {
  cc_principal_kind : string;
  cc_principal_id : string;
  cc_project_id : string;
  cc_title : string;
  cc_description : string;
  cc_source : string;
  cc_external_ref : option string;
  cc_thread_key : option string;
  cc_trigger_id : option string;
  cc_contract_digest : option string;
  cc_completion_conditions_json : option string;
  cc_priority : option Z;
  cc_labels : list string;
  cc_issue_mandate : bool;
  cc_mandate_scopes_json : option string;
  cc_mandate_expires_at : option Z
}.
Record ListCasesRequest : Type := mkListCases {
  lc_limit : Z;
  lc_status : option string;
  lc_project_id : option string;
  lc_thread_key : option string;
  lc_include_terminal : bool
}.
Record TransitionCaseRequest : Type := mkTransitionCase {
  tc_principal_kind : string;
  tc_principal_id : string;
  tc_case_id : string;
  tc_status : string;
  tc_reason : option string
}.
Record OpenCaseRunRequest : Type := mkOpenRun {
  or_case_id : string;
  or_task_id : string;
  or_submission_id : option string
}.
Record FinishCaseRunRequest : Type := mkFinishRun {
  fr_case_id : string;
  fr_run_id : string;
  fr_outcome : string;
  fr_detail : option string
}.
Record IssueMandateRequest : Type := mkIssueMandate {
  im_principal_kind : string;
  im_principal_id : string;
  im_case_id : string;
  im_scopes_json : string;
  im_policy_version : option Z;
  im_expires_at : option Z;
  im_delegated_from : option string
}.
Record RevokeMandateRequest : Type := mkRevokeMandate {
  rm_principal_kind : string;
  rm_principal_id : string;
  rm_mandate_id : string;
  rm_reason : string
}.
Record GetMandateRequest : Type := mkGetMandate {
  gm_mandate_id : option string;
  gm_case_id : option string
}.
Record AuthorizeRequest : Type := mkAuthorize {
  az_principal_kind : string;
  az_principal_id : string;
  az_permission : string;
  az_project_id : option string;
  az_case_id : option string;
  az_policy_version : option Z;
  az_tool : option string;
  az_repo : option string;
  az_branch : option string;
  az_path : option string;
  az_action : option string;
  az_tokens : option Z;
  az_cost_usd : option f64;
  az_sandbox_profile_json : option string
}.

Section Service.
Context {Value J : Type} {Sdc : Serde Value (WorkCase J)} {Sdm : Serde Value Mandate}
        {Sda : Serde Value ToolApproval}.
Context `{CaseText J, Sha256, DenyReasonDebug, CodeDisplay, UnixTime, F64Display, DenialDebug}.
Notation prog := (prog Value).
Notation WorkCase := (WorkCase J).

Definition parse_scopes (raw : option string) : OpResult (list MandateScope) :=
  match optional_text raw with
  | None => Ok []
  | Some raw =>
      map_err (λ error, op_invalid "invalid_scopes_json"
                ("mandate scopes must be a JSON array of MandateScope: " +:+ error)) (scopes_from_str raw)
  end.

(** ** Creating a case *)

Definition case_source (raw : string) : OpResult string :=
  match optional_text (Some raw) with
  | Some source =>
      match SourceKind_from_str_lossy source with
      | None =>
          Err (op_invalid "unknown_source" ("unknown case origin source '" +:+ source
            +:+ "' (expected github | ci | lark | dashboard | api | cron | manual)"))
      | Some _ => Ok source
      end
  | None => Ok "manual"
  end.

Definition set_conditions (c : WorkCase) (v : option J) : WorkCase :=
  mkCase (case_id c) (title c) (description c) (project_id c) (status c) (case_origin c)
    (contract_digest c) v (case_mandate_id c) (subscriptions c) (runs c) (compacted_runs c)
    (case_priority c) (labels c) (created_at c) (updated_at c) (case_version c).
Definition set_labels (c : WorkCase) (l : list string) : WorkCase :=
  mkCase (case_id c) (title c) (description c) (project_id c) (status c) (case_origin c)
    (contract_digest c) (completion_conditions c) (case_mandate_id c) (subscriptions c) (runs c)
    (compacted_runs c) (case_priority c) l (created_at c) (updated_at c) (case_version c).

(** The case a request describes, before it meets the store. *)
Definition requested_case (fresh_id : string) (now : Instant) (title project_id : string)
    (r : CreateCaseRequest) : OpResult WorkCase :=
  let? source := case_source (cc_source r) in
  let external_ref := optional_text (cc_external_ref r) in
  let thread_key := optional_text (cc_thread_key r) in
  let origin := mkOrigin source external_ref thread_key (optional_text (cc_trigger_id r)) in
  let c0 := WorkCase_new fresh_id title (cc_description r) project_id origin now in
  let c1 := match or_else external_ref thread_key with
            | Some identity => WorkCase_with_id c0 (CaseId_from_parts source identity)
            | None => c0
            end in
  let c2 := match optional_text (cc_contract_digest r) with
            | Some digest => with_contract_digest c1 digest
            | None => c1
            end in
  let? c3 := match optional_text (cc_completion_conditions_json r) with
             | Some raw =>
                 match json_from_str raw with
                 | Ok v => Ok (set_conditions c2 (Some v))
                 | Err error =>
                     Err (op_invalid "invalid_completion_conditions"
                            ("completion_conditions_json must be valid JSON: " +:+ error))
                 end
             | None => Ok c2
             end in
  let c4 := match cc_priority r with
            | Some p => set_priority c3 (if p <=? u8_max then p else MAX_PRIORITY)
            | None => c3
            end in
  Ok (set_labels c4 (filterb (λ l, l !=? "") (trim <$> cc_labels r))).

(** [cases.update(.., |case| case.mandate_id = ..)]. *)
Definition link_mandate (case : string) (mandate : string) : prog (OpResult WorkCase) :=
  let! r := CaseStore_update case (λ _ c, (Ok tt, set_mandate_id c (Some mandate))) in
  Ret (map_err case_store_error (map_ok fst r)).

(** The mandate of a case that was just created. *)
Definition issue_first_mandate (e : PolicyEngine) (fresh_mandate : string) (now : Instant)
    (principal : Principal) (project_id : string) (case : WorkCase) (r : CreateCaseRequest)
    : prog (OpResult CreateCaseOutcome) :=
  try! scopes := parse_scopes (cc_mandate_scopes_json r) in
  if scopes ==? [] then
    Ret (Err (op_invalid "invalid_scopes" "issue_mandate was requested without scopes — a mandate that authorizes nothing makes the case unable to execute"))
  else
    try! expires_at := decode_optional_timestamp (cc_mandate_expires_at r) in
    let origin := if principal_kind principal ==? User then HumanIssued else SystemDefault in
    let! issued := PolicyEngine.issue_mandate e fresh_mandate principal (case_id case) (Some project_id) scopes
                     origin expires_at None now in
    try! mandate := map_err policy_issue_error issued in
    await! case := link_mandate (case_id case) (mandate_id mandate) in
    Ret (Ok (mkCreateOutcome (CaseView_from_case case) (Some (MandateView_from_mandate mandate)) false)).

Definition create_case (e : PolicyEngine) (fresh_id fresh_mandate : string) (now : Instant)
    (r : CreateCaseRequest) : prog (OpResult CreateCaseOutcome) :=
  try! principal := declared (cc_principal_kind r) (cc_principal_id r) in
  try! project_id := required_text (cc_project_id r) "project_id" in
  try! title := required_text (cc_title r) "title" in
  try! _ := lift_status (require e principal CaseCreate (Some project_id) now) in
  try! case := requested_case fresh_id now title project_id r in
  let! created := create_unique case in
  try! (case, dedup_replayed) := map_err case_store_error created in
  if negb (cc_issue_mandate r) then
    Ret (Ok (mkCreateOutcome (CaseView_from_case case) None dedup_replayed))
  else if dedup_replayed then
    let! latest := latest_mandate_for_case (case_id case) in
    try! latest := map_err policy_store_error latest in
    let live := m ← latest; if negb (is_revoked m) && negb (is_expired m now) then Some m else None in
    Ret (Ok (mkCreateOutcome (CaseView_from_case case) (MandateView_from_mandate <$> live) dedup_replayed))
  else issue_first_mandate e fresh_mandate now principal project_id case r.

(** ** Reading cases *)

Definition get_case (raw_id : string) : prog (OpResult (option CaseView)) :=
  try! case_id := required_text raw_id "case_id" in
  let! r := CaseStore_get case_id in
  Ret (map_ok (fmap (λ cv, CaseView_from_case cv.1)) (map_err case_store_error r)).

Definition parse_status (token : string) : OpResult CaseStatus :=
  match CaseStatus_from_str_lossy token with
  | Some s => Ok s
  | None => Err (op_invalid "unknown_status" ("unknown case status '" +:+ token +:+ "'"))
  end.

Definition view_terminal (v : CaseView) : bool :=
  match CaseStatus_from_str_lossy (cv_status v) with Some s => is_terminal s | None => false end.

(** Live cases first, then the most recently touched. *)
Definition case_view_leb (a b : CaseView) : bool :=
  if eqb (view_terminal a) (view_terminal b) then cv_updated_at b <=? cv_updated_at a
  else negb (view_terminal a).

Definition case_matches (status_filter : option CaseStatus) (include_terminal : bool)
    (project : option string) (c : WorkCase) : bool :=
  match status_filter with
  | Some s => status c ==? s
  | None => include_terminal || negb (is_terminal (status c))
  end && match project with Some p => project_id c ==? p | None => true end.

Definition list_cases (r : ListCasesRequest) : prog (OpResult ListCasesOutcome) :=
  let limit := clamp_limit (if lc_limit r =? 0 then DEFAULT_LIST_LIMIT else lc_limit r) in
  try! status_filter := match optional_text (lc_status r) with
                        | Some token => map_ok Some (parse_status token)
                        | None => Ok None
                        end in
  let project := optional_text (lc_project_id r) in
  let! candidates :=
    match optional_text (lc_thread_key r) with
    | Some thread =>
        let! found := find_by_thread thread (Z.to_nat MAX_LIST_LIMIT) in
        Ret (map_ok (λ o, match o with Some c => [c] | None => [] end) found)
    | None => let! l := CaseStore_list (Z.to_nat MAX_LIST_LIMIT) in Ret (map_ok (λ l, l.*1) l)
    end in
  try! candidates := map_err case_store_error candidates in
  let matched :=
    sort_by case_view_leb
      (CaseView_from_case <$> filterb (case_matches status_filter (lc_include_terminal r) project) candidates) in
  Ret (Ok (mkListOutcome (take limit matched) (Z.of_nat (length matched) `mod` 2 ^ 32))).

(** ** Moving cases *)

Definition transition_case (e : PolicyEngine) (now : Instant) (r : TransitionCaseRequest)
    : prog (OpResult CaseView) :=
  try! principal := declared (tc_principal_kind r) (tc_principal_id r) in
  try! case_id := required_text (tc_case_id r) "case_id" in
  try! token := required_text (tc_status r) "status" in
  try! next := parse_status token in
  let! found := CaseStore_get case_id in
  try! found := map_err case_store_error found in
  match found with
  | None => Ret (Err (op_not_found "case_not_found" ("case '" +:+ case_id +:+ "' does not exist")))
  | Some (case, _) =>
      try! _ := lift_status (require e principal CaseControl (Some (project_id case)) now) in
      let! updated := CaseStore_transition case_id next now in
      Ret (map_ok CaseView_from_case (map_err case_store_error updated))
  end.

Definition open_case_run (fresh : Z → string) (now : Instant) (r : OpenCaseRunRequest)
    : prog (OpResult CaseRunView) :=
  try! case_id := required_text (or_case_id r) "case_id" in
  try! task_id := required_text (or_task_id r) "task_id" in
  let submission_id := optional_text (or_submission_id r) in
  let! opened := CaseStore_open_run fresh case_id task_id submission_id now in
  try! case := map_err case_store_error opened in
  Ret match find run_is_open (rev (runs case)) with
      | Some run => Ok (CaseRunView_from_run run)
      | None =>
          Err (op_internal "run_not_recorded"
                 "the store reported an opened run but none is open on the case")
      end.

Definition finish_case_run (now : Instant) (r : FinishCaseRunRequest) : prog (OpResult CaseView) :=
  try! case_id := required_text (fr_case_id r) "case_id" in
  try! run_id := required_text (fr_run_id r) "run_id" in
  try! token := required_text (fr_outcome r) "outcome" in
  try! o := parse_case_run_outcome token in
  let! finished := CaseStore_finish_run case_id run_id o (optional_text (fr_detail r)) now in
  Ret (map_ok CaseView_from_case (map_err case_store_error finished)).

(** ** Mandates *)

(** The refusal of a policy generation older than the installed one. *)
Definition stale_version (e : PolicyEngine) (provided : option Z) : option string :=
  v ← provided;
  if v <? engine_version e
  then Some ("policy version v" +:+ pretty v +:+ " is behind the installed v" +:+ pretty (engine_version e))
  else None.

Definition issue_origin (delegated_from : option string) (grantor : Principal) : MandateOrigin :=
  match delegated_from with
  | Some _ => CaseDelegated
  | None => if principal_kind grantor ==? User then HumanIssued else SystemDefault
  end.

Definition issue_mandate_op (e : PolicyEngine) (fresh_id : string) (now : Instant)
    (r : IssueMandateRequest) : prog (OpResult MandateView) :=
  try! grantor := declared (im_principal_kind r) (im_principal_id r) in
  try! case_id := required_text (im_case_id r) "case_id" in
  try! scopes := parse_scopes (Some (im_scopes_json r)) in
  if scopes ==? [] then
    Ret (Err (op_invalid "invalid_scopes"
                "a mandate must carry at least one scope — an empty mandate authorizes nothing"))
  else
    let! found := CaseStore_get (Json:=J) case_id in
    try! found := map_err case_store_error found in
    match found with
    | None => Ret (Err (op_not_found "case_not_found" ("case '" +:+ case_id +:+ "' does not exist")))
    | Some (case, _) =>
        match stale_version e (im_policy_version r) with
        | Some text =>
            Ret (Err (op_conflict "stale_policy_version"
                        (text +:+ "; re-read the policy snapshot before issuing a mandate")))
        | None =>
            try! expires_at := decode_optional_timestamp (im_expires_at r) in
            let delegated_from := optional_text (im_delegated_from r) in
            let! issued := PolicyEngine.issue_mandate e fresh_id grantor case_id (Some (project_id case)) scopes
                             (issue_origin delegated_from grantor) expires_at delegated_from now in
            try! mandate := map_err policy_issue_error issued in
            await! _ := link_mandate (mandate_case_id mandate) (mandate_id mandate) in
            Ret (Ok (MandateView_from_mandate mandate))
        end
    end.

(** The link of a withdrawn mandate is cleared when the case still has it. *)
Definition unlink_mandate (case mandate : string) : prog unit :=
  let! _ := CaseStore_update case
              (λ _ (c : WorkCase), (Ok tt, if case_mandate_id c ==? Some mandate then set_mandate_id c None else c)) in
  Ret tt.

Definition revoke_mandate_op (e : PolicyEngine) (now : Instant) (r : RevokeMandateRequest)
    : prog (OpResult MandateView * PolicyEngine) :=
  match declared (rm_principal_kind r) (rm_principal_id r) with
  | Err error => Ret (Err error, e)
  | Ok revoker =>
      match required_text (rm_mandate_id r) "mandate_id" with
      | Err error => Ret (Err error, e)
      | Ok i =>
          let reason := default "revoked" (optional_text (Some (rm_reason r))) in
          let! (revoked, e') := PolicyEngine.revoke_mandate e i revoker reason now in
          match map_err policy_revoke_error revoked with
          | Err error => Ret (Err error, e')
          | Ok mandate =>
              let! _ := unlink_mandate (mandate_case_id mandate) (mandate_id mandate) in
              Ret (Ok (MandateView_from_mandate mandate), e')
          end
      end
  end.

Definition get_mandate_op (r : GetMandateRequest) : prog (OpResult (option MandateView)) :=
  match optional_text (gm_mandate_id r) with
  | Some i =>
      let! m := PolicyEngine.get_mandate i in
      Ret (map_ok (fmap MandateView_from_mandate) (map_err policy_store_error m))
  | None =>
      match optional_text (gm_case_id r) with
      | Some case =>
          let! m := latest_mandate_for_case case in
          Ret (map_ok (fmap MandateView_from_mandate) (map_err policy_store_error m))
      | None => Ret (Err (op_invalid "invalid_argument" "either mandate_id or case_id is required"))
      end
  end.

(** ** The authorization check *)

Definition mandate_request_of (r : AuthorizeRequest) (tool : option string) : OpResult MandateRequest :=
  let? action := match optional_text (az_action r) with
                 | Some token =>
                     match parse_action_class token with
                     | Some a => Ok (Some a)
                     | None => Err (op_invalid "unknown_action" ("unknown action class '" +:+ token +:+ "'"))
                     end
                 | None => Ok None
                 end in
  Ok (mkRequest (optional_text (az_repo r)) (optional_text (az_branch r)) (optional_text (az_path r)) tool
        action (az_tokens r) (az_cost_usd r) None None).

(** The dimension of the case's mandate, when a case is named. *)
Definition mandate_dimension (now : Instant) (r : AuthorizeRequest) (tool case : option string)
    : prog (OpResult (option PolicyDecision)) :=
  match case with
  | None => Ret (Ok None)
  | Some case_id =>
      let! latest := latest_mandate_for_case case_id in
      match latest with
      | Ok (Some mandate) =>
          try! request := mandate_request_of r tool in
          Ret (Ok (Some (authorize_mandate mandate request now)))
      | Ok None => Ret (Ok (Some (Deny MandateMissing)))
      | Err error => Ret (Err (policy_store_error error))
      end
  end.

Definition sandbox_dimension (r : AuthorizeRequest) : OpResult (option PolicyDecision) :=
  match optional_text (az_sandbox_profile_json r) with
  | Some raw =>
      match profile_from_str raw with
      | Ok profile => Ok (Some (validate_sandbox profile))
      | Err error =>
          Err (op_invalid "invalid_sandbox_profile" ("sandbox_profile_json must be a JSON object: " +:+ error))
      end
  | None => Ok None
  end.

(** A refusal of the permission or of the tool is named when nothing else was. *)
Definition name_denial (outcome : AuthorizeOutcome) (tool : option PolicyDecision)
    (permission : PolicyDecision) : AuthorizeOutcome :=
  if negb (ao_allowed outcome) && bool_decide (ao_deny_code outcome = None) then
    match or_else (denied_one tool) (denied_one (Some permission)) with
    | Some d =>
        mkAuthorizeOutcome (ao_allowed outcome) (Some (denial_code d)) (deny_reason_debug <$> deny_reason d)
          (ao_permission_allowed outcome) (ao_mandate_allowed outcome) (ao_sandbox_allowed outcome)
    | None => outcome
    end
  else outcome.

Definition authorize_op (e : PolicyEngine) (now : Instant) (r : AuthorizeRequest)
    : prog (OpResult AuthorizeOutcome) :=
  try! kind := required_text (az_principal_kind r) "principal_kind" in
  try! id := required_text (az_principal_id r) "principal_id" in
  try! principal := lift_status (resolve_principal kind id) in
  try! token := required_text (az_permission r) "permission" in
  match Permission_from_str_lossy token with
  | None => Ret (Err (op_invalid "unknown_permission" ("unknown permission '" +:+ token +:+ "'")))
  | Some permission =>
      let project := optional_text (az_project_id r) in
      let case_id := optional_text (az_case_id r) in
      match stale_version e (az_policy_version r) with
      | Some text => Ret (Ok (outcome_refused "stale_policy_version" text))
      | None =>
          let tool := optional_text (az_tool r) in
          let permission_decision := authorize e principal permission project now in
          let! tool_decision :=
            match tool with
            | Some t => let! d := authorize_tool e principal t project case_id now in Ret (Some d)
            | None => Ret None
            end in
          await! mandate_decision := mandate_dimension now r tool case_id in
          try! sandbox_decision := sandbox_dimension r in
          let permission_allowed := is_allowed permission_decision && decision_ok tool_decision in
          Ret (Ok (name_denial (from_dimensions permission_allowed mandate_decision sandbox_decision)
                     tool_decision permission_decision))
      end
  end.
End Service.
