(* ===== verification/AttentionService.v ===== *)
(** * The attention service

    [uc-grpc/src/governance/attention_service.rs]: the worklist, raising and resolving an
    item, and the capacity view, as programs over the record store.  The fresh id, the clock
    and the environment are arguments; the live registry is its totals
    ([WorkerRegistry.capacity_totals]) when one is attached. *)

From Stdlib Require Import String Ascii.
From stdpp Require Import strings pretty.
From S2P Require Import Prelude RustStr Tonic Policy Store Prog Concurrency Writes Mandate WorkCase CaseStore Approval PolicyEngine Trigger Attention GatewayEvents Proactive Edge CaseService.

(** ** Views *)

Record AttentionItemView : Type := mkItemView {
  iv_id : string;
  iv_case_id : string;
  iv_task_id : option string;
  iv_kind : string;
  iv_summary : string;
  iv_detail : option string;
  iv_since : Instant;
  iv_priority : Z;
  iv_human_action : option string;
  iv_resolved_at : option Instant;
  iv_resolution_summary : option string
}.

Definition AttentionItemView_from_item (x : AttentionItem) : AttentionItemView :=
  mkItemView (item_id x) (item_case_id x) (item_task_id x) (AttentionKind_as_str (item_kind x))
    (item_summary x) (item_detail x) (item_since x) (item_priority x) (item_human_action x)
    (item_resolved_at x) (AttentionResolution_summary <$> item_resolution x).
Definition AttentionItemView_to_proto (v : AttentionItemView) : AttentionItemView :=
  mkItemView (iv_id v) (iv_case_id v) (iv_task_id v) (iv_kind v) (iv_summary v) (iv_detail v)
    (encode_timestamp (iv_since v)) (iv_priority v) (iv_human_action v)
    (encode_optional_timestamp (iv_resolved_at v)) (iv_resolution_summary v).

(** The snapshot with its derived fields recomputed. *)
Record CapacityView : Type := mkCapacityView {
  cpv_snapshot : CapacitySnapshot;
  cpv_available : Z;
  cpv_saved : Z
}.
Definition CapacityView_from_snapshot (s : CapacitySnapshot) : CapacityView :=
  mkCapacityView s (worker_slots_available s) (slots_saved_by_quiet_waiting s).

Record ListAttentionOutcome : Type := mkListAttentionOutcome {
  lao_items : list AttentionItemView;
  lao_capacity : CapacityView
}.

(** ** Requests *)

Record ListAttentionRequest : Type := mkListAttention {
  lar_limit : Z;
  lar_kind : option string;
  lar_case_id : option string;
  lar_include_resolved : bool
}.
Record RaiseAttentionRequest : Type := mkRaiseAttention {
  rar_principal_kind : string;
  rar_principal_id : string;
  rar_case_id : string;
  rar_kind : string;
  rar_summary : string;
  rar_detail : option string;
  rar_human_action : option string;
  rar_task_id : option string;
  rar_priority : option Z
}.
Record ResolveAttentionRequest : Type := mkResolveAttention {
  rsr_principal_kind : string;
  rsr_principal_id : string;
  rsr_attention_id : string;
  rsr_resolution_kind : string;
  rsr_by : option string;
  rsr_detail : option string
}.

Definition attention_error (e : AttentionBoardError) : OpError :=
  match e with
  | AttentionNotFound i =>
      op_not_found "attention_not_found" ("attention item '" +:+ i +:+ "' does not exist")
  | AttentionContended =>
      op_conflict "attention_contended" "the attention board is contended; retry the operation"
  | AttentionStoreFailed _ => op_internal "attention_store_failed" (AttentionBoardError_display e)
  end.

(** [str::parse::<u32>] of a trimmed variable. *)
Definition env_u32 (env : string → option string) (key : string) : Z :=
  default 0 (v ← env key; n ← parse_u64 (trim v); if n <=? u32_max then Some n else None).
Definition capacity_config (env : string → option string) : Z * Z :=
  (env_u32 env "UC_WORKER_SLOTS_TOTAL", env_u32 env "UC_WORKER_SLOTS_BUSY").

Section Service.
Context {Value J : Type} {Sdc : Serde Value (WorkCase J)} {Sdi : Serde Value AttentionItem}.
Context `{DenyReasonDebug, CodeDisplay}.
Context (env : string → option string).
Notation prog := (prog Value).

(** ** Capacity *)

(** A registry that knows of no usable slot falls back to the configuration. *)
Definition slot_totals (registry : option (Z * Z)) : Z * Z :=
  match registry with
  | Some (total, busy) => if 0 <? total then (total, busy) else capacity_config env
  | None => capacity_config env
  end.

Definition capacity_snapshot (registry : option (Z * Z)) : prog (OpResult CapacityView) :=
  let '(total, busy) := slot_totals registry in
  let! counts := open_counts in
  try! counts := map_err attention_error counts in
  let needs_human := count_of counts NeedsHumanDecision in
  let reserve := Z.min needs_human total in
  let! snapshot := capacity total busy reserve in
  Ret (map_ok CapacityView_from_snapshot (map_err attention_error snapshot)).

Definition get_capacity_with (registry : option (Z * Z)) : prog (OpResult CapacityView) :=
  capacity_snapshot registry.

(** ** The worklist *)

Definition item_matches (case_id : option string) (kind : option AttentionKind) (x : AttentionItem) : bool :=
  match case_id with Some i => item_case_id x ==? i | None => true end &&
  match kind with Some k => item_kind x ==? k | None => true end.

Definition list_attention_with (registry : option (Z * Z)) (r : ListAttentionRequest)
    : prog (OpResult ListAttentionOutcome) :=
  let limit := clamp_limit (lar_limit r) in
  try! kind := match optional_text (lar_kind r) with
               | Some token =>
                   match AttentionKind_from_str_lossy token with
                   | Some k => Ok (Some k)
                   | None => Err (op_invalid "unknown_attention_kind" ("unknown attention kind '" +:+ token +:+ "'"))
                   end
               | None => Ok None
               end in
  let case_id := optional_text (lar_case_id r) in
  let! listed := worklist (lar_include_resolved r) limit in
  try! listed := map_err attention_error listed in
  let items := take limit (AttentionItemView_from_item <$> filterb (item_matches case_id kind) listed) in
  await! c := capacity_snapshot registry in
  Ret (Ok (mkListAttentionOutcome items c)).

(** ** Raising *)

Definition raised_item (fresh_id case_id : string) (kind : AttentionKind) (summary : string)
    (case_priority : Z) (r : RaiseAttentionRequest) (now : Instant) : AttentionItem :=
  mkItem fresh_id case_id (optional_text (rar_task_id r)) kind summary (optional_text (rar_detail r)) now
    (match rar_priority r with
     | Some p => Z.min (if p <=? u8_max then p else MAX_PRIORITY) MAX_PRIORITY
     | None => case_priority
     end)
    (optional_text (rar_human_action r)) None None 0.

Definition raise_attention (e : PolicyEngine) (fresh_id : string) (now : Instant)
    (r : RaiseAttentionRequest) : prog (OpResult AttentionItemView) :=
  try! principal := caller (rar_principal_kind r) (rar_principal_id r) in
  try! case_id := required_text (rar_case_id r) "case_id" in
  try! token := required_text (rar_kind r) "kind" in
  match AttentionKind_from_str_lossy token with
  | None =>
      Ret (Err (op_invalid "unknown_attention_kind" ("unknown attention kind '" +:+ token
             +:+ "' (expected waiting_event | needs_human | blocked | verifying)")))
  | Some kind =>
      try! summary := required_text (rar_summary r) "summary" in
      let! found := CaseStore_get (Json:=J) case_id in
      try! found := map_err case_store_error found in
      match found with
      | None => Ret (Err (op_not_found "case_not_found" ("case '" +:+ case_id +:+ "' does not exist")))
      | Some (case, _) =>
          try! _ := lift_status (require e principal CaseControl (Some (project_id case)) now) in
          let! raised := raise (raised_item fresh_id case_id kind summary (case_priority case) r now) now in
          Ret (map_ok (λ xs, AttentionItemView_from_item xs.1) (map_err attention_error raised))
      end
  end.

(** ** Resolving *)

Definition parse_resolution (token by_ detail : string) : OpResult AttentionResolution :=
  let t := to_ascii_lowercase token in
  if t ==? "human_decision" then Ok (HumanDecision by_ detail)
  else if t ==? "event_received" then Ok (EventReceived detail)
  else if t ==? "automatic" then Ok (Automatic detail)
  else if t ==? "case_closed" then Ok (CaseClosed detail)
  else Err (op_invalid "unknown_resolution_kind" ("unknown resolution_kind '" +:+ t
              +:+ "' (expected human_decision | event_received | automatic | case_closed)")).

Definition resolve_attention (e : PolicyEngine) (now : Instant) (r : ResolveAttentionRequest)
    : prog (OpResult AttentionItemView) :=
  try! principal := caller (rsr_principal_kind r) (rsr_principal_id r) in
  try! attention_id := required_text (rsr_attention_id r) "attention_id" in
  try! token := required_text (rsr_resolution_kind r) "resolution_kind" in
  let! item := AttentionBoard_get attention_id in
  try! item := map_err attention_error item in
  match item with
  | None =>
      Ret (Err (op_not_found "attention_not_found"
                  ("attention item '" +:+ attention_id +:+ "' does not exist")))
  | Some item =>
      let! found := CaseStore_get (Json:=J) (item_case_id item) in
      try! found := map_err case_store_error found in
      let project := (λ cv, project_id cv.1) <$> found in
      try! _ := lift_status (require e principal AttentionResolve project now) in
      let by_ := default (principal_id principal) (optional_text (rsr_by r)) in
      let detail := default "" (optional_text (rsr_detail r)) in
      try! resolution := parse_resolution token by_ detail in
      let! resolved := AttentionBoard_resolve attention_id resolution now in
      Ret (map_ok AttentionItemView_from_item (map_err attention_error resolved))
  end.
End Service.
