(* ===== verification/TriggerService.v ===== *)
(** * The trigger service and the resuming of cases

    [uc-grpc/src/governance/trigger_service.rs] and [resume_flow.rs]: ingesting an event,
    waking and resuming the cases it belongs to, opening a case for an event nobody waits
    for, and the subscriptions.

    - An operation is a program over the record store.  The gateway's task store is a value
      the resuming of cases reads and returns ([PendingTasks], [None] when the gateway has
      none); the events it broadcasts have no model.
    - Fresh ids are arguments: [fresh_run case version] is the id of a run of [case]. *)

From Stdlib Require Import String Ascii.
From stdpp Require Import strings pretty.
From S2P Require Import Prelude RustStr Tonic Policy Store Prog Concurrency Writes Mandate WorkCase Outbox Submission CaseStore Approval PolicyEngine Trigger Attention CaseFlow Proactive Edge CaseService.

(** ** The task store of the gateway *)

(** [get_task] and [submit_task_pending_with_id]. *)
Class PendingTasks (TS : Type) := {
  holds_task : string → TS → bool;
  submit_pending : Instant → string → string → string → TS → TS
}.
Class PendingTasksOk (TS : Type) `{PendingTasks TS} : Prop := {
  submit_pending_holds now i d p ts j :
    holds_task j (submit_pending now i d p ts) = (j ==? i) || holds_task j ts
}.

(** ** Views and requests *)

Record SubscriptionView : Type := mkSubscriptionView {
  sv_id : string;
  sv_case_id : string;
  sv_source : string;
  sv_repo : option string;
  sv_thread_key : option string;
  sv_kinds : list string;
  sv_labels : list string;
  sv_active : bool;
  sv_created_at : Instant;
  sv_event_count : Z;
  sv_last_event_at : option Instant;
  sv_auto_resume : bool
}.

Definition SubscriptionView_from_subscription (s : Subscription) : SubscriptionView :=
  let f := subscription_filter s in
  mkSubscriptionView (subscription_id s) (subscription_case_id s)
    (SourceKind_as_str (subscription_source s)) (filter_repo f) (filter_thread_key f)
    (sort_by String.leb (TriggerKind_as_str <$> filter_kinds f)) (sort_by String.leb (filter_labels f))
    (subscription_active s) (subscription_created_at s) (event_count s) (last_event_at s) (auto_resume s).
Definition SubscriptionView_to_proto (v : SubscriptionView) : SubscriptionView :=
  mkSubscriptionView (sv_id v) (sv_case_id v) (sv_source v) (sv_repo v) (sv_thread_key v) (sv_kinds v)
    (sv_labels v) (sv_active v) (encode_timestamp (sv_created_at v)) (sv_event_count v)
    (encode_optional_timestamp (sv_last_event_at v)) (sv_auto_resume v).

Record IngestView : Type := mkIngestView {
  igv_accepted : bool;
  igv_duplicate : bool;
  igv_event_id : string;
  igv_dedup_key : string;
  igv_matched_cases : list string;
  igv_unmatched_reason : option string;
  igv_opened_case_id : option string;
  igv_resumed_task_ids : list string
}.

Record IngestTriggerRequest : Type := mkIngestTrigger {
  it_principal_kind : string;
  it_principal_id : string;
  it_source : string;
  it_kind : string;
  it_external_id : string;
  it_delivery_id : option string;
  it_payload_json : string;
  it_thread_key : option string;
  it_repo : option string;
  it_actor : option string;
  it_open_case_if_unmatched : bool;
  it_open_case_project_id : option string
}.
Record ListSubscriptionsRequest : Type := mkListSubscriptions {
  lsr_limit : Z;
  lsr_source : option string;
  lsr_case_id : option string
}.
Record UpsertSubscriptionRequest : Type := mkUpsertSubscription {
  us_case_id : string;
  us_source : string;
  us_kinds : list string;
  us_repo : option string;
  us_thread_key : option string;
  us_labels : list string;
  us_subscription_id : option string;
  us_active : bool;
  us_auto_resume : bool
}.

(** ** Errors *)

Definition TriggerInboxError_display (e : TriggerInboxError) : string :=
  match e with
  | TriggerStoreFailed error => "trigger inbox: " +:+ RecordError_display error
  | SubscriptionNotFound i => "subscription " +:+ i +:+ " not found"
  | TriggerContended => "trigger inbox contention; retry the operation"
  end.
Definition trigger_error (e : TriggerInboxError) : OpError :=
  match e with
  | SubscriptionNotFound i =>
      op_not_found "subscription_not_found" ("subscription '" +:+ i +:+ "' does not exist")
  | TriggerContended =>
      op_conflict "trigger_inbox_contended" "the trigger inbox is contended; retry the operation"
  | TriggerStoreFailed _ => op_internal "trigger_inbox_failed" (TriggerInboxError_display e)
  end.

Definition SubmissionError_display (e : SubmissionError) : string :=
  match e with
  | SubmissionStoreFailed error => "submission store: " +:+ RecordError_display error
  | SubmissionOutbox detail => "submission outbox: " +:+ detail
  end.

Definition parse_source (token : string) : OpResult SourceKind :=
  match SourceKind_from_str_lossy token with
  | Some k => Ok k
  | None => Err (op_invalid "unknown_source" ("unknown trigger source '" +:+ token +:+ "'"))
  end.
Definition parse_trigger_kind (token : string) : OpResult TriggerKind :=
  match TriggerKind_from_str_lossy token with
  | Some k => Ok k
  | None => Err (op_invalid "unknown_kind" ("unknown trigger kind '" +:+ token +:+ "'"))
  end.
(** [collect::<OpResult<Vec<_>>>]: the first error wins. *)
Fixpoint parse_trigger_kinds (tokens : list string) : OpResult (list TriggerKind) :=
  match tokens with
  | [] => Ok []
  | t :: rest => let? k := parse_trigger_kind t in let? ks := parse_trigger_kinds rest in Ok (k :: ks)
  end.

Section Service.
Context {Value J : Type} {Sdc : Serde Value (WorkCase J)} {Sdm : Serde Value Mandate}
        {Sdi : Serde Value AttentionItem} {Sde : Serde Value (TriggerEvent J)}
        {Sds : Serde Value Subscription} {Sdr : Serde Value SubmissionRecord}
        {Sdo : Serde Value OutboxEntry}.
Context `{Json J, CaseText J, Sha256, DenyReasonDebug, CodeDisplay, F64Display, Payload}.
Context {TS : Type} `{PendingTasks TS}.
Notation prog := (prog Value).

(** ** Resuming (resume_flow.rs) *)

(** The plan and its submission; nothing when a gate or a conflict declines. *)
Definition resume_submit (has_store : bool) (case : string) (event : TriggerEvent J) (now : Instant)
    : prog (result (option (ResumePlan * SubmissionRecord)) string) :=
  let! planned := plan_resume (CJ:=J) case event true now in
  match planned with
  | Err _ => Ret (Ok None)
  | Ok plan =>
      if negb has_store then Ret (Ok None)
      else
        let! submitted := submit_once (plan_submission plan) now in
        Ret match submitted with
            | Err error => Err ("submit-once failed: " +:+ SubmissionError_display error)
            | Ok (SubmitConflict _ _ _) => Ok None
            | Ok (Created record) | Ok (Replayed record) => Ok (Some (plan, record))
            end
  end.

(** The logical task under its derived id. *)
Definition materialise (plan : ResumePlan) (record : SubmissionRecord) (now : Instant) (ts : TS) : TS :=
  if holds_task (record_task_id record) ts then ts
  else submit_pending now (record_task_id record) (submission_description (plan_submission plan))
         (submission_project_id (plan_submission plan)) ts.

Definition linked_already (task : string) (found : result (option (WorkCase J * Z)) CaseStoreError) : bool :=
  match found with
  | Ok (Some (case, _)) => existsb (λ run, run_task_id run ==? task) (runs case)
  | _ => false
  end.

(** The run of the case, then the end of the submission. *)
Definition resume_link (fresh_run : Z → string) (case : string) (plan : ResumePlan)
    (record : SubmissionRecord) (now : Instant) : prog (result (option string) string) :=
  let sid := submission_id (plan_submission plan) in
  let! found := CaseStore_get case in
  let! opened :=
    (if linked_already (record_task_id record) found then Ret (Ok tt)
     else let! r := CaseStore_open_run (Json:=J) fresh_run case (record_task_id record)
                      (Some (record_submission_id record)) now in Ret (map_ok (λ _, tt) r)) in
  match opened with
  | Err error =>
      let! _ := mark_failed sid (CaseStoreError_display error) now in
      Ret (Err ("case run could not be opened: " +:+ CaseStoreError_display error))
  | Ok _ =>
      let! _ := mark_applied sid now in
      Ret (Ok (Some (record_task_id record)))
  end.

Definition resume_one (fresh_run : Z → string) (ts : option TS) (case : string)
    (event : TriggerEvent J) (now : Instant) : prog (result (option string) string * option TS) :=
  let! submitted := resume_submit (bool_decide (is_Some ts)) case event now in
  match submitted with
  | Err detail => Ret (Err detail, ts)
  | Ok None => Ret (Ok None, ts)
  | Ok (Some (plan, record)) =>
      let ts' := materialise plan record now <$> ts in
      let! linked := resume_link fresh_run case plan record now in
      Ret (linked, ts')
  end.

Fixpoint execute_resumes (fresh_run : string → Z → string) (ts : option TS) (cases : list string)
    (event : TriggerEvent J) (now : Instant) : prog (list string * option TS) :=
  match cases with
  | [] => Ret ([], ts)
  | case :: rest =>
      let! (one, ts') := resume_one (fresh_run case) ts case event now in
      let! (resumed, ts'') := execute_resumes fresh_run ts' rest event now in
      Ret (match one with Ok (Some task) => task :: resumed | _ => resumed end, ts'')
  end.

(** ** Opening a case *)

Definition event_title (event : TriggerEvent J) : string :=
  match optional_text (v ← json_get (payload event) "title"; json_as_str v) with
  | Some title => title
  | None => TriggerKind_as_str (trigger_kind event) +:+ " on "
              +:+ default (external_id event) (trigger_thread_key event)
  end.

Definition event_case (fresh_id project : string) (event : TriggerEvent J) (now : Instant) : WorkCase J :=
  let source := SourceKind_as_str (trigger_source event) in
  WorkCase_with_id
    (WorkCase_new fresh_id (event_title event)
       ("Opened from a " +:+ source +:+ " " +:+ TriggerKind_as_str (trigger_kind event)
          +:+ " event (external id " +:+ external_id event +:+ ").")
       project (CaseOrigin_from_trigger source (trigger_thread_key event) (Some (trigger_id event))) now)
    (CaseId_from_parts source (default (external_id event) (trigger_thread_key event))).

(** The standing interest of a new case in its thread, on a best-effort basis. *)
Definition subscribe_thread (fresh_sub case : string) (event : TriggerEvent J) (now : Instant) : prog unit :=
  match trigger_thread_key event with
  | None => Ret tt
  | Some thread =>
      let! upserted := Trigger.upsert_subscription (Subscription_new fresh_sub case (trigger_source event)
                                                      (filter_thread thread) now) in
      match upserted with
      | Err _ => Ret tt
      | Ok s =>
          let! _ := CaseStore_update case
                      (λ _ (c : WorkCase J), (Ok tt, attach_subscription c (subscription_id s))) in
          Ret tt
      end
  end.

Definition open_case_for_event (e : PolicyEngine) (fresh_case fresh_sub : string) (principal : Principal)
    (event : TriggerEvent J) (requested_project : option string) (now : Instant) : prog (OpResult string) :=
  match or_else (optional_text requested_project) (trigger_repo event) with
  | None =>
      Ret (Err (op_invalid "invalid_open_case_project_id"
                  "open_case_project_id (or repo) is required to open a case for an unmatched event"))
  | Some project =>
      try! _ := lift_status (require e principal CaseCreate (Some project) now) in
      let! created := create_unique (event_case fresh_case project event now) in
      try! (case, replayed) := map_err case_store_error created in
      let! _ := (if replayed then Ret tt else subscribe_thread fresh_sub (case_id case) event now) in
      Ret (Ok (case_id case))
  end.

(** ** Ingesting *)

Definition requested_event (fresh_event : string) (r : IngestTriggerRequest) (now : Instant)
    : OpResult (TriggerEvent J) :=
  let? token := required_text (it_source r) "source" in
  let? source := parse_source token in
  let? token := required_text (it_kind r) "kind" in
  let? kind := parse_trigger_kind token in
  match optional_text (Some (it_external_id r)) with
  | None =>
      Err (op_invalid "invalid_external_id"
             "external_id is required: an event without a source identity cannot be deduplicated")
  | Some external =>
      match json_from_str (it_payload_json r) with
      | Err error => Err (op_invalid "invalid_payload_json" ("payload_json must be valid JSON: " +:+ error))
      | Ok pay =>
          let ev := TriggerEvent_new fresh_event source kind external pay now in
          Ok (mkTrigger (trigger_id ev) (trigger_source ev) (trigger_kind ev) (external_id ev)
                (optional_text (it_thread_key r)) (optional_text (it_repo r)) (optional_text (it_actor r))
                (payload_digest ev) (payload ev) (received_at ev))
      end
  end.

(** The event is durable from here on: what follows is done, or logged. *)
Definition ingest_event (e : PolicyEngine) (fresh_event : string) (now : Instant) (r : IngestTriggerRequest)
    : prog (OpResult (Principal * TriggerEvent J * IngestOutcome)) :=
  try! principal := caller (it_principal_kind r) (it_principal_id r) in
  try! _ := lift_status (require e principal TriggerIngest None now) in
  try! event := requested_event fresh_event r now in
  let! ingested := Trigger.ingest event now in
  Ret (map_ok (pair (principal, event)) (map_err trigger_error ingested)).

Definition open_if_unmatched (e : PolicyEngine) (fresh_case fresh_sub : string) (principal : Principal)
    (event : TriggerEvent J) (outcome : IngestOutcome) (r : IngestTriggerRequest) (now : Instant)
    : prog (OpResult (option string)) :=
  if negb (duplicate outcome) && bool_decide (matched_cases outcome = []) && it_open_case_if_unmatched r then
    let! opened := open_case_for_event e fresh_case fresh_sub principal event (it_open_case_project_id r) now in
    Ret (map_ok Some opened)
  else Ret (Ok None).

Definition ingest_with_dispatch (e : PolicyEngine) (fresh_event fresh_case fresh_sub : string)
    (fresh_run : string → Z → string) (ts : option TS) (now : Instant) (r : IngestTriggerRequest)
    : prog (OpResult IngestView * option TS) :=
  let! ingested := ingest_event e fresh_event now r in
  match ingested with
  | Err error => Ret (Err error, ts)
  | Ok (principal, event, outcome) =>
      let! _ := wake_matched_cases (CJ:=J) (matched_cases outcome) (outcome_event_id outcome) now in
      let! (resumed, ts') := execute_resumes fresh_run ts (auto_resume_cases outcome) event now in
      let! opened := open_if_unmatched e fresh_case fresh_sub principal event outcome r now in
      Ret (map_ok (λ opened,
             mkIngestView (accepted outcome) (duplicate outcome) (outcome_event_id outcome)
               (outcome_dedup_key outcome) (matched_cases outcome) (unmatched_reason outcome) opened resumed)
             opened, ts')
  end.

(** ** Subscriptions *)

Definition newest_subscription (a b : SubscriptionView) : bool := sv_created_at b <=? sv_created_at a.

Definition list_subscriptions_op (r : ListSubscriptionsRequest) : prog (OpResult (list SubscriptionView)) :=
  try! source := match optional_text (lsr_source r) with
                 | Some token => map_ok Some (parse_source token)
                 | None => Ok None
                 end in
  let! l := Trigger.list_subscriptions (optional_text (lsr_case_id r)) source (clamp_limit (lsr_limit r)) in
  Ret (map_ok (λ l, sort_by newest_subscription (SubscriptionView_from_subscription <$> l))
         (map_err trigger_error l)).

Definition upsert_subscription_op (fresh_sub : string) (now : Instant) (r : UpsertSubscriptionRequest)
    : prog (OpResult SubscriptionView) :=
  try! case := required_text (us_case_id r) "case_id" in
  try! token := required_text (us_source r) "source" in
  try! source := parse_source token in
  try! kinds := parse_trigger_kinds (us_kinds r) in
  let f := mkFilter (optional_text (us_repo r)) kinds (optional_text (us_thread_key r))
             (filterb (λ l, l !=? "") (trim <$> us_labels r)) in
  let id := default fresh_sub (optional_text (us_subscription_id r)) in
  let s := mkSubscription id case source f now (us_active r) None 0 (us_auto_resume r) in
  let! upserted := Trigger.upsert_subscription s in
  Ret (map_ok SubscriptionView_from_subscription (map_err trigger_error upserted)).

Definition delete_subscription_op (raw : string) : prog (OpResult bool) :=
  try! i := required_text raw "subscription_id" in
  let! deleted := Trigger.delete_subscription i in
  Ret (map_err trigger_error deleted).
End Service.

(** ** Resumed tasks *)

Section Resumed.
Context {S Value J : Type} {St : RecordStore S Value} {Sdc : Serde Value (WorkCase J)}
        {Sdm : Serde Value Mandate} {Sdr : Serde Value SubmissionRecord} {Sdo : Serde Value OutboxEntry}.
Context `{Json J, Sha256, F64Display, Payload}.
Context {TS : Type} `{PendingTasksOk TS}.
Implicit Types (ts : TS) (event : TriggerEvent J).

Lemma materialise_holds plan record now ts j :
  holds_task j (materialise plan record now ts) = (j ==? record_task_id record) || holds_task j ts.
Proof.
  unfold materialise. destruct (holds_task (record_task_id record) ts) eqn:E; [|apply submit_pending_holds].
  case_bool_decide; [subst|]; by rewrite ?E.
Qed.

Lemma run_resume_one t (s : S) fresh ts case event now r o' s' :
  run t (resume_one fresh (Some ts) case event now) s = ((r, o'), s') →
  ∃ ts1, o' = Some ts1 ∧ (∀ j, holds_task j ts = true → holds_task j ts1 = true) ∧
    ∀ task, r = Ok (Some task) → holds_task task ts1 = true.
Proof.
  unfold resume_one. rewrite run_bind. destruct (run t (resume_submit _ _ _ _) s) as [[[[plan record]|]|e] s1].
  - cbn [option_fmap option_map fmap]. rewrite run_bind. unfold resume_link. rewrite !run_bind.
    destruct (run t (CaseStore_get case) s1) as [found s2]. rewrite run_bind.
    destruct (run t _ s2) as [[u|e] s3]; rewrite !run_bind;
      (destruct (run t _ s3) as [? s4]); cbn [run]; intros [= <- <- <-]; eexists; split_and!; try done;
      try (intros j Hj; rewrite materialise_holds, Hj; apply orb_true_r).
    intros task [= <-]. rewrite materialise_holds. by rewrite bool_decide_eq_true_2.
  - intros [= <- <- <-]. exists ts. by split_and!.
  - intros [= <- <- <-]. exists ts. by split_and!.
Qed.

(** Every task id an ingest reports as resumed names a task of the gateway's store, and the
    tasks that were there stay. *)
Theorem resumed_tasks_are_held t (s : S) fresh ts cases event now ids o' s' :
  run t (execute_resumes fresh (Some ts) cases event now) s = ((ids, o'), s') →
  ∃ ts1, o' = Some ts1 ∧ (∀ j, holds_task j ts = true → holds_task j ts1 = true) ∧
    ∀ task, task ∈ ids → holds_task task ts1 = true.
Proof.
  revert s ts ids o' s'. induction cases as [|case cases IH]; intros s ts ids o' s'; cbn [execute_resumes].
  - intros [= <- <- <-]. exists ts. split_and!; [done..|]. by intros ? ?%elem_of_nil.
  - rewrite run_bind. destruct (run t (resume_one _ _ _ _ _) s) as [[r ts1] s1] eqn:E1.
    apply run_resume_one in E1 as (x & -> & Hk & Hr). rewrite run_bind.
    destruct (run t (execute_resumes _ _ _ _ _) s1) as [[ids1 ts2] s2] eqn:E2.
    apply IH in E2 as (y & -> & Hk' & Hi). cbn [run]. intros [= <- <- <-]. exists y.
    split_and!; [done|by eauto|]. intros task. destruct r as [[i|]|e]; [|apply Hi..].
    intros [->|Hin]%elem_of_cons; [by apply Hk', Hr|by apply Hi].
Qed.
End Resumed.
