(* ===== verification/ProactiveService.v ===== *)
(** * The proactive service

    [uc-grpc/src/governance/proactive_service.rs]: the autonomy ceiling, proposals and their
    decisions, the audit trail and stall reports, as programs over the record store.  The
    gate's in-memory state is an argument ([set_mode_op] also returns the one it leaves
    behind); the clock, fresh ids and the environment variable are arguments. *)

From Stdlib Require Import String Ascii SpecFloat.
From stdpp Require Import strings pretty.
From S2P Require Import Prelude RustStr Tonic Policy Store Prog Concurrency Writes Mandate CaseStore Approval PolicyEngine Proactive Attention Edge.

(** ** Views *)

Record ProactiveStateView : Type := mkStateView {
  psv_mode : string;
  psv_max_open_proposals : Z;
  psv_max_tokens_per_action : option Z;
  psv_always_require_approval : bool;
  psv_open_proposals : Z;
  psv_evaluated_count : Z;
  psv_approved_count : Z;
  psv_rejected_count : Z;
  psv_executed_count : Z
}.

Record ProposalView : Type := mkProposalView {
  pv_id : string;
  pv_case_id : option string;
  pv_kind : string;
  pv_title : string;
  pv_rationale : string;
  pv_confidence : spec_float;
  pv_evidence : list string;
  pv_proposed_request : option string;
  pv_project_id : option string;
  pv_estimated_tokens : option Z;
  pv_mode_at_creation : string;
  pv_status : string;
  pv_created_at : Instant;
  pv_decided_at : option Instant;
  pv_decided_by : option string;
  pv_executed_case_id : option string
}.
Definition ProposalView_from_proposal (p : ProactiveProposal) : ProposalView :=
  mkProposalView (proposal_id p) (proposal_case_id p) (ProposalKind_as_str (proposal_kind p))
    (proposal_title p) (rationale p) (confidence p) (evidence p) (proposed_request p)
    (proposal_project_id p) (estimated_tokens p) (ProactiveMode_as_str (mode_at_creation p))
    (ProposalStatus_as_str (proposal_status p)) (proposal_created_at p) (proposal_decided_at p)
    (proposal_decided_by p) (executed_case_id p).
Definition ProposalView_to_proto (v : ProposalView) : ProposalView :=
  mkProposalView (pv_id v) (pv_case_id v) (pv_kind v) (pv_title v) (pv_rationale v) (pv_confidence v)
    (pv_evidence v) (pv_proposed_request v) (pv_project_id v) (pv_estimated_tokens v)
    (pv_mode_at_creation v) (pv_status v) (encode_timestamp (pv_created_at v))
    (encode_optional_timestamp (pv_decided_at v)) (pv_decided_by v) (pv_executed_case_id v).

Record SubmitProposalOutcome : Type := mkSubmitProposalOutcome {
  spo_accepted : bool;
  spo_proposal : ProposalView;
  spo_deny_code : option string;
  spo_deny_detail : option string
}.

Record AuditEntryView : Type := mkAuditView {
  aev_at : Instant;
  aev_mode : string;
  aev_action : string;
  aev_proposal_id : option string;
  aev_case_id : option string;
  aev_allowed : bool;
  aev_reason : option string;
  aev_detail : option string
}.
Definition AuditEntryView_from_entry (a : ProactiveAuditEntry) : AuditEntryView :=
  mkAuditView (audit_at a) (ProactiveMode_as_str (audit_mode a)) (audit_action a) (audit_proposal_id a)
    (audit_case_id a) (audit_allowed a) (audit_reason a) (audit_detail a).
Definition AuditEntryView_to_proto (v : AuditEntryView) : AuditEntryView :=
  mkAuditView (encode_timestamp (aev_at v)) (aev_mode v) (aev_action v) (aev_proposal_id v)
    (aev_case_id v) (aev_allowed v) (aev_reason v) (aev_detail v).

Record StallVerdictView : Type := mkStallView {
  slv_verdict : string;
  slv_attempt : option Z;
  slv_delay_ms : option Z;
  slv_preserve_effects : list string;
  slv_reason : option string;
  slv_replans_remaining : Z;
  slv_attempts_remaining : Z
}.

(** ** Requests *)

Record SetProactiveModeRequest : Type := mkSetMode {
  sm_principal_kind : string;
  sm_principal_id : string;
  sm_mode : string;
  sm_max_open_proposals : option Z;
  sm_max_tokens_per_action : option Z;
  sm_always_require_approval : option bool
}.
Record SubmitProposalRequest : Type := mkSubmitProposal {
  sp_principal_kind : string;
  sp_principal_id : string;
  sp_kind : string;
  sp_title : string;
  sp_rationale : string;
  sp_case_id : option string;
  sp_confidence : spec_float;
  sp_evidence : list string;
  sp_proposed_request : option string;
  sp_project_id : option string;
  sp_estimated_tokens : option Z
}.
Record ListProposalsRequest : Type := mkListProposals {
  lpr_limit : Z;
  lpr_status : option string;
  lpr_case_id : option string
}.
Record DecideProposalRequest : Type := mkDecideProposal {
  dp_principal_kind : string;
  dp_principal_id : string;
  dp_proposal_id : string;
  dp_decision : string;
  dp_by : string;
  dp_reason : option string
}.
Record ListAuditRequest : Type := mkListAudit {
  lad_limit : Z;
  lad_proposal_id : option string;
  lad_case_id : option string
}.
Record ReportStallRequest : Type := mkReportStall {
  rs_task_id : string;
  rs_subtask_id : option string;
  rs_case_id : option string;
  rs_no_progress_count : Z;
  rs_evidence_signature : option string;
  rs_last_error : option string;
  rs_confirmed_effect_ids : list string;
  rs_attempts_used : Z;
  rs_replans_used : Z;
  rs_already_retried : bool
}.

(** ** Tokens and errors *)

Definition parse_proposal_kind (token : string) : option ProposalKind :=
  let t := to_ascii_lowercase (trim token) in
  if t ==? "discovered_followup" then Some DiscoveredFollowup
  else if t ==? "unblock_stalled" then Some UnblockStalled
  else if t ==? "fix_failing_ci" then Some FixFailingCi
  else if t ==? "maintenance_debt" then Some MaintenanceDebt
  else if t ==? "investigate_alert" then Some InvestigateAlert
  else if t ==? "replan" then Some ProposalReplan
  else None.

Definition parse_proposal_status (token : string) : option ProposalStatus :=
  let t := to_ascii_lowercase (trim token) in
  if t ==? "observed" then Some Observed
  else if t ==? "proposed" then Some Proposed
  else if t ==? "approved" then Some ProposalApproved
  else if t ==? "rejected" then Some ProposalRejected
  else if t ==? "executed" then Some Executed
  else if t ==? "expired" then Some ProposalExpired
  else if t ==? "failed" then Some ProposalFailed
  else None.

Definition watchdog_token (v : WatchdogVerdict) : string :=
  match v with
  | Continue => "continue"
  | RetrySameContract _ => "retry_same_contract"
  | Replan _ _ _ => "replan"
  | EscalateNeedsHuman _ => "escalate_needs_human"
  | Stop _ => "stop"
  end.

Definition ProactiveGateError_display (e : ProactiveGateError) : string :=
  match e with
  | GateStoreFailed error => "proactive gate: " +:+ RecordError_display error
  | ProposalNotFound i => "proposal " +:+ i +:+ " not found"
  | ProposalNotActionable i s => "proposal " +:+ i +:+ " is " +:+ s +:+ " and cannot be changed"
  | GateContended => "proactive gate contention"
  end.
Definition proactive_error (e : ProactiveGateError) : OpError :=
  match e with
  | ProposalNotFound i => op_not_found "proposal_not_found" ("proposal '" +:+ i +:+ "' does not exist")
  | ProposalNotActionable i s =>
      op_conflict "proposal_not_actionable" ("proposal '" +:+ i +:+ "' is " +:+ s +:+ " and cannot be changed")
  | GateContended => op_conflict "proactive_gate_contended" "the proactive gate is contended; retry the operation"
  | GateStoreFailed _ => op_internal "proactive_store_failed" (ProactiveGateError_display e)
  end.
Definition WatchdogError_display (e : WatchdogError) : string :=
  match e with WatchdogStoreFailed error => "watchdog ledger: " +:+ RecordError_display error end.

(** [1 | true | yes | on]. *)
Definition enforce_flag_enabled (raw : option string) : bool :=
  match to_ascii_lowercase ∘ trim <$> raw with
  | Some v => (v ==? "1") || (v ==? "true") || (v ==? "yes") || (v ==? "on")
  | None => false
  end.

(** [map(trim).filter(non-empty).collect()]. *)
Definition non_empty_texts (l : list string) : list string := filterb (λ x, x !=? "") (trim <$> l).

Definition is_nan (x : spec_float) : bool := match x with S754_nan => true | _ => false end.

(** ** The checklist of an approved replan *)

Definition lf : string := of_chars [ascii_of_N 10].

(** [find_map(strip_prefix)] over the evidence. *)
Fixpoint first_with_prefix (prefix : string) (l : list string) : option string :=
  match l with
  | [] => None
  | x :: rest => match strip_prefix x prefix with Some r => Some r | None => first_with_prefix prefix rest end
  end.

Definition checklist_detail (p : ProactiveProposal) : string :=
  let digest := default "(none in evidence)" (optional_text (first_with_prefix "digest:" (evidence p))) in
  let effects := non_empty_texts (omap (λ x, strip_prefix x "effect:") (evidence p)) in
  let effects_line := if effects ==? [] then "(none in evidence)" else join ", " effects in
  let proposed := default "(none)" (optional_text (proposed_request p)) in
  join lf
    ["replan_execute_checklist"; "proposal_id=" +:+ proposal_id p; "digest=" +:+ digest;
     "preserve_effects=" +:+ effects_line; "proposed_request=" +:+ proposed;
     "rationale=" +:+ trim (rationale p); "human_steps:";
     "1. Confirm contract_digest and preserve_effects above";
     "2. Craft a new plan outside the live DAG (do not bump digest here)";
     "3. Submit via normal task intake when ready";
     "4. Leave this proposal Approved — do not admit_execution from this checklist"].

Section Service.
Context {Value : Type} {Sdp : Serde Value ProactiveProposal} {Sda : Serde Value ProactiveAuditEntry}
        {Sdg : Serde Value ProactiveGateState} {Sdi : Serde Value AttentionItem}
        {Sdw : Serde Value WatchdogRecord}.
Context `{DenyReasonDebug, CodeDisplay}.
Notation prog := (prog Value).

(** ** The gate *)

Definition count_status (st : ProposalStatus) (l : list ProactiveProposal) : Z :=
  Z.of_nat (length (filterb (λ p, proposal_status p ==? st) l)).

Definition get_state_op (g : ProactiveGate) : prog (OpResult ProactiveStateView) :=
  let state := gate_state g in
  let! n := open_count in
  try! n := map_err proactive_error n in
  let! l := ProactiveGate_list None None (Z.to_nat MAX_LIST_LIMIT) in
  try! l := map_err proactive_error l in
  Ret (Ok (mkStateView (ProactiveMode_as_str (gate_mode state)) (max_open_proposals state)
             (max_tokens_per_action state) (always_require_approval state) n (Z.of_nat (length l))
             (count_status ProposalApproved l) (count_status ProposalRejected l) (count_status Executed l))).

Definition mode_permission (mode : ProactiveMode) : Permission :=
  if allows_execution mode then ProactiveExecute else ProactivePropose.

(** The checks of [set_mode]: the mode a caller may set. *)
Definition admitted_mode (e : PolicyEngine) (now : Instant) (r : SetProactiveModeRequest)
    : OpResult ProactiveMode :=
  let? principal := caller (sm_principal_kind r) (sm_principal_id r) in
  let? token := required_text (sm_mode r) "mode" in
  match ProactiveMode_from_str_lossy token with
  | None =>
      Err (op_invalid "invalid_mode" ("unknown proactive mode '" +:+ token
             +:+ "' (expected off | observe | propose | execute)"))
  | Some mode =>
      let? _ := lift_status (require e principal (mode_permission mode) None now) in Ok mode
  end.

Definition set_mode_op (e : PolicyEngine) (g : ProactiveGate) (now : Instant) (r : SetProactiveModeRequest)
    : prog (OpResult ProactiveStateView * ProactiveGate) :=
  match admitted_mode e now r with
  | Err error => Ret (Err error, g)
  | Ok mode =>
      let! (set, g') := set_mode g mode (sm_max_open_proposals r) (sm_max_tokens_per_action r)
                          (sm_always_require_approval r) in
      match map_err proactive_error set with
      | Err error => Ret (Err error, g')
      | Ok _ => let! view := get_state_op g' in Ret (view, g')
      end
  end.

(** ** Proposals *)

Definition requested_proposal (fresh_id : string) (kind : ProposalKind) (title why : string)
    (g : ProactiveGate) (project : option string) (r : SubmitProposalRequest) (now : Instant)
    : ProactiveProposal :=
  let p := ProactiveProposal_new fresh_id kind title why (gate_mode (gate_state g)) now in
  let c := if is_nan (sp_confidence r) then S754_zero false
           else float_clamp (sp_confidence r) (S754_zero false) f32_one in
  mkProposal (proposal_id p) (optional_text (sp_case_id r)) (proposal_kind p) (proposal_title p)
    (rationale p) c (non_empty_texts (sp_evidence r)) (optional_text (sp_proposed_request r)) project
    (sp_estimated_tokens r) (mode_at_creation p) (proposal_status p) (proposal_created_at p)
    (proposal_decided_at p) (proposal_decided_by p) (executed_case_id p) (proposal_version p).

Definition submit_proposal_op (e : PolicyEngine) (g : ProactiveGate) (fresh_id : string) (now : Instant)
    (r : SubmitProposalRequest) : prog (OpResult SubmitProposalOutcome) :=
  try! principal := caller (sp_principal_kind r) (sp_principal_id r) in
  let project := optional_text (sp_project_id r) in
  try! _ := lift_status (require e principal ProactivePropose project now) in
  try! token := required_text (sp_kind r) "kind" in
  match parse_proposal_kind token with
  | None => Ret (Err (op_invalid "invalid_kind" ("unknown proposal kind '" +:+ token +:+ "'")))
  | Some kind =>
      try! title := required_text (sp_title r) "title" in
      try! why := required_text (sp_rationale r) "rationale" in
      let! n := open_count in
      try! n := map_err proactive_error n in
      let! submitted := submit g (requested_proposal fresh_id kind title why g project r now) n now in
      Ret (map_ok (λ ap, mkSubmitProposalOutcome (admission_allowed ap.1) (ProposalView_from_proposal ap.2)
                           (admission_code ap.1) (admission_detail ap.1))
             (map_err proactive_error submitted))
  end.

Definition list_proposals_op (r : ListProposalsRequest) : prog (OpResult (list ProposalView)) :=
  try! status := match optional_text (lpr_status r) with
                 | Some token =>
                     match parse_proposal_status token with
                     | Some s => Ok (Some s)
                     | None => Err (op_invalid "invalid_status" ("unknown proposal status '" +:+ token +:+ "'"))
                     end
                 | None => Ok None
                 end in
  let! l := ProactiveGate_list status (optional_text (lpr_case_id r)) (clamp_limit (lpr_limit r)) in
  Ret (map_ok (fmap ProposalView_from_proposal) (map_err proactive_error l)).

(** ** Decisions *)

Definition parse_decision (token by_ reason : string) : OpResult ProposalDecision :=
  let t := to_ascii_lowercase token in
  if t ==? "approve" then Ok (DecisionApprove by_)
  else if t ==? "reject" then Ok (DecisionReject by_ reason)
  else Err (op_invalid "invalid_decision" ("unknown decision '" +:+ t +:+ "' (expected approve | reject)")).

Definition decision_permission (d : ProposalDecision) : Permission :=
  if is_approve d then ProactiveExecute else ProactivePropose.

(** Attention and audit of the checklist, on a best-effort basis. *)
Definition project_replan_execute_checklist (g : ProactiveGate) (fresh_item : string) (p : ProactiveProposal)
    (now : Instant) : prog unit :=
  match optional_text (proposal_case_id p) with
  | None => Ret tt
  | Some case =>
      let item :=
        item_with_human_action
          (item_with_detail
             (AttentionItem_new fresh_item case NeedsHumanDecision
                ("Approved replan proposal " +:+ proposal_id p +:+ " awaiting human execute checklist") now)
             (checklist_detail p))
          "Review the replan checklist, then manually execute a new plan outside this gate (no digest bump / no admit_execution from approval alone)" in
      let! _ := raise item now in
      let! _ := record_audit
                  (for_case (for_proposal (ProactiveAuditEntry_new now (gate_mode (gate_state g))
                     "replan_execute_checklist" true) (proposal_id p)) case) now in
      Ret tt
  end.

Definition decide_proposal_op (e : PolicyEngine) (g : ProactiveGate) (flag : option string)
    (fresh_item : string) (now : Instant) (r : DecideProposalRequest) : prog (OpResult ProposalView) :=
  try! principal := caller (dp_principal_kind r) (dp_principal_id r) in
  try! i := required_text (dp_proposal_id r) "proposal_id" in
  try! token := required_text (dp_decision r) "decision" in
  let by_ := default (principal_id principal) (optional_text (Some (dp_by r))) in
  let reason := default "" (optional_text (dp_reason r)) in
  try! d := parse_decision token by_ reason in
  try! _ := lift_status (require e principal (decision_permission d) None now) in
  let! decided := ProactiveGate_decide g i d now in
  try! p := map_err proactive_error decided in
  let! _ := (if is_approve d && match proposal_kind p with ProposalReplan => true | _ => false end && enforce_flag_enabled flag
             then project_replan_execute_checklist g fresh_item p now else Ret tt) in
  Ret (Ok (ProposalView_from_proposal p)).

Definition list_audit_op (r : ListAuditRequest) : prog (OpResult (list AuditEntryView)) :=
  let! l := audit (optional_text (lad_proposal_id r)) (optional_text (lad_case_id r)) (clamp_limit (lad_limit r)) in
  Ret (map_ok (fmap AuditEntryView_from_entry) (map_err proactive_error l)).

(** ** Stalls *)

Definition stall_signal (task : string) (r : ReportStallRequest) : WatchdogSignal :=
  mkSignal task (optional_text (rs_subtask_id r)) (rs_no_progress_count r)
    (optional_text (rs_evidence_signature r)) (optional_text (rs_last_error r))
    (non_empty_texts (rs_confirmed_effect_ids r)) (rs_attempts_used r) (rs_replans_used r).

Definition stall_view (d : WatchdogDecision) : StallVerdictView :=
  let view attempt delay preserve reason :=
    mkStallView (watchdog_token (verdict d)) attempt delay preserve reason (replans_remaining d)
      (attempts_remaining d) in
  match verdict d with
  | Continue => view None None [] None
  | RetrySameContract delay => view None (Some delay) [] None
  | Replan attempt delay preserve => view (Some attempt) (Some delay) preserve None
  | EscalateNeedsHuman reason => view None None [] (Some reason)
  | Stop reason => view None None [] (Some reason)
  end.

Definition escalate_to_attention (fresh_item : string) (case : option string) (s : WatchdogSignal)
    (reason : string) (now : Instant) : prog unit :=
  match optional_text case with
  | None => Ret tt
  | Some case =>
      let item :=
        item_with_human_action
          (item_with_detail
             (AttentionItem_new fresh_item case NeedsHumanDecision
                ("Task " +:+ signal_task_id s +:+ " is stalled: " +:+ reason) now)
             (default "no further detail from the progress detector" (last_error s)))
          "decide whether to replan, retry with a narrower contract, or stop" in
      let! _ := raise item now in Ret tt
  end.

Definition report_stall_op (c : WatchdogConfig) (fresh_item : string) (now : Instant)
    (r : ReportStallRequest) : prog (OpResult StallVerdictView) :=
  try! task := required_text (rs_task_id r) "task_id" in
  let s := stall_signal task r in
  let! decided := Watchdog_decide c s (rs_already_retried r) now in
  try! d := map_err (λ error, op_internal "watchdog_failed" (WatchdogError_display error)) decided in
  let! _ := match verdict d with
            | EscalateNeedsHuman reason => escalate_to_attention fresh_item (rs_case_id r) s reason now
            | _ => Ret tt
            end in
  Ret (Ok (stall_view d)).
End Service.
