(* ===== verification/Bridge.v ===== *)
(** * The governance plane behind its two transports

    [uc-engine/src/governance/mod.rs] and [uc-grpc/src/governance/bridge.rs]: the plane a
    gateway assembles, the submission operations, the outbox dispatcher, the table of the
    operations, and the answers of the two transports that share it, the gRPC adapters of
    the service modules and the NATS request/reply bridge.

    - An operation is a program over the record store.  What a plane keeps in memory (the
      policy engine, the gate, the task store, the registry's totals) is a record the
      operation is given and returns.
    - serde's decoding of a request and encoding of a reply are parameters ([Wire]).
    - The NATS client is its answer to a publish ([None] when the message is accepted); the
      programs that publish return the messages they handed over, in order. *)

From Stdlib Require Import String Ascii.
From stdpp Require Import strings pretty.
From S2P Require Import Prelude RustStr Tonic Policy Store Prog Concurrency Writes Mandate WorkCase Outbox Submission CaseStore Approval PolicyEngine Trigger Attention CaseFlow Proactive Edge.
From S2P Require Import ApprovalService CaseService AttentionService TriggerService ProactiveService.

(** ** The plane *)

Record Governance (TS : Type) : Type := mkGovernance {
  gov_policy : PolicyEngine;
  gov_proactive : ProactiveGate;
  gov_watchdog : WatchdogConfig;
  gov_tasks : option TS;
  gov_registry : option (Z * Z)
}.
Arguments mkGovernance {TS} _ _ _ _ _.
Arguments gov_policy {TS} _.
Arguments gov_proactive {TS} _.
Arguments gov_watchdog {TS} _.
Arguments gov_tasks {TS} _.
Arguments gov_registry {TS} _.

(** [Governance::new], before a gateway attaches its task store and registry. *)
Definition Governance_new {TS} : Governance TS :=
  mkGovernance (with_approvals PolicyEngine_new) ProactiveGate_new WatchdogConfig_default None None.

Definition set_policy {TS} (g : Governance TS) (e : PolicyEngine) : Governance TS :=
  mkGovernance e (gov_proactive g) (gov_watchdog g) (gov_tasks g) (gov_registry g).
Definition set_proactive {TS} (g : Governance TS) (p : ProactiveGate) : Governance TS :=
  mkGovernance (gov_policy g) p (gov_watchdog g) (gov_tasks g) (gov_registry g).
Definition set_gov_tasks {TS} (g : Governance TS) (ts : option TS) : Governance TS :=
  mkGovernance (gov_policy g) (gov_proactive g) (gov_watchdog g) ts (gov_registry g).

(** ** Submissions *)

Record SubmissionView : Type := mkSubmissionView {
  suv_submission_id : string;
  suv_task_id : string;
  suv_state : string;
  suv_principal_kind : string;
  suv_principal_id : string;
  suv_project_id : string;
  suv_request_digest : string;
  suv_case_id : option string;
  suv_outbox_key : option string;
  suv_publish_attempts : Z;
  suv_created_at : Instant;
  suv_updated_at : Instant;
  suv_published_at : option Instant;
  suv_applied_at : option Instant;
  suv_last_error : option string;
  suv_version : Z
}.
Definition SubmissionView_from_record (r : SubmissionRecord) : SubmissionView :=
  mkSubmissionView (record_submission_id r) (record_task_id r) (SubmissionState_as_str (record_state r))
    (PrincipalKind_as_str (principal_kind (record_principal r))) (principal_id (record_principal r))
    (record_project_id r) (record_request_digest r) (record_case_id r) (record_outbox_key r)
    (publish_attempts r) (record_created_at r) (record_changed_at r) (published_at r) (applied_at r)
    (record_last_error r) (record_cas_version r).

Record SubmissionSubmitInput : Type := mkSubmitInput {
  si_description : string;
  si_project_id : string;
  si_submission_id : option string;
  si_principal_kind : option string;
  si_principal_id : option string;
  si_case_id : option string
}.
Record SubmissionApplyInput : Type := mkApplyInput {
  sa_submission_id : string;
  sa_task_id : option string;
  sa_principal_kind : option string;
  sa_principal_id : option string
}.

(** ** Draining the outbox *)

Record OutboxDrain : Type := mkDrain { delivered : Z; retried : Z }.
Definition OUTBOX_DRAIN_LIMIT : nat := 64.

Section Submissions.
Context {Value J : Type} {Sdc : Serde Value (WorkCase J)} {Sdr : Serde Value SubmissionRecord}
        {Sdo : Serde Value OutboxEntry}.
Context `{Sha256, Payload, DenyReasonDebug, CodeDisplay}.
Notation prog := (prog Value).

Definition submission_failed (e : SubmissionError) : OpError :=
  op_internal "submission_store_failed" (SubmissionError_display e).

(** The request an input describes. *)
Definition requested_submission (input : SubmissionSubmitInput) : OpResult SubmissionRequest :=
  let? principal := lift_status (resolve_declared_principal (si_principal_kind input) (si_principal_id input)) in
  if trim (si_description input) ==? "" then
    Err (op_invalid "invalid_argument" "Task description cannot be empty")
  else if trim (si_project_id input) ==? "" then
    Err (op_invalid "invalid_argument" "project_id cannot be empty — every task must declare a project scope")
  else
    let id := match optional_text (si_submission_id input) with
              | Some key => SubmissionId_caller_supplied key
              | None => SubmissionId_derive principal (si_project_id input) (si_description input)
              end in
    Ok (SubmissionRequest_new principal (trim (si_project_id input)) (si_description input) (Some id)).

(** A named case must exist before anything is written. *)
Definition with_known_case (input : SubmissionSubmitInput) (r : SubmissionRequest)
    : prog (OpResult SubmissionRequest) :=
  match optional_text (si_case_id input) with
  | None => Ret (Ok r)
  | Some case =>
      let! found := CaseStore_get (Json:=J) case in
      try! found := map_err case_store_error found in
      Ret match found with
          | None => Err (op_invalid "unknown_case" ("unknown case_id '" +:+ case +:+ "'"))
          | Some _ => Ok (SubmissionRequest_with_case r case)
          end
  end.

Definition submit_submission (now : Instant) (input : SubmissionSubmitInput)
    : prog (OpResult (SubmissionView * bool)) :=
  try! r := requested_submission input in
  await! r := with_known_case input r in
  let! submitted := submit_once r now in
  Ret match map_err submission_failed submitted with
      | Err error => Err error
      | Ok (SubmitConflict conflicting _ _) =>
          Err (op_conflict "submission_conflict" ("submission_id '" +:+ conflicting
                 +:+ "' was already used for a different request; use a fresh idempotency key"))
      | Ok (Created record) => Ok (SubmissionView_from_record record, false)
      | Ok (Replayed record) => Ok (SubmissionView_from_record record, true)
      end.

Definition get_submission (raw : string) : prog (OpResult (option SubmissionView)) :=
  try! id := required_text raw "submission_id" in
  let! r := SubmissionStore_get (SubmissionId_caller_supplied id) in
  Ret (map_ok (fmap (λ rv, SubmissionView_from_record rv.1)) (map_err submission_failed r)).

(** The task a confirmation names is the task of the record. *)
Definition task_mismatch (record : SubmissionRecord) (task : option string) : option OpError :=
  task ← optional_text task;
  if record_task_id record !=? task then
    Some (op_invalid "task_id_mismatch" ("submission '" +:+ record_submission_id record +:+ "' derives task '"
            +:+ record_task_id record +:+ "', not '" +:+ task +:+ "'"))
  else None.

Definition apply_submission (e : PolicyEngine) (now : Instant) (input : SubmissionApplyInput)
    : prog (OpResult (option SubmissionView)) :=
  try! principal := lift_status (resolve_declared_principal (sa_principal_kind input) (sa_principal_id input)) in
  let decision := authorize e principal TaskSubmit None now in
  if is_denied decision then Ret (Err (op_denied decision))
  else
    try! raw := required_text (sa_submission_id input) "submission_id" in
    let id := SubmissionId_caller_supplied raw in
    let! found := SubmissionStore_get id in
    try! found := map_err submission_failed found in
    match found with
    | None => Ret (Ok None)
    | Some (record, _) =>
        match task_mismatch record (sa_task_id input) with
        | Some error => Ret (Err error)
        | None =>
            if record_state record ==? Applied then Ret (Ok (Some (SubmissionView_from_record record)))
            else
              let! updated := mark_applied id now in
              Ret (map_ok (fmap SubmissionView_from_record) (map_err submission_failed updated))
        end
    end.

(** ** The outbox dispatcher *)

Definition confirm_published_submission (key : string) (now : Instant) : prog unit :=
  match submission_id_from_outbox_key key with
  | None => Ret tt
  | Some id => let! _ := mark_published id now in Ret tt
  end.

(** One claimed entry: what it adds to the summary. *)
Definition drain_entry (publish : OutboxEntry → option string) (now : Instant) (entry : OutboxEntry)
    (summary : OutboxDrain) : prog OutboxDrain :=
  match publish entry with
  | None =>
      let! marked := OutboxQueue_mark_delivered (entry_key entry) now in
      match marked with
      | Err _ => Ret summary
      | Ok _ =>
          let! _ := confirm_published_submission (entry_key entry) now in
          Ret (mkDrain (delivered summary + 1) (retried summary))
      end
  | Some error =>
      let! _ := OutboxQueue_schedule_retry (entry_key entry) error now in
      Ret (mkDrain (delivered summary) (retried summary + 1))
  end.

Fixpoint drain_entries (publish : OutboxEntry → option string) (now : Instant) (l : list OutboxEntry)
    (summary : OutboxDrain) : prog OutboxDrain :=
  match l with
  | [] => Ret summary
  | entry :: rest =>
      let! summary := drain_entry publish now entry summary in
      drain_entries publish now rest summary
  end.

(** The summary and the entries handed to the transport. *)
Definition drain_outbox (publish : OutboxEntry → option string) (now : Instant) (limit : nat)
    : prog (OutboxDrain * list OutboxEntry) :=
  let! claimed := claim_due now limit in
  match claimed with
  | Err _ => Ret (mkDrain 0 0, [])
  | Ok l => let! summary := drain_entries publish now l (mkDrain 0 0) in Ret (summary, l)
  end.

Definition recover_outbox (now : Instant) : prog nat :=
  let! r := OutboxQueue_recover now in
  Ret match r with Ok n => n | Err _ => 0%nat end.
End Submissions.
