(* ===== verification/GovernanceApi.v ===== *)
(** * The operations of the governance plane and their two transports

    [dispatch_result] and the request handler of [uc-grpc/src/governance/bridge.rs], and the
    gRPC adapters of the service modules: one table of operations ([perform_op]), answered as a
    gRPC status or response ([grpc_call]) and as a bridge reply ([dispatch_op_with]).

    A request is the proto message of its RPC; a reply is the view the operation returns,
    before either transport encodes it. *)

From Stdlib Require Import String Ascii.
From stdpp Require Import strings pretty.
From S2P Require Import Prelude RustStr Tonic Policy Store Prog Concurrency Writes Mandate WorkCase Outbox Submission CaseStore Approval PolicyEngine Trigger Attention CaseFlow Proactive Edge.
From S2P Require Import ApprovalService CaseService AttentionService TriggerService ProactiveService Bridge.

(** ** Operations *)

Inductive GovernanceOp : Type :=
| OpSubmissionSubmit | OpSubmissionGet | OpSubmissionApply
| OpCaseCreate | OpCaseGet | OpCaseList | OpCaseTransition | OpCaseRunOpen | OpCaseRunFinish
| OpMandateIssue | OpMandateRevoke | OpMandateGet | OpAuthorize
| OpTriggerIngest | OpSubscriptionList | OpSubscriptionUpsert | OpSubscriptionDelete
| OpAttentionList | OpAttentionRaise | OpAttentionResolve
| OpApprovalRequest | OpApprovalList | OpApprovalDecide | OpCapacityGet
| OpProactiveStateGet | OpProactiveModeSet | OpProposalSubmit | OpProposalList | OpProposalDecide
| OpAuditList | OpStallReport.

Definition op_name (o : GovernanceOp) : string :=
  match o with
  | OpSubmissionSubmit => "submission.submit"
  | OpSubmissionGet => "submission.get"
  | OpSubmissionApply => "submission.apply"
  | OpCaseCreate => "case.create"
  | OpCaseGet => "case.get"
  | OpCaseList => "case.list"
  | OpCaseTransition => "case.transition"
  | OpCaseRunOpen => "case.run.open"
  | OpCaseRunFinish => "case.run.finish"
  | OpMandateIssue => "mandate.issue"
  | OpMandateRevoke => "mandate.revoke"
  | OpMandateGet => "mandate.get"
  | OpAuthorize => "authorize"
  | OpTriggerIngest => "trigger.ingest"
  | OpSubscriptionList => "trigger.subscription.list"
  | OpSubscriptionUpsert => "trigger.subscription.upsert"
  | OpSubscriptionDelete => "trigger.subscription.delete"
  | OpAttentionList => "attention.list"
  | OpAttentionRaise => "attention.raise"
  | OpAttentionResolve => "attention.resolve"
  | OpApprovalRequest => "approval.request"
  | OpApprovalList => "approval.list"
  | OpApprovalDecide => "approval.decide"
  | OpCapacityGet => "capacity.get"
  | OpProactiveStateGet => "proactive.state.get"
  | OpProactiveModeSet => "proactive.mode.set"
  | OpProposalSubmit => "proactive.proposal.submit"
  | OpProposalList => "proactive.proposal.list"
  | OpProposalDecide => "proactive.proposal.decide"
  | OpAuditList => "proactive.audit.list"
  | OpStallReport => "watchdog.stall.report"
  end.

Definition all_ops : list GovernanceOp :=
  [OpSubmissionSubmit; OpSubmissionGet; OpSubmissionApply; OpCaseCreate; OpCaseGet; OpCaseList;
   OpCaseTransition; OpCaseRunOpen; OpCaseRunFinish; OpMandateIssue; OpMandateRevoke; OpMandateGet;
   OpAuthorize; OpTriggerIngest; OpSubscriptionList; OpSubscriptionUpsert; OpSubscriptionDelete;
   OpAttentionList; OpAttentionRaise; OpAttentionResolve; OpApprovalRequest; OpApprovalList;
   OpApprovalDecide; OpCapacityGet; OpProactiveStateGet; OpProactiveModeSet; OpProposalSubmit;
   OpProposalList; OpProposalDecide; OpAuditList; OpStallReport].

(** The arm of [match op]. *)
Definition parse_op (op : string) : option GovernanceOp := find (λ o, op_name o ==? op) all_ops.

Inductive GovernanceRequest : Type :=
| SubmitSubmission (r : SubmissionSubmitInput)
| GetSubmission (submission_id : string)
| ApplySubmission (r : SubmissionApplyInput)
| CreateCase (r : CreateCaseRequest)
| GetCase (case_id : string)
| ListCases (r : ListCasesRequest)
| TransitionCase (r : TransitionCaseRequest)
| OpenCaseRun (r : OpenCaseRunRequest)
| FinishCaseRun (r : FinishCaseRunRequest)
| IssueMandate (r : IssueMandateRequest)
| RevokeMandate (r : RevokeMandateRequest)
| GetMandate (r : GetMandateRequest)
| Authorize (r : AuthorizeRequest)
| IngestTrigger (r : IngestTriggerRequest)
| ListSubscriptions (r : ListSubscriptionsRequest)
| UpsertSubscription (r : UpsertSubscriptionRequest)
| DeleteSubscription (subscription_id : string)
| ListAttention (r : ListAttentionRequest)
| RaiseAttention (r : RaiseAttentionRequest)
| ResolveAttention (r : ResolveAttentionRequest)
| RequestApproval (r : RequestApprovalRequest)
| ListApprovals (r : ListApprovalsRequest)
| DecideApproval (r : DecideApprovalRequest)
| GetCapacity
| GetProactiveState
| SetProactiveMode (r : SetProactiveModeRequest)
| SubmitProposal (r : SubmitProposalRequest)
| ListProposals (r : ListProposalsRequest)
| DecideProposal (r : DecideProposalRequest)
| ListAudit (r : ListAuditRequest)
| ReportStall (r : ReportStallRequest).

Definition request_op (r : GovernanceRequest) : GovernanceOp :=
  match r with
  | SubmitSubmission _ => OpSubmissionSubmit
  | GetSubmission _ => OpSubmissionGet
  | ApplySubmission _ => OpSubmissionApply
  | CreateCase _ => OpCaseCreate
  | GetCase _ => OpCaseGet
  | ListCases _ => OpCaseList
  | TransitionCase _ => OpCaseTransition
  | OpenCaseRun _ => OpCaseRunOpen
  | FinishCaseRun _ => OpCaseRunFinish
  | IssueMandate _ => OpMandateIssue
  | RevokeMandate _ => OpMandateRevoke
  | GetMandate _ => OpMandateGet
  | Authorize _ => OpAuthorize
  | IngestTrigger _ => OpTriggerIngest
  | ListSubscriptions _ => OpSubscriptionList
  | UpsertSubscription _ => OpSubscriptionUpsert
  | DeleteSubscription _ => OpSubscriptionDelete
  | ListAttention _ => OpAttentionList
  | RaiseAttention _ => OpAttentionRaise
  | ResolveAttention _ => OpAttentionResolve
  | RequestApproval _ => OpApprovalRequest
  | ListApprovals _ => OpApprovalList
  | DecideApproval _ => OpApprovalDecide
  | GetCapacity => OpCapacityGet
  | GetProactiveState => OpProactiveStateGet
  | SetProactiveMode _ => OpProactiveModeSet
  | SubmitProposal _ => OpProposalSubmit
  | ListProposals _ => OpProposalList
  | DecideProposal _ => OpProposalDecide
  | ListAudit _ => OpAuditList
  | ReportStall _ => OpStallReport
  end.

Inductive GovernanceReply : Type :=
| ReplySubmission (v : SubmissionView) (dedup_replayed : bool)
| ReplySubmissionOpt (v : option SubmissionView)
| ReplyCreated (v : CreateCaseOutcome)
| ReplyCaseOpt (v : option CaseView)
| ReplyCases (v : ListCasesOutcome)
| ReplyCase (v : CaseView)
| ReplyRun (v : CaseRunView)
| ReplyMandate (v : MandateView)
| ReplyMandateOpt (v : option MandateView)
| ReplyAuthorize (v : AuthorizeOutcome)
| ReplyIngest (v : IngestView)
| ReplySubscriptions (v : list SubscriptionView)
| ReplySubscription (v : SubscriptionView)
| ReplyDeleted (success : bool)
| ReplyAttention (v : ListAttentionOutcome)
| ReplyItem (v : AttentionItemView)
| ReplyApproval (v : ApprovalView)
| ReplyRequested (v : ApprovalView) (created : bool)
| ReplyApprovals (v : list ApprovalView)
| ReplyCapacity (v : CapacityView)
| ReplyState (v : ProactiveStateView)
| ReplySubmitted (v : SubmitProposalOutcome)
| ReplyProposals (v : list ProposalView)
| ReplyProposal (v : ProposalView)
| ReplyAudit (v : list AuditEntryView)
| ReplyStall (v : StallVerdictView).

(** The ids a call draws and the moment it runs at. *)
Record CallContext : Type := mkCallContext {
  call_now : Instant;
  fresh_id : string;
  fresh_second : string;
  fresh_third : string;
  fresh_runs : string → Z → string
}.

(** The environment variables and [Debug]/[Display] texts the operations read. *)
Class GovernanceEnv := {
  env_get : string → option string;
  show_instant : Instant → string;
  kind_debug_text : PrincipalKind → string
}.

Section Api.
Context {Value J : Type} {Sdc : Serde Value (WorkCase J)} {Sdm : Serde Value Mandate}
        {Sda : Serde Value ToolApproval} {Sdi : Serde Value AttentionItem}
        {Sde : Serde Value (TriggerEvent J)} {Sds : Serde Value Subscription}
        {Sdr : Serde Value SubmissionRecord} {Sdo : Serde Value OutboxEntry}
        {Sdp : Serde Value ProactiveProposal} {Sdu : Serde Value ProactiveAuditEntry}
        {Sdg : Serde Value ProactiveGateState} {Sdw : Serde Value WatchdogRecord}.
Context `{Json J, CaseText J, Sha256, DenyReasonDebug, CodeDisplay, UnixTime, F64Display, DenialDebug, Payload}.
Context `{GovernanceEnv} {TS : Type} `{PendingTasks TS}.
Notation prog := (prog Value).
Notation Plane := (Governance TS).

(** An operation that leaves the plane's memory as it is. *)
Definition kept_plane {A} (g : Plane) (f : A → GovernanceReply) (p : prog (OpResult A))
    : prog (OpResult GovernanceReply * Plane) :=
  let! r := p in Ret (map_ok f r, g).

Definition perform_op (g : Plane) (c : CallContext) (req : GovernanceRequest)
    : prog (OpResult GovernanceReply * Plane) :=
  let e := gov_policy g in
  let now := call_now c in
  match req with
  | SubmitSubmission r => kept_plane g (λ vb, ReplySubmission vb.1 vb.2) (submit_submission (J:=J) now r)
  | GetSubmission i => kept_plane g ReplySubmissionOpt (get_submission i)
  | ApplySubmission r => kept_plane g ReplySubmissionOpt (apply_submission e now r)
  | CreateCase r => kept_plane g ReplyCreated (create_case (J:=J) e (fresh_id c) (fresh_second c) now r)
  | GetCase i => kept_plane g ReplyCaseOpt (get_case (J:=J) i)
  | ListCases r => kept_plane g ReplyCases (list_cases (J:=J) r)
  | TransitionCase r => kept_plane g ReplyCase (transition_case (J:=J) e now r)
  | OpenCaseRun r => kept_plane g ReplyRun (open_case_run (J:=J) (fresh_runs c (or_case_id r)) now r)
  | FinishCaseRun r => kept_plane g ReplyCase (finish_case_run (J:=J) now r)
  | IssueMandate r => kept_plane g ReplyMandate (issue_mandate_op (J:=J) e (fresh_id c) now r)
  | RevokeMandate r =>
      let! (answer, e') := revoke_mandate_op (J:=J) e now r in
      Ret (map_ok ReplyMandate answer, set_policy g e')
  | GetMandate r => kept_plane g ReplyMandateOpt (get_mandate_op (J:=J) r)
  | Authorize r => kept_plane g ReplyAuthorize (authorize_op (J:=J) e now r)
  | IngestTrigger r =>
      let! (answer, ts) := ingest_with_dispatch (J:=J) e (fresh_id c) (fresh_second c) (fresh_third c)
                             (fresh_runs c) (gov_tasks g) now r in
      Ret (map_ok ReplyIngest answer, set_gov_tasks g ts)
  | ListSubscriptions r => kept_plane g ReplySubscriptions (list_subscriptions_op r)
  | UpsertSubscription r => kept_plane g ReplySubscription (upsert_subscription_op (fresh_id c) now r)
  | DeleteSubscription i => kept_plane g ReplyDeleted (delete_subscription_op i)
  | ListAttention r => kept_plane g ReplyAttention (list_attention_with env_get (gov_registry g) r)
  | RaiseAttention r => kept_plane g ReplyItem (raise_attention (J:=J) e (fresh_id c) now r)
  | ResolveAttention r => kept_plane g ReplyItem (resolve_attention (J:=J) e now r)
  | RequestApproval r =>
      kept_plane g (λ vb, ReplyRequested vb.1 vb.2) (request_approval show_instant kind_debug_text e now r)
  | ListApprovals r => kept_plane g ReplyApprovals (list_approvals show_instant kind_debug_text r)
  | DecideApproval r => kept_plane g ReplyApproval (decide_approval show_instant kind_debug_text e now r)
  | GetCapacity => kept_plane g ReplyCapacity (get_capacity_with env_get (gov_registry g))
  | GetProactiveState => kept_plane g ReplyState (get_state_op (gov_proactive g))
  | SetProactiveMode r =>
      let! (answer, p) := set_mode_op e (gov_proactive g) now r in
      Ret (map_ok ReplyState answer, set_proactive g p)
  | SubmitProposal r => kept_plane g ReplySubmitted (submit_proposal_op e (gov_proactive g) (fresh_id c) now r)
  | ListProposals r => kept_plane g ReplyProposals (list_proposals_op r)
  | DecideProposal r =>
      kept_plane g ReplyProposal
        (decide_proposal_op e (gov_proactive g) (env_get "UC_REPLAN_EXECUTE_CHECKLIST_ENFORCE")
           (fresh_id c) now r)
  | ListAudit r => kept_plane g ReplyAudit (list_audit_op r)
  | ReportStall r => kept_plane g ReplyStall (report_stall_op (gov_watchdog g) (fresh_id c) now r)
  end.

(** ** gRPC *)

(** [op(...).await?] in an adapter: [Status::from(OpError)]. *)
Definition grpc_call (g : Plane) (c : CallContext) (req : GovernanceRequest)
    : prog (result GovernanceReply Status * Plane) :=
  let! (answer, g') := perform_op g c req in Ret (map_err op_to_status answer, g').

(** ** The bridge *)

(** What serde makes of payloads and replies; [T] is the request type of the operation. *)
Class BridgeWire (W : Type) := {
  wire_is_null : W → bool;
  wire_object : W;
  wire_decode : GovernanceOp → W → result GovernanceRequest string;
  wire_encode : GovernanceReply → result W string
}.
(** A payload is decoded into the request type of its operation. *)
Class BridgeWireOk (W : Type) `{BridgeWire W} : Prop := {
  wire_decode_op o w r : wire_decode o w = Ok r → request_op r = o
}.

Record BridgeError : Type := mkBridgeError { be_code : string; be_message : string }.
Record BridgeReply (W : Type) : Type := mkBridgeReply {
  br_ok : bool;
  br_result : option W;
  br_error : option BridgeError
}.

Definition BridgeReply_ok {W} (w : W) : BridgeReply W := mkBridgeReply W true (Some w) None.
Definition BridgeReply_failed {W} (e : OpError) : BridgeReply W :=
  mkBridgeReply W false None (Some (mkBridgeError (op_code e) (op_message e))).

Context {W : Type} `{BridgeWire W}.

Definition decode_payload (op : string) (o : GovernanceOp) (payload : W) : OpResult GovernanceRequest :=
  let payload := if wire_is_null payload then wire_object else payload in
  map_err (λ error, op_invalid "invalid_request" ("payload for '" +:+ op +:+ "' is not valid: " +:+ error))
    (wire_decode o payload).

Definition encode_reply (r : GovernanceReply) : OpResult W :=
  map_err (op_internal "serialization_failed") (wire_encode r).

Definition dispatch_result (g : Plane) (c : CallContext) (op : string) (payload : W)
    : prog (OpResult W * Plane) :=
  match parse_op op with
  | None =>
      Ret (Err (op_invalid "unknown_op" ("unknown governance op '" +:+ op
             +:+ "'; see the governance_client op list for the supported set")), g)
  | Some o =>
      match decode_payload op o payload with
      | Err error => Ret (Err error, g)
      | Ok req =>
          let! (answer, g') := perform_op g c req in
          Ret (result_bind answer encode_reply, g')
      end
  end.

Definition dispatch_op_with (g : Plane) (c : CallContext) (op : string) (payload : W)
    : prog (BridgeReply W * Plane) :=
  let! (answer, g') := dispatch_result g c op payload in
  Ret (match answer with Ok w => BridgeReply_ok w | Err error => BridgeReply_failed error end, g').

(** [serde_json::from_slice::<BridgeRequest>] of the message. *)
Class Envelope := { envelope_decode : string → result (string * W) string }.
Context `{Envelope}.

(** The reply and the entries drained for it; a message without a reply subject is ignored. *)
Definition handle_request (publish : OutboxEntry → option string) (g : Plane) (c : CallContext)
    (reply_subject : option string) (message : string)
    : prog (option (BridgeReply W) * list OutboxEntry * Plane) :=
  match reply_subject with
  | None => Ret (None, [], g)
  | Some _ =>
      match envelope_decode message with
      | Err error =>
          Ret (Some (BridgeReply_failed (op_invalid "invalid_request"
                 ("request must be a JSON object with op and payload: " +:+ error))), [], g)
      | Ok (op, payload) =>
          let payload := if wire_is_null payload then wire_object else payload in
          let! (reply, g') := dispatch_op_with g c op payload in
          if (op ==? "submission.submit") && br_ok W reply then
            let! (_, drained) := drain_outbox publish (call_now c) OUTBOX_DRAIN_LIMIT in
            Ret (Some reply, drained, g')
          else Ret (Some reply, [], g')
      end
  end.

(** ** The two transports *)

(** A status says what the bridge's error says. *)
Definition same_refusal (st : Status) (reply : BridgeReply W) : Prop :=
  ∃ e, st = op_to_status e ∧ reply = BridgeReply_failed e.

Lemma parse_op_name o : parse_op (op_name o) = Some o.
Proof. by destruct o. Qed.

(** A request has one outcome whichever way it comes: the gRPC call and the bridge request
    that carries the same message leave the same documents and the same plane, the bridge
    replies with the encoding of the response the gRPC caller gets, and a refusal has the
    same code and message on both. *)
Theorem transports_agree {S} {St : RecordStore S Value} t (s : S) (g : Plane) c req payload :
  decode_payload (op_name (request_op req)) (request_op req) payload = Ok req →
  let '((grpc, g1), s1) := run t (grpc_call g c req) s in
  let '((reply, g2), s2) := run t (dispatch_op_with g c (op_name (request_op req)) payload) s in
  s1 = s2 ∧ g1 = g2 ∧
  match grpc with
  | Err st => same_refusal st reply
  | Ok r => match encode_reply r with
            | Ok w => reply = BridgeReply_ok w
            | Err error => reply = BridgeReply_failed error
            end
  end.
Proof.
  intros Hd. unfold dispatch_op_with, dispatch_result, grpc_call. rewrite parse_op_name, Hd, !run_bind.
  destruct (run t (perform_op g c req) s) as [[[r|e] g'] s'].
  - cbn. by destruct (encode_reply r).
  - cbn. split_and!; [done..|]. by exists e.
Qed.
End Api.
