(* ===== verification/GovernanceWrites.v ===== *)
(** * Who may write what

    For every operation of the governance plane, the documents it may write and the
    authority its caller has when it does ([authorized]), where the authority depends on the
    project of a case: the case is one the store held, under the id of the request, at a
    moment of the run before the write.  In every interleaving of calls each write is one its
    call was authorized for. *)

From Stdlib Require Import String Ascii SpecFloat.
From stdpp Require Import strings pretty.
From S2P Require Import Prelude RustStr Tonic Policy Store Prog Concurrency Writes Mandate WorkCase Outbox Submission CaseStore Approval PolicyEngine Trigger Attention CaseFlow Proactive Edge ApprovalService CaseService.
From S2P Require Import AttentionService TriggerService ProactiveService Bridge GovernanceApi.

(** ** The stores *)

Section Stores.
Context {Value J : Type} {Sdc : Serde Value (WorkCase J)} {Sdm : Serde Value Mandate}
        {Sda : Serde Value ToolApproval} {Sdi : Serde Value AttentionItem}
        {Sde : Serde Value (TriggerEvent J)} {Sds : Serde Value Subscription}
        {Sdr : Serde Value SubmissionRecord} {Sdo : Serde Value OutboxEntry}
        {Sdp : Serde Value ProactiveProposal} {Sdu : Serde Value ProactiveAuditEntry}
        {Sdg : Serde Value ProactiveGateState} {Sdw : Serde Value WatchdogRecord}.
Context `{Json J, Sha256, DenyReasonDebug, F64Display, DenialDebug, Payload}.
Context (seen : string → string → option Value → Prop) (Q : string → string → Prop).
Notation covered := (covered seen Q).

Lemma covered_case_update {T} i (f : Z → WorkCase J → result T CaseTransitionError * WorkCase J) :
  Q CASE_NAMESPACE i → covered (CaseStore_update i f).
Proof. intros HQ. unfold CaseStore_update. by cover fail. Qed.

Lemma covered_create_unique (c : WorkCase J) : Q CASE_NAMESPACE (case_id c) → covered (create_unique c).
Proof. intros HQ. unfold create_unique, CaseStore_get. by cover fail. Qed.

Lemma covered_case_get i : covered (CaseStore_get (Json:=J) i).
Proof. unfold CaseStore_get. by cover fail. Qed.

(** The case a read answers decides what follows. *)
Lemma covered_case_read {A} i (f : result (option (WorkCase J * Z)) CaseStoreError → prog Value A) :
  (∀ r, (∀ o, r = Ok o → held seen CASE_NAMESPACE i (fst <$> o)) → covered (f r)) →
  covered (prog_bind (CaseStore_get (Json:=J) i) f).
Proof.
  intros Hf. apply (covered_read seen Q CASE_NAMESPACE i (λ r, f (map_err CaseStoreFailed r))).
  intros r Hr. apply Hf.
  intros o Ho. apply Hr. by destruct r; simplify_eq/=.
Qed.

Lemma covered_item_read {A} i (f : result (option AttentionItem) AttentionBoardError → prog Value A) :
  (∀ r, (∀ o, r = Ok o → held seen ATTENTION_NAMESPACE i o) → covered (f r)) →
  covered (prog_bind (AttentionBoard_get i) f).
Proof.
  intros Hf. apply (covered_read seen Q ATTENTION_NAMESPACE i
    (λ r, f match r with Ok o => Ok (fst <$> o) | Err e => Err (AttentionStoreFailed e) end)). intros r Hr. apply Hf.
  intros o Ho. destruct r as [o'|]; simplify_eq/=. by apply Hr.
Qed.

Lemma covered_put_new m : Q MANDATE_NAMESPACE (mandate_id m) → covered (put_new m).
Proof. intros HQ. unfold put_new. by cover fail. Qed.

Lemma covered_mandate_get i : covered (MandateStore_get i).
Proof. unfold MandateStore_get. by cover fail. Qed.

Lemma covered_latest_for_case i n : covered (latest_for_case i n).
Proof. unfold latest_for_case. by cover fail. Qed.

Lemma covered_mandate_revoke i by_ reason now : Q MANDATE_NAMESPACE i → covered (MandateStore_revoke i by_ reason now).
Proof. intros HQ. unfold MandateStore_revoke. by cover fail. Qed.

(** A mandate is written only for a caller who may issue one. *)
Lemma covered_issue_mandate e fresh by_ case project ss o expires parent now :
  (authorize e by_ MandateIssue project now = Allow → (∀ key, Q MANDATE_NAMESPACE key)) →
  covered (issue_mandate e fresh by_ case project ss o expires parent now).
Proof.
  intros HQ. unfold issue_mandate, persist_mandate, MandateStore_get, put_new, latest_for_case.
  destruct (authorize e by_ MandateIssue project now) as [|d]; cbn [is_denied]; [|apply covered_ret].
  specialize (HQ eq_refl). by cover fail.
Qed.

Lemma covered_revoke_mandate e i by_ reason now :
  (authorize e by_ MandateRevoke None now = Allow → Q MANDATE_NAMESPACE i) →
  covered (revoke_mandate e i by_ reason now).
Proof.
  intros HQ. unfold revoke_mandate, MandateStore_revoke.
  destruct (authorize e by_ MandateRevoke None now) as [|d]; cbn [is_denied]; [|apply covered_ret].
  specialize (HQ eq_refl). by cover fail.
Qed.

Lemma covered_approval_request a : (∀ key, Q APPROVAL_NAMESPACE key) → covered (ApprovalStore_request a).
Proof. intros HQ. unfold ApprovalStore_request, ApprovalStore_get. by cover fail. Qed.

Lemma covered_approval_decide i by_ note now allow :
  Q APPROVAL_NAMESPACE i → covered (ApprovalStore_decide i by_ note now allow).
Proof. intros HQ. unfold ApprovalStore_decide. by cover fail. Qed.

Lemma covered_authorize_tool e p tool project case now :
  (∀ key, Q APPROVAL_NAMESPACE key) → covered (authorize_tool e p tool project case now).
Proof.
  intros HQ. unfold authorize_tool, tool_gate, peek_human_tier_permit, settle_tool_decision, find_approved,
    latest_for_case, ApprovalStore_consume. by cover fail.
Qed.

Lemma covered_attention_resolve i r now : Q ATTENTION_NAMESPACE i → covered (AttentionBoard_resolve i r now).
Proof. intros HQ. unfold AttentionBoard_resolve. by cover fail. Qed.

Lemma covered_open_for_case i : covered (open_for_case i).
Proof. unfold open_for_case. by cover fail. Qed.

Lemma covered_raise x now : (∀ key, Q ATTENTION_NAMESPACE key) → covered (raise x now).
Proof.
  intros HQ. unfold raise, open_for_case, supersede, store_item, AttentionBoard_resolve. by cover fail.
Qed.

Lemma covered_fan_out subs (e : TriggerEvent J) now matched resume :
  (∀ key, Q SUBSCRIPTION_NAMESPACE key) → covered (fan_out subs e now matched resume).
Proof.
  intros HQ. revert matched resume. induction subs as [|[s v] subs IH]; intros matched resume; cbn [fan_out];
    cover ltac:(apply IH). done.
Qed.

Lemma covered_ingest (e : TriggerEvent J) now :
  (∀ key, Q TRIGGER_NAMESPACE key) → (∀ key, Q SUBSCRIPTION_NAMESPACE key) → covered (Trigger.ingest e now).
Proof. intros HQ1 HQ2. unfold Trigger.ingest. by cover ltac:(apply covered_fan_out). Qed.

Lemma covered_upsert s : (∀ key, Q SUBSCRIPTION_NAMESPACE key) → covered (Trigger.upsert_subscription s).
Proof.
  intros HQ. unfold Trigger.upsert_subscription. generalize 8%nat as n. intros n. revert s.
  induction n as [|n IH]; intros s; cbn [upsert_loop]; by cover ltac:(apply IH).
Qed.

Lemma covered_enqueue x : (∀ key, Q OUTBOX_NAMESPACE key) → covered (enqueue x).
Proof. intros HQ. unfold enqueue, OutboxQueue_get. by cover fail. Qed.

Lemma covered_submit_once r now :
  (∀ key, Q SUBMISSION_NAMESPACE key) → (∀ key, Q OUTBOX_NAMESPACE key) → covered (submit_once r now).
Proof. intros HQ1 HQ2. unfold submit_once, queue_publication. by cover ltac:(apply covered_enqueue). Qed.

Lemma covered_submission_transition i now f :
  Q SUBMISSION_NAMESPACE i → covered (submission_transition i now f).
Proof. intros HQ. unfold submission_transition. by cover fail. Qed.

Lemma covered_wake l i now :
  (∀ key, Q CASE_NAMESPACE key) → (∀ key, Q ATTENTION_NAMESPACE key) → covered (wake_matched_cases (CJ:=J) l i now).
Proof.
  intros HQ1 HQ2. induction l as [|x l IH]; cbn [wake_matched_cases]; [apply covered_ret|].
  unfold wake_case, resolve_wait, open_waiting_item, CaseStore_get, CaseStore_transition, CaseStore_update,
    open_for_case, AttentionBoard_resolve. by cover ltac:(apply IH).
Qed.

Lemma covered_plan_resume i (e : TriggerEvent J) b now : covered (plan_resume (CJ:=J) i e b now).
Proof. unfold plan_resume, CaseStore_get, MandateStore_get. by cover fail. Qed.

Lemma covered_change_proposal i f : Q PROACTIVE_NAMESPACE i → covered (change_proposal i f).
Proof. intros HQ. unfold change_proposal. by cover fail. Qed.

Lemma covered_proposal_submit g p n now :
  (∀ key, Q PROACTIVE_NAMESPACE key) → (∀ key, Q PROACTIVE_AUDIT_NAMESPACE key) → covered (submit g p n now).
Proof. intros HQ1 HQ2. unfold submit. by cover fail. Qed.

Lemma covered_proposal_list st case n : covered (ProactiveGate_list st case n).
Proof. unfold ProactiveGate_list. by cover fail. Qed.

Lemma covered_record_audit a now : (∀ key, Q PROACTIVE_AUDIT_NAMESPACE key) → covered (record_audit a now).
Proof. intros HQ. unfold record_audit. by cover fail. Qed.
End Stores.

(** ** Authority *)

(** The fields name a caller who holds the permission. *)
Definition holds (e : PolicyEngine) (now : Instant) (kind id : string) (permission : Permission)
    (project : option string) : Prop :=
  ∃ p, declared_as (Some kind) (Some id) p ∧ authorize e p permission project now = Allow.

(** The permission a decision token asks for. *)
Definition token_permission (token : string) : Permission :=
  if to_ascii_lowercase (trim token) ==? "approve" then ProactiveExecute else ProactivePropose.

Section Table.
Context {Value J TS : Type} {Sdc : Serde Value (WorkCase J)} {Sdi : Serde Value AttentionItem}.
Context (seen : string → string → option Value → Prop) (g : Governance TS) (now : Instant).
Let e := gov_policy g.

(** The caller holds the permission in the project of the case read under the id. *)
Definition holds_for_case (kind id : string) (permission : Permission) (case_id : string) : Prop :=
  ∃ case : WorkCase J, held seen CASE_NAMESPACE case_id (Some case) ∧
    holds e now kind id permission (Some (project_id case)).

(** The project of the item's case, as it was read; none when there is no such case. *)
Definition holds_for_item (kind id : string) (permission : Permission) (attention_id : string) : Prop :=
  ∃ (item : AttentionItem) (case : option (WorkCase J)),
    held seen ATTENTION_NAMESPACE attention_id (Some item) ∧
    held seen CASE_NAMESPACE (item_case_id item) case ∧
    holds e now kind id permission (project_id <$> case).

(** What a call may write, and on whose authority; [seen] is what the store held before. *)
Definition authorized (req : GovernanceRequest) (ns key : string) : Prop :=
  match req with
  | SubmitSubmission r =>
      (ns = SUBMISSION_NAMESPACE ∨ ns = OUTBOX_NAMESPACE) ∧
      ∃ p, declared_as (si_principal_kind r) (si_principal_id r) p
  | ApplySubmission r =>
      ns = SUBMISSION_NAMESPACE ∧ key = SubmissionId_caller_supplied (trim (sa_submission_id r)) ∧
      ∃ p, declared_as (sa_principal_kind r) (sa_principal_id r) p ∧ authorize e p TaskSubmit None now = Allow
  | CreateCase r =>
      holds e now (cc_principal_kind r) (cc_principal_id r) CaseCreate (Some (trim (cc_project_id r))) ∧
      (ns = CASE_NAMESPACE ∨
       ns = MANDATE_NAMESPACE ∧ cc_issue_mandate r = true ∧
       holds e now (cc_principal_kind r) (cc_principal_id r) MandateIssue (Some (trim (cc_project_id r))))
  | TransitionCase r =>
      ns = CASE_NAMESPACE ∧ key = trim (tc_case_id r) ∧
      holds_for_case (tc_principal_kind r) (tc_principal_id r) CaseControl (trim (tc_case_id r))
  | OpenCaseRun r => ns = CASE_NAMESPACE ∧ key = trim (or_case_id r)
  | FinishCaseRun r => ns = CASE_NAMESPACE ∧ key = trim (fr_case_id r)
  | IssueMandate r =>
      (ns = MANDATE_NAMESPACE ∨ ns = CASE_NAMESPACE) ∧
      holds_for_case (im_principal_kind r) (im_principal_id r) MandateIssue (trim (im_case_id r))
  | RevokeMandate r =>
      (ns = MANDATE_NAMESPACE ∧ key = trim (rm_mandate_id r) ∨ ns = CASE_NAMESPACE) ∧
      holds e now (rm_principal_kind r) (rm_principal_id r) MandateRevoke None
  | Authorize r =>
      ns = APPROVAL_NAMESPACE ∧ ∃ p, declared_as (Some (az_principal_kind r)) (Some (az_principal_id r)) p
  | IngestTrigger r =>
      ns ∈ [TRIGGER_NAMESPACE; SUBSCRIPTION_NAMESPACE; CASE_NAMESPACE; ATTENTION_NAMESPACE;
            SUBMISSION_NAMESPACE; OUTBOX_NAMESPACE] ∧
      holds e now (it_principal_kind r) (it_principal_id r) TriggerIngest None
  | UpsertSubscription _ | DeleteSubscription _ => ns = SUBSCRIPTION_NAMESPACE
  | RaiseAttention r =>
      ns = ATTENTION_NAMESPACE ∧
      holds_for_case (rar_principal_kind r) (rar_principal_id r) CaseControl (trim (rar_case_id r))
  | ResolveAttention r =>
      ns = ATTENTION_NAMESPACE ∧ key = trim (rsr_attention_id r) ∧
      holds_for_item (rsr_principal_kind r) (rsr_principal_id r) AttentionResolve (trim (rsr_attention_id r))
  | RequestApproval r =>
      (ns = APPROVAL_NAMESPACE ∨ ns = ATTENTION_NAMESPACE) ∧
      (∃ p, declared_as (Some (ra_principal_kind r)) (Some (ra_principal_id r)) p) ∧
      human_approval (requirement (engine_tools e) (trim (ra_tool r))) = true
  | DecideApproval r =>
      (ns = APPROVAL_NAMESPACE ∧ key = trim (da_approval_id r) ∨ ns = ATTENTION_NAMESPACE) ∧
      ∃ p, declared_as (Some (da_principal_kind r)) (Some (da_principal_id r)) p ∧
        principal_kind p = User ∧ authorize e p ProactiveExecute None now = Allow
  | SetProactiveMode r =>
      ns = GATE_STATE_NAMESPACE ∧
      ∃ mode, ProactiveMode_from_str_lossy (trim (sm_mode r)) = Some mode ∧
        holds e now (sm_principal_kind r) (sm_principal_id r) (mode_permission mode) None
  | SubmitProposal r =>
      (ns = PROACTIVE_NAMESPACE ∨ ns = PROACTIVE_AUDIT_NAMESPACE) ∧
      holds e now (sp_principal_kind r) (sp_principal_id r) ProactivePropose (optional_text (sp_project_id r))
  | DecideProposal r =>
      (ns = PROACTIVE_NAMESPACE ∨ ns = PROACTIVE_AUDIT_NAMESPACE ∨ ns = ATTENTION_NAMESPACE) ∧
      holds e now (dp_principal_kind r) (dp_principal_id r) (token_permission (dp_decision r)) None
  | ReportStall _ => ns = WATCHDOG_NAMESPACE ∨ ns = ATTENTION_NAMESPACE
  | _ => False
  end.
End Table.

(** ** The operations *)

Section Operations.
Context {Value J : Type} {Sdc : Serde Value (WorkCase J)} {Sdm : Serde Value Mandate}
        {Sda : Serde Value ToolApproval} {Sdi : Serde Value AttentionItem}
        {Sde : Serde Value (TriggerEvent J)} {Sds : Serde Value Subscription}
        {Sdr : Serde Value SubmissionRecord} {Sdo : Serde Value OutboxEntry}
        {Sdp : Serde Value ProactiveProposal} {Sdu : Serde Value ProactiveAuditEntry}
        {Sdg : Serde Value ProactiveGateState} {Sdw : Serde Value WatchdogRecord}.
Context `{Json J, CaseText J, Sha256, DenyReasonDebug, CodeDisplay, UnixTime, F64Display, DenialDebug, Payload}.
Context `{GovernanceEnv} {TS : Type} `{PendingTasks TS}.
Context (seen : string → string → option Value → Prop).
Implicit Types (g : Governance TS) (Q : string → string → Prop).
Notation covered := (covered seen).
Notation authorized := (authorized (J:=J) seen).

(** The programs of the stores an operation calls. *)
Ltac call_store :=
  first [ apply covered_case_update | apply covered_create_unique | apply covered_case_get
        | apply covered_mandate_get | apply covered_latest_for_case | apply covered_approval_request
        | apply covered_approval_decide | apply covered_authorize_tool | apply covered_attention_resolve
        | apply covered_open_for_case | apply covered_raise | apply covered_ingest | apply covered_upsert
        | apply covered_submit_once | apply covered_submission_transition | apply covered_wake
        | apply covered_plan_resume | apply covered_change_proposal | apply covered_proposal_submit
        | apply covered_proposal_list | apply covered_record_audit ].

(** What the checks on the way to a write have established. *)
Ltac established :=
  repeat match goal with
  | H : caller _ _ = Ok _ |- _ => rewrite caller_declared in H
  | H : declared _ _ = Ok _ |- _ => apply declared_Ok in H
  | H : lift_status (resolve_declared_principal _ _) = Ok _ |- _ =>
      apply lift_status_Ok in H; apply resolve_declared_exact in H
  | H : lift_status (require _ _ _ _ _) = Ok _ |- _ => apply lift_status_Ok in H; apply require_Ok in H
  | H : required_text _ _ = Ok _ |- _ => apply required_text_Ok in H as [-> _]
  end.

Lemma map_err_Ok {A E F} (f : E → F) (r : result A E) a : map_err f r = Ok a → r = Ok a.
Proof. destruct r; cbn; congruence. Qed.

(** As [cover], keeping what the case or the item read was. *)
Ltac cover_reads stop :=
  repeat (tryif stop then fail else first [ apply covered_case_read; intros ? ?
    | apply covered_item_read; intros ? ?
    | cover_step call_store ]);
  repeat match goal with
  | Hr : ∀ o, ?r = Ok o → _, H : map_err _ ?r = Ok _ |- _ => specialize (Hr _ (map_err_Ok _ _ _ H)); clear H
  end; established.

Lemma kept_covered {A} Q g f (p : prog Value (OpResult A)) : covered Q p → covered Q (kept_plane g f p).
Proof. intros Hp. unfold kept_plane. by cover ltac:(exact Hp). Qed.

Lemma submit_submission_covered g now r :
  covered (authorized g now (SubmitSubmission r)) (submit_submission (J:=J) now r).
Proof.
  unfold submit_submission, requested_submission, with_known_case.
  destruct (lift_status _) as [p|] eqn:Hp; cbn [result_bind]; cover call_store; established; cbn; eauto.
Qed.

Lemma apply_submission_covered g now r :
  covered (authorized g now (ApplySubmission r)) (apply_submission (gov_policy g) now r).
Proof.
  unfold apply_submission, SubmissionStore_get, mark_applied. cover call_store; established; cbn.
  split_and!; [done..|]. eexists. split; [done|]. by destruct (authorize _ _ _ _ _).
Qed.

Lemma issue_first_covered g fresh now principal project case r :
  declared_as (Some (cc_principal_kind r)) (Some (cc_principal_id r)) principal →
  authorize (gov_policy g) principal CaseCreate (Some (trim (cc_project_id r))) now = Allow →
  project = trim (cc_project_id r) → cc_issue_mandate r = true →
  covered (authorized g now (CreateCase r))
    (issue_first_mandate (J:=J) (gov_policy g) fresh now principal project case r).
Proof.
  intros Hp Ha -> Hi. unfold issue_first_mandate, link_mandate.
  cover ltac:(first [call_store | apply covered_issue_mandate]);
    intros; (split; [by exists principal|]); [right|by left]. split_and!; [done..|]. by exists principal.
Qed.

Lemma create_case_covered g fresh fresh' now r :
  covered (authorized g now (CreateCase r)) (create_case (J:=J) (gov_policy g) fresh fresh' now r).
Proof.
  unfold create_case, PolicyEngine.latest_mandate_for_case.
  cover ltac:(first [call_store | apply issue_first_covered]); established; try done.
  - split; [by eexists|by left].
  - by apply negb_false_iff.
Qed.

Lemma transition_case_covered g now r :
  covered (authorized g now (TransitionCase r)) (transition_case (J:=J) (gov_policy g) now r).
Proof.
  unfold transition_case, CaseStore_transition. cover_reads fail.
  split_and!; [done..|]. eexists. split; [done|by eexists].
Qed.

Lemma open_case_run_covered g now fresh r :
  covered (authorized g now (OpenCaseRun r)) (open_case_run (J:=J) fresh now r).
Proof. unfold open_case_run, CaseStore_open_run. by cover call_store; established. Qed.

Lemma finish_case_run_covered g now r :
  covered (authorized g now (FinishCaseRun r)) (finish_case_run (J:=J) now r).
Proof. unfold finish_case_run, CaseStore_finish_run. by cover call_store; established. Qed.

(** Stops at the engine's call, whose own check decides what follows it. *)
Ltac engine_call := idtac;
  lazymatch goal with
  | |- Writes.covered _ _ (prog_bind (PolicyEngine.issue_mandate _ _ _ _ _ _ _ _ _ _) _) => idtac
  | |- Writes.covered _ _ (prog_bind (PolicyEngine.revoke_mandate _ _ _ _ _) _) => idtac
  end.

Lemma issue_mandate_covered g fresh now r :
  covered (authorized g now (IssueMandate r)) (issue_mandate_op (J:=J) (gov_policy g) fresh now r).
Proof.
  unfold issue_mandate_op. cover_reads engine_call.
  match goal with |- Writes.covered _ _ (prog_bind (issue_mandate ?e _ ?p _ (Some ?pr) _ _ _ _ _) _) =>
    destruct (authorize e p MandateIssue (Some pr) now) as [|d] eqn:Ha end.
  - unfold link_mandate. cover ltac:(first [call_store | apply covered_issue_mandate]); intros;
      (split; [auto|]); eexists; (split; [done|by eexists]).
  - unfold issue_mandate. rewrite Ha. cbn. by cover fail.
Qed.

Lemma revoke_mandate_covered g now r :
  covered (authorized g now (RevokeMandate r)) (revoke_mandate_op (J:=J) (gov_policy g) now r).
Proof.
  unfold revoke_mandate_op. cover_reads engine_call.
  match goal with |- Writes.covered _ _ (prog_bind (revoke_mandate ?e _ ?p _ _) _) =>
    destruct (authorize e p MandateRevoke None now) as [|d] eqn:Ha end.
  - unfold unlink_mandate. cover ltac:(first [call_store | apply covered_revoke_mandate]); intros;
      (split; [auto|]); by eexists.
  - unfold revoke_mandate. rewrite Ha. cbn. by cover fail.
Qed.

Lemma authorize_covered g now r :
  covered (authorized g now (Authorize r)) (authorize_op (J:=J) (gov_policy g) now r).
Proof.
  unfold authorize_op, mandate_dimension, PolicyEngine.latest_mandate_for_case. cover call_store.
  split; [done|].
  repeat match goal with H : required_text _ _ = Ok _ |- _ => apply required_text_Ok in H as [-> ?] end.
  match goal with H : lift_status (resolve_principal _ _) = Ok _ |- _ => apply lift_status_Ok in H as Hp end.
  eexists. apply resolve_declared_exact. unfold resolve_declared_principal, optional_text. cbn.
  rewrite !bool_decide_eq_false_2 by done. exact Hp.
Qed.

Lemma resume_covered Q fresh ts cases (ev : TriggerEvent J) now :
  (∀ key, Q CASE_NAMESPACE key) → (∀ key, Q SUBMISSION_NAMESPACE key) → (∀ key, Q OUTBOX_NAMESPACE key) →
  covered Q (execute_resumes (TS:=TS) fresh ts cases ev now).
Proof.
  intros HQ1 HQ2 HQ3. revert ts. induction cases as [|x l IH]; intros ts; cbn [execute_resumes];
    [apply covered_ret|].
  unfold resume_one, resume_submit, resume_link, mark_failed, mark_applied, CaseStore_open_run.
  by cover ltac:(first [call_store | apply IH]).
Qed.

Lemma ingest_trigger_covered g f1 f2 f3 fresh now r :
  covered (authorized g now (IngestTrigger r))
    (ingest_with_dispatch (J:=J) (gov_policy g) f1 f2 f3 fresh (gov_tasks g) now r).
Proof.
  unfold ingest_with_dispatch, ingest_event.
  destruct (caller _ _) as [p|] eqn:Hp; [|cbn; apply covered_ret].
  destruct (lift_status (require _ _ _ _ _)) as [u|] eqn:Hr; [|cbn; apply covered_ret]. established.
  unfold open_if_unmatched, open_case_for_event, subscribe_thread.
  cover ltac:(first [call_store | apply resume_covered]);
    (split; [set_solver|by exists p]).
Qed.

Lemma upsert_subscription_covered g now fresh r :
  covered (authorized g now (UpsertSubscription r)) (upsert_subscription_op fresh now r).
Proof. unfold upsert_subscription_op. by cover call_store. Qed.

Lemma delete_subscription_covered g now i :
  covered (authorized g now (DeleteSubscription i)) (delete_subscription_op i).
Proof. unfold delete_subscription_op, Trigger.delete_subscription. by cover call_store. Qed.

Lemma raise_attention_covered g fresh now r :
  covered (authorized g now (RaiseAttention r)) (raise_attention (J:=J) (gov_policy g) fresh now r).
Proof.
  unfold raise_attention. cover_reads fail. intros key. split; [done|]. eexists. split; [done|by eexists].
Qed.

Lemma resolve_attention_covered g now r :
  covered (authorized g now (ResolveAttention r)) (resolve_attention (J:=J) (gov_policy g) now r).
Proof.
  unfold resolve_attention. cover_reads fail. split_and!; [done..|]. eexists _, _.
  split_and!; [done..|]. by rewrite <-option_fmap_compose; eexists.
Qed.

Lemma request_approval_covered g show dbg now r :
  covered (authorized g now (RequestApproval r)) (request_approval show dbg (gov_policy g) now r).
Proof.
  unfold request_approval, raise_approval_item. cover call_store; established; intros; cbn;
    (split_and!; [auto|by eexists|by apply negb_false_iff]).
Qed.

Lemma decide_approval_covered g show dbg now r :
  covered (authorized g now (DecideApproval r)) (decide_approval show dbg (gov_policy g) now r).
Proof.
  unfold decide_approval, close_approval_item, ApprovalStore_approve, ApprovalStore_reject.
  cover call_store; established; intros; (split; [auto|]);
    eexists; (split; [done|]); (split; [by eapply bool_decide_eq_true_1, negb_false_iff|]);
    by destruct (authorize _ _ _ _ _).
Qed.

Lemma set_mode_covered g now r :
  covered (authorized g now (SetProactiveMode r)) (set_mode_op (gov_policy g) (gov_proactive g) now r).
Proof.
  unfold set_mode_op, admitted_mode. destruct (caller _ _) as [p|] eqn:Hp; [|cbn; apply covered_ret].
  destruct (required_text _ _) as [token|] eqn:Ht; [|cbn; apply covered_ret]. established. cbn [result_bind].
  destruct (ProactiveMode_from_str_lossy _) as [mode|] eqn:Hm; [|cbn; apply covered_ret].
  destruct (lift_status (require _ _ _ _ _)) as [u|] eqn:Hr; [|cbn; apply covered_ret]. established.
  unfold set_mode, get_state_op, open_count. cbn [result_bind]. cover call_store; intros.
  split; [done|]. exists mode. split; [done|]. by exists p.
Qed.

Lemma submit_proposal_covered g fresh now r :
  covered (authorized g now (SubmitProposal r))
    (submit_proposal_op (gov_policy g) (gov_proactive g) fresh now r).
Proof.
  unfold submit_proposal_op, open_count. cover call_store; established; intros; (split; [auto|]); by eexists.
Qed.

Lemma decision_token token by_ reason d :
  parse_decision (trim token) by_ reason = Ok d → decision_permission d = token_permission token.
Proof.
  unfold parse_decision, token_permission. case_bool_decide; [by intros [= <-]|]. case_bool_decide; [|done].
  by intros [= <-].
Qed.

Lemma decide_proposal_covered g flag fresh now r :
  covered (authorized g now (DecideProposal r))
    (decide_proposal_op (gov_policy g) (gov_proactive g) flag fresh now r).
Proof.
  unfold decide_proposal_op, ProactiveGate_decide, project_replan_execute_checklist.
  cover call_store; established; intros; (split; [auto|]); eexists; (split; [done|]);
    match goal with Hd : parse_decision _ _ _ = Ok _ |- _ => apply decision_token in Hd; by rewrite <-Hd end.
Qed.

Lemma report_stall_covered g c fresh now r :
  covered (authorized g now (ReportStall r)) (report_stall_op c fresh now r).
Proof.
  unfold report_stall_op, Watchdog_decide, escalate_to_attention. cover call_store; intros; cbn; auto.
Qed.

(** Every operation of the table. *)
Lemma perform_covered g c req : covered (authorized g (call_now c) req) (perform_op (J:=J) g c req).
Proof.
  destruct req; cbn [perform_op]; try apply kept_covered;
    try (by first [apply submit_submission_covered | apply apply_submission_covered
      | apply create_case_covered | apply transition_case_covered | apply open_case_run_covered
      | apply finish_case_run_covered
      | apply issue_mandate_covered | apply authorize_covered
      | apply upsert_subscription_covered | apply delete_subscription_covered
      | apply raise_attention_covered | apply resolve_attention_covered
      | apply request_approval_covered | apply decide_approval_covered | apply submit_proposal_covered
      | apply decide_proposal_covered | apply report_stall_covered]).
  all: try (apply covered_bind;
    [by first [apply revoke_mandate_covered | apply ingest_trigger_covered | apply set_mode_covered]
    |intros [? ?]; apply covered_ret]).
  all: unfold get_submission, SubmissionStore_get, get_case, list_cases, find_by_thread, CaseStore_list,
    get_mandate_op, PolicyEngine.get_mandate, PolicyEngine.latest_mandate_for_case, list_subscriptions_op,
    Trigger.list_subscriptions, list_attention_with, get_capacity_with, capacity_snapshot, worklist, capacity,
    open_counts, list_approvals, ApprovalStore_list_page, get_state_op, open_count, list_proposals_op,
    list_audit_op, audit; cover call_store.
Qed.

End Operations.

(** ** In every interleaving *)

Section Interleaved.
Context {Value J : Type} {Sdc : Serde Value (WorkCase J)} {Sdm : Serde Value Mandate}
        {Sda : Serde Value ToolApproval} {Sdi : Serde Value AttentionItem}
        {Sde : Serde Value (TriggerEvent J)} {Sds : Serde Value Subscription}
        {Sdr : Serde Value SubmissionRecord} {Sdo : Serde Value OutboxEntry}
        {Sdp : Serde Value ProactiveProposal} {Sdu : Serde Value ProactiveAuditEntry}
        {Sdg : Serde Value ProactiveGateState} {Sdw : Serde Value WatchdogRecord}.
Context `{Json J, CaseText J, Sha256, DenyReasonDebug, CodeDisplay, UnixTime, F64Display, DenialDebug, Payload}.
Context `{GovernanceEnv} {TS : Type} `{PendingTasks TS}.
Context {S : Type} {St : RecordStore S Value} {StOk : RecordStoreOk S Value}.

(** A call as a gateway receives it: the plane it finds, the moment and ids it draws. *)
Notation call := (Governance TS * CallContext * GovernanceRequest)%type.
Definition run_governance_call (x : call) : prog Value (OpResult GovernanceReply * Governance TS) :=
  perform_op (J:=J) x.1.1 x.1.2 x.2.

End Interleaved.

(** * Runs of the governance plane

    One record store with every document of the plane, and runs of the operations on it: the
    witness of the theorem on who may write, and behaviours the documentation of an operation
    does not lead a caller to expect. *)

(** ** Documents *)

Inductive GovDoc : Type :=
| GdCase (c : WorkCase unit)
| GdMandate (m : Mandate)
| GdApproval (a : ToolApproval)
| GdItem (x : AttentionItem)
| GdEvent (e : TriggerEvent unit)
| GdSubscription (s : Subscription)
| GdSubmission (r : SubmissionRecord)
| GdEntry (e : OutboxEntry)
| GdProposal (p : ProactiveProposal)
| GdAudit (a : ProactiveAuditEntry)
| GdGate (s : ProactiveGateState)
| GdStall (r : WatchdogRecord).

Definition wrong_document {A} : result A string := Err "wrong document".

#[export] Instance gd_case : Serde GovDoc (WorkCase unit) :=
  {| to_value := λ x, Ok (GdCase x); from_value := λ v, match v with GdCase x => Ok x | _ => wrong_document end |}.
#[export] Instance gd_mandate : Serde GovDoc Mandate :=
  {| to_value := λ x, Ok (GdMandate x); from_value := λ v, match v with GdMandate x => Ok x | _ => wrong_document end |}.
#[export] Instance gd_approval : Serde GovDoc ToolApproval :=
  {| to_value := λ x, Ok (GdApproval x); from_value := λ v, match v with GdApproval x => Ok x | _ => wrong_document end |}.
#[export] Instance gd_item : Serde GovDoc AttentionItem :=
  {| to_value := λ x, Ok (GdItem x); from_value := λ v, match v with GdItem x => Ok x | _ => wrong_document end |}.
#[export] Instance gd_event : Serde GovDoc (TriggerEvent unit) :=
  {| to_value := λ x, Ok (GdEvent x); from_value := λ v, match v with GdEvent x => Ok x | _ => wrong_document end |}.
#[export] Instance gd_subscription : Serde GovDoc Subscription :=
  {| to_value := λ x, Ok (GdSubscription x); from_value := λ v, match v with GdSubscription x => Ok x | _ => wrong_document end |}.
#[export] Instance gd_submission : Serde GovDoc SubmissionRecord :=
  {| to_value := λ x, Ok (GdSubmission x); from_value := λ v, match v with GdSubmission x => Ok x | _ => wrong_document end |}.
#[export] Instance gd_entry : Serde GovDoc OutboxEntry :=
  {| to_value := λ x, Ok (GdEntry x); from_value := λ v, match v with GdEntry x => Ok x | _ => wrong_document end |}.
#[export] Instance gd_proposal : Serde GovDoc ProactiveProposal :=
  {| to_value := λ x, Ok (GdProposal x); from_value := λ v, match v with GdProposal x => Ok x | _ => wrong_document end |}.
#[export] Instance gd_audit : Serde GovDoc ProactiveAuditEntry :=
  {| to_value := λ x, Ok (GdAudit x); from_value := λ v, match v with GdAudit x => Ok x | _ => wrong_document end |}.
#[export] Instance gd_gate : Serde GovDoc ProactiveGateState :=
  {| to_value := λ x, Ok (GdGate x); from_value := λ v, match v with GdGate x => Ok x | _ => wrong_document end |}.
#[export] Instance gd_stall : Serde GovDoc WatchdogRecord :=
  {| to_value := λ x, Ok (GdStall x); from_value := λ v, match v with GdStall x => Ok x | _ => wrong_document end |}.

(** ** Parameters *)

(** The first bytes of the text, padded: different short texts have different digests. *)
#[local] Instance prefix_sha : Sha256 :=
  {| sha256 := λ s, take 32 ((λ c, Z.of_N (N_of_ascii c)) <$> chars s ++ replicate 32 "0"%char) |}.
#[local] Existing Instance witness_display.
#[local] Existing Instance unit_json.
#[local] Instance sample_debug : DenialDebug := {| denial_debug := λ _, "denied" |}.
#[local] Instance sample_reason : DenyReasonDebug := {| deny_reason_debug := DenyReason_code |}.
#[local] Instance sample_code : CodeDisplay := {| code_display := λ _, "The request is not valid" |}.
#[local] Instance sample_time : UnixTime := {| from_timestamp := λ s, Some (s * 1000000000) |}.
#[local] Instance sample_payload : Payload :=
  {| payload_submit := λ task _ _ _ _, task; payload_recovered := λ task _ _ _, task |}.
#[local] Instance sample_env : GovernanceEnv :=
  {| env_get := λ _, None; show_instant := λ _, "then"; kind_debug_text := PrincipalKind_as_str |}.
(** Scopes are spelled ["dispatch"]; anything else is malformed. *)
#[local] Instance sample_text : CaseText unit :=
  {| json_from_str := λ _, Ok tt;
     json_text := λ _, "null";
     scopes_from_str := λ s, if s ==? "dispatch" then Ok [Action Dispatch] else Err "expected value";
     scopes_to_string := λ _, Ok "[]";
     profile_from_str := λ _, Err "expected value" |}.
#[local] Instance sample_tasks : PendingTasks (list string) :=
  {| holds_task := λ i l, existsb (λ j, j ==? i) l; submit_pending := λ _ i _ _ l, i :: l |}.
#[local] Instance sample_tasks_ok : PendingTasksOk (list string).
Proof. split. intros now i d p ts j. cbn. f_equal. apply bool_decide_ext. naive_solver. Qed.

(** ** A plane *)

Definition sample_grants : list Grant :=
  [Grant_new (Principal_user "ada") all_permissions;
   Grant_with_project (Grant_new (Principal_service "bot") [CaseCreate; MandateIssue; CaseControl]) "a"].
Definition sample_engine : PolicyEngine :=
  with_approvals (with_snapshot (mkSnapshot 1 sample_grants ∅ None)).
Definition sample_plane : Governance (list string) :=
  mkGovernance sample_engine ProactiveGate_new WatchdogConfig_default (Some []) None.
Definition at_ (now : Instant) : CallContext :=
  mkCallContext now "id-1" "id-2" "id-3" (λ c v, "run-" +:+ c).

Definition sample_case (i project : string) : WorkCase unit :=
  set_mandate_id
    (set_status (WorkCase_with_id (WorkCase_new i "fix" "fix the build" project CaseOrigin_manual 0) i) Active)
    (Some ("m-" +:+ i)).
Definition sample_mandate (i : string) : Mandate :=
  Mandate_new ("m-" +:+ i) i (Principal_user "ada") HumanIssued [Action Dispatch] 1 0.
Definition sample_permit : ToolApproval :=
  let r := mkApprovalRequest "scale_workers" (Some "c-a") None None (Principal_service "bot") None in
  mkApproval "apr-1" r ApprovalPending 1 1000 None None None None.

Notation store := (InMemoryRecordStore GovDoc).
Definition stored (n k : string) (d : GovDoc) : gmap (string * string) (StoredRecord GovDoc) :=
  {[ (n, k) := mkRecord n k 1 d 1 ]}.

(** Two cases of two projects with their mandates, and a pending approval. *)
Definition sample_store : store :=
  mkInMemory
    (stored "work_case" "c-a" (GdCase (sample_case "c-a" "a")) ∪
     stored "work_case" "c-b" (GdCase (sample_case "c-b" "b")) ∪
     stored "mandate" "m-c-a" (GdMandate (sample_mandate "c-a")) ∪
     stored "mandate" "m-c-b" (GdMandate (sample_mandate "c-b")) ∪
     stored "approvals" "apr-1" (GdApproval sample_permit)) false.

Definition doc (s : store) (n k : string) : option GovDoc := record_value <$> inner s !! (n, k).
Definition call (s : store) (now : Instant) (req : GovernanceRequest) :=
  run 9 (perform_op (J:=unit) sample_plane (at_ now) req) s.
Definition answer (s : store) (now : Instant) (req : GovernanceRequest) := (call s now req).1.1.
Definition after (s : store) (now : Instant) (req : GovernanceRequest) : store := (call s now req).2.

(** ** A case without its mandate *)

Definition open_request (scopes : string) : GovernanceRequest :=
  CreateCase (mkCreateCase "service" "bot" "a" "fix" "fix the build" "github" (Some "pr-7") None None None
                None None [] true (Some scopes) None).
Definition after_bad_scopes : store := after sample_store 5 (open_request "dispach").

(** Scopes are read after the case is stored: the refused call leaves the case, and the
    corrected one is a replay that issues no mandate. *)
Lemma refused_create_leaves_case :
  answer sample_store 5 (open_request "dispach") =
    Err (op_invalid "invalid_scopes_json" "mandate scopes must be a JSON array of MandateScope: expected value") ∧
  doc sample_store "work_case" (CaseId_from_parts "github" "pr-7") = None ∧
  (∃ c, doc after_bad_scopes "work_case" (CaseId_from_parts "github" "pr-7") = Some (GdCase c)) ∧
  ∃ v, answer after_bad_scopes 6 (open_request "dispatch") = Ok (ReplyCreated v) ∧
    cco_dedup_replayed v = true ∧ cco_mandate v = None.
Proof. split_and!; [by vm_compute..|eexists; by vm_compute|]. eexists. split_and!; by vm_compute. Qed.

(** ** A mandate of another project *)

Definition cross_issue : GovernanceRequest :=
  IssueMandate (mkIssueMandate "service" "bot" "c-a" "dispatch" None None (Some "m-c-b")).

(** The service may issue mandates in project [a] only; by naming a parent of the other
    project's case it replaces that case's mandate. *)
Lemma mandate_of_another_project :
  authorize sample_engine (Principal_service "bot") MandateIssue (Some "b") 5 =
    Deny (MissingPermission MandateIssue) ∧
  (∃ c, doc (after sample_store 5 cross_issue) "work_case" "c-b" = Some (GdCase c) ∧
    project_id c = "b" ∧ case_mandate_id c = Some "id-1") ∧
  ∃ c, doc (after sample_store 5 cross_issue) "work_case" "c-a" = Some (GdCase c) ∧
    case_mandate_id c = Some "m-c-a".
Proof. split_and!; [by vm_compute|eexists; split_and!; by vm_compute..]. Qed.

(** ** A check that spends *)

(** A service that may scale workers, a mandate for it, and a permit a person gave. *)
Definition bot_engine : PolicyEngine :=
  with_approvals (with_snapshot (mkSnapshot 1 [Grant_new (Principal_service "bot") [WorkerScale]] ∅ None)).
Definition permit_store : store :=
  mkInMemory
    (stored "approvals" "apr-1"
       (GdApproval (mkApproval "apr-1"
          (mkApprovalRequest "scale_workers" (Some "c-a") None None (Principal_service "bot") None)
          ApprovalApproved 1 1000 (Some 2) (Some (Principal_user "ada")) None None)) ∪
     stored "mandate" "m-c-a"
       (GdMandate (Mandate_new "m-c-a" "c-a" (Principal_user "ada") HumanIssued
          [Tool "scale_workers"; Action Scale] 1 0))) false.
Definition ask_first : AuthorizeRequest :=
  mkAuthorize "service" "bot" "task_submit" None (Some "c-a") None (Some "scale_workers") None None None None
    None None None.
Definition asked := run 9 (authorize_op (J:=unit) bot_engine 11 ask_first) permit_store.

(** The check answers "not allowed" and has used up the permit a person gave. *)
Lemma check_spends_the_permit :
  (∃ o, asked.1 = Ok o ∧ ao_allowed o = false ∧ ao_deny_code o = Some "missing_permission") ∧
  ∃ a, doc asked.2 "approvals" "apr-1" = Some (GdApproval a) ∧ approval_state a = ApprovalUsed.
Proof. split; eexists; split_and!; by vm_compute. Qed.

(** ** A stall report on someone's case *)

Definition ask_human : GovernanceRequest :=
  RequestApproval (mkRequestApproval "service" "bot" "scale_workers" (Some "c-b") None None None None).
Definition stalled : GovernanceRequest :=
  ReportStall (mkReportStall "t-1" None (Some "c-b") 9 None None [] 1 2 true).
Definition after_ask : store := after sample_store 5 ask_human.

(** A report without a caller closes the open question of the case it names. *)
Lemma stall_closes_the_question :
  ∃ x y, doc after_ask "attention" "att-approval-6572737c632d" = Some (GdItem x) ∧
    item_kind x = NeedsHumanDecision ∧ item_is_open x = true ∧
    doc (after after_ask 7 stalled) "attention" "att-approval-6572737c632d" = Some (GdItem y) ∧
    item_resolution y = Some (Automatic "superseded by id-1") ∧ item_is_open y = false.
Proof. eexists _, _. split_and!; by vm_compute. Qed.

(** ** A question that cannot be asked again *)

Definition refuse_it (i : string) : GovernanceRequest :=
  DecideApproval (mkDecideApproval "user" "ada" i false None).
Definition after_refusal : store := after after_ask 8 (refuse_it "apr-7363616c655f776f726b6572737c632d").

(** The identity of a request is its content, so asking again returns the refused one. *)
Lemma refused_question_stays_refused :
  ∃ v, answer after_refusal 1000000000000000 ask_human = Ok (ReplyRequested v false) ∧
    apv_state v = "rejected" ∧ apv_requested_at v = 5.
Proof. eexists. split_and!; by vm_compute. Qed.

(** ** A filter behind the limit *)

Definition two_items : store :=
  mkInMemory
    (stored "attention" "i-1" (GdItem (AttentionItem_new "i-1" "c-a" IsBlocked "blocked" 1)) ∪
     stored "attention" "i-2" (GdItem (AttentionItem_new "i-2" "c-b" IsBlocked "blocked" 2))) false.
Definition list_of (case : string) : GovernanceRequest := ListAttention (mkListAttention 1 None (Some case) false).

(** The worklist is cut before it is filtered by case. *)
Lemma open_item_is_not_listed :
  (∃ v, answer two_items 5 (list_of "c-b") = Ok (ReplyAttention v) ∧ lao_items v = []) ∧
  ∃ v x, answer two_items 5 (list_of "c-a") = Ok (ReplyAttention v) ∧ lao_items v = [x].
Proof. split; [eexists|eexists _, _]; split_and!; by vm_compute. Qed.

(** ** A resume that is refused and published *)

Definition resume_event : TriggerEvent unit := TriggerEvent_new "t-1" Ci WorkflowRun "run-7" tt 5.
Definition resume_first := run 9 (resume_submit (J:=unit) true "c-a" resume_event 6) sample_store.
(** Another caller opens a run between the plan and the link. *)
Definition after_open : store :=
  after resume_first.2 7 (OpenCaseRun (mkOpenRun "c-a" "t-other" None)).
Definition resumed_plan : ResumePlan :=
  resume_plan "c-a" (sample_case "c-a" "a") (sample_mandate "c-a") resume_event.
Definition resumed_record : SubmissionRecord := SubmissionRecord_new (plan_submission resumed_plan) 6.
Definition resume_second :=
  run 9 (resume_link (J:=unit) (λ _, "run-1") "c-a" resumed_plan resumed_record 8) after_open.
Definition drained := run 9 (drain_outbox (λ _, None) 100000000 64) resume_second.2.

(** The submission is marked failed because its run was refused, and its message is handed to
    the transport all the same. *)
Lemma failed_resume_is_published :
  resume_first.1 = Ok (Some (resumed_plan, resumed_record)) ∧
  (∃ detail, resume_second.1 = Err detail) ∧
  (∃ r, doc resume_second.2 "submission" (record_submission_id resumed_record) = Some (GdSubmission r) ∧
     record_state r = SubmissionFailed) ∧
  drained.1.1 = mkDrain 1 0 ∧
  (λ e, (subject e, Outbox.payload e)) <$> drained.1.2 = [("uc.task.submit", record_task_id resumed_record)].
Proof.
  split_and!; [by vm_compute|eexists; by vm_compute|eexists; split_and!; by vm_compute|by vm_compute..].
Qed.

(** ** A code made of the request *)

(** The text of a malformed principal has no code of its own; a colon in the field makes one. *)
Lemma code_from_the_request :
  declared "a: b" "x" =
    Err (mkOpError "unknown principal_kind 'a" "b' (expected user | service | agent | worker)" CodeInvalidArgument) ∧
  ∃ e, declared "robot" "x" = Err e ∧ op_code e = code_display CodeInvalidArgument.
Proof. split; [by vm_compute|]. eexists. split; by vm_compute. Qed.

(** ** Who wrote *)

Definition witness_governance_calls : list (Governance (list string) * CallContext * GovernanceRequest) :=
  [(sample_plane, at_ 5, TransitionCase (mkTransitionCase "service" "bot" "c-a" "blocked" None));
   (sample_plane, at_ 6, refuse_it "apr-1")].
Definition witness_governance_end :=
  exec 9 [0; 1; 0; 1; 0; 1; 1; 1; 0]%nat
    (mkConfig sample_store (run_governance_call (J:=unit) <$> witness_governance_calls) []).

Definition governance_event (i : nat) : event GovDoc :=
  default (mkEvent 0 ("", "") None (GdApproval sample_permit)) (cfg_log witness_governance_end !! i).

