(* ===== verification/Intake.v ===== *)
(** * Taking in tasks

    [submit_task], [get_task], [list_tasks], [create_checkpoint] and [recover_task] of
    [crates/uc-grpc/src/server.rs].

    - [submit_task] is a program over the record store.  It locks the gateway's task store
      once, between recording the submission and linking it to its case: the store it
      finds then is an argument, the store it leaves a part of its answer, with the events
      it broadcasts.
    - The publication of the outbox goes to the NATS client when the gateway has one
      ([publish], as in Bridge.v). *)

From Stdlib Require Import String Ascii SpecFloat.
From stdpp Require Import gmap strings pretty.
From S2P Require Import Prelude RustStr Tonic Policy Store Prog Concurrency Protocol Writes Mandate WorkCase Outbox Submission CaseStore Approval PolicyEngine Trigger Attention CaseFlow Proactive Edge ApprovalService.
From S2P Require Import CaseService AttentionService TriggerService ProactiveService Bridge GovernanceApi GovernanceWrites Task Events Checkpoint TaskBackend GatewayStore GatewayStoreProps GatewayEvents GatewayRpc TaskWire.

Record SubmitTaskRequest : Type := mkSubmitTask {
  str_description : string;
  str_project_id : string;
  str_submission_id : option string;
  str_principal_kind : option string;
  str_principal_id : option string;
  str_case_id : option string
}.

(** ** submit_task *)

Definition refused_task (error : string) (sid : option string) : SubmitTaskResponse :=
  mkSubmitResponse false "" "" 0 [] (Some error) false sid.

(** The guards on the text of the request. *)
Definition intake_guard (r : SubmitTaskRequest) : option SubmitTaskResponse :=
  if str_description r ==? "" then Some (refused_task "Task description cannot be empty" None)
  else if trim (str_project_id r) ==? "" then
    Some (refused_task "project_id cannot be empty — every task must declare a project scope (D8 #645)" None)
  else None.

Section Intake.
Context {Value J : Type} {Sdc : Serde Value (WorkCase J)} {Sdr : Serde Value SubmissionRecord}
        {Sdo : Serde Value OutboxEntry}.
Context `{Json J, F64Display, Sha256, Payload, ResultJson}.
Context {S B : Type} `{EventStore S} `{TaskStoreBackend B}.
Notation prog := (prog Value).

Definition intake_submission (r : SubmitTaskRequest) : result SubmissionRequest Status :=
  let? principal := resolve_declared_principal (str_principal_kind r) (str_principal_id r) in
  let id := match trim <$> str_submission_id r with
            | Some key => if key !=? "" then SubmissionId_caller_supplied key
                          else SubmissionId_derive principal (str_project_id r) (str_description r)
            | None => SubmissionId_derive principal (str_project_id r) (str_description r)
            end in
  Ok (SubmissionRequest_new principal (str_project_id r) (str_description r) (Some id)).

Definition intake_case (r : SubmitTaskRequest) : option string := optional_text (str_case_id r).

(** The submission with its case, which must be known before anything is written. *)
Definition intake_with_case (q : SubmissionRequest) (case : option string)
    : prog (result (SubmitTaskResponse + SubmissionRequest) Status) :=
  match case with
  | None => Ret (Ok (inr q))
  | Some c =>
      let! found := CaseStore_get (Json:=J) c in
      Ret match found with
          | Err error => Err (CodeInternal, "case store failed: " +:+ CaseStoreError_display error)
          | Ok None => Ok (inl (refused_task ("unknown case_id '" +:+ c +:+ "'") (Some (submission_id q))))
          | Ok (Some _) => Ok (inr (SubmissionRequest_with_case q c))
          end
  end.

(** The record of the submission, and whether it was there before. *)
Definition intake_record (q : SubmissionRequest) (now : Instant)
    : prog (result (SubmitTaskResponse + SubmissionRecord * bool) Status) :=
  let! submitted := submit_once q now in
  Ret match submitted with
      | Err error => Err (CodeInternal, "submission store failed: " +:+ SubmissionError_display error)
      | Ok (SubmitConflict conflicting _ _) =>
          Ok (inl (refused_task ("submission_id '" +:+ conflicting
                +:+ "' was already used for a different request; use a fresh idempotency key")
                (Some (submission_id q))))
      | Ok (Created record) => Ok (inr (record, false))
      | Ok (Replayed record) => Ok (inr (record, true))
      end.

(** Under the lock: the task of the record, made if it is not there. *)
Definition intake_task (at_ : Instant) (q : SubmissionRequest) (record : SubmissionRecord) (ts : TaskStore S B)
    : Task * list AgentEventType * TaskStore S B :=
  match get_task (record_task_id record) ts with
  | Some existing => (existing, [], ts)
  | None =>
      let '(task, ts') := submit_task_pending_with_id at_ (record_task_id record) (submission_description q)
                            (submission_project_id q) ts in
      (task, [AgentEvent.TaskCreated (record_task_id record) (submission_description q)], ts')
  end.

(** The run of the case; an error is recorded with the submission. *)
Definition intake_link (fresh_run : Z → string) (q : SubmissionRequest) (case : option string)
    (record : SubmissionRecord) (now : Instant) : prog (option CaseStoreError) :=
  match case with
  | None => Ret None
  | Some c =>
      let! found := CaseStore_get (Json:=J) c in
      if linked_already (record_task_id record) found then Ret None
      else
        let! opened := CaseStore_open_run (Json:=J) fresh_run c (record_task_id record)
                         (Some (record_submission_id record)) now in
        match opened with
        | Ok _ => Ret None
        | Err error =>
            let! _ := mark_failed (submission_id q) (CaseStoreError_display error) now in
            Ret (Some error)
        end
  end.

(** The outbox is drained, and the submission is confirmed as far as it got. *)
Definition intake_publish (publish : option (OutboxEntry → option string)) (q : SubmissionRequest)
    (now : Instant) : prog unit :=
  let! _ := match publish with
            | None => Ret tt
            | Some p => let! _ := drain_outbox p now OUTBOX_DRAIN_LIMIT in Ret tt
            end in
  let! entry := OutboxQueue_get (outbox_key (submission_id q)) in
  let! _ := (if match entry with
                | Ok (Some e) => entry_state e ==? Delivered
                | _ => false
                end
             then let! _ := mark_published (submission_id q) now in Ret tt
             else Ret tt) in
  let! _ := mark_applied (submission_id q) now in
  Ret tt.

Definition task_answer (task : Task) (replayed : bool) (sid : string) : SubmitTaskResponse :=
  mkSubmitResponse true (tk_id task) (task_status_to_proto (tk_status task))
    (wrap_u32 (Z.of_nat (length (tk_subtasks task)))) (SubtaskProto_from <$> tk_subtasks task) None replayed
    (Some sid).

Definition unlinked_answer (error : CaseStoreError) (record : SubmissionRecord) (replayed : bool) (sid : string)
    : SubmitTaskResponse :=
  mkSubmitResponse false (record_task_id record) "" 0 []
    (Some ("case run could not be opened: " +:+ CaseStoreError_display error)) replayed (Some sid).

Definition Intake : Type := result SubmitTaskResponse Status * list AgentEventType * TaskStore S B.

(** From the record on. *)
Definition intake_finish (fresh_run : Z → string) (publish : option (OutboxEntry → option string))
    (now at_ : Instant) (ts : TaskStore S B) (q : SubmissionRequest) (case : option string)
    (record : SubmissionRecord) (replayed : bool) : prog Intake :=
  let '(task, events, ts') := intake_task at_ q record ts in
  let! failed := intake_link fresh_run q case record now in
  match failed with
  | Some error => Ret (Ok (unlinked_answer error record replayed (submission_id q)), events, ts')
  | None =>
      let! _ := intake_publish publish q now in
      Ret (Ok (task_answer task replayed (submission_id q)), events, ts')
  end.

Definition submit_task_rpc (fresh_run : Z → string) (publish : option (OutboxEntry → option string))
    (now at_ : Instant) (ts : TaskStore S B) (r : SubmitTaskRequest) : prog Intake :=
  match intake_guard r with
  | Some refusal => Ret (Ok refusal, [], ts)
  | None =>
      match intake_submission r with
      | Err status => Ret (Err status, [], ts)
      | Ok q =>
          let! cased := intake_with_case q (intake_case r) in
          match cased with
          | Err status => Ret (Err status, [], ts)
          | Ok (inl refusal) => Ret (Ok refusal, [], ts)
          | Ok (inr q) =>
              let! recorded := intake_record q now in
              match recorded with
              | Err status => Ret (Err status, [], ts)
              | Ok (inl refusal) => Ret (Ok refusal, [], ts)
              | Ok (inr (record, replayed)) =>
                  intake_finish fresh_run publish now at_ ts q (intake_case r) record replayed
              end
          end
      end
  end.

(** ** Reading tasks *)

Definition get_task_rpc (task_id : string) (ts : TaskStore S B) : GetTaskResponse :=
  match get_task task_id ts with
  | Some task => mkGetTaskResponse true (Some (TaskProto_from task))
  | None => mkGetTaskResponse false None
  end.

Record ListTasksResponse : Type := mkListTasks {
  lt_tasks : list TaskProto;
  lt_total : Z;
  lt_status_counts : gmap string Z
}.
(** [iter] is the order in which the map of tasks is visited. *)
Definition list_tasks_rpc (iter : gmap string Task → list (string * Task)) (ts : TaskStore S B)
    : ListTasksResponse :=
  let l := list_all_tasks iter ts in
  mkListTasks (TaskProto_from <$> l) (wrap_u32 (Z.of_nat (length l))) (task_status_counts l).

(** ** Checkpoints *)

(** The manager shares the event log of the task store. *)
Definition checkpoint_config : CheckpointConfig :=
  mkCpConfig (snapshot_interval CheckpointConfig_default) (snapshot_prefix CheckpointConfig_default) "task.".
Definition with_log (m : CheckpointManager S) (ts : TaskStore S B) : CheckpointManager S :=
  mkManager (event_log ts) (snapshot_store m) (cp_config m) (event_count m).
Definition keep_log (m : CheckpointManager S) (ts : TaskStore S B) : TaskStore S B :=
  set_events_out (event_store m) (event_queue ts) (event_error ts) ts.

Record CheckpointResponse (A : Type) : Type := mkCpResponse {
  cr_success : bool;
  cr_task_id : string;
  cr_payload : A;
  cr_error : option string
}.

Definition create_checkpoint (now : Instant) (task_id : string) (m : CheckpointManager S) (ts : TaskStore S B)
    : CheckpointResponse string * CheckpointManager S * TaskStore S B :=
  match flush_task_events now ts with
  | (Err e, ts) => (mkCpResponse _ false task_id "" (Some (EngineError_display e)), m, ts)
  | (Ok _, ts) =>
      let '(r, m) := create_snapshot now (with_log m ts) task_id in
      (match r with
       | Ok snapshot_id => mkCpResponse _ true task_id snapshot_id None
       | Err e => mkCpResponse _ false task_id ""%string (Some (EngineError_display e))
       end, m, keep_log m ts)
  end.

(** [iter] is the order in which the snapshots are visited. *)
Definition recover_task_rpc (iter : gmap string TaskSnapshot → list (string * TaskSnapshot)) (now : Instant)
    (task_id : string) (m : CheckpointManager S) (ts : TaskStore S B)
    : CheckpointResponse (option TaskSnapshot) * TaskStore S B :=
  match flush_task_events now ts with
  | (Err e, ts) => (mkCpResponse _ false task_id None (Some (EngineError_display e)), ts)
  | (Ok _, ts) =>
      (match recover iter now (with_log m ts) task_id with
       | Ok snapshot => mkCpResponse _ true task_id (Some snapshot) None
       | Err e => mkCpResponse _ false task_id None (Some (EngineError_display e))
       end, ts)
  end.
End Intake.

(** ** Under interleavings *)

Section Once.
Context {RS Value J : Type} {St : RecordStore RS Value} {StOk : RecordStoreOk RS Value}
        {Sdc : Serde Value (WorkCase J)} {Sdr : Serde Value SubmissionRecord}
        {SdrOk : SerdeOk Value SubmissionRecord} {Sdo : Serde Value OutboxEntry}.
Context `{Json J, F64Display, Sha256, Payload, ResultJson}.
Context {S B : Type} `{EventStore S} `{TaskStoreBackend B}.

Notation owned := (proto_owned SUBMISSION_NAMESPACE).
Notation allowed := (proto_allowed SUBMISSION_NAMESPACE record_submission_id submission_created submission_move).
Notation interfere := (interfere owned allowed).
Notation wp := (wp owned allowed).
Notation sdocs := (docs SUBMISSION_NAMESPACE record_submission_id).
Notation settled := (settled SUBMISSION_NAMESPACE identity).

(** A program that keeps to the protocol and whose answer means nothing for it. *)
Definition quiet {A} (p : prog Value A) : Prop :=
  ∀ i σ (Q : A → astate Value → Prop), sdocs (λ _, True) σ →
    (∀ a σ', rtc interfere σ σ' → Q a σ') → wp i p Q σ.

Lemma quiet_ret {A} (a : A) : quiet (Ret a).
Proof. intros i σ Q _ HQ. apply wp_ret. intros σ' Hr. by apply HQ. Qed.

Lemma quiet_bind {A C} (p : prog Value A) (f : A → prog Value C) :
  quiet p → (∀ a, quiet (f a)) → quiet (prog_bind p f).
Proof.
  intros Hp Hf i σ Q Hd HQ. apply wp_bind, Hp; [done|]. intros a σ' Hr.
  apply Hf; [by eapply docs_true|]. intros b σ'' Hr'. apply HQ. by etrans.
Qed.

(** A program that never writes a submission. *)
Lemma quiet_covered {A} (p : prog Value A) : covered (λ _ _ _, True) (λ n _, n ≠ SUBMISSION_NAMESPACE) p → quiet p.
Proof.
  intros Hc i σ Q _. revert Hc σ. induction p as [a|n key k IH|n key v e k IH|n l k IH|n key k IH]; intros Hc σ HQ;
    [apply wp_ret; intros; by apply HQ|..]; intros σ' Hr.
  - assert (∀ r, covered (λ _ _ _, True) (λ n _, n ≠ SUBMISSION_NAMESPACE) (k r)) as Hk.
    { intros r m key' Hm. apply (Hc m key'). by econstructor. }
    split; intros; apply IH; try done; intros; apply HQ; by etrans.
  - assert (n ≠ SUBMISSION_NAMESPACE) as Hn by (apply (Hc n key); constructor).
    assert (∀ r, covered (λ _ _ _, True) (λ n _, n ≠ SUBMISSION_NAMESPACE) (k r)) as Hk.
    { intros r m key' Hm. apply (Hc m key'). by econstructor. }
    split; [|intros err; apply IH; [done|]; intros; apply HQ; by etrans].
    intros _. split; [by intros ?|]. intros r _. apply IH; [done|]. intros a σ'' Hr'. apply HQ.
    etrans; [exact Hr|]. eapply rtc_l; [|exact Hr']. apply interfere_write. by intros ?.
  - assert (∀ r, covered (λ _ _ _, True) (λ n _, n ≠ SUBMISSION_NAMESPACE) (k r)) as Hk.
    { intros r m key' Hm. apply (Hc m key'). by econstructor. }
    split; intros; apply IH; try done; intros; apply HQ; by etrans.
  - assert (n ≠ SUBMISSION_NAMESPACE) as Hn by (apply (Hc n key); constructor).
    assert (∀ r, covered (λ _ _ _, True) (λ n _, n ≠ SUBMISSION_NAMESPACE) (k r)) as Hk.
    { intros r m key' Hm. apply (Hc m key'). by econstructor. }
    split; [by apply bool_decide_eq_false_2|]. intros r m' Hm. apply IH; [done|]. intros a σ'' Hr'. apply HQ.
    etrans; [exact Hr|]. eapply rtc_l; [|exact Hr']. destruct σ' as [m h]. by constructor.
Qed.

Lemma quiet_transition id now f : (∀ r, identity (f r) = identity r) → quiet (submission_transition id now f).
Proof. intros Hf i σ Q Hd HQ. by apply wp_submission_transition. Qed.

Lemma quiet_drain_entries publish now l summary : quiet (drain_entries publish now l summary).
Proof.
  revert summary. induction l as [|entry l IH]; intros summary; cbn [drain_entries]; [apply quiet_ret|].
  apply quiet_bind; [|done]. unfold drain_entry. destruct (publish entry).
  - apply quiet_bind; [|intros; apply quiet_ret]. apply quiet_covered.
    unfold OutboxQueue_schedule_retry, OutboxQueue_mutate. by cover fail.
  - apply quiet_bind; [apply quiet_covered; unfold OutboxQueue_mark_delivered, OutboxQueue_mutate; by cover fail|].
    intros [o|e]; [|apply quiet_ret]. apply quiet_bind; [|intros; apply quiet_ret].
    unfold confirm_published_submission. destruct (submission_id_from_outbox_key _); [|apply quiet_ret].
    apply quiet_bind; [apply quiet_transition, set_published_identity|intros; apply quiet_ret].
Qed.

Lemma quiet_drain publish now limit : quiet (drain_outbox publish now limit).
Proof.
  apply quiet_bind.
  - apply quiet_covered. unfold claim_due. apply covered_bind; [apply covered_ns_list|]. intros [l|]; [|apply covered_ret].
    generalize (@nil OutboxEntry). induction l as [|[e v] l IH]; intros claimed; cbn [claim_loop]; cover ltac:(apply IH).
    done.
  - intros [l|]; [|apply quiet_ret]. apply quiet_bind; [apply quiet_drain_entries|intros; apply quiet_ret].
Qed.

Lemma quiet_link fresh_run q case record now : quiet (intake_link (J:=J) fresh_run q case record now).
Proof.
  unfold intake_link. destruct case as [c|]; [|apply quiet_ret]. apply quiet_bind.
  { apply quiet_covered, covered_case_get. }
  intros found. destruct (linked_already _ found); [apply quiet_ret|]. apply quiet_bind.
  { apply quiet_covered. unfold CaseStore_open_run. apply covered_bind; [|intros; apply covered_ret].
    by apply covered_case_update. }
  intros [w|e]; [apply quiet_ret|]. apply quiet_bind; [by apply quiet_transition|intros; apply quiet_ret].
Qed.

Lemma quiet_publish publish q now : quiet (intake_publish publish q now).
Proof.
  apply quiet_bind.
  { destruct publish; [|apply quiet_ret]. apply quiet_bind; [apply quiet_drain|intros; apply quiet_ret]. }
  intros _. apply quiet_bind; [apply quiet_covered; unfold OutboxQueue_get; by cover fail|].
  intros entry. apply quiet_bind; [|intros _; apply quiet_bind; [by apply quiet_transition|intros; apply quiet_ret]].
  destruct (match entry with Ok _ => _ | Err _ => _ end); [|apply quiet_ret].
  apply quiet_bind; [apply quiet_transition, set_published_identity|intros; apply quiet_ret].
Qed.

(** *** The calls in flight *)

Record intake_call : Type := mkIntakeCall {
  ic_fresh_run : Z → string;
  ic_publish : option (OutboxEntry → option string);
  ic_now : Instant;
  ic_at : Instant;
  ic_tasks : TaskStore S B;
  ic_request : SubmitTaskRequest
}.

Inductive gateway_call : Type :=
| CallSubmitTask (c : intake_call)
| CallDrainOutbox (publish : OutboxEntry → option string) (now : Instant) (limit : nat)
| CallSubmission (c : submission_call).

Definition run_gateway_call (c : gateway_call) : prog Value (option (Intake (S:=S) (B:=B))) :=
  match c with
  | CallSubmitTask c =>
      let! a := submit_task_rpc (J:=J) (ic_fresh_run c) (ic_publish c) (ic_now c) (ic_at c) (ic_tasks c) (ic_request c) in
      Ret (Some a)
  | CallDrainOutbox publish now limit => let! _ := drain_outbox publish now limit in Ret None
  | CallSubmission c => let! _ := run_submission_call c in Ret None
  end.

(** The submission a request asks for. *)
Definition asked (r : SubmitTaskRequest) : result SubmissionRequest Status :=
  map_ok (λ q, match intake_case r with Some c => SubmissionRequest_with_case q c | None => q end)
    (intake_submission r).

Definition is_replayed (o : SubmitOnceOutcome) : bool :=
  match o with Replayed _ => true | _ => false end.

(** What a successful answer says. *)
Definition intake_answered (i : nat) (c : intake_call) (a : Intake (S:=S) (B:=B)) (σ : astate Value) : Prop :=
  ∀ resp, a.1.1 = Ok resp → sr_success resp = true →
  ∃ q o record task, asked (ic_request c) = Ok q ∧ answered i q o σ ∧ outcome_record o = Some record ∧
    intake_task (ic_at c) q record (ic_tasks c) = (task, a.1.2, a.2) ∧
    resp = task_answer task (is_replayed o) (submission_id q).

Lemma intake_answered_rtc i c a σ σ' :
  rtc interfere σ σ' → intake_answered i c a σ → intake_answered i c a σ'.
Proof.
  intros Hr Ha resp Hok Hs. destruct (Ha resp Hok Hs) as (q & o & record & task & Hq & Ho & Hx).
  exists q, o, record, task. split_and!; [done|by eapply answered_rtc|naive_solver..].
Qed.

Lemma wp_intake_finish i c q o record σ :
  sdocs (λ _, True) σ → asked (ic_request c) = Ok q → answered i q o σ → outcome_record o = Some record →
  wp i (intake_finish (J:=J) (ic_fresh_run c) (ic_publish c) (ic_now c) (ic_at c) (ic_tasks c) q
          (intake_case (ic_request c)) record (is_replayed o)) (intake_answered i c) σ.
Proof.
  intros Hd Hq Ho Hrec. unfold intake_finish.
  destruct (intake_task (ic_at c) q record (ic_tasks c)) as [[task events] ts'] eqn:Et.
  apply wp_bind, quiet_link; [done|]. intros [e|] σ1 Hr1.
  { apply wp_ret. intros σ2 _ resp [= <-]. done. }
  apply wp_bind, quiet_publish; [by eapply docs_true|]. intros _ σ2 Hr2. apply wp_ret.
  intros σ3 Hr3 resp [= <-] _. exists q, o, record, task. split_and!; try done.
  eapply answered_rtc; [|exact Ho]. chain.
Qed.

Lemma wp_intake_record i c q σ :
  sdocs (λ _, True) σ → asked (ic_request c) = Ok q →
  wp i (let! recorded := intake_record q (ic_now c) in
        match recorded with
        | Err status => Ret (Err status, [], ic_tasks c)
        | Ok (inl refusal) => Ret (Ok refusal, [], ic_tasks c)
        | Ok (inr (record, replayed)) =>
            intake_finish (J:=J) (ic_fresh_run c) (ic_publish c) (ic_now c) (ic_at c) (ic_tasks c) q
              (intake_case (ic_request c)) record replayed
        end) (intake_answered i c) σ.
Proof.
  intros Hd Hq. apply wp_bind, wp_bind.
  eapply wp_mono; [|apply wp_since, wp_submit_once; exact Hd]. intros r σ1 [Hr1 Ha].
  assert (sdocs (λ _, True) σ1) as Hd1 by (by eapply docs_true).
  apply wp_ret. intros σ2 Hr2. assert (sdocs (λ _, True) σ2) as Hd2 by (by eapply docs_true).
  destruct r as [[rec|rec|]|]; cbn.
  - apply (wp_intake_finish i c q (Created rec)); try done. by eapply answered_rtc.
  - apply (wp_intake_finish i c q (Replayed rec)); try done. by eapply answered_rtc.
  - apply wp_ret. intros σ3 _ resp [= <-]. done.
  - apply wp_ret. by intros σ3 _ resp [=].
Qed.

Lemma wp_submit_task i c σ :
  sdocs (λ _, True) σ →
  wp i (submit_task_rpc (J:=J) (ic_fresh_run c) (ic_publish c) (ic_now c) (ic_at c) (ic_tasks c) (ic_request c))
    (intake_answered i c) σ.
Proof.
  intros Hd. unfold submit_task_rpc. unfold intake_guard.
  destruct (_ ==? ""); [apply wp_ret; by intros σ1 _ resp [= <-]|].
  destruct (_ ==? ""); [apply wp_ret; by intros σ1 _ resp [= <-]|].
  destruct (intake_submission (ic_request c)) as [q|st] eqn:Eq; [|apply wp_ret; by intros σ1 _ resp [=]].
  assert (asked (ic_request c) = Ok match intake_case (ic_request c) with
    | Some c => SubmissionRequest_with_case q c | None => q end) as Ha by (unfold asked; by rewrite Eq).
  apply wp_bind. unfold intake_with_case. destruct (intake_case (ic_request c)) as [case|] eqn:Ec.
  - apply wp_bind, quiet_covered; [apply covered_case_get|done|]. intros found σ1 Hr1.
    apply wp_ret. intros σ2 Hr2. destruct found as [[x|]|e]; [|apply wp_ret; by intros σ3 _ resp [= <-]
      |apply wp_ret; by intros σ3 _ resp [=]].
    rewrite <-Ec. apply wp_intake_record; [|done]. eapply docs_true; [|exact Hd]. chain.
  - apply wp_ret. intros σ1 Hr1. rewrite <-Ec. apply wp_intake_record; [|done]. by eapply docs_true.
Qed.

Definition gateway_answered (calls : list gateway_call) (i : nat) (o : option (Intake (S:=S) (B:=B)))
    (σ : astate Value) : Prop :=
  ∀ a, o = Some a → ∃ c, calls !! i = Some (CallSubmitTask c) ∧ intake_answered i c a σ.

Lemma wp_gateway_call calls i c σ :
  calls !! i = Some c → sdocs (λ _, True) σ → wp i (run_gateway_call c) (gateway_answered calls i) σ.
Proof.
  intros Hc Hd. destruct c as [c|publish now limit|c]; cbn [run_gateway_call]; apply wp_bind.
  - eapply wp_mono; [|by apply wp_submit_task]. intros a σ1 Ha. apply wp_ret. intros σ2 Hr a' [= <-].
    exists c. split; [done|]. by eapply intake_answered_rtc.
  - apply quiet_drain; [done|]. intros. by apply wp_ret.
  - eapply wp_mono; [|apply (wp_submission_call (replicate (Datatypes.S i) c)); [|exact Hd]].
    + intros. by apply wp_ret.
    + apply lookup_replicate_2. lia.
Qed.

Lemma gateway_pool (s : RS) calls c' :
  store_wf s → submissions_ok s →
  rtc (step owned) (mkConfig s (run_gateway_call <$> calls) []) c' →
  rtc interfere (contents s, []) (astate_of c') ∧ sdocs submission_created (astate_of c') ∧
  ∀ i o, cfg_threads c' !! i = Some (Ret o) → gateway_answered calls i o (astate_of c').
Proof.
  intros Hwf Hok Hsteps. pose proof (submissions_docs s [] Hwf Hok) as Hd.
  assert (all_wp owned allowed (gateway_answered calls) (mkConfig s (run_gateway_call <$> calls) [])) as Hall.
  { split; [done|]. intros i p Hi. cbn in Hi. apply list_lookup_fmap_Some in Hi as (c & -> & Hc).
    apply wp_gateway_call; [done|]. by eapply docs_weaken. }
  pose proof (steps_interfere _ _ _ _ _ Hall Hsteps) as Hr. split_and!; [done| |].
  - eapply docs_rtc; [apply submission_ok_preserved|exact Hr|done].
  - intros i o Hi. by apply (wp_adequate _ _ _ _ _ Hall Hsteps i).
Qed.

(** The tasks are kept under their ids. *)
Definition tasks_keyed (ts : TaskStore S B) : Prop := ∀ i t, tasks ts !! i = Some t → tk_id t = i.

(** The step under the lock. *)
Lemma intake_task_spec at_ q record (ts : TaskStore S B) task events ts' :
  tasks_keyed ts → intake_task at_ q record ts = (task, events, ts') →
  tk_id task = record_task_id record ∧ tasks ts' !! record_task_id record = Some task ∧ tasks_keyed ts' ∧
  (∀ j, j ≠ record_task_id record → tasks ts' !! j = tasks ts !! j) ∧
  (events = [] ↔ is_Some (tasks ts !! record_task_id record)).
Proof.
  intros Hk. unfold intake_task, get_task. destruct (tasks ts !! record_task_id record) as [t|] eqn:E.
  - intros [= <- <- <-]. split_and!; [by apply Hk|done..].
  - unfold submit_task_pending_with_id, persist_new_task. intros [= <- <- <-]. cbn. rewrite !tasks_persist. cbn.
    split_and!; [done|by rewrite lookup_insert_eq| | |by split; [|intros [? ?]]].
    + intros i t. rewrite tasks_persist. cbn. rewrite lookup_insert_Some. intros [[<- <-]|[_ Ht]]; [done|by apply Hk].
    + intros j Hj. rewrite lookup_insert_ne by done. done.
Qed.

(** The record a submission was answered with names the task of its id. *)
Lemma answered_record i q o record σ :
  sdocs submission_created σ → answered i q o σ → outcome_record o = Some record →
  settled (submission_id q) (identity record) σ ∧ record_task_id record = derive_task_id (submission_id q) ∧
  record_request_digest record = SubmissionRequest_digest q.
Proof.
  intros Hd Ho Hrec.
  assert (settled (submission_id q) (identity record) σ ∧ record_request_digest record = SubmissionRequest_digest q)
    as [Hs Hdig] by (destruct o; simplify_eq/=; naive_solver).
  split_and!; [done| |done]. destruct Hs as (v & val & y & Hl & Hy & Hid).
  destruct (Hd _ _ _ Hl) as [_ Hy']. destruct (Hy' y Hy) as [Hk Ht]. unfold submission_created in Ht.
  injection Hid as Hid1 Hid2 _ _ _. congruence.
Qed.

End Once.

(** * The gateway's task store as the trigger service sees it

    [TaskStore] implements the interface [PendingTasks] of the resuming of cases: a resumed
    case's task is the pending task of [submit_task_pending_with_id], and no other task comes
    or goes. *)

Section Tasks.
Context {S B : Type} `{EventStore S} `{TaskStoreBackend B}.

#[export] Instance gateway_tasks : PendingTasks (TaskStore S B) :=
  {| holds_task := λ i s, bool_decide (is_Some (get_task i s));
     submit_pending := λ now i d p s, (submit_task_pending_with_id now i d p s).2 |}.

#[export] Instance gateway_tasks_ok : PendingTasksOk (TaskStore S B).
Proof.
  split. intros now i d p s j. cbn. unfold get_task, submit_task_pending_with_id, persist_new_task. cbn.
  rewrite tasks_persist. cbn. destruct (String.eq_dec j i) as [->|Hne].
  - rewrite lookup_insert_eq, !bool_decide_eq_true_2 by done. done.
  - rewrite lookup_insert_ne by done. by rewrite (bool_decide_eq_false_2 (j = i)) by done.
Qed.
End Tasks.

(** * Runs of the intake

    Concrete calls of [submit_task] on a store of governance documents and an in-memory task
    store: the witness of the theorem on interleavings, and where the RPC departs from the
    bridge and from its comments. *)

(** The last bytes of the text, padded: texts that differ in their ends have different
    digests. *)
#[local] Instance suffix_sha : Sha256 :=
  {| sha256 := λ s, take 32 ((λ c, Z.of_N (N_of_ascii c)) <$> rev (chars s) ++ replicate 32 "0"%char) |}.
#[local] Existing Instance witness_display.
#[local] Existing Instance unit_json.
#[local] Instance intake_reason : DenyReasonDebug := {| deny_reason_debug := DenyReason_code |}.
#[local] Instance intake_code : CodeDisplay := {| code_display := λ _, "The request is not valid" |}.
#[local] Instance intake_payload : Payload :=
  {| payload_submit := λ task _ _ _ _, task; payload_recovered := λ task _ _ _, task |}.
#[local] Instance no_json : ResultJson :=
  {| review_text := λ _, None; review_of_text := λ _, None; changes_of_text := λ _, None |}.

Notation gov_store := (InMemoryRecordStore GovDoc).
Notation task_store := (TaskStore InMemoryEventStore InMemoryTaskBackend).
Definition no_tasks : task_store := TaskStore_with InMemoryEventStore_new (Some InMemoryTaskBackend_new) true.
Definition empty_gov : gov_store := InMemoryRecordStore_new.

Definition ask (description project id : string) (case : option string) : SubmitTaskRequest :=
  mkSubmitTask description project (Some id) None None case.
Definition accepts : option (OutboxEntry → option string) := Some (λ _, None).

Definition intake_call_of (now : Instant) (r : SubmitTaskRequest)
    : gateway_call (S:=InMemoryEventStore) (B:=InMemoryTaskBackend) :=
  CallSubmitTask (mkIntakeCall (λ _, "run-1") None now now no_tasks r).
Definition two_calls := [intake_call_of 1 (ask "fix it" "p" "k" None); intake_call_of 2 (ask "fix it" "p" "k" None)].

(** The second call is answered between the record of the first and its publication. *)
Definition interleaved_pair := exec 9 [0; 1; 1; 1; 1; 0; 1; 1; 1; 0; 0; 0; 0; 0; 0; 0]%nat
  (mkConfig empty_gov (run_gateway_call (J:=unit) <$> two_calls) []).

#[local] Instance gd_submission_ok : SerdeOk GovDoc SubmissionRecord.
Proof. split; [done|]. by intros x v [= <-]. Qed.

Lemma empty_gov_wf : store_wf empty_gov.
Proof. apply map_Forall_empty. Qed.

Lemma empty_gov_ok : submissions_ok empty_gov.
Proof.
  intros k v val r. cbn [contents InMemory_Ok]. rewrite in_memory_contents_lookup.
  cbn [inner empty_gov InMemoryRecordStore_new]. by rewrite lookup_empty.
Qed.

Lemma no_tasks_keyed : tasks_keyed no_tasks.
Proof. intros i t. cbn. by rewrite lookup_empty. Qed.

(** What the calls are told. *)
Definition refusal : SubmitTaskResponse := refused_task "" None.
Definition told (i : nat) : SubmitTaskResponse * list AgentEventType * task_store :=
  match cfg_threads interleaved_pair !! i with
  | Some (Ret (Some (Ok resp, events, ts))) => (resp, events, ts)
  | _ => (refusal, [], no_tasks)
  end.


(** ** Against the bridge *)

Definition rpc (s : gov_store) (publish : option (OutboxEntry → option string)) (now : Instant)
    (ts : task_store) (r : SubmitTaskRequest) := run 9 (submit_task_rpc (J:=unit) (λ _, "run-1") publish now now ts r) s.
Definition bridged (s : gov_store) (now : Instant) (r : SubmitTaskRequest) :=
  run 9 (submit_submission (J:=unit) now
    (mkSubmitInput (str_description r) (str_project_id r) (str_submission_id r) (str_principal_kind r)
       (str_principal_id r) (str_case_id r))) s.
Definition rpc_success (a : Intake (S:=InMemoryEventStore) (B:=InMemoryTaskBackend)) : bool :=
  match a.1.1 with Ok resp => sr_success resp | Err _ => false end.

(** A description of white space is refused by the bridge and is a task for the RPC. *)
Lemma blank_description_is_a_task :
  rpc_success (rpc empty_gov None 1 no_tasks (ask "  " "p" "k" None)).1 = true ∧
  (bridged empty_gov 1 (ask "  " "p" "k" None)).1
  = Err (op_invalid "invalid_argument" "Task description cannot be empty").
Proof. split; by vm_compute. Qed.

(** The RPC keeps the white space around a project that the bridge trims: a request that is
    sent again by the other transport conflicts with itself. *)
Lemma padded_project_conflicts :
  let r := ask "fix it" "p " "k" None in
  rpc_success (rpc empty_gov None 1 no_tasks r).1 = true ∧
  (bridged (rpc empty_gov None 1 no_tasks r).2 2 r).1
  = Err (op_conflict "submission_conflict"
      "submission_id 'k' was already used for a different request; use a fresh idempotency key").
Proof. split; by vm_compute. Qed.

(** ** The outbox *)

Definition record_of (s : gov_store) (id : string) : option SubmissionRecord :=
  match record_value <$> inner s !! (SUBMISSION_NAMESPACE, id) with
  | Some (GdSubmission r) => Some r
  | _ => None
  end.

(** One publication counts as two attempts: the dispatcher confirms it and so does the RPC. *)
Lemma publication_is_counted_twice :
  publish_attempts <$> record_of (rpc empty_gov accepts 1 no_tasks (ask "fix it" "p" "k" None)).2 "k" = Some 2.
Proof. by vm_compute. Qed.

(** A case with an open run. *)
Definition busy_case : WorkCase unit :=
  (open_run_promoted "run-0" "other" None 1
     (WorkCase_with_id (WorkCase_new "c" "fix" "fix it" "p" CaseOrigin_manual 0) "c")).2.
Definition busy_gov : gov_store := mkInMemory {[ ("work_case", "c") := mkRecord "work_case" "c" 1 (GdCase busy_case) 1 ]} false.
Definition refused_run := rpc busy_gov accepts 2 no_tasks (ask "fix it" "p" "k" (Some "c")).

(** A submission whose run the case refuses is answered as failed; its task is in the task
    store, and the next dispatcher sends it to a worker all the same. *)
Lemma refused_run_is_published :
  rpc_success refused_run.1 = false ∧
  (record_state <$> record_of refused_run.2 "k") = Some SubmissionFailed ∧
  is_Some (get_task (derive_task_id "k") refused_run.1.2) ∧
  let '((summary, sent), _) := run 9 (drain_outbox (λ _, None) 3 64) refused_run.2 in
  delivered summary = 1 ∧ (entry_key <$> sent) = [outbox_key "k"].
Proof. split_and!; try (by vm_compute). by eexists; vm_compute. Qed.
