(* ===== verification/Ranking.v ===== *)
(** * Ranking by a score

    The best of a list by a 32-bit score, as the searches take them: [sort_by] with
    [b.score.partial_cmp(&a.score)], equal when there is no order, and [truncate]. *)

From Stdlib Require Import SpecFloat.
From S2P Require Import Prelude RustStr Mandate.

Lemma SFleb_not_nan a b : SFleb a b = true → f64_is_nan a = false ∧ f64_is_nan b = false.
Proof. by destruct a, b. Qed.

Lemma SFltb_SFleb a b : f64_is_nan a = false → f64_is_nan b = false → negb (SFltb a b) = SFleb b a.
Proof.
  unfold SFltb, SFleb, SFcompare. change (Pos.compare_cont Eq) with Pos.compare.
  destruct a as [[]|[]| |[] m e], b as [[]|[]| |[] m' e']; try done; intros _ _;
    rewrite (Z.compare_antisym e e'); destruct (e ?= e')%Z; try done; cbn;
    rewrite (Pos.compare_antisym m m'); by destruct (m ?= m')%positive.
Qed.

Section Ranking.
Context {A : Type} (score : A → spec_float).

Definition ranks (a b : A) : bool := negb (SFltb (score a) (score b)).
Definition top (n : nat) (l : list A) : list A := take n (sort_by ranks l).

(** At least as good. *)
Definition outranks (a b : A) : Prop := SFleb (score b) (score a) = true.

#[local] Instance outranks_trans : Transitive outranks.
Proof. intros a b c Hab Hbc. by eapply f64_le_trans. Qed.

Lemma ranks_total a b : ranks a b = true ∨ ranks b a = true.
Proof.
  unfold ranks. destruct (SFltb (score a) (score b)) eqn:E; [right|by left].
  assert (f64_is_nan (score a) = false ∧ f64_is_nan (score b) = false) as [Ha Hb] by (by destruct (score a), (score b)).
  rewrite SFltb_SFleb by done. unfold SFltb, SFleb in *. by destruct (SFcompare _ _) as [[]|].
Qed.

Lemma ranks_sorted l : Forall (λ r, f64_is_nan (score r) = false) l → StronglySorted outranks (sort_by ranks l).
Proof.
  intros Hn. apply Sorted_StronglySorted; [exact outranks_trans|].
  pose proof (sort_by_Sorted ranks l ranks_total) as Hs.
  assert (Forall (λ r, f64_is_nan (score r) = false) (sort_by ranks l)) as Hn' by (by rewrite sort_by_perm).
  revert Hn'. induction Hs as [|a k Hk IH Hhd]; intros Hf; constructor; apply Forall_cons in Hf as [Ha Hf]; [by apply IH|].
  destruct Hhd as [|b k Hab]; constructor. apply Forall_cons in Hf as [Hb _]. unfold outranks, ranks in *.
  by rewrite <-SFltb_SFleb.
Qed.

(** The best are in order, and an element is left out only when the number is reached and each
    of them is at least as good. *)
Lemma top_best n l :
  Forall (λ r, f64_is_nan (score r) = false) l →
  (length (top n l) <= n)%nat ∧ StronglySorted outranks (top n l) ∧ top n l ⊆ l ∧
  ∀ r, r ∈ l → r ∈ top n l ∨ length (top n l) = n ∧ ∀ r', r' ∈ top n l → SFleb (score r) (score r') = true.
Proof.
  intros Hn. pose proof (ranks_sorted l Hn) as Hs. unfold top. rewrite <-(take_drop n (sort_by ranks l)) in Hs. split_and!.
  - rewrite length_take. lia.
  - by apply StronglySorted_app_1_l in Hs.
  - intros r Hr. apply (sort_by_elem ranks). apply elem_of_take in Hr as (i & Hi & _). by eapply list_elem_of_lookup_2.
  - intros r Hr%(sort_by_elem ranks). rewrite <-(take_drop n (sort_by ranks l)) in Hr.
    apply elem_of_app in Hr as [Hin|Hin]; [by left|right]. split.
    + rewrite length_take. destruct (drop n (sort_by ranks l)) eqn:E; [by apply elem_of_nil in Hin|].
      pose proof (length_drop (sort_by ranks l) n) as Hl. rewrite E in Hl. simpl in Hl. lia.
    + intros r' Hr'. exact (StronglySorted_app_1_elem_of _ _ _ r' _ Hs Hr' Hin).
Qed.
End Ranking.
