(* ===== verification/Memory.v ===== *)
(** * Memory

    [uc-types/src/memory.rs], [uc-engine/src/memory/short_term.rs], [long_term.rs] and
    [mod.rs]: the entries, the two stores and the layered store over them.

    - A store has a client of an external database, or works on its own list when it has
      none.  The clients are parameters: TiKV's raw client ([RawKv], with [RawKvOk]: it is
      a map of bytes), and Qdrant ([VectorDb]).  So are the JSON of a stored entry
      ([StoredJson]) and of a content ([ContentJson]), and the embedding service
      ([embed], the vector of a text or an error).
    - [f32] is [spec_float] with the parameters of binary32.  A time kept as RFC 3339 text
      is the [Instant].
    - The clock and fresh ids are arguments. *)

From Stdlib Require Import String Ascii SpecFloat.
From stdpp Require Import gmap strings pretty.
From S2P Require Import Prelude RustStr Task Graph.

(** ** 32-bit floats *)

Notation f32 := spec_float (only parsing).
Definition f32_prec : Z := 24.
Definition f32_emax : Z := 128.
Definition f32_add (a b : f32) : f32 := SFadd f32_prec f32_emax a b.
Definition f32_mul (a b : f32) : f32 := SFmul f32_prec f32_emax a b.
Definition f32_div (a b : f32) : f32 := SFdiv f32_prec f32_emax a b.
Definition f32_sqrt (a : f32) : f32 := SFsqrt f32_prec f32_emax a.
Definition f32_zero : f32 := S754_zero false.
(** The sum of an iterator starts from -0. *)
Definition f32_sum (l : list f32) : f32 := foldl f32_add (S754_zero true) l.

(** [as f64] and [as f32]. *)
Definition f32_as_f64 (a : f32) : f64 :=
  match a with
  | S754_finite s m e => binary_normalize f64_prec f64_emax (if s then Zneg m else Zpos m) e s
  | a => a
  end.
Definition f64_as_f32 (a : f64) : f32 :=
  match a with
  | S754_finite s m e => binary_normalize f32_prec f32_emax (if s then Zneg m else Zpos m) e s
  | a => a
  end.

(** ** Entries (uc-types memory.rs) *)

Inductive MemoryKey : Type :=
| KeyTask (task_id key : string)
| KeyProject (project_id key : string)
| KeyGlobal (key : string).
#[export] Instance MemoryKey_eq_dec : EqDecision MemoryKey.
Proof. solve_decision. Defined.

Inductive MemoryContent : Type :=
| Text (text : string)
| Structured (value : JsonValue)
| Code (language code : string)
| Diff (path text : string)
| Reference (uri description : string).

Record MemoryMetadata : Type := mkMetadata {
  source_agent : string;
  importance : f32;
  mem_tags : list string;
  embedding : option (list f32)
}.

Record MemoryEntry : Type := mkEntry {
  mem_id : string;
  mem_key : MemoryKey;
  mem_content : MemoryContent;
  mem_metadata : MemoryMetadata;
  mem_created_at : Instant;
  mem_updated_at : Instant;
  mem_version : Z
}.

Definition version_from_timestamp (ts : Instant) : Z := Z.max (timestamp_millis ts) 0.

Record MemoryReadRequest : Type := mkMemoryRead { mr_key : MemoryKey; include_semantic : bool }.
Record MemoryWriteRequest : Type := mkMemoryWrite {
  mw_key : MemoryKey;
  mw_content : MemoryContent;
  mw_metadata : MemoryMetadata;
  mw_version : option Z
}.
Inductive MemorySearchScope : Type :=
| ScopeProject (project_id : string)
| ScopeGlobal
| ScopeAll.
Record MemorySearchRequest : Type := mkMemorySearch {
  ms_query : string;
  ms_scope : MemorySearchScope;
  ms_max_results : Z;
  ms_min_score : f32
}.
Record MemorySearchResult : Type := mkMemoryResult { found_entry : MemoryEntry; found_score : f32 }.
Record MemoryReplayResult : Type := mkReplayResult { replay_entry : MemoryEntry; replay_applied : bool }.

(** ** Short-term memory *)

Definition encode_key (k : MemoryKey) : string :=
  match k with
  | KeyTask t key => "memory:task:" +:+ t +:+ ":" +:+ key
  | KeyProject p key => "memory:project:" +:+ p +:+ ":" +:+ key
  | KeyGlobal key => "memory:global:" +:+ key
  end.

(** What is before and after the first colon. *)
Fixpoint cut_colon (l : list ascii) : option (list ascii * list ascii) :=
  match l with
  | [] => None
  | c :: l => if c ==? ":"%char then Some ([], l) else '(a, b) ← cut_colon l; Some (c :: a, b)
  end.

(** [splitn(n, ':')] of the characters. *)
Fixpoint splitn_colon (n : nat) (l : list ascii) : list (list ascii) :=
  match n with
  | O => []
  | Datatypes.S n' =>
      match n', cut_colon l with
      | Datatypes.S _, Some (a, b) => a :: splitn_colon n' b
      | _, _ => [l]
      end
  end.

Definition decode_key (encoded : string) : option MemoryKey :=
  match of_chars <$> splitn_colon 4 (chars encoded) with
  | root :: scope :: rest =>
      if root !=? "memory" then None
      else
        match rest with
        | [a; b] =>
            if scope ==? "task" then Some (KeyTask a b)
            else if scope ==? "project" then Some (KeyProject a b) else None
        | [a] => if scope ==? "global" then Some (KeyGlobal a) else None
        | _ => None
        end
  | _ => None
  end.

Definition scope_prefix (k : MemoryKey) : string :=
  match k with
  | KeyTask t _ => "memory:task:" +:+ t +:+ ":"
  | KeyProject p _ => "memory:project:" +:+ p +:+ ":"
  | KeyGlobal _ => "memory:global:"
  end.

Record StoredEntry : Type := mkStored {
  se_id : string;
  se_content : MemoryContent;
  se_metadata : MemoryMetadata;
  se_created_at : Instant;
  se_updated_at : Instant;
  se_version : Z
}.
Definition StoredEntry_from_entry (e : MemoryEntry) : StoredEntry :=
  mkStored (mem_id e) (mem_content e) (mem_metadata e) (mem_created_at e) (mem_updated_at e) (mem_version e).
Definition StoredEntry_to_entry (s : StoredEntry) (key : MemoryKey) : MemoryEntry :=
  mkEntry (se_id s) key (se_content s) (se_metadata s) (se_created_at s) (se_updated_at s) (se_version s).

(** The raw client: every call may fail with a text. *)
Class RawKv (KV Bytes : Type) := {
  kv_get : KV → string → result (option Bytes) string;
  kv_put : KV → string → Bytes → result unit string * KV;
  kv_delete : KV → string → result unit string * KV;
  kv_scan : KV → string → string → nat → result (list string) string
}.
Class RawKvOk (KV Bytes : Type) `{RawKv KV Bytes} := {
  kv_contents : KV → gmap string Bytes;
  kv_up : KV → Prop;
  kv_get_ok kv k : kv_up kv → kv_get kv k = Ok (kv_contents kv !! k);
  kv_put_ok kv k b : kv_up kv → ∃ kv', kv_put kv k b = (Ok tt, kv') ∧ kv_up kv' ∧
    kv_contents kv' = <[k := b]> (kv_contents kv);
  kv_delete_ok kv k : kv_up kv → ∃ kv', kv_delete kv k = (Ok tt, kv') ∧ kv_up kv' ∧
    kv_contents kv' = delete k (kv_contents kv)
}.

(** [serde_json] on a stored entry. *)
Class StoredJson (Bytes : Type) := {
  stored_to_bytes : StoredEntry → result Bytes string;
  stored_of_bytes : Bytes → result StoredEntry string
}.
Class StoredJsonOk (Bytes : Type) `{StoredJson Bytes} : Prop := {
  stored_back : ∀ s, ∃ b, stored_to_bytes s = Ok b ∧ stored_of_bytes b = Ok s
}.

Record ShortTermMemory (KV : Type) : Type := mkShortTerm {
  st_client : option KV;
  st_fallback : list (string * StoredEntry);
  st_ttl_seconds : Z;
  intentional_memory : bool
}.
Arguments mkShortTerm {KV} _ _ _ _.
Arguments st_client {KV} _.
Arguments st_fallback {KV} _.
Arguments st_ttl_seconds {KV} _.
Arguments intentional_memory {KV} _.

Section ShortTerm.
Context {KV Bytes : Type} `{RawKv KV Bytes, StoredJson Bytes}.
Notation ShortTerm := (ShortTermMemory KV).

Definition ShortTerm_with_client (client : KV) (ttl : Z) : ShortTerm := mkShortTerm (Some client) [] ttl false.
Definition ShortTerm_new_fallback (ttl : Z) : ShortTerm := mkShortTerm None [] ttl false.
Definition ShortTerm_new_in_memory (ttl : Z) : ShortTerm := mkShortTerm None [] ttl true.
Definition set_client (c : KV) (s : ShortTerm) : ShortTerm :=
  mkShortTerm (Some c) (st_fallback s) (st_ttl_seconds s) (intentional_memory s).
Definition set_fallback (l : list (string * StoredEntry)) (s : ShortTerm) : ShortTerm :=
  mkShortTerm (st_client s) l (st_ttl_seconds s) (intentional_memory s).
Definition ShortTerm_is_connected (s : ShortTerm) : bool := bool_decide (is_Some (st_client s)).

Definition ShortTerm_read (s : ShortTerm) (key : MemoryKey) : result (option MemoryEntry) EngineError :=
  let k := encode_key key in
  match st_client s with
  | Some client =>
      match kv_get client k with
      | Err e => Err (MemoryReadError ("TiKV read error: " +:+ e))
      | Ok None => Ok None
      | Ok (Some bytes) =>
          match stored_of_bytes bytes with
          | Err e => Err (MemoryReadError ("Deserialization error: " +:+ e))
          | Ok stored => Ok (Some (StoredEntry_to_entry stored key))
          end
      end
  | None => Ok ((λ kv, StoredEntry_to_entry kv.2 key) <$> find (λ kv, kv.1 ==? k) (st_fallback s))
  end.

(** The first entry of the key is replaced, or a new one pushed. *)
Fixpoint replace_first (k : string) (v : StoredEntry) (l : list (string * StoredEntry))
    : option (list (string * StoredEntry)) :=
  match l with
  | [] => None
  | kv :: l =>
      if kv.1 ==? k then Some ((kv.1, v) :: l)
      else l' ← replace_first k v l; Some (kv :: l')
  end.

Definition ShortTerm_write (s : ShortTerm) (e : MemoryEntry) : result unit EngineError * ShortTerm :=
  let k := encode_key (mem_key e) in
  let stored := StoredEntry_from_entry e in
  match stored_to_bytes stored with
  | Err d => (Err (MemoryWriteError ("Serialization error: " +:+ d)), s)
  | Ok value =>
      match st_client s with
      | Some client =>
          let '(r, client) := kv_put client k value in
          (map_err (λ d, MemoryWriteError ("TiKV write error: " +:+ d)) r, set_client client s)
      | None =>
          (Ok tt, set_fallback (default (st_fallback s ++ [(k, stored)]) (replace_first k stored (st_fallback s))) s)
      end
  end.

Definition ShortTerm_delete (s : ShortTerm) (key : MemoryKey) : result unit EngineError * ShortTerm :=
  let k := encode_key key in
  match st_client s with
  | Some client =>
      let '(r, client) := kv_delete client k in
      (map_err (λ d, MemoryWriteError ("TiKV delete error: " +:+ d)) r, set_client client s)
  | None => (Ok tt, set_fallback (filterb (λ kv, kv.1 !=? k) (st_fallback s)) s)
  end.

(** The scan ends at the prefix followed by U+00FF. *)
Definition ShortTerm_list_keys (s : ShortTerm) (prefix : string) : result (list MemoryKey) EngineError :=
  match st_client s with
  | Some client =>
      match kv_scan client prefix (prefix +:+ of_chars [ascii_of_N 255]) 1024 with
      | Err e => Err (MemoryReadError ("TiKV scan error: " +:+ e))
      | Ok keys => Ok (omap decode_key keys)
      end
  | None => Ok (omap (λ kv, decode_key kv.1) (filterb (λ kv, starts_with kv.1 prefix) (st_fallback s)))
  end.
End ShortTerm.

(** ** Long-term memory *)

Definition VECTOR_SIZE : nat := 1024.

Definition encode_key_for_payload (k : MemoryKey) : string :=
  match k with
  | KeyTask t key => "task:" +:+ t +:+ ":" +:+ key
  | KeyProject p key => "project:" +:+ p +:+ ":" +:+ key
  | KeyGlobal key => "global:" +:+ key
  end.

Definition decode_key_from_payload (encoded : string) : option MemoryKey :=
  match of_chars <$> splitn_colon 3 (chars encoded) with
  | [scope; a; b] =>
      if scope ==? "task" then Some (KeyTask a b)
      else if scope ==? "project" then Some (KeyProject a b) else None
  | [scope; a] => if scope ==? "global" then Some (KeyGlobal a) else None
  | _ => None
  end.

Definition scope_of_key (k : MemoryKey) : string :=
  match k with
  | KeyTask t _ => "task:" +:+ t
  | KeyProject p _ => "project:" +:+ p
  | KeyGlobal _ => "global"
  end.

Definition matches_scope (k : MemoryKey) (scope : MemorySearchScope) : bool :=
  match scope, k with
  | ScopeProject p, KeyProject pid _ => pid ==? p
  | ScopeGlobal, KeyGlobal _ => true
  | ScopeAll, _ => true
  | _, _ => false
  end.

Definition vector_norm (v : list f32) : f32 := f32_sqrt (f32_sum ((λ x, f32_mul x x) <$> v)).

Definition cosine_similarity (a b : list f32) (a_norm : f32) : f32 :=
  if negb (bool_decide (length a = length b)) || SFeqb a_norm f32_zero then f32_zero
  else
    let b_norm := vector_norm b in
    if SFeqb b_norm f32_zero then f32_zero
    else f32_div (f32_sum (zip_with f32_mul a b)) (f32_mul a_norm b_norm).

(** *** The payload of a point *)

(** A value of Qdrant. *)
Inductive QValue : Type :=
| QString (s : string)
| QDouble (d : f64)
| QInteger (i : Z)
| QList (l : list QValue)
| QOther.

Definition as_string (v : QValue) : option string := match v with QString s => Some s | _ => None end.
Definition as_list (v : QValue) : option (list QValue) := match v with QList l => Some l | _ => None end.

(** The JSON of a content, and the double of an integer value. *)
Class ContentJson := {
  content_text : MemoryContent → result string string;
  content_of_text : string → option MemoryContent;
  integer_as_f64 : Z → f64
}.
Class ContentJsonOk `{ContentJson} : Prop := {
  content_back : ∀ c, ∃ s, content_text c = Ok s ∧ content_of_text s = Some c
}.

(** Text of a time, and its parsing. *)
Class Rfc3339 := { rfc3339_text : Instant → string; rfc3339_parse : string → option Instant }.
Class Rfc3339Ok `{Rfc3339} : Prop := { rfc3339_back : ∀ t, rfc3339_parse (rfc3339_text t) = Some t }.

Section Payload.
Context `{ContentJson, Rfc3339}.

Definition as_double (v : QValue) : option f64 :=
  match v with QDouble d => Some d | QInteger i => Some (integer_as_f64 i) | _ => None end.

Definition entry_to_payload (e : MemoryEntry) : gmap string QValue :=
  <["entry_id"%string := QString (mem_id e)]>
  (<["updated_at"%string := QString (rfc3339_text (mem_updated_at e))]>
  (<["created_at"%string := QString (rfc3339_text (mem_created_at e))]>
  (<["tags"%string := QList (QString <$> mem_tags (mem_metadata e))]>
  (<["importance"%string := QDouble (f32_as_f64 (importance (mem_metadata e)))]>
  (<["source_agent"%string := QString (source_agent (mem_metadata e))]>
  (<["content"%string := QString (match content_text (mem_content e) with Ok s => s | Err _ => ""%string end)]>
  (<["scope"%string := QString (scope_of_key (mem_key e))]>
  {["key"%string := QString (encode_key_for_payload (mem_key e))]}))))))).

(** [payload.get(key).and_then(as_string).and_then(f)]. *)
Definition string_field {A} (f : string → option A) (p : gmap string QValue) (key : string) : option A :=
  match p !! key with Some (QString s) => f s | _ => None end.

(** [fresh] and [now] stand in for an id and a time the payload does not have. *)
Definition payload_to_entry (fresh : string) (now : Instant) (p : gmap string QValue) : option MemoryEntry :=
  match string_field decode_key_from_payload p "key", string_field content_of_text p "content",
        string_field Some p "source_agent" with
  | Some key, Some content, Some agent =>
      let imp := match p !! "importance"%string with
                 | Some v => match as_double v with Some d => f64_as_f32 d | None => f32_zero end
                 | None => f32_zero
                 end in
      let tags := match p !! "tags"%string with
                  | Some v => match as_list v with Some l => omap as_string l | None => [] end
                  | None => []
                  end in
      let created := default now (string_field rfc3339_parse p "created_at") in
      let updated := default now (string_field rfc3339_parse p "updated_at") in
      let id := default fresh (string_field Some p "entry_id") in
      Some (mkEntry id key content (mkMetadata agent imp tags None) created updated
              (version_from_timestamp updated))
  | _, _, _ => None
  end.
End Payload.

(** *** The store *)

(** Qdrant: points of a vector and a payload under a numeric id; a search with an optional
    exact filter on a field answers points with their scores. *)
Class VectorDb (Q : Type) := {
  q_upsert : Q → Z → list f32 → gmap string QValue → result unit string * Q;
  q_delete : Q → string → QValue → result unit string * Q;
  q_search : Q → list f32 → Z → f32 → option (string * QValue) → result (list (gmap string QValue * f32)) string
}.

(** The first eight bytes of BLAKE3. *)
Class Blake3 := { blake3_u64 : string → Z }.

Record FallbackEntry : Type := mkFallback { fb_id : string; fb_vector : list f32; fb_entry : MemoryEntry }.

Record LongTermMemory (Q : Type) : Type := mkLongTerm {
  lt_client : option Q;
  lt_fallback : list FallbackEntry
}.
Arguments mkLongTerm {Q} _ _.
Arguments lt_client {Q} _.
Arguments lt_fallback {Q} _.

Definition scope_to_filter (scope : MemorySearchScope) : option (string * QValue) :=
  match scope with
  | ScopeProject p => Some ("scope"%string, QString ("project:" +:+ p))
  | ScopeGlobal => Some ("scope"%string, QString "global")
  | ScopeAll => None
  end.

(** The order of [sort_by]: [b.score.partial_cmp(&a.score)], equal when there is none. *)
Definition score_order (a b : MemorySearchResult) : bool := negb (SFltb (found_score a) (found_score b)).

(** The linear scan. *)
Definition scan_fallback (query : list f32) (scope : MemorySearchScope) (max_results : Z) (min_score : f32)
    (l : list FallbackEntry) : list MemorySearchResult :=
  let query_norm := vector_norm query in
  let scored := omap (λ f, let score := cosine_similarity query (fb_vector f) query_norm in
                           if SFleb min_score score then Some (mkMemoryResult (fb_entry f) score) else None)
                  (filterb (λ f, matches_scope (mem_key (fb_entry f)) scope) l) in
  take (Z.to_nat max_results) (sort_by score_order scored).

Section LongTerm.
Context {Q : Type} `{VectorDb Q, ContentJson, Rfc3339, Blake3}.
Notation LongTerm := (LongTermMemory Q).

Definition LongTerm_new_fallback : LongTerm := mkLongTerm None [].
Definition LongTerm_is_connected (l : LongTerm) : bool := bool_decide (is_Some (lt_client l)).

Definition entry_id_to_point_id (id : string) : Z := blake3_u64 id.

Definition LongTerm_write (l : LongTerm) (e : MemoryEntry) : result unit EngineError * LongTerm :=
  let vector := default (replicate VECTOR_SIZE f32_zero) (embedding (mem_metadata e)) in
  match lt_client l with
  | Some q =>
      let '(r, q) := q_upsert q (entry_id_to_point_id (mem_id e)) vector (entry_to_payload e) in
      (map_err (λ d, MemoryWriteError ("Qdrant upsert error: " +:+ d)) r, mkLongTerm (Some q) (lt_fallback l))
  | None =>
      (Ok tt, mkLongTerm None (filterb (λ f, fb_id f !=? mem_id e) (lt_fallback l)
                                 ++ [mkFallback (mem_id e) vector e]))
  end.

Definition LongTerm_delete (l : LongTerm) (key : MemoryKey) : result unit EngineError * LongTerm :=
  let key_str := encode_key_for_payload key in
  match lt_client l with
  | Some q =>
      let '(r, q) := q_delete q "key" (QString key_str) in
      (map_err (λ d, MemoryWriteError ("Qdrant delete error: " +:+ d)) r, mkLongTerm (Some q) (lt_fallback l))
  | None =>
      (Ok tt, mkLongTerm None (filterb (λ f, encode_key_for_payload (mem_key (fb_entry f)) !=? key_str) (lt_fallback l)))
  end.

Definition LongTerm_search (fresh : string) (now : Instant) (l : LongTerm) (query : list f32)
    (scope : MemorySearchScope) (max_results : Z) (min_score : f32)
    : result (list MemorySearchResult) EngineError :=
  match lt_client l with
  | Some q =>
      match q_search q query max_results min_score (scope_to_filter scope) with
      | Err d => Err (MemoryReadError ("Qdrant search error: " +:+ d))
      | Ok points =>
          Ok (omap (λ p, (λ e, mkMemoryResult e p.2) <$> payload_to_entry fresh now p.1) points)
      end
  | None => Ok (scan_fallback query scope max_results min_score (lt_fallback l))
  end.
End LongTerm.

(** ** The layered store (mod.rs) *)

Record MemoryConfig : Type := mkMemoryConfig {
  long_term_importance_threshold : f32;
  task_ttl_seconds : Z;
  max_search_results : Z;
  min_search_score : f32
}.
(** 0.7 and 0.5 in binary32. *)
Definition MemoryConfig_default : MemoryConfig :=
  mkMemoryConfig (S754_finite false 11744051 (-24)) 3600 20 (S754_finite false 8388608 (-24)).

Record MemoryStore (KV Q : Type) : Type := mkMemoryStore {
  short_term : ShortTermMemory KV;
  long_term : LongTermMemory Q;
  mem_config : MemoryConfig
}.
Arguments mkMemoryStore {KV Q} _ _ _.
Arguments short_term {KV Q} _.
Arguments long_term {KV Q} _.
Arguments mem_config {KV Q} _.

Definition key_to_query_text (k : MemoryKey) : string :=
  match k with KeyTask _ key | KeyProject _ key | KeyGlobal key => key end.
Definition key_to_search_scope (k : MemoryKey) : MemorySearchScope :=
  match k with
  | KeyProject p _ => ScopeProject p
  | KeyGlobal _ => ScopeGlobal
  | KeyTask _ _ => ScopeAll
  end.

(** [Value]'s [Display], its JSON text. *)
Class ValueText := { value_text : JsonValue → string }.
Definition content_to_text `{ValueText} (c : MemoryContent) : string :=
  match c with
  | Text t => t
  | Structured v => value_text v
  | Code _ code => code
  | Diff _ diff => diff
  | Reference _ description => description
  end.

Section Layered.
Context {KV Bytes Q : Type} `{RawKv KV Bytes, StoredJson Bytes, VectorDb Q, ContentJson, Rfc3339, Blake3, ValueText}.
Context (embed : string → result (list f32) EngineError).
Notation MemoryStore := (MemoryStore KV Q).
Implicit Types m : MemoryStore.

Definition memory_read (fresh : string) (now : Instant) (m : MemoryStore) (r : MemoryReadRequest)
    : result (option MemoryEntry) EngineError :=
  let? found := ShortTerm_read (short_term m) (mr_key r) in
  match found with
  | Some e => Ok (Some e)
  | None =>
      if include_semantic r then
        match embed (key_to_query_text (mr_key r)) with
        | Err _ => Ok None
        | Ok query =>
            let? results := LongTerm_search fresh now (long_term m) query (key_to_search_scope (mr_key r)) 1
                              (min_search_score (mem_config m)) in
            Ok (found_entry <$> head results)
        end
      else Ok None
  end.

Definition set_embedding (e : MemoryEntry) (v : list f32) : MemoryEntry :=
  let d := mem_metadata e in
  mkEntry (mem_id e) (mem_key e) (mem_content e)
    (mkMetadata (source_agent d) (importance d) (mem_tags d) (Some v)) (mem_created_at e) (mem_updated_at e)
    (mem_version e).

Definition requested_entry (fresh : string) (now : Instant) (r : MemoryWriteRequest) : MemoryEntry :=
  mkEntry fresh (mw_key r) (mw_content r) (mw_metadata r) now now (default (version_from_timestamp now) (mw_version r)).

(** An important entry goes to long-term memory too, with its embedding where there is one;
    a failure there is only logged. *)
Definition write_long_term (m : MemoryStore) (e : MemoryEntry) : MemoryEntry * MemoryStore :=
  if SFleb (long_term_importance_threshold (mem_config m)) (importance (mem_metadata e)) then
    let e := match embedding (mem_metadata e) with
             | Some _ => e
             | None => match embed (content_to_text (mem_content e)) with Ok v => set_embedding e v | Err _ => e end
             end in
    let '(_, lt) := LongTerm_write (long_term m) e in
    (e, mkMemoryStore (short_term m) lt (mem_config m))
  else (e, m).

Definition memory_write (fresh : string) (now : Instant) (m : MemoryStore) (r : MemoryWriteRequest)
    : result MemoryEntry EngineError * MemoryStore :=
  let e := requested_entry fresh now r in
  match ShortTerm_write (short_term m) e with
  | (Err d, st) => (Err d, mkMemoryStore st (long_term m) (mem_config m))
  | (Ok _, st) =>
      let '(e, m) := write_long_term (mkMemoryStore st (long_term m) (mem_config m)) e in (Ok e, m)
  end.

Definition pending_version (now : Instant) (r : MemoryWriteRequest) : Z :=
  default (version_from_timestamp now) (mw_version r).

(** What a replay decides on the entry it read. *)
Definition replay_stale (now : Instant) (r : MemoryWriteRequest) (stored : option MemoryEntry)
    : option MemoryEntry :=
  e ← stored; if pending_version now r <? mem_version e then Some e else None.

Definition replay_request (now : Instant) (r : MemoryWriteRequest) : MemoryWriteRequest :=
  mkMemoryWrite (mw_key r) (mw_content r) (mw_metadata r) (Some (pending_version now r)).

(** Under the lock of its key. *)
Definition replay_write (fresh : string) (now : Instant) (m : MemoryStore) (r : MemoryWriteRequest)
    : result MemoryReplayResult EngineError * MemoryStore :=
  match ShortTerm_read (short_term m) (mw_key r) with
  | Err d => (Err d, m)
  | Ok stored =>
      match replay_stale now r stored with
      | Some existing => (Ok (mkReplayResult existing false), m)
      | None =>
          let '(w, m) := memory_write fresh now m (replay_request now r) in
          (map_ok (λ e, mkReplayResult e true) w, m)
      end
  end.

Definition memory_delete (m : MemoryStore) (key : MemoryKey) : result unit EngineError * MemoryStore :=
  match ShortTerm_delete (short_term m) key with
  | (Err d, st) => (Err d, mkMemoryStore st (long_term m) (mem_config m))
  | (Ok _, st) => (Ok tt, mkMemoryStore st (LongTerm_delete (long_term m) key).2 (mem_config m))
  end.

Definition search_limit (m : MemoryStore) (max_results : Z) : Z :=
  if 0 <? max_results then Z.min max_results (max_search_results (mem_config m))
  else max_search_results (mem_config m).
Definition search_floor (m : MemoryStore) (min_score : f32) : f32 :=
  if SFltb f32_zero min_score then min_score else min_search_score (mem_config m).

Definition search_with_embedding (fresh : string) (now : Instant) (m : MemoryStore) (query : list f32)
    (scope : MemorySearchScope) (max_results : Z) (min_score : f32)
    : result (list MemorySearchResult) EngineError :=
  LongTerm_search fresh now (long_term m) query scope (search_limit m max_results) (search_floor m min_score).

Definition memory_search (fresh : string) (now : Instant) (m : MemoryStore) (r : MemorySearchRequest)
    : result (list MemorySearchResult) EngineError :=
  match embed (ms_query r) with
  | Err _ => Ok []
  | Ok query => search_with_embedding fresh now m query (ms_scope r) (ms_max_results r) (ms_min_score r)
  end.

Definition memory_list_keys (m : MemoryStore) (key : MemoryKey) : result (list MemoryKey) EngineError :=
  ShortTerm_list_keys (short_term m) (scope_prefix key).

(** [batch_write_memory] of local.rs: up to the first error. *)
Fixpoint batch_write (fresh : nat → string) (now : Instant) (m : MemoryStore) (l : list MemoryWriteRequest)
    : result (list MemoryEntry) EngineError * MemoryStore :=
  match l with
  | [] => (Ok [], m)
  | r :: l =>
      match memory_write (fresh 0%nat) now m r with
      | (Err d, m) => (Err d, m)
      | (Ok e, m) =>
          let '(es, m) := batch_write (λ n, fresh (Datatypes.S n)) now m l in (map_ok (cons e) es, m)
      end
  end.

Record ComponentHealth : Type := mkHealth { ch_name : string; ch_status : string; ch_details : option string }.
Definition memory_health (m : MemoryStore) : list ComponentHealth :=
  let st := short_term m in
  let connected := ShortTerm_is_connected st in
  [mkHealth "short_term_memory" (if connected || intentional_memory st then "ok" else "fallback")
     (Some (if connected then "TiKV connected"
            else if intentional_memory st then "In-memory (explicitly configured via UC_SHORT_TERM_BACKEND=memory)"
            else "Using in-memory fallback")%string);
   mkHealth "long_term_memory" (if LongTerm_is_connected (long_term m) then "ok" else "fallback")
     (Some (if LongTerm_is_connected (long_term m) then "Qdrant connected" else "Using in-memory fallback")%string)].
End Layered.
