(* ===== verification/MemoryProps.v ===== *)
(** * Properties of the memory

    Keys and their encodings, the short-term store as a map whichever backend it has, the
    search of the fallback, the payload of a point, and the reconciliation of replayed
    writes: a reference function ([lww_put]) that the replays refine, their convergence, and
    the machine of replays that wait for the lock of their key. *)

From Stdlib Require Import String Ascii SpecFloat.
From stdpp Require Import gmap strings pretty.
From S2P Require Import Prelude RustStr Mandate Task Graph Ranking Memory.

(** ** Keys *)

Definition no_colon (s : string) : Prop := ":"%char ∉ chars s.

Lemma cut_colon_app a b : ":"%char ∉ a → cut_colon (a ++ ":"%char :: b) = Some (a, b).
Proof.
  induction a as [|c a IH]; intros Hno; [done|]. apply not_elem_of_cons in Hno as [Hc Ha].
  cbn. rewrite bool_decide_eq_false_2 by done. by rewrite IH.
Qed.

Lemma cut_colon_none a : ":"%char ∉ a → cut_colon a = None.
Proof.
  induction a as [|c a IH]; intros Hno; [done|]. apply not_elem_of_cons in Hno as [Hc Ha].
  cbn. rewrite bool_decide_eq_false_2 by done. by rewrite IH.
Qed.

Lemma cut_colon_some a : ":"%char ∈ a → is_Some (cut_colon a).
Proof.
  induction a as [|c a IH]; intros Hin; [by apply elem_of_nil in Hin|]. cbn. case_bool_decide; [done|].
  destruct IH as [[x y] ->]; [set_solver|done].
Qed.

Lemma splitn_app n a b :
  ":"%char ∉ a → splitn_colon (Datatypes.S (Datatypes.S n)) (a ++ ":"%char :: b) = a :: splitn_colon (Datatypes.S n) b.
Proof. intros Ha. cbn -[cut_colon]. by rewrite cut_colon_app. Qed.

Lemma splitn_none n a : ":"%char ∉ a → splitn_colon (Datatypes.S n) a = [a].
Proof. intros Ha. cbn -[cut_colon]. destruct n; [done|]. by rewrite cut_colon_none. Qed.

(** The keys the encodings can tell apart. *)
Definition plain_key (k : MemoryKey) : Prop :=
  match k with
  | KeyTask scope _ | KeyProject scope _ => no_colon scope
  | KeyGlobal key => no_colon key
  end.

Ltac no_colon_literal := refine (bool_decide_unpack _ _); vm_compute; exact I.

Lemma cut_colon_inv l a b : cut_colon l = Some (a, b) → ":"%char ∉ a ∧ l = a ++ ":"%char :: b.
Proof.
  revert a. induction l as [|c l IH]; intros a; [done|]. cbn. case_bool_decide as Hc.
  - intros [= <- <-]. subst. split; [apply not_elem_of_nil|done].
  - destruct (cut_colon l) as [[x y]|]; [|done]. cbn. intros [= <- <-]. destruct (IH x eq_refl) as [Hx ->].
    split; [by apply not_elem_of_cons|done].
Qed.

(** Two pieces, or one when there is no colon. *)
Lemma splitn_two l :
  match cut_colon l with
  | Some (a, b) => splitn_colon 2 l = [a; b]
  | None => splitn_colon 2 l = [l]
  end.
Proof. cbn -[cut_colon]. by destruct (cut_colon l) as [[a b]|]. Qed.

Lemma decode_scoped scope rest :
  no_colon scope →
  decode_key ("memory:" +:+ scope +:+ ":" +:+ rest) =
  match cut_colon (chars rest) with
  | Some (a, b) =>
      if scope ==? "task" then Some (KeyTask (of_chars a) (of_chars b))
      else if scope ==? "project" then Some (KeyProject (of_chars a) (of_chars b)) else None
  | None => if scope ==? "global" then Some (KeyGlobal rest) else None
  end.
Proof.
  intros Hs. unfold decode_key.
  change ("memory:" +:+ scope +:+ ":" +:+ rest) with ("memory" +:+ ":" +:+ scope +:+ ":" +:+ rest).
  rewrite !chars_app. change (chars ":") with [":"%char]. cbn [app].
  rewrite (splitn_app 2 (chars "memory")) by no_colon_literal. rewrite (splitn_app 1) by exact Hs.
  pose proof (splitn_two (chars rest)) as H2.
  destruct (cut_colon (chars rest)) as [[a b]|]; rewrite H2; csimpl; rewrite ?of_chars_chars; done.
Qed.

(** The key of a short-term entry is read back exactly when it is plain: when the task
    or project of the key, or the whole of a global key, has no colon. *)
Theorem key_reads_back k : decode_key (encode_key k) = Some k ↔ plain_key k.
Proof.
  destruct k as [t key|p key|key]; cbn [encode_key plain_key].
  1: change ("memory:task:" +:+ t +:+ ":" +:+ key) with ("memory:" +:+ "task" +:+ ":" +:+ (t +:+ ":" +:+ key)).
  2: change ("memory:project:" +:+ p +:+ ":" +:+ key) with ("memory:" +:+ "project" +:+ ":" +:+ (p +:+ ":" +:+ key)).
  3: change ("memory:global:" +:+ key) with ("memory:" +:+ "global" +:+ ":" +:+ key).
  all: rewrite decode_scoped by no_colon_literal.
  1,2: rewrite !chars_app; change (chars ":") with [":"%char]; cbn [app]; unfold no_colon; split;
    [destruct (cut_colon _) as [[a b]|] eqn:E; [|done]; apply cut_colon_inv in E as [Ha _]; cbn;
     intros [= <- _]; by rewrite chars_of_chars
    |intros Hn; rewrite cut_colon_app by done; cbn; by rewrite !of_chars_chars].
  unfold no_colon. split.
  - destruct (cut_colon _) as [[a b]|] eqn:E; [done|]. intros _ Hin. apply cut_colon_some in Hin as [? Hin]. congruence.
  - intros Hn. by rewrite cut_colon_none.
Qed.

(** ** Short-term memory is a map *)

Section ShortTermMap.
Context {KV Bytes : Type} `{RawKvOk KV Bytes, StoredJsonOk Bytes}.
Notation ShortTerm := (ShortTermMemory KV).
Implicit Types s : ShortTerm.

Definition stored_at (b : Bytes) : option StoredEntry :=
  match stored_of_bytes b with Ok s => Some s | Err _ => None end.

(** The entries of a store, under their encoded keys. *)
Definition short_view s : gmap string StoredEntry :=
  match st_client s with
  | Some kv => omap stored_at (kv_contents kv)
  | None => list_to_map (st_fallback s)
  end.

(** The client answers, and its bytes are entries. *)
Definition short_ok s : Prop :=
  match st_client s with
  | Some kv => kv_up kv ∧ map_Forall (λ _ b, is_Some (stored_at b)) (kv_contents kv)
  | None => True
  end.

Lemma find_list_to_map (k : string) (l : list (string * StoredEntry)) :
  snd <$> find (λ kv, kv.1 ==? k) l = (list_to_map l : gmap string StoredEntry) !! k.
Proof.
  induction l as [|[k' v] l IH]; [done|]. cbn [find fst list_to_map foldr].
  destruct (bool_decide_reflect (k' = k)) as [->|Hne]; cbn; [by rewrite lookup_insert_eq|].
  by rewrite lookup_insert_ne.
Qed.

Lemma replace_first_map (k : string) v (l : list (string * StoredEntry)) :
  (list_to_map (default (l ++ [(k, v)]) (replace_first k v l)) : gmap string StoredEntry) = <[k := v]> (list_to_map l).
Proof.
  assert (match replace_first k v l with
          | Some l' => (list_to_map l' : gmap string StoredEntry) = <[k := v]> (list_to_map l)
          | None => (list_to_map l : gmap string StoredEntry) !! k = None
          end) as Hr.
  { induction l as [|[k' v'] l IH]; [done|]. cbn. destruct (bool_decide_reflect (k' = k)) as [->|Hne]; cbn.
    - by rewrite insert_insert_eq.
    - destruct (replace_first k v l) as [l'|]; cbn.
      + rewrite IH. by rewrite insert_insert_ne.
      + by rewrite lookup_insert_ne. }
  destruct (replace_first k v l) as [l'|]; cbn; [done|].
  rewrite list_to_map_app. cbn. apply map_eq. intros i. rewrite lookup_union.
  destruct (decide (i = k)) as [->|Hne]; [by rewrite Hr, !lookup_insert_eq|].
  rewrite !lookup_insert_ne, lookup_empty by done. by destruct (_ !! i).
Qed.

Lemma filterb_map (k : string) (l : list (string * StoredEntry)) :
  (list_to_map (filterb (λ kv, kv.1 !=? k) l) : gmap string StoredEntry) = delete k (list_to_map l).
Proof.
  unfold filterb. induction l as [|[k' v] l IH]; cbn; [by rewrite delete_empty|].
  destruct (bool_decide_reflect (k' = k)) as [->|Hne]; cbn; rewrite IH.
  - by rewrite delete_insert_eq.
  - by rewrite delete_insert_ne.
Qed.

(** The short-term store refines a map.  With TiKV or on its own list, reading a key is
    looking it up, writing an entry puts it under its key, deleting a key removes it, and
    none of them fails or changes anything else. *)
Theorem short_term_is_map s :
  short_ok s →
  (∀ key, ShortTerm_read s key = Ok ((λ v, StoredEntry_to_entry v key) <$> short_view s !! encode_key key)) ∧
  (∀ e, ∃ s', ShortTerm_write s e = (Ok tt, s') ∧ short_ok s' ∧
     short_view s' = <[encode_key (mem_key e) := StoredEntry_from_entry e]> (short_view s)) ∧
  (∀ key, ∃ s', ShortTerm_delete s key = (Ok tt, s') ∧ short_ok s' ∧
     short_view s' = delete (encode_key key) (short_view s)).
Proof.
  unfold short_ok, short_view, ShortTerm_read, ShortTerm_write, ShortTerm_delete.
  destruct (st_client s) as [kv|] eqn:Ec.
  - intros [Hup Hall]. split_and!.
    + intros key. rewrite kv_get_ok, lookup_omap by done. destruct (kv_contents kv !! encode_key key) as [b|] eqn:Eb; [|done].
      apply Hall in Eb as [x Hx]. cbn. rewrite Hx. unfold stored_at in Hx.
      destruct (stored_of_bytes b); [by injection Hx as ->|done].
    + intros e. destruct (stored_back (StoredEntry_from_entry e)) as (b & -> & Hb).
      destruct (kv_put_ok kv (encode_key (mem_key e)) b Hup) as (kv' & -> & Hup' & Hc'). eexists. split; [done|].
      assert (stored_at b = Some (StoredEntry_from_entry e)) as Hs by (unfold stored_at; by rewrite Hb).
      cbn. rewrite Hc'. split; [split; [done|]|].
      * apply map_Forall_insert_2; [by rewrite Hs|done].
      * by rewrite (omap_insert_Some _ _ _ _ _ Hs).
    + intros key. destruct (kv_delete_ok kv (encode_key key) Hup) as (kv' & -> & Hup' & Hc'). eexists. split; [done|].
      cbn. rewrite Hc'. split; [split; [done|by apply map_Forall_delete]|]. by rewrite omap_delete.
  - intros _. split_and!.
    + intros key. rewrite <-find_list_to_map. by destruct (find _ _).
    + intros e. destruct (stored_back (StoredEntry_from_entry e)) as (b & -> & _). eexists. split; [done|].
      cbn. rewrite Ec. split; [done|]. apply replace_first_map.
    + intros key. eexists. split; [done|]. cbn. rewrite Ec. split; [done|]. apply filterb_map.
Qed.
End ShortTermMap.

(** ** Replayed writes: last writer wins *)

Record replay_call : Type := mkReplayCall {
  rc_fresh : string;
  rc_now : Instant;
  rc_request : MemoryWriteRequest
}.
Definition rc_key (c : replay_call) : string := encode_key (mw_key (rc_request c)).
Definition rc_version (c : replay_call) : Z := pending_version (rc_now c) (rc_request c).
Definition rc_stored (c : replay_call) : StoredEntry :=
  StoredEntry_from_entry (requested_entry (rc_fresh c) (rc_now c) (replay_request (rc_now c) (rc_request c))).

(** The reference: an entry is replaced unless it is newer. *)
Definition lww_put (v : gmap string StoredEntry) (c : replay_call) : gmap string StoredEntry :=
  match v !! rc_key c with
  | Some e => if rc_version c <? se_version e then v else <[rc_key c := rc_stored c]> v
  | None => <[rc_key c := rc_stored c]> v
  end.

Lemma rc_stored_version c : se_version (rc_stored c) = rc_version c.
Proof. done. Qed.

Lemma lww_put_other v c k : k ≠ rc_key c → lww_put v c !! k = v !! k.
Proof. intros Hk. unfold lww_put. repeat case_match; rewrite ?lookup_insert_ne; done. Qed.

Lemma lww_put_key v c :
  lww_put v c !! rc_key c = match v !! rc_key c with
                            | Some e => if rc_version c <? se_version e then Some e else Some (rc_stored c)
                            | None => Some (rc_stored c)
                            end.
Proof. unfold lww_put. destruct (v !! rc_key c) eqn:E; repeat case_match; by rewrite ?lookup_insert_eq. Qed.

(** Two replays commute unless they compete with the same version. *)
Lemma lww_put_comm v c d :
  (rc_key c, rc_version c) ≠ (rc_key d, rc_version d) → lww_put (lww_put v c) d = lww_put (lww_put v d) c.
Proof.
  intros Hne. apply map_eq. intros k.
  destruct (decide (k = rc_key c)) as [Hc|Hc]; destruct (decide (k = rc_key d)) as [Hd|Hd].
  - assert (rc_version c ≠ rc_version d) as Hv by congruence.
    pose proof (lww_put_key v c) as Kc. pose proof (lww_put_key v d) as Kd.
    pose proof (lww_put_key (lww_put v c) d) as Kcd. pose proof (lww_put_key (lww_put v d) c) as Kdc.
    rewrite <-Hc, <-Hd in *. rewrite Kcd, Kdc, Kc, Kd.
    destruct (v !! k) as [e|]; repeat (case_match; simplify_eq); rewrite ?rc_stored_version in *; try done; lia.
  - rewrite (lww_put_other _ d) by done. subst k. rewrite !lww_put_key, lww_put_other by done. done.
  - rewrite (lww_put_other _ c k) by done. subst k. rewrite !lww_put_key, lww_put_other by done. done.
  - by rewrite !lww_put_other.
Qed.

Section Replay.
Context {KV Bytes Q : Type} `{RawKvOk KV Bytes, StoredJsonOk Bytes, VectorDb Q, ContentJson, Rfc3339, Blake3, ValueText}.
Context (embed : string → result (list f32) EngineError).
Implicit Types m : MemoryStore KV Q.

Definition mem_view m : gmap string StoredEntry := short_view (short_term m).
Definition mem_ok m : Prop := short_ok (short_term m).

Lemma long_term_leaves_short m e : short_term (write_long_term embed m e).2 = short_term m.
Proof. unfold write_long_term. destruct (SFleb _ _); [|done]. by destruct (LongTerm_write _ _). Qed.

Lemma memory_write_view fresh now m r :
  mem_ok m → ∃ e m', memory_write embed fresh now m r = (Ok e, m') ∧ mem_ok m' ∧
    mem_view m' = <[encode_key (mw_key r) := StoredEntry_from_entry (requested_entry fresh now r)]> (mem_view m).
Proof.
  intros Hok. destruct (short_term_is_map (short_term m) Hok) as (_ & Hw & _).
  destruct (Hw (requested_entry fresh now r)) as (st & Hst & Hok' & Hv). unfold memory_write. rewrite Hst.
  set (m1 := mkMemoryStore st (long_term m) (mem_config m)).
  destruct (write_long_term embed m1 _) as [e m'] eqn:E. eexists _, _. split; [done|].
  pose proof (long_term_leaves_short m1 (requested_entry fresh now r)) as Hs. rewrite E in Hs. cbn in Hs.
  unfold mem_ok, mem_view. by rewrite Hs.
Qed.

Definition run_replay m (c : replay_call) : result MemoryReplayResult EngineError * MemoryStore KV Q :=
  replay_write embed (rc_fresh c) (rc_now c) m (rc_request c).

(** A newer entry is there. *)
Definition overtaken (v : gmap string StoredEntry) (c : replay_call) : bool :=
  match v !! rc_key c with Some e => rc_version c <? se_version e | None => false end.

(** A replay is the reference, and says whether it was applied. *)
Lemma replay_refines m c :
  mem_ok m → ∃ r m', run_replay m c = (Ok r, m') ∧ mem_ok m' ∧ mem_view m' = lww_put (mem_view m) c ∧
    replay_applied r = negb (overtaken (mem_view m) c).
Proof.
  intros Hok. unfold run_replay, replay_write. destruct (short_term_is_map (short_term m) Hok) as (Hr & _ & _).
  rewrite Hr. cbn. change (short_view (short_term m) !! encode_key (mw_key (rc_request c))) with (mem_view m !! rc_key c).
  destruct (memory_write_view (rc_fresh c) (rc_now c) m (replay_request (rc_now c) (rc_request c)) Hok)
    as (e & m' & Hw & Hok' & Hv).
  unfold lww_put, overtaken. destruct (mem_view m !! rc_key c) as [x|] eqn:Ex; cbn.
  - change (pending_version (rc_now c) (rc_request c)) with (rc_version c).
    destruct (rc_version c <? se_version x) eqn:El; [by eexists _, _|].
    rewrite Hw. eexists _, _. by split_and!.
  - rewrite Hw. eexists _, _. by split_and!.
Qed.

Lemma lww_foldl_perm v l l' :
  l ≡ₚ l' → NoDup ((λ c, (rc_key c, rc_version c)) <$> l) → foldl lww_put v l = foldl lww_put v l'.
Proof.
  intros Hp. revert v. induction Hp as [|c l l' Hp IH|c d l|l1 l2 l3 Hp1 IH1 Hp2 IH2]; intros v Hnd; [done|..].
  - cbn. apply IH. by apply NoDup_cons in Hnd as [_ ?].
  - cbn. rewrite lww_put_comm; [done|]. intros Heq. csimpl in Hnd. apply NoDup_cons in Hnd as [Hin _].
    apply Hin. rewrite Heq. left.
  - rewrite IH1 by done. apply IH2. by rewrite <-Hp1.
Qed.

Fixpoint run_replays m (l : list replay_call) : MemoryStore KV Q :=
  match l with [] => m | c :: l => run_replays (run_replay m c).2 l end.

Lemma replays_refine m l :
  mem_ok m → mem_ok (run_replays m l) ∧ mem_view (run_replays m l) = foldl lww_put (mem_view m) l.
Proof.
  revert m. induction l as [|c l IH]; intros m Hok; [done|]. cbn.
  destruct (replay_refines m c Hok) as (r & m' & Hr & Hok' & Hv & _). rewrite Hr. cbn.
  destruct (IH m' Hok') as [? ->]. by rewrite Hv.
Qed.

Lemma foldl_newest v l k :
  (∀ e, v !! k = Some e → ∃ e', foldl lww_put v l !! k = Some e' ∧ se_version e <= se_version e') ∧
  ∀ c, c ∈ l → rc_key c = k → ∃ e', foldl lww_put v l !! k = Some e' ∧ rc_version c <= se_version e'.
Proof.
  revert v. induction l as [|c l IH]; intros v; cbn; [split; [intros e ->; eauto with lia|by intros c ?%elem_of_nil]|].
  destruct (IH (lww_put v c)) as [IH1 IH2]. split.
  - intros e He. destruct (decide (k = rc_key c)) as [->|Hk].
    + pose proof (lww_put_key v c) as K. rewrite He in K. destruct (rc_version c <? se_version e) eqn:El.
      * by apply IH1.
      * destruct (IH1 _ K) as (e' & He' & Hv). exists e'. split; [done|]. rewrite rc_stored_version in Hv. lia.
    + apply IH1. by rewrite lww_put_other.
  - intros d [->|Hd]%elem_of_cons Hk; [|by apply IH2]. subst k. pose proof (lww_put_key v c) as K.
    destruct (v !! rc_key c) as [e|]; [destruct (rc_version c <? se_version e) eqn:El|];
      destruct (IH1 _ K) as (e' & He' & Hv); exists e'; (split; [done|]); rewrite ?rc_stored_version in Hv; lia.
Qed.

(** Replayed writes converge.  Whatever the order in which the writes of a fallback
    window are replayed, the short-term memory ends up the same, provided no two of them
    compete for a key with the same version; under each key it holds an entry that is at
    least as new as every replay of the key and as what was there. *)
Theorem replays_converge m l l' :
  mem_ok m → l ≡ₚ l' → NoDup ((λ c, (rc_key c, rc_version c)) <$> l) →
  mem_view (run_replays m l) = mem_view (run_replays m l') ∧
  (∀ k e, mem_view m !! k = Some e →
     ∃ e', mem_view (run_replays m l) !! k = Some e' ∧ se_version e <= se_version e') ∧
  ∀ c, c ∈ l → ∃ e', mem_view (run_replays m l) !! rc_key c = Some e' ∧ rc_version c <= se_version e'.
Proof.
  intros Hok Hp Hnd. destruct (replays_refine m l Hok) as [_ Hv]. destruct (replays_refine m l' Hok) as [_ Hv'].
  rewrite Hv, Hv'. split_and!.
  - by apply lww_foldl_perm.
  - intros k e. by apply foldl_newest.
  - intros c Hc. by eapply foldl_newest.
Qed.

(** *** Replays that wait for each other *)

(** A call in flight: before the lock of its key, with it, with the entry it read, and a
    plain write, which takes no lock. *)
Inductive mem_thread : Type :=
| Waiting (c : replay_call)
| Locked (c : replay_call)
| Checked (c : replay_call) (stored : option MemoryEntry)
| Writing (c : replay_call)
| Finished.

Record mem_config_state : Type := mkMemState {
  ms_store : MemoryStore KV Q;
  ms_locks : gset string;
  ms_threads : list mem_thread;
  ms_order : list replay_call
}.

(** [ms_order] records the replays in the order in which they finished. *)
Inductive mem_step : mem_config_state → mem_config_state → Prop :=
| StepLock i c m locks ts o :
    ts !! i = Some (Waiting c) → rc_key c ∉ locks →
    mem_step (mkMemState m locks ts o) (mkMemState m ({[rc_key c]} ∪ locks) (<[i := Locked c]> ts) o)
| StepRead i c m locks ts o stored :
    ts !! i = Some (Locked c) → ShortTerm_read (short_term m) (mw_key (rc_request c)) = Ok stored →
    mem_step (mkMemState m locks ts o) (mkMemState m locks (<[i := Checked c stored]> ts) o)
| StepReadFails i c m locks ts o e :
    ts !! i = Some (Locked c) → ShortTerm_read (short_term m) (mw_key (rc_request c)) = Err e →
    mem_step (mkMemState m locks ts o) (mkMemState m (locks ∖ {[rc_key c]}) (<[i := Finished]> ts) o)
| StepSkip i c m locks ts o stored existing :
    ts !! i = Some (Checked c stored) → replay_stale (rc_now c) (rc_request c) stored = Some existing →
    mem_step (mkMemState m locks ts o) (mkMemState m (locks ∖ {[rc_key c]}) (<[i := Finished]> ts) (o ++ [c]))
| StepApply i c m locks ts o stored r m' :
    ts !! i = Some (Checked c stored) → replay_stale (rc_now c) (rc_request c) stored = None →
    memory_write embed (rc_fresh c) (rc_now c) m (replay_request (rc_now c) (rc_request c)) = (r, m') →
    mem_step (mkMemState m locks ts o) (mkMemState m' (locks ∖ {[rc_key c]}) (<[i := Finished]> ts) (o ++ [c]))
| StepWrite i c m locks ts o r m' :
    ts !! i = Some (Writing c) → memory_write embed (rc_fresh c) (rc_now c) m (rc_request c) = (r, m') →
    mem_step (mkMemState m locks ts o) (mkMemState m' locks (<[i := Finished]> ts) o).

(** The replay a thread has begun. *)
Definition inside (t : mem_thread) : option replay_call :=
  match t with Locked c | Checked c _ => Some c | _ => None end.

Definition mem_inv (m0 : MemoryStore KV Q) (s : mem_config_state) : Prop :=
  mem_ok (ms_store s) ∧ mem_view (ms_store s) = foldl lww_put (mem_view m0) (ms_order s) ∧
  (∀ i t c, ms_threads s !! i = Some t → inside t = Some c → rc_key c ∈ ms_locks s) ∧
  (∀ i j t u c d, ms_threads s !! i = Some t → ms_threads s !! j = Some u → inside t = Some c →
     inside u = Some d → rc_key c = rc_key d → i = j) ∧
  (∀ i c stored, ms_threads s !! i = Some (Checked c stored) →
     stored = (λ v, StoredEntry_to_entry v (mw_key (rc_request c))) <$> mem_view (ms_store s) !! rc_key c) ∧
  (∀ i c, ms_threads s !! i ≠ Some (Writing c)).

(** A thread that ends gives its key back, and the others keep theirs. *)
Lemma inv_release (m0 m' : MemoryStore KV Q) s i t c o' :
  mem_inv m0 s → ms_threads s !! i = Some t → inside t = Some c →
  mem_ok m' → mem_view m' = foldl lww_put (mem_view m0) o' →
  (∀ k, k ≠ rc_key c → mem_view m' !! k = mem_view (ms_store s) !! k) →
  mem_inv m0 (mkMemState m' (ms_locks s ∖ {[rc_key c]}) (<[i := Finished]> (ms_threads s)) o').
Proof.
  intros (Hok & Hv & Hl & Hx & Hs & Hw) Hi Hc Hok' Hv' Hk.
  assert (∀ j u, <[i := Finished]> (ms_threads s) !! j = Some u → u ≠ Finished → j ≠ i ∧ ms_threads s !! j = Some u) as Hj.
  { intros j u. rewrite list_lookup_insert_Some. intros [(-> & <- & _)|[? ?]] Hne; done. }
  assert (∀ j u d, ms_threads s !! j = Some u → inside u = Some d → j ≠ i → rc_key d ≠ rc_key c) as Hne.
  { intros j u d Hu Hd Hji Heq. apply Hji. by eapply (Hx j i u t d c). }
  split_and!; cbn; [done|done|..].
  - intros j u d Hu Hd. destruct (Hj j u Hu) as [Hji Hu']; [by intros ->|]. apply elem_of_difference.
    split; [by eapply Hl|]. rewrite elem_of_singleton. by eapply Hne.
  - intros j j' u u' d d' Hu Hu' Hd Hd'. destruct (Hj j u Hu) as [_ Hu1]; [by intros ->|].
    destruct (Hj j' u' Hu') as [_ Hu2]; [by intros ->|]. by eapply Hx.
  - intros j d stored Hu. destruct (Hj j _ Hu) as [Hji Hu']; [done|]. rewrite Hk; [by eapply Hs|].
    by eapply (Hne j (Checked d stored)).
  - intros j d Hu. destruct (Hj j _ Hu) as [_ Hu']; [done|]. by eapply Hw.
Qed.

(** A thread that goes on inside its replay. *)
Lemma inv_advance (m0 : MemoryStore KV Q) s i t u c :
  mem_inv m0 s → ms_threads s !! i = Some t → inside t = Some c → inside u = Some c →
  (∀ stored, u = Checked c stored →
     stored = (λ v, StoredEntry_to_entry v (mw_key (rc_request c))) <$> mem_view (ms_store s) !! rc_key c) →
  mem_inv m0 (mkMemState (ms_store s) (ms_locks s) (<[i := u]> (ms_threads s)) (ms_order s)).
Proof.
  intros (Hok & Hv & Hl & Hx & Hs & Hw) Hi Ht Hu Hread.
  assert (∀ j w d, <[i := u]> (ms_threads s) !! j = Some w → inside w = Some d →
    ∃ w', ms_threads s !! j = Some w' ∧ inside w' = Some d) as Hj.
  { intros j w d. rewrite list_lookup_insert_Some. intros [(-> & <- & _)|[_ Hw']] Hd; [|by eexists].
    exists t. split; [done|congruence]. }
  split_and!; cbn; [done|done|..].
  - intros j w d Hj' Hd. destruct (Hj j w d Hj' Hd) as (w' & H1' & H2'). by eapply Hl.
  - intros j j' w w' d d' Hw1 Hw2 Hd1 Hd2. destruct (Hj _ _ _ Hw1 Hd1) as (? & ? & ?).
    destruct (Hj _ _ _ Hw2 Hd2) as (? & ? & ?). by eapply Hx.
  - intros j d stored. rewrite list_lookup_insert_Some. intros [(-> & -> & _)|[_ Hj']]; [|by eapply Hs].
    cbn in Hu. injection Hu as ->. by apply Hread.
  - intros j d. rewrite list_lookup_insert_Some. intros [(-> & -> & _)|[_ Hj']]; [done|by eapply Hw].
Qed.

(** A thread that takes a free lock. *)
Lemma inv_lock (m0 : MemoryStore KV Q) s i c :
  mem_inv m0 s → ms_threads s !! i = Some (Waiting c) → rc_key c ∉ ms_locks s →
  mem_inv m0 (mkMemState (ms_store s) ({[rc_key c]} ∪ ms_locks s) (<[i := Locked c]> (ms_threads s)) (ms_order s)).
Proof.
  intros (Hok & Hv & Hl & Hx & Hs & Hw) Hi Hfree.
  assert (<[i := Locked c]> (ms_threads s) !! i = Some (Locked c)) as Hnew
    by (apply list_lookup_insert_eq; by eapply lookup_lt_Some).
  assert (∀ j w d, <[i := Locked c]> (ms_threads s) !! j = Some w → inside w = Some d → j ≠ i → rc_key d ∈ ms_locks s) as Hold.
  { intros j w d. rewrite list_lookup_insert_Some. intros [(-> & _)|[_ Hj]] Hd Hji; [done|by eapply Hl]. }
  split_and!; cbn; [done|done|..].
  - intros j w d Hj Hd. destruct (decide (j = i)) as [->|Hji]; [|apply elem_of_union_r; by eapply Hold].
    rewrite Hnew in Hj. injection Hj as <-. cbn in Hd. injection Hd as ->. set_solver.
  - intros j j' w w' d d' Hj Hj' Hd Hd' Heq. destruct (decide (j = i)) as [->|Hji], (decide (j' = i)) as [->|Hji']; [done|..].
    + rewrite Hnew in Hj. injection Hj as <-. cbn in Hd. injection Hd as <-. destruct Hfree. rewrite Heq. by eapply Hold.
    + rewrite Hnew in Hj'. injection Hj' as <-. cbn in Hd'. injection Hd' as <-. destruct Hfree. rewrite <-Heq. by eapply Hold.
    + rewrite list_lookup_insert_ne in Hj, Hj' by done. by eapply Hx.
  - intros j d stored. rewrite list_lookup_insert_Some. intros [(_ & ? & _)|[_ Hj]]; [done|by eapply Hs].
  - intros j d. rewrite list_lookup_insert_Some. intros [(_ & ? & _)|[_ Hj]]; [done|by eapply Hw].
Qed.

(** What a replay decides on the entry it read is what the reference decides. *)
Lemma stale_is_lww c v stored :
  stored = (λ x, StoredEntry_to_entry x (mw_key (rc_request c))) <$> v !! rc_key c →
  lww_put v c = match replay_stale (rc_now c) (rc_request c) stored with
                | Some _ => v
                | None => <[rc_key c := rc_stored c]> v
                end.
Proof.
  intros ->. unfold lww_put. destruct (v !! rc_key c) as [x|]; [|done]. cbn.
  change (pending_version (rc_now c) (rc_request c)) with (rc_version c). by destruct (rc_version c <? se_version x).
Qed.

Lemma mem_step_inv m0 s s' : mem_step s s' → mem_inv m0 s → mem_inv m0 s'.
Proof.
  intros Hstep Hinv. pose proof Hinv as (Hok & Hv & Hl & Hx & Hs & Hw).
  destruct Hstep as [i c m locks ts o Hi Hfree|i c m locks ts o stored Hi Hr|i c m locks ts o e Hi Hr
    |i c m locks ts o stored existing Hi Hst|i c m locks ts o stored r m' Hi Hst Hwr|i c m locks ts o r m' Hi Hwr];
    cbn in *.
  - by apply (inv_lock m0 (mkMemState m locks ts o)).
  - apply (inv_advance m0 (mkMemState m locks ts o) i (Locked c) (Checked c stored) c Hinv Hi); [done..|].
    intros x [= <-]. destruct (short_term_is_map (short_term m) Hok) as (Hread & _). cbn.
    rewrite Hread in Hr. by injection Hr as <-.
  - destruct (short_term_is_map (short_term m) Hok) as (Hread & _). by rewrite Hread in Hr.
  - pose proof (stale_is_lww c _ _ (Hs i c stored Hi)) as Hput. rewrite Hst in Hput.
    apply (inv_release m0 m (mkMemState m locks ts o) i (Checked c stored)); [done..| |done].
    rewrite foldl_app. cbn. by rewrite <-Hv, Hput.
  - destruct (memory_write_view (rc_fresh c) (rc_now c) m (replay_request (rc_now c) (rc_request c)) Hok)
      as (e & m1 & Hw1 & Hok1 & Hv1). rewrite Hwr in Hw1. injection Hw1 as -> <-.
    pose proof (stale_is_lww c _ _ (Hs i c stored Hi)) as Hput. rewrite Hst in Hput.
    assert (mem_view m' = lww_put (mem_view m) c) as Hp by (by rewrite Hput, Hv1).
    apply (inv_release m0 m' (mkMemState m locks ts o) i (Checked c stored)); [done..| |].
    + rewrite foldl_app. cbn. by rewrite <-Hv.
    + intros k Hk. rewrite Hp. by rewrite lww_put_other.
  - by destruct (Hw i c Hi).
Qed.

(** *** Every replay counts once *)

Definition to_replay (t : mem_thread) : option replay_call :=
  match t with Waiting c | Locked c | Checked c _ => Some c | _ => None end.

Lemma omap_insert_same (ts : list mem_thread) i t u :
  ts !! i = Some t → to_replay u = to_replay t → omap to_replay (<[i := u]> ts) = omap to_replay ts.
Proof.
  revert i. induction ts as [|x ts IH]; intros [|i]; csimpl; [done..| |].
  - intros [= ->] ->. done.
  - intros Hi Hu. by rewrite (IH i Hi Hu).
Qed.

Lemma omap_insert_done (ts : list mem_thread) i t c :
  ts !! i = Some t → to_replay t = Some c → c :: omap to_replay (<[i := Finished]> ts) ≡ₚ omap to_replay ts.
Proof.
  revert i. induction ts as [|x ts IH]; intros [|i]; csimpl; [done..| |].
  - intros [= ->] ->. done.
  - intros Hi Hc. destruct (to_replay x); [|by apply IH]. rewrite <-(IH i Hi Hc). apply Permutation_swap.
Qed.

Lemma mem_step_calls m0 s s' :
  mem_step s s' → mem_inv m0 s →
  omap to_replay (ms_threads s') ++ ms_order s' ≡ₚ omap to_replay (ms_threads s) ++ ms_order s.
Proof.
  intros Hstep (Hok & _ & _ & _ & _ & Hw).
  destruct Hstep as [i c m locks ts o Hi Hfree|i c m locks ts o stored Hi Hr|i c m locks ts o e Hi Hr
    |i c m locks ts o stored existing Hi Hst|i c m locks ts o stored r m' Hi Hst Hwr|i c m locks ts o r m' Hi Hwr]; cbn in *.
  - by rewrite (omap_insert_same ts i (Waiting c)).
  - by rewrite (omap_insert_same ts i (Locked c)).
  - destruct (short_term_is_map (short_term m) Hok) as (Hread & _). by rewrite Hread in Hr.
  - rewrite <-(omap_insert_done ts i (Checked c stored) c) by done. rewrite (assoc_L (++)). apply Permutation_sym, Permutation_cons_append.
  - rewrite <-(omap_insert_done ts i (Checked c stored) c) by done. rewrite (assoc_L (++)). apply Permutation_sym, Permutation_cons_append.
  - by destruct (Hw i c Hi).
Qed.

(** C38: replays are serializable.  Calls of [replay_write] that run at the same time, each
    under the lock of its key, leave the short-term memory that running them one after the
    other leaves, whatever the interleaving, provided no two of them compete for a key with
    the same version. *)
Theorem replays_serialize m0 calls s :
  mem_ok m0 → NoDup ((λ c, (rc_key c, rc_version c)) <$> calls) →
  rtc mem_step (mkMemState m0 ∅ (Waiting <$> calls) []) s → Forall (λ t, t = Finished) (ms_threads s) →
  mem_view (ms_store s) = mem_view (run_replays m0 calls).
Proof.
  intros Hok Hnd Hsteps Hdone.
  assert (mem_inv m0 s ∧ omap to_replay (ms_threads s) ++ ms_order s ≡ₚ calls) as [(_ & Hv & _) Hp].
  { clear Hdone. set (s0 := mkMemState _ _ _ _) in Hsteps.
    assert (mem_inv m0 s0 ∧ omap to_replay (ms_threads s0) ++ ms_order s0 ≡ₚ calls) as Hstart.
    { split; [split_and!; cbn; [done|done|..]|cbn; rewrite app_nil_r].
      - intros i t c Hi Hc. apply list_lookup_fmap_Some in Hi as (? & -> & _). done.
      - intros i j t u c d Hi _ Hc. apply list_lookup_fmap_Some in Hi as (? & -> & _). done.
      - intros i c st Hi. by apply list_lookup_fmap_Some in Hi as (? & ? & _).
      - intros i c Hi. by apply list_lookup_fmap_Some in Hi as (? & ? & _).
      - clear. induction calls as [|c l IH]; [done|]. csimpl. by rewrite IH. }
    clearbody s0. induction Hsteps as [s|s s1 s2 Hst _ IH]; [done|]. destruct Hstart as [Hi Hp]. apply IH.
    split; [by eapply mem_step_inv|]. by rewrite (mem_step_calls m0 s s1). }
  assert (omap to_replay (ms_threads s) = []) as Hnil.
  { clear -Hdone. induction Hdone as [|t ts -> _ IH]; [done|exact IH]. }
  rewrite Hnil in Hp. cbn in Hp. rewrite Hv. destruct (replays_refine m0 calls Hok) as [_ ->].
  apply lww_foldl_perm; [done|]. by rewrite Hp.
Qed.
End Replay.

(** ** Searching the fallback *)

(** At least as good. *)
Definition better : MemorySearchResult → MemorySearchResult → Prop := outranks found_score.

Definition scored_of (query : list f32) (scope : MemorySearchScope) (min_score : f32) (l : list FallbackEntry)
    : list MemorySearchResult :=
  omap (λ f, let score := cosine_similarity query (fb_vector f) (vector_norm query) in
             if SFleb min_score score then Some (mkMemoryResult (fb_entry f) score) else None)
    (filterb (λ f, matches_scope (mem_key (fb_entry f)) scope) l).

Lemma scored_of_elem query scope min_score l r :
  r ∈ scored_of query scope min_score l ↔
  ∃ f, f ∈ l ∧ matches_scope (mem_key (fb_entry f)) scope = true ∧ found_entry r = fb_entry f ∧
    found_score r = cosine_similarity query (fb_vector f) (vector_norm query) ∧ SFleb min_score (found_score r) = true.
Proof.
  unfold scored_of. rewrite list_elem_of_omap. split.
  - intros (f & Hf & Hr). apply filterb_elem in Hf as [Hf Hm]. cbn in Hr. destruct (SFleb _ _) eqn:E; [|done].
    injection Hr as <-. by exists f.
  - intros (f & Hf & Hm & He & Hs & Hle). exists f. split; [by apply filterb_elem|]. cbn. rewrite <-Hs, Hle.
    destruct r. simpl in *. congruence.
Qed.

(** A search without a vector database is exact.  It answers at most the number asked
    for of the entries in the scope whose cosine reaches the floor, best first, each with
    its cosine, and leaves one out only when it answers the number asked for and each of
    its answers scores at least as well. *)
Theorem fallback_search_is_top query scope max_results min_score l :
  let res := scan_fallback query scope max_results min_score l in
  (length res <= Z.to_nat max_results)%nat ∧ StronglySorted better res ∧
  (∀ r, r ∈ res → ∃ f, f ∈ l ∧ matches_scope (mem_key (fb_entry f)) scope = true ∧ found_entry r = fb_entry f ∧
     found_score r = cosine_similarity query (fb_vector f) (vector_norm query) ∧ SFleb min_score (found_score r) = true) ∧
  ∀ f, f ∈ l → matches_scope (mem_key (fb_entry f)) scope = true →
    let score := cosine_similarity query (fb_vector f) (vector_norm query) in
    SFleb min_score score = true →
    mkMemoryResult (fb_entry f) score ∈ res ∨
    length res = Z.to_nat max_results ∧ ∀ r, r ∈ res → SFleb score (found_score r) = true.
Proof.
  change (scan_fallback query scope max_results min_score l)
    with (top found_score (Z.to_nat max_results) (scored_of query scope min_score l)).
  destruct (top_best found_score (Z.to_nat max_results) (scored_of query scope min_score l)) as (Hlen & Hs & Hsub & Hout).
  { apply Forall_forall. intros r (f & _ & _ & _ & _ & Hle)%scored_of_elem. by apply SFleb_not_nan in Hle as [_ ?]. }
  split_and!; [done|done| |].
  - intros r Hr. by apply scored_of_elem, Hsub.
  - intros f Hf Hm score Hle. apply (Hout (mkMemoryResult (fb_entry f) score)). apply scored_of_elem. by exists f.
Qed.

(** ** The payload of a point *)

Lemma decode_payload_scoped scope rest :
  no_colon scope →
  decode_key_from_payload (scope +:+ ":" +:+ rest) =
  match cut_colon (chars rest) with
  | Some (a, b) =>
      if scope ==? "task" then Some (KeyTask (of_chars a) (of_chars b))
      else if scope ==? "project" then Some (KeyProject (of_chars a) (of_chars b)) else None
  | None => if scope ==? "global" then Some (KeyGlobal rest) else None
  end.
Proof.
  intros Hs. unfold decode_key_from_payload. rewrite !chars_app. change (chars ":") with [":"%char]. cbn [app].
  rewrite (splitn_app 1) by exact Hs. pose proof (splitn_two (chars rest)) as H2.
  destruct (cut_colon (chars rest)) as [[a b]|]; rewrite H2; csimpl; rewrite ?of_chars_chars; done.
Qed.

Lemma payload_key_plain k : plain_key k → decode_key_from_payload (encode_key_for_payload k) = Some k.
Proof.
  destruct k as [t key|p key|key]; cbn [encode_key_for_payload plain_key]; intros Hn.
  1: change ("task:" +:+ t +:+ ":" +:+ key) with ("task" +:+ ":" +:+ (t +:+ ":" +:+ key)).
  2: change ("project:" +:+ p +:+ ":" +:+ key) with ("project" +:+ ":" +:+ (p +:+ ":" +:+ key)).
  3: change ("global:" +:+ key) with ("global" +:+ ":" +:+ key).
  all: rewrite decode_payload_scoped by no_colon_literal.
  1,2: rewrite !chars_app; change (chars ":") with [":"%char]; cbn [app]; rewrite cut_colon_app by done; cbn; by rewrite !of_chars_chars.
  by rewrite cut_colon_none.
Qed.

Lemma payload_key_colon key : ¬ no_colon key → decode_key_from_payload (encode_key_for_payload (KeyGlobal key)) = None.
Proof.
  intros Hn. cbn [encode_key_for_payload]. change ("global:" +:+ key) with ("global" +:+ ":" +:+ key).
  rewrite decode_payload_scoped by no_colon_literal.
  destruct (cut_colon_some (chars key)) as [[a b] ->]; [|done]. apply dec_stable. exact Hn.
Qed.

Lemma omap_as_string (l : list string) : omap as_string (QString <$> l) = l.
Proof. induction l as [|s l IH]; [done|]. csimpl. by rewrite IH. Qed.

Section PayloadBack.
Context `{ContentJsonOk, Rfc3339Ok}.

(** The payload of a point is read back as its entry, without the vector and with the
    version its time gives it, when its key is plain; a global key with a colon makes the
    point unreadable, so no search can answer it. *)
Theorem payload_reads_back fresh now e :
  (plain_key (mem_key e) →
   payload_to_entry fresh now (entry_to_payload e) =
   Some (mkEntry (mem_id e) (mem_key e) (mem_content e)
           (mkMetadata (source_agent (mem_metadata e)) (f64_as_f32 (f32_as_f64 (importance (mem_metadata e))))
              (mem_tags (mem_metadata e)) None)
           (mem_created_at e) (mem_updated_at e) (version_from_timestamp (mem_updated_at e)))) ∧
  (∀ key, mem_key e = KeyGlobal key → ¬ no_colon key → payload_to_entry fresh now (entry_to_payload e) = None).
Proof.
  assert (string_field decode_key_from_payload (entry_to_payload e) "key"
    = decode_key_from_payload (encode_key_for_payload (mem_key e))) as Hkey by done.
  split.
  - intros Hp. unfold payload_to_entry. rewrite Hkey, payload_key_plain by done.
    destruct (content_back (mem_content e)) as (text & Ht & Hc).
    assert (string_field content_of_text (entry_to_payload e) "content" = Some (mem_content e)) as ->.
    { unfold string_field, entry_to_payload. repeat (rewrite lookup_insert_ne by done).
      rewrite lookup_insert_eq, Ht. exact Hc. }
    assert (string_field rfc3339_parse (entry_to_payload e) "created_at" = Some (mem_created_at e)) as -> by apply rfc3339_back.
    assert (string_field rfc3339_parse (entry_to_payload e) "updated_at" = Some (mem_updated_at e)) as -> by apply rfc3339_back.
    assert (entry_to_payload e !! "tags"%string = Some (QList (QString <$> mem_tags (mem_metadata e)))) as -> by done.
    assert (entry_to_payload e !! "importance"%string = Some (QDouble (f32_as_f64 (importance (mem_metadata e))))) as -> by done.
    cbn [as_list as_double default]. by rewrite omap_as_string.
  - intros key Hk Hn. unfold payload_to_entry. rewrite Hkey, Hk. by rewrite payload_key_colon.
Qed.
End PayloadBack.
