(* ===== verification/MemoryRpc.v ===== *)
(** * Memory over gRPC

    The memory messages of [crates/uc-grpc/src/conversions.rs] and the memory handlers of [crates/uc-grpc/src/server.rs].

    - [WriteMemoryRequest] and [ReplayMemoryWriteRequest] differ in their version only;
      their other fields are [MemoryFields].
    - The parsing of JSON is a parameter ([ValueParse]). *)

From Stdlib Require Import String Ascii SpecFloat.
From stdpp Require Import gmap strings pretty.
From S2P Require Import Prelude RustStr Tonic Mandate Task Graph GatewayService Edge Memory MemoryProps.

Class ValueParse := { value_of_text : string → option JsonValue }.
(** The JSON of a content is read back. *)
Definition content_readable `{ValueText, ValueParse} (c : MemoryContent) : Prop :=
  ∀ v, c = Structured v → value_of_text (value_text v) = Some v.

(** ** Keys *)

Definition invalid_scope (scope : string) : string :=
  "Invalid key_scope: '" +:+ scope +:+ "'. Must be 'task', 'project', or 'global'".

Definition memory_key_from_proto (key_scope task_id project_id key : string) : result MemoryKey string :=
  if key_scope ==? "task" then
    if task_id ==? "" then Err "task_id is required for task-scoped memory" else Ok (KeyTask task_id key)
  else if key_scope ==? "project" then
    if project_id ==? "" then Err "project_id is required for project-scoped memory" else Ok (KeyProject project_id key)
  else if key_scope ==? "global" then Ok (KeyGlobal key)
  else Err (invalid_scope key_scope).

(** The scope, the task, the project and the key. *)
Definition memory_key_to_parts (k : MemoryKey) : string * string * string * string :=
  match k with
  | KeyTask t key => ("task", t, "", key)
  | KeyProject p key => ("project", "", p, key)
  | KeyGlobal key => ("global", "", "", key)
  end%string.

(** The conversions that do not validate: any other scope is global. *)
Definition lossy_key (key_scope task_id project_id key : string) : MemoryKey :=
  if key_scope ==? "task" then KeyTask task_id key
  else if key_scope ==? "project" then KeyProject project_id key
  else KeyGlobal key.

(** ** Requests *)

Record MemoryFields : Type := mkMemoryFields {
  wm_key_scope : string;
  wm_task_id : string;
  wm_project_id : string;
  wm_key : string;
  wm_content_type : string;
  wm_content : string;
  wm_source_agent : string;
  wm_importance : f32;
  wm_tags : list string;
  wm_language : option string;
  wm_file_path : option string;
  wm_uri : option string;
  wm_description : option string
}.
Record WriteMemoryRequest : Type := mkWriteMemory { wm_fields : MemoryFields; wm_version : option Z }.
Record ReplayMemoryWriteRequest : Type := mkReplayMemory { rm_fields : MemoryFields; rm_version : Z }.

Section Wire.
Context `{ValueText, ValueParse}.

Definition content_of_proto (kind content : string) (language path uri description : option string) : MemoryContent :=
  if kind ==? "structured" then Structured (default (JString content) (value_of_text content))
  else if kind ==? "code" then Code (default ""%string language) content
  else if kind ==? "diff" then Diff (default ""%string path) content
  else if kind ==? "reference" then Reference (default ""%string uri) (default ""%string description)
  else Text content.

Definition fields_content (f : MemoryFields) : MemoryContent :=
  content_of_proto (wm_content_type f) (wm_content f) (wm_language f) (wm_file_path f) (wm_uri f) (wm_description f).
Definition fields_metadata (f : MemoryFields) : MemoryMetadata :=
  mkMetadata (wm_source_agent f) (wm_importance f) (wm_tags f) None.
Definition fields_key (f : MemoryFields) : MemoryKey :=
  lossy_key (wm_key_scope f) (wm_task_id f) (wm_project_id f) (wm_key f).
Definition checked_key (f : MemoryFields) : result MemoryKey Status :=
  map_err (pair CodeInvalidArgument) (memory_key_from_proto (wm_key_scope f) (wm_task_id f) (wm_project_id f) (wm_key f)).

(** A zero version is no version. *)
Definition nonzero (v : option Z) : option Z := v ← v; if v =? 0 then None else Some v.

Definition MemoryWriteRequest_from_write (r : WriteMemoryRequest) : MemoryWriteRequest :=
  mkMemoryWrite (fields_key (wm_fields r)) (fields_content (wm_fields r)) (fields_metadata (wm_fields r))
    (nonzero (wm_version r)).
Definition MemoryWriteRequest_from_replay (r : ReplayMemoryWriteRequest) : MemoryWriteRequest :=
  mkMemoryWrite (fields_key (rm_fields r)) (fields_content (rm_fields r)) (fields_metadata (rm_fields r))
    (if rm_version r =? 0 then None else Some (rm_version r)).

(** ** Entries *)

Record MemoryEntryProto : Type := mkEntryProto {
  me_id : string;
  me_content_type : string;
  me_content : string;
  me_source_agent : string;
  me_importance : f32;
  me_tags : list string;
  me_created_at : Z;
  me_updated_at : Z;
  me_key_scope : string;
  me_key_task_id : string;
  me_key_project_id : string;
  me_key : string;
  me_language : option string;
  me_file_path : option string;
  me_uri : option string;
  me_description : option string;
  me_version : Z
}.

(** The type, the text, the language, the path, the URI and the description. *)
Definition content_to_proto (c : MemoryContent)
    : string * string * option string * option string * option string * option string :=
  match c with
  | Text s => ("text", s, None, None, None, None)
  | Structured v => ("structured", value_text v, None, None, None, None)
  | Code language code => ("code", code, Some language, None, None, None)
  | Diff path diff => ("diff", diff, None, Some path, None, None)
  | Reference uri description => ("reference", "", None, None, Some uri, Some description)
  end%string.

Definition MemoryEntryProto_from (e : MemoryEntry) : MemoryEntryProto :=
  let '(kind, content, language, path, uri, description) := content_to_proto (mem_content e) in
  let '(scope, task, project, key) := memory_key_to_parts (mem_key e) in
  mkEntryProto (mem_id e) kind content (source_agent (mem_metadata e)) (importance (mem_metadata e))
    (mem_tags (mem_metadata e)) (encode_timestamp (mem_created_at e)) (encode_timestamp (mem_updated_at e))
    scope task project key language path uri description (mem_version e).

Definition MemoryEntry_from_proto `{UnixTime} (now : Instant) (p : MemoryEntryProto) : MemoryEntry :=
  mkEntry (me_id p) (lossy_key (me_key_scope p) (me_key_task_id p) (me_key_project_id p) (me_key p))
    (content_of_proto (me_content_type p) (me_content p) (me_language p) (me_file_path p) (me_uri p) (me_description p))
    (mkMetadata (me_source_agent p) (me_importance p) (me_tags p) None)
    (default now (from_timestamp (me_created_at p))) (default now (from_timestamp (me_updated_at p))) (me_version p).

(** What a client makes of an answer without an entry. *)
Definition placeholder_entry (fresh : string) (now : Instant) : MemoryEntry :=
  mkEntry fresh (KeyGlobal "") (Text "") (mkMetadata "" f32_zero [] None) now now 0.
Definition WriteMemoryResponse_into `{UnixTime} (fresh : string) (now : Instant) (r : option MemoryEntryProto) : MemoryEntry :=
  match r with Some p => MemoryEntry_from_proto now p | None => placeholder_entry fresh now end.

Record SearchMemoryRequest : Type := mkSearchMemory {
  sm_query : string;
  sm_scope_type : string;
  sm_project_id : string;
  sm_max_results : Z;
  sm_min_score : f32
}.
Definition MemorySearchRequest_from (r : SearchMemoryRequest) : MemorySearchRequest :=
  mkMemorySearch (sm_query r)
    (if sm_scope_type r ==? "project" then ScopeProject (sm_project_id r)
     else if sm_scope_type r ==? "global" then ScopeGlobal else ScopeAll)
    (sm_max_results r) (sm_min_score r).
End Wire.

(** ** Handlers *)

Section Handlers.
Context {KV Bytes Q : Type} `{RawKv KV Bytes, StoredJson Bytes, VectorDb Q, ContentJson, Rfc3339, Blake3, ValueText, ValueParse}.
Context (embed : string → result (list f32) EngineError).
Notation store := (MemoryStore KV Q).

Definition read_memory (fresh : string) (now : Instant) (m : store)
    (key_scope task_id project_id key : string) (semantic : bool) : result (option MemoryEntryProto) Status :=
  let? k := map_err (pair CodeInvalidArgument) (memory_key_from_proto key_scope task_id project_id key) in
  let? e := map_err to_status (memory_read embed fresh now m (mkMemoryRead k semantic)) in
  Ok (MemoryEntryProto_from <$> e).

Definition write_memory (fresh : string) (now : Instant) (m : store) (r : WriteMemoryRequest)
    : result MemoryEntryProto Status * store :=
  match checked_key (wm_fields r) with
  | Err s => (Err s, m)
  | Ok k =>
      let '(w, m) := memory_write embed fresh now m
                       (mkMemoryWrite k (fields_content (wm_fields r)) (fields_metadata (wm_fields r))
                          (nonzero (wm_version r))) in
      (map_ok MemoryEntryProto_from (map_err to_status w), m)
  end.

Definition replay_memory_write (fresh : string) (now : Instant) (m : store) (r : ReplayMemoryWriteRequest)
    : result (MemoryEntryProto * bool) Status * store :=
  let '(w, m) := replay_write embed fresh now m (MemoryWriteRequest_from_replay r) in
  (map_ok (λ x, (MemoryEntryProto_from (replay_entry x), replay_applied x)) (map_err to_status w), m).

Definition delete_memory (m : store) (key_scope task_id project_id key : string) : result unit Status * store :=
  match map_err (pair CodeInvalidArgument) (memory_key_from_proto key_scope task_id project_id key) with
  | Err s => (Err s, m)
  | Ok k => let '(d, m) := memory_delete m k in (map_err to_status d, m)
  end.

Definition search_memory (fresh : string) (now : Instant) (m : store) (r : SearchMemoryRequest)
    : result (list (MemoryEntryProto * f32)) Status :=
  map_ok (fmap (λ x, (MemoryEntryProto_from (found_entry x), found_score x)))
    (map_err to_status (memory_search embed fresh now m (MemorySearchRequest_from r))).

(** Every request is checked before the first one is written. *)
Definition batch_guard (f : MemoryFields) : option Status :=
  let scope := wm_key_scope f in
  if negb ((scope ==? "task") || (scope ==? "project") || (scope ==? "global"))
  then Some (CodeInvalidArgument, invalid_scope scope)
  else if (scope ==? "task") && (wm_task_id f ==? "")
  then Some (CodeInvalidArgument, "task_id is required for task-scoped memory"%string)
  else if (scope ==? "project") && (wm_project_id f ==? "")
  then Some (CodeInvalidArgument, "project_id is required for project-scoped memory"%string)
  else None.
Fixpoint batch_requests (l : list WriteMemoryRequest) : result (list MemoryWriteRequest) Status :=
  match l with
  | [] => Ok []
  | r :: l =>
      match batch_guard (wm_fields r) with
      | Some s => Err s
      | None => let? rest := batch_requests l in Ok (MemoryWriteRequest_from_write r :: rest)
      end
  end.
Definition batch_write_memory (fresh : nat → string) (now : Instant) (m : store) (l : list WriteMemoryRequest)
    : result (list MemoryEntryProto) Status * store :=
  match batch_requests l with
  | Err s => (Err s, m)
  | Ok requests =>
      let '(w, m) := batch_write embed fresh now m requests in
      (map_ok (fmap MemoryEntryProto_from) (map_err to_status w), m)
  end.
End Handlers.

(** ** Properties *)

(** The two ways of checking a key agree: a batch is refused for the request and with the
    status with which a single write of it is refused, and a key that passes is the key that
    is written. *)
Theorem batch_checks_like_write f :
  batch_guard f = match checked_key f with Ok _ => None | Err s => Some s end ∧
  ∀ k, checked_key f = Ok k → k = fields_key f.
Proof.
  unfold batch_guard, checked_key, memory_key_from_proto, fields_key, lossy_key. cbv zeta.
  destruct (bool_decide_reflect (wm_key_scope f = "task"%string)) as [Ht|];
    destruct (bool_decide_reflect (wm_key_scope f = "project"%string)) as [Hp|];
    destruct (bool_decide_reflect (wm_key_scope f = "global"%string)) as [Hg|]; try congruence; cbn;
    repeat case_bool_decide; (split; [done|]); by intros k [= <-].
Qed.

Section WireBack.
Context `{ValueText, ValueParse, UnixTime}.

Lemma content_wire_back c :
  content_readable c →
  let '(kind, content, language, path, uri, description) := content_to_proto c in
  content_of_proto kind content language path uri description = c.
Proof. intros Hc. destruct c; try done. cbn. unfold content_of_proto. cbn. by rewrite Hc. Qed.

Lemma key_wire_back k :
  let '(scope, task, project, key) := memory_key_to_parts k in lossy_key scope task project key = k.
Proof. by destruct k. Qed.

(** A client reads back the entry the gateway holds, its key, its content whatever the
    kind, its metadata but for the vector and its version; times come through to the
    second. *)
Theorem client_reads_entry now e :
  UnixTimeOk → content_readable (mem_content e) → is_Some (from_timestamp (encode_timestamp (mem_updated_at e))) →
  let e' := MemoryEntry_from_proto now (MemoryEntryProto_from e) in
  mem_id e' = mem_id e ∧ mem_key e' = mem_key e ∧ mem_content e' = mem_content e ∧ mem_version e' = mem_version e ∧
  source_agent (mem_metadata e') = source_agent (mem_metadata e) ∧
  importance (mem_metadata e') = importance (mem_metadata e) ∧ mem_tags (mem_metadata e') = mem_tags (mem_metadata e) ∧
  mem_updated_at e' <= mem_updated_at e < mem_updated_at e' + 1000000000.
Proof.
  intros Hu Hread [t Ht] e'. unfold e', MemoryEntryProto_from.
  pose proof (content_wire_back (mem_content e) Hread) as Hc. pose proof (key_wire_back (mem_key e)) as Hk.
  destruct (content_to_proto (mem_content e)) as [[[[[kind content] language] path] uri] description].
  destruct (memory_key_to_parts (mem_key e)) as [[[scope task] project] key].
  unfold MemoryEntry_from_proto. cbn -[content_of_proto lossy_key]. split_and!; try done; rewrite Ht; cbn;
    apply from_timestamp_seconds in Ht as ->; unfold encode_timestamp;
    pose proof (Z.div_mod (mem_updated_at e) 1000000000 ltac:(lia));
    pose proof (Z.mod_pos_bound (mem_updated_at e) 1000000000 ltac:(lia)); lia.
Qed.
End WireBack.

(** * Runs of the memory

    Concrete stores: a key-value client that is a map, no vector database, and an embedding
    that tells texts apart by their length.  Witnesses of the theorems on the memory, and
    runs that show where it departs from its comments. *)

#[local] Instance map_kv : RawKv (gmap string StoredEntry) StoredEntry :=
  {| kv_get := λ kv k, Ok (kv !! k);
     kv_put := λ kv k b, (Ok tt, <[k := b]> kv);
     kv_delete := λ kv k, (Ok tt, delete k kv);
     kv_scan := λ kv a b n, Ok (take n (filterb (λ k, String.leb a k && String.ltb k b) (map_to_list kv).*1)) |}.
#[local] Instance map_kv_ok : RawKvOk (gmap string StoredEntry) StoredEntry.
Proof. refine {| kv_contents := id; kv_up := λ _, True |}; [done|intros; by eexists..]. Defined.
#[local] Instance same_json : StoredJson StoredEntry :=
  {| stored_to_bytes := Ok; stored_of_bytes := Ok |}.
#[local] Instance same_json_ok : StoredJsonOk StoredEntry.
Proof. split. intros s. by exists s. Qed.
#[local] Instance no_qdrant : VectorDb unit :=
  {| q_upsert := λ q _ _ _, (Ok tt, q); q_delete := λ q _ _, (Ok tt, q); q_search := λ _ _ _ _ _, Ok [] |}.
#[local] Instance text_json : ContentJson :=
  {| content_text := λ c, match c with Text s => Ok s | _ => Err "not a text"%string end;
     content_of_text := λ s, Some (Text s);
     integer_as_f64 := λ _, f32_zero |}.
#[local] Instance some_time : Rfc3339 := {| rfc3339_text := λ t, pretty t; rfc3339_parse := λ _, None |}.
#[local] Instance some_blake : Blake3 := {| blake3_u64 := λ s, Z.of_nat (String.length s) |}.
#[local] Instance null_text : ValueText := {| value_text := λ _, "null"%string |}.
#[local] Instance null_parse : ValueParse := {| value_of_text := λ _, Some JNull |}.

(** 1 and 0.5. *)
Definition f_one : f32 := S754_finite false 8388608 (-23).
Definition f_half : f32 := S754_finite false 8388608 (-24).
Definition embed_length (s : string) : result (list f32) EngineError :=
  Ok (if (Nat.even (String.length s)) then [f_one; f32_zero] else [f32_zero; f_one]).

Notation kv_store := (MemoryStore (gmap string StoredEntry) unit).
Definition kv_memory : kv_store :=
  mkMemoryStore (ShortTerm_with_client ∅ 3600) LongTerm_new_fallback MemoryConfig_default.
Definition local_memory : kv_store :=
  mkMemoryStore (ShortTerm_new_fallback 3600) LongTerm_new_fallback MemoryConfig_default.

Definition note (key : MemoryKey) (text : string) (version : option Z) : MemoryWriteRequest :=
  mkMemoryWrite key (Text text) (mkMetadata "agent" f_one [] None) version.
Definition plan_key : MemoryKey := KeyTask "t" "plan".
Definition replay_of (text : string) (version : Z) : replay_call :=
  mkReplayCall text 5000000 (note plan_key text (Some version)).

(** ** Witnesses *)

Lemma kv_memory_ok : mem_ok kv_memory.
Proof. split; [done|]. intros i b Hb. change ((∅ : gmap string StoredEntry) !! i = Some b) in Hb. by rewrite lookup_empty in Hb. Qed.

Lemma short_term_is_map_witness :
  ShortTerm_read (short_term kv_memory) plan_key = Ok None.
Proof. destruct (short_term_is_map (short_term kv_memory) kv_memory_ok) as [Hr _]. rewrite Hr. reflexivity. Defined.

Definition three_replays : list replay_call := [replay_of "first" 1; replay_of "third" 3; replay_of "second" 2].

(** The newest of three replays is kept in either order. *)
Lemma replays_converge_witness :
  mem_view (run_replays embed_length kv_memory three_replays)
  = mem_view (run_replays embed_length kv_memory (rev three_replays)) ∧
  se_content <$> mem_view (run_replays embed_length kv_memory three_replays) !! encode_key plan_key = Some (Text "third").
Proof.
  split; [|by vm_compute].
  apply (replays_converge embed_length kv_memory three_replays (rev three_replays) kv_memory_ok).
  - apply Permutation_rev.
  - apply (bool_decide_unpack _). vm_compute. exact I.
Defined.

Definition two_replays : list replay_call := [replay_of "new" 7; replay_of "old" 4].
Definition new_call : replay_call := replay_of "new" 7.
Definition old_call : replay_call := replay_of "old" 4.

(** The store after the newer call has written. *)
Definition new_written : kv_store :=
  (memory_write embed_length (rc_fresh new_call) (rc_now new_call) kv_memory
     (replay_request (rc_now new_call) (rc_request new_call))).2.
Definition replays_end : mem_config_state (KV:=gmap string StoredEntry) (Q:=unit) :=
  mkMemState new_written
    (({[rc_key old_call]} ∪ ({[rc_key new_call]} ∪ ∅) ∖ {[rc_key new_call]}) ∖ {[rc_key old_call]})
    [Finished; Finished] two_replays.

(** The second call waits until the first has given the lock back. *)
Lemma two_replays_run :
  rtc (mem_step embed_length) (mkMemState kv_memory ∅ (Waiting <$> two_replays) []) replays_end.
Proof.
  eapply rtc_l; [by apply (StepLock _ 0 new_call)|].
  eapply rtc_l; [by apply (StepRead _ 0 new_call _ _ _ _ None)|].
  eapply rtc_l; [by eapply (StepApply _ 0 new_call _ _ _ _ None)|].
  eapply rtc_l; [apply (StepLock _ 1 old_call); [done|set_solver]|].
  eapply rtc_l; [by eapply (StepRead _ 1 old_call)|].
  eapply rtc_l; [by eapply (StepSkip _ 1 old_call)|]. apply rtc_refl.
Qed.

Lemma replays_serialize_witness :
  mem_view new_written = mem_view (run_replays embed_length kv_memory two_replays) ∧
  se_content <$> mem_view new_written !! encode_key plan_key = Some (Text "new").
Proof.
  split; [|by vm_compute].
  apply (replays_serialize embed_length kv_memory two_replays replays_end kv_memory_ok).
  - apply (bool_decide_unpack _). vm_compute. exact I.
  - exact two_replays_run.
  - by repeat constructor.
Defined.

(** ** A write that is lost *)

Definition late_write : replay_call := mkReplayCall "w" 9000000 (note plan_key "written" None).
Definition late_replay : replay_call := mkReplayCall "r" 5000000 (note plan_key "replayed" (Some 2)).

(** A plain write takes no lock: between the reading and the writing of a replay it is
    overwritten, although its version is greater and it has been answered. *)
Lemma replay_overwrites_newer_write :
  ∃ s, rtc (mem_step embed_length) (mkMemState kv_memory ∅ [Waiting late_replay; Writing late_write] []) s ∧
    ms_threads s = [Finished; Finished] ∧
    (se_content <$> mem_view (ms_store s) !! encode_key plan_key) = Some (Text "replayed") ∧
    (se_version <$> mem_view (ms_store s) !! encode_key plan_key) = Some 2 ∧
    rc_version late_write = 9.
Proof.
  eexists. split.
  { eapply rtc_l; [by apply (StepLock _ 0 late_replay)|].
    eapply rtc_l; [by apply (StepRead _ 0 late_replay _ _ _ _ None)|].
    eapply rtc_l; [by eapply (StepWrite _ 1 late_write)|].
    eapply rtc_l; [by eapply (StepApply _ 0 late_replay)|]. apply rtc_refl. }
  split_and!; by vm_compute.
Qed.

(** ** Keys that collide *)

(** The notes of task [a:b] are the notes of task [a]. *)
Lemma colon_keys_collide :
  encode_key (KeyTask "a:b" "c") = encode_key (KeyTask "a" "b:c") ∧
  let m := (memory_write embed_length "x" 0 local_memory (note (KeyTask "a:b" "c") "secret" None)).2 in
  mem_content <$> match memory_read embed_length "y" 0 m (mkMemoryRead (KeyTask "a" "b:c") false) with
                  | Ok e => e
                  | Err _ => None
                  end = Some (Text "secret").
Proof. split; by vm_compute. Qed.

(** A global key with a colon is stored, and no listing shows it. *)
Lemma colon_global_is_not_listed :
  let m := (memory_write embed_length "x" 0 local_memory (note (KeyGlobal "style:rust") "tabs" None)).2 in
  bool_decide (is_Some (mem_view m !! encode_key (KeyGlobal "style:rust"))) = true ∧
  memory_list_keys m (KeyGlobal "") = Ok [].
Proof. split; by vm_compute. Qed.

(** ** What stays behind *)

Definition rewritten : kv_store :=
  (memory_write embed_length "x2" 2000000
     (memory_write embed_length "x1" 1000000 local_memory (note (KeyProject "p" "db") "postgres" None)).2
     (note (KeyProject "p" "db") "sqlite" None)).2.

(** Each write has a fresh id, so long-term memory keeps what it replaced: a search of the
    project answers both, and the short-term memory one. *)
Lemma replaced_entry_is_searched :
  (mem_content ∘ fb_entry <$> lt_fallback (long_term rewritten)) = [Text "postgres"; Text "sqlite"] ∧
  match memory_search embed_length "y" 0 rewritten (mkMemorySearch "which" (ScopeProject "p") 5 f_half) with
  | Ok l => (mem_content ∘ found_entry <$> l) = []
  | Err _ => False
  end ∧
  match memory_search embed_length "y" 0 rewritten (mkMemorySearch "what" (ScopeProject "p") 5 f_half) with
  | Ok l => (mem_content ∘ found_entry <$> l) = [Text "postgres"; Text "sqlite"]
  | Err _ => False
  end.
Proof. split_and!; by vm_compute. Qed.

(** An entry is there whatever time has passed: the time to live is not read. *)
Lemma task_notes_do_not_expire ttl now :
  let m := mkMemoryStore (ShortTerm_new_fallback ttl) LongTerm_new_fallback MemoryConfig_default : kv_store in
  is_Some (mem_view (memory_write embed_length "x" now m (note plan_key "later" (Some 1))).2 !! encode_key plan_key).
Proof.
  intros m. destruct (memory_write_view embed_length "x" now m (note plan_key "later" (Some 1))) as (e & m' & -> & _ & Hv); [done|].
  cbn [snd]. rewrite Hv. by rewrite lookup_insert_eq.
Qed.

(** ** Replays over gRPC *)

Definition misspelt : ReplayMemoryWriteRequest :=
  mkReplayMemory (mkMemoryFields "taks" "t" "" "plan" "text" "mine" "agent" f_half [] None None None None) 3.

(** A replay with a scope the write refuses is applied, and to the global memory. *)
Lemma misspelt_replay_is_global :
  checked_key (rm_fields misspelt) = Err (CodeInvalidArgument, invalid_scope "taks") ∧
  let '(r, m) := replay_memory_write embed_length "x" 0 local_memory misspelt in
  map_ok snd r = Ok true ∧ (se_content <$> mem_view m !! encode_key (KeyGlobal "plan")) = Some (Text "mine").
Proof. split; [by vm_compute|]. split; by vm_compute. Qed.

#[local] Instance unix_seconds : UnixTime := {| from_timestamp := λ s, Some (s * 1000000000) |}.

Definition sample_entry : MemoryEntry :=
  mkEntry "e" plan_key (Diff "a.rs" "+x") (mkMetadata "agent" f_half ["k"%string] None) 1500000000 2500000000 4.

Lemma client_reads_entry_witness :
  let e' := MemoryEntry_from_proto 9 (MemoryEntryProto_from sample_entry) in
  mem_key e' = plan_key ∧ mem_content e' = Diff "a.rs" "+x" ∧ mem_version e' = 4.
Proof.
  destruct (client_reads_entry 9 sample_entry) as (_ & Hk & Hc & Hv & _).
  - split. by intros s t [= <-].
  - by intros v [=].
  - by eexists.
  - by split_and!.
Defined.
