(* ===== verification/Sandbox.v ===== *)
(** * Sandboxes

    [uc-engine/src/sandbox/mod.rs]: what a sandbox is configured with, its handle, a request
    to run a command and its result, what an agent's output is read into, and the cut of a
    text at a character.  [subprocess.rs]: the sandbox that runs child processes.  Spawning
    a process, its pipes and its exit are a parameter ([Process]): given the command with
    its arguments, directory and variables, the outcome of the wait. *)

From Stdlib Require Import String Ascii.
From stdpp Require Import gmap strings pretty.
From S2P Require Import Prelude RustStr Task.

(** ** Configuration *)

Inductive NetworkMode : Type := NetNone | NetRestricted | NetFull.

Record ResourceLimits : Type := mkLimits {
  max_cpu_seconds : Z;
  max_memory_mb : Z;
  max_output_bytes : Z;
  max_file_size_mb : Z
}.
Definition ResourceLimits_default : ResourceLimits := mkLimits 3600 8192 (50 * 1024 * 1024) 500.

Record SandboxConfig : Type := mkSandboxConfig {
  sc_project_path : string;
  sc_env_vars : gmap string string;
  sc_resource_limits : ResourceLimits;
  sc_network : NetworkMode;
  sc_working_dir : string;
  sc_tools : list string;
  sc_allowed_tools : list string;
  sc_disallowed_tools : list string;
  sc_mcp_configs : list string;
  sc_append_system_prompt : option string;
  sc_agent_name : option string;
  sc_agents_json : option string
}.
Definition SandboxConfig_default : SandboxConfig :=
  mkSandboxConfig "" ∅ ResourceLimits_default NetFull "" [] [] [] [] None None None.

(** ** Handles *)

Inductive SandboxStatus : Type := SbStarting | SbReady | SbBusy | SbStopped | SbFailed.
#[export] Instance SandboxStatus_eq_dec : EqDecision SandboxStatus.
Proof. solve_decision. Defined.

Record SandboxHandle : Type := mkHandle {
  sb_id : string;
  sb_status : SandboxStatus;
  sb_created_at : Z
}.
#[export] Instance SandboxHandle_eq_dec : EqDecision SandboxHandle.
Proof. solve_decision. Defined.
Definition set_sb_status (s : SandboxStatus) (h : SandboxHandle) : SandboxHandle :=
  mkHandle (sb_id h) s (sb_created_at h).

(** ** Execution *)

Record ExecRequest : Type := mkExec {
  ex_command : string;
  ex_args : list string;
  ex_stdin : option string;
  ex_timeout_secs : Z;
  ex_working_dir : string;
  ex_env_vars : gmap string string
}.
Definition ExecRequest_new (command : string) (args : list string) : ExecRequest :=
  mkExec command args None 300 "" ∅.

Record ExecResult : Type := mkExecResult {
  exit_code : Z;
  ex_stdout : string;
  ex_stderr : string;
  duration_ms : Z;
  timed_out : bool
}.
Definition ExecResult_is_success (r : ExecResult) : bool := (exit_code r =? 0) && negb (timed_out r).

Record SandboxHealth : Type := mkHealth {
  sh_id : string;
  sh_status : SandboxStatus;
  uptime_seconds : Z
}.

(** ** What an agent reports *)

Record TokenUsage : Type := mkTokenUsage {
  tu_input_tokens : Z;
  tu_output_tokens : Z;
  tu_total_cost_usd : option f64
}.
Record AgentOutput : Type := mkAgentOutput {
  ao_summary : string;
  ao_file_changes : list FileChange;
  ao_token_usage : option TokenUsage;
  ao_success : bool
}.
Definition subtask_usage_from_token_usage (u : TokenUsage) (source : option string) : SubtaskUsage :=
  mkUsage (Some (tu_input_tokens u)) (Some (tu_output_tokens u)) (tu_total_cost_usd u) source.

(** ** The cut of a text *)

(** [char::len_utf8] of the code points a [string] has, and [str::len]. *)
Definition len_utf8 (c : ascii) : nat := if (nat_of_ascii c <? 128)%nat then 1 else 2.
Fixpoint bytes_len (l : list ascii) : nat :=
  match l with
  | [] => 0
  | c :: l => len_utf8 c + bytes_len l
  end.

(** [str::char_indices], from the byte [at_]. *)
Fixpoint char_indices (at_ : nat) (l : list ascii) : list (nat * ascii) :=
  match l with
  | [] => []
  | c :: l => (at_, c) :: char_indices (at_ + len_utf8 c) l
  end.

Fixpoint take_while {A} (p : A → bool) (l : list A) : list A :=
  match l with
  | [] => []
  | x :: l => if p x then x :: take_while p l else []
  end.

(** [&s[..n]]; [None] is the panic inside a character or past the end. *)
Fixpoint byte_slice (n : nat) (l : list ascii) : option (list ascii) :=
  match l with
  | [] => if (n =? 0)%nat then Some [] else None
  | c :: l =>
      if (n =? 0)%nat then Some []
      else if (n <? len_utf8 c)%nat then None
      else cons c <$> byte_slice (n - len_utf8 c) l
  end.

Definition truncate_str (s : string) (max_len : nat) : option string :=
  let l := chars s in
  if (bytes_len l <=? max_len)%nat then Some s
  else
    let end_ := match last (take_while (λ '(i, _), (i <? max_len)%nat) (char_indices 0 l)) with
                | Some (i, c) => (i + len_utf8 c)%nat
                | None => Nat.min max_len (bytes_len l)
                end in
    of_chars <$> byte_slice end_ l.

(** The first prefix that reaches the bound. *)
Fixpoint reach (n : nat) (l : list ascii) : list ascii :=
  match n, l with
  | O, _ | _, [] => []
  | _, c :: l => c :: reach (n - len_utf8 c) l
  end.

Lemma len_utf8_pos c : (1 <= len_utf8 c <= 2)%nat.
Proof. unfold len_utf8. case_match; lia. Qed.

Lemma reach_prefix n l : reach n l `prefix_of` l.
Proof.
  revert n. induction l as [|c l IH]; intros [|n]; simpl; try apply prefix_nil. apply prefix_cons, IH.
Qed.

Lemma reach_bytes n l : (n <= bytes_len l → n <= bytes_len (reach n l) <= n + 1)%nat.
Proof.
  revert n. induction l as [|c l IH]; intros [|n] Hn; simpl in *; try lia.
  pose proof (len_utf8_pos c). destruct (decide (S n <= len_utf8 c)%nat) as [Hle|].
  - replace (S n - len_utf8 c)%nat with O by lia. destruct l; simpl; lia.
  - destruct (IH (S n - len_utf8 c)%nat); lia.
Qed.

Lemma byte_slice_prefix k l : byte_slice (bytes_len k) (k ++ l) = Some k.
Proof.
  induction k as [|c k IH]; simpl; [by destruct l|]. pose proof (len_utf8_pos c).
  replace (len_utf8 c + bytes_len k =? 0)%nat with false by (symmetry; apply Nat.eqb_neq; lia).
  replace (len_utf8 c + bytes_len k <? len_utf8 c)%nat with false by (symmetry; apply Nat.ltb_ge; lia).
  replace (len_utf8 c + bytes_len k - len_utf8 c)%nat with (bytes_len k) by lia. by rewrite IH.
Qed.

(** Where the last character that begins before the bound ends. *)
Lemma cut_end at_ n l d :
  match last (take_while (λ '(i, _), (i <? n)%nat) (char_indices at_ l)) with
  | Some (i, c) => (i + len_utf8 c)%nat
  | None => d
  end = match reach (n - at_) l with [] => d | k => (at_ + bytes_len k)%nat end.
Proof.
  revert at_ d. induction l as [|c l IH]; intros at_ d; [by destruct (n - at_)%nat|].
  cbn [char_indices take_while]. destruct (Nat.ltb_spec at_ n) as [Hlt|Hge].
  - destruct (n - at_)%nat as [|r] eqn:Hr; [lia|]. cbn [reach]. rewrite last_cons.
    specialize (IH (at_ + len_utf8 c)%nat (at_ + len_utf8 c)%nat).
    replace (n - (at_ + len_utf8 c))%nat with (S r - len_utf8 c)%nat in IH by lia.
    destruct (last _) as [[i c']|]; rewrite IH; destruct (reach _ l); cbn [bytes_len]; lia.
  - by replace (n - at_)%nat with O by lia.
Qed.

(** The cut never panics: a text is kept when it fits, and otherwise cut at the first
    character boundary at or after the bound. *)
Theorem truncate_str_cuts s n :
  ∃ r, truncate_str s n = Some r ∧ chars r `prefix_of` chars s ∧
    ((bytes_len (chars s) <= n)%nat ∧ r = s ∨
     (n < bytes_len (chars s) ∧ n <= bytes_len (chars r) <= n + 1)%nat).
Proof.
  unfold truncate_str. destruct (Nat.leb_spec (bytes_len (chars s)) n) as [Hle|Hgt].
  { exists s. naive_solver. }
  exists (of_chars (reach n (chars s))). rewrite chars_of_chars. split; [|split].
  - rewrite cut_end, Nat.sub_0_r. destruct (reach_prefix n (chars s)) as [k Hk].
    destruct (reach n (chars s)) as [|c r] eqn:Hr.
    + pose proof (reach_bytes n (chars s)) as Hb. rewrite Hr in Hb. simpl in Hb.
      replace (Nat.min n _) with O by lia. by destruct (chars s).
    + rewrite Hk at 1. by rewrite Nat.add_0_l, byte_slice_prefix.
  - apply reach_prefix.
  - right. split; [done|]. apply reach_bytes. lia.
Qed.

(** ** Child processes *)

(** A command as it is spawned.  The standard input is inherited unless it is piped. *)
Record ChildCommand : Type := mkChild {
  ch_program : string;
  ch_args : list string;
  ch_dir : option string;
  ch_env : gmap string string;
  ch_stdin_piped : bool
}.

(** What a drained pipe gives: its bytes, or the message of the error. *)
Inductive PipeEnd : Type :=
| PipeBytes (bytes : list Z)
| PipeTaskFailed (error : string)
| PipeReadError (error : string)
| PipeMissing.

Inductive ChildOutcome : Type :=
| SpawnFailed (error : string)
| ChildExited (code : option Z) (stdout stderr : PipeEnd)
| WaitFailed (error : string)
| TimeoutElapsed.

(** The system: the outcome of a command with what is written to its standard input and the
    time it may take in seconds, and the milliseconds it took; and [String::from_utf8_lossy]. *)
Class Process := {
  run_child : ChildCommand → option string → option Z → ChildOutcome * Z;
  from_utf8_lossy : list Z → string
}.

Section Subprocess.
Context `{Process}.

Definition SubprocessSandbox_create (fresh : string) (now : Z) (config : SandboxConfig)
    : result SandboxHandle EngineError :=
  if sc_project_path config ==? "" then Err (SandboxError "project_path is required")
  else Ok (mkHandle fresh SbReady now).

Definition child_command (r : ExecRequest) : ChildCommand :=
  mkChild (ex_command r) (ex_args r)
    (if ex_working_dir r ==? "" then None else Some (ex_working_dir r)) (ex_env_vars r) false.

(** [child.stdin.take()] has a pipe only when one was asked for. *)
Definition written_stdin (c : ChildCommand) (r : ExecRequest) : option string :=
  if ch_stdin_piped c then ex_stdin r else None.

Definition truncate_output (bytes : list Z) (max_bytes : Z) : string :=
  if Z.of_nat (length bytes) <=? max_bytes then from_utf8_lossy bytes
  else from_utf8_lossy (take (Z.to_nat max_bytes) bytes) +:+ String "010" "... (output truncated)".

Definition collect_output (pipe : PipeEnd) (stream_name : string) : result (list Z) EngineError :=
  match pipe with
  | PipeBytes bytes => Ok bytes
  | PipeTaskFailed e => Err (SandboxError (stream_name +:+ " read task failed: " +:+ e))
  | PipeReadError e => Err (SandboxError (stream_name +:+ " read error: " +:+ e))
  | PipeMissing => Ok []
  end.

Definition SubprocessSandbox_execute (handle : SandboxHandle) (r : ExecRequest)
    : result ExecResult EngineError :=
  if bool_decide (sb_status handle = SbStopped) then
    Err (SandboxError ("Sandbox " +:+ sb_id handle +:+ " is stopped"))
  else
    let timeout_duration := if ex_timeout_secs r =? 0 then None else Some (ex_timeout_secs r) in
    let c := child_command r in
    let '(status, duration_ms) := run_child c (written_stdin c r) timeout_duration in
    match status with
    | SpawnFailed e =>
        Err (SandboxError ("Failed to spawn command '" +:+ ex_command r +:+ "': " +:+ e))
    | ChildExited code out err =>
        let? stdout_bytes := collect_output out "stdout" in
        let? stderr_bytes := collect_output err "stderr" in
        let max_output := 50 * 1024 * 1024 in
        Ok (mkExecResult (default (-1) code) (truncate_output stdout_bytes max_output)
              (truncate_output stderr_bytes max_output) duration_ms false)
    | WaitFailed e => Err (SandboxError ("process wait error: " +:+ e))
    | TimeoutElapsed => Ok (mkExecResult (-1) "" "Command timed out" duration_ms true)
    end.

Definition SubprocessSandbox_stop (_ : SandboxHandle) : result unit EngineError := Ok tt.

Definition SubprocessSandbox_health (now : Z) (handle : SandboxHandle) : result SandboxHealth EngineError :=
  Ok (mkHealth (sb_id handle) (sb_status handle)
        (if sb_created_at handle >? 0 then Z.max (now - sb_created_at handle) 0 else 0)).

(** A run counts as successful exactly when the command was spawned, was not timed out and
    exited with 0. *)
Theorem execute_success_exact handle r x :
  SubprocessSandbox_execute handle r = Ok x →
  ExecResult_is_success x = true ↔
  ∃ out err ms, run_child (child_command r) None
                  (if ex_timeout_secs r =? 0 then None else Some (ex_timeout_secs r))
                = (ChildExited (Some 0) out err, ms).
Proof.
  unfold SubprocessSandbox_execute. case_bool_decide; [done|].
  change (written_stdin (child_command r) r) with (@None string).
  destruct (run_child _ _ _) as [[e|code out err|e|] ms] eqn:Hrun; try done.
  - destruct (collect_output out _) as [o|]; [|done]. destruct (collect_output err _) as [e|]; [|done].
    cbn [result_bind]. intros [= <-]. unfold ExecResult_is_success. cbn.
    destruct code as [code|]; cbn; [|naive_solver].
    rewrite andb_true_r, Z.eqb_eq. naive_solver.
  - intros [= <-]. cbn. naive_solver.
Qed.

(** The input a request carries never reaches the command. *)
Theorem stdin_is_dropped handle r data :
  SubprocessSandbox_execute handle (mkExec (ex_command r) (ex_args r) data (ex_timeout_secs r)
                                      (ex_working_dir r) (ex_env_vars r))
  = SubprocessSandbox_execute handle (mkExec (ex_command r) (ex_args r) None (ex_timeout_secs r)
                                        (ex_working_dir r) (ex_env_vars r)).
Proof. done. Qed.
End Subprocess.
