(* ===== verification/SandboxPool.v ===== *)
(** * The sandbox pool

    [uc-engine/src/sandbox/pool.rs].  The pool keeps its idle handles and the active ones
    behind two mutexes, so an operation is a program ([pprog]) of the steps it takes between
    its locks, in the order of the code: taking and dropping a guard, and reading or changing
    what the guard protects.  A guard that is a temporary of a statement is dropped at the
    end of that statement.

    [step_thread] runs one step of one thread; a [PoolRun] is a pool with the clients that
    use it, and [pool_step] lets any client take its next step, or begin a call.  A client
    returns the handle it holds ([CallRelease]) or, as handles can be cloned, any other
    ([CallReleaseCopy]).

    - The factory is a parameter: its [n]-th call gives a handle or an error.  Ids are
      documented as unique ([FactoryOk]).
    - [alive] counts the sandboxes that are idle or in a client's hands. *)

From Stdlib Require Import String.
From stdpp Require Import gmap strings pretty.
From S2P Require Import Prelude RustStr Task Sandbox.

Class SandboxFactory := { factory_create : SandboxConfig → nat → result SandboxHandle EngineError }.
Class FactoryOk `{SandboxFactory} : Prop := {
  create_fresh config i j h h' :
    factory_create config i = Ok h → factory_create config j = Ok h' → sb_id h = sb_id h' → i = j
}.

(** ** The operations *)

Inductive pprog (A : Type) : Type :=
| Done (a : A)
| LockIdle (k : pprog A)
| UnlockIdle (k : pprog A)
| LockActive (k : pprog A)
| UnlockActive (k : pprog A)
| PopIdle (k : option SandboxHandle → pprog A)
| PushIdle (h : SandboxHandle) (k : pprog A)
| LenIdle (k : nat → pprog A)
| ClearIdle (k : pprog A)
| InsertActive (h : SandboxHandle) (k : pprog A)
| RemoveActive (id : string) (k : pprog A)
| LenActive (k : nat → pprog A)
| Create (k : result SandboxHandle EngineError → pprog A)
| Drop (h : SandboxHandle) (k : pprog A).
Arguments Done {A} _.
Arguments LockIdle {A} _.
Arguments UnlockIdle {A} _.
Arguments LockActive {A} _.
Arguments UnlockActive {A} _.
Arguments PopIdle {A} _.
Arguments PushIdle {A} _ _.
Arguments LenIdle {A} _.
Arguments ClearIdle {A} _.
Arguments InsertActive {A} _ _.
Arguments RemoveActive {A} _ _.
Arguments LenActive {A} _.
Arguments Create {A} _.
Arguments Drop {A} _ _.

Definition at_capacity (used max_pool_size : nat) : EngineError :=
  SandboxError ("Sandbox pool at capacity (" +:+ pretty used +:+ "/" +:+ pretty max_pool_size
                +:+ "). Wait for a sandbox to be released.").

Section Operations.
Context (max_pool_size warm_pool_size : nat).

(** Busy, registered as active and given to the caller. *)
Definition hand_out (handle : SandboxHandle) : pprog (result SandboxHandle EngineError) :=
  let acquired := set_sb_status SbBusy handle in
  InsertActive acquired (UnlockActive (Done (Ok acquired))).

Definition acquire : pprog (result SandboxHandle EngineError) :=
  LockIdle (PopIdle (λ maybe_handle, UnlockIdle
    match maybe_handle with
    | Some handle => LockActive (hand_out handle)
    | None =>
        LockActive (LockIdle (LenIdle (λ idle_count, UnlockIdle (LenActive (λ active_count,
          if (active_count + idle_count <? max_pool_size)%nat then
            Create (λ created,
              match created with
              | Ok handle => hand_out handle
              | Err e => UnlockActive (Done (Err e))
              end)
          else UnlockActive (Done (Err (at_capacity (active_count + idle_count) max_pool_size))))))))
    end)).

(** A handle that is not kept is dropped. *)
Definition pool_release (handle : SandboxHandle) : pprog (result unit EngineError) :=
  LockActive (RemoveActive (sb_id handle) (UnlockActive
    (LockIdle (LenIdle (λ idle_count,
      if (idle_count <? warm_pool_size)%nat then
        PushIdle (set_sb_status SbReady handle) (UnlockIdle (Done (Ok tt)))
      else UnlockIdle (Drop handle (Done (Ok tt)))))))).

Fixpoint warm_loop (missing : nat) : pprog (result unit EngineError) :=
  match missing with
  | O => UnlockIdle (Done (Ok tt))
  | S missing =>
      Create (λ created,
        match created with
        | Ok handle => PushIdle handle (warm_loop missing)
        | Err e => UnlockIdle (Done (Err e))
        end)
  end.
Definition warm_up : pprog (result unit EngineError) :=
  LockIdle (LenIdle (λ current_count, warm_loop (warm_pool_size - current_count))).

Definition idle_count : pprog nat := LockIdle (LenIdle (λ n, UnlockIdle (Done n))).
Definition active_count : pprog nat := LockActive (LenActive (λ n, UnlockActive (Done n))).

(** Both guards live until the end of the sum. *)
Definition total_count : pprog nat :=
  LockIdle (LenIdle (λ n, LockActive (LenActive (λ m, UnlockActive (UnlockIdle (Done (n + m)%nat)))))).

Definition drain : pprog (result unit EngineError) := LockIdle (ClearIdle (UnlockIdle (Done (Ok tt)))).
End Operations.

(** ** The pool *)

Record SandboxPool : Type := mkPool {
  pool_config : SandboxConfig;
  idle : list SandboxHandle;
  active : gmap string SandboxHandle;
  max_pool_size : nat;
  warm_pool_size : nat;
  idle_guard : option nat;
  active_guard : option nat;
  created : nat
}.
Definition SandboxPool_new (config : SandboxConfig) (max warm : nat) : SandboxPool :=
  mkPool config [] ∅ max warm None None 0.

Definition set_idle (l : list SandboxHandle) (p : SandboxPool) : SandboxPool :=
  mkPool (pool_config p) l (active p) (max_pool_size p) (warm_pool_size p) (idle_guard p) (active_guard p) (created p).
Definition set_active (m : gmap string SandboxHandle) (p : SandboxPool) : SandboxPool :=
  mkPool (pool_config p) (idle p) m (max_pool_size p) (warm_pool_size p) (idle_guard p) (active_guard p) (created p).
Definition set_idle_guard (g : option nat) (p : SandboxPool) : SandboxPool :=
  mkPool (pool_config p) (idle p) (active p) (max_pool_size p) (warm_pool_size p) g (active_guard p) (created p).
Definition set_active_guard (g : option nat) (p : SandboxPool) : SandboxPool :=
  mkPool (pool_config p) (idle p) (active p) (max_pool_size p) (warm_pool_size p) (idle_guard p) g (created p).
Definition count_created (p : SandboxPool) : SandboxPool :=
  mkPool (pool_config p) (idle p) (active p) (max_pool_size p) (warm_pool_size p) (idle_guard p) (active_guard p) (S (created p)).

(** [Vec::pop] takes from the end. *)
Definition pop_last {A} (l : list A) : option A * list A :=
  match rev l with
  | [] => (None, [])
  | x :: l => (Some x, rev l)
  end.

Section Steps.
Context `{SandboxFactory}.

(** One step of thread [i]; [None] when it waits for a guard or is done. *)
Definition prog_step {A} (i : nat) (q : pprog A) (p : SandboxPool) : option (pprog A * SandboxPool) :=
  match q with
  | Done _ => None
  | LockIdle k => match idle_guard p with None => Some (k, set_idle_guard (Some i) p) | Some _ => None end
  | UnlockIdle k => Some (k, set_idle_guard None p)
  | LockActive k => match active_guard p with None => Some (k, set_active_guard (Some i) p) | Some _ => None end
  | UnlockActive k => Some (k, set_active_guard None p)
  | PopIdle k => let '(h, l) := pop_last (idle p) in Some (k h, set_idle l p)
  | PushIdle h k => Some (k, set_idle (idle p ++ [h]) p)
  | LenIdle k => Some (k (length (idle p)), p)
  | ClearIdle k => Some (k, set_idle [] p)
  | InsertActive h k => Some (k, set_active (<[sb_id h := h]> (active p)) p)
  | RemoveActive id k => Some (k, set_active (delete id (active p)) p)
  | LenActive k => Some (k (size (active p)), p)
  | Create k => Some (k (factory_create (pool_config p) (created p)), count_created p)
  | Drop _ k => Some (k, p)
  end.

(** A whole operation without other clients; the fuel bounds its steps. *)
Fixpoint run_alone {A} (fuel i : nat) (q : pprog A) (p : SandboxPool) : option (A * SandboxPool) :=
  match q with
  | Done a => Some (a, p)
  | _ => match fuel with
         | O => None
         | S fuel => '(q, p) ← prog_step i q p; run_alone fuel i q p
         end
  end.

(** ** Clients *)

Inductive client : Type :=
| Free
| Acquiring (q : pprog (result SandboxHandle EngineError))
| Holding (h : SandboxHandle)
| Releasing (h : SandboxHandle) (q : pprog (result unit EngineError))
| Asking (q : pprog nat)
| Maintaining (q : pprog (result unit EngineError)).

(** [CallRelease] gives back the handle the client holds; [CallReleaseCopy] any other handle, as
    a clone of one lets a client do. *)
Inductive pool_call : Type :=
| CallAcquire | CallRelease | CallReleaseCopy (h : SandboxHandle) | CallWarmUp | CallDrain
| CallIdleCount | CallActiveCount | CallTotalCount.

#[export] Instance pool_call_eq_dec : EqDecision pool_call.
Proof. solve_decision. Defined.

Record PoolRun : Type := mkPoolRun { the_pool : SandboxPool; clients : list client }.

(** A client begins a call. *)
Definition begin_call (c : pool_call) (p : SandboxPool) (t : client) : option client :=
  match c, t with
  | CallAcquire, Free => Some (Acquiring (acquire (max_pool_size p)))
  | CallRelease, Holding h => Some (Releasing h (pool_release (warm_pool_size p) h))
  | CallReleaseCopy h, Free => Some (Releasing h (pool_release (warm_pool_size p) h))
  | CallWarmUp, Free => Some (Maintaining (warm_up (warm_pool_size p)))
  | CallDrain, Free => Some (Maintaining drain)
  | CallIdleCount, Free => Some (Asking idle_count)
  | CallActiveCount, Free => Some (Asking active_count)
  | CallTotalCount, Free => Some (Asking total_count)
  | _, _ => None
  end.

(** A client takes the next step of its call, or has its answer. *)
Definition step_client (i : nat) (t : client) (p : SandboxPool) : option (client * SandboxPool) :=
  match t with
  | Acquiring (Done (Ok h)) => Some (Holding h, p)
  | Acquiring (Done (Err _)) => Some (Free, p)
  | Acquiring q => '(q, p) ← prog_step i q p; Some (Acquiring q, p)
  | Releasing _ (Done _) => Some (Free, p)
  | Releasing h q => '(q, p) ← prog_step i q p; Some (Releasing h q, p)
  | Asking (Done _) => Some (Free, p)
  | Asking q => '(q, p) ← prog_step i q p; Some (Asking q, p)
  | Maintaining (Done _) => Some (Free, p)
  | Maintaining q => '(q, p) ← prog_step i q p; Some (Maintaining q, p)
  | Free | Holding _ => None
  end.

Inductive pool_event : Type := Begin (i : nat) (c : pool_call) | Step (i : nat).

Definition run_event (e : pool_event) (r : PoolRun) : option PoolRun :=
  match e with
  | Begin i c =>
      t ← clients r !! i; t' ← begin_call c (the_pool r) t;
      Some (mkPoolRun (the_pool r) (<[i := t']> (clients r)))
  | Step i =>
      t ← clients r !! i; '(t', p') ← step_client i t (the_pool r);
      Some (mkPoolRun p' (<[i := t']> (clients r)))
  end.

Fixpoint run_events (l : list pool_event) (r : PoolRun) : option PoolRun :=
  match l with
  | [] => Some r
  | e :: l => run_event e r ≫= run_events l
  end.

Definition busy (t : client) : bool := match t with Free | Holding _ => false | _ => true end.
Definition calls_in_progress (r : PoolRun) : nat := length (filterb busy (clients r)).

(** A client gives back only what it holds, and so gives it back once. *)
Definition owned_call (c : pool_call) : bool := match c with CallReleaseCopy _ => false | _ => true end.
Definition without (c c' : pool_call) : bool := (c' !=? c) && owned_call c'.

(** The calls of [allowed] in any interleaving, at most [limit] of them at the same time. *)
Definition pool_step (allowed : pool_call → bool) (limit : nat) (r r' : PoolRun) : Prop :=
  (∃ i c, allowed c = true ∧ (calls_in_progress r < limit)%nat ∧ run_event (Begin i c) r = Some r') ∨
  (∃ i, run_event (Step i) r = Some r').
End Steps.
