(* ===== verification/SandboxPoolProps.v ===== *)
(** * The sandbox pool under interleavings

    Every client of a [PoolRun] is given what it holds at its point of the program
    ([ghost]): the guards, the sandbox it has in hand and whether that one is registered as
    active, and what it has read of the counts while it kept the guard of the active ones.
    [okp] checks a program against it, [pool_inv] ties it to the pool, and one lemma per kind
    of step keeps it. *)

From Stdlib Require Import String.
From stdpp Require Import gmap strings pretty.
From S2P Require Import Prelude RustStr Task Sandbox SandboxPool.

Record ghost : Type := mkGhost {
  g_idle : bool;
  g_active : bool;
  g_read : option nat;
  g_count : option nat;
  g_own : option (string * bool)
}.
Definition nothing : ghost := mkGhost false false None None None.
Definition holding (id : string) : ghost := mkGhost false false None None (Some (id, true)).

Section Pool.
Context `{SandboxFactory, !FactoryOk}.
(** [strict]: sandboxes are created only by [acquire].  [ordered]: the guard of the active
    sandboxes is never awaited with the idle ones locked. *)
Context (strict ordered : bool) (max : nat).

(** ** What a program may do with what it holds *)

Fixpoint okp {A} (Q : A → option (string * bool) → Prop) (q : pprog A) (g : ghost) : Prop :=
  let 'mkGhost li la gi ga own := g in
  match q with
  | Done a => li = false ∧ la = false ∧ gi = None ∧ ga = None ∧ Q a own
  | LockIdle k => li = false ∧ okp Q k (mkGhost true la gi ga own)
  | UnlockIdle k => li = true ∧ okp Q k (mkGhost false la gi ga own)
  | LockActive k => la = false ∧ (ordered = true → li = false) ∧ okp Q k (mkGhost li true None None own)
  | UnlockActive k => la = true ∧ okp Q k (mkGhost li false None None own)
  | PopIdle k => li = true ∧ own = None ∧ okp Q (k None) g ∧
                 ∀ h, okp Q (k (Some h)) (mkGhost li la None None (Some (sb_id h, false)))
  | PushIdle h k => li = true ∧ own = Some (sb_id h, false) ∧ okp Q k (mkGhost li la None None None)
  | LenIdle k => li = true ∧ ∀ n, okp Q (k n) (mkGhost li la (match own with None => if la then Some n else None | _ => None end) ga own)
  | ClearIdle k => li = true ∧ okp Q k g
  | InsertActive h k => la = true ∧ (∃ b, own = Some (sb_id h, b)) ∧ okp Q k (mkGhost li la None None (Some (sb_id h, true)))
  | RemoveActive id k => la = true ∧ (∃ b, own = Some (id, b)) ∧ okp Q k (mkGhost li la None None (Some (id, false)))
  | LenActive k => la = true ∧ ∀ n, okp Q (k n) (mkGhost li la gi (Some n) own)
  | Create k => own = None ∧ (strict = true → ∃ n m, gi = Some n ∧ ga = Some m ∧ (m + n < max)%nat) ∧
                (∀ e, okp Q (k (Err e)) (mkGhost li la None None None)) ∧
                ∀ h, okp Q (k (Ok h)) (mkGhost li la None None (Some (sb_id h, false)))
  | Drop h k => own = Some (sb_id h, false) ∧ okp Q k (mkGhost li la None None None)
  end.

Definition acquired (r : result SandboxHandle EngineError) (own : option (string * bool)) : Prop :=
  match r with Ok h => own = Some (sb_id h, true) | Err _ => own = None end.
Definition gave_back {A} (_ : A) (own : option (string * bool)) : Prop := own = None.

Ltac okp_go :=
  repeat first
    [ progress intros
    | progress cbn [okp nothing holding acquire pool_release warm_up warm_loop drain idle_count active_count total_count hand_out sb_id set_sb_status]
    | done
    | match goal with
      | |- _ ∧ _ => split
      | |- ∃ b, Some (_, _) = Some (_, b) => by eexists
      end ].

Lemma acquire_ok : okp acquired (acquire max) nothing.
Proof.
  unfold acquire, hand_out, nothing. okp_go. destruct (Nat.ltb_spec (n0 + n) max); okp_go; naive_solver.
Qed.

Lemma release_ok warm h : okp gave_back (pool_release warm h) (holding (sb_id h)).
Proof. unfold pool_release, holding. okp_go. destruct (n <? warm)%nat; by okp_go. Qed.

Lemma drain_ok : okp gave_back drain nothing.
Proof. by unfold drain, nothing; okp_go. Qed.

Lemma warm_up_ok warm : strict = false → okp gave_back (warm_up warm) nothing.
Proof.
  intros Hs. unfold warm_up, nothing. okp_go. generalize (warm - n)%nat. intros k. clear n.
  induction k as [|k IH]; okp_go. congruence.
Qed.

Lemma counts_ok : okp gave_back idle_count nothing ∧ okp gave_back active_count nothing.
Proof. by unfold idle_count, active_count, nothing; okp_go. Qed.

Lemma total_count_ok : ordered = false → okp gave_back total_count nothing.
Proof. intros Ho. unfold total_count, nothing. okp_go. congruence. Qed.

(** ** The invariant *)

(** The guard is the one thread's that has it. *)
Definition guarded (f : ghost → bool) (o : option nat) (gs : list ghost) : Prop :=
  ∀ i, o = Some i ↔ ∃ g, gs !! i = Some g ∧ f g = true.

Lemma guarded_keep f o gs i g g' : gs !! i = Some g → f g' = f g → guarded f o gs → guarded f o (<[i := g']> gs).
Proof.
  intros Hi Hf Hg j. rewrite (Hg j). destruct (decide (i = j)) as [<-|Hne].
  - rewrite list_lookup_insert_eq by (by eapply lookup_lt_Some). naive_solver congruence.
  - by rewrite list_lookup_insert_ne.
Qed.

Lemma guarded_take f gs i g g' : gs !! i = Some g → f g' = true → guarded f None gs → guarded f (Some i) (<[i := g']> gs).
Proof.
  intros Hi Hf Hg j. destruct (decide (i = j)) as [<-|Hne].
  - rewrite list_lookup_insert_eq by (by eapply lookup_lt_Some). naive_solver.
  - rewrite list_lookup_insert_ne by done. split; [congruence|]. intros Hj. by apply Hg in Hj.
Qed.

Lemma guarded_drop f o gs i g g' :
  gs !! i = Some g → f g = true → f g' = false → guarded f o gs → guarded f None (<[i := g']> gs).
Proof.
  intros Hi Hf Hf' Hg j. split; [done|]. assert (o = Some i) as -> by (apply Hg; eauto).
  destruct (decide (i = j)) as [<-|Hne].
  - rewrite list_lookup_insert_eq by (by eapply lookup_lt_Some). naive_solver congruence.
  - rewrite list_lookup_insert_ne by done. intros Hj. apply Hg in Hj. congruence.
Qed.

(** The sandboxes in hand, and all that are alive. *)
Definition owners (gs : list ghost) : list string := omap (λ g, fst <$> g_own g) gs.
Definition ids (p : SandboxPool) (gs : list ghost) : list string := (sb_id <$> idle p) ++ owners gs.
Definition own_list (g : ghost) : list string := option_list (fst <$> g_own g).

Lemma owners_insert gs i g g' :
  gs !! i = Some g → own_list g ++ owners (<[i := g']> gs) ≡ₚ own_list g' ++ owners gs.
Proof.
  intros Hi. revert i Hi. unfold owners. induction gs as [|x gs IH]; intros [|i] Hi; simplify_eq/=.
  - unfold own_list. destruct (g_own g), (g_own g'); simpl; try done. apply Permutation_swap.
  - specialize (IH i Hi). destruct (g_own x) as [[id b]|]; simpl; [|done].
    rewrite <- !Permutation_middle. by constructor.
Qed.

Lemma owners_same gs i g g' :
  gs !! i = Some g → (fst <$> g_own g') = (fst <$> g_own g) → owners (<[i := g']> gs) ≡ₚ owners gs.
Proof.
  intros Hi Hg. pose proof (owners_insert gs i g g' Hi) as Hp. unfold own_list in Hp. rewrite Hg in Hp.
  by apply Permutation_app_inv_l in Hp.
Qed.

Context (extra : nat).

Record pinv (p : SandboxPool) (gs : list ghost) : Prop := {
  pi_max : max_pool_size p = max;
  pi_idle : guarded g_idle (idle_guard p) gs;
  pi_active : guarded g_active (active_guard p) gs;
  pi_nodup : NoDup (ids p gs);
  pi_from : Forall (λ id, ∃ j h, (j < created p)%nat ∧ factory_create (pool_config p) j = Ok h ∧ sb_id h = id) (ids p gs);
  pi_reg i g id : gs !! i = Some g → g_own g = Some (id, true) → is_Some (active p !! id);
  pi_dom id : is_Some (active p !! id) → ∃ i g, gs !! i = Some g ∧ g_own g = Some (id, true);
  pi_count i g m : gs !! i = Some g → g_count g = Some m → g_active g = true ∧ m = size (active p);
  pi_read i g n : strict = true → gs !! i = Some g → g_read g = Some n →
    g_active g = true ∧ (length (ids p gs) <= n + size (active p) + extra)%nat;
  pi_bound : strict = true → (length (ids p gs) <= max + extra)%nat
}.

Lemma insert_cases (gs : list ghost) i g' j gj :
  <[i := g']> gs !! j = Some gj → j = i ∧ gj = g' ∨ j ≠ i ∧ gs !! j = Some gj.
Proof.
  destruct (decide (i = j)) as [<-|]; [|rewrite list_lookup_insert_ne by done; eauto].
  destruct (decide (i < length gs)%nat).
  - rewrite list_lookup_insert_eq by done. naive_solver.
  - rewrite list_insert_ge by lia. intros Hj. apply lookup_lt_Some in Hj. lia.
Qed.

(** Two threads do not have the same guard. *)
Lemma guarded_unique f o gs i j g g' :
  guarded f o gs → gs !! i = Some g → gs !! j = Some g' → f g = true → f g' = true → i = j.
Proof.
  intros Hg Hi Hj Hf Hf'. assert (o = Some i) by (apply Hg; eauto). assert (o = Some j) by (apply Hg; eauto). congruence.
Qed.

(** A step of thread [i] that does not create a sandbox. *)
Lemma pinv_update p gs i g g' p' :
  pinv p gs → gs !! i = Some g →
  max_pool_size p' = max_pool_size p → pool_config p' = pool_config p → (created p <= created p')%nat →
  guarded g_idle (idle_guard p') (<[i := g']> gs) → guarded g_active (active_guard p') (<[i := g']> gs) →
  ids p' (<[i := g']> gs) ⊆+ ids p gs →
  (active p' = active p ∨ g_active g = true) →
  (∀ j gj id, j ≠ i → gs !! j = Some gj → g_own gj = Some (id, true) → is_Some (active p' !! id)) →
  (∀ id, g_own g' = Some (id, true) → is_Some (active p' !! id)) →
  (∀ id, is_Some (active p' !! id) → g_own g' = Some (id, true) ∨ is_Some (active p !! id) ∧ g_own g ≠ Some (id, true)) →
  (∀ m, g_count g' = Some m → g_active g' = true ∧ m = size (active p')) →
  (∀ n, strict = true → g_read g' = Some n →
     g_active g' = true ∧ (length (ids p' (<[i := g']> gs)) <= n + size (active p') + extra)%nat) →
  pinv p' (<[i := g']> gs).
Proof.
  intros HI Hi Hmax Hcfg Hcr Hgi Hga Hids Hact Hreg Hown Hdom Hcount Hread.
  pose proof (submseteq_length _ _ Hids) as Hlen. destruct HI. split; try done.
  - congruence.
  - apply submseteq_Permutation in Hids as [k Hk]. rewrite Hk in pi_nodup0. by apply NoDup_app in pi_nodup0 as [? _].
  - rewrite Forall_forall in *. intros id Hid. rewrite Hcfg. destruct (pi_from0 id) as (j & h & ? & ? & ?).
    { by eapply elem_of_submseteq. } exists j, h. split; [lia|done].
  - intros j gj id [[-> ->]|[Hne Hj]]%insert_cases Ho; eauto.
  - intros id Hid. destruct (Hdom id Hid) as [Ho|[Hid' Ho]].
    + exists i, g'. by rewrite list_lookup_insert_eq by (by eapply lookup_lt_Some).
    + destruct (pi_dom0 id Hid') as (j & gj & Hj & Hgj). exists j, gj. rewrite list_lookup_insert_ne; [done|naive_solver].
  - intros j gj m [[-> ->]|[Hne Hj]]%insert_cases Hc; [by apply Hcount|].
    destruct (pi_count0 j gj m Hj Hc) as [Ha ->]. split; [done|]. destruct Hact as [->|Ha']; [done|].
    destruct Hne. by apply (guarded_unique g_active _ _ _ _ _ _ pi_active0 Hj Hi).
  - intros j gj n Hs [[-> ->]|[Hne Hj]]%insert_cases Hc; [by apply Hread|].
    destruct (pi_read0 j gj n Hs Hj Hc) as [Ha Hle]. split; [done|]. destruct Hact as [->|Ha']; [lia|].
    destruct Hne. by apply (guarded_unique g_active _ _ _ _ _ _ pi_active0 Hj Hi).
  - intros Hs. specialize (pi_bound0 Hs). lia.
Qed.

(** The client of the step has nothing in hand, so those in hand are registered or with one
    of the other clients. *)
Definition room (p : SandboxPool) (gs : list ghost) (g : ghost) : Prop :=
  strict = true → g_own g = None → (length (owners gs) <= size (active p) + extra)%nat.

Lemma other_own p gs i j g gj id b b' :
  NoDup (ids p gs) → i ≠ j → gs !! i = Some g → gs !! j = Some gj →
  g_own g = Some (id, b) → g_own gj ≠ Some (id, b').
Proof.
  intros Hnd Hne Hi Hj Ho Ho'. apply NoDup_app in Hnd as (_ & _ & Hnd). revert i j Hne Hi Hj.
  induction gs as [|x gs IH]; intros [|i] [|j] Hne Hi Hj; simplify_eq/=.
  - rewrite Ho in Hnd. apply NoDup_cons in Hnd as [Hnd _]. apply Hnd, list_elem_of_omap. exists gj.
    split; [by eapply list_elem_of_lookup_2|by rewrite Ho'].
  - rewrite Ho' in Hnd. apply NoDup_cons in Hnd as [Hnd _]. apply Hnd, list_elem_of_omap. exists g.
    split; [by eapply list_elem_of_lookup_2|by rewrite Ho].
  - destruct (g_own x) as [[y b'']|]; simpl in Hnd; [apply NoDup_cons in Hnd as [_ Hnd]|];
      apply (IH Hnd i j); (done || lia).
Qed.

Lemma ids_same p p' gs i g g' :
  gs !! i = Some g → idle p' = idle p → (fst <$> g_own g') = (fst <$> g_own g) →
  ids p' (<[i := g']> gs) ≡ₚ ids p gs.
Proof. intros Hi Hl Hg. unfold ids. by rewrite Hl, (owners_same _ _ _ _ Hi Hg). Qed.

(** Guards and counts: the sandboxes stay where they are. *)
Lemma pinv_still p gs i g g' p' :
  pinv p gs → gs !! i = Some g →
  max_pool_size p' = max_pool_size p → pool_config p' = pool_config p → created p' = created p →
  idle p' = idle p → active p' = active p → g_own g' = g_own g →
  guarded g_idle (idle_guard p') (<[i := g']> gs) → guarded g_active (active_guard p') (<[i := g']> gs) →
  (∀ m, g_count g' = Some m → g_active g' = true ∧ m = size (active p)) →
  (∀ n, strict = true → g_read g' = Some n →
     g_active g' = true ∧ (length (ids p gs) <= n + size (active p) + extra)%nat) →
  pinv p' (<[i := g']> gs).
Proof.
  intros HI Hi Hmax Hcfg Hcr Hl Ha Ho Hgi Hga Hcount Hread.
  assert (ids p' (<[i := g']> gs) ≡ₚ ids p gs) as Hids by (eapply ids_same; [done..|by rewrite Ho]).
  eapply pinv_update; [done|done|done|done|lia|done|done|by rewrite Hids|by left|..].
  - intros j gj id _. rewrite Ha. apply HI.
  - intros id Hid. rewrite Ho in Hid. rewrite Ha. by eapply pi_reg.
  - intros id. rewrite Ha, Ho. destruct (decide (g_own g = Some (id, true))); tauto.
  - by rewrite Ha.
  - intros n. rewrite Ha, (Permutation_length Hids). apply Hread.
Qed.

(** The end of the list of idle ones. *)
Lemma pop_last_Some {A} (l l' : list A) x : pop_last l = (Some x, l') → l = l' ++ [x].
Proof. unfold pop_last. destruct (rev l) as [|y k] eqn:Hr; [done|]. intros [= -> <-]. rewrite <- (rev_involutive l), Hr. done. Qed.
Lemma pop_last_None {A} (l l' : list A) : pop_last l = (None, l') → l = [] ∧ l' = [].
Proof. unfold pop_last. destruct (rev l) as [|y k] eqn:Hr; [|done]. intros [= <-]. by rewrite <- (rev_involutive l), Hr. Qed.

(** A sandbox moves between the idle ones and a thread, or is given up. *)
Lemma pinv_move p gs i g g' l :
  pinv p gs → gs !! i = Some g →
  g_idle g' = g_idle g → g_active g' = g_active g → g_count g' = None → g_read g' = None →
  (∀ id, g_own g ≠ Some (id, true)) → (∀ id, g_own g' ≠ Some (id, true)) →
  (sb_id <$> l) ++ own_list g' ⊆+ (sb_id <$> idle p) ++ own_list g →
  pinv (set_idle l p) (<[i := g']> gs).
Proof.
  intros HI Hi Hgi Hga Hcount Hread Hown0 Hown Hids.
  assert (ids (set_idle l p) (<[i := g']> gs) ⊆+ ids p gs) as Hsub.
  { apply (submseteq_app_inv_l _ _ (own_list g)). unfold ids. cbn [idle set_idle].
    rewrite !(Permutation_app_swap_app (own_list g)), (owners_insert _ _ _ _ Hi), !app_assoc.
    by apply submseteq_app. }
  eapply pinv_update; try done.
  - by eapply guarded_keep, HI.
  - by eapply guarded_keep, HI.
  - by left.
  - intros j gj id _. apply HI.
  - intros id Hid. by destruct (Hown id).
  - intros id Hid. right. split; [exact Hid|apply Hown0].
  - by rewrite Hcount.
  - by rewrite Hread.
Qed.

(** The thread that has the guard registers its sandbox, or takes it off the register. *)
Lemma pinv_register p gs i g b b' id m :
  pinv p gs → gs !! i = Some g → g_active g = true → g_own g = Some (id, b) →
  (∀ id', id' ≠ id → m !! id' = active p !! id') → (b' = true ↔ is_Some (m !! id)) →
  pinv (set_active m p) (<[i := mkGhost (g_idle g) true None None (Some (id, b'))]> gs).
Proof.
  intros HI Hi Ha Ho Hm Hb'. pose proof (pi_nodup _ _ HI) as Hnd.
  eapply pinv_update; try done.
  - by eapply guarded_keep, HI.
  - by eapply guarded_keep, HI.
  - rewrite ids_same; [done|done|done|]. by rewrite Ho.
  - by right.
  - intros j gj id' Hne Hj Ho'. cbn. rewrite Hm; [by eapply pi_reg|]. intros ->. by eapply other_own.
  - cbn. intros id' [= <- ->]. by apply Hb'.
  - cbn. intros id' Hid. destruct (decide (id' = id)) as [->|Hne].
    + left. apply Hb' in Hid as ->. done.
    + right. rewrite Hm in Hid by done. split; [done|]. rewrite Ho. congruence.
Qed.

(** A new sandbox. *)
Lemma pinv_create p gs i g h :
  pinv p gs → gs !! i = Some g → g_own g = None →
  (strict = true → ∃ n m, g_read g = Some n ∧ g_count g = Some m ∧ (m + n < max)%nat) →
  factory_create (pool_config p) (created p) = Ok h →
  pinv (count_created p) (<[i := mkGhost (g_idle g) (g_active g) None None (Some (sb_id h, false))]> gs).
Proof.
  intros HI Hi Ho Hbudget Hh. set (g' := mkGhost _ _ _ _ _).
  assert (ids (count_created p) (<[i := g']> gs) ≡ₚ sb_id h :: ids p gs) as Hids.
  { unfold ids. cbn [idle count_created]. rewrite Permutation_middle.
    apply Permutation_app; [done|]. pose proof (owners_insert gs i g g' Hi) as Hp.
    unfold own_list in Hp. by rewrite Ho in Hp. }
  assert (∀ j gj n, strict = true → <[i := g']> gs !! j = Some gj → g_read gj = Some n → False) as Hnone.
  { intros j gj n Hs [[-> ->]|[Hne Hj]]%insert_cases Hr; [done|]. destruct (Hbudget Hs) as (n' & m & Hn & Hm & _).
    destruct Hne. apply (guarded_unique g_active (active_guard p) gs j i gj g); try done; [apply HI|..].
    - by destruct (pi_read _ _ HI j gj n Hs Hj Hr).
    - by destruct (pi_count _ _ HI i g m Hi Hm). }
  destruct HI. split; try done.
  - by eapply guarded_keep.
  - by eapply guarded_keep.
  - rewrite Hids. constructor; [|done]. intros Hin. rewrite Forall_forall in pi_from0.
    destruct (pi_from0 _ Hin) as (j & h' & Hj & Hh' & Hid). pose proof (create_fresh _ _ _ _ _ Hh' Hh Hid). lia.
  - rewrite Hids. constructor.
    + exists (created p), h. cbn. split; [lia|done].
    + eapply Forall_impl; [done|]. intros id (j & h' & Hj & Hh' & Hid). exists j, h'. cbn. split; [lia|done].
  - intros j gj id [[-> ->]|[Hne Hj]]%insert_cases Hown; [done|]. by eapply pi_reg0.
  - intros id Hid. destruct (pi_dom0 id Hid) as (j & gj & Hj & Hgj). exists j, gj.
    rewrite list_lookup_insert_ne; [done|]. intros ->. congruence.
  - intros j gj m [[-> ->]|[Hne Hj]]%insert_cases Hc; [done|]. by eapply pi_count0.
  - intros j gj n Hs Hj Hr. by destruct (Hnone j gj n).
  - intros Hs. rewrite (Permutation_length Hids). cbn. destruct (Hbudget Hs) as (n & m & Hn & Hm & Hlt).
    destruct (pi_read0 i g n Hs Hi Hn) as [_ Hle]. destruct (pi_count0 i g m Hi Hm) as [_ ->]. lia.
Qed.

Lemma prog_step_inv {A} (Q : A → option (string * bool) → Prop) q i g p gs q' p' :
  okp Q q g → gs !! i = Some g → pinv p gs → room p gs g →
  prog_step i q p = Some (q', p') → ∃ g', okp Q q' g' ∧ pinv p' (<[i := g']> gs).
Proof.
  destruct g as [li la gi ga own]. intros Hq Hi HI Hroom Hstep.
  assert (∀ m, ga = Some m → la = true ∧ m = size (active p)) as Hga by (intros m; apply (pi_count _ _ HI _ _ _ Hi)).
  assert (∀ n, strict = true → gi = Some n → la = true ∧ (length (ids p gs) <= n + size (active p) + extra)%nat) as Hgi
    by (intros n Hs; apply (pi_read _ _ HI _ _ _ Hs Hi)).
  destruct q; cbn [okp prog_step] in Hq, Hstep; simplify_eq.
  - destruct Hq as [-> Hq]. destruct (idle_guard p) eqn:Hg; [done|]. simplify_eq. eexists. split; [exact Hq|].
    eapply pinv_still; try done; cbn; [|by eapply guarded_keep, HI]. eapply guarded_take; [done..|]. rewrite <- Hg. apply HI.
  - destruct Hq as [-> Hq]. eexists. split; [exact Hq|].
    eapply pinv_still; try done; cbn; [|by eapply guarded_keep, HI]. eapply guarded_drop; [done..|apply HI].
  - destruct Hq as (-> & _ & Hq). destruct (active_guard p) eqn:Hg; [done|]. simplify_eq. eexists. split; [exact Hq|].
    eapply pinv_still; try done; cbn; [by eapply guarded_keep, HI|]. eapply guarded_take; [done..|]. rewrite <- Hg. apply HI.
  - destruct Hq as [-> Hq]. eexists. split; [exact Hq|].
    eapply pinv_still; try done; cbn; [by eapply guarded_keep, HI|]. eapply guarded_drop; [done..|apply HI].
  - destruct Hq as (-> & -> & Hnone & Hsome). destruct (pop_last (idle p)) as [[h|] l] eqn:Hp; simplify_eq; eexists.
    + split; [apply Hsome|]. eapply pinv_move; try done. apply pop_last_Some in Hp as ->.
      rewrite fmap_app. cbn. by rewrite app_nil_r.
    + split; [exact Hnone|]. apply pop_last_None in Hp as [Hp ->].
      eapply pinv_still; try done; [by eapply guarded_keep, HI..].
  - destruct Hq as (-> & -> & Hq). eexists. split; [exact Hq|]. eapply pinv_move; try done.
    cbn. by rewrite fmap_app, app_nil_r.
  - destruct Hq as [-> Hq]. eexists. split; [apply Hq|]. eapply pinv_still; try done; [by eapply guarded_keep, HI..|].
    intros n Hs Hn. destruct own; [done|]. destruct la; [|done]. cbn in Hn. simplify_eq. split; [done|].
    specialize (Hroom Hs eq_refl). unfold ids. rewrite length_app, length_fmap. lia.
  - destruct Hq as [-> Hq]. eexists. split; [exact Hq|].
    assert (ids (set_idle [] p) (<[i := mkGhost true la gi ga own]> gs) ⊆+ ids p gs) as Hsub.
    { rewrite list_insert_id by done. apply submseteq_inserts_l. done. }
    eapply pinv_update; try done; [by eapply guarded_keep, HI..|by left| | | |].
    + intros j gj id _. apply HI.
    + intros id. by apply (pi_reg _ _ HI i).
    + intros id Hid. cbn. destruct (decide (own = Some (id, true))); tauto.
    + intros n Hs Hn. destruct (Hgi n Hs Hn) as [-> Hle]. apply submseteq_length in Hsub. split; [done|]. cbn in *. lia.
  - destruct Hq as (-> & [b ->] & Hq). eexists. split; [exact Hq|].
    eapply (pinv_register p gs i (mkGhost li true gi ga (Some (_, b)))); try done.
    + intros id' Hne. by rewrite lookup_insert_ne.
    + rewrite lookup_insert_eq. naive_solver.
  - destruct Hq as (-> & [b ->] & Hq). eexists. split; [exact Hq|].
    eapply (pinv_register p gs i (mkGhost li true gi ga (Some (_, b)))); try done.
    + intros id' Hne. by rewrite lookup_delete_ne.
    + rewrite lookup_delete_eq. split; [done|by intros []].
  - destruct Hq as [-> Hq]. eexists. split; [apply Hq|]. eapply pinv_still; try done; [by eapply guarded_keep, HI..|].
    intros m [= <-]. done.
  - destruct Hq as (-> & Hbudget & Herr & Hok). destruct (factory_create _ _) as [h|e] eqn:Hh; eexists.
    + split; [apply Hok|]. by eapply (pinv_create p gs i (mkGhost _ _ _ _ _)).
    + split; [apply Herr|]. eapply pinv_update; try done; [cbn; lia|by eapply guarded_keep, HI..| |by left| |].
      * by rewrite (ids_same p (count_created p) gs i _ _ Hi).
      * intros j gj id _. apply HI.
      * intros id Hid. by right.
  - destruct Hq as [-> Hq]. eexists. split; [exact Hq|].
    replace p' with (set_idle (idle p') p') by by destruct p'. eapply pinv_move; try done.
    apply submseteq_app; [done|apply submseteq_nil_l].
Qed.

(** ** Clients *)

Definition okc (t : client) (g : ghost) : Prop :=
  match t with
  | Free => g = nothing
  | Holding h => g = holding (sb_id h)
  | Acquiring q => okp acquired q g
  | Releasing _ q => okp gave_back q g
  | Asking q => okp gave_back q g
  | Maintaining q => okp gave_back q g
  end.

Definition pool_inv (r : PoolRun) (gs : list ghost) : Prop :=
  Forall2 okc (clients r) gs ∧ pinv (the_pool r) gs ∧ (calls_in_progress r <= S extra)%nat.

Definition registered (gs : list ghost) : list string :=
  omap (λ g, match g_own g with Some (id, true) => Some id | _ => None end) gs.
Definition moving (g : ghost) : bool := match g_own g with Some (_, false) => true | _ => false end.

Lemma owners_split gs : length (owners gs) = (length (registered gs) + length (filterb moving gs))%nat.
Proof.
  induction gs as [|g gs IH]; [done|]. destruct g as [? ? ? ? [[id []]|]]; unfold owners, registered, filterb in *;
    csimpl in *; lia.
Qed.

Lemma registered_owners gs : registered gs `sublist_of` owners gs.
Proof.
  induction gs as [|g gs IH]; [done|]. destruct g as [? ? ? ? [[id []]|]]; unfold owners, registered in *; csimpl;
    by try constructor.
Qed.

Lemma registered_le p gs : pinv p gs → (length (registered gs) <= size (active p))%nat.
Proof.
  intros HI. rewrite <- (size_dom (active p)). apply (submseteq_length _ (elements (dom (active p)))), NoDup_submseteq.
  - eapply sublist_NoDup; [|apply registered_owners]. pose proof (pi_nodup _ _ HI) as Hnd. by apply NoDup_app in Hnd as (_ & _ & ?).
  - intros id (g & Hg & Hid)%list_elem_of_omap. apply elem_of_elements, elem_of_dom.
    apply list_elem_of_lookup_1 in Hg as [i Hi]. destruct (g_own g) as [[id' []]|] eqn:Ho; simplify_eq.
    by eapply pi_reg.
Qed.

(** Whoever has a sandbox that is not registered is inside a call. *)
Lemma moving_busy t g : okc t g → moving g = true → busy t = true.
Proof. destruct t; cbn; intros Ho; try done; by rewrite Ho. Qed.

Lemma moving_le ts gs i t g :
  Forall2 okc ts gs → ts !! i = Some t → gs !! i = Some g → busy t = true → moving g = false →
  (S (length (filterb moving gs)) <= length (filterb busy ts))%nat.
Proof.
  unfold filterb. intros Hok. revert i. assert (∀ ts gs, Forall2 okc ts gs → (length (filterb moving gs) <= length (filterb busy ts))%nat) as Hle.
  { unfold filterb. clear. induction 1 as [|t g ts gs Htg _ IH]; [done|]. cbn. pose proof (moving_busy _ _ Htg) as Hmb. revert Hmb.
    destruct (moving g), (busy t); cbn; intros Hmb; first [lia|by specialize (Hmb eq_refl)]. }
  unfold filterb in Hle. induction Hok as [|t' g' ts gs Htg Hok IH]; intros [|i] Ht Hg Hb Hm; simplify_eq/=.
  - rewrite Hb, Hm. cbn. specialize (Hle _ _ Hok). lia.
  - specialize (IH i Ht Hg Hb Hm). pose proof (moving_busy _ _ Htg) as Hmb. revert Hmb. destruct (moving g'), (busy t'); cbn; intros Hmb; first [lia|by specialize (Hmb eq_refl)].
Qed.

Lemma room_of r gs i t g :
  pool_inv r gs → clients r !! i = Some t → gs !! i = Some g → busy t = true → room (the_pool r) gs g.
Proof.
  intros (Hok & HI & Hbusy) Ht Hg Hb _ Ho. rewrite owners_split. pose proof (registered_le _ _ HI).
  assert (moving g = false) as Hm by (unfold moving; by rewrite Ho).
  pose proof (moving_le _ _ _ _ _ Hok Ht Hg Hb Hm). unfold calls_in_progress in Hbusy. lia.
Qed.

(** ** Steps of the system *)

Lemma busy_insert ts i t t' :
  ts !! i = Some t → busy t' = busy t → length (filterb busy (<[i := t']> ts)) = length (filterb busy ts).
Proof.
  unfold filterb. intros Hi Hb. revert i Hi. induction ts as [|x ts IH]; intros [|i] Hi; simplify_eq/=; [by rewrite Hb; case_match|].
  case_match; cbn; by rewrite IH.
Qed.

(** A client that begins or ends a call. *)
Lemma busy_change ts i t t' :
  ts !! i = Some t → (length (filterb busy (<[i := t']> ts)) <= S (length (filterb busy ts)))%nat ∧
  (busy t' = false → (length (filterb busy (<[i := t']> ts)) <= length (filterb busy ts))%nat).
Proof.
  unfold filterb. revert i. induction ts as [|x ts IH]; intros [|i] Hi; simplify_eq/=.
  - destruct (busy t'), (busy t); cbn; split; intros; (done || lia).
  - destruct (IH i Hi) as [IH1 IH2]. case_match; cbn; (split; [lia|]; intros Hb; specialize (IH2 Hb); lia).
Qed.

Lemma begin_inv c p t t' g gs :
  owned_call c = true → (c = CallWarmUp → strict = false) → (c = CallTotalCount → ordered = false) →
  pinv p gs → okc t g → begin_call c p t = Some t' → okc t' g.
Proof.
  intros Hown Hw Ht HI Hok Hb. pose proof (pi_max _ _ HI) as Hmax.
  destruct c, t; simplify_eq/=; rewrite ?Hmax;
    first [apply acquire_ok|apply release_ok|by apply warm_up_ok, Hw|apply drain_ok|apply counts_ok|by apply total_count_ok, Ht].
Qed.

(** A client's step is the end of its call, or a step of its program. *)
Inductive client_steps (i : nat) (p : SandboxPool) : client → client → SandboxPool → Prop :=
| StepsGot h : client_steps i p (Acquiring (Done (Ok h))) (Holding h) p
| StepsRefused e : client_steps i p (Acquiring (Done (Err e))) Free p
| StepsReleased h a : client_steps i p (Releasing h (Done a)) Free p
| StepsAnswered a : client_steps i p (Asking (Done a)) Free p
| StepsMaintained a : client_steps i p (Maintaining (Done a)) Free p
| StepsAcquire q q' p' : prog_step i q p = Some (q', p') → client_steps i p (Acquiring q) (Acquiring q') p'
| StepsRelease h q q' p' : prog_step i q p = Some (q', p') → client_steps i p (Releasing h q) (Releasing h q') p'
| StepsAsk q q' p' : prog_step i q p = Some (q', p') → client_steps i p (Asking q) (Asking q') p'
| StepsMaintain q q' p' : prog_step i q p = Some (q', p') → client_steps i p (Maintaining q) (Maintaining q') p'.

Lemma step_client_steps i t p t' p' : step_client i t p = Some (t', p') → client_steps i p t t' p'.
Proof.
  destruct t as [|[]|h|h []|[]|[]]; cbn [step_client];
    repeat match goal with |- context [match ?a with Ok _ => _ | Err _ => _ end] => destruct a end;
    intros Hs; simplify_eq; try constructor; by apply bind_Some in Hs as ([q' p''] & Hs & [= <- <-]); constructor.
Qed.

(** What is left in a client's hands when its program is done. *)
Lemma done_ghost {A} (Q : A → option (string * bool) → Prop) a g :
  okp Q (Done a) g → Q a (g_own g) ∧ g = mkGhost false false None None (g_own g).
Proof. destruct g. cbn. by intros (-> & -> & -> & -> & ?). Qed.

Lemma pool_inv_replace r gs i t t' :
  pool_inv r gs → clients r !! i = Some t → (∀ g, okc t g → okc t' g) →
  (calls_in_progress (mkPoolRun (the_pool r) (<[i := t']> (clients r))) <= S extra)%nat →
  pool_inv (mkPoolRun (the_pool r) (<[i := t']> (clients r))) gs.
Proof.
  intros (Hok & HI & _) Hi Hg Hb. split; [|done]. cbn. apply Forall2_lookup. intros j.
  rewrite Forall2_lookup in Hok. specialize (Hok j). destruct (decide (i = j)) as [<-|].
  - rewrite list_lookup_insert_eq by (by eapply lookup_lt_Some). rewrite Hi in Hok.
    inversion Hok; subst. constructor. by apply Hg.
  - by rewrite list_lookup_insert_ne.
Qed.

Lemma step_inv r gs i r' : pool_inv r gs → run_event (Step i) r = Some r' → ∃ gs', pool_inv r' gs'.
Proof.
  intros HI (t & Ht & Hs)%bind_Some. apply bind_Some in Hs as ([t' p'] & Hs & [= <-]).
  destruct (HI) as (Hok & Hp & Hb). destruct (Forall2_lookup_l _ _ _ _ _ Hok Ht) as (g & Hg & Htg).
  assert (busy t = true → room (the_pool r) gs g) as Hroom by (intros; by eapply room_of).
  destruct (busy_change _ _ t t' Ht) as [_ Hle]. unfold calls_in_progress in *.
  apply step_client_steps in Hs. destruct Hs.
  1-5: exists gs; eapply pool_inv_replace; [done..| |unfold calls_in_progress; cbn [clients]; specialize (Hle eq_refl); lia];
       intros g' Hg'; apply done_ghost in Hg' as [Hq ->]; cbn in *; by rewrite Hq.
  all: cbn in Htg; destruct (prog_step_inv _ _ _ _ _ _ _ _ Htg Hg Hp (Hroom eq_refl) H1) as (g' & Hg' & Hp');
       exists (<[i := g']> gs); split; [by apply Forall2_insert|split; [done|]]; cbn;
       unfold calls_in_progress; cbn; by rewrite (busy_insert _ _ _ _ Ht).
Qed.

Lemma begun_inv r gs i c r' :
  owned_call c = true → (c = CallWarmUp → strict = false) → (c = CallTotalCount → ordered = false) →
  pool_inv r gs → (calls_in_progress r < S extra)%nat → run_event (Begin i c) r = Some r' → pool_inv r' gs.
Proof.
  intros Ho Hw Hc HI Hlt (t & Ht & Hs)%bind_Some. apply bind_Some in Hs as (t' & Hs & [= <-]).
  eapply pool_inv_replace; [done..|intros g Hg; eapply begin_inv; [done..|apply HI|done|done]|].
  destruct (busy_change _ _ t t' Ht) as [Hle _]. unfold calls_in_progress in *. cbn [clients]. lia.
Qed.

(** ** Where the system begins *)

Record pool_ready (p : SandboxPool) : Prop := {
  ready_max : max_pool_size p = max;
  ready_idle : idle_guard p = None;
  ready_active : active_guard p = None;
  ready_registry : active p = ∅;
  ready_nodup : NoDup (sb_id <$> idle p);
  ready_from : Forall (λ h, ∃ j h', (j < created p)%nat ∧ factory_create (pool_config p) j = Ok h' ∧ sb_id h' = sb_id h) (idle p);
  ready_size : strict = true → (length (idle p) <= max)%nat
}.

Lemma owners_none n : owners (replicate n nothing) = [].
Proof. by induction n. Qed.

Lemma nothing_lookup n i g : replicate n nothing !! i = Some g → g = nothing.
Proof. by intros [-> _]%lookup_replicate. Qed.

Lemma ready_inv p n : pool_ready p → pool_inv (mkPoolRun p (replicate n Free)) (replicate n nothing).
Proof.
  intros []. split; [|split]; cbn.
  - by apply Forall2_replicate.
  - assert (ids p (replicate n nothing) = sb_id <$> idle p) as Hids by (unfold ids; by rewrite owners_none, app_nil_r).
    split; rewrite ?Hids; try done.
    + intros i. rewrite ready_idle0. split; [done|]. intros (g & ->%nothing_lookup & ?). done.
    + intros i. rewrite ready_active0. split; [done|]. intros (g & ->%nothing_lookup & ?). done.
    + by rewrite Forall_fmap.
    + intros i g id ->%nothing_lookup. done.
    + intros id [h Hh]. by rewrite ready_registry0 in Hh.
    + intros i g m ->%nothing_lookup. done.
    + intros i g m _ ->%nothing_lookup. done.
    + intros Hs. rewrite length_fmap. specialize (ready_size0 Hs). lia.
  - unfold calls_in_progress. cbn. induction n; cbn; [lia|done].
Qed.

(** Calls the checks of [okp] cover. *)
Definition covered_call (c : pool_call) : bool :=
  match c with CallWarmUp => negb strict | CallTotalCount => negb ordered | c => owned_call c end.

Lemma reachable_inv p n r :
  pool_ready p → rtc (pool_step covered_call (S extra)) (mkPoolRun p (replicate n Free)) r → ∃ gs, pool_inv r gs.
Proof.
  intros Hp Hr. eapply (rtc_ind_r (λ r, ∃ gs, pool_inv r gs)); [|clear r Hr|exact Hr].
  { eexists. by apply ready_inv. }
  intros r r' _ [(i & c & Hc & Hlt & He)|(i & He)] [gs HI]; [|by eapply step_inv].
  exists gs. eapply (begun_inv _ _ _ c); [by destruct c|..|done|done|done]; intros ->; by apply negb_true_iff in Hc.
Qed.

(** ** What the invariant gives *)

Lemma inv_exclusive r gs i j h h' :
  pool_inv r gs → i ≠ j → clients r !! i = Some (Holding h) → clients r !! j = Some (Holding h') → sb_id h ≠ sb_id h'.
Proof.
  intros (Hok & HI & _) Hne Hi Hj Heq. destruct (Forall2_lookup_l _ _ _ _ _ Hok Hi) as (g & Hg & ->).
  destruct (Forall2_lookup_l _ _ _ _ _ Hok Hj) as (g' & Hg' & ->). pose proof (pi_nodup _ _ HI) as Hnd.
  eapply (other_own _ _ i j _ _ (sb_id h) true true Hnd); try done. cbn. by rewrite Heq.
Qed.

Lemma inv_not_idle r gs i h :
  pool_inv r gs → clients r !! i = Some (Holding h) → sb_id h ∉ sb_id <$> idle (the_pool r) ∧ is_Some (active (the_pool r) !! sb_id h).
Proof.
  intros (Hok & HI & _) Hi. destruct (Forall2_lookup_l _ _ _ _ _ Hok Hi) as (g & Hg & ->).
  split; [|by eapply pi_reg]. intros Hin. pose proof (pi_nodup _ _ HI) as Hnd. apply NoDup_app in Hnd as (_ & Hnd & _).
  eapply Hnd; [done|]. apply list_elem_of_omap. exists (holding (sb_id h)). split; [by eapply list_elem_of_lookup_2|done].
Qed.

Lemma inv_bound r gs :
  strict = true → pool_inv r gs → (length (idle (the_pool r)) + size (active (the_pool r)) <= max + extra)%nat.
Proof.
  intros Hs (Hok & HI & _). pose proof (pi_bound _ _ HI Hs) as Hle. unfold ids in Hle. rewrite length_app, length_fmap in Hle.
  enough (size (active (the_pool r)) <= length (owners gs))%nat by lia.
  rewrite <- size_dom. apply (submseteq_length (elements (dom (active (the_pool r))))), NoDup_submseteq; [apply NoDup_elements|].
  intros id Hid%elem_of_elements%elem_of_dom. destruct (pi_dom _ _ HI id Hid) as (i & g & Hi & Hg).
  apply list_elem_of_omap. exists g. split; [by eapply list_elem_of_lookup_2|by rewrite Hg].
Qed.

Lemma some_is_Some {A} (x : A) : is_Some (Some x).
Proof. by eexists. Qed.

(** Whoever has the guard of the idle sandboxes goes on. *)
Lemma idle_holder_steps {A} (Q : A → option (string * bool) → Prop) i q g p :
  ordered = true → okp Q q g → g_idle g = true → is_Some (prog_step i q p).
Proof.
  intros Ho Hq Hg. destruct g as [li la gi ga own]; cbn in Hg; subst li.
  destruct q; cbn in *; destruct_and?; simplify_eq; try apply some_is_Some.
  - naive_solver.
  - destruct (pop_last _). apply some_is_Some.
Qed.

(** Whoever has the guard of the active ones goes on, or waits for the idle ones. *)
Lemma active_holder_steps {A} (Q : A → option (string * bool) → Prop) i q g p :
  okp Q q g → g_active g = true → is_Some (prog_step i q p) ∨ idle_guard p ≠ None.
Proof.
  intros Hq Hg. destruct g as [li la gi ga own]; cbn in Hg; subst la.
  destruct q; cbn in *; destruct_and?; simplify_eq; try (left; apply some_is_Some).
  - destruct (idle_guard p); [by right|left; apply some_is_Some].
  - left. destruct (pop_last _). apply some_is_Some.
Qed.

Lemma waiting_for {A} i (q : pprog A) p :
  (∀ a, q ≠ Done a) → is_Some (prog_step i q p) ∨ idle_guard p ≠ None ∨ active_guard p ≠ None.
Proof.
  intros Hq. destruct q; cbn; try (left; apply some_is_Some); [by destruct (Hq a)| | |].
  - destruct (idle_guard p); [right; by left|left; apply some_is_Some].
  - destruct (active_guard p); [right; by right|left; apply some_is_Some].
  - left. destruct (pop_last _). apply some_is_Some.
Qed.

Definition can_go (i : nat) (p : SandboxPool) (t : client) : Prop :=
  match t with
  | Free | Holding _ => False
  | Acquiring q => is_Some (prog_step i q p) ∨ ∃ a, q = Done a
  | Releasing _ q | Maintaining q => is_Some (prog_step i q p) ∨ ∃ a, q = Done a
  | Asking q => is_Some (prog_step i q p) ∨ ∃ a, q = Done a
  end.

Lemma can_go_steps i p t : can_go i p t → is_Some (step_client i t p).
Proof.
  destruct t as [|q|h|h q|q|q]; cbn [can_go step_client]; try done; intros [Hs|[a ->]]; try done.
  all: try (by destruct a; eexists).
  all: destruct Hs as [[q' p'] Hs]; destruct q; try done; rewrite Hs; by eexists.
Qed.

Lemma idle_holder_goes i t g p : ordered = true → okc t g → g_idle g = true → can_go i p t.
Proof.
  intros Ho Hok Hg. destruct t; cbn in *; simplify_eq/=; try done; left; by eapply idle_holder_steps.
Qed.

Lemma active_holder_goes i t g p : okc t g → g_active g = true → can_go i p t ∨ idle_guard p ≠ None.
Proof.
  intros Hok Hg. destruct t; cbn in *; simplify_eq/=; try done;
    (destruct (active_holder_steps _ i _ _ p Hok Hg); [left; by left|by right]).
Qed.

Lemma waiting_client i t p : busy t = true → can_go i p t ∨ idle_guard p ≠ None ∨ active_guard p ≠ None.
Proof.
  assert (∀ A (q : pprog A), (is_Some (prog_step i q p) ∨ ∃ a, q = Done a) ∨ idle_guard p ≠ None ∨ active_guard p ≠ None) as Hq.
  { intros A q. destruct q as [a| | | | | | | | | | | | |] eqn:Hq; [left; right; by eexists|..];
      (destruct (waiting_for i q p) as [Hs|Hs]; [by rewrite Hq|rewrite Hq in Hs; left; by left|by right]). }
  destruct t; cbn; try done; intros _; apply Hq.
Qed.

Lemma inv_progress r gs i t :
  ordered = true → pool_inv r gs → clients r !! i = Some t → busy t = true →
  ∃ j r', run_event (Step j) r = Some r'.
Proof.
  intros Ho (Hok & HI & _) Ht Hb. set (p := the_pool r) in *.
  assert (∀ j, (∃ tj, clients r !! j = Some tj ∧ can_go j p tj) → ∃ j r', run_event (Step j) r = Some r') as Hgo.
  { intros j (tj & Hj & Hc). apply can_go_steps in Hc as [[t' p'] Hc]. eexists j, _. cbn.
    rewrite Hj. cbn. fold p. rewrite Hc. done. }
  assert (idle_guard p ≠ None → ∃ j r', run_event (Step j) r = Some r') as Hidle.
  { destruct (idle_guard p) as [j|] eqn:Hg; [intros _|done]. apply (pi_idle _ _ HI) in Hg as (g & Hg & Hgi).
    destruct (Forall2_lookup_r _ _ _ _ _ Hok Hg) as (tj & Hj & Hjg). apply (Hgo j). exists tj.
    split; [done|]. by eapply idle_holder_goes. }
  destruct (waiting_client i t p Hb) as [Hc|[Hg|Hg]]; [eauto|by apply Hidle|].
  destruct (active_guard p) as [j|] eqn:Ha; [|done]. apply (pi_active _ _ HI) in Ha as (g & Hgj & Hga).
  destruct (Forall2_lookup_r _ _ _ _ _ Hok Hgj) as (tj & Hj & Hjg).
  destruct (active_holder_goes j tj g p Hjg Hga) as [Hc|Hc]; [eauto|by apply Hidle].
Qed.
End Pool.

(** ** The pool *)

Section Theorems.
Context `{SandboxFactory, !FactoryOk}.

Lemma pool_step_mono allowed allowed' limit limit' r r' :
  (∀ c, allowed c = true → allowed' c = true) → (limit <= limit')%nat →
  pool_step allowed limit r r' → pool_step allowed' limit' r r'.
Proof. intros Ha Hl [(i & c & Hc & Hlt & He)|?]; [left; exists i, c|by right]. split_and!; [by apply Ha|lia|done]. Qed.

Lemma new_ready strict config max warm : pool_ready strict max (SandboxPool_new config max warm).
Proof. split; try done; [constructor|intros _; cbn; lia]. Qed.

Lemma warm_loop_ready fuel i max k p a p' :
  max_pool_size p = max → active_guard p = None → active p = ∅ → NoDup (sb_id <$> idle p) →
  Forall (λ h, ∃ j h', (j < created p)%nat ∧ factory_create (pool_config p) j = Ok h' ∧ sb_id h' = sb_id h) (idle p) →
  (length (idle p) + k <= max)%nat →
  run_alone fuel i (warm_loop k) p = Some (a, p') → pool_ready true max p'.
Proof.
  revert fuel p. induction k as [|k IH]; intros fuel p Hmax Hag Hact Hnd Hfrom Hlen Hrun.
  - destruct fuel as [|fuel]; [done|]. cbn in Hrun. destruct fuel; cbn in Hrun; simplify_eq; split; try done; cbn; lia.
  - destruct fuel as [|fuel]; [done|]. cbn in Hrun. destruct (factory_create _ _) as [h|e] eqn:Hh.
    + destruct fuel as [|fuel]; [done|]. cbn in Hrun. eapply IH; [..|exact Hrun]; cbn; try done.
      * rewrite fmap_app. apply NoDup_app. split; [done|]. split; [|cbn; apply NoDup_singleton].
        intros id (h' & -> & Hin)%list_elem_of_fmap Hid%list_elem_of_singleton.
        rewrite Forall_forall in Hfrom. destruct (Hfrom h' Hin) as (j & h'' & Hj & Hh'' & Heq).
        pose proof (create_fresh _ _ _ _ _ Hh'' Hh (eq_trans Heq Hid)). lia.
      * apply Forall_app. split.
        -- eapply Forall_impl; [done|]. intros h' (j & h'' & Hj & ?). exists j, h''. split; [lia|done].
        -- repeat constructor. exists (created p), h. split; [lia|done].
      * rewrite length_app. cbn. lia.
    + destruct fuel as [|fuel]; [done|]. cbn in Hrun. destruct fuel; cbn in Hrun; simplify_eq; split; try done; cbn; try lia;
        (eapply Forall_impl; [done|]); intros h' (j & h'' & Hj & ?); exists j, h''; (split; [lia|done]).
Qed.

(** A pool that is warmed up before it is used is ready, unless more are to be kept warm than
    it may have. *)
Lemma warm_up_ready fuel i config max warm a p :
  (warm <= max)%nat → run_alone fuel i (warm_up warm) (SandboxPool_new config max warm) = Some (a, p) →
  pool_ready true max p.
Proof.
  intros Hle Hrun. destruct fuel as [|[|fuel]]; [done..|]. cbn in Hrun.
  eapply warm_loop_ready; [..|exact Hrun]; try done; [constructor|cbn; lia].
Qed.

(** C32: however calls interleave, when every client gives back only the handle it holds, and
    so gives it back once, no sandbox is in the hands of two clients: the ids of the handles
    the clients hold are pairwise distinct, none of them is idle, and each is registered as
    active.  (A handle can be cloned: one that is given back twice is handed out twice,
    [double_release_shares].) *)
Theorem pool_exclusive config max warm n limit r :
  rtc (pool_step owned_call limit) (mkPoolRun (SandboxPool_new config max warm) (replicate n Free)) r →
  (∀ i j h h', i ≠ j → clients r !! i = Some (Holding h) → clients r !! j = Some (Holding h') → sb_id h ≠ sb_id h') ∧
  (∀ i h, clients r !! i = Some (Holding h) →
     sb_id h ∉ sb_id <$> idle (the_pool r) ∧ is_Some (active (the_pool r) !! sb_id h)).
Proof.
  intros Hr. destruct (reachable_inv false false max limit _ n r (new_ready false config max warm)) as [gs HI].
  { eapply rtc_subrel; [|exact Hr]. intros a b. apply pool_step_mono; [by intros []|lia]. }
  split; [intros i j h h'; by apply (inv_exclusive _ _ _ _ _ _ _ _ _ _ HI)|intros i h; by apply (inv_not_idle _ _ _ _ _ _ _ _ HI)].
Qed.


(** C34: the two mutexes never deadlock the pool as long as [total_count] is not called:
    while a call is in progress, some call can go on. *)
Theorem pool_goes_on config max warm n limit r i t :
  rtc (pool_step (without CallTotalCount) limit) (mkPoolRun (SandboxPool_new config max warm) (replicate n Free)) r →
  clients r !! i = Some t → busy t = true →
  ∃ j r', run_event (Step j) r = Some r'.
Proof.
  intros Hr. destruct (reachable_inv false true max limit _ n r (new_ready false config max warm)) as [gs HI].
  { eapply rtc_subrel; [|exact Hr]. intros a b. apply pool_step_mono; [by intros []|lia]. }
  by eapply (inv_progress false true).
Qed.
End Theorems.

(** * Runs of the sandbox pool

    Concrete runs: the witnesses of the theorems of [SandboxPoolProps], and what the pool does
    where its comments promise more. *)

(** Sandboxes numbered in the order of their creation. *)
#[local] Instance numbered : SandboxFactory := {| factory_create _ n := Ok (mkHandle (pretty n) SbReady 0) |}.
#[local] Instance numbered_ok : FactoryOk.
Proof. split. intros config i j h h' [= <-] [= <-] Hid. by apply (inj pretty). Qed.

Definition demo_pool (max warm : nat) : SandboxPool := SandboxPool_new SandboxConfig_default max warm.
Definition pool_start (max warm n : nat) : PoolRun := mkPoolRun (demo_pool max warm) (replicate n Free).
Definition steps (i n : nat) : list pool_event := replicate n (Step i).

Lemma run_events_reach allowed limit l r r' :
  forallb (λ e, match e with Begin _ c => allowed c | Step _ => true end) l = true →
  (length (clients r) < limit)%nat →
  run_events l r = Some r' → rtc (pool_step allowed limit) r r'.
Proof.
  revert r. induction l as [|e l IH]; intros r Hall Hlim Hrun; cbn in *; [by simplify_eq|].
  apply andb_true_iff in Hall as [He Hall]. apply bind_Some in Hrun as (r1 & H1 & Hrun).
  assert (length (clients r1) = length (clients r)) as Hlen.
  { destruct e; cbn in H1; apply bind_Some in H1 as (t & _ & H1); apply bind_Some in H1 as (x & _ & H1);
      [|destruct x]; simplify_eq; cbn; by rewrite length_insert. }
  eapply rtc_l; [|apply IH; [done|by rewrite Hlen|done]].
  destruct e as [i c|i]; [left; exists i, c|right; by exists i]. split_and!; [done| |done].
  unfold calls_in_progress. pose proof (filterb_length busy (clients r)). lia.
Qed.

(** Two clients that each have a sandbox. *)
Definition two_holders : list pool_event :=
  Begin 0 CallAcquire :: steps 0 12 ++ Begin 1 CallAcquire :: steps 1 12.

Lemma pool_exclusive_witness :
  ∃ r h h', run_events two_holders (pool_start 2 1 2) = Some r ∧
    clients r !! 0%nat = Some (Holding h) ∧ clients r !! 1%nat = Some (Holding h') ∧ sb_id h ≠ sb_id h'.
Proof.
  destruct (run_events two_holders (pool_start 2 1 2)) as [r|] eqn:Hr; [|vm_compute in Hr; discriminate Hr].
  assert (rtc (pool_step owned_call 3) (pool_start 2 1 2) r) as Hreach.
  { apply (run_events_reach _ _ two_holders); [done|cbn; lia|done]. }
  destruct (pool_exclusive SandboxConfig_default 2 1 2 3 r Hreach) as [Hex _].
  pose proof Hr as Hv. vm_compute in Hv. injection Hv as <-.
  eexists _, _, _. split; [exact Hr|]. split; [reflexivity|]. split; [reflexivity|].
  by apply (Hex 0%nat 1%nat).
Defined.


(** The first client waits for the guard the second one has. *)
Definition one_waits : list pool_event := [Begin 0 CallAcquire; Begin 1 CallAcquire; Step 1].

Lemma pool_goes_on_witness :
  ∃ r j r', run_events one_waits (pool_start 2 1 2) = Some r ∧ run_event (Step 0) r = None ∧ run_event (Step j) r = Some r'.
Proof.
  destruct (run_events one_waits (pool_start 2 1 2)) as [r|] eqn:Hr; [|vm_compute in Hr; discriminate Hr].
  assert (rtc (pool_step (without CallTotalCount) 3) (pool_start 2 1 2) r) as Hreach.
  { apply (run_events_reach _ _ one_waits); [done|cbn; lia|done]. }
  pose proof (pool_goes_on SandboxConfig_default 2 1 2 3 r 0 (Acquiring (acquire 2)) Hreach) as Hgo.
  pose proof Hr as Hv. vm_compute in Hv. injection Hv as <-. destruct (Hgo eq_refl eq_refl) as (j & r' & Hj).
  eexists _, j, r'. split; [exact Hr|]. by split.
Defined.

(** ** What the comments promise *)

(** The idle sandbox is taken before it is registered, so a second caller finds room that is
    not there: two sandboxes in a pool of one. *)
Definition overtaken_acquire : list pool_event :=
  Begin 0 CallAcquire :: steps 0 12 ++ Begin 0 CallRelease :: steps 0 8
  ++ Begin 0 CallAcquire :: steps 0 3 ++ Begin 1 CallAcquire :: steps 1 12 ++ steps 0 4.

Theorem pool_exceeds_max :
  ∃ r, run_events overtaken_acquire (pool_start 1 1 2) = Some r ∧
    max_pool_size (the_pool r) = 1%nat ∧ size (active (the_pool r)) = 2%nat ∧
    clients r = [Holding (mkHandle "0" SbBusy 0); Holding (mkHandle "1" SbBusy 0)].
Proof. by eexists; vm_compute. Qed.

(** Warming up does not look at the limit or at the active sandboxes. *)
Theorem warm_up_exceeds_max :
  ∃ p, run_alone 20 0 (warm_up 3) (demo_pool 1 3) = Some (Ok tt, p) ∧
    max_pool_size p = 1%nat ∧ length (idle p) = 3%nat.
Proof. by eexists; vm_compute. Qed.

(** [total_count] waits for the active ones with the idle ones locked, [acquire] the other way
    round: both wait forever. *)
Definition crossed : list pool_event :=
  Begin 0 CallAcquire :: steps 0 4 ++ Begin 1 CallTotalCount :: steps 1 2.

Theorem total_count_deadlocks :
  ∃ r, run_events crossed (pool_start 2 1 2) = Some r ∧
    forallb busy (clients r) = true ∧ ∀ i, run_event (Step i) r = None.
Proof. eexists. split; [by vm_compute|]. split; [done|]. by intros [|[|i]]. Qed.

(** A handle can be cloned, and giving it back twice makes two idle sandboxes of one, which are
    given to two callers. *)
Definition given_back_twice : option (result SandboxHandle EngineError * result SandboxHandle EngineError) :=
  '(h, p) ← run_alone 20 0 (acquire 2) (demo_pool 2 2);
  match h with
  | Err _ => None
  | Ok h =>
      '(_, p) ← run_alone 20 0 (pool_release 2 h) p;
      '(_, p) ← run_alone 20 0 (pool_release 2 h) p;
      '(a, p) ← run_alone 20 0 (acquire 2) p;
      '(b, p) ← run_alone 20 0 (acquire 2) p;
      Some (a, b)
  end.

Theorem double_release_shares :
  given_back_twice = Some (Ok (mkHandle "0" SbBusy 0), Ok (mkHandle "0" SbBusy 0)).
Proof. by vm_compute. Qed.
