(* ===== verification/FileTracker.v ===== *)
(** * Tracking the files a command changed

    [uc-engine/src/sandbox/file_tracker.rs]: the baseline commit, the diff against it and the
    parser of the diff.  [git] is a parameter ([Git]): what a command with its arguments does
    to the state of the repositories [W], and how it ends. *)

From Stdlib Require Import String Ascii.
From stdpp Require Import strings.
From S2P Require Import Prelude RustStr Task Merge Sandbox.

(** ** The parser *)

(** What is before and after the first [c], and [splitn(n, c)]. *)
Fixpoint cut_char (c : ascii) (l : list ascii) : option (list ascii * list ascii) :=
  match l with
  | [] => None
  | d :: l => if d ==? c then Some ([], l) else '(a, b) ← cut_char c l; Some (d :: a, b)
  end.
Fixpoint splitn_char (c : ascii) (n : nat) (l : list ascii) : list (list ascii) :=
  match n with
  | O => []
  | S n' =>
      match n', cut_char c l with
      | S _, Some (a, b) => a :: splitn_char c n' b
      | _, _ => [l]
      end
  end.

Definition extract_path_from_diff_header (line : string) : option string :=
  match of_chars <$> splitn_char " " 4 (chars line) with
  | _ :: _ :: _ :: b_path :: _ =>
      match strip_prefix b_path "b/" with
      | Some path => Some path
      | None => Some b_path
      end
  | _ => None
  end.

Record DiffState : Type := mkDiffState {
  ds_changes : list FileChange;
  current_path : option string;
  current_diff_lines : list string;
  is_new_file : bool;
  is_deleted_file : bool
}.

Definition change_of (st : DiffState) (path : string) : FileChange :=
  mkFileChange path
    (if is_new_file st then FileCreated else if is_deleted_file st then FileDeleted else FileModified)
    (join_lines (current_diff_lines st)).

(** The changes with the file that was being read. *)
Definition flushed (st : DiffState) : list FileChange :=
  match current_path st with
  | Some path => ds_changes st ++ [change_of st path]
  | None => ds_changes st
  end.

Definition parse_line (st : DiffState) (line : string) : DiffState :=
  let st :=
    if starts_with line "diff --git " then
      mkDiffState (flushed st) (extract_path_from_diff_header line)
        (match current_path st with Some _ => [] | None => current_diff_lines st end) false false
    else st in
  let new := if starts_with line "new file" then true else is_new_file st in
  let deleted := if starts_with line "deleted file" then true else is_deleted_file st in
  mkDiffState (ds_changes st) (current_path st)
    (match current_path st with Some _ => current_diff_lines st ++ [line] | None => current_diff_lines st end)
    new deleted.

Definition parse_unified_diff (text : string) : list FileChange :=
  flushed (foldl parse_line (mkDiffState [] None [] false false) (lines text)).

(** ** The tracker *)

Inductive GitOutcome : Type :=
| GitFailed (error : string)
| GitReadFailed (error : string)
| GitWaitFailed (error : string)
| GitExited (success : bool) (stdout : list Z).

Class Git (W : Type) := { git_run : string → list string → W → GitOutcome * W }.

Section Tracker.
Context {W : Type} `{Git W, Process}.

(** A command whose output is not read. *)
Definition git_status (working_dir : string) (args : list string) (what failed : string) (w : W)
    : result unit EngineError * W :=
  let '(o, w) := git_run working_dir args w in
  (match o with
   | GitFailed e | GitReadFailed e | GitWaitFailed e => Err (SandboxError (what +:+ " failed: " +:+ e))
   | GitExited true _ => Ok tt
   | GitExited false _ => Err (SandboxError failed)
   end, w).

Definition create_baseline (working_dir : string) (w : W) : result unit EngineError * W :=
  match git_status working_dir ["add"; "-A"] "git add" "git add -A failed (not a git repo?)" w with
  | (Err e, w) => (Err e, w)
  | (Ok _, w) =>
      git_status working_dir ["commit"; "--allow-empty"; "-m"; "sandbox-baseline"] "git commit"
        "git commit baseline failed" w
  end%string.

Definition get_changes (working_dir : string) (w : W) : result (list FileChange) EngineError * W :=
  let '(o, w) := git_run working_dir ["diff"; "HEAD~1"; "--unified=0"]%string w in
  (match o with
   | GitFailed e => Err (SandboxError ("git diff spawn failed: " +:+ e))
   | GitReadFailed e => Err (SandboxError ("git diff read failed: " +:+ e))
   | GitWaitFailed e => Err (SandboxError ("git diff wait failed: " +:+ e))
   | GitExited false _ => Err (SandboxError "git diff HEAD~1 failed")
   | GitExited true stdout => Ok (parse_unified_diff (from_utf8_lossy stdout))
   end, w).

Definition reset_baseline (working_dir : string) (w : W) : result unit EngineError * W :=
  git_status working_dir ["reset"; "--soft"; "HEAD~1"]%string "git reset" "git reset --soft HEAD~1 failed" w.

Definition get_changes_and_reset (working_dir : string) (w : W) : result (list FileChange) EngineError * W :=
  match get_changes working_dir w with
  | (Err e, w) => (Err e, w)
  | (Ok changes, w) => let '(_, w) := reset_baseline working_dir w in (Ok changes, w)
  end.
End Tracker.

(** ** Reading what git prints *)

(** One file of a diff: its path, what happened to it and the lines that follow its header. *)
Record FileDiff : Type := mkFileDiff {
  fd_path : string;
  fd_kind : ChangeType;
  fd_body : list string
}.

Definition mode_lines (k : ChangeType) : list string :=
  match k with
  | FileCreated => ["new file mode 100644"]
  | FileDeleted => ["deleted file mode 100644"]
  | FileModified => []
  end%string.
Definition file_lines (f : FileDiff) : list string :=
  ("diff --git a/" +:+ fd_path f +:+ " b/" +:+ fd_path f) :: mode_lines (fd_kind f) ++ fd_body f.
Definition print_lines (l : list string) : string := of_chars (concat ((λ s, chars s ++ [newline]) <$> l)).
Definition print_diff (l : list FileDiff) : string := print_lines (l ≫= file_lines).

Definition clean_line (s : string) : Prop := newline ∉ chars s ∧ last (chars s) ≠ Some carriage_return.
Definition body_line (s : string) : Prop :=
  starts_with s "diff --git " = false ∧ starts_with s "new file" = false ∧ starts_with s "deleted file" = false.
Definition printable (f : FileDiff) : Prop :=
  " "%char ∉ chars (fd_path f) ∧ Forall body_line (fd_body f) ∧ Forall clean_line (file_lines f).
Definition change_read (f : FileDiff) : FileChange :=
  mkFileChange (fd_path f) (fd_kind f) (join_lines (file_lines f)).

Lemma cut_char_app c a b : c ∉ a → cut_char c (a ++ c :: b) = Some (a, b).
Proof.
  induction a as [|d a IH]; intros Hc; cbn; [by rewrite bool_decide_eq_true_2|].
  rewrite bool_decide_eq_false_2 by set_solver. rewrite IH by set_solver. done.
Qed.

Lemma cut_char_none c a : c ∉ a → cut_char c a = None.
Proof.
  induction a as [|d a IH]; intros Hc; [done|]. cbn. rewrite bool_decide_eq_false_2 by set_solver.
  by rewrite IH by set_solver.
Qed.

Lemma splitn_char_app c n a b : c ∉ a → splitn_char c (S (S n)) (a ++ c :: b) = a :: splitn_char c (S n) b.
Proof. intros Hc. cbn [splitn_char]. by rewrite cut_char_app. Qed.

(** The path of a header, unless it has a space in it. *)
Lemma header_path p :
  " "%char ∉ chars p → extract_path_from_diff_header ("diff --git a/" +:+ p +:+ " b/" +:+ p) = Some p.
Proof.
  intros Hp. unfold extract_path_from_diff_header.
  assert (chars ("diff --git a/" +:+ p +:+ " b/" +:+ p)
          = chars "diff" ++ " "%char :: chars "--git" ++ " "%char :: chars ("a/" +:+ p) ++ " "%char :: chars ("b/" +:+ p)) as ->.
  { by rewrite !chars_app. }
  assert (" "%char ∉ chars ("a/" +:+ p)) as Ha.
  { rewrite chars_app. intros [Hin|Hin]%elem_of_app; [vm_compute in Hin; set_solver|done]. }
  rewrite !splitn_char_app; [|exact Ha|vm_compute; set_solver..]. cbn [splitn_char fmap list_fmap].
  rewrite of_chars_chars. replace (strip_prefix ("b/" +:+ p) "b/") with (Some p); [done|]. symmetry.
  apply strip_prefix_Some. by rewrite chars_app.
Qed.

Lemma split_char_app c a b : c ∉ a → split_char c (a ++ c :: b) = a :: split_char c b.
Proof.
  intros Hc. induction a as [|d a IH]; cbn.
  - destruct (split_char c b) as [|x xs] eqn:Hs; [by destruct (proj2 (split_no_char c b))|].
    by rewrite bool_decide_eq_true_2.
  - rewrite IH by set_solver. by rewrite bool_decide_eq_false_2 by set_solver.
Qed.

Lemma strip_cr_clean l : last l ≠ Some carriage_return → strip_cr l = l.
Proof.
  intros Hl. unfold strip_cr. destruct (rev l) as [|c r] eqn:Hr; [done|].
  assert (l = rev r ++ [c]) as -> by (rewrite <- (rev_involutive l), Hr; done).
  rewrite last_snoc in Hl. by rewrite bool_decide_eq_false_2 by congruence.
Qed.

Lemma lines_print l : Forall clean_line l → lines (print_lines l) = l.
Proof.
  intros Hl. unfold lines, print_lines. rewrite chars_of_chars. induction Hl as [|s l [Hn Hr] Hl IH]; [done|].
  csimpl. rewrite <- app_assoc. cbn [app]. rewrite split_char_app by done.
  destruct (split_char newline _) as [|x xs] eqn:Hs; [by destruct (proj2 (split_no_char newline (concat ((λ s, chars s ++ [newline]) <$> l))))|].
  cbn [terminate]. rewrite strip_cr_clean by done. csimpl. rewrite of_chars_chars. by f_equal.
Qed.

Lemma parse_body st l :
  current_path st ≠ None → Forall body_line l →
  foldl parse_line st l = mkDiffState (ds_changes st) (current_path st) (current_diff_lines st ++ l)
                            (is_new_file st) (is_deleted_file st).
Proof.
  intros Hp Hl. revert st Hp. induction Hl as [|s l (Hd & Hn & Hx) Hl IH]; intros st Hp; cbn [foldl].
  - rewrite app_nil_r. by destruct st.
  - rewrite IH; unfold parse_line; rewrite Hd, Hn, Hx; [|done]. destruct (current_path st); [|done]. cbn.
    by rewrite <- app_assoc.
Qed.

(** The state after a file: it is the current one, and what came before it is kept. *)
Lemma parse_file st f :
  (current_path st = None → current_diff_lines st = []) → printable f →
  let st' := foldl parse_line st (file_lines f) in
  ds_changes st' = flushed st ∧ current_path st' = Some (fd_path f) ∧ flushed st' = flushed st ++ [change_read f].
Proof.
  intros Hst (Hsp & Hbody & _) st'. subst st'. unfold file_lines. cbn [foldl]. rewrite foldl_app.
  assert (parse_line st ("diff --git a/" +:+ fd_path f +:+ " b/" +:+ fd_path f)
          = mkDiffState (flushed st) (Some (fd_path f)) ["diff --git a/" +:+ fd_path f +:+ " b/" +:+ fd_path f] false false) as ->.
  { unfold parse_line. rewrite (header_path _ Hsp). cbn [starts_with].
    replace (starts_with _ "diff --git ") with true by done.
    replace (starts_with _ "new file") with false by done. replace (starts_with _ "deleted file") with false by done.
    cbn. destruct (current_path st); cbn; [done|]. by rewrite Hst. }
  rewrite parse_body; [|by destruct f as [? [] ?]|done].
  destruct f as [p k body]; destruct k; cbn; done.
Qed.

(** What git prints of a list of files is read back: one change per file, in order, with
    its path, whether it was created, deleted or modified, and its part of the text, for every
    list of files whose paths have no space and whose lines have no line break. *)
Theorem diff_reads_back l : Forall printable l → parse_unified_diff (print_diff l) = change_read <$> l.
Proof.
  intros Hl. unfold parse_unified_diff, print_diff. rewrite lines_print.
  2:{ apply Forall_bind. eapply Forall_impl; [exact Hl|]. by intros f (_ & _ & ?). }
  assert (∀ st, (current_path st = None → current_diff_lines st = []) →
            flushed (foldl parse_line st (l ≫= file_lines)) = flushed st ++ (change_read <$> l)) as Hgen; [|by rewrite Hgen].
  induction Hl as [|f l Hf Hl IH]; intros st Hst; [by rewrite app_nil_r|].
  rewrite bind_cons, fmap_cons, foldl_app. destruct (parse_file st f Hst Hf) as (_ & Hp & Hfl).
  rewrite IH, Hfl, <- app_assoc; [done|]. congruence.
Qed.

Definition demo_diff : list FileDiff :=
  [mkFileDiff "src/main.rs" FileModified ["--- a/src/main.rs"; "+++ b/src/main.rs"; "@@ -1 +1 @@"; "-old"; "+new file"];
   mkFileDiff "a.txt" FileCreated ["--- /dev/null"; "+++ b/a.txt"; "+x"]]%string.

Lemma diff_reads_back_witness : parse_unified_diff (print_diff demo_diff) = change_read <$> demo_diff.
Proof.
  apply diff_reads_back. repeat constructor; try done; vm_compute; set_solver.
Defined.

(** A path with a space is read from the middle of the header. *)
Theorem spaced_path_is_cut :
  extract_path_from_diff_header "diff --git a/my file.rs b/my file.rs" = Some "file.rs b/my file.rs"%string.
Proof. done. Qed.
