(* ===== verification/Search.v ===== *)
(** * Searching code

    [uc-types/src/search.rs] and the chunks of [index.rs]; [uc-engine/src/indexer/semantic.rs]
    (chunks, embeddings kept in long-term memory or aside, and the search over both),
    [search/semantic.rs], [search/hybrid.rs] (all modes, merged), [git.rs]'s
    [detect_language], and the conversions of [uc-grpc/src/conversions.rs].

    - What the text index and the index of symbols answer is the interface [SearchIndex];
      TextIndex.v and Metadata.v model them and IndexPipeline.v has the instance.  The
      embeddings of a batch of texts ([embed_batch], [embed]; their service is modelled in
      Embedding.v) and the digest of a chunk's identity ([ChunkDigest]) are parameters.
    - The order in which a map of results is emptied is the argument [iter].
    - [truncate_str] has a value for every text ([truncate_str_cuts]). *)

From Stdlib Require Import String Ascii SpecFloat.
From stdpp Require Import gmap strings pretty.
From S2P Require Import Prelude RustStr Task Merge GraphStore GatewayEvents Ranking Memory Sandbox FileTracker.

(** ** Queries and results *)

Inductive SearchMode : Type := ModeText | ModeSemantic | ModeAst | ModeHybrid.
#[export] Instance SearchMode_eq_dec : EqDecision SearchMode.
Proof. solve_decision. Defined.

Record SearchQuery : Type := mkQuery {
  sq_query : string;
  sq_modes : list SearchMode;
  sq_repo_ids : list string;
  sq_languages : list string;
  sq_path_patterns : list string;
  sq_max_results : Z
}.

Record SearchResultItem : Type := mkItem {
  it_repo_id : string;
  it_file_path : string;
  it_start_line : Z;
  it_end_line : Z;
  content_snippet : string;
  match_type : SearchMode;
  it_score : f32;
  it_symbol_name : option string;
  it_symbol_kind : option string;
  it_parent_symbol : option string
}.

Inductive SymbolKind : Type :=
| KindFunction | KindMethod | KindClass | KindStruct | KindInterface | KindTrait | KindEnum | KindVariable
| KindConstant | KindType | KindModule | KindImport.

(** The names [#[derive(Debug)]] prints, in lower case. *)
Definition SymbolKind_lower (k : SymbolKind) : string :=
  match k with
  | KindFunction => "function" | KindMethod => "method" | KindClass => "class" | KindStruct => "struct"
  | KindInterface => "interface" | KindTrait => "trait" | KindEnum => "enum" | KindVariable => "variable"
  | KindConstant => "constant" | KindType => "type" | KindModule => "module" | KindImport => "import"
  end.

Inductive AstQuery : Type :=
| SymbolSearch (name : string) (kind : option SymbolKind)
| References (symbol_name : string) (repo_id : option string)
| CallChain (function_name : string)
| Implementations (interface_name : string)
| Imports (repo_id : string).

(** [file_path.rsplit('.').next()]: what follows the last dot, or the whole path. *)
Definition extension (path : string) : string :=
  match last (split_char "." (chars path)) with Some l => of_chars l | None => "" end.

Definition detect_language (path : string) : option string :=
  let ext := extension path in
  if ext ==? "rs" then Some "rust"
  else if ext ==? "py" then Some "python"
  else if ext ==? "js" then Some "javascript"
  else if ext ==? "ts" then Some "typescript"
  else if ext ==? "tsx" then Some "tsx"
  else if ext ==? "jsx" then Some "jsx"
  else if ext ==? "go" then Some "go"
  else if ext ==? "java" then Some "java"
  else if (ext ==? "c") || (ext ==? "h") then Some "c"
  else if (ext ==? "cpp") || (ext ==? "cc") || (ext ==? "cxx") || (ext ==? "hpp") then Some "cpp"
  else if ext ==? "rb" then Some "ruby"
  else if ext ==? "swift" then Some "swift"
  else if ext ==? "kt" then Some "kotlin"
  else if ext ==? "scala" then Some "scala"
  else if (ext ==? "sh") || (ext ==? "bash") then Some "bash"
  else if ext ==? "sql" then Some "sql"
  else if ext ==? "html" then Some "html"
  else if ext ==? "css" then Some "css"
  else if ext ==? "json" then Some "json"
  else if (ext ==? "yaml") || (ext ==? "yml") then Some "yaml"
  else if ext ==? "toml" then Some "toml"
  else if ext ==? "md" then Some "markdown"
  else None%string.

(** ** Chunks *)

Inductive ChunkType : Type := ChunkFile | ChunkSymbol | ChunkBlock.
Definition format_chunk_type (t : ChunkType) : string :=
  match t with ChunkFile => "file" | ChunkSymbol => "symbol" | ChunkBlock => "block" end.

Record CodeChunk : Type := mkChunk {
  ck_id : string;
  ck_repo_id : string;
  ck_file_path : string;
  ck_start_line : Z;
  ck_end_line : Z;
  ck_content : string;
  ck_language : string;
  ck_symbol_name : option string;
  ck_symbol_kind : option string;
  ck_parent_symbol : option string;
  ck_chunk_type : ChunkType;
  ck_content_hash : string
}.

Record ExtractedSymbol : Type := mkSymbol {
  sy_name : string;
  sy_kind : SymbolKind;
  sy_start_line : Z;
  sy_start_col : Z;
  sy_end_line : Z;
  sy_end_col : Z;
  sy_parent_symbol : option string;
  sy_content : string
}.

(** The UTF-8 bytes of a text, and the little-endian bytes of a [u32]. *)
Definition utf8_bytes (s : string) : list Z :=
  chars s ≫= λ c, let n := Z.of_nat (nat_of_ascii c) in
                  if n <? 128 then [n] else [192 + n `div` 64; 128 + n `mod` 64].
Definition u32_le_bytes (n : Z) : list Z :=
  [n `mod` 256; (n `div` 2 ^ 8) `mod` 256; (n `div` 2 ^ 16) `mod` 256; (n `div` 2 ^ 24) `mod` 256].

(** The BLAKE3 digest of bytes, and its hexadecimal text. *)
Class ChunkDigest := { blake3_digest : list Z → list Z; blake3_hex : list Z → string }.

Section Chunks.
Context `{ChunkDigest}.

Definition symbol_chunk_id (repo_id file_path : string) (start_line : Z) : string :=
  blake3_hex (utf8_bytes repo_id ++ utf8_bytes file_path ++ u32_le_bytes start_line).
Definition file_chunk_id (repo_id file_path : string) : string :=
  blake3_hex (utf8_bytes repo_id ++ utf8_bytes file_path ++ utf8_bytes "file").

Definition symbol_chunk (repo_id file_path language content_hash : string) (s : ExtractedSymbol) : option CodeChunk :=
  match sy_kind s with
  | KindImport => None
  | k => Some (mkChunk (symbol_chunk_id repo_id file_path (sy_start_line s)) repo_id file_path (sy_start_line s)
                 (sy_end_line s) (sy_content s) language (Some (sy_name s)) (Some (SymbolKind_lower k))
                 (sy_parent_symbol s) ChunkSymbol content_hash)
  end.

Definition create_chunks_from_ast (repo_id file_path language content content_hash : string)
    (symbols : list ExtractedSymbol) : list CodeChunk :=
  let chunks := omap (symbol_chunk repo_id file_path language content_hash) symbols in
  if (content !=? "") && negb (bool_decide (length chunks = 0%nat)) then
    chunks ++ [mkChunk (file_chunk_id repo_id file_path) repo_id file_path 1
                 (wrap_u32 (Z.of_nat (length (lines content)))) content language None None None ChunkFile content_hash]
  else chunks.
End Chunks.

(** ** The semantic index *)

Record FallbackCode : Type := mkFallbackCode {
  fc_point_id : string;
  fc_vector : list f32;
  fc_repo_id : string;
  fc_file_path : string;
  fc_start_line : Z;
  fc_end_line : Z;
  fc_language : string;
  fc_symbol_name : option string;
  fc_symbol_kind : option string;
  fc_parent_symbol : option string;
  fc_content : string
}.

Definition embedding_key (path : string) (start_line end_line : Z) : string :=
  "code_embedding:" +:+ path +:+ ":" +:+ pretty start_line +:+ ":" +:+ pretty end_line.

(** [rsplitn(n, c)]: the pieces from the end, the last one with what is left. *)
Definition rsplitn_char (c : ascii) (n : nat) (l : list ascii) : list (list ascii) :=
  (λ x, rev x) <$> splitn_char c n (rev l).

Definition parse_embedding_key (k : MemoryKey) : option (string * Z * Z) :=
  match k with
  | KeyProject _ inner =>
      rest ← strip_prefix inner "code_embedding:";
      match of_chars <$> rsplitn_char ":" 3 (chars rest) with
      | [e; s; path] => end_line ← parse_u32 e; start_line ← parse_u32 s; Some (path, start_line, end_line)
      | _ => None
      end
  | _ => None
  end.

Definition snippet (t : string) : string :=
  if (200 <? bytes_len (chars t))%nat then default ""%string (truncate_str t 200) +:+ "..." else t.

(** 0.8, 0.3 and 0.5 as 32-bit floats. *)
Definition f32_0_8 : f32 := S754_finite false 13421773 (-24).
Definition f32_0_3 : f32 := S754_finite false 10066330 (-25).
Definition f32_0_5 : f32 := S754_finite false 8388608 (-24).

(** The entry a chunk is kept as. *)
Definition chunk_entry (now : Instant) (c : CodeChunk) (vector : list f32) : MemoryEntry :=
  mkEntry (ck_id c) (KeyProject (ck_repo_id c) (embedding_key (ck_file_path c) (ck_start_line c) (ck_end_line c)))
    (Text (ck_content c))
    (mkMetadata "semantic_indexer" f32_0_8
       ["code_embedding"; ck_language c; "chunk_type:" +:+ format_chunk_type (ck_chunk_type c)]%string (Some vector))
    now now (version_from_timestamp now).

Definition fallback_code (c : CodeChunk) (vector : list f32) : FallbackCode :=
  mkFallbackCode (ck_id c) vector (ck_repo_id c) (ck_file_path c) (ck_start_line c) (ck_end_line c) (ck_language c)
    (ck_symbol_name c) (ck_symbol_kind c) (ck_parent_symbol c) (ck_content c).

(** An entry of long-term memory as a result; other entries are passed over. *)
Definition entry_item (languages : list string) (r : MemorySearchResult) : option SearchResultItem :=
  let e := found_entry r in
  let tags := mem_tags (mem_metadata e) in
  if negb (bool_decide ("code_embedding"%string ∈ tags)) then None
  else
    '(path, start_line, end_line) ← parse_embedding_key (mem_key e);
    if negb (bool_decide (languages = [])) && negb (existsb (λ tag, bool_decide (tag ∈ languages)) tags) then None
    else
      match mem_key e with
      | KeyProject project_id _ =>
          Some (mkItem project_id path start_line end_line
                  (match mem_content e with Text t => snippet t | Code _ code => snippet code | _ => ""%string end)
                  ModeSemantic (found_score r) None None None)
      | _ => None
      end.

Definition code_item (f : FallbackCode) (score : f32) : SearchResultItem :=
  mkItem (fc_repo_id f) (fc_file_path f) (fc_start_line f) (fc_end_line f) (snippet (fc_content f)) ModeSemantic score
    (fc_symbol_name f) (fc_symbol_kind f) (fc_parent_symbol f).

Definition fallback_items (query : list f32) (repo_ids languages : list string) (l : list FallbackCode)
    : list SearchResultItem :=
  let query_norm := vector_norm query in
  omap (λ f, let score := cosine_similarity query (fc_vector f) query_norm in
             if SFleb f32_0_3 score then Some (code_item f score) else None)
    (filterb (λ f, (bool_decide (repo_ids = []) || bool_decide (fc_repo_id f ∈ repo_ids)) &&
                   (bool_decide (languages = []) || bool_decide (fc_language f ∈ languages))) l).

(** One repository is a scope; several are not. *)
Definition repo_scope (repo_ids : list string) : MemorySearchScope :=
  match repo_ids with [repo_id] => ScopeProject repo_id | _ => ScopeAll end.

Section Semantic.
Context {Q : Type} `{VectorDb Q, ContentJson, Rfc3339, Blake3}.
Context (embed_batch : list string → result (list (list f32)) EngineError)
        (embed : string → result (list f32) EngineError).

Definition store_chunk (now : Instant) (lt : LongTermMemory Q) (fb : list FallbackCode) (c : CodeChunk)
    (vector : list f32) : LongTermMemory Q * list FallbackCode :=
  match LongTerm_write lt (chunk_entry now c vector) with
  | (Ok _, lt) => (lt, fb)
  | (Err _, lt) => (lt, filterb (λ f, fc_point_id f !=? ck_id c) fb ++ [fallback_code c vector])
  end.

Fixpoint store_chunks (now : Instant) (lt : LongTermMemory Q) (fb : list FallbackCode)
    (l : list (CodeChunk * list f32)) : LongTermMemory Q * list FallbackCode :=
  match l with
  | [] => (lt, fb)
  | (c, v) :: l => let '(lt, fb) := store_chunk now lt fb c v in store_chunks now lt fb l
  end.

Definition index_chunks (now : Instant) (chunks : list CodeChunk) (lt : LongTermMemory Q) (fb : list FallbackCode)
    : result Z EngineError * LongTermMemory Q * list FallbackCode :=
  match chunks with
  | [] => (Ok 0, lt, fb)
  | _ =>
      match embed_batch (ck_content <$> chunks) with
      | Err e => (Err e, lt, fb)
      | Ok embeddings =>
          let pairs := zip chunks embeddings in
          let '(lt, fb) := store_chunks now lt fb pairs in
          (Ok (wrap_u32 (Z.of_nat (length pairs))), lt, fb)
      end
  end.

Definition semantic_search (fresh : string) (now : Instant) (lt : LongTermMemory Q) (fb : list FallbackCode)
    (query : string) (repo_ids languages : list string) (max_results : Z) : result (list SearchResultItem) EngineError :=
  let? query_embedding := embed query in
  let? found := LongTerm_search fresh now lt query_embedding (repo_scope repo_ids) max_results f32_0_3 in
  Ok (top it_score (Z.to_nat max_results)
        (omap (entry_item languages) found ++ fallback_items query_embedding repo_ids languages fb)).

Definition semantic_remove_file (repo_id path : string) (fb : list FallbackCode) : list FallbackCode :=
  filterb (λ f, negb ((fc_repo_id f ==? repo_id) && (fc_file_path f ==? path))) fb.
Definition semantic_remove_repo (repo_id : string) (fb : list FallbackCode) : list FallbackCode :=
  filterb (λ f, fc_repo_id f !=? repo_id) fb.

(** [SemanticSearchEngine::search] and [search_with_embedding]. *)
Definition SemanticSearchEngine_search (fresh : string) (now : Instant) (lt : LongTermMemory Q) (fb : list FallbackCode)
    (q : SearchQuery) : result (list SearchResultItem) EngineError :=
  semantic_search fresh now lt fb (sq_query q) (sq_repo_ids q) (sq_languages q)
    (if sq_max_results q >? 0 then sq_max_results q else 20).

Definition engine_search_with_embedding (fresh : string) (now : Instant) (lt : LongTermMemory Q) (embedding : list f32)
    (repo_ids languages : list string) (max_results : Z) : result (list SearchResultItem) EngineError :=
  let? found := LongTerm_search fresh now lt embedding (repo_scope repo_ids) max_results f32_0_5 in
  Ok (top it_score (Z.to_nat max_results) (omap (entry_item languages) found)).
End Semantic.

(** ** All modes together *)

Notation Location := (string * string * Z)%type.
Definition location (i : SearchResultItem) : Location := (it_repo_id i, it_file_path i, it_start_line i).

(** 1.2 as a 32-bit float. *)
Definition f32_1_2 : f32 := S754_finite false 10066330 (-23).

(** An item found again: the score is boosted, symbols are taken over, the wider range is kept. *)
Definition merge_item (existing item : SearchResultItem) : SearchResultItem :=
  let enrich := bool_decide (is_Some (it_symbol_name item)) && bool_decide (it_symbol_name existing = None) in
  mkItem (it_repo_id existing) (it_file_path existing) (it_start_line existing)
    (if it_end_line item >? it_end_line existing then it_end_line item else it_end_line existing)
    (content_snippet existing)
    (if match_type existing !=? match_type item then ModeHybrid else match_type existing)
    (f32_mul (f32_add (it_score existing) (it_score item)) f32_1_2)
    (if enrich then it_symbol_name item else it_symbol_name existing)
    (if enrich then it_symbol_kind item else it_symbol_kind existing)
    (if enrich then it_parent_symbol item else it_parent_symbol existing).

Definition merge_into (m : gmap Location SearchResultItem) (item : SearchResultItem) : gmap Location SearchResultItem :=
  match m !! location item with
  | Some existing => <[location item := merge_item existing item]> m
  | None => <[location item := item]> m
  end.

Definition merge_results (iter : gmap Location SearchResultItem → list (Location * SearchResultItem))
    (items : list SearchResultItem) (max_results : Z) : list SearchResultItem :=
  top it_score (Z.to_nat max_results) (snd <$> iter (foldl merge_into ∅ items)).

Class SearchIndex := {
  search_text : SearchQuery → result (list SearchResultItem) EngineError;
  ast_search : AstQuery → Z → result (list SearchResultItem) EngineError
}.

Section Hybrid.
Context `{SearchIndex}.
(** The semantic engine, when there is one. *)
Context (semantic : option (SearchQuery → result (list SearchResultItem) EngineError)).

Definition language_matches (languages : list string) (i : SearchResultItem) : bool :=
  match detect_language (it_file_path i) with
  | Some lang => bool_decide (lang ∈ languages)
  | None => false
  end.

Definition search_ast (q : SearchQuery) : result (list SearchResultItem) EngineError :=
  let? results := ast_search (SymbolSearch (sq_query q) None) (if sq_max_results q >? 0 then sq_max_results q else 20) in
  let results := if bool_decide (sq_repo_ids q = []) then results
                 else filterb (λ i, bool_decide (it_repo_id i ∈ sq_repo_ids q)) results in
  Ok (if bool_decide (sq_languages q = []) then results else filterb (language_matches (sq_languages q)) results).

Definition search_mode (q : SearchQuery) (mode : SearchMode) : result (list SearchResultItem) EngineError :=
  match mode with
  | ModeText => search_text q
  | ModeSemantic => match semantic with Some search => search q | None => Ok [] end
  | ModeAst => search_ast q
  | ModeHybrid =>
      let? text := search_text q in
      let? ast := search_ast q in
      Ok (text ++ ast ++ match semantic with
                         | Some search => match search q with Ok items => items | Err _ => [] end
                         | None => []
                         end)
  end.

Fixpoint search_modes (q : SearchQuery) (modes : list SearchMode) : result (list SearchResultItem) EngineError :=
  match modes with
  | [] => Ok []
  | mode :: modes =>
      let? items := search_mode q mode in
      let? rest := search_modes q modes in
      Ok (items ++ rest)
  end.

Definition hybrid_search (iter : gmap Location SearchResultItem → list (Location * SearchResultItem))
    (q : SearchQuery) : result (list SearchResultItem) EngineError :=
  let modes := match sq_modes q with [] => [ModeHybrid] | modes => modes end in
  let? items := search_modes q modes in
  Ok (merge_results iter items (sq_max_results q)).
End Hybrid.

(** ** On the wire *)

Definition mode_from_proto (s : string) : SearchMode :=
  if s ==? "text" then ModeText else if s ==? "semantic" then ModeSemantic else if s ==? "ast" then ModeAst else ModeHybrid.
Definition mode_to_proto (m : SearchMode) : string :=
  match m with ModeText => "text" | ModeSemantic => "semantic" | ModeAst => "ast" | ModeHybrid => "hybrid" end.

(** [SearchRequest], and [SearchStreamRequest] with the same fields. *)
Record SearchRequest : Type := mkSearchRequest {
  srq_query : string;
  srq_modes : list string;
  srq_repo_ids : list string;
  srq_languages : list string;
  srq_path_patterns : list string;
  srq_max_results : Z
}.
Definition SearchQuery_from (r : SearchRequest) : SearchQuery :=
  mkQuery (srq_query r) (mode_from_proto <$> srq_modes r) (srq_repo_ids r) (srq_languages r) (srq_path_patterns r)
    (srq_max_results r).

Record ProtoSearchResultItem : Type := mkProtoItem {
  pi_repo_id : string;
  pi_file_path : string;
  pi_start_line : Z;
  pi_end_line : Z;
  pi_content_snippet : string;
  pi_match_type : string;
  pi_score : f32;
  pi_symbol_name : option string;
  pi_symbol_kind : option string;
  pi_parent_symbol : option string
}.
Definition ProtoSearchResultItem_from (i : SearchResultItem) : ProtoSearchResultItem :=
  mkProtoItem (it_repo_id i) (it_file_path i) (it_start_line i) (it_end_line i) (content_snippet i)
    (mode_to_proto (match_type i)) (it_score i) (it_symbol_name i) (it_symbol_kind i) (it_parent_symbol i).
Definition SearchResultItem_from_proto (p : ProtoSearchResultItem) : SearchResultItem :=
  mkItem (pi_repo_id p) (pi_file_path p) (pi_start_line p) (pi_end_line p) (pi_content_snippet p)
    (mode_from_proto (pi_match_type p)) (pi_score p) (pi_symbol_name p) (pi_symbol_kind p) (pi_parent_symbol p).

(** * Properties of the code search

    The key of an embedding is read back, results of several modes are grouped by location and
    the best of them are answered, and a hybrid search survives its semantic part. *)

(** ** Keys *)

Lemma digits_no_colon n : 0 <= n → ":"%char ∉ chars (pretty n).
Proof. intros Hn Hin. apply pretty_Z_digits in Hin; [|done]. done. Qed.

Lemma rsplitn_three c a b d : c ∉ b → c ∉ d → rsplitn_char c 3 (a ++ c :: b ++ c :: d) = [d; b; a].
Proof.
  intros Hb Hd. unfold rsplitn_char.
  assert (rev (a ++ c :: b ++ c :: d) = rev d ++ c :: rev b ++ c :: rev a) as ->.
  { rewrite rev_app_distr. cbn. rewrite rev_app_distr. cbn. by rewrite <- !app_assoc. }
  rewrite !splitn_char_app by (intros Hin; by apply list_elem_of_In, in_rev, list_elem_of_In in Hin).
  cbn. by rewrite !rev_involutive.
Qed.

Lemma parse_u32_pretty n : is_u32 n → parse_u32 (pretty n) = Some n.
Proof.
  intros Hn. assert (parse_u64 (pretty n) = Some n) as H64 by (apply parse_pretty; unfold is_u32, u32_max, u64_max in *; lia).
  revert H64. unfold parse_u64, parse_u32. destruct (_ || _); [done|]. destruct (_ <=? u64_max) eqn:?; [|done].
  intros [= ->]. unfold is_u32 in Hn. by destruct (Z.leb_spec n u32_max); [|lia].
Qed.

(** The key of an embedding is read back, whatever its path: the last two pieces are the
    lines, so a path may have colons in it. *)
Theorem embedding_key_reads_back repo path start_line end_line :
  is_u32 start_line → is_u32 end_line →
  parse_embedding_key (KeyProject repo (embedding_key path start_line end_line)) = Some (path, start_line, end_line).
Proof.
  intros Hs He. unfold parse_embedding_key, embedding_key.
  set (rest := path +:+ ":" +:+ pretty start_line +:+ ":" +:+ pretty end_line).
  replace (strip_prefix ("code_embedding:" +:+ rest) "code_embedding:") with (Some rest)
    by (symmetry; apply strip_prefix_Some; by rewrite chars_app).
  cbn [mbind option_bind].
  assert (chars rest = chars path ++ ":"%char :: chars (pretty start_line) ++ ":"%char :: chars (pretty end_line)) as ->
    by (unfold rest; by rewrite !chars_app).
  unfold is_u32 in *. rewrite rsplitn_three by (apply digits_no_colon; lia). cbn [fmap list_fmap].
  rewrite !of_chars_chars, !parse_u32_pretty by done. done.
Qed.

Lemma embedding_key_reads_back_witness :
  is_u32 3 ∧ parse_embedding_key (KeyProject "r" (embedding_key "src/a:b.rs" 3 7)) = Some ("src/a:b.rs"%string, 3, 7).
Proof. split; [|apply embedding_key_reads_back]; unfold is_u32, u32_max; lia. Defined.

(** ** Merging *)

(** The reference: the items of a location in the order they were found, folded into the first. *)
Definition grouped (k : Location) (items : list SearchResultItem) : option SearchResultItem :=
  match filterb (λ i, location i ==? k) items with
  | [] => None
  | i :: l => Some (foldl merge_item i l)
  end.

Lemma merge_into_lookup m item k :
  merge_into m item !! k = if location item ==? k then Some (match m !! k with Some e => merge_item e item | None => item end)
                           else m !! k.
Proof.
  unfold merge_into. case_bool_decide as Hk.
  - subst k. destruct (m !! location item); by rewrite lookup_insert_eq.
  - destruct (m !! location item); by rewrite lookup_insert_ne.
Qed.

Lemma merged_lookup items m k :
  foldl merge_into m items !! k =
  match m !! k with
  | Some e => Some (foldl merge_item e (filterb (λ i, location i ==? k) items))
  | None => grouped k items
  end.
Proof.
  revert m. induction items as [|i items IH]; intros m; cbn [foldl]; [by destruct (m !! k)|].
  rewrite IH, merge_into_lookup. unfold grouped, filterb. cbn [List.filter].
  case_bool_decide; destruct (m !! k); done.
Qed.

Lemma merge_item_location a b : location (merge_item a b) = location a.
Proof. done. Qed.

Lemma grouped_location k items r : grouped k items = Some r → location r = k.
Proof.
  unfold grouped. destruct (filterb _ items) as [|i l] eqn:Hf; [done|]. intros [= <-].
  assert (location i = k) as Hi.
  { assert (i ∈ filterb (λ i, location i ==? k) items) as Hin by (rewrite Hf; set_solver).
    apply filterb_elem in Hin as [_ Hin]. by apply bool_decide_eq_true in Hin. }
  clear Hf. revert i Hi. induction l as [|j l IH]; intros i Hi; [done|]. by apply IH.
Qed.

(** C39: what several searches find is merged exactly: every answer is the fold of the items
    found at its location, in the order they were found, no location is answered twice, the
    answers are the best first and at most as many as asked for, and a location is left out
    only when that number is reached and every answer scores at least as well. *)
Theorem merge_is_grouping iter items max_results :
  (∀ m : gmap Location SearchResultItem, iter m ≡ₚ map_to_list m) →
  (∀ k r, grouped k items = Some r → f64_is_nan (it_score r) = false) →
  let res := merge_results iter items max_results in
  (length res <= Z.to_nat max_results)%nat ∧ StronglySorted (outranks it_score) res ∧
  NoDup (location <$> res) ∧
  (∀ r, r ∈ res → grouped (location r) items = Some r) ∧
  ∀ k r, grouped k items = Some r →
    r ∈ res ∨ length res = Z.to_nat max_results ∧ ∀ r', r' ∈ res → SFleb (it_score r) (it_score r') = true.
Proof.
  intros Hiter Hnan res. set (m := foldl merge_into ∅ items).
  assert (∀ k, m !! k = grouped k items) as Hm by (intros k; unfold m; by rewrite merged_lookup, lookup_empty).
  assert (∀ r, r ∈ snd <$> iter m ↔ m !! location r = Some r) as Hin.
  { intros r. rewrite Hiter, list_elem_of_fmap. setoid_rewrite elem_of_map_to_list'. split.
    - intros ([k r'] & -> & Hk). cbn in *. rewrite Hm in *. by rewrite (grouped_location _ _ _ Hk).
    - intros Hr. by exists (location r, r). }
  destruct (top_best it_score (Z.to_nat max_results) (snd <$> iter m)) as (Hlen & Hsort & Hsub & Hout).
  { apply Forall_forall. intros r Hr. apply Hin in Hr. rewrite Hm in Hr. by eapply Hnan. }
  split_and!; [done|done| | |].
  - assert (location <$> (snd <$> iter m) ≡ₚ fst <$> map_to_list m) as Hloc.
    { rewrite Hiter, <- list_fmap_compose. apply Permutation_refl', list_fmap_ext. intros i [k r] Hi. cbn.
      apply list_elem_of_lookup_2, elem_of_map_to_list in Hi. rewrite Hm in Hi. by eapply grouped_location. }
    unfold res, merge_results, top. rewrite fmap_take. eapply sublist_NoDup; [|apply sublist_take].
    fold m. rewrite sort_by_perm, Hloc. apply NoDup_fst_map_to_list.
  - intros r Hr. rewrite <- Hm. by apply Hin, Hsub.
  - intros k r Hr. apply Hout, Hin. by rewrite Hm, (grouped_location _ _ _ Hr).
Qed.

(** ** The modes *)

(** A hybrid search needs its text and its symbol part and survives the semantic one: an
    error of the first two is the answer, and without a semantic answer the other two are
    merged. *)
Theorem hybrid_survives_semantic `{SearchIndex} semantic iter q :
  sq_modes q = [] ∨ sq_modes q = [ModeHybrid] →
  hybrid_search semantic iter q =
  match search_text q, search_ast q with
  | Err e, _ => Err e
  | Ok _, Err e => Err e
  | Ok text, Ok ast =>
      Ok (merge_results iter
            (text ++ ast ++ match semantic with
                            | Some search => match search q with Ok items => items | Err _ => [] end
                            | None => []
                            end) (sq_max_results q))
  end.
Proof.
  intros Hq. unfold hybrid_search. assert (match sq_modes q with [] => [ModeHybrid] | modes => modes end = [ModeHybrid]) as ->
    by (by destruct Hq as [-> | ->]).
  cbn [search_modes search_mode]. destruct (search_text q) as [text|e]; [|done]. cbn.
  destruct (search_ast q) as [ast|e]; [|done]. cbn. by rewrite app_nil_r.
Qed.

(** What a client reads is what was found. *)
Lemma item_reads_back i : SearchResultItem_from_proto (ProtoSearchResultItem_from i) = i.
Proof. destruct i as [? ? ? ? ? [] ? ? ? ?]; done. Qed.

(** * Runs of the code search

    Concrete results and a small index, without a vector database: the witness of the merge
    theorem, and runs that show where the search departs from its comments. *)

#[local] Instance no_vectors : VectorDb unit :=
  {| q_upsert := λ q _ _ _, (Ok tt, q); q_delete := λ q _ _, (Ok tt, q); q_search := λ _ _ _ _ _, Ok [] |}.
#[local] Instance plain_json : ContentJson :=
  {| content_text := λ _, Err ""%string; content_of_text := λ s, Some (Text s); integer_as_f64 := λ _, f32_zero |}.
#[local] Instance no_time : Rfc3339 := {| rfc3339_text := λ t, pretty t; rfc3339_parse := λ _, None |}.
#[local] Instance length_blake : Blake3 := {| blake3_u64 := λ s, Z.of_nat (String.length s) |}.

(** 0.5 and 1. *)
Definition s_half : f32 := f32_0_5.
Definition s_one : f32 := S754_finite false 8388608 (-23).

Definition hit (repo path : string) (line : Z) (mode : SearchMode) (score : f32) : SearchResultItem :=
  mkItem repo path line line "x" mode score None None None.

(** ** Merging *)

Definition some_hits : list SearchResultItem :=
  [hit "r" "a.rs" 1 ModeText s_half; hit "r" "b.rs" 1 ModeText s_one; hit "r" "a.rs" 1 ModeAst s_half].

Lemma merge_is_grouping_witness :
  NoDup (location <$> merge_results map_to_list some_hits 2).
Proof.
  destruct (merge_is_grouping map_to_list some_hits 2) as (_ & _ & Hnd & _); [done| |exact Hnd].
  intros k r Hg. unfold grouped, filterb in Hg. cbn [some_hits List.filter] in Hg.
  repeat case_bool_decide; simplify_eq; by vm_compute.
Defined.

(** The comment says that an item found by different modes is boosted: so is one that the same
    mode finds twice, past the score of 1 the results are documented to have. *)
Theorem repeated_hit_is_boosted :
  ∃ r, merge_results map_to_list [hit "r" "a.rs" 1 ModeText s_half; hit "r" "a.rs" 1 ModeText s_half] 10 = [r] ∧
    match_type r = ModeText ∧ SFltb s_one (it_score r) = true.
Proof. eexists. split; [by vm_compute|]. by vm_compute. Qed.

(** The parts of a search take 0 as the default of 20 results, the merge takes it as none. *)
Theorem zero_results_are_none iter items : merge_results iter items 0 = [].
Proof. done. Qed.

(** ** The repositories *)

Definition one_vector (s : string) : result (list f32) EngineError := Ok [s_one].
Definition one_vectors (l : list string) : result (list (list f32)) EngineError := Ok ((λ _, [s_one]) <$> l).
Definition demo_chunk (id repo path : string) : CodeChunk :=
  mkChunk id repo path 1 9 "fn main() {}" "rust" None None None ChunkFile "h".
Definition indexed (l : list CodeChunk) : LongTermMemory unit * list FallbackCode :=
  let '(_, lt, fb) := index_chunks one_vectors 0 l LongTerm_new_fallback [] in (lt, fb).

Definition found_in (repo_ids : list string) (ix : LongTermMemory unit * list FallbackCode) : list (string * string) :=
  match semantic_search one_vector "" 0 ix.1 ix.2 "main" repo_ids [] 10 with
  | Ok l => (λ i, (it_repo_id i, it_file_path i)) <$> l
  | Err _ => []
  end.

(** Restricting a search to two repositories restricts it to none of them: a third one is
    answered as well. *)
Theorem other_repositories_are_answered :
  found_in ["a"; "b"]%string (indexed [demo_chunk "1" "a" "x.rs"; demo_chunk "2" "c" "z.rs"])
  = [("a", "x.rs"); ("c", "z.rs")]%string.
Proof. by vm_compute. Qed.

(** Removing a file takes it from the entries kept aside, not from the memory it was written to. *)
Theorem removed_file_is_still_found :
  let '(lt, fb) := indexed [demo_chunk "1" "a" "x.rs"] in
  found_in ["a"]%string (lt, semantic_remove_file "a" "x.rs" fb) = [("a", "x.rs")]%string ∧
  found_in ["a"]%string (lt, semantic_remove_repo "a" fb) = [("a", "x.rs")]%string.
Proof. by vm_compute. Qed.

(** The identity of a chunk is the digest of the plain concatenation, so two repositories can
    have the same chunk, and the second one replaces the first. *)
Theorem chunk_ids_collide `{ChunkDigest} line :
  symbol_chunk_id "app" "s/x.rs" line = symbol_chunk_id "apps" "/x.rs" line.
Proof. done. Qed.

Theorem same_line_chunks_replace `{ChunkDigest} :
  let s name := mkSymbol name KindFunction 1 0 1 9 None "fn" in
  (ck_id <$> create_chunks_from_ast "r" "a.rs" "rust" "" "h" [s "f"; s "g"]%string)
  = [symbol_chunk_id "r" "a.rs" 1; symbol_chunk_id "r" "a.rs" 1].
Proof. done. Qed.
