(* ===== verification/Embedding.v ===== *)
(** * Embeddings

    [EmbeddingService] of [uc-engine/src/indexer/semantic.rs] and its configuration
    ([config.rs]): the cache of vectors, the calls of the embedding API in batches with
    retries, and the vectors derived from digests when there is no API key.

    - The HTTP exchange is a parameter: [reply n texts] is what the [n]-th request is
      answered with.
      A request made is counted, so a run has the number of requests it made.
    - [None] is a panic: an empty batch size, or a power of two past 32 bits.
    - Sleeping is recorded as the list of the delays, in milliseconds. *)

From Stdlib Require Import String Ascii SpecFloat.
From stdpp Require Import gmap strings pretty.
From S2P Require Import Prelude RustStr Task GatewayEvents Memory Sandbox Search.

Record EmbeddingConfig : Type := mkEmbedding {
  voyage_api_key : option string;
  model : string;
  dimensions : nat;
  batch_size : nat;
  max_retries : Z;
  retry_base_delay_ms : Z;
  retry_max_delay_ms : Z
}.
Definition EmbeddingConfig_default : EmbeddingConfig := mkEmbedding None "voyage-code-3" 1024 128 5 1000 60000.

(** [std::env::var]; unset and blank keys are no keys. *)
Definition non_empty_env (env : string → option string) (name : string) : option string :=
  v ← env name; if trim v ==? "" then None else Some v.
Definition env_usize (env : string → option string) (name : string) (d : nat) : nat :=
  match v ← env name; parse_u64 v with Some n => Z.to_nat n | None => d end.
Definition EmbeddingConfig_from_env (env : string → option string) : EmbeddingConfig :=
  mkEmbedding (non_empty_env env "UC_VOYAGE_API_KEY") (default "voyage-code-3"%string (env "UC_EMBEDDING_MODEL"%string))
    (env_usize env "UC_EMBEDDING_DIMENSIONS" 1024) (env_usize env "UC_EMBEDDING_BATCH_SIZE" 128) 5 1000 60000.

(** ** Vectors from digests *)

Definition f64_of_Z (n : Z) : f64 := binary_normalize f64_prec f64_emax n 0 false.
Definition f64_div (a b : f64) : f64 := SFdiv f64_prec f64_emax a b.
Definition f64_mul (a b : f64) : f64 := SFmul f64_prec f64_emax a b.
Definition f64_sub (a b : f64) : f64 := SFsub f64_prec f64_emax a b.

(** [u32::from_le_bytes] of four bytes, mapped to [-1, 1]. *)
Definition digest_value (b0 b1 b2 b3 : Z) : f32 :=
  let bits := b0 + 2 ^ 8 * b1 + 2 ^ 16 * b2 + 2 ^ 24 * b3 in
  f64_as_f32 (f64_sub (f64_mul (f64_div (f64_of_Z bits) (f64_of_Z u32_max)) (f64_of_Z 2)) (f64_of_Z 1)).

(** Pieces of four; a shorter rest is left out. *)
Fixpoint digest_values (bytes : list Z) : list f32 :=
  match bytes with
  | b0 :: b1 :: b2 :: b3 :: rest => digest_value b0 b1 b2 b3 :: digest_values rest
  | _ => []
  end.

Section Embed.
Context `{ChunkDigest}.

Definition salted_digest (text : string) (i : nat) : list Z :=
  blake3_digest (utf8_bytes ("uc-embed-salt-" +:+ pretty i) ++ utf8_bytes text).

Definition blake3_embedding (text : string) (dims : nat) : list f32 :=
  let num_hashes := ((dims + 7) / 8)%nat in
  let vector := take dims (seq 0 num_hashes ≫= λ i, digest_values (salted_digest text i)) in
  let norm := f32_sqrt (f32_sum ((λ x, f32_mul x x) <$> vector)) in
  if SFltb f32_zero norm then (λ x, f32_div x norm) <$> vector else replicate dims f32_zero.

Definition embed_batch_fallback (cfg : EmbeddingConfig) (texts : list string) : list (list f32) :=
  (λ t, blake3_embedding t (dimensions cfg)) <$> texts.

(** ** The API *)

(** A reply: the request failed, or a status with its text, the [retry-after] header, the body
    as text and the vectors of a body that could be read. *)
Inductive HttpReply : Type :=
| SendFailed (error : string)
| Replied (status : Z) (status_text : string) (retry_after : option string)
          (body : result string string) (vectors : result (list (list f32)) string).

Definition call_voyage_api_once (r : HttpReply) : result (list (list f32)) EngineError :=
  match r with
  | SendFailed e => Err (ConnectionError ("Voyage AI request error: " +:+ e))
  | Replied status text retry_after body vectors =>
      if status =? 429 then Err (RateLimited (default 5 (retry_after ≫= parse_u64)))
      else if (500 <=? status) && (status <? 600) then Err (ConnectionError ("Voyage AI server error: " +:+ text))
      else if negb ((200 <=? status) && (status <? 300)) then
        let b := match body with Ok b => b | Err e => "<read failed: " +:+ e +:+ ">" end in
        Err (SearchError ("Voyage API error (" +:+ text +:+ "): " +:+ b))
      else map_err (λ e, SearchError ("Voyage AI response parse error: " +:+ e)) vectors
  end.

(** [2u32.pow(attempt)]; [None] is the overflow. *)
Definition u32_pow2 (attempt : Z) : option Z := if attempt <? 32 then Some (2 ^ attempt) else None.

(** The result, the delays slept and the requests made. *)
Notation Calls A := (A * list Z * nat)%type.

(** The loop from the [attempt]-th retry; [rounds] is how many more rounds it may take. *)
Fixpoint retry_loop (cfg : EmbeddingConfig) (reply : nat → list string → HttpReply) (jitter : nat → Z) (texts : list string)
    (rounds : nat) (attempt : Z) (n : nat) : option (Calls (result (list (list f32)) EngineError)) :=
  match call_voyage_api_once (reply n texts) with
  | Ok vectors => Some (Ok vectors, [], S n)
  | Err e =>
      let again (delay : Z) :=
        match rounds with
        | O => None
        | S rounds =>
            '(r, delays, n) ← retry_loop cfg reply jitter texts rounds (attempt + 1) (S n);
            Some (r, delay :: delays, n)
        end in
      match e with
      | RateLimited retry_after =>
          if attempt >=? max_retries cfg then Some (Err (RateLimited retry_after), [], S n) else again (retry_after * 1000)
      | e =>
          if is_retryable e then
            if attempt >=? max_retries cfg then Some (Err e, [], S n)
            else
              factor ← u32_pow2 attempt;
              again (Z.min (retry_base_delay_ms cfg * factor + jitter n) (retry_max_delay_ms cfg))
          else Some (Err e, [], S n)
      end
  end.

(** A retry more than [max_retries] is never reached, so that many rounds are enough. *)
Definition call_voyage_api_with_retry (cfg : EmbeddingConfig) (reply : nat → list string → HttpReply) (jitter : nat → Z)
    (texts : list string) (n : nat) : option (Calls (result (list (list f32)) EngineError)) :=
  retry_loop cfg reply jitter texts (Z.to_nat (max_retries cfg)) 0 n.

(** [slice::chunks], for a positive size. *)
Fixpoint chunks_of {A} (fuel size : nat) (l : list A) : list (list A) :=
  match fuel, l with
  | _, [] | O, _ => []
  | S fuel, l => take size l :: chunks_of fuel size (drop size l)
  end.
Definition slice_chunks {A} (size : nat) (l : list A) : option (list (list A)) :=
  if (size =? 0)%nat then None else Some (chunks_of (length l) size l).

Fixpoint embed_chunks (cfg : EmbeddingConfig) (reply : nat → list string → HttpReply) (jitter : nat → Z) (l : list (list string))
    (n : nat) : option (Calls (result (list (list f32)) EngineError)) :=
  match l with
  | [] => Some (Ok [], [], n)
  | chunk :: l =>
      '(r, delays, n) ← call_voyage_api_with_retry cfg reply jitter chunk n;
      match r with
      | Err e => Some (Err e, delays, n)
      | Ok vectors =>
          '(r, delays', n) ← embed_chunks cfg reply jitter l n;
          Some (map_ok (app vectors) r, delays ++ delays', n)
      end
  end.

Definition embed_batch_via_api (cfg : EmbeddingConfig) (reply : nat → list string → HttpReply) (jitter : nat → Z)
    (texts : list string) (n : nat) : option (Calls (result (list (list f32)) EngineError)) :=
  match voyage_api_key cfg with
  | None => Some (Err (ConfigError "Voyage API key not configured"), [], n)
  | Some _ => chunks ← slice_chunks (batch_size cfg) texts; embed_chunks cfg reply jitter chunks n
  end.

(** ** The service *)

Notation Cache := (gmap string (list f32)).
Definition cache_key (text : string) : string := blake3_hex (utf8_bytes text).

(** The vectors that came, in the cache; a text without one is given zeros. *)
Fixpoint keep_embeddings (dims : nat) (texts : list string) (raw : list (list f32)) (cache : Cache)
    : list (list f32) * Cache :=
  match texts, raw with
  | [], _ => ([], cache)
  | t :: texts, v :: raw =>
      let '(l, cache) := keep_embeddings dims texts raw (<[cache_key t := v]> cache) in (v :: l, cache)
  | _ :: texts, [] =>
      let '(l, cache) := keep_embeddings dims texts [] cache in (replicate dims f32_zero :: l, cache)
  end.

Definition embed_batch (cfg : EmbeddingConfig) (reply : nat → list string → HttpReply) (jitter : nat → Z) (texts : list string)
    (cache : Cache) (n : nat) : option (Calls (result (list (list f32)) EngineError) * Cache) :=
  match texts with
  | [] => Some (Ok [], [], n, cache)
  | _ =>
      match mapM (λ t, cache !! cache_key t) texts with
      | Some vectors => Some (Ok vectors, [], n, cache)
      | None =>
          '(raw, delays, n) ← (match voyage_api_key cfg with
                               | Some _ => embed_batch_via_api cfg reply jitter texts n
                               | None => Some (Ok (embed_batch_fallback cfg texts), [], n)
                               end);
          match raw with
          | Err e => Some (Err e, delays, n, cache)
          | Ok raw => let '(l, cache) := keep_embeddings (dimensions cfg) texts raw cache in Some (Ok l, delays, n, cache)
          end
      end
  end.

Definition embed_single (cfg : EmbeddingConfig) (reply : nat → list string → HttpReply) (jitter : nat → Z) (text : string)
    (cache : Cache) (n : nat) : option (Calls (result (list f32) EngineError) * Cache) :=
  '(r, delays, n, cache) ← embed_batch cfg reply jitter [text] cache n;
  Some (map_ok (λ l, default (replicate (dimensions cfg) f32_zero) (head l)) r, delays, n, cache).

(** ** Retries *)

(** The requests [n], ..., [n' - 2] failed in a way that is tried again, and the last one gave
    the result. *)
Definition retried (reply : nat → list string → HttpReply) (texts : list string) (n n' : nat)
    (r : result (list (list f32)) EngineError) : Prop :=
  (n < n')%nat ∧ call_voyage_api_once (reply (n' - 1)%nat texts) = r ∧
  ∀ i, (n <= i)%nat → (i < n' - 1)%nat → ∃ e, call_voyage_api_once (reply i texts) = Err e ∧ is_retryable e = true.

Lemma retried_more reply texts n n' r e :
  call_voyage_api_once (reply n texts) = Err e → is_retryable e = true → retried reply texts (S n) n' r → retried reply texts n n' r.
Proof.
  intros He Hr (Hlt & Hlast & Hall). split_and!; [lia|done|]. intros i Hi Hi'.
  destruct (decide (i = n)) as [->|]; [by exists e|]. apply Hall; lia.
Qed.

Lemma retry_stop cfg reply jitter texts rounds attempt n e :
  call_voyage_api_once (reply n texts) = Err e → is_retryable e = false ∨ max_retries cfg <= attempt →
  retry_loop cfg reply jitter texts rounds attempt n = Some (Err e, [], S n).
Proof.
  intros He Hstop. assert (is_retryable e = true → (attempt >=? max_retries cfg) = true) as Hge.
  { intros Hr. apply Z.geb_le. destruct Hstop; [congruence|done]. }
  destruct rounds; cbn [retry_loop]; rewrite He; destruct e; cbn [is_retryable] in *; try done; by rewrite Hge.
Qed.

Lemma retry_again cfg reply jitter texts rounds attempt n e :
  call_voyage_api_once (reply n texts) = Err e → is_retryable e = true → attempt < max_retries cfg <= 32 →
  ∃ delay, retry_loop cfg reply jitter texts (S rounds) attempt n =
    ('(r, delays, n') ← retry_loop cfg reply jitter texts rounds (attempt + 1) (S n); Some (r, delay :: delays, n')).
Proof.
  intros He Hr Hlt. cbn [retry_loop]. rewrite He.
  assert ((attempt >=? max_retries cfg) = false) as Hge by (rewrite Z.geb_leb; apply Z.leb_gt; lia).
  assert (u32_pow2 attempt = Some (2 ^ attempt)) as Hpow by (unfold u32_pow2; by rewrite (proj2 (Z.ltb_lt attempt 32)) by lia).
  destruct e; cbn [is_retryable] in *; try done; rewrite Hge, ?Hpow; by eexists.
Qed.

Lemma retry_loop_total cfg reply jitter texts rounds attempt n :
  0 <= attempt → max_retries cfg <= 32 → max_retries cfg <= attempt + Z.of_nat rounds →
  ∃ r delays n', retry_loop cfg reply jitter texts rounds attempt n = Some (r, delays, n') ∧
    retried reply texts n n' r ∧ (n' <= n + S rounds)%nat ∧ length delays = (n' - n - 1)%nat.
Proof.
  revert attempt n. induction rounds as [|rounds IH]; intros attempt n Ha Hmax Hle;
    destruct (call_voyage_api_once (reply n texts)) as [v|e] eqn:Hcall.
  1,3: exists (Ok v), [], (S n); cbn [retry_loop]; rewrite Hcall;
    (split_and!; [done|split_and!; [lia|by replace (S n - 1)%nat with n by lia|lia]|lia|cbn; lia]).
  - rewrite (retry_stop _ _ _ _ _ _ _ _ Hcall) by lia. exists (Err e), [], (S n).
    split_and!; [done|split_and!; [lia|by replace (S n - 1)%nat with n by lia|lia]|lia|cbn; lia].
  - destruct (decide (is_retryable e = true ∧ attempt < max_retries cfg)) as [[Hr Hlt]|Hno].
    + destruct (retry_again cfg reply jitter texts rounds attempt n e Hcall Hr) as [delay ->]; [lia|].
      destruct (IH (attempt + 1) (S n)) as (r & delays & n' & -> & Hret & Hn & Hlen); [lia..|].
      exists r, (delay :: delays), n'. destruct (Hret) as [? _]. split_and!; [done|by eapply retried_more|lia|cbn; lia].
    + rewrite (retry_stop _ _ _ _ _ _ _ _ Hcall).
      2:{ destruct (is_retryable e) eqn:Hr; [right|by left]. destruct (decide (attempt < max_retries cfg)); [naive_solver|lia]. }
      exists (Err e), [], (S n). split_and!; [done|split_and!; [lia|by replace (S n - 1)%nat with n by lia|lia]|lia|cbn; lia].
Qed.

(** Calling the API ends, with up to 32 retries configured and whatever the API answers:
    there are at most [max_retries + 1] requests, one pause between two of them, all but the
    last were answered with an error that is tried again, and the last answer is the result. *)
Theorem api_calls_end cfg reply jitter texts n :
  0 <= max_retries cfg <= 32 →
  ∃ r delays n', call_voyage_api_with_retry cfg reply jitter texts n = Some (r, delays, n') ∧
    retried reply texts n n' r ∧ (n' <= n + S (Z.to_nat (max_retries cfg)))%nat ∧ length delays = (n' - n - 1)%nat.
Proof. intros Hmax. apply retry_loop_total; lia. Qed.

(** ** The cache *)

Section CacheProps.
Context `{!Inj (=) (=) blake3_hex}.

(** A vector in the cache is the one of every text with that key. *)
Definition coherent (dims : nat) (cache : Cache) : Prop :=
  ∀ t v, cache !! cache_key t = Some v → v = blake3_embedding t dims.

(** Texts with the same bytes are the same. *)
Lemma utf8_bytes_inj s t : utf8_bytes s = utf8_bytes t → s = t.
Proof.
  intros Hst. apply chars_inj. revert Hst. unfold utf8_bytes. generalize (chars t). generalize (chars s). clear s t.
  assert (∀ c d : ascii, Z.of_nat (nat_of_ascii c) = Z.of_nat (nat_of_ascii d) → c = d) as Hascii.
  { intros c d Hcd. rewrite <- (ascii_nat_embedding c), <- (ascii_nat_embedding d). f_equal. lia. }
  induction l as [|c l IH]; intros [|d k]; csimpl; [done|by destruct (_ <? 128)|by destruct (_ <? 128)|].
  pose proof (nat_ascii_bounded c) as Hc. pose proof (nat_ascii_bounded d) as Hd.
  set (x := Z.of_nat (nat_of_ascii c)) in *. set (y := Z.of_nat (nat_of_ascii d)) in *.
  assert (0 <= x < 256 ∧ 0 <= y < 256) as [Hx Hy] by lia.
  destruct (Z.ltb_spec x 128), (Z.ltb_spec y 128); cbn; intros Heq.
  - injection Heq as Hxy Hrest. f_equal; [by apply Hascii|by apply IH].
  - exfalso. injection Heq as Hxy _. Z.to_euclidean_division_equations; lia.
  - exfalso. injection Heq as Hxy _. Z.to_euclidean_division_equations; lia.
  - injection Heq as Hdiv Hmod Hrest. f_equal; [apply Hascii|by apply IH].
    fold x y. Z.to_euclidean_division_equations; lia.
Qed.

Lemma cache_key_inj s t : cache_key s = cache_key t → s = t.
Proof. intros Hst. by apply utf8_bytes_inj, (inj blake3_hex). Qed.

Lemma keep_embeddings_exact dims texts cache :
  coherent dims cache →
  let '(l, cache') := keep_embeddings dims texts ((λ t, blake3_embedding t dims) <$> texts) cache in
  l = (λ t, blake3_embedding t dims) <$> texts ∧ coherent dims cache'.
Proof.
  revert cache. induction texts as [|t texts IH]; intros cache Hc; cbn; [done|].
  specialize (IH (<[cache_key t := blake3_embedding t dims]> cache)).
  destruct (keep_embeddings _ _ _ _) as [l cache'] eqn:Hk. destruct IH as [-> Hc'].
  - intros t' v. destruct (decide (cache_key t' = cache_key t)) as [Heq|Hne].
    + rewrite Heq, lookup_insert_eq. intros [= <-]. by apply cache_key_inj in Heq as ->.
    + rewrite lookup_insert_ne by done. apply Hc.
  - done.
Qed.

Lemma cached_exact dims texts cache l :
  coherent dims cache → mapM (λ t, cache !! cache_key t) texts = Some l → l = (λ t, blake3_embedding t dims) <$> texts.
Proof.
  intros Hc Hl%mapM_Some_1. induction Hl as [|t v texts l Hv _ IH]; [done|]. cbn. f_equal; [by apply Hc|done].
Qed.

(** The cache is invisible: without an API key a batch is answered with the vectors of its
    texts, from any state of the cache that earlier batches left, and the cache stays as true
    as it was. *)
Theorem cache_is_invisible cfg reply jitter texts cache n :
  voyage_api_key cfg = None → coherent (dimensions cfg) cache →
  ∃ cache', embed_batch cfg reply jitter texts cache n = Some (Ok (embed_batch_fallback cfg texts), [], n, cache') ∧
    coherent (dimensions cfg) cache'.
Proof.
  intros Hkey Hc. unfold embed_batch. destruct texts as [|t texts]; [by exists cache|].
  destruct (mapM _ (t :: texts)) as [l|] eqn:Hl.
  - exists cache. by rewrite (cached_exact _ _ _ _ Hc Hl).
  - rewrite Hkey. cbn [mbind option_bind]. pose proof (keep_embeddings_exact (dimensions cfg) (t :: texts) cache Hc) as Hk.
    unfold embed_batch_fallback in *. destruct (keep_embeddings _ _ _ _) as [l cache']. destruct Hk as [-> Hk]. by exists cache'.
Qed.
End CacheProps.

(** Every text has its vector, also when the API answers with fewer. *)
Lemma keep_embeddings_length dims texts raw cache : length (keep_embeddings dims texts raw cache).1 = length texts.
Proof.
  revert raw cache. induction texts as [|t texts IH]; intros [|v raw] cache; cbn; try done.
  - specialize (IH [] cache). by destruct (keep_embeddings _ _ _ _); cbn in *; rewrite IH.
  - specialize (IH raw (<[cache_key t := v]> cache)). by destruct (keep_embeddings _ _ _ _); cbn in *; rewrite IH.
Qed.

Theorem batch_has_all cfg reply jitter texts cache n l delays n' cache' :
  embed_batch cfg reply jitter texts cache n = Some (Ok l, delays, n', cache') → length l = length texts.
Proof.
  unfold embed_batch. destruct texts as [|t texts]; [by intros [= <-]|].
  destruct (mapM _ (t :: texts)) as [k|] eqn:Hk.
  - intros [= <- _ _ _]. apply mapM_Some_1, Forall2_length in Hk. by rewrite <- Hk.
  - intros ([[raw d] m] & _ & Hr)%bind_Some. destruct raw as [raw|e]; [|done].
    pose proof (keep_embeddings_length (dimensions cfg) (t :: texts) raw cache) as Hlen.
    destruct (keep_embeddings _ _ _ _) as [k cache'']. by simplify_eq/=.
Qed.
End Embed.

(** ** Runs *)

Definition busy_reply (header : string) (n : nat) (_ : list string) : HttpReply :=
  if (n =? 0)%nat then Replied 429 "429 Too Many Requests" (Some header) (Ok ""%string) (Ok [])
  else Replied 200 "200 OK" None (Ok ""%string) (Ok [[f32_zero]]).

Lemma api_calls_end_witness :
  ∃ r delays n', call_voyage_api_with_retry EmbeddingConfig_default (busy_reply "1") (λ _, 0) ["x"%string] 0 = Some (r, delays, n').
Proof.
  destruct (api_calls_end EmbeddingConfig_default (busy_reply "1") (λ _, 0) ["x"%string] 0) as (r & delays & n' & Hr & _).
  - cbn. lia.
  - exists r, delays, n'. exact Hr.
Defined.

(** A pause the API asks for is not limited by [retry_max_delay_ms], and one of its answers holds
    the caller for a day. *)
Theorem asked_pause_is_not_limited :
  call_voyage_api_with_retry EmbeddingConfig_default (busy_reply "86400") (λ _, 0) ["x"%string] 0
  = Some (Ok [[f32_zero]], [86400000], 2%nat) ∧ retry_max_delay_ms EmbeddingConfig_default < 86400000.
Proof. by vm_compute. Qed.

(** A batch size of 0 from the environment is taken, and the first batch panics. *)
Definition zero_batch (name : string) : option string :=
  if name ==? "UC_VOYAGE_API_KEY" then Some "key"%string
  else if name ==? "UC_EMBEDDING_BATCH_SIZE" then Some "0"%string else None.

Theorem zero_batch_size_panics `{ChunkDigest} reply jitter :
  embed_batch (EmbeddingConfig_from_env zero_batch) reply jitter ["x"%string] ∅ 0 = None.
Proof. unfold embed_batch. cbn [mapM]. by rewrite lookup_empty. Qed.

(** Distinct bytes have distinct texts. *)
Definition numbered_digest : ChunkDigest :=
  {| blake3_digest := λ _, replicate 32 255; blake3_hex := λ l, pretty (Npos (encode l)) |}.
#[local] Instance numbered_digest_inj : Inj (=) (=) (@blake3_hex numbered_digest).
Proof.
  intros l k Hlk. apply (inj pretty) in Hlk. assert (encode l = encode k) as He by congruence. by apply (inj encode).
Qed.

Lemma cache_is_invisible_witness :
  ∃ cache, embed_batch (H:=numbered_digest) EmbeddingConfig_default (busy_reply "1") (λ _, 0) ["x"%string] ∅ 0
    = Some (Ok (embed_batch_fallback (H:=numbered_digest) EmbeddingConfig_default ["x"%string]), [], 0%nat, cache).
Proof.
  destruct (cache_is_invisible (H:=numbered_digest) EmbeddingConfig_default (busy_reply "1") (λ _, 0) ["x"%string] ∅ 0) as (cache & Hc & _).
  - reflexivity.
  - intros t v Hv. rewrite lookup_empty in Hv. discriminate Hv.
  - exists cache. exact Hc.
Defined.
