(* ===== verification/RateLimiter.v ===== *)
(** * The rate limiter of model calls

    [uc-engine/src/rate_limiter.rs]: the token buckets over 64-bit floats, the limiter of
    requests, tokens and concurrent calls, and the chain of models.

    - A clock reading is an [Instant] in nanoseconds; a call that reads the clock several times
      takes the readings as a function of their number.
    - [None] is the panic of [Duration::from_secs_f64].
    - Under concurrency ([lim_step]) a call takes one atomic operation, or one part of an
      operation on a bucket between its locks, at a time. *)

From Stdlib Require Import String SpecFloat.
From stdpp Require Import gmap strings.
From S2P Require Import Prelude RustStr Mandate Task Ranking Embedding.

(** ** Durations and casts *)

(** [Duration::as_secs_f64] of nanoseconds. *)
Definition as_secs_f64 (nanos : Z) : f64 :=
  f64_add (f64_of_Z (nanos `div` 1000000000)) (f64_div (f64_of_Z (nanos `mod` 1000000000)) (f64_of_Z 1000000000)).

(** The nearest integer of [n / d], ties to even. *)
Definition round_half_even (n d : Z) : Z :=
  let q := n `div` d in
  let r := n `mod` d in
  if 2 * r <? d then q else if d <? 2 * r then q + 1 else if Z.even q then q else q + 1.

(** [Duration::from_secs_f64], in nanoseconds. *)
Definition from_secs_f64 (x : f64) : option Z :=
  match x with
  | S754_zero _ => Some 0
  | S754_finite false m e =>
      let n := Zpos m * 1000000000 in
      let nanos := if 0 <=? e then n * 2 ^ e else round_half_even n (2 ^ (- e)) in
      if nanos `div` 1000000000 <=? u64_max then Some nanos else None
  | _ => None
  end.

(** [x as u64]: towards zero, saturating, and 0 for what is not a number. *)
Definition f64_as_u64 (x : f64) : Z :=
  match x with
  | S754_finite false m e => Z.min u64_max (if 0 <=? e then Zpos m * 2 ^ e else Zpos m `div` 2 ^ (- e))
  | S754_infinity false => u64_max
  | _ => 0
  end.

Definition f64_zero : f64 := S754_zero false.
Definition f64_one : f64 := f64_of_Z 1.

(** ** The bucket *)

Record TokenBucket : Type := mkBucket {
  capacity : f64;
  tokens : f64;
  refill_rate : f64;
  last_refill : Instant
}.
Definition TokenBucket_new (now : Instant) (capacity refill_rate : f64) : TokenBucket :=
  mkBucket capacity capacity refill_rate now.
Definition TokenBucket_per_minute (now : Instant) (per_minute : f64) : TokenBucket :=
  TokenBucket_new now per_minute (f64_div per_minute (f64_of_Z 60)).

Definition set_tokens (t : f64) (b : TokenBucket) : TokenBucket :=
  mkBucket (capacity b) t (refill_rate b) (last_refill b).

(** [duration_since] is zero for a time before the last refill. *)
Definition refill (now : Instant) (b : TokenBucket) : TokenBucket :=
  let elapsed := as_secs_f64 (Z.max 0 (now - last_refill b)) in
  mkBucket (capacity b) (f64_min (f64_add (tokens b) (f64_mul elapsed (refill_rate b))) (capacity b)) (refill_rate b) now.

Definition take_tokens (amount : f64) (b : TokenBucket) : bool * TokenBucket :=
  if f64_le amount (tokens b) then (true, set_tokens (f64_sub (tokens b) amount) b) else (false, b).
Definition try_consume (now : Instant) (amount : f64) (b : TokenBucket) : bool * TokenBucket :=
  take_tokens amount (refill now b).

(** [consume] with the clock readings of its rounds: the tries until the first that succeeds. *)
Fixpoint bucket_consume (readings : list Instant) (amount : f64) (b : TokenBucket) : option TokenBucket :=
  match readings with
  | [] => None
  | now :: readings =>
      let '(ok, b) := try_consume now amount b in if ok then Some b else bucket_consume readings amount b
  end.

Definition bucket_available (now : Instant) (b : TokenBucket) : f64 * TokenBucket :=
  let b := refill now b in (tokens b, b).

Definition refund (amount : f64) (b : TokenBucket) : TokenBucket :=
  set_tokens (f64_min (f64_add (tokens b) amount) (capacity b)) b.

Definition wait_time (now : Instant) (amount : f64) (b : TokenBucket) : option Z * TokenBucket :=
  let b := refill now b in
  (if f64_le amount (tokens b) then Some 0
   else if SFltb f64_zero (refill_rate b) then
     from_secs_f64 (f64_div (f64_sub amount (tokens b)) (refill_rate b))
   else Some (3600 * 1000000000), b).

(** ** The limiter *)

Record LlmRateLimiterConfig : Type := mkRateConfig { rpm : f64; tpm : f64; rc_max_concurrent : Z }.
Definition LlmRateLimiterConfig_default : LlmRateLimiterConfig := mkRateConfig (f64_of_Z 60) (f64_of_Z 100000) 10.

Record LlmRateLimiter : Type := mkLimiter {
  rpm_bucket : TokenBucket;
  tpm_bucket : TokenBucket;
  max_concurrent : Z;
  active_requests : Z;
  total_requests : Z;
  total_tokens : Z
}.
Definition LlmRateLimiter_new (now : Instant) (c : LlmRateLimiterConfig) : LlmRateLimiter :=
  mkLimiter (TokenBucket_per_minute now (rpm c)) (TokenBucket_per_minute now (tpm c)) (rc_max_concurrent c) 0 0 0.

Definition set_buckets (r t : TokenBucket) (l : LlmRateLimiter) : LlmRateLimiter :=
  mkLimiter r t (max_concurrent l) (active_requests l) (total_requests l) (total_tokens l).

(** [fetch_add] and [fetch_sub] wrap around. *)
Definition record_request (estimated : f64) (l : LlmRateLimiter) : LlmRateLimiter :=
  mkLimiter (rpm_bucket l) (tpm_bucket l) (max_concurrent l) ((active_requests l + 1) `mod` 2 ^ 64)
    ((total_requests l + 1) `mod` 2 ^ 64) ((total_tokens l + f64_as_u64 estimated) `mod` 2 ^ 64).
Definition limiter_release (l : LlmRateLimiter) : LlmRateLimiter :=
  mkLimiter (rpm_bucket l) (tpm_bucket l) (max_concurrent l) ((active_requests l - 1) `mod` 2 ^ 64)
    (total_requests l) (total_tokens l).

Definition limited (wait : option Z) : option (result unit EngineError) :=
  nanos ← wait; Some (Err (RateLimited (nanos `div` 1000000000 + 1))).

Definition try_acquire (at_ : nat → Instant) (estimated : f64) (l : LlmRateLimiter)
    : option (result unit EngineError) * LlmRateLimiter :=
  if active_requests l >=? max_concurrent l then (Some (Err (RateLimited 1)), l)
  else
    match try_consume (at_ 0%nat) f64_one (rpm_bucket l) with
    | (false, r) =>
        let '(wait, r) := wait_time (at_ 1%nat) f64_one r in (limited wait, set_buckets r (tpm_bucket l) l)
    | (true, r) =>
        match try_consume (at_ 2%nat) estimated (tpm_bucket l) with
        | (false, t) =>
            match wait_time (at_ 3%nat) estimated t with
            | (None, t) => (None, set_buckets r t l)
            | (Some wait, t) => (limited (Some wait), set_buckets (refund f64_one r) t l)
            end
        | (true, t) => (Some (Ok tt), record_request estimated (set_buckets r t l))
        end
    end.

Definition can_request (at_ : nat → Instant) (estimated : f64) (l : LlmRateLimiter) : bool * LlmRateLimiter :=
  if active_requests l >=? max_concurrent l then (false, l)
  else
    let '(r_tokens, r) := bucket_available (at_ 0%nat) (rpm_bucket l) in
    if f64_le f64_one r_tokens then
      let '(t_tokens, t) := bucket_available (at_ 1%nat) (tpm_bucket l) in
      (f64_le estimated t_tokens, set_buckets r t l)
    else (false, set_buckets r (tpm_bucket l) l).

(** ** The chain of models *)

Inductive RequestPriority : Type := PriorityLow | PriorityMedium | PriorityHigh | PriorityCritical.
Inductive TaskComplexity : Type := ComplexityLow | ComplexityMedium | ComplexityHigh.

Record ModelFallbackChain : Type := mkChain { primary : string; secondary : string; tertiary : string }.
Definition ModelFallbackChain_default : ModelFallbackChain :=
  mkChain "mimo-v2.6-flash" "deepseek-flash" "claude-haiku-4-5-20251001".

Definition fallback_model (c : ModelFallbackChain) (current : string) : option string :=
  if current ==? primary c then Some (secondary c)
  else if current ==? secondary c then Some (tertiary c)
  else None.

Definition select_model (c : ModelFallbackChain) (complexity : TaskComplexity) (primary_available secondary_available : bool)
    : string :=
  match complexity with
  | ComplexityHigh => if primary_available then primary c else secondary c
  | ComplexityMedium => if secondary_available then secondary c else tertiary c
  | ComplexityLow => tertiary c
  end.

(** ** Buckets *)

Lemma f64_le_refl a : f64_is_nan a = false → f64_le a a = true.
Proof.
  intros Ha. pose proof (SFltb_SFleb a a Ha Ha) as Hl. unfold f64_le. rewrite <- Hl. unfold SFltb.
  destruct a as [[]|[]| |[] m e]; try done; cbn; by rewrite Z.compare_refl, Pos.compare_cont_refl.
Qed.

Lemma f64_min_below a c : f64_is_nan c = false → f64_le (f64_min a c) c = true.
Proof.
  intros Hc. unfold f64_min. destruct (f64_is_nan a) eqn:Ha; [by apply f64_le_refl|]. rewrite Hc.
  destruct (SFltb c a) eqn:Hlt; [by apply f64_le_refl|]. unfold f64_le. by rewrite <- SFltb_SFleb, Hlt.
Qed.

Lemma f64_le_min x a c : f64_le x a = true → f64_le x c = true → f64_le x (f64_min a c) = true.
Proof. intros Ha Hc. unfold f64_min. by repeat case_match. Qed.

(** A bucket that was just refilled has at most its capacity. *)
Lemma refill_capped now b : f64_is_nan (capacity b) = false → f64_le (tokens (refill now b)) (capacity b) = true.
Proof. intros Hc. by apply f64_min_below. Qed.

(** A request for more than the capacity is refused at any time, however full the bucket is
    and however long it was left alone. *)
Theorem oversized_is_refused now amount b :
  f64_is_nan (capacity b) = false → SFltb (capacity b) amount = true → try_consume now amount b = (false, refill now b).
Proof.
  intros Hc Hlt. unfold try_consume, take_tokens. destruct (f64_le amount _) eqn:Hle; [|done]. exfalso.
  pose proof (f64_le_trans _ _ _ Hle (refill_capped now b Hc)) as Hcap.
  assert (f64_is_nan amount = false) as Ha by (by apply SFleb_not_nan in Hcap as [? _]).
  unfold f64_le in Hcap. by rewrite <- (SFltb_SFleb _ _ Hc Ha), Hlt in Hcap.
Qed.

(** No time has passed: nothing is added, or the bucket is full. *)
Lemma no_time_adds rate : let z := f64_mul (as_secs_f64 0) rate in z = S754_nan ∨ ∃ s, z = S754_zero s.
Proof.
  cbn zeta. replace (as_secs_f64 0) with (S754_zero false) by (by vm_compute).
  destruct rate as [[]|[]| |[] m e]; cbn; eauto.
Qed.

Lemma refill_again now amount b :
  f64_is_nan (capacity b) = false → f64_le amount (tokens (refill now b)) = true →
  f64_le amount (tokens (refill now (refill now b))) = true.
Proof.
  intros Hc Hle. pose proof (f64_le_trans _ _ _ Hle (refill_capped now b Hc)) as Hcap.
  unfold refill at 1. cbn [tokens capacity refill_rate last_refill]. set (t := tokens (refill now b)) in *.
  replace (last_refill (refill now b)) with now by done. rewrite Z.sub_diag. change (Z.max 0 0) with 0.
  change (capacity (refill now b)) with (capacity b). change (refill_rate (refill now b)) with (refill_rate b).
  destruct (no_time_adds (refill_rate b)) as [-> | [s ->]].
  - replace (f64_min (f64_add t S754_nan) (capacity b)) with (capacity b); [done|]. by destruct t as [| | |[]].
  - apply f64_le_min; [|done]. unfold f64_add. destruct t as [[]|[]| |[] m e] eqn:Ht, s; cbn; try done;
      by destruct amount as [[]|[]| |[] m' e'].
Qed.

Lemma consume_after_available now amount b :
  f64_is_nan (capacity b) = false → f64_le amount (tokens (refill now b)) = true →
  (try_consume now amount (refill now b)).1 = true.
Proof. intros Hc Hle. unfold try_consume, take_tokens. by rewrite refill_again. Qed.

(** A request that was said to be possible is granted when it is made before time goes on,
    and is counted as one more active request. *)
Theorem can_request_is_kept now estimated l l' :
  f64_is_nan (capacity (rpm_bucket l)) = false → f64_is_nan (capacity (tpm_bucket l)) = false →
  can_request (λ _, now) estimated l = (true, l') →
  ∃ l'', try_acquire (λ _, now) estimated l' = (Some (Ok tt), l'') ∧
    active_requests l'' = (active_requests l + 1) `mod` 2 ^ 64.
Proof.
  intros Hr Ht. unfold can_request. destruct (active_requests l >=? max_concurrent l) eqn:Hmax; [done|].
  cbn [bucket_available]. destruct (f64_le f64_one _) eqn:H1; [|done]. intros [= H2 <-].
  unfold try_acquire. cbn [active_requests max_concurrent set_buckets rpm_bucket tpm_bucket]. rewrite Hmax.
  pose proof (consume_after_available now _ _ Hr H1) as Hc1. pose proof (consume_after_available now _ _ Ht H2) as Hc2.
  destruct (try_consume now f64_one _) as [[] r]; [|done]. destruct (try_consume now estimated _) as [[] t]; [|done].
  by eexists.
Qed.

(** ** Concurrent callers *)

(** Where a caller is: what it has done of [try_acquire], or its request is running. *)
Inductive limiter_caller : Type :=
| Outside
| Loaded (estimated : f64)
| RpmRefilled (estimated : f64)
| RpmTaken (estimated : f64)
| TpmRefilled (estimated : f64)
| TpmTaken (estimated : f64)
| Running.

Record LimiterRun : Type := mkLimiterRun { the_limiter : LlmRateLimiter; callers : list limiter_caller }.

(** One step of a caller, with the clock at [now].  A refusal refills the bucket once more for
    the time to wait; a refusal by the tokens gives the request back. *)
Definition caller_step (now : Instant) (estimated : f64) (c : limiter_caller) (l : LlmRateLimiter)
    : limiter_caller * LlmRateLimiter :=
  match c with
  | Outside => (if active_requests l >=? max_concurrent l then Outside else Loaded estimated, l)
  | Loaded e => (RpmRefilled e, set_buckets (refill now (rpm_bucket l)) (tpm_bucket l) l)
  | RpmRefilled e =>
      match take_tokens f64_one (rpm_bucket l) with
      | (true, r) => (RpmTaken e, set_buckets r (tpm_bucket l) l)
      | (false, r) => (Outside, set_buckets (refill now r) (tpm_bucket l) l)
      end
  | RpmTaken e => (TpmRefilled e, set_buckets (rpm_bucket l) (refill now (tpm_bucket l)) l)
  | TpmRefilled e =>
      match take_tokens e (tpm_bucket l) with
      | (true, t) => (TpmTaken e, set_buckets (rpm_bucket l) t l)
      | (false, t) => (Outside, set_buckets (refund f64_one (rpm_bucket l)) (refill now t) l)
      end
  | TpmTaken e => (Running, record_request e l)
  | Running => (Outside, limiter_release l)
  end.

Definition in_call (c : limiter_caller) : bool := match c with Outside | Running => false | _ => true end.
Definition running (c : limiter_caller) : bool := match c with Running => true | _ => false end.
Definition acquiring (s : LimiterRun) : nat := length (filterb in_call (callers s)).

Definition run_caller (now : Instant) (estimated : f64) (i : nat) (s : LimiterRun) : option LimiterRun :=
  c ← callers s !! i;
  let '(c', l') := caller_step now estimated c (the_limiter s) in
  Some (mkLimiterRun l' (<[i := c']> (callers s))).

(** Any caller moves, at any time; a call begins only when fewer than [limit] are under way. *)
Inductive lim_step (limit : nat) : LimiterRun → LimiterRun → Prop :=
| LimStep now estimated i c s s' :
    callers s !! i = Some c → (c = Outside → (acquiring s < limit)%nat) →
    run_caller now estimated i s = Some s' → lim_step limit s s'.

Lemma count_insert {A} (p : A → bool) (l : list A) i x y :
  l !! i = Some x →
  (length (filterb p (<[i := y]> l)) + (if p x then 1 else 0) = length (filterb p l) + (if p y then 1 else 0))%nat.
Proof.
  unfold filterb. revert i. induction l as [|z l IH]; intros [|i] Hi; simplify_eq/=; [destruct (p x), (p y); cbn; lia|].
  specialize (IH i Hi). destruct (p z); cbn; lia.
Qed.

(** The count of active requests is the number of those that run, and with those under way
    stays within the limit. *)
Definition lim_inv (extra : nat) (s : LimiterRun) : Prop :=
  active_requests (the_limiter s) = Z.of_nat (length (filterb running (callers s))) ∧
  (acquiring s <= S extra)%nat ∧
  active_requests (the_limiter s) + Z.of_nat (acquiring s) <= max_concurrent (the_limiter s) + Z.of_nat extra.

Lemma lim_step_inv extra s s' :
  max_concurrent (the_limiter s) + Z.of_nat extra < 2 ^ 64 → lim_inv extra s → lim_step (S extra) s s' →
  lim_inv extra s' ∧ max_concurrent (the_limiter s') = max_concurrent (the_limiter s).
Proof.
  intros Hbig HI Hs. revert Hbig HI. destruct Hs as [now est i c s0 s1 Hi Hout Hrun].
  intros Hbig (Hact & Hlim & Hle). unfold run_caller in Hrun. rewrite Hi in Hrun.
  cbn [mbind option_bind] in Hrun. unfold lim_inv, acquiring in *.
  destruct (caller_step now est c (the_limiter s0)) as [c' l'] eqn:Hstep. injection Hrun as <-. cbn [the_limiter callers].
  pose proof (count_insert running _ _ _ c' Hi) as Hr. pose proof (count_insert in_call _ _ _ c' Hi) as Hc.
  destruct c; cbn [caller_step] in Hstep;
    repeat match type of Hstep with
           | context [if ?b then _ else _] => destruct b eqn:?
           | context [match ?b with (_, _) => _ end] => destruct b as [[] ?]
           end; simplify_eq/=; cbn [set_buckets active_requests max_concurrent record_request limiter_release] in *;
    cbn [running in_call] in Hr, Hc; try specialize (Hout eq_refl); try (split; [split_and!|done]; lia).
  all: rewrite Hact, Z.mod_small by lia; (split; [split_and!|done]; lia).
Qed.

(** The limit of concurrent requests holds when calls of [try_acquire] do not overlap; with
    up to [S extra] calls at the same time at most [extra] more requests run.  The counter is
    the number of requests that run and never wraps around. *)
Theorem limiter_bounded c now n extra s :
  0 <= rc_max_concurrent c → rc_max_concurrent c + Z.of_nat extra < 2 ^ 64 →
  rtc (lim_step (S extra)) (mkLimiterRun (LlmRateLimiter_new now c) (replicate n Outside)) s →
  active_requests (the_limiter s) = Z.of_nat (length (filterb running (callers s))) ∧
  active_requests (the_limiter s) <= rc_max_concurrent c + Z.of_nat extra.
Proof.
  intros Hmax Hbig Hr.
  assert (lim_inv extra s ∧ max_concurrent (the_limiter s) = rc_max_concurrent c) as [(Hact & _ & Hle) Hm].
  { eapply (rtc_ind_r (λ s, lim_inv extra s ∧ max_concurrent (the_limiter s) = rc_max_concurrent c)); [|clear s Hr|exact Hr].
    - assert (∀ p, p Outside = false → filterb p (replicate n Outside) = []) as Hnone.
      { intros p Hp. apply filterb_none, Forall_replicate, Hp. }
      split; [|done]. unfold lim_inv, acquiring. cbn. rewrite !Hnone by done. cbn. split_and!; lia.
    - intros s s' _ Hs [HI Hm]. destruct (lim_step_inv extra s s') as [? Hm']; [lia|done|done|]. split; [done|congruence]. }
  split; [done|lia].
Qed.

(** ** Models *)

(** With three different models the chain ends: each model falls back to the next one, and
    the last one to none. *)
Theorem fallback_chain_ends c :
  NoDup [primary c; secondary c; tertiary c] →
  fallback_model c (primary c) = Some (secondary c) ∧ fallback_model c (secondary c) = Some (tertiary c) ∧
  fallback_model c (tertiary c) = None.
Proof.
  intros Hnd. apply NoDup_cons in Hnd as [H1 Hnd]. apply NoDup_cons in Hnd as [H2 _].
  assert (secondary c ≠ primary c ∧ tertiary c ≠ primary c ∧ tertiary c ≠ secondary c) as (Ha & Hb & Hc) by set_solver.
  unfold fallback_model. split_and!; repeat case_bool_decide; congruence.
Qed.

(** ** Runs *)

Lemma oversized_is_refused_witness :
  (try_consume 0 (f64_of_Z 61) (TokenBucket_per_minute 0 (f64_of_Z 60))).1 = false.
Proof. rewrite oversized_is_refused; [reflexivity|by vm_compute|by vm_compute]. Defined.

Definition demo_limiter : LlmRateLimiter := LlmRateLimiter_new 0 (mkRateConfig (f64_of_Z 60) (f64_of_Z 1000) 1).

Lemma can_request_is_kept_witness :
  ∃ l' l'', can_request (λ _, 0) (f64_of_Z 10) demo_limiter = (true, l') ∧
    try_acquire (λ _, 0) (f64_of_Z 10) l' = (Some (Ok tt), l'').
Proof.
  destruct (can_request (λ _, 0) (f64_of_Z 10) demo_limiter) as [b l'] eqn:Hc.
  assert (b = true) as -> by (vm_compute in Hc; congruence).
  destruct (can_request_is_kept 0 (f64_of_Z 10) demo_limiter l') as (l'' & Hl & _); [by vm_compute|by vm_compute|done|].
  by exists l', l''.
Defined.

Lemma fallback_chain_ends_witness : fallback_model ModelFallbackChain_default "claude-haiku-4-5-20251001" = None.
Proof.
  destruct (fallback_chain_ends ModelFallbackChain_default) as (_ & _ & Hn); [|exact Hn].
  by vm_compute; repeat constructor; set_solver.
Defined.

Fixpoint run_callers (l : list nat) (s : LimiterRun) : option LimiterRun :=
  match l with
  | [] => Some s
  | i :: l => run_caller 0 (f64_of_Z 10) i s ≫= run_callers l
  end.

Definition two_callers : LimiterRun := mkLimiterRun demo_limiter (replicate 2 Outside).

(** Both callers read the counter before either counts itself: two requests run where one is
    allowed. *)
Theorem concurrent_limit_is_passed :
  ∃ s, run_callers [0; 1; 0; 0; 0; 0; 0; 1; 1; 1; 1; 1]%nat two_callers = Some s ∧
    max_concurrent (the_limiter s) = 1 ∧ active_requests (the_limiter s) = 2 ∧ callers s = [Running; Running].
Proof. eexists. split; [by vm_compute|done]. Qed.

Lemma limiter_bounded_witness :
  ∃ s, run_callers [0; 0; 0; 0; 0; 0]%nat two_callers = Some s ∧ active_requests (the_limiter s) <= 1 + 1.
Proof.
  destruct (run_callers [0; 0; 0; 0; 0; 0]%nat two_callers) as [s|] eqn:Hs; [|vm_compute in Hs; discriminate Hs].
  exists s. split; [done|].
  destruct (limiter_bounded (mkRateConfig (f64_of_Z 60) (f64_of_Z 1000) 1) 0 2 1 s) as [_ Hle]; [by cbn|by cbn| |exact Hle].
  change (mkLimiterRun (LlmRateLimiter_new 0 _) _) with two_callers.
  assert (∀ l s0, run_callers l s0 = Some s → Forall (λ i, i = 0%nat) l → length (callers s0) = 2%nat →
            callers s0 !! 1%nat = Some Outside → rtc (lim_step 2) s0 s) as Hgen; [|apply (Hgen _ _ Hs); [by repeat constructor|done|done]].
  clear Hs. induction l as [|i l IH]; intros s0 Hrun Hl Hlen H1; [by injection Hrun as <-|].
  apply Forall_cons in Hl as [-> Hl]. cbn [run_callers] in Hrun. apply bind_Some in Hrun as (s1 & Hs1 & Hrun).
  destruct (callers s0) as [|c0 [|c1 [|? ?]]] eqn:Hcs; try done. injection H1 as ->.
  eapply rtc_l; [apply (LimStep 2 0 (f64_of_Z 10) 0 c0 s0 s1); [by rewrite Hcs| |done]|].
  - intros ->. unfold acquiring. rewrite Hcs. cbn. lia.
  - unfold run_caller in Hs1. rewrite Hcs in Hs1. cbn [lookup list_lookup mbind option_bind] in Hs1.
    destruct (caller_step _ _ _ _) as [c' l'] eqn:Hc. injection Hs1 as <-. by apply IH.
Defined.

(** Releasing a slot that was never taken wraps the counter around, and nothing is admitted. *)
Theorem unmatched_release_blocks at_ estimated :
  active_requests (limiter_release demo_limiter) = u64_max ∧
  (try_acquire at_ estimated (limiter_release demo_limiter)).1 = Some (Err (RateLimited 1)).
Proof. done. Qed.

(** A negative estimate is granted and adds tokens, past the capacity. *)
Theorem negative_estimate_adds_tokens :
  ∃ l, try_acquire (λ _, 0) (f64_of_Z (-500)) demo_limiter = (Some (Ok tt), l) ∧
    SFltb (capacity (tpm_bucket l)) (tokens (tpm_bucket l)) = true.
Proof. eexists. split; [by vm_compute|by vm_compute]. Qed.

(** A caller that asks for more than the capacity is told to come back, where it is refused again. *)
Theorem oversized_is_told_to_wait :
  (try_acquire (λ _, 0) (f64_of_Z 2000) demo_limiter).1 = Some (Err (RateLimited 61)).
Proof. by vm_compute. Qed.

(** Two equal models make the chain a loop. *)
Theorem equal_models_loop m t : fallback_model (mkChain m m t) m = Some m.
Proof. unfold fallback_model. by rewrite bool_decide_eq_true_2. Qed.
