(* ===== verification/Agents.v ===== *)
(** * Agent adapters

    [uc-engine/src/sandbox/agents/]: the overrides of a subtask ([mod.rs]) and the adapters of
    Claude Code, Grok Build and Codex: the command each is run with, and what is read from
    its output.

    - A JSON text is read by serde ([ValueParse]), and so is an overriding configuration
      ([AgentConfigJson]).  Objects are looked up by their first field of a name, as there is
      only one.
    - The environment of the process is the argument [env].
    - [truncate_str] has a value for every text ([truncate_str_cuts]). *)

From Stdlib Require Import String Ascii.
From stdpp Require Import gmap strings pretty.
From S2P Require Import Prelude RustStr Task Merge Graph GatewayEvents ApprovalService Memory MemoryRpc Sandbox Embedding.

(** ** Values *)

Definition json_get (key : string) (v : JsonValue) : option JsonValue :=
  match v with JObject fields => snd <$> find (λ f, f.1 ==? key) fields | _ => None end.
Definition json_str (key : string) (v : JsonValue) : option string := json_get key v ≫= as_str.
Definition json_list (key : string) (v : JsonValue) : option (list JsonValue) := json_get key v ≫= as_array.
Definition is_object (v : JsonValue) : bool := match v with JObject _ => true | _ => false end.
Definition json_f64 (v : JsonValue) : option f64 :=
  match v with JInt z => Some (f64_of_Z z) | JFloat f => Some f | _ => None end.

Definition cut (s : string) (n : nat) : string := default ""%string (truncate_str s n).

(** ** Overrides of a subtask *)

Record SubtaskAgentConfig : Type := mkAgentConfig {
  ac_tools : option (list string);
  ac_allowed_tools : option (list string);
  ac_disallowed_tools : option (list string);
  ac_mcp_configs : option (list string);
  ac_append_system_prompt : option string;
  ac_agent_name : option string;
  ac_agents_json : option string
}.

Definition merge_agent_config (config : SandboxConfig) (subtask : SubtaskAgentConfig) : SandboxConfig :=
  mkSandboxConfig (sc_project_path config) (sc_env_vars config) (sc_resource_limits config) (sc_network config)
    (sc_working_dir config) (default (sc_tools config) (ac_tools subtask))
    (default (sc_allowed_tools config) (ac_allowed_tools subtask))
    (default (sc_disallowed_tools config) (ac_disallowed_tools subtask))
    (default (sc_mcp_configs config) (ac_mcp_configs subtask))
    (or_else (ac_append_system_prompt subtask) (sc_append_system_prompt config))
    (or_else (ac_agent_name subtask) (sc_agent_name config))
    (or_else (ac_agents_json subtask) (sc_agents_json config)).

Class AgentConfigJson := { agent_config_of : JsonValue → option SubtaskAgentConfig }.

Definition effective_config `{AgentConfigJson} (config : SandboxConfig) (subtask : option JsonValue) : SandboxConfig :=
  match subtask ≫= agent_config_of with
  | Some parsed => merge_agent_config config parsed
  | None => config
  end.

(** The key of the configuration, or else the one of the process. *)
Definition with_api_key (env : string → option string) (key : string) (vars : gmap string string) : gmap string string :=
  match vars !! key, env key with
  | None, Some v => <[key := v]> vars
  | _, _ => vars
  end.

Definition chosen_dir (working_dir : string) (config : SandboxConfig) : string :=
  if working_dir ==? "" then sc_working_dir config else working_dir.

Definition list_flag (flag : string) (l : list string) : list string := match l with [] => [] | _ => flag :: l end.
Definition option_flag (flag : string) (o : option string) : list string :=
  match o with Some v => [flag; v] | None => [] end.

(** ** What every adapter does with a run that failed *)

Definition failed_output (summary : string) : AgentOutput := mkAgentOutput summary [] None false.
Definition parse_run (name : string) (r : ExecResult) (parse : string → AgentOutput) : AgentOutput :=
  if timed_out r then failed_output (name +:+ " execution timed out")
  else if negb (exit_code r =? 0) then
    failed_output (name +:+ " exited with code " +:+ pretty (exit_code r) +:+ ": " +:+ cut (ex_stderr r) 200)
  else parse (trim (ex_stdout r)).

(** ** Claude Code *)

Module Claude.
Definition DEFAULT_MAX_TURNS : Z := 20.

Definition claude_build_request `{AgentConfigJson} (env : string → option string) (max_turns : Z) (prompt working_dir : string)
    (config : SandboxConfig) (subtask : option JsonValue) : ExecRequest :=
  let c := effective_config config subtask in
  mkExec "claude"
    (["-p"; prompt; "--output-format"; "json"; "--max-turns"; pretty max_turns; "--dangerously-skip-permissions"]%string
     ++ list_flag "--tools" (sc_tools c) ++ list_flag "--allowedTools" (sc_allowed_tools c)
     ++ list_flag "--disallowedTools" (sc_disallowed_tools c) ++ list_flag "--mcp-config" (sc_mcp_configs c)
     ++ option_flag "--append-system-prompt" (sc_append_system_prompt c)
     ++ option_flag "--agent" (sc_agent_name c) ++ option_flag "--agents" (sc_agents_json c))
    None (max_cpu_seconds (sc_resource_limits c)) (chosen_dir working_dir c)
    (with_api_key env "ANTHROPIC_API_KEY" (sc_env_vars c)).

(** The text of the last message of the assistant that has one. *)
Definition assistant_text (msg : JsonValue) : option string :=
  if json_str "role" msg ==? Some "assistant"%string then
    match json_str "content" msg with
    | Some content => Some (cut content 500)
    | None =>
        blocks ← json_list "content" msg;
        match omap (json_str "text") blocks with
        | [] => None
        | parts => Some (cut (join " " parts) 500)
        end
    end
  else None.

Definition extract_summary (v : JsonValue) : string :=
  match json_str "result" v with
  | Some t => cut t 500
  | None =>
      match json_str "message" v with
      | Some t => cut t 500
      | None =>
          default "Claude Code completed (output parsing limited)"%string
            (messages ← json_list "messages" v; head (omap assistant_text (rev messages)))
      end
  end.

Definition claude_extract_token_usage (v : JsonValue) : option TokenUsage :=
  usage ← json_get "usage" v;
  Some (mkTokenUsage (default 0 (json_get "input_tokens" usage ≫= as_u64))
          (default 0 (json_get "output_tokens" usage ≫= as_u64)) (json_get "total_cost_usd" usage ≫= json_f64)).

(** The change a tool makes to the file it names. *)
Definition tool_change (name : string) : option ChangeType :=
  if (name ==? "write_file") || (name ==? "create_file") then Some FileCreated
  else if (name ==? "edit_file") || (name ==? "replace_in_file") then Some FileModified
  else if name ==? "delete_file" then Some FileDeleted
  else None.

Definition block_change (block : JsonValue) : option FileChange :=
  if json_str "type" block ==? Some "tool_use"%string then
    kind ← tool_change (default ""%string (json_str "name" block));
    path ← json_get "input" block ≫= json_str "file_path";
    Some (mkFileChange path kind "")
  else None.

Definition extract_file_changes (v : JsonValue) : list FileChange :=
  default [] (json_list "messages" v) ≫= λ msg,
    if json_str "role" msg ==? Some "assistant"%string then omap block_change (default [] (json_list "content" msg)) else [].

Definition claude_parse_output `{ValueParse} (r : ExecResult) : AgentOutput :=
  parse_run "Claude Code" r (λ output,
    match value_of_text output with
    | Some v => mkAgentOutput (extract_summary v) (extract_file_changes v) (claude_extract_token_usage v) true
    | None => mkAgentOutput (cut output 1000) [] None true
    end).
End Claude.

(** ** Grok Build *)

Module Grok.
Definition grok_build_request `{AgentConfigJson} (env : string → option string) (prompt working_dir : string)
    (config : SandboxConfig) (subtask : option JsonValue) : ExecRequest :=
  let c := effective_config config subtask in
  let dir := chosen_dir working_dir c in
  mkExec "grok"
    (["--no-auto-update"; "--no-alt-screen"; "--always-approve"; "--cwd"; dir; "--output-format"; "streaming-json";
      "-p"; prompt]%string
     ++ match sc_tools c with
        | [] => []
        | tools => ["--tools"%string; join "," ((λ t, default t (strip_prefix t "mcp__")) <$> tools)]
        end
     ++ (sc_allowed_tools c ≫= λ rule, ["--allow"%string; rule])
     ++ match sc_disallowed_tools c with [] => [] | tools => ["--disallowed-tools"%string; join "," tools] end
     ++ option_flag "--rules" (sc_append_system_prompt c) ++ option_flag "--agent" (sc_agent_name c)
     ++ option_flag "--agents" (sc_agents_json c))
    None (max_cpu_seconds (sc_resource_limits c)) dir (with_api_key env "XAI_API_KEY" (sc_env_vars c)).

Definition parse_json_events `{ValueParse} (output : string) : list JsonValue :=
  if output ==? "" then []
  else
    match value_of_text output with
    | Some (JObject fields) => [JObject fields]
    | Some (JArray values) => filterb is_object values
    | Some _ => []
    | None => filterb is_object (omap value_of_text (lines output))
    end.

Definition text_keys : list string :=
  ["result"; "output_text"; "text"; "summary"; "response"; "message"; "content"; "output"]%string.

(** Whether a message may be the assistant's. *)
Definition may_be_assistant (m : JsonValue) : bool :=
  match json_str "role" m with Some role => role ==? "assistant" | None => true end.

(** The first text that is not empty, under one of the keys, and else of the last message. *)
Definition pick_text (texts : list (string * string)) (messages : option (list (bool * string))) : string :=
  match find (λ t, t !=? "") (omap (λ key, snd <$> find (λ f, f.1 ==? key) texts) text_keys) with
  | Some t => t
  | None => default ""%string (snd <$> find (λ m, m.1 && (m.2 !=? "")) (rev (default [] messages)))
  end.

Fixpoint extract_text (v : JsonValue) : string :=
  match v with
  | JString t => t
  | JArray values => join " " (filterb (λ t, t !=? "") (List.map extract_text values))
  | JObject fields =>
      pick_text (List.map (λ f, (f.1, extract_text f.2)) fields)
        ((fix messages (fs : list (string * JsonValue)) : option (list (bool * string)) :=
            match fs with
            | [] => None
            | (key, v) :: fs =>
                if key ==? "messages" then
                  match v with
                  | JArray l => Some (List.map (λ m, (may_be_assistant m, extract_text m)) l)
                  | _ => None
                  end
                else messages fs
            end) fields)
  | _ => ""
  end.

Definition first_u64 (usage : JsonValue) (keys : list string) : Z :=
  default 0 (head (omap (λ key, json_get key usage ≫= as_u64) keys)).
Definition grok_extract_token_usage (v : JsonValue) : option TokenUsage :=
  usage ← or_else (json_get "usage" v) (json_get "token_usage" v);
  if is_object usage then
    Some (mkTokenUsage (first_u64 usage ["input_tokens"; "prompt_tokens"]%string)
            (first_u64 usage ["output_tokens"; "completion_tokens"]%string)
            (or_else (json_get "total_cost_usd" usage) (json_get "cost_usd" usage) ≫= json_f64))
  else None.

Definition line_change (line : string) : option FileChange :=
  let trimmed := trim line in
  '(rest, kind) ← or_else ((λ r, (r, FileCreated)) <$> strip_prefix trimmed "Created:")
                   (or_else ((λ r, (r, FileModified)) <$> strip_prefix trimmed "Modified:")
                      ((λ r, (r, FileDeleted)) <$> strip_prefix trimmed "Deleted:"));
  if trim rest ==? "" then None else Some (mkFileChange (trim rest) kind "").
Definition parse_file_changes (output : string) : list FileChange := omap line_change (lines output).

Record Texts : Type := mkTexts {
  final_summary : string;
  last_summary : string;
  message_chunks : list string;
  seen_usage : option TokenUsage
}.

Definition event_type (event : JsonValue) : string :=
  to_ascii_lowercase (default ""%string
    (or_else (json_get "type" event) (or_else (json_get "event" event) (json_get "kind" event)) ≫= as_str)).

Definition read_event (s : Texts) (event : JsonValue) : Texts :=
  let kind := event_type event in
  let usage := or_else (grok_extract_token_usage event) (seen_usage s) in
  let text := extract_text event in
  if (text ==? "") || contains_str kind "thought" || contains_str kind "tool" then
    mkTexts (final_summary s) (last_summary s) (message_chunks s) usage
  else if contains_str kind "chunk" && contains_str kind "message" then
    mkTexts (final_summary s) (last_summary s) (message_chunks s ++ [text]) usage
  else if bool_decide (kind ∈ ["result"; "final"; "completion"; "done"]%string)
          || bool_decide (is_Some (json_get "result" event)) then
    mkTexts text (last_summary s) (message_chunks s) usage
  else mkTexts (final_summary s) text (message_chunks s) usage.

Definition grok_parse_output `{ValueParse} (r : ExecResult) : AgentOutput :=
  parse_run "Grok Build" r (λ output,
    match parse_json_events output with
    | [] => mkAgentOutput (if output ==? "" then "Grok Build completed"%string else cut output 1000)
              (parse_file_changes output) None true
    | events =>
        let s := foldl read_event (mkTexts "" "" [] None) events in
        let summary := if final_summary s !=? "" then final_summary s
                       else match message_chunks s with [] => last_summary s | chunks => join "" chunks end in
        mkAgentOutput (if summary ==? "" then "Grok Build completed"%string else cut summary 1000)
          (parse_file_changes output) (seen_usage s) true
    end).
End Grok.

(** ** Codex *)

Module Codex.
Definition codex_build_request (env : string → option string) (prompt working_dir : string) (config : SandboxConfig)
    (subtask : option JsonValue) : ExecRequest :=
  mkExec "codex" [prompt; "--sandbox"; "workspace-write"]%string None (max_cpu_seconds (sc_resource_limits config))
    (chosen_dir working_dir config) (with_api_key env "OPENAI_API_KEY" (sc_env_vars config)).

(** A path in quotes, longer than one quote. *)
Definition quoted (path : string) : option string :=
  match chars path with
  | c :: l =>
      match last l with
      | Some d => if (c ==? "034"%char) && (d ==? "034"%char) then Some (of_chars (take (length l - 1) l)) else None
      | None => None
      end
  | [] => None
  end.

Definition extract_file_path_from_line (line keyword : string) : option string :=
  or_else
    (rest ← strip_prefix line (keyword +:+ ":");
     let path := trim rest in
     if (path !=? "") && negb (contains_char path " ") then Some path else quoted path)
    (rest ← strip_prefix line (keyword +:+ " file:");
     if trim rest ==? "" then None else Some (trim rest)).

(** What a trimmed line is: a file that changed, or a line of the summary. *)
Definition read_line (line : string) : option FileChange :=
  or_else ((λ p, mkFileChange p FileCreated "") <$> extract_file_path_from_line line "Created")
    (or_else ((λ p, mkFileChange p FileModified "") <$> extract_file_path_from_line line "Modified")
       ((λ p, mkFileChange p FileDeleted "") <$> extract_file_path_from_line line "Deleted")).

Definition parse_codex_output (output : string) : string * list FileChange :=
  let trimmed := trim <$> lines output in
  let summary_lines := filterb (λ l, bool_decide (read_line l = None) && (l !=? "")) trimmed in
  (match summary_lines with
   | [] => "Codex completed execution"%string
   | l => join_lines (take 5 l)
   end, omap read_line trimmed).

Definition codex_parse_output (r : ExecResult) : AgentOutput :=
  parse_run "Codex" r (λ output,
    let '(summary, changes) := parse_codex_output output in mkAgentOutput summary changes None true).
End Codex.

(** ** The adapters by name *)

Inductive AgentAdapter : Type := AdapterGrok | AdapterClaude | AdapterCodex.
Definition create_adapter (name : string) : option AgentAdapter :=
  if (name ==? "grok-build") || (name ==? "grok") then Some AdapterGrok
  else if name ==? "claude-code" then Some AdapterClaude
  else if name ==? "codex" then Some AdapterCodex
  else None.
Definition available_agents : list string := ["grok-build"; "grok"; "claude-code"; "codex"]%string.

Definition adapter_output `{ValueParse} (a : AgentAdapter) (r : ExecResult) : AgentOutput :=
  match a with
  | AdapterGrok => Grok.grok_parse_output r
  | AdapterClaude => Claude.claude_parse_output r
  | AdapterCodex => Codex.codex_parse_output r
  end.
Definition adapter_request `{AgentConfigJson} (env : string → option string) (a : AgentAdapter) (prompt dir : string)
    (config : SandboxConfig) (subtask : option JsonValue) : ExecRequest :=
  match a with
  | AdapterGrok => Grok.grok_build_request env prompt dir config subtask
  | AdapterClaude => Claude.claude_build_request env Claude.DEFAULT_MAX_TURNS prompt dir config subtask
  | AdapterCodex => Codex.codex_build_request env prompt dir config subtask
  end.

(** ** What holds of every adapter *)

Lemma parse_run_success name r parse :
  (∀ output, ao_success (parse output) = true) →
  ao_success (parse_run name r parse) = ExecResult_is_success r ∧
  (ExecResult_is_success r = false →
     ao_file_changes (parse_run name r parse) = [] ∧ ao_token_usage (parse_run name r parse) = None).
Proof.
  intros Hp. unfold parse_run, ExecResult_is_success. destruct (timed_out r), (exit_code r =? 0); by cbn.
Qed.

(** Whichever agent ran and whatever it printed, its output counts as a success exactly when
    the command exited with 0 in time, and a failed run reports no changes and no usage. *)
Theorem adapter_success_exact `{ValueParse} a r :
  ao_success (adapter_output a r) = ExecResult_is_success r ∧
  (ExecResult_is_success r = false →
     ao_file_changes (adapter_output a r) = [] ∧ ao_token_usage (adapter_output a r) = None).
Proof.
  destruct a; apply parse_run_success; intros output.
  - by destruct (Grok.parse_json_events output).
  - by destruct (value_of_text output).
  - by destruct (Codex.parse_codex_output output).
Qed.

(** The prompt is one argument of the command, whatever is in it, and the key of the
    configuration is taken before the one of the process. *)
Theorem adapter_request_carries `{AgentConfigJson} env a prompt dir config subtask :
  prompt ∈ ex_args (adapter_request env a prompt dir config subtask) ∧
  ex_stdin (adapter_request env a prompt dir config subtask) = None ∧
  ex_timeout_secs (adapter_request env a prompt dir config subtask) = max_cpu_seconds (sc_resource_limits config) ∧
  ∃ key, ∀ k, ex_env_vars (adapter_request env a prompt dir config subtask) !! k =
    if k ==? key then or_else (sc_env_vars config !! key) (env key) else sc_env_vars config !! k.
Proof.
  assert (∀ key vars k, with_api_key env key vars !! k = if k ==? key then or_else (vars !! key) (env key) else vars !! k) as Hkey.
  { intros key vars k. unfold with_api_key. case_bool_decide as Hk; [subst k|].
    - destruct (vars !! key) eqn:Hv; cbn; [done|]. destruct (env key); cbn; [by rewrite lookup_insert_eq|done].
    - destruct (vars !! key); [done|]. destruct (env key); [by rewrite lookup_insert_ne by congruence|done]. }
  assert (∀ c s, sc_env_vars (effective_config c s) = sc_env_vars c ∧ sc_resource_limits (effective_config c s) = sc_resource_limits c) as Heff.
  { intros c s. unfold effective_config. by destruct (s ≫= agent_config_of). }
  destruct a; cbn [adapter_request Grok.grok_build_request Claude.claude_build_request Codex.codex_build_request ex_args ex_stdin ex_timeout_secs ex_env_vars];
    rewrite ?(proj1 (Heff _ _)), ?(proj2 (Heff _ _)); (split_and!; [|done|done|eexists; apply Hkey]); set_solver.
Qed.

(** The overrides of a subtask are taken once: later ones replace earlier ones. *)
Theorem overrides_win config s s' :
  merge_agent_config (merge_agent_config config s) s' =
  merge_agent_config config
    (mkAgentConfig (or_else (ac_tools s') (ac_tools s)) (or_else (ac_allowed_tools s') (ac_allowed_tools s))
       (or_else (ac_disallowed_tools s') (ac_disallowed_tools s)) (or_else (ac_mcp_configs s') (ac_mcp_configs s))
       (or_else (ac_append_system_prompt s') (ac_append_system_prompt s)) (or_else (ac_agent_name s') (ac_agent_name s))
       (or_else (ac_agents_json s') (ac_agents_json s))).
Proof. destruct s as [[] [] [] [] [] [] []], s' as [[] [] [] [] [] [] []]; done. Qed.

(** The interface says that a subtask's configuration overrides the sandbox's: Codex does not
    look at it. *)
Theorem codex_ignores_overrides env prompt dir config subtask :
  Codex.codex_build_request env prompt dir config subtask = Codex.codex_build_request env prompt dir config None.
Proof. done. Qed.

Lemma available_agents_exist : Forall (λ n, is_Some (create_adapter n)) available_agents.
Proof. repeat constructor; by eexists. Qed.
