(* ===== verification/WindowWatcher.v ===== *)
(** * Declared jobs and the watcher of the night window

    [uc-engine/src/scheduler/config.rs]: the jobs and the night window an operator declares,
    resolved into what the scheduler takes.  [uc-grpc-server/src/window_watcher.rs]: the loop
    that publishes the opening and the closing of the window.

    - Reading YAML, [HH:MM] and RFC 3339 texts is a parameter; so is writing a time of day.
    - Every gateway runs a watcher.  A fleet keeps one flag per gateway beside the shared
      lock bucket and the shared NATS server; a run is any sequence of polls, each with the
      three clock readings of one turn of the loop. *)

From Stdlib Require Import String Ascii.
From stdpp Require Import gmap strings pretty.
From S2P Require Import Prelude RustStr Task NightWindow ScheduleStore Scheduler Executor Dispatchers.

(** ** The declared jobs *)

Record NightWindowFile : Type := mkWindowFile { nf_start : string; nf_end : string; nf_timezone : string }.

Record JobFile : Type := mkJobFile {
  jf_description : string;
  jf_project_id : string;
  jf_cron : option string;
  jf_execute_after : option string;
  jf_night_window : option NightWindowFile;
  jf_enabled : bool;
  jf_verify_command : option string
}.

Record SchedulerFileConfig : Type := mkFileConfig { fc_night_window : option NightWindowFile; fc_jobs : list JobFile }.

Record ParsedJob : Type := mkParsedJob {
  pj_description : string;
  pj_project_id : string;
  pj_cron_expression : option string;
  pj_execute_after : option Instant;
  pj_night_window : option NightWindowConfig;
  pj_enabled : bool;
  pj_verify_command : option string
}.

Record ParsedSchedulerConfig : Type := mkParsedConfig {
  pc_default_night_window : option NightWindowConfig;
  pc_jobs : list ParsedJob
}.

Inductive SchedulerConfigError : Type :=
| ConfigIo (e : string)
| ConfigParse (e : string)
| JobMissingSchedule (description : string)
| JobBothSchedules (description : string)
| BadTimestamp (description e : string)
| BadTime (text : string).

Section JobConfig.
Context (parse_hhmm : string → option NaiveTime) (parse_rfc3339 : string → result Instant string).

Definition parse_night_window (n : NightWindowFile) : result NightWindowConfig SchedulerConfigError :=
  match parse_hhmm (nf_start n) with
  | None => Err (BadTime (nf_start n))
  | Some start =>
      match parse_hhmm (nf_end n) with
      | None => Err (BadTime (nf_end n))
      | Some end_ => Ok (mkWindowConfig start end_ (nf_timezone n))
      end
  end.

(** [as_ref().map(parse_night_window).transpose()]. *)
Definition parse_optional_window (n : option NightWindowFile)
    : result (option NightWindowConfig) SchedulerConfigError :=
  match n with
  | None => Ok None
  | Some n => match parse_night_window n with Ok w => Ok (Some w) | Err e => Err e end
  end.

Definition parse_execute_after (description : string) (text : option string)
    : result (option Instant) SchedulerConfigError :=
  match text with
  | None => Ok None
  | Some s => match parse_rfc3339 s with Ok t => Ok (Some t) | Err e => Err (BadTimestamp description e) end
  end.

(** The body of the loop over the jobs. *)
Definition resolve_job (default_nw : option NightWindowConfig) (j : JobFile)
    : result ParsedJob SchedulerConfigError :=
  match jf_cron j, jf_execute_after j with
  | None, None => Err (JobMissingSchedule (jf_description j))
  | Some _, Some _ => Err (JobBothSchedules (jf_description j))
  | _, _ =>
      match parse_execute_after (jf_description j) (jf_execute_after j) with
      | Err e => Err e
      | Ok execute_after =>
          match (match jf_night_window j with None => Ok default_nw | Some n => parse_optional_window (Some n) end) with
          | Err e => Err e
          | Ok nw =>
              Ok (mkParsedJob (jf_description j) (jf_project_id j) (jf_cron j) execute_after nw (jf_enabled j)
                    (jf_verify_command j))
          end
      end
  end.

Fixpoint resolve_jobs (default_nw : option NightWindowConfig) (js : list JobFile)
    : result (list ParsedJob) SchedulerConfigError :=
  match js with
  | [] => Ok []
  | j :: js =>
      match resolve_job default_nw j with
      | Err e => Err e
      | Ok p => match resolve_jobs default_nw js with Ok ps => Ok (p :: ps) | Err e => Err e end
      end
  end.

Definition resolve (c : SchedulerFileConfig) : result ParsedSchedulerConfig SchedulerConfigError :=
  match parse_optional_window (fc_night_window c) with
  | Err e => Err e
  | Ok default_nw =>
      match resolve_jobs default_nw (fc_jobs c) with
      | Err e => Err e
      | Ok jobs => Ok (mkParsedConfig default_nw jobs)
      end
  end.
End JobConfig.

(** ** The watcher *)

(** [chrono::Utc::now()] of one turn: for the check, for the key of the lock, and in
    [publish_window_event]. *)
Record Readings : Type := mkReadings { checked_at : Instant; keyed_at : Instant; stamped_at : Instant }.

Definition event_name (e : WindowEventType) : string := match e with Opened => "opened" | Closed => "closed" end.

Definition window_lock_key (e : WindowEventType) (tick : Instant) : string :=
  "window:" +:+ event_name e +:+ ":" +:+ pretty (tick `div` 1000000000).

(** [format_window_info]. *)
Definition format_window_info (hhmm : NaiveTime → string) (config : NightWindowConfig) : string :=
  hhmm (config_start config) +:+ "-" +:+ hhmm (config_end config) +:+ " " +:+ config_timezone config.

Definition now_inside {Tz} `{TimeZones Tz} (w : NightWindow Tz) (now : Instant) : bool :=
  is_within_window w (mkDateTime now (window_tz w)).

(** What a turn of the loop tried to publish. *)
Record Attempt : Type := mkAttempt {
  at_gateway : nat;
  at_event : WindowEventType;
  at_stamp : Instant;
  at_outcome : result unit EngineError
}.

Section Watcher.
Context {Tz : Type} `{TimeZones Tz} {K : Type} `{KeyValue K} {C : Type} `{NatsClient C, PayloadJson WindowEvent}.
Context (rfc3339 : Instant → string) (w : NightWindow Tz) (window_info : string).
(** Every gateway has an instance id of its own. *)
Context (instance_id : nat → string).

Record Fleet : Type := mkFleet {
  last_inside : list bool;
  fl_locks : K;
  fl_client : C;
  fl_log : list Attempt
}.

(** One turn of the loop of gateway [i], after its sleep. *)
Definition watcher_tick (i : nat) (r : Readings) (f : Fleet) : Fleet :=
  match last_inside f !! i with
  | None => f
  | Some last =>
      let inside := now_inside w (checked_at r) in
      if eqb inside last then f
      else
        let event := if inside then Opened else Closed in
        let flags := <[i := inside]> (last_inside f) in
        let '(acquired, kv) := kv_try_acquire (instance_id i) (window_lock_key event (keyed_at r)) (fl_locks f) in
        if acquired then
          let '(published, c) := publish_window_event rfc3339 (stamped_at r) event window_info (fl_client f) in
          mkFleet flags kv c (fl_log f ++ [mkAttempt i event (stamped_at r) published])
        else mkFleet flags kv (fl_client f) (fl_log f)
  end.

(** [start_window_watcher] of [n] gateways, the first readings at [starts]. *)
Definition start_fleet (starts : list Instant) (kv : K) (c : C) : Fleet := mkFleet (now_inside w <$> starts) kv c [].

Definition run_fleet (polls : list (nat * Readings)) (f : Fleet) : Fleet :=
  foldl (λ f p, watcher_tick p.1 p.2 f) f polls.
End Watcher.
Arguments Fleet : clear implicits.
Arguments mkFleet {K C}.

(** [start_window_watcher]: nothing runs without a window or with an unknown zone. *)
Definition watched_window {Tz} `{TimeZones Tz} (config : option NightWindowConfig) : option (NightWindow Tz) :=
  config ≫= λ c, match from_config c with Ok w => Some w | Err _ => None end.

(** ** What the declared jobs become *)

Section JobConfigProps.
Context (parse_hhmm : string → option NaiveTime) (parse_rfc3339 : string → result Instant string).

Definition declares (n : NightWindowFile) (w : NightWindowConfig) : Prop :=
  parse_hhmm (nf_start n) = Some (config_start w) ∧ parse_hhmm (nf_end n) = Some (config_end w) ∧
  config_timezone w = nf_timezone n.

(** A job means what its entry says: a cron job keeps its expression and has no instant, a
    delayed job the reverse; its own window wins over the file's. *)
Definition job_means (default_nw : option NightWindowConfig) (j : JobFile) (p : ParsedJob) : Prop :=
  (pj_description p, pj_project_id p, pj_enabled p, pj_verify_command p) =
    (jf_description j, jf_project_id j, jf_enabled j, jf_verify_command j) ∧
  ((∃ e, jf_cron j = Some e ∧ jf_execute_after j = None ∧ pj_cron_expression p = Some e ∧ pj_execute_after p = None) ∨
   (∃ s t, jf_cron j = None ∧ jf_execute_after j = Some s ∧ parse_rfc3339 s = Ok t ∧
      pj_cron_expression p = None ∧ pj_execute_after p = Some t)) ∧
  match jf_night_window j with
  | None => pj_night_window p = default_nw
  | Some n => ∃ w, pj_night_window p = Some w ∧ declares n w
  end.

Lemma parse_night_window_Ok n w : parse_night_window parse_hhmm n = Ok w ↔ declares n w.
Proof.
  unfold parse_night_window, declares. destruct w as [s e tz]. simpl.
  destruct (parse_hhmm (nf_start n)); [|naive_solver]. destruct (parse_hhmm (nf_end n)); naive_solver.
Qed.

Lemma resolve_job_Ok default_nw j p :
  resolve_job parse_hhmm parse_rfc3339 default_nw j = Ok p ↔ job_means default_nw j p.
Proof.
  unfold resolve_job, job_means, parse_execute_after, parse_optional_window. destruct j as [d pid cron after nw en vc].
  simpl. split.
  - intros Hp. destruct cron as [e|], after as [s|]; try done.
    2: destruct (parse_rfc3339 s) as [t|] eqn:Ht; [|done].
    all: destruct nw as [n|]; [destruct (parse_night_window parse_hhmm n) as [w|] eqn:Hn; [|done]|].
    all: simplify_eq; simpl; split_and!; try done; try (left; by eauto 8); try (right; by eauto 12).
    all: exists w; by rewrite <-parse_night_window_Ok.
  - intros (Hd & Hs & Hw). destruct p as [d' pid' cron' after' nw' en' vc']. simpl in *. simplify_eq.
    destruct Hs as [(e & -> & -> & -> & ->)|(s & t & -> & -> & Ht & -> & ->)]; [|rewrite Ht].
    all: destruct nw as [n|]; [|by subst].
    all: destruct Hw as (w & -> & Hn%parse_night_window_Ok); by rewrite Hn.
Qed.

Lemma resolve_jobs_Ok default_nw js ps :
  resolve_jobs parse_hhmm parse_rfc3339 default_nw js = Ok ps ↔ Forall2 (job_means default_nw) js ps.
Proof.
  split.
  - revert ps. induction js as [|j js IH]; intros ps; simpl; [by intros [= <-]|].
    destruct (resolve_job _ _ _ j) as [p|] eqn:Hj; [|done].
    destruct (resolve_jobs _ _ _ js) as [ps'|]; [|done]. intros [= <-].
    constructor; [by apply resolve_job_Ok|by apply IH].
  - induction 1 as [|j p js ps Hm _ IH]; simpl; [done|].
    by rewrite (proj2 (resolve_job_Ok _ _ _) Hm), IH.
Qed.

Lemma resolve_jobs_Err default_nw js e :
  resolve_jobs parse_hhmm parse_rfc3339 default_nw js = Err e ↔
  ∃ before j after ps, js = before ++ j :: after ∧ Forall2 (job_means default_nw) before ps ∧
    resolve_job parse_hhmm parse_rfc3339 default_nw j = Err e.
Proof.
  split.
  - induction js as [|j js IH]; [done|]. simpl.
    destruct (resolve_job _ _ _ j) as [p|] eqn:Hj.
    + destruct (resolve_jobs _ _ _ js); [done|]. intros [= ->].
      destruct IH as (before & j' & after & ps & -> & Hps & He); [done|].
      exists (j :: before), j', after, (p :: ps). split_and!; [done| |done].
      constructor; [by apply resolve_job_Ok|done].
    + intros [= ->]. exists [], j, js, []. by split_and!.
  - intros (before & j & after & ps & -> & Hps & He). induction Hps as [|j' p' b ps' Hm Hps IH]; simpl.
    + by rewrite He.
    + rewrite (proj2 (resolve_job_Ok _ _ _) Hm). by rewrite IH.
Qed.

(** The same under the reading of the file's window. *)
Lemma resolve_jobs_Err_of (P : option NightWindowConfig → Prop) js e :
  (∃ nw, P nw ∧ resolve_jobs parse_hhmm parse_rfc3339 nw js = Err e) ↔
  ∃ nw before j after ps, P nw ∧ js = before ++ j :: after ∧ Forall2 (job_means nw) before ps ∧
    resolve_job parse_hhmm parse_rfc3339 nw j = Err e.
Proof. setoid_rewrite resolve_jobs_Err. naive_solver. Qed.

(** A declaration is resolved entry by entry.  It resolves to a configuration exactly
    when its window, if it has one, reads as two times of day, and every entry has exactly
    one schedule that can be read and a readable window of its own or none; the jobs are
    then those entries in order, each under its own window or the file's.  A refused
    declaration names the window of the file, or the first entry that is wrong. *)
Theorem resolve_exact c :
  (∀ p, resolve parse_hhmm parse_rfc3339 c = Ok p ↔
     match fc_night_window c with
     | None => pc_default_night_window p = None
     | Some n => ∃ w, pc_default_night_window p = Some w ∧ declares n w
     end ∧ Forall2 (job_means (pc_default_night_window p)) (fc_jobs c) (pc_jobs p)) ∧
  (∀ e, resolve parse_hhmm parse_rfc3339 c = Err e ↔
     (∃ n, fc_night_window c = Some n ∧ parse_night_window parse_hhmm n = Err e) ∨
     ∃ nw before j after ps, parse_optional_window parse_hhmm (fc_night_window c) = Ok nw ∧
       fc_jobs c = before ++ j :: after ∧ Forall2 (job_means nw) before ps ∧
       resolve_job parse_hhmm parse_rfc3339 nw j = Err e).
Proof.
  unfold resolve. destruct c as [nw js]; simpl. split.
  - intros [d ps]. simpl. rewrite <-resolve_jobs_Ok. split.
    + intros Hr. destruct nw as [n|]; simpl in Hr.
      * destruct (parse_night_window parse_hhmm n) as [w|] eqn:Hn; [|done].
        destruct (resolve_jobs _ _ _ js) eqn:Hj; [|done]. simplify_eq.
        split; [|done]. exists w. by rewrite <-parse_night_window_Ok.
      * destruct (resolve_jobs _ _ _ js) eqn:Hj; by simplify_eq.
    + intros [Hd Hj]. destruct nw as [n|]; simpl.
      * destruct Hd as (w & -> & Hn%parse_night_window_Ok). by rewrite Hn, Hj.
      * subst. by rewrite Hj.
  - intros e. rewrite <-(resolve_jobs_Err_of (λ d, parse_optional_window parse_hhmm nw = Ok d)).
    destruct (parse_optional_window parse_hhmm nw) as [d|e'] eqn:Hw.
    + destruct (resolve_jobs _ _ d js) as [ps|e'] eqn:Hj.
      * split; [done|]. intros [(n & -> & He)|(d' & [= <-] & He)]; [|congruence].
        simpl in Hw. by rewrite He in Hw.
      * split; [intros [= ->]; right; by exists d|]. intros [(n & -> & He)|(d' & [= <-] & He)]; [|congruence].
        simpl in Hw. by rewrite He in Hw.
    + destruct nw as [n|]; simpl in Hw; [|done]. destruct (parse_night_window parse_hhmm n) eqn:Hn; [done|].
      simplify_eq. split; [intros [= ->]; left; by exists n|].
      intros [(n' & [= <-] & He)|(d' & ? & _)]; [congruence|done].
Qed.
End JobConfigProps.

(** ** What the watchers publish *)

(** The changes of a flag along a sequence of observations. *)
Fixpoint changes (last : bool) (seen : list bool) : list WindowEventType :=
  match seen with
  | [] => []
  | b :: seen => if eqb b last then changes last seen else (if b then Opened else Closed) :: changes b seen
  end.

(** Openings and closings take turns, and the first is the one the flag allows. *)
Lemma changes_alternate last seen :
  (∀ e, changes last seen !! 0%nat = Some e → e = if last then Closed else Opened) ∧
  ∀ k e e', changes last seen !! k = Some e → changes last seen !! S k = Some e' → e ≠ e'.
Proof.
  revert last. induction seen as [|b seen IH]; intros last; simpl; [done|].
  destruct (eqb_spec b last) as [|Hb]; [by apply IH|]. destruct (IH b) as [IH0 IHS]. split.
  - intros e [= <-]. by destruct b, last.
  - intros [|k] e e'; simpl; [|by apply IHS]. intros [= <-] He. apply IH0 in He. subst. by destruct b.
Qed.

(** The events gateway [i] tried to publish, and the clock readings of its checks. *)
Definition events_of (i : nat) (log : list Attempt) : list WindowEventType :=
  at_event <$> filter (λ a, at_gateway a = i) log.
Definition checks_of (i : nat) (polls : list (nat * Readings)) : list Instant :=
  (λ p, checked_at p.2) <$> filter (λ p, p.1 = i) polls.

Lemma window_lock_key_invalid e tick : valid_kv_key (window_lock_key e tick) = false.
Proof. by destruct e. Qed.

Section WatcherProps.
Context {Tz : Type} `{TimeZones Tz} {K : Type} `{KeyValueOk K} {C : Type} `{NatsClientOk C, PayloadJson WindowEvent}.
Context (rfc3339 : Instant → string) (w : NightWindow Tz) (window_info : string) (instance_id : nat → string).

Let tick := watcher_tick rfc3339 w window_info instance_id.
Let run := run_fleet rfc3339 w window_info instance_id.

(** The message of an attempt the server took. *)
Definition message_of (a : Attempt) : option (string * list (string * string) * string) :=
  match at_outcome a, to_vec (mkWindowEvent (event_name (at_event a)) window_info (rfc3339 (at_stamp a))) with
  | Ok _, Ok bytes => Some ("schedule.window." +:+ event_name (at_event a), [], bytes)
  | _, _ => None
  end.

Lemma publish_window_event_log t e (c : C) r c' i :
  publish_window_event rfc3339 t e window_info c = (r, c') →
  accepted c' = accepted c ++ omap message_of [mkAttempt i e t r].
Proof.
  unfold publish_window_event. intros Hp. csimpl. unfold message_of. simpl.
  fold (event_name e) in Hp. destruct (to_vec (mkWindowEvent (event_name e) window_info (rfc3339 t))) as [bytes|].
  - destruct (publish_with_headers c _ [] bytes) as [[u|er] c1] eqn:Hc; simplify_eq.
    + destruct u. apply publish_accepted in Hc. rewrite Hc. by destruct e.
    + apply publish_refused in Hc. by rewrite Hc, app_nil_r.
  - simplify_eq. by rewrite app_nil_r.
Qed.

(** A turn of one gateway: what it adds to the log, and what it leaves of the others. *)
Lemma watcher_tick_spec i r (f : Fleet K C) :
  ∃ new, fl_log (tick i r f) = fl_log f ++ new ∧
    accepted (fl_client (tick i r f)) = accepted (fl_client f) ++ omap message_of new ∧
    ∀ j last, last_inside f !! j = Some last →
      if bool_decide (j = i)
      then last_inside (tick i r f) !! j = Some (now_inside w (checked_at r)) ∧
           events_of j new = changes last [now_inside w (checked_at r)]
      else last_inside (tick i r f) !! j = Some last ∧ events_of j new = [].
Proof.
  unfold tick, watcher_tick. destruct (last_inside f !! i) as [last|] eqn:Hi.
  2: { exists []. rewrite !app_nil_r. split_and!; [done..|]. intros j last' Hj.
       rewrite bool_decide_eq_false_2 by naive_solver. done. }
  destruct (eqb_spec (now_inside w (checked_at r)) last) as [Hs|Hs].
  { exists []. rewrite !app_nil_r. split_and!; [done..|]. intros j last' Hj.
    case_bool_decide; [|done]. subst j. rewrite Hi in Hj. injection Hj as <-.
    rewrite Hi, Hs. simpl. by rewrite eqb_reflx. }
  set (inside := now_inside w (checked_at r)) in *. set (e := if inside then Opened else Closed).
  pose proof (kv_invalid_acquires (instance_id i) (window_lock_key e (keyed_at r)) (fl_locks f)
    (window_lock_key_invalid _ _)) as Ha.
  destruct (kv_try_acquire _ _ _) as [acq kv]. simpl in Ha. subst acq.
  destruct (publish_window_event _ _ _ _ _) as [published c] eqn:Hp. simpl.
  exists [mkAttempt i e (stamped_at r) published]. split_and!; [done|by eapply publish_window_event_log|].
  intros j last' Hj. unfold events_of. case_bool_decide as Hij.
  - subst j. simplify_eq. rewrite list_lookup_insert_eq by (by eapply lookup_lt_Some).
    rewrite filter_cons_True by done. simpl. split; [done|]. by rewrite (proj2 (eqb_false_iff _ _) Hs).
  - rewrite list_lookup_insert_ne by done. by rewrite filter_cons_False by (simpl; congruence).
Qed.

Lemma changes_app last seen b :
  changes last (b :: seen) = changes last [b] ++ changes b seen.
Proof. simpl. destruct (eqb_spec b last); by subst. Qed.

(** Every gateway publishes every change of the window.  For any number of gateways on
    one lock bucket and one server and any interleaving of their polls, the events a gateway
    tries to publish are exactly the changes between inside and outside along its own
    checks, from the side it started on, whatever the others do and whatever the bucket
    holds: its openings and closings take turns.  The server has received, in order,
    exactly the messages of the attempts it took. *)
Theorem gateways_publish_changes polls (f : Fleet K C) :
  ∃ new, fl_log (run polls f) = fl_log f ++ new ∧
    accepted (fl_client (run polls f)) = accepted (fl_client f) ++ omap message_of new ∧
    ∀ i last, last_inside f !! i = Some last →
      events_of i new = changes last (now_inside w <$> checks_of i polls) ∧
      (∀ e, events_of i new !! 0%nat = Some e → e = if last then Closed else Opened) ∧
      ∀ k e e', events_of i new !! k = Some e → events_of i new !! S k = Some e' → e ≠ e'.
Proof.
  cut (∃ new, fl_log (run polls f) = fl_log f ++ new ∧
    accepted (fl_client (run polls f)) = accepted (fl_client f) ++ omap message_of new ∧
    ∀ i last, last_inside f !! i = Some last → events_of i new = changes last (now_inside w <$> checks_of i polls)).
  { intros (new & Hl & Hc & Hn). exists new. split_and!; [done..|]. intros i last Hi.
    rewrite (Hn _ _ Hi). split; [done|]. apply changes_alternate. }
  revert f. induction polls as [|[i r] polls IH]; intros f; simpl.
  { exists []. by rewrite !app_nil_r. }
  destruct (watcher_tick_spec i r f) as (new & Hl & Hc & Hn).
  destruct (IH (tick i r f)) as (new' & Hl' & Hc' & Hn').
  exists (new ++ new'). unfold run, run_fleet in *. simpl. unfold tick in *.
  rewrite Hl', Hl, Hc', Hc, omap_app, <-!(assoc_L _). split_and!; [done..|].
  intros j last Hj. specialize (Hn j last Hj). unfold events_of, checks_of in *.
  rewrite filter_app, fmap_app. case_bool_decide as Hij; destruct Hn as [Hf He]; rewrite He, (Hn' _ _ Hf).
  - subst. rewrite filter_cons_True by done. rewrite !fmap_cons. symmetry. apply changes_app.
  - by rewrite filter_cons_False by (simpl; congruence).
Qed.
End WatcherProps.

(** ** Runs *)

(** The default window is not always open, and a window with equal ends never is. *)
Lemma default_window_closes :
  from_config (Tz := sample_zone) NightWindowConfig_default =
    Ok (mkWindow (config_start NightWindowConfig_default) (config_end NightWindowConfig_default) Utc) ∧
  now_inside (mkWindow (config_start NightWindowConfig_default) (config_end NightWindowConfig_default) Utc) (12 * hour) =
    false.
Proof. by vm_compute. Qed.

#[local] Instance plain_window_event : PayloadJson WindowEvent := {| to_vec e := Ok (we_event e) |}.
Definition night : NightWindow sample_zone := mkWindow (22 * hour) (6 * hour) Utc.
Definition at_hour (h : Z) : Readings := mkReadings (h * hour) (h * hour) (h * hour).

(** Two gateways that poll in the same second both publish an opening, though each asks the
    bucket for the same key. *)
Lemma opening_is_published_twice :
  let f := start_fleet night [21 * hour; 21 * hour] ∅ (mkBuffer true []) in
  let f' := run_fleet (λ _, "now") night "22:00-06:00 UTC" pretty [(0%nat, at_hour 22); (1%nat, at_hour 22)] f in
  buf_sent (fl_client f') = [("schedule.window.opened", [], "opened"); ("schedule.window.opened", [], "opened")] ∧
  fl_locks f' = (∅ : gmap string string).
Proof. by vm_compute. Qed.

(** A declaration with a window, a nightly job and a delayed job under its own window; and
    the entry that is refused. *)
Definition sample_hhmm (s : string) : option NaiveTime :=
  if s ==? "22:00" then Some (22 * hour) else if s ==? "06:00" then Some (6 * hour) else None.
Definition sample_rfc3339 (s : string) : result Instant string := if s ==? "t5" then Ok 5 else Err "bad".
Lemma declared_jobs_resolve :
  let nightly := mkJobFile "audit" "p" (Some "0 22 * * *") None None true None in
  let once := mkJobFile "bump" "p" None (Some "t5") (Some (mkWindowFile "06:00" "22:00" "UTC")) true (Some "cargo check") in
  let f jobs := mkFileConfig (Some (mkWindowFile "22:00" "06:00" "UTC")) jobs in
  pj_night_window <$> (match resolve sample_hhmm sample_rfc3339 (f [nightly; once]) with Ok p => pc_jobs p | Err _ => [] end) =
    [Some (mkWindowConfig (22 * hour) (6 * hour) "UTC"); Some (mkWindowConfig (6 * hour) (22 * hour) "UTC")] ∧
  resolve sample_hhmm sample_rfc3339 (f [nightly; mkJobFile "idle" "p" None None None true None; once]) =
    Err (JobMissingSchedule "idle").
Proof. by vm_compute. Qed.

Lemma gateways_publish_changes_witness :
  let polls := [(0%nat, at_hour 22); (1%nat, at_hour 22); (0%nat, at_hour 23); (0%nat, at_hour 30)] in
  let f := start_fleet night [21 * hour; 21 * hour] (∅ : gmap string string) (mkBuffer true []) in
  ∃ new, events_of 0 new = [Opened; Closed] ∧ events_of 1 new = [Opened] ∧
    buf_sent (fl_client (run_fleet (λ _, "now") night "22:00-06:00 UTC" pretty polls f)) =
      omap (message_of (λ _, "now") "22:00-06:00 UTC") new.
Proof.
  intros polls f.
  destruct (gateways_publish_changes (λ _, "now"%string) night "22:00-06:00 UTC" pretty polls f) as (new & _ & Hc & Hn).
  exists new. split_and!.
  - by rewrite (proj1 (Hn 0%nat false eq_refl)).
  - by rewrite (proj1 (Hn 1%nat false eq_refl)).
  - exact Hc.
Defined.
