(* ===== verification/Tokenizer.v ===== *)
(** * Tokens and path patterns of the text index

    [uc-engine/src/indexer/text.rs]: how a line of code and a query are cut into tokens, and
    how a path pattern is matched.

    - [current] only ever holds ASCII letters and digits, one byte each, so the byte slice
      [current[..current.len() - 1]] is all but its last character.
    - A position in a text is the rest of the text from there. *)

From Stdlib Require Import String Ascii.
From stdpp Require Import strings.
From S2P Require Import Prelude RustStr Merge.

(** ** Tokens of a line *)

Inductive CharType : Type := TLower | TUpper | TDigit | TSeparator | TOther.
#[export] Instance CharType_eq_dec : EqDecision CharType.
Proof. solve_decision. Defined.

Definition is_ascii_lowercase (c : ascii) : bool :=
  let n := N_of_ascii c in ((97 <=? n) && (n <=? 122))%N.

Definition classify_char (c : ascii) : CharType :=
  if is_ascii_lowercase c then TLower
  else if is_ascii_uppercase c then TUpper
  else if is_digit_char c then TDigit
  else if Ascii.eqb c "_" || Ascii.eqb c "-" then TSeparator
  else TOther.

Record Scan : Type := mkScan { scanned : list (list ascii); current : list ascii; prev_char_type : CharType }.

Definition lower (l : list ascii) : list ascii := char_to_ascii_lowercase <$> l.

(** [tokens.push(current.to_lowercase())] unless there is nothing to push. *)
Definition push_current (s : Scan) : list (list ascii) :=
  match current s with [] => scanned s | _ => scanned s ++ [lower (current s)] end.

(** The body of the loop over the characters. *)
Definition scan_char (s : Scan) (ch : ascii) : Scan :=
  let ty := classify_char ch in
  match prev_char_type s, ty with
  | TLower, TLower | TUpper, TUpper | TDigit, TDigit => mkScan (scanned s) (current s ++ [ch]) ty
  | TLower, TUpper => mkScan (push_current s) [ch] ty
  | TUpper, TLower =>
      if (1 <? length (current s))%nat then
        let boundary := (length (current s) - 1)%nat in
        mkScan (scanned s ++ [lower (take boundary (current s))]) (drop boundary (current s) ++ [ch]) ty
      else mkScan (scanned s) (current s ++ [ch]) ty
  | (TLower | TUpper), TDigit => mkScan (push_current s) [ch] ty
  | TDigit, (TLower | TUpper) => mkScan (push_current s) [ch] ty
  | (TLower | TUpper | TDigit), TSeparator => mkScan (push_current s) [] ty
  | _, TOther => mkScan (push_current s) [] ty
  | (TSeparator | TOther), (TLower | TUpper | TDigit) => mkScan (scanned s) [ch] ty
  | TSeparator, TSeparator => mkScan (scanned s) (current s) ty
  | TOther, TSeparator => mkScan (scanned s) (current s) ty
  end.

Definition raw_tokens (l : list ascii) : list (list ascii) := push_current (foldl scan_char (mkScan [] [] TOther) l).

Definition stop_words : list string :=
  ["if"; "in"; "of"; "on"; "to"; "or"; "as"; "at"; "by"; "do"; "go"; "no"; "so"; "up"; "an"; "be"; "is"; "it"; "we";
   "he"; "me"; "fn"; "let"; "var"; "for"; "and"; "not"; "but"; "the"; "was"; "are"; "has"; "had"; "use"; "pub"; "mod";
   "ref"; "mut"; "out"; "nil"].
Definition is_stop_word (token : string) : bool := existsb (String.eqb token) stop_words.

Definition kept_token (t : list ascii) : bool := (2 <=? length t)%nat && negb (is_stop_word (of_chars t)).

Definition tokenize_line (line : string) : list string := of_chars <$> filterb kept_token (raw_tokens (chars line)).

(** [(line_idx + 1) as u32]. *)
Fixpoint number_lines (line_idx : Z) (ls : list string) : list (Z * string) :=
  match ls with
  | [] => []
  | l :: ls => ((λ t, ((line_idx + 1) `mod` 2 ^ 32, t)) <$> tokenize_line l) ++ number_lines (line_idx + 1) ls
  end.
Definition tokenize_content (content : string) : list (Z * string) := number_lines 0 (lines content).

(** [str::split] with a predicate. *)
Fixpoint split_on (p : ascii → bool) (l : list ascii) : list (list ascii) :=
  match l with
  | [] => [[]]
  | c :: l' =>
      if p c then [] :: split_on p l'
      else match split_on p l' with [] => [[c]] | w :: ws => (c :: w) :: ws end
  end.

Definition query_break (c : ascii) : bool :=
  is_whitespace c || Ascii.eqb c ":" || Ascii.eqb c "034" || Ascii.eqb c "'".

Definition tokenize_query (query : string) : list string :=
  concat ((λ w, match w with [] => [] | _ => tokenize_line (of_chars w) end) <$> split_on query_break (chars query)).

(** ** Path patterns *)

(** [char::to_lowercase] below U+0100. *)
Definition char_to_lowercase (c : ascii) : ascii :=
  let n := N_of_ascii c in
  if (((65 <=? n) && (n <=? 90)) || ((192 <=? n) && (n <=? 222) && negb (n =? 215)))%N then ascii_of_N (n + 32) else c.
Definition to_lowercase (s : string) : list ascii := char_to_lowercase <$> chars s.

(** [str::find] of a text: what is before its first occurrence, and what is after it. *)
Fixpoint find_sub (p l : list ascii) : option (list ascii * list ascii) :=
  match strip_prefix_chars p l with
  | Some after => Some ([], after)
  | None =>
      match l with
      | [] => None
      | c :: l' => match find_sub p l' with Some (before, after) => Some (c :: before, after) | None => None end
      end
  end.

(** The loop over the parts; [first] holds for the part of index 0 of a pattern that does
    not begin with a star. *)
Fixpoint find_parts (first : bool) (parts : list (list ascii)) (rest : list ascii) : option (list ascii) :=
  match parts with
  | [] => Some rest
  | [] :: parts => find_parts false parts rest
  | part :: parts =>
      match find_sub part rest with
      | None => None
      | Some (before, after) =>
          if first && negb (bool_decide (before = [])) then None else find_parts false parts after
      end
  end.

Definition has_prefix (p l : list ascii) : bool := match strip_prefix_chars p l with Some _ => true | None => false end.
Definition has_suffix (x l : list ascii) : bool := has_prefix (rev x) (rev l).

Definition glob_match (pattern text : string) : bool :=
  let pattern_lower := to_lowercase pattern in
  let text_lower := to_lowercase text in
  if negb (existsb (Ascii.eqb "*") pattern_lower) && negb (existsb (Ascii.eqb "?") pattern_lower)
  then match find_sub pattern_lower text_lower with Some _ => true | None => false end
  else
    let parts := split_char "*" pattern_lower in
    match find_parts (negb (has_prefix ["*"]%char pattern_lower)) parts text_lower with
    | None => false
    | Some rest =>
        if negb (has_suffix ["*"]%char pattern_lower) && negb (has_suffix (default [] (last parts)) text_lower)
        then match rest with [] => true | _ => false end
        else true
    end.

(** ** What the tokens are *)

Definition is_letter (c : ascii) : bool := is_ascii_lowercase c || is_ascii_uppercase c.
Definition is_word_char (c : ascii) : bool := is_letter c || is_digit_char c.

(** A token before the short and the common ones are dropped: lower-case letters, or digits. *)
Definition token_shape (t : list ascii) : Prop :=
  t ≠ [] ∧ (Forall (λ c, is_ascii_lowercase c = true) t ∨ Forall (λ c, is_digit_char c = true) t).

Definition scan_shape (s : Scan) : Prop :=
  match prev_char_type s with
  | TLower | TUpper => current s ≠ [] ∧ Forall (λ c, is_letter c = true) (current s)
  | TDigit => current s ≠ [] ∧ Forall (λ c, is_digit_char c = true) (current s)
  | TSeparator | TOther => current s = []
  end.

(** A check of every character. *)
Lemma all_chars (p : ascii → bool) : forallb p (ascii_of_nat <$> seq 0 256) = true → ∀ c, p c = true.
Proof.
  intros Hp c. rewrite forallb_forall in Hp. apply Hp. rewrite <-(ascii_nat_embedding c). apply list_elem_of_In.
  apply list_elem_of_fmap_2, elem_of_seq. pose proof (nat_ascii_bounded c). lia.
Qed.

Lemma classify_char_spec c :
  match classify_char c with
  | TLower | TUpper => is_letter c = true
  | TDigit => is_digit_char c = true
  | TSeparator | TOther => is_word_char c = false
  end.
Proof.
  assert (match classify_char c with
          | TLower | TUpper => is_letter c | TDigit => is_digit_char c | _ => negb (is_word_char c) end = true) as Hc
    by (revert c; apply all_chars; by vm_compute).
  destruct (classify_char c); try done; by apply negb_true_iff.
Qed.

Lemma lower_letter c : is_letter c = true → is_ascii_lowercase (char_to_ascii_lowercase c) = true.
Proof.
  assert (implb (is_letter c) (is_ascii_lowercase (char_to_ascii_lowercase c)) = true) as Hc
    by (revert c; apply all_chars; by vm_compute).
  intros Hl. by rewrite Hl in Hc.
Qed.

Lemma lower_digit c : is_digit_char c = true → char_to_ascii_lowercase c = c.
Proof.
  assert (implb (is_digit_char c) (Ascii.eqb (char_to_ascii_lowercase c) c) = true) as Hc
    by (revert c; apply all_chars; by vm_compute).
  intros Hd. rewrite Hd in Hc. by apply Ascii.eqb_eq.
Qed.

Lemma lower_app k l : lower (k ++ l) = lower k ++ lower l.
Proof. apply fmap_app. Qed.

Lemma lower_letters t : t ≠ [] → Forall (λ c, is_letter c = true) t → token_shape (lower t).
Proof.
  intros Hn Ht. split; [by destruct t|]. left. apply Forall_fmap. eapply Forall_impl; [exact Ht|]. simpl. apply lower_letter.
Qed.

Lemma lower_digits t : t ≠ [] → Forall (λ c, is_digit_char c = true) t → token_shape (lower t).
Proof.
  intros Hn Ht. split; [by destruct t|]. right. apply Forall_fmap. eapply Forall_impl; [exact Ht|].
  intros c Hc. simpl. by rewrite lower_digit.
Qed.

(** Pushing the rest of a well-formed scan. *)
Lemma push_current_shape s :
  scan_shape s → Forall token_shape (scanned s) →
  Forall token_shape (push_current s) ∧ concat (push_current s) = concat (scanned s) ++ lower (current s).
Proof.
  intros Hs Hf. unfold push_current, scan_shape in *. destruct (current s) as [|c cur] eqn:Hc; [by rewrite app_nil_r|].
  rewrite concat_app. cbn [concat]. rewrite app_nil_r. split; [|done].
  apply Forall_app. split; [done|]. constructor; [|done].
  rewrite ?Hc in Hs. destruct (prev_char_type s); try done; destruct Hs; first [by apply lower_letters|by apply lower_digits].
Qed.

(** One character keeps the scan well formed and every letter and digit in its place. *)
Lemma scan_char_inv s ch :
  scan_shape s → Forall token_shape (scanned s) →
  scan_shape (scan_char s ch) ∧ Forall token_shape (scanned (scan_char s ch)) ∧
  concat (scanned (scan_char s ch)) ++ lower (current (scan_char s ch)) =
    concat (scanned s) ++ lower (current s) ++ (if is_word_char ch then lower [ch] else []).
Proof.
  intros Hs Hf. destruct (push_current_shape s Hs Hf) as [Hp Hc]. pose proof (classify_char_spec ch) as Hch.
  assert (is_letter ch = true → is_word_char ch = true) as HL by (unfold is_word_char; by intros ->).
  assert (is_digit_char ch = true → is_word_char ch = true) as HD by (unfold is_word_char; intros ->; apply orb_true_r).
  unfold scan_shape in Hs. unfold scan_char, scan_shape.
  destruct (prev_char_type s) eqn:Hpr, (classify_char ch) eqn:Hty; cbn [scanned current prev_char_type].
  all: try rewrite Hc; try rewrite (HL Hch); try rewrite (HD Hch); try rewrite Hch.
  all: try rewrite Hs; try (rewrite !app_nil_r; by split_and!).
  all: try (split_and!; [done|by constructor|done|by rewrite <-?app_assoc]; fail).
  all: try destruct Hs as [Hne Hall].
  all: try (split_and!; [by destruct (current s)|apply Forall_app; by auto|done|by rewrite lower_app]; fail).
  all: try (rewrite ?app_nil_r, <-?app_assoc; split_and!; try done; by constructor).
  destruct (Nat.ltb_spec 1 (length (current s))) as [Hl|Hl]; cbn [scanned current prev_char_type].
  - rewrite <-(take_drop (length (current s) - 1) (current s)) in Hall. apply Forall_app in Hall as [Ht Hd].
    split_and!.
    + by destruct (drop _ _).
    + apply Forall_app; auto.
    + apply Forall_app. split; [done|]. constructor; [|done]. apply lower_letters; [|done].
      intros E. apply (f_equal length) in E. rewrite length_take in E. simpl in E. lia.
    + rewrite concat_app. cbn [concat]. rewrite app_nil_r, <-!app_assoc, lower_app. f_equal.
      by rewrite (app_assoc (lower (take _ _))), <-lower_app, take_drop.
  - split_and!; [by destruct (current s)|apply Forall_app; by auto|done|by rewrite lower_app].
Qed.

Lemma scan_inv l s :
  scan_shape s → Forall token_shape (scanned s) →
  let s' := foldl scan_char s l in
  scan_shape s' ∧ Forall token_shape (scanned s') ∧
  concat (scanned s') ++ lower (current s') = concat (scanned s) ++ lower (current s) ++ lower (filterb is_word_char l).
Proof.
  revert s. induction l as [|c l IH]; intros s Hs Hf s'.
  { split_and!; [done..|]. cbn. by rewrite app_nil_r. }
  destruct (scan_char_inv s c Hs Hf) as (Hs' & Hf' & Hc). destruct (IH _ Hs' Hf') as (H1 & H2 & H3).
  split_and!; [done..|]. subst s'. cbn [foldl]. rewrite H3, app_assoc, Hc, <-!app_assoc. f_equal. f_equal.
  unfold filterb. cbn [List.filter]. by destruct (is_word_char c).
Qed.

(** A line loses none of its letters and digits.  Written one after the other, the pieces
    it is cut into are the letters and digits of the line in their order and in lower case;
    each piece is a run of letters or a run of digits; and the tokens of the line are those
    pieces that have two characters or more and are no stop word. *)
Theorem tokens_cover_line line :
  let pieces := raw_tokens (chars line) in
  concat pieces = lower (filterb is_word_char (chars line)) ∧ Forall token_shape pieces ∧
  tokenize_line line = of_chars <$> filterb kept_token pieces.
Proof.
  intros pieces. destruct (scan_inv (chars line) (mkScan [] [] TOther)) as (Hs & Hf & Hc); [done..|].
  destruct (push_current_shape _ Hs Hf) as [Hp Hq]. unfold pieces, raw_tokens. by rewrite Hq, Hc.
Qed.

(** ** A query is cut like a line *)

Lemma push_current_app toks cur p ts :
  push_current (mkScan (ts ++ toks) cur p) = ts ++ push_current (mkScan toks cur p).
Proof. unfold push_current. destruct cur; cbn; by rewrite <-?app_assoc. Qed.

(** What was scanned before is not looked at again. *)
Lemma scan_app l ts toks cur p :
  let s := foldl scan_char (mkScan toks cur p) l in
  foldl scan_char (mkScan (ts ++ toks) cur p) l = mkScan (ts ++ scanned s) (current s) (prev_char_type s).
Proof.
  revert toks cur p. induction l as [|c l IH]; intros toks cur p; cbn [foldl]; [done|].
  set (s' := scan_char (mkScan toks cur p) c).
  assert (scan_char (mkScan (ts ++ toks) cur p) c = mkScan (ts ++ scanned s') (current s') (prev_char_type s')) as ->.
  { subst s'. unfold scan_char. cbn [prev_char_type scanned current].
    destruct p, (classify_char c); rewrite ?push_current_app; try done. by destruct (1 <? length cur)%nat; cbn; rewrite <-?app_assoc. }
  rewrite IH. by destruct s'.
Qed.

(** A character of no word ends whatever was being read. *)
Lemma raw_tokens_break l c l' :
  classify_char c = TOther → raw_tokens (l ++ c :: l') = raw_tokens l ++ raw_tokens l'.
Proof.
  intros Hc. unfold raw_tokens at 1 2. rewrite foldl_app. cbn [foldl]. set (s := foldl scan_char _ l).
  assert (scan_char s c = mkScan (push_current s ++ []) [] TOther) as ->.
  { unfold scan_char. rewrite Hc, app_nil_r. by destruct (prev_char_type s). }
  rewrite scan_app, push_current_app. unfold raw_tokens. f_equal; by destruct (foldl scan_char (mkScan [] [] TOther) l').
Qed.

Lemma query_break_other c : query_break c = true → classify_char c = TOther.
Proof.
  assert (implb (query_break c) (bool_decide (classify_char c = TOther)) = true) as Hc
    by (revert c; apply all_chars; by vm_compute).
  intros Hq. rewrite Hq in Hc. by apply bool_decide_eq_true in Hc.
Qed.

(** The words of a text, and the first break in it. *)
Lemma split_on_cases p l :
  (split_on p l = [l] ∧ Forall (λ c, p c = false) l) ∨
  ∃ w c l', l = w ++ c :: l' ∧ p c = true ∧ split_on p l = w :: split_on p l'.
Proof.
  induction l as [|c l IH]; [by left|]. cbn [split_on]. destruct (p c) eqn:Hp.
  { right. by exists [], c, l. }
  destruct IH as [[-> Hf]|(w & d & l' & -> & Hd & ->)].
  - left. by split; [|constructor].
  - right. by exists (c :: w), d, l'.
Qed.

Lemma tokenize_chars l : tokenize_line (of_chars l) = of_chars <$> filterb kept_token (raw_tokens l).
Proof. unfold tokenize_line. by rewrite chars_of_chars. Qed.

Lemma tokenize_words l :
  concat ((λ w, match w with [] => [] | _ => tokenize_line (of_chars w) end) <$> split_on query_break l) =
  tokenize_line (of_chars l).
Proof.
  assert (∀ w, match w with [] => [] | _ => tokenize_line (of_chars w) end = tokenize_line (of_chars w)) as Hw
    by (by intros []).
  induction l as [l IH] using (induction_ltof1 _ (@length ascii)). unfold ltof in IH.
  destruct (split_on_cases query_break l) as [[-> _]|(w & c & l' & -> & Hc & ->)]; cbn [fmap list_fmap concat].
  - by rewrite Hw, app_nil_r.
  - rewrite Hw, IH by (rewrite length_app; simpl; lia). rewrite !tokenize_chars.
    rewrite (raw_tokens_break _ _ _ (query_break_other _ Hc)). by rewrite filterb_app, fmap_app.
Qed.

(** A query is cut into the tokens of the same text in a file.  Splitting it first at
    spaces, colons and quotes makes no difference, so a line of a file, asked for as it
    stands, asks for exactly the tokens the line is indexed under. *)
Theorem tokenize_query_is_line query : tokenize_query query = tokenize_line query.
Proof. unfold tokenize_query. by rewrite tokenize_words, of_chars_chars. Qed.

(** ** What a pattern with a star matches *)

(** The reference: a star stands for any text, every other character for itself. *)
Inductive wild : list ascii → list ascii → Prop :=
| wild_nil : wild [] []
| wild_char c p l : c ≠ "*"%char → wild p l → wild (c :: p) (c :: l)
| wild_skip p l : wild p l → wild ("*"%char :: p) l
| wild_take c p l : wild ("*"%char :: p) l → wild ("*"%char :: p) (c :: l).

Lemma wild_star q l : wild ("*"%char :: q) l ↔ ∃ g l', l = g ++ l' ∧ wild q l'.
Proof.
  split.
  - intros Hw. remember ("*"%char :: q) as p eqn:Hp. induction Hw as [|c p l Hc _ _|p l Hw _|c p l _ IH]; simplify_eq.
    + by exists [], l.
    + destruct (IH eq_refl) as (g & l' & -> & Hl). by exists (c :: g), l'.
  - intros (g & l' & -> & Hw). induction g as [|c g IH]; [by apply wild_skip|by apply wild_take].
Qed.

Lemma wild_part part q l :
  "*"%char ∉ part → wild (part ++ q) l ↔ ∃ l', l = part ++ l' ∧ wild q l'.
Proof.
  revert l. induction part as [|c part IH]; intros l Hs; cbn [app]; [naive_solver|].
  apply not_elem_of_cons in Hs as [Hc Hs]. split.
  - inversion 1; subst; [|done..]. apply IH in H4 as (l' & -> & Hw); [|done]. eauto.
  - intros (l' & -> & Hw). constructor; [done|]. apply IH; eauto.
Qed.

Lemma wild_nil_iff l : wild [] l ↔ l = [].
Proof. split; [by inversion 1|intros ->; constructor]. Qed.

(** The first occurrence. *)
Lemma find_sub_Some p l b a : find_sub p l = Some (b, a) → l = b ++ p ++ a.
Proof.
  revert b a. induction l as [|c l IH]; intros b a; cbn [find_sub].
  all: destruct (strip_prefix_chars p _) as [r|] eqn:Hs;
    [intros [= <- <-]; by apply strip_prefix_chars_Some in Hs|].
  { done. }
  destruct (find_sub p l) as [[b' a']|]; [|done]. intros [= <- <-]. cbn. by rewrite (IH _ _ eq_refl).
Qed.

(** Nothing starts before it. *)
Lemma find_sub_first p g l : ∃ b a x, find_sub p (g ++ p ++ l) = Some (b, a) ∧ a = x ++ l ∧ (g = [] → b = []).
Proof.
  induction g as [|c g IH].
  - exists [], l, []. split_and!; [|done..]. assert (strip_prefix_chars p (p ++ l) = Some l) as Hs by (by apply strip_prefix_chars_Some).
    cbn [app]. destruct (p ++ l); cbn [find_sub]; by rewrite Hs.
  - cbn [app find_sub]. destruct (strip_prefix_chars p (c :: g ++ p ++ l)) as [r|] eqn:Hs.
    + apply strip_prefix_chars_Some in Hs.
      assert (∃ x, r = x ++ l) as [x ->].
      { rewrite app_assoc, app_comm_cons in Hs. apply app_eq_inv in Hs as [(k & _ & ->)|(k & Hk & _)]; [by exists k|].
        apply (f_equal length) in Hk. cbn in Hk. rewrite !length_app in Hk. lia. }
      by exists [], (x ++ l), x.
    + destruct IH as (b & a & x & -> & -> & _). by exists (c :: b), (x ++ l), x.
Qed.

Lemma has_suffix_true x l : has_suffix x l = true ↔ ∃ k, l = k ++ x.
Proof.
  unfold has_suffix, has_prefix. destruct (strip_prefix_chars _ _) as [r|] eqn:Hs.
  - apply strip_prefix_chars_Some in Hs. split; [|done]. intros _. exists (rev r).
    apply (f_equal (@rev ascii)) in Hs. by rewrite rev_involutive, rev_app_distr, rev_involutive in Hs.
  - split; [done|]. intros [k ->]. rewrite rev_app_distr in Hs.
    assert (strip_prefix_chars (rev x) (rev x ++ rev k) = Some (rev k)) as E by (by apply strip_prefix_chars_Some).
    by rewrite E in Hs.
Qed.

Lemma find_parts_cons part ps l :
  find_parts false (part :: ps) l = match find_sub part l with Some (_, a) => find_parts false ps a | None => None end.
Proof.
  destruct part; cbn [find_parts andb]; [|by destruct (find_sub _ _) as [[]|]].
  by destruct l.
Qed.

(** The last part is found right before what is left. *)
Lemma find_parts_last ps l rest q :
  find_parts false ps l = Some rest → last ps = Some q → ∃ x, l = x ++ q ++ rest.
Proof.
  revert l. induction ps as [|p ps IH]; intros l Hf Hq; [done|]. rewrite find_parts_cons in Hf.
  destruct (find_sub p l) as [[b a]|] eqn:Hs; [|done]. apply find_sub_Some in Hs as ->.
  destruct ps as [|p' ps]; [cbn in *; simplify_eq; by exists b|].
  destruct (IH a Hf Hq) as [x ->]. exists (b ++ p ++ x). by rewrite <-!app_assoc.
Qed.

Lemma suffix_within (q k a l : list ascii) : l = k ++ a → (length q <= length a)%nat → (∃ x, l = x ++ q) → ∃ x, a = x ++ q.
Proof.
  intros -> Hl [x Hx]. apply app_eq_inv in Hx as [(y & -> & ->)|(y & -> & ->)].
  - rewrite length_app in Hl. destruct y; [by exists []|cbn in Hl; lia].
  - by exists y.
Qed.

(** Looking for the parts one after the other, each at its first occurrence, misses nothing. *)
Lemma find_parts_wild ps l q :
  Forall (λ p, "*"%char ∉ p) ps → last ps = Some q →
  wild ("*"%char :: join_char "*" ps) l ↔ ∃ rest, find_parts false ps l = Some rest ∧ ∃ k, l = k ++ q.
Proof.
  revert l. induction ps as [|p ps IH]; intros l Hf Hq; [done|]. apply Forall_cons in Hf as [Hp Hf].
  rewrite wild_star, find_parts_cons. destruct ps as [|p' ps].
  - cbn [last] in Hq. injection Hq as ->. cbn [join_char]. split.
    + intros (g & l' & -> & Hw). rewrite <-(app_nil_r q) in Hw. apply wild_part in Hw as (l1 & -> & ->%wild_nil_iff); [|done].
      destruct (find_sub_first q g []) as (b & a & x & -> & _ & _). cbn. rewrite app_nil_r. eauto.
    + intros (rest & _ & k & ->). exists k, q. split; [done|]. rewrite <-(app_nil_r q) at 1. apply wild_part; [done|].
      exists []. by rewrite app_nil_r, wild_nil_iff.
  - change (join_char "*" (p :: p' :: ps)) with (p ++ "*"%char :: join_char "*" (p' :: ps)). split.
    + intros (g & l' & -> & Hw). apply wild_part in Hw as (l1 & -> & Hw); [|done].
      destruct (find_sub_first p g l1) as (b & a & x & Hs & -> & _). rewrite Hs.
      assert (wild ("*"%char :: join_char "*" (p' :: ps)) (x ++ l1)) as Hx.
      { apply wild_star in Hw as (g' & l2 & -> & Hw). apply wild_star. exists (x ++ g'), l2. by rewrite app_assoc. }
      apply (IH _ Hf Hq) in Hx as (rest & Hr & k & Hk). exists rest. split; [done|].
      apply find_sub_Some in Hs. rewrite Hs, Hk. exists (b ++ p ++ k). by rewrite <-!app_assoc.
    + intros (rest & Hr & k & Hk). destruct (find_sub p l) as [[b a]|] eqn:Hs; [|done]. apply find_sub_Some in Hs.
      exists b, (p ++ a). split; [done|]. apply wild_part; [done|]. exists a. split; [done|].
      apply (IH _ Hf Hq). exists rest. split; [done|].
      destruct (find_parts_last _ _ _ _ Hr Hq) as [x Hx].
      apply (suffix_within q (b ++ p) a l); [by rewrite <-app_assoc| |by exists k].
      rewrite Hx, !length_app. lia.
Qed.

Lemma join_ends ps p q : last ps = Some q → ∃ x, join_char "*" (p :: ps) = x ++ "*"%char :: q.
Proof.
  revert p. induction ps as [|p' ps IH]; intros p Hq; [done|].
  change (join_char "*" (p :: p' :: ps)) with (p ++ "*"%char :: join_char "*" (p' :: ps)).
  destruct ps as [|p'' ps]; [cbn in *; simplify_eq; by exists p|].
  destruct (IH p' Hq) as [x ->]. exists (p ++ "*"%char :: x). by rewrite <-app_assoc.
Qed.

(** What the tail of [glob_match] decides about the last part. *)
Lemma tail_check ps p l rest q :
  Forall (λ p, "*"%char ∉ p) (p :: ps) → last ps = Some q → (∃ x, l = x ++ q ++ rest) →
  (if negb (has_suffix ["*"]%char (join_char "*" (p :: ps))) && negb (has_suffix q l)
   then match rest with [] => true | _ => false end else true) = true ↔ ∃ k, l = k ++ q.
Proof.
  intros Hf Hq [x Hx]. destruct (has_suffix q l) eqn:Hs.
  { apply has_suffix_true in Hs. by rewrite andb_false_r. }
  assert (¬ ∃ k, l = k ++ q) as Hn by (by rewrite <-has_suffix_true, Hs).
  assert (q ≠ []) as Hq0 by (intros ->; apply Hn; exists l; by rewrite app_nil_r).
  assert (has_suffix ["*"]%char (join_char "*" (p :: ps)) = false) as ->.
  { apply not_true_iff_false. rewrite has_suffix_true. intros [k Hk]. destruct (join_ends ps p q Hq) as [y Hy].
    rewrite Hk in Hy. destruct q as [|c q] using rev_ind; [done|]. rewrite app_comm_cons, app_assoc in Hy.
    apply app_inj_tail in Hy as [_ Hy]. apply Forall_cons in Hf as [_ Hf]. rewrite Forall_forall in Hf.
    apply (Hf (q ++ [c])); [by apply last_Some_elem_of|]. rewrite Hy. apply elem_of_app. right. apply list_elem_of_singleton. done. }
  cbn. split; [|done]. destruct rest; [|done]. intros _. rewrite app_nil_r in Hx. by destruct Hn; exists x.
Qed.

(** The first part, where the text begins with it. *)
Lemma find_parts_first first p ps a : find_parts first (p :: ps) (p ++ a) = find_parts false ps a.
Proof.
  destruct p as [|c p]; [done|]. cbn [find_parts].
  destruct (find_sub_first (c :: p) [] a) as (b & a' & x & Hsub & _ & Hb). rewrite app_nil_l in Hsub. rewrite Hsub.
  pose proof (find_sub_Some _ _ _ _ Hsub) as Ha. rewrite (Hb eq_refl) in *. apply (app_inv_head (c :: p)) in Ha as ->.
  rewrite bool_decide_eq_true_2 by done. by rewrite andb_false_r.
Qed.

Lemma find_parts_anchored p ps l rest : find_parts true (p :: ps) l = Some rest → ∃ a, l = p ++ a.
Proof.
  destruct p as [|c p]; [by exists l|]. cbn [find_parts].
  destruct (find_sub (c :: p) l) as [[b a]|] eqn:Hsub; [|done]. apply find_sub_Some in Hsub.
  cbn. case_bool_decide; [|done]. subst b. by exists a.
Qed.

(** A pattern of two parts or more. *)
Lemma parts_exact p ps q l :
  Forall (λ p, "*"%char ∉ p) (p :: ps) → last ps = Some q →
  let pat := join_char "*" (p :: ps) in
  match find_parts (negb (has_prefix ["*"]%char pat)) (p :: ps) l with
  | None => false
  | Some rest =>
      if negb (has_suffix ["*"]%char pat) && negb (has_suffix q l) then match rest with [] => true | _ => false end
      else true
  end = true ↔ wild pat l.
Proof.
  intros Hf Hq pat. pose proof Hf as [Hp Hps]%Forall_cons.
  assert (pat = p ++ "*"%char :: join_char "*" ps) as Hpat by (by destruct ps).
  assert (wild pat l ↔ ∃ a, l = p ++ a ∧ wild ("*"%char :: join_char "*" ps) a) as -> by (rewrite Hpat; by apply wild_part).
  setoid_rewrite (λ a, find_parts_wild ps a q Hps Hq). split.
  - destruct (find_parts _ _ l) as [rest|] eqn:Hfr; [|done]. intros Ht.
    assert (∃ a, l = p ++ a) as [a ->].
    { destruct p as [|c p]; [by exists l|]. assert (has_prefix ["*"]%char pat = false) as Hn.
      { rewrite Hpat. apply not_elem_of_cons in Hp as [Hc _]. unfold has_prefix. cbn.
        rewrite bool_decide_eq_false_2; [done|congruence]. }
      rewrite Hn in Hfr. by apply find_parts_anchored in Hfr. }
    rewrite find_parts_first in Hfr. destruct (find_parts_last _ _ _ _ Hfr Hq) as [x Hx].
    apply tail_check in Ht as Hk; [|done..|by exists (p ++ x); rewrite Hx, <-app_assoc].
    exists a. split; [done|]. exists rest. split; [done|].
    apply (suffix_within q p a (p ++ a)); [done| |done]. rewrite Hx, !length_app. lia.
  - intros (a & -> & rest & Hfr & k & Hk). rewrite find_parts_first, Hfr.
    destruct (find_parts_last _ _ _ _ Hfr Hq) as [x Hx].
    apply tail_check; [done..|by exists (p ++ x); rewrite Hx, <-app_assoc|].
    exists (p ++ k). by rewrite Hk, <-app_assoc.
Qed.

Lemma existsb_elem c l : existsb (Ascii.eqb c) l = bool_decide (c ∈ l).
Proof.
  apply eq_iff_eq_true. rewrite existsb_exists, bool_decide_eq_true. setoid_rewrite Ascii.eqb_eq.
  setoid_rewrite <-list_elem_of_In. naive_solver.
Qed.

(** A path pattern with a star means what its stars say.  Whatever the pattern and the
    path, taking each part at its first occurrence decides exactly whether the path is the
    pattern with every star replaced by some text, letter case aside; a pattern without a
    star or a question mark is looked for anywhere in the path. *)
Theorem glob_match_exact pattern text :
  ("*"%char ∈ to_lowercase pattern → glob_match pattern text = true ↔ wild (to_lowercase pattern) (to_lowercase text)) ∧
  ("*"%char ∉ to_lowercase pattern → "?"%char ∉ to_lowercase pattern →
     glob_match pattern text = true ↔ ∃ b a, to_lowercase text = b ++ to_lowercase pattern ++ a).
Proof.
  unfold glob_match. rewrite !existsb_elem. set (pat := to_lowercase pattern). set (l := to_lowercase text). split.
  - intros Hs. rewrite (bool_decide_eq_true_2 _ Hs). cbn [negb andb].
    destruct (split_no_char "*" pat) as [Hf Hne]. pose proof (join_split "*" pat) as Hj.
    destruct (split_char "*" pat) as [|p ps]; [done|]. destruct (last ps) as [q|] eqn:Hq.
    + rewrite last_cons, Hq. rewrite <-Hj. by apply parts_exact.
    + apply last_None in Hq as ->. apply Forall_cons in Hf as [Hp _]. cbn in Hj. by subst p.
  - intros Hs Hq. rewrite !bool_decide_eq_false_2 by done. cbn [negb andb]. split.
    + destruct (find_sub pat l) as [[b a]|] eqn:Hsub; [|done]. intros _. apply find_sub_Some in Hsub. eauto.
    + intros (b & a & ->). by destruct (find_sub_first pat b a) as (b' & a' & x & -> & _ & _).
Qed.

Lemma glob_match_exact_witness :
  "*"%char ∈ to_lowercase "src/*.RS" ∧ glob_match "src/*.RS" "src/a/main.rs" = true ∧
  wild (to_lowercase "src/*.RS") (to_lowercase "src/a/main.rs").
Proof.
  assert ("*"%char ∈ to_lowercase "src/*.RS") as Hs by (apply list_elem_of_In; cbn; by auto 10).
  split_and!; [done|by vm_compute|]. apply (proj1 (glob_match_exact "src/*.RS" "src/a/main.rs") Hs). by vm_compute.
Defined.

(** A question mark stands for itself only, though it makes a pattern a pattern. *)
Lemma question_mark_is_literal :
  glob_match "src/?.rs" "src/a.rs" = false ∧ glob_match "src/a.rs" "src/a.rs" = true.
Proof. by vm_compute. Qed.
