(* ===== verification/TextIndex.v ===== *)
(** * The text index

    [TextSearchIndex] of [uc-engine/src/indexer/text.rs]: the inverted index over the lines
    of the indexed files, and the keyword and regular-expression searches over it.

    - The lines of a file are walked in order ([BTreeMap]); the tokens of a line come in the
      order of a hash map, which is that of [map_to_list] here: they go to different lists.
    - The orders in which the maps of scores and of tokens are emptied are arguments, and so
      are the natural logarithm of an [f32] and the regular expressions of the [regex] crate.
    - Counts of tokens on a line and of documents do not reach the ends of their types. *)

From Stdlib Require Import String Ascii SpecFloat.
From stdpp Require Import gmap strings sorting.
From S2P Require Import Prelude RustStr Task Merge Ranking Memory Sandbox Search Tokenizer.

Record Posting : Type := mkPosting { po_repo_id : string; po_file_path : string; line_number : Z; tf : Z }.

Record DocumentMeta : Type := mkDocMeta {
  dm_repo_id : string;
  dm_file_path : string;
  dm_language : string;
  total_tokens : Z
}.

(** A document is known by its repository and its path. *)
Notation DocKey := (string * string)%type (only parsing).
Notation Postings := (gmap string (list Posting)) (only parsing).

Record TextSearchIndex : Type := mkTextIndex {
  inverted_index : Postings;
  documents : gmap DocKey DocumentMeta;
  doc_count : Z
}.

Definition TextSearchIndex_new : TextSearchIndex := mkTextIndex ∅ ∅ 0.

(** ** Indexing *)

Definition of_document (k : DocKey) (p : Posting) : bool := (po_repo_id p, po_file_path p) ==? k.

Definition text_remove_file (k : DocKey) (i : TextSearchIndex) : TextSearchIndex :=
  match documents i !! k with
  | None => i
  | Some _ =>
      mkTextIndex (filter (λ e, e.2 ≠ []) (filterb (λ p, negb (of_document k p)) <$> inverted_index i))
        (delete k (documents i)) (Z.max 0 (doc_count i - 1))
  end.

(** [line_token_counts]: how often each token is on each line. *)
Definition count_token (m : gmap Z (gmap string Z)) (lt : Z * string) : gmap Z (gmap string Z) :=
  let counts := default ∅ (m !! lt.1) in
  <[lt.1 := <[lt.2 := default 0 (counts !! lt.2) + 1]> counts]> m.
Definition line_token_counts (tokens : list (Z * string)) : gmap Z (gmap string Z) := foldl count_token ∅ tokens.

(** The entries of a [BTreeMap], by key. *)
Definition by_line {A} (m : gmap Z A) : list (Z * A) := sort_by (λ a b, a.1 <=? b.1) (map_to_list m).

Definition add_posting (k : DocKey) (line : Z) (inv : Postings) (e : string * Z) : Postings :=
  <[e.1 := default [] (inv !! e.1) ++ [mkPosting k.1 k.2 line e.2]]> inv.

Definition add_line (k : DocKey) (inv : Postings) (e : Z * gmap string Z) : Postings :=
  foldl (add_posting k e.1) inv (map_to_list e.2).

Definition text_index_file (k : DocKey) (language content : string) (i : TextSearchIndex) : TextSearchIndex :=
  let i := text_remove_file k i in
  let tokens := tokenize_content content in
  mkTextIndex (foldl (add_line k) (inverted_index i) (by_line (line_token_counts tokens)))
    (<[k := mkDocMeta k.1 k.2 language (Z.of_nat (length tokens) `mod` 2 ^ 32)]> (documents i)) (doc_count i + 1).

(** The keys are collected before the first removal. *)
Definition text_remove_repo (repo_id : string) (i : TextSearchIndex) : TextSearchIndex :=
  foldl (λ i k, text_remove_file k i) i
    (filterb (λ k, k.1 ==? repo_id) (fst <$> map_to_list (documents i))).

Definition token_count (i : TextSearchIndex) : nat := size (inverted_index i).

(** ** Searching *)

Definition passes_filters (p : Posting) (q : SearchQuery) (documents : gmap DocKey DocumentMeta) : bool :=
  (bool_decide (sq_repo_ids q = []) || bool_decide (po_repo_id p ∈ sq_repo_ids q)) &&
  (bool_decide (sq_languages q = []) ||
     match documents !! (po_repo_id p, po_file_path p) with
     | Some meta => bool_decide (dm_language meta ∈ sq_languages q)
     | None => true
     end) &&
  (bool_decide (sq_path_patterns q = []) || existsb (λ pattern, glob_match pattern (po_file_path p)) (sq_path_patterns q)).

Definition f32_of_Z (n : Z) : f32 := binary_normalize f32_prec f32_emax n 0 false.
Definition one_f32 : f32 := f32_of_Z 1.

Section TextSearch.
Context (ln : f32 → f32).
(** The order in which the scores of the documents are walked. *)
Context (iter : gmap DocKey f32 → list (DocKey * f32)).

Definition compute_idf (total_docs docs_with_term : Z) : f32 :=
  if docs_with_term =? 0 then f32_zero
  else f32_add (ln (f32_div (f32_add (f32_of_Z total_docs) one_f32) (f32_add (f32_of_Z docs_with_term) one_f32))) one_f32.

(** [doc_scores] and [doc_lines]. *)
Record Hits : Type := mkHits { doc_scores : gmap DocKey f32; doc_lines : gmap DocKey (gset Z) }.

Definition hit_posting (q : SearchQuery) (i : TextSearchIndex) (idf : f32) (h : Hits) (p : Posting) : Hits :=
  if passes_filters p q (documents i) then
    let k := (po_repo_id p, po_file_path p) in
    mkHits (<[k := f32_add (default f32_zero (doc_scores h !! k)) (f32_mul (f32_of_Z (tf p)) idf)]> (doc_scores h))
           (<[k := {[line_number p]} ∪ default ∅ (doc_lines h !! k)]> (doc_lines h))
  else h.

Definition hit_postings (q : SearchQuery) (i : TextSearchIndex) (h : Hits) (postings : list Posting) : Hits :=
  foldl (hit_posting q i (compute_idf (doc_count i) (Z.of_nat (length postings)))) h postings.

(** A token of the query; it is already in lower case. *)
Definition hit_token (q : SearchQuery) (i : TextSearchIndex) (h : Hits) (token : string) : Hits :=
  match inverted_index i !! to_ascii_lowercase token with
  | None => h
  | Some postings => hit_postings q i h postings
  end.

(** [lines.iter().min()] and [max()]. *)
Definition extreme (f : Z → Z → Z) (lines : gset Z) : option Z :=
  foldr (λ l m, Some (match m with Some m => f l m | None => l end)) None (elements lines).
Definition lines_min : gset Z → option Z := extreme Z.min.
Definition lines_max : gset Z → option Z := extreme Z.max.

Definition result_item (h : Hits) (e : DocKey * f32) : SearchResultItem :=
  let lines := default ∅ (doc_lines h !! e.1) in
  let min_line := default 1 (lines_min lines) in
  mkItem e.1.1 e.1.2 min_line (default min_line (lines_max lines)) "" ModeText e.2 None None None.
Definition build_result_items (h : Hits) : list SearchResultItem := result_item h <$> iter (doc_scores h).

Definition set_score (s : f32) (i : SearchResultItem) : SearchResultItem :=
  mkItem (it_repo_id i) (it_file_path i) (it_start_line i) (it_end_line i) (content_snippet i) (match_type i) s
    (it_symbol_name i) (it_symbol_kind i) (it_parent_symbol i).

Definition keyword_items (q : SearchQuery) (i : TextSearchIndex) : list SearchResultItem :=
  let query_tokens := tokenize_query (sq_query q) in
  (λ item, set_score (f32_div (it_score item) (f32_of_Z (Z.of_nat (length query_tokens)))) item)
    <$> build_result_items (foldl (hit_token q i) (mkHits ∅ ∅) query_tokens).

Definition search_keywords (q : SearchQuery) (i : TextSearchIndex) : list SearchResultItem :=
  match tokenize_query (sq_query q) with
  | [] => []
  | _ => top it_score (Z.to_nat (sq_max_results q)) (keyword_items q i)
  end.

(** [Regex::new] with [is_match], and the order in which the tokens are walked. *)
Context (regex : string → result (string → bool) string).
Context (tokens_iter : Postings → list (string * list Posting)).

Definition between_slashes (l : list ascii) : bool := has_prefix ["/"]%char l && has_suffix ["/"]%char l.

Definition regex_pattern (query : string) : string :=
  if (2 <? bytes_len (chars query))%nat && between_slashes (chars query)
  then of_chars (take (length (chars query) - 2) (drop 1 (chars query)))
  else query.

Definition hit_matching (q : SearchQuery) (i : TextSearchIndex) (is_match : string → bool) (h : Hits)
    (e : string * list Posting) : Hits :=
  if is_match e.1 then hit_postings q i h e.2 else h.

Definition search_regex (q : SearchQuery) (i : TextSearchIndex) : result (list SearchResultItem) EngineError :=
  match regex (regex_pattern (sq_query q)) with
  | Err e => Err (SearchError ("Invalid regex pattern: " +:+ e))
  | Ok is_match =>
      let h := foldl (hit_matching q i is_match) (mkHits ∅ ∅) (tokens_iter (inverted_index i)) in
      Ok (top it_score (Z.to_nat (sq_max_results q)) (build_result_items h))
  end.

Definition is_regex (query_text : string) : bool :=
  between_slashes (chars query_text) || existsb (contains_char query_text) ["|"; "*"; "+"; "["; "("]%char.

Definition text_search (q : SearchQuery) (i : TextSearchIndex) : result (list SearchResultItem) EngineError :=
  let query_text := trim (sq_query q) in
  if query_text ==? "" then Ok []
  else if is_regex query_text then search_regex q i
  else Ok (search_keywords q i).
End TextSearch.

(** * Properties of the text index

    The index stands for a map from documents to their contents: indexing, removing and
    removing a repository are insertion, deletion and filtering of that map, whatever was
    done before, and a keyword search answers exactly the documents that contain a token. *)

(** ** What the index stands for *)

(** The language and the content of every document. *)
Notation Documents := (gmap (string * string) (string * string)) (only parsing).

(** The postings of a document for a token: one for each line it is on, in order. *)
Definition doc_postings (k : string * string) (content t : string) : list Posting :=
  omap (λ e, mkPosting k.1 k.2 e.1 <$> e.2 !! t) (by_line (line_token_counts (tokenize_content content))).

Record represents (i : TextSearchIndex) (docs : Documents) : Prop := {
  rep_documents : documents i =
    map_imap (λ k d, Some (mkDocMeta k.1 k.2 d.1 (Z.of_nat (length (tokenize_content d.2)) `mod` 2 ^ 32))) docs;
  rep_count : doc_count i = Z.of_nat (size docs);
  rep_postings t k : filterb (of_document k) (default [] (inverted_index i !! t)) =
    match docs !! k with Some d => doc_postings k d.2 t | None => [] end;
  rep_tokens t : inverted_index i !! t ≠ Some []
}.

(** ** Counting *)

Definition occurrences (lt : Z * string) (tokens : list (Z * string)) : nat := length (filter (.= lt) tokens).

Lemma line_token_counts_lookup tokens l t :
  (line_token_counts tokens !! l ≫= (.!! t)) =
    if (occurrences (l, t) tokens =? 0)%nat then None else Some (Z.of_nat (occurrences (l, t) tokens)).
Proof.
  unfold line_token_counts, occurrences. induction tokens as [|[l' t'] tokens IH] using rev_ind; [done|].
  rewrite foldl_snoc, filter_app, length_app. set (m := foldl count_token ∅ tokens) in *. clearbody m.
  assert (∀ t, default ∅ (m !! l) !! t = (m !! l ≫= (.!! t))) as Hm
    by (intros t0; by destruct (m !! l); cbn; rewrite ?lookup_empty).
  unfold count_token. cbn [fst snd]. rewrite filter_cons, filter_nil.
  destruct (decide (l' = l)) as [->|Hl].
  - rewrite lookup_insert_eq. cbn [mbind option_bind]. destruct (decide (t' = t)) as [->|Ht].
    + rewrite lookup_insert_eq, decide_True by done. cbn [length]. rewrite Hm, IH.
      destruct (Nat.eqb_spec (length (filter (.= (l, t)) tokens)) 0) as [->|Hn]; [done|].
      rewrite (proj2 (Nat.eqb_neq _ _)) by lia. cbn. f_equal. lia.
    + rewrite lookup_insert_ne by done. rewrite decide_False by congruence. cbn [length]. by rewrite Nat.add_0_r, <-IH, Hm.
  - rewrite lookup_insert_ne by done. rewrite decide_False by congruence. cbn [length]. by rewrite Nat.add_0_r.
Qed.

Lemma by_line_elem {A} (m : gmap Z A) l a : (l, a) ∈ by_line m ↔ m !! l = Some a.
Proof. unfold by_line. by rewrite sort_by_elem, elem_of_map_to_list. Qed.

(** A document has a posting for a line exactly when the token is on the line, and it counts
    how often. *)
Lemma doc_postings_elem k content t p :
  p ∈ doc_postings k content t ↔
  of_document k p = true ∧ 0 < tf p ∧ tf p = Z.of_nat (occurrences (line_number p, t) (tokenize_content content)).
Proof.
  unfold doc_postings. rewrite list_elem_of_omap. split.
  - intros ([l m] & Hm%by_line_elem & Hp). cbn in Hp. destruct (m !! t) as [n|] eqn:Hn; [|done]. simplify_eq/=.
    pose proof (line_token_counts_lookup (tokenize_content content) l t) as Hc. rewrite Hm in Hc. cbn in Hc. rewrite Hn in Hc.
    destruct (Nat.eqb_spec (occurrences (l, t) (tokenize_content content)) 0); simplify_eq.
    split_and!; [|lia|done]. unfold of_document. cbn. rewrite <-surjective_pairing. by apply bool_decide_eq_true_2.
  - intros (Hk & Hpos & Htf). pose proof (line_token_counts_lookup (tokenize_content content) (line_number p) t) as Hc.
    rewrite (proj2 (Nat.eqb_neq _ _)) in Hc by lia.
    destruct (line_token_counts _ !! line_number p) as [m|] eqn:Hm; [|done]. cbn in Hc.
    exists (line_number p, m). split; [by apply by_line_elem|]. cbn. rewrite Hc. cbn. f_equal.
    unfold of_document in Hk. destruct p; cbn in *. apply bool_decide_eq_true in Hk. by subst k; cbn; rewrite Htf.
Qed.

(** ** Indexing and removing *)

Lemma doc_postings_of k content t : Forall (λ p, of_document k p = true) (doc_postings k content t).
Proof. apply Forall_forall. intros p Hp. by apply doc_postings_elem in Hp as [? _]. Qed.

Lemma of_document_same k k' p : of_document k p = true → of_document k' p = (k ==? k').
Proof. unfold of_document. intros Hk. apply bool_decide_eq_true in Hk. by rewrite Hk. Qed.

Lemma filterb_of_others k k' (l : list Posting) :
  filterb (of_document k') (filterb (λ p, negb (of_document k p)) l) =
    if k ==? k' then [] else filterb (of_document k') l.
Proof.
  rewrite filterb_filterb. case_bool_decide as Hk.
  - subst. apply filterb_none, Forall_forall. intros p _. by destruct (of_document k' p).
  - induction l as [|p l IH]; [done|]. unfold filterb in *. cbn. rewrite IH.
    destruct (of_document k' p) eqn:Hp; [|by rewrite ?andb_false_r].
    by rewrite (of_document_same k' k p Hp), bool_decide_eq_false_2 by done.
Qed.

Lemma new_represents : represents TextSearchIndex_new ∅.
Proof. split; cbn; [by rewrite map_imap_empty|done| |]; intros; by rewrite ?lookup_empty. Qed.

Lemma rep_document_lookup i docs k :
  represents i docs →
  documents i !! k =
    (λ d, mkDocMeta k.1 k.2 d.1 (Z.of_nat (length (tokenize_content d.2)) `mod` 2 ^ 32)) <$> docs !! k.
Proof. intros Hr. rewrite (rep_documents _ _ Hr), map_lookup_imap. by destruct (docs !! k). Qed.

Lemma text_remove_file_represents i docs k :
  represents i docs → represents (text_remove_file k i) (delete k docs).
Proof.
  intros Hr. unfold text_remove_file. rewrite (rep_document_lookup _ _ _ Hr).
  destruct (docs !! k) as [d|] eqn:Hd; cbn [fmap option_fmap option_map]; [|by rewrite delete_id].
  assert (∀ t, default [] (filter (λ e : string * list Posting, e.2 ≠ [])
      (filterb (λ p, negb (of_document k p)) <$> inverted_index i) !! t) =
      filterb (λ p, negb (of_document k p)) (default [] (inverted_index i !! t))) as Hl.
  { intros t. rewrite map_lookup_filter, lookup_fmap. destruct (inverted_index i !! t) as [ps|]; cbn; [|done].
    unfold filterb. destruct (List.filter (λ p, negb (of_document k p)) ps); [by rewrite option_guard_False by (by intros [])|].
    by rewrite option_guard_True. }
  split; cbn [documents doc_count inverted_index].
  - by rewrite (rep_documents _ _ Hr), map_imap_delete.
  - rewrite (rep_count _ _ Hr), map_size_delete_Some by done.
    assert (size docs ≠ 0)%nat by (intros E; apply map_size_empty_inv in E; by rewrite E, lookup_empty in Hd). lia.
  - intros t k'. rewrite Hl, filterb_of_others. case_bool_decide as Hk.
    + subst. by rewrite lookup_delete_eq.
    + rewrite lookup_delete_ne by done. apply (rep_postings _ _ Hr).
  - intros t Ht. apply map_lookup_filter_Some in Ht as [_ Ht]. by apply Ht.
Qed.

Lemma add_line_lookup k e inv t :
  add_line k inv e !! t =
    match e.2 !! t with Some n => Some (default [] (inv !! t) ++ [mkPosting k.1 k.2 e.1 n]) | None => inv !! t end.
Proof.
  unfold add_line. rewrite <-(list_to_map_to_list e.2) at 2. pose proof (NoDup_fst_map_to_list e.2) as Hn.
  revert inv Hn. induction (map_to_list e.2) as [|[t' n'] l IH]; intros inv Hn; cbn [foldl].
  { by rewrite list_to_map_nil, lookup_empty. }
  apply NoDup_cons in Hn as [Ht' Hn]. rewrite IH by done. rewrite list_to_map_cons. unfold add_posting. cbn [fst snd].
  destruct (decide (t' = t)) as [->|Ht].
  - rewrite !lookup_insert_eq. by rewrite (not_elem_of_list_to_map_1 l t Ht').
  - by rewrite !lookup_insert_ne.
Qed.

Lemma add_lines_lookup k es inv t :
  default [] (foldl (add_line k) inv es !! t) =
    default [] (inv !! t) ++ omap (λ e, mkPosting k.1 k.2 e.1 <$> e.2 !! t) es ∧
  (inv !! t ≠ Some [] → foldl (add_line k) inv es !! t ≠ Some []).
Proof.
  revert inv. induction es as [|e es IH]; intros inv; cbn [foldl]; csimpl; [by rewrite app_nil_r|].
  destruct (IH (add_line k inv e)) as [IH1 IH2]. rewrite IH1, add_line_lookup. split.
  - destruct (e.2 !! t); cbn; by rewrite <-?app_assoc.
  - intros Hi. apply IH2. rewrite add_line_lookup. destruct (e.2 !! t); [|done]. intros [= E].
    by apply app_eq_nil in E as [_ E].
Qed.

Lemma text_index_file_represents i docs k language content :
  represents i docs → represents (text_index_file k language content i) (<[k := (language, content)]> docs).
Proof.
  intros Hr%(text_remove_file_represents _ _ k). unfold text_index_file. set (i' := text_remove_file k i) in *.
  rewrite <-(insert_delete_eq docs). set (docs' := delete k docs) in *.
  assert (docs' !! k = None) as Hk by apply lookup_delete_eq.
  split; cbn [documents doc_count inverted_index].
  - rewrite (rep_documents _ _ Hr). by rewrite map_imap_insert.
  - rewrite (rep_count _ _ Hr), map_size_insert_None by done. lia.
  - intros t k'. rewrite (proj1 (add_lines_lookup _ _ _ _)). fold (doc_postings k content t).
    rewrite filterb_app, (rep_postings _ _ Hr). pose proof (doc_postings_of k content t) as Hd.
    destruct (decide (k = k')) as [<-|Hne].
    + rewrite Hk, lookup_insert_eq. cbn. by apply filterb_all.
    + rewrite lookup_insert_ne by done. rewrite (filterb_none (of_document k')), app_nil_r; [done|].
      eapply Forall_impl; [exact Hd|]. intros p Hp. cbn in Hp. by rewrite (of_document_same _ _ _ Hp), bool_decide_eq_false_2.
  - intros t. apply add_lines_lookup, (rep_tokens _ _ Hr).
Qed.

Lemma text_remove_files_represents ks i docs :
  represents i docs →
  represents (foldl (λ i k, text_remove_file k i) i ks) (filter (λ e, e.1 ∉ ks) docs).
Proof.
  revert i docs. induction ks as [|k ks IH]; intros i docs Hr; cbn [foldl].
  { rewrite map_filter_id; [done|]. intros. apply not_elem_of_nil. }
  apply (text_remove_file_represents _ _ k), IH in Hr. revert Hr. match goal with |- represents _ ?a → represents _ ?b => replace b with a; [done|] end.
  apply map_eq. intros k'. apply option_eq. intros d. rewrite !map_lookup_filter_Some, lookup_delete_Some. cbn.
  rewrite not_elem_of_cons. naive_solver.
Qed.

Lemma text_remove_repo_represents i docs repo_id :
  represents i docs → represents (text_remove_repo repo_id i) (filter (λ e, e.1.1 ≠ repo_id) docs).
Proof.
  intros Hr. pose proof (text_remove_files_represents
    (filterb (λ k, k.1 ==? repo_id) (fst <$> map_to_list (documents i))) i docs Hr) as Hf.
  revert Hf. unfold text_remove_repo. match goal with |- represents _ ?a → represents _ ?b => replace b with a; [done|] end.
  apply map_filter_ext. intros k d Hk. cbn. rewrite filterb_elem, bool_decide_eq_true, list_elem_of_fmap.
  assert (∃ m, documents i !! k = Some m) as [m Hm] by (rewrite (rep_document_lookup _ _ _ Hr), Hk; by eexists).
  split; [|naive_solver]. intros Hn He. apply Hn. split; [|done]. exists (k, m). by rewrite elem_of_map_to_list.
Qed.

(** ** Refinement *)

Inductive text_op : Type :=
| IndexText (k : string * string) (language content : string)
| RemoveText (k : string * string)
| RemoveRepoText (repo_id : string).

Definition run_text (i : TextSearchIndex) (op : text_op) : TextSearchIndex :=
  match op with
  | IndexText k language content => text_index_file k language content i
  | RemoveText k => text_remove_file k i
  | RemoveRepoText repo_id => text_remove_repo repo_id i
  end.

(** The specification: a map of documents. *)
Definition run_documents (docs : Documents) (op : text_op) : Documents :=
  match op with
  | IndexText k language content => <[k := (language, content)]> docs
  | RemoveText k => delete k docs
  | RemoveRepoText repo_id => filter (λ e, e.1.1 ≠ repo_id) docs
  end.

Lemma run_text_represents i docs op : represents i docs → represents (run_text i op) (run_documents docs op).
Proof.
  intros Hr. destruct op; [by apply text_index_file_represents|by apply text_remove_file_represents|
    by apply text_remove_repo_represents].
Qed.

(** C35: the text index is a map of documents.  After any sequence of indexing, removing a file
    and removing a repository, a document is known exactly when it was indexed last and not
    removed since, with the language and the content it was indexed with last; the number of
    documents is counted exactly; and the postings of a document for a token are one for each
    line of that content the token is on, in the order of the lines, each with the number of
    its occurrences there: nothing of an earlier content or of a removed document is left. *)
Theorem text_index_refines ops :
  let i := foldl run_text TextSearchIndex_new ops in
  let docs := foldl run_documents ∅ ops in
  represents i docs ∧
  (∀ k, dm_language <$> documents i !! k = fst <$> docs !! k) ∧
  ∀ t k p, p ∈ default [] (inverted_index i !! t) → of_document k p = true →
    ∃ language content, docs !! k = Some (language, content) ∧ 0 < tf p ∧
      tf p = Z.of_nat (occurrences (line_number p, t) (tokenize_content content)).
Proof.
  intros i docs. assert (represents i docs) as Hr.
  { subst i docs. induction ops as [|op ops IH] using rev_ind; [by apply new_represents|].
    rewrite !foldl_snoc. by apply run_text_represents. }
  split_and!; [done| |].
  - intros k. rewrite (rep_document_lookup _ _ _ Hr). by destruct (docs !! k).
  - intros t k p Hp Hk. assert (p ∈ filterb (of_document k) (default [] (inverted_index i !! t))) as Hf by (by apply filterb_elem).
    rewrite (rep_postings _ _ Hr) in Hf. destruct (docs !! k) as [[language content]|]; [|by apply elem_of_nil in Hf].
    apply doc_postings_elem in Hf as (_ & Hpos & Htf). eauto.
Qed.

(** ** What a search finds *)

Section TextSearchProps.
Context (ln : f32 → f32) (iter : gmap (string * string) f32 → list ((string * string) * f32)).

(** The hits are those of the postings seen so far that pass the filters. *)
Definition hits_of (h : Hits) (ps : list Posting) : Prop :=
  ∀ k, (is_Some (doc_scores h !! k) ↔ ∃ p, p ∈ ps ∧ of_document k p = true) ∧
       (∀ l, l ∈ default ∅ (doc_lines h !! k) ↔ ∃ p, p ∈ ps ∧ of_document k p = true ∧ line_number p = l).

Lemma hits_of_nil : hits_of (mkHits ∅ ∅) [].
Proof.
  intros k. cbn. rewrite !lookup_empty. split; [|intros l; cbn]; split; set_solver.
Qed.

Lemma hit_posting_hits q i idf h ps p :
  hits_of h ps →
  hits_of (hit_posting q i idf h p) (ps ++ (if passes_filters p q (documents i) then [p] else [])).
Proof.
  intros Hh. unfold hit_posting. destruct (passes_filters p q (documents i)); [|by rewrite app_nil_r].
  intros k. destruct (Hh k) as [Hs Hl]. cbn [doc_scores doc_lines]. setoid_rewrite elem_of_app.
  setoid_rewrite list_elem_of_singleton. set (k0 := (po_repo_id p, po_file_path p)).
  assert (of_document k p = true ↔ k0 = k) as Hp by (unfold of_document; by rewrite bool_decide_eq_true).
  destruct (decide (k0 = k)) as [<-|Hne].
  - rewrite !lookup_insert_eq. cbn [default from_option]. split.
    + split; [intros _; exists p; naive_solver|done].
    + intros l. cbn. rewrite elem_of_union, elem_of_singleton, Hl. naive_solver.
  - rewrite !lookup_insert_ne by done. split.
    + rewrite Hs. naive_solver.
    + intros l. rewrite Hl. naive_solver.
Qed.

Lemma hit_postings_hits q i h ps postings :
  hits_of h ps →
  hits_of (hit_postings ln q i h postings) (ps ++ filterb (λ p, passes_filters p q (documents i)) postings).
Proof.
  unfold hit_postings. generalize (compute_idf ln (doc_count i) (Z.of_nat (length postings))). intros idf.
  revert h ps. induction postings as [|p postings IH]; intros h ps Hh; cbn [foldl]; [by rewrite app_nil_r|].
  apply (hit_posting_hits q i idf h ps p) in Hh. apply IH in Hh. revert Hh. unfold filterb. cbn [List.filter].
  rewrite <-app_assoc. by destruct (passes_filters p q (documents i)).
Qed.

Lemma hit_tokens_hits q i h ps ts :
  hits_of h ps →
  hits_of (foldl (hit_token ln q i) h ts)
    (ps ++ concat ((λ t, filterb (λ p, passes_filters p q (documents i))
      (default [] (inverted_index i !! to_ascii_lowercase t))) <$> ts)).
Proof.
  revert h ps. induction ts as [|t ts IH]; intros h ps Hh; cbn [foldl]; [by rewrite app_nil_r|].
  csimpl. rewrite app_assoc. apply IH. unfold hit_token.
  destruct (inverted_index i !! to_ascii_lowercase t) as [postings|]; [by apply hit_postings_hits|by rewrite app_nil_r].
Qed.

Lemma hit_matchings_hits q i is_match h ps es :
  hits_of h ps →
  hits_of (foldl (hit_matching ln q i is_match) h es)
    (ps ++ concat ((λ e, filterb (λ p, passes_filters p q (documents i)) e.2) <$> filterb (λ e, is_match e.1) es)).
Proof.
  revert h ps. induction es as [|e es IH]; intros h ps Hh; cbn [foldl]; [by rewrite app_nil_r|].
  unfold hit_matching at 2. unfold filterb at 2. cbn [List.filter].
  destruct (is_match e.1); [|by apply IH]. csimpl. rewrite app_assoc. by apply IH, hit_postings_hits.
Qed.

(** ** The answer to a query *)

(** The filters of a query, on a document. *)
Definition admits (q : SearchQuery) (k : string * string) (language : string) : bool :=
  (bool_decide (sq_repo_ids q = []) || bool_decide (k.1 ∈ sq_repo_ids q)) &&
  (bool_decide (sq_languages q = []) || bool_decide (language ∈ sq_languages q)) &&
  (bool_decide (sq_path_patterns q = []) || existsb (λ pattern, glob_match pattern k.2) (sq_path_patterns q)).

(** A document answers a query for some tokens through a line one of them is on. *)
Definition answers (q : SearchQuery) (wanted : string → Prop) (docs : Documents) (k : string * string) (line : Z) : Prop :=
  ∃ language content t, docs !! k = Some (language, content) ∧ admits q k language = true ∧ wanted t ∧
    (line, t) ∈ tokenize_content content.

Lemma passes_filters_admits i docs q k p language content :
  represents i docs → of_document k p = true → docs !! k = Some (language, content) →
  passes_filters p q (documents i) = admits q k language.
Proof.
  intros Hr Hk Hd. unfold of_document in Hk. apply bool_decide_eq_true in Hk. unfold passes_filters, admits.
  rewrite Hk, (rep_document_lookup _ _ _ Hr), Hd. by subst k.
Qed.

Lemma occurrences_elem lt tokens : (0 < occurrences lt tokens)%nat ↔ lt ∈ tokens.
Proof.
  unfold occurrences. split.
  - intros Hc. destruct (filter (.= lt) tokens) as [|x l] eqn:E; [cbn in Hc; lia|].
    assert (x ∈ filter (.= lt) tokens) as Hx by (rewrite E; by left). apply list_elem_of_filter in Hx as [-> Hx]. done.
  - intros Hin. assert (lt ∈ filter (.= lt) tokens) as Hx by (by apply list_elem_of_filter).
    destruct (filter (.= lt) tokens); [by apply elem_of_nil in Hx|cbn; lia].
Qed.

(** The postings of a token that pass the filters are those of the lines that answer. *)
Lemma posting_answers i docs q t k line :
  represents i docs →
  (∃ p, (p ∈ default [] (inverted_index i !! t) ∧ passes_filters p q (documents i) = true) ∧
     of_document k p = true ∧ line_number p = line) ↔ answers q (.= t) docs k line.
Proof.
  intros Hr. pose proof (rep_postings _ _ Hr t k) as Hf. split.
  - intros (p & [Hp Hpass] & Hk & <-). assert (p ∈ filterb (of_document k) (default [] (inverted_index i !! t))) as Hin
      by (by apply filterb_elem). rewrite Hf in Hin. destruct (docs !! k) as [[language content]|] eqn:Hd; [|by apply elem_of_nil in Hin].
    rewrite (passes_filters_admits _ _ _ _ _ _ _ Hr Hk Hd) in Hpass.
    apply doc_postings_elem in Hin as (_ & Hpos & Htf). exists language, content, t. split_and!; [done..|].
    apply occurrences_elem. cbn [snd] in Htf. lia.
  - intros (language & content & t' & Hd & Ha & -> & Hin%occurrences_elem). rewrite Hd in Hf.
    set (p := mkPosting k.1 k.2 line (Z.of_nat (occurrences (line, t) (tokenize_content content)))).
    assert (of_document k p = true) as Hk by (apply bool_decide_eq_true; by destruct k).
    assert (p ∈ doc_postings k content t) as Hp by (apply doc_postings_elem; split_and!; [done|cbn; lia|done]).
    cbn [snd] in Hf. rewrite <-Hf in Hp. apply filterb_elem in Hp as [Hp _].
    exists p. split_and!; [done| |done..]. by rewrite (passes_filters_admits _ _ _ _ _ _ _ Hr Hk Hd).
Qed.

Lemma extreme_spec (f : Z → Z → Z) (R : Z → Z → Prop) s :
  PreOrder R → (∀ x y, (f x y = x ∨ f x y = y) ∧ R (f x y) x ∧ R (f x y) y) →
  match extreme f s with Some m => m ∈ s ∧ ∀ l, l ∈ s → R m l | None => s = ∅ end.
Proof.
  intros HR Hf. unfold extreme. assert (∀ l, l ∈ s ↔ l ∈ elements s) as He by (intros; by rewrite elem_of_elements).
  destruct (foldr _ None (elements s)) as [m|] eqn:Hm.
  - setoid_rewrite He. clear He. revert m Hm. induction (elements s) as [|x l IH]; intros m Hm; [done|]. cbn in Hm.
    destruct (foldr _ None l) as [m'|] eqn:E; simplify_eq.
    + destruct (IH _ eq_refl) as [Hin Hle]. destruct (Hf x m') as ([Hx|Hx] & H1 & H2); rewrite Hx in *.
      all: split; [set_solver|]; intros y [->|Hy]%elem_of_cons; try done; etrans; [|by apply Hle]; done.
    + destruct l; [|done]. split; [by left|]. by intros y ->%list_elem_of_singleton.
  - destruct (elements s) eqn:E; [|done]. by apply elements_empty_inv in E; apply leibniz_equiv in E.
Qed.

Lemma lines_min_spec s : match lines_min s with Some m => m ∈ s ∧ ∀ l, l ∈ s → m <= l | None => s = ∅ end.
Proof. apply (extreme_spec Z.min Z.le); [exact _|]. intros. lia. Qed.
Lemma lines_max_spec s : match lines_max s with Some m => m ∈ s ∧ ∀ l, l ∈ s → l <= m | None => s = ∅ end.
Proof. apply (extreme_spec Z.max (λ x y, y <= x)); [|intros; lia]. split; red; intros; lia. Qed.

(** Items built from hits: one for each document that was hit, over its lines. *)
Definition items_exact (q : SearchQuery) (wanted : string → Prop) (docs : Documents) (items : list SearchResultItem) : Prop :=
  NoDup ((λ it, (it_repo_id it, it_file_path it)) <$> items) ∧
  (∀ k line, answers q wanted docs k line → ∃ it, it ∈ items ∧ (it_repo_id it, it_file_path it) = k) ∧
  ∀ it, it ∈ items → let k := (it_repo_id it, it_file_path it) in
    answers q wanted docs k (it_start_line it) ∧ answers q wanted docs k (it_end_line it) ∧
    ∀ line, answers q wanted docs k line → it_start_line it <= line <= it_end_line it.

Hypothesis iter_perm : ∀ m, iter m ≡ₚ map_to_list m.

Lemma hits_exact q wanted docs h ps :
  hits_of h ps →
  (∀ k line, (∃ p, p ∈ ps ∧ of_document k p = true ∧ line_number p = line) ↔ answers q wanted docs k line) →
  items_exact q wanted docs (build_result_items iter h).
Proof.
  intros Hh Ha. unfold build_result_items. split_and!.
  - assert ((λ it, (it_repo_id it, it_file_path it)) <$> (result_item h <$> iter (doc_scores h)) = (iter (doc_scores h)).*1) as ->.
    { rewrite <-list_fmap_compose. apply list_fmap_ext. by intros _ [[r f] s] _. }
    rewrite iter_perm. apply NoDup_fst_map_to_list.
  - intros k line Hk%Ha. destruct Hk as (p & Hp & Hd & _). destruct (proj2 (proj1 (Hh k))) as [s Hs]; [eauto|].
    exists (result_item h (k, s)). split; [|by destruct k]. apply list_elem_of_fmap_2. by rewrite iter_perm, elem_of_map_to_list.
  - intros it ([[r f] s] & -> & Hin)%list_elem_of_fmap_1. rewrite iter_perm in Hin. apply elem_of_map_to_list in Hin. cbn.
    destruct (Hh (r, f)) as [Hs Hl]. destruct (proj1 Hs) as (p & Hp & Hd); [eauto|].
    assert (line_number p ∈ default ∅ (doc_lines h !! (r, f))) as Hin' by (apply Hl; eauto).
    set (ls := default ∅ (doc_lines h !! (r, f))) in *. setoid_rewrite <-Ha. setoid_rewrite <-Hl.
    pose proof (lines_min_spec ls) as Hmin. pose proof (lines_max_spec ls) as Hmax.
    destruct (lines_min ls) as [mn|]; [|by rewrite Hmin in Hin'; apply elem_of_empty in Hin'].
    destruct (lines_max ls) as [mx|]; [|by rewrite Hmax in Hin'; apply elem_of_empty in Hin'].
    cbn. destruct Hmin, Hmax. naive_solver.
Qed.

(** Tokens are in lower case. *)
Lemma token_lower line t : t ∈ tokenize_line line → to_ascii_lowercase t = t.
Proof.
  destruct (tokens_cover_line line) as (_ & Hf & ->). intros (l & -> & [Hl _]%filterb_elem)%list_elem_of_fmap_1.
  rewrite Forall_forall in Hf. destruct (Hf _ Hl) as [_ Hs]. unfold to_ascii_lowercase. rewrite chars_of_chars. f_equal.
  assert (∀ c, is_ascii_lowercase c = true → char_to_ascii_lowercase c = c) as Hc.
  { intros c. assert (implb (is_ascii_lowercase c) (Ascii.eqb (char_to_ascii_lowercase c) c) = true) as Hb
      by (revert c; apply all_chars; by vm_compute). intros Hl'. rewrite Hl' in Hb. by apply Ascii.eqb_eq. }
  clear Hf Hl. destruct Hs as [Hs|Hs]; induction Hs as [|c l' H1 _ IH]; cbn; try done; f_equal; auto using lower_digit.
Qed.

Lemma answers_mono q (P Q : string → Prop) docs k line :
  (∀ t, P t ↔ Q t) → answers q P docs k line ↔ answers q Q docs k line.
Proof. intros HPQ. unfold answers. by setoid_rewrite HPQ. Qed.

(** The items of a keyword search differ from the built ones in their scores only. *)
Lemma items_exact_scored q wanted docs items f :
  items_exact q wanted docs items → items_exact q wanted docs ((λ it, set_score (f it) it) <$> items).
Proof.
  intros (Hn & Hc & He). split_and!.
  - by rewrite <-list_fmap_compose.
  - intros k line Ha. destruct (Hc _ _ Ha) as (it & Hin & Hk). exists (set_score (f it) it).
    split; [by apply (list_elem_of_fmap_2 (λ it, set_score (f it) it))|done].
  - intros it (it' & -> & Hin)%list_elem_of_fmap_1. exact (He it' Hin).
Qed.

(** What [sort_by] and [truncate] keep. *)
Lemma top_within n (items : list SearchResultItem) :
  top it_score n items ⊆ items ∧ (length items <= n → top it_score n items ≡ₚ items)%nat.
Proof.
  unfold top. split.
  - intros it Hin. apply (sort_by_elem (ranks it_score)). apply elem_of_take in Hin as (j & Hj & _). by eapply list_elem_of_lookup_2.
  - intros Hl. rewrite take_ge by (by rewrite sort_by_length). apply sort_by_perm.
Qed.

Lemma concat_fmap_elem {A B} (f : A → list B) l x : x ∈ concat (f <$> l) ↔ ∃ a, a ∈ l ∧ x ∈ f a.
Proof. induction l as [|a l IH]; cbn; [set_solver|]. rewrite elem_of_app, IH. set_solver. Qed.

(** The hits of a list of tokens, each with its postings. *)
Lemma seen_exact q i docs h (ts : list string) (wanted : string → Prop) :
  represents i docs → (∀ k line t, answers q (.= t) docs k line → wanted t ↔ t ∈ ts) →
  hits_of h (concat ((λ t, filterb (λ p, passes_filters p q (documents i)) (default [] (inverted_index i !! t))) <$> ts)) →
  items_exact q wanted docs (build_result_items iter h).
Proof.
  intros Hr Hts Hh. eapply hits_exact; [exact Hh|]. intros k line. split.
  - intros (p & (t & Ht & Hp%filterb_elem)%concat_fmap_elem & Hk & Hl).
    assert (answers q (.= t) docs k line) as Ha by (apply posting_answers with i; [done|by exists p]).
    pose proof (proj2 (Hts _ _ _ Ha) Ht) as Hw. destruct Ha as (lang & content & t' & ? & ? & -> & ?). by exists lang, content, t.
  - intros (lang & content & t & Hd & Ha & Ht & Hin).
    assert (answers q (.= t) docs k line) as Ht' by (by exists lang, content, t). pose proof (proj1 (Hts _ _ _ Ht') Ht) as Hs.
    apply (posting_answers i) in Ht' as (p & Hp & Hk & Hl); [|done].
    exists p. split; [|done]. apply concat_fmap_elem. exists t. split; [done|]. by apply filterb_elem.
Qed.

(** C36: a keyword search answers exactly the documents with a token of the query.  Whatever
    was indexed and removed before, the items are one for each document that passes the
    filters of the query and has one of its tokens on a line, and each spans from the first
    of those lines to the last; the answer is among these items, and all of them when the
    limit allows. *)
Theorem keyword_search_exact q i docs :
  represents i docs →
  items_exact q (λ t, t ∈ tokenize_query (sq_query q)) docs (keyword_items ln iter q i) ∧
  search_keywords ln iter q i ⊆ keyword_items ln iter q i ∧
  ((length (keyword_items ln iter q i) <= Z.to_nat (sq_max_results q))%nat →
     search_keywords ln iter q i ≡ₚ keyword_items ln iter q i).
Proof.
  intros Hr. pose proof (hit_tokens_hits q i _ _ (tokenize_query (sq_query q)) hits_of_nil) as Hh. cbn [app] in Hh. split.
  - apply items_exact_scored, (seen_exact q i docs _ (tokenize_query (sq_query q))); [done..|]. revert Hh.
    match goal with |- hits_of _ ?a → hits_of _ ?b => replace b with a; [done|] end. f_equal.
    apply list_fmap_ext. intros j t Ht%list_elem_of_lookup_2. rewrite tokenize_query_is_line in Ht.
    by rewrite (token_lower _ _ Ht).
  - unfold search_keywords. destruct (tokenize_query (sq_query q)) eqn:Ht; [|by apply top_within].
    assert (iter ∅ = []) as Hi by (apply Permutation_nil_r; by rewrite iter_perm, map_to_list_empty).
    unfold keyword_items, build_result_items. rewrite Ht. cbn [foldl doc_scores]. by rewrite Hi.
Qed.

(** A regular expression is matched against the tokens.  When the expression is accepted,
    the answer is among the items of the documents that pass the filters and have a token on
    some line that it matches, one for each, and all of them when the limit allows; when it is
    not, the search fails. *)
Theorem regex_search_exact regex tokens_iter q i docs :
  represents i docs → (∀ m : gmap string (list Posting), tokens_iter m ≡ₚ map_to_list m) →
  match regex (regex_pattern (sq_query q)) with
  | Err e => search_regex ln iter regex tokens_iter q i = Err (SearchError ("Invalid regex pattern: " +:+ e))
  | Ok is_match =>
      ∃ items answer, search_regex ln iter regex tokens_iter q i = Ok answer ∧
        items_exact q (λ t, is_match t = true) docs items ∧ answer ⊆ items ∧
        ((length items <= Z.to_nat (sq_max_results q))%nat → answer ≡ₚ items)
  end.
Proof.
  intros Hr Hti. unfold search_regex. destruct (regex _) as [is_match|e]; [|done]. eexists _, _. split; [done|].
  split; [|by apply top_within].
  pose proof (hit_matchings_hits q i is_match _ _ (tokens_iter (inverted_index i)) hits_of_nil) as Hh. cbn [app] in Hh.
  apply (seen_exact q i docs _ (filterb is_match (tokens_iter (inverted_index i)).*1)); [done| |].
  - intros k line t Ha. rewrite filterb_elem. split; [|by intros []]. intros Hm. split; [|done].
    apply (posting_answers i) in Ha as (p & [Hp _] & _); [|done].
    destruct (inverted_index i !! t) as [ps|] eqn:Ht; [|by apply elem_of_nil in Hp].
    apply list_elem_of_fmap. exists (t, ps). by rewrite Hti, elem_of_map_to_list.
  - revert Hh. match goal with |- hits_of _ ?a → hits_of _ ?b => replace b with a; [done|] end. f_equal.
    assert (Forall (λ e, inverted_index i !! e.1 = Some e.2) (tokens_iter (inverted_index i))) as Hf.
    { apply Forall_forall. intros [t ps] Hin. rewrite Hti in Hin. by apply elem_of_map_to_list in Hin. }
    induction Hf as [|[t ps] l Hl _ IH]; [done|]. unfold filterb in *. cbn [fmap list_fmap List.filter fst snd] in *.
    destruct (is_match t); cbn [fmap list_fmap]; rewrite IH; [|done]. cbn in Hl. by rewrite Hl.
Qed.
End TextSearchProps.
