(* ===== verification/Metadata.v ===== *)
(** * Metadata of the indexed repositories

    [uc-engine/src/metadata/postgres.rs] (repositories, index states, symbols and references,
    as the in-memory store keeps them) and the indexer of symbols,
    [uc-engine/src/indexer/ast.rs]; the types of [uc-types/src/index.rs].

    - Parsing a file is tree-sitter's: the parameter [AstParser] answers the symbols and
      references of a text.
    - The statements on a Postgres pool change its tables as the store in memory changes its
      vectors.  The search for symbols differs between the two and is modelled for both, with
      [ILIKE] as a parameter. *)

From Stdlib Require Import String Ascii SpecFloat.
From stdpp Require Import strings.
From S2P Require Import Prelude RustStr Task Merge Memory Search Tokenizer.

(** ** Types *)

Record RepoSpec : Type := mkRepoSpec {
  rp_repo_id : string;
  rp_remote_url : string;
  rp_default_branch : string;
  rp_local_path : option string;
  rp_workspace_id : string
}.

Inductive IndexHealth : Type := IndexHealthy | IndexIndexing | IndexStale | IndexCorrupted.

Record IndexState : Type := mkIndexState {
  ix_repo_id : string;
  last_indexed_sha : string;
  last_indexed_at : Instant;
  last_full_reindex : Instant;
  index_version : Z;
  ix_health : IndexHealth;
  files_count : Z;
  symbols_count : Z;
  chunks_count : Z;
  ix_workspace_id : string
}.

Record SymbolRecord : Type := mkSymbolRecord {
  sr_id : Z;
  sr_repo_id : string;
  sr_file_path : string;
  sr_name : string;
  sr_kind : string;
  sr_start_line : Z;
  sr_start_col : Z;
  sr_end_line : Z;
  sr_end_col : Z;
  sr_parent_symbol_id : option Z;
  sr_language : string;
  sr_content_hash : string
}.

Record ReferenceRecord : Type := mkReferenceRecord {
  rr_id : Z;
  rr_repo_id : string;
  rr_file_path : string;
  rr_source_symbol_id : option Z;
  rr_target_name : string;
  rr_reference_kind : string;
  rr_start_line : Z;
  rr_start_col : Z;
  rr_language : string;
  rr_content_hash : string
}.

Record SymbolInsert : Type := mkSymbolInsert {
  si_file_path : string;
  si_name : string;
  si_kind : SymbolKind;
  si_start_line : Z;
  si_start_col : Z;
  si_end_line : Z;
  si_end_col : Z;
  si_language : string;
  si_content_hash : string
}.

Record SymbolSearchResult : Type := mkSymbolResult {
  ss_repo_id : string;
  ss_file_path : string;
  ss_name : string;
  ss_kind : SymbolKind;
  ss_start_line : Z;
  ss_start_col : Z;
  ss_end_line : Z;
  ss_end_col : Z;
  ss_language : string
}.

Record ReferenceSearchResult : Type := mkReferenceResult {
  rs_repo_id : string;
  rs_file_path : string;
  rs_source_symbol_id : option Z;
  rs_target_name : string;
  rs_reference_kind : string;
  rs_start_line : Z;
  rs_start_col : Z;
  rs_language : string
}.

Record FallbackData : Type := mkMetadataTables {
  md_repos : list RepoSpec;
  index_states : list IndexState;
  md_symbols : list SymbolRecord;
  md_references : list ReferenceRecord
}.
Definition FallbackData_default : FallbackData := mkMetadataTables [] [] [] [].

Definition format_health (h : IndexHealth) : string :=
  match h with
  | IndexHealthy => "healthy" | IndexIndexing => "indexing" | IndexStale => "stale" | IndexCorrupted => "corrupted"
  end.
Definition parse_health (s : string) : IndexHealth :=
  if s ==? "healthy" then IndexHealthy else if s ==? "indexing" then IndexIndexing
  else if s ==? "stale" then IndexStale else if s ==? "corrupted" then IndexCorrupted else IndexHealthy.

(** The stored names are those of [SymbolKind_lower]. *)
Definition symbol_kind_to_str (k : SymbolKind) : string := SymbolKind_lower k.
Definition parse_symbol_kind (s : string) : SymbolKind :=
  if s ==? "function" then KindFunction else if s ==? "method" then KindMethod else if s ==? "class" then KindClass
  else if s ==? "struct" then KindStruct else if s ==? "interface" then KindInterface else if s ==? "trait" then KindTrait
  else if s ==? "enum" then KindEnum else if s ==? "variable" then KindVariable
  else if s ==? "constant" then KindConstant else if s ==? "type" then KindType else if s ==? "module" then KindModule
  else if s ==? "import" then KindImport else KindFunction.

(** [as i32] of a [u32] and back. *)
Definition u32_as_i32 (n : Z) : Z := if n <? 2 ^ 31 then n else n - 2 ^ 32.
Definition i32_as_u32 (n : Z) : Z := n `mod` 2 ^ 32.

(** ** Operations of the store in memory *)

(** The first element that fits is replaced; without one the value is added at the end. *)
Fixpoint put_first {A} (p : A → bool) (a : A) (l : list A) : list A :=
  match l with
  | [] => [a]
  | x :: l => if p x then a :: l else x :: put_first p a l
  end.

Definition register_repo (spec : RepoSpec) (m : FallbackData) : FallbackData :=
  mkMetadataTables (put_first (λ r, rp_repo_id r ==? rp_repo_id spec) spec (md_repos m)) (index_states m) (md_symbols m)
    (md_references m).

Definition get_repo (repo_id : string) (m : FallbackData) : option RepoSpec :=
  List.find (λ r, rp_repo_id r ==? repo_id) (md_repos m).

Definition list_repos (workspace_id : option string) (m : FallbackData) : list RepoSpec :=
  filterb (λ r, match workspace_id with None => true | Some ws => rp_workspace_id r ==? ws end) (md_repos m).

Definition delete_repo (repo_id : string) (m : FallbackData) : FallbackData :=
  mkMetadataTables (filterb (λ r, rp_repo_id r !=? repo_id) (md_repos m))
    (filterb (λ i, ix_repo_id i !=? repo_id) (index_states m)) (filterb (λ s, sr_repo_id s !=? repo_id) (md_symbols m))
    (filterb (λ r, rr_repo_id r !=? repo_id) (md_references m)).

Definition get_index_state (repo_id : string) (m : FallbackData) : option IndexState :=
  List.find (λ i, ix_repo_id i ==? repo_id) (index_states m).

Definition update_index_state (state : IndexState) (m : FallbackData) : FallbackData :=
  mkMetadataTables (md_repos m) (put_first (λ i, ix_repo_id i ==? ix_repo_id state) state (index_states m)) (md_symbols m)
    (md_references m).

Definition symbol_record (repo_id : string) (id : Z) (s : SymbolInsert) : SymbolRecord :=
  mkSymbolRecord id repo_id (si_file_path s) (si_name s) (symbol_kind_to_str (si_kind s)) (u32_as_i32 (si_start_line s))
    (u32_as_i32 (si_start_col s)) (u32_as_i32 (si_end_line s)) (u32_as_i32 (si_end_col s)) None (si_language s)
    (si_content_hash s).

Fixpoint number_symbols (repo_id : string) (id : Z) (l : list SymbolInsert) : list SymbolRecord :=
  match l with
  | [] => []
  | s :: l => symbol_record repo_id id s :: number_symbols repo_id (id + 1) l
  end.

Definition insert_symbols (repo_id : string) (l : list SymbolInsert) (m : FallbackData) : FallbackData :=
  let start_id := match last (md_symbols m) with Some s => sr_id s + 1 | None => 1 end in
  mkMetadataTables (md_repos m) (index_states m) (md_symbols m ++ number_symbols repo_id start_id l) (md_references m).

Definition delete_symbols_for_file (repo_id file_path : string) (m : FallbackData) : FallbackData :=
  mkMetadataTables (md_repos m) (index_states m)
    (filterb (λ s, negb ((sr_repo_id s ==? repo_id) && (sr_file_path s ==? file_path))) (md_symbols m))
    (filterb (λ r, negb ((rr_repo_id r ==? repo_id) && (rr_file_path r ==? file_path))) (md_references m)).

(** The references stay. *)
Definition delete_symbols_for_repo (repo_id : string) (m : FallbackData) : FallbackData :=
  mkMetadataTables (md_repos m) (index_states m) (filterb (λ s, sr_repo_id s !=? repo_id) (md_symbols m))
    (md_references m).

Definition symbol_result (s : SymbolRecord) : SymbolSearchResult :=
  mkSymbolResult (sr_repo_id s) (sr_file_path s) (sr_name s) (parse_symbol_kind (sr_kind s)) (i32_as_u32 (sr_start_line s))
    (i32_as_u32 (sr_start_col s)) (i32_as_u32 (sr_end_line s)) (i32_as_u32 (sr_end_col s)) (sr_language s).

Definition contains_lower (s pattern : string) : bool :=
  match find_sub (to_lowercase pattern) (to_lowercase s) with Some _ => true | None => false end.

Definition search_symbols (name : string) (repo_id : option string) (kind : option SymbolKind) (limit : Z)
    (m : FallbackData) : list SymbolSearchResult :=
  symbol_result <$> take (Z.to_nat limit) (filterb (λ s,
    contains_lower (sr_name s) name &&
    match repo_id with None => true | Some rid => sr_repo_id s ==? rid end &&
    match kind with None => true | Some k => sr_kind s ==? symbol_kind_to_str k end) (md_symbols m)).

(** The three statements of the pool, over the same rows in the order the server gives them. *)
Definition pg_search_symbols (ilike : string → string → bool) (name : string) (repo_id : option string)
    (kind : option SymbolKind) (limit : Z) (m : FallbackData) : list SymbolSearchResult :=
  let pattern := "%" +:+ name +:+ "%" in
  symbol_result <$> take (Z.to_nat limit) (filterb (λ s,
    match repo_id, kind with
    | Some rid, Some k => ilike (sr_name s) pattern && (sr_repo_id s ==? rid) && (sr_kind s ==? symbol_kind_to_str k)
    | Some rid, None => ilike (sr_name s) pattern && (sr_repo_id s ==? rid)
    | None, _ => ilike (sr_name s) pattern
    end) (md_symbols m)).

Definition search_references (target_name : string) (repo_id : option string) (limit : Z) (m : FallbackData)
    : list ReferenceSearchResult :=
  (λ r, mkReferenceResult (rr_repo_id r) (rr_file_path r) (rr_source_symbol_id r) (rr_target_name r) (rr_reference_kind r)
          (i32_as_u32 (rr_start_line r)) (i32_as_u32 (rr_start_col r)) (rr_language r)) <$>
  take (Z.to_nat limit) (filterb (λ r,
    (rr_target_name r ==? target_name) && match repo_id with None => true | Some rid => rr_repo_id r ==? rid end)
    (md_references m)).

(** ** The indexer of symbols *)

Record ExtractedReference : Type := mkExtractedReference {
  er_target_name : string;
  er_reference_kind : string;
  er_start_line : Z;
  er_start_col : Z;
  er_source_symbol : option string
}.

Record AstParseResult : Type := mkParseResult {
  ar_file_path : string;
  ar_language : string;
  ar_symbols : list ExtractedSymbol;
  ar_references : list ExtractedReference
}.

(** tree-sitter with the extraction of a language's symbols and references. *)
Class AstParser := {
  parse_tree : string → string → result (list ExtractedSymbol * list ExtractedReference) EngineError
}.

Definition supports_language (language : string) : bool := (language ==? "rust") || (language ==? "python").

Definition ast_parse_file `{AstParser} (file_path content language : string) : result AstParseResult EngineError :=
  if supports_language language then
    let? found := parse_tree language content in
    Ok (mkParseResult file_path language found.1 found.2)
  else Ok (mkParseResult file_path language [] []).

Definition symbol_insert (file_path language content_hash : string) (s : ExtractedSymbol) : SymbolInsert :=
  mkSymbolInsert file_path (sy_name s) (sy_kind s) (sy_start_line s) (sy_start_col s) (sy_end_line s) (sy_end_col s)
    language content_hash.

Definition ast_index_file `{AstParser} (repo_id file_path content language content_hash : string) (m : FallbackData)
    : result AstParseResult EngineError * FallbackData :=
  match ast_parse_file file_path content language with
  | Err e => (Err e, m)
  | Ok r =>
      match symbol_insert file_path language content_hash <$> ar_symbols r with
      | [] => (Ok r, m)
      | inserts => (Ok r, insert_symbols repo_id inserts m)
      end
  end.

Definition should_parse (file_path : string) : bool :=
  match detect_language file_path with Some lang => supports_language lang | None => false end.

(** [1.0], [0.9], [0.85], [0.8] and [0.7] as [f32]. *)
Definition score_1_0 : f32 := S754_finite false 8388608 (-23).
Definition score_0_9 : f32 := S754_finite false 15099494 (-24).
Definition score_0_85 : f32 := S754_finite false 14260634 (-24).
Definition score_0_8 : f32 := S754_finite false 13421773 (-24).
Definition score_0_7 : f32 := S754_finite false 11744051 (-24).

Definition symbol_item (score : f32) (kind : option string) (s : SymbolSearchResult) : SearchResultItem :=
  mkItem (ss_repo_id s) (ss_file_path s) (ss_start_line s) (ss_end_line s) "" ModeAst score (Some (ss_name s))
    (Some (default (SymbolKind_lower (ss_kind s)) kind)) None.
Definition reference_item (score : f32) (kind : option string) (r : ReferenceSearchResult) : SearchResultItem :=
  mkItem (rs_repo_id r) (rs_file_path r) (rs_start_line r) (rs_start_line r) "" ModeAst score (Some (rs_target_name r))
    (Some (default (rs_reference_kind r) kind)) None.

(** [AstIndexer::search], over the searches of a store. *)
Definition ast_query_search
    (symbols : string → option string → option SymbolKind → Z → list SymbolSearchResult)
    (references : string → option string → Z → list ReferenceSearchResult)
    (q : AstQuery) (max_results : Z) : list SearchResultItem :=
  match q with
  | SymbolSearch name kind => symbol_item score_1_0 None <$> symbols name None kind max_results
  | References symbol_name repo_id => reference_item score_0_9 None <$> references symbol_name repo_id max_results
  | CallChain function_name =>
      reference_item score_0_85 (Some "call") <$>
        filterb (λ r, rs_reference_kind r ==? "call") (references function_name None max_results)
  | Implementations interface_name => symbol_item score_0_8 None <$> symbols interface_name None None max_results
  | Imports repo_id => symbol_item score_0_7 (Some "import") <$> symbols "import" (Some repo_id) (Some KindImport) max_results
  end.

Definition AstIndexer_search (m : FallbackData) : AstQuery → Z → list SearchResultItem :=
  ast_query_search (λ name repo kind limit, search_symbols name repo kind limit m)
    (λ name repo limit, search_references name repo limit m).

(** ** What the store keeps *)

Lemma kind_reads_back k : parse_symbol_kind (symbol_kind_to_str k) = k.
Proof. by destruct k. Qed.

Lemma health_reads_back h : parse_health (format_health h) = h.
Proof. by destruct h. Qed.

Lemma line_reads_back n : 0 <= n < 2 ^ 32 → i32_as_u32 (u32_as_i32 n) = n.
Proof.
  intros Hn. unfold i32_as_u32, u32_as_i32. destruct (n <? 2 ^ 31); [by apply Z.mod_small|].
  replace (n - 2 ^ 32) with (n + (-1) * 2 ^ 32) by lia. rewrite Z_mod_plus_full. by apply Z.mod_small.
Qed.

Lemma find_put_first {A} (p : A → bool) a l : p a = true → List.find p (put_first p a l) = Some a.
Proof. intros Hp. induction l as [|x l IH]; cbn; [by rewrite Hp|]. destruct (p x) eqn:Hx; cbn; by rewrite ?Hp, ?Hx. Qed.

Lemma find_put_first_ne {A} (p q : A → bool) a l :
  q a = false → (∀ x, p x = true → q x = false) → List.find q (put_first p a l) = List.find q l.
Proof.
  intros Ha Hpq. induction l as [|x l IH]; cbn; [by rewrite Ha|]. destruct (p x) eqn:Hx; cbn.
  - by rewrite Ha, (Hpq x Hx).
  - by rewrite IH.
Qed.

(** An index state is read back as it was written last; others are not touched. *)
Lemma index_state_reads_back s m :
  get_index_state (ix_repo_id s) (update_index_state s m) = Some s ∧
  ∀ r, r ≠ ix_repo_id s → get_index_state r (update_index_state s m) = get_index_state r m.
Proof.
  unfold get_index_state, update_index_state. cbn [index_states]. split.
  - apply find_put_first. by apply bool_decide_eq_true_2.
  - intros r Hr. apply find_put_first_ne; [by apply bool_decide_eq_false_2|].
    intros x Hx%bool_decide_eq_true. apply bool_decide_eq_false_2. congruence.
Qed.

Lemma number_symbols_elem repo id l s : s ∈ l → ∃ i, symbol_record repo i s ∈ number_symbols repo id l.
Proof.
  revert id. induction l as [|x l IH]; intros id Hin; [by apply elem_of_nil in Hin|].
  apply elem_of_cons in Hin as [->|Hin]; [exists id; by left|]. destruct (IH (id + 1) Hin) as [i Hi]. exists i. by right.
Qed.

Lemma contains_lower_self s : contains_lower s s = true.
Proof.
  unfold contains_lower. destruct (find_sub_first (to_lowercase s) [] []) as (b & a & x & Hf & _).
  rewrite app_nil_r, app_nil_l in Hf. by rewrite Hf.
Qed.

(** An indexed symbol is found under its name.  After a file is indexed, a search for the
    name of any of its symbols in its repository, with the limit at least the number of
    stored symbols, answers that symbol with its file, its kind and its lines and columns as
    they were extracted. *)
Theorem indexed_symbol_is_found `{AstParser} repo path content language hash m r m' s limit :
  ast_index_file repo path content language hash m = (Ok r, m') → s ∈ ar_symbols r →
  Forall (λ n, 0 <= n < 2 ^ 32) [sy_start_line s; sy_start_col s; sy_end_line s; sy_end_col s] →
  Z.of_nat (length (md_symbols m')) <= limit →
  mkSymbolResult repo path (sy_name s) (sy_kind s) (sy_start_line s) (sy_start_col s) (sy_end_line s) (sy_end_col s) language
    ∈ search_symbols (sy_name s) (Some repo) (Some (sy_kind s)) limit m'.
Proof.
  unfold ast_index_file. intros Hi Hs Hn Hl. destruct (ast_parse_file path content language) as [r'|]; [|done].
  assert (r' = r ∧ m' = insert_symbols repo (symbol_insert path language hash <$> ar_symbols r) m) as [-> ->].
  { destruct (ar_symbols r') eqn:E; cbn in Hi; simplify_eq; rewrite E in *; [by apply elem_of_nil in Hs|done]. }
  destruct (number_symbols_elem repo (match last (md_symbols m) with Some s => sr_id s + 1 | None => 1 end)
    (symbol_insert path language hash <$> ar_symbols r) (symbol_insert path language hash s)) as [i Hin];
    [by apply list_elem_of_fmap_2|].
  apply Forall_cons in Hn as [H1 Hn]. apply Forall_cons in Hn as [H2 Hn]. apply Forall_cons in Hn as [H3 Hn].
  apply Forall_cons in Hn as [H4 _].
  unfold search_symbols. rewrite take_ge by (etrans; [apply filterb_length|]; lia). apply list_elem_of_fmap.
  exists (symbol_record repo i (symbol_insert path language hash s)). split.
  - unfold symbol_result, symbol_record, symbol_insert. cbn. by rewrite kind_reads_back, !line_reads_back.
  - apply filterb_elem. split; [apply elem_of_app; by right|]. cbn.
    rewrite contains_lower_self, !bool_decide_eq_true_2 by done. done.
Qed.

(** ** Runs *)

Definition sample_symbol : ExtractedSymbol := mkSymbol "Parser" KindStruct 3 0 9 1 None "struct Parser".
#[local] Instance sample_parser : AstParser :=
  {| parse_tree _ _ := Ok ([sample_symbol], [mkExtractedReference "Parser" "call" 12 4 None]) |}.
Definition sample_tables : FallbackData := (ast_index_file "r" "a.rs" "struct Parser" "rust" "h" FallbackData_default).2.

Lemma indexed_symbol_is_found_witness :
  mkSymbolResult "r" "a.rs" "Parser" KindStruct 3 0 9 1 "rust"
    ∈ search_symbols "Parser" (Some "r"%string) (Some KindStruct) 20 sample_tables.
Proof.
  apply (indexed_symbol_is_found "r" "a.rs" "struct Parser" "rust" "h" FallbackData_default
    (mkParseResult "a.rs" "rust" [sample_symbol] [mkExtractedReference "Parser" "call" 12 4 None]) sample_tables sample_symbol 20).
  - reflexivity.
  - by left.
  - repeat constructor; cbn; lia.
  - vm_compute. discriminate.
Defined.

(** The pool drops the kind of a search in all repositories: it answers a struct where the
    store in memory, asked for functions, answers nothing. *)
Lemma pool_ignores_kind :
  ss_kind <$> pg_search_symbols (λ _ _, true) "Parser" None (Some KindFunction) 20 sample_tables = [KindStruct] ∧
  search_symbols "Parser" None (Some KindFunction) 20 sample_tables = [].
Proof. by vm_compute. Qed.

(** Indexing a file stores none of the references it extracts. *)
Theorem references_are_not_stored `{AstParser} repo path content language hash m :
  md_references (ast_index_file repo path content language hash m).2 = md_references m.
Proof.
  unfold ast_index_file. destruct (ast_parse_file path content language) as [r|]; [|done].
  by destruct (symbol_insert path language hash <$> ar_symbols r).
Qed.
