(* ===== verification/IndexPipeline.v ===== *)
(** * The indexing pipeline

    [IndexPipeline] of [uc-engine/src/indexer/mod.rs]: a repository is indexed from its
    files, in full or from the difference between two commits, into the text index, the
    symbols and the embeddings.

    - The files of a repository are a tree ([FsNode]) read as one snapshot; a symbolic link is
      [FsOther] and is not followed.  git2 and the checks on paths are parameters
      ([GitRepos]) of [RepoManager]'s operations ([git/repo_manager.rs]); so are the digests
      of Search.v and the parser of Metadata.v.
    - The semantic index is the interface [SemanticIndex]; [semantic_index] is its instance
      over the long-term memory and the embeddings kept aside (Search.v).
    - Text, symbols and embeddings of one content are indexed by the same lines in
      [index_directory], [index_single_file] and [reindex_file_content]: [index_content].
    - The counters of files, symbols and chunks do not reach the end of [u32]. *)

From Stdlib Require Import String Ascii SpecFloat.
From stdpp Require Import gmap strings.
From S2P Require Import Prelude RustStr Task Merge GatewayEvents Ranking Memory Sandbox FileTracker Search Tokenizer TextIndex Metadata.

(** ** Files *)

Inductive FsNode : Type :=
| FsFile (content : option string)      (** a file; [None] is not UTF-8 or cannot be read *)
| FsDir (entries : list (string * FsNode))
| FsUnreadableDir (e : string)
| FsOther
| FsNoMetadata (e : string)
| FsBadEntry (e : string).

Definition skipped_name (name : string) : bool :=
  has_prefix ["."]%char (chars name) || existsb (String.eqb name) ["target"; "node_modules"; "__pycache__"].

Definition join_path (rel : list string) : string := join "/" rel.

(** [walk_dir_recursive]: the paths relative to the base, in the order they are pushed. *)
Fixpoint walk_dir_recursive (rel : list string) (dir : FsNode) : result (list string) EngineError :=
  match dir with
  | FsUnreadableDir e => Err (IndexingError ("Failed to read directory: " +:+ e))
  | FsDir entries =>
      (fix go (entries : list (string * FsNode)) : result (list string) EngineError :=
         match entries with
         | [] => Ok []
         | (name, node) :: entries =>
             match node with
             | FsBadEntry e => Err (IndexingError ("Dir entry error: " +:+ e))
             | _ =>
                 if skipped_name name then go entries
                 else
                   match node with
                   | FsNoMetadata e => Err (IndexingError ("Metadata error: " +:+ e))
                   | FsDir _ | FsUnreadableDir _ =>
                       let? below := walk_dir_recursive (rel ++ [name]) node in
                       let? rest := go entries in
                       Ok (below ++ rest)
                   | FsFile _ =>
                       let? rest := go entries in
                       Ok (join_path (rel ++ [name]) :: rest)
                   | _ => go entries
                   end
             end
         end) entries
  | _ => Err (IndexingError "Failed to read directory: not a directory")
  end.
Definition walk_directory (dir : FsNode) : result (list string) EngineError := walk_dir_recursive [] dir.

(** [read_to_string(base.join(path))]. *)
Fixpoint read_at (node : FsNode) (path : list string) : option string :=
  match path, node with
  | [], FsFile content => content
  | name :: path, FsDir entries =>
      match List.find (λ e, e.1 ==? name) entries with Some e => read_at e.2 path | None => None end
  | _, _ => None
  end.
Definition read_to_string (dir : FsNode) (path : string) : option string :=
  read_at dir (of_chars <$> split_char "/" (chars path)).

(** ** The pipeline *)

Record IndexResponse : Type := mkIndexResponse {
  ip_repo_id : string;
  files_indexed : Z;
  symbols_extracted : Z;
  chunks_embedded : Z;
  ip_duration_ms : Z
}.

Inductive DiffKind : Type := DiffAdded | DiffModified | DiffDeleted | DiffRenamed.
Record RepoFileDiff : Type := mkRepoDiff { rd_path : string; rd_kind : DiffKind }.

(** git2 and the file system.  A repository is named by its path; an error is its text. *)
Inductive GitDelta : Type :=
| DeltaAdded | DeltaDeleted | DeltaModified | DeltaRenamed
| DeltaUnmodified | DeltaCopied | DeltaIgnored | DeltaUntracked | DeltaTypechange | DeltaUnreadable | DeltaConflicted.
Record TreeDelta : Type := mkDelta {
  delta_status : GitDelta;
  delta_new_path : option string;
  delta_old_path : option string
}.

Class GitRepos := {
  clone_base_dir : string;
  path_exists : string → bool;
  (** [create_dir_all] of the parent, where there is one. *)
  create_parent : string → result unit string;
  git_open : string → result unit string;
  git_clone : string → string → result unit string;
  git_head : string → result string string;
  peel_to_commit : string → string → result string string;
  oid_from_str : string → result string string;
  find_commit : string → string → result string string;
  merge_base : string → string → string → result string string;
  commit_tree : string → string → result string string;
  diff_tree_to_tree : string → string → string → result (list TreeDelta) string
}.

Definition git_failed {A} (what : string) (r : result A string) : result A EngineError :=
  map_err (λ e, IndexingError (what +:+ ": " +:+ e)) r.

(** [Path::join]. *)
Definition path_join (base path : string) : string :=
  if starts_with path "/" then path
  else if (base ==? "") || bool_decide (last (chars base) = Some "/"%char) then base +:+ path
  else base +:+ "/" +:+ path.

Section RepoManager.
Context `{GitRepos}.

Definition repo_path (repo_id : string) : string := path_join clone_base_dir repo_id.

Definition repo_location (spec : RepoSpec) : string :=
  default (repo_path (rp_repo_id spec)) (rp_local_path spec).

Definition clone_or_open (spec : RepoSpec) : result unit EngineError :=
  let local_path := repo_location spec in
  if path_exists local_path && path_exists (path_join local_path ".git")
  then git_failed "Failed to open repo" (git_open local_path)
  else
    let? made := git_failed "Failed to create directory" (create_parent local_path) in
    git_failed "Failed to clone repo" (git_clone (rp_remote_url spec) local_path).

Definition head_sha (spec : RepoSpec) : result string EngineError :=
  let repo := repo_location spec in
  let? head := git_failed "Failed to get HEAD" (git_head repo) in
  git_failed "Failed to peel HEAD to commit" (peel_to_commit repo head).

Definition delta_kind (d : GitDelta) : option DiffKind :=
  match d with
  | DeltaAdded => Some DiffAdded
  | DeltaDeleted => Some DiffDeleted
  | DeltaModified => Some DiffModified
  | DeltaRenamed => Some DiffRenamed
  | _ => None
  end.

Definition file_diff (d : TreeDelta) : option RepoFileDiff :=
  kind ← delta_kind (delta_status d);
  Some (mkRepoDiff (default "" (or_else (delta_new_path d) (delta_old_path d))) kind).

(** Of commits the first of which is no ancestor of the second, no difference. *)
Definition diff_between (spec : RepoSpec) (old_sha new_sha : string) : result (list RepoFileDiff) EngineError :=
  let repo := repo_location spec in
  if old_sha ==? "" then Ok []
  else
    let? old_oid := git_failed ("Invalid old SHA '" +:+ old_sha +:+ "'") (oid_from_str old_sha) in
    let? new_oid := git_failed ("Invalid new SHA '" +:+ new_sha +:+ "'") (oid_from_str new_sha) in
    let? old_commit := git_failed "Old commit not found" (find_commit repo old_oid) in
    let? new_commit := git_failed "New commit not found" (find_commit repo new_oid) in
    if match merge_base repo old_oid new_oid with Ok base => negb (base ==? old_oid) | Err _ => true end then Ok []
    else
      let? old_tree := git_failed "Failed to get old tree" (commit_tree repo old_commit) in
      let? new_tree := git_failed "Failed to get new tree" (commit_tree repo new_commit) in
      let? deltas := git_failed "Failed to compute diff" (diff_tree_to_tree repo old_tree new_tree) in
      Ok (omap file_diff deltas).
End RepoManager.

(** [map_err(|e| IndexingError(format!(...)))]. *)
Definition indexing_failed {A} (what : string) (r : result A EngineError) : result A EngineError :=
  match r with Ok a => Ok a | Err e => Err (IndexingError (what +:+ ": " +:+ EngineError_display e)) end.

(** What the pipeline asks of the semantic indexer and its memory. *)
Class SemanticIndex (Sem : Type) := {
  sem_index_chunks : list CodeChunk → Sem → result Z EngineError * Sem;
  sem_remove_file : string → string → Sem → Sem;
  sem_remove_repo : string → Sem → Sem
}.

Record Pipeline (Sem : Type) : Type := mkPipeline {
  text_index : TextSearchIndex;
  pl_metadata : FallbackData;
  pl_semantic : option Sem
}.
Arguments mkPipeline {Sem}.
Arguments text_index {Sem}.
Arguments pl_metadata {Sem}.
Arguments pl_semantic {Sem}.

Definition IndexPipeline_new {Sem} : Pipeline Sem := mkPipeline TextSearchIndex_new FallbackData_default None.

Definition CURRENT_INDEX_VERSION : Z := 1.

Section Pipeline.
Context {Sem : Type} `{SemanticIndex Sem, AstParser, ChunkDigest, GitRepos}.
(** The tree at a local path, when it exists. *)
Context (files : string → option FsNode).

(** A call: its outcome and the pipeline it leaves. *)
Definition pcall (A : Type) : Type := Pipeline Sem → result A EngineError * Pipeline Sem.
Definition return_ {A} (a : A) : pcall A := λ p, (Ok a, p).
Definition fail_ {A} (e : EngineError) : pcall A := λ p, (Err e, p).
Definition and_then {A B} (m : pcall A) (k : A → pcall B) : pcall B :=
  λ p, match m p with (Ok a, p) => k a p | (Err e, p) => (Err e, p) end.
Definition lift {A} (r : result A EngineError) : pcall A := λ p, (r, p).
Notation "'try' x ':=' m ';;' k" := (and_then m (λ x, k)) (at level 100, x name, m at level 99, right associativity).

Definition with_text (f : TextSearchIndex → TextSearchIndex) : pcall unit :=
  λ p, (Ok tt, mkPipeline (f (text_index p)) (pl_metadata p) (pl_semantic p)).
Definition with_metadata (f : FallbackData → FallbackData) : pcall unit :=
  λ p, (Ok tt, mkPipeline (text_index p) (f (pl_metadata p)) (pl_semantic p)).
Definition with_semantic (f : Sem → Sem) : pcall unit :=
  λ p, (Ok tt, mkPipeline (text_index p) (pl_metadata p) (f <$> pl_semantic p)).

Definition index_symbols (repo_id file_path content language hash : string) : pcall AstParseResult :=
  λ p, let '(r, m) := ast_index_file repo_id file_path content language hash (pl_metadata p) in
       (r, mkPipeline (text_index p) m (pl_semantic p)).

(** Without a semantic indexer, or without a chunk, nothing is embedded. *)
Definition embed_chunks_of (chunks : list CodeChunk) : pcall Z :=
  λ p, match pl_semantic p, chunks with
       | Some sem, _ :: _ =>
           let '(r, sem) := sem_index_chunks chunks sem in (r, mkPipeline (text_index p) (pl_metadata p) (Some sem))
       | _, _ => (Ok 0, p)
       end.

Definition lang_of (file_path : string) : string := default "unknown" (detect_language file_path).

(** Text, then the symbols of a supported language, then its chunks: how many symbols and chunks. *)
Definition index_content (repo_id file_path content : string) : pcall (Z * Z) :=
  try ok := with_text (text_index_file (repo_id, file_path) (lang_of file_path) content) ;;
  if should_parse file_path then
    let hash := blake3_hex (utf8_bytes content) in
    try r := index_symbols repo_id file_path content (lang_of file_path) hash ;;
    try chunks := embed_chunks_of (create_chunks_from_ast repo_id file_path (lang_of file_path) content hash (ar_symbols r)) ;;
    return_ (Z.of_nat (length (ar_symbols r)), chunks)
  else return_ (0, 0).

Definition remove_file_from_index (repo_id file_path : string) : pcall unit :=
  try ok := with_text (text_remove_file (repo_id, file_path)) ;;
  try ok := with_metadata (delete_symbols_for_file repo_id file_path) ;;
  with_semantic (sem_remove_file repo_id file_path).

Definition index_single_file (repo_id : string) (base_dir : FsNode) (file_path : string) : pcall IndexResponse :=
  match read_to_string base_dir file_path with
  | None => return_ (mkIndexResponse repo_id 0 0 0 0)
  | Some content =>
      try ok := remove_file_from_index repo_id file_path ;;
      try counts := index_content repo_id file_path content ;;
      return_ (mkIndexResponse repo_id 1 counts.1 counts.2 0)
  end.

(** The loop over the entries, with the counts so far. *)
Fixpoint index_entries (repo_id : string) (dir : FsNode) (entries : list string) (n s c : Z) : pcall IndexResponse :=
  match entries with
  | [] => return_ (mkIndexResponse repo_id n s c 0)
  | file_path :: entries =>
      match read_to_string dir file_path with
      | None => index_entries repo_id dir entries n s c
      | Some content =>
          try counts := index_content repo_id file_path content ;;
          index_entries repo_id dir entries (n + 1) (s + counts.1) (c + counts.2)
      end
  end.

Definition index_directory (repo_id : string) (dir : FsNode) : pcall IndexResponse :=
  try entries := lift (walk_directory dir) ;;
  index_entries repo_id dir entries 0 0 0.

Definition get_head_sha (spec : RepoSpec) : result string EngineError :=
  match rp_local_path spec with
  | None => Err (IndexingError "local path required for HEAD SHA")
  | Some _ =>
      let? opened := indexing_failed "failed to open repo" (clone_or_open spec) in
      indexing_failed "failed to get HEAD SHA" (head_sha spec)
  end.

Definition compute_diff (spec : RepoSpec) (old_sha new_sha : string) : result (list RepoFileDiff) EngineError :=
  match rp_local_path spec with
  | None => Err (IndexingError "local path required for diff computation")
  | Some _ =>
      let? opened := indexing_failed "failed to open repo" (clone_or_open spec) in
      indexing_failed "failed to compute diff" (diff_between spec old_sha new_sha)
  end.

(** [clk] are the readings of the clock, in order. *)
Definition full_index (clk : nat → Instant) (spec : RepoSpec) : pcall IndexResponse :=
  let repo_id := rp_repo_id spec in
  let state now sha health n s c :=
    mkIndexState repo_id sha now now CURRENT_INDEX_VERSION health n s c (rp_workspace_id spec) in
  try ok := with_metadata (update_index_state (state (clk 0%nat) "" IndexIndexing 0 0 0)) ;;
  try r := (match rp_local_path spec ≫= files with
            | Some dir =>
                try ok := with_text (text_remove_repo repo_id) ;;
                try ok := with_metadata (delete_symbols_for_repo repo_id) ;;
                try ok := with_semantic (sem_remove_repo repo_id) ;;
                index_directory repo_id dir
            | None => return_ (mkIndexResponse repo_id 0 0 0 0)
            end) ;;
  let head := match get_head_sha spec with Ok sha => sha | Err _ => "" end in
  try ok := with_metadata (update_index_state
    (state (clk 1%nat) head IndexHealthy (files_indexed r) (symbols_extracted r) (chunks_embedded r))) ;;
  return_ (mkIndexResponse repo_id (files_indexed r) (symbols_extracted r) (chunks_embedded r) 0).

(** The loop over the changed files. *)
Fixpoint index_diffs (repo_id : string) (dir : FsNode) (diffs : list RepoFileDiff) (n s c : Z) : pcall IndexResponse :=
  match diffs with
  | [] => return_ (mkIndexResponse repo_id n s c 0)
  | d :: diffs =>
      match rd_kind d with
      | DiffDeleted =>
          try ok := remove_file_from_index repo_id (rd_path d) ;;
          index_diffs repo_id dir diffs n s c
      | DiffAdded | DiffModified | DiffRenamed =>
          try r := index_single_file repo_id dir (rd_path d) ;;
          index_diffs repo_id dir diffs (n + files_indexed r) (s + symbols_extracted r) (c + chunks_embedded r)
      end
  end.

Definition incremental_index (clk : nat → Instant) (spec : RepoSpec) (existing : IndexState) : pcall IndexResponse :=
  let repo_id := rp_repo_id spec in
  match rp_local_path spec with
  | None => fail_ (IndexingError "incremental indexing requires a local path")
  | Some local_path =>
      match files local_path with
      | None => fail_ (IndexingError ("path not found: " +:+ local_path))
      | Some dir =>
          try head := lift (get_head_sha spec) ;;
          if head ==? last_indexed_sha existing then return_ (mkIndexResponse repo_id 0 0 0 0)
          else
            try diffs := lift (compute_diff spec (last_indexed_sha existing) head) ;;
            if bool_decide (diffs = []) && (last_indexed_sha existing !=? "") then full_index clk spec
            else
              try ok := with_metadata (update_index_state
                (mkIndexState repo_id (last_indexed_sha existing) (clk 0%nat) (last_full_reindex existing)
                   (index_version existing) IndexIndexing (files_count existing) (symbols_count existing)
                   (chunks_count existing) (rp_workspace_id spec))) ;;
              try r := index_diffs repo_id dir diffs 0 0 0 ;;
              try ok := with_metadata (update_index_state
                (mkIndexState repo_id head (clk 1%nat) (last_full_reindex existing) CURRENT_INDEX_VERSION IndexHealthy
                   (files_count existing + files_indexed r) (symbols_count existing + symbols_extracted r)
                   (chunks_count existing + chunks_embedded r) (rp_workspace_id spec))) ;;
              return_ r
      end
  end.

Definition index_repo (clk : nat → Instant) (elapsed : Z) (spec : RepoSpec) (force_full : bool) : pcall IndexResponse :=
  try ok := with_metadata (register_repo spec) ;;
  λ p,
    (try r := (match get_index_state (rp_repo_id spec) (pl_metadata p) with
               | Some existing => if force_full then full_index clk spec else incremental_index clk spec existing
               | None => full_index clk spec
               end) ;;
     return_ (mkIndexResponse (rp_repo_id spec) (files_indexed r) (symbols_extracted r) (chunks_embedded r) elapsed)) p.

(** A content a worker announced. *)
Definition reindex_file_content (repo_id file_path content : string) : pcall IndexResponse :=
  try ok := remove_file_from_index repo_id file_path ;;
  try counts := index_content repo_id file_path content ;;
  return_ (mkIndexResponse repo_id 1 counts.1 counts.2 0).

Definition remove_index (repo_id : string) : pcall unit :=
  try ok := with_text (text_remove_repo repo_id) ;;
  try ok := with_semantic (sem_remove_repo repo_id) ;;
  with_metadata (delete_repo repo_id).

(** After a restart: the text of every registered repository, from its files. *)
Definition restore_file (repo_id : string) (dir : FsNode) (s : Z * TextSearchIndex) (file_path : string) : Z * TextSearchIndex :=
  match read_to_string dir file_path with
  | None => s
  | Some content => (s.1 + 1, text_index_file (repo_id, file_path) (lang_of file_path) content s.2)
  end.
Definition restore_repo (s : Z * TextSearchIndex) (repo : RepoSpec) : Z * TextSearchIndex :=
  match rp_local_path repo ≫= files with
  | None => s
  | Some dir =>
      match walk_directory dir with
      | Err _ => s
      | Ok entries => foldl (restore_file (rp_repo_id repo) dir) s entries
      end
  end.
Definition restore_text_index : pcall Z :=
  λ p, let '(total, i) := foldl restore_repo (0, text_index p) (list_repos None (pl_metadata p)) in
       (Ok total, mkPipeline i (pl_metadata p) (pl_semantic p)).
End Pipeline.
Arguments pcall : clear implicits.

(** The semantic indexer over the long-term memory and the embeddings kept aside. *)
Definition semantic_index {Q : Type} `{VectorDb Q, ContentJson, Rfc3339, Blake3}
  (embed_batch : list string → result (list (list f32)) EngineError) (now : Instant)
  : SemanticIndex (LongTermMemory Q * list FallbackCode) := {|
  sem_index_chunks chunks s := let '(r, lt, fb) := index_chunks embed_batch now chunks s.1 s.2 in (r, (lt, fb));
  sem_remove_file repo_id file_path s := (s.1, semantic_remove_file repo_id file_path s.2);
  sem_remove_repo repo_id s := (s.1, semantic_remove_repo repo_id s.2)
|}.

(** What the searches of Search.v ask of a pipeline: [search_text], and [AstIndexer::search]
    over its metadata. *)
Definition pipeline_search {Sem : Type} (ln : f32 → f32) (iter : gmap (string * string) f32 → list ((string * string) * f32))
    (regex : string → result (string → bool) string)
    (tokens_iter : gmap string (list Posting) → list (string * list Posting)) (p : Pipeline Sem) : SearchIndex := {|
  search_text q := text_search ln iter regex tokens_iter q (text_index p);
  ast_search q max_results := Ok (AstIndexer_search (pl_metadata p) q max_results)
|}.

(** * Properties of the indexing pipeline

    What a full and an incremental indexing leave in the text index, and when the two agree. *)

Section PipelineProps.
Context {Sem : Type} `{SemanticIndex Sem, AstParser, ChunkDigest, GitRepos} (files : string → option FsNode).

(** ** The text index through a call *)

(** Symbols and embeddings do not touch the text. *)
Lemma index_content_text repo path content (p : Pipeline Sem) :
  text_index (index_content repo path content p).2 =
    text_index_file (repo, path) (lang_of path) content (text_index p).
Proof.
  unfold index_content, and_then, with_text. cbn. destruct (should_parse path); [|done].
  unfold index_symbols. cbn. destruct (ast_index_file _ _ _ _ _ _) as [[r|e] m]; [|done]. cbn.
  unfold embed_chunks_of. cbn. destruct (pl_semantic p) as [sem|]; [|done].
  destruct (create_chunks_from_ast _ _ _ _ _ _) as [|c l]; [done|]. by destruct (sem_index_chunks _ _) as [[n|e] sem'].
Qed.

Lemma remove_file_text repo path (p : Pipeline Sem) :
  (remove_file_from_index repo path p).1 = Ok tt ∧
  text_index (remove_file_from_index repo path p).2 = text_remove_file (repo, path) (text_index p).
Proof. done. Qed.

(** The documents after a file of the tree was looked at. *)
Definition file_indexed (repo : string) (dir : FsNode) (docs : gmap (string * string) (string * string)) (path : string)
    : gmap (string * string) (string * string) :=
  match read_to_string dir path with
  | Some content => <[(repo, path) := (lang_of path, content)]> docs
  | None => docs
  end.

Lemma index_single_file_text repo dir path (p p' : Pipeline Sem) r docs :
  index_single_file repo dir path p = (Ok r, p') → represents (text_index p) docs →
  represents (text_index p') (file_indexed repo dir docs path).
Proof.
  unfold index_single_file, file_indexed. destruct (read_to_string dir path) as [content|]; [|by intros [= _ <-]].
  unfold and_then at 1. destruct (remove_file_from_index repo path p) as [u q] eqn:Hq.
  destruct (remove_file_text repo path p) as [Hu Ht]. rewrite Hq in Hu, Ht. cbn in Hu, Ht. subst u.
  unfold and_then, return_. intros Hc Hr. pose proof (index_content_text repo path content q) as Hi.
  destruct (index_content repo path content q) as [[c|e] q']; [|done]. cbn in Hc, Hi. simplify_eq. rewrite Hi, Ht.
  rewrite <-(insert_delete_eq docs). by apply text_index_file_represents, text_remove_file_represents.
Qed.

Lemma index_entries_text repo dir entries n s c (p p' : Pipeline Sem) r docs :
  index_entries repo dir entries n s c p = (Ok r, p') → represents (text_index p) docs →
  represents (text_index p') (foldl (file_indexed repo dir) docs entries).
Proof.
  revert n s c p docs. induction entries as [|path entries IH]; intros n s c p docs; cbn [index_entries foldl].
  { by intros [= _ <-]. }
  unfold file_indexed at 2. destruct (read_to_string dir path) as [content|]; [|apply IH].
  unfold and_then. pose proof (index_content_text repo path content p) as Hi.
  destruct (index_content repo path content p) as [[k|e] q]; [|done]. cbn in Hi. intros Hq Hr.
  eapply IH; [exact Hq|]. rewrite Hi. by apply text_index_file_represents.
Qed.

Definition diff_applied (repo : string) (dir : FsNode) (docs : gmap (string * string) (string * string)) (d : RepoFileDiff)
    : gmap (string * string) (string * string) :=
  match rd_kind d with
  | DiffDeleted => delete (repo, rd_path d) docs
  | _ => file_indexed repo dir docs (rd_path d)
  end.

Lemma index_diffs_text repo dir diffs n s c (p p' : Pipeline Sem) r docs :
  index_diffs repo dir diffs n s c p = (Ok r, p') → represents (text_index p) docs →
  represents (text_index p') (foldl (diff_applied repo dir) docs diffs).
Proof.
  revert n s c p docs. induction diffs as [|d diffs IH]; intros n s c p docs; cbn [index_diffs foldl].
  { by intros [= _ <-]. }
  unfold diff_applied at 2. destruct (rd_kind d).
  3: { unfold and_then. destruct (remove_file_from_index repo (rd_path d) p) as [u q] eqn:Hq.
       destruct (remove_file_text repo (rd_path d) p) as [Hu Ht]. rewrite Hq in Hu, Ht. cbn in Hu, Ht. subst u.
       intros Hi Hr. eapply IH; [exact Hi|]. rewrite Ht. by apply text_remove_file_represents. }
  all: unfold and_then; destruct (index_single_file repo dir (rd_path d) p) as [[k|e] q] eqn:Hq; [|done].
  all: intros Hi Hr; eapply IH; [exact Hi|]; by eapply index_single_file_text.
Qed.

(** ** Documents of a tree *)

(** What the walk shows of a path: the paths it lists, where they can be read. *)
Definition shown (dir : FsNode) (paths : list string) (path : string) : option (string * string) :=
  if bool_decide (path ∈ paths) then (λ content, (lang_of path, content)) <$> read_to_string dir path else None.

(** The documents of [repo] are those a tree shows. *)
Definition shows (repo : string) (dir : FsNode) (paths : list string) (docs : gmap (string * string) (string * string)) : Prop :=
  ∀ path, docs !! (repo, path) = shown dir paths path.

Lemma entries_lookup repo dir paths docs k :
  foldl (file_indexed repo dir) docs paths !! k =
    if bool_decide (k.1 = repo ∧ k.2 ∈ paths) && bool_decide (is_Some (read_to_string dir k.2))
    then (λ content, (lang_of k.2, content)) <$> read_to_string dir k.2 else docs !! k.
Proof.
  induction paths as [|path paths IH] using rev_ind.
  { cbn. rewrite bool_decide_eq_false_2; [done|]. intros [_ Hin]. by apply elem_of_nil in Hin. }
  rewrite foldl_snoc. unfold file_indexed at 1. destruct k as [r f]. cbn [fst snd] in *.
  destruct (decide ((repo, path) = (r, f))) as [[= <- <-]|Hne].
  - rewrite (bool_decide_eq_true_2 (repo = repo ∧ path ∈ paths ++ [path])) by set_solver.
    destruct (read_to_string dir path) as [content|]; [|rewrite IH; by rewrite andb_false_r].
    rewrite lookup_insert_eq. by rewrite bool_decide_eq_true_2 by done.
  - replace (bool_decide (r = repo ∧ f ∈ paths ++ [path])) with (bool_decide (r = repo ∧ f ∈ paths))
      by (apply bool_decide_ext; rewrite elem_of_app, list_elem_of_singleton; naive_solver).
    rewrite <-IH. destruct (read_to_string dir path); [|done]. by rewrite lookup_insert_ne.
Qed.

(** Nothing outside the repository changes. *)
Definition same_elsewhere (repo : string) (docs docs' : gmap (string * string) (string * string)) : Prop :=
  ∀ r f, r ≠ repo → docs' !! (r, f) = docs !! (r, f).

Lemma full_index_text clk spec (p p' : Pipeline Sem) r docs dir paths :
  full_index files clk spec p = (Ok r, p') → (rp_local_path spec ≫= files) = Some dir → walk_directory dir = Ok paths →
  represents (text_index p) docs →
  ∃ docs', represents (text_index p') docs' ∧ shows (rp_repo_id spec) dir paths docs' ∧ same_elsewhere (rp_repo_id spec) docs docs'.
Proof.
  unfold full_index. intros Hf Hd Hw Hr. rewrite Hd in Hf.
  unfold and_then, with_metadata, with_text, with_semantic, index_directory, lift, return_ in Hf. cbn in Hf.
  unfold and_then in Hf. rewrite Hw in Hf.
  match type of Hf with context[index_entries ?repo ?d ?ps ?n ?s ?c ?q] =>
    destruct (index_entries repo d ps n s c q) as [[ok|e] q'] eqn:Hi; [|done] end.
  cbn in Hf. simplify_eq. eapply index_entries_text in Hi; [|cbn; by apply text_remove_repo_represents].
  eexists. split; [exact Hi|]. set (docs0 := filter _ docs).
  assert (∀ f, docs0 !! (rp_repo_id spec, f) = None) as Hnone.
  { intros f. apply map_lookup_filter_None_2. right. intros x _ Hx. by apply Hx. }
  split.
  - intros f. rewrite entries_lookup. cbn [fst snd]. unfold shown. rewrite Hnone.
    destruct (read_to_string dir f) as [content|]; cbn [fmap option_fmap option_map].
    + rewrite (bool_decide_eq_true_2 (is_Some _)), andb_true_r by done. by rewrite (bool_decide_ext (rp_repo_id spec = rp_repo_id spec ∧ f ∈ paths) (f ∈ paths)) by naive_solver.
    + rewrite (bool_decide_eq_false_2 (is_Some _)), andb_false_r by (by intros []). by destruct (bool_decide _).
  - intros r' f Hne. rewrite entries_lookup. cbn [fst snd]. rewrite bool_decide_eq_false_2 by naive_solver. cbn.
    unfold docs0. rewrite map_lookup_filter. destruct (docs !! (r', f)) as [d|]; [|done]. cbn. by rewrite option_guard_True.
Qed.

(** ** Incremental against full *)

(** What the difference of two trees says of a path it names, and of those it does not. *)
Record diffs_between (old new : FsNode) (old_paths new_paths : list string) (diffs : list RepoFileDiff) : Prop := {
  diffs_once : NoDup (rd_path <$> diffs);
  diffs_rest path : path ∉ rd_path <$> diffs → shown old old_paths path = shown new new_paths path;
  diffs_deleted d : d ∈ diffs → rd_kind d = DiffDeleted → shown new new_paths (rd_path d) = None;
  diffs_present d : d ∈ diffs → rd_kind d ≠ DiffDeleted →
    rd_path d ∈ new_paths ∧ is_Some (read_to_string new (rd_path d))
}.

Lemma diffs_lookup repo dir diffs docs path :
  NoDup (rd_path <$> diffs) →
  foldl (diff_applied repo dir) docs diffs !! (repo, path) =
    match List.find (λ d, rd_path d ==? path) diffs with
    | Some d => match rd_kind d with
                | DiffDeleted => None
                | _ => match read_to_string dir path with
                       | Some content => Some (lang_of path, content)
                       | None => docs !! (repo, path)
                       end
                end
    | None => docs !! (repo, path)
    end.
Proof.
  revert docs. induction diffs as [|d diffs IH]; intros docs Hn; [done|]. cbn [fmap list_fmap] in Hn.
  apply NoDup_cons in Hn as [Hd Hn]. cbn [foldl List.find]. rewrite IH by done. case_bool_decide as Hp.
  - subst path. assert (List.find (λ d', rd_path d' ==? rd_path d) diffs = None) as ->.
    { destruct (List.find _ diffs) as [d'|] eqn:Hf; [|done]. apply find_some in Hf as [Hin He].
      destruct Hd. apply bool_decide_eq_true in He. rewrite <-He. apply list_elem_of_fmap_2. by apply list_elem_of_In. }
    unfold diff_applied, file_indexed. destruct (rd_kind d); [| |by rewrite lookup_delete_eq|];
      destruct (read_to_string dir (rd_path d)); by rewrite ?lookup_insert_eq.
  - assert (diff_applied repo dir docs d !! (repo, path) = docs !! (repo, path)) as ->; [|done].
    unfold diff_applied, file_indexed. assert ((repo, rd_path d) ≠ (repo, path)) by congruence.
    destruct (rd_kind d); try (by rewrite lookup_delete_ne); destruct (read_to_string dir (rd_path d)); by rewrite ?lookup_insert_ne.
Qed.

Lemma diffs_elsewhere repo dir diffs docs : same_elsewhere repo docs (foldl (diff_applied repo dir) docs diffs).
Proof.
  revert docs. induction diffs as [|d diffs IH]; intros docs; [done|]. cbn [foldl]. intros r f Hr.
  rewrite (IH _ r f Hr). unfold diff_applied, file_indexed. assert ((repo, rd_path d) ≠ (r, f)) by congruence.
  destruct (rd_kind d); try (by rewrite lookup_delete_ne); destruct (read_to_string dir (rd_path d)); by rewrite ?lookup_insert_ne.
Qed.

Lemma diffs_show repo old new old_paths new_paths diffs docs :
  diffs_between old new old_paths new_paths diffs → shows repo old old_paths docs →
  shows repo new new_paths (foldl (diff_applied repo new) docs diffs).
Proof.
  intros Hd Hs path. rewrite diffs_lookup by apply Hd. destruct (List.find _ diffs) as [d|] eqn:Hf.
  - apply find_some in Hf as [Hin He]. apply list_elem_of_In in Hin. apply bool_decide_eq_true in He. subst path.
    destruct (rd_kind d) eqn:Hk; [| |by rewrite (diffs_deleted _ _ _ _ _ Hd d Hin Hk)|].
    all: destruct (diffs_present _ _ _ _ _ Hd d Hin) as [Hp [content Hc]]; [by rewrite Hk|].
    all: unfold shown; rewrite Hc, bool_decide_eq_true_2 by done; done.
  - rewrite Hs. apply (diffs_rest _ _ _ _ _ Hd). intros (d & -> & Hin)%list_elem_of_fmap_1.
    apply list_elem_of_In in Hin. pose proof (find_none _ _ Hf d Hin) as Hne. cbn in Hne. by rewrite bool_decide_eq_true_2 in Hne.
Qed.

(** An incremental run that goes through the differences. *)
Lemma incremental_index_text clk spec existing (p p' : Pipeline Sem) r docs local_path dir head diffs :
  incremental_index files clk spec existing p = (Ok r, p') →
  rp_local_path spec = Some local_path → files local_path = Some dir →
  get_head_sha spec = Ok head → head ≠ last_indexed_sha existing →
  compute_diff spec (last_indexed_sha existing) head = Ok diffs → diffs ≠ [] →
  represents (text_index p) docs →
  represents (text_index p') (foldl (diff_applied (rp_repo_id spec) dir) docs diffs).
Proof.
  unfold incremental_index. intros Hi Hl Hd Hh Hne Hc Hdne Hr. rewrite Hl, Hd in Hi.
  unfold and_then, lift, with_metadata, return_ in Hi. rewrite Hh in Hi. rewrite bool_decide_eq_false_2 in Hi by done.
  rewrite Hc in Hi. rewrite (bool_decide_eq_false_2 (diffs = [])) in Hi by done. cbn [andb] in Hi.
  match type of Hi with context[index_diffs ?repo ?d ?ds ?n ?s ?c ?q] =>
    destruct (index_diffs repo d ds n s c q) as [[ok|e] q'] eqn:Hq; [|done] end.
  cbn in Hi. simplify_eq. eapply index_diffs_text in Hq; [exact Hq|done].
Qed.

Lemma same_documents repo dir paths docs d1 d2 :
  shows repo dir paths d1 → shows repo dir paths d2 → same_elsewhere repo docs d1 → same_elsewhere repo docs d2 → d1 = d2.
Proof.
  intros Hd1 Hd2 E1 E2. apply map_eq. intros [r f]. destruct (decide (r = repo)) as [->|Hne].
  - by rewrite Hd1, Hd2.
  - by rewrite E1, E2.
Qed.

(** C37: an incremental indexing ends where a full one does.  Suppose the documents of a
    repository are those of an earlier tree, and git names the paths that differ between
    that tree and the present one: the deleted ones, and with any other kind paths that the
    walk lists and that can be read.  Then the two ways to index it, when both succeed,
    leave text indexes that stand for the same documents, the present ones of this
    repository and the untouched ones of all others. *)
Theorem incremental_is_full clk spec existing (p p1 p2 : Pipeline Sem) r1 r2 docs local_path old new old_paths new_paths head diffs :
  rp_local_path spec = Some local_path → files local_path = Some new → walk_directory new = Ok new_paths →
  get_head_sha spec = Ok head → head ≠ last_indexed_sha existing →
  compute_diff spec (last_indexed_sha existing) head = Ok diffs → diffs ≠ [] →
  diffs_between old new old_paths new_paths diffs →
  represents (text_index p) docs → shows (rp_repo_id spec) old old_paths docs →
  incremental_index files clk spec existing p = (Ok r1, p1) → full_index files clk spec p = (Ok r2, p2) →
  ∃ docs', represents (text_index p1) docs' ∧ represents (text_index p2) docs' ∧
    shows (rp_repo_id spec) new new_paths docs' ∧ same_elsewhere (rp_repo_id spec) docs docs'.
Proof.
  intros Hl Hf Hw Hh Hne Hc Hdne Hd Hr Hs Hi Hfull.
  pose proof (incremental_index_text _ _ _ _ _ _ _ _ _ _ _ Hi Hl Hf Hh Hne Hc Hdne Hr) as H1'.
  pose proof (diffs_show _ _ _ _ _ _ _ Hd Hs) as Hs1.
  destruct (full_index_text clk spec p p2 r2 docs new new_paths) as (d2 & Hr2 & Hs2 & He2); [done|by rewrite Hl|done..|].
  pose proof (diffs_elsewhere (rp_repo_id spec) new diffs docs) as He1.
  rewrite (same_documents _ _ _ _ _ _ Hs2 Hs1 He2 He1) in Hr2. eauto 10.
Qed.

(** A repository whose first indexing was interrupted is reported healthy and stays
    empty.  The state a full indexing writes before its first file has no commit; the next
    run is incremental, the difference from no commit is empty, and an empty difference
    falls back to a full indexing only when there is a commit.  So that run touches nothing
    of the text, the symbols or the embeddings, counts no file, and writes that the
    repository is healthy at the present head. *)
Theorem interrupted_index_is_healthy clk spec existing (p : Pipeline Sem) local_path dir head :
  last_indexed_sha existing = "" → head ≠ "" →
  rp_local_path spec = Some local_path → files local_path = Some dir →
  clone_or_open spec = Ok tt → head_sha spec = Ok head →
  ∃ p' s, incremental_index files clk spec existing p = (Ok (mkIndexResponse (rp_repo_id spec) 0 0 0 0), p') ∧
    text_index p' = text_index p ∧ pl_semantic p' = pl_semantic p ∧ md_symbols (pl_metadata p') = md_symbols (pl_metadata p) ∧
    get_index_state (rp_repo_id spec) (pl_metadata p') = Some s ∧ ix_health s = IndexHealthy ∧ last_indexed_sha s = head ∧
    files_count s = files_count existing.
Proof.
  intros Hsha Hne Hl Hf Ho Hh. unfold incremental_index. rewrite Hl, Hf.
  unfold and_then, lift, with_metadata, return_, get_head_sha, compute_diff, diff_between. rewrite Hl, Ho, Hh, Hsha. cbn.
  rewrite bool_decide_eq_false_2 by done. cbn.
  eexists _, _. split_and!; [done..| | | |].
  { apply (index_state_reads_back (mkIndexState (rp_repo_id spec) head (clk 1%nat) (last_full_reindex existing)
      CURRENT_INDEX_VERSION IndexHealthy (files_count existing + 0) (symbols_count existing + 0) (chunks_count existing + 0)
      (rp_workspace_id spec))). }
  all: cbn; try done; lia.
Qed.
End PipelineProps.

(** * Runs of the indexes

    Concrete repositories and queries: instances of the theorems on the text index and the
    pipeline, and runs in which the code does not do what it is meant to. *)

(** ** Searching the text *)

Definition small_docs : gmap (string * string) (string * string) :=
  <[("r", "b.md") := ("markdown", "other words")]> (<[("r", "a.rs") := ("rust", "fn main() {}")]> ∅).
Definition small_index : TextSearchIndex :=
  text_index_file ("r", "b.md")%string "markdown" "other words"
    (text_index_file ("r", "a.rs")%string "rust" "fn main() {}" TextSearchIndex_new).

Lemma small_index_represents : represents small_index small_docs.
Proof. by apply text_index_file_represents, text_index_file_represents, new_represents. Qed.

Definition ask (text : string) : SearchQuery := mkQuery text [] [] [] [] 10.

(** A search for a word answers its file, through the line it is on. *)
Lemma keyword_search_exact_witness :
  let items := keyword_items (λ x, x) map_to_list (ask "main") small_index in
  items_exact (ask "main") (λ t, t ∈ tokenize_query "main") small_docs items ∧
  (λ it, (it_file_path it, it_start_line it, it_end_line it)) <$> items = [("a.rs"%string, 1, 1)].
Proof.
  split; [|by vm_compute].
  apply (keyword_search_exact (λ x, x) map_to_list (λ m, reflexivity _) (ask "main") small_index small_docs small_index_represents).
Defined.

Lemma regex_search_exact_witness :
  let regex (_ : string) : result (string → bool) string := Ok (λ t, t ==? "words") in
  ∃ items answer, search_regex (λ x, x) map_to_list regex map_to_list (ask "/w.*/") small_index = Ok answer ∧
    items_exact (ask "/w.*/") (λ t, (t ==? "words") = true) small_docs items ∧ answer ⊆ items ∧
    ((length items <= 10)%nat → answer ≡ₚ items).
Proof.
  exact (regex_search_exact (λ x, x) map_to_list (λ m, reflexivity _) (λ _, Ok (λ t, t ==? "words")) map_to_list
    (ask "/w.*/") small_index small_docs small_index_represents (λ m, reflexivity _)).
Defined.

(** The rarity of a token is computed from the number of lines it is on, where the function
    takes a number of documents: six lines of the only document make it rarer than none. *)
Lemma rarity_counts_lines :
  let content := join (String "010" "") (replicate 6 "alpha"%string) in
  let i := text_index_file ("r", "a.md")%string "markdown" content TextSearchIndex_new in
  doc_count i = 1 ∧ length (default [] (inverted_index i !! "alpha"%string)) = 6%nat.
Proof. by vm_compute. Qed.

(** Spaces around a pattern between slashes make it a pattern with slashes and spaces. *)
Lemma spaced_pattern_keeps_slashes :
  is_regex (trim " /foo/ ") = true ∧ regex_pattern " /foo/ " = " /foo/ "%string ∧ regex_pattern "/foo/" = "foo"%string.
Proof. by vm_compute. Qed.

(** A call as it is written in code is taken for a regular expression; where that has no
    such expression, the search fails. *)
Lemma open_parenthesis_fails e :
  let regex (p : string) : result (string → bool) string := if p ==? "main(" then Err e else Ok (λ _, false) in
  text_search (λ x, x) map_to_list regex map_to_list (ask "main(") small_index =
    Err (SearchError ("Invalid regex pattern: " +:+ e)).
Proof. done. Qed.

(** The whole search fails with it, though the symbols and the other texts could answer. *)
Lemma open_parenthesis_fails_hybrid e iter :
  let regex (p : string) : result (string → bool) string := if p ==? "main(" then Err e else Ok (λ _, false) in
  let p : Pipeline unit := mkPipeline small_index FallbackData_default None in
  hybrid_search (H := pipeline_search (λ x, x) map_to_list regex map_to_list p) None iter (ask "main(") =
    Err (SearchError ("Invalid regex pattern: " +:+ e)).
Proof. done. Qed.

(** ** Indexing a repository *)

#[local] Instance no_semantic : SemanticIndex unit :=
  {| sem_index_chunks _ s := (Ok 0, s); sem_remove_file _ _ s := s; sem_remove_repo _ s := s |}.
#[local] Instance no_symbols : AstParser := {| parse_tree _ _ := Ok ([], []) |}.
#[local] Instance no_digest : ChunkDigest := {| blake3_digest l := l; blake3_hex _ := "" |}.

Definition repo : RepoSpec := mkRepoSpec "r" "" "main" (Some "/w"%string) "default".
(** A repository at commit [c2], with what differs since any earlier commit. *)
Definition changed_repo (deltas : list TreeDelta) : GitRepos :=
  {| clone_base_dir := "/tmp/uc-repos"; path_exists _ := true; create_parent _ := Ok tt; git_open _ := Ok tt;
     git_clone _ _ := Ok tt; git_head _ := Ok "main"%string; peel_to_commit _ _ := Ok "c2"%string;
     oid_from_str s := Ok s; find_commit _ oid := Ok oid; merge_base _ a _ := Ok a;
     commit_tree _ commit := Ok commit; diff_tree_to_tree _ _ _ := Ok deltas |}.
Definition modified (path : string) : TreeDelta := mkDelta DeltaModified (Some path) (Some path).
Definition deleted (path : string) : TreeDelta := mkDelta DeltaDeleted (Some path) (Some path).
Definition at_c1 : IndexState := mkIndexState "r" "c1" 0 0 1 IndexHealthy 2 0 0 "default".

Definition old_tree : FsNode := FsDir [("a.md", FsFile (Some "alpha")); ("b.md", FsFile (Some "beta"))]%string.
Definition new_tree : FsNode := FsDir [("a.md", FsFile (Some "gamma")); (".ci.md", FsFile (Some "delta"))]%string.
Definition new_files (path : string) : option FsNode := if path ==? "/w" then Some new_tree else None.
Definition old_files (path : string) : option FsNode := if path ==? "/w" then Some old_tree else None.

Definition indexed_old : Pipeline unit := (full_index (H2 := changed_repo []) old_files (λ _, 0) repo IndexPipeline_new).2.
Definition old_docs : gmap (string * string) (string * string) :=
  <[("r", "b.md") := ("markdown", "beta")]> (<[("r", "a.md") := ("markdown", "alpha")]> ∅).

Lemma indexed_old_represents : represents (text_index indexed_old) old_docs.
Proof. exact (text_index_file_represents _ _ _ _ _ (text_index_file_represents _ _ _ _ _ new_represents)). Qed.

Definition edit_deltas : list TreeDelta := [modified "a.md"; deleted "b.md"].
Definition edits : list RepoFileDiff := omap file_diff edit_deltas.

Lemma edits_between : diffs_between old_tree new_tree ["a.md"; "b.md"]%string ["a.md"%string] edits.
Proof.
  split.
  - apply (bool_decide_unpack _). by vm_compute.
  - intros path Hp. cbn in Hp. unfold shown. rewrite !bool_decide_eq_false_2 by set_solver. done.
  - intros d [->|[->|[]%elem_of_nil]%elem_of_cons]%elem_of_cons; cbn; [done|]. intros _. by vm_compute.
  - intros d [->|[->|[]%elem_of_nil]%elem_of_cons]%elem_of_cons; cbn; [|done]. intros _. split; [by left|by eexists].
Qed.

Lemma incremental_is_full_witness :
  ∃ docs', represents (text_index (incremental_index (H2 := changed_repo edit_deltas) new_files (λ _, 5) repo at_c1 indexed_old).2) docs' ∧
    represents (text_index (full_index (H2 := changed_repo edit_deltas) new_files (λ _, 5) repo indexed_old).2) docs' ∧
    shows "r" new_tree ["a.md"%string] docs' ∧ same_elsewhere "r" old_docs docs'.
Proof.
  eapply (incremental_is_full (H2 := changed_repo edit_deltas) new_files (λ _, 5) repo at_c1 indexed_old _ _ _ _ old_docs "/w"
    old_tree new_tree ["a.md"; "b.md"]%string ["a.md"%string] "c2" edits).
  - reflexivity.
  - reflexivity.
  - reflexivity.
  - reflexivity.
  - discriminate.
  - reflexivity.
  - discriminate.
  - exact edits_between.
  - exact indexed_old_represents.
  - intros path. unfold shown. cbn [rp_repo_id repo]. destruct (decide (path = "a.md"%string)) as [->|Ha]; [by vm_compute|].
    destruct (decide (path = "b.md"%string)) as [->|Hb]; [by vm_compute|].
    rewrite bool_decide_eq_false_2 by set_solver. unfold old_docs. rewrite !lookup_insert_ne by congruence. apply lookup_empty.
  - vm_compute. reflexivity.
  - vm_compute. reflexivity.
Defined.

(** The state a full indexing leaves when it stops before its first file. *)
Definition interrupted : IndexState := mkIndexState "r" "" 0 0 1 IndexIndexing 0 0 0 "default".

Lemma interrupted_index_is_healthy_witness :
  ∃ p' s, incremental_index (H2 := changed_repo []) new_files (λ _, 5) repo interrupted IndexPipeline_new =
      (Ok (mkIndexResponse "r" 0 0 0 0), p') ∧
    documents (text_index p') = ∅ ∧
    get_index_state "r" (pl_metadata p') = Some s ∧ ix_health s = IndexHealthy ∧ last_indexed_sha s = "c2"%string.
Proof.
  destruct (interrupted_index_is_healthy (H2 := changed_repo []) new_files (λ _, 5) repo interrupted IndexPipeline_new
    "/w" new_tree "c2" eq_refl ltac:(discriminate) eq_refl eq_refl eq_refl eq_refl)
    as (p' & s & Hi & Ht & _ & _ & Hs & Hh & Hc & _).
  exists p', s. split_and!; [exact Hi|by rewrite Ht|exact Hs|exact Hh|exact Hc].
Defined.

(** A file full indexing passes over, since its name begins with a dot, is indexed by an
    incremental run once it changes. *)
Lemma hidden_file_is_indexed :
  let added := [mkDelta DeltaAdded (Some ".ci.md"%string) None] in
  let inc := (incremental_index (H2 := changed_repo added) new_files (λ _, 5) repo at_c1 indexed_old).2 in
  let full := (full_index (H2 := changed_repo added) new_files (λ _, 5) repo indexed_old).2 in
  is_Some (documents (text_index inc) !! ("r", ".ci.md")%string) ∧
  documents (text_index full) !! ("r", ".ci.md")%string = None.
Proof. split; [by eexists; vm_compute|by vm_compute]. Qed.

(** A changed file that can no longer be read keeps its old text in the index. *)
Lemma unreadable_file_stays_indexed :
  let files (path : string) := Some (FsDir [("a.md"%string, FsFile None); ("b.md"%string, FsFile (Some "beta"%string))]) in
  let changed := [modified "a.md"] in
  let inc := (incremental_index (H2 := changed_repo changed) files (λ _, 5) repo at_c1 indexed_old).2 in
  let full := (full_index (H2 := changed_repo changed) files (λ _, 5) repo indexed_old).2 in
  is_Some (inverted_index (text_index inc) !! "alpha"%string) ∧ inverted_index (text_index full) !! "alpha"%string = None.
Proof. split; [by eexists; vm_compute|by vm_compute]. Qed.

(** A file that became a link is a delta the difference leaves out: its old text stays. *)
Lemma typechange_is_skipped :
  let files (path : string) := Some (FsDir [("a.md"%string, FsOther); ("b.md"%string, FsFile (Some "beta"%string))]) in
  let changed := [mkDelta DeltaTypechange (Some "a.md"%string) (Some "a.md"%string); modified "b.md"] in
  let inc := (incremental_index (H2 := changed_repo changed) files (λ _, 5) repo at_c1 indexed_old).2 in
  let full := (full_index (H2 := changed_repo changed) files (λ _, 5) repo indexed_old).2 in
  is_Some (inverted_index (text_index inc) !! "alpha"%string) ∧ inverted_index (text_index full) !! "alpha"%string = None.
Proof. split; [by eexists; vm_compute|by vm_compute]. Qed.

(** No query for references or for calls is answered: nothing stores a reference. *)
Lemma references_are_never_found :
  md_references (pl_metadata indexed_old) = [] ∧
  ∀ q n, match q with References _ _ | CallChain _ => AstIndexer_search (pl_metadata indexed_old) q n = [] | _ => True end.
Proof. split; [by vm_compute|]. intros [] n; try done; cbn; unfold search_references; by destruct (Z.to_nat n). Qed.
